(* ===== verification/_CoqProject ===== *)
-Q . S2P
Prelude.v
Utf8.v
Grammar.v
GrammarSpec.v
GrammarTerm.v
GrammarClass.v
GrammarParser.v
GrammarParserSpec.v
GrammarLazy.v
GrammarFindings.v
KvCache.v
KvLemmas.v
KvSlot.v
KvDefrag.v
KvSpec.v
KvWindow.v
KvView.v
KvFindings.v
KqMask.v
KqMaskSpec.v
Outputs.v
OutputsSpec.v
StateIO.v
StateIOSpec.v
StateRoundtrip.v
StateFull.v
StateCtx.v
StateCtxSpec.v
Session.v
HashSet.v
DynAlloc.v
Graph.v
GraphAlloc.v
GallocFrame.v
GallocTable.v
GallocNode.v
GallocWalk.v
GallocSpec.v
GallocInit.v
GallocUse.v
GallocClaims.v
ReasoningBudget.v
Vocab.v
VocabLemmas.v
Bigram.v
SpmTokenizer.v
BpeTokenizer.v
SpecialTokens.v
Tokenize.v
TokenRoundtrip.v
Barrier.v
Rendezvous.v
BarrierSpec.v
BarrierHier.v
BarrierSetup.v
ComputeThreads.v
TensorTypes.v
TensorLayout.v
TensorContext.v
TensorPool.v
TensorOps.v
GraphObject.v
