(* ===== verification/Prelude.v ===== *)
(** * Verification of the logic of dk_llama.cpp

    dk_llama.cpp runs language models.  The library keeps the keys and values of
    earlier tokens in a cache, turns text into tokens and back, builds a graph of
    tensor operations for every batch and places its tensors in memory, and
    restricts what is sampled by grammars and budgets.  This development models
    the exact, discrete part of that: data structures, state machines, parsers and
    allocators.  Definitions are translations of the C and C++ code, named after
    it; they are executable, and integers keep their width ([u32], [i32], [u64] ...
    of this file write out the wrap-around).  Numerical kernels are not modelled.

    ** How the code is rendered

    A routine that can fail returns [res A]: [Ok], or [Err] with the way it fails:
    an exception ([Throw]), an assertion ([Abort]), an access outside an object
    ([Oob]), or the fuel of the model running out ([NoFuel]).  A theorem whose
    conclusion is [Ok] excludes all of these, so it includes termination and
    memory safety.  Loops over an index whose number of rounds is fixed by the code
    are structural; the others take fuel, and where they are used with a concrete
    amount (the length of the text, the size of the table, the number of queued
    bigrams) a theorem shows that it is enough.  Pointers into arrays are indices;
    tensors live at addresses in a finite map; C++ references to elements of a
    vector are read again after each write.  A [float] that is only compared is an
    integer (every finite [float] is a multiple of 2^-149).

    ** Files

    - [Prelude]: outcomes, machine integers, byte strings, lemmas on lists, the
      tactics shared by all files.

    Constrained generation (src/llama-grammar.cpp, common/unicode.cpp,
    common/reasoning-budget.cpp):
    - [Utf8]: the encoder and decoders of code points; round trips, and decoding
      in chunks.
    - [Grammar]: the pushdown machine: stacks, their expansion, acceptance of code
      points and tokens, rejection of candidates, lazy grammars.  [GrammarSpec]
      gives grammars a relational meaning (derivation of words) and proves that
      the machine computes it; [GrammarTerm] defines well-formed rules and proves
      that the machine is safe, that the construction ends for the grammars whose
      left recursion the check can see, and that masking agrees with acceptance
      when there are no token elements; [GrammarClass]
      is about character classes and incomplete characters, [GrammarLazy] about
      triggers and the replay of buffered tokens.
    - [GrammarParser]: the parser of grammar texts, the symbol table, repetitions;
      [GrammarParserSpec]: it ends on every text and yields well-formed rules, so
      that the theorems of [GrammarTerm] apply to what it returns;
      [GrammarFindings]: concrete grammars the code does not handle.
    - [ReasoningBudget]: the state machine that ends a reasoning block after a
      number of tokens, by forcing an end sequence.

    The KV cache (src/llama.cpp, src/llama-context.h, src/llama-hparams.h):
    - [KvCache]: cells, sequence operations, slot search, compaction of
      sliding-window layers, defragmentation.  [KvLemmas] holds the facts about
      cells that the others share; [KvSlot] is about the search for a slot;
      [KvDefrag] about the plan of moves and the rows they copy; [KvSpec] states
      the contract: the cache as a collection of entries, refined by every history
      of operations, and when exactly an operation stops in an assertion;
      [KvWindow] treats compacted layers, from their allocation through every
      micro-batch; [KvView] what is read
      from the cache for callers, for n-gram embeddings and for the graph;
      [KvFindings] shows departures from what comments promise.
    - [KqMask]: the masks of the attention, filled by threads or not; [KqMaskSpec]:
      the values under every schedule, which entries of the cache a token attends
      to, and the masks of compacted layers.
    - [Outputs]: decoding a batch in micro-batches, with what a graph computes as a
      parameter; the buffer of the rows that were asked for and their lookup.
      [OutputsSpec]: each token gets its row wherever the batch was cut (as long as
      the 32-bit offset of a row of logits does not wrap), and decoding returns.
    - [StateIO]: a sequence, or the whole cache, as bytes: cells, keys, values,
      recurrent states; writers and the reader that restores them.  [StateIOSpec]
      says what is written and what reading the tensors does, [StateRoundtrip]
      that a sequence that is saved and restored keeps the saved fields of its
      cells and their rows and leaves the others alone, [StateFull] the same of the whole cache, and what
      a saved state does not hold.
    - [StateCtx]: a whole context in buffers and session files: random state, rows
      of outputs, cache; the files of sequences.  [StateCtxSpec] follows the bytes
      through every reader, [Session] shows that a session is restored, that the
      outputs of a decoded batch survive it, and that a batch that was stopped
      cannot be saved.

    Graphs and their memory (ggml/src/ggml.c, ggml-impl.h, ggml-alloc.c):
    - [HashSet]: the open-addressing pointer set, refined to a finite set.
    - [Graph]: tensors, the construction of a compute graph by depth-first
      traversal, copies of graphs.
    - [DynAlloc]: the offset allocator with its array of free blocks.
    - [GraphAlloc]: the graph allocator, which composes the three.  [GallocTable]
      sees its hash table as a map, [GallocFrame] says what a walk leaves alone,
      [GallocNode] and [GallocWalk] carry the memory invariant through the
      operations on a tensor and the walk over a graph, [GallocSpec], [GallocInit]
      and [GallocUse] derive what callers rely on: reservations clobber nothing,
      and allocating after reserving succeeds at the recorded addresses;
      [GallocClaims] collects the theorems with concrete runs.

    Tensors (ggml/src/ggml.c, ggml-common.h):
    - [TensorTypes]: the table of element types and the sizes of their blocks.
    - [TensorLayout]: shapes and strides, and what contiguity means for the places
      of the elements.
    - [TensorContext]: contexts with their memory pools; creation of tensors, views,
      reshapes, permutations.  [TensorPool] keeps the invariant of the pool, and the
      division of the scratch buffer, through every call; [TensorOps] has the theorems for callers and runs them.
      [GraphObject]: a graph and its arrays as one object of a pool.

    Running graphs (ggml/src/ggml.c):
    - [Barrier]: the flat barrier and the barrier in two levels, as steps of the
      threads on shared counters.  [Rendezvous] is the invariant of one counter
      pair; [BarrierSpec] states what the loop of a thread may rely on (the class
      [BarrierProtocol]) and shows it of the flat barrier, [BarrierHier] of the
      one in two levels, with [BarrierSetup] on the division of the threads.
    - [ComputeThreads]: the loop of the threads over the nodes: they compute the
      same node at the same time under every schedule, and finish under every fair
      one.

    Text (src/llama-vocab.cpp, src/unicode.cpp):
    - [Vocab], [VocabLemmas]: token tables, their loading and queries, byte tokens,
      the escaping of spaces.
    - [Bigram]: the symbol chain, the work queue (an interface: the class
      [PriorityQueue]) and the reference definition of greedy merging;
      [SpmTokenizer] and [BpeTokenizer] show that the two sessions, whose queues
      hold outdated entries, compute it.
    - [SpecialTokens]: the partition of a text at its special tokens; nothing but
      white space that a token strips is lost.
    - [Tokenize]: tokenizing with SPM vocabularies, pieces of tokens and
      detokenizing for all types; [TokenRoundtrip]: detokenizing the tokens of a
      text gives the text back.

    ** How the parts fit together

    The parser's result is what the grammar machine takes; the machine reads
    tokens through their pieces, which [Tokenize] produces from a vocabulary, and
    the decoder of [Utf8].  The tokens sampled go into the cells of [KvCache], for
    which [Outputs] calls the step of [KvCache] on every micro-batch; the masks of
    [KqMask] are read off the cells that this step leaves, and [StateIO] restores a
    sequence through the search of [KvCache] for a slot.  [StateCtx] saves the rows
    that [Outputs] left together with that cache.  A graph is built by [Graph] on [HashSet] and placed by [GraphAlloc] on [HashSet]
    and [DynAlloc]; [ComputeThreads] walks it.  The theorems about a client use those about the component it
    calls: parser on machine, graph allocator on hash set and offset allocators,
    tokenizing on sessions, sessions on the bigram reference.

    ** Assumptions

    Code outside the repository is a parameter with its documented behaviour as a
    hypothesis: a priority queue pops a greatest element, a backend buffer of a
    size has that many bytes, [malloc] returns memory of arbitrary contents, a random
    state is read back from the text it prints.  Each
    theorem with such a hypothesis has a run in which it holds.

    ** Not modelled

    Kernels, quantisation and GPU backends (floating-point and device code); the
    loading of models and the network; the operators one by one and the graphs of particular models, which only call operators; the
    splitting of words by regular expressions and the tokenizer sessions of WPM,
    UGM, RWKV and PLaMo-2 vocabularies; the scheduler that splits a graph between
    backends; of saved states tensors split over devices, errors of the file system
    and the parts for openPangu and DeepSeek-V4; in decoding the captures
    for speculative heads, the reuse of graphs and the encoder; samplers that compute with
    probabilities; JSON schemas, chat templates and the server. *)
From Stdlib Require Export ZArith Lia.
From stdpp Require Export base tactics list gmap sorting strings countable option numbers list.

#[global] Open Scope Z_scope.

(** ** Outcomes

    A C++ routine returns, throws a [std::runtime_error], stops in
    [GGML_ASSERT]/[GGML_ABORT], reads or writes outside an object (undefined
    behaviour), or does not return.  [res] keeps these apart: a theorem that a
    routine is [Ok] excludes all the others. *)

Inductive fault : Type :=
  | Throw (msg : string)   (** an exception reaches the caller *)
  | Abort                  (** GGML_ASSERT or GGML_ABORT *)
  | Oob                    (** access outside an array or vector *)
  | NoFuel.                (** the model's fuel ran out: nothing is claimed *)

Inductive res (A : Type) : Type :=
  | Ok (a : A)
  | Err (f : fault).
Arguments Ok {A} _.
Arguments Err {A} _.

#[global] Instance fault_eq_dec : EqDecision fault.
Proof. solve_decision. Defined.
#[global] Instance res_eq_dec `{EqDecision A} : EqDecision (res A).
Proof. solve_decision. Defined.

#[global] Instance res_ret : MRet res := @Ok.
#[global] Instance res_bind : MBind res := λ A B f m,
  match m with Ok a => f a | Err e => Err e end.
#[global] Instance res_fmap : FMap res := λ A B f m,
  match m with Ok a => Ok (f a) | Err e => Err e end.

(** [GGML_ASSERT (b)]. *)
Definition ggml_assert (b : bool) : res unit := if b then Ok tt else Err Abort.

(** Reading [v[i]] of a vector or array. *)
Definition at_ {A} (v : list A) (i : nat) : res A :=
  match v !! i with Some x => Ok x | None => Err Oob end.

(** Writing [v[i] = x]. *)
Definition put {A} (v : list A) (i : nat) (x : A) : res (list A) :=
  if decide (i < length v)%nat then Ok (<[i := x]> v) else Err Oob.

Section res_lemmas.
Context {A B C : Type}.

Lemma bind_Ok (f : A → res B) (m : res A) (b : B) :
  m ≫= f = Ok b ↔ ∃ a, m = Ok a ∧ f a = Ok b.
Proof.
  destruct m as [a|e]; cbn.
  - split; [eauto|]. intros (? & [= <-] & ?). done.
  - split; [done|]. intros (? & ? & ?). done.
Qed.

Lemma bind_assoc (m : res A) (f : A → res B) (g : B → res C) :
  (m ≫= f) ≫= g = m ≫= (λ a, f a ≫= g).
Proof. by destruct m. Qed.

Lemma fmap_Ok (f : A → B) (m : res A) (b : B) :
  f <$> m = Ok b ↔ ∃ a, m = Ok a ∧ b = f a.
Proof.
  destruct m as [a|e]; cbn.
  - split; [intros [= <-]; eauto|]. intros (? & [= <-] & ->). done.
  - split; [done|]. intros (? & ? & ?). done.
Qed.

Lemma at_Ok (v : list A) (i : nat) (x : A) : at_ v i = Ok x ↔ v !! i = Some x.
Proof. unfold at_. destruct (v !! i); split; congruence. Qed.

Lemma at_lt (v : list A) (i : nat) : (i < length v)%nat → ∃ x, at_ v i = Ok x ∧ v !! i = Some x.
Proof.
  intros [x Hx]%lookup_lt_is_Some_2. exists x. by rewrite at_Ok.
Qed.

Lemma put_Ok (v v' : list A) (i : nat) (x : A) :
  put v i x = Ok v' ↔ (i < length v)%nat ∧ v' = <[i := x]> v.
Proof.
  unfold put. case_decide.
  - split; [by intros [= <-]|]. by intros [_ ->].
  - split; [done|]. by intros [? _].
Qed.

Lemma put_lt (v : list A) (i : nat) (x : A) :
  (i < length v)%nat → put v i x = Ok (<[i := x]> v).
Proof. intros. by apply put_Ok. Qed.
End res_lemmas.

Lemma ggml_assert_Ok (b : bool) (u : unit) : ggml_assert b = Ok u ↔ b = true.
Proof. destruct b, u; split; done. Qed.

(** Take apart a successful computation. *)
Ltac inv_res :=
  repeat match goal with
  | H : mbind _ _ = Ok _ |- _ => apply bind_Ok in H as (? & ? & ?)
  | H : fmap _ _ = Ok _ |- _ => apply fmap_Ok in H as (? & ? & ?)
  | H : mret _ = Ok _ |- _ => injection H as H
  | H : at_ _ _ = Ok _ |- _ => apply at_Ok in H
  | H : put _ _ _ = Ok _ |- _ => apply put_Ok in H as [? ?]
  | H : ggml_assert _ = Ok _ |- _ => apply ggml_assert_Ok in H
  | H : Ok _ = Ok _ |- _ => injection H as H
  | H : Err _ = Ok _ |- _ => discriminate H
  | H : Ok _ = Err _ |- _ => discriminate H
  | u : unit |- _ => destruct u
  end; simplify_eq.

(** ** Enough fuel

    [enough f Q]: from some fuel on, [f] returns, always the same result, and
    the result satisfies [Q]. *)

Definition enough {A} (f : nat → res A) (Q : A → Prop) : Prop :=
  ∃ n a, Q a ∧ ∀ fuel, (n ≤ fuel)%nat → f fuel = Ok a.

Section enough_lemmas.
Context {A B : Type}.

Lemma enough_const (m : res A) (a : A) (Q : A → Prop) : m = Ok a → Q a → enough (λ _, m) Q.
Proof. intros -> ?. by exists 0%nat, a. Qed.

Lemma enough_bind (f : nat → res A) (g : nat → A → res B) (Q : A → Prop) (R : B → Prop) :
  enough f Q → (∀ a, Q a → enough (λ fuel, g fuel a) R) → enough (λ fuel, f fuel ≫= g fuel) R.
Proof.
  intros (n & a & Ha & Hf) Hg. destruct (Hg a Ha) as (n' & b & Hb & Hgf).
  exists (n + n')%nat, b. split; [done|]. intros fuel Hle. rewrite Hf by lia. cbn. apply Hgf. lia.
Qed.

Lemma enough_weaken (f : nat → res A) (Q R : A → Prop) :
  enough f Q → (∀ a, Q a → R a) → enough f R.
Proof. intros (n & a & ? & ?) HQR. exists n, a. auto. Qed.

Lemma enough_ext (f g : nat → res A) (Q : A → Prop) :
  (∀ fuel, f fuel = g fuel) → enough f Q → enough g Q.
Proof. intros Hfg (n & a & ? & Hf). exists n, a. split; [done|]. intros. rewrite <- Hfg. auto. Qed.

Lemma enough_and (f : nat → res A) (Q R : A → Prop) :
  enough f Q → (∀ fuel a, f fuel = Ok a → R a) → enough f (λ a, Q a ∧ R a).
Proof.
  intros (n & a & ? & Hf) HR. exists n, a. split_and!; [done| |done]. by apply (HR n), Hf.
Qed.
End enough_lemmas.

(** ** Safe computations

    [safe P Q m]: [m] returns a value with [Q], throws, or runs out of fuel when
    [P] allows it; it neither aborts nor accesses memory out of bounds. *)

Definition safe {A} (P : Prop) (Q : A → Prop) (m : res A) : Prop :=
  match m with
  | Ok a => Q a
  | Err (Throw _) => True
  | Err NoFuel => P
  | Err _ => False
  end.

Section safe_lemmas.
Context {A B : Type} (P : Prop).

Lemma safe_bind (Q : A → Prop) (R : B → Prop) m (f : A → res B) :
  safe P Q m → (∀ a, Q a → safe P R (f a)) → safe P R (m ≫= f).
Proof. destruct m as [a|[| | |]]; cbn; auto. Qed.

Lemma safe_weaken (Q R : A → Prop) m : safe P Q m → (∀ a, Q a → R a) → safe P R m.
Proof. destruct m as [a|[| | |]]; cbn; auto. Qed.

Lemma safe_Ok (Q : A → Prop) m a : safe P Q m → m = Ok a → Q a.
Proof. by intros H ->. Qed.
End safe_lemmas.

(** ** Machine integers *)

Definition u8  (z : Z) : Z := z mod 2 ^ 8.
Definition u16 (z : Z) : Z := z mod 2 ^ 16.
Definition u32 (z : Z) : Z := z mod 2 ^ 32.
Definition u64 (z : Z) : Z := z mod 2 ^ 64.
(** Conversion to a signed type keeps the low bits (two's complement). *)
Definition i16 (z : Z) : Z := (z + 2 ^ 15) mod 2 ^ 16 - 2 ^ 15.
Definition i32 (z : Z) : Z := (z + 2 ^ 31) mod 2 ^ 32 - 2 ^ 31.
Definition i64 (z : Z) : Z := (z + 2 ^ 63) mod 2 ^ 64 - 2 ^ 63.

Definition SIZE_MAX   : Z := 2 ^ 64 - 1.
Definition UINT32_MAX : Z := 2 ^ 32 - 1.
Definition INT32_MAX  : Z := 2 ^ 31 - 1.

Lemma u32_small z : 0 ≤ z < 2 ^ 32 → u32 z = z.
Proof. apply Z.mod_small. Qed.
Lemma u64_small z : 0 ≤ z < 2 ^ 64 → u64 z = z.
Proof. apply Z.mod_small. Qed.
Lemma i32_small z : - 2 ^ 31 ≤ z < 2 ^ 31 → i32 z = z.
Proof. intros. unfold i32. rewrite Z.mod_small; lia. Qed.
Lemma i64_small z : - 2 ^ 63 ≤ z < 2 ^ 63 → i64 z = z.
Proof. intros. unfold i64. rewrite Z.mod_small; lia. Qed.
Lemma u32_range z : 0 ≤ u32 z < 2 ^ 32.
Proof. apply Z.mod_pos_bound. lia. Qed.
Lemma u64_range z : 0 ≤ u64 z < 2 ^ 64.
Proof. apply Z.mod_pos_bound. lia. Qed.

(** Bit operations on values whose bits do not overlap are arithmetic. *)
Lemma land_ones_mod (x n m : Z) : 0 ≤ n → m = 2 ^ n - 1 → Z.land x m = x mod 2 ^ n.
Proof. intros ? ->. rewrite Z.sub_1_r, <- Z.ones_equiv. by apply Z.land_ones. Qed.

Lemma lor_disjoint_add (a b n : Z) :
  0 ≤ n → 0 ≤ b < 2 ^ n → a mod 2 ^ n = 0 → Z.lor a b = a + b.
Proof.
  intros Hn Hb Ha. symmetry.
  rewrite <- Z.lxor_lor, <- Z.add_nocarry_lxor; [done| |].
  all: apply Z.bits_inj'; intros k Hk; rewrite Z.land_spec, Z.bits_0.
  all: destruct (decide (k < n)) as [Hkn|Hkn].
  all: try (replace a with (a / 2 ^ n * 2 ^ n)
      by (pose proof (Z.div_mod a (2 ^ n) ltac:(lia)); lia);
      rewrite <- Z.shiftl_mul_pow2, Z.shiftl_spec_low by lia; done).
  all: rewrite <- (Z.mod_small b (2 ^ n)) by done.
  all: by rewrite Z.mod_pow2_bits_high, andb_false_r by lia.
Qed.

(** ** Bytes and C strings

    A byte is an integer in [0, 255] (values of type [char] are compared and
    masked only after a conversion to [uint8_t], or with ASCII constants).  A
    [const char *] that walks a zero-terminated string is the list of bytes
    from the pointer on: [*pos] is 0 at the terminator, [pos + 1] drops one. *)

Abbreviation bytes := (list Z).

Definition peek (s : bytes) : Z := match s with [] => 0 | c :: _ => c end.
Definition adv (s : bytes) (n : nat) : bytes := drop n s.
Definition peek_at (s : bytes) (n : nat) : Z := peek (adv s n).

Definition is_byte (b : Z) : Prop := 0 ≤ b < 256.

(** The bytes of an ASCII string constant. *)
Definition str (s : string) : bytes :=
  (λ a, Z.of_N (Ascii.N_of_ascii a)) <$> String.list_ascii_of_string s.

(** ** Lists *)

Section list_lemmas.
Context {A : Type}.

Lemma lookup_drop_cons (l : list A) (i : nat) x :
  l !! i = Some x → drop i l = x :: drop (S i) l.
Proof. intros H. by apply drop_S. Qed.

Lemma drop_lookup_inv (l : list A) (i : nat) x l' :
  drop i l = x :: l' → l !! i = Some x ∧ drop (S i) l = l'.
Proof.
  intros H. assert (l !! i = Some x) as Hx.
  { rewrite <- (Nat.add_0_r i), <- lookup_drop, H. done. }
  split; [done|]. apply lookup_drop_cons in Hx. congruence.
Qed.

Lemma elem_of_insert_inv (l : list A) (i : nat) x y : y ∈ <[i := x]> l → y = x ∨ y ∈ l.
Proof.
  intros (j & Hj)%list_elem_of_lookup. apply list_lookup_insert_Some in Hj as [(? & ? & ?)|[? Hj]].
  - auto.
  - right. by apply list_elem_of_lookup_2 in Hj.
Qed.

Lemma StronglySorted_lookup (R : relation A) (l : list A) (i j : nat) x y :
  StronglySorted R l → (i < j)%nat → l !! i = Some x → l !! j = Some y → R x y.
Proof.
  intros Hs. revert i j. induction Hs as [|z l _ IH Hz]; intros i j Hij Hi Hj; [done|].
  destruct j as [|j]; [lia|]. cbn in Hj. destruct i as [|i]; cbn in Hi.
  - simplify_eq. rewrite Forall_forall in Hz. eapply Hz, list_elem_of_lookup_2, Hj.
  - apply (IH i j); [lia|done..].
Qed.

Lemma list_filter_ext_in (P Q : A → Prop) `{!∀ x, Decision (P x), !∀ x, Decision (Q x)} (l : list A) :
  (∀ x, x ∈ l → P x ↔ Q x) → filter P l = filter Q l.
Proof.
  induction l as [|x l IH]; intros Hpq; [done|]. rewrite !filter_cons, IH by (intros; apply Hpq; by right).
  pose proof (Hpq x ltac:(left)) as Hx. repeat case_decide; try done; tauto.
Qed.

Lemma mapM_Ok {B} (f : A → res B) (l : list A) :
  Forall (λ x, ∃ y, f x = Ok y) l → ∃ k, mapM f l = Ok k ∧ Forall2 (λ x y, f x = Ok y) l k.
Proof.
  induction 1 as [|x l [y Hy] _ (k & Hk & Hf)]; [by exists []|].
  exists (y :: k). split; [cbn; by rewrite Hy, Hk|by constructor].
Qed.
End list_lemmas.

(** ** Automation *)

Create HintDb llama discriminated.
Create Rewrite HintDb llama.
#[export] Hint Resolve u32_range u64_range : llama.

(** Case analysis on one decidable test, everywhere in the goal and context. *)
Tactic Notation "bdec" constr(P) "as" ident(H) :=
  destruct (decide P) as [H|H];
  [rewrite ?(bool_decide_true P H) in *|rewrite ?(bool_decide_false P H) in *].

Ltac zify_div := Z.to_euclidean_division_equations; lia.
