(* ===== verification/Utf8.v ===== *)
(** * UTF-8

    [common/unicode.cpp] (the parser of one code point, the encoder, the
    completeness test used by the reasoning budget) and the two decoders of
    [src/llama-grammar.cpp]: the one that reads a single character of a grammar
    text and the streaming one that turns the pieces of generated tokens into
    code points, carrying an incomplete sequence from one piece to the next. *)
From S2P Require Import Prelude.

(** ** common/unicode.cpp *)

Definition utf8_lookup : list Z := [1;1;1;1;1;1;1;1;1;1;1;1;2;2;3;4].

Definition common_utf8_sequence_length (first_byte : Z) : Z :=
  nth (Z.to_nat (Z.shiftr first_byte 4)) utf8_lookup 0.

Inductive utf8_parse_result : Type :=
  | SUCCESS (codepoint : Z) (bytes_consumed : nat)
  | INCOMPLETE
  | INVALID.

Definition is_cont (b : Z) : bool := bool_decide (Z.land b 0xc0 = 0x80).

(** [input] from [offset] on; the size test [offset >= input.size()] is the
    empty list. *)
Definition common_parse_utf8_codepoint (input : bytes) : utf8_parse_result :=
  match input with
  | [] => INCOMPLETE
  | b0 :: t =>
    if bool_decide (Z.land b0 0x80 = 0) then SUCCESS b0 1
    else if bool_decide (Z.land b0 0x40 = 0) then INVALID
    else if bool_decide (Z.land b0 0x20 = 0) then
      match t with
      | b1 :: _ =>
        if negb (is_cont b1) then INVALID
        else SUCCESS (Z.lor (Z.shiftl (Z.land b0 0x1f) 6) (Z.land b1 0x3f)) 2
      | _ => INCOMPLETE
      end
    else if bool_decide (Z.land b0 0x10 = 0) then
      match t with
      | b1 :: b2 :: _ =>
        if negb (is_cont b1) || negb (is_cont b2) then INVALID
        else SUCCESS (Z.lor (Z.lor (Z.shiftl (Z.land b0 0x0f) 12)
                                   (Z.shiftl (Z.land b1 0x3f) 6))
                            (Z.land b2 0x3f)) 3
      | _ => INCOMPLETE
      end
    else if bool_decide (Z.land b0 0x08 = 0) then
      match t with
      | b1 :: b2 :: b3 :: _ =>
        if negb (is_cont b1) || negb (is_cont b2) || negb (is_cont b3) then INVALID
        else SUCCESS (Z.lor (Z.lor (Z.lor (Z.shiftl (Z.land b0 0x07) 18)
                                          (Z.shiftl (Z.land b1 0x3f) 12))
                                   (Z.shiftl (Z.land b2 0x3f) 6))
                            (Z.land b3 0x3f)) 4
      | _ => INCOMPLETE
      end
    else INVALID
  end.

(** The loop reads the string from its last byte; [s] is the reversed string
    and [i] counts from 1. *)
Fixpoint utf8_is_complete_loop (rev_s : bytes) (i : nat) (left : nat) : bool :=
  match left, rev_s with
  | S left', c :: rev_s' =>
    if is_cont c then utf8_is_complete_loop rev_s' (S i) left'
    else
      let expected := if bool_decide (0xF0 ≤ c) then 4%nat
                      else if bool_decide (0xE0 ≤ c) then 3%nat
                      else if bool_decide (0xC0 ≤ c) then 2%nat else 1%nat in
      bool_decide (expected ≤ i)%nat
  | _, _ => false
  end.

Definition common_utf8_is_complete (s : bytes) : bool :=
  match s with
  | [] => true
  | _ => utf8_is_complete_loop (rev s) 1 (Nat.min 4 (length s))
  end.

Definition common_unicode_cpt_to_utf8 (cpt : Z) : res bytes :=
  if bool_decide (cpt ≤ 0x7f) then Ok [cpt]
  else if bool_decide (0x80 ≤ cpt ∧ cpt ≤ 0x7ff) then
    Ok [Z.lor 0xc0 (Z.land (Z.shiftr cpt 6) 0x1f); Z.lor 0x80 (Z.land cpt 0x3f)]
  else if bool_decide (0x800 ≤ cpt ∧ cpt ≤ 0xffff) then
    Ok [Z.lor 0xe0 (Z.land (Z.shiftr cpt 12) 0x0f);
        Z.lor 0x80 (Z.land (Z.shiftr cpt 6) 0x3f); Z.lor 0x80 (Z.land cpt 0x3f)]
  else if bool_decide (0x10000 ≤ cpt ∧ cpt ≤ 0x10ffff) then
    Ok [Z.lor 0xf0 (Z.land (Z.shiftr cpt 18) 0x07);
        Z.lor 0x80 (Z.land (Z.shiftr cpt 12) 0x3f);
        Z.lor 0x80 (Z.land (Z.shiftr cpt 6) 0x3f); Z.lor 0x80 (Z.land cpt 0x3f)]
  else Err (Throw "invalid codepoint").

Fixpoint common_unicode_cpts_to_utf8 (cps : list Z) : res bytes :=
  match cps with
  | [] => Ok []
  | c :: cps' =>
    s ← common_unicode_cpt_to_utf8 c;
    t ← common_unicode_cpts_to_utf8 cps';
    mret (s ++ t)
  end.

(** ** src/llama-grammar.cpp: one character *)

(** [for (; pos < end && *pos; pos++)]: at most [n] further bytes, stopping at
    the terminator. *)
Fixpoint decode_more (n : nat) (pos : bytes) (value : Z) : Z * bytes :=
  match n, pos with
  | S n', c :: pos' =>
    if bool_decide (c = 0) then (value, pos)
    else decode_more n' pos' (u32 (Z.shiftl value 6 + Z.land c 0x3F))
  | _, _ => (value, pos)
  end.

Definition decode_utf8_char (src : bytes) : Z * bytes :=
  let first_byte := peek src in
  let len := nth (Z.to_nat (Z.shiftr first_byte 4)) utf8_lookup 0 in
  let mask := u8 (Z.shiftl 1 (8 - len) - 1) in
  decode_more (Z.to_nat (len - 1)) (adv src 1) (Z.land first_byte mask).

(** ** src/llama-grammar.cpp: the streaming decoder *)

Record llama_partial_utf8 := PartialUtf8 { pu_value : Z; pu_n_remain : Z }.

#[global] Instance llama_partial_utf8_eq_dec : EqDecision llama_partial_utf8.
Proof. solve_decision. Defined.

(** Continuing the previous decode: [None] is the early return on a byte that
    is not a continuation byte. *)
Fixpoint decode_continue (pos : bytes) (value n_remain : Z) : option (Z * Z * bytes) :=
  match pos with
  | [] => Some (value, n_remain, pos)
  | next_byte :: pos' =>
    if bool_decide (next_byte = 0) || bool_decide (n_remain ≤ 0)
    then Some (value, n_remain, pos)
    else if negb (bool_decide (Z.shiftr next_byte 6 = 2)) then None
    else decode_continue pos' (u32 (Z.shiftl value 6 + Z.land next_byte 0x3F)) (n_remain - 1)
  end.

(** The inner loop on the rest of one sequence (no check of the bytes). *)
Fixpoint decode_rest (pos : bytes) (value n_remain : Z) : Z * Z * bytes :=
  match pos with
  | [] => (value, n_remain, pos)
  | b :: pos' =>
    if bool_decide (b = 0) || bool_decide (n_remain ≤ 0) then (value, n_remain, pos)
    else decode_rest pos' (u32 (Z.shiftl value 6 + Z.land b 0x3F)) (n_remain - 1)
  end.

Definition decode_lookup : list Z := [1;1;1;1;1;1;1;1;0;0;0;0;2;2;3;4].

(** The outer loop: every pass consumes a byte, so [fuel] above the number of
    bytes left is never used up. *)
Fixpoint decode_seqs (fuel : nat) (pos : bytes) (code_points : list Z) (value n_remain : Z)
    : res (list Z * llama_partial_utf8) :=
  match fuel with
  | O => Err NoFuel
  | S fuel' =>
    if bool_decide (peek pos = 0)
    then Ok (code_points ++ [0], PartialUtf8 value n_remain)
    else
      let first_byte := peek pos in
      let n_remain := nth (Z.to_nat (Z.shiftr first_byte 4)) decode_lookup 0 - 1 in
      if bool_decide (n_remain < 0) then Ok ([0], PartialUtf8 0 n_remain)
      else
        let mask := u8 (Z.shiftl 1 (7 - n_remain) - 1) in
        let '(value, n_remain, pos) :=
          decode_rest (adv pos 1) (Z.land first_byte mask) n_remain in
        let code_points := if bool_decide (n_remain = 0)
                           then code_points ++ [value] else code_points in
        decode_seqs fuel' pos code_points value n_remain
  end.

Definition decode_utf8 (src : bytes) (partial_start : llama_partial_utf8)
    : res (list Z * llama_partial_utf8) :=
  match decode_continue src (pu_value partial_start) (pu_n_remain partial_start) with
  | None => Ok ([0], PartialUtf8 0 (-1))
  | Some (value, n_remain, pos) =>
    let code_points :=
      if bool_decide (0 < pu_n_remain partial_start) && bool_decide (n_remain = 0)
      then [value] else [] in
    decode_seqs (S (length pos)) pos code_points value n_remain
  end.

(** ** Properties *)

Section bits.
Lemma shiftl_u32_add (v b : Z) : Z.shiftl v 6 + b = v * 64 + b.
Proof. by rewrite Z.shiftl_mul_pow2 by lia. Qed.

Lemma cont_byte (x : Z) : Z.lor 0x80 (Z.land x 0x3f) = 0x80 + x mod 64.
Proof.
  rewrite (land_ones_mod x 6) by done. apply (lor_disjoint_add _ _ 6); try done.
  apply Z.mod_pos_bound; lia.
Qed.

Lemma lead_byte (k n x m : Z) :
  0 ≤ n → k mod 2 ^ n = 0 → m = 2 ^ n - 1 →
  Z.lor k (Z.land x m) = k + x mod 2 ^ n.
Proof.
  intros. rewrite (land_ones_mod x n) by done. apply (lor_disjoint_add _ _ n); try done.
  apply Z.mod_pos_bound; lia.
Qed.

(** Tests of the high bits of a byte, as comparisons. *)
Lemma testbit_mod_2 (x k : Z) : 0 ≤ k →
  Z.testbit (x mod 2) k = bool_decide (k = 0) && Z.testbit x 0.
Proof.
  intros Hk. change (x mod 2) with (x mod 2 ^ 1). case_bool_decide; subst.
  - by rewrite Z.mod_pow2_bits_low by lia.
  - by rewrite Z.mod_pow2_bits_high by lia.
Qed.

Lemma land_pow2 (b i : Z) : 0 ≤ i → Z.land b (2 ^ i) = (b / 2 ^ i mod 2) * 2 ^ i.
Proof.
  intros Hi. apply Z.bits_inj'. intros k Hk.
  rewrite Z.land_spec, Z.pow2_bits_eqb, <- Z.shiftl_mul_pow2, Z.shiftl_spec by lia.
  destruct (decide (k < i)).
  { rewrite (Z.testbit_neg_r _ (k - i)), andb_false_iff by lia. right. by apply Z.eqb_neq; lia. }
  rewrite testbit_mod_2, Z.div_pow2_bits, andb_comm by lia.
  destruct (Z.eqb_spec i k); case_bool_decide; subst; done || lia.
Qed.

Lemma is_cont_range (b : Z) : is_byte b → is_cont b = bool_decide (128 ≤ b < 192).
Proof.
  intros [? ?]. unfold is_cont. apply bool_decide_ext.
  change (Z.land b 0xc0) with (Z.land b (Z.lor (2 ^ 7) (2 ^ 6))).
  rewrite Z.land_lor_distr_r, !land_pow2 by lia.
  assert (b / 2 ^ 7 mod 2 = 0 ∨ b / 2 ^ 7 mod 2 = 1) as [H7|H7] by zify_div;
  assert (b / 2 ^ 6 mod 2 = 0 ∨ b / 2 ^ 6 mod 2 = 1) as [H6|H6] by zify_div;
    rewrite H7, H6; clear -H7 H6 H H0;
    match goal with |- ?x = _ ↔ _ => let y := eval vm_compute in x in change x with y end;
    change (2 ^ 7) with 128 in *; change (2 ^ 6) with 64 in *; zify_div.
Qed.
End bits.

#[export] Hint Rewrite cont_byte : llama.

(** [lookup[b >> 4]] on the byte classes of UTF-8. *)
Lemma decode_lookup_spec (b : Z) : is_byte b →
  nth (Z.to_nat (Z.shiftr b 4)) decode_lookup 0 =
  if bool_decide (b < 128) then 1 else if bool_decide (b < 192) then 0
  else if bool_decide (b < 224) then 2 else if bool_decide (b < 240) then 3 else 4.
Proof.
  intros [? ?]. rewrite Z.shiftr_div_pow2 by lia.
  assert (b / 2 ^ 4 < 16) by zify_div. assert (0 ≤ b / 2 ^ 4) by zify_div.
  assert (∃ h, b / 2 ^ 4 = h ∧ b = 16 * h + b mod 16 ∧ 0 ≤ b mod 16 < 16) as (h & Hh & Hb & Hr).
  { exists (b / 2 ^ 4). split; [done|]. zify_div. }
  rewrite Hh in *. generalize dependent (b mod 16). intros r Hb Hr. clear Hh.
  assert (h = 0 ∨ h = 1 ∨ h = 2 ∨ h = 3 ∨ h = 4 ∨ h = 5 ∨ h = 6 ∨ h = 7 ∨ h = 8 ∨ h = 9 ∨
    h = 10 ∨ h = 11 ∨ h = 12 ∨ h = 13 ∨ h = 14 ∨ h = 15) as Hcases by lia.
  destruct_or! Hcases; subst h; repeat case_bool_decide; lia || done.
Qed.

(** The encoder's output, as arithmetic. *)
Lemma cpt_to_utf8_cases (cp : Z) : 0 ≤ cp ≤ 0x10ffff →
  common_unicode_cpt_to_utf8 cp =
  Ok (if bool_decide (cp < 128) then [cp]
      else if bool_decide (cp < 2048) then [192 + cp / 64; 128 + cp mod 64]
      else if bool_decide (cp < 65536) then
        [224 + cp / 4096; 128 + cp / 64 mod 64; 128 + cp mod 64]
      else [240 + cp / 262144; 128 + cp / 4096 mod 64; 128 + cp / 64 mod 64; 128 + cp mod 64]).
Proof.
  intros Hcp. unfold common_unicode_cpt_to_utf8.
  rewrite (lead_byte 0xc0 5), (lead_byte 0xe0 4), (lead_byte 0xf0 3), !cont_byte by done.
  rewrite !Z.shiftr_div_pow2 by lia. 
  repeat case_bool_decide; try lia; do 2 f_equal; rewrite Z.mod_small by zify_div; done.
Qed.

Lemma land_bit_0 (b i m : Z) : 0 ≤ i → m = 2 ^ i → Z.land b m = 0 ↔ b / 2 ^ i mod 2 = 0.
Proof.
  intros Hi ->. rewrite land_pow2 by done.
  pose proof (Z.pow_pos_nonneg 2 i ltac:(lia) Hi). nia.
Qed.

Lemma lor_shiftl_low (hi b k : Z) :
  0 ≤ k → 0 ≤ b < 2 ^ k → Z.lor (Z.shiftl hi k) b = hi * 2 ^ k + b.
Proof.
  intros Hk Hb. rewrite Z.shiftl_mul_pow2 by done.
  apply (lor_disjoint_add _ _ k); try done. apply Z.mod_mul. lia.
Qed.

Lemma shiftl_shiftl_lor (x y k : Z) : 0 ≤ k →
  Z.lor (Z.shiftl x (k + 6)) (Z.shiftl y k) = Z.shiftl (Z.lor (Z.shiftl x 6) y) k.
Proof. intros. by rewrite Z.shiftl_lor, Z.shiftl_shiftl, Z.add_comm by lia. Qed.

(** The parser, with its bit tests read as byte classes. *)
Lemma parse_utf8_arith (b0 : Z) (t : bytes) : is_byte b0 → Forall is_byte t →
  common_parse_utf8_codepoint (b0 :: t) =
  if bool_decide (b0 < 128) then SUCCESS b0 1
  else if bool_decide (b0 < 192) then INVALID
  else if bool_decide (b0 < 224) then
    match t with
    | b1 :: _ => if negb (is_cont b1) then INVALID else SUCCESS (b0 mod 32 * 64 + b1 mod 64) 2
    | _ => INCOMPLETE
    end
  else if bool_decide (b0 < 240) then
    match t with
    | b1 :: b2 :: _ =>
      if negb (is_cont b1) || negb (is_cont b2) then INVALID
      else SUCCESS ((b0 mod 16 * 64 + b1 mod 64) * 64 + b2 mod 64) 3
    | _ => INCOMPLETE
    end
  else if bool_decide (b0 < 248) then
    match t with
    | b1 :: b2 :: b3 :: _ =>
      if negb (is_cont b1) || negb (is_cont b2) || negb (is_cont b3) then INVALID
      else SUCCESS (((b0 mod 8 * 64 + b1 mod 64) * 64 + b2 mod 64) * 64 + b3 mod 64) 4
    | _ => INCOMPLETE
    end
  else INVALID.
Proof.
  intros [H0 H1] Ht. unfold common_parse_utf8_codepoint.
  rewrite (bool_decide_ext _ _ (land_bit_0 b0 7 0x80 ltac:(lia) eq_refl)).
  rewrite (bool_decide_ext _ _ (land_bit_0 b0 6 0x40 ltac:(lia) eq_refl)).
  rewrite (bool_decide_ext _ _ (land_bit_0 b0 5 0x20 ltac:(lia) eq_refl)).
  rewrite (bool_decide_ext _ _ (land_bit_0 b0 4 0x10 ltac:(lia) eq_refl)).
  rewrite (bool_decide_ext _ _ (land_bit_0 b0 3 0x08 ltac:(lia) eq_refl)).
  change (2 ^ 7) with 128. change (2 ^ 6) with 64. change (2 ^ 5) with 32.
  change (2 ^ 4) with 16. change (2 ^ 3) with 8.
  assert (∀ x, Z.land x 0x3f = x mod 64) as L6 by (intros; by apply (land_ones_mod x 6)).
  assert (∀ x, 0 ≤ x mod 64 < 2 ^ 6) as R6 by (intros; apply Z.mod_pos_bound; lia).
  rewrite (land_ones_mod b0 5 0x1f), (land_ones_mod b0 4 0x0f), (land_ones_mod b0 3 0x07) by done.
  repeat case_bool_decide; try (exfalso; zify_div); try done.
  - destruct t as [|b1 t]; [done|]. rewrite L6, lor_shiftl_low by (done || apply R6). done.
  - destruct t as [|b1 [|b2 t]]; try done. rewrite !L6.
    rewrite (shiftl_shiftl_lor _ _ 6), !lor_shiftl_low by (done || apply R6). done.
  - destruct t as [|b1 [|b2 [|b3 t]]]; try done. rewrite !L6.
    rewrite (shiftl_shiftl_lor _ (b1 mod 64) 12), (shiftl_shiftl_lor _ (b2 mod 64) 6) by done.
    rewrite !lor_shiftl_low by (done || apply R6). done.
Qed.

Lemma is_cont_128 (x : Z) : 0 ≤ x < 64 → is_cont (128 + x) = true.
Proof. intros. rewrite is_cont_range by (split; lia). apply bool_decide_eq_true. lia. Qed.

#[global] Arguments common_parse_utf8_codepoint : simpl never.

Lemma add_multiple_mod (k m q : Z) : k mod m = 0 → 0 ≤ q < m → (k + q) mod m = q.
Proof.
  intros Hk Hq. rewrite <- Z.add_mod_idemp_l, Hk by lia. apply Z.mod_small. lia.
Qed.

(** Encoding a code point and parsing the bytes back gives the code point
    and consumes exactly the bytes written, whatever follows them. *)
Theorem cpt_utf8_parse_roundtrip (cp : Z) (rest : bytes) :
  0 ≤ cp ≤ 0x10ffff → Forall is_byte rest →
  ∃ s, common_unicode_cpt_to_utf8 cp = Ok s ∧
       common_parse_utf8_codepoint (s ++ rest) = SUCCESS cp (length s).
Proof.
  intros Hcp Hrest. rewrite cpt_to_utf8_cases by done. eexists. split; [done|].
  assert (∀ x, is_byte (128 + x mod 64)) as Hb by (intros; split; zify_div).
  assert (∀ x, is_cont (128 + x mod 64) = true) as Hc
    by (intros; apply is_cont_128; zify_div).
  repeat case_bool_decide; simpl; rewrite parse_utf8_arith, ?Hc;
    try (split; zify_div); try (repeat constructor; auto; fail); simpl.
  all: assert (∀ x, (128 + x mod 64) mod 64 = x mod 64) as Hm by (intros; zify_div).
  all: rewrite ?Hm; repeat case_bool_decide; try (exfalso; zify_div); try done; f_equal.
  all: try (repeat (apply Forall_cons_2; [apply Hb|]); done).
  - assert ((192 + cp / 64) mod 32 = cp / 64) as -> by (apply add_multiple_mod; [done|zify_div]). zify_div.
  - assert ((224 + cp / 4096) mod 16 = cp / 4096) as -> by (apply add_multiple_mod; [done|zify_div]).
    replace (cp / 4096) with (cp / 64 / 64) by (rewrite Z.div_div by lia; done).
    clear. zify_div.
  - assert ((240 + cp / 262144) mod 8 = cp / 262144) as -> by (apply add_multiple_mod; [done|zify_div]).
    replace (cp / 262144) with (cp / 64 / 64 / 64) by (rewrite !Z.div_div by lia; done).
    replace (cp / 4096) with (cp / 64 / 64) by (rewrite !Z.div_div by lia; done).
    clear. zify_div.
Qed.

Lemma cpt_utf8_parse_roundtrip_witness :
  (0 ≤ 0x20ac ≤ 0x10ffff ∧ Forall is_byte [255]) ∧
  ∃ s, common_unicode_cpt_to_utf8 0x20ac = Ok s ∧
       common_parse_utf8_codepoint (s ++ [255]) = SUCCESS 0x20ac (length s).
Proof.
  assert (0 ≤ 0x20ac ≤ 0x10ffff) as H1 by lia.
  assert (Forall is_byte [255]) as H2 by (repeat constructor; lia).
  split; [done|]. exact (cpt_utf8_parse_roundtrip 0x20ac [255] H1 H2).
Defined.

(** *** The streaming decoder *)

#[global] Arguments decode_seqs : simpl never.
#[global] Arguments Z.shiftl : simpl never.

Lemma decode_seqs_S f pos acc v n :
  decode_seqs (S f) pos acc v n =
  if bool_decide (peek pos = 0) then Ok (acc ++ [0], PartialUtf8 v n)
  else
    let r := nth (Z.to_nat (Z.shiftr (peek pos) 4)) decode_lookup 0 - 1 in
    if bool_decide (r < 0) then Ok ([0], PartialUtf8 0 r)
    else
      let '(v', n', pos') :=
        decode_rest (adv pos 1) (Z.land (peek pos) (u8 (Z.shiftl 1 (7 - r) - 1))) r in
      decode_seqs f pos' (if bool_decide (n' = 0) then acc ++ [v'] else acc) v' n'.
Proof. done. Qed.

(** What the inner loop consumes: it stops at the end of the string with
    [n > 0], or with [n = 0]. *)
Lemma decode_rest_spec pos v n v' n' pos' :
  decode_rest pos v n = (v', n', pos') →
  (length pos' ≤ length pos)%nat ∧ (0 ≤ n → 0 ≤ n') ∧ (0 < n' → peek pos' = 0) ∧
  (Forall (λ b, b ≠ 0) pos → (0 < n' → pos' = []) ∧ Forall (λ b, b ≠ 0) pos').
Proof.
  revert v n. induction pos as [|b pos IH]; intros v n; cbn.
  { intros [= <- <- <-]. split_and!; done. }
  destruct (decide (b = 0)) as [Hb|Hb];
    [rewrite (bool_decide_true (b = 0)) by done|rewrite (bool_decide_false (b = 0)) by done]; cbn.
  { intros [= <- <- <-]. split_and!; try done. by intros [? _]%Forall_cons_1. }
  case_bool_decide.
  { intros [= <- <- <-]. split_and!; try done; [lia|]. intros. split; [lia|done]. }
  intros H0. apply IH in H0 as (? & ? & ? & Hnil). split_and!; [lia|lia|done|].
  intros [? ?]%Forall_cons_1. auto.
Qed.

Lemma decode_rest_app pos s2 v n v' n' pos' :
  Forall (λ b, b ≠ 0) pos →
  decode_rest pos v n = (v', n', pos') →
  decode_rest (pos ++ s2) v n =
    if bool_decide (0 < n') then decode_rest s2 v' n' else (v', n', pos' ++ s2).
Proof.
  intros Hnz. revert v n. induction Hnz as [|b pos Hb Hnz IH]; intros v n; cbn.
  { intros [= <- <- <-]. case_bool_decide; [done|].
    destruct s2; cbn; [done|]. rewrite (bool_decide_true (n ≤ 0)) by lia. by rewrite orb_true_r. }
  rewrite (bool_decide_false (b = 0)) by done. cbn.
  destruct (decide (n ≤ 0)); [rewrite (bool_decide_true (n ≤ 0)) by done
    |rewrite (bool_decide_false (n ≤ 0)) by done].
  { intros [= <- <- <-]. by rewrite bool_decide_false by lia. }
  apply IH.
Qed.

(** The unchecked loop does what the checked one does where the latter accepts. *)
Lemma decode_continue_rest pos v n r :
  decode_continue pos v n = Some r → decode_rest pos v n = r.
Proof.
  revert v n. induction pos as [|b pos IH]; intros v n; cbn; [by intros [= <-]|].
  destruct (_ || _); [by intros [= <-]|]. destruct (negb _); [done|]. apply IH.
Qed.

Lemma decode_seqs_fuel f1 f2 pos acc v n :
  (length pos < f1)%nat → (length pos < f2)%nat →
  decode_seqs f1 pos acc v n = decode_seqs f2 pos acc v n.
Proof.
  revert f2 pos acc v n. induction f1 as [|f1 IH]; intros f2 pos acc v n H1 H2; [lia|].
  destruct f2 as [|f2]; [lia|]. rewrite !decode_seqs_S.
  case_bool_decide as Hz; [done|]. cbn zeta. case_bool_decide; [done|].
  destruct (decode_rest _ _ _) as [[v' n'] pos'] eqn:Hr.
  apply decode_rest_spec in Hr as (Hlen & _). unfold adv in Hlen. rewrite length_drop in Hlen.
  destruct pos; [done|]. cbn [length] in *. apply IH; lia.
Qed.

Lemma decode_seqs_total f pos acc v n :
  (length pos < f)%nat → ∃ r, decode_seqs f pos acc v n = Ok r.
Proof.
  revert pos acc v n. induction f as [|f IH]; intros pos acc v n H; [lia|].
  rewrite decode_seqs_S. case_bool_decide as Hz; [eauto|]. cbn zeta. case_bool_decide; [eauto|].
  destruct (decode_rest _ _ _) as [[v' n'] pos'] eqn:Hr.
  apply decode_rest_spec in Hr as (Hlen & _). unfold adv in Hlen. rewrite length_drop in Hlen.
  destruct pos; [done|]. cbn [length] in *. apply IH; lia.
Qed.

(** The accumulator is a prefix of what is returned, unless a byte was invalid. *)
Lemma decode_seqs_acc f pos a b v n cs p :
  decode_seqs f pos b v n = Ok (cs, p) → 0 ≤ pu_n_remain p →
  decode_seqs f pos (a ++ b) v n = Ok (a ++ cs, p).
Proof.
  revert pos b v n. induction f as [|f IH]; intros pos b v n; [done|].
  rewrite !decode_seqs_S. case_bool_decide.
  { intros [= <- <-] _. by rewrite app_assoc. }
  generalize (nth (Z.to_nat (Z.shiftr (peek pos) 4)) decode_lookup 0 - 1); intros r.
  cbn zeta. case_bool_decide.
  { intros [= <- <-]. cbn [pu_n_remain]. intros. exfalso. lia. }
  destruct (decode_rest _ _ _) as [[v' n'] pos']. case_bool_decide.
  - rewrite <- app_assoc. apply IH.
  - apply IH.
Qed.

Lemma decode_continue_nonpos pos v n : n ≤ 0 → decode_continue pos v n = Some (v, n, pos).
Proof. destruct pos; intros; [done|]. cbn. by rewrite (bool_decide_true (n ≤ 0)), orb_true_r by lia. Qed.

Lemma decode_continue_app pos s2 v n v' n' pos' :
  Forall (λ b, b ≠ 0) pos →
  decode_continue pos v n = Some (v', n', pos') →
  n' ≤ n ∧ (0 < n' → pos' = []) ∧ Forall (λ b, b ≠ 0) pos' ∧
  decode_continue (pos ++ s2) v n =
    if bool_decide (0 < n') then decode_continue s2 v' n' else Some (v', n', pos' ++ s2).
Proof.
  intros Hnz. revert v n. induction Hnz as [|b pos Hb Hnz IH]; intros v n; cbn.
  { intros [= <- <- <-]. split_and!; [lia|done|constructor|].
    case_bool_decide; [done|]. by apply decode_continue_nonpos; lia. }
  rewrite (bool_decide_false (b = 0)) by done. cbn.
  destruct (decide (n ≤ 0)); [rewrite (bool_decide_true (n ≤ 0)) by done
    |rewrite (bool_decide_false (n ≤ 0)) by done].
  { intros [= <- <- <-]. split_and!; [lia|lia|by constructor|].
    by rewrite bool_decide_false by lia. }
  destruct (negb _); [done|]. intros (? & ? & ? & ?)%IH. split_and!; done || lia.
Qed.

(** The state between two chunks: a sequence in progress takes its missing
    bytes from the second chunk. *)
Definition resume (f : nat) (s2 : bytes) (acc : list Z) (v n : Z) :=
  let '(v', n', pos') := if bool_decide (0 < n) then decode_rest s2 v n else (v, n, s2) in
  decode_seqs f pos' (if bool_decide (0 < n) && bool_decide (n' = 0) then acc ++ [v'] else acc) v' n'.

Lemma resume_fuel f1 f2 s2 acc v n :
  (length s2 < f1)%nat → (length s2 < f2)%nat → resume f1 s2 acc v n = resume f2 s2 acc v n.
Proof.
  intros. unfold resume.
  destruct (if bool_decide (0 < n) then _ else _) as [[v' n'] pos'] eqn:H'.
  case_bool_decide.
  - apply decode_rest_spec in H' as [? _]. apply decode_seqs_fuel; lia.
  - simplify_eq. by apply decode_seqs_fuel.
Qed.

Lemma decode_seqs_app f f' pos s2 acc v n cs p1 :
  Forall (λ b, b ≠ 0) pos → n ≤ 0 →
  decode_seqs f pos acc v n = Ok (cs ++ [0], p1) → 0 ≤ pu_n_remain p1 ∨ pos = [] →
  (length (pos ++ s2) < f')%nat →
  decode_seqs f' (pos ++ s2) acc v n = resume f' s2 cs (pu_value p1) (pu_n_remain p1).
Proof.
  revert f' pos acc v n. induction f as [|f IH]; intros f' pos acc v n Hnz Hn; [done|].
  rewrite decode_seqs_S. destruct Hnz as [|b t Hb Hnz].
  { intros [= Hcs <-] _ _. apply app_inv_tail in Hcs as <-. unfold resume. cbn.
    by rewrite bool_decide_false by lia. }
  rewrite bool_decide_false by done. destruct f' as [|f']; [intros; cbn in *; lia|].
  cbn [app]. rewrite decode_seqs_S, (bool_decide_false (peek (b :: _) = 0)) by done.
  cbn [peek]. change (adv (b :: t ++ s2) 1) with (t ++ s2).
  change (adv (b :: t) 1) with t.
  generalize (nth (Z.to_nat (Z.shiftr b 4)) decode_lookup 0 - 1); intros r.
  cbn zeta. case_bool_decide as Hr.
  { intros [= _ <-] [?|?]; [cbn [pu_n_remain] in *; exfalso; lia|done]. }
  destruct (decode_rest t _ _) as [[v' n'] pos'] eqn:Ht.
  pose proof (decode_rest_spec _ _ _ _ _ _ Ht) as (Hlen & Hn' & _ & Hrest).
  destruct (Hrest Hnz) as [Hnil Hnz'].
  intros Hcs Hp Hf. cbn [app length] in *. rewrite length_app in Hf.
  rewrite (decode_rest_app t s2 _ _ _ _ _ Hnz Ht) by done.
  destruct Hp as [Hp|?]; [|done].
  bdec (0 < n') as Hpos.
  - rewrite (bool_decide_false (n' = 0)) in * by lia. rewrite Hnil in Hcs by done. destruct f as [|f]; [done|]. rewrite decode_seqs_S in Hcs.
    cbn in Hcs.
    injection Hcs as Hcs <-. apply app_inv_tail in Hcs as <-. unfold resume. cbn [pu_value pu_n_remain].
    rewrite bool_decide_true by done. destruct (decode_rest s2 v' n') as [[v2 n2] pos2] eqn:H2.
    apply decode_rest_spec in H2 as [? _]. cbn. apply decode_seqs_fuel; lia.
  - assert (n' = 0) as -> by lia. rewrite bool_decide_true in * by done.
    rewrite (IH f' pos' (acc ++ [v']) v' 0 Hnz' ltac:(lia) Hcs)
      by (rewrite ?length_app; auto; lia).
    apply resume_fuel; rewrite ?length_app in *; lia.
Qed.

(** C8. The streaming decoder does not depend on how the byte stream is cut
    into pieces: if a piece without NUL is decoded from the state [p0], leaving
    the state [p1], and the next piece is decoded from [p1], neither being
    flagged invalid, then decoding the concatenation from [p0] gives the
    code points of both and the same final state. *)
Theorem decode_utf8_chunks (s1 s2 : bytes) (p0 p1 p2 : llama_partial_utf8) (cs1 cs2 : list Z) :
  Forall (λ b, b ≠ 0) s1 →
  decode_utf8 s1 p0 = Ok (cs1 ++ [0], p1) → 0 ≤ pu_n_remain p1 →
  decode_utf8 s2 p1 = Ok (cs2 ++ [0], p2) → 0 ≤ pu_n_remain p2 →
  decode_utf8 (s1 ++ s2) p0 = Ok (cs1 ++ cs2 ++ [0], p2).
Proof.
  intros Hnz H1 Hp1 H2 Hp2. destruct p0 as [v0 n0], p1 as [v1 n1]. unfold decode_utf8 in *. 
  cbn [pu_value pu_n_remain] in *.
  destruct (decode_continue s1 v0 n0) as [[[v n] pos]|] eqn:Hc; [|exfalso; injection H1; lia].
  destruct (decode_continue s2 v1 n1) as [[[v2 n2] pos2]|] eqn:Hc2; [|exfalso; injection H2 as _ <-; cbn in *; lia].
  destruct (decode_continue_app _ s2 _ _ _ _ _ Hnz Hc) as (Hn & Hnil & Hnz' & ->).
  destruct (decide (0 < n)) as [Hpos|Hpos].
  - rewrite bool_decide_true by done. rewrite Hnil in H1 by done.
    rewrite (bool_decide_false (n = 0)), andb_false_r in H1 by lia. cbn in H1.
    injection H1 as Hcs <- <-. destruct cs1; [|destruct cs1; done].
    rewrite Hc2. rewrite (bool_decide_true (0 < n)) in H2 by done.
    rewrite (bool_decide_true (0 < n0)) by lia. done.
  - rewrite bool_decide_false by done.
    assert (n ≤ 0) as Hn0 by lia.
    rewrite (decode_seqs_app _ _ _ _ _ _ _ _ _ Hnz' Hn0 H1) by (first [by left | lia]).
    unfold resume. cbn [pu_value pu_n_remain]. bdec (0 < n1) as H01; cbn [andb] in *.
    + rewrite (decode_continue_rest _ _ _ _ Hc2).
      replace (if bool_decide (n2 = 0) then cs1 ++ [v2] else cs1)
        with (cs1 ++ (if bool_decide (n2 = 0) then [v2] else [])) by (case_bool_decide; [done|apply app_nil_r]).
      apply decode_seqs_acc; [|done]. rewrite <- H2.
      pose proof (decode_continue_rest _ _ _ _ Hc2) as [? _]%decode_rest_spec.
      apply decode_seqs_fuel; rewrite ?length_app; lia.
    + rewrite decode_continue_nonpos in Hc2 by lia. injection Hc2 as <- <- <-.
      rewrite <- (app_nil_r cs1), <- app_assoc. apply decode_seqs_acc; [|done]. cbn [app].
      rewrite <- H2. apply decode_seqs_fuel; rewrite ?length_app; lia.
Qed.

Lemma decode_utf8_chunks_witness :
  decode_utf8 ([0x61; 0xe2; 0x82] ++ [0xac; 0x62]) (PartialUtf8 0 0)
  = Ok ([0x61] ++ [0x20ac; 0x62] ++ [0], PartialUtf8 0x62 0).
Proof.
  apply (decode_utf8_chunks [0x61; 0xe2; 0x82] [0xac; 0x62] (PartialUtf8 0 0)
           (PartialUtf8 0x82 1) (PartialUtf8 0x62 0) [0x61] [0x20ac; 0x62]).
  - repeat constructor; lia.
  - vm_compute. reflexivity.
  - cbn. lia.
  - vm_compute. reflexivity.
  - cbn. lia.
Defined.

Lemma decode_rest_cont (x : Z) (t : bytes) (v n : Z) :
  0 < n → 0 ≤ v < 2 ^ 26 → 0 ≤ x < 64 →
  decode_rest (128 + x :: t) v n = decode_rest t (v * 64 + x) (n - 1).
Proof.
  intros Hn Hv Hx. cbn [decode_rest].
  rewrite (bool_decide_false (128 + x = 0)), (bool_decide_false (n ≤ 0)) by lia. cbn [orb].
  rewrite (land_ones_mod _ 6), shiftl_u32_add, add_multiple_mod by done.
  by rewrite u32_small by lia.
Qed.

Lemma decode_rest_done (t : bytes) (v : Z) : decode_rest t v 0 = (v, 0, t).
Proof. destruct t; [done|]. cbn. by rewrite orb_true_r. Qed.

(** One encoded code point is one pass of the outer loop. *)
Lemma decode_seqs_cpt f (cp : Z) (s t : bytes) acc v n :
  0 < cp ≤ 0x10ffff → common_unicode_cpt_to_utf8 cp = Ok s →
  decode_seqs (S f) (s ++ t) acc v n = decode_seqs f t (acc ++ [cp]) cp 0.
Proof.
  intros Hcp. rewrite cpt_to_utf8_cases by lia. intros [= <-].
  assert (∀ x, 0 ≤ x mod 64 < 64) as Hm by (intros; apply Z.mod_pos_bound; lia).
  rewrite decode_seqs_S.
  repeat case_bool_decide; cbn [app peek] in *; try (exfalso; zify_div);
    rewrite decode_lookup_spec by (split; zify_div); repeat case_bool_decide; try (exfalso; zify_div);
    cbn zeta; (try rewrite bool_decide_false by lia);
    (match goal with |- context [u8 ?x] => let y := eval vm_compute in (u8 x) in change (u8 x) with y end);
    match goal with |- context [adv (?b :: ?l) 1] => change (adv (b :: l) 1) with l end.
  - rewrite (land_ones_mod _ 7), Z.mod_small, decode_rest_done by lia. done.
  - rewrite (land_ones_mod _ 6) by done. change (2 - 1) with 1.
    rewrite (add_multiple_mod 192 (2 ^ 6)) by (done || zify_div).
    rewrite decode_rest_cont by (auto || zify_div). rewrite decode_rest_done.
    rewrite bool_decide_true by done. replace (cp / 64 * 64 + cp mod 64) with cp by zify_div. done.
  - rewrite (land_ones_mod _ 5) by done. change (3 - 1) with 2.
    rewrite (add_multiple_mod 224 (2 ^ 5)) by (done || zify_div).
    rewrite !decode_rest_cont by (auto || zify_div). rewrite decode_rest_done.
    rewrite bool_decide_true by done.
    replace ((cp / 4096 * 64 + cp / 64 mod 64) * 64 + cp mod 64) with cp by zify_div. done.
  - rewrite (land_ones_mod _ 4) by done. change (4 - 1) with 3.
    rewrite (add_multiple_mod 240 (2 ^ 4)) by (done || zify_div).
    rewrite !decode_rest_cont by (auto || zify_div). rewrite decode_rest_done.
    rewrite bool_decide_true by done.
    replace (((cp / 262144 * 64 + cp / 4096 mod 64) * 64 + cp / 64 mod 64) * 64 + cp mod 64)
      with cp by zify_div. done.
Qed.

Lemma cpt_to_utf8_nonnul (cp : Z) (s : bytes) :
  0 < cp ≤ 0x10ffff → common_unicode_cpt_to_utf8 cp = Ok s →
  s ≠ [] ∧ Forall (λ b, is_byte b ∧ b ≠ 0) s.
Proof.
  intros Hcp. rewrite cpt_to_utf8_cases by lia. intros [= <-].
  repeat case_bool_decide; (split; [done|]); unfold is_byte; repeat constructor; zify_div.
Qed.

Lemma cpts_to_utf8_total (cps : list Z) :
  Forall (λ cp, 0 ≤ cp ≤ 0x10ffff) cps → ∃ s, common_unicode_cpts_to_utf8 cps = Ok s.
Proof.
  induction 1 as [|cp cps Hcp _ [s IH]]; [by eexists|]. cbn.
  rewrite cpt_to_utf8_cases by done. cbn. rewrite IH. by eexists.
Qed.

Lemma decode_seqs_cpts f cps s acc v n :
  Forall (λ cp, 0 < cp ≤ 0x10ffff) cps → common_unicode_cpts_to_utf8 cps = Ok s →
  (length s < f)%nat → ∃ v' n', (cps = [] → v' = v ∧ n' = n) ∧ (cps ≠ [] → n' = 0) ∧
  decode_seqs f s acc v n = Ok (acc ++ cps ++ [0], PartialUtf8 v' n').
Proof.
  intros Hcps. revert f s acc v n. induction Hcps as [|cp cps Hcp _ IH]; intros f s acc v n Hs Hf.
  { cbn in Hs. inv_res. destruct f; [lia|]. by exists v, n. }
  cbn [common_unicode_cpts_to_utf8] in Hs. inv_res. rename x into s1, x0 into s2.
  destruct f as [|f]; [lia|]. rewrite (decode_seqs_cpt _ cp) by done.
  apply cpt_to_utf8_nonnul in H as [Hne _]; [|done].
  destruct (IH f s2 (acc ++ [cp]) cp 0) as (v' & n' & Hv & Hn & ->); [done| |].
  { rewrite length_app in Hf. destruct s1; [done|]. cbn in Hf. lia. }
  exists v', n'. split_and!; [done| |by rewrite <- app_assoc].
  intros _. destruct cps; [|by apply Hn]. by apply Hv.
Qed.

(** Encoding a list of code points (none of them NUL) and decoding the text gives the list back with its terminator, and no sequence is left incomplete. *)
Theorem decode_utf8_encode (cps : list Z) (v : Z) :
  Forall (λ cp, 0 < cp ≤ 0x10ffff) cps →
  ∃ s v', common_unicode_cpts_to_utf8 cps = Ok s ∧
          decode_utf8 s (PartialUtf8 v 0) = Ok (cps ++ [0], PartialUtf8 v' 0).
Proof.
  intros Hcps. destruct (cpts_to_utf8_total cps) as [s Hs].
  { eapply Forall_impl; [exact Hcps|]. cbn. lia. }
  destruct (decode_seqs_cpts (S (length s)) cps s [] v 0) as (v' & n' & Hv & Hn & He); [done..|lia|].
  exists s, v'. split; [done|]. unfold decode_utf8. cbn [pu_value pu_n_remain].
  rewrite decode_continue_nonpos by done. rewrite bool_decide_false by lia. cbn [andb].
  rewrite He. destruct cps; [destruct Hv as [-> ->]; done|]. by rewrite Hn by done.
Qed.

Lemma decode_utf8_encode_witness :
  Forall (λ cp, 0 < cp ≤ 0x10ffff) [0x41; 0x20ac; 0x1f600] ∧
  ∃ s v', common_unicode_cpts_to_utf8 [0x41; 0x20ac; 0x1f600] = Ok s ∧
          decode_utf8 s (PartialUtf8 0 0) = Ok ([0x41; 0x20ac; 0x1f600; 0], PartialUtf8 v' 0).
Proof.
  assert (Forall (λ cp, 0 < cp ≤ 0x10ffff) [0x41; 0x20ac; 0x1f600]) as H
    by (repeat constructor; lia).
  split; [exact H|]. exact (decode_utf8_encode [0x41; 0x20ac; 0x1f600] 0 H).
Defined.

(** Splitting a malformed stream is observable: the bytes 0xC3 'a' decode to
    one code point when they arrive in one piece, while the piece 0xC3 followed
    by the piece 'a' is flagged as an invalid sequence. *)
Theorem decode_utf8_malformed_split :
  decode_utf8 [0xc3; 0x61] (PartialUtf8 0 0) = Ok ([0xe1; 0], PartialUtf8 0xe1 0) ∧
  decode_utf8 [0xc3] (PartialUtf8 0 0) = Ok ([0], PartialUtf8 3 1) ∧
  decode_utf8 [0x61] (PartialUtf8 3 1) = Ok ([0], PartialUtf8 0 (-1)).
Proof. by vm_compute. Qed.
