(* ===== verification/Grammar.v ===== *)
(** * The grammar machine

    [src/llama-grammar.h] and the matching half of [src/llama-grammar.cpp]: the
    pushdown stacks of a grammar, their expansion to terminal elements, the
    acceptance of code points and the rejection of candidate tokens.

    A [const llama_grammar_element *] points into [rules]; it is modelled by
    the index of the rule and the index of the element in it, so that pointer
    arithmetic and pointer comparison are those of the code and a read outside
    a rule is the fault [Oob].  A stack is kept with its top (the vector's
    [back()]) first. *)
From S2P Require Import Prelude Utf8.

(** ** Data *)

Inductive llama_gretype : Type :=
  | GRETYPE_END | GRETYPE_ALT | GRETYPE_RULE_REF | GRETYPE_CHAR | GRETYPE_CHAR_NOT
  | GRETYPE_CHAR_RNG_UPPER | GRETYPE_CHAR_ALT | GRETYPE_CHAR_ANY
  | GRETYPE_TOKEN | GRETYPE_TOKEN_NOT.

#[global] Instance llama_gretype_eq_dec : EqDecision llama_gretype.
Proof. solve_decision. Defined.

Record llama_grammar_element := Elem { ge_type : llama_gretype; ge_value : Z }.

#[global] Instance llama_grammar_element_eq_dec : EqDecision llama_grammar_element.
Proof. solve_decision. Defined.

Abbreviation llama_grammar_rule := (list llama_grammar_element).
Abbreviation llama_grammar_rules := (list llama_grammar_rule).
Abbreviation elem_ptr := (nat * nat)%type.
Abbreviation llama_grammar_stack := (list elem_ptr).
Abbreviation llama_grammar_stacks := (list llama_grammar_stack).

Record llama_grammar_candidate := Candidate {
  cand_index : nat;
  cand_code_points : list Z;   (** the decoded array, with its terminating 0 *)
  cand_offset : nat;           (** where [code_points] points into it *)
  cand_partial_utf8 : llama_partial_utf8;
  cand_id : Z }.

#[global] Instance llama_grammar_candidate_eq_dec : EqDecision llama_grammar_candidate.
Proof. solve_decision. Defined.

Abbreviation llama_grammar_candidates := (list llama_grammar_candidate).

(** [*tok.code_points], [tok.code_points + 1], [tok.code_points - 1]. *)
Definition cand_cp (tok : llama_grammar_candidate) : res Z :=
  at_ (cand_code_points tok) (cand_offset tok).
Definition cand_move (tok : llama_grammar_candidate) (off : nat) : llama_grammar_candidate :=
  Candidate (cand_index tok) (cand_code_points tok) off (cand_partial_utf8 tok) (cand_id tok).

(** ** Elements *)

Definition deref (rules : llama_grammar_rules) (pos : elem_ptr) : res llama_grammar_element :=
  rule ← at_ rules (fst pos); at_ rule (snd pos).

Definition ptr_add (pos : elem_ptr) (n : nat) : elem_ptr := (fst pos, (snd pos + n)%nat).

(** The elements from a pointer on. *)
Definition elems_from (rules : llama_grammar_rules) (pos : elem_ptr) : res llama_grammar_rule :=
  rule ← at_ rules (fst pos); mret (drop (snd pos) rule).

Definition elem_is_end (e : llama_grammar_element) : bool :=
  match ge_type e with GRETYPE_END | GRETYPE_ALT => true | _ => false end.

Definition llama_grammar_is_end_of_sequence (rules : llama_grammar_rules) (pos : elem_ptr)
    : res bool :=
  elem_is_end <$> deref rules pos.

Definition is_positive_char (e : llama_grammar_element) : bool :=
  match ge_type e with GRETYPE_CHAR | GRETYPE_CHAR_ANY => true | _ => false end.

Definition is_char_not (e : llama_grammar_element) : bool :=
  bool_decide (ge_type e = GRETYPE_CHAR_NOT).

Definition is_token_elem (e : llama_grammar_element) : bool :=
  match ge_type e with GRETYPE_TOKEN | GRETYPE_TOKEN_NOT => true | _ => false end.

(** The do-while loop of [llama_grammar_match_char] on the elements from [pos]
    on; [i] is the index of [pos] in its rule. *)
Fixpoint match_char_loop (es : llama_grammar_rule) (i : nat) (chr : Z) (found : bool)
    : res (bool * nat) :=
  match es with
  | e :: ((e1 :: es2) as es1) =>
    if bool_decide (ge_type e1 = GRETYPE_CHAR_RNG_UPPER) then
      let found := found || (bool_decide (ge_value e ≤ chr) && bool_decide (chr ≤ ge_value e1)) in
      match es2 with
      | e2 :: _ =>
        if bool_decide (ge_type e2 = GRETYPE_CHAR_ALT)
        then match_char_loop es2 (i + 2) chr found
        else Ok (found, (i + 2)%nat)
      | [] => Err Oob
      end
    else
      let found := if bool_decide (ge_type e = GRETYPE_CHAR_ANY) then true
                   else found || bool_decide (ge_value e = chr) in
      if bool_decide (ge_type e1 = GRETYPE_CHAR_ALT)
      then match_char_loop es1 (i + 1) chr found
      else Ok (found, (i + 1)%nat)
  | _ => Err Oob
  end.

Definition llama_grammar_match_char (rules : llama_grammar_rules) (pos : elem_ptr) (chr : Z)
    : res (bool * elem_ptr) :=
  e ← deref rules pos;
  _ ← ggml_assert (is_positive_char e || is_char_not e);
  es ← elems_from rules pos;
  '(found, i) ← match_char_loop es (snd pos) chr false;
  mret (eqb found (is_positive_char e), (fst pos, i)).

(** The loop of [llama_grammar_match_partial_char]: [None] when it ends without
    a return. *)
Fixpoint match_partial_loop (es : llama_grammar_rule) (low high : Z) (positive : bool)
    : res (option bool) :=
  match es with
  | e :: ((e1 :: es2) as es1) =>
    if bool_decide (ge_type e1 = GRETYPE_CHAR_RNG_UPPER) then
      if bool_decide (ge_value e ≤ high) && bool_decide (low ≤ ge_value e1) then Ok (Some positive)
      else
        match es2 with
        | e2 :: _ =>
          if bool_decide (ge_type e2 = GRETYPE_CHAR_ALT)
          then match_partial_loop es2 low high positive else Ok None
        | [] => Err Oob
        end
    else if bool_decide (ge_type e = GRETYPE_CHAR_ANY) then Ok (Some true)
    else if bool_decide (low ≤ ge_value e) && bool_decide (ge_value e ≤ high) then Ok (Some positive)
    else if bool_decide (ge_type e1 = GRETYPE_CHAR_ALT)
    then match_partial_loop es1 low high positive
    else Ok None
  | _ => Err Oob
  end.

(** Range of the code points a partial sequence can be completed to. *)
Definition partial_range (p : llama_partial_utf8) : Z * Z :=
  let low := u32 (Z.shiftl (pu_value p) (pu_n_remain p * 6)) in
  let high := Z.lor low (Z.shiftl 1 (pu_n_remain p * 6) - 1) in
  let low := if bool_decide (low = 0) then
               if bool_decide (pu_n_remain p = 2) then Z.shiftl 1 11
               else if bool_decide (pu_n_remain p = 3) then Z.shiftl 1 16 else low
             else low in
  (low, high).

Definition llama_grammar_match_partial_char (rules : llama_grammar_rules) (pos : elem_ptr)
    (partial_utf8 : llama_partial_utf8) : res bool :=
  e ← deref rules pos;
  _ ← ggml_assert (is_positive_char e || is_char_not e);
  if bool_decide (pu_n_remain partial_utf8 < 0) ||
     (bool_decide (pu_n_remain partial_utf8 = 1) && bool_decide (pu_value partial_utf8 < 2))
  then Ok false
  else
    let '(low, high) := partial_range partial_utf8 in
    es ← elems_from rules pos;
    r ← match_partial_loop es low high (is_positive_char e);
    mret (match r with Some b => b | None => negb (is_positive_char e) end).

Definition llama_grammar_match_token (rules : llama_grammar_rules) (pos : elem_ptr) (token : Z)
    : res bool :=
  e ← deref rules pos;
  match ge_type e with
  | GRETYPE_TOKEN => Ok (bool_decide (ge_value e = u32 token))
  | GRETYPE_TOKEN_NOT => Ok (bool_decide (ge_value e ≠ u32 token))
  | _ => Err Abort
  end.

(** ** Expansion of stacks *)

(** The indices at which the alternates of a rule start, from element [i] on
    (the scan of the do-while loops over [subpos]). *)
Fixpoint alt_starts (es : llama_grammar_rule) (i start : nat) : res (list nat) :=
  match es with
  | [] => Err Oob
  | e :: es' =>
    match ge_type e with
    | GRETYPE_END => Ok [start]
    | GRETYPE_ALT => (start ::.) <$> alt_starts es' (S i) (S i)
    | _ => alt_starts es' (S i) start
    end
  end.

(** [if (!is_end_of_sequence(pos)) stack.push_back(pos)]. *)
Definition push_unless_end (rules : llama_grammar_rules) (pos : elem_ptr)
    (stack : llama_grammar_stack) : res llama_grammar_stack :=
  b ← llama_grammar_is_end_of_sequence rules pos;
  mret (if b : bool then stack else pos :: stack).

(** The stacks pushed on [todo] for a rule reference at the top [pos]. *)
Definition expand_ref (rules : llama_grammar_rules) (pos : elem_ptr) (rest : llama_grammar_stack)
    (rule_id : Z) : res (list llama_grammar_stack) :=
  rule ← at_ rules (Z.to_nat rule_id);
  starts ← alt_starts rule 0 0;
  mapM (λ s, next_stack ← push_unless_end rules (ptr_add pos 1) rest;
             push_unless_end rules (Z.to_nat rule_id, s) next_stack) starts.

(** [emplace_back] unless [std::find] finds the stack already. *)
Definition add_stack (new_stacks : llama_grammar_stacks) (stack : llama_grammar_stack)
    : llama_grammar_stacks :=
  if decide (stack ∈ new_stacks) then new_stacks else new_stacks ++ [stack].

(** The worklist loop.  The head of [todo] is its [back()]. *)
Fixpoint advance_loop (fuel : nat) (rules : llama_grammar_rules)
    (todo : list llama_grammar_stack) (seen : list llama_grammar_stack)
    (new_stacks : llama_grammar_stacks) : res llama_grammar_stacks :=
  match fuel with
  | O => Err NoFuel
  | S fuel' =>
    match todo with
    | [] => Ok new_stacks
    | curr_stack :: todo' =>
      if decide (curr_stack ∈ seen) then advance_loop fuel' rules todo' seen new_stacks
      else
        let seen := curr_stack :: seen in
        match curr_stack with
        | [] => advance_loop fuel' rules todo' seen (add_stack new_stacks curr_stack)
        | pos :: rest =>
          e ← deref rules pos;
          match ge_type e with
          | GRETYPE_RULE_REF =>
            nexts ← expand_ref rules pos rest (ge_value e);
            advance_loop fuel' rules (rev nexts ++ todo') seen new_stacks
          | GRETYPE_CHAR | GRETYPE_CHAR_NOT | GRETYPE_CHAR_ANY
          | GRETYPE_TOKEN | GRETYPE_TOKEN_NOT =>
            advance_loop fuel' rules todo' seen (add_stack new_stacks curr_stack)
          | _ => Err Abort
          end
        end
    end
  end.

Definition llama_grammar_advance_stack (fuel : nat) (rules : llama_grammar_rules)
    (stack : llama_grammar_stack) (new_stacks : llama_grammar_stacks) : res llama_grammar_stacks :=
  advance_loop fuel rules [stack] [] new_stacks.

(** ** Accepting code points *)

Definition llama_grammar_accept_chr (fuel : nat) (rules : llama_grammar_rules)
    (stack : llama_grammar_stack) (chr : Z) (new_stacks : llama_grammar_stacks)
    : res llama_grammar_stacks :=
  match stack with
  | [] => Ok new_stacks
  | pos :: rest =>
    e ← deref rules pos;
    if is_token_elem e then Ok new_stacks
    else
      '(matched, pos') ← llama_grammar_match_char rules pos chr;
      if matched : bool then
        new_stack ← push_unless_end rules pos' rest;
        llama_grammar_advance_stack fuel rules new_stack new_stacks
      else Ok new_stacks
  end.

(** [for (stack : stacks) accept_chr(grammar, stack, chr, stacks_new)]. *)
Fixpoint accept_chr_all (fuel : nat) (rules : llama_grammar_rules) (stacks : llama_grammar_stacks)
    (chr : Z) (stacks_new : llama_grammar_stacks) : res llama_grammar_stacks :=
  match stacks with
  | [] => Ok stacks_new
  | stack :: stacks' =>
    stacks_new ← llama_grammar_accept_chr fuel rules stack chr stacks_new;
    accept_chr_all fuel rules stacks' chr stacks_new
  end.

(** The body of [llama_grammar_accept] on the stacks of the grammar. *)
Definition llama_grammar_accept (fuel : nat) (rules : llama_grammar_rules)
    (stacks : llama_grammar_stacks) (chr : Z) : res llama_grammar_stacks :=
  accept_chr_all fuel rules stacks chr [].

(** The loop over the code points of a piece in [llama_grammar_accept_token],
    with its early exit. *)
Fixpoint accept_chrs (fuel : nat) (rules : llama_grammar_rules) (current_stacks : llama_grammar_stacks)
    (chrs : list Z) : res llama_grammar_stacks :=
  match chrs with
  | [] => Ok current_stacks
  | chr :: chrs' =>
    next_stacks ← accept_chr_all fuel rules current_stacks chr [];
    match next_stacks with
    | [] => Ok []
    | _ => accept_chrs fuel rules next_stacks chrs'
    end
  end.

(** One stack of the loop over [grammar.stacks] in [llama_grammar_accept_token]. *)
Definition accept_token_stack (fuel : nat) (rules : llama_grammar_rules) (token : Z) (chrs : list Z)
    (stack : llama_grammar_stack) (stacks_new : llama_grammar_stacks) : res llama_grammar_stacks :=
  match stack with
  | [] => Ok stacks_new
  | pos :: rest =>
    e ← deref rules pos;
    if is_token_elem e then
      m ← llama_grammar_match_token rules pos token;
      if m : bool then
        new_stack ← push_unless_end rules (ptr_add pos 1) rest;
        llama_grammar_advance_stack fuel rules new_stack stacks_new
      else Ok stacks_new
    else
      current_stacks ← accept_chrs fuel rules [stack] chrs;
      mret (foldl add_stack stacks_new current_stacks)
  end.

Fixpoint accept_token_stacks (fuel : nat) (rules : llama_grammar_rules) (token : Z) (chrs : list Z)
    (stacks stacks_new : llama_grammar_stacks) : res llama_grammar_stacks :=
  match stacks with
  | [] => Ok stacks_new
  | stack :: stacks' =>
    stacks_new ← accept_token_stack fuel rules token chrs stack stacks_new;
    accept_token_stacks fuel rules token chrs stacks' stacks_new
  end.

(** ** Rejecting candidates *)

(** An empty stack rejects every token with a code point or a partial sequence left. *)
Fixpoint reject_empty_stack (candidates : llama_grammar_candidates) : res llama_grammar_candidates :=
  match candidates with
  | [] => Ok []
  | tok :: cands =>
    c ← cand_cp tok;
    rejects ← reject_empty_stack cands;
    mret (if negb (bool_decide (c = 0)) ||
             negb (bool_decide (pu_n_remain (cand_partial_utf8 tok) = 0))
          then tok :: rejects else rejects)
  end.

(** The top of the stack is a token element. *)
Fixpoint reject_token_elem (rules : llama_grammar_rules) (stack_pos : elem_ptr)
    (candidates : llama_grammar_candidates) : res llama_grammar_candidates :=
  match candidates with
  | [] => Ok []
  | tok :: cands =>
    c ← cand_cp tok;
    b ← (if bool_decide (c = 0)
         then Ok (negb (bool_decide (pu_n_remain (cand_partial_utf8 tok) = 0)))
         else negb <$> llama_grammar_match_token rules stack_pos (cand_id tok));
    rejects ← reject_token_elem rules stack_pos cands;
    mret (if b : bool then tok :: rejects else rejects)
  end.

(** The loop that splits the candidates into rejects and candidates for the
    next element (one code point further). *)
Fixpoint reject_split (rules : llama_grammar_rules) (stack_pos : elem_ptr)
    (candidates : llama_grammar_candidates)
    : res (llama_grammar_candidates * llama_grammar_candidates) :=
  match candidates with
  | [] => Ok ([], [])
  | tok :: cands =>
    c ← cand_cp tok;
    if bool_decide (c = 0) then
      b ← (if bool_decide (pu_n_remain (cand_partial_utf8 tok) = 0) then Ok false
           else negb <$> llama_grammar_match_partial_char rules stack_pos (cand_partial_utf8 tok));
      '(rejects, nexts) ← reject_split rules stack_pos cands;
      mret (if b : bool then (tok :: rejects, nexts) else (rejects, nexts))
    else
      '(matched, _) ← llama_grammar_match_char rules stack_pos c;
      '(rejects, nexts) ← reject_split rules stack_pos cands;
      mret (if matched : bool
            then (rejects, cand_move tok (cand_offset tok + 1) :: nexts)
            else (tok :: rejects, nexts))
  end.

Section reject.
Variable fuel : nat.
Variable rules : llama_grammar_rules.

(** [llama_grammar_reject_candidates_for_stack], the recursive call abstracted. *)
Definition llama_grammar_reject_candidates_for_stack
    (reject_candidates : llama_grammar_stacks → llama_grammar_candidates → res llama_grammar_candidates)
    (stack : llama_grammar_stack) (candidates : llama_grammar_candidates)
    : res llama_grammar_candidates :=
  match stack with
  | [] => reject_empty_stack candidates
  | stack_pos :: rest =>
    e ← deref rules stack_pos;
    if is_token_elem e then reject_token_elem rules stack_pos candidates
    else
      '(rejects, next_candidates) ← reject_split rules stack_pos candidates;
      '(_, stack_pos_after) ← llama_grammar_match_char rules stack_pos 0;
      stack_after ← push_unless_end rules stack_pos_after rest;
      next_stacks ← llama_grammar_advance_stack fuel rules stack_after [];
      next_rejects ← reject_candidates next_stacks next_candidates;
      mret (rejects ++ ((λ tok, cand_move tok (cand_offset tok - 1)) <$> next_rejects))
  end.

(** The loop over the stacks after the first one. *)
Fixpoint reject_candidates_rest
    (for_stack : llama_grammar_stack → llama_grammar_candidates → res llama_grammar_candidates)
    (stacks : llama_grammar_stacks) (rejects : llama_grammar_candidates)
    : res llama_grammar_candidates :=
  match stacks with
  | [] => Ok rejects
  | stack :: stacks' =>
    rejects ← for_stack stack rejects;
    reject_candidates_rest for_stack stacks' rejects
  end.

(** The two functions call each other one code point further each time:
    [depth] above the longest candidate is enough. *)
Fixpoint llama_grammar_reject_candidates (depth : nat) (stacks : llama_grammar_stacks)
    (candidates : llama_grammar_candidates) : res llama_grammar_candidates :=
  match depth with
  | O => Err NoFuel
  | S depth' =>
    match stacks with
    | [] => Err Abort
    | front :: rest =>
      match candidates with
      | [] => Ok []
      | _ =>
        let for_stack :=
          llama_grammar_reject_candidates_for_stack (llama_grammar_reject_candidates depth') in
        rejects ← for_stack front candidates;
        reject_candidates_rest for_stack rest rejects
      end
    end
  end.
End reject.

(** ** Left recursion *)

Record lr_state := LrState {
  lr_visited : list bool; lr_in_progress : list bool; lr_may_be_empty : list bool }.

(** First step: does some alternate of the rule start with its end?  (The loop
    stops at the first such alternate.) *)
Fixpoint rule_may_be_empty (es : llama_grammar_rule) (at_rule_start : bool) : bool :=
  match es with
  | [] => false
  | e :: es' =>
    if elem_is_end e then if at_rule_start then true else rule_may_be_empty es' true
    else rule_may_be_empty es' false
  end.

(** Second step: recurse into the leftmost non-terminals. *)
Fixpoint left_recursion_loop (detect : nat → lr_state → res (bool * lr_state))
    (es : llama_grammar_rule) (recurse_into_nonterminal : bool) (st : lr_state)
    : res (bool * lr_state) :=
  match es with
  | [] => Ok (false, st)
  | e :: es' =>
    if bool_decide (ge_type e = GRETYPE_RULE_REF) && recurse_into_nonterminal then
      '(r, st) ← detect (Z.to_nat (ge_value e)) st;
      if r : bool then Ok (true, st)
      else
        may_be_empty ← at_ (lr_may_be_empty st) (Z.to_nat (ge_value e));
        left_recursion_loop detect es' may_be_empty st
    else left_recursion_loop detect es' (elem_is_end e) st
  end.

Fixpoint llama_grammar_detect_left_recursion (fuel : nat) (rules : llama_grammar_rules)
    (rule_index : nat) (st : lr_state) : res (bool * lr_state) :=
  match fuel with
  | O => Err NoFuel
  | S fuel' =>
    in_progress ← at_ (lr_in_progress st) rule_index;
    if in_progress : bool then Ok (true, st)
    else
      progress ← put (lr_in_progress st) rule_index true;
      rule ← at_ rules rule_index;
      may_be_empty ← (if rule_may_be_empty rule true
                      then put (lr_may_be_empty st) rule_index true
                      else Ok (lr_may_be_empty st));
      '(r, st) ← left_recursion_loop (llama_grammar_detect_left_recursion fuel' rules) rule true
                   (LrState (lr_visited st) progress may_be_empty);
      if r : bool then Ok (true, st)
      else
        progress ← put (lr_in_progress st) rule_index false;
        visited ← put (lr_visited st) rule_index true;
        mret (false, LrState visited progress (lr_may_be_empty st))
  end.

(** ** Construction of a grammar *)

(** Copying a rule array up to its first END element, then the terminating END
    element. *)
Fixpoint copy_rule (es : llama_grammar_rule) : res llama_grammar_rule :=
  match es with
  | [] => Err Oob
  | e :: es' =>
    if bool_decide (ge_type e = GRETYPE_END) then Ok [Elem GRETYPE_END 0]
    else (e ::.) <$> copy_rule es'
  end.

(** The loop over all rules that are not visited yet: [true] if some rule is
    left recursive. *)
Fixpoint check_left_recursion (fuel : nat) (rules : llama_grammar_rules) (todo : list nat)
    (st : lr_state) : res bool :=
  match todo with
  | [] => Ok false
  | i :: todo' =>
    visited ← at_ (lr_visited st) i;
    if visited : bool then check_left_recursion fuel rules todo' st
    else
      '(r, st) ← llama_grammar_detect_left_recursion fuel rules i st;
      if r : bool then Ok true else check_left_recursion fuel rules todo' st
  end.

Definition lr_initial (n_rules : nat) : lr_state :=
  LrState (replicate n_rules false) (replicate n_rules false) (replicate n_rules false).

(** The loop over the alternates of the start rule. *)
Fixpoint init_stacks (fuel : nat) (rules : llama_grammar_rules) (start_rule : nat)
    (starts : list nat) (stacks : llama_grammar_stacks) : res llama_grammar_stacks :=
  match starts with
  | [] => Ok stacks
  | s :: starts' =>
    stack ← push_unless_end rules (start_rule, s) [];
    stacks ← llama_grammar_advance_stack fuel rules stack stacks;
    init_stacks fuel rules start_rule starts' stacks
  end.

(** A pattern is a source text and the regular expression compiled from it. *)
Record llama_grammar_trigger_pattern := TriggerPattern { tp_pattern : bytes }.

Record llama_grammar := Grammar {
  g_rules : llama_grammar_rules;
  g_stacks : llama_grammar_stacks;
  g_partial_utf8 : llama_partial_utf8;
  g_lazy : bool;
  g_awaiting_trigger : bool;
  g_trigger_buffer : bytes;
  g_trigger_buffer_positions : list (Z * (nat * nat));
  g_trigger_tokens : list Z;
  g_trigger_patterns : list llama_grammar_trigger_pattern }.

(** [llama_grammar_init_impl] from rule arrays: [None] is the null pointer
    returned on left recursion. *)
Definition llama_grammar_init_rules (fuel : nat) (rules : llama_grammar_rules) (start_rule_index : nat)
    (lazy : bool) (trigger_patterns : list llama_grammar_trigger_pattern) (trigger_tokens : list Z)
    : res (option llama_grammar) :=
  vec_rules ← mapM copy_rule rules;
  let n_rules := length rules in
  left_recursive ← check_left_recursion (S n_rules) vec_rules (seq 0 n_rules) (lr_initial n_rules);
  if left_recursive : bool then Ok None
  else
    start_rule ← at_ vec_rules start_rule_index;
    starts ← alt_starts start_rule 0 0;
    stacks ← init_stacks fuel vec_rules start_rule_index starts [];
    mret (Some (Grammar vec_rules stacks (PartialUtf8 0 0) lazy lazy [] []
                  trigger_tokens trigger_patterns)).

(** ** Operations on a grammar *)

Definition with_stacks (g : llama_grammar) (stacks : llama_grammar_stacks) (p : llama_partial_utf8) :=
  Grammar (g_rules g) stacks p (g_lazy g) (g_awaiting_trigger g) (g_trigger_buffer g)
    (g_trigger_buffer_positions g) (g_trigger_tokens g) (g_trigger_patterns g).

(** [std::vector::data() .. end() - 1]: the decoded code points without the
    terminating 0. *)
Definition without_terminator (code_points : list Z) : list Z := removelast code_points.

Definition llama_grammar_accept_token (fuel : nat) (g : llama_grammar) (token : Z) (piece : bytes)
    : res llama_grammar :=
  '(code_points, partial) ← decode_utf8 piece (g_partial_utf8 g);
  stacks ← accept_token_stacks fuel (g_rules g) token (without_terminator code_points) (g_stacks g) [];
  match stacks with
  | [] => Err (Throw "Unexpected empty grammar stack after accepting piece")
  | _ => Ok (with_stacks g stacks partial)
  end.

Fixpoint accept_str_loop (fuel : nat) (rules : llama_grammar_rules) (chrs : list Z)
    (stacks : llama_grammar_stacks) : res llama_grammar_stacks :=
  match chrs with
  | [] => Ok stacks
  | chr :: chrs' =>
    stacks ← llama_grammar_accept fuel rules stacks chr;
    accept_str_loop fuel rules chrs' stacks
  end.

Definition llama_grammar_accept_str (fuel : nat) (g : llama_grammar) (piece : bytes)
    : res llama_grammar :=
  '(code_points, partial) ← decode_utf8 piece (g_partial_utf8 g);
  stacks ← accept_str_loop fuel (g_rules g) (without_terminator code_points) (g_stacks g);
  match stacks with
  | [] => Err (Throw "Unexpected empty grammar stack after accepting piece")
  | _ => Ok (with_stacks g stacks partial)
  end.

(** ** Lazy grammars, sampling *)

(** [std::string::npos] is [None]. *)
Section vocab.
(** The vocabulary and the regular-expression engine are interfaces of the
    grammar: the text of a token, whether it ends the generation, and the
    capture groups (position and length, group 0 first) of a match. *)
Variable token_to_piece : Z → bytes.
Variable is_eog : Z → bool.
Variable regex_match regex_search : bytes → bytes → option (list (nat * nat)).
Variable fuel : nat.

(** [find_start_pos]: the first non-empty group from 1 on, else the match. *)
Definition find_start_pos (groups : list (nat * nat)) : option nat :=
  match list_find (λ g, (0 < snd g)%nat) (tail groups) with
  | Some (_, g) => Some (fst g)
  | None => fst <$> head groups
  end.

Definition llama_grammar_trigger_pattern_find (p : llama_grammar_trigger_pattern) (input : bytes)
    : option nat :=
  let whole := negb (bool_decide (tp_pattern p = [])) &&
               bool_decide (head (tp_pattern p) = Some 94) &&
               bool_decide (head (reverse (tp_pattern p)) = Some 36) in
  match (if whole then regex_match (tp_pattern p) input else None) with
  | Some groups => find_start_pos groups
  | None =>
    match regex_search (tp_pattern p) input with
    | Some groups => find_start_pos groups
    | None => None
    end
  end.

Definition substr (s : bytes) (pos len : nat) : bytes := take len (drop pos s).

(** Replaying the buffered tokens that reach past [start]. *)
Fixpoint replay_tokens (g : llama_grammar) (buffer : bytes) (start : nat)
    (positions : list (Z * (nat * nat))) : res llama_grammar :=
  match positions with
  | [] => Ok g
  | (tok, (tok_start, tok_end)) :: positions' =>
    if bool_decide (tok_end ≤ start)%nat then replay_tokens g buffer start positions'
    else
      let piece_start := if bool_decide (tok_start < start)%nat then start else tok_start in
      g ← llama_grammar_accept_token fuel g tok (substr buffer piece_start (tok_end - piece_start));
      replay_tokens g buffer start positions'
  end.

(** The first trigger pattern found in the buffer. *)
Fixpoint find_trigger (patterns : list llama_grammar_trigger_pattern) (buffer : bytes) : option nat :=
  match patterns with
  | [] => None
  | p :: patterns' =>
    match llama_grammar_trigger_pattern_find p buffer with
    | Some start => Some start
    | None => find_trigger patterns' buffer
    end
  end.

Definition with_trigger (g : llama_grammar) (awaiting : bool) (buffer : bytes)
    (positions : list (Z * (nat * nat))) : llama_grammar :=
  Grammar (g_rules g) (g_stacks g) (g_partial_utf8 g) (g_lazy g) awaiting buffer positions
    (g_trigger_tokens g) (g_trigger_patterns g).

Definition llama_grammar_accept_impl (g : llama_grammar) (token : Z) : res llama_grammar :=
  let piece := token_to_piece token in
  if g_awaiting_trigger g then
    if decide (token ∈ g_trigger_tokens g) then
      llama_grammar_accept_token fuel
        (with_trigger g false [] (g_trigger_buffer_positions g)) token piece
    else
      let n := length (g_trigger_buffer g) in
      let positions := g_trigger_buffer_positions g ++ [(token, (n, (n + length piece)%nat))] in
      let buffer := g_trigger_buffer g ++ piece in
      match find_trigger (g_trigger_patterns g) buffer with
      | Some start =>
        g ← replay_tokens (with_trigger g false buffer positions) buffer start positions;
        mret (with_trigger g false [] [])
      | None => Ok (with_trigger g true buffer positions)
      end
  else if is_eog token then
    if decide ([] ∈ g_stacks g) then Ok g else Err Abort
  else llama_grammar_accept_token fuel g token piece.

(** One candidate of [llama_token_data_array]; [neg_inf] is [-INFINITY]. *)
Context {logit : Type} (neg_inf : logit).

(** The loop that decodes the candidates: the updated array and the
    candidates to check against the grammar.  [None] keeps the logit. *)
Fixpoint sample_candidates (g : llama_grammar) (allow_eog : bool) (i : nat)
    (cands : list (Z * logit)) : res (list (Z * logit) * llama_grammar_candidates) :=
  match cands with
  | [] => Ok ([], [])
  | (id, l) :: cands' =>
    let piece := token_to_piece id in
    if is_eog id then
      '(cs, gs) ← sample_candidates g allow_eog (S i) cands';
      mret ((id, if allow_eog then l else neg_inf) :: cs, gs)
    else if bool_decide (piece = []) || bool_decide (peek piece = 0) then
      '(cs, gs) ← sample_candidates g allow_eog (S i) cands';
      mret ((id, neg_inf) :: cs, gs)
    else
      '(code_points, partial) ← decode_utf8 piece (g_partial_utf8 g);
      '(cs, gs) ← sample_candidates g allow_eog (S i) cands';
      mret ((id, l) :: cs, Candidate i code_points 0 partial id :: gs)
  end.

(** [candidates->data[reject.index].logit = -INFINITY] for every reject. *)
Fixpoint mask_rejects (cands : list (Z * logit)) (rejects : llama_grammar_candidates)
    : res (list (Z * logit)) :=
  match rejects with
  | [] => Ok cands
  | r :: rejects' =>
    c ← at_ cands (cand_index r);
    cands ← put cands (cand_index r) (fst c, neg_inf);
    mask_rejects cands rejects'
  end.

Definition llama_grammar_sample_impl (depth : nat) (g : llama_grammar) (cands : list (Z * logit))
    : res (list (Z * logit)) :=
  if g_awaiting_trigger g then Ok cands
  else
    let allow_eog := bool_decide ([] ∈ g_stacks g) in
    '(cands, candidates_grammar) ← sample_candidates g allow_eog 0 cands;
    rejects ← llama_grammar_reject_candidates fuel (g_rules g) depth (g_stacks g) candidates_grammar;
    mask_rejects cands rejects.
End vocab.
