(* ===== verification/GrammarSpec.v ===== *)
(** * What the grammar machine computes

    A relational semantics of grammars (expansion steps of stacks, derivations
    of words) and the theorems that connect the executable machine of
    [Grammar] with it. *)
From S2P Require Import Prelude Utf8 Grammar.

(** ** Specification *)

Section spec.
Context (rules : llama_grammar_rules).

(** One expansion: the rule reference at the top is replaced by one of the
    alternates of the rule it names. *)
Inductive stack_step : llama_grammar_stack → llama_grammar_stack → Prop :=
  | StackStep pos rest e rule starts s st1 st2 :
      deref rules pos = Ok e → ge_type e = GRETYPE_RULE_REF →
      at_ rules (Z.to_nat (ge_value e)) = Ok rule → alt_starts rule 0 0 = Ok starts →
      s ∈ starts →
      push_unless_end rules (ptr_add pos 1) rest = Ok st1 →
      push_unless_end rules (Z.to_nat (ge_value e), s) st1 = Ok st2 →
      stack_step (pos :: rest) st2.

(** A stack the expansion stops at. *)
Definition terminal_elem (e : llama_grammar_element) : bool :=
  is_positive_char e || is_char_not e || is_token_elem e.

Definition terminal_stack (st : llama_grammar_stack) : Prop :=
  match st with
  | [] => True
  | pos :: _ => ∃ e, deref rules pos = Ok e ∧ terminal_elem e = true
  end.

(** [st'] is one of the terminal stacks [st] expands to. *)
Definition expands_to (st st' : llama_grammar_stack) : Prop :=
  rtc stack_step st st' ∧ terminal_stack st'.

(** Consuming one code point at the top of a terminal stack. *)
Inductive chr_step (chr : Z) : llama_grammar_stack → llama_grammar_stack → Prop :=
  | ChrStep pos rest e pos' st1 st2 :
      deref rules pos = Ok e → is_token_elem e = false →
      llama_grammar_match_char rules pos chr = Ok (true, pos') →
      push_unless_end rules pos' rest = Ok st1 → expands_to st1 st2 →
      chr_step chr (pos :: rest) st2.

Inductive chr_steps : list Z → llama_grammar_stack → llama_grammar_stack → Prop :=
  | ChrStepsNil st : chr_steps [] st st
  | ChrStepsCons c cs st st1 st2 :
      chr_step c st st1 → chr_steps cs st1 st2 → chr_steps (c :: cs) st st2.

(** The words (of code points) derived by the elements from a pointer to the
    end of its alternate. *)
Inductive derives : elem_ptr → list Z → Prop :=
  | DerivesEnd pos e :
      deref rules pos = Ok e → elem_is_end e = true → derives pos []
  | DerivesChar pos e pos' c w :
      deref rules pos = Ok e →
      llama_grammar_match_char rules pos c = Ok (true, pos') →
      derives pos' w → derives pos (c :: w)
  | DerivesRef pos e rule starts s w1 w2 :
      deref rules pos = Ok e → ge_type e = GRETYPE_RULE_REF →
      at_ rules (Z.to_nat (ge_value e)) = Ok rule → alt_starts rule 0 0 = Ok starts →
      s ∈ starts →
      derives (Z.to_nat (ge_value e), s) w1 → derives (ptr_add pos 1) w2 →
      derives pos (w1 ++ w2).

Inductive stack_derives : llama_grammar_stack → list Z → Prop :=
  | StackDerivesNil : stack_derives [] []
  | StackDerivesCons pos rest e w1 w2 :
      deref rules pos = Ok e → elem_is_end e = false →
      derives pos w1 → stack_derives rest w2 → stack_derives (pos :: rest) (w1 ++ w2).
End spec.

#[export] Hint Constructors stack_step chr_steps derives stack_derives : llama.

(** ** Expansion *)

Lemma terminal_elem_ref e : terminal_elem e = true → ge_type e ≠ GRETYPE_RULE_REF.
Proof. unfold terminal_elem, is_positive_char, is_char_not, is_token_elem. by destruct (ge_type e). Qed.

Lemma add_stack_elem (l : llama_grammar_stacks) s s' :
  s' ∈ add_stack l s ↔ s' ∈ l ∨ s' = s.
Proof. unfold add_stack. case_decide; set_solver. Qed.

Lemma add_stack_NoDup (l : llama_grammar_stacks) s : NoDup l → NoDup (add_stack l s).
Proof.
  unfold add_stack. case_decide; [done|]. intros Hl. apply NoDup_app.
  split_and!; [done|set_solver|apply NoDup_singleton].
Qed.

Lemma foldl_add_stack_elem (l l' : llama_grammar_stacks) s :
  s ∈ foldl add_stack l l' ↔ s ∈ l ∨ s ∈ l'.
Proof.
  revert l. induction l' as [|s' l' IH]; intros l; cbn; [set_solver|].
  rewrite IH, add_stack_elem. set_solver.
Qed.

Lemma elem_of_rev {A} (l : list A) x : x ∈ rev l ↔ x ∈ l.
Proof. induction l as [|y l IH]; cbn; [done|]. rewrite elem_of_app, IH. set_solver. Qed.

Section mapM.
Context {A B : Type} (f : A → res B).
Lemma mapM_Ok_elem (l : list A) (k : list B) :
  mapM f l = Ok k → ∀ y, y ∈ k ↔ ∃ x, x ∈ l ∧ f x = Ok y.
Proof.
  revert k. induction l as [|x l IH]; intros k Hk; cbn in Hk.
  - inv_res. set_solver.
  - apply bind_Ok in Hk as (y' & Hy' & Hk). apply bind_Ok in Hk as (k' & Hk' & [= <-]).
    intros y. rewrite elem_of_cons, (IH k' Hk' y). split.
    + intros [->|(x' & ? & ?)]; [exists x|exists x']; (split; [set_solver|done]).
    + intros (x' & [->|Hx']%elem_of_cons & ?); [left; congruence|right; eauto].
Qed.
End mapM.

Lemma expand_ref_steps rules pos rest e nexts :
  deref rules pos = Ok e → ge_type e = GRETYPE_RULE_REF →
  expand_ref rules pos rest (ge_value e) = Ok nexts →
  ∀ st, st ∈ nexts ↔ stack_step rules (pos :: rest) st.
Proof.
  intros He Ht H st. unfold expand_ref in H. apply bind_Ok in H as (rule & Hr & H).
  apply bind_Ok in H as (starts & Hs & H). rewrite (mapM_Ok_elem _ _ _ H). split.
  - intros (s & Hin & Hp). apply bind_Ok in Hp as (st1 & ? & ?). eauto with llama.
  - intros Hst. inversion Hst as [pos0 rest0 e0 rule0 starts0 s st1 st2 He0 Ht0 Hr0 Hs0 Hin Hp1 Hp2].
    assert (e0 = e) as -> by congruence. assert (rule0 = rule) as -> by congruence.
    assert (starts0 = starts) as -> by congruence.
    exists s. split; [done|]. rewrite Hp1. exact Hp2.
Qed.

Section advance.
Context (rules : llama_grammar_rules) (st0 : llama_grammar_stack) (acc : llama_grammar_stacks).

(** The worklist invariant: what is [seen] is expanded into [todo] or [seen]
    and its terminal stacks are collected; all of it is reachable. *)
Record advance_inv (todo seen new : llama_grammar_stacks) : Prop := {
  ai_term s : s ∈ seen → terminal_stack rules s → s ∈ new;
  ai_step s s' : s ∈ seen → stack_step rules s s' → s' ∈ seen ∨ s' ∈ todo;
  ai_seen s : s ∈ seen → rtc (stack_step rules) st0 s;
  ai_todo s : s ∈ todo → rtc (stack_step rules) st0 s;
  ai_start : st0 ∈ seen ∨ st0 ∈ todo;
  ai_acc s : s ∈ acc → s ∈ new;
  ai_new s : s ∈ new → s ∈ acc ∨ expands_to rules st0 s;
  ai_nodup : NoDup acc → NoDup new }.

Lemma advance_inv_init : advance_inv [st0] [] acc.
Proof.
  split; set_solver by (apply rtc_refl).
Qed.

Lemma advance_inv_seen curr todo seen new :
  advance_inv (curr :: todo) seen new → curr ∈ seen → advance_inv todo seen new.
Proof.
  intros [Hterm Hstep Hseen Htodo Hstart Hacc Hnew Hnd] Hc. split; try done.
  - intros s s' Hs Hs'. destruct (Hstep s s' Hs Hs') as [|[->|]%elem_of_cons]; auto.
  - intros s Hs. apply Htodo. by right.
  - destruct Hstart as [|[->|]%elem_of_cons]; auto.
Qed.

Lemma advance_inv_terminal curr todo seen new :
  advance_inv (curr :: todo) seen new → terminal_stack rules curr →
  (∀ s', ¬ stack_step rules curr s') →
  advance_inv todo (curr :: seen) (add_stack new curr).
Proof.
  intros [Hterm Hstep Hseen Htodo Hstart Hacc Hnew Hnd] Hc Hstuck. split.
  - intros s [->|Hs]%elem_of_cons Ht; apply add_stack_elem; auto.
  - intros s s' [->|Hs]%elem_of_cons Hs'; [by destruct (Hstuck s')|].
    destruct (Hstep s s' Hs Hs') as [|[->|]%elem_of_cons]; [left; by right|left; by left|by right].
  - intros s [->|Hs]%elem_of_cons; [apply Htodo; by left|auto].
  - intros s Hs. apply Htodo. by right.
  - destruct Hstart as [|[->|]%elem_of_cons]; [left; by right|left; by left|by right].
  - intros s Hs. apply add_stack_elem. auto.
  - intros s [Hs| ->]%add_stack_elem; [auto|]. right. split; [apply Htodo; by left|done].
  - intros. by apply add_stack_NoDup, Hnd.
Qed.

Lemma advance_inv_expand curr todo seen new nexts :
  advance_inv (curr :: todo) seen new → ¬ terminal_stack rules curr →
  (∀ s', s' ∈ nexts ↔ stack_step rules curr s') →
  advance_inv (rev nexts ++ todo) (curr :: seen) new.
Proof.
  intros [Hterm Hstep Hseen Htodo Hstart Hacc Hnew Hnd] Hc Hn. split; try done.
  - intros s [->|Hs]%elem_of_cons Ht; [done|auto].
  - intros s s' [->|Hs]%elem_of_cons Hs'.
    { right. apply elem_of_app. left. by apply elem_of_rev, Hn. }
    destruct (Hstep s s' Hs Hs') as [|[->|]%elem_of_cons]; [left; by right|left; by left|].
    right. apply elem_of_app. by right.
  - intros s [->|Hs]%elem_of_cons; [apply Htodo; by left|auto].
  - intros s [Hs|Hs]%elem_of_app; [|apply Htodo; by right].
    eapply rtc_r; [apply Htodo; by left|]. by apply Hn, elem_of_rev.
  - destruct Hstart as [|[->|]%elem_of_cons]; [left; by right|left; by left|].
    right. apply elem_of_app. by right.
Qed.

Lemma advance_inv_done seen new s :
  advance_inv [] seen new → s ∈ new ↔ s ∈ acc ∨ expands_to rules st0 s.
Proof.
  intros [Hterm Hstep Hseen Htodo Hstart Hacc Hnew Hnd]. split; [auto|].
  intros [?|[Hrtc Ht]]; [auto|]. apply Hterm; [|done].
  assert (st0 ∈ seen) as H0 by (destruct Hstart as [|H%not_elem_of_nil]; done).
  clear Hstart. clear -Hrtc Hstep H0. induction Hrtc as [|x y z Hxy _ IH]; [done|].
  apply IH. destruct (Hstep x y H0 Hxy) as [|H%not_elem_of_nil]; done.
Qed.

Lemma advance_loop_inv fuel todo seen new out :
  advance_loop fuel rules todo seen new = Ok out → advance_inv todo seen new →
  ∃ seen', advance_inv [] seen' out.
Proof.
  revert todo seen new. induction fuel as [|fuel IH]; intros todo seen new; [done|]. cbn.
  destruct todo as [|curr todo]; [intros [= <-]; by exists seen|].
  case_decide as Hseen; [intros Hout Hinv; eapply IH; [done|]; by eapply advance_inv_seen|].
  destruct curr as [|pos rest].
  { intros Hout Hinv. eapply IH; [done|]. apply advance_inv_terminal; [done..|].
    intros s' Hs. inversion Hs. }
  intros Hout Hinv. apply bind_Ok in Hout as (e & He & Hout).
  assert (terminal_elem e = true →
    advance_inv todo ((pos :: rest) :: seen) (add_stack new (pos :: rest))) as Hterm.
  { intros Ht. apply advance_inv_terminal; [done|by exists e|].
    intros s' Hs. inversion Hs; subst. apply (terminal_elem_ref e Ht). congruence. }
  unfold terminal_elem, is_positive_char, is_char_not, is_token_elem in Hterm.
  destruct (ge_type e) eqn:Hty; try done; try (eapply IH; [done|]; by apply Hterm).
  apply bind_Ok in Hout as (nexts & Hnexts & Hout). eapply IH; [done|].
  apply advance_inv_expand; [done| |by eapply expand_ref_steps].
  intros (e' & He' & Ht). apply (terminal_elem_ref e' Ht). congruence.
Qed.

Lemma advance_stack_elem fuel out s :
  llama_grammar_advance_stack fuel rules st0 acc = Ok out →
  s ∈ out ↔ s ∈ acc ∨ expands_to rules st0 s.
Proof.
  intros H. destruct (advance_loop_inv _ _ _ _ _ H advance_inv_init) as [seen Hs].
  by eapply advance_inv_done.
Qed.

Lemma advance_stack_NoDup fuel out :
  llama_grammar_advance_stack fuel rules st0 acc = Ok out → NoDup acc → NoDup out.
Proof.
  intros H. destruct (advance_loop_inv _ _ _ _ _ H advance_inv_init) as [seen Hs]. apply Hs.
Qed.
End advance.

(** ** Acceptance of code points *)

Section accept.
Context (fuel : nat) (rules : llama_grammar_rules).

Lemma match_char_not_token pos e c r :
  deref rules pos = Ok e → llama_grammar_match_char rules pos c = Ok r →
  is_positive_char e || is_char_not e = true.
Proof.
  intros He H. unfold llama_grammar_match_char in H. rewrite He in H.
  apply bind_Ok in H as (e' & [= <-] & H). apply bind_Ok in H as ([] & H & _).
  by apply ggml_assert_Ok in H.
Qed.

Lemma accept_chr_elem st c acc out s :
  llama_grammar_accept_chr fuel rules st c acc = Ok out →
  s ∈ out ↔ s ∈ acc ∨ chr_step rules c st s.
Proof.
  unfold llama_grammar_accept_chr. destruct st as [|pos rest].
  { intros [= ->]. split; [auto|]. intros [?|H]; [done|inversion H]. }
  intros H. apply bind_Ok in H as (e & He & H). destruct (is_token_elem e) eqn:Htok.
  { injection H as ->. split; [auto|]. intros [?|H]; [done|]. inversion H; congruence. }
  apply bind_Ok in H as ([m pos'] & Hm & H). destruct m.
  - apply bind_Ok in H as (st1 & Hp & H). rewrite (advance_stack_elem _ _ _ _ _ _ H).
    split; (intros [?|Hs]; [by left|right]); [by econstructor|].
    inversion Hs as [?? e' pos'' st1' ? He' ? Hm' Hp' Hex]; subst.
    assert (pos'' = pos') as -> by congruence. by assert (st1' = st1) as <- by congruence.
  - injection H as ->. split; [auto|]. intros [?|H]; [done|]. inversion H; congruence.
Qed.

Lemma accept_chr_all_elem sts c acc out s :
  accept_chr_all fuel rules sts c acc = Ok out →
  s ∈ out ↔ s ∈ acc ∨ ∃ st, st ∈ sts ∧ chr_step rules c st s.
Proof.
  revert acc. induction sts as [|st sts IH]; intros acc H; cbn in H.
  - injection H as ->. set_solver.
  - apply bind_Ok in H as (acc' & Ha & H). rewrite (IH _ H), (accept_chr_elem _ _ _ _ _ Ha).
    split.
    + intros [[?|?]|(st' & ? & ?)]; [by left|right; exists st|right; exists st']; set_solver.
    + intros [?|(st' & [->|?]%elem_of_cons & ?)]; [by left; left|by left; right|right; eauto].
Qed.

Lemma accept_str_loop_elem cs sts out s :
  accept_str_loop fuel rules cs sts = Ok out →
  s ∈ out ↔ ∃ st, st ∈ sts ∧ chr_steps rules cs st s.
Proof.
  revert sts. induction cs as [|c cs IH]; intros sts H; cbn in H.
  - injection H as ->. split; [eauto with llama|]. intros (st & ? & Hs). by inversion Hs; subst.
  - apply bind_Ok in H as (mid & Hm & H). rewrite (IH _ H). split.
    + intros (st & [H0|(st0 & ? & ?)]%(accept_chr_all_elem _ _ _ _ _ Hm) & ?);
        [by apply not_elem_of_nil in H0|]. eauto with llama.
    + intros (st & Hst & Hs). inversion Hs as [|c' cs' st' st1 st2 Hc Hcs]; subst. exists st1.
      split; [|done]. apply (accept_chr_all_elem _ _ _ _ _ Hm). right. eauto.
Qed.

Lemma init_stacks_elem start starts acc out s :
  init_stacks fuel rules start starts acc = Ok out →
  s ∈ out ↔ s ∈ acc ∨ ∃ a st, a ∈ starts ∧ push_unless_end rules (start, a) [] = Ok st ∧
    expands_to rules st s.
Proof.
  revert acc. induction starts as [|a starts IH]; intros acc H; cbn in H.
  - injection H as ->. set_solver.
  - apply bind_Ok in H as (st & Hst & H). apply bind_Ok in H as (acc' & Ha & H).
    rewrite (IH _ H), (advance_stack_elem _ _ _ _ _ _ Ha). split.
    + intros [[?|?]|(a' & st' & ? & ? & ?)];
        [by left|right; exists a, st|right; exists a', st']; set_solver.
    + intros [?|(a' & st' & [->|?]%elem_of_cons & Hp & ?)]; [by left; left| |right; eauto].
      left; right. by assert (st' = st) as -> by congruence.
Qed.
End accept.

(** ** The language of a grammar *)

Section language.
Context (rules : llama_grammar_rules).

Abbreviation step := (stack_step rules).

Definition char_top (st : llama_grammar_stack) : Prop :=
  match st with
  | [] => False
  | pos :: _ => ∃ e, deref rules pos = Ok e ∧ is_positive_char e || is_char_not e = true
  end.

Lemma char_top_terminal st : char_top st → terminal_stack rules st.
Proof.
  destruct st as [|pos st]; [done|]. intros (e & ? & H). exists e. split; [done|].
  unfold terminal_elem. by rewrite H.
Qed.

Lemma char_top_app u v : char_top u → char_top (u ++ v).
Proof. by destruct u. Qed.

Lemma char_not_ref e : is_positive_char e || is_char_not e = true →
  ge_type e ≠ GRETYPE_RULE_REF ∧ elem_is_end e = false ∧ is_token_elem e = false.
Proof. unfold is_positive_char, is_char_not, elem_is_end, is_token_elem. by destruct (ge_type e). Qed.

Lemma push_end pos e st :
  deref rules pos = Ok e → elem_is_end e = true → push_unless_end rules pos st = Ok st.
Proof. intros He Hend. unfold push_unless_end, llama_grammar_is_end_of_sequence. by rewrite He; cbn; rewrite Hend. Qed.

Lemma push_more pos e st :
  deref rules pos = Ok e → elem_is_end e = false → push_unless_end rules pos st = Ok (pos :: st).
Proof. intros He Hend. unfold push_unless_end, llama_grammar_is_end_of_sequence. by rewrite He; cbn; rewrite Hend. Qed.

Lemma push_inv pos rest st :
  push_unless_end rules pos rest = Ok st →
  ∃ e, deref rules pos = Ok e ∧ st = (if elem_is_end e then rest else pos :: rest).
Proof.
  unfold push_unless_end, llama_grammar_is_end_of_sequence. intros H.
  apply bind_Ok in H as (b & (e & He & ->)%fmap_Ok & [= <-]). by exists e.
Qed.

Lemma derives_end pos e w : deref rules pos = Ok e → elem_is_end e = true → derives rules pos w → w = [].
Proof.
  intros He Hend Hd. inversion Hd as [|? e' pos' c w' He' Hm Hd'|? e' rule starts s w1 w2 He' Ht]; subst; [done| |].
  - pose proof (match_char_not_token _ _ _ _ _ He' Hm) as (_ & ? & _)%char_not_ref. congruence.
  - unfold elem_is_end in Hend. assert (e' = e) as -> by congruence. by rewrite Ht in Hend.
Qed.

Lemma stack_derives_app u v w1 w2 :
  stack_derives rules u w1 → stack_derives rules v w2 → stack_derives rules (u ++ v) (w1 ++ w2).
Proof.
  intros Hu Hv. induction Hu as [|pos rest e x y ?? ? _ IH]; [done|].
  rewrite <- (assoc_L (++)). cbn. by econstructor.
Qed.

(** Pushing a pointer adds what its elements derive. *)
Lemma push_derives pos rest st w :
  push_unless_end rules pos rest = Ok st →
  stack_derives rules st w ↔ ∃ w1 w2, w = w1 ++ w2 ∧ derives rules pos w1 ∧ stack_derives rules rest w2.
Proof.
  intros (e & He & ->)%push_inv. destruct (elem_is_end e) eqn:Hend.
  - split.
    + intros Hw. exists [], w. eauto with llama.
    + intros (w1 & w2 & -> & Hd & ?). by apply (derives_end _ _ _ He Hend) in Hd as ->.
  - split.
    + intros Hs. inversion Hs; subst. eauto.
    + intros (w1 & w2 & -> & ? & ?). by econstructor.
Qed.

(** Expansion steps only choose a derivation. *)
Lemma stack_step_derives st st' w :
  step st st' → stack_derives rules st' w → stack_derives rules st w.
Proof.
  intros Hs Hw. inversion Hs as [pos rest e rule starts s st1 st2 He Ht Hr Ha Hin Hp1 Hp2]; subst.
  destruct (proj1 (push_derives _ _ _ _ Hp2) Hw) as (w1 & w' & -> & Hd1 & Hw').
  destruct (proj1 (push_derives _ _ _ _ Hp1) Hw') as (w2 & w3 & -> & Hd2 & Hw3).
  rewrite (assoc_L (++)). econstructor; [done| | |done]; [by unfold elem_is_end; rewrite Ht|].
  by eapply DerivesRef.
Qed.

Lemma stack_steps_derives st st' w :
  rtc step st st' → stack_derives rules st' w → stack_derives rules st w.
Proof. induction 1; [done|]. intros. eauto using stack_step_derives. Qed.

Lemma chr_step_derives c st st' w :
  chr_step rules c st st' → stack_derives rules st' w → stack_derives rules st (c :: w).
Proof.
  intros Hs Hw. inversion Hs as [pos rest e pos' st1 st2 He Htok Hm Hp [Hex _]]; subst.
  eapply stack_steps_derives in Hex; [|done].
  destruct (proj1 (push_derives _ _ _ _ Hp) Hex) as (w1 & w2 & -> & ? & ?).
  pose proof (match_char_not_token _ _ _ _ _ He Hm) as (_ & ? & _)%char_not_ref.
  rewrite app_comm_cons. econstructor; [done..| |done]. by eapply DerivesChar.
Qed.

Lemma chr_steps_derives cs st : chr_steps rules cs st [] → stack_derives rules st cs.
Proof.
  remember [] as st' eqn:Hst'. induction 1; subst; [constructor|]. eauto using chr_step_derives.
Qed.

(** Conversely a derivation drives the expansion to its first code point. *)
Lemma derives_expand pos w rest st :
  derives rules pos w → push_unless_end rules pos rest = Ok st →
  (w = [] ∧ rtc step st rest) ∨
  (w ≠ [] ∧ ∃ u, rtc step st (u ++ rest) ∧ char_top u ∧ stack_derives rules u w).
Proof.
  intros Hd. revert rest st.
  induction Hd as [pos e He Hend|pos e pos' c w He Hm Hd _|pos e rule starts s w1 w2 He Ht Hr Ha Hin Hd1 IH1 Hd2 IH2];
    intros rest st Hp.
  - rewrite (push_end _ _ _ He Hend) in Hp. injection Hp as <-. left. split; [done|apply rtc_refl].
  - pose proof (match_char_not_token _ _ _ _ _ He Hm) as Hch. destruct (char_not_ref _ Hch) as (_ & Hend & _).
    rewrite (push_more _ _ _ He Hend) in Hp. injection Hp as <-. right. split; [done|].
    exists [pos]. split_and!; [apply rtc_refl|by exists e|]. rewrite <- (app_nil_r (c :: w)).
    econstructor; [done..| |constructor]. by eapply DerivesChar.
  - assert (elem_is_end e = false) as Hend by (unfold elem_is_end; by rewrite Ht).
    rewrite (push_more _ _ _ He Hend) in Hp. injection Hp as <-.
    assert (∀ p w st, derives rules p w → ∃ st', push_unless_end rules p st = Ok st') as Hpush.
    { intros p w st Hd. assert (∃ e', deref rules p = Ok e') as [e' He'] by (inversion Hd; eauto).
      destruct (elem_is_end e') eqn:?; eauto using push_end, push_more. }
    destruct (Hpush _ _ rest Hd2) as [st1 Hp1]. destruct (Hpush _ _ st1 Hd1) as [st2 Hp2].
    assert (step (pos :: rest) st2) as Hstep by eauto with llama.
    destruct (IH1 _ _ Hp2) as [[-> Hrtc]|(Hne & u & Hrtc & Hu & Hsd)].
    + destruct (IH2 _ _ Hp1) as [[-> Hrtc2]|(Hne & u & Hrtc2 & ? & ?)]; [left|right]; cbn.
      * split; [done|]. eapply rtc_l; [done|]. by etrans.
      * split; [done|]. exists u. split_and!; [|done..]. eapply rtc_l; [done|]. by etrans.
    + right. split; [by destruct w1|]. apply push_inv in Hp1 as (e' & He' & ->).
      destruct (elem_is_end e') eqn:Hend'.
      * rewrite (derives_end _ _ _ He' Hend' Hd2), app_nil_r. exists u. split_and!; [by eapply rtc_l|done..].
      * exists (u ++ [ptr_add pos 1]). rewrite <- (assoc_L (++)). split_and!; [by eapply rtc_l|by apply char_top_app|].
        apply stack_derives_app; [done|]. rewrite <- (app_nil_r w2). by econstructor; [..|constructor].
Qed.

Lemma stack_derives_expand st w :
  stack_derives rules st w →
  (w = [] ∧ rtc step st []) ∨ (w ≠ [] ∧ ∃ u, rtc step st u ∧ char_top u ∧ stack_derives rules u w).
Proof.
  induction 1 as [|pos rest e w1 w2 He Hend Hd Hrest IH]; [left; split; [done|apply rtc_refl]|].
  destruct (derives_expand _ _ rest _ Hd (push_more _ _ _ He Hend)) as [[-> ?]|(Hne & u & ? & ? & ?)].
  - destruct IH as [[-> ?]|(? & u & ? & ? & ?)]; [left|right; split; [done|]; exists u];
      split_and!; try done; by etrans.
  - right. split; [by destruct w1|]. exists (u ++ rest).
    split_and!; [done|by apply char_top_app|by apply stack_derives_app].
Qed.

Lemma stack_derives_steps w st :
  stack_derives rules st w → ∃ st', expands_to rules st st' ∧ chr_steps rules w st' [].
Proof.
  revert st. induction w as [|c w IH]; intros st Hst.
  all: destruct (stack_derives_expand _ _ Hst) as [[? ?]|(? & u & Hu & Htop & Hd)]; try done.
  { exists []. split; [done|constructor]. }
  exists u. split; [split; [done|by apply char_top_terminal]|]. destruct u as [|pos rest]; [done|].
  destruct Htop as (e & He & Hch). destruct (char_not_ref _ Hch) as (Href & Hend & Htok).
  inversion Hd as [|??? w1 w2 ?? Hd1 Hd2 Hnil Heq]; subst.
  inversion Hd1 as [|??? c' w' He' Hm Hd'|]; subst; try congruence.
  injection Heq as <- <-.
  assert (∃ st1, push_unless_end rules pos' rest = Ok st1) as [st1 Hp].
  { assert (∃ e', deref rules pos' = Ok e') as [e' ?] by (inversion Hd'; eauto).
    destruct (elem_is_end e') eqn:?; eauto using push_end, push_more. }
  destruct (IH st1) as (st' & Hex & Hcs).
  { apply (push_derives _ _ _ _ Hp). eauto. }
  apply ChrStepsCons with st'; [|exact Hcs]. by apply ChrStep with e pos' st1.
Qed.

Lemma language_stack st w :
  stack_derives rules st w ↔ ∃ st', expands_to rules st st' ∧ chr_steps rules w st' [].
Proof.
  split; [apply stack_derives_steps|]. intros (st' & [? _] & ?).
  by eapply stack_steps_derives, chr_steps_derives.
Qed.
End language.

(** ** Rejection of candidates *)

Section candidates.
Context (rules : llama_grammar_rules).

(** A stack lets a candidate pass: its remaining code points are consumed, the
    incomplete sequence after the last one can still match, or a token
    element at the top accepts the candidate's id. *)
Inductive cand_passes : llama_grammar_stack → llama_grammar_candidate → Prop :=
  | PassesEnd st tok :
      cand_cp tok = Ok 0 → pu_n_remain (cand_partial_utf8 tok) = 0 → cand_passes st tok
  | PassesPartial pos rest e tok :
      cand_cp tok = Ok 0 → pu_n_remain (cand_partial_utf8 tok) ≠ 0 →
      deref rules pos = Ok e → is_token_elem e = false →
      llama_grammar_match_partial_char rules pos (cand_partial_utf8 tok) = Ok true →
      cand_passes (pos :: rest) tok
  | PassesToken pos rest e tok c :
      cand_cp tok = Ok c → c ≠ 0 → deref rules pos = Ok e → is_token_elem e = true →
      llama_grammar_match_token rules pos (cand_id tok) = Ok true →
      cand_passes (pos :: rest) tok
  | PassesChar st st' tok c :
      cand_cp tok = Ok c → c ≠ 0 → chr_step rules c st st' →
      cand_passes st' (cand_move tok (cand_offset tok + 1)) → cand_passes st tok.

Lemma match_char_loop_eq e e1 es2 i c f :
  match_char_loop (e :: e1 :: es2) i c f =
    if bool_decide (ge_type e1 = GRETYPE_CHAR_RNG_UPPER) then
      let found := f || (bool_decide (ge_value e ≤ c) && bool_decide (c ≤ ge_value e1)) in
      match es2 with
      | e2 :: _ => if bool_decide (ge_type e2 = GRETYPE_CHAR_ALT)
                   then match_char_loop es2 (i + 2) c found else Ok (found, (i + 2)%nat)
      | [] => Err Oob
      end
    else
      let found := if bool_decide (ge_type e = GRETYPE_CHAR_ANY) then true
                   else f || bool_decide (ge_value e = c) in
      if bool_decide (ge_type e1 = GRETYPE_CHAR_ALT)
      then match_char_loop (e1 :: es2) (i + 1) c found else Ok (found, (i + 1)%nat).
Proof. reflexivity. Qed.

Lemma match_char_loop_end es i c c' f f' b k b' k' :
  match_char_loop es i c f = Ok (b, k) → match_char_loop es i c' f' = Ok (b', k') → k = k'.
Proof.
  enough (∀ n es i c c' f f' b k b' k', (length es < n)%nat →
    match_char_loop es i c f = Ok (b, k) → match_char_loop es i c' f' = Ok (b', k') → k = k') as H
    by (intros; eapply (H (S (length es)) es); [lia|done..]).
  clear. induction n as [|n IH]; intros es i c c' f f' b k b' k' Hn; [lia|].
  destruct es as [|e [|e1 es2]]; [done|done|].
  rewrite !match_char_loop_eq. cbn [length] in Hn. cbv zeta.
  case_bool_decide; [destruct es2 as [|e2 es3]; [done|]|]; case_bool_decide; try congruence.
  all: apply IH; cbn [length] in *; lia.
Qed.

Lemma match_char_end pos c c' b p b' p' :
  llama_grammar_match_char rules pos c = Ok (b, p) →
  llama_grammar_match_char rules pos c' = Ok (b', p') → p = p'.
Proof.
  unfold llama_grammar_match_char. intros H H'.
  apply bind_Ok in H as (e & He & H). apply bind_Ok in H' as (e' & He' & H').
  apply bind_Ok in H as ([] & _ & H). apply bind_Ok in H' as ([] & _ & H').
  apply bind_Ok in H as (es & Hes & H). apply bind_Ok in H' as (es' & Hes' & H').
  apply bind_Ok in H as ([f k] & Hk & [= _ <-]). apply bind_Ok in H' as ([f' k'] & Hk' & [= _ <-]).
  assert (es' = es) as -> by congruence. by rewrite (match_char_loop_end _ _ _ _ _ _ _ _ _ _ Hk Hk').
Qed.

Lemma reject_empty_stack_spec cands out tok :
  reject_empty_stack cands = Ok out → tok ∈ out ↔ tok ∈ cands ∧ ¬ cand_passes [] tok.
Proof.
  revert out. induction cands as [|t cands IH]; intros out H; cbn in H.
  - injection H as <-. set_solver.
  - apply bind_Ok in H as (c & Hc & H). apply bind_Ok in H as (r & Hr & [= <-]).
    specialize (IH _ Hr).
    assert ((negb (bool_decide (c = 0)) || negb (bool_decide (pu_n_remain (cand_partial_utf8 t) = 0))) = true
      ↔ ¬ cand_passes [] t) as Hb.
    { rewrite orb_true_iff, !negb_true_iff, !bool_decide_eq_false. split.
      - intros Hor Hp. inversion Hp as [| | |???? ?? Hs]; subst; [|inversion Hs].
        destruct Hor; congruence.
      - intros Hn. destruct (decide (c = 0)) as [->|]; [|by left]. right. intros Hz.
        apply Hn. by apply PassesEnd. }
    destruct (_ || _); [|rewrite IH]; (destruct (decide (tok = t)) as [->|]; [|set_solver]).
    + split; [|by left]. intros _. split; [by left|]. by apply Hb.
    + split; [set_solver|]. intros [_ Hn]. apply Hb in Hn. done.
Qed.

Lemma reject_token_elem_spec pos rest e cands out tok :
  deref rules pos = Ok e → is_token_elem e = true →
  reject_token_elem rules pos cands = Ok out →
  tok ∈ out ↔ tok ∈ cands ∧ ¬ cand_passes (pos :: rest) tok.
Proof.
  intros He Htok. revert out. induction cands as [|t cands IH]; intros out H; cbn in H.
  - injection H as <-. set_solver.
  - apply bind_Ok in H as (c & Hc & H). apply bind_Ok in H as (b & Hb & H).
    apply bind_Ok in H as (r & Hr & [= <-]). specialize (IH _ Hr).
    assert (b = true ↔ ¬ cand_passes (pos :: rest) t) as Hbt.
    { case_bool_decide as Hz.
      - subst c. injection Hb as <-. rewrite negb_true_iff, bool_decide_eq_false. split.
        + intros Hn Hp. inversion Hp; congruence.
        + intros Hn Hz. apply Hn. by apply PassesEnd.
      - apply fmap_Ok in Hb as (m & Hm & ->). destruct m; cbn.
        + split; [done|]. intros []. by eapply PassesToken.
        + split; [|done]. intros _ Hp. inversion Hp as [| | |???? ?? Hs]; subst; try congruence.
          inversion Hs; congruence. }
    destruct b; [|rewrite IH]; (destruct (decide (tok = t)) as [->|]; [|set_solver]).
    + split; [|by left]. intros _. split; [by left|]. by apply Hbt.
    + split; [set_solver|]. intros [_ Hn]. apply Hbt in Hn. done.
Qed.

Definition cand_next (tok : llama_grammar_candidate) : llama_grammar_candidate :=
  cand_move tok (cand_offset tok + 1).

(** The element decides at once that the candidate fails. *)
Definition fails_here (pos : elem_ptr) (tok : llama_grammar_candidate) : Prop :=
  (cand_cp tok = Ok 0 ∧ pu_n_remain (cand_partial_utf8 tok) ≠ 0 ∧
   llama_grammar_match_partial_char rules pos (cand_partial_utf8 tok) = Ok false) ∨
  (∃ c p, cand_cp tok = Ok c ∧ c ≠ 0 ∧ llama_grammar_match_char rules pos c = Ok (false, p)).

Definition goes_on (pos : elem_ptr) (tok : llama_grammar_candidate) : Prop :=
  ∃ c p, cand_cp tok = Ok c ∧ c ≠ 0 ∧ llama_grammar_match_char rules pos c = Ok (true, p).

Lemma reject_split_spec pos cands rejs nexts :
  reject_split rules pos cands = Ok (rejs, nexts) →
  (∀ tok, tok ∈ rejs ↔ tok ∈ cands ∧ fails_here pos tok) ∧
  (∀ tok, tok ∈ nexts ↔ ∃ t, t ∈ cands ∧ goes_on pos t ∧ tok = cand_next t) ∧
  (∀ tok, tok ∈ cands → fails_here pos tok ∨ goes_on pos tok ∨
     cand_cp tok = Ok 0 ∧ (pu_n_remain (cand_partial_utf8 tok) = 0 ∨
       llama_grammar_match_partial_char rules pos (cand_partial_utf8 tok) = Ok true)).
Proof.
  revert rejs nexts. induction cands as [|t cands IH]; intros rejs nexts H; cbn in H.
  { injection H as <- <-. split_and!; set_solver. }
  apply bind_Ok in H as (c & Hc & H).
  assert (∃ here next,
      ((here = true ∧ fails_here pos t) ∨ (here = false ∧ ¬ fails_here pos t)) ∧
      ((next = true ∧ goes_on pos t) ∨ (next = false ∧ ¬ goes_on pos t)) ∧
      (here = true ∨ next = true ∨ cand_cp t = Ok 0 ∧ (pu_n_remain (cand_partial_utf8 t) = 0 ∨
         llama_grammar_match_partial_char rules pos (cand_partial_utf8 t) = Ok true)) ∧
      ∃ rejs' nexts', reject_split rules pos cands = Ok (rejs', nexts') ∧
        rejs = (if here : bool then t :: rejs' else rejs') ∧
        nexts = (if next : bool then cand_next t :: nexts' else nexts'))
    as (here & next & Hhere & Hnext & Htri & rejs' & nexts' & Hrec & -> & ->).
  { case_bool_decide as Hz.
    - subst c. apply bind_Ok in H as (b & Hb & H). apply bind_Ok in H as ([r n] & Hr & H).
      exists b, false. assert (¬ goes_on pos t) by (intros (c & p & ? & ? & _); congruence).
      case_bool_decide as Hn.
      + injection Hb as <-. injection H as <- <-. split_and!; eauto 6.
        right. split; [done|]. intros [(_ & ? & _)|(c & p & ? & ? & _)]; congruence.
      + apply fmap_Ok in Hb as ([] & Hm & ->); injection H as <- <-; split_and!; eauto 6.
        * right. split; [done|]. intros [(_ & ? & ?)|(c & p & ? & ? & _)]; congruence.
        * left. split; [done|]. by left.
    - apply bind_Ok in H as ([m p] & Hm & H). apply bind_Ok in H as ([r n] & Hr & H).
      exists (negb m), m.
      destruct m; injection H as <- <-; split_and!; eauto 6; unfold goes_on, fails_here.
      + right. split; [done|]. intros [(? & _)|(c' & p' & ? & ? & ?)]; congruence.
      + left. eauto 8.
      + left. eauto 8.
      + right. split; [done|]. intros (c' & p' & ? & ? & ?). congruence. }
  destruct (IH _ _ Hrec) as (IH1 & IH2 & IH3). split_and!.
  - intros tok. destruct Hhere as [[-> ?]|[-> Hn]].
    + rewrite !elem_of_cons, IH1. naive_solver.
    + rewrite elem_of_cons, IH1. naive_solver.
  - intros tok. destruct Hnext as [[-> ?]|[-> Hn]].
    + rewrite elem_of_cons, IH2. setoid_rewrite elem_of_cons. naive_solver.
    + rewrite IH2. setoid_rewrite elem_of_cons. naive_solver.
  - intros tok [->|?]%elem_of_cons; [|by apply IH3]. naive_solver.
Qed.

Lemma cand_next_inj t t' : cand_next t = cand_next t' → t = t'.
Proof. destruct t, t'. unfold cand_next, cand_move. cbn. intros [=]. f_equal; [done..|lia|done|done]. Qed.

Lemma cand_prev_next t : cand_move (cand_next t) (cand_offset (cand_next t) - 1) = t.
Proof. destruct t. unfold cand_next, cand_move. cbn. f_equal. lia. Qed.

Section for_stack.
Context (fuel : nat) (rc : llama_grammar_stacks → llama_grammar_candidates → res llama_grammar_candidates).
Hypothesis rc_spec : ∀ sts cands out, rc sts cands = Ok out →
  ∀ tok, tok ∈ out ↔ tok ∈ cands ∧ ∀ st, st ∈ sts → ¬ cand_passes st tok.

Lemma reject_for_stack_spec st cands out :
  llama_grammar_reject_candidates_for_stack fuel rules rc st cands = Ok out →
  ∀ tok, tok ∈ out ↔ tok ∈ cands ∧ ¬ cand_passes st tok.
Proof.
  unfold llama_grammar_reject_candidates_for_stack. intros H tok. destruct st as [|pos rest].
  { by apply reject_empty_stack_spec. }
  apply bind_Ok in H as (e & He & H). destruct (is_token_elem e) eqn:Htok.
  { by eapply reject_token_elem_spec. }
  apply bind_Ok in H as ([rejs nexts] & Hsplit & H). apply bind_Ok in H as ([b0 pos'] & Hm0 & H).
  apply bind_Ok in H as (st1 & Hp & H). apply bind_Ok in H as (sts & Hadv & H).
  apply bind_Ok in H as (nrej & Hnrej & [= <-]).
  destruct (reject_split_spec _ _ _ _ Hsplit) as (Hrejs & Hnexts & Htri).
  pose proof (rc_spec _ _ _ Hnrej) as Hnr.
  assert (∀ t, goes_on pos t → cand_passes (pos :: rest) t ↔ ∃ st, st ∈ sts ∧ cand_passes st (cand_next t)) as Hgo.
  { intros t (c & p & Hc & Hz & Hm).
    assert (p = pos') as -> by (by eapply match_char_end). split.
    - intros Hpass. inversion Hpass as [| | |? st' ? c' Hc' _ Hs Hpass']; subst; try congruence.
      assert (c' = c) as -> by congruence. exists st'. split; [|done].
      apply (advance_stack_elem _ _ _ _ _ _ Hadv). right.
      inversion Hs as [?? e' pos'' st1' ? He' ? Hm' Hp' Hex]; subst.
      assert (pos'' = pos') as -> by congruence. by assert (st1' = st1) as -> by congruence.
    - intros (st & [H0%not_elem_of_nil|Hex]%(advance_stack_elem _ _ _ _ _ _ Hadv) & ?); [done|].
      eapply PassesChar; [done..| |done]. by eapply ChrStep. }
  assert (∀ t, fails_here pos t → ¬ cand_passes (pos :: rest) t) as Hfail.
  { intros t [(Hc & Hr & Hm)|(c & p & Hc & Hz & Hm)] Hpass; inversion Hpass as [| | |? st' ? c' Hc' ? Hs _];
      subst; try congruence. inversion Hs; subst; congruence. }
  rewrite elem_of_app, list_elem_of_fmap, Hrejs. split.
  - intros [[? ?]|(t' & -> & Ht')]; [auto|]. apply Hnr in Ht' as [Ht' Hno].
    apply Hnexts in Ht' as (t & Ht & Hgot & ->). rewrite cand_prev_next. split; [done|].
    intros (st & Hst & Hpass)%Hgo; [|done]. by apply (Hno st).
  - intros [Hin Hno]. destruct (Htri tok Hin) as [?|[Hgot|(Hc & Hpart)]]; [by left| |].
    + right. exists (cand_next tok). rewrite cand_prev_next. split; [done|].
      apply Hnr. split; [apply Hnexts; eauto|]. intros st Hst Hpass. apply Hno, Hgo; eauto.
    + destruct Hno. destruct (decide (pu_n_remain (cand_partial_utf8 tok) = 0)); [by apply PassesEnd|].
      destruct Hpart as [|Hpart]; [done|]. by eapply PassesPartial.
Qed.

Lemma reject_rest_spec sts cands out :
  reject_candidates_rest (llama_grammar_reject_candidates_for_stack fuel rules rc) sts cands = Ok out →
  ∀ tok, tok ∈ out ↔ tok ∈ cands ∧ ∀ st, st ∈ sts → ¬ cand_passes st tok.
Proof.
  revert cands. induction sts as [|st sts IH]; intros cands H tok; cbn in H.
  - injection H as ->. set_solver.
  - apply bind_Ok in H as (mid & Hmid & H). rewrite (IH _ H), (reject_for_stack_spec _ _ _ Hmid).
    setoid_rewrite elem_of_cons. naive_solver.
Qed.
End for_stack.

Lemma reject_candidates_spec fuel depth sts cands out :
  llama_grammar_reject_candidates fuel rules depth sts cands = Ok out →
  ∀ tok, tok ∈ out ↔ tok ∈ cands ∧ ∀ st, st ∈ sts → ¬ cand_passes st tok.
Proof.
  revert sts cands out. induction depth as [|depth IH]; intros sts cands out H; [done|]. cbn in H.
  destruct sts as [|st sts]; [done|]. destruct cands as [|t cands].
  { injection H as <-. set_solver. }
  apply bind_Ok in H as (mid & Hmid & H). intros tok.
  rewrite (reject_rest_spec _ _ IH _ _ _ H), (reject_for_stack_spec _ _ IH _ _ _ Hmid).
  setoid_rewrite elem_of_cons at 3. naive_solver.
Qed.
End candidates.

(** ** Tokens *)

Section tokens.
Context (fuel : nat) (rules : llama_grammar_rules).

Definition token_free : bool := forallb (forallb (λ e, negb (is_token_elem e))) rules.

Lemma token_free_deref pos e : token_free = true → deref rules pos = Ok e → is_token_elem e = false.
Proof.
  intros Hf He. unfold deref in He. apply bind_Ok in He as (rule & Hr & He).
  apply at_Ok in Hr, He. unfold token_free in Hf. rewrite forallb_forall in Hf.
  specialize (Hf rule). rewrite forallb_forall in Hf. apply negb_true_iff, Hf.
  - by apply list_elem_of_In, list_elem_of_lookup_2 with (fst pos).
  - by apply list_elem_of_In, list_elem_of_lookup_2 with (snd pos).
Qed.

Lemma accept_chrs_elem cs sts out s :
  accept_chrs fuel rules sts cs = Ok out → s ∈ out ↔ ∃ st, st ∈ sts ∧ chr_steps rules cs st s.
Proof.
  revert sts. induction cs as [|c cs IH]; intros sts H; cbn in H.
  - injection H as ->. split; [eauto with llama|]. intros (st & ? & Hs). by inversion Hs; subst.
  - apply bind_Ok in H as (mid & Hm & H).
    transitivity (∃ st, st ∈ mid ∧ chr_steps rules cs st s).
    { destruct mid; [|by apply IH]. injection H as <-. split.
      - by intros ?%not_elem_of_nil.
      - by intros (? & ?%not_elem_of_nil & _). }
    split.
    + intros (st & [H0%not_elem_of_nil|(st0 & ? & ?)]%(accept_chr_all_elem _ _ _ _ _ _ _ Hm) & ?); [done|].
      eauto with llama.
    + intros (st & Hst & Hs). inversion Hs as [|c' cs' st' st1 st2 Hc Hcs]; subst. exists st1.
      split; [|done]. apply (accept_chr_all_elem _ _ _ _ _ _ _ Hm). right. eauto.
Qed.

Lemma accept_token_stacks_elem token cs sts acc out s :
  token_free = true →
  accept_token_stacks fuel rules token cs sts acc = Ok out →
  s ∈ out ↔ s ∈ acc ∨ ∃ st, st ∈ sts ∧ st ≠ [] ∧ chr_steps rules cs st s.
Proof.
  intros Hf. revert acc. induction sts as [|st sts IH]; intros acc H; cbn in H.
  - injection H as ->. split; [by left|]. intros [?|(? & ?%not_elem_of_nil & _)]; done.
  - apply bind_Ok in H as (acc' & Ha & H). rewrite (IH _ H). setoid_rewrite elem_of_cons.
    assert (s ∈ acc' ↔ s ∈ acc ∨ st ≠ [] ∧ chr_steps rules cs st s) as ->; [|naive_solver].
    destruct st as [|pos rest]; cbn in Ha; [injection Ha as ->; naive_solver|].
    apply bind_Ok in Ha as (e & He & Ha). rewrite (token_free_deref _ _ Hf He) in Ha.
    apply bind_Ok in Ha as (cur & Hcur & [= <-]).
    rewrite foldl_add_stack_elem, (accept_chrs_elem _ _ _ _ Hcur).
    setoid_rewrite list_elem_of_singleton. naive_solver.
Qed.

(** A candidate passes a stack when its code points can be consumed and what
    remains can match. *)
Lemma cand_passes_steps cps : ∀ st tok,
  token_free = true →
  drop (cand_offset tok) (cand_code_points tok) = cps ++ [0] → 0 ∉ cps →
  cand_passes rules st tok ↔ ∃ st', chr_steps rules cps st st' ∧
    (pu_n_remain (cand_partial_utf8 tok) = 0 ∨
     pu_n_remain (cand_partial_utf8 tok) ≠ 0 ∧ ∃ pos rest, st' = pos :: rest ∧
       llama_grammar_match_partial_char rules pos (cand_partial_utf8 tok) = Ok true).
Proof.
  induction cps as [|c cps IH]; intros st tok Hf Hd H0;
    apply drop_lookup_inv in Hd as [Hcp%at_Ok Hd]; fold (cand_cp tok) in Hcp.
  - split.
    + intros Hp. exists st. split; [constructor|]. inversion Hp; subst; try congruence; eauto 8.
    + intros (st' & Hs & Hor). inversion Hs; subst. destruct Hor as [?|(? & pos & rest & -> & Hm)].
      * by apply PassesEnd.
      * assert (∃ e, deref rules pos = Ok e) as [e He].
        { unfold llama_grammar_match_partial_char in Hm. apply bind_Ok in Hm as (e & ? & _). eauto. }
        eapply PassesPartial; [done|done|done| |done]. by eapply token_free_deref.
  - assert (c ≠ 0) as Hc by set_solver.
    rewrite <- Nat.add_1_r in Hd.
    assert (∀ st', cand_passes rules st' (cand_next tok) ↔ _) as Hnext
      by (intros st'; apply (IH st' (cand_next tok) Hf Hd); set_solver).
    split.
    + intros Hp. inversion Hp as [| |pos rest e ? ? ? ? He Ht|? st' ? c' Hc' _ Hs Hp']; subst; try congruence.
      * by rewrite (token_free_deref _ _ Hf He) in Ht.
      * assert (c' = c) as -> by congruence. apply Hnext in Hp' as (st2 & ? & ?).
        exists st2. split; [by econstructor|done].
    + intros (st' & Hs & ?). inversion Hs as [|? ? ? st1]; subst.
      eapply PassesChar; [done..|]. apply Hnext. eauto.
Qed.
End tokens.

(** ** Properties *)

(** The expansion of a stack adds exactly the terminal stacks it expands to
    (by replacing references at the top with alternates of the rules they name)
    to the stacks found before, and adds none twice. *)
Theorem advance_stack_expands fuel rules stack new_stacks out :
  llama_grammar_advance_stack fuel rules stack new_stacks = Ok out →
  (∀ s, s ∈ out ↔ s ∈ new_stacks ∨ expands_to rules stack s) ∧
  (NoDup new_stacks → NoDup out).
Proof.
  intros H. split; [intros s; by eapply advance_stack_elem|by eapply advance_stack_NoDup].
Qed.

(** The grammar [root ::= "a" root | item "c"; item ::= [x-z] |] with its rules
    numbered 0 and 1. *)
Definition example_rules : llama_grammar_rules :=
  [[Elem GRETYPE_CHAR 97; Elem GRETYPE_RULE_REF 0; Elem GRETYPE_ALT 0;
    Elem GRETYPE_RULE_REF 1; Elem GRETYPE_CHAR 99; Elem GRETYPE_END 0];
   [Elem GRETYPE_CHAR 120; Elem GRETYPE_CHAR_RNG_UPPER 122; Elem GRETYPE_ALT 0; Elem GRETYPE_END 0]].

Lemma advance_stack_expands_witness :
  llama_grammar_advance_stack 20 example_rules [(0, 3)]%nat [] = Ok [[(0, 4)]; [(1, 0); (0, 4)]]%nat ∧
  (∀ s, s ∈ [[(0, 4)]; [(1, 0); (0, 4)]]%nat ↔ s ∈ [] ∨ expands_to example_rules [(0, 3)]%nat s) ∧
  (NoDup (@nil llama_grammar_stack) → NoDup [[(0, 4)]; [(1, 0); (0, 4)]]%nat).
Proof.
  split; [reflexivity|]. apply (advance_stack_expands 20). reflexivity.
Defined.

(** C1. From the stacks of a fresh grammar, the code points of a text leave the
    empty stack among the stacks if and only if the start rule derives the text. *)
Theorem grammar_language fuel fuel' rules start lazy patterns tokens g w out :
  llama_grammar_init_rules fuel rules start lazy patterns tokens = Ok (Some g) →
  accept_str_loop fuel' (g_rules g) w (g_stacks g) = Ok out →
  [] ∈ out ↔ ∃ rule starts s, g_rules g !! start = Some rule ∧ alt_starts rule 0 0 = Ok starts ∧
    s ∈ starts ∧ derives (g_rules g) (start, s) w.
Proof.
  intros Hinit Hout. unfold llama_grammar_init_rules in Hinit.
  apply bind_Ok in Hinit as (vec & _ & Hinit). apply bind_Ok in Hinit as ([] & _ & Hinit); [done|].
  apply bind_Ok in Hinit as (rule & Hrule & Hinit). apply bind_Ok in Hinit as (starts & Hstarts & Hinit).
  apply bind_Ok in Hinit as (stacks & Hstacks & [= <-]). cbn in *. apply at_Ok in Hrule.
  rewrite (accept_str_loop_elem _ _ _ _ _ _ Hout).
  pose proof (λ s, init_stacks_elem _ _ _ _ _ _ s Hstacks) as Hel.
  split.
  - intros (st & Hst & Hsteps). apply Hel in Hst as [Hn|(s & st0 & Hs & Hp & Hex)]; [by apply not_elem_of_nil in Hn|].
    exists rule, starts, s. split_and!; [done..|].
    assert (stack_derives vec st0 w) as Hd by (apply language_stack; eauto).
    apply (push_derives _ _ _ _ _ Hp) in Hd as (w1 & w2 & -> & Hd & Hn). inversion Hn; subst.
    by rewrite app_nil_r.
  - intros (rule' & starts' & s & Hr' & Hs' & Hin & Hd).
    assert (rule' = rule) as -> by congruence. assert (starts' = starts) as -> by congruence.
    assert (∃ st0, push_unless_end vec (start, s) [] = Ok st0) as [st0 Hp].
    { assert (∃ e, deref vec (start, s) = Ok e) as [e He] by (inversion Hd; eauto).
      destruct (elem_is_end e) eqn:?; eauto using push_end, push_more. }
    assert (stack_derives vec st0 w) as (st' & Hex & Hsteps)%language_stack.
    { apply (push_derives _ _ _ _ _ Hp). exists w, []. rewrite app_nil_r. split_and!; [done..|constructor]. }
    exists st'. split; [|done]. apply Hel. right. eauto 6.
Qed.

(** The machine the example grammar starts as. *)
Definition example_grammar : llama_grammar :=
  Grammar example_rules [[(0, 0)]; [(0, 4)]; [(1, 0); (0, 4)]]%nat (PartialUtf8 0 0)
    false false [] [] [] [].

Lemma grammar_language_witness :
  llama_grammar_init_rules 20 example_rules 0 false [] [] = Ok (Some example_grammar) ∧
  accept_str_loop 20 example_rules [97; 97; 121; 99] (g_stacks example_grammar) = Ok [[]] ∧
  ([] ∈ [[] : llama_grammar_stack] ↔ ∃ rule starts s, example_rules !! 0%nat = Some rule ∧
    alt_starts rule 0 0 = Ok starts ∧ s ∈ starts ∧ derives example_rules (0%nat, s) [97; 97; 121; 99]).
Proof.
  split; [vm_compute; reflexivity|]. split; [vm_compute; reflexivity|].
  apply (grammar_language 20 20 example_rules 0 false [] [] example_grammar); vm_compute; reflexivity.
Defined.
