(* ===== verification/GrammarTerm.v ===== *)
(** * The grammar machine does not fail and does not run forever

    Well-formed rule arrays, the proof that the machine never reads outside
    them or aborts, and the proof that the expansion of stacks ends for the
    grammars that the left-recursion check lets through. *)
From S2P Require Import Prelude Utf8 Grammar GrammarSpec.

(** ** Well-formed rules *)

(** What may follow an element of a character class. *)
Inductive class_state : Type := NoClass | AfterChar | AfterRange.

#[global] Instance class_state_eq_dec : EqDecision class_state.
Proof. solve_decision. Defined.

(** A rule array: alternates of elements, closed by its only END; references in
    range; range bounds and class members only inside a character class. *)
Fixpoint wf_elems (n_rules : nat) (es : llama_grammar_rule) (s : class_state) : bool :=
  match es with
  | [] => false
  | e :: es' =>
    match ge_type e with
    | GRETYPE_END => bool_decide (es' = [])
    | GRETYPE_ALT => wf_elems n_rules es' NoClass
    | GRETYPE_RULE_REF => bool_decide (Z.to_nat (ge_value e) < n_rules)%nat && wf_elems n_rules es' NoClass
    | GRETYPE_CHAR | GRETYPE_CHAR_NOT => wf_elems n_rules es' AfterChar
    | GRETYPE_CHAR_ANY | GRETYPE_TOKEN | GRETYPE_TOKEN_NOT => wf_elems n_rules es' NoClass
    | GRETYPE_CHAR_RNG_UPPER => bool_decide (s = AfterChar) && wf_elems n_rules es' AfterRange
    | GRETYPE_CHAR_ALT => bool_decide (s ≠ NoClass) && wf_elems n_rules es' AfterChar
    end
  end.

Definition wf_rules (rules : llama_grammar_rules) : bool :=
  forallb (λ r, wf_elems (length rules) r NoClass) rules.

Section wf.
Context (rules : llama_grammar_rules) (Hwf : wf_rules rules = true).

Abbreviation n := (length rules).

(** A pointer to an element that is not in the middle of a class. *)
Definition valid_ptr (pos : elem_ptr) : Prop :=
  ∃ rule, rules !! fst pos = Some rule ∧ wf_elems n (drop (snd pos) rule) NoClass = true.

Definition valid_stack (st : llama_grammar_stack) : Prop :=
  Forall (λ pos, valid_ptr pos ∧ ∃ e, deref rules pos = Ok e ∧ elem_is_end e = false) st.

Lemma wf_rule i rule : rules !! i = Some rule → wf_elems n rule NoClass = true.
Proof.
  intros Hi. unfold wf_rules in Hwf. rewrite forallb_forall in Hwf. apply Hwf.
  by apply list_elem_of_In, list_elem_of_lookup_2 with i.
Qed.

Lemma deref_drop pos rule e es :
  rules !! fst pos = Some rule → drop (snd pos) rule = e :: es → deref rules pos = Ok e.
Proof.
  intros Hr Hd. unfold deref, at_. rewrite Hr. cbn. by apply drop_lookup_inv in Hd as [-> _].
Qed.

Lemma deref_lookup pos e :
  deref rules pos = Ok e → ∃ rule, rules !! fst pos = Some rule ∧
    drop (snd pos) rule = e :: drop (S (snd pos)) rule.
Proof.
  unfold deref. intros H. apply bind_Ok in H as (rule & Hr & He). apply at_Ok in Hr, He.
  exists rule. split; [done|]. by apply drop_S.
Qed.

Lemma valid_deref pos : valid_ptr pos → ∃ e, deref rules pos = Ok e ∧
  ge_type e ≠ GRETYPE_CHAR_RNG_UPPER ∧ ge_type e ≠ GRETYPE_CHAR_ALT.
Proof.
  intros (rule & Hr & Hw). destruct (drop (snd pos) rule) as [|e es] eqn:Hd; [done|].
  exists e. split; [by eapply deref_drop|]. cbn in Hw. by destruct (ge_type e).
Qed.

(** The element after a reference or a one-element matcher. *)
Lemma valid_next pos e :
  valid_ptr pos → deref rules pos = Ok e → elem_is_end e = false →
  (ge_type e = GRETYPE_RULE_REF ∨ is_token_elem e = true) →
  valid_ptr (ptr_add pos 1).
Proof.
  intros (rule & Hr & Hw) He Hend Ht. destruct (deref_lookup _ _ He) as (rule' & Hr' & Hd).
  assert (rule' = rule) as -> by congruence. exists rule. split; [done|]. cbn.
  rewrite Nat.add_1_r. rewrite Hd in Hw. cbn in Hw. unfold is_token_elem in Ht.
  destruct (ge_type e); try naive_solver.
  by apply andb_true_iff in Hw as [_ ?].
Qed.

Lemma ref_in_range pos e :
  valid_ptr pos → deref rules pos = Ok e → ge_type e = GRETYPE_RULE_REF →
  ∃ rule, rules !! Z.to_nat (ge_value e) = Some rule.
Proof.
  intros (rule & Hr & Hw) He Ht. destruct (deref_lookup _ _ He) as (rule' & Hr' & Hd).
  assert (rule' = rule) as -> by congruence. rewrite Hd in Hw. cbn in Hw. rewrite Ht in Hw.
  apply andb_true_iff in Hw as [Hw%bool_decide_eq_true _]. by apply lookup_lt_is_Some_2.
Qed.

(** The scan for alternates ends at the END element. *)
Lemma alt_starts_wf es s i start rule r :
  wf_elems n es s = true → rules !! r = Some rule → drop i rule = es →
  valid_ptr (r, start) → ∃ starts, alt_starts es i start = Ok starts ∧ start ∈ starts ∧
    Forall (λ a, valid_ptr (r, a)) starts.
Proof.
  intros Hw Hr. revert s i start Hw. induction es as [|e es IH]; intros s i start Hw Hd Hstart; [done|].
  assert (drop (S i) rule = es) as Hd' by (by apply drop_lookup_inv in Hd as [_ ?]).
  cbn in Hw |- *.
  destruct (ge_type e) eqn:Ht; repeat match goal with
    | H : _ && _ = true |- _ => apply andb_true_iff in H as [? ?] end; eauto.
  - exists [start]. split_and!; [done|by left|by repeat constructor].
  - destruct (IH NoClass (S i) (S i)) as (starts & -> & _ & Hall); [done..| |].
    { exists rule. split; [done|]. cbn [snd]. by rewrite Hd'. }
    exists (start :: starts). split_and!; [done|by left|by constructor].
Qed.

Lemma alt_starts_rule r rule :
  rules !! r = Some rule → ∃ starts, alt_starts rule 0 0 = Ok starts ∧ 0%nat ∈ starts ∧
    Forall (λ a, valid_ptr (r, a)) starts.
Proof.
  intros Hr. eapply alt_starts_wf; [by eapply wf_rule|done|done|].
  exists rule. split; [done|]. by eapply wf_rule.
Qed.

Lemma push_valid pos st :
  valid_ptr pos → valid_stack st → ∃ st', push_unless_end rules pos st = Ok st' ∧ valid_stack st'.
Proof.
  intros Hp Hst. destruct (valid_deref pos Hp) as (e & He & _).
  destruct (elem_is_end e) eqn:Hend.
  - exists st. by rewrite (push_end _ _ _ _ He Hend).
  - exists (pos :: st). rewrite (push_more _ _ _ _ He Hend). split; [done|]. constructor; eauto.
Qed.

(** A character class is read to its end. *)
Lemma wf_elems_class e es s :
  wf_elems n (e :: es) s = true → ge_type e ≠ GRETYPE_CHAR_ALT →
  (ge_type e = GRETYPE_CHAR_RNG_UPPER → s ≠ AfterChar) → wf_elems n (e :: es) NoClass = true.
Proof.
  cbn. intros Hw Halt Hr. destruct (ge_type e); try done.
  apply andb_true_iff in Hw as [Hs%bool_decide_eq_true _]. by destruct Hr.
Qed.

Lemma wf_elems_weaken es : wf_elems n es NoClass = true → wf_elems n es AfterChar = true.
Proof. destruct es as [|e es]; [done|]. cbn. by destruct (ge_type e). Qed.

Lemma wf_elems_upper e es :
  wf_elems n (e :: es) AfterChar = true → ge_type e = GRETYPE_CHAR_RNG_UPPER →
  ∃ e2 es2, es = e2 :: es2 ∧ wf_elems n es AfterRange = true.
Proof.
  cbn. intros Hw Ht. rewrite Ht in Hw. cbn in Hw. destruct es as [|e2 es2]; [done|]. eauto.
Qed.

Lemma wf_elems_alt e es s :
  wf_elems n (e :: es) s = true → ge_type e = GRETYPE_CHAR_ALT → wf_elems n es AfterChar = true.
Proof. cbn. intros Hw Ht. rewrite Ht in Hw. by apply andb_true_iff in Hw as [_ ?]. Qed.

Lemma match_char_loop_wf es e i c found :
  wf_elems n es AfterChar = true →
  ∃ b j, match_char_loop (e :: es) i c found = Ok (b, (i + j)%nat) ∧
    wf_elems n (drop j (e :: es)) NoClass = true.
Proof.
  remember (length es) as k eqn:Hk. revert es e i found Hk.
  induction k as [k IH] using lt_wf_ind. intros es e i found -> Hw.
  destruct es as [|e1 es2]; [done|]. rewrite match_char_loop_eq. cbv zeta.
  case_bool_decide as Hup.
  - destruct (wf_elems_upper _ _ Hw Hup) as (e2 & es3 & -> & Hw2). case_bool_decide as Halt.
    + destruct (IH (length es3) ltac:(cbn; lia) es3 e2 (i + 2)%nat
        (found || bool_decide (ge_value e ≤ c) && bool_decide (c ≤ ge_value e1)) eq_refl) as (b & j & -> & Hj).
      { by eapply wf_elems_alt. }
      exists b, (2 + j)%nat. split; [by rewrite Nat.add_assoc|done].
    + eexists _, 2%nat. split; [done|]. by eapply wf_elems_class.
  - case_bool_decide as Halt.
    + edestruct (IH (length es2) ltac:(cbn; lia) es2 e1 (i + 1)%nat) as (b & j & -> & Hj); [done| |].
      { by eapply wf_elems_alt. }
      exists b, (1 + j)%nat. split; [by rewrite Nat.add_assoc|done].
    + eexists _, 1%nat. split; [done|]. by eapply wf_elems_class.
Qed.

Lemma match_partial_loop_eq e e1 es2 low high positive :
  match_partial_loop (e :: e1 :: es2) low high positive =
    (if bool_decide (ge_type e1 = GRETYPE_CHAR_RNG_UPPER) then
       if bool_decide (ge_value e ≤ high) && bool_decide (low ≤ ge_value e1) then Ok (Some positive)
       else match es2 with
            | e2 :: _ => if bool_decide (ge_type e2 = GRETYPE_CHAR_ALT)
                         then match_partial_loop es2 low high positive else Ok None
            | [] => Err Oob
            end
     else if bool_decide (ge_type e = GRETYPE_CHAR_ANY) then Ok (Some true)
     else if bool_decide (low ≤ ge_value e) && bool_decide (ge_value e ≤ high) then Ok (Some positive)
     else if bool_decide (ge_type e1 = GRETYPE_CHAR_ALT)
     then match_partial_loop (e1 :: es2) low high positive else Ok None).
Proof. reflexivity. Qed.

Lemma match_partial_loop_wf es e low high positive :
  wf_elems n es AfterChar = true → ∃ r, match_partial_loop (e :: es) low high positive = Ok r.
Proof.
  remember (length es) as k eqn:Hk. revert es e Hk.
  induction k as [k IH] using lt_wf_ind. intros es e -> Hw.
  destruct es as [|e1 es2]; [done|].
  rewrite match_partial_loop_eq.
  case_bool_decide as Hup.
  - destruct (wf_elems_upper _ _ Hw Hup) as (e2 & es3 & -> & Hw2). destruct (_ && _); [eauto|].
    case_bool_decide; [|eauto]. eapply (IH (length es3)); [cbn; lia|done|]. by eapply wf_elems_alt.
  - destruct (bool_decide (ge_type e = _)); [eauto|]. destruct (_ && _); [eauto|]. case_bool_decide; [|eauto].
    eapply (IH (length es2)); [cbn; lia|done|]. by eapply wf_elems_alt.
Qed.

Lemma valid_char_elems pos e :
  valid_ptr pos → deref rules pos = Ok e → is_positive_char e || is_char_not e = true →
  ∃ rule es, rules !! fst pos = Some rule ∧ drop (snd pos) rule = e :: es ∧
    wf_elems n es AfterChar = true.
Proof.
  intros (rule & Hr & Hw) He Hc. destruct (deref_lookup _ _ He) as (rule' & Hr' & Hd).
  assert (rule' = rule) as -> by congruence. exists rule, (drop (S (snd pos)) rule).
  split_and!; [done..|]. rewrite Hd in Hw. cbn in Hw. unfold is_positive_char, is_char_not in Hc.
  destruct (ge_type e); try done. by apply wf_elems_weaken.
Qed.

Lemma match_char_wf pos e c :
  valid_ptr pos → deref rules pos = Ok e → is_positive_char e || is_char_not e = true →
  ∃ b pos', llama_grammar_match_char rules pos c = Ok (b, pos') ∧ valid_ptr pos'.
Proof.
  intros Hp He Hc. destruct (valid_char_elems _ _ Hp He Hc) as (rule & es & Hr & Hd & Hw).
  destruct (match_char_loop_wf es e (snd pos) c false Hw) as (b & j & Hm & Hj).
  unfold llama_grammar_match_char, elems_from, at_. rewrite He, Hr. cbn. rewrite Hc. cbn.
  rewrite Hd, Hm. cbn. eexists _, _. split; [done|]. exists rule. split; [done|]. cbn.
  by rewrite <- drop_drop, Hd.
Qed.

Lemma match_partial_char_wf pos e p :
  valid_ptr pos → deref rules pos = Ok e → is_positive_char e || is_char_not e = true →
  ∃ b, llama_grammar_match_partial_char rules pos p = Ok b.
Proof.
  intros Hp He Hc. destruct (valid_char_elems _ _ Hp He Hc) as (rule & es & Hr & Hd & Hw).
  unfold llama_grammar_match_partial_char, elems_from, at_. rewrite He, Hr. cbn. rewrite Hc. cbn.
  destruct (bool_decide (pu_n_remain p < 0) || _); [eauto|]. cbn. rewrite Hd.
  edestruct (match_partial_loop_wf es e) as [r Hr2]; [done|]. rewrite Hr2. cbn. eauto.
Qed.

Lemma expand_ref_wf pos rest e :
  valid_stack (pos :: rest) → deref rules pos = Ok e → ge_type e = GRETYPE_RULE_REF →
  ∃ nexts, expand_ref rules pos rest (ge_value e) = Ok nexts ∧ nexts ≠ [] ∧ Forall valid_stack nexts.
Proof.
  intros [[Hp _] Hrest]%Forall_cons He Ht. destruct (ref_in_range _ _ Hp He Ht) as [rule Hr].
  destruct (alt_starts_rule _ _ Hr) as (starts & Hs & H0 & Hall).
  assert (valid_ptr (ptr_add pos 1)) as Hn.
  { apply (valid_next _ _ Hp He); [unfold elem_is_end; by rewrite Ht|by left]. }
  destruct (push_valid _ _ Hn Hrest) as (st1 & Hst1 & Hv1).
  unfold expand_ref, at_. rewrite Hr. cbn. rewrite Hs. cbn. rewrite Hst1.
  clear Hs. assert (starts ≠ []) as Hne by (by intros ->; apply not_elem_of_nil in H0). clear H0.
  cut (∃ nexts, mapM (λ s, push_unless_end rules (Z.to_nat (ge_value e), s) st1) starts = Ok nexts ∧
    length nexts = length starts ∧ Forall valid_stack nexts).
  { intros (nexts & Hm & Hl & ?). exists nexts. split_and!; [done| |done]. by destruct nexts, starts. }
  clear Hne. induction Hall as [|s starts Hs Hall IH]; [by exists []|].
  destruct (push_valid _ _ Hs Hv1) as (st2 & Hst2 & ?). destruct IH as (nexts & Hm & Hl & ?).
  exists (st2 :: nexts). cbn. rewrite Hst2. cbn. rewrite Hm. cbn. split_and!; [done|congruence|by constructor].
Qed.

(** The expansion neither aborts nor reads outside the rules. *)
Lemma advance_loop_safe fuel todo seen acc :
  Forall valid_stack todo → Forall valid_stack acc →
  advance_loop fuel rules todo seen acc = Err NoFuel ∨
  ∃ out, advance_loop fuel rules todo seen acc = Ok out ∧ Forall valid_stack out.
Proof.
  revert todo seen acc. induction fuel as [|fuel IH]; intros todo seen acc Htodo Hacc; [by left|]. cbn.
  destruct todo as [|curr todo]; [by right; exists acc|].
  apply Forall_cons in Htodo as [Hcurr Htodo].
  case_decide; [by apply IH|].
  assert (Forall valid_stack (add_stack acc curr)) as Hadd.
  { unfold add_stack. case_decide; [done|]. apply Forall_app. split; [done|by repeat constructor]. }
  destruct curr as [|pos rest]; [by apply IH|].
  pose proof Hcurr as [[Hp _] _]%Forall_cons. destruct (valid_deref _ Hp) as (e & He & ? & ?).
  rewrite He. cbn. destruct (ge_type e) eqn:Ht; try done; try (by apply IH).
  1-2: by apply Forall_cons in Hcurr as [[_ (e' & He' & Hend)] _]; unfold elem_is_end in Hend;
    assert (e' = e) as -> by congruence; rewrite Ht in Hend.
  destruct (expand_ref_wf _ _ _ Hcurr He Ht) as (nexts & -> & _ & Hn). cbn. apply IH; [|done].
  apply Forall_app. split; [|done]. apply Forall_forall. intros s Hs. rewrite elem_of_rev in Hs.
  rewrite Forall_forall in Hn. by apply Hn.
Qed.
End wf.

(** ** The left edges of rules *)

Section left_edge.
Context (rules : llama_grammar_rules).

Definition rule_starts (r : nat) : res (list nat) := rule ← at_ rules r; alt_starts rule 0 0.

Definition rule_nullable (r : nat) : Prop :=
  ∃ starts s, rule_starts r = Ok starts ∧ s ∈ starts ∧ derives rules (r, s) [].

(** Positions of rule [r] before which only references to nullable rules stand. *)
Inductive left_pos (r : nat) : nat → Prop :=
  | LeftStart starts s : rule_starts r = Ok starts → s ∈ starts → left_pos r s
  | LeftNext i e :
      left_pos r i → deref rules (r, i) = Ok e → ge_type e = GRETYPE_RULE_REF →
      rule_nullable (Z.to_nat (ge_value e)) → left_pos r (S i).

(** [r] can call [r'] before it consumes anything. *)
Definition left_edge (r r' : nat) : Prop :=
  ∃ i e, left_pos r i ∧ deref rules (r, i) = Ok e ∧ ge_type e = GRETYPE_RULE_REF ∧
    r' = Z.to_nat (ge_value e).

Definition not_left_recursive : Prop := ∀ r, Acc (flip left_edge) r.

Abbreviation terminating := (Acc (flip (stack_step rules))).

Lemma terminating_stuck st : (∀ st', ¬ stack_step rules st st') → terminating st.
Proof. intros H. constructor. intros st' Hs. by destruct (H st'). Qed.

(** Pushing a position terminates if what is below does whenever the position
    can be left without consuming a code point. *)
Definition pos_terminates (pos : elem_ptr) : Prop :=
  ∀ rest st, push_unless_end rules pos rest = Ok st →
    (derives rules pos [] → terminating rest) → terminating st.

Definition rule_terminates (r : nat) : Prop :=
  ∀ starts s, rule_starts r = Ok starts → s ∈ starts → pos_terminates (r, s).

Lemma pos_terminates_gen r (Q : nat → Prop) :
  (∀ i e, Q i → deref rules (r, i) = Ok e → ge_type e = GRETYPE_RULE_REF →
     rule_terminates (Z.to_nat (ge_value e)) ∧ (rule_nullable (Z.to_nat (ge_value e)) → Q (S i))) →
  ∀ i, Q i → pos_terminates (r, i).
Proof.
  intros HQ. destruct (rules !! r) as [rule|] eqn:Hr.
  2:{ intros i _ rest st Hp. apply push_inv in Hp as (e & He & _).
      apply deref_lookup in He as (rule & Hr' & _). cbn in Hr'. congruence. }
  intros i. remember (length rule - i)%nat as k eqn:Hk. revert i Hk.
  induction k as [k IH] using lt_wf_ind. intros i -> Hi rest st Hp Hrest.
  apply push_inv in Hp as (e & He & ->). destruct (elem_is_end e) eqn:Hend.
  { apply Hrest. by eapply DerivesEnd. }
  constructor. intros st2 Hs.
  inversion Hs as [pos0 rest0 e0 rule0 starts s st1 st2' He0 Ht Hr0 Hs0 Hin Hp1 Hp2]; subst.
  assert (e0 = e) as -> by congruence. destruct (HQ _ _ Hi He Ht) as [Hterm Hnext].
  assert (rule_starts (Z.to_nat (ge_value e)) = Ok starts) as Hst by (unfold rule_starts; by rewrite Hr0).
  eapply Hterm; [done..|]. intros Hnil.
  assert (Q (S i)) as HSi by (apply Hnext; by exists starts, s).
  assert (i < length rule)%nat as Hlt.
  { apply deref_lookup in He as (rule' & Hr' & Hd). cbn in Hr', Hd.
    assert (rule' = rule) as -> by congruence. apply drop_lookup_inv in Hd as [Hd _].
    by eapply lookup_lt_Some. }
  unfold ptr_add in Hp1. cbn in Hp1. rewrite Nat.add_1_r in Hp1.
  eapply (IH (length rule - S i)%nat); [lia|done|done|exact Hp1|].
  intros Hnil2. apply Hrest. change (@nil Z) with (@nil Z ++ []).
  eapply DerivesRef; [done..|]. unfold ptr_add. cbn. by rewrite Nat.add_1_r.
Qed.

Lemma rule_terminates_acc r : Acc (flip left_edge) r → rule_terminates r.
Proof.
  induction 1 as [r _ IH]. intros starts s Hst Hin.
  eapply (pos_terminates_gen r (left_pos r)); [|by eapply LeftStart].
  intros i e Hi He Ht. split; [|by eapply LeftNext]. apply IH. by exists i, e.
Qed.

Lemma stack_terminates st : not_left_recursive → 
  Forall (λ pos, ∃ e, deref rules pos = Ok e ∧ elem_is_end e = false) st → terminating st.
Proof.
  intros Hnlr. induction 1 as [|[r i] st (e & He & Hend) _ IH].
  { apply terminating_stuck. intros st' Hs. inversion Hs. }
  eapply (pos_terminates_gen r (λ _, True)); [|done|by eapply push_more|done].
  intros. split; [apply rule_terminates_acc, Hnlr|done].
Qed.
End left_edge.

(** ** The expansion ends *)

Section terminates.
Context (rules : llama_grammar_rules) (Hwf : wf_rules rules = true).

Abbreviation terminating := (Acc (flip (stack_step rules))).

(** More fuel changes nothing. *)
Lemma advance_loop_mono fuel fuel' todo seen acc out :
  advance_loop fuel rules todo seen acc = Ok out → (fuel ≤ fuel')%nat →
  advance_loop fuel' rules todo seen acc = Ok out.
Proof.
  revert fuel' todo seen acc. induction fuel as [|fuel IH]; intros fuel' todo seen acc H Hle; [done|].
  destruct fuel' as [|fuel']; [lia|]. cbn in H |- *. destruct todo as [|curr todo]; [done|].
  case_decide; [apply IH; [done|lia]|]. destruct curr as [|pos rest]; [apply IH; [done|lia]|].
  destruct (deref rules pos) as [e|]; [cbn in H |- *|done].
  destruct (ge_type e); try done; try (apply IH; [done|lia]).
  destruct (expand_ref rules pos rest (ge_value e)) as [nexts|]; [cbn in H |- *|done].
  apply IH; [done|lia].
Qed.

(** [todo] can be worked off with some fuel, whatever was seen before. *)
Definition works_off (todo : llama_grammar_stacks) : Prop :=
  ∀ seen acc, ∃ fuel out, advance_loop fuel rules todo seen acc = Ok out.

Lemma works_off_cons st todo :
  terminating st → valid_stack rules st → works_off todo → works_off (st :: todo).
Proof.
  intros Hst. revert todo. induction Hst as [st _ IH]. intros todo Hv Htodo seen acc.
  destruct (decide (st ∈ seen)) as [Hin|Hnin].
  { destruct (Htodo seen acc) as (fuel & out & H). exists (S fuel), out. cbn. by rewrite decide_True. }
  destruct st as [|pos rest].
  { destruct (Htodo ([] :: seen) (add_stack acc [])) as (fuel & out & H).
    exists (S fuel), out. cbn. by rewrite decide_False. }
  pose proof Hv as [[Hp (e & He & Hend)] _]%Forall_cons.
  destruct (decide (ge_type e = GRETYPE_RULE_REF)) as [Ht|Hnt].
  - destruct (expand_ref_wf rules Hwf _ _ _ Hv He Ht) as (nexts & Hn & _ & Hall).
    pose proof (expand_ref_steps _ _ _ _ _ He Ht Hn) as Hsteps.
    assert (works_off (rev nexts ++ todo)) as Hw.
    { assert (∀ s, s ∈ rev nexts → stack_step rules (pos :: rest) s ∧ valid_stack rules s) as Hrev.
      { intros s Hs. rewrite elem_of_rev in Hs. split; [by apply Hsteps|].
        rewrite Forall_forall in Hall. by apply Hall. }
      clear Hn Hsteps Hall. induction (rev nexts) as [|s l IHl]; [done|]. cbn.
      destruct (Hrev s) as [? ?]; [by left|]. apply IH; [done|done|].
      apply IHl. intros s' ?. apply Hrev. by right. }
    destruct (Hw ((pos :: rest) :: seen) acc) as (fuel & out & H). exists (S fuel), out. cbn.
    rewrite decide_False by done. rewrite He. cbn. rewrite Ht, Hn. done.
  - destruct (Htodo ((pos :: rest) :: seen) (add_stack acc (pos :: rest))) as (fuel & out & H).
    exists (S fuel), out. cbn. rewrite decide_False by done. rewrite He. cbn.
    destruct (valid_deref _ _ Hp) as (e' & He' & ? & ?). assert (e' = e) as -> by congruence.
    unfold elem_is_end in Hend. by destruct (ge_type e).
Qed.

Lemma advance_stack_total st acc :
  not_left_recursive rules → valid_stack rules st →
  ∃ fuel out, llama_grammar_advance_stack fuel rules st acc = Ok out.
Proof.
  intros Hnlr Hv. apply (works_off_cons st []); [|done|].
  - apply stack_terminates; [done|]. eapply Forall_impl; [exact Hv|]. by intros pos [_ ?].
  - intros seen acc'. by exists 1%nat, acc'.
Qed.

(** The expansion of a well-formed stack finds a terminal stack. *)
Lemma expands_nonempty st :
  terminating st → valid_stack rules st → ∃ st', expands_to rules st st'.
Proof.
  induction 1 as [st _ IH]. intros Hv.
  destruct st as [|pos rest]; [exists []; split; [apply rtc_refl|done]|].
  pose proof Hv as [[Hp (e & He & Hend)] _]%Forall_cons.
  destruct (decide (ge_type e = GRETYPE_RULE_REF)) as [Ht|Hnt].
  - destruct (expand_ref_wf rules Hwf _ _ _ Hv He Ht) as (nexts & Hn & Hne & Hall).
    destruct nexts as [|s nexts]; [done|]. apply Forall_cons in Hall as [Hs _].
    assert (stack_step rules (pos :: rest) s) as Hstep.
    { apply (expand_ref_steps _ _ _ _ _ He Ht Hn). by left. }
    destruct (IH s Hstep Hs) as (st' & Hrtc & ?). exists st'. split; [by eapply rtc_l|done].
  - exists (pos :: rest). split; [apply rtc_refl|]. exists e. split; [done|].
    destruct (valid_deref _ _ Hp) as (e' & He' & ? & ?). assert (e' = e) as -> by congruence.
    unfold elem_is_end in Hend. unfold terminal_elem, is_positive_char, is_char_not, is_token_elem.
    by destruct (ge_type e).
Qed.
End terminates.

(** ** Every operation returns *)

Section total.
Context (rules : llama_grammar_rules) (Hwf : wf_rules rules = true) (Hnlr : not_left_recursive rules).

Abbreviation valids := (Forall (valid_stack rules)).

Lemma advance_stack_enough st acc :
  valid_stack rules st → valids acc →
  enough (λ fuel, llama_grammar_advance_stack fuel rules st acc) valids.
Proof.
  intros Hst Hacc. destruct (advance_stack_total rules Hwf st acc Hnlr Hst) as (n & out & Hout).
  exists n, out. split.
  - destruct (advance_loop_safe rules Hwf n [st] [] acc) as [Hn|(out' & Hout' & ?)]; [by repeat constructor|done|..].
    + unfold llama_grammar_advance_stack in Hout. congruence.
    + unfold llama_grammar_advance_stack in Hout. by assert (out' = out) as <- by congruence.
  - intros fuel Hle. by apply advance_loop_mono with n.
Qed.

Lemma char_or_token pos e :
  valid_ptr rules pos → deref rules pos = Ok e → terminal_elem e = true →
  is_token_elem e = false → is_positive_char e || is_char_not e = true.
Proof. intros _ _. unfold terminal_elem. destruct (is_token_elem e); [done|]. by rewrite orb_false_r. Qed.

(** Stacks as the machine keeps them between code points. *)
Definition ready (sts : llama_grammar_stacks) : Prop :=
  Forall (λ st, valid_stack rules st ∧ terminal_stack rules st) sts.

Lemma advance_stack_ready st acc :
  valid_stack rules st → ready acc →
  enough (λ fuel, llama_grammar_advance_stack fuel rules st acc) ready.
Proof.
  intros Hst Hacc.
  assert (valids acc) as Hv by (eapply Forall_impl; [exact Hacc|]; naive_solver).
  eapply enough_weaken.
  - apply enough_and; [by apply advance_stack_enough|]. intros fuel out Hout.
    exact (λ s, advance_stack_elem _ _ _ _ _ s Hout).
  - intros out [Hvo Hel]. apply Forall_forall. intros s Hs.
    split; [by rewrite Forall_forall in Hvo; apply Hvo|].
    apply Hel in Hs as [Hs|[_ Hs]]; [|done]. unfold ready in Hacc. rewrite Forall_forall in Hacc. by apply Hacc.
Qed.

Lemma accept_chr_enough st c acc :
  valid_stack rules st ∧ terminal_stack rules st → ready acc →
  enough (λ fuel, llama_grammar_accept_chr fuel rules st c acc) ready.
Proof.
  intros [Hst Hterm] Hacc. destruct st as [|pos rest]; cbn; [by eapply enough_const|].
  destruct Hterm as (e & He & Ht). pose proof Hst as [[Hp _] Hrest]%Forall_cons. rewrite He. cbn.
  destruct (is_token_elem e) eqn:Htok; [by eapply enough_const|].
  destruct (match_char_wf rules pos e c Hp He) as (b & pos' & Hm & Hp'); [by eapply char_or_token|].
  rewrite Hm. cbn. destruct b; [|by eapply enough_const].
  destruct (push_valid rules pos' rest Hp' Hrest) as (st' & Hpush & ?).
  rewrite Hpush. cbn. by apply advance_stack_ready.
Qed.

Lemma accept_chr_all_enough sts c acc :
  ready sts → ready acc → enough (λ fuel, accept_chr_all fuel rules sts c acc) ready.
Proof.
  intros Hsts. revert acc. induction Hsts as [|st sts Hst _ IH]; intros acc Hacc; cbn.
  - by eapply enough_const.
  - eapply enough_bind; [by apply accept_chr_enough|]. intros acc' ?. by apply IH.
Qed.

Lemma accept_str_loop_enough cs sts :
  ready sts → enough (λ fuel, accept_str_loop fuel rules cs sts) ready.
Proof.
  revert sts. induction cs as [|c cs IH]; intros sts Hsts; cbn; [by eapply enough_const|].
  eapply enough_bind; [apply accept_chr_all_enough; [done|constructor]|]. intros sts' ?. by apply IH.
Qed.

Lemma accept_chrs_enough cs sts :
  ready sts → enough (λ fuel, accept_chrs fuel rules sts cs) ready.
Proof.
  revert sts. induction cs as [|c cs IH]; intros sts Hsts; cbn; [by eapply enough_const|].
  eapply enough_bind; [apply accept_chr_all_enough; [done|constructor]|]. intros sts' ?.
  destruct sts'; [by eapply enough_const|by apply IH].
Qed.

Lemma foldl_add_stack_ready sts acc : ready acc → ready sts → ready (foldl add_stack acc sts).
Proof.
  unfold ready. rewrite !Forall_forall. intros Hacc Hsts s [?|?]%foldl_add_stack_elem; auto.
Qed.

Lemma accept_token_stacks_enough token cs sts acc :
  ready sts → ready acc →
  enough (λ fuel, accept_token_stacks fuel rules token cs sts acc) ready.
Proof.
  intros Hsts. revert acc. induction Hsts as [|st sts [Hv Hst] _ IH]; intros acc Hacc; cbn;
    [by eapply enough_const|].
  eapply enough_bind; [|intros acc' ?; by apply IH].
  destruct st as [|pos rest]; cbn; [by eapply enough_const|].
  pose proof Hst as (e & He & Ht). pose proof Hv as [[Hp (e' & He' & Hend)] Hrest]%Forall_cons.
  assert (e' = e) as -> by congruence. rewrite He. cbn.
  destruct (is_token_elem e) eqn:Htok.
  - assert (∃ b, llama_grammar_match_token rules pos token = Ok b) as [b ->].
    { unfold llama_grammar_match_token. rewrite He. cbn. unfold is_token_elem in Htok.
      destruct (ge_type e); eauto; done. }
    cbn. destruct b; [|by eapply enough_const].
    destruct (push_valid rules (ptr_add pos 1) rest) as (st' & -> & ?); [by eapply valid_next; eauto|done|].
    cbn. by apply advance_stack_ready.
  - eapply enough_bind; [apply accept_chrs_enough; apply Forall_singleton; by split|].
    intros cur ?. eapply enough_const; [done|]. by apply foldl_add_stack_ready.
Qed.

Lemma init_stacks_enough start starts acc :
  Forall (λ a, valid_ptr rules (start, a)) starts → ready acc →
  enough (λ fuel, init_stacks fuel rules start starts acc) ready.
Proof.
  intros Hall. revert acc. induction Hall as [|a starts Ha _ IH]; intros acc Hacc; cbn;
    [by eapply enough_const|].
  destruct (push_valid rules (start, a) [] Ha) as (st & -> & ?); [constructor|]. cbn.
  eapply enough_bind; [by apply advance_stack_ready|]. intros acc' ?. by apply IH.
Qed.

(** A candidate whose text is terminated, with fewer than [d - 1] code points left. *)
Definition cand_wf (d : nat) (tok : llama_grammar_candidate) : Prop :=
  ∃ cps, cand_code_points tok = cps ++ [0] ∧ (cand_offset tok ≤ length cps)%nat ∧
    (S (length cps - cand_offset tok) < d)%nat.

Lemma cand_wf_cp d tok : cand_wf d tok → ∃ c, cand_cp tok = Ok c.
Proof.
  intros (cps & Hcp & Hoff & _). unfold cand_cp. rewrite Hcp.
  destruct (at_lt (cps ++ [0]) (cand_offset tok)) as (c & -> & _); [|eauto].
  rewrite length_app. cbn. lia.
Qed.

Lemma cand_wf_next d tok c : cand_wf (S d) tok → cand_cp tok = Ok c → c ≠ 0 → cand_wf d (cand_next tok).
Proof.
  intros (cps & Hcp & Hoff & Hlen) Hc Hz. exists cps. unfold cand_next, cand_move. cbn.
  unfold cand_cp in Hc. rewrite Hcp in Hc. apply at_Ok in Hc.
  assert (cand_offset tok < length cps)%nat; [|split_and!; [done|lia..]].
  destruct (decide (cand_offset tok = length cps)) as [Heq|]; [|lia].
  rewrite Heq, lookup_app_r, Nat.sub_diag in Hc by lia. cbn in Hc. congruence.
Qed.

Lemma reject_empty_stack_total d cands :
  Forall (cand_wf d) cands → ∃ out, reject_empty_stack cands = Ok out.
Proof.
  induction 1 as [|tok cands Htok _ [out Hout]]; cbn; [eauto|].
  destruct (cand_wf_cp _ _ Htok) as [c ->]. cbn. rewrite Hout. cbn. eauto.
Qed.

Lemma reject_token_elem_total d pos e cands :
  deref rules pos = Ok e → is_token_elem e = true →
  Forall (cand_wf d) cands → ∃ out, reject_token_elem rules pos cands = Ok out.
Proof.
  intros He Ht. induction 1 as [|tok cands Htok _ [out Hout]]; cbn; [eauto|].
  destruct (cand_wf_cp _ _ Htok) as [c ->]. cbn. rewrite Hout.
  unfold llama_grammar_match_token. rewrite He. unfold is_token_elem in Ht.
  case_bool_decide; [cbn; eauto|]. cbn. destruct (ge_type e); cbn; eauto; done.
Qed.

Lemma reject_split_total d pos e cands :
  valid_ptr rules pos → deref rules pos = Ok e → is_positive_char e || is_char_not e = true →
  Forall (cand_wf d) cands → ∃ out, reject_split rules pos cands = Ok out.
Proof.
  intros Hp He Hc. induction 1 as [|tok cands Htok _ [[r n] Hout]]; cbn; [eauto|].
  destruct (cand_wf_cp _ _ Htok) as [c ->]. cbn. rewrite Hout. case_bool_decide.
  - case_bool_decide; [cbn; eauto|].
    destruct (match_partial_char_wf rules pos e (cand_partial_utf8 tok) Hp He Hc) as [b ->].
    cbn. eauto.
  - destruct (match_char_wf rules pos e c Hp He Hc) as (b & p & -> & _). cbn. eauto.
Qed.

Lemma ready_cons st sts :
  ready (st :: sts) ↔ (valid_stack rules st ∧ terminal_stack rules st) ∧ ready sts.
Proof. unfold ready. by rewrite Forall_cons. Qed.

Lemma reject_candidates_enough depth sts cands :
  ready sts → sts ≠ [] → Forall (cand_wf depth) cands → (0 < depth)%nat →
  enough (λ fuel, llama_grammar_reject_candidates fuel rules depth sts cands) (λ _, True).
Proof.
  revert sts cands. induction depth as [|depth IH]; intros sts cands Hsts Hne Hcands Hd; [lia|]. cbn.
  destruct sts as [|st sts]; [done|].
  destruct cands as [|tok0 cands0] eqn:Hcs; [by eapply enough_const|]. rewrite <- Hcs in *.
  assert (0 < depth)%nat as Hd'.
  { rewrite Hcs in Hcands. apply Forall_cons in Hcands as [(? & _ & _ & ?) _]. lia. }
  clear Hcs Hne Hd.
  assert (∀ st cands, valid_stack rules st ∧ terminal_stack rules st → Forall (cand_wf (S depth)) cands →
    enough (λ fuel, llama_grammar_reject_candidates_for_stack fuel rules
              (llama_grammar_reject_candidates fuel rules depth) st cands)
           (Forall (cand_wf (S depth)))) as Hstack.
  { clear - IH Hwf Hnlr Hd'. intros st cands [Hv Hst] Hcands.
    eapply enough_weaken; [apply (enough_and _ (λ _, True) (λ out, ∀ tok, tok ∈ out → tok ∈ cands))|].
    2:{ intros fuel out Hout tok Htok. eapply reject_for_stack_spec in Htok as [? _]; [done| |done].
        intros ???. apply reject_candidates_spec. }
    2:{ intros out [_ Hsub]. apply Forall_forall. intros tok Htok. rewrite Forall_forall in Hcands. auto. }
    destruct st as [|pos rest]; cbn.
    { destruct (reject_empty_stack_total _ _ Hcands) as [out ->]. by eapply enough_const. }
    pose proof Hst as (e & He & Ht). pose proof Hv as [[Hp _] Hrest]%Forall_cons. rewrite He. cbn.
    destruct (is_token_elem e) eqn:Htok.
    { destruct (reject_token_elem_total _ _ _ _ He Htok Hcands) as [out ->]. by eapply enough_const. }
    pose proof (char_or_token _ _ Hp He Ht Htok) as Hch.
    destruct (reject_split_total _ _ _ _ Hp He Hch Hcands) as [[rejs nexts] Hsplit]. rewrite Hsplit. cbn.
    destruct (match_char_wf rules pos e 0 Hp He Hch) as (b & pos' & -> & Hp'). cbn.
    destruct (push_valid rules pos' rest Hp' Hrest) as (st1 & -> & Hst1). cbn.
    eapply enough_bind.
    { apply enough_and; [apply (advance_stack_ready st1 []); [done|constructor]|].
      intros fuel out Hout. exact (λ s, advance_stack_elem _ _ _ _ _ s Hout). }
    intros next_sts [Hready Hel].
    assert (next_sts ≠ []) as Hne.
    { destruct (expands_nonempty rules Hwf st1) as [s Hs]; [|done|].
      - apply stack_terminates; [done|]. eapply Forall_impl; [exact Hst1|]. by intros ? [_ ?].
      - intros ->. apply (not_elem_of_nil s), Hel. by right. }
    destruct (reject_split_spec _ _ _ _ _ Hsplit) as (_ & Hnexts & _).
    eapply enough_bind; [|intros; by eapply enough_const].
    apply IH; [done|done| |done].
    apply Forall_forall. intros t Ht'. apply Hnexts in Ht' as (t' & Hin & (c & p & Hc & Hz & _) & ->).
    rewrite Forall_forall in Hcands. eapply cand_wf_next; eauto. }
  eapply enough_bind; [apply Hstack; [apply ready_cons in Hsts; naive_solver|done]|].
  apply ready_cons in Hsts as [_ Hsts]. clear Hcands.
  induction Hsts as [|st' sts Hst' _ IHs]; intros rejs Hrejs; cbn; [by eapply enough_const|].
  eapply enough_bind; [by apply Hstack|]. apply IHs.
Qed.
End total.

(** ** The left-recursion check *)

(** Some alternate of the rule consists of references to rules of the set [D]. *)
Fixpoint some_alt_in (D : nat → bool) (es : llama_grammar_rule) (all : bool) : bool :=
  match es with
  | [] => false
  | e :: es' =>
    if elem_is_end e then all || some_alt_in D es' true
    else some_alt_in D es'
           (all && bool_decide (ge_type e = GRETYPE_RULE_REF) && D (Z.to_nat (ge_value e)))
  end.

Definition directly_empty (rules : llama_grammar_rules) (r : nat) : bool :=
  match rules !! r with Some rule => rule_may_be_empty rule true | None => false end.

(** Every rule that derives the empty word has an empty alternate: the condition
    under which the first step of the check sees all of them. *)
Definition nullable_direct (rules : llama_grammar_rules) : bool :=
  forallb (λ rule, implb (some_alt_in (directly_empty rules) rule true) (rule_may_be_empty rule true)) rules.

Section left_recursion.
Context (rules : llama_grammar_rules).

Lemma alt_starts_prev es i start starts s :
  alt_starts es i start = Ok starts → s ∈ starts →
  s = start ∨ ∃ j e, s = (i + S j)%nat ∧ es !! j = Some e ∧ elem_is_end e = true.
Proof.
  revert i start starts. induction es as [|e es IH]; intros i start starts H Hs; [done|]. cbn in H.
  assert (∀ l start', alt_starts es (S i) start' = Ok l → s ∈ l →
    s = start' ∨ ∃ j e', s = (i + S j)%nat ∧ (e :: es) !! j = Some e' ∧ elem_is_end e' = true) as Hrec.
  { intros l start' Hl Hin. destruct (IH _ _ _ Hl Hin) as [?|(j & e' & -> & ? & ?)]; [by left|right].
    exists (S j), e'. split_and!; [lia|done|done]. }
  destruct (ge_type e) eqn:Ht; eauto.
  - injection H as <-. left. by apply list_elem_of_singleton.
  - apply fmap_Ok in H as (l & Hl & ->). apply elem_of_cons in Hs as [->|Hs]; [by left|].
    right. destruct (Hrec _ _ Hl Hs) as [->|?]; [|done].
    exists 0%nat, e. split_and!; [lia|done|]. unfold elem_is_end. by rewrite Ht.
Qed.

Lemma some_alt_in_suffix D es j e b :
  es !! j = Some e → elem_is_end e = true → some_alt_in D (drop (S j) es) true = true →
  some_alt_in D es b = true.
Proof.
  revert j b. induction es as [|e' es IH]; intros j b Hj He Hs; [done|].
  destruct j as [|j]; cbn in Hj |- *.
  - injection Hj as ->. rewrite He. cbn in Hs. by rewrite drop_0 in Hs; rewrite Hs, orb_true_r.
  - destruct (elem_is_end e'); [|by eapply IH]. rewrite (IH j true Hj He Hs). by rewrite orb_true_r.
Qed.

Lemma some_alt_in_start D r rule starts s :
  rules !! r = Some rule → rule_starts rules r = Ok starts → s ∈ starts →
  some_alt_in D (drop s rule) true = true → some_alt_in D rule true = true.
Proof.
  intros Hr Hst Hin Hs. unfold rule_starts, at_ in Hst. rewrite Hr in Hst. cbn in Hst.
  destruct (alt_starts_prev _ _ _ _ _ Hst Hin) as [->|(j & e & -> & Hj & He)]; [done|].
  by eapply some_alt_in_suffix.
Qed.

Lemma derives_nil_refs pos w rule :
  nullable_direct rules = true → derives rules pos w → w = [] → rules !! fst pos = Some rule →
  some_alt_in (directly_empty rules) (drop (snd pos) rule) true = true.
Proof.
  intros Hnd Hd. revert rule.
  induction Hd as [pos e He Hend| |pos e rule' starts s w1 w2 He Ht Hr Ha Hin Hd1 IH1 Hd2 IH2];
    intros rule Hw Hrule; [|done|].
  - destruct (deref_lookup _ _ _ He) as (rule' & Hr' & Hdr).
    assert (rule' = rule) as -> by congruence. rewrite Hdr. cbn. by rewrite Hend.
  - apply app_eq_nil in Hw as [-> ->]. destruct (deref_lookup _ _ _ He) as (rule2 & Hr2 & Hdr).
    assert (rule2 = rule) as -> by congruence. rewrite Hdr. cbn. rewrite Ht.
    unfold elem_is_end. rewrite Ht. cbn.
    assert (directly_empty rules (Z.to_nat (ge_value e)) = true) as ->.
    { apply at_Ok in Hr. unfold directly_empty. rewrite Hr.
      assert (some_alt_in (directly_empty rules) rule' true = true) as Hs.
      { eapply (some_alt_in_start _ _ _ starts s Hr); [unfold rule_starts, at_; by rewrite Hr|done|].
        by apply IH1. }
      unfold nullable_direct in Hnd. rewrite forallb_forall in Hnd.
      specialize (Hnd rule'). rewrite Hs in Hnd. apply Hnd.
      by apply list_elem_of_In, list_elem_of_lookup_2 with (Z.to_nat (ge_value e)). }
    specialize (IH2 rule eq_refl Hrule). unfold ptr_add in IH2. cbn in IH2.
    by rewrite Nat.add_1_r in IH2.
Qed.

Lemma nullable_directly_empty r :
  nullable_direct rules = true → rule_nullable rules r → directly_empty rules r = true.
Proof.
  intros Hnd (starts & s & Hst & Hin & Hd).
  assert (∃ rule, rules !! r = Some rule) as [rule Hr].
  { unfold rule_starts in Hst. apply bind_Ok in Hst as (rule & Hr & _). apply at_Ok in Hr. eauto. }
  pose proof (derives_nil_refs _ _ _ Hnd Hd eq_refl Hr) as Hs. cbn in Hs.
  apply (some_alt_in_start _ _ _ _ _ Hr Hst Hin) in Hs.
  unfold directly_empty. rewrite Hr. unfold nullable_direct in Hnd. rewrite forallb_forall in Hnd.
  specialize (Hnd rule). rewrite Hs in Hnd. apply Hnd.
  by apply list_elem_of_In, list_elem_of_lookup_2 with r.
Qed.

(** The flag [recurse_into_nonterminal] the loop has at element [j]. *)
Fixpoint flag_at (es : llama_grammar_rule) (flag : bool) (j : nat) {struct j} : bool :=
  match j, es with
  | S j', e :: es' =>
    flag_at es' (if bool_decide (ge_type e = GRETYPE_RULE_REF) && flag
                 then directly_empty rules (Z.to_nat (ge_value e)) else elem_is_end e) j'
  | _, _ => flag
  end.

Lemma flag_at_S es flag j e :
  es !! j = Some e →
  flag_at es flag (S j) = if bool_decide (ge_type e = GRETYPE_RULE_REF) && flag_at es flag j
                          then directly_empty rules (Z.to_nat (ge_value e)) else elem_is_end e.
Proof.
  revert es flag. induction j as [|j IH]; intros [|e' es] flag Hj; try done; cbn in Hj.
  - by injection Hj as ->.
  - cbn [flag_at]. by rewrite <- (IH es _ Hj).
Qed.

Lemma left_pos_flag r i rule :
  nullable_direct rules = true → rules !! r = Some rule → left_pos rules r i →
  flag_at rule true i = true.
Proof.
  intros Hnd Hr. induction 1 as [starts s Hst Hin|i e _ IH He Ht Hn].
  - unfold rule_starts, at_ in Hst. rewrite Hr in Hst. cbn in Hst.
    destruct (alt_starts_prev _ _ _ _ _ Hst Hin) as [->|(j & e & -> & Hj & He)]; [by destruct rule|].
    rewrite Nat.add_0_l, (flag_at_S _ _ _ _ Hj). unfold elem_is_end in *.
    rewrite bool_decide_false; [done|]. intros Ht. by rewrite Ht in He.
  - destruct (deref_lookup _ _ _ He) as (rule' & Hr' & Hd). cbn in Hr', Hd.
    assert (rule' = rule) as -> by congruence. apply drop_lookup_inv in Hd as [Hi _].
    rewrite (flag_at_S _ _ _ _ Hi), IH, bool_decide_true by done. cbn.
    by apply nullable_directly_empty.
Qed.

(** What the check knows between two calls. *)
Record lr_inv (st : lr_state) : Prop := {
  lri_empty i : lr_may_be_empty st !! i = Some true → directly_empty rules i = true;
  lri_visited i : lr_visited st !! i = Some true → Acc (flip (left_edge rules)) i }.

Definition lr_grows (st st' : lr_state) : Prop :=
  ∀ i, lr_may_be_empty st !! i = Some true → lr_may_be_empty st' !! i = Some true.

Definition detect_sound (detect : nat → lr_state → res (bool * lr_state)) : Prop :=
  ∀ r st st', detect r st = Ok (false, st') → lr_inv st →
    lr_inv st' ∧ lr_grows st st' ∧ Acc (flip (left_edge rules)) r ∧
    (∀ b, lr_may_be_empty st' !! r = Some b → b = directly_empty rules r).

Lemma left_recursion_loop_sound detect es flag st st' :
  nullable_direct rules = true → detect_sound detect →
  left_recursion_loop detect es flag st = Ok (false, st') → lr_inv st →
  lr_inv st' ∧ lr_grows st st' ∧
  ∀ j e, es !! j = Some e → ge_type e = GRETYPE_RULE_REF → flag_at es flag j = true →
    Acc (flip (left_edge rules)) (Z.to_nat (ge_value e)).
Proof.
  intros Hnd Hdet. revert flag st. induction es as [|e es IH]; intros flag st H Hinv; cbn in H.
  { injection H as <-. split_and!; [done|by intros i|done]. }
  destruct (bool_decide (ge_type e = GRETYPE_RULE_REF) && flag) eqn:Hb.
  - apply bind_Ok in H as ([b st1] & Hd & H). destruct b; [done|].
    apply bind_Ok in H as (may & Hmay & H). apply at_Ok in Hmay.
    destruct (Hdet _ _ _ Hd Hinv) as (Hinv1 & Hg1 & Hacc & Hex).
    destruct (IH _ _ H Hinv1) as (Hinv2 & Hg2 & Hall).
    split_and!; [done|by intros i ?; apply Hg2, Hg1|]. intros [|j] e' He' Ht Hf.
    + injection He' as <-. done.
    + cbn [flag_at] in Hf. rewrite Hb in Hf. eapply Hall; [done..|].
      by rewrite (Hex _ Hmay).
  - destruct (IH _ _ H Hinv) as (Hinv2 & Hg2 & Hall). split_and!; [done..|].
    intros [|j] e' He' Ht Hf.
    + injection He' as <-. cbn in Hf. subst flag. rewrite bool_decide_true in Hb by done. done.
    + cbn [flag_at] in Hf. rewrite Hb in Hf. by eapply Hall.
Qed.

Lemma detect_left_recursion_sound fuel :
  nullable_direct rules = true → detect_sound (llama_grammar_detect_left_recursion fuel rules).
Proof.
  intros Hnd. induction fuel as [|fuel IH]; intros r st st' H Hinv; [done|]. cbn in H.
  apply bind_Ok in H as (inp & Hinp & H). destruct inp; [done|].
  apply bind_Ok in H as (prog & Hprog & H). apply bind_Ok in H as (rule & Hrule & H).
  apply at_Ok in Hrule. apply bind_Ok in H as (may & Hmay & H).
  apply bind_Ok in H as ([b st1] & Hloop & H). destruct b; [done|].
  apply bind_Ok in H as (prog2 & _ & H). apply bind_Ok in H as (vis & Hvis & [= <-]).
  apply put_Ok in Hvis as [_ ->].
  assert (directly_empty rules r = rule_may_be_empty rule true) as Hde by (unfold directly_empty; by rewrite Hrule).
  assert (lr_inv (LrState (lr_visited st) prog may) ∧ lr_grows st (LrState (lr_visited st) prog may) ∧
    (directly_empty rules r = true → may !! r = Some true)) as (Hinv1 & Hg1 & Hr1).
  { rewrite Hde. destruct (rule_may_be_empty rule true).
    - apply put_Ok in Hmay as [Hlt ->]. split_and!.
      + split; [|apply Hinv]. intros i Hi. cbn in Hi. destruct (decide (i = r)) as [->|]; [done|].
        rewrite list_lookup_insert_ne in Hi by done. by apply Hinv.
      + intros i Hi. cbn. destruct (decide (i = r)) as [->|]; [by apply list_lookup_insert_eq|].
        by rewrite list_lookup_insert_ne.
      + intros _. by apply list_lookup_insert_eq.
    - injection Hmay as <-. split_and!; [split; apply Hinv|by intros i|done]. }
  destruct (left_recursion_loop_sound _ _ _ _ _ Hnd IH Hloop Hinv1) as (Hinv2 & Hg2 & Hall).
  assert (Acc (flip (left_edge rules)) r) as Hacc.
  { constructor. intros r' (i & e & Hi & He & Ht & ->).
    destruct (deref_lookup _ _ _ He) as (rule' & Hr' & Hd). cbn in Hr', Hd.
    assert (rule' = rule) as -> by congruence. apply drop_lookup_inv in Hd as [Hie _].
    eapply Hall; [done..|]. by eapply left_pos_flag. }
  split_and!; [| |done|].
  - split; [apply Hinv2|]. intros i Hi. cbn in Hi. destruct (decide (i = r)) as [->|]; [done|].
    rewrite list_lookup_insert_ne in Hi by done. by apply Hinv2.
  - intros i Hi. cbn. by apply Hg2, Hg1.
  - cbn. intros b Hb. destruct (directly_empty rules r) eqn:Hd.
    + specialize (Hg2 r (Hr1 eq_refl)). congruence.
    + destruct b; [|done]. by rewrite (lri_empty _ Hinv2 r Hb) in Hd.
Qed.

Lemma check_left_recursion_sound fuel todo st :
  nullable_direct rules = true → lr_inv st → check_left_recursion fuel rules todo st = Ok false →
  ∀ r, r ∈ todo → Acc (flip (left_edge rules)) r.
Proof.
  intros Hnd. revert st. induction todo as [|i todo IH]; intros st Hinv H r Hr; [by apply not_elem_of_nil in Hr|].
  cbn in H. apply bind_Ok in H as (v & Hv & H). apply at_Ok in Hv. destruct v.
  - apply elem_of_cons in Hr as [->|Hr]; [by apply Hinv|by eapply IH].
  - apply bind_Ok in H as ([b st1] & Hd & H). destruct b; [done|].
    destruct (detect_left_recursion_sound _ Hnd _ _ _ Hd Hinv) as (Hinv1 & _ & Hacc & _).
    apply elem_of_cons in Hr as [->|Hr]; [done|by eapply IH].
Qed.

Lemma lr_initial_inv n : lr_inv (lr_initial n).
Proof. split; intros i Hi; apply lookup_replicate in Hi as [? _]; done. Qed.

Lemma check_not_left_recursive fuel :
  nullable_direct rules = true →
  check_left_recursion fuel rules (seq 0 (length rules)) (lr_initial (length rules)) = Ok false →
  not_left_recursive rules.
Proof.
  intros Hnd H r. destruct (decide (r < length rules)%nat) as [Hlt|Hge].
  - eapply check_left_recursion_sound; [done|apply lr_initial_inv|done|]. apply elem_of_seq. lia.
  - constructor. intros r' (i & e & _ & He & _). apply deref_lookup in He as (rule & Hr & _).
    cbn in Hr. apply lookup_lt_Some in Hr. lia.
Qed.

(** The recursion of the check is bounded by the number of rules. *)
Definition lr_sized (st : lr_state) : Prop :=
  length (lr_visited st) = length rules ∧ length (lr_in_progress st) = length rules ∧
  length (lr_may_be_empty st) = length rules.

Definition idle (st : lr_state) : nat := length (filter (λ b, b = false) (lr_in_progress st)).

Definition detect_total (detect : nat → lr_state → res (bool * lr_state)) (n : nat) : Prop :=
  ∀ r st, (r < length rules)%nat → lr_sized st → (idle st < n)%nat →
    ∃ b st', detect r st = Ok (b, st') ∧ lr_sized st' ∧
      (b = false → lr_in_progress st' = lr_in_progress st).

Lemma filter_insert_true (l : list bool) i :
  l !! i = Some false →
  S (length (filter (λ b, b = false) (<[i := true]> l))) = length (filter (λ b, b = false) l).
Proof.
  revert i. induction l as [|b l IH]; intros [|i] Hi; try done; cbn in Hi.
  - injection Hi as ->. change (<[0%nat := true]> (false :: l)) with (true :: l).
    rewrite filter_cons_False, filter_cons_True by done. done.
  - change (<[S i := true]> (b :: l)) with (b :: <[i := true]> l). destruct b.
    + rewrite !filter_cons_False by done. by apply IH.
    + rewrite !filter_cons_True by done. cbn. f_equal. by apply IH.
Qed.

Lemma left_recursion_loop_total detect n es flag s st :
  detect_total detect n → wf_elems (length rules) es s = true → lr_sized st → (idle st < n)%nat →
  ∃ b st', left_recursion_loop detect es flag st = Ok (b, st') ∧ lr_sized st' ∧
    (b = false → lr_in_progress st' = lr_in_progress st).
Proof.
  intros Hdet. revert flag s st. induction es as [|e es IH]; intros flag s st Hw Hsz Hidle; [done|].
  assert (es = [] ∨ ∃ s', wf_elems (length rules) es s' = true) as Hes.
  { cbn in Hw. destruct (ge_type e); repeat match goal with
      H : _ && _ = true |- _ => apply andb_true_iff in H as [_ H] end; eauto.
    apply bool_decide_eq_true in Hw. by left. }
  assert (∀ flag st1, lr_sized st1 → lr_in_progress st1 = lr_in_progress st →
    ∃ b st', left_recursion_loop detect es flag st1 = Ok (b, st') ∧ lr_sized st' ∧
      (b = false → lr_in_progress st' = lr_in_progress st)) as Hrec.
  { intros flag' st1 Hsz1 Heq. destruct Hes as [->|[s' Hw']].
    - exists false, st1. done.
    - destruct (IH flag' s' st1) as (b & st' & ? & ? & ?); [done|done|unfold idle; by rewrite Heq|].
      exists b, st'. rewrite <- Heq. done. }
  cbn [left_recursion_loop]. destruct (bool_decide (ge_type e = GRETYPE_RULE_REF) && flag) eqn:Hb; [|by apply Hrec].
  apply andb_true_iff in Hb as [Ht%bool_decide_eq_true _].
  assert (Z.to_nat (ge_value e) < length rules)%nat as Hlt.
  { cbn in Hw. rewrite Ht in Hw. apply andb_true_iff in Hw as [Hw _]. by apply bool_decide_eq_true in Hw. }
  destruct (Hdet _ _ Hlt Hsz Hidle) as (b & st1 & -> & Hsz1 & Heq). cbn.
  destruct b; [by exists true, st1|].
  destruct (at_lt (lr_may_be_empty st1) (Z.to_nat (ge_value e))) as (m & -> & _).
  { destruct Hsz1 as (_ & _ & ->). done. }
  cbn. by apply Hrec; [|apply Heq].
Qed.

Lemma detect_left_recursion_total fuel :
  wf_rules rules = true → detect_total (llama_grammar_detect_left_recursion fuel rules) fuel.
Proof.
  intros Hwf. induction fuel as [|fuel IH]; intros r st Hr Hsz Hidle; [lia|]. cbn.
  pose proof Hsz as (Hv & Hp & Hm).
  destruct (at_lt (lr_in_progress st) r) as (inp & -> & Hinp); [lia|]. cbn.
  destruct inp; [by exists true, st|]. rewrite (put_lt (lr_in_progress st)) by lia. cbn.
  destruct (at_lt rules r Hr) as (rule & -> & Hrule). cbn.
  set (may := if rule_may_be_empty rule true then put (lr_may_be_empty st) r true else Ok (lr_may_be_empty st)).
  assert (∃ m, may = Ok m ∧ length m = length rules) as (m & -> & Hlm).
  { unfold may. destruct (rule_may_be_empty rule true); [|eauto]. rewrite put_lt by lia.
    eexists. split; [done|]. by rewrite length_insert. }
  cbn.
  edestruct (left_recursion_loop_total _ _ rule true NoClass
    (LrState (lr_visited st) (<[r := true]> (lr_in_progress st)) m) IH) as (b & st1 & -> & Hsz1 & Heq).
  { by eapply wf_rule. }
  { split_and!; cbn; [done|by rewrite length_insert|done]. }
  { unfold idle in *. cbn. rewrite <- (filter_insert_true _ _ Hinp) in Hidle. lia. }
  cbn. destruct b; [by exists true, st1|]. pose proof Hsz1 as (Hv1 & Hp1 & Hm1).
  rewrite !put_lt by lia. cbn. eexists false, _. split; [done|]. split.
  - unfold lr_sized. cbn. by rewrite !length_insert.
  - intros _. cbn. rewrite (Heq eq_refl). cbn. rewrite list_insert_insert_eq. by apply list_insert_id.
Qed.

Lemma check_left_recursion_total todo st :
  wf_rules rules = true → lr_sized st → (idle st ≤ length rules)%nat →
  Forall (λ r, (r < length rules)%nat) todo →
  ∃ b, check_left_recursion (S (length rules)) rules todo st = Ok b.
Proof.
  intros Hwf Hsz Hidle Htodo. revert st Hsz Hidle. induction Htodo as [|r todo Hr _ IH]; intros st Hsz Hidle; [by exists false|].
  cbn [check_left_recursion]. pose proof Hsz as (Hv & _ & _).
  destruct (at_lt (lr_visited st) r) as (v & -> & _); [lia|]. cbn. destruct v; [by apply IH|].
  destruct (detect_left_recursion_total (S (length rules)) Hwf r st Hr Hsz) as (b & st1 & H & Hsz1 & Heq); [lia|].
  cbn in H. rewrite H. cbn. destruct b; [by exists true|].
  apply IH; [done|]. unfold idle in *. by rewrite Heq.
Qed.

Lemma lr_initial_sized : lr_sized (lr_initial (length rules)) ∧ (idle (lr_initial (length rules)) ≤ length rules)%nat.
Proof.
  split; [by unfold lr_sized; cbn; rewrite !length_replicate|]. unfold idle.
  etrans; [apply length_filter|]. cbn. by rewrite length_replicate.
Qed.
End left_recursion.

(** ** Properties *)

(** A grammar whose operations cannot fail: its rules are well formed and not
    left recursive, its stacks are expanded. *)
Record grammar_ok (g : llama_grammar) : Prop := {
  ok_wf : wf_rules (g_rules g) = true;
  ok_nlr : not_left_recursive (g_rules g);
  ok_ready : ready (g_rules g) (g_stacks g) }.

(** C3. Constructing a grammar from well-formed rule arrays ends with enough fuel when
    every rule that derives the empty word has an empty alternate (the condition
    under which the left-recursion check is sound), and also, without that
    condition, when the rules are not left recursive: with the null pointer if the
    check refuses them, and otherwise with a grammar whose stacks are expanded and
    not empty.  ([indirect_left_recursion_missed] shows that it need not end for
    other rules.) *)
Theorem init_rules_total rules vec start lazy patterns tokens :
  mapM copy_rule rules = Ok vec → wf_rules vec = true → nullable_direct vec = true ∨ not_left_recursive vec →
  (start < length rules)%nat →
  enough (λ fuel, llama_grammar_init_rules fuel rules start lazy patterns tokens)
    (λ r, ∀ g, r = Some g → grammar_ok g ∧ g_rules g = vec ∧ g_stacks g ≠ []).
Proof.
  intros Hcopy Hwf Hnd Hstart. assert (length vec = length rules) as Hlen.
  { clear -Hcopy. revert vec Hcopy. induction rules as [|r rules IH]; intros vec H; cbn in H.
    - by injection H as <-.
    - apply bind_Ok in H as (y & _ & H). apply bind_Ok in H as (k & Hk & [= <-]). cbn. f_equal. by apply IH. }
  unfold llama_grammar_init_rules. rewrite Hcopy. cbn [mbind res_bind].
  destruct (lr_initial_sized vec) as [Hsz Hidle]. rewrite <- Hlen in *.
  destruct (check_left_recursion_total vec (seq 0 (length vec)) _ Hwf Hsz Hidle) as [b Hb].
  { apply Forall_forall. intros r Hr%elem_of_seq. lia. }
  rewrite Hb. cbn [mbind res_bind]. destruct b; [by eapply enough_const|].
  assert (not_left_recursive vec) as Hnlr by (destruct Hnd as [Hnd|Hnd]; [exact (check_not_left_recursive vec _ Hnd Hb)|done]).
  destruct (at_lt vec start Hstart) as (rule & -> & Hrule). cbn [mbind res_bind].
  destruct (alt_starts_rule vec Hwf _ _ Hrule) as (starts & Hs & H0 & Hall). rewrite Hs.
  cbn [mbind res_bind]. eapply enough_bind.
  { apply enough_and; [apply (init_stacks_enough vec Hwf Hnlr start starts [] Hall); constructor|].
    intros fuel out Hout. exact (λ s, init_stacks_elem _ _ _ _ _ _ s Hout). }
  intros stacks [Hready Hel]. eapply enough_const; [done|]. intros g [= <-].
  split_and!; [by split|done|]. cbn. intros ->.
  rewrite Forall_forall in Hall.
  destruct (push_valid vec (start, 0%nat) [] (Hall _ H0)) as (st & Hp & Hv); [constructor|].
  destruct (expands_nonempty vec Hwf st) as [st' Hex]; [|done|].
  { apply stack_terminates; [done|]. eapply Forall_impl; [exact Hv|]. by intros pos [_ ?]. }
  apply (not_elem_of_nil st'), Hel. right. eauto.
Qed.

Lemma init_rules_total_witness :
  mapM copy_rule example_rules = Ok example_rules ∧ wf_rules example_rules = true ∧
  nullable_direct example_rules = true ∧ (0 < length example_rules)%nat ∧
  enough (λ fuel, llama_grammar_init_rules fuel example_rules 0 false [] [])
    (λ r, ∀ g, r = Some g → grammar_ok g ∧ g_rules g = example_rules ∧ g_stacks g ≠ []).
Proof.
  split; [reflexivity|]. split; [reflexivity|]. split; [reflexivity|]. split; [cbn; lia|].
  apply init_rules_total; [reflexivity|reflexivity|left; reflexivity|cbn; lia].
Defined.

(** C4. Acceptance of a token returns, whatever its text: with enough fuel the
    code points advance the stacks to well-formed, expanded stacks, or the
    exception for an empty result is thrown; it never aborts and never reads
    outside a rule. *)
Theorem accept_token_safe g token piece code_points partial :
  grammar_ok g → decode_utf8 piece (g_partial_utf8 g) = Ok (code_points, partial) →
  ∃ n, (∀ fuel, (n ≤ fuel)%nat → llama_grammar_accept_token fuel g token piece =
          Err (Throw "Unexpected empty grammar stack after accepting piece")) ∨
       (∃ g', grammar_ok g' ∧ g_rules g' = g_rules g ∧ g_partial_utf8 g' = partial ∧ g_stacks g' ≠ [] ∧
         ∀ fuel, (n ≤ fuel)%nat → llama_grammar_accept_token fuel g token piece = Ok g').
Proof.
  intros [Hwf Hnlr Hready] Hdec.
  destruct (accept_token_stacks_enough _ Hwf Hnlr token (without_terminator code_points) (g_stacks g) [] Hready)
    as (n & out & Hout & Hn); [constructor|]. exists n. destruct out as [|st out].
  - left. intros fuel Hle. unfold llama_grammar_accept_token. rewrite Hdec. cbn. by rewrite Hn.
  - right. exists (with_stacks g (st :: out) partial). split_and!; [by split|done..|].
    intros fuel Hle. unfold llama_grammar_accept_token. rewrite Hdec. cbn. by rewrite Hn.
Qed.

Lemma example_grammar_ok : grammar_ok example_grammar.
Proof.
  split; [reflexivity| |].
  - apply (check_not_left_recursive _ 3); reflexivity.
  - repeat constructor; cbn; try (by eexists); by eexists.
Qed.

Lemma accept_token_safe_witness :
  grammar_ok example_grammar ∧ decode_utf8 [97; 97] (PartialUtf8 0 0) = Ok ([97; 97; 0], PartialUtf8 97 0) ∧
  ∃ n, (∀ fuel, (n ≤ fuel)%nat → llama_grammar_accept_token fuel example_grammar 7 [97; 97] =
          Err (Throw "Unexpected empty grammar stack after accepting piece")) ∨
       (∃ g', grammar_ok g' ∧ g_rules g' = example_rules ∧ g_partial_utf8 g' = PartialUtf8 97 0 ∧ g_stacks g' ≠ [] ∧
         ∀ fuel, (n ≤ fuel)%nat → llama_grammar_accept_token fuel example_grammar 7 [97; 97] = Ok g').
Proof.
  split; [exact example_grammar_ok|]. split; [reflexivity|].
  apply (accept_token_safe example_grammar 7 [97; 97] [97; 97; 0]); [exact example_grammar_ok|reflexivity].
Defined.

(** C2. For a grammar without token elements, a candidate whose piece has no NUL and is
    not empty, and enough fuel, the check returns a list of rejects; a candidate that
    is not in it can be accepted and advances the grammar, and acceptance of one that
    is in it throws if its piece ends in a complete character.  (For grammars with
    token elements see [token_element_mid_token].) *)
Theorem mask_agrees_with_accept g cands depth i id piece cps partial :
  grammar_ok g → token_free (g_rules g) = true → g_stacks g ≠ [] →
  decode_utf8 piece (g_partial_utf8 g) = Ok (cps ++ [0], partial) → 0 ∉ cps →
  cps ≠ [] ∨ pu_n_remain partial ≠ 0 →
  Candidate i (cps ++ [0]) 0 partial id ∈ cands → Forall (cand_wf depth) cands →
  ∃ n rejects, (∀ fuel, (n ≤ fuel)%nat →
      llama_grammar_reject_candidates fuel (g_rules g) depth (g_stacks g) cands = Ok rejects) ∧
    (Candidate i (cps ++ [0]) 0 partial id ∉ rejects →
      ∃ g', grammar_ok g' ∧ ∀ fuel, (n ≤ fuel)%nat → llama_grammar_accept_token fuel g id piece = Ok g') ∧
    (Candidate i (cps ++ [0]) 0 partial id ∈ rejects → pu_n_remain partial = 0 →
      ∀ fuel, (n ≤ fuel)%nat → llama_grammar_accept_token fuel g id piece =
        Err (Throw "Unexpected empty grammar stack after accepting piece")).
Proof.
  set (tok := Candidate i (cps ++ [0]) 0 partial id).
  intros [Hwf Hnlr Hready] Hfree Hne Hdec H0 Hsome Hin Hcands.
  assert (0 < depth)%nat as Hdepth.
  { rewrite Forall_forall in Hcands. destruct (Hcands _ Hin) as (? & _ & _ & ?). lia. }
  destruct (reject_candidates_enough _ Hwf Hnlr depth _ _ Hready Hne Hcands Hdepth) as (n1 & rejects & _ & Hrej).
  destruct (accept_token_stacks_enough _ Hwf Hnlr id cps (g_stacks g) [] Hready)
    as (n2 & out & Hout & Hacc); [constructor|].
  pose proof (λ s, accept_token_stacks_elem _ _ _ _ _ _ _ s Hfree (Hacc n2 (le_n _))) as Hel.
  pose proof (reject_candidates_spec _ _ _ _ _ _ (Hrej n1 (le_n _)) tok) as Hspec.
  pose proof (λ st, cand_passes_steps (g_rules g) cps st tok Hfree (drop_0 _) H0) as Hpass. cbn in Hpass.
  assert (∀ fuel, (n1 + n2 ≤ fuel)%nat → llama_grammar_accept_token fuel g id piece =
    match out with [] => Err (Throw "Unexpected empty grammar stack after accepting piece")
                 | _ => Ok (with_stacks g out partial) end) as Haccept.
  { intros fuel Hle. unfold llama_grammar_accept_token. rewrite Hdec. cbn.
    unfold without_terminator. rewrite removelast_last, Hacc by lia. by destruct out. }
  exists (n1 + n2)%nat, rejects. split; [intros; apply Hrej; lia|]. split.
  - intros Hnrej. destruct out as [|st out]; [|exists (with_stacks g (st :: out) partial); split; [by split|done]].
    destruct Hnrej. apply Hspec. split; [done|]. intros st Hst (st' & Hsteps & Hor)%Hpass.
    apply (not_elem_of_nil st'), Hel. right. exists st. split_and!; [done| |done].
    intros ->. destruct Hsome as [Hcps|Hrem].
    + destruct cps; [done|]. inversion Hsteps as [|????? Hs _]; subst. inversion Hs.
    + destruct Hor as [?|(_ & pos & rest & -> & _)]; [done|]. inversion Hsteps as [|????? Hs _]; subst. inversion Hs.
  - intros Hr Hrem. destruct out as [|st' out]; [done|]. exfalso. apply Hspec in Hr as [_ Hno].
    assert (st' ∈ st' :: out) as Hin' by by left.
    apply Hel in Hin' as [?%not_elem_of_nil|(st & Hst & _ & Hsteps)]; [done|].
    apply (Hno st Hst), Hpass. eauto.
Qed.

Lemma mask_agrees_with_accept_witness :
  let tok := Candidate 0 ([97; 120] ++ [0]) 0 (PartialUtf8 120 0) 5 in
  ∃ n rejects, (∀ fuel, (n ≤ fuel)%nat →
      llama_grammar_reject_candidates fuel example_rules 5 (g_stacks example_grammar) [tok] = Ok rejects) ∧
    (tok ∉ rejects →
      ∃ g', grammar_ok g' ∧ ∀ fuel, (n ≤ fuel)%nat →
        llama_grammar_accept_token fuel example_grammar 5 [97; 120] = Ok g') ∧
    (tok ∈ rejects → pu_n_remain (PartialUtf8 120 0) = 0 →
      ∀ fuel, (n ≤ fuel)%nat → llama_grammar_accept_token fuel example_grammar 5 [97; 120] =
        Err (Throw "Unexpected empty grammar stack after accepting piece")).
Proof.
  intros tok. apply (mask_agrees_with_accept example_grammar [tok] 5 0 5 [97; 120] [97; 120] (PartialUtf8 120 0)).
  - exact example_grammar_ok.
  - reflexivity.
  - done.
  - reflexivity.
  - set_solver.
  - by left.
  - by left.
  - repeat constructor. exists [97; 120]. cbn. split_and!; [done|lia..].
Defined.
