(* ===== verification/GrammarClass.v ===== *)
(** * Character classes of a grammar

    What a character class matches: complete code points, and incomplete UTF-8
    sequences through the code points they can still become. *)
From S2P Require Import Prelude Utf8 Grammar GrammarSpec GrammarTerm.

(** ** Classes as lists of intervals *)

(** The intervals of the class that starts with the first element. *)
Fixpoint class_ranges (es : llama_grammar_rule) : list (Z * Z) :=
  match es with
  | e :: ((e1 :: es2) as es1) =>
    if bool_decide (ge_type e1 = GRETYPE_CHAR_RNG_UPPER) then
      (ge_value e, ge_value e1) ::
      match es2 with
      | e2 :: _ => if bool_decide (ge_type e2 = GRETYPE_CHAR_ALT) then class_ranges es2 else []
      | [] => []
      end
    else
      (ge_value e, ge_value e) ::
      (if bool_decide (ge_type e1 = GRETYPE_CHAR_ALT) then class_ranges es1 else [])
  | _ => []
  end.

Lemma class_ranges_eq e e1 es2 :
  class_ranges (e :: e1 :: es2) =
    if bool_decide (ge_type e1 = GRETYPE_CHAR_RNG_UPPER) then
      (ge_value e, ge_value e1) ::
      match es2 with
      | e2 :: _ => if bool_decide (ge_type e2 = GRETYPE_CHAR_ALT) then class_ranges es2 else []
      | [] => []
      end
    else
      (ge_value e, ge_value e) ::
      (if bool_decide (ge_type e1 = GRETYPE_CHAR_ALT) then class_ranges (e1 :: es2) else []).
Proof. reflexivity. Qed.

Definition in_range (c : Z) (r : Z * Z) : bool := bool_decide (fst r ≤ c) && bool_decide (c ≤ snd r).
Definition overlaps (low high : Z) (r : Z * Z) : bool :=
  bool_decide (fst r ≤ high) && bool_decide (low ≤ snd r).

Section class.
Context (rules : llama_grammar_rules).

Lemma match_char_loop_ranges es e i c found :
  wf_elems (length rules) es AfterChar = true → ge_type e ≠ GRETYPE_CHAR_ANY →
  ∃ k, match_char_loop (e :: es) i c found = Ok (found || existsb (in_range c) (class_ranges (e :: es)), k).
Proof.
  remember (length es) as n eqn:Hn. revert es e i found Hn.
  induction n as [n IH] using lt_wf_ind. intros es e i found -> Hw He.
  destruct es as [|e1 es2]; [done|]. rewrite match_char_loop_eq, class_ranges_eq. cbv zeta.
  case_bool_decide as Hup.
  - destruct (wf_elems_upper _ _ _ Hw Hup) as (e2 & es3 & -> & Hw2).
    case_bool_decide as Halt.
    + destruct (IH (length es3) ltac:(cbn; lia) es3 e2 (i + 2)%nat
        (found || bool_decide (ge_value e ≤ c) && bool_decide (c ≤ ge_value e1)) eq_refl) as [k ->].
      { by eapply wf_elems_alt. } { by rewrite Halt. }
      exists k. cbn [existsb]. by rewrite orb_assoc.
    + eexists. cbn [existsb]. by rewrite orb_false_r.
  - rewrite (bool_decide_false (ge_type e = _)) by done.
    assert (bool_decide (ge_value e = c) = in_range c (ge_value e, ge_value e)) as ->.
    { unfold in_range. cbn. repeat case_bool_decide; try done; lia. }
    case_bool_decide as Halt.
    + destruct (IH (length es2) ltac:(cbn; lia) es2 e1 (i + 1)%nat
        (found || in_range c (ge_value e, ge_value e)) eq_refl) as [k ->].
      { by eapply wf_elems_alt. } { by rewrite Halt. }
      exists k. cbn [existsb]. by rewrite orb_assoc.
    + eexists. cbn [existsb]. by rewrite orb_false_r.
Qed.

Lemma match_partial_loop_ranges es e low high positive :
  wf_elems (length rules) es AfterChar = true → ge_type e ≠ GRETYPE_CHAR_ANY →
  match_partial_loop (e :: es) low high positive =
    Ok (if existsb (overlaps low high) (class_ranges (e :: es)) then Some positive else None).
Proof.
  remember (length es) as n eqn:Hn. revert es e Hn.
  induction n as [n IH] using lt_wf_ind. intros es e -> Hw He.
  destruct es as [|e1 es2]; [done|]. rewrite class_ranges_eq, match_partial_loop_eq.
  case_bool_decide as Hup.
  - destruct (wf_elems_upper _ _ _ Hw Hup) as (e2 & es3 & -> & Hw2). cbn [existsb].
    unfold overlaps at 1. cbn [fst snd]. destruct (_ && _); [done|]. cbn [orb].
    case_bool_decide as Halt; [|done].
    apply (IH (length es3)); [cbn; lia|done|by eapply wf_elems_alt|by rewrite Halt].
  - rewrite (bool_decide_false (ge_type e = _)) by done. cbn [existsb].
    unfold overlaps at 1. cbn [fst snd]. rewrite andb_comm. destruct (_ && _); [done|]. cbn [orb].
    case_bool_decide as Halt; [|done].
    apply (IH (length es2)); [cbn; lia|done|by eapply wf_elems_alt|by rewrite Halt].
Qed.
End class.

(** ** Completions of an incomplete sequence *)

(** [c] continues the partial sequence and is not below the least code point
    whose encoding has that many bytes left. *)
Definition completes (p : llama_partial_utf8) (c : Z) : Prop :=
  0 ≤ c ∧ Z.shiftr c (6 * pu_n_remain p) = pu_value p ∧
  (pu_n_remain p = 1 → 0x80 ≤ c) ∧ (pu_n_remain p = 2 → 0x800 ≤ c) ∧ (pu_n_remain p = 3 → 0x10000 ≤ c).

(** The values the decoder can leave: with [n] bytes missing, at most [22 - 6n] bits
    (the mask of the longest lead byte keeps four). *)
Definition partial_ok (p : llama_partial_utf8) : Prop :=
  0 < pu_n_remain p → pu_n_remain p ≤ 3 ∧ 0 ≤ pu_value p < 2 ^ (22 - 6 * pu_n_remain p).

Lemma partial_shift v n b : n ≤ 3 → 0 ≤ v < 2 ^ (22 - 6 * n) → 0 < n →
  partial_ok (PartialUtf8 (u32 (Z.shiftl v 6 + Z.land b 0x3F)) (n - 1)).
Proof.
  intros Hn Hv Hpos. unfold partial_ok. cbn [pu_n_remain pu_value]. intros _. split; [lia|].
  rewrite shiftl_u32_add, (land_ones_mod b 6) by done. assert (0 ≤ b mod 2 ^ 6 < 64) by (apply Z.mod_pos_bound; lia).
  assert (n = 1 ∨ n = 2 ∨ n = 3) as [->|[->| ->]] by lia; cbn [Z.mul Pos.mul Z.sub Z.opp Z.add Z.pos_sub] in *; rewrite u32_small; lia.
Qed.

Lemma decode_continue_partial src v n v' n' pos : partial_ok (PartialUtf8 v n) →
  decode_continue src v n = Some (v', n', pos) → partial_ok (PartialUtf8 v' n').
Proof.
  induction src as [|b src IH] in v, n |- *; intros Hp; cbn [decode_continue]; [by intros [= <- <- <-]|].
  destruct (bool_decide (b = 0)); cbn [orb]; [by intros [= <- <- <-]|].
  bdec (n ≤ 0) as Hn; [by intros [= <- <- <-]|]. destruct (negb _); [done|].
  destruct (Hp ltac:(cbn; lia)) as [Hn3 Hv]. apply IH. apply partial_shift; (done || lia).
Qed.

Lemma decode_rest_partial src v n : partial_ok (PartialUtf8 v n) →
  partial_ok (PartialUtf8 (decode_rest src v n).1.1 (decode_rest src v n).1.2).
Proof.
  induction src as [|b src IH] in v, n |- *; intros Hp; cbn [decode_rest]; [done|].
  destruct (bool_decide (b = 0)); cbn [orb]; [done|]. bdec (n ≤ 0) as Hn; [done|].
  destruct (Hp ltac:(cbn; lia)) as [Hn3 Hv]. apply IH. apply partial_shift; (done || lia).
Qed.

Lemma lead_partial b k : partial_ok (PartialUtf8 (Z.land b (u8 (Z.shiftl 1 (7 - (nth k decode_lookup 0 - 1)) - 1))) (nth k decode_lookup 0 - 1)).
Proof.
  unfold partial_ok. cbn [pu_n_remain pu_value]. intros Hpos.
  assert (nth k decode_lookup 0 ∈ [0; 1; 2; 3; 4]) as Hin
    by (do 16 (destruct k as [|k]; [cbn; set_solver|]); destruct k; cbn; set_solver).
  set (n := nth k decode_lookup 0) in *. assert (n = 2 ∨ n = 3 ∨ n = 4) as [E|[E|E]] by (set_unfold in Hin; lia); rewrite E; split; try lia.
  - change (u8 _) with (2 ^ 6 - 1). rewrite (land_ones_mod b 6) by done. pose proof (Z.mod_pos_bound b (2 ^ 6)). lia.
  - change (u8 _) with (2 ^ 5 - 1). rewrite (land_ones_mod b 5) by done. pose proof (Z.mod_pos_bound b (2 ^ 5)). lia.
  - change (u8 _) with (2 ^ 4 - 1). rewrite (land_ones_mod b 4) by done. pose proof (Z.mod_pos_bound b (2 ^ 4)). lia.
Qed.

(** Every state of the decoder is one of these. *)
Lemma decode_utf8_partial src p cps p' : partial_ok p → decode_utf8 src p = Ok (cps, p') → partial_ok p'.
Proof.
  intros Hp. unfold decode_utf8. destruct p as [v n]. cbn [pu_value pu_n_remain].
  destruct (decode_continue src v n) as [[[v1 n1] pos]|] eqn:Hc; [|intros [= _ <-]; unfold partial_ok; cbn; lia].
  pose proof (decode_continue_partial _ _ _ _ _ _ Hp Hc) as Hp1. clear Hc.
  generalize (S (length pos)) as fuel.
  match goal with |- ∀ fuel, decode_seqs _ _ ?a _ _ = _ → _ => generalize a end. intros acc fuel.
  induction fuel as [|fuel IH] in pos, acc, v1, n1, Hp1 |- *; [done|]. rewrite decode_seqs_S.
  bdec (peek pos = 0) as Hz; [by intros [= _ <-]|]. cbv zeta.
  pose proof (lead_partial (peek pos) (Z.to_nat (Z.shiftr (peek pos) 4))) as Hlead.
  set (r := nth _ decode_lookup 0 - 1) in *. clearbody r. bdec (r < 0) as Hneg.
  { intros [= _ <-] Hpos. cbn [pu_n_remain] in Hpos. exfalso. lia. }
  pose proof (decode_rest_partial (adv pos 1) _ _ Hlead) as Hr.
  destruct (decode_rest (adv pos 1) _ _) as [[v2 n2] pos2]. cbn [fst snd] in Hr. by apply IH.
Qed.

Lemma partial_range_spec p c :
  1 ≤ pu_n_remain p ≤ 3 → 0 ≤ pu_value p < 2 ^ (22 - 6 * pu_n_remain p) → ¬ (pu_n_remain p = 1 ∧ pu_value p < 2) →
  completes p c ↔ fst (partial_range p) ≤ c ≤ snd (partial_range p).
Proof.
  intros Hn Hv Hover. unfold completes, partial_range. cbn [fst snd].
  assert (pu_n_remain p = 1 ∨ pu_n_remain p = 2 ∨ pu_n_remain p = 3) as Hcases by lia.
  assert (∀ k, k = pu_n_remain p * 6 →
    u32 (Z.shiftl (pu_value p) k) = pu_value p * 2 ^ k ∧
    Z.lor (pu_value p * 2 ^ k) (Z.shiftl 1 k - 1) = pu_value p * 2 ^ k + 2 ^ k - 1) as Hk.
  { intros k Hk. rewrite !Z.shiftl_mul_pow2, Z.mul_1_l by lia. split.
    - apply u32_small. destruct Hcases as [E|[E|E]]; rewrite E in *; subst k; cbn [Z.mul Pos.mul Z.sub Z.opp Z.add Z.pos_sub Pos.pred_double Pos.sub Pos.add] in *; lia.
    - rewrite (lor_disjoint_add _ _ k); [lia|lia|subst k; destruct Hcases as [E|[E|E]]; rewrite E; lia|].
      apply Z_mod_mult. }
  rewrite Z.shiftr_div_pow2 by lia.
  destruct (Hk (pu_n_remain p * 6) eq_refl) as [-> ->].
  destruct Hcases as [Hc|[Hc|Hc]]; rewrite Hc in *; cbn [Z.mul Pos.mul] in *;
    repeat case_bool_decide; change (Z.shiftl 1 11) with 2048; change (Z.shiftl 1 16) with 65536;
    split; intros; zify_div.
Qed.

Lemma partial_range_nonempty p :
  1 ≤ pu_n_remain p ≤ 3 → 0 ≤ pu_value p < 2 ^ (22 - 6 * pu_n_remain p) → ¬ (pu_n_remain p = 1 ∧ pu_value p < 2) →
  fst (partial_range p) ≤ snd (partial_range p).
Proof.
  intros Hn Hv Ho.
  set (c := Z.shiftl (pu_value p) (6 * pu_n_remain p) + (Z.shiftl 1 (6 * pu_n_remain p) - 1)).
  enough (completes p c) as Hc by (apply partial_range_spec in Hc; [lia|done..]).
  unfold completes. subst c. rewrite Z.shiftr_div_pow2, !Z.shiftl_mul_pow2 by lia.
  assert (pu_n_remain p = 1 ∨ pu_n_remain p = 2 ∨ pu_n_remain p = 3) as [Hc|[Hc|Hc]] by lia;
    rewrite Hc in *; cbn [Z.mul Pos.mul Pos.add] in *; split_and!; intros; zify_div.
Qed.

Lemma overlong_no_completion p : pu_n_remain p = 1 → pu_value p < 2 → ∀ c, ¬ completes p c.
Proof.
  intros Hn Hv c (Hc & Hs & H1 & _). rewrite Hn in Hs. cbn [Z.mul Pos.mul] in Hs.
  rewrite Z.shiftr_div_pow2 in Hs by lia. specialize (H1 Hn). zify_div.
Qed.

Lemma existsb_overlaps low high rs :
  low ≤ high → Forall (λ r, fst r ≤ snd r) rs →
  existsb (overlaps low high) rs = true ↔ ∃ c, low ≤ c ≤ high ∧ existsb (in_range c) rs = true.
Proof.
  intros Hle Hord. rewrite existsb_exists. setoid_rewrite existsb_exists.
  rewrite Forall_forall in Hord. unfold overlaps, in_range. split.
  - intros (r & Hin & [H1%bool_decide_eq_true H2%bool_decide_eq_true]%andb_true_iff).
    pose proof (Hord r (proj2 (list_elem_of_In _ _) Hin)).
    exists (Z.max low (fst r)). split; [lia|]. exists r. split; [done|].
    rewrite !bool_decide_true by lia. done.
  - intros (c & Hc & r & Hin & [H1%bool_decide_eq_true H2%bool_decide_eq_true]%andb_true_iff).
    exists r. split; [done|]. rewrite !bool_decide_true by lia. done.
Qed.

Section match_class.
Context (rules : llama_grammar_rules) (pos : elem_ptr) (e : llama_grammar_element)
  (rule : llama_grammar_rule).
Hypothesis Hvalid : valid_ptr rules pos.
Hypothesis He : deref rules pos = Ok e.
Hypothesis Hchar : is_positive_char e || is_char_not e = true.
Hypothesis Hrule : rules !! fst pos = Some rule.

Definition class_at : list (Z * Z) := class_ranges (drop (snd pos) rule).

(** What the class matches; the wildcard matches everything. *)
Definition class_mem (c : Z) : bool :=
  bool_decide (ge_type e = GRETYPE_CHAR_ANY) || existsb (in_range c) class_at.

Lemma match_char_class c :
  ∃ pos', llama_grammar_match_char rules pos c = Ok (eqb (class_mem c) (is_positive_char e), pos').
Proof.
  destruct (valid_char_elems _ _ _ Hvalid He Hchar) as (rule' & es & Hr & Hd & Hw).
  assert (rule' = rule) as -> by congruence. unfold class_mem, class_at.
  unfold llama_grammar_match_char, elems_from, at_. rewrite He, Hr. cbn. rewrite Hchar. cbn. rewrite Hd.
  case_bool_decide as Hany.
  - destruct es as [|e1 es]; [done|]. rewrite match_char_loop_eq. cbv zeta.
    assert (ge_type e1 ≠ GRETYPE_CHAR_RNG_UPPER ∧ ge_type e1 ≠ GRETYPE_CHAR_ALT) as [??].
    { destruct Hvalid as (rule' & Hr' & Hw'). assert (rule' = rule) as -> by congruence.
      rewrite Hd in Hw'. cbn in Hw'. rewrite Hany in Hw'. by destruct (ge_type e1). }
    rewrite !bool_decide_false by done. rewrite bool_decide_true by done. cbn. eauto.
  - destruct (match_char_loop_ranges rules es e (snd pos) c false Hw Hany) as [k ->]. cbn. eauto.
Qed.

Lemma match_partial_class p :
  1 ≤ pu_n_remain p ≤ 3 → ¬ (pu_n_remain p = 1 ∧ pu_value p < 2) →
  llama_grammar_match_partial_char rules pos p =
    Ok (if bool_decide (ge_type e = GRETYPE_CHAR_ANY) then true
        else eqb (existsb (overlaps (fst (partial_range p)) (snd (partial_range p))) class_at)
                 (is_positive_char e)).
Proof.
  intros Hn Hover.
  destruct (valid_char_elems _ _ _ Hvalid He Hchar) as (rule' & es & Hr & Hd & Hw).
  assert (rule' = rule) as -> by congruence. unfold class_at.
  unfold llama_grammar_match_partial_char, elems_from, at_. rewrite He, Hr. cbn [mbind res_bind].
  rewrite Hchar. cbn [ggml_assert mbind res_bind mret res_ret].
  assert (bool_decide (pu_n_remain p < 0) ||
    (bool_decide (pu_n_remain p = 1) && bool_decide (pu_value p < 2)) = false) as ->.
  { rewrite bool_decide_false by lia. cbn. repeat case_bool_decide; try done. exfalso. by apply Hover. }
  destruct (partial_range p) as [low high]. cbn [fst snd]. rewrite Hd. case_bool_decide as Hany.
  - destruct es as [|e1 es]; [done|]. rewrite match_partial_loop_eq.
    assert (ge_type e1 ≠ GRETYPE_CHAR_RNG_UPPER) as ?.
    { destruct Hvalid as (rule' & Hr' & Hw'). assert (rule' = rule) as -> by congruence.
      rewrite Hd in Hw'. cbn in Hw'. rewrite Hany in Hw'. by destruct (ge_type e1). }
    rewrite bool_decide_false, bool_decide_true by done. done.
  - rewrite (match_partial_loop_ranges rules es e low high _ Hw Hany). cbn [mbind res_bind mret res_ret].
    destruct (existsb _ _); by destruct (is_positive_char e).
Qed.
End match_class.

(** ** Properties *)

(** C7. A class whose ranges are in order is tested against an incomplete UTF-8 sequence
    in any state the decoder can be in ([decode_utf8_partial]) through the completions
    of the sequence.  A positive class lets it pass exactly when some completion
    matches the class; an inverse class lets it pass only then.  (An inverse class can
    also reject a sequence with such a completion, see
    [inverse_class_rejects_prefix].) *)
Theorem match_partial_char_exact rules pos e rule p :
  valid_ptr rules pos → deref rules pos = Ok e → is_positive_char e || is_char_not e = true →
  rules !! fst pos = Some rule → Forall (λ r, fst r ≤ snd r) (class_ranges (drop (snd pos) rule)) →
  partial_ok p → 0 < pu_n_remain p →
  ∃ b, llama_grammar_match_partial_char rules pos p = Ok b ∧
    let some_match := ∃ c pos', completes p c ∧ llama_grammar_match_char rules pos c = Ok (true, pos') in
    (b = true → some_match) ∧ (is_positive_char e = true → some_match → b = true).
Proof.
  intros Hvalid He Hch Hr Hord Hp Hn0. destruct (Hp Hn0) as [Hn3 Hv]. assert (1 ≤ pu_n_remain p ≤ 3) as Hn by lia. clear Hp Hn3 Hn0.
  destruct (decide (pu_n_remain p = 1 ∧ pu_value p < 2)) as [[H1 H2]|Hover].
  { exists false. split.
    - unfold llama_grammar_match_partial_char. rewrite He. cbn [mbind res_bind]. rewrite Hch.
      cbn [ggml_assert mbind res_bind].
      by rewrite (bool_decide_true _ H1), (bool_decide_true _ H2), orb_true_r.
    - pose proof (overlong_no_completion p H1 H2) as Hno. naive_solver. }
  pose proof (partial_range_nonempty p Hn Hv Hover) as Hle.
  pose proof (λ c, partial_range_spec p c Hn Hv Hover) as Hspec.
  pose proof (λ c, match_char_class rules pos e rule Hvalid He Hch Hr c) as Hm.
  rewrite (match_partial_class rules pos e rule Hvalid He Hch Hr p Hn Hover).
  pose proof (existsb_overlaps _ _ _ Hle Hord) as Hex. unfold class_mem in Hm. unfold class_at in *.
  eexists. split; [done|]. case_bool_decide as Hany.
  { cbv zeta. split; [intros _|done]. exists (fst (partial_range p)). destruct (Hm (fst (partial_range p))) as [pos' ->].
    exists pos'. split; [apply Hspec; lia|]. cbn [orb]. unfold is_positive_char. by rewrite Hany. }
  cbn [orb] in Hm. destruct (is_positive_char e) eqn:Hpos; (split; [|done || intros _]).
  - intros (c & Hc & Hin)%eqb_prop%Hex. exists c. destruct (Hm c) as [pos' ->]. exists pos'.
    rewrite Hin. split; [by apply Hspec|done].
  - intros (c & pos' & Hc%Hspec & Hmc). apply eqb_true_iff, Hex. exists c. split; [done|].
    destruct (Hm c) as [pos'' Hm']. rewrite Hm' in Hmc. injection Hmc as Hb _. by apply Bool.eqb_prop in Hb.
  - intros Hb%eqb_prop. exists (fst (partial_range p)). destruct (Hm (fst (partial_range p))) as [pos' ->]. exists pos'.
    split; [apply Hspec; lia|]. do 2 f_equal. apply eqb_true_iff.
    destruct (existsb (in_range _) _) eqn:Hin; [|done].
    assert (true = false) as []; [|done]. rewrite <- Hb. symmetry. apply Hex. exists (fst (partial_range p)). split; [lia|done].
Qed.

(** The inverse class [[^x]] and the wildcard-free class [[x-z]]. *)
Definition class_rules : llama_grammar_rules :=
  [[Elem GRETYPE_CHAR_NOT 0x20ac; Elem GRETYPE_END 0];
   [Elem GRETYPE_CHAR 0x2070; Elem GRETYPE_CHAR_RNG_UPPER 0x20b0; Elem GRETYPE_END 0]].

Lemma match_partial_char_exact_witness :
  ∃ b, llama_grammar_match_partial_char class_rules (1, 0)%nat (PartialUtf8 0x82 1) = Ok b ∧
    let some_match := ∃ c pos', completes (PartialUtf8 0x82 1) c ∧
      llama_grammar_match_char class_rules (1, 0)%nat c = Ok (true, pos') in
    (b = true → some_match) ∧ (is_positive_char (Elem GRETYPE_CHAR 0x2070) = true → some_match → b = true).
Proof.
  apply (match_partial_char_exact class_rules (1, 0)%nat (Elem GRETYPE_CHAR 0x2070)
    [Elem GRETYPE_CHAR 0x2070; Elem GRETYPE_CHAR_RNG_UPPER 0x20b0; Elem GRETYPE_END 0]).
  - by eexists.
  - reflexivity.
  - reflexivity.
  - reflexivity.
  - repeat constructor; cbn; lia.
  - unfold partial_ok. cbn. lia.
  - cbn; lia.
Defined.

(** The comment of the function promises a pass whenever a completion
    matches; for the class [[^€]] and the first two bytes of [€] the code
    rejects, although the completion U+20AD matches. *)
Theorem inverse_class_rejects_prefix :
  llama_grammar_match_partial_char class_rules (0, 0)%nat (PartialUtf8 0x82 1) = Ok false ∧
  completes (PartialUtf8 0x82 1) 0x20ad ∧
  llama_grammar_match_char class_rules (0, 0)%nat 0x20ad = Ok (true, (0, 1)%nat).
Proof. repeat split; try reflexivity; cbn; lia. Qed.
