(* ===== verification/GrammarParser.v ===== *)
(** * The parser of grammar texts

    [llama_grammar_parser] of [src/llama-grammar.cpp]: the scanner helpers, the
    symbol table, the recursive descent over rules, alternates, sequences and
    repetitions, and the construction of a grammar from its text.

    A [const char *] into the zero-terminated text is the list of bytes from the
    pointer on.  Exceptions are [Throw]; their texts leave out the quotation of
    the input. *)
From stdpp Require Import pretty.
From S2P Require Import Prelude Utf8 Grammar.

(** ** Characters *)

Definition between (lo c hi : Z) : bool := bool_decide (lo ≤ c) && bool_decide (c ≤ hi).

Definition is_digit_char (c : Z) : bool := between 48 c 57.

Definition is_word_char (c : Z) : bool :=
  between 97 c 122 || between 65 c 90 || bool_decide (c = 45) || is_digit_char c.

(** ** Scanner *)

Definition hex_digit (c : Z) : option Z :=
  if between 97 c 102 then Some (c - 97 + 10)
  else if between 65 c 70 then Some (c - 65 + 10)
  else if between 48 c 57 then Some (c - 48)
  else None.

(** The loop of [parse_hex]: at most [size] digits, not past the terminator; the
    result tells whether [pos] reached [end]. *)
Fixpoint parse_hex_loop (size : nat) (pos : bytes) (value : Z) : Z * bytes * bool :=
  match size, pos with
  | O, _ => (value, pos, true)
  | S size', [] => (value, pos, false)
  | S size', c :: pos' =>
    if bool_decide (c = 0) then (value, pos, false)
    else match hex_digit c with
         | Some d => parse_hex_loop size' pos' (u32 (u32 (Z.shiftl value 4) + d))
         | None => (u32 (Z.shiftl value 4), pos, false)
         end
  end.

Definition parse_hex (src : bytes) (size : nat) : res (Z * bytes) :=
  let '(value, pos, complete) := parse_hex_loop size src 0 in
  if complete then Ok (value, pos) else Err (Throw "expecting hex chars").

(** Skips the rest of a comment. *)
Fixpoint skip_comment (pos : bytes) : bytes :=
  match pos with
  | [] => []
  | c :: pos' =>
    if bool_decide (c = 0) || bool_decide (c = 13) || bool_decide (c = 10) then pos
    else skip_comment pos'
  end.

(** One iteration of [parse_space]; a text of [n] bytes needs at most [n]. *)
Fixpoint parse_space_loop (n : nat) (pos : bytes) (newline_ok : bool) : bytes :=
  match n with
  | O => pos
  | S n' =>
    let c := peek pos in
    if bool_decide (c = 32) || bool_decide (c = 9) || bool_decide (c = 35) ||
       (newline_ok && (bool_decide (c = 13) || bool_decide (c = 10)))
    then parse_space_loop n' (if bool_decide (c = 35) then skip_comment pos else adv pos 1) newline_ok
    else pos
  end.

Definition parse_space (src : bytes) (newline_ok : bool) : bytes :=
  parse_space_loop (length src) src newline_ok.

(** The longest prefix of characters of a class, and the rest. *)
Fixpoint scan (p : Z → bool) (pos : bytes) : bytes * bytes :=
  match pos with
  | c :: pos' => if p c then let '(w, rest) := scan p pos' in (c :: w, rest) else ([], pos)
  | [] => ([], [])
  end.

Definition parse_name (src : bytes) : res (bytes * bytes) :=
  let '(name, pos) := scan is_word_char src in
  if bool_decide (name = []) then Err (Throw "expecting name") else Ok (name, pos).

Definition parse_int (src : bytes) : res (bytes * bytes) :=
  let '(digits, pos) := scan is_digit_char src in
  if bool_decide (digits = []) then Err (Throw "expecting integer") else Ok (digits, pos).

Definition parse_char (src : bytes) : res (Z * bytes) :=
  if bool_decide (peek src = 92) then
    let c := peek_at src 1 in
    if bool_decide (c = 120) then parse_hex (adv src 2) 2
    else if bool_decide (c = 117) then parse_hex (adv src 2) 4
    else if bool_decide (c = 85) then parse_hex (adv src 2) 8
    else if bool_decide (c = 116) then Ok (9, adv src 2)
    else if bool_decide (c = 114) then Ok (13, adv src 2)
    else if bool_decide (c = 110) then Ok (10, adv src 2)
    else if bool_decide (c = 92) || bool_decide (c = 34) || bool_decide (c = 91) || bool_decide (c = 93)
    then Ok (c, adv src 2)
    else Err (Throw "unknown escape")
  else if negb (bool_decide (peek src = 0)) then Ok (decode_utf8_char src)
  else Err (Throw "unexpected end of input").

(** [std::stoul], [std::stoull] of a string of digits. *)
Definition decimal (digits : bytes) : Z := fold_left (λ v c, v * 10 + (c - 48)) digits 0.
Definition stoull (digits : bytes) : res Z :=
  if bool_decide (decimal digits < 2 ^ 64) then Ok (decimal digits) else Err (Throw "stoull").

(** [int_end = parse_int(pos); std::stoull(std::string(pos, int_end - pos))]. *)
Definition parse_number (pos : bytes) : res (Z * bytes) :=
  '(digits, int_end) ← parse_int pos;
  v ← stoull digits;
  mret (v, int_end).

Definition UINT64_MAX : Z := 2 ^ 64 - 1.
Definition MAX_REPETITION_THRESHOLD : Z := 2000.

(** ** Parser state *)

Record llama_grammar_parser := Parser {
  p_symbol_ids : gmap bytes Z;
  p_rules : llama_grammar_rules }.

Definition symbol_ids_size (p : llama_grammar_parser) : Z := Z.of_nat (size (p_symbol_ids p)).

Definition get_symbol_id (p : llama_grammar_parser) (name : bytes) : Z * llama_grammar_parser :=
  let next_id := u32 (symbol_ids_size p) in
  match p_symbol_ids p !! name with
  | Some id => (id, p)
  | None => (next_id, Parser (<[name := next_id]> (p_symbol_ids p)) (p_rules p))
  end.

(** [base_name + '_' + std::to_string(next_id)]. *)
Definition generated_name (base_name : bytes) (id : Z) : bytes :=
  base_name ++ 95 :: str (pretty id).

Definition generate_symbol_id (p : llama_grammar_parser) (base_name : bytes)
    : Z * llama_grammar_parser :=
  let next_id := u32 (symbol_ids_size p) in
  (next_id, Parser (<[generated_name base_name next_id := next_id]> (p_symbol_ids p)) (p_rules p)).

(** [std::vector::resize]. *)
Definition resize_rules (rules : llama_grammar_rules) (n : nat) : llama_grammar_rules :=
  take n rules ++ replicate (n - length rules) [].

Definition add_rule (p : llama_grammar_parser) (rule_id : Z) (rule : llama_grammar_rule)
    : res llama_grammar_parser :=
  let rules := if bool_decide (Z.of_nat (length (p_rules p)) ≤ rule_id)
               then resize_rules (p_rules p) (Z.to_nat rule_id + 1) else p_rules p in
  rules ← put rules (Z.to_nat rule_id) rule;
  mret (Parser (p_symbol_ids p) rules).

(** ** Sequences *)

(** The local variables of [parse_sequence]. *)
Record seq_state := SeqState {
  sq_parser : llama_grammar_parser;
  sq_pos : bytes;
  sq_rule : llama_grammar_rule;
  sq_last_sym_start : nat;
  sq_n_prev_rules : Z }.

(** The loop that generates the optional rules S'(1), S'(2), ...: [i] counts the
    iterations done. *)
Fixpoint repetition_loop (n : nat) (i : nat) (rule_name : bytes) (prev_rule : llama_grammar_rule)
    (no_max : bool) (last_rec_rule_id : Z) (p : llama_grammar_parser) : res (Z * llama_grammar_parser) :=
  match n with
  | O => Ok (last_rec_rule_id, p)
  | S n' =>
    let '(rec_rule_id, p) := generate_symbol_id p rule_name in
    let rec_rule :=
      prev_rule ++
      (if bool_decide (0 < i)%nat || no_max
       then [Elem GRETYPE_RULE_REF (if no_max then rec_rule_id else last_rec_rule_id)] else []) ++
      [Elem GRETYPE_ALT 0; Elem GRETYPE_END 0] in
    p ← add_rule p rec_rule_id rec_rule;
    repetition_loop n' (S i) rule_name prev_rule no_max rec_rule_id p
  end.

Fixpoint repeat_elems (n : nat) (prev_rule : llama_grammar_rule) : llama_grammar_rule :=
  match n with O => [] | S n' => prev_rule ++ repeat_elems n' prev_rule end.

Section parser.
(** [vocab->tokenize] of the text of a token (the count of tokens, negative if
    there is no room, and the first token); no function is the null
    vocabulary. *)
Variable tokenize : option (bytes → Z * Z).
(** Bound on the optional rules one repetition may generate in the model. *)
Variable fuel : nat.

Definition handle_repetitions (rule_name : bytes) (min_times max_times : Z) (st : seq_state)
    : res seq_state :=
  let no_max := bool_decide (max_times = UINT64_MAX) in
  let rule := sq_rule st in
  if bool_decide (sq_last_sym_start st = length rule)
  then Err (Throw "expecting preceding item to */+/?/{")
  else
    let prev_rule := drop (sq_last_sym_start st) rule in
    let total_rules :=
      if negb no_max && bool_decide (0 < max_times) then max_times
      else if bool_decide (0 < min_times) then min_times else 1 in
    if bool_decide (MAX_REPETITION_THRESHOLD ≤ u64 (sq_n_prev_rules st * total_rules))
    then Err (Throw "number of rules that are going to be repeated multiplied by the new repetition exceeds sane defaults")
    else
      let rule := if bool_decide (min_times = 0) then take (sq_last_sym_start st) rule
                  else rule ++ repeat_elems (Z.to_nat (min_times - 1)) prev_rule in
      let n_opt := if no_max then 1 else u64 (max_times - min_times) in
      if bool_decide (Z.of_nat fuel < n_opt) then Err NoFuel
      else
        '(last_rec_rule_id, p) ←
          repetition_loop (Z.to_nat n_opt) 0 rule_name prev_rule no_max 0 (sq_parser st);
        let rule := if bool_decide (0 < n_opt)
                    then rule ++ [Elem GRETYPE_RULE_REF last_rec_rule_id] else rule in
        let n_prev_rules := u64 (sq_n_prev_rules st * total_rules) in
        _ ← ggml_assert (bool_decide (1 ≤ n_prev_rules));
        mret (SeqState p (sq_pos st) rule (sq_last_sym_start st) n_prev_rules).

(** The characters of a literal up to its closing quote. *)
Fixpoint literal_loop (n : nat) (pos : bytes) (rule : llama_grammar_rule)
    : res (bytes * llama_grammar_rule) :=
  match n with
  | O => Err NoFuel
  | S n' =>
    if bool_decide (peek pos = 34) then Ok (pos, rule)
    else if bool_decide (peek pos = 0) then Err (Throw "unexpected end of input")
    else
      '(c, pos) ← parse_char pos;
      literal_loop n' pos (rule ++ [Elem GRETYPE_CHAR c])
  end.

(** The ranges of a character class up to its closing bracket. *)
Fixpoint class_loop (n : nat) (pos : bytes) (start_type : llama_gretype) (last_sym_start : nat)
    (rule : llama_grammar_rule) : res (bytes * llama_grammar_rule) :=
  match n with
  | O => Err NoFuel
  | S n' =>
    if bool_decide (peek pos = 93) then Ok (pos, rule)
    else if bool_decide (peek pos = 0) then Err (Throw "unexpected end of input")
    else
      '(c, pos) ← parse_char pos;
      let type := if bool_decide (last_sym_start < length rule)%nat then GRETYPE_CHAR_ALT else start_type in
      let rule := rule ++ [Elem type c] in
      if bool_decide (peek pos = 45) && negb (bool_decide (peek_at pos 1 = 93)) then
        if bool_decide (peek_at pos 1 = 0) then Err (Throw "unexpected end of input")
        else
          '(c2, pos) ← parse_char (adv pos 1);
          class_loop n' pos start_type last_sym_start (rule ++ [Elem GRETYPE_CHAR_RNG_UPPER c2])
      else class_loop n' pos start_type last_sym_start rule
  end.

Definition parse_token (src : bytes) : res (Z * bytes) :=
  if negb (bool_decide (peek src = 60)) then Err (Throw "expecting '<'")
  else
    let pos := adv src 1 in
    if bool_decide (peek pos = 91) then
      '(token_id, pos) ← parse_number (adv pos 1);
      if negb (bool_decide (peek pos = 93)) then Err (Throw "expecting ']'")
      else if negb (bool_decide (peek_at pos 1 = 62)) then Err (Throw "expecting '>'")
      else Ok (u32 token_id, adv pos 2)
    else
      match tokenize with
      | None => Err (Throw "no vocab to parse token")
      | Some tokenize =>
        let '(name, pos) := scan (λ c, negb (bool_decide (c = 0)) && negb (bool_decide (c = 62))) pos in
        if negb (bool_decide (peek pos = 62)) then Err (Throw "expecting '>'")
        else
          let '(n_tokens, token) := tokenize (60 :: name ++ [62]) in
          if bool_decide (n_tokens = 1) then Ok (u32 token, adv pos 1)
          else Err (Throw "invalid token")
      end.

(** The bounds of [{m,n}], from behind the brace. *)
Definition parse_bounds (pos : bytes) (is_nested : bool) : res (Z * Z * bytes) :=
  let pos := parse_space pos is_nested in
  if negb (is_digit_char (peek pos)) then Err (Throw "expecting an int")
  else
    '(min_times, pos) ← parse_number pos;
    let pos := parse_space pos is_nested in
    '(max_times, pos) ←
      (if bool_decide (peek pos = 125) then Ok (min_times, parse_space (adv pos 1) is_nested)
       else if bool_decide (peek pos = 44) then
         let pos := parse_space (adv pos 1) is_nested in
         '(max_times, pos) ←
           (if is_digit_char (peek pos) then
              '(max_times, pos) ← parse_number pos;
              mret (max_times, parse_space pos is_nested)
            else Ok (UINT64_MAX, pos));
         if negb (bool_decide (peek pos = 125)) then Err (Throw "expecting '}'")
         else Ok (max_times, parse_space (adv pos 1) is_nested)
       else Err (Throw "expecting ','"));
    if bool_decide (MAX_REPETITION_THRESHOLD < min_times) ||
       (negb (bool_decide (max_times = UINT64_MAX)) &&
        bool_decide (MAX_REPETITION_THRESHOLD < max_times))
    then Err (Throw "number of repetitions exceeds sane defaults")
    else Ok (min_times, max_times, pos).

(** The loop over further alternates, [parse_sequence] abstracted: it takes the
    parser, the position and the rule so far. *)
Fixpoint alternates_loop (n : nat)
    (parse_sequence : llama_grammar_parser → bytes → llama_grammar_rule → res seq_state)
    (st : seq_state) : res seq_state :=
  match n with
  | O => Err NoFuel
  | S n' =>
    if bool_decide (peek (sq_pos st) = 124) then
      st ← parse_sequence (sq_parser st) (parse_space (adv (sq_pos st) 1) true)
             (sq_rule st ++ [Elem GRETYPE_ALT 0]);
      alternates_loop n' parse_sequence st
    else Ok st
  end.

Definition parse_alternates_with
    (parse_sequence : llama_grammar_parser → bytes → llama_grammar_rule → res seq_state)
    (p : llama_grammar_parser) (src : bytes) (rule_id : Z) : res (bytes * llama_grammar_parser) :=
  st ← parse_sequence p src [];
  st ← alternates_loop (S (length src)) parse_sequence st;
  p ← add_rule (sq_parser st) rule_id (sq_rule st ++ [Elem GRETYPE_END 0]);
  mret (sq_pos st, p).

(** One item of a sequence, or a repetition of the last one. *)
Definition sequence_step
    (parse_alternates : llama_grammar_parser → bytes → Z → res (bytes * llama_grammar_parser))
    (rule_name : bytes) (is_nested : bool) (st : seq_state) : res (option seq_state) :=
  let pos := sq_pos st in
  let p := sq_parser st in
  let rule := sq_rule st in
  let start := length rule in
  let c := peek pos in
  if bool_decide (c = 34) then
    '(pos, rule) ← literal_loop (length pos) (adv pos 1) rule;
    mret (Some (SeqState p (parse_space (adv pos 1) is_nested) rule start 1))
  else if bool_decide (c = 91) then
    let pos := adv pos 1 in
    let '(start_type, pos) :=
      if bool_decide (peek pos = 94) then (GRETYPE_CHAR_NOT, adv pos 1) else (GRETYPE_CHAR, pos) in
    '(pos, rule) ← class_loop (S (length pos)) pos start_type start rule;
    mret (Some (SeqState p (parse_space (adv pos 1) is_nested) rule start 1))
  else if bool_decide (c = 60) || bool_decide (c = 33) then
    let '(type, pos) := if bool_decide (c = 33) then (GRETYPE_TOKEN_NOT, adv pos 1) else (GRETYPE_TOKEN, pos) in
    '(token, token_end) ← parse_token pos;
    mret (Some (SeqState p (parse_space token_end is_nested) (rule ++ [Elem type token]) start 1))
  else if is_word_char c then
    '(name, pos) ← parse_name pos;
    let '(ref_rule_id, p) := get_symbol_id p name in
    mret (Some (SeqState p (parse_space pos is_nested) (rule ++ [Elem GRETYPE_RULE_REF ref_rule_id]) start 1))
  else if bool_decide (c = 40) then
    let pos := parse_space (adv pos 1) true in
    let n_rules_before := u32 (symbol_ids_size p) in
    let '(sub_rule_id, p) := generate_symbol_id p rule_name in
    '(pos, p) ← parse_alternates p pos sub_rule_id;
    let n_prev_rules := Z.max 1 (u32 (u32 (symbol_ids_size p) - n_rules_before)) in
    let rule := rule ++ [Elem GRETYPE_RULE_REF sub_rule_id] in
    if negb (bool_decide (peek pos = 41)) then Err (Throw "expecting ')'")
    else mret (Some (SeqState p (parse_space (adv pos 1) is_nested) rule start n_prev_rules))
  else if bool_decide (c = 46) then
    mret (Some (SeqState p (parse_space (adv pos 1) is_nested) (rule ++ [Elem GRETYPE_CHAR_ANY 0]) start 1))
  else
    let repeat min_times max_times pos :=
      st ← handle_repetitions rule_name min_times max_times
             (SeqState p pos rule (sq_last_sym_start st) (sq_n_prev_rules st));
      mret (Some st) in
    if bool_decide (c = 42) then repeat 0 UINT64_MAX (parse_space (adv pos 1) is_nested)
    else if bool_decide (c = 43) then repeat 1 UINT64_MAX (parse_space (adv pos 1) is_nested)
    else if bool_decide (c = 63) then repeat 0 1 (parse_space (adv pos 1) is_nested)
    else if bool_decide (c = 123) then
      '(min_times, max_times, pos) ← parse_bounds (adv pos 1) is_nested;
      repeat min_times max_times pos
    else Ok None.

(** The loop of [parse_sequence]; [depth] bounds its iterations together with
    those of the sequences nested in it. *)
Fixpoint sequence_loop (depth : nat) (rule_name : bytes) (is_nested : bool) (st : seq_state)
    : res seq_state :=
  match depth with
  | O => Err NoFuel
  | S depth' =>
    if bool_decide (peek (sq_pos st) = 0) then Ok st
    else
      let parse_alternates :=
        parse_alternates_with (λ p pos rule,
          sequence_loop depth' rule_name true (SeqState p pos rule (length rule) 1)) in
      r ← sequence_step parse_alternates rule_name is_nested st;
      match r with
      | Some st => sequence_loop depth' rule_name is_nested st
      | None => Ok st
      end
  end.

(** [parse_sequence]: every iteration and every level of nesting consumes a
    byte, so the length of the text bounds the loop. *)
Definition parse_sequence (rule_name : bytes) (is_nested : bool) (p : llama_grammar_parser)
    (src : bytes) (rule : llama_grammar_rule) : res seq_state :=
  sequence_loop (S (length src)) rule_name is_nested (SeqState p src rule (length rule) 1).

Definition parse_alternates (rule_name : bytes) (is_nested : bool) (p : llama_grammar_parser)
    (src : bytes) (rule_id : Z) : res (bytes * llama_grammar_parser) :=
  parse_alternates_with (parse_sequence rule_name is_nested) p src rule_id.

Definition parse_rule (p : llama_grammar_parser) (src : bytes) : res (bytes * llama_grammar_parser) :=
  '(name, name_end) ← parse_name src;
  let pos := parse_space name_end false in
  let '(rule_id, p) := get_symbol_id p name in
  if negb (bool_decide (peek pos = 58) && bool_decide (peek_at pos 1 = 58) &&
           bool_decide (peek_at pos 2 = 61))
  then Err (Throw "expecting ::=")
  else
    let pos := parse_space (adv pos 3) true in
    '(pos, p) ← parse_alternates name false p pos rule_id;
    pos ← (if bool_decide (peek pos = 13) then Ok (adv pos (if bool_decide (peek_at pos 1 = 10) then 2 else 1))
           else if bool_decide (peek pos = 10) then Ok (adv pos 1)
           else if negb (bool_decide (peek pos = 0)) then Err (Throw "expecting newline or end")
           else Ok pos);
    mret (parse_space pos true, p).

Fixpoint parse_rules (n : nat) (p : llama_grammar_parser) (pos : bytes) : res llama_grammar_parser :=
  match n with
  | O => Err NoFuel
  | S n' =>
    if bool_decide (peek pos = 0) then Ok p
    else
      '(pos, p) ← parse_rule p pos;
      parse_rules n' p pos
  end.

(** The validation loops at the end of [parse]: a reference without a rule is
    an error only if the symbol table has a name for it. *)
Definition undefined_ref (p : llama_grammar_parser) (e : llama_grammar_element) : bool :=
  bool_decide (ge_type e = GRETYPE_RULE_REF) &&
  (bool_decide (Z.of_nat (length (p_rules p)) ≤ ge_value e) ||
   bool_decide (p_rules p !! Z.to_nat (ge_value e) = Some [])) &&
  existsb (λ kv, bool_decide (snd kv = ge_value e)) (map_to_list (p_symbol_ids p)).

Definition validate_rule (p : llama_grammar_parser) (rule : llama_grammar_rule) : res unit :=
  if bool_decide (rule = []) then Err (Throw "Undefined rule")
  else if existsb (undefined_ref p) rule then Err (Throw "Undefined rule identifier")
  else Ok tt.

Fixpoint validate_rules (p : llama_grammar_parser) (rules : llama_grammar_rules) : res unit :=
  match rules with
  | [] => Ok tt
  | rule :: rules' => _ ← validate_rule p rule; validate_rules p rules'
  end.

(** [parse]: [None] stands for false, returned with the rules cleared after an
    exception. *)
Definition parse (src : bytes) : res (option llama_grammar_parser) :=
  match (p ← parse_rules (S (length src)) (Parser ∅ []) (parse_space src true);
         _ ← validate_rules p (p_rules p); mret p) with
  | Ok p => Ok (Some p)
  | Err (Throw _) => Ok None
  | Err f => Err f
  end.

(** [llama_grammar_init_impl] from a text: [None] is the null pointer. *)
Definition llama_grammar_init_str (grammar_str grammar_root : bytes) (lazy : bool)
    (trigger_patterns : list llama_grammar_trigger_pattern) (trigger_tokens : list Z)
    : res (option llama_grammar) :=
  parsed ← parse grammar_str;
  match parsed with
  | None => Ok None
  | Some p =>
    if bool_decide (p_rules p = []) then Ok None
    else
      match p_symbol_ids p !! grammar_root with
      | None => Ok None
      | Some start_rule_index =>
        llama_grammar_init_rules fuel (p_rules p) (Z.to_nat start_rule_index) lazy
          trigger_patterns trigger_tokens
      end
  end.
End parser.
