(* ===== verification/GrammarParserSpec.v ===== *)
(** * What the grammar parser produces

    The parser ends on every text, never aborts or reads outside its vectors,
    and when it returns true its rules are well formed: every alternate is a
    sequence the machine can read and every reference names a defined rule. *)
From stdpp Require Import pretty.
From S2P Require Import Prelude Utf8 Grammar GrammarSpec GrammarTerm GrammarParser.

#[local] Arguments adv : simpl never.

(** ** Fragments of rules *)

(** The class state after a fragment of a rule that has no END. *)
Fixpoint frag_state (es : llama_grammar_rule) (s : class_state) : option class_state :=
  match es with
  | [] => Some s
  | e :: es' =>
    match ge_type e with
    | GRETYPE_END => None
    | GRETYPE_ALT | GRETYPE_RULE_REF | GRETYPE_CHAR_ANY | GRETYPE_TOKEN | GRETYPE_TOKEN_NOT =>
      frag_state es' NoClass
    | GRETYPE_CHAR | GRETYPE_CHAR_NOT => frag_state es' AfterChar
    | GRETYPE_CHAR_RNG_UPPER => if bool_decide (s = AfterChar) then frag_state es' AfterRange else None
    | GRETYPE_CHAR_ALT => if bool_decide (s ≠ NoClass) then frag_state es' AfterChar else None
    end
  end.

Definition frag (es : llama_grammar_rule) : Prop := is_Some (frag_state es NoClass).

Definition refs_lt (n : nat) (es : llama_grammar_rule) : Prop :=
  ∀ e, e ∈ es → ge_type e = GRETYPE_RULE_REF → (Z.to_nat (ge_value e) < n)%nat.

Lemma frag_state_app a b s : frag_state (a ++ b) s = frag_state a s ≫= frag_state b.
Proof.
  revert s. induction a as [|e a IH]; intros s; cbn; [done|].
  destruct (ge_type e); try done; try apply IH; case_bool_decide; try done; apply IH.
Qed.

Lemma frag_state_weaken b s s' :
  frag_state b NoClass = Some s' → frag_state b s = Some s' ∨ b = [].
Proof. destruct b as [|e b]; [by right|]. left. cbn in *. by destruct (ge_type e). Qed.

Lemma frag_app a b : frag a → frag b → frag (a ++ b).
Proof.
  intros [s Ha] [s' Hb]. unfold frag. rewrite frag_state_app, Ha. cbn.
  destruct (frag_state_weaken b s s' Hb) as [->| ->]; eauto.
Qed.

Lemma frag_nil : frag [].
Proof. by eexists. Qed.

Lemma wf_elems_frag n es s :
  is_Some (frag_state es s) → refs_lt n es → wf_elems n (es ++ [Elem GRETYPE_END 0]) s = true.
Proof.
  revert s. induction es as [|e es IH]; intros s [s' Hs] Hr; [done|]. cbn in *.
  assert (refs_lt n es) as Hr' by (intros e' ?; apply Hr; by right).
  destruct (ge_type e) eqn:Ht; try done; try (apply IH; eauto).
  - rewrite bool_decide_true; [apply IH; eauto|]. by apply Hr; [left|].
  - destruct (bool_decide (s = AfterChar)); [|done]. apply IH; eauto.
  - destruct (bool_decide (s ≠ NoClass)); [|done]. apply IH; eauto.
Qed.

(** One element of a kind that stands on its own. *)
Lemma frag_single e :
  ge_type e ≠ GRETYPE_END → ge_type e ≠ GRETYPE_CHAR_RNG_UPPER → ge_type e ≠ GRETYPE_CHAR_ALT → frag [e].
Proof. intros. unfold frag. cbn. destruct (ge_type e); by eauto. Qed.

Lemma frag_repeat n a : frag a → frag (repeat_elems n a).
Proof. intros Ha. induction n; cbn; [apply frag_nil|by apply frag_app]. Qed.

(** ** The scanner only moves forward *)

Lemma skip_comment_length pos : (length (skip_comment pos) ≤ length pos)%nat.
Proof. induction pos as [|c pos IH]; cbn; [done|]. destruct (_ || _); cbn; lia. Qed.

Lemma adv_length pos n : length (adv pos n) = (length pos - n)%nat.
Proof. apply length_drop. Qed.

Lemma parse_space_length src nl : (length (parse_space src nl) ≤ length src)%nat.
Proof.
  unfold parse_space. generalize (length src) at 1 as n. intros n. revert src.
  induction n as [|n IH]; intros src; cbn; [done|]. destruct (_ || _); [|done].
  etrans; [apply IH|]. case_bool_decide; [apply skip_comment_length|]. rewrite adv_length. lia.
Qed.

Lemma scan_length p pos w rest : scan p pos = (w, rest) → length pos = (length w + length rest)%nat.
Proof.
  revert w rest. induction pos as [|c pos IH]; intros w rest H; cbn in H; [by injection H as <- <-|].
  destruct (p c).
  - destruct (scan p pos) as [w' rest'] eqn:Hs. injection H as <- <-. cbn. by rewrite (IH _ _ eq_refl).
  - by injection H as <- <-.
Qed.

Lemma scan_all p pos w rest : scan p pos = (w, rest) → Forall (λ c, p c = true) w.
Proof.
  revert w rest. induction pos as [|c pos IH]; intros w rest H; cbn in H; [injection H as <- <-; constructor|].
  destruct (p c) eqn:Hc.
  - destruct (scan p pos) as [w' rest'] eqn:Hs. injection H as <- <-. constructor; eauto.
  - injection H as <- <-. constructor.
Qed.

Lemma peek_nonzero pos : peek pos ≠ 0 → (0 < length pos)%nat.
Proof. destruct pos; cbn; [done|lia]. Qed.

Lemma decode_more_length n pos v : (length (snd (decode_more n pos v)) ≤ length pos)%nat.
Proof.
  revert pos v. induction n as [|n IH]; intros pos v; [by destruct pos|].
  destruct pos as [|c pos]; [done|]. cbn [decode_more]. case_bool_decide; [done|].
  etrans; [apply IH|]. cbn. lia.
Qed.

Section safety.
(** Whether the fuel may run out. *)
Context (P : Prop).

Lemma parse_hex_safe src n : safe P (λ r, (length (snd r) ≤ length src)%nat) (parse_hex src n).
Proof.
  unfold parse_hex. generalize 0 as v. revert src. induction n as [|n IH]; intros src v.
  - destruct src; cbn; lia.
  - destruct src as [|c src]; [done|]. cbn [parse_hex_loop]. case_bool_decide; [done|].
    destruct (hex_digit c); [|done]. specialize (IH src (u32 (u32 (Z.shiftl v 4) + z))).
    destruct (parse_hex_loop n src _) as [[v' pos] []]; cbn in *; lia.
Qed.

Lemma parse_char_safe src : safe P (λ r, (length (snd r) < length src)%nat) (parse_char src).
Proof.
  unfold parse_char. case_bool_decide as Hbs.
  - assert (∀ n, (2 ≤ length src)%nat → safe P (λ r, (length (snd r) < length src)%nat) (parse_hex (adv src 2) n)) as Hhex.
    { intros n Hlen. eapply safe_weaken; [apply parse_hex_safe|]. intros r Hr. cbn in Hr.
      rewrite adv_length in Hr. lia. }
    assert (peek_at src 1 ≠ 0 → (2 ≤ length src)%nat) as H2.
    { intros H%peek_nonzero. rewrite adv_length in H. lia. }
    cbv zeta. repeat case_bool_decide; try (by apply Hhex, H2; congruence);
      cbn; try done; rewrite adv_length;
      (assert (2 ≤ length src)%nat; [apply H2; congruence|lia]).
  - case_bool_decide; [done|]. cbn. unfold decode_utf8_char.
    assert (0 < length src)%nat by by apply peek_nonzero.
    eapply Nat.le_lt_trans; [apply decode_more_length|]. rewrite adv_length. lia.
Qed.

Lemma parse_name_safe src :
  safe P (λ r, (length (snd r) < length src)%nat ∧ Forall (λ c, is_word_char c = true) (fst r)) (parse_name src).
Proof.
  unfold parse_name. destruct (scan is_word_char src) as [w rest] eqn:Hs. case_bool_decide as Hw; [done|].
  cbn. split; [|by eapply scan_all]. apply scan_length in Hs. destruct w; [done|]. cbn in Hs. lia.
Qed.

Lemma parse_int_safe src : safe P (λ r, (length (snd r) < length src)%nat) (parse_int src).
Proof.
  unfold parse_int. destruct (scan is_digit_char src) as [w rest] eqn:Hs. case_bool_decide as Hw; [done|].
  cbn. apply scan_length in Hs. destruct w; [done|]. cbn in Hs. lia.
Qed.

Lemma stoull_safe digits : safe P (λ v, v < 2 ^ 64) (stoull digits).
Proof. unfold stoull. case_bool_decide; done. Qed.
End safety.

(** ** The symbol table *)

Lemma str_inj s1 s2 : str s1 = str s2 → s1 = s2.
Proof.
  intros H. assert (Inj (=) (=) (λ a, Z.of_N (Ascii.N_of_ascii a))) as Hinj.
  { intros a b Hab%N2Z.inj. rewrite <- (Ascii.ascii_N_embedding a), Hab. apply Ascii.ascii_N_embedding. }
  unfold str in H. apply (inj (fmap _)) in H.
  rewrite <- (String.string_of_list_ascii_of_string s1), H. apply String.string_of_list_ascii_of_string.
Qed.

Lemma split_first {A} (x : A) l1 l2 k1 k2 :
  x ∉ l1 → x ∉ l2 → l1 ++ x :: k1 = l2 ++ x :: k2 → l1 = l2 ∧ k1 = k2.
Proof.
  revert l2. induction l1 as [|a l1 IH]; intros [|b l2] H1 H2 H; cbn in H.
  - by injection H as <-.
  - injection H as -> _. destruct H2. by left.
  - injection H as -> _. destruct H1. by left.
  - injection H as -> H. destruct (IH l2) as [-> ->]; [by intros ?; apply H1; right|by intros ?; apply H2; right|done|done].
Qed.

Lemma generated_name_inj b1 b2 i1 i2 :
  95 ∉ b1 → 95 ∉ b2 → generated_name b1 i1 = generated_name b2 i2 → b1 = b2 ∧ i1 = i2.
Proof.
  intros H1 H2 H. destruct (split_first _ _ _ _ _ H1 H2 H) as [-> Hs]. split; [done|].
  apply str_inj in Hs. by apply (inj pretty) in Hs.
Qed.

Lemma word_name name : Forall (λ c, is_word_char c = true) name → 95 ∉ name.
Proof. intros Hw Hin. rewrite Forall_forall in Hw. by apply Hw in Hin. Qed.

Definition refs_named (p : llama_grammar_parser) (es : llama_grammar_rule) : Prop :=
  ∀ e, e ∈ es → ge_type e = GRETYPE_RULE_REF → ∃ name, p_symbol_ids p !! name = Some (ge_value e).

Definition grows (p p' : llama_grammar_parser) : Prop := p_symbol_ids p ⊆ p_symbol_ids p'.

#[global] Instance grows_refl : Reflexive grows.
Proof. intros p. unfold grows. reflexivity. Qed.
#[global] Instance grows_trans : Transitive grows.
Proof. intros p q r. unfold grows. apply transitivity. Qed.

(** A rule of the table is not there yet, or it is a sequence of well-formed
    alternates with its END. *)
Definition rule_ok (p : llama_grammar_parser) (rule : llama_grammar_rule) : Prop :=
  rule = [] ∨ ∃ body, rule = body ++ [Elem GRETYPE_END 0] ∧ frag body ∧ refs_named p body.

Record parser_inv (p : llama_grammar_parser) : Prop := {
  pi_ids name id : p_symbol_ids p !! name = Some id →
    0 ≤ id ∧ (95 ∉ name ∨ ∃ base, (95 ∉ base) ∧ name = generated_name base id);
  pi_rules rule : rule ∈ p_rules p → rule_ok p rule }.

Lemma refs_named_grows p p' es : refs_named p es → grows p p' → refs_named p' es.
Proof.
  intros Hn Hg e He Ht. destruct (Hn e He Ht) as [name Hname]. exists name.
  by eapply lookup_weaken.
Qed.

Lemma refs_named_app p a b : refs_named p a → refs_named p b → refs_named p (a ++ b).
Proof. intros Ha Hb e [He|He]%elem_of_app; auto. Qed.

Lemma refs_named_sub p a b : refs_named p b → (∀ e, e ∈ a → e ∈ b) → refs_named p a.
Proof. intros Hb Hsub e He. auto. Qed.

Lemma refs_named_drop p n a : refs_named p a → refs_named p (drop n a).
Proof. intros H. eapply refs_named_sub; [done|]. intros e He. rewrite <- (take_drop n a). apply elem_of_app. by right. Qed.

Lemma refs_named_take p n a : refs_named p a → refs_named p (take n a).
Proof. intros H. eapply refs_named_sub; [done|]. intros e He. rewrite <- (take_drop n a). apply elem_of_app. by left. Qed.

Lemma refs_named_repeat p n a : refs_named p a → refs_named p (repeat_elems n a).
Proof. intros Ha. induction n; cbn; [by intros e ?%not_elem_of_nil|by apply refs_named_app]. Qed.

Lemma refs_named_single p e :
  (ge_type e = GRETYPE_RULE_REF → ∃ name, p_symbol_ids p !! name = Some (ge_value e)) → refs_named p [e].
Proof. intros H e' ->%list_elem_of_singleton. done. Qed.

Lemma rule_ok_grows p p' rule : rule_ok p rule → grows p p' → rule_ok p' rule.
Proof. intros [->|(b & -> & ? & ?)] Hg; [by left|right]. exists b. eauto using refs_named_grows. Qed.

Lemma get_symbol_id_inv p name id p' :
  parser_inv p → 95 ∉ name → get_symbol_id p name = (id, p') →
  parser_inv p' ∧ grows p p' ∧ 0 ≤ id ∧ p_symbol_ids p' !! name = Some id.
Proof.
  intros Hinv Hname H. unfold get_symbol_id in H.
  destruct (p_symbol_ids p !! name) as [id'|] eqn:Hid; injection H as <- <-.
  - split_and!; [done|done| |done]. by apply (pi_ids _ Hinv) in Hid as [? _].
  - assert (grows p (Parser (<[name := u32 (symbol_ids_size p)]> (p_symbol_ids p)) (p_rules p))) as Hg
      by by apply insert_subseteq.
    split_and!; [|done|apply u32_range|apply lookup_insert_eq]. split; cbn.
    + intros n i [[<- <-]|[? Hi]]%lookup_insert_Some; [split; [apply u32_range|by left]|by apply Hinv].
    + intros rule Hr. eapply rule_ok_grows; [by apply Hinv|done].
Qed.

Lemma generate_symbol_id_inv p base id p' :
  parser_inv p → 95 ∉ base → generate_symbol_id p base = (id, p') →
  parser_inv p' ∧ grows p p' ∧ 0 ≤ id ∧ ∃ name, p_symbol_ids p' !! name = Some id.
Proof.
  intros Hinv Hbase H. unfold generate_symbol_id in H. injection H as <- <-.
  set (next := u32 (symbol_ids_size p)). set (name := generated_name base next).
  assert (grows p (Parser (<[name := next]> (p_symbol_ids p)) (p_rules p))) as Hg.
  { apply map_subseteq_spec. cbn. intros n i Hi. destruct (decide (n = name)) as [->|]; [|by rewrite lookup_insert_ne].
    rewrite lookup_insert_eq. f_equal. destruct (pi_ids _ Hinv _ _ Hi) as [_ [Hn|(b & Hb & Heq)]].
    - destruct Hn. unfold name, generated_name. apply elem_of_app. right. by left.
    - by destruct (generated_name_inj _ _ _ _ Hbase Hb Heq). }
  split_and!; [|done|apply u32_range|exists name; apply lookup_insert_eq]. split; cbn.
  - intros n i [[<- <-]|[? Hi]]%lookup_insert_Some; [split; [apply u32_range|right; by exists base]|by apply Hinv].
  - intros rule Hr. eapply rule_ok_grows; [by apply Hinv|done].
Qed.

Lemma add_rule_inv p rule_id rule :
  parser_inv p → 0 ≤ rule_id → rule_ok p rule →
  ∃ p', add_rule p rule_id rule = Ok p' ∧ parser_inv p' ∧ p_symbol_ids p' = p_symbol_ids p ∧
    (length (p_rules p) ≤ length (p_rules p'))%nat.
Proof.
  intros Hinv Hid Hok. unfold add_rule.
  set (rules := if bool_decide _ then _ else _).
  assert ((Z.to_nat rule_id < length rules)%nat ∧ (length (p_rules p) ≤ length rules)%nat ∧
    ∀ r, r ∈ rules → rule_ok p r) as (Hlt & Hle & Hrules).
  { unfold rules. case_bool_decide as Hb.
    - unfold resize_rules. rewrite length_app, length_take, length_replicate. split_and!; [lia|lia|].
      intros r [Hr|Hr]%elem_of_app.
      + apply Hinv. apply elem_of_take in Hr as (i & Hi & _). by eapply list_elem_of_lookup_2.
      + apply elem_of_replicate in Hr as [-> _]. by left.
    - split_and!; [lia|done|apply Hinv]. }
  rewrite put_lt by done. cbn. eexists. split; [done|]. split_and!; [|done|by cbn; rewrite length_insert].
  split; cbn; [apply Hinv|]. intros r Hr. apply list_elem_of_lookup in Hr as [i Hi].
  destruct (decide (i = Z.to_nat rule_id)) as [->|].
  - rewrite list_lookup_insert_eq in Hi by done. by injection Hi as <-.
  - rewrite list_lookup_insert_ne in Hi by done. by apply Hrules, list_elem_of_lookup_2 with i.
Qed.

(** ** Sequences *)

Section sequence.
Context (tokenize : option (bytes → Z * Z)) (fuel : nat).

(** The model of one repetition runs out of fuel only below 2^64 - 1. *)
Abbreviation limit := (Z.of_nat fuel < 2 ^ 64 - 1).

(** What holds at the head of the loop of [parse_sequence]. *)
Record seq_inv (p0 : llama_grammar_parser) (st : seq_state) : Prop := {
  si_parser : parser_inv (sq_parser st);
  si_grows : grows p0 (sq_parser st);
  si_start : (sq_last_sym_start st ≤ length (sq_rule st))%nat;
  si_head : frag (take (sq_last_sym_start st) (sq_rule st));
  si_tail : frag (drop (sq_last_sym_start st) (sq_rule st));
  si_refs : refs_named (sq_parser st) (sq_rule st);
  si_count : 1 ≤ sq_n_prev_rules st < 2 ^ 32 }.

Lemma si_rule p0 st : seq_inv p0 st → frag (sq_rule st).
Proof. intros H. rewrite <- (take_drop (sq_last_sym_start st)). apply frag_app; apply H. Qed.

(** A finished item on top of a sequence. *)
Lemma seq_inv_item p0 p pos rule item n :
  parser_inv p → grows p0 p → frag rule → frag item → refs_named p rule → refs_named p item →
  1 ≤ n < 2 ^ 32 → seq_inv p0 (SeqState p pos (rule ++ item) (length rule) n).
Proof.
  intros. split; cbn; try done.
  - rewrite length_app. lia.
  - by rewrite take_app_length.
  - by rewrite drop_app_length.
  - by apply refs_named_app.
Qed.

Lemma repetition_loop_safe n i rule_name prev_rule no_max last p :
  parser_inv p → 95 ∉ rule_name → frag prev_rule → refs_named p prev_rule →
  ((0 < i)%nat → ∃ name, p_symbol_ids p !! name = Some last) →
  safe limit (λ '(id, p'), parser_inv p' ∧ grows p p' ∧
      ((0 < n)%nat ∨ (0 < i)%nat → ∃ name, p_symbol_ids p' !! name = Some id))
    (repetition_loop n i rule_name prev_rule no_max last p).
Proof.
  intros Hp Hname Hfrag. revert i last p Hp. induction n as [|n IH]; intros i last p Hp Hprev Hlast; cbn [repetition_loop].
  { cbn. split_and!; [done|done|]. intros [?|?]; [lia|auto]. }
  destruct (generate_symbol_id p rule_name) as [id p1] eqn:Hgen.
  destruct (generate_symbol_id_inv _ _ _ _ Hp Hname Hgen) as (Hp1 & Hg1 & Hid & name & Hn).
  set (ref := if bool_decide (0 < i)%nat || no_max then _ else _).
  assert (frag ref ∧ refs_named p1 ref) as [Hfr Hnr].
  { unfold ref. destruct (bool_decide (0 < i)%nat || no_max) eqn:Hb; [|split; [apply frag_nil|by intros e ?%not_elem_of_nil]].
    split; [by apply frag_single|]. apply refs_named_single. intros _. cbn. destruct no_max; [eauto|].
    rewrite orb_false_r in Hb. apply bool_decide_eq_true in Hb. destruct (Hlast Hb) as [name' Hn'].
    exists name'. by eapply lookup_weaken. }
  destruct (add_rule_inv p1 id (prev_rule ++ ref ++ [Elem GRETYPE_ALT 0; Elem GRETYPE_END 0]) Hp1 Hid)
    as (p2 & -> & Hp2 & Hids & _).
  { right. exists (prev_rule ++ ref ++ [Elem GRETYPE_ALT 0]). split; [by rewrite <- !(assoc_L (++))|]. split.
    - apply frag_app; [done|]. apply frag_app; [done|]. by apply frag_single.
    - apply refs_named_app; [by eapply refs_named_grows|]. apply refs_named_app; [done|].
      by apply refs_named_single. }
  cbn [mbind res_bind]. assert (grows p p2) as Hg2 by (unfold grows; by rewrite Hids).
  eapply safe_weaken; [apply (IH (S i) id p2)|].
  - done.
  - by eapply refs_named_grows.
  - intros _. exists name. by rewrite Hids.
  - intros [id' p'] (? & ? & Hx). split_and!; [done|by etrans|]. intros _. apply Hx. right. lia.
Qed.

Lemma handle_repetitions_safe p0 rule_name min_times max_times st :
  seq_inv p0 st → 95 ∉ rule_name → 0 ≤ min_times ≤ 2000 →
  max_times = UINT64_MAX ∨ 0 ≤ max_times ≤ 2000 →
  safe limit (λ st', seq_inv p0 st' ∧ sq_pos st' = sq_pos st)
    (handle_repetitions fuel rule_name min_times max_times st).
Proof.
  intros Hst Hname Hmin Hmax. unfold handle_repetitions. cbv zeta.
  case_bool_decide as Hstart; [done|].
  set (prev_rule := drop (sq_last_sym_start st) (sq_rule st)).
  set (total := if negb _ && _ then max_times else _).
  assert (1 ≤ total ≤ 2000) as Htotal.
  { unfold total. unfold UINT64_MAX in *. repeat case_bool_decide; cbn; lia. }
  pose proof (si_count _ _ Hst) as Hcount.
  assert (u64 (sq_n_prev_rules st * total) = sq_n_prev_rules st * total) as -> by (apply u64_small; nia).
  unfold MAX_REPETITION_THRESHOLD. case_bool_decide as Hthr; [done|].
  set (rule' := if bool_decide (min_times = 0) then _ else _).
  set (n_opt := if bool_decide (max_times = UINT64_MAX) then 1 else _).
  assert (0 ≤ n_opt < 2 ^ 64) as Hopt by (unfold n_opt; case_bool_decide; [lia|apply u64_range]).
  case_bool_decide as Hfuel; [cbn; lia|].
  assert (frag prev_rule) as Hprev by apply Hst.
  assert (refs_named (sq_parser st) prev_rule) as Hrprev by by apply refs_named_drop, Hst.
  assert (refs_named (sq_parser st) rule') as Hrule'.
  { unfold rule'. case_bool_decide; [by apply refs_named_take, Hst|].
    apply refs_named_app; [apply Hst|by apply refs_named_repeat]. }
  assert ((sq_last_sym_start st ≤ length rule')%nat ∧ frag (take (sq_last_sym_start st) rule') ∧
    frag (drop (sq_last_sym_start st) rule')) as (Hlen & Hhead & Htail).
  { pose proof (si_start _ _ Hst). unfold rule'. case_bool_decide.
    - rewrite length_take, take_take, Nat.min_id, drop_ge by (rewrite length_take; lia).
      split_and!; [lia|apply Hst|apply frag_nil].
    - rewrite length_app, take_app_le, drop_app_le by done. split_and!; [lia|apply Hst|].
      apply frag_app; [done|by apply frag_repeat]. }
  eapply safe_bind; [apply (repetition_loop_safe _ 0); [apply Hst|done..|intros Hx; lia]|].
  intros [id p] (Hp & Hg & Hid). rewrite (bool_decide_true (1 ≤ _)) by nia. cbn. split; [|done].
  set (tail := if bool_decide (0 < n_opt) then rule' ++ _ else rule').
  assert (∃ ref, tail = rule' ++ ref ∧ frag ref ∧ refs_named p ref) as (ref & -> & Hfr & Hnr).
  { unfold tail. case_bool_decide.
    - exists [Elem GRETYPE_RULE_REF id]. split; [done|]. split; [by apply frag_single|].
      apply refs_named_single. intros _. cbn. apply Hid. left. lia.
    - exists []. rewrite app_nil_r. split_and!; [done|apply frag_nil|by intros e ?%not_elem_of_nil]. }
  split; cbn; [done| | | | | |nia].
  - etrans; [apply Hst|done].
  - rewrite length_app. lia.
  - by rewrite take_app_le.
  - rewrite drop_app_le by done. by apply frag_app.
  - apply refs_named_app; [by eapply refs_named_grows|done].
Qed.

(** Characters are appended to the rule one fragment at a time. *)
Lemma literal_loop_safe n pos rule :
  (length pos < n)%nat →
  safe limit (λ '(pos', rule'), (length pos' ≤ length pos)%nat ∧ peek pos' = 34 ∧
      ∃ item, rule' = rule ++ item ∧ frag item ∧ ∀ e, e ∈ item → ge_type e ≠ GRETYPE_RULE_REF)
    (literal_loop n pos rule).
Proof.
  revert pos rule. induction n as [|n IH]; intros pos rule Hn; [lia|]. cbn [literal_loop].
  case_bool_decide as Hq.
  { cbn. split_and!; [done|done|]. exists []. rewrite app_nil_r.
    split_and!; [done|apply frag_nil|by intros e ?%not_elem_of_nil]. }
  case_bool_decide; [done|]. eapply safe_bind; [apply parse_char_safe|]. intros [c pos1] Hpos1. cbn in Hpos1.
  eapply safe_weaken; [apply IH; lia|]. intros [pos' rule'] (? & ? & item & -> & ? & Hitem).
  split_and!; [lia|done|]. exists (Elem GRETYPE_CHAR c :: item). split_and!.
  - by rewrite <- (assoc_L (++)).
  - apply (frag_app [_]); [by apply frag_single|done].
  - intros e [->|He]%elem_of_cons; [done|auto].
Qed.

(** The elements of a class in progress. *)
Definition class_elems (item : llama_grammar_rule) : Prop :=
  (item = [] ∨ frag_state item NoClass = Some AfterChar ∨ frag_state item NoClass = Some AfterRange) ∧
  ∀ e, e ∈ item → ge_type e ≠ GRETYPE_RULE_REF.

Lemma class_elems_char item type c :
  class_elems item → (type = GRETYPE_CHAR ∨ type = GRETYPE_CHAR_NOT) →
  frag_state (item ++ [Elem (if bool_decide (item = []) then type else GRETYPE_CHAR_ALT) c]) NoClass = Some AfterChar.
Proof.
  intros [[->|Hs] _] Ht; [by destruct Ht as [-> | ->]|].
  rewrite frag_state_app. destruct item as [|e item]; [by destruct Hs|].
  rewrite bool_decide_false by done. by destruct Hs as [-> | ->].
Qed.

Lemma class_loop_safe n pos start_type rule item :
  (length pos < n)%nat → (start_type = GRETYPE_CHAR ∨ start_type = GRETYPE_CHAR_NOT) → class_elems item →
  safe limit (λ '(pos', rule'), (length pos' ≤ length pos)%nat ∧ peek pos' = 93 ∧
      ∃ item', rule' = rule ++ item' ∧ class_elems item')
    (class_loop n pos start_type (length rule) (rule ++ item)).
Proof.
  intros Hn Hstart. revert pos item Hn. induction n as [|n IH]; intros pos item Hn Hitem; [lia|].
  cbn [class_loop]. case_bool_decide as Hq; [cbn; split_and!; eauto|].
  case_bool_decide; [done|]. eapply safe_bind; [apply parse_char_safe|]. intros [c pos1] Hpos1. cbn in Hpos1.
  cbv zeta.
  assert ((if bool_decide (length rule < length (rule ++ item))%nat then GRETYPE_CHAR_ALT else start_type) =
    (if bool_decide (item = []) then start_type else GRETYPE_CHAR_ALT)) as ->.
  { rewrite length_app. destruct item as [|e item].
    - rewrite bool_decide_false by (cbn; lia). by rewrite bool_decide_true.
    - rewrite bool_decide_true by (cbn; lia). by rewrite bool_decide_false. }
  set (e := Elem _ c). assert (frag_state (item ++ [e]) NoClass = Some AfterChar) as He by by apply class_elems_char.
  assert (∀ x, x ∈ item ++ [e] → ge_type x ≠ GRETYPE_RULE_REF) as Hnoref.
  { intros x [Hx| ->%list_elem_of_singleton]%elem_of_app; [by apply Hitem|].
    unfold e. cbn. case_bool_decide; [|done]. by destruct Hstart as [-> | ->]. }
  destruct (_ && _).
  - case_bool_decide; [done|]. eapply safe_bind; [apply parse_char_safe|].
    intros [c2 pos2] Hpos2. cbn in Hpos2. rewrite adv_length in Hpos2.
    rewrite <- !(assoc_L (++)). eapply safe_weaken; [apply IH; [lia|]|].
    + split.
      * right. right. by rewrite (assoc_L (++)), frag_state_app, He.
      * rewrite (assoc_L (++)). intros x [Hx| ->%list_elem_of_singleton]%elem_of_app; auto.
    + intros [pos' rule'] (? & ? & ?). split_and!; [lia|done|done].
  - rewrite <- (assoc_L (++)). eapply safe_weaken; [apply IH; [lia|]|].
    + split; [by right; left|done].
    + intros [pos' rule'] (? & ? & ?). split_and!; [lia|done|done].
Qed.

Lemma fold_decimal_nonneg digits v :
  0 ≤ v → Forall (λ c, is_digit_char c = true) digits →
  0 ≤ fold_left (λ v c, v * 10 + (c - 48)) digits v.
Proof.
  intros Hv Hd. revert v Hv. induction Hd as [|c digits Hc _ IH]; intros v Hv; [done|]. cbn. apply IH.
  unfold is_digit_char, between in Hc. apply andb_true_iff in Hc as [Hc%bool_decide_eq_true _]. lia.
Qed.

Lemma parse_number_safe pos :
  safe limit (λ '(v, pos'), 0 ≤ v < 2 ^ 64 ∧ (length pos' < length pos)%nat)
    (parse_number pos).
Proof.
  unfold parse_number, parse_int. destruct (scan is_digit_char pos) as [w rest] eqn:Hs. case_bool_decide as Hw; [done|].
  cbn. unfold stoull. case_bool_decide as Hlt; [|done]. cbn. pose proof (scan_all _ _ _ _ Hs).
  apply scan_length in Hs. split; [|destruct w; [done|cbn in Hs; lia]].
  split; [|done]. by apply fold_decimal_nonneg.
Qed.
Lemma parse_token_safe src :
  safe limit (λ r, (length (snd r) < length src)%nat) (parse_token tokenize src).
Proof.
  unfold parse_token. case_bool_decide as H0; [cbn [negb]|done].
  assert (0 < length src)%nat by (apply peek_nonzero; lia). cbv zeta.
  case_bool_decide.
  - eapply safe_bind; [apply parse_number_safe|]. intros [v pos] [_ Hpos].
    rewrite !adv_length in Hpos.
    destruct (negb _); [done|]. destruct (negb _); [done|]. cbn. rewrite adv_length. lia.
  - destruct tokenize as [tk|]; [|done].
    destruct (scan _ _) as [name pos] eqn:Hs. apply scan_length in Hs. rewrite adv_length in Hs.
    destruct (negb _); [done|]. destruct (tk _) as [n t]. case_bool_decide; [|done].
    cbn. rewrite adv_length. lia.
Qed.

Lemma parse_bounds_safe pos is_nested :
  safe limit (λ '(min_times, max_times, pos'), 0 ≤ min_times ≤ 2000 ∧
      (max_times = UINT64_MAX ∨ 0 ≤ max_times ≤ 2000) ∧ (length pos' ≤ length pos)%nat)
    (parse_bounds pos is_nested).
Proof.
  unfold parse_bounds. cbv zeta. destruct (negb _); [done|].
  pose proof (parse_space_length pos is_nested) as H1.
  eapply safe_bind; [apply parse_number_safe|]. intros [mn pos1] [Hmn Hpos1].
  pose proof (parse_space_length pos1 is_nested) as H2.
  eapply (safe_bind _ (λ '(mx, pos2), 0 ≤ mx < 2 ^ 64 ∧ (length pos2 ≤ length pos)%nat)).
  - case_bool_decide.
    { cbn. split; [done|]. pose proof (parse_space_length (adv (parse_space pos1 is_nested) 1) is_nested) as H3.
      rewrite adv_length in H3. lia. }
    case_bool_decide; [|done].
    set (pos2 := parse_space (adv _ 1) is_nested).
    assert (length pos2 ≤ length pos)%nat as H3.
    { unfold pos2. etrans; [apply parse_space_length|]. rewrite adv_length. lia. }
    eapply (safe_bind _ (λ '(mx, pos3), 0 ≤ mx < 2 ^ 64 ∧ (length pos3 ≤ length pos)%nat)).
    + destruct (is_digit_char _).
      * eapply safe_bind; [apply parse_number_safe|]. intros [mx pos3] [Hmx Hpos3]. cbn.
        pose proof (parse_space_length pos3 is_nested). split; [done|lia].
      * cbn. unfold UINT64_MAX. split; [lia|done].
    + intros [mx pos3] [Hmx Hpos3]. destruct (negb _); [done|]. cbn. split; [done|].
      etrans; [apply parse_space_length|]. rewrite adv_length. lia.
  - intros [mx pos2] [Hmx Hpos2]. unfold MAX_REPETITION_THRESHOLD.
    repeat case_bool_decide; cbn; try done; split_and!; try lia; first [by left|right; lia].
Qed.

(** [parse_alternates] as the sequences call it: on a shorter text. *)
Definition alternates_safe (n : nat) (parse_alternates : llama_grammar_parser → bytes → Z → res (bytes * llama_grammar_parser)) : Prop :=
  ∀ p src id, (length src < n)%nat → parser_inv p → 0 ≤ id →
    safe limit (λ '(pos', p'), (length pos' ≤ length src)%nat ∧ parser_inv p' ∧ grows p p')
      (parse_alternates p src id).

Lemma class_elems_frag item : class_elems item → frag item ∧ ∀ p, refs_named p item.
Proof.
  intros [Hs Hr]. split; [destruct Hs as [->|[Hs|Hs]]; [apply frag_nil|by eexists..]|].
  intros p e He Ht. by destruct (Hr e He).
Qed.

Lemma sequence_step_safe p0 parse_alternates rule_name is_nested st :
  alternates_safe (length (sq_pos st)) parse_alternates → 95 ∉ rule_name →
  seq_inv p0 st → peek (sq_pos st) ≠ 0 →
  safe limit (λ r, ∀ st', r = Some st' → seq_inv p0 st' ∧ (length (sq_pos st') < length (sq_pos st))%nat)
    (sequence_step tokenize fuel parse_alternates rule_name is_nested st).
Proof.
  intros Halt Hname Hst Hpk. pose proof (peek_nonzero _ Hpk) as Hlen.
  pose proof (si_rule _ _ Hst) as Hrule. pose proof (si_parser _ _ Hst) as Hp.
  pose proof (si_grows _ _ Hst) as Hg. pose proof (si_refs _ _ Hst) as Hrefs.
  assert (∀ pos, (length (parse_space pos is_nested) ≤ length pos)%nat) as Hsp by (intros; apply parse_space_length).
  assert (∀ pos k, (length pos < length (sq_pos st))%nat →
    (length (parse_space (adv pos k) is_nested) < length (sq_pos st))%nat) as Hadv.
  { intros pos k ?. eapply Nat.le_lt_trans; [apply Hsp|]. rewrite adv_length. lia. }
  unfold sequence_step. cbv zeta.
  case_bool_decide.
  { eapply safe_bind; [apply literal_loop_safe; rewrite adv_length; lia|].
    intros [pos rule] (Hpos & _ & item & -> & Hfr & Hno). rewrite adv_length in Hpos.
    cbn. intros st' [= <-]. split; [|apply Hadv; lia].
    apply seq_inv_item; try done. intros e He Ht. by destruct (Hno e He). }
  case_bool_decide.
  { set (pair := if bool_decide (peek (adv (sq_pos st) 1) = 94) then _ else _).
    assert (∃ ty ps, pair = (ty, ps) ∧ (ty = GRETYPE_CHAR ∨ ty = GRETYPE_CHAR_NOT) ∧
      (length ps < length (sq_pos st))%nat) as (ty & ps & -> & Hty & Hps).
    { unfold pair. case_bool_decide; eexists _, _; (split; [done|]);
        (split; [auto|rewrite !adv_length; lia]). }
    eapply safe_bind.
    { rewrite <- (app_nil_r (sq_rule st)) at 2. apply class_loop_safe; [lia|done|].
      split; [by left|by intros e ?%not_elem_of_nil]. }
    intros [pos rule] (Hpos & _ & item & -> & [Hfr Hno]%class_elems_frag). cbn.
    intros st' [= <-]. split; [|apply Hadv; lia]. by apply seq_inv_item. }
  destruct (bool_decide (peek (sq_pos st) = 60) || _).
  { set (pair := if bool_decide (peek (sq_pos st) = 33) then _ else _).
    assert (∃ ty ps, pair = (ty, ps) ∧ (ty = GRETYPE_TOKEN ∨ ty = GRETYPE_TOKEN_NOT) ∧
      (length ps ≤ length (sq_pos st))%nat) as (ty & ps & -> & Hty & Hps).
    { unfold pair. case_bool_decide; eexists _, _; (split; [done|]);
        (split; [auto|rewrite ?adv_length; lia]). }
    eapply safe_bind; [apply parse_token_safe|]. intros [token pos] Hpos. cbn in Hpos. cbn.
    intros st' [= <-]. split.
    - apply seq_inv_item; try done; [apply frag_single|apply refs_named_single]; by destruct Hty as [-> | ->].
    - cbn. specialize (Hsp pos). lia. }
  destruct (is_word_char _).
  { eapply safe_bind; [apply parse_name_safe|]. intros [name pos] [Hpos Hw]. cbn in Hpos, Hw.
    destruct (get_symbol_id (sq_parser st) name) as [id p] eqn:Hget.
    destruct (get_symbol_id_inv _ _ _ _ Hp (word_name _ Hw) Hget) as (Hp' & Hg' & Hid & Hlk). cbn.
    intros st' [= <-]. split.
    - apply seq_inv_item; try done; [by etrans|by apply frag_single|by eapply refs_named_grows|].
      apply refs_named_single. eauto.
    - cbn. specialize (Hsp pos). lia. }
  case_bool_decide.
  { destruct (generate_symbol_id (sq_parser st) rule_name) as [id p] eqn:Hgen.
    destruct (generate_symbol_id_inv _ _ _ _ Hp Hname Hgen) as (Hp' & Hg' & Hid & nm & Hlk).
    pose proof (parse_space_length (adv (sq_pos st) 1) true) as Hs1. rewrite adv_length in Hs1.
    eapply safe_bind; [apply Halt; [lia|done..]|]. intros [pos p2] (Hpos & Hp2 & Hg2).
    destruct (negb _); [done|]. cbn. intros st' [= <-]. split; [|apply Hadv; lia].
    apply seq_inv_item; try done.
    - etrans; [exact Hg|]. by etrans.
    - by apply frag_single.
    - eapply refs_named_grows; [done|]. by etrans.
    - apply refs_named_single. intros _. exists nm. by eapply lookup_weaken.
    - pose proof (u32_range (u32 (symbol_ids_size p2) - u32 (symbol_ids_size (sq_parser st)))). lia. }
  case_bool_decide.
  { cbn. intros st' [= <-]. split; [|cbn; specialize (Hsp (adv (sq_pos st) 1)); rewrite adv_length in Hsp; lia].
    apply seq_inv_item; try done; [by apply frag_single|by apply refs_named_single]. }
  assert (∀ mn mx pos, 0 ≤ mn ≤ 2000 → mx = UINT64_MAX ∨ 0 ≤ mx ≤ 2000 → (length pos < length (sq_pos st))%nat →
    safe limit (λ r, ∀ st', r = Some st' → seq_inv p0 st' ∧ (length (sq_pos st') < length (sq_pos st))%nat)
      (st ← handle_repetitions fuel rule_name mn mx
              (SeqState (sq_parser st) pos (sq_rule st) (sq_last_sym_start st) (sq_n_prev_rules st));
       mret (Some st))) as Hrep.
  { intros mn mx pos Hmn Hmx Hpos. eapply safe_bind.
    - apply (handle_repetitions_safe p0); [|done..]. split; apply Hst.
    - intros st2 [Hst2 Heq]. cbn. intros st' [= <-]. split; [done|]. by rewrite Heq. }
  assert (length (parse_space (adv (sq_pos st) 1) is_nested) < length (sq_pos st))%nat as Hs1.
  { specialize (Hsp (adv (sq_pos st) 1)). rewrite adv_length in Hsp. lia. }
  case_bool_decide; [apply Hrep; [lia|by left|done]|].
  case_bool_decide; [apply Hrep; [lia|by left|done]|].
  case_bool_decide; [apply Hrep; [lia|right; lia|done]|].
  case_bool_decide; [|done].
  eapply safe_bind; [apply parse_bounds_safe|]. intros [[mn mx] pos] (Hmn & Hmx & Hpos).
  rewrite adv_length in Hpos. apply Hrep; [done|done|lia].
Qed.
(** ** Alternates *)

(** A rule under construction: no item of it is open to repetition. *)
Definition sequence_safe (n : nat)
    (parse_sequence : llama_grammar_parser → bytes → llama_grammar_rule → res seq_state) : Prop :=
  ∀ p src rule, (length src < n)%nat → parser_inv p → frag rule → refs_named p rule →
    safe limit (λ st, seq_inv p st ∧ (length (sq_pos st) ≤ length src)%nat) (parse_sequence p src rule).

Lemma alternates_loop_safe n m parse_sequence p0 st :
  sequence_safe n parse_sequence → (length (sq_pos st) < n)%nat → (length (sq_pos st) < m)%nat →
  seq_inv p0 st →
  safe limit (λ st', seq_inv p0 st' ∧ (length (sq_pos st') ≤ length (sq_pos st))%nat)
    (alternates_loop m parse_sequence st).
Proof.
  intros Hseq. revert st. induction m as [|m IH]; intros st Hn Hm Hst; [lia|]. cbn [alternates_loop].
  case_bool_decide as Hbar; [|by cbn].
  assert (0 < length (sq_pos st))%nat by (apply peek_nonzero; lia).
  pose proof (parse_space_length (adv (sq_pos st) 1) true) as Hs. rewrite adv_length in Hs.
  eapply safe_bind.
  - apply Hseq; [lia|apply Hst|apply frag_app; [by eapply si_rule|by apply frag_single]|].
    apply refs_named_app; [apply Hst|by apply refs_named_single].
  - intros st' [Hst' Hlen]. eapply safe_weaken; [apply IH; [lia|lia|]|].
    + destruct Hst'. split; try done. etrans; [apply Hst|done].
    + cbn. intros st2 [? ?]. split; [done|lia].
Qed.

Lemma parse_alternates_with_safe n parse_sequence :
  sequence_safe n parse_sequence → alternates_safe n (parse_alternates_with parse_sequence).
Proof.
  intros Hseq p src id Hn Hp Hid. unfold parse_alternates_with.
  eapply safe_bind; [apply Hseq; [done|done|apply frag_nil|by intros e ?%not_elem_of_nil]|].
  intros st [Hst Hlen]. eapply safe_bind; [apply (alternates_loop_safe n); [done|lia|lia|done]|].
  intros st' [Hst' Hlen'].
  destruct (add_rule_inv (sq_parser st') id (sq_rule st' ++ [Elem GRETYPE_END 0])) as (p' & -> & Hp' & Hids & _);
    [apply Hst'|done| |].
  - right. eexists. split; [done|]. split; [by eapply si_rule|apply Hst'].
  - cbn. split_and!; [lia|done|]. unfold grows. rewrite Hids. apply Hst'.
Qed.

Lemma sequence_loop_safe depth rule_name is_nested p0 st :
  95 ∉ rule_name → (length (sq_pos st) < depth)%nat → seq_inv p0 st →
  safe limit (λ st', seq_inv p0 st' ∧ (length (sq_pos st') ≤ length (sq_pos st))%nat)
    (sequence_loop tokenize fuel depth rule_name is_nested st).
Proof.
  intros Hname. revert is_nested p0 st. induction depth as [|depth IH]; intros is_nested p0 st Hd Hst; [lia|].
  cbn [sequence_loop]. case_bool_decide as Hz; [by cbn|].
  eapply safe_bind.
  - apply (sequence_step_safe p0); [|done..]. apply parse_alternates_with_safe.
    intros p src rule Hlen Hp Hr Hn. eapply safe_weaken; [apply (IH true p); [cbn; lia|]|done].
    rewrite <- (app_nil_r rule) at 1. apply seq_inv_item; try done; [apply frag_nil|by intros e ?%not_elem_of_nil].
  - intros [st'|] Hstep; [|by cbn]. destruct (Hstep st' eq_refl) as [Hst' Hlen].
    eapply safe_weaken; [apply IH; [lia|done]|]. cbn. intros st2 [? ?]. split; [done|lia].
Qed.

Lemma parse_sequence_safe n rule_name is_nested :
  95 ∉ rule_name → sequence_safe n (parse_sequence tokenize fuel rule_name is_nested).
Proof.
  intros Hname p src rule _ Hp Hr Hn. unfold parse_sequence. apply sequence_loop_safe; [done|cbn; lia|].
  rewrite <- (app_nil_r rule) at 1. apply seq_inv_item; try done; [apply frag_nil|by intros e ?%not_elem_of_nil].
Qed.

(** ** Rules and texts *)

Lemma parse_rule_safe p src :
  parser_inv p →
  safe limit (λ '(pos', p'), (length pos' < length src)%nat ∧ parser_inv p' ∧ grows p p')
    (parse_rule tokenize fuel p src).
Proof.
  intros Hp. unfold parse_rule. eapply safe_bind; [apply parse_name_safe|].
  intros [name name_end] [Hlen Hw]. cbn in Hlen, Hw. cbv zeta.
  destruct (get_symbol_id p name) as [id p1] eqn:Hget.
  destruct (get_symbol_id_inv _ _ _ _ Hp (word_name _ Hw) Hget) as (Hp1 & Hg1 & Hid & _).
  destruct (negb _); [done|].
  set (body := parse_space (adv _ 3) true).
  assert (length body ≤ length name_end)%nat as Hbody.
  { unfold body. etrans; [apply parse_space_length|]. rewrite adv_length.
    pose proof (parse_space_length name_end false). lia. }
  eapply safe_bind.
  { apply (parse_alternates_with_safe (S (length body))); [|lia|done|done].
    by apply parse_sequence_safe, word_name. }
  intros [pos p2] (Hpos & Hp2 & Hg2). eapply (safe_bind _ (λ pos', (length pos' ≤ length pos)%nat)).
  - repeat (case_bool_decide; cbn [negb]); cbn; rewrite ?adv_length; try done; lia.
  - intros pos' Hpos'. cbn. pose proof (parse_space_length pos' true).
    split_and!; [lia|done|by etrans].
Qed.

Lemma parse_rules_safe n p pos :
  parser_inv p → (length pos < n)%nat →
  safe limit parser_inv (parse_rules tokenize fuel n p pos).
Proof.
  revert p pos. induction n as [|n IH]; intros p pos Hp Hn; [lia|]. cbn [parse_rules].
  case_bool_decide; [done|]. eapply safe_bind; [by apply parse_rule_safe|].
  intros [pos' p'] (? & ? & _). apply IH; [done|lia].
Qed.

Lemma validate_rules_throw p rules : safe limit (λ _, True) (validate_rules p rules).
Proof.
  induction rules as [|r rules IH]; [done|]. cbn [validate_rules]. apply (safe_bind _ (λ _, True)); [|by intros].
  unfold validate_rule. case_bool_decide; [done|]. by destruct (existsb _ _).
Qed.

Lemma validate_rules_Ok p rules :
  validate_rules p rules = Ok tt →
  ∀ rule, rule ∈ rules → rule ≠ [] ∧ existsb (undefined_ref p) rule = false.
Proof.
  induction rules as [|r rules IH]; intros H rule Hin; [by apply not_elem_of_nil in Hin|].
  cbn in H. apply bind_Ok in H as ([] & Hv & H). apply elem_of_cons in Hin as [->|Hin]; [|by apply IH].
  unfold validate_rule in Hv. case_bool_decide; [done|]. split; [done|]. by destruct (existsb _ _).
Qed.

(** Validated rules are well formed. *)
Lemma validated_wf p :
  parser_inv p → validate_rules p (p_rules p) = Ok tt → wf_rules (p_rules p) = true.
Proof.
  intros Hp Hv. unfold wf_rules. apply forallb_forall. intros rule Hin%list_elem_of_In.
  destruct (validate_rules_Ok _ _ Hv _ Hin) as [Hne Hex].
  destruct (pi_rules _ Hp _ Hin) as [?|(body & -> & Hfr & Hnamed)]; [done|].
  apply wf_elems_frag; [done|]. intros e He Ht. destruct (Hnamed e He Ht) as [name Hname].
  destruct (decide (ge_value e < Z.of_nat (length (p_rules p)))) as [Hlt|Hge].
  { apply (pi_ids _ Hp) in Hname as [? _]. lia. }
  exfalso. apply not_true_iff_false in Hex. apply Hex, existsb_exists. exists e.
  split; [apply list_elem_of_In, elem_of_app; by left|]. unfold undefined_ref.
  rewrite (bool_decide_true (ge_type e = _)) by done. rewrite (bool_decide_true (_ ≤ _)) by lia. cbn.
  apply existsb_exists. exists (name, ge_value e). split; [|cbn; by apply bool_decide_true].
  by apply list_elem_of_In, elem_of_map_to_list.
Qed.

Lemma parse_safe src :
  safe limit (λ r, ∀ p, r = Some p → parser_inv p ∧ wf_rules (p_rules p) = true) (parse tokenize fuel src).
Proof.
  unfold parse.
  assert (parser_inv (Parser ∅ [])) as H0.
  { split; cbn; [intros name id Hid; by apply lookup_empty_Some in Hid|by intros ? ?%not_elem_of_nil]. }
  assert (safe limit (λ p, parser_inv p ∧ wf_rules (p_rules p) = true)
    (p ← parse_rules tokenize fuel (S (length src)) (Parser ∅ []) (parse_space src true);
     _ ← validate_rules p (p_rules p); mret p)) as H.
  { eapply safe_bind; [apply parse_rules_safe; [done|pose proof (parse_space_length src true); lia]|].
    intros p Hp. destruct (validate_rules p (p_rules p)) as [[]|f] eqn:Hv; cbn.
    - split; [done|by apply validated_wf].
    - pose proof (validate_rules_throw p (p_rules p)) as Ht. rewrite Hv in Ht. by destruct f. }
  destruct (_ ≫= _) as [p|[]]; cbn in *; try done. by intros p' [= <-].
Qed.
End sequence.

(** ** Properties *)

(** C6. The parser returns on every text: with the fuel of a 64-bit counter
    for the rules one repetition generates, it ends with a table of rules or
    with false, and never aborts or accesses a vector out of range. *)
Theorem parse_returns tokenize fuel src :
  2 ^ 64 - 1 ≤ Z.of_nat fuel → ∃ r, parse tokenize fuel src = Ok r.
Proof.
  intros Hf. pose proof (parse_safe tokenize fuel src) as H.
  assert (∀ msg, parse tokenize fuel src ≠ Err (Throw msg)) as Hthrow.
  { intros msg. unfold parse. by destruct (_ ≫= _) as [|[]]. }
  destruct (parse tokenize fuel src) as [r|[]]; cbn in H; [eauto|by destruct (Hthrow msg)|done|done|lia].
Qed.

Lemma parse_returns_witness :
  2 ^ 64 - 1 ≤ Z.of_nat (Z.to_nat (2 ^ 64)) ∧ ∃ r, parse None (Z.to_nat (2 ^ 64)) (str "root ::= [a-z]+") = Ok r.
Proof. split; [rewrite Z2Nat.id; lia|]. apply parse_returns. rewrite Z2Nat.id; lia. Defined.

(** C5. When the parser returns true every rule of its table is well formed:
    it is closed by its only END, range bounds and class members stand only
    inside character classes, and every reference is to a rule of the table. *)
Theorem parse_well_formed tokenize fuel src p :
  parse tokenize fuel src = Ok (Some p) → wf_rules (p_rules p) = true.
Proof.
  intros H. pose proof (safe_Ok _ _ _ _ (parse_safe tokenize fuel src) H) as Hs. by apply (Hs p).
Qed.

Definition example_text : bytes := str "root ::= (a | [^x-z]{2,3} )? . # end" ++ [10] ++ str "a ::= [a-z0-9]*".

Lemma parse_well_formed_witness :
  ∃ p, parse None 10 example_text = Ok (Some p) ∧ wf_rules (p_rules p) = true.
Proof.
  eexists. split; [vm_compute; reflexivity|].
  apply (parse_well_formed None 10 example_text). vm_compute. reflexivity.
Defined.
