(* ===== verification/GrammarLazy.v ===== *)
(** * Lazy grammars

    A lazy grammar buffers the generated text until a trigger, then constrains
    the text from the trigger on: the bookkeeping of token positions and the
    replay of the buffered tokens. *)
From S2P Require Import Prelude Utf8 Grammar.

(** ** The buffer *)

(** Positions that tile the text from [n] to [m], token by token. *)
Fixpoint tiles (n : nat) (positions : list (Z * (nat * nat))) (m : nat) : Prop :=
  match positions with
  | [] => n = m
  | (_, (s, e)) :: positions' => s = n ∧ (s ≤ e)%nat ∧ tiles e positions' m
  end.

(** What holds of a grammar that waits for its trigger. *)
Definition buffer_ok (g : llama_grammar) : Prop :=
  tiles 0 (g_trigger_buffer_positions g) (length (g_trigger_buffer g)).

Lemma tiles_app n ps m ps' k : tiles n ps m → tiles m ps' k → tiles n (ps ++ ps') k.
Proof.
  revert n. induction ps as [|[tok [s e]] ps IH]; intros n; cbn; [by intros ->|].
  intros (-> & ? & ?) ?. eauto.
Qed.

Lemma tiles_le n ps m : tiles n ps m → (n ≤ m)%nat.
Proof.
  revert n. induction ps as [|[tok [s e]] ps IH]; intros n; cbn; [by intros ->|].
  intros (-> & ? & H%IH). lia.
Qed.

(** The pieces the replay passes to [llama_grammar_accept_token]. *)
Fixpoint replay_pieces (buffer : bytes) (start : nat) (positions : list (Z * (nat * nat)))
    : list (Z * bytes) :=
  match positions with
  | [] => []
  | (tok, (tok_start, tok_end)) :: positions' =>
    if bool_decide (tok_end ≤ start)%nat then replay_pieces buffer start positions'
    else (tok, substr buffer (Nat.max start tok_start) (tok_end - Nat.max start tok_start))
         :: replay_pieces buffer start positions'
  end.

Fixpoint accept_pieces (fuel : nat) (g : llama_grammar) (pieces : list (Z * bytes)) : res llama_grammar :=
  match pieces with
  | [] => Ok g
  | (tok, piece) :: pieces' =>
    g ← llama_grammar_accept_token fuel g tok piece;
    accept_pieces fuel g pieces'
  end.

Lemma replay_tokens_pieces fuel g buffer start positions :
  replay_tokens fuel g buffer start positions = accept_pieces fuel g (replay_pieces buffer start positions).
Proof.
  revert g. induction positions as [|[tok [s e]] ps IH]; intros g; [done|]. cbn [replay_tokens replay_pieces].
  case_bool_decide as He; [apply IH|].
  assert ((if bool_decide (s < start)%nat then start else s) = Nat.max start s) as ->.
  { case_bool_decide; lia. }
  cbn [accept_pieces]. destruct (llama_grammar_accept_token _ _ _ _); [apply IH|done].
Qed.

(** The pieces are the text from [start] on, cut at the token boundaries. *)
Lemma replay_pieces_text buffer start n ps :
  tiles n ps (length buffer) →
  concat (snd <$> replay_pieces buffer start ps) = drop (Nat.max start n) buffer.
Proof.
  revert n. induction ps as [|[tok [s e]] ps IH]; intros n Ht; cbn in Ht |- *.
  { subst n. by rewrite drop_ge by lia. }
  destruct Ht as (-> & Hle & Ht). pose proof (tiles_le _ _ _ Ht). case_bool_decide as He.
  - rewrite (IH _ Ht). by replace (Nat.max start e) with (Nat.max start n) by lia.
  - cbn. rewrite (IH _ Ht). unfold substr.
    rewrite <- (take_drop (e - Nat.max start n) (drop (Nat.max start n) buffer)) at 2.
    f_equal. rewrite drop_drop. by replace (Nat.max start n + _)%nat with (Nat.max start e) by lia.
Qed.

(** ** Properties *)

(** When a trigger pattern is found in the text of a waiting lazy grammar,
    the grammar is advanced by pieces whose concatenation is exactly the text
    from the trigger position on, each with the token it came from; then the
    buffer is empty.  Otherwise the token is appended and the grammar waits on. *)
Theorem lazy_accept token_to_piece is_eog regex_match regex_search fuel g token :
  g_awaiting_trigger g = true → buffer_ok g → token ∉ g_trigger_tokens g →
  let buffer := g_trigger_buffer g ++ token_to_piece token in
  let accept := llama_grammar_accept_impl token_to_piece is_eog regex_match regex_search fuel g token in
  match find_trigger regex_match regex_search (g_trigger_patterns g) buffer with
  | Some start => ∃ pieces, concat (snd <$> pieces) = drop start buffer ∧
      ∀ g', accept = Ok g' → ∃ g1 g2, g_stacks g1 = g_stacks g ∧ g_rules g1 = g_rules g ∧
        accept_pieces fuel g1 pieces = Ok g2 ∧ g' = with_trigger g2 false [] []
  | None => ∃ g', accept = Ok g' ∧ buffer_ok g' ∧ g_awaiting_trigger g' = true ∧
      g_trigger_buffer g' = buffer ∧ g_stacks g' = g_stacks g
  end.
Proof.
  intros Haw Hok Htok buffer accept. unfold accept, llama_grammar_accept_impl.
  rewrite Haw, decide_False by done. fold buffer.
  set (positions := g_trigger_buffer_positions g ++ _).
  assert (tiles 0 positions (length buffer)) as Ht.
  { eapply tiles_app; [exact Hok|]. cbn. unfold buffer. rewrite length_app. split_and!; lia. }
  destruct (find_trigger _ _ _ buffer) as [start|].
  - exists (replay_pieces buffer start positions). split.
    + rewrite (replay_pieces_text _ _ _ _ Ht). by rewrite Nat.max_0_r.
    + intros g' H. rewrite replay_tokens_pieces in H. apply bind_Ok in H as (g2 & Hg2 & [= <-]).
      eexists _, g2. by split_and!; [| |exact Hg2|].
  - eexists. split; [done|]. by split_and!.
Qed.

Lemma lazy_accept_witness :
  let g := Grammar [[Elem GRETYPE_CHAR 98; Elem GRETYPE_CHAR 99; Elem GRETYPE_END 0]] [[(0, 0)%nat]]
             (PartialUtf8 0 0) true true [97] [(7, (0, 1)%nat)] [] [TriggerPattern [98]] in
  let piece := λ _ : Z, [97; 98; 99] in
  let search := λ (_ text : bytes), if bool_decide (length text = 4)%nat then Some [(2, 1)%nat] else None in
  match find_trigger (λ _ _, None) search (g_trigger_patterns g) (g_trigger_buffer g ++ piece 8) with
  | Some start => ∃ pieces, concat (snd <$> pieces) = drop start (g_trigger_buffer g ++ piece 8) ∧
      ∀ g', llama_grammar_accept_impl piece (λ _, false) (λ _ _, None) search 9 g 8 = Ok g' →
        ∃ g1 g2, g_stacks g1 = g_stacks g ∧ g_rules g1 = g_rules g ∧
          accept_pieces 9 g1 pieces = Ok g2 ∧ g' = with_trigger g2 false [] []
  | None => ∃ g', llama_grammar_accept_impl piece (λ _, false) (λ _ _, None) search 9 g 8 = Ok g' ∧
      buffer_ok g' ∧ g_awaiting_trigger g' = true ∧
      g_trigger_buffer g' = g_trigger_buffer g ++ piece 8 ∧ g_stacks g' = g_stacks g
  end.
Proof.
  apply (lazy_accept (λ _, [97; 98; 99]) (λ _, false) (λ _ _, None)
    (λ (_ text : bytes), if bool_decide (length text = 4)%nat then Some [(2, 1)%nat] else None) 9
    (Grammar [[Elem GRETYPE_CHAR 98; Elem GRETYPE_CHAR 99; Elem GRETYPE_END 0]] [[(0, 0)%nat]]
       (PartialUtf8 0 0) true true [97] [(7, (0, 1)%nat)] [] [TriggerPattern [98]]) 8).
  - reflexivity.
  - cbn. split_and!; [done|lia|done].
  - cbn. apply not_elem_of_nil.
Defined.
