(* ===== verification/GrammarFindings.v ===== *)
(** * Grammars the code does not handle

    Concrete grammars on which the code departs from what its comments and
    checks intend, with the behaviour of the code on them. *)
From stdpp Require Import pretty.
From S2P Require Import Prelude Utf8 Grammar GrammarSpec GrammarTerm GrammarParser.

(** ** Left recursion through a rule that is empty only indirectly *)

Definition dquote : bytes := [34].
Definition newline : bytes := [10].

(** [root ::= ws root "x" | "y"; ws ::= " "*] *)
Definition indirect_text : bytes :=
  str "root ::= ws root " ++ dquote ++ str "x" ++ dquote ++ str " | " ++ dquote ++ str "y" ++ dquote ++
  newline ++ str "ws ::= " ++ dquote ++ str " " ++ dquote ++ str "*".

(** The rules it is compiled to: 0 is [root], 1 is [ws], 2 the repetition. *)
Definition indirect_rules : llama_grammar_rules :=
  [[Elem GRETYPE_RULE_REF 1; Elem GRETYPE_RULE_REF 0; Elem GRETYPE_CHAR 120; Elem GRETYPE_ALT 0;
    Elem GRETYPE_CHAR 121; Elem GRETYPE_END 0];
   [Elem GRETYPE_RULE_REF 2; Elem GRETYPE_END 0];
   [Elem GRETYPE_CHAR 32; Elem GRETYPE_RULE_REF 2; Elem GRETYPE_ALT 0; Elem GRETYPE_END 0]].

Lemma indirect_step rest :
  rtc (stack_step indirect_rules) ((0, 0)%nat :: rest) ((0, 0)%nat :: (0, 2)%nat :: rest).
Proof.
  eapply rtc_l; [by eapply (StackStep _ (0, 0)%nat rest _ _ [0%nat] 0%nat); try done; left|].
  eapply rtc_l; [by eapply (StackStep _ (1, 0)%nat ((0, 1)%nat :: rest) _ _ [0%nat; 3%nat] 3%nat); try done; right; left|].
  eapply rtc_l; [by eapply (StackStep _ (0, 1)%nat rest _ _ [0%nat; 4%nat] 0%nat); try done; left|].
  apply rtc_refl.
Qed.

Lemma indirect_grows n :
  rtc (stack_step indirect_rules) [(0, 0)%nat] ((0, 0)%nat :: replicate n (0, 2)%nat).
Proof.
  induction n as [|n IH]; [apply rtc_refl|]. etrans; [exact IH|].
  cbn [replicate]. apply indirect_step.
Qed.

Lemma indirect_diverges fuel acc out :
  llama_grammar_advance_stack fuel indirect_rules [(0, 0)%nat] acc = Ok out → False.
Proof.
  intros H. destruct (advance_loop_inv _ _ _ _ _ _ _ _ H (advance_inv_init _ _ _)) as [seen Hinv].
  assert (∀ s, rtc (stack_step indirect_rules) [(0, 0)%nat] s → s ∈ seen) as Hall.
  { intros s Hrtc. destruct (ai_start _ _ _ _ _ _ Hinv) as [H0|H0%not_elem_of_nil]; [|done].
    revert H0. generalize [(0, 0)%nat] as st0, Hrtc. clear H Hrtc.
    intros st0. induction 1 as [|x y z Hxy _ IH]; [done|]. intros Hx. apply IH.
    destruct (ai_step _ _ _ _ _ _ Hinv x y Hx Hxy) as [|Hn%not_elem_of_nil]; done. }
  pose proof (Hall _ (indirect_grows (max_list (length <$> seen)))) as Hin.
  apply (list_elem_of_fmap_2 length), max_list_elem_of_le in Hin.
  cbn in Hin. rewrite length_replicate in Hin. lia.
Qed.

(** C9. The check only sees rules with an empty alternate of their own as
    possibly empty.  In the text [indirect_text] the rule [root] is left
    recursive behind [ws], which derives the empty word through its repetition;
    the check accepts the compiled rules, and the construction of the grammar
    then expands stacks for ever, whatever the fuel. *)
Theorem indirect_left_recursion_missed :
  (∃ p, parse None 1 indirect_text = Ok (Some p) ∧ p_rules p = indirect_rules) ∧
  check_left_recursion 4 indirect_rules (seq 0 3) (lr_initial 3) = Ok false ∧
  left_edge indirect_rules 0 0 ∧
  ∀ fuel, llama_grammar_init_rules fuel indirect_rules 0 false [] [] = Err NoFuel.
Proof.
  split_and!; [eexists; split; vm_compute; reflexivity|done| |].
  - exists 1%nat, (Elem GRETYPE_RULE_REF 0). split_and!; [|done..].
    apply (LeftNext _ 0 0 (Elem GRETYPE_RULE_REF 1)); [|done|done|].
    + by apply (LeftStart _ 0 [0; 4]%nat); [|left].
    + exists [0%nat], 0%nat. split_and!; [done|by left|]. change (@nil Z) with (@nil Z ++ []).
      eapply (DerivesRef _ _ _ _ [0%nat; 3%nat] 3%nat); [done..|by right; left| |]; by eapply DerivesEnd.
  - intros fuel. unfold llama_grammar_init_rules.
    replace (mapM copy_rule indirect_rules) with (Ok indirect_rules) by done. cbn [mbind res_bind].
    replace (check_left_recursion _ indirect_rules _ _) with (Ok false) by done. cbn [mbind res_bind].
    replace (at_ indirect_rules 0) with (Ok (nth 0 indirect_rules [])) by done. cbn [mbind res_bind].
    replace (alt_starts _ 0 0) with (Ok [0; 4]%nat) by done. cbn [mbind res_bind init_stacks].
    replace (push_unless_end indirect_rules (0, 0)%nat []) with (Ok [(0, 0)%nat]) by done. cbn [mbind res_bind].
    destruct (advance_loop_safe indirect_rules eq_refl fuel [[(0, 0)%nat]] [] []) as [Hn|(out & Hout & _)].
    + repeat constructor; by eexists.
    + constructor.
    + unfold llama_grammar_advance_stack. by rewrite Hn.
    + by apply indirect_diverges in Hout.
Qed.

(** ** Token elements behind characters *)

(** [root ::= "a" <[5]>] with the token 5 written "ab". *)
Definition token_rules : llama_grammar_rules :=
  [[Elem GRETYPE_CHAR 97; Elem GRETYPE_TOKEN 5; Elem GRETYPE_END 0]].

(** A candidate that reaches a token element in the middle of its text is
    let through when its id is the element's, although the element must match a
    whole token: the token is not masked, and accepting it throws. *)
Theorem token_element_mid_token :
  let g := Grammar token_rules [[(0, 0)%nat]] (PartialUtf8 0 0) false false [] [] [] [] in
  llama_grammar_init_rules 20 token_rules 0 false [] [] = Ok (Some g) ∧
  llama_grammar_sample_impl (λ _, [97; 98]) (λ _, false) 20 0 4 g [(5, 1)] = Ok [(5, 1)] ∧
  llama_grammar_accept_impl (λ _, [97; 98]) (λ _, false) (λ _ _, None) (λ _ _, None) 20 g 5 =
    Err (Throw "Unexpected empty grammar stack after accepting piece").
Proof. repeat split; reflexivity. Qed.

(** ** Symbols without rules *)

(** A start symbol that only occurs in a repetition of zero times has a
    number but no rule; the text is accepted, and the construction of the
    grammar reads behind the end of the table of rules. *)
Theorem start_symbol_without_rule fuel :
  llama_grammar_init_str None fuel (str "x ::= root{0}") (str "root") false [] [] = Err Oob.
Proof. destruct fuel; vm_compute; reflexivity. Qed.

(** ** Repetitions with reversed bounds *)

Lemma reversed_repeat fuel rule_name st :
  Z.of_nat fuel < 2 ^ 64 - 1 → sq_last_sym_start st ≠ length (sq_rule st) → sq_n_prev_rules st = 1 →
  handle_repetitions fuel rule_name 3 2 st = Err NoFuel.
Proof.
  intros Hfuel Hs Hn. unfold handle_repetitions. cbv zeta. rewrite (bool_decide_false _ Hs), Hn.
  change (bool_decide (2 = UINT64_MAX)) with false. cbn [negb andb].
  change (bool_decide (0 < 2)) with true. cbn iota.
  change (bool_decide (MAX_REPETITION_THRESHOLD ≤ u64 (1 * 2))) with false. cbn iota.
  change (u64 (2 - 3)) with (2 ^ 64 - 1). by rewrite bool_decide_true.
Qed.

Lemma sequence_step_brace fuel parse_alternates rule_name is_nested st mn mx pos :
  peek (sq_pos st) = 123 → parse_bounds (adv (sq_pos st) 1) is_nested = Ok (mn, mx, pos) →
  sequence_step None fuel parse_alternates rule_name is_nested st =
    (st ← handle_repetitions fuel rule_name mn mx
            (SeqState (sq_parser st) pos (sq_rule st) (sq_last_sym_start st) (sq_n_prev_rules st));
     mret (Some st)).
Proof. intros Hpk Hb. unfold sequence_step. rewrite Hpk, Hb. reflexivity. Qed.

Lemma reversed_sequence fuel d p p' :
  Z.of_nat fuel < 2 ^ 64 - 1 → get_symbol_id p (str "a") = (1, p') →
  sequence_loop None fuel (S (S d)) (str "x") false (SeqState p (str "a{3,2}") [] 0 1) = Err NoFuel.
Proof.
  intros Hfuel Hp. set (st1 := SeqState p' (str "{3,2}") [Elem GRETYPE_RULE_REF 1] 0 1).
  assert (∀ pa, sequence_step None fuel pa (str "x") false (SeqState p (str "a{3,2}") [] 0 1) = Ok (Some st1)) as H1.
  { intros pa. unfold sequence_step. cbn [sq_pos sq_parser sq_rule].
    replace (parse_name (str "a{3,2}")) with (Ok (str "a", str "{3,2}")) by reflexivity.
    cbn -[get_symbol_id str]. rewrite Hp. reflexivity. }
  assert (∀ pa, sequence_step None fuel pa (str "x") false st1 = Err NoFuel) as H2.
  { intros pa. rewrite (sequence_step_brace _ _ _ _ _ 3 2 []) by reflexivity. by rewrite reversed_repeat. }
  cbn [sequence_loop]. rewrite bool_decide_false by (intros H; vm_compute in H; done).
  rewrite H1. cbn [mbind res_bind].
  rewrite bool_decide_false by (intros H; vm_compute in H; done). by rewrite H2.
Qed.

(** The lower bound of a repetition is not compared with the upper bound: for
    [{3,2}] the count of optional rules is 2 - 3 modulo 2^64, and parsing a
    ten-character rule does not end before that many rules are generated. *)
Theorem reversed_bounds_exhaust fuel :
  Z.of_nat fuel < 2 ^ 64 - 1 → parse None fuel (str "x ::= a{3,2}") = Err NoFuel.
Proof.
  intros Hfuel.
  set (p1 := snd (get_symbol_id (Parser ∅ []) (str "x"))).
  assert (parse_rule None fuel (Parser ∅ []) (str "x ::= a{3,2}") = Err NoFuel) as Hrule.
  { unfold parse_rule. replace (parse_name _) with (Ok (str "x", str " ::= a{3,2}")) by reflexivity.
    cbn [mbind res_bind]. replace (get_symbol_id _ _) with (0, p1) by (vm_compute; reflexivity).
    replace (parse_space (str " ::= a{3,2}") false) with (str "::= a{3,2}") by reflexivity.
    replace (parse_space (adv _ 3) true) with (str "a{3,2}") by reflexivity.
    replace (negb _) with false by reflexivity.
    unfold parse_alternates, parse_alternates_with, parse_sequence.
    change (S (length (str "a{3,2}"))) with 7%nat. cbn [length].
    rewrite (reversed_sequence fuel 5 p1 (snd (get_symbol_id p1 (str "a")))); [done|done|].
    vm_compute. reflexivity. }
  unfold parse. replace (parse_space _ true) with (str "x ::= a{3,2}") by reflexivity.
  cbn [length parse_rules]. rewrite bool_decide_false by (intros H; vm_compute in H; done).
  by rewrite Hrule.
Qed.

Lemma reversed_bounds_exhaust_witness :
  Z.of_nat 2000 < 2 ^ 64 - 1 ∧ parse None 2000 (str "x ::= a{3,2}") = Err NoFuel.
Proof. split; [lia|]. apply (reversed_bounds_exhaust 2000). lia. Defined.
