(* ===== verification/KvCache.v ===== *)
(** * The KV cache

    The cells of the unified KV cache of [src/llama.cpp] (declared in
    [src/llama-context.h]): the search for a slot, the sequence operations, the
    compaction of sliding-window layers, the defragmentation and the views.

    [cells] always has [size] entries ([llama_kv_cache_init] resizes it), so the
    loops over [i < size] run over the list.  The data of the key and value
    tensors is not part of the state, except for the rows the compaction moves. *)
From S2P Require Import Prelude.

(** ** Data *)

Definition LLAMA_TOKEN_NULL : Z := -1.

Record llama_kv_cell := Cell {
  c_pos : Z; c_delta : Z; c_src : Z; c_token : Z;
  c_qsa_pos : Z; c_pos_h : Z; c_pos_w : Z; c_pos_e : Z;
  c_seq_id : gset Z }.

(** [llama_kv_cell()]. *)
Definition default_cell : llama_kv_cell := Cell (-1) 0 0 LLAMA_TOKEN_NULL (-1) 0 0 0 ∅.

Definition has_seq_id (c : llama_kv_cell) (id : Z) : bool := bool_decide (id ∈ c_seq_id c).
Definition is_empty (c : llama_kv_cell) : bool := bool_decide (c_seq_id c = ∅).
Definition is_same_seq (c other : llama_kv_cell) : bool := bool_decide (c_seq_id c = c_seq_id other).

Definition with_seq (c : llama_kv_cell) (s : gset Z) : llama_kv_cell :=
  Cell (c_pos c) (c_delta c) (c_src c) (c_token c) (c_qsa_pos c) (c_pos_h c) (c_pos_w c) (c_pos_e c) s.
Definition with_pos (c : llama_kv_cell) (p : Z) : llama_kv_cell :=
  Cell p (c_delta c) (c_src c) (c_token c) (c_qsa_pos c) (c_pos_h c) (c_pos_w c) (c_pos_e c) (c_seq_id c).
Definition with_src (c : llama_kv_cell) (s : Z) : llama_kv_cell :=
  Cell (c_pos c) (c_delta c) s (c_token c) (c_qsa_pos c) (c_pos_h c) (c_pos_w c) (c_pos_e c) (c_seq_id c).

(** The assignments that free a cell; [src] and [delta] stay. *)
Definition freed_cell (c : llama_kv_cell) : llama_kv_cell :=
  Cell (-1) (c_delta c) (c_src c) LLAMA_TOKEN_NULL (-1) 0 0 0 (c_seq_id c).

Record llama_kv_cache := KvCache {
  kv_has_shift : bool; kv_do_defrag : bool; kv_do_copy : bool;
  kv_recurrent : bool; kv_mrope : bool; kv_qsa : bool;
  kv_s_l_position_strict : bool;
  kv_state_slots : Z;          (** [ne[1]] of the tensors of [s_l], 0 without one *)
  kv_head : Z; kv_size : Z; kv_used : Z; kv_n : Z;
  kv_row_count : list Z;
  kv_size_swa : Z; kv_sink_rows : Z; kv_window_swa : Z; kv_head_swa : Z; kv_pos_base_swa : Z;
  kv_cells : list llama_kv_cell }.

Definition with_state (kv : llama_kv_cache) (head used : Z) (cells : list llama_kv_cell) : llama_kv_cache :=
  KvCache (kv_has_shift kv) (kv_do_defrag kv) (kv_do_copy kv) (kv_recurrent kv) (kv_mrope kv) (kv_qsa kv)
    (kv_s_l_position_strict kv) (kv_state_slots kv) head (kv_size kv) used (kv_n kv) (kv_row_count kv)
    (kv_size_swa kv) (kv_sink_rows kv) (kv_window_swa kv) (kv_head_swa kv) (kv_pos_base_swa kv) cells.
Definition with_flags (kv : llama_kv_cache) (has_shift do_defrag do_copy : bool) : llama_kv_cache :=
  KvCache has_shift do_defrag do_copy (kv_recurrent kv) (kv_mrope kv) (kv_qsa kv)
    (kv_s_l_position_strict kv) (kv_state_slots kv) (kv_head kv) (kv_size kv) (kv_used kv) (kv_n kv) (kv_row_count kv)
    (kv_size_swa kv) (kv_sink_rows kv) (kv_window_swa kv) (kv_head_swa kv) (kv_pos_base_swa kv) (kv_cells kv).
Definition with_n (kv : llama_kv_cache) (n : Z) : llama_kv_cache :=
  KvCache (kv_has_shift kv) (kv_do_defrag kv) (kv_do_copy kv) (kv_recurrent kv) (kv_mrope kv) (kv_qsa kv)
    (kv_s_l_position_strict kv) (kv_state_slots kv) (kv_head kv) (kv_size kv) (kv_used kv) n (kv_row_count kv)
    (kv_size_swa kv) (kv_sink_rows kv) (kv_window_swa kv) (kv_head_swa kv) (kv_pos_base_swa kv) (kv_cells kv).
Definition with_swa (kv : llama_kv_cache) (head_swa pos_base_swa : Z) : llama_kv_cache :=
  KvCache (kv_has_shift kv) (kv_do_defrag kv) (kv_do_copy kv) (kv_recurrent kv) (kv_mrope kv) (kv_qsa kv)
    (kv_s_l_position_strict kv) (kv_state_slots kv) (kv_head kv) (kv_size kv) (kv_used kv) (kv_n kv) (kv_row_count kv)
    (kv_size_swa kv) (kv_sink_rows kv) (kv_window_swa kv) head_swa pos_base_swa (kv_cells kv).

(** ** Geometry *)

Definition get_padding (flash_attn : bool) : Z := if flash_attn then 256 else 32.

Definition any_compacted (kv : llama_kv_cache) : bool := negb (bool_decide (kv_row_count kv = [])).

Definition rows (kv : llama_kv_cache) (il : nat) : res Z :=
  if any_compacted kv then at_ (kv_row_count kv) il else Ok (kv_size kv).

Definition is_compacted (kv : llama_kv_cache) (il : nat) : res bool :=
  if any_compacted kv then r ← at_ (kv_row_count kv) il; mret (bool_decide (r < kv_size kv)) else Ok false.

Definition live_swa (kv : llama_kv_cache) : Z := u32 (kv_head_swa kv - kv_sink_rows kv).

(** The window a layer with sliding attention reads; divisions of [int64_t]
    truncate. *)
Record llama_swa_window_view := WindowView { wv_w_view : Z; wv_win_off : Z; wv_engaged : bool }.

Definition pad_up (x pad : Z) : Z := if bool_decide (1 < pad) then Z.quot (x + pad - 1) pad * pad else x.

Definition llama_swa_calc_window_view (n_kv n_tokens window pad : Z) : llama_swa_window_view :=
  if bool_decide (window ≤ 0) || bool_decide (n_kv ≤ 0) then WindowView n_kv 0 false
  else
    let overcovered := pad_up (window + pad + n_tokens) pad in
    let w_view := if bool_decide (overcovered < n_kv) then overcovered else n_kv in
    WindowView w_view (n_kv - w_view) (bool_decide (w_view < n_kv)).

Definition llama_swa_calc_window_view_compact (live sink_rows n_tokens window pad : Z)
    : llama_swa_window_view :=
  let live_padded := pad_up live pad in
  let overcovered := pad_up (window + pad + n_tokens) pad in
  let w_view := if bool_decide (overcovered < live_padded) then overcovered else live_padded in
  WindowView w_view (sink_rows + live_padded - w_view) true.

(** ** Storage of recurrent states *)

Definition llama_kv_has_qnext_state_storage (kv : llama_kv_cache) : bool :=
  if kv_s_l_position_strict kv then false else bool_decide (0 < kv_state_slots kv).

Definition llama_kv_qnext_seq_id_in_range (kv : llama_kv_cache) (seq_id : Z) : bool :=
  bool_decide (0 < kv_state_slots kv) && bool_decide (0 ≤ seq_id) &&
  bool_decide (u32 seq_id < kv_state_slots kv).

(** ** Batches *)

(** [seq_id[i]] with its length [n_seq_id[i]] is one list per token. *)
Record llama_batch := Batch {
  b_token : option (list Z);
  b_pos : list Z;
  b_seq_id : list (list Z) }.

Definition n_tokens (b : llama_batch) : nat := length (b_seq_id b).

(** ** Finding a slot *)

(** What the recurrent case accumulates: the cells, [used], and the range of sequences so far. *)
Record recurrent_acc := RecurrentAcc {
  ra_cells : list llama_kv_cell; ra_used : Z; ra_min : Z; ra_max : Z }.

(** The sequences of one token: [None] for a sequence id that is too big. *)
Fixpoint recurrent_token (size : Z) (b : llama_batch) (i : nat) (seqs : list Z) (a : recurrent_acc)
    : res (bool * recurrent_acc) :=
  match seqs with
  | [] => Ok (true, a)
  | seq_id :: seqs' =>
    if bool_decide (u32 seq_id < size) then
      let max := if bool_decide (ra_max a < seq_id) then seq_id else ra_max a in
      let min := if bool_decide (seq_id < ra_min a) then seq_id else ra_min a in
      pos ← at_ (b_pos b) i;
      cell ← at_ (ra_cells a) (Z.to_nat seq_id);
      let used := if bool_decide (c_pos cell < 0) && bool_decide (0 ≤ pos)
                  then u32 (ra_used a + 1) else ra_used a in
      cells ← put (ra_cells a) (Z.to_nat seq_id) (with_pos cell pos);
      recurrent_token size b i seqs' (RecurrentAcc cells used min max)
    else Ok (false, a)
  end.

Fixpoint recurrent_tokens (size : Z) (b : llama_batch) (i : nat) (toks : list (list Z)) (a : recurrent_acc)
    : res (bool * recurrent_acc) :=
  match toks with
  | [] => Ok (true, a)
  | seqs :: toks' =>
    '(ok, a) ← recurrent_token size b i seqs a;
    if ok : bool then recurrent_tokens size b (S i) toks' a else Ok (false, a)
  end.

(** The index of the first cell in use among the next [n]. *)
Fixpoint first_taken (cells : list llama_kv_cell) (n : nat) : res (option nat) :=
  match n with
  | O => Ok None
  | S n' =>
    match cells with
    | [] => Err Oob
    | c :: cells' =>
      if bool_decide (0 ≤ c_pos c) then Ok (Some O)
      else r ← first_taken cells' n'; mret (option_map S r)
    end
  end.

(** The search: whether a slot was found, and [head]. *)
Fixpoint slot_search (fuel : nat) (size : Z) (cells : list llama_kv_cell) (n : nat) (head n_tested : Z)
    : res (bool * Z) :=
  match fuel with
  | O => Err NoFuel
  | S fuel' =>
    if bool_decide (size < u32 (head + Z.of_nat n)) then
      slot_search fuel' size cells n 0 (u32 (n_tested + (size - head)))
    else
      r ← first_taken (drop (Z.to_nat head) cells) n;
      match r with
      | None => Ok (true, head)
      | Some i =>
        let head := u32 (head + (Z.of_nat i + 1)) in
        let n_tested := u32 (n_tested + (Z.of_nat i + 1)) in
        if bool_decide (size ≤ n_tested) then Ok (false, head)
        else slot_search fuel' size cells n head n_tested
      end
  end.

(** The largest logical position of every sequence. *)
Definition qsa_max_insert (q : Z) (m : gmap Z Z) (seq_id : Z) : gmap Z Z :=
  <[seq_id := match m !! seq_id with Some p => Z.max p q | None => q end]> m.

Fixpoint qsa_max_of (cells : list llama_kv_cell) (m : gmap Z Z) : gmap Z Z :=
  match cells with
  | [] => m
  | c :: cells' =>
    qsa_max_of cells'
      (if is_empty c || bool_decide (c_qsa_pos c < 0) then m
       else fold_left (qsa_max_insert (c_qsa_pos c)) (elements (c_seq_id c)) m)
  end.

(** The logical position of a token that belongs to [seqs]. *)
Definition qsa_logical (m : gmap Z Z) (seqs : list Z) : Z :=
  fold_left (λ logical s, match m !! s with Some p => Z.max logical (p + 1) | None => logical end) seqs 0.

(** Filling the slot from [head] on; [i] tokens are done. *)
Fixpoint fill_slot (kv : llama_kv_cache) (b : llama_batch) (embd_token : Z) (set_position_metadata : bool)
    (n i : nat) (qsa_max : gmap Z Z) (cells : list llama_kv_cell) : res (list llama_kv_cell) :=
  match n with
  | O => Ok cells
  | S n' =>
    let idx := (Z.to_nat (kv_head kv) + i)%nat in
    cell ← at_ cells idx;
    pos ← at_ (b_pos b) i;
    token ← match b_token b with Some toks => at_ toks i | None => Ok embd_token end;
    '(ph, pw, pe) ←
      (if set_position_metadata && kv_mrope kv then
         ph ← at_ (b_pos b) (n_tokens b + i);
         pw ← at_ (b_pos b) (2 * n_tokens b + i);
         pe ← at_ (b_pos b) (3 * n_tokens b + i);
         mret (ph, pw, pe)
       else Ok (pos, pos, 0));
    seqs ← at_ (b_seq_id b) i;
    let qsa := kv_qsa kv && set_position_metadata in
    let logical := if qsa then qsa_logical qsa_max seqs else pos in
    let qsa_max := if qsa then fold_left (λ m s, <[s := logical]> m) seqs qsa_max else qsa_max in
    let cell := Cell pos (c_delta cell) (c_src cell) token logical ph pw pe
                  (c_seq_id cell ∪ list_to_set seqs) in
    cells ← put cells idx cell;
    fill_slot kv b embd_token set_position_metadata n' (S i) qsa_max cells
  end.

(** [llama_kv_cache_find_slot]: the result and the cache, which has a new head
    also when no slot is found. *)
Definition llama_kv_cache_find_slot (kv : llama_kv_cache) (b : llama_batch) (embd_token : Z)
    (set_position_metadata : bool) : res (bool * llama_kv_cache) :=
  let n := n_tokens b in
  if kv_recurrent kv then
    '(ok, a) ← recurrent_tokens (kv_size kv) b 0 (b_seq_id b)
                 (RecurrentAcc (kv_cells kv) (kv_used kv) (i32 (kv_size kv - 1)) 0);
    if ok : bool then
      let kv := with_state kv (u32 (ra_min a)) (ra_used a) (ra_cells a) in
      mret (bool_decide (ra_min a ≤ ra_max a), with_n kv (u32 (ra_max a - ra_min a + 1)))
    else mret (false, with_state kv (kv_head kv) (ra_used a) (ra_cells a))
  else if bool_decide (kv_size kv < Z.of_nat n) then Ok (false, kv)
  else
    '(found, head) ← slot_search (Z.to_nat (2 * kv_size kv + 4)) (kv_size kv) (kv_cells kv) n (kv_head kv) 0;
    let kv := with_state kv head (kv_used kv) (kv_cells kv) in
    if negb found then Ok (false, kv)
    else
      let qsa_max := if kv_qsa kv && set_position_metadata then qsa_max_of (kv_cells kv) ∅ else ∅ in
      cells ← fill_slot kv b embd_token set_position_metadata n 0 qsa_max (kv_cells kv);
      mret (true, with_state kv (kv_head kv) (u32 (kv_used kv + Z.of_nat n)) cells).

(** ** Use of the cells *)

Definition cell_live (c : llama_kv_cell) : bool := bool_decide (0 ≤ c_pos c) && negb (is_empty c).

(** [cell_max]: the loop counts down from the end of the cells. *)
Fixpoint cell_max_from (rev_cells : list llama_kv_cell) : Z :=
  match rev_cells with
  | [] => 0
  | c :: cells' => if cell_live c then Z.of_nat (length rev_cells) else cell_max_from cells'
  end.

Definition llama_kv_cache_cell_max (kv : llama_kv_cache) : Z := cell_max_from (rev (kv_cells kv)).

(** The padded search: [i] steps down by [pad]; [j] looks for the last cell in
    [(i, last]]. *)
Fixpoint cell_max_between (n : nat) (cells : list llama_kv_cell) (j : nat) : res (option nat) :=
  match n with
  | O => Ok None
  | S n' =>
    c ← at_ cells (j - 1);
    if cell_live c then Ok (Some j) else cell_max_between n' cells (j - 1)
  end.

Fixpoint cell_max_padded (fuel : nat) (cells : list llama_kv_cell) (i last pad : nat) : res Z :=
  match fuel with
  | O => Err NoFuel
  | S fuel' =>
    if bool_decide (i = 0)%nat then Ok 0
    else
      c ← at_ cells (i - 1);
      if cell_live c then
        r ← cell_max_between (last - i) cells last;
        mret (Z.of_nat (default i r))
      else if bool_decide (pad ≤ i)%nat then cell_max_padded fuel' cells (i - pad) i pad
      else Err Oob (* [i -= pad] wraps below 0 *)
  end.

Definition llama_kv_cache_cell_max_pad (kv : llama_kv_cache) (pad : nat) : res Z :=
  cell_max_padded (S (length (kv_cells kv))) (kv_cells kv) (length (kv_cells kv)) (length (kv_cells kv)) pad.

Definition llama_get_kv_cache_token_count (kv : llama_kv_cache) : Z :=
  fold_left (λ n c, n + Z.of_nat (size (c_seq_id c))) (kv_cells kv) 0.

Definition llama_get_kv_cache_used_cells (kv : llama_kv_cache) : Z := kv_used kv.

(** ** Clearing *)

Fixpoint clear_cells (i : nat) (cells : list llama_kv_cell) : list llama_kv_cell :=
  match cells with
  | [] => []
  | c :: cells' =>
    Cell (-1) (c_delta c) (Z.of_nat i) LLAMA_TOKEN_NULL (-1) 0 0 0 ∅ :: clear_cells (S i) cells'
  end.

(** [llama_kv_cache_clear], less the clearing of the buffers. *)
Definition llama_kv_cache_clear (kv : llama_kv_cache) : llama_kv_cache :=
  with_swa (with_state kv 0 0 (clear_cells 0 (kv_cells kv))) (kv_sink_rows kv) 0.

(** ** Removing sequences *)

Definition POS_MAX : Z := 2 ^ 31 - 1.
Definition POS_MIN : Z := - 2 ^ 31.

(** The range [[p0, p1)] with negative bounds replaced. *)
Definition range_lo (p0 : Z) : Z := if bool_decide (p0 < 0) then 0 else p0.
Definition range_hi (p1 : Z) : Z := if bool_decide (p1 < 0) then POS_MAX else p1.
Definition in_range (c : llama_kv_cell) (p0 p1 : Z) : bool :=
  bool_decide (p0 ≤ c_pos c) && bool_decide (c_pos c < p1).

Record llama_kv_cache_seq_rm_effect := RmEffect {
  qsa_pooled_seq : Z; seq_membership_removed : bool; qsa_pool_preserved : bool }.

(** What the loop over the cells accumulates. *)
Record rm_acc := RmAcc {
  rm_used : Z; rm_new_head : Z; rm_removed : bool;
  rm_max_retained : Z; rm_min_removed : Z; rm_member_removed : bool; rm_position_invalid : bool }.

(** Tracking of the pooled sequence for the caller. *)
Definition rm_track (effect : option llama_kv_cache_seq_rm_effect) (seq_id : Z) (c : llama_kv_cell)
    (p0 p1 : Z) (a : rm_acc) : rm_acc :=
  match effect with
  | None => a
  | Some e =>
    let pooled := qsa_pooled_seq e in
    if negb (is_empty c) && bool_decide (0 ≤ pooled) && has_seq_id c pooled then
      if in_range c p0 p1 && (bool_decide (seq_id < 0) || bool_decide (seq_id = pooled)) then
        if bool_decide (c_qsa_pos c < 0)
        then RmAcc (rm_used a) (rm_new_head a) (rm_removed a) (rm_max_retained a) (rm_min_removed a) true true
        else RmAcc (rm_used a) (rm_new_head a) (rm_removed a) (rm_max_retained a)
               (Z.min (rm_min_removed a) (c_qsa_pos c)) true (rm_position_invalid a)
      else if bool_decide (c_qsa_pos c < 0)
      then RmAcc (rm_used a) (rm_new_head a) (rm_removed a) (rm_max_retained a) (rm_min_removed a)
             (rm_member_removed a) true
      else RmAcc (rm_used a) (rm_new_head a) (rm_removed a)
             (Z.max (rm_max_retained a) (c_qsa_pos c)) (rm_min_removed a)
             (rm_member_removed a) (rm_position_invalid a)
    else a
  end.

(** One cell of the loop: [i] is its index. *)
Definition rm_cell (kv : llama_kv_cache) (tracked : bool) (seq_id p0 p1 : Z) (i : nat) (c : llama_kv_cell)
    (a : rm_acc) : llama_kv_cell * rm_acc :=
  let target := negb (is_empty c) && bool_decide (0 ≤ seq_id) && has_seq_id c seq_id in
  if in_range c p0 p1 && (bool_decide (seq_id < 0) || target) then
    let removed := rm_removed a || (tracked && (if bool_decide (seq_id < 0) then negb (is_empty c) else true)) in
    let c := with_seq c (if bool_decide (seq_id < 0) then ∅ else c_seq_id c ∖ {[seq_id]}) in
    if is_empty c then
      let used := if bool_decide (0 ≤ c_pos c) then u32 (rm_used a - 1) else rm_used a in
      let new_head := if bool_decide (rm_new_head a = kv_size kv) then Z.of_nat i else rm_new_head a in
      let c := freed_cell c in
      (if llama_kv_has_qnext_state_storage kv then with_src c (Z.of_nat i) else c,
       RmAcc used new_head removed (rm_max_retained a) (rm_min_removed a) (rm_member_removed a) (rm_position_invalid a))
    else (c, RmAcc (rm_used a) (rm_new_head a) removed (rm_max_retained a) (rm_min_removed a)
               (rm_member_removed a) (rm_position_invalid a))
  else (c, a).

Fixpoint rm_loop (kv : llama_kv_cache) (effect : option llama_kv_cache_seq_rm_effect) (seq_id p0 p1 : Z)
    (i : nat) (cells : list llama_kv_cell) (a : rm_acc) : list llama_kv_cell * rm_acc :=
  match cells with
  | [] => ([], a)
  | c :: cells' =>
    let '(c', a) := rm_cell kv (bool_decide (effect ≠ None)) seq_id p0 p1 i c (rm_track effect seq_id c p0 p1 a) in
    let '(cs, a) := rm_loop kv effect seq_id p0 p1 (S i) cells' a in
    (c' :: cs, a)
  end.

(** The refusal of recurrent models: a state cannot be erased in part. *)
Definition rm_recurrent_refused (kv : llama_kv_cache) (seq_id p0 p1 : Z) : res bool :=
  if bool_decide (kv_size kv ≤ seq_id) then Ok true
  else if bool_decide (0 ≤ seq_id) then
    cell ← at_ (kv_cells kv) (Z.to_nat seq_id);
    mret ((bool_decide (0 < p0) && bool_decide (p0 ≤ c_pos cell)) ||
          (bool_decide (0 < p1) && bool_decide (p1 ≤ c_pos cell)))
  else Ok (negb (bool_decide (p0 = p1)) &&
           (negb (bool_decide (p0 = 0)) || negb (bool_decide (p1 = POS_MAX)))).

(** What a compacted cache does: refuse, leave its window alone, or move its end. *)
Inductive rm_compact : Type :=
  | CompactRefuse
  | CompactKeep
  | CompactApply (head : Z) (base : Z).

Definition rm_compact_decision (kv : llama_kv_cache) (seq_id p0 p1 : Z) : res rm_compact :=
  if any_compacted kv && bool_decide (seq_id ≤ 0) && bool_decide (p0 < p1) then
    let cur_end := i32 (kv_pos_base_swa kv + live_swa kv) in
    _ ← ggml_assert (bool_decide (0 < live_swa kv) || bool_decide (kv_pos_base_swa kv = 0));
    if bool_decide (p0 < cur_end) && bool_decide (kv_pos_base_swa kv < p1) then
      if bool_decide (p1 < cur_end) then Ok CompactRefuse
      else if bool_decide (p0 = 0) then Ok (CompactApply (kv_sink_rows kv) 0)
      else if bool_decide (kv_pos_base_swa kv = 0) ||
              bool_decide (kv_pos_base_swa kv + kv_window_swa kv ≤ p0)
      then Ok (CompactApply (u32 (kv_sink_rows kv + u32 (p0 - kv_pos_base_swa kv))) (kv_pos_base_swa kv))
      else Ok CompactRefuse
    else Ok CompactKeep
  else Ok CompactKeep.

(** [llama_kv_cache_seq_rm]: the result, the cache and the effect. *)
Definition llama_kv_cache_seq_rm (kv : llama_kv_cache) (seq_id p0 p1 : Z)
    (effect : option llama_kv_cache_seq_rm_effect)
    : res (bool * llama_kv_cache * option llama_kv_cache_seq_rm_effect) :=
  let p0 := range_lo p0 in
  let p1 := range_hi p1 in
  refused ← (if kv_recurrent kv then rm_recurrent_refused kv seq_id p0 p1 else Ok false);
  if refused : bool then Ok (false, kv, effect)
  else
    compact ← rm_compact_decision kv seq_id p0 p1;
    match compact with
    | CompactRefuse => Ok (false, kv, effect)
    | _ =>
      let '(cells, a) := rm_loop kv effect seq_id p0 p1 0 (kv_cells kv)
        (RmAcc (kv_used kv) (kv_size kv)
           (match effect with Some e => seq_membership_removed e | None => false end)
           POS_MIN POS_MAX false false) in
      let applied := match compact with CompactApply _ _ => true | _ => false end in
      let effect := match effect with
        | None => None
        | Some e => Some (RmEffect (qsa_pooled_seq e) (rm_removed a)
            (if rm_removed a then
               negb applied && bool_decide (0 ≤ qsa_pooled_seq e) && negb (rm_position_invalid a) &&
               (negb (rm_member_removed a) || bool_decide (rm_max_retained a < rm_min_removed a))
             else qsa_pool_preserved e))
        end in
      let head := if negb (bool_decide (rm_new_head a = kv_size kv)) && bool_decide (rm_new_head a < kv_head kv)
                  then rm_new_head a else kv_head kv in
      let kv := with_state kv head (rm_used a) cells in
      Ok (true, match compact with CompactApply h b => with_swa kv h b | _ => kv end, effect)
    end.

(** ** Copying, keeping *)

Definition cp_cell (src dst p0 p1 : Z) (c : llama_kv_cell) : llama_kv_cell :=
  if has_seq_id c src && in_range c p0 p1 then with_seq c (c_seq_id c ∪ {[dst]}) else c.

(** The recurrent case of [seq_cp]: the destination slot copies the state of the
    source of the source slot. *)
Definition cp_recurrent (kv : llama_kv_cache) (seq_id_src seq_id_dst : Z) : res llama_kv_cache :=
  if bool_decide (u32 seq_id_dst < kv_size kv) && bool_decide (u32 seq_id_src < kv_size kv) then
    slot ← at_ (kv_cells kv) (Z.to_nat seq_id_src);
    let src := c_src slot in
    _ ← ggml_assert (bool_decide (u32 src < kv_size kv));
    from ← at_ (kv_cells kv) (Z.to_nat src);
    to ← at_ (kv_cells kv) (Z.to_nat seq_id_dst);
    let cells := <[Z.to_nat seq_id_dst := with_src to src]> (kv_cells kv) in
    from ← at_ cells (Z.to_nat src);
    to ← at_ cells (Z.to_nat seq_id_dst);
    let to := with_seq to (if has_seq_id from src then c_seq_id to ∪ {[seq_id_dst]} else c_seq_id to ∖ {[seq_id_dst]}) in
    let cells := <[Z.to_nat seq_id_dst := to]> cells in
    from ← at_ cells (Z.to_nat src);
    let cells := <[Z.to_nat seq_id_dst := with_pos to (c_pos from)]> cells in
    mret (with_flags (with_state kv (kv_head kv) (kv_used kv) cells) (kv_has_shift kv) (kv_do_defrag kv) true)
  else Ok kv.

Definition llama_kv_cache_seq_cp (kv : llama_kv_cache) (seq_id_src seq_id_dst p0 p1 : Z) : res llama_kv_cache :=
  let p0 := range_lo p0 in
  let p1 := range_hi p1 in
  if kv_recurrent kv then cp_recurrent kv seq_id_src seq_id_dst
  else
    '(kv, seq_id_src) ←
      (if llama_kv_has_qnext_state_storage kv && llama_kv_qnext_seq_id_in_range kv seq_id_dst &&
          llama_kv_qnext_seq_id_in_range kv seq_id_src && bool_decide (u32 seq_id_dst < kv_size kv) &&
          bool_decide (u32 seq_id_src < kv_size kv)
       then
         slot ← at_ (kv_cells kv) (Z.to_nat seq_id_src);
         let src := c_src slot in
         _ ← ggml_assert (bool_decide (u32 src < kv_size kv));
         to ← at_ (kv_cells kv) (Z.to_nat seq_id_dst);
         cells ← put (kv_cells kv) (Z.to_nat seq_id_dst) (with_src to src);
         mret (with_flags (with_state kv (kv_head kv) (kv_used kv) cells) (kv_has_shift kv) (kv_do_defrag kv) true, src)
       else Ok (kv, seq_id_src));
    mret (with_state kv 0 (kv_used kv) (cp_cell seq_id_src seq_id_dst p0 p1 <$> kv_cells kv)).

(** [seq_keep]: the cells, [used] and [new_head]. *)
Fixpoint keep_loop (kv : llama_kv_cache) (seq_id : Z) (i : nat) (cells : list llama_kv_cell) (used new_head : Z)
    : list llama_kv_cell * Z * Z :=
  match cells with
  | [] => ([], used, new_head)
  | c :: cells' =>
    if has_seq_id c seq_id then
      let '(cs, used, new_head) := keep_loop kv seq_id (S i) cells' used new_head in
      (with_seq c {[seq_id]} :: cs, used, new_head)
    else
      let used := if bool_decide (0 ≤ c_pos c) then u32 (used - 1) else used in
      let new_head := if bool_decide (new_head = kv_size kv) then Z.of_nat i else new_head in
      let c := with_seq (freed_cell c) ∅ in
      let c := if llama_kv_has_qnext_state_storage kv then with_src c (Z.of_nat i) else c in
      let '(cs, used, new_head) := keep_loop kv seq_id (S i) cells' used new_head in
      (c :: cs, used, new_head)
  end.

Definition llama_kv_cache_seq_keep (kv : llama_kv_cache) (seq_id : Z) : llama_kv_cache :=
  let '(cells, used, new_head) := keep_loop kv seq_id 0 (kv_cells kv) (kv_used kv) (kv_size kv) in
  let head := if negb (bool_decide (new_head = kv_size kv)) && bool_decide (new_head < kv_head kv)
              then new_head else kv_head kv in
  with_state kv head used cells.

(** ** Shifting and dividing positions *)

(** The assertion on M-RoPE cells in the range. *)
Definition mrope_text_only (seq_id p0 p1 : Z) (cells : list llama_kv_cell) : bool :=
  forallb (λ c, negb (has_seq_id c seq_id && in_range c p0 p1) ||
    (bool_decide (c_pos_h c = c_pos c) && bool_decide (c_pos_w c = c_pos c) && bool_decide (c_pos_e c = 0)))
    cells.

(** The recurrent case: only the position of the sequence's slot changes. *)
Definition recurrent_reposition (kv : llama_kv_cache) (seq_id p0 p1 : Z) (f : Z → Z) : res llama_kv_cache :=
  if bool_decide (0 ≤ seq_id) && bool_decide (seq_id < kv_size kv) then
    cell ← at_ (kv_cells kv) (Z.to_nat seq_id);
    if has_seq_id cell seq_id && bool_decide (p0 ≤ c_pos cell) && bool_decide (c_pos cell < p1)
    then
      cells ← put (kv_cells kv) (Z.to_nat seq_id) (with_pos cell (f (c_pos cell)));
      mret (with_state kv (kv_head kv) (kv_used kv) cells)
    else Ok kv
  else Ok kv.

(** The loop of [seq_add]: the cells, [used], [new_head] and [has_shift].
    Positions wrap like the machine's. *)
Fixpoint add_loop (kv : llama_kv_cache) (seq_id p0 p1 delta : Z) (i : nat) (cells : list llama_kv_cell)
    (used new_head : Z) (has_shift : bool) : list llama_kv_cell * Z * Z * bool :=
  match cells with
  | [] => ([], used, new_head, has_shift)
  | c :: cells' =>
    if has_seq_id c seq_id && in_range c p0 p1 then
      let d := if kv_mrope kv then delta else 0 in
      let c := Cell (i32 (c_pos c + delta)) (i32 (c_delta c + delta)) (c_src c) (c_token c) (c_qsa_pos c)
                 (i32 (c_pos_h c + d)) (i32 (c_pos_w c + d)) (c_pos_e c) (c_seq_id c) in
      let freed := bool_decide (c_pos c < 0) in
      let used := if freed && negb (is_empty c) then u32 (used - 1) else used in
      let new_head := if freed && bool_decide (new_head = kv_size kv) then Z.of_nat i else new_head in
      let c := if freed then with_seq (freed_cell c) ∅ else c in
      let '(cs, used, new_head, has_shift) := add_loop kv seq_id p0 p1 delta (S i) cells' used new_head true in
      (c :: cs, used, new_head, has_shift)
    else
      let '(cs, used, new_head, has_shift) := add_loop kv seq_id p0 p1 delta (S i) cells' used new_head has_shift in
      (c :: cs, used, new_head, has_shift)
  end.

Definition llama_kv_cache_seq_add (kv : llama_kv_cache) (seq_id p0 p1 delta : Z) : res llama_kv_cache :=
  _ ← ggml_assert (negb (kv_s_l_position_strict kv));
  _ ← ggml_assert (negb (any_compacted kv));
  let p0 := range_lo p0 in
  let p1 := range_hi p1 in
  if bool_decide (p0 = p1) then Ok kv
  else if kv_recurrent kv then recurrent_reposition kv seq_id p0 p1 (λ p, i32 (p + delta))
  else
    _ ← ggml_assert (negb (kv_mrope kv) || mrope_text_only seq_id p0 p1 (kv_cells kv));
    let '(cells, used, new_head, has_shift) :=
      add_loop kv seq_id p0 p1 delta 0 (kv_cells kv) (kv_used kv) (kv_size kv) (kv_has_shift kv) in
    let head := if negb (bool_decide (new_head = kv_size kv)) then new_head else 0 in
    mret (with_flags (with_state kv head used cells) has_shift (kv_do_defrag kv) (kv_do_copy kv)).

Definition div_cell (mrope : bool) (seq_id p0 p1 d : Z) (c : llama_kv_cell) : llama_kv_cell :=
  if has_seq_id c seq_id && in_range c p0 p1 then
    let pos := Z.quot (c_pos c) d in
    Cell pos (i32 (c_delta c + (pos - c_pos c))) (c_src c) (c_token c) (c_qsa_pos c)
      (if mrope then Z.quot (c_pos_h c) d else c_pos_h c)
      (if mrope then Z.quot (c_pos_w c) d else c_pos_w c) (c_pos_e c) (c_seq_id c)
  else c.

Definition llama_kv_cache_seq_div (kv : llama_kv_cache) (seq_id p0 p1 d : Z) : res llama_kv_cache :=
  _ ← ggml_assert (negb (kv_s_l_position_strict kv));
  _ ← ggml_assert (negb (any_compacted kv));
  let p0 := range_lo p0 in
  let p1 := range_hi p1 in
  if bool_decide (p0 = p1) then Ok kv
  else if kv_recurrent kv then
    _ ← ggml_assert (negb (bool_decide (d = 0)));
    recurrent_reposition kv seq_id p0 p1 (λ p, Z.quot p d)
  else
    _ ← ggml_assert (negb (kv_mrope kv) || mrope_text_only seq_id p0 p1 (kv_cells kv));
    let touched := existsb (λ c, has_seq_id c seq_id && in_range c p0 p1) (kv_cells kv) in
    _ ← ggml_assert (negb (touched && bool_decide (d = 0))); (* the division traps *)
    mret (with_flags (with_state kv (kv_head kv) (kv_used kv) (div_cell (kv_mrope kv) seq_id p0 p1 d <$> kv_cells kv))
            (kv_has_shift kv || touched) (kv_do_defrag kv) (kv_do_copy kv)).

(** ** The steps of [llama_decode_internal] and [llama_kv_cache_update_internal]

    After the graphs that rotate the keys and copy the states ran, the pending
    shifts and copies are forgotten. *)

Definition shift_applied (kv : llama_kv_cache) : llama_kv_cache :=
  with_flags (with_state kv (kv_head kv) (kv_used kv)
      ((λ c, Cell (c_pos c) 0 (c_src c) (c_token c) (c_qsa_pos c) (c_pos_h c) (c_pos_w c) (c_pos_e c) (c_seq_id c))
         <$> kv_cells kv))
    false (kv_do_defrag kv) (kv_do_copy kv).

Definition copy_applied (kv : llama_kv_cache) : llama_kv_cache :=
  with_flags (with_state kv (kv_head kv) (kv_used kv) (imap (λ i c, with_src c (Z.of_nat i)) (kv_cells kv)))
    (kv_has_shift kv) (kv_do_defrag kv) false.

(** Before the search: start at 0 when there are enough unused cells before the head. *)
Definition decode_restart (kv : llama_kv_cache) (n : nat) : llama_kv_cache :=
  if bool_decide (u32 (kv_used kv + 2 * Z.of_nat n) < kv_head kv)
  then with_state kv 0 (kv_used kv) (kv_cells kv) else kv.

(** After the search: the number of cells the graph looks at; [GGML_PAD] rounds up. *)
Definition GGML_PAD (x n : Z) : Z := Z.land (u32 (x + n - 1)) (Z.lnot (n - 1)).

Definition decode_set_n (kv : llama_kv_cache) (flash_attn : bool) : res llama_kv_cache :=
  let pad := get_padding flash_attn in
  max_cell ← llama_kv_cache_cell_max_pad kv (Z.to_nat pad);
  mret (with_n kv (Z.min (kv_size kv) (Z.max pad (GGML_PAD max_cell pad)))).

(** After the computation: the head moves past the new cells. *)
Definition decode_advance (kv : llama_kv_cache) (n : nat) : res llama_kv_cache :=
  let head := u32 (kv_head kv + Z.of_nat n) in
  kv ← (if any_compacted kv then
          let head_swa := u32 (kv_head_swa kv + Z.of_nat n) in
          _ ← ggml_assert (bool_decide (head_swa ≤ kv_size_swa kv));
          mret (with_swa kv head_swa (kv_pos_base_swa kv))
        else Ok kv);
  mret (with_state kv (if bool_decide (kv_size kv ≤ head) then 0 else head) (kv_used kv) (kv_cells kv)).

(** ** Positions of a sequence *)

Definition llama_kv_cache_seq_pos_max (kv : llama_kv_cache) (seq_id : Z) : Z :=
  fold_left (λ r c, if has_seq_id c seq_id then Z.max r (c_pos c) else r) (kv_cells kv) 0.

Fixpoint pos_min_loop (cells : list llama_kv_cell) (seq_id : Z) : Z :=
  match cells with
  | [] => -1
  | c :: cells' => if has_seq_id c seq_id then c_pos c else pos_min_loop cells' seq_id
  end.

Definition llama_kv_cache_seq_pos_min (kv : llama_kv_cache) (seq_id : Z) : Z :=
  pos_min_loop (kv_cells kv) seq_id.

Definition llama_kv_openpangu_state_pos (kv : llama_kv_cache) (seq_id : Z) : Z :=
  fold_left (λ r c, if has_seq_id c seq_id then Z.max r (c_pos c) else r) (kv_cells kv) (-1).

(** Is the cell in the future of the query token? *)
Definition llama_kv_cell_is_future (kv : llama_kv_cache) (c : llama_kv_cell) (b : llama_batch) (query : nat)
    : res bool :=
  pos_t ← at_ (b_pos b) query;
  if negb (bool_decide (c_pos c = pos_t)) then Ok (bool_decide (pos_t < c_pos c))
  else if negb (kv_mrope kv) then Ok false
  else
    pos_h ← at_ (b_pos b) (n_tokens b + query);
    pos_w ← at_ (b_pos b) (2 * n_tokens b + query);
    mret (bool_decide (pos_h < c_pos_h c) ||
          (bool_decide (c_pos_h c = pos_h) && bool_decide (pos_w < c_pos_w c))).

(** ** Defragmentation *)

Definition llama_kv_cache_defrag (kv : llama_kv_cache) : llama_kv_cache :=
  if kv_s_l_position_strict kv then kv
  else if any_compacted kv then kv
  else with_flags kv (kv_has_shift kv) true (kv_do_copy kv).

(** [while (i0 + nh < n_used && cells[i0 + nh].is_empty()) nh++], [n] bounds it. *)
Fixpoint hole_size (n : nat) (cells : list llama_kv_cell) (n_used i0 nh : nat) : res nat :=
  match n with
  | O => Ok nh
  | S n' =>
    if bool_decide (i0 + nh < n_used)%nat then
      c ← at_ cells (i0 + nh);
      if is_empty c then hole_size n' cells n_used i0 (S nh) else Ok nh
    else Ok nh
  end.

(** [for (; is > i0; --is)] ([src] is [is]): counts cells from the end until [nh] are found. *)
Fixpoint find_source (src i0 n_kv nh nf : nat) (cells : list llama_kv_cell) (ids : list nat) : res (nat * nat) :=
  match src with
  | O => Ok (O, nf)
  | S src' =>
    if bool_decide (i0 < src)%nat then
      c ← at_ cells src;
      id ← at_ ids src;
      if is_empty c || negb (bool_decide (id = n_kv)) then find_source src' i0 n_kv nh nf cells ids
      else if bool_decide (S nf = nh) then Ok (src, S nf)
      else find_source src' i0 n_kv nh (S nf) cells ids
    else Ok (src, nf)
  end.

(** The state of the moves. *)
Record defrag_state := DefragState {
  df_cells : list llama_kv_cell; df_ids : list nat; df_moves : Z; df_moved : bool }.

(** [for (; i1 < n_kv; ++i1)]: moves [nh - nf] more cells into the hole; [n] is
    [n_kv - i1].  The result tells whether to stop. *)
Fixpoint move_cells (n i1 i0 n_kv nh nf : nat) (cont : bool) (max_moves : Z) (st : defrag_state)
    : res (bool * defrag_state) :=
  match n with
  | O => Ok (false, st)
  | S n' =>
    cell1 ← at_ (df_cells st) i1;
    id ← at_ (df_ids st) i1;
    if is_empty cell1 || negb (bool_decide (id = n_kv)) then
      if bool_decide (df_moves st = max_moves) then Ok (true, st)
      else move_cells n' (S i1) i0 n_kv nh nf false max_moves st
    else
      ids ← put (df_ids st) i1 (i0 + nf)%nat;
      cells ← put (df_cells st) (i0 + nf) cell1;
      cells ← put cells i1 default_cell;
      let st := DefragState cells ids (if cont then df_moves st else df_moves st + 1) true in
      if bool_decide (S nf = nh) then Ok (false, st)
      else move_cells n' (S i1) i0 n_kv nh (S nf) true max_moves st
  end.

(** The loop over [i0]; [n] bounds its iterations. *)
Fixpoint defrag_loop (n i0 n_used n_kv : nat) (max_moves : Z) (st : defrag_state) : res defrag_state :=
  match n with
  | O => if bool_decide (i0 < n_used)%nat then Err NoFuel else Ok st
  | S n' =>
    if bool_decide (i0 < n_used)%nat then
      cell0 ← at_ (df_cells st) i0;
      if negb (is_empty cell0) then
        ids ← put (df_ids st) i0 i0;
        defrag_loop n' (S i0) n_used n_kv max_moves (DefragState (df_cells st) ids (df_moves st) (df_moved st))
      else
        nh ← hole_size (n_used - i0) (df_cells st) n_used i0 1;
        '(src, nf) ← if bool_decide (n_kv = 0)%nat then Err Oob else find_source (n_kv - 1) i0 n_kv nh 0 (df_cells st) (df_ids st);
        _ ← ggml_assert (bool_decide (nf = nh));
        '(stop, st) ← move_cells (n_kv - src) src i0 n_kv nh 0 false max_moves st;
        if stop || bool_decide (df_moves st = max_moves) then Ok st
        else defrag_loop n' (i0 + nh) n_used n_kv max_moves st
    else Ok st
  end.

(** The planning part of [llama_kv_cache_defrag_internal]: the new cache, the
    map [ids] and the number of moves. *)
Definition llama_kv_cache_defrag_plan (kv : llama_kv_cache) (max_moves : Z)
    : res (llama_kv_cache * list nat * Z) :=
  let n_kv := Z.to_nat (llama_kv_cache_cell_max kv) in
  let n_used := Z.to_nat (kv_used kv) in
  st ← defrag_loop n_used 0 n_used n_kv max_moves (DefragState (kv_cells kv) (replicate n_kv n_kv) 0 false);
  mret (with_state kv (if df_moved st then kv_used kv else kv_head kv) (kv_used kv) (df_cells st),
        df_ids st, df_moves st).

Definition remap_cell_id_after_defrag (kv : llama_kv_cache) (ids : list nat) (old_id : nat) : res Z :=
  if bool_decide (length ids ≤ old_id)%nat then Ok (-1)
  else
    id ← at_ ids old_id;
    if bool_decide (id < length ids)%nat then Ok (Z.of_nat id)
    else if bool_decide (old_id < length (kv_cells kv))%nat then
      c ← at_ (kv_cells kv) old_id;
      mret (if negb (is_empty c) then Z.of_nat old_id else -1)
    else Ok (-1).

(** The remapping of the selections that name cells. *)
Definition remap_topk (kv : llama_kv_cache) (ids : list nat) (topk : list Z) : res (list Z) :=
  mapM (λ id, if bool_decide (id < 0) then Ok id else remap_cell_id_after_defrag kv ids (Z.to_nat id)) topk.

Fixpoint remap_valid_loop (kv : llama_kv_cache) (ids : list nat) (n old_id : nat) (valid remapped : list bool)
    : res (list bool) :=
  match n with
  | O => Ok remapped
  | S n' =>
    new_id ← remap_cell_id_after_defrag kv ids old_id;
    let set := bool_decide (valid !! old_id = Some true) && bool_decide (0 ≤ new_id) &&
               bool_decide (new_id < Z.of_nat (length remapped)) in
    remap_valid_loop kv ids n' (S old_id) valid
      (if set then <[Z.to_nat new_id := true]> remapped else remapped)
  end.

Definition remap_valid (kv : llama_kv_cache) (ids : list nat) (valid : list bool) : res (list bool) :=
  if bool_decide (valid = []) then Ok valid
  else remap_valid_loop kv ids (length ids) 0 valid (replicate (length valid) false).

(** ** The rows of the key and value tensors

    A tensor holds one row per cell ([A] is the type of a row); a copy reads its
    whole source before it writes. *)

Definition copy_rows {A} (src dst n : nat) (tensor : list A) : res (list A) :=
  if bool_decide (src + n ≤ length tensor)%nat && bool_decide (dst + n ≤ length tensor)%nat
  then Ok (take dst tensor ++ take n (drop src tensor) ++ drop (dst + n) tensor)
  else Err Oob.

(** [while (i + nm < ids.size() && ids[i + nm] == id + nm) nm++], [n] bounds it. *)
Fixpoint run_length (n : nat) (ids : list nat) (i id nm : nat) : nat :=
  match n with
  | O => nm
  | S n' => if bool_decide (ids !! (i + nm)%nat = Some (id + nm)%nat) then run_length n' ids i id (S nm) else nm
  end.

(** [llm_build_context::build_defrag]: the copies of every tensor, in order, as
    source, destination and number of rows; [n] bounds the loop over [i]. *)
Fixpoint build_defrag (n : nat) (ids : list nat) (i : nat) : list (nat * nat * nat) :=
  match n with
  | O => []
  | S n' =>
    match ids !! i with
    | None => []
    | Some id =>
      if bool_decide (i = id) || bool_decide (id = length ids) then build_defrag n' ids (S i)
      else
        let nm := run_length (length ids) ids i id 1 in
        (i, id, nm) :: build_defrag n' ids (i + nm)
    end
  end.

Fixpoint copy_all {A} (copies : list (nat * nat * nat)) (tensor : list A) : res (list A) :=
  match copies with
  | [] => Ok tensor
  | (src, dst, n) :: copies' => tensor ← copy_rows src dst n tensor; copy_all copies' tensor
  end.

(** [llama_kv_cache_defrag_internal]: the cache, the selections that name cells,
    and the copies of the graph, [None] when it returns before the graph. *)
Definition llama_kv_cache_defrag_internal (kv : llama_kv_cache) (max_moves : Z) (topk : list Z) (valid : list bool)
    : res (llama_kv_cache * list Z * list bool * option (list (nat * nat * nat))) :=
  '(kv, ids, n_moves) ← llama_kv_cache_defrag_plan kv max_moves;
  if bool_decide (n_moves = 0) then Ok (kv, topk, valid, None)
  else
    topk ← remap_topk kv ids topk;
    valid ← remap_valid kv ids valid;
    mret (kv, topk, valid, Some (build_defrag (length ids) ids 0)).

(** [llama_kv_cache_update_internal], less the reservation of the next graph.
    [rope] is [rope_type != LLAMA_ROPE_TYPE_NONE], [can_shift] is
    [get_can_shift].  The result is the return code and the cache. *)
Definition llama_kv_cache_update_internal (rope can_shift : bool) (max_moves : Z) (kv : llama_kv_cache)
    : res (Z * llama_kv_cache) :=
  if rope && kv_has_shift kv && negb can_shift then Ok (1, kv)
  else
    let kv := if rope && kv_has_shift kv then shift_applied kv else kv in
    let kv := if (kv_recurrent kv || llama_kv_has_qnext_state_storage kv) && kv_do_copy kv
              then copy_applied kv else kv in
    if kv_do_defrag kv then
      '(kv, _, _, _) ← llama_kv_cache_defrag_internal kv max_moves [] [];
      mret (0, with_flags kv (kv_has_shift kv) false (kv_do_copy kv))
    else Ok (0, kv).

(** ** Compacted sliding-window layers

    [src/llama-hparams.h]: the rows a compacted layer gets. *)

Definition llama_swa_compact_rows (window pad n_ubatch sink_rows : Z) : Z :=
  let slack := if bool_decide (256 < n_ubatch) then n_ubatch else 256 in
  let unpadded := u32 (sink_rows + window + slack) in
  if bool_decide (1 < pad) then u32 (u32 (u32 (unpadded + pad) - 1) / pad * pad) else unpadded.

(** The parts of [llama_hparams] that matter here. *)
Record llama_hparams_swa := HparamsSwa {
  hp_n_layer : Z; hp_nextn_predict_layers : Z; hp_swa_layers : list bool; hp_n_swa : Z; hp_param_sink_number : Z }.

Definition llama_kv_layer_rows (hp : llama_hparams_swa) (il kv_size : Z) (swa_compress : bool) (n_ubatch pad : Z)
    : res Z :=
  if negb swa_compress || bool_decide (il < 0) || bool_decide (i32 (hp_n_layer hp) ≤ il) then Ok kv_size
  else if bool_decide (i32 (hp_n_layer hp - hp_nextn_predict_layers hp) ≤ il) then Ok kv_size
  else
    swa ← at_ (hp_swa_layers hp) (Z.to_nat il);
    if negb swa then Ok kv_size
    else
      let rows := llama_swa_compact_rows (hp_n_swa hp) pad n_ubatch (hp_param_sink_number hp) in
      Ok (if bool_decide (rows < kv_size) then rows else kv_size).

(** The usable rows: whole multiples of the padding. *)
Definition swa_capacity (kv : llama_kv_cache) (flash_attn : bool) : Z :=
  let pad := get_padding flash_attn in
  if bool_decide (1 < pad) then u32 (u32 (kv_size_swa kv - kv_sink_rows kv) / pad * pad)
  else u32 (kv_size_swa kv - kv_sink_rows kv).

(** [llama_kv_cache_compact_swa]: the rows to copy in every tensor of a compacted
    layer (source, destination, number), if any, and the cache. *)
Definition llama_kv_cache_compact_swa (kv : llama_kv_cache) (flash_attn : bool) (n_tokens : Z)
    : res (option (nat * nat * nat) * llama_kv_cache) :=
  if negb (any_compacted kv) then Ok (None, kv)
  else
    let W := kv_window_swa kv in
    let C := swa_capacity kv flash_attn in
    _ ← ggml_assert (bool_decide (n_tokens ≤ C));
    if bool_decide (u32 (live_swa kv + n_tokens) ≤ C) then Ok (None, kv)
    else
      let live := live_swa kv in
      _ ← ggml_assert (bool_decide (W ≤ live));
      let src_row := u32 (u32 (kv_sink_rows kv + live) - W) in
      let dst_row := kv_sink_rows kv in
      mret (Some (Z.to_nat src_row, Z.to_nat dst_row, Z.to_nat W),
            with_swa kv (u32 (kv_sink_rows kv + W)) (i32 (kv_pos_base_swa kv + i32 (u32 (live - W))))).

(** The copies: one row per position in the keys (and in the values, when they are
    not transposed), one column per position in transposed values. *)
Definition compact_tensor {A} (c : option (nat * nat * nat)) (tensor : list A) : res (list A) :=
  match c with Some (src, dst, n) => copy_rows src dst n tensor | None => Ok tensor end.

Definition compact_transposed {A} (c : option (nat * nat * nat)) (tensor : list (list A)) : res (list (list A)) :=
  mapM (compact_tensor c) tensor.

(** ** Saved states of compacted caches *)

Definition llama_kv_cache_compact_header_valid (kv : llama_kv_cache)
    (cell_count size_swa live_swa pos_base_swa head_swa : Z) : bool :=
  bool_decide (size_swa = kv_size_swa kv) &&
  bool_decide (kv_sink_rows kv ≤ size_swa) &&
  bool_decide (kv_sink_rows kv ≤ head_swa) &&
  bool_decide (head_swa ≤ size_swa) &&
  bool_decide (u32 (head_swa - kv_sink_rows kv) = live_swa) &&
  bool_decide (cell_count ≤ kv_size kv) &&
  bool_decide (0 ≤ pos_base_swa) &&
  (bool_decide (pos_base_swa = 0) || bool_decide (kv_window_swa kv ≤ live_swa)) &&
  bool_decide (u64 (pos_base_swa + live_swa) = cell_count).

(** The loop over the cells; [None] is [return false]. *)
Fixpoint compact_seen (cells : list llama_kv_cell) (cell_count seq_id : Z) (seen : list bool) (seen_count : Z)
    : option Z :=
  match cells with
  | [] => Some seen_count
  | c :: cells' =>
    if negb (if bool_decide (seq_id < 0) then negb (is_empty c) else has_seq_id c seq_id)
    then compact_seen cells' cell_count seq_id seen seen_count
    else if bool_decide (c_pos c < 0) || bool_decide (cell_count ≤ c_pos c) ||
            bool_decide (seen !! Z.to_nat (c_pos c) = Some true)
    then None
    else compact_seen cells' cell_count seq_id (<[Z.to_nat (c_pos c) := true]> seen) (u32 (seen_count + 1))
  end.

Definition llama_kv_cache_compact_contiguous_positions_valid (kv : llama_kv_cache) (cell_count seq_id : Z) : bool :=
  match compact_seen (kv_cells kv) cell_count seq_id (replicate (Z.to_nat cell_count) false) 0 with
  | Some seen_count => bool_decide (seen_count = cell_count)
  | None => false
  end.

Definition llama_kv_cache_compact_state_valid (kv : llama_kv_cache) (cell_count seq_id : Z) : bool :=
  if bool_decide (kv_head_swa kv < kv_sink_rows kv) then false
  else
    let live_swa := u32 (kv_head_swa kv - kv_sink_rows kv) in
    llama_kv_cache_compact_header_valid kv cell_count (kv_size_swa kv) live_swa (kv_pos_base_swa kv)
      (kv_head_swa kv) &&
    llama_kv_cache_compact_contiguous_positions_valid kv cell_count seq_id.

(** ** One step of [llama_decode_internal]

    The part of the loop over the micro-batches that changes the cache before the
    graph is built: pending updates, the search for a slot, the number of cells the
    graph looks at, the compaction.  The result is the return code (0 and 1 as the
    code has them) and the cache. *)
Definition decode_prepare (rope can_shift flash_attn : bool) (max_moves : Z) (kv : llama_kv_cache)
    (b : llama_batch) (embd_token : Z) : res (Z * llama_kv_cache) :=
  '(ret, kv) ← llama_kv_cache_update_internal rope can_shift max_moves kv;
  if negb (bool_decide (ret = 0)) then Ok (ret, kv)
  else
    '(ok, kv) ← llama_kv_cache_find_slot (decode_restart kv (n_tokens b)) b embd_token true;
    if negb ok then Ok (1, kv)
    else
      kv ← (if negb (kv_recurrent kv) then decode_set_n kv flash_attn else Ok kv);
      '(_, kv) ← llama_kv_cache_compact_swa kv flash_attn (Z.of_nat (n_tokens b));
      mret (0, kv).

(** The whole step: the graph runs between the two parts and reads the cache. *)
Definition decode_step (rope can_shift flash_attn : bool) (max_moves : Z) (kv : llama_kv_cache)
    (b : llama_batch) (embd_token : Z) : res (Z * llama_kv_cache) :=
  '(ret, kv) ← decode_prepare rope can_shift flash_attn max_moves kv b embd_token;
  if negb (bool_decide (ret = 0)) then Ok (ret, kv)
  else
    kv ← decode_advance kv (n_tokens b);
    mret (0, kv).

(** ** Initialisation

    The part of [llama_kv_cache_init] that sets the state of the cells; the kinds
    of model ([recurrent], [hybrid], …) are decided from the architecture. *)

(** The rows of all layers, when some layer is compacted. *)
Definition swa_plan (hp : llama_hparams_swa) (kv_size n_ubatch pad : Z) : res (list Z) :=
  mapM (λ il, llama_kv_layer_rows hp (Z.of_nat il) kv_size true n_ubatch pad) (seq 0 (Z.to_nat (hp_n_layer hp))).

(** The compacted layers share one row count. *)
Fixpoint rows_compacted (plan : list Z) (kv_size rows : Z) : res Z :=
  match plan with
  | [] => Ok rows
  | r :: plan' =>
    if bool_decide (kv_size ≤ r) then rows_compacted plan' kv_size rows
    else
      _ ← ggml_assert (bool_decide (rows = 0) || bool_decide (rows = r));
      rows_compacted plan' kv_size r
  end.

Definition llama_kv_cache_init (kv_size : Z) (recurrent hybrid mrope qsa strict : bool) (state_slots : Z)
    (hp : llama_hparams_swa) (swa_compress supports_swa_compress flash_attn : bool) (n_ubatch : Z)
    : res llama_kv_cache :=
  let cells := replicate (Z.to_nat kv_size) default_cell in
  let cells := if recurrent || hybrid then imap (λ i c, with_src c (Z.of_nat i)) cells else cells in
  let plain := KvCache false false false recurrent mrope qsa strict state_slots 0 kv_size 0 0 [] 0 0 0 0 0 cells in
  if swa_compress && supports_swa_compress then
    plan ← swa_plan hp kv_size n_ubatch (get_padding flash_attn);
    if existsb (λ r, bool_decide (r < kv_size)) plan then
      rows ← rows_compacted plan kv_size 0;
      mret (KvCache false false false recurrent mrope qsa strict state_slots 0 kv_size 0 0 plan rows
              (hp_param_sink_number hp) (hp_n_swa hp) (hp_param_sink_number hp) 0 cells)
    else Ok plain
  else Ok plain.
