(* ===== verification/KvLemmas.v ===== *)
(** * Lemmas about cells

    Occupied cells, their number, [cell_max], and the effect of writing a cell. *)
From S2P Require Import Prelude KvCache.

(** A cell in use belongs to a sequence. *)
Definition in_use (c : llama_kv_cell) : Prop := c_seq_id c ≠ ∅.
#[global] Instance in_use_dec c : Decision (in_use c).
Proof. unfold in_use. apply _. Defined.

(** The cells in use and the cells with a position are the same. *)
Definition cell_ok (c : llama_kv_cell) : Prop := 0 ≤ c_pos c ↔ in_use c.

(** The cells in use. *)
Definition live_cells (cells : list llama_kv_cell) : list llama_kv_cell := filter in_use cells.
#[global] Arguments live_cells : simpl never.

Lemma is_empty_false c : is_empty c = false ↔ in_use c.
Proof. apply bool_decide_eq_false. Qed.
Lemma is_empty_true c : is_empty c = true ↔ ¬ in_use c.
Proof. unfold in_use. split; [intros ?%bool_decide_eq_true; auto|]. intros H. apply bool_decide_eq_true. by apply dec_stable. Qed.
Lemma default_not_in_use : ¬ in_use default_cell.
Proof. intros H. by apply H. Qed.
Lemma default_cell_ok : cell_ok default_cell.
Proof. split; [cbn; lia|]. by intros ?%default_not_in_use. Qed.
Lemma cell_live_spec c : cell_ok c → cell_live c = true ↔ in_use c.
Proof.
  intros Hok. unfold cell_live. rewrite andb_true_iff, negb_true_iff, is_empty_false, bool_decide_eq_true.
  unfold cell_ok in Hok. tauto.
Qed.
#[export] Hint Resolve default_not_in_use default_cell_ok : llama.

(** ** Counting along a list *)

Section counting.
Context {A : Type} (P : A → Prop) `{∀ x, Decision (P x)}.

Lemma filter_none l : Forall (λ x, ¬ P x) l → filter P l = [].
Proof. induction 1; [done|]. by rewrite filter_cons_False. Qed.
Lemma filter_all l : Forall P l → filter P l = l.
Proof. induction 1; [done|]. rewrite filter_cons_True by done. congruence. Qed.

Lemma Forall_slice (Q : A → Prop) a b l :
  (∀ i x, a ≤ i < b → l !! i = Some x → Q x)%nat → Forall Q (take (b - a) (drop a l)).
Proof.
  intros HQ. apply Forall_lookup_2. intros i x [Hi Hlt]%lookup_take_Some.
  rewrite lookup_drop in Hi. apply (HQ (a + i)%nat); [lia|done].
Qed.

Definition count_in (a b : nat) (l : list A) : nat := length (filter P (take (b - a) (drop a l))).

Lemma filter_insert_new l i x y :
  l !! i = Some y → ¬ P y → P x → filter P (<[i := x]> l) ≡ₚ x :: filter P l.
Proof.
  intros Hl Hy Hx. rewrite insert_take_drop by (by eapply lookup_lt_Some).
  rewrite <- (take_drop_middle l i y Hl) at 3.
  rewrite !filter_app, filter_cons_True, filter_cons_False by done.
  by rewrite <- Permutation_middle.
Qed.

Lemma filter_insert_gone l i x y :
  l !! i = Some y → P y → ¬ P x → filter P l ≡ₚ y :: filter P (<[i := x]> l).
Proof.
  intros Hl Hy Hx. rewrite insert_take_drop by (by eapply lookup_lt_Some).
  rewrite <- (take_drop_middle l i y Hl) at 1.
  rewrite !filter_app, filter_cons_True, filter_cons_False by done.
  by rewrite <- Permutation_middle.
Qed.

(** Moving an element into a free place keeps the elements. *)
Lemma filter_move l i j x y z :
  l !! i = Some x → l !! j = Some y → P x → ¬ P y → ¬ P z →
  filter P (<[i := z]> (<[j := x]> l)) ≡ₚ filter P l.
Proof.
  intros Hi Hj Hx Hy Hz.
  assert (i ≠ j) as Hij by (intros ->; congruence).
  apply (Permutation_cons_inv (a := x)). rewrite <- (filter_insert_new l j x y) by done.
  symmetry. apply filter_insert_gone; [|done..]. by rewrite list_lookup_insert_ne by done.
Qed.

Lemma count_in_split a b c l : (a ≤ b ≤ c)%nat → count_in a c l = (count_in a b l + count_in b c l)%nat.
Proof.
  intros Hle. unfold count_in. rewrite <- length_app, <- filter_app.
  replace (drop b l) with (drop (b - a) (drop a l)) by (rewrite drop_drop; f_equal; lia).
  rewrite take_take_drop. do 3 f_equal. lia.
Qed.

Lemma count_in_step a b l x :
  (a < b)%nat → l !! a = Some x → count_in a b l = ((if decide (P x) then 1 else 0) + count_in (S a) b l)%nat.
Proof.
  intros Hlt Hl. unfold count_in. rewrite (drop_S l x a Hl). replace (b - a)%nat with (S (b - S a)) by lia.
  cbn [take]. rewrite filter_cons. by destruct (decide (P x)).
Qed.

Lemma count_in_last a b l x :
  (a ≤ b)%nat → l !! b = Some x → count_in a (S b) l = (count_in a b l + if decide (P x) then 1 else 0)%nat.
Proof.
  intros Hle Hl. rewrite (count_in_split a b (S b)) by lia. f_equal.
  rewrite (count_in_step b (S b) l x) by (lia || done). unfold count_in.
  rewrite Nat.sub_diag, take_0. cbn. by rewrite Nat.add_0_r.
Qed.

Lemma count_in_le a b l : (count_in a b l ≤ b - a)%nat.
Proof. unfold count_in. etransitivity; [apply length_filter|]. rewrite length_take. lia. Qed.

Lemma count_in_nil a b l : (b ≤ a)%nat → count_in a b l = 0%nat.
Proof. intros. pose proof (count_in_le a b l). lia. Qed.

Lemma count_in_none a b l :
  (∀ i x, a ≤ i < b → l !! i = Some x → ¬ P x)%nat → count_in a b l = 0%nat.
Proof.
  intros Hn. unfold count_in. by rewrite filter_none by (by apply Forall_slice).
Qed.

Lemma count_in_all a b l :
  (b ≤ length l)%nat → (∀ i x, a ≤ i < b → l !! i = Some x → P x)%nat → count_in a b l = (b - a)%nat.
Proof.
  intros Hb Ha. unfold count_in. rewrite filter_all by (by apply Forall_slice).
  rewrite length_take, length_drop. lia.
Qed.

Lemma count_in_total l : count_in 0 (length l) l = length (filter P l).
Proof. unfold count_in. by rewrite Nat.sub_0_r, drop_0, firstn_all. Qed.

Lemma count_in_insert_out a b l i x : (i < a ∨ b ≤ i)%nat → count_in a b (<[i := x]> l) = count_in a b l.
Proof.
  intros Hi. unfold count_in. f_equal. f_equal. apply list_eq. intros k.
  destruct (decide (k < b - a)%nat); [|by rewrite !lookup_take_ge by lia].
  rewrite !lookup_take_lt, !lookup_drop by done. apply list_lookup_insert_ne. lia.
Qed.
End counting.

(** ** [cell_max] *)

Lemma cell_max_from_spec (l : list llama_kv_cell) n :
  Forall cell_ok l → n = Z.to_nat (cell_max_from (rev l)) →
  (n ≤ length l)%nat ∧ (∀ i c, n ≤ i → l !! i = Some c → ¬ in_use c)%nat ∧
  (∀ n', n = S n' → ∃ c, l !! n' = Some c ∧ in_use c).
Proof.
  intros Hok ->. induction l as [|c l IH] using rev_ind; [by cbn; split_and!; [lia|intros [|]|]|].
  apply Forall_app in Hok as [Hok [Hc _]%Forall_cons_1]. specialize (IH Hok) as (IHle & IHe & IHl).
  rewrite rev_unit. cbn [cell_max_from length]. rewrite length_rev, length_app. cbn [length].
  destruct (cell_live c) eqn:El.
  - pose proof (proj1 (cell_live_spec c Hc) El). rewrite Nat2Z.id. split_and!.
    + lia.
    + intros i c' Hi Hl. apply lookup_lt_Some in Hl. rewrite length_app in Hl. cbn in Hl. lia.
    + intros n' Hn. assert (n' = length l) as -> by lia. exists c. by rewrite list_lookup_middle.
  - assert (¬ in_use c) by (rewrite <- cell_live_spec by done; by rewrite El).
    split_and!; [lia| |].
    + intros i c' Hi [Hl|[? Hl]]%lookup_app_Some; [by apply (IHe i)|]. apply list_lookup_singleton_Some in Hl as [? <-]. done.
    + intros n' Hn. destruct (IHl n' Hn) as (c' & Hl & ?). exists c'. by rewrite lookup_app_l by (by eapply lookup_lt_Some).
Qed.

(** ** Well-formed caches of attention models *)

Record kv_wf (kv : llama_kv_cache) : Prop := {
  wf_size : Z.of_nat (length (kv_cells kv)) = kv_size kv;
  wf_bound : kv_size kv < 2 ^ 30;
  wf_cells : Forall cell_ok (kv_cells kv);
  wf_src : Forall (λ c, c_src c = 0 ∨ 0 ≤ c_src c < kv_size kv) (kv_cells kv);
  wf_used : kv_used kv = Z.of_nat (length (live_cells (kv_cells kv)));
  wf_head : 0 ≤ kv_head kv ≤ kv_size kv;
  wf_delta : kv_has_shift kv = false → Forall (λ c, c_delta c = 0) (kv_cells kv);
  wf_attn : kv_recurrent kv = false }.

Lemma wf_used_le kv : kv_wf kv → 0 ≤ kv_used kv ≤ kv_size kv.
Proof.
  intros []. rewrite wf_used0, <- wf_size0. unfold live_cells.
  pose proof (length_filter in_use (kv_cells kv)). lia.
Qed.

(** Copying rows. *)
Lemma copy_rows_spec {A} (src dst n : nat) (t : list A) :
  (src + n ≤ length t)%nat → (dst + n ≤ length t)%nat →
  ∃ t', copy_rows src dst n t = Ok t' ∧ length t' = length t ∧
    ∀ k, t' !! k = if decide (dst ≤ k < dst + n)%nat then t !! (src + (k - dst))%nat else t !! k.
Proof.
  intros Hs Hd. unfold copy_rows. rewrite !bool_decide_true by done. cbn. eexists. split; [done|].
  split; [rewrite !length_app, !length_take, !length_drop; lia|]. intros k. destruct (decide _) as [Hk|Hk].
  - rewrite lookup_app_r; rewrite length_take_le by lia; [|lia].
    rewrite lookup_app_l by (rewrite length_take, length_drop; lia).
    rewrite lookup_take_lt by lia. by rewrite lookup_drop.
  - destruct (decide (k < dst)%nat).
    + rewrite lookup_app_l by (rewrite length_take; lia). by rewrite lookup_take_lt by done.
    + rewrite lookup_app_r; rewrite length_take_le by lia; [|lia].
      rewrite lookup_app_r; rewrite length_take_le by (rewrite length_drop; lia); [|lia].
      rewrite lookup_drop. f_equal. lia.
Qed.

(** ** A small cache, for the examples *)

Definition text_cell (p token s : Z) : llama_kv_cell := Cell p 0 0 token p p p 0 {[s]}.

(** A well-formed cache of four cells with two holes. *)
Definition holes_kv : llama_kv_cache :=
  KvCache false false false false false false false 0 2 4 2 0 [] 0 0 0 0 0
    [default_cell; text_cell 0 100 0; default_cell; text_cell 1 101 0].

Lemma holes_kv_wf : kv_wf holes_kv.
Proof.
  split; try (vm_compute; split; discriminate); try reflexivity.
  - apply (bool_decide_unpack _). vm_compute. exact I.
  - apply (bool_decide_unpack _). vm_compute. exact I.
  - intros _. apply (bool_decide_unpack _). vm_compute. exact I.
Qed.
