(* ===== verification/KvSlot.v ===== *)
(** * The search for a slot

    [llama_kv_cache_find_slot] finds free cells in a row if and only if there are
    any, from every head, and does not loop forever. *)
From S2P Require Import Prelude KvCache KvLemmas.

Section search.
Context (cells : list llama_kv_cell) (n : nat).
Local Abbreviation size := (length cells).
Context (Hsize : Z.of_nat size < 2 ^ 30) (Hn : (n ≤ size)%nat).

(** [n] cells without a position from [s] on. *)
Definition free_run (s : nat) : Prop :=
  (s + n ≤ size)%nat ∧ ∀ i c, (s ≤ i < s + n)%nat → cells !! i = Some c → c_pos c < 0.

Definition no_run (a b : nat) : Prop := ∀ s, (a ≤ s < b)%nat → ¬ free_run s.

Lemma first_taken_spec h : (h + n ≤ size)%nat →
  (first_taken (drop h cells) n = Ok None ∧ free_run h) ∨
  ∃ i, first_taken (drop h cells) n = Ok (Some i) ∧ (i < n)%nat ∧ no_run h (h + i + 1).
Proof using Hn.
  intros Hh. unfold no_run, free_run.
  assert (∀ m a, (a + m ≤ length cells)%nat →
    (first_taken (drop a cells) m = Ok None ∧ ∀ i c, (a ≤ i < a + m)%nat → cells !! i = Some c → c_pos c < 0) ∨
    ∃ i c, first_taken (drop a cells) m = Ok (Some i) ∧ (i < m)%nat ∧ cells !! (a + i)%nat = Some c ∧ 0 ≤ c_pos c) as Hft.
  { induction m as [|m IH]; intros a Ha; [left; split; [by destruct (drop a cells)|lia]|].
    destruct (lookup_lt_is_Some_2 cells a) as [c Hc]; [lia|]. rewrite (drop_S _ _ _ Hc). cbn [first_taken].
    bdec (0 ≤ c_pos c) as Hp; [right; exists 0%nat, c; rewrite Nat.add_0_r; split_and!; (done || lia)|].
    destruct (IH (S a)) as [[-> Hf]|(i & c' & -> & ? & Hl & ?)]; [lia|left|right]; cbn.
    - split; [done|]. intros i c' Hi Hl. destruct (decide (i = a)) as [->|]; [simplify_eq; lia|].
      apply (Hf i); [lia|done].
    - exists (S i), c'. rewrite Nat.add_succ_r. split_and!; (done || lia). }
  destruct (Hft n h Hh) as [[-> Hf]|(i & c & -> & Hi & Hl & Hp)]; [left; by split_and!|right].
  exists i. split_and!; [done..|]. intros s Hs [_ Hfr]. specialize (Hfr (h + i)%nat c). specialize (Hfr ltac:(lia) Hl). lia.
Qed.

(** What the search returns. *)
Definition search_result (r : res (bool * Z)) : Prop :=
  ∃ found hd, r = Ok (found, Z.of_nat hd) ∧ (hd ≤ size)%nat ∧
    if found : bool then free_run hd else ∀ s, ¬ free_run s.

(** One step of the loop at a head where the slot fits. *)
Lemma slot_search_step fuel h t : (h + n ≤ size)%nat → 0 ≤ t < 2 ^ 31 →
  (free_run h ∧ slot_search (S fuel) (Z.of_nat size) cells n (Z.of_nat h) t = Ok (true, Z.of_nat h)) ∨
  ∃ i, (i < n)%nat ∧ no_run h (h + i + 1) ∧
    slot_search (S fuel) (Z.of_nat size) cells n (Z.of_nat h) t =
      if bool_decide (Z.of_nat size ≤ t + Z.of_nat i + 1) then Ok (false, Z.of_nat (h + i + 1))
      else slot_search fuel (Z.of_nat size) cells n (Z.of_nat (h + i + 1)) (t + Z.of_nat i + 1).
Proof using Hsize Hn.
  intros Hh Ht. cbn [slot_search]. rewrite u32_small by lia.
  rewrite bool_decide_false by lia. rewrite Nat2Z.id.
  destruct (first_taken_spec h Hh) as [[-> Hf]|(i & -> & Hi & Hr)]; [by left|right; exists i].
  split_and!; [done..|]. cbn. rewrite !u32_small by lia.
  by replace (Z.of_nat h + (Z.of_nat i + 1)) with (Z.of_nat (h + i + 1)) by lia;
    replace (t + (Z.of_nat i + 1)) with (t + Z.of_nat i + 1) by lia.
Qed.

Lemma slot_search_wrap fuel h t : (size < h + n)%nat → (h ≤ size)%nat → 0 ≤ t < 2 ^ 31 →
  slot_search (S fuel) (Z.of_nat size) cells n (Z.of_nat h) t =
  slot_search fuel (Z.of_nat size) cells n 0 (t + (Z.of_nat size - Z.of_nat h)).
Proof using Hsize Hn.
  intros Hh Hs Ht. cbn [slot_search]. rewrite u32_small by lia. rewrite bool_decide_true by lia.
  by rewrite u32_small by lia.
Qed.

Lemma no_run_app a b c : no_run a b → no_run b c → no_run a c.
Proof using Hn. intros H1 H2 s Hs. destruct (decide (s < b)%nat); [apply H1|apply H2]; lia. Qed.
Lemma no_run_end h b : (size < h + n)%nat → no_run h b.
Proof using Hn. intros Hh s Hs [? _]. lia. Qed.

(** Everything was tested: the search fails at the next step. *)
Lemma slot_search_last fuel t : no_run 0 (S size) → Z.of_nat size ≤ t < 2 ^ 31 → (1 ≤ fuel)%nat →
  search_result (slot_search fuel (Z.of_nat size) cells n 0 t).
Proof using Hsize Hn.
  intros Hno Ht Hf. destruct fuel as [|fuel]; [lia|].
  destruct (slot_search_step fuel 0 t) as [[Hr _]|(i & Hi & _ & Heq)]; [lia..| |].
  { destruct (Hno 0%nat); [lia|done]. }
  change 0 with (Z.of_nat 0). rewrite Heq, bool_decide_true by lia.
  exists false, (0 + i + 1)%nat. split_and!; [done|lia|]. intros s Hr. apply (Hno s); [|done]. destruct Hr. lia.
Qed.

(** The second lap, from 0 up to the first head. *)
Lemma slot_search_second fuel h0 h t :
  (h < h0 ≤ size)%nat → t = Z.of_nat (size - h0 + h) → no_run h0 (S size) → no_run 0 h →
  (h0 - h + 2 ≤ fuel)%nat → search_result (slot_search fuel (Z.of_nat size) cells n (Z.of_nat h) t).
Proof using Hsize Hn.
  induction fuel as [|fuel IH] in h, t |- *; intros Hh -> Hend Hno Hf; [lia|].
  destruct (decide (h + n ≤ size)%nat) as [Hfit|Hwrap].
  - destruct (slot_search_step fuel h (Z.of_nat (size - h0 + h))) as [[Hr Heq]|(i & Hi & Hr & Heq)];
      [lia..|rewrite Heq|rewrite Heq].
    + exists true, h. split_and!; [done|lia|done].
    + pose proof (no_run_app _ _ _ Hno Hr) as Hno'. case_bool_decide as Hd.
      * exists false, (h + i + 1)%nat. split_and!; [done|lia|]. intros s Hs.
        apply (no_run_app 0 (h + i + 1) (S size) Hno') with s; [|destruct Hs; lia|done].
        intros s' Hs'. apply Hend. lia.
      * apply IH; try (done || lia).
  - rewrite slot_search_wrap by lia. apply slot_search_last; [|lia..].
    apply (no_run_app 0 h); [done|]. apply no_run_end. lia.
Qed.

(** The first lap, from the head to the end. *)
Lemma slot_search_first fuel h0 h t :
  (h0 ≤ h ≤ size)%nat → t = Z.of_nat (h - h0) → no_run h0 h →
  (size - h + h0 + 4 ≤ fuel)%nat → search_result (slot_search fuel (Z.of_nat size) cells n (Z.of_nat h) t).
Proof using Hsize Hn.
  induction fuel as [|fuel IH] in h, t |- *; intros Hh -> Hno Hf; [lia|].
  destruct (decide (h + n ≤ size)%nat) as [Hfit|Hwrap].
  - destruct (slot_search_step fuel h (Z.of_nat (h - h0))) as [[Hr Heq]|(i & Hi & Hr & Heq)];
      [lia..|rewrite Heq|rewrite Heq].
    + exists true, h. split_and!; [done|lia|done].
    + pose proof (no_run_app _ _ _ Hno Hr) as Hno'. case_bool_decide as Hd.
      * exists false, (h + i + 1)%nat. split_and!; [done|lia|]. intros s Hs. assert (h0 = 0)%nat as -> by lia.
        destruct (decide (s < h + i + 1)%nat); [apply (Hno' s); [lia|done]|]. destruct Hs. lia.
      * apply IH; try (done || lia).
  - rewrite slot_search_wrap by lia.
    assert (no_run h0 (S size)) as Hend by (apply (no_run_app h0 h); [done|apply no_run_end; lia]).
    destruct (decide (h0 = 0)%nat) as [->|]; [apply slot_search_last; [done|lia..]|].
    apply (slot_search_second fuel h0 0); [lia..|done| |lia]. intros s ?. lia.
Qed.

Lemma slot_search_spec h : 0 ≤ h ≤ Z.of_nat size →
  search_result (slot_search (Z.to_nat (2 * Z.of_nat size + 4)) (Z.of_nat size) cells n h 0).
Proof using Hsize Hn.
  intros Hh. rewrite <- (Z2Nat.id h) by lia.
  apply (slot_search_first _ (Z.to_nat h)); [lia..| |lia]. intros s ?. lia.
Qed.
End search.
