(* ===== verification/KvDefrag.v ===== *)
(** * Defragmentation of the KV cache

    The search for holes and for the cells that fill them, the map from old to
    new cell indices, and the rows the graph of [build_defrag] copies. *)
From S2P Require Import Prelude KvCache KvLemmas.

Section defrag.
(** The cells before, the number of cells in use and [cell_max]. *)
Context (cells0 : list llama_kv_cell) (n_used n_kv : nat) (max_moves : Z).
Context (Hlen : (n_kv ≤ length cells0)%nat).
Context (Hout : ∀ j c, (n_kv ≤ j)%nat → cells0 !! j = Some c → ¬ in_use c).
Context (Hused : length (live_cells cells0) = n_used).
Context (Hmax : 0 < max_moves).

(** Where the cell at [j] went: [n_kv] marks a cell that was not moved. *)
Definition dest (ids : list nat) (j : nat) : nat :=
  match ids !! j with Some id => if decide (id < n_kv)%nat then id else j | None => j end.

(** All cells before [f] are in use, the hole from [f] to [h] is being filled,
    the cells from [h] on were not moved; [ids] says where each cell is now. *)
Record df_inv (f h : nat) (cells : list llama_kv_cell) (ids : list nat) : Prop := {
  inv_len : length cells = length cells0;
  inv_ids : length ids = n_kv;
  inv_le : (f ≤ h ≤ n_used)%nat;
  inv_front : ∀ j c, (j < f)%nat → cells !! j = Some c → in_use c;
  inv_hole : ∀ j c, (f ≤ j < h)%nat → cells !! j = Some c → ¬ in_use c;
  inv_perm : live_cells cells ≡ₚ live_cells cells0;
  inv_rest : ∀ j c, (h ≤ j)%nat → cells !! j = Some c → in_use c →
    cells0 !! j = Some c ∧ ∀ id, ids !! j = Some id → id = n_kv;
  inv_dest : ∀ j c, cells0 !! j = Some c → in_use c → cells !! dest ids j = Some c;
  inv_inj : ∀ j1 j2 c1 c2, cells0 !! j1 = Some c1 → in_use c1 → cells0 !! j2 = Some c2 → in_use c2 →
    dest ids j1 = dest ids j2 → j1 = j2;
  inv_moved : ∀ j id, ids !! j = Some id → (id < n_kv)%nat → id ≠ j →
    (id < n_used ≤ j)%nat ∧ ∃ c, cells0 !! j = Some c ∧ in_use c;
  inv_bound : ∀ j id, ids !! j = Some id → (id ≤ n_kv)%nat;
  inv_cells : ∀ c, c ∈ cells → c = default_cell ∨ c ∈ cells0 }.

Lemma used_le_kv : (n_used ≤ n_kv)%nat.
Proof using Hlen Hout Hused.
  rewrite <- Hused. unfold live_cells. rewrite <- (count_in_total in_use cells0).
  rewrite (count_in_split _ 0 n_kv) by lia.
  rewrite (count_in_none _ n_kv) by (intros j c [? _]; by apply Hout).
  pose proof (count_in_le in_use 0 n_kv cells0). lia.
Qed.

Lemma in_use_lt_kv f h cells ids j c : df_inv f h cells ids →
  cells !! j = Some c → in_use c → (j < n_kv)%nat.
Proof using Hlen Hout Hused.
  intros I Hj Hc. pose proof used_le_kv. destruct (decide (j < n_kv)%nat) as [|Hge]; [done|].
  pose proof (inv_le _ _ _ _ I). destruct (inv_rest _ _ _ _ I j c ltac:(lia) Hj Hc) as [Hj0 _].
  exfalso. apply (Hout j c); [lia|done..].
Qed.

(** The cells in use from the hole on. *)
Lemma count_rest f h cells ids : df_inv f h cells ids →
  count_in in_use h n_kv cells = (n_used - f)%nat.
Proof using Hlen Hout Hused.
  intros I. pose proof used_le_kv. destruct (inv_le _ _ _ _ I).
  assert (count_in in_use 0 (length cells) cells = n_used) as Ht.
  { rewrite count_in_total, <- Hused. unfold live_cells. apply Permutation_length, (inv_perm _ _ _ _ I). }
  rewrite (inv_len _ _ _ _ I) in Ht.
  rewrite (count_in_split _ 0 n_kv), (count_in_split _ 0 h), (count_in_split _ 0 f) in Ht by lia.
  assert (count_in in_use 0 f cells = f) as Hf.
  { rewrite count_in_all; [lia|rewrite (inv_len _ _ _ _ I); lia|].
    intros j c [_ ?]. by apply (inv_front _ _ _ _ I). }
  assert (count_in in_use f h cells = 0%nat) as Hh.
  { apply count_in_none. intros j c. apply (inv_hole _ _ _ _ I). }
  assert (count_in in_use n_kv (length cells0) cells = 0%nat) as Hk.
  { apply count_in_none. intros j c [? _] Hj Hc. pose proof (in_use_lt_kv _ _ _ _ _ _ I Hj Hc). lia. }
  lia.
Qed.

Lemma df_inv_init : df_inv 0 0 cells0 (replicate n_kv n_kv).
Proof.
  assert (∀ j, dest (replicate n_kv n_kv) j = j) as Hd.
  { intros j. unfold dest. destruct (replicate n_kv n_kv !! j) eqn:E; [|done].
    apply lookup_replicate in E as [-> _]. rewrite decide_False by lia. done. }
  split; try done.
  - apply length_replicate.
  - lia.
  - intros; lia.
  - intros; lia.
  - intros j c _ Hj Hc. split; [done|]. intros id [-> _]%lookup_replicate. done.
  - intros. by rewrite Hd.
  - intros. by rewrite !Hd in *.
  - intros j id [-> _]%lookup_replicate. lia.
  - intros j id [-> _]%lookup_replicate. lia.
  - auto.
Qed.

(** The next cell is in use already. *)
Lemma df_inv_skip i0 cells ids c : df_inv i0 i0 cells ids → (i0 < n_used)%nat →
  cells !! i0 = Some c → in_use c → df_inv (S i0) (S i0) cells (<[i0 := i0]> ids).
Proof using Hlen Hout Hused.
  intros I Hlt Hi Hc. pose proof used_le_kv.
  destruct (inv_rest _ _ _ _ I i0 c ltac:(lia) Hi Hc) as [Hi0 Hid].
  assert (∀ j, dest (<[i0 := i0]> ids) j = dest ids j) as Hd.
  { intros j. unfold dest. destruct (decide (j = i0)) as [->|].
    - rewrite list_lookup_insert_eq by (rewrite (inv_ids _ _ _ _ I); lia). rewrite decide_True by lia.
      destruct (ids !! i0) as [id|] eqn:E; [|done]. rewrite (Hid id) by done. by rewrite decide_False by lia.
    - by rewrite list_lookup_insert_ne by done. }
  destruct I. split; try done.
  - by rewrite length_insert.
  - intros j c' Hj Hl. destruct (decide (j = i0)) as [->|]; [congruence|]. apply (inv_front0 j); [lia|done].
  - intros; lia.
  - intros j c' Hj Hl Hc'. rewrite list_lookup_insert_ne by lia. apply inv_rest0; [lia|done..].
  - intros. rewrite Hd. auto.
  - intros j1 j2 c1 c2. rewrite !Hd. apply inv_inj0.
  - intros j id Hj. destruct (decide (j = i0)) as [->|].
    + rewrite list_lookup_insert_eq in Hj by lia. by simplify_eq.
    + rewrite list_lookup_insert_ne in Hj by done. by apply inv_moved0.
  - intros j id [(<- & <- & ?)|[_ Hj]]%list_lookup_insert_Some; [lia|by apply (inv_bound0 j)].
Qed.

(** The next cells are a hole. *)
Lemma df_inv_hole i0 nh cells ids : df_inv i0 i0 cells ids → (i0 + nh ≤ n_used)%nat →
  (∀ j c, i0 ≤ j < i0 + nh → cells !! j = Some c → ¬ in_use c)%nat → df_inv i0 (i0 + nh) cells ids.
Proof.
  intros [] Hle Hh. split; try done.
  - lia.
  - intros j c Hj. apply inv_rest0. lia.
Qed.

(** A cell is moved to the front of the hole. *)
Lemma df_inv_move f h cells ids i1 c : df_inv f h cells ids → (f < h)%nat → (h ≤ i1)%nat → (n_used ≤ i1)%nat →
  cells !! i1 = Some c → in_use c →
  df_inv (S f) h (<[i1 := default_cell]> (<[f := c]> cells)) (<[i1 := f]> ids).
Proof using Hlen Hout Hused.
  intros I Hlt Hhi Hui Hi Hc. pose proof used_le_kv. pose proof (in_use_lt_kv _ _ _ _ _ _ I Hi Hc) as Hikv.
  destruct (inv_rest _ _ _ _ I i1 c Hhi Hi Hc) as [Hi0 Hid]. destruct I.
  assert (is_Some (cells !! f)) as [cf Hf] by (apply lookup_lt_is_Some; lia).
  assert (¬ in_use cf) as Hcf by (apply (inv_hole0 f); [lia|done]).
  assert (dest ids i1 = i1) as Hdi.
  { unfold dest. destruct (ids !! i1) eqn:E; [|done]. rewrite (Hid _ eq_refl). by rewrite decide_False by lia. }
  assert (dest (<[i1 := f]> ids) i1 = f) as Hdi'.
  { unfold dest. rewrite list_lookup_insert_eq by lia. by rewrite decide_True by lia. }
  assert (∀ j, j ≠ i1 → dest (<[i1 := f]> ids) j = dest ids j) as Hd.
  { intros j Hj. unfold dest. by rewrite list_lookup_insert_ne by done. }
  assert (∀ k, k ≠ i1 → k ≠ f → <[i1:=default_cell]> (<[f:=c]> cells) !! k = cells !! k) as Hk.
  { intros. by rewrite !list_lookup_insert_ne by done. }
  assert (<[i1:=default_cell]> (<[f:=c]> cells) !! i1 = Some default_cell) as Hki.
  { apply list_lookup_insert_eq. rewrite length_insert. lia. }
  assert (<[i1:=default_cell]> (<[f:=c]> cells) !! f = Some c) as Hkf.
  { rewrite list_lookup_insert_ne by lia. apply list_lookup_insert_eq. lia. }
  split.
  - by rewrite !length_insert.
  - by rewrite length_insert.
  - lia.
  - intros j c' Hj. destruct (decide (j = f)) as [->|]; [congruence|]. rewrite Hk by lia. apply inv_front0. lia.
  - intros j c' Hj. rewrite Hk by lia. apply inv_hole0. lia.
  - unfold live_cells. rewrite (filter_move in_use cells i1 f c cf); [done|done..|apply default_not_in_use].
  - intros j c' Hj Hl Hc'. destruct (decide (j = i1)) as [->|].
    + rewrite Hki in Hl. simplify_eq. by apply default_not_in_use in Hc'.
    + rewrite Hk in Hl by lia. rewrite list_lookup_insert_ne by done. by apply inv_rest0.
  - intros j c' Hj Hc'. destruct (decide (j = i1)) as [->|]; [rewrite Hdi'; congruence|].
    rewrite Hd by done. pose proof (inv_dest0 j c' Hj Hc') as Hl. rewrite Hk; [done| |].
    + intros E. destruct n. apply (inv_inj0 j i1 c' c); [done..|by rewrite Hdi, E].
    + intros E. rewrite E in Hl. simplify_eq.
  - intros j1 j2 c1 c2 H1 Hc1 H2 Hc2 HE.
    pose proof (inv_dest0 _ _ H1 Hc1) as Hl1. pose proof (inv_dest0 _ _ H2 Hc2) as Hl2.
    destruct (decide (j1 = i1)) as [->|], (decide (j2 = i1)) as [->|]; rewrite ?Hdi' in HE; rewrite ?Hd in HE by done.
    + done.
    + rewrite <- HE in Hl2. simplify_eq.
    + rewrite HE in Hl1. simplify_eq.
    + by apply (inv_inj0 j1 j2 c1 c2).
  - intros j id Hj. destruct (decide (j = i1)) as [->|].
    + rewrite list_lookup_insert_eq in Hj by lia. simplify_eq. intros. split; [lia|eauto].
    + rewrite list_lookup_insert_ne in Hj by done. by apply inv_moved0.
  - intros j id [(<- & <- & ?)|[_ Hj]]%list_lookup_insert_Some; [lia|by apply (inv_bound0 j)].
  - intros c' [?|[->|?]%elem_of_insert_inv]%elem_of_insert_inv; auto.
    right. by apply list_elem_of_lookup_2 in Hi0.
Qed.

(** ** The loops *)

Lemma hole_size_spec n cells i0 nh : (n_used ≤ length cells)%nat → (i0 + nh ≤ n_used)%nat →
  (∀ j c, i0 ≤ j < i0 + nh → cells !! j = Some c → ¬ in_use c)%nat →
  ∃ nh', hole_size n cells n_used i0 nh = Ok nh' ∧ (nh ≤ nh')%nat ∧ (i0 + nh' ≤ n_used)%nat ∧
  (∀ j c, i0 ≤ j < i0 + nh' → cells !! j = Some c → ¬ in_use c)%nat.
Proof.
  intros Hl. induction n as [|n IH] in nh |- *; intros Hle Hh; cbn; [by eexists|].
  bdec (i0 + nh < n_used)%nat as Hlt; [|by eexists].
  destruct (at_lt cells (i0 + nh)) as (c & -> & Hc); [lia|]. cbn.
  destruct (is_empty c) eqn:E; [|by eexists]. apply is_empty_true in E.
  destruct (IH (S nh)) as (nh' & -> & ? & ? & ?); [lia| |exists nh'; split_and!; (done || lia)].
  intros j c' Hj Hl'. destruct (decide (j = i0 + nh)%nat) as [->|]; [by simplify_eq|]. apply (Hh j); [lia|done].
Qed.

(** The cells that fill the hole are the last [nh] cells in use. *)
Lemma find_source_spec src h i0 nh nf cells ids :
  df_inv i0 h cells ids → (i0 < h)%nat → (src < n_kv)%nat → (nf < nh)%nat →
  (nh ≤ nf + count_in in_use h (S src) cells)%nat →
  ∃ src', find_source src i0 n_kv nh nf cells ids = Ok (src', nh) ∧ (h ≤ src' ≤ src)%nat ∧
    (nf + count_in in_use src' (S src) cells = nh)%nat.
Proof using Hlen Hout Hused.
  intros I Hih. pose proof used_le_kv. pose proof (inv_len _ _ _ _ I). pose proof (inv_ids _ _ _ _ I).
  induction src as [|src IH] in nf |- *; intros Hkv Hnf Hc; cbn [find_source].
  { pose proof (count_in_le in_use h 1 cells). lia. }
  destruct (decide (h ≤ S src)%nat) as [Hle|]; [|rewrite count_in_nil in Hc; lia].
  rewrite bool_decide_true by lia.
  destruct (at_lt cells (S src)) as (c & -> & Hl); [lia|]. cbn.
  destruct (at_lt ids (S src)) as (id & -> & Hid); [lia|]. cbn.
  rewrite (count_in_last in_use _ _ _ c) in Hc by done.
  destruct (decide (in_use c)) as [Hu|Hu].
  - rewrite (proj2 (is_empty_false c) Hu), bool_decide_true by (by apply (inv_rest _ _ _ _ I (S src) c)). cbn.
    bdec (S nf = nh) as Hn.
    + exists (S src). split_and!; [by rewrite Hn|lia..|].
      rewrite (count_in_last in_use _ _ _ c), count_in_nil, decide_True by (lia || done). lia.
    + destruct (IH (S nf)) as (src' & -> & ? & ?); [lia..|]. exists src'. split_and!; [done|lia..|].
      rewrite (count_in_last in_use _ _ _ c), decide_True by (lia || done). lia.
  - rewrite (proj2 (is_empty_true c) Hu). cbn.
    destruct (IH nf) as (src' & -> & ? & ?); [lia..|]. exists src'. split_and!; [done|lia..|].
    rewrite (count_in_last in_use _ _ _ c), decide_False by (lia || done). lia.
Qed.

(** The moves counted so far; no move means that nothing changed. *)
Definition df_moves_ok (st : defrag_state) : Prop :=
  0 ≤ df_moves st ≤ max_moves ∧ (df_moved st = true → 0 < df_moves st) ∧
  (df_moved st = false → df_cells st = cells0).

Lemma move_cells_spec n i1 h i0 nh nf cont st :
  (n = n_kv - i1)%nat → (h = i0 + nh)%nat → (nf < nh)%nat → (h ≤ i1)%nat → (n_used ≤ i1)%nat →
  df_inv (i0 + nf) h (df_cells st) (df_ids st) →
  (nf + count_in in_use i1 n_kv (df_cells st) = nh)%nat →
  df_moves_ok st → (cont = false → df_moves st < max_moves) → (cont = true → df_moved st = true) →
  ∃ stop st' f, move_cells n i1 i0 n_kv nh nf cont max_moves st = Ok (stop, st') ∧
    df_inv f h (df_cells st') (df_ids st') ∧ df_moves_ok st' ∧
    (stop = false → f = h) ∧ (stop = true → df_moves st' = max_moves).
Proof using Hlen Hout Hused Hmax.
  intros Hn Hh. induction n as [|n IH] in i1, nf, cont, st, Hn |- *; intros Hnf Hhi Hui I Hc Hm Hcont Hcont'.
  { rewrite count_in_nil in Hc; lia. }
  pose proof (inv_len _ _ _ _ I) as Hlc. pose proof (inv_ids _ _ _ _ I) as Hli. cbn [move_cells].
  destruct (at_lt (df_cells st) i1) as (c & -> & Hl); [lia|]. cbn.
  destruct (at_lt (df_ids st) i1) as (id & -> & Hid); [lia|]. cbn.
  rewrite (count_in_step in_use _ _ _ c) in Hc by (lia || done).
  destruct (decide (in_use c)) as [Hu|Hu].
  - rewrite (proj2 (is_empty_false c) Hu), bool_decide_true by (by apply (inv_rest _ _ _ _ I i1 c)). cbn.
    rewrite !put_lt by (rewrite ?length_insert; lia). cbn.
    rewrite put_lt by (rewrite ?length_insert; lia). cbn.
    pose proof (df_inv_move _ _ _ _ i1 c I ltac:(lia) Hhi Hui Hl Hu) as I'.
    assert (df_moves_ok (DefragState (<[i1:=default_cell]> (<[(i0 + nf)%nat:=c]> (df_cells st)))
      (<[i1:=(i0 + nf)%nat]> (df_ids st)) (if cont then df_moves st else df_moves st + 1) true)) as Hm'.
    { destruct Hm as (? & Hm & _). split; [|split; [intros _|done]]; cbn; destruct cont.
      all: try specialize (Hcont eq_refl). all: auto with lia. }
    bdec (S nf = nh) as Hd.
    + do 2 eexists. exists (S (i0 + nf)). split_and!; [done|apply I'|done|intros; lia|done].
    + apply (IH (S i1) (S nf)); cbn; try (lia || done).
      * by rewrite Nat.add_succ_r.
      * rewrite !count_in_insert_out by lia. lia.
  - rewrite (proj2 (is_empty_true c) Hu). cbn.
    bdec (df_moves st = max_moves) as Hd.
    + do 2 eexists. exists (i0 + nf)%nat. by split_and!.
    + apply (IH (S i1) nf); try (lia || done). intros _. destruct Hm. lia.
Qed.

Lemma defrag_loop_spec n i0 st :
  (n_used ≤ n + i0)%nat → df_inv i0 i0 (df_cells st) (df_ids st) → df_moves_ok st → df_moves st < max_moves →
  ∃ st' f h, defrag_loop n i0 n_used n_kv max_moves st = Ok st' ∧
    df_inv f h (df_cells st') (df_ids st') ∧ df_moves_ok st' ∧ (f = n_used ∨ df_moves st' = max_moves).
Proof using Hlen Hout Hused Hmax.
  pose proof used_le_kv. induction n as [|n IH] in i0, st |- *; intros Hn I Hm Hlt; cbn [defrag_loop].
  { rewrite bool_decide_false by lia. exists st, i0, i0. pose proof (inv_le _ _ _ _ I).
    split_and!; [done..|]. left. lia. }
  pose proof (inv_len _ _ _ _ I) as Hlc. pose proof (inv_ids _ _ _ _ I) as Hli. pose proof (inv_le _ _ _ _ I).
  bdec (i0 < n_used)%nat as Hi; [|exists st, i0, i0; split_and!; [done..|]; left; lia].
  destruct (at_lt (df_cells st) i0) as (c & -> & Hc); [lia|]. cbn.
  destruct (is_empty c) eqn:E; cbn.
  - apply is_empty_true in E.
    destruct (hole_size_spec (n_used - i0) (df_cells st) i0 1) as (nh & -> & ? & ? & Hh); [lia..| |].
    { intros j c' ? Hj. replace j with i0 in Hj by lia. by simplify_eq. }
    cbn. rewrite bool_decide_false by lia.
    pose proof (df_inv_hole _ nh _ _ I ltac:(lia) Hh) as I'. pose proof (count_rest _ _ _ _ I') as Hcount.
    destruct (find_source_spec (n_kv - 1) (i0 + nh) i0 nh 0 (df_cells st) (df_ids st)) as (src & -> & Hsrc & Hcs);
      [done|lia..| |].
    { replace (S (n_kv - 1)) with n_kv by lia. lia. }
    cbn. rewrite bool_decide_true by done. cbn.
    replace (S (n_kv - 1)) with n_kv in Hcs by lia.
    assert (n_used ≤ src)%nat as Hus.
    { rewrite (count_in_split _ _ src) in Hcount by lia.
      pose proof (count_in_le in_use (i0 + nh) src (df_cells st)). lia. }
    destruct (move_cells_spec (n_kv - src) src (i0 + nh) i0 nh 0 false st)
      as (stop & st' & f & -> & I'' & Hm' & Hstop & Hstop'); rewrite ?Nat.add_0_r; try (done || lia).
    cbn. bdec (df_moves st' = max_moves) as Hd.
    { rewrite orb_true_r. exists st', f, (i0 + nh)%nat. by split_and!; [..|right]. }
    destruct stop; [by destruct (Hd (Hstop' eq_refl))|]. cbn.
    rewrite (Hstop eq_refl) in I''. apply IH; [lia|done..|]. destruct Hm'. lia.
  - apply is_empty_false in E. rewrite put_lt by lia. cbn. apply IH; cbn; [lia| |done..].
    by apply (df_inv_skip _ _ _ c).
Qed.

(** ** The copies of the graph *)

Definition moved (ids : list nat) (j id : nat) : Prop := ids !! j = Some id ∧ (id < n_kv)%nat ∧ id ≠ j.

Lemma moved_inj f h cells ids j1 j2 id :
  df_inv f h cells ids → moved ids j1 id → moved ids j2 id → j1 = j2.
Proof.
  intros I (E1 & Hlt & Hn1) (E2 & _ & Hn2).
  destruct (inv_moved _ _ _ _ I _ _ E1) as (_ & c1 & ? & ?); [done..|].
  destruct (inv_moved _ _ _ _ I _ _ E2) as (_ & c2 & ? & ?); [done..|].
  apply (inv_inj _ _ _ _ I j1 j2 c1 c2); try done.
  unfold dest. rewrite E1, E2. by rewrite !decide_True by done.
Qed.

Lemma run_length_spec n ids i id nm :
  (∀ d, d < nm → ids !! (i + d) = Some (id + d))%nat →
  (nm ≤ run_length n ids i id nm ∧
   ∀ d, d < run_length n ids i id nm → ids !! (i + d) = Some (id + d))%nat.
Proof.
  induction n as [|n IH] in nm |- *; intros Hnm; cbn [run_length]; [done|].
  bdec (ids !! (i + nm)%nat = Some (id + nm)%nat) as Hn; [|done].
  destruct (IH (S nm)); [|split; [lia|done]].
  intros d Hd. destruct (decide (d = nm)) as [->|]; [done|apply Hnm; lia].
Qed.

Lemma build_defrag_spec {A} f h cells ids n i (t : list A) :
  df_inv f h cells ids → (n_kv ≤ n + i)%nat → (n_kv ≤ length t)%nat →
  ∃ t', copy_all (build_defrag n ids i) t = Ok t' ∧
    (∀ j id, (i ≤ j)%nat → moved ids j id → t' !! id = t !! j) ∧
    (∀ k, (∀ j, (i ≤ j)%nat → ¬ moved ids j k) → t' !! k = t !! k).
Proof using Hlen Hout Hused.
  intros I. pose proof (inv_ids _ _ _ _ I) as Hli. pose proof used_le_kv.
  induction n as [|n IH] in i, t |- *; intros Hn Ht; cbn [build_defrag].
  { exists t. split_and!; [done| |done]. intros j id Hj (E & _). apply lookup_lt_Some in E. lia. }
  destruct (ids !! i) as [id|] eqn:Ei; cbn.
  2: { apply lookup_ge_None in Ei. exists t. split_and!; [done| |done].
       intros j id Hj (E & _). apply lookup_lt_Some in E. lia. }
  pose proof (lookup_lt_Some _ _ _ Ei) as Hikv. rewrite Hli in *.
  destruct (bool_decide (i = id) || bool_decide (id = n_kv)) eqn:Eb.
  { assert (∀ k, ¬ moved ids i k) as Hnm.
    { intros k (E & ? & ?). simplify_eq.
      apply orb_true_iff in Eb as [?%bool_decide_eq_true|?%bool_decide_eq_true]; lia. }
    destruct (IH (S i) t) as (t' & -> & H1 & H2); [lia..|]. exists t'. split_and!; [done| |].
    - intros j id' Hj Hm. apply H1; [|done]. destruct (decide (i = j)) as [->|]; [by destruct (Hnm id')|lia].
    - intros k Hk. apply H2. intros j Hj. apply Hk. lia. }
  apply orb_false_iff in Eb as [?%bool_decide_eq_false ?%bool_decide_eq_false].
  pose proof (inv_bound _ _ _ _ I _ _ Ei).
  destruct (run_length_spec n_kv ids i id 1) as [Hnm Hrun].
  { intros d Hd. replace d with O by lia. by rewrite !Nat.add_0_r. }
  set (nm := run_length n_kv ids i id 1) in *.
  destruct (inv_moved _ _ _ _ I i id Ei ltac:(lia) ltac:(done)) as [? _].
  assert (∀ d, (d < nm)%nat → moved ids (i + d) (id + d) ∧ (id + d < n_used ≤ i + d)%nat) as Hmv.
  { intros d Hd. pose proof (Hrun d Hd) as E. pose proof (lookup_lt_Some _ _ _ E).
    assert (id + d < n_kv)%nat by lia. split; [split_and!; [done|lia..]|].
    apply (inv_moved _ _ _ _ I (i + d)%nat); [done|lia..]. }
  pose proof (Hmv (nm - 1)%nat ltac:(lia)) as [[?%lookup_lt_Some _] ?].
  cbn [copy_all]. destruct (copy_rows_spec i id nm t) as (t1 & -> & Ht1 & Hl1); [lia..|]. cbn.
  destruct (IH (i + nm)%nat t1) as (t' & -> & Hto & Hrest); [lia..|]. exists t'. split_and!; [done| |].
  - intros j id' Hj Hm. destruct (decide (i + nm ≤ j)%nat) as [Hge|Hlt].
    + rewrite (Hto j id') by done. rewrite Hl1, decide_False; [done|].
      destruct Hm as (E & ? & ?). destruct (inv_moved _ _ _ _ I _ _ E) as [? _]; [done..|].
      destruct (Hmv (nm - 1)%nat); lia.
    + destruct (Hmv (j - i)%nat) as [(E & _) _]; [lia|]. replace (i + (j - i))%nat with j in E by lia.
      assert (id' = id + (j - i))%nat as -> by (destruct Hm; congruence).
      rewrite Hrest; [rewrite Hl1, decide_True by lia; f_equal; lia|].
      intros j' Hj' Hm'. assert (j' = j) by (by apply (moved_inj f h cells ids j' j (id + (j - i)))). lia.
  - intros k Hk. rewrite Hrest by (intros j Hj; apply Hk; lia). rewrite Hl1, decide_False; [done|].
    intros Hin. destruct (Hmv (k - id)%nat) as [Hm _]; [lia|]. apply (Hk (i + (k - id))%nat); [lia|].
    by replace k with (id + (k - id))%nat at 2 by lia.
Qed.
End defrag.

(** ** The plan of a well-formed cache *)

Definition n_used_of (kv : llama_kv_cache) : nat := Z.to_nat (kv_used kv).
Definition n_kv_of (kv : llama_kv_cache) : nat := Z.to_nat (llama_kv_cache_cell_max kv).

Lemma wf_defrag kv : kv_wf kv →
  (n_kv_of kv ≤ length (kv_cells kv))%nat ∧
  (∀ j c, (n_kv_of kv ≤ j)%nat → kv_cells kv !! j = Some c → ¬ in_use c) ∧
  length (live_cells (kv_cells kv)) = n_used_of kv.
Proof.
  intros []. destruct (cell_max_from_spec (kv_cells kv) (n_kv_of kv)) as (? & ? & _); [done..|].
  split_and!; [done..|]. unfold n_used_of. lia.
Qed.

Lemma defrag_plan_inv kv max_moves : kv_wf kv → 0 < max_moves →
  ∃ st f h, llama_kv_cache_defrag_plan kv max_moves =
      Ok (with_state kv (if df_moved st then kv_used kv else kv_head kv) (kv_used kv) (df_cells st),
          df_ids st, df_moves st) ∧
    df_inv (kv_cells kv) (n_used_of kv) (n_kv_of kv) f h (df_cells st) (df_ids st) ∧
    df_moves_ok (kv_cells kv) max_moves st ∧ (f = n_used_of kv ∨ df_moves st = max_moves).
Proof.
  intros Hwf Hmax. destruct (wf_defrag kv Hwf) as (Hlen & Hout & Hused).
  unfold llama_kv_cache_defrag_plan. fold (n_used_of kv) (n_kv_of kv).
  edestruct (defrag_loop_spec (kv_cells kv) (n_used_of kv) (n_kv_of kv) max_moves Hlen Hout Hused Hmax (n_used_of kv) 0
    (DefragState (kv_cells kv) (replicate (n_kv_of kv) (n_kv_of kv)) 0 false)) as (st & f & h & -> & I & Hm & Hf).
  - lia.
  - by apply df_inv_init.
  - by split_and!; cbn; [lia|lia|..].
  - done.
  - by exists st, f, h.
Qed.

Lemma remap_live kv kv' f h ids j c :
  df_inv (kv_cells kv) (n_used_of kv) (n_kv_of kv) f h (kv_cells kv') ids → kv_wf kv →
  kv_cells kv !! j = Some c → in_use c →
  remap_cell_id_after_defrag kv' ids j = Ok (Z.of_nat (dest (n_kv_of kv) ids j)).
Proof.
  intros I Hwf Hj Hc. destruct (wf_defrag kv Hwf) as (Hlen & Hout & Hused).
  assert (j < n_kv_of kv)%nat as Hlt.
  { destruct (decide (j < n_kv_of kv)%nat); [done|]. destruct (Hout j c); [lia|done..]. }
  pose proof (inv_dest _ _ _ _ _ _ _ I j c Hj Hc) as Hd. pose proof (inv_ids _ _ _ _ _ _ _ I) as Hli.
  unfold remap_cell_id_after_defrag. rewrite Hli, bool_decide_false by lia.
  unfold dest in *. destruct (at_lt ids j) as (id & -> & E); [lia|]. rewrite E in *. cbn.
  destruct (decide (id < n_kv_of kv)%nat); [by rewrite bool_decide_true|].
  rewrite bool_decide_false, bool_decide_true by (done || by eapply lookup_lt_Some).
  unfold at_. rewrite Hd. cbn. by rewrite (proj2 (is_empty_false c) Hc).
Qed.

Lemma plan_wf kv head f h cells ids : kv_wf kv →
  df_inv (kv_cells kv) (n_used_of kv) (n_kv_of kv) f h cells ids → head = kv_used kv ∨ head = kv_head kv →
  kv_wf (with_state kv head (kv_used kv) cells).
Proof.
  intros Hwf I Hh. pose proof (wf_used_le kv Hwf). destruct Hwf. split; cbn; try done.
  - by rewrite (inv_len _ _ _ _ _ _ _ I).
  - apply Forall_forall. intros c [->|Hc]%(inv_cells _ _ _ _ _ _ _ I); [apply default_cell_ok|].
    by apply (proj1 (Forall_forall _ _) wf_cells).
  - apply Forall_forall. intros c [->|Hc]%(inv_cells _ _ _ _ _ _ _ I); [by left|].
    by apply (proj1 (Forall_forall _ _) wf_src).
  - by rewrite (Permutation_length (inv_perm _ _ _ _ _ _ _ I)).
  - destruct Hh as [->| ->]; lia.
  - intros Hs. apply Forall_forall. intros c [->|Hc]%(inv_cells _ _ _ _ _ _ _ I); [done|].
    by apply (proj1 (Forall_forall _ _) (wf_delta Hs)).
Qed.

(** C13. Defragmentation always ends with a plan: the cache stays well-formed with the
    same cells in use, at most [max_moves] moves are made, and unless all are made
    the cells in use are the first ones. *)
Theorem defrag_plan_correct kv max_moves : kv_wf kv → 0 < max_moves →
  ∃ kv' ids moves, llama_kv_cache_defrag_plan kv max_moves = Ok (kv', ids, moves) ∧
    kv_wf kv' ∧ live_cells (kv_cells kv') ≡ₚ live_cells (kv_cells kv) ∧
    0 ≤ moves ≤ max_moves ∧ (moves = 0 → kv' = kv) ∧
    (moves < max_moves → ∀ j c, Z.of_nat j < kv_used kv → kv_cells kv' !! j = Some c → in_use c).
Proof.
  intros Hwf Hmax. destruct (defrag_plan_inv kv max_moves Hwf Hmax) as (st & f & h & -> & I & (Hm & Hmd & Hnm) & Hf).
  do 3 eexists. split; [done|]. split_and!.
  - apply (plan_wf kv _ f h _ (df_ids st)); [done..|]. destruct (df_moved st); auto.
  - apply I.
  - lia.
  - lia.
  - intros H0. destruct (df_moved st); [lia|]. rewrite (Hnm eq_refl). by destruct kv.
  - intros Hlt j c Hj. destruct Hf as [->|]; [|lia]. apply (inv_front _ _ _ _ _ _ _ I). unfold n_used_of. lia.
Qed.

Lemma defrag_plan_correct_witness :
  ∃ kv' ids moves, llama_kv_cache_defrag_plan holes_kv 4 = Ok (kv', ids, moves) ∧
    kv_wf kv' ∧ live_cells (kv_cells kv') ≡ₚ live_cells (kv_cells holes_kv) ∧
    0 ≤ moves ≤ 4 ∧ (moves = 0 → kv' = holes_kv) ∧
    (moves < 4 → ∀ j c, Z.of_nat j < kv_used holes_kv → kv_cells kv' !! j = Some c → in_use c).
Proof. exact (defrag_plan_correct holes_kv 4 holes_kv_wf ltac:(lia)). Defined.

(** ** Selections of cells *)

Lemma remap_total kv ids j : ∃ r, remap_cell_id_after_defrag kv ids j = Ok r.
Proof.
  unfold remap_cell_id_after_defrag. bdec (length ids ≤ j)%nat as Hj; [by eexists|].
  destruct (at_lt ids j) as (id & -> & _); [lia|]. cbn. case_bool_decide; [by eexists|].
  bdec (j < length (kv_cells kv))%nat as Hc; [|by eexists].
  destruct (at_lt (kv_cells kv) j) as (c & -> & _); [done|]. by eexists.
Qed.

Lemma remap_topk_spec kv ids topk :
  ∃ topk', remap_topk kv ids topk = Ok topk' ∧ ∀ i t, topk !! i = Some t →
    if decide (t < 0) then topk' !! i = Some t
    else ∃ r, remap_cell_id_after_defrag kv ids (Z.to_nat t) = Ok r ∧ topk' !! i = Some r.
Proof.
  unfold remap_topk. induction topk as [|t topk (topk' & IH & Hi)]; [by eexists|].
  assert (∃ r, (if bool_decide (t < 0) then Ok t else remap_cell_id_after_defrag kv ids (Z.to_nat t)) = Ok r ∧
    if decide (t < 0) then r = t else remap_cell_id_after_defrag kv ids (Z.to_nat t) = Ok r) as (r & Hr & Hr').
  { bdec (t < 0) as Ht; [by eexists|]. destruct (remap_total kv ids (Z.to_nat t)) as [r Hr]. by exists r. }
  exists (r :: topk'). split; [cbn; by rewrite Hr, IH|].
  intros [|i] t' Hl; cbn in *; simplify_eq; [|by apply Hi].
  destruct (decide (t' < 0)); [congruence|eauto].
Qed.

Lemma remap_valid_loop_spec kv ids n old valid remapped :
  ∃ r, remap_valid_loop kv ids n old valid remapped = Ok r ∧ length r = length remapped ∧
    ∀ k, r !! k = Some true ↔ remapped !! k = Some true ∨
      (k < length remapped)%nat ∧ ∃ j, (old ≤ j < old + n)%nat ∧ valid !! j = Some true ∧
        remap_cell_id_after_defrag kv ids j = Ok (Z.of_nat k).
Proof.
  induction n as [|n IH] in old, remapped |- *; cbn.
  { exists remapped. split_and!; [done..|]. intros k. split; [auto|]. intros [?|(_ & j & ? & _)]; [done|lia]. }
  destruct (remap_total kv ids old) as [r Hr]. rewrite Hr. cbn.
  set (b := _ && _ && _). edestruct (IH (S old) (if b then <[Z.to_nat r:=true]> remapped else remapped)) as (r' & -> & Hl & Hk).
  assert (length (if b then <[Z.to_nat r:=true]> remapped else remapped) = length remapped) as Hlen.
  { destruct b; [apply length_insert|done]. }
  exists r'. split_and!; [done|congruence|]. intros k. rewrite Hk, Hlen. clear Hk.
  assert ((if b then <[Z.to_nat r:=true]> remapped else remapped) !! k = Some true ↔
    remapped !! k = Some true ∨ (k < length remapped)%nat ∧ valid !! old = Some true ∧ r = Z.of_nat k) as ->.
  { destruct b eqn:Eb.
    - subst b. apply andb_true_iff in Eb as [[Hv%bool_decide_eq_true H0%bool_decide_eq_true]%andb_true_iff
        H1%bool_decide_eq_true].
      rewrite list_lookup_insert_Some. split.
      + intros [(<- & _ & _)|[? ?]]; [right; split_and!; [lia|done|lia]|by left].
      + intros [?|(? & _ & ->)]; [|left; split_and!; [lia|done|lia]].
        destruct (decide (Z.to_nat r = k)); [left; split_and!; [done..|lia]|by right].
    - split; [by left|]. intros [?|(Hk & Hv & ->)]; [done|]. subst b.
      rewrite !bool_decide_true in Eb by (done || lia). done. }
  split.
  - intros [[?|(? & ? & ->)]|(? & j & ? & ? & ?)]; [by left|..]; right; (split; [done|]).
    + exists old. split_and!; [lia..|done|done].
    + exists j. split_and!; [lia..|done|done].
  - intros [?|(? & j & ? & ? & ?)]; [by left; left|].
    destruct (decide (j = old)) as [->|]; [left; right; split_and!; [done|done|congruence]|].
    right. split; [done|]. exists j. split_and!; [lia..|done|done].
Qed.

Lemma dest_le kv f h cells ids j :
  df_inv (kv_cells kv) (n_used_of kv) (n_kv_of kv) f h cells ids → (dest (n_kv_of kv) ids j ≤ j)%nat.
Proof.
  intros I. unfold dest. destruct (ids !! j) as [id|] eqn:E; [|done]. destruct (decide _); [|done].
  destruct (decide (id = j)) as [->|]; [done|]. destruct (inv_moved _ _ _ _ _ _ _ I j id); [done..|lia].
Qed.

(** The row at the new index of a cell in use is the cell's. *)
Lemma dest_row {A} kv f h cells ids (tensor tensor' : list A) j c :
  df_inv (kv_cells kv) (n_used_of kv) (n_kv_of kv) f h cells ids →
  kv_cells kv !! j = Some c → in_use c →
  (∀ j id, (0 ≤ j)%nat → moved (n_kv_of kv) ids j id → tensor' !! id = tensor !! j) →
  (∀ k, (∀ j, (0 ≤ j)%nat → ¬ moved (n_kv_of kv) ids j k) → tensor' !! k = tensor !! k) →
  tensor' !! dest (n_kv_of kv) ids j = tensor !! j.
Proof.
  intros I Hc Hu Hto Hrest. destruct (decide (dest (n_kv_of kv) ids j = j)) as [E|Hn].
  - rewrite E. apply Hrest. intros j' _ Hm. pose proof Hm as (E' & Hlt & Hne).
    destruct (inv_moved _ _ _ _ _ _ _ I j' j) as (_ & c' & Hc' & Hu'); [done..|].
    destruct Hne. apply (inv_inj _ _ _ _ _ _ _ I j j' c c'); try done.
    rewrite E. unfold dest. by rewrite E', decide_True.
  - apply Hto; [lia|]. unfold dest in *. destruct (ids !! j) as [id|] eqn:E; [|done].
    destruct (decide _); [|done]. done.
Qed.

(** C14. After defragmentation every cell in use, its row in a tensor, its place in a
    selection and its mark are found at one new index [f j]. *)
Theorem defrag_moves_data {A} kv max_moves topk valid (tensor : list A) :
  kv_wf kv → 0 < max_moves → (length (kv_cells kv) ≤ length tensor)%nat →
  (∀ j, valid !! j = Some true → ∃ c, kv_cells kv !! j = Some c ∧ in_use c) →
  ∃ kv' topk' valid' copies tensor' (f : nat → nat),
    llama_kv_cache_defrag_internal kv max_moves topk valid = Ok (kv', topk', valid', copies) ∧
    copy_all (default [] copies) tensor = Ok tensor' ∧
    (∀ j c, kv_cells kv !! j = Some c → in_use c →
      kv_cells kv' !! f j = Some c ∧ tensor' !! f j = tensor !! j ∧
      (∀ i, topk !! i = Some (Z.of_nat j) → topk' !! i = Some (Z.of_nat (f j)))) ∧
    (∀ j1 j2 c1 c2, kv_cells kv !! j1 = Some c1 → in_use c1 → kv_cells kv !! j2 = Some c2 → in_use c2 →
      f j1 = f j2 → j1 = j2) ∧
    (∀ k, valid' !! k = Some true ↔ ∃ j, valid !! j = Some true ∧ f j = k).
Proof.
  intros Hwf Hmax Ht Hv. destruct (wf_defrag kv Hwf) as (Hlen & Hout & Hused).
  destruct (defrag_plan_inv kv max_moves Hwf Hmax) as (st & f & h & Hp & I & (Hm & Hmd & Hnm) & _).
  unfold llama_kv_cache_defrag_internal. rewrite Hp. cbn [mbind res_bind].
  bdec (df_moves st = 0) as H0.
  { destruct (df_moved st); [lia|]. rewrite (Hnm eq_refl). cbn.
    do 4 eexists. exists tensor, id. split_and!; [done|done|by auto|done|].
    intros k. split; [by exists k|]. by intros (j & ? & <-). }
  set (kv' := with_state _ _ _ _). destruct (remap_topk_spec kv' (df_ids st) topk) as (topk' & -> & Htopk).
  assert (∀ j, valid !! j = Some true → ∃ c, kv_cells kv !! j = Some c ∧ in_use c ∧ (j < n_kv_of kv)%nat) as Hv'.
  { intros j Hj. destruct (Hv j Hj) as (c & Hc & Hu). exists c. split_and!; [done..|].
    destruct (decide (j < n_kv_of kv)%nat); [done|]. destruct (Hout j c); [lia|done..]. }
  pose proof (inv_ids _ _ _ _ _ _ _ I) as Hli.
  assert (∃ valid', remap_valid kv' (df_ids st) valid = Ok valid' ∧ ∀ k,
    valid' !! k = Some true ↔ ∃ j, valid !! j = Some true ∧ dest (n_kv_of kv) (df_ids st) j = k) as (valid' & -> & Hvalid).
  { unfold remap_valid. bdec (valid = []) as Hn.
    { subst valid. exists []. split; [done|]. intros k. split; [done|]. by intros (j & ? & _). }
    destruct (remap_valid_loop_spec kv' (df_ids st) (length (df_ids st)) 0 valid (replicate (length valid) false))
      as (valid' & -> & _ & Hk). exists valid'. split; [done|]. intros k. rewrite Hk, length_replicate. split.
    - intros [[? _]%lookup_replicate|(_ & j & _ & Hj & Hr)]; [done|]. exists j. split; [done|].
      destruct (Hv' j Hj) as (c & Hc & Hu & _). rewrite (remap_live kv kv' f h _ j c) in Hr by done. injection Hr. lia.
    - intros (j & Hj & <-). destruct (Hv' j Hj) as (c & Hc & Hu & Hlt). right.
      pose proof (remap_live kv kv' f h _ j c I Hwf Hc Hu) as Hr.
      split; [|exists j; split_and!; [lia|lia|done|done]]. pose proof (lookup_lt_Some _ _ _ Hj).
      pose proof (dest_le kv f h (kv_cells kv') (df_ids st) j I). lia. }
  destruct (build_defrag_spec (kv_cells kv) (n_used_of kv) (n_kv_of kv) Hlen Hout Hused f h (kv_cells kv')
    (df_ids st) (length (df_ids st)) 0 tensor) as (tensor' & Hcp & Hto & Hrest); [done|lia..|].
  cbn. do 4 eexists. exists tensor', (dest (n_kv_of kv) (df_ids st)).
  split_and!; [done|done| |intros; by eapply (inv_inj _ _ _ _ _ _ _ I)|done].
  intros j c Hc Hu. split_and!.
  - by apply (inv_dest _ _ _ _ _ _ _ I).
  - by apply (dest_row kv f h (kv_cells kv') (df_ids st) tensor tensor' j c).
  - intros i Hi. pose proof (Htopk i _ Hi) as Hr. rewrite decide_False in Hr by lia.
    destruct Hr as (r & Hr & ->). rewrite Nat2Z.id, (remap_live kv kv' f h _ j c) in Hr by done. congruence.
Qed.

Lemma defrag_moves_data_witness :
  ∃ kv' topk' valid' copies tensor' (f : nat → nat),
    llama_kv_cache_defrag_internal holes_kv 4 [3; -1] [false; true; false; true] = Ok (kv', topk', valid', copies) ∧
    copy_all (default [] copies) [10; 11; 12; 13] = Ok tensor' ∧
    (∀ j c, kv_cells holes_kv !! j = Some c → in_use c →
      kv_cells kv' !! f j = Some c ∧ tensor' !! f j = [10; 11; 12; 13] !! j ∧
      (∀ i, [3; -1] !! i = Some (Z.of_nat j) → topk' !! i = Some (Z.of_nat (f j)))) ∧
    (∀ j1 j2 c1 c2, kv_cells holes_kv !! j1 = Some c1 → in_use c1 → kv_cells holes_kv !! j2 = Some c2 → in_use c2 →
      f j1 = f j2 → j1 = j2) ∧
    (∀ k, valid' !! k = Some true ↔ ∃ j, [false; true; false; true] !! j = Some true ∧ f j = k).
Proof.
  apply (defrag_moves_data holes_kv 4 [3; -1] [false; true; false; true] [10; 11; 12; 13]).
  - exact holes_kv_wf.
  - lia.
  - cbn. lia.
  - intros [|[|[|[|j]]]] Hj; try discriminate Hj; eexists; (split; [reflexivity|]);
      apply (bool_decide_unpack _); vm_compute; exact I.
Defined.
