(* ===== verification/KvSpec.v ===== *)
(** * The KV cache as a collection of entries

    The abstract state of the cache is the list of its entries up to order: what
    the cells in use hold, without the bookkeeping of the array.  Every operation
    on the cells refines an operation on entries and keeps the cache well-formed,
    hence so does every history of operations. *)
From S2P Require Import Prelude KvCache KvLemmas KvSlot KvDefrag.

(** ** Entries *)

Record entry := Entry {
  e_pos : Z; e_delta : Z; e_token : Z; e_h : Z; e_w : Z; e_e : Z; e_seqs : gset Z }.

Definition entry_of (c : llama_kv_cell) : entry :=
  Entry (c_pos c) (c_delta c) (c_token c) (c_pos_h c) (c_pos_w c) (c_pos_e c) (c_seq_id c).

Definition contents (kv : llama_kv_cache) : list entry := entry_of <$> live_cells (kv_cells kv).

(** ** The operations on entries *)

Definition e_with_seqs (e : entry) (s : gset Z) : entry :=
  Entry (e_pos e) (e_delta e) (e_token e) (e_h e) (e_w e) (e_e e) s.

Definition e_between (p0 p1 : Z) (e : entry) : bool :=
  bool_decide (range_lo p0 ≤ e_pos e) && bool_decide (e_pos e < range_hi p1).

Definition e_member (s : Z) (e : entry) : bool := bool_decide (s ∈ e_seqs e).

(** Leaving a sequence ([seq < 0]: all of them); an entry without one is gone. *)
Definition spec_rm (seq p0 p1 : Z) (e : entry) : option entry :=
  if e_between p0 p1 e then
    let s := if decide (seq < 0) then ∅ else e_seqs e ∖ {[seq]} in
    if decide (s = ∅) then None else Some (e_with_seqs e s)
  else Some e.

Definition spec_keep (seq : Z) (e : entry) : option entry :=
  if e_member seq e then Some (e_with_seqs e {[seq]}) else None.

Definition spec_cp (src dst p0 p1 : Z) (e : entry) : option entry :=
  Some (if e_member src e && e_between p0 p1 e then e_with_seqs e (e_seqs e ∪ {[dst]}) else e).

(** Shifting; an entry that would get a negative position is gone. *)
Definition spec_add (mrope : bool) (seq p0 p1 delta : Z) (e : entry) : option entry :=
  if e_member seq e && e_between p0 p1 e then
    let d := if mrope then delta else 0 in
    let pos := i32 (e_pos e + delta) in
    if decide (pos < 0) then None
    else Some (Entry pos (i32 (e_delta e + delta)) (e_token e) (i32 (e_h e + d)) (i32 (e_w e + d)) (e_e e) (e_seqs e))
  else Some e.

Definition spec_div (mrope : bool) (seq p0 p1 d : Z) (e : entry) : option entry :=
  Some (if e_member seq e && e_between p0 p1 e then
    let pos := e_pos e ÷ d in
    Entry pos (i32 (e_delta e + (pos - e_pos e))) (e_token e)
      (if mrope then e_h e ÷ d else e_h e) (if mrope then e_w e ÷ d else e_w e) (e_e e) (e_seqs e)
  else e).

Definition spec_shift_applied (e : entry) : option entry :=
  Some (Entry (e_pos e) 0 (e_token e) (e_h e) (e_w e) (e_e e) (e_seqs e)).

(** The entries of a batch. *)
Definition batch_entry (mrope : bool) (b : llama_batch) (embd_token : Z) (i : nat) : option entry :=
  pos ← b_pos b !! i;
  token ← match b_token b with Some toks => toks !! i | None => Some embd_token end;
  seqs ← b_seq_id b !! i;
  if mrope then
    h ← b_pos b !! (n_tokens b + i)%nat;
    w ← b_pos b !! (2 * n_tokens b + i)%nat;
    e ← b_pos b !! (3 * n_tokens b + i)%nat;
    Some (Entry pos 0 token h w e (list_to_set seqs))
  else Some (Entry pos 0 token pos pos 0 (list_to_set seqs)).

Definition batch_entries (mrope : bool) (b : llama_batch) (embd_token : Z) : list entry :=
  omap (batch_entry mrope b embd_token) (seq 0 (n_tokens b)).

(** A batch the callers may pass. *)
Record batch_ok (mrope : bool) (b : llama_batch) : Prop := {
  batch_pos : ((if mrope then 4 else 1) * n_tokens b ≤ length (b_pos b))%nat;
  batch_token : ∀ toks, b_token b = Some toks → (n_tokens b ≤ length toks)%nat;
  batch_nonneg : ∀ i p, (i < n_tokens b)%nat → b_pos b !! i = Some p → 0 ≤ p;
  batch_seqs : Forall (λ s, s ≠ []) (b_seq_id b) }.

(** ** One cell *)

(** The cell [c'] is what an operation [f] on entries makes of the cell [c] at [i]. *)
Definition cell_step (f : entry → option entry) (i : Z) (c c' : llama_kv_cell) : Prop :=
  cell_ok c' ∧ (in_use c' → in_use c) ∧
  (in_use c → f (entry_of c) = if decide (in_use c') then Some (entry_of c') else None) ∧
  (c_src c' = c_src c ∨ c_src c' = i).

Definition live_count (c : llama_kv_cell) : Z := if decide (in_use c) then 1 else 0.

(** A loop over cells [i], [i+1], … makes [cells'] of [cells], counting the freed
    ones in [used] and remembering one in [new_head]. *)
Record loop_ok (f : entry → option entry) (i : Z) (cells cells' : list llama_kv_cell)
    (used used' new_head new_head' : Z) : Prop := {
  loop_cells : ∀ k c', cells' !! k = Some c' → ∃ c, cells !! k = Some c ∧ cell_step f (i + Z.of_nat k) c c';
  loop_len : length cells' = length cells;
  loop_contents : entry_of <$> live_cells cells' = omap f (entry_of <$> live_cells cells);
  loop_used : used' = used - (Z.of_nat (length (live_cells cells)) - Z.of_nat (length (live_cells cells')));
  loop_head : new_head' = new_head ∨ i ≤ new_head' < i + Z.of_nat (length cells) }.

Lemma live_cells_cons c cells : live_cells (c :: cells) = if decide (in_use c) then c :: live_cells cells else live_cells cells.
Proof. apply filter_cons. Qed.

Lemma live_cells_len_cons c cells :
  Z.of_nat (length (live_cells (c :: cells))) = live_count c + Z.of_nat (length (live_cells cells)).
Proof. rewrite live_cells_cons. unfold live_count. destruct (decide (in_use c)); cbn [length]; lia. Qed.

Lemma loop_ok_nil f i used new_head : loop_ok f i [] [] used used new_head new_head.
Proof. split; try done; cbn; try lia; auto. Qed.

Lemma loop_ok_cons f i c c' cells cells' used used1 used' nh nh1 nh' :
  cell_step f i c c' → used1 = used - (live_count c - live_count c') → nh1 = nh ∨ nh1 = i →
  loop_ok f (i + 1) cells cells' used1 used' nh1 nh' →
  loop_ok f i (c :: cells) (c' :: cells') used used' nh nh'.
Proof.
  intros Hc -> Hnh [Hcs Hlen Hcont -> Hh]. pose proof Hc as (_ & Hback & Hf & _). split.
  - intros [|k] d; cbn.
    + intros [= <-]. exists c. rewrite Z.add_0_r. done.
    + intros Hd. destruct (Hcs k d Hd) as (d' & ? & ?). exists d'. split; [done|].
      by replace (i + Z.of_nat (S k)) with (i + 1 + Z.of_nat k) by lia.
  - cbn. congruence.
  - rewrite !live_cells_cons. destruct (decide (in_use c)) as [Hu|Hu], (decide (in_use c')) as [Hu'|Hu'].
    + cbn. rewrite (Hf Hu). by f_equal.
    + cbn. by rewrite (Hf Hu).
    + by destruct Hu; apply Hback.
    + done.
  - rewrite !live_cells_len_cons. lia.
  - cbn [length]. destruct Hnh as [->| ->], Hh as [->|?]; lia || auto.
Qed.

(** A loop over all cells keeps the cache well-formed. *)
Lemma loop_ok_wf f kv kv' nh : kv_wf kv →
  loop_ok f 0 (kv_cells kv) (kv_cells kv') (kv_used kv) (kv_used kv') (kv_size kv) nh →
  kv_size kv' = kv_size kv → kv_recurrent kv' = kv_recurrent kv →
  0 ≤ kv_head kv' ≤ kv_size kv →
  (kv_has_shift kv' = false → ∀ k c c', kv_cells kv !! k = Some c → kv_cells kv' !! k = Some c' →
     kv_has_shift kv = false ∧ c_delta c' = c_delta c ∨ c_delta c' = 0) →
  kv_wf kv' ∧ contents kv' = omap f (contents kv).
Proof.
  intros [] [Hcs Hlen Hcont Hused _] Hsize Hrec Hhead Hdelta. split; [|done].
  assert (∀ (P : llama_kv_cell → Prop), (∀ k c c', kv_cells kv !! k = Some c → kv_cells kv' !! k = Some c' →
    cell_step f (Z.of_nat k) c c' → P c') → Forall P (kv_cells kv')) as Hall.
  { intros P HP. apply Forall_lookup_2. intros k c' Hk. destruct (Hcs k c' Hk) as (c & Hc & Hst).
    by apply (HP k c c'). }
  split.
  - by rewrite Hlen, Hsize.
  - by rewrite Hsize.
  - apply Hall. by intros k c c' _ _ [? _].
  - apply Hall. intros k c c' Hc _ (_ & _ & _ & [->| ->]); rewrite Hsize.
    + by apply (Forall_lookup_1 _ _ _ _ wf_src Hc).
    + right. apply lookup_lt_Some in Hc. lia.
  - rewrite Hused, wf_used. lia.
  - by rewrite Hsize.
  - intros Hs. apply Hall. intros k c c' Hc Hc' _. destruct (Hdelta Hs k c c' Hc Hc') as [[Hs0 Hd]|]; [|done].
    pose proof (Forall_lookup_1 _ _ _ _ (wf_delta Hs0) Hc) as H0. cbn in H0. congruence.
  - congruence.
Qed.

(** ** The loops *)

Lemma e_between_of p0 p1 c : e_between p0 p1 (entry_of c) = in_range c (range_lo p0) (range_hi p1).
Proof. done. Qed.
Lemma e_member_of s c : e_member s (entry_of c) = has_seq_id c s.
Proof. done. Qed.

Lemma in_range_use p0 p1 c : cell_ok c → in_range c (range_lo p0) (range_hi p1) = true → in_use c.
Proof.
  intros Hok [H%bool_decide_eq_true _]%andb_true_iff. apply Hok. unfold range_lo in H. case_bool_decide; lia.
Qed.

Lemma has_seq_use s c : has_seq_id c s = true → in_use c.
Proof. intros H%bool_decide_eq_true E. rewrite E in H. by apply elem_of_empty in H. Qed.

Lemma freed_not_in_use c : ¬ in_use (with_seq (freed_cell c) ∅).
Proof. intros H. by apply H. Qed.

(** A cell that an operation leaves alone, changes in place, or frees. *)
Lemma cell_step_same (f : entry → option entry) i c : cell_ok c → (in_use c → f (entry_of c) = Some (entry_of c)) →
  cell_step f i c c.
Proof. intros Hok Hf. split_and!; [done..| |by left]. intros Hu. rewrite decide_True by done. auto. Qed.

Lemma cell_step_change (f : entry → option entry) i c c' : in_use c → in_use c' → 0 ≤ c_pos c' → c_src c' = c_src c →
  f (entry_of c) = Some (entry_of c') → cell_step f i c c'.
Proof.
  intros Hu Hu' Hp Hs Hf. split_and!; [by split|done| |by left]. by rewrite decide_True.
Qed.

Lemma cell_step_free (f : entry → option entry) i c c' : c_seq_id c' = ∅ → c_pos c' = -1 →
  c_src c' = c_src c ∨ c_src c' = i → (in_use c → f (entry_of c) = None) → cell_step f i c c'.
Proof.
  intros Hs Hp Hsrc Hf. assert (¬ in_use c') as Hn by (unfold in_use; rewrite Hs; tauto).
  split_and!; [split; [lia|done]|done| |done]. rewrite decide_False by done. done.
Qed.

Lemma live_count_free c c' : in_use c → c_seq_id c' = ∅ → live_count c - live_count c' = 1.
Proof.
  intros Hu Hs. unfold live_count. rewrite decide_True, decide_False by (done || (unfold in_use; rewrite Hs; tauto)). done.
Qed.
Lemma live_count_keep c c' : in_use c → in_use c' → live_count c - live_count c' = 0.
Proof. intros. unfold live_count. by rewrite !decide_True. Qed.
Lemma live_count_range c : 0 ≤ live_count c ≤ 1.
Proof. unfold live_count. destruct (decide _); lia. Qed.

Lemma cell_step_count f i c c' : cell_step f i c c' → 0 ≤ live_count c' ≤ live_count c.
Proof. intros (_ & ? & _). unfold live_count. repeat destruct (decide _); tauto || lia. Qed.

Lemma map_ok f g i cells used nh : Forall cell_ok cells →
  (∀ k c, cell_ok c → cell_step f k c (g c) ∧ (in_use c → in_use (g c))) →
  loop_ok f i cells (g <$> cells) used used nh nh.
Proof.
  intros Hok Hg. revert i. induction Hok as [|c cells Hc _ IH]; intros i; [apply loop_ok_nil|].
  destruct (Hg i c Hc) as [Hst Hu]. apply (loop_ok_cons _ _ _ _ _ _ _ used _ _ nh); [done| |by left|apply IH].
  unfold live_count. destruct Hst as (_ & ? & _). repeat destruct (decide _); try lia; tauto.
Qed.

(** *** Removing *)

Lemma rm_track_used effect seq c p0 p1 a :
  rm_used (rm_track effect seq c p0 p1 a) = rm_used a ∧ rm_new_head (rm_track effect seq c p0 p1 a) = rm_new_head a.
Proof. unfold rm_track. destruct effect; [|done]. repeat case_match; done. Qed.

Lemma rm_cell_ok kv tr seq p0 p1 i c a : cell_ok c → live_count c ≤ rm_used a < 2 ^ 32 →
  let '(c', a') := rm_cell kv tr seq (range_lo p0) (range_hi p1) i c a in
  cell_step (spec_rm seq p0 p1) (Z.of_nat i) c c' ∧
  rm_used a' = rm_used a - (live_count c - live_count c') ∧
  (rm_new_head a' = rm_new_head a ∨ rm_new_head a' = Z.of_nat i) ∧ c_delta c' = c_delta c.
Proof.
  intros Hok Hu. unfold rm_cell. destruct (in_range c _ _) eqn:Er; cbn [andb].
  2: { split_and!; [apply cell_step_same; [done|]|lia|by left|done].
       intros _. unfold spec_rm. by rewrite e_between_of, Er. }
  pose proof (in_range_use _ _ _ Hok Er) as Huse. rewrite (proj2 (is_empty_false c) Huse). cbn [negb andb].
  pose proof (proj2 Hok Huse) as Hpos.
  assert (live_count c = 1) as Hl by (unfold live_count; by rewrite decide_True).
  set (s := if bool_decide (seq < 0) then ∅ else c_seq_id c ∖ {[seq]}).
  assert (Hspec : spec_rm seq p0 p1 (entry_of c) =
    if decide (s = ∅) then None else Some (e_with_seqs (entry_of c) s)).
  { unfold spec_rm. rewrite e_between_of, Er. subst s. by bdec (seq < 0) as Hs. }
  destruct (bool_decide (seq < 0) || bool_decide (0 ≤ seq) && has_seq_id c seq) eqn:Et.
  - destruct (is_empty (with_seq c s)) eqn:Ee.
    + apply is_empty_true in Ee. assert (s = ∅) as Es by (by apply dec_stable).
      rewrite decide_True in Hspec by done. rewrite bool_decide_true by done. cbn [rm_used rm_new_head].
      set (c' := if llama_kv_has_qnext_state_storage kv then _ else _).
      assert (c_seq_id c' = ∅ ∧ c_pos c' = -1 ∧ (c_src c' = c_src c ∨ c_src c' = Z.of_nat i) ∧ c_delta c' = c_delta c)
        as (Hs' & Hp' & Hsrc & Hd) by (subst c'; destruct (llama_kv_has_qnext_state_storage kv); cbn; auto).
      split_and!; [by apply cell_step_free| | |done].
      * rewrite u32_small, (live_count_free c c') by (done || lia). done.
      * destruct (bool_decide (rm_new_head a = kv_size kv)); auto.
    + apply is_empty_false in Ee. rewrite decide_False in Hspec by done. cbn [rm_used rm_new_head].
      split_and!; [by apply cell_step_change| |by left|done].
      rewrite live_count_keep by done. lia.
  - apply orb_false_iff in Et as [Hs%bool_decide_eq_false Hm]. rewrite bool_decide_true in Hm by lia. cbn in Hm.
    split_and!; [|lia|by left|done]. apply cell_step_same; [done|]. intros _. rewrite Hspec.
    assert (s = c_seq_id c) as ->.
    { subst s. rewrite bool_decide_false by done. apply bool_decide_eq_false in Hm. set_solver. }
    by rewrite decide_False.
Qed.

Lemma rm_loop_ok kv effect seq p0 p1 i cells a :
  Forall cell_ok cells → Z.of_nat (length (live_cells cells)) ≤ rm_used a < 2 ^ 32 →
  let '(cells', a') := rm_loop kv effect seq (range_lo p0) (range_hi p1) i cells a in
  loop_ok (spec_rm seq p0 p1) (Z.of_nat i) cells cells' (rm_used a) (rm_used a') (rm_new_head a) (rm_new_head a') ∧
  (∀ k c c', cells !! k = Some c → cells' !! k = Some c' → c_delta c' = c_delta c).
Proof.
  revert i a. induction cells as [|c cells IH]; intros i a Hok Hu; [by split; [apply loop_ok_nil|]|].
  apply Forall_cons in Hok as [Hc Hok]. rewrite live_cells_len_cons in Hu. cbn [rm_loop].
  set (a0 := rm_track _ _ _ _ _ _). destruct (rm_track_used effect seq c (range_lo p0) (range_hi p1) a) as [Hu0 Hh0].
  pose proof (rm_cell_ok kv (bool_decide (effect ≠ None)) seq p0 p1 i c a0 Hc) as Hcell.
  destruct (rm_cell _ _ _ _ _ _ _ _) as [c' a1]. destruct Hcell as (Hst & Hu1 & Hh1 & Hd); [subst a0; lia|].
  pose proof (cell_step_count _ _ _ _ Hst). specialize (IH (S i) a1 Hok).
  destruct (rm_loop _ _ _ _ _ _ _ _) as [cs a2]. destruct IH as [IH Hd']; [subst a0; lia|]. split.
  - apply (loop_ok_cons _ _ _ _ _ _ _ (rm_used a1) _ _ (rm_new_head a1)); [done|subst a0; congruence| |].
    + subst a0. by rewrite Hh0 in Hh1.
    + by replace (Z.of_nat i + 1) with (Z.of_nat (S i)) by lia.
  - intros [|k] d d'; cbn; [by intros [= <-] [= <-]|apply Hd'].
Qed.

(** *** Keeping *)

Lemma keep_loop_ok kv seq i cells used nh :
  Forall cell_ok cells → Z.of_nat (length (live_cells cells)) ≤ used < 2 ^ 32 →
  let '(cells', used', nh') := keep_loop kv seq i cells used nh in
  loop_ok (spec_keep seq) (Z.of_nat i) cells cells' used used' nh nh' ∧
  (∀ k c c', cells !! k = Some c → cells' !! k = Some c' → c_delta c' = c_delta c).
Proof.
  revert i used nh. induction cells as [|c cells IH]; intros i used nh Hok Hu; [by split; [apply loop_ok_nil|]|].
  apply Forall_cons in Hok as [Hc Hok]. rewrite live_cells_len_cons in Hu. cbn [keep_loop].
  pose proof (live_count_range c) as Hr.
  destruct (has_seq_id c seq) eqn:Em.
  - pose proof (has_seq_use _ _ Em) as Huse. specialize (IH (S i) used nh Hok).
    destruct (keep_loop _ _ _ _ _ _) as [[cs used'] nh']. destruct IH as [IH Hd]; [lia|].
    assert (in_use (with_seq c {[seq]})) as Huse' by (unfold in_use; cbn; set_solver). split.
    + apply (loop_ok_cons _ _ _ _ _ _ _ used _ _ nh); [| |by left|by replace (Z.of_nat i + 1) with (Z.of_nat (S i)) by lia].
      * apply cell_step_change; [done..|by apply Hc|done|]. unfold spec_keep. by rewrite e_member_of, Em.
      * rewrite live_count_keep by done. lia.
    + intros [|k] d d'; cbn; [by intros [= <-] [= <-]|apply Hd].
  - set (c' := if llama_kv_has_qnext_state_storage kv then _ else _).
    set (used1 := if bool_decide (0 ≤ c_pos c) then _ else _).
    set (nh1 := if bool_decide (nh = kv_size kv) then _ else _).
    assert (c_seq_id c' = ∅ ∧ c_pos c' = -1 ∧ (c_src c' = c_src c ∨ c_src c' = Z.of_nat i) ∧ c_delta c' = c_delta c)
      as (Hs' & Hp' & Hsrc & Hd0) by (subst c'; destruct (llama_kv_has_qnext_state_storage kv); cbn; auto).
    assert (used1 = used - (live_count c - live_count c')) as Hu1.
    { subst used1. destruct (decide (in_use c)) as [Huse|Huse].
      - rewrite bool_decide_true, live_count_free by (done || by apply Hc).
        apply u32_small. unfold live_count in Hu. rewrite decide_True in Hu by done. lia.
      - rewrite bool_decide_false by (intros ?%Hc; done). unfold live_count.
        rewrite !decide_False by (done || (unfold in_use; rewrite Hs'; tauto)). lia. }
    assert (cell_step (spec_keep seq) (Z.of_nat i) c c') as Hst.
    { apply cell_step_free; [done..|]. intros _. unfold spec_keep. by rewrite e_member_of, Em. }
    pose proof (cell_step_count _ _ _ _ Hst). specialize (IH (S i) used1 nh1 Hok).
    destruct (keep_loop _ _ _ _ _ _) as [[cs used'] nh']. destruct IH as [IH Hd]; [lia|]. split.
    + apply (loop_ok_cons _ _ _ _ _ _ _ used1 _ _ nh1); [done|done| |by replace (Z.of_nat i + 1) with (Z.of_nat (S i)) by lia].
      subst nh1. destruct (bool_decide (nh = kv_size kv)); auto.
    + intros [|k] d d'; cbn; [by intros [= <-] [= <-]|apply Hd].
Qed.

(** *** Shifting *)

Lemma add_loop_ok kv seq p0 p1 delta i cells used nh sh :
  Forall cell_ok cells → Z.of_nat (length (live_cells cells)) ≤ used < 2 ^ 32 →
  let '(cells', used', nh', sh') := add_loop kv seq (range_lo p0) (range_hi p1) delta i cells used nh sh in
  loop_ok (spec_add (kv_mrope kv) seq p0 p1 delta) (Z.of_nat i) cells cells' used used' nh nh' ∧
  (sh' = false → sh = false ∧
    ∀ k c c', cells !! k = Some c → cells' !! k = Some c' → c_delta c' = c_delta c).
Proof.
  revert i used nh sh. induction cells as [|c cells IH]; intros i used nh sh Hok Hu; [by split; [apply loop_ok_nil|]|].
  apply Forall_cons in Hok as [Hc Hok]. rewrite live_cells_len_cons in Hu. cbn [add_loop].
  pose proof (live_count_range c) as Hr. destruct (has_seq_id c seq && in_range c _ _) eqn:Et.
  - pose proof Et as [Em Er]%andb_true_iff. pose proof (has_seq_use _ _ Em) as Huse.
    set (c1 := Cell (i32 (c_pos c + delta)) _ _ _ _ _ _ _ _).
    assert (is_empty c1 = false) as Hne by (by apply is_empty_false).
    rewrite Hne. cbn [negb]. rewrite andb_true_r.
    assert (Hspec : spec_add (kv_mrope kv) seq p0 p1 delta (entry_of c) =
      if decide (c_pos c1 < 0) then None else Some (entry_of c1)).
    { unfold spec_add. by rewrite e_member_of, e_between_of, Em, Er. }
    set (c' := if bool_decide (c_pos c1 < 0) then _ else c1).
    set (used1 := if bool_decide (c_pos c1 < 0) then _ else used).
    set (nh1 := if bool_decide (c_pos c1 < 0) && _ then _ else nh).
    assert (cell_step (spec_add (kv_mrope kv) seq p0 p1 delta) (Z.of_nat i) c c' ∧
      used1 = used - (live_count c - live_count c')) as [Hst Hu1].
    { subst c' used1. bdec (c_pos c1 < 0) as Hp.
      - split; [apply cell_step_free; try done; by auto|].
        rewrite live_count_free by done. apply u32_small. unfold live_count in Hu. rewrite decide_True in Hu by done. lia.
      - split; [apply cell_step_change; (done || lia || by rewrite Hspec)|].
        rewrite live_count_keep by done. lia. }
    pose proof (cell_step_count _ _ _ _ Hst). specialize (IH (S i) used1 nh1 true Hok).
    destruct (add_loop _ _ _ _ _ _ _ _ _ _) as [[[cs used'] nh'] sh']. destruct IH as [IH Hd]; [lia|].
    split; [|intros Hf; by destruct (Hd Hf)].
    apply (loop_ok_cons _ _ _ _ _ _ _ used1 _ _ nh1); [done|done| |by replace (Z.of_nat i + 1) with (Z.of_nat (S i)) by lia].
    subst nh1. destruct (bool_decide (c_pos c1 < 0) && bool_decide (nh = kv_size kv)); auto.
  - specialize (IH (S i) used nh sh Hok).
    destruct (add_loop _ _ _ _ _ _ _ _ _ _) as [[[cs used'] nh'] sh']. destruct IH as [IH Hd]; [lia|]. split.
    + apply (loop_ok_cons _ _ _ _ _ _ _ used _ _ nh); [|lia|by left|by replace (Z.of_nat i + 1) with (Z.of_nat (S i)) by lia].
      apply cell_step_same; [done|]. intros _. unfold spec_add. by rewrite e_member_of, e_between_of, Et.
    + intros Hf. destruct (Hd Hf) as [? Hd']. split; [done|].
      intros [|k] d d'; cbn; [by intros [= <-] [= <-]|apply Hd'].
Qed.

(** ** The operations *)

Definition refines (f : entry → option entry) (kv kv' : llama_kv_cache) : Prop :=
  kv_wf kv' ∧ contents kv' = omap f (contents kv) ∧ kv_size kv' = kv_size kv ∧
  kv_row_count kv' = kv_row_count kv ∧ kv_mrope kv' = kv_mrope kv.

Lemma loop_refines f kv kv' nh : kv_wf kv →
  loop_ok f 0 (kv_cells kv) (kv_cells kv') (kv_used kv) (kv_used kv') (kv_size kv) nh →
  (0 ≤ nh ≤ kv_size kv → 0 ≤ kv_head kv' ≤ kv_size kv) →
  (kv_has_shift kv' = false → ∀ k c c', kv_cells kv !! k = Some c → kv_cells kv' !! k = Some c' →
     kv_has_shift kv = false ∧ c_delta c' = c_delta c ∨ c_delta c' = 0) →
  kv_size kv' = kv_size kv → kv_recurrent kv' = kv_recurrent kv →
  kv_row_count kv' = kv_row_count kv → kv_mrope kv' = kv_mrope kv → refines f kv kv'.
Proof.
  intros Hwf Hloop Hhead Hdelta ????.
  enough (0 ≤ kv_head kv' ≤ kv_size kv) by (destruct (loop_ok_wf f kv kv' nh); [done..|by split_and!]).
  apply Hhead. pose proof (wf_size _ Hwf). destruct (loop_head _ _ _ _ _ _ _ _ Hloop) as [->|?]; lia.
Qed.

Lemma used_range kv : kv_wf kv → Z.of_nat (length (live_cells (kv_cells kv))) ≤ kv_used kv < 2 ^ 32.
Proof. intros Hwf. pose proof (wf_used_le _ Hwf). destruct Hwf. lia. Qed.

Lemma clear_refines kv : kv_wf kv → refines (λ _, None) kv (llama_kv_cache_clear kv).
Proof.
  intros [].
  assert (∀ i l, length (clear_cells i l) = length l ∧ Forall (λ c, ¬ in_use c ∧ cell_ok c) (clear_cells i l) ∧
    (∀ P : Z → Prop, (∀ k, (i ≤ k < i + length l)%nat → P (Z.of_nat k)) → Forall (λ c, P (c_src c)) (clear_cells i l)) ∧
    (Forall (λ c, c_delta c = 0) l → Forall (λ c, c_delta c = 0) (clear_cells i l))) as Hclear.
  { intros i l. revert i. induction l as [|c l IH]; intros i; [by split_and!|]. destruct (IH (S i)) as (Hl & Hf & Hs & Hd).
    cbn. split_and!; [by rewrite Hl| | |].
    - constructor; [|done]. assert (¬ in_use (Cell (-1) (c_delta c) (Z.of_nat i) LLAMA_TOKEN_NULL (-1) 0 0 0 ∅))
        as Hn by (intros H; by apply H). split; [done|]. split; [cbn; lia|done].
    - intros P HP. constructor; [apply HP; lia|]. apply Hs. intros k ?. apply HP. lia.
    - intros [? ?]%Forall_cons. constructor; auto. }
  destruct (Hclear 0%nat (kv_cells kv)) as (Hl & Hf & Hs & Hd).
  assert (live_cells (clear_cells 0 (kv_cells kv)) = []) as Hlive.
  { apply filter_none. eapply Forall_impl; [done|]. by intros ? [? _]. }
  split_and!; try done.
  - split; cbn; try done.
    + by rewrite Hl.
    + eapply Forall_impl; [done|]. by intros ? [_ ?].
    + apply (Hs (λ s, s = 0 ∨ 0 ≤ s < kv_size kv)). intros k ?. right. lia.
    + by rewrite Hlive.
    + lia.
    + intros ?. auto.
  - unfold contents. cbn. rewrite Hlive. cbn. symmetry. by induction (entry_of <$> live_cells (kv_cells kv)).
Qed.

Lemma seq_rm_refines kv seq p0 p1 effect r kv' effect' : kv_wf kv →
  llama_kv_cache_seq_rm kv seq p0 p1 effect = Ok (r, kv', effect') →
  if r : bool then refines (spec_rm seq p0 p1) kv kv' else kv' = kv.
Proof.
  intros Hwf. unfold llama_kv_cache_seq_rm. rewrite (wf_attn _ Hwf). cbn.
  destruct (rm_compact_decision kv seq (range_lo p0) (range_hi p1)) as [compact|]; cbn; [|done].
  set (a0 := RmAcc _ _ _ _ _ _ _).
  pose proof (rm_loop_ok kv effect seq p0 p1 0 (kv_cells kv) a0 (wf_cells _ Hwf) (used_range _ Hwf)) as Hloop.
  destruct (rm_loop _ _ _ _ _ _ _ _) as [cells a]. destruct Hloop as [Hloop Hd].
  destruct compact as [| |h b]; intros [= <- <- _]; [done|..].
  all: apply (loop_refines _ _ _ (rm_new_head a)); try done.
  all: try (intros ?; pose proof (wf_head _ Hwf); cbn;
    destruct (negb _ && bool_decide (rm_new_head a < kv_head kv)); lia).
  all: intros Hs k c c' ??; left; split; [exact Hs|]; by eapply Hd.
Qed.

Lemma seq_keep_refines kv seq : kv_wf kv → refines (spec_keep seq) kv (llama_kv_cache_seq_keep kv seq).
Proof.
  intros Hwf. unfold llama_kv_cache_seq_keep.
  pose proof (keep_loop_ok kv seq 0 (kv_cells kv) (kv_used kv) (kv_size kv) (wf_cells _ Hwf) (used_range _ Hwf)) as Hloop.
  destruct (keep_loop _ _ _ _ _ _) as [[cells used] nh]. destruct Hloop as [Hloop Hd].
  apply (loop_refines _ _ _ nh); try done.
  - intros ?. pose proof (wf_head _ Hwf). cbn. destruct (negb _ && bool_decide (nh < kv_head kv)); lia.
  - intros Hs k c c' ??. left. split; [exact Hs|]. by eapply Hd.
Qed.

Lemma seq_add_refines kv seq p0 p1 delta kv' : kv_wf kv →
  llama_kv_cache_seq_add kv seq p0 p1 delta = Ok kv' →
  if decide (range_lo p0 = range_hi p1) then kv' = kv else refines (spec_add (kv_mrope kv) seq p0 p1 delta) kv kv'.
Proof.
  intros Hwf. unfold llama_kv_cache_seq_add.
  destruct (ggml_assert (negb (kv_s_l_position_strict kv))); cbn; [|done].
  destruct (ggml_assert (negb (any_compacted kv))); cbn; [|done].
  bdec (range_lo p0 = range_hi p1) as Hp; [by intros [= <-]|].
  rewrite (wf_attn _ Hwf). destruct (ggml_assert _); cbn; [|done].
  pose proof (add_loop_ok kv seq p0 p1 delta 0 (kv_cells kv) (kv_used kv) (kv_size kv) (kv_has_shift kv)
    (wf_cells _ Hwf) (used_range _ Hwf)) as Hloop.
  destruct (add_loop _ _ _ _ _ _ _ _ _ _) as [[[cells used] nh] sh]. destruct Hloop as [Hloop Hd].
  intros [= <-]. apply (loop_refines _ _ _ nh); try done.
  - intros ?. cbn. destruct (negb _); lia.
  - intros Hs k c c' ??. destruct (Hd Hs) as [? Hd']. left. split; [done|]. by eapply Hd'.
Qed.

Lemma u32_id z n : 0 ≤ z → u32 z < n → n ≤ 2 ^ 30 → 0 ≤ u32 z < n.
Proof. intros. pose proof (u32_range z). lia. Qed.

(** The sequence whose cells [seq_cp] copies: with recurrent states in the cache
    it is the source of the source's slot. *)
Definition cp_source (kv : llama_kv_cache) (src dst : Z) : Z :=
  if llama_kv_has_qnext_state_storage kv && llama_kv_qnext_seq_id_in_range kv dst &&
     llama_kv_qnext_seq_id_in_range kv src && bool_decide (u32 dst < kv_size kv) && bool_decide (u32 src < kv_size kv)
  then match kv_cells kv !! Z.to_nat src with Some c => c_src c | None => src end else src.

Lemma map_refines f g kv kv' : kv_wf kv → kv_cells kv' = g <$> kv_cells kv →
  (∀ k c, cell_ok c → cell_step f k c (g c) ∧ (in_use c → in_use (g c))) →
  kv_used kv' = kv_used kv → 0 ≤ kv_head kv' ≤ kv_size kv →
  (kv_has_shift kv' = false → ∀ c, c ∈ kv_cells kv →
    kv_has_shift kv = false ∧ c_delta (g c) = c_delta c ∨ c_delta (g c) = 0) →
  kv_size kv' = kv_size kv → kv_recurrent kv' = kv_recurrent kv →
  kv_row_count kv' = kv_row_count kv → kv_mrope kv' = kv_mrope kv → refines f kv kv'.
Proof.
  intros Hwf Hcs Hg Hu Hh Hd ????. apply (loop_refines f kv kv' (kv_size kv)); try done.
  - rewrite Hcs, Hu. apply map_ok; [apply Hwf|done].
  - intros Hs k c c' Hc. rewrite Hcs, list_lookup_fmap, Hc.
    intros [= <-]. apply (Hd Hs). by eapply list_elem_of_lookup_2.
Qed.

Lemma cp_cell_step src dst p0 p1 k c : cell_ok c →
  cell_step (spec_cp src dst p0 p1) k c (cp_cell src dst (range_lo p0) (range_hi p1) c) ∧
  (in_use c → in_use (cp_cell src dst (range_lo p0) (range_hi p1) c)).
Proof.
  intros Hok. unfold cp_cell. destruct (has_seq_id c src && in_range c _ _) eqn:Et.
  - pose proof Et as [Em _]%andb_true_iff. pose proof (has_seq_use _ _ Em) as Huse.
    assert (in_use (with_seq c (c_seq_id c ∪ {[dst]}))) by (unfold in_use; cbn; set_solver).
    split; [|done]. apply cell_step_change; [done..|by apply Hok|done|].
    unfold spec_cp. by rewrite e_member_of, e_between_of, Et.
  - split; [|done]. apply cell_step_same; [done|]. intros _. unfold spec_cp. by rewrite e_member_of, e_between_of, Et.
Qed.

(** Changing the source of a slot changes no entry. *)
Lemma set_src_wf kv k c s flag : kv_wf kv → kv_cells kv !! k = Some c → s = 0 ∨ 0 ≤ s < kv_size kv →
  let kv' := with_flags (with_state kv (kv_head kv) (kv_used kv) (<[k := with_src c s]> (kv_cells kv)))
               (kv_has_shift kv) (kv_do_defrag kv) flag in
  kv_wf kv' ∧ contents kv' = contents kv.
Proof.
  intros Hwf Hk Hs kv'.
  assert (∀ P : llama_kv_cell → Prop, (P c → P (with_src c s)) → Forall P (kv_cells kv) → Forall P (kv_cells kv')) as Hall.
  { intros P HP Hf. apply Forall_insert; [done|]. apply HP. by eapply Forall_lookup_1. }
  assert (entry_of <$> live_cells (kv_cells kv') = entry_of <$> live_cells (kv_cells kv)) as Hlive.
  { subst kv'. cbn. rewrite <- (take_drop_middle _ _ _ Hk) at 2. rewrite insert_take_drop by (by eapply lookup_lt_Some).
    unfold live_cells. rewrite !filter_app, !fmap_app. f_equal. rewrite !filter_cons.
    change (in_use (with_src c s)) with (in_use c). by destruct (decide (in_use c)). }
  destruct Hwf. split; [split; try done|done].
  - cbn. by rewrite length_insert.
  - by apply Hall.
  - apply Forall_insert; [done|done].
  - cbn. rewrite wf_used. rewrite <- (length_fmap entry_of (live_cells (kv_cells kv))), <- Hlive. by rewrite length_fmap.
  - intros ?. apply Hall; auto.
Qed.

Definition is_i32 (z : Z) : Prop := - 2 ^ 31 ≤ z < 2 ^ 31.

Lemma seq_cp_refines kv src dst p0 p1 : kv_wf kv → is_i32 src → is_i32 dst →
  ∃ kv', llama_kv_cache_seq_cp kv src dst p0 p1 = Ok kv' ∧ refines (spec_cp (cp_source kv src dst) dst p0 p1) kv kv'.
Proof.
  intros Hwf Hi32 Hj32. unfold llama_kv_cache_seq_cp. rewrite (wf_attn _ Hwf).
  assert (Hmap : ∀ s kv1, kv_wf kv1 → refines (spec_cp s dst p0 p1) kv1
    (with_state kv1 0 (kv_used kv1) (cp_cell s dst (range_lo p0) (range_hi p1) <$> kv_cells kv1))).
  { intros s kv1 Hwf1. apply (map_refines _ (cp_cell s dst (range_lo p0) (range_hi p1)));
      try done; [intros; by apply cp_cell_step|pose proof (wf_head _ Hwf1); cbn; lia|].
    intros Hs c _. left. split; [done|]. unfold cp_cell. by destruct (_ && _). }
  unfold cp_source. destruct (llama_kv_has_qnext_state_storage kv && _ && _ && _ && _) eqn:Eq; cbn; [|eauto].
  apply andb_true_iff in Eq as [[[[_ Hd]%andb_true_iff Hs]%andb_true_iff Hdst%bool_decide_eq_true]%andb_true_iff
    Hsrc%bool_decide_eq_true].
  apply andb_true_iff in Hd as [[_ Hd%bool_decide_eq_true]%andb_true_iff _].
  apply andb_true_iff in Hs as [[_ Hs%bool_decide_eq_true]%andb_true_iff _].
  unfold is_i32 in *. rewrite u32_small in Hsrc, Hdst by lia.
  pose proof (wf_size _ Hwf) as Hsize. pose proof (wf_bound _ Hwf) as Hbound.
  destruct (at_lt (kv_cells kv) (Z.to_nat src)) as (c & -> & Hc); [lia|]. rewrite Hc. cbn.
  destruct (at_lt (kv_cells kv) (Z.to_nat dst)) as (t & -> & Ht); [lia|]. cbn.
  pose proof (Forall_lookup_1 _ _ _ _ (wf_src _ Hwf) Hc) as Hcs. cbn in Hcs.
  rewrite u32_small, bool_decide_true, put_lt by lia. cbn [mbind res_bind mret res_ret]. eexists. split; [done|].
  set (kv1 := with_flags _ _ _ _). destruct (set_src_wf kv (Z.to_nat dst) t (c_src c) true Hwf Ht Hcs) as [Hwf1 Hc1].
  destruct (Hmap (c_src c) kv1 Hwf1) as (? & H2 & ? & ? & ?).
  split_and!; try done. rewrite H2. by rewrite <- Hc1.
Qed.

Lemma div_cell_step mrope seq p0 p1 d k c : 0 < d → cell_ok c →
  cell_step (spec_div mrope seq p0 p1 d) k c (div_cell mrope seq (range_lo p0) (range_hi p1) d c) ∧
  (in_use c → in_use (div_cell mrope seq (range_lo p0) (range_hi p1) d c)).
Proof.
  intros Hd Hok. unfold div_cell. destruct (has_seq_id c seq && in_range c _ _) eqn:Et.
  - pose proof Et as [Em _]%andb_true_iff. pose proof (has_seq_use _ _ Em) as Huse.
    split; [|done]. apply cell_step_change; [done..| |done|].
    + cbn. apply Z.quot_pos; [by apply Hok|lia].
    + unfold spec_div. rewrite e_member_of, e_between_of, Et. by destruct mrope.
  - split; [|done]. apply cell_step_same; [done|]. intros _. unfold spec_div. by rewrite e_member_of, e_between_of, Et.
Qed.

Lemma seq_div_refines kv seq p0 p1 d kv' : kv_wf kv → 0 < d →
  llama_kv_cache_seq_div kv seq p0 p1 d = Ok kv' →
  if decide (range_lo p0 = range_hi p1) then kv' = kv else refines (spec_div (kv_mrope kv) seq p0 p1 d) kv kv'.
Proof.
  intros Hwf Hd. unfold llama_kv_cache_seq_div.
  destruct (ggml_assert (negb (kv_s_l_position_strict kv))); cbn; [|done].
  destruct (ggml_assert (negb (any_compacted kv))); cbn; [|done].
  bdec (range_lo p0 = range_hi p1) as Hp; [by intros [= <-]|].
  rewrite (wf_attn _ Hwf). intros Hr. inv_res. apply (map_refines _ (div_cell (kv_mrope kv) seq (range_lo p0) (range_hi p1) d)); try done.
  - intros. by apply div_cell_step.
  - apply Hwf.
  - cbn. intros [Hs Ht]%orb_false_iff. intros c Hc. left. split; [done|]. unfold div_cell.
    destruct (has_seq_id c seq && _) eqn:E; [|done]. exfalso.
    assert (existsb (λ c, has_seq_id c seq && in_range c (range_lo p0) (range_hi p1)) (kv_cells kv) = true); [|congruence].
    apply existsb_exists. exists c. split; [by apply list_elem_of_In|done].
Qed.

Lemma shift_applied_refines kv : kv_wf kv → refines spec_shift_applied kv (shift_applied kv).
Proof.
  intros Hwf. eapply map_refines; try done; [|apply Hwf|by right].
  intros k c Hok. split; [|done]. split_and!; [done..| |by left]. cbn. intros Hu. by rewrite decide_True.
Qed.

Lemma imap_ok f (g : nat → llama_kv_cell → llama_kv_cell) i cells used nh : Forall cell_ok cells →
  (∀ k c, cell_ok c → cell_step f (Z.of_nat k) c (g k c) ∧ (in_use c → in_use (g k c))) →
  loop_ok f (Z.of_nat i) cells (imap (λ k, g (i + k)%nat) cells) used used nh nh.
Proof.
  intros Hok Hg. revert i. induction Hok as [|c cells Hc _ IH]; intros i; [apply loop_ok_nil|].
  rewrite imap_cons, Nat.add_0_r. destruct (Hg i c Hc) as [Hst Hu].
  apply (loop_ok_cons _ _ _ _ _ _ _ used _ _ nh); [done| |by left|].
  - unfold live_count. destruct Hst as (_ & ? & _). repeat destruct (decide _); try lia; tauto.
  - replace (Z.of_nat i + 1) with (Z.of_nat (S i)) by lia.
    rewrite (imap_ext ((λ k, g (i + k)%nat) ∘ S) (λ k, g (S i + k)%nat)); [apply IH|].
    intros k c' _. cbn. by rewrite Nat.add_succ_r.
Qed.

Lemma omap_Some {A} (l : list A) : omap Some l = l.
Proof. induction l as [|x l IH]; cbn; [done|by f_equal]. Qed.

Lemma omap_None {A B} (l : list A) : omap (λ _, @None B) l = [].
Proof. induction l; done. Qed.

Lemma copy_applied_refines kv : kv_wf kv → refines Some kv (copy_applied kv).
Proof.
  intros Hwf. apply (loop_refines _ _ _ (kv_size kv)); try done.
  - apply (imap_ok _ (λ k c, with_src c (Z.of_nat k)) 0); [apply Hwf|].
    intros k c Hok. split; [|done]. split_and!; [done..| |by right]. intros Hu. by rewrite decide_True.
  - intros _. apply Hwf.
  - cbn. intros Hs k c c' Hc. rewrite list_lookup_imap, Hc. intros [= <-]. by left.
Qed.

(** ** Filling a slot *)

Lemma fill_slot_spec meta kv b embd n i qm cells :
  batch_ok (meta && kv_mrope kv) b → (i + n = n_tokens b)%nat → 0 ≤ kv_head kv →
  (Z.to_nat (kv_head kv) + n_tokens b ≤ length cells)%nat →
  (∀ k c, (Z.to_nat (kv_head kv) + i ≤ k < Z.to_nat (kv_head kv) + n_tokens b)%nat → cells !! k = Some c → ¬ in_use c) →
  Forall (λ c, c_delta c = 0) cells →
  ∃ cells', fill_slot kv b embd meta n i qm cells = Ok cells' ∧ length cells' = length cells ∧
    (∀ P : llama_kv_cell → Prop, Forall P cells →
       (∀ c c', P c → cell_ok c' → c_src c' = c_src c → c_delta c' = c_delta c → P c') → Forall P cells') ∧
    length (live_cells cells') = (length (live_cells cells) + n)%nat ∧
    entry_of <$> live_cells cells' ≡ₚ
      (entry_of <$> live_cells cells) ++ omap (batch_entry (meta && kv_mrope kv) b embd) (seq i n) ∧
    (∀ k, ¬ (Z.to_nat (kv_head kv) + i ≤ k < Z.to_nat (kv_head kv) + n_tokens b)%nat → cells' !! k = cells !! k) ∧
    (∀ k, (i ≤ k < n_tokens b)%nat → ∃ c, cells' !! (Z.to_nat (kv_head kv) + k)%nat = Some c ∧
       batch_entry (meta && kv_mrope kv) b embd k = Some (entry_of c)).
Proof.
  intros Hb. induction n as [|n IH] in i, qm, cells |- *; intros Hin Hh Hlen Hfree Hdelta.
  { exists cells. split_and!; [done|done|done|lia| |done|lia]. cbn. by rewrite app_nil_r. }
  cbn [fill_slot]. set (idx := (Z.to_nat (kv_head kv) + i)%nat) in *.
  destruct (at_lt cells idx) as (c & -> & Hc); [lia|]. cbn [mbind res_bind].
  pose proof (batch_pos _ _ Hb) as Hpos.
  destruct (at_lt (b_pos b) i) as (p & -> & Hp); [destruct (meta && kv_mrope kv); lia|]. cbn [mbind res_bind].
  assert (∃ t, match b_token b with Some toks => at_ toks i | None => Ok embd end = Ok t ∧
    match b_token b with Some toks => toks !! i | None => Some embd end = Some t) as (t & -> & Ht).
  { destruct (b_token b) as [toks|] eqn:E; [|by eexists].
    destruct (at_lt toks i) as (t & -> & ?); [pose proof (batch_token _ _ Hb _ E); lia|by exists t]. }
  cbn [mbind res_bind].
  destruct (at_lt (b_seq_id b) i) as (seqs & Hat & Hs); [unfold n_tokens in *; lia|].
  pose proof (batch_nonneg _ _ Hb i p ltac:(lia) Hp) as Hp0.
  pose proof (Forall_lookup_1 _ _ _ _ (batch_seqs _ _ Hb) Hs) as Hne. cbn in Hne.
  assert (∃ h w e, (if meta && kv_mrope kv then
         ph ← at_ (b_pos b) (n_tokens b + i);
         pw ← at_ (b_pos b) (2 * n_tokens b + i);
         pe ← at_ (b_pos b) (3 * n_tokens b + i);
         mret (ph, pw, pe)
       else Ok (p, p, 0)) = Ok (h, w, e) ∧
     batch_entry (meta && kv_mrope kv) b embd i = Some (Entry p 0 t h w e (list_to_set seqs))) as (h & w & e & -> & He).
  { unfold batch_entry. rewrite Hp, Hs. cbn. rewrite Ht. cbn. destruct (meta && kv_mrope kv); cbn; [|by do 3 eexists].
    destruct (at_lt (b_pos b) (n_tokens b + i)) as (h & -> & ->); [lia|].
    destruct (at_lt (b_pos b) (n_tokens b + (n_tokens b + 0) + i)) as (w & -> & ->); [lia|].
    destruct (at_lt (b_pos b) (n_tokens b + (n_tokens b + (n_tokens b + 0)) + i)) as (e & -> & ->); [lia|].
    by do 3 eexists. }
  cbn [mbind res_bind]. rewrite Hat. cbn [mbind res_bind]. rewrite put_lt by lia. cbn [mbind res_bind].
  set (c' := Cell _ _ _ _ _ _ _ _ _). set (qm' := if _ && _ then fold_left _ _ _ else _).
  assert (¬ in_use c) as Hnc by (apply (Hfree idx); [lia|done]).
  assert (c_seq_id c = ∅) as Hemp by (by apply dec_stable).
  assert (in_use c') as Huse'.
  { unfold in_use. subst c'. cbn. destruct seqs as [|s seqs]; [done|]. cbn. set_solver. }
  assert (entry_of c' = Entry p 0 t h w e (list_to_set seqs)) as Hent.
  { subst c'. unfold entry_of. cbn. rewrite Hemp, (left_id_L ∅ (∪)).
    f_equal. apply (Forall_lookup_1 _ _ _ _ Hdelta Hc). }
  assert (cell_ok c') as Hok' by (by split).
  assert (live_cells (<[idx:=c']> cells) ≡ₚ c' :: live_cells cells) as Hins
    by (by apply (filter_insert_new in_use _ _ _ c)).
  destruct (IH (S i) qm' (<[idx := c']> cells)) as (cells' & -> & Hl' & Hall & Hlive & Hperm & Hout & Hnew).
  - lia.
  - done.
  - by rewrite length_insert.
  - intros k ck Hk. rewrite list_lookup_insert_ne by lia. apply Hfree. lia.
  - apply Forall_insert; [done|]. apply (Forall_lookup_1 _ _ _ _ Hdelta Hc).
  - exists cells'. split_and!; [done|by rewrite Hl', length_insert| | | | |].
    + intros P HP HPc. apply Hall; [|done]. apply Forall_insert; [done|].
      apply (HPc c); [by eapply Forall_lookup_1|done..].
    + rewrite Hlive, (Permutation_length Hins). cbn. lia.
    + rewrite Hperm. cbn [seq omap list_omap]. rewrite He.
      rewrite (fmap_Permutation entry_of _ _ Hins). cbn [fmap list_fmap]. rewrite Hent.
      apply Permutation_middle.
    + intros k Hk. rewrite Hout by lia. rewrite list_lookup_insert_ne by lia. done.
    + intros k Hk. destruct (decide (k = i)) as [->|]; [|apply Hnew; lia].
      exists c'. rewrite Hout, list_lookup_insert_eq, He, Hent by lia. done.
Qed.

(** The cells from the head on hold the batch, the others are as before. *)
Definition slot_filled (kv kv' : llama_kv_cache) (mrope : bool) (b : llama_batch) (embd : Z) : Prop :=
  (∀ k, ¬ (Z.to_nat (kv_head kv') ≤ k < Z.to_nat (kv_head kv') + n_tokens b)%nat → kv_cells kv' !! k = kv_cells kv !! k) ∧
  (∀ k, (k < n_tokens b)%nat → ∃ c, kv_cells kv' !! (Z.to_nat (kv_head kv') + k)%nat = Some c ∧
     batch_entry mrope b embd k = Some (entry_of c)).

(** The search and the insertion: a batch is stored exactly when there are enough
    free cells in a row. *)
Lemma find_slot_spec meta kv b embd : kv_wf kv → kv_has_shift kv = false → batch_ok (meta && kv_mrope kv) b →
  ∃ ok kv', llama_kv_cache_find_slot kv b embd meta = Ok (ok, kv') ∧ kv_wf kv' ∧
    kv_size kv' = kv_size kv ∧ kv_row_count kv' = kv_row_count kv ∧ kv_mrope kv' = kv_mrope kv ∧
    if ok : bool
    then contents kv' ≡ₚ contents kv ++ batch_entries (meta && kv_mrope kv) b embd ∧
         free_run (kv_cells kv) (n_tokens b) (Z.to_nat (kv_head kv')) ∧
         slot_filled kv kv' (meta && kv_mrope kv) b embd
    else kv_cells kv' = kv_cells kv ∧ ∀ s, ¬ free_run (kv_cells kv) (n_tokens b) s.
Proof.
  intros Hwf Hs Hb. unfold llama_kv_cache_find_slot. rewrite (wf_attn _ Hwf).
  pose proof (wf_size _ Hwf) as Hsize. pose proof (wf_bound _ Hwf) as Hbound.
  bdec (kv_size kv < Z.of_nat (n_tokens b)) as Hn.
  { exists false, kv. split_and!; [done..|]. intros s [? _]. lia. }
  destruct (slot_search_spec (kv_cells kv) (n_tokens b)) with (h := kv_head kv) as (found & hd & Hr & Hhd & Hfound);
    [lia|lia|rewrite Hsize; apply Hwf|].
  rewrite Hsize in Hr. rewrite Hr. cbn [mbind res_bind].
  assert (Hwf1 : kv_wf (with_state kv (Z.of_nat hd) (kv_used kv) (kv_cells kv))).
  { destruct Hwf. split; try done. cbn. lia. }
  destruct found; cbn [negb].
  2: { do 2 eexists. split; [done|]. by split_and!. }
  set (kv1 := with_state kv (Z.of_nat hd) (kv_used kv) (kv_cells kv)) in *. destruct Hfound as [Hfit Hfree].
  set (qm := if _ && _ then _ else _).
  destruct (fill_slot_spec meta kv1 b embd (n_tokens b) 0 qm (kv_cells kv1)) as (cells' & -> & Hlen & Hall & Hlive & Hperm & Hout & Hnew).
  - done.
  - lia.
  - cbn. lia.
  - cbn. lia.
  - cbn. intros k c Hk Hc Hu. rewrite Nat2Z.id in Hk.
    pose proof (proj2 (Forall_lookup_1 _ _ _ _ (wf_cells _ Hwf) Hc) Hu). specialize (Hfree k c ltac:(lia) Hc). lia.
  - by apply (wf_delta _ Hwf).
  - cbn [mbind res_bind mret res_ret]. do 2 eexists. split; [done|].
    change (kv_cells kv1) with (kv_cells kv) in *.
    assert (length (live_cells cells') ≤ length (kv_cells kv))%nat as Hle.
    { rewrite <- Hlen. apply length_filter. }
    pose proof (wf_used _ Hwf).
    split; [split; cbn; try done|split; [done|split; [done|split; [done|split; [done|split]]]]].
    + by rewrite Hlen.
    + apply Hall; [apply Hwf|auto].
    + apply (Hall (λ c, c_src c = 0 ∨ 0 ≤ c_src c < kv_size kv)); [apply Hwf|intros c c' ? _ E _; by rewrite E].
    + rewrite u32_small by lia. lia.
    + lia.
    + intros _. apply Hall; [by apply (wf_delta _ Hwf)|intros c c' ? _ _ E; by rewrite E].
    + apply Hwf.
    + unfold free_run. cbn. by rewrite Nat2Z.id.
    + split; [intros k Hk; apply Hout; rewrite Nat.add_0_r; apply Hk|intros k Hk; apply Hnew; lia].
Qed.

(** ** Updating and decoding *)

Definition same_shape (kv kv' : llama_kv_cache) : Prop :=
  kv_size kv' = kv_size kv ∧ kv_row_count kv' = kv_row_count kv ∧ kv_mrope kv' = kv_mrope kv.

(** What the compacted layers look at. *)
Definition swa_fields (kv : llama_kv_cache) : Z * Z * Z * Z * Z :=
  (kv_size_swa kv, kv_sink_rows kv, kv_window_swa kv, kv_head_swa kv, kv_pos_base_swa kv).

Lemma refines_shape f kv kv' : refines f kv kv' → same_shape kv kv'.
Proof. by intros (_ & _ & ?). Qed.

Lemma with_flags_wf kv d c : kv_wf kv → kv_wf (with_flags kv (kv_has_shift kv) d c).
Proof. intros []. by split. Qed.

Lemma defrag_internal_ok kv max_moves topk valid : kv_wf kv → 0 < max_moves →
  ∃ kv' t v cs, llama_kv_cache_defrag_internal kv max_moves topk valid = Ok (kv', t, v, cs) ∧
    kv_wf kv' ∧ contents kv' ≡ₚ contents kv ∧ same_shape kv kv' ∧ kv_has_shift kv' = kv_has_shift kv ∧ swa_fields kv' = swa_fields kv.
Proof.
  intros Hwf Hmax. destruct (defrag_plan_inv kv max_moves Hwf Hmax) as (st & f & h & Hp & I & _).
  unfold llama_kv_cache_defrag_internal. rewrite Hp. cbn [mbind res_bind].
  set (kv' := with_state _ _ _ _).
  assert (kv_wf kv') by (apply (plan_wf kv _ f h _ (df_ids st)); [done..|]; destruct (df_moved st); auto).
  assert (contents kv' ≡ₚ contents kv) by (apply fmap_Permutation, (inv_perm _ _ _ _ _ _ _ I)).
  case_bool_decide; [by do 4 eexists|].
  destruct (remap_topk_spec kv' (df_ids st) topk) as (t & -> & _). cbn [mbind res_bind].
  assert (∃ v, remap_valid kv' (df_ids st) valid = Ok v) as (v & ->).
  { unfold remap_valid. destruct (bool_decide (valid = [])); [by eexists|].
    edestruct remap_valid_loop_spec as (v & -> & _). by exists v. }
  by do 4 eexists.
Qed.

Definition shifted (kv : llama_kv_cache) (es : list entry) : list entry :=
  if kv_has_shift kv then omap spec_shift_applied es else es.

Lemma update_spec can_shift max_moves kv : kv_wf kv → 0 < max_moves →
  ∃ ret kv', llama_kv_cache_update_internal true can_shift max_moves kv = Ok (ret, kv') ∧
    kv_wf kv' ∧ same_shape kv kv' ∧ swa_fields kv' = swa_fields kv ∧
    if kv_has_shift kv && negb can_shift then ret = 1 ∧ kv' = kv
    else ret = 0 ∧ kv_has_shift kv' = false ∧ contents kv' ≡ₚ shifted kv (contents kv).
Proof.
  intros Hwf Hmax. unfold llama_kv_cache_update_internal, shifted. cbn [andb].
  destruct (kv_has_shift kv && negb can_shift) eqn:Eb; [by do 2 eexists|].
  set (kv1 := if kv_has_shift kv then shift_applied kv else kv).
  assert (kv_wf kv1 ∧ same_shape kv kv1 ∧ kv_has_shift kv1 = false ∧
    contents kv1 = (if kv_has_shift kv then omap spec_shift_applied (contents kv) else contents kv) ∧ swa_fields kv1 = swa_fields kv)
    as (Hwf1 & Hsh1 & Hs1 & Hc1 & Hf1).
  { subst kv1. destruct (kv_has_shift kv) eqn:Es; [|by split_and!].
    destruct (shift_applied_refines kv Hwf) as (? & ? & ?). by split_and!. }
  set (kv2 := if _ && kv_do_copy kv1 then copy_applied kv1 else kv1).
  assert (kv_wf kv2 ∧ same_shape kv kv2 ∧ kv_has_shift kv2 = false ∧ contents kv2 = contents kv1 ∧ swa_fields kv2 = swa_fields kv)
    as (Hwf2 & Hsh2 & Hs2 & Hc2 & Hf2).
  { subst kv2. destruct (_ && kv_do_copy kv1); [|by split_and!].
    destruct (copy_applied_refines kv1 Hwf1) as (? & Hc & ? & ? & ?). destruct Hsh1 as (? & ? & ?).
    split; [done|]. split; [|split; [done|split; [by rewrite Hc, omap_Some|done]]].
    split_and!; congruence. }
  destruct (kv_do_defrag kv2).
  - destruct (defrag_internal_ok kv2 max_moves [] [] Hwf2 Hmax) as (kv3 & t & v & cs & -> & Hwf3 & Hc3 & Hsh3 & Hs3 & Hf3).
    cbn. do 2 eexists. split; [done|]. split; [by apply with_flags_wf|].
    split; [destruct Hsh2 as (? & ? & ?), Hsh3 as (? & ? & ?); split_and!; cbn; congruence|].
    split; [rewrite <- Hf2, <- Hf3; done|].
    split_and!; [done|cbn; congruence|]. rewrite <- Hc1, <- Hc2. exact Hc3.
  - do 2 eexists. split; [done|]. split; [done|]. split; [done|]. split; [done|]. split_and!; [done..|]. by rewrite Hc2, Hc1.
Qed.

(** The padded search never leaves the array when the size is a multiple of the padding. *)
Lemma cell_max_between_ok n cells j : (n ≤ j ≤ length cells)%nat → ∃ r, cell_max_between n cells j = Ok r.
Proof.
  induction n as [|n IH] in j |- *; intros Hj; cbn; [by eexists|].
  destruct (at_lt cells (j - 1)) as (c & -> & _); [lia|]. cbn. destruct (cell_live c); [by eexists|].
  apply IH. lia.
Qed.

Lemma cell_max_padded_ok fuel cells i last pad :
  (i < fuel)%nat → (i ≤ last ≤ length cells)%nat → (0 < pad)%nat → (∃ k, i = k * pad)%nat →
  ∃ r, cell_max_padded fuel cells i last pad = Ok r.
Proof.
  induction fuel as [|fuel IH] in i, last |- *; intros Hf Hi Hp (k & Hk); [lia|]. cbn [cell_max_padded].
  bdec (i = 0)%nat as H0; [by eexists|].
  destruct (at_lt cells (i - 1)) as (c & -> & _); [lia|]. cbn [mbind res_bind].
  destruct (cell_live c).
  - destruct (cell_max_between_ok (last - i) cells last) as [r ->]; [lia|]. by eexists.
  - destruct k as [|k]; [lia|]. rewrite bool_decide_true by lia.
    apply IH; [lia..|]. exists k. lia.
Qed.

Lemma get_padding_pos fa : 0 < get_padding fa.
Proof. by destruct fa. Qed.

Lemma decode_set_n_spec kv fa : kv_wf kv → (get_padding fa | kv_size kv) →
  ∃ n, decode_set_n kv fa = Ok (with_n kv n).
Proof.
  intros Hwf [k Hk]. unfold decode_set_n, llama_kv_cache_cell_max_pad. pose proof (get_padding_pos fa).
  pose proof (wf_size _ Hwf).
  destruct (cell_max_padded_ok (S (length (kv_cells kv))) (kv_cells kv) (length (kv_cells kv))
    (length (kv_cells kv)) (Z.to_nat (get_padding fa))) as [r ->]; [lia..| |by eexists].
  exists (Z.to_nat k). nia.
Qed.

Lemma decode_restart_spec kv n : kv_wf kv →
  kv_wf (decode_restart kv n) ∧ contents (decode_restart kv n) = contents kv ∧
  same_shape kv (decode_restart kv n) ∧ kv_has_shift (decode_restart kv n) = kv_has_shift kv.
Proof.
  intros Hwf. unfold decode_restart. case_bool_decide; [|by split_and!].
  split_and!; try done. destruct Hwf. split; try done. cbn. lia.
Qed.

Lemma same_compacted kv kv' : same_shape kv kv' → any_compacted kv' = any_compacted kv.
Proof. intros (_ & Hrc & _). unfold any_compacted. by rewrite Hrc. Qed.

Lemma find_slot_swa kv b embd meta ok kv' : llama_kv_cache_find_slot kv b embd meta = Ok (ok, kv') →
  swa_fields kv' = swa_fields kv.
Proof.
  unfold llama_kv_cache_find_slot. destruct (kv_recurrent kv).
  { intros ([r a] & _ & H)%bind_Ok. destruct r; by injection H as _ <-. }
  destruct (bool_decide _); [by intros [= _ <-]|]. intros ([found head] & _ & H)%bind_Ok.
  destruct found; cbn [negb] in H; [|by injection H as _ <-]. apply bind_Ok in H as (cells & _ & H). by injection H as _ <-.
Qed.

(** The step before the graph: there is no room, or the batch was stored and only the
    compaction is left. *)
Lemma decode_prepare_cases can_shift fa max_moves kv b embd :
  kv_wf kv → 0 < max_moves → batch_ok (kv_mrope kv) b → (get_padding fa | kv_size kv) →
  (∃ kv', decode_prepare true can_shift fa max_moves kv b embd = Ok (1, kv') ∧ kv_wf kv' ∧ same_shape kv kv' ∧
     if kv_has_shift kv && negb can_shift then kv' = kv
     else contents kv' ≡ₚ shifted kv (contents kv) ∧ ∀ s, ¬ free_run (kv_cells kv') (n_tokens b) s) ∨
  kv_has_shift kv && negb can_shift = false ∧
  ∃ kv1 kv', decode_prepare true can_shift fa max_moves kv b embd =
      ('(_, kv) ← llama_kv_cache_compact_swa kv' fa (Z.of_nat (n_tokens b)); mret (0, kv)) ∧
    kv_wf kv' ∧ same_shape kv kv' ∧ swa_fields kv' = swa_fields kv ∧
    contents kv' ≡ₚ shifted kv (contents kv) ++ batch_entries (kv_mrope kv) b embd ∧
    kv_wf kv1 ∧ kv_size kv1 = kv_size kv ∧ kv_cells kv' = kv_cells kv1 ∧ decode_set_n kv1 fa = Ok kv'.
Proof.
  intros Hwf Hmax Hb Hpad. unfold decode_prepare.
  destruct (update_spec can_shift max_moves kv Hwf Hmax) as (ret & kv1 & -> & Hwf1 & Hsh1 & Hf1 & Hu).
  cbn [mbind res_bind]. destruct (kv_has_shift kv && negb can_shift).
  { destruct Hu as [-> ->]. left. by eexists. }
  destruct Hu as (-> & Hs1 & Hc1). cbn [negb bool_decide decide].
  destruct (decode_restart_spec kv1 (n_tokens b) Hwf1) as (Hwf2 & Hc2 & Hsh2 & Hs2).
  assert (swa_fields (decode_restart kv1 (n_tokens b)) = swa_fields kv) as Hf2 by (rewrite <- Hf1; unfold decode_restart; by case_bool_decide).
  set (kv2 := decode_restart kv1 (n_tokens b)) in *.
  assert (kv_mrope kv2 = kv_mrope kv ∧ kv_size kv2 = kv_size kv ∧ kv_row_count kv2 = kv_row_count kv)
    as (Hmr & Hsz & Hrc) by (destruct Hsh1 as (? & ? & ?), Hsh2 as (? & ? & ?); split_and!; congruence).
  rewrite <- Hmr in Hb.
  destruct (find_slot_spec true kv2 b embd Hwf2 ltac:(congruence) Hb) as (ok & kv3 & Hfind & Hwf3 & Hsz3 & Hrc3 & Hmr3 & Hok).
  pose proof (find_slot_swa _ _ _ _ _ _ Hfind) as Hf3. rewrite Hfind.
  cbn [mbind res_bind]. change (bool_decide (0 = 0)) with true. cbn [negb].
  destruct ok; cbn [negb].
  2: { destruct Hok as [Hc3 Hno]. left. eexists. split; [done|]. split; [done|].
       split; [split_and!; congruence|].
       split; [unfold contents in *; by rewrite Hc3, Hc2|by rewrite Hc3]. }
  right. split; [done|]. destruct Hok as [Hc3 _]. rewrite (wf_attn _ Hwf3). cbn [negb].
  destruct (decode_set_n_spec kv3 fa Hwf3) as [n Hn]; [by rewrite Hsz3, Hsz|]. rewrite Hn. cbn [mbind res_bind].
  exists kv3, (with_n kv3 n). split; [done|]. split; [by destruct Hwf3; split|]. split; [split_and!; cbn; congruence|].
  split; [by rewrite <- Hf2, <- Hf3|]. split; [|by rewrite Hsz3, Hsz].
  unfold contents in *. change (kv_cells (with_n kv3 n)) with (kv_cells kv3). by rewrite Hc3, Hc2, Hmr, Hc1.
Qed.

(** Without compacted layers it stores the batch or reports that there is no room. *)
Lemma decode_prepare_spec can_shift fa max_moves kv b embd :
  kv_wf kv → 0 < max_moves → batch_ok (kv_mrope kv) b → (get_padding fa | kv_size kv) → any_compacted kv = false →
  ∃ ret kv', decode_prepare true can_shift fa max_moves kv b embd = Ok (ret, kv') ∧
    kv_wf kv' ∧ same_shape kv kv' ∧
    if kv_has_shift kv && negb can_shift then ret = 1 ∧ kv' = kv
    else ret = 0 ∧ contents kv' ≡ₚ shifted kv (contents kv) ++ batch_entries (kv_mrope kv) b embd ∧
           (∃ kv1, kv_wf kv1 ∧ kv_size kv1 = kv_size kv ∧ kv_cells kv' = kv_cells kv1 ∧ decode_set_n kv1 fa = Ok kv') ∨
         ret = 1 ∧ contents kv' ≡ₚ shifted kv (contents kv) ∧ ∀ s, ¬ free_run (kv_cells kv') (n_tokens b) s.
Proof.
  intros Hwf Hmax Hb Hpad Hac.
  destruct (decode_prepare_cases can_shift fa max_moves kv b embd Hwf Hmax Hb Hpad)
    as [(kv' & -> & Hwf' & Hsh & Hcase)|(Hs & kv1 & kv' & -> & Hwf' & Hsh & _ & Hc & Hset)].
  - exists 1, kv'. split; [done|]. split; [done|]. split; [done|].
    destruct (kv_has_shift kv && negb can_shift); [done|]. right. by destruct Hcase.
  - unfold llama_kv_cache_compact_swa. rewrite (same_compacted _ _ Hsh), Hac. cbn [negb mbind res_bind mret res_ret].
    exists 0, kv'. split; [done|]. split; [done|]. split; [done|]. rewrite Hs. left. eauto.
Qed.

Lemma decode_advance_spec kv n : kv_wf kv → any_compacted kv = false →
  ∃ h, decode_advance kv n = Ok (with_state kv h (kv_used kv) (kv_cells kv)) ∧
    kv_wf (with_state kv h (kv_used kv) (kv_cells kv)).
Proof.
  intros Hwf Hac. unfold decode_advance. rewrite Hac. cbn [mbind res_bind mret res_ret]. eexists. split; [done|].
  destruct Hwf. split; try done. cbn. case_bool_decide; [lia|]. pose proof (u32_range (kv_head kv + Z.of_nat n)). lia.
Qed.

(** One step of decoding stores the batch or reports that there is no room. *)
Lemma decode_step_spec can_shift fa max_moves kv b embd :
  kv_wf kv → 0 < max_moves → batch_ok (kv_mrope kv) b → (get_padding fa | kv_size kv) → any_compacted kv = false →
  ∃ ret kv', decode_step true can_shift fa max_moves kv b embd = Ok (ret, kv') ∧
    kv_wf kv' ∧ same_shape kv kv' ∧
    if kv_has_shift kv && negb can_shift then ret = 1 ∧ kv' = kv
    else ret = 0 ∧ contents kv' ≡ₚ shifted kv (contents kv) ++ batch_entries (kv_mrope kv) b embd ∨
         ret = 1 ∧ contents kv' ≡ₚ shifted kv (contents kv) ∧ ∀ s, ¬ free_run (kv_cells kv') (n_tokens b) s.
Proof.
  intros Hwf Hmax Hb Hpad Hac. unfold decode_step.
  destruct (decode_prepare_spec can_shift fa max_moves kv b embd Hwf Hmax Hb Hpad Hac)
    as (ret & kv1 & -> & Hwf1 & Hsh & Hcase). cbn [mbind res_bind].
  destruct (kv_has_shift kv && negb can_shift).
  { destruct Hcase as [-> ->]. change (bool_decide (1 = 0)) with false. cbn [negb]. by do 2 eexists. }
  destruct Hcase as [(-> & Hc & _)|(-> & Hc & Hno)].
  2: { change (bool_decide (1 = 0)) with false. cbn [negb]. do 2 eexists. split_and!; [done..|]. by right. }
  change (bool_decide (0 = 0)) with true. cbn [negb].
  destruct (decode_advance_spec kv1 (n_tokens b) Hwf1) as (h & -> & Hwf2); [by rewrite (same_compacted _ _ Hsh)|].
  cbn [mbind res_bind mret res_ret]. do 2 eexists. split_and!; [done..|]. by left.
Qed.

(** With compacted layers the compaction, or the head of their rows, may be refused. *)
Definition swa_refuses (kv : llama_kv_cache) (fa : bool) (n : Z) : Prop :=
  any_compacted kv = true ∧
  (swa_capacity kv fa < n ∨
   swa_capacity kv fa < u32 (live_swa kv + n) ∧ live_swa kv < kv_window_swa kv ∨
   let head := if bool_decide (u32 (live_swa kv + n) ≤ swa_capacity kv fa) then kv_head_swa kv
               else u32 (kv_sink_rows kv + kv_window_swa kv) in
   kv_size_swa kv < u32 (head + n)).

Lemma with_swa_wf kv h p : kv_wf kv → kv_wf (with_swa kv h p).
Proof. intros []. by split. Qed.

Lemma swa_refuses_same kv kv' fa n : same_shape kv kv' → swa_fields kv' = swa_fields kv → swa_refuses kv' fa n → swa_refuses kv fa n.
Proof.
  intros Hsh [= E1 E2 E3 E4 E5]. unfold swa_refuses, swa_capacity, live_swa.
  by rewrite (same_compacted _ _ Hsh), E1, E2, E3, E4.
Qed.

Lemma compact_advance kv fa n : kv_wf kv →
  match ('(_, kv) ← llama_kv_cache_compact_swa kv fa (Z.of_nat n); decode_advance kv n) with
  | Ok kv' => kv_wf kv' ∧ kv_size kv' = kv_size kv ∧ kv_cells kv' = kv_cells kv
  | Err Abort => swa_refuses kv fa (Z.of_nat n)
  | Err _ => False
  end.
Proof.
  intros Hwf. assert (∀ kv', kv_wf kv' → kv_size kv' = kv_size kv → kv_cells kv' = kv_cells kv →
    let head := u32 (kv_head kv' + Z.of_nat n) in
    let kv'' := with_state kv' (if bool_decide (kv_size kv' ≤ head) then 0 else head) (kv_used kv') (kv_cells kv') in
    kv_wf kv'' ∧ kv_size kv'' = kv_size kv ∧ kv_cells kv'' = kv_cells kv) as Hadv.
  { intros kv' [] Hs Hc head. split; [|done]. split; try done. cbn. pose proof (u32_range (kv_head kv' + Z.of_nat n)). fold head in H.
    bdec (kv_size kv' ≤ head) as Hh; lia. }
  unfold llama_kv_cache_compact_swa, swa_refuses. destruct (any_compacted kv) eqn:Ea; cbn [negb].
  2: { cbn [mbind res_bind]. unfold decode_advance. rewrite Ea. by apply Hadv. }
  bdec (Z.of_nat n ≤ swa_capacity kv fa) as Hn; cbn [ggml_assert mbind res_bind]; [|split; [done|left; lia]].
  bdec (u32 (live_swa kv + Z.of_nat n) ≤ swa_capacity kv fa) as Hfit; cbn [mbind res_bind].
  - unfold decode_advance. rewrite Ea.
    bdec (u32 (kv_head_swa kv + Z.of_nat n) ≤ kv_size_swa kv) as Hh; cbn [ggml_assert mbind res_bind mret res_ret].
    + apply (Hadv (with_swa kv _ _)); [by apply with_swa_wf|done..].
    + split; [done|]. right. right. lia.
  - bdec (kv_window_swa kv ≤ live_swa kv) as Hw; cbn [ggml_assert mbind res_bind mret res_ret]; [|split; [done|right; left; lia]].
    set (kv1 := with_swa kv _ _). unfold decode_advance. change (any_compacted kv1) with (any_compacted kv). rewrite Ea.
    bdec (u32 (kv_head_swa kv1 + Z.of_nat n) ≤ kv_size_swa kv1) as Hh; cbn [ggml_assert mbind res_bind mret res_ret].
    + assert (kv_wf (with_swa kv1 (u32 (kv_head_swa kv1 + Z.of_nat n)) (kv_pos_base_swa kv1))) as Hwf2 by (by do 2 apply with_swa_wf).
      exact (Hadv _ Hwf2 eq_refl eq_refl).
    + split; [done|]. right. right. change (kv_size_swa kv1) with (kv_size_swa kv) in Hh. cbn [kv_head_swa kv1 with_swa] in Hh. lia.
Qed.

(** One step of decoding, with or without compacted layers. *)
Lemma decode_step_any can_shift fa max_moves kv b embd :
  kv_wf kv → 0 < max_moves → batch_ok (kv_mrope kv) b → (get_padding fa | kv_size kv) →
  match decode_step true can_shift fa max_moves kv b embd with
  | Ok (ret, kv') => kv_wf kv' ∧ kv_size kv' = kv_size kv ∧
      if kv_has_shift kv && negb can_shift then ret = 1 ∧ kv' = kv
      else ret = 0 ∧ contents kv' ≡ₚ shifted kv (contents kv) ++ batch_entries (kv_mrope kv) b embd ∨
           ret = 1 ∧ contents kv' ≡ₚ shifted kv (contents kv)
  | Err Abort => swa_refuses kv fa (Z.of_nat (n_tokens b))
  | Err _ => False
  end.
Proof.
  intros Hwf Hmax Hb Hpad. unfold decode_step.
  destruct (decode_prepare_cases can_shift fa max_moves kv b embd Hwf Hmax Hb Hpad)
    as [(kv' & -> & Hwf' & (Hs & _) & Hcase)|(Hsh & kv1 & kv' & -> & Hwf' & Hshape & Hf & Hc & _)].
  - cbn [mbind res_bind negb bool_decide decide]. change (bool_decide (1 = 0)) with false. cbn [negb].
    split; [done|]. split; [done|]. destruct (kv_has_shift kv && negb can_shift); [done|]. right. by destruct Hcase.
  - pose proof (compact_advance kv' fa (n_tokens b) Hwf') as Hadv. rewrite Hsh.
    destruct (llama_kv_cache_compact_swa kv' fa (Z.of_nat (n_tokens b))) as [[? kv2]|f]; cbn [mbind res_bind mret res_ret] in Hadv |- *.
    2: { destruct f; try done. by eapply swa_refuses_same. }
    change (bool_decide (0 = 0)) with true. cbn [negb].
    destruct (decode_advance kv2 (n_tokens b)) as [kv3|f]; cbn [mbind res_bind mret res_ret].
    2: { destruct f; try done. by eapply swa_refuses_same. }
    destruct Hadv as (Hwf3 & Hs3 & Hc3). destruct Hshape as (Hs & _). split; [done|]. split; [congruence|]. left. split; [done|].
    rewrite <- Hc. unfold contents. by rewrite Hc3.
Qed.

(** ** Histories *)

Inductive kv_op :=
  | OpClear
  | OpRm (seq p0 p1 : Z)
  | OpCp (src dst p0 p1 : Z)
  | OpKeep (seq : Z)
  | OpAdd (seq p0 p1 delta : Z)
  | OpDiv (seq p0 p1 d : Z)
  | OpDefrag
  | OpDecode (b : llama_batch) (embd : Z).

Section history.
Context (can_shift flash_attn : bool) (max_moves : Z).

(** What an operation does to the cache, and whether it was carried out. *)
Definition kv_exec (kv : llama_kv_cache) (op : kv_op) : res (bool * llama_kv_cache) :=
  match op with
  | OpClear => Ok (true, llama_kv_cache_clear kv)
  | OpRm seq p0 p1 => '(r, kv, _) ← llama_kv_cache_seq_rm kv seq p0 p1 None; mret (r, kv)
  | OpCp src dst p0 p1 => kv ← llama_kv_cache_seq_cp kv src dst p0 p1; mret (true, kv)
  | OpKeep seq => Ok (true, llama_kv_cache_seq_keep kv seq)
  | OpAdd seq p0 p1 delta => kv ← llama_kv_cache_seq_add kv seq p0 p1 delta; mret (true, kv)
  | OpDiv seq p0 p1 d => kv ← llama_kv_cache_seq_div kv seq p0 p1 d; mret (true, kv)
  | OpDefrag => Ok (true, llama_kv_cache_defrag kv)
  | OpDecode b embd => '(ret, kv) ← decode_step true can_shift flash_attn max_moves kv b embd; mret (bool_decide (ret = 0), kv)
  end.

(** What it does to the entries. *)
Definition op_effect (kv : llama_kv_cache) (op : kv_op) (ok : bool) (es : list entry) : list entry :=
  match op with
  | OpClear => []
  | OpRm seq p0 p1 => if ok then omap (spec_rm seq p0 p1) es else es
  | OpCp src dst p0 p1 => omap (spec_cp src dst p0 p1) es
  | OpKeep seq => omap (spec_keep seq) es
  | OpAdd seq p0 p1 delta =>
    if decide (range_lo p0 = range_hi p1) then es else omap (spec_add (kv_mrope kv) seq p0 p1 delta) es
  | OpDiv seq p0 p1 d =>
    if decide (range_lo p0 = range_hi p1) then es else omap (spec_div (kv_mrope kv) seq p0 p1 d) es
  | OpDefrag => es
  | OpDecode b embd =>
    let es := if kv_has_shift kv && negb can_shift then es else shifted kv es in
    if ok then es ++ batch_entries (kv_mrope kv) b embd else es
  end.

(** Calls with arguments of their types. *)
Definition op_typed (kv : llama_kv_cache) (op : kv_op) : Prop :=
  match op with
  | OpCp src dst _ _ => is_i32 src ∧ is_i32 dst
  | OpDecode b _ => batch_ok (kv_mrope kv) b
  | _ => True
  end.

(** Calls that respect the interface: divisors are positive, and a sequence with
    recurrent states is copied when its own copies are done. *)
Definition op_ok (kv : llama_kv_cache) (op : kv_op) : Prop :=
  op_typed kv op ∧
  match op with
  | OpCp src dst _ _ => cp_source kv src dst = src
  | OpDiv _ _ _ d => 0 < d
  | _ => True
  end.

Context (Hmax : 0 < max_moves).

Lemma kv_exec_refines kv op ok kv' : kv_wf kv → (get_padding flash_attn | kv_size kv) → op_ok kv op →
  kv_exec kv op = Ok (ok, kv') →
  kv_wf kv' ∧ kv_size kv' = kv_size kv ∧ contents kv' ≡ₚ op_effect kv op ok (contents kv).
Proof using Hmax.
  intros Hwf Hpad [Ht Hok]. destruct op as [|seq p0 p1|src dst p0 p1|seq|seq p0 p1 delta|seq p0 p1 d| |b embd]; cbn.
  - intros [= <- <-]. destruct (clear_refines kv Hwf) as (? & Hc & ? & _). split_and!; [done..|].
    by rewrite Hc, omap_None.
  - intros Hr. apply bind_Ok in Hr as ([[r kv1] eff] & Hrm & [= <- <-]).
    pose proof (seq_rm_refines kv seq p0 p1 None r kv1 eff Hwf Hrm) as Hr. destruct r.
    + destruct Hr as (? & -> & ? & _). done.
    + by subst.
  - intros Hr. destruct Ht as [Hs Hd]. cbn in Hok.
    destruct (seq_cp_refines kv src dst p0 p1 Hwf Hs Hd) as (kv1 & E & ? & Hc & ? & _). rewrite E in Hr.
    injection Hr as <- <-. by rewrite Hc, Hok.
  - intros [= <- <-]. destruct (seq_keep_refines kv seq Hwf) as (? & -> & ? & _). done.
  - intros Hr. apply bind_Ok in Hr as (kv1 & Hr & [= <- <-]).
    pose proof (seq_add_refines kv seq p0 p1 delta kv1 Hwf Hr) as Hr'.
    destruct (decide _); [by subst|]. by destruct Hr' as (? & -> & ? & _).
  - intros Hr. apply bind_Ok in Hr as (kv1 & Hr & [= <- <-]).
    pose proof (seq_div_refines kv seq p0 p1 d kv1 Hwf Hok Hr) as Hr'.
    destruct (decide _); [by subst|]. by destruct Hr' as (? & -> & ? & _).
  - intros [= <- <-]. unfold llama_kv_cache_defrag. do 2 (case_match; [done|]). by split; [apply with_flags_wf|].
  - pose proof (decode_step_any can_shift flash_attn max_moves kv b embd Hwf Hmax Ht Hpad) as Hd.
    intros Hr. apply bind_Ok in Hr as ([ret kv1] & E & [= <- <-]). rewrite E in Hd. destruct Hd as (? & ? & Hd).
    split; [done|]. split; [done|]. destruct (kv_has_shift kv && negb can_shift); [by destruct Hd as [-> ->]|].
    by destruct Hd as [[-> ->]|[-> ->]].
Qed.

(** When an operation stops in an assertion, or divides by zero. *)
Definition shift_refused (kv : llama_kv_cache) (seq p0 p1 : Z) : Prop :=
  kv_s_l_position_strict kv = true ∨ any_compacted kv = true ∨
  kv_mrope kv = true ∧ ∃ c, c ∈ kv_cells kv ∧ has_seq_id c seq = true ∧
    in_range c (range_lo p0) (range_hi p1) = true ∧ (c_pos_h c, c_pos_w c, c_pos_e c) ≠ (c_pos c, c_pos c, 0).

Definition op_refused (kv : llama_kv_cache) (op : kv_op) : Prop :=
  match op with
  | OpRm _ _ _ => any_compacted kv = true ∧ live_swa kv ≤ 0 ∧ kv_pos_base_swa kv ≠ 0
  | OpAdd seq p0 p1 _ => shift_refused kv seq p0 p1
  | OpDiv seq p0 p1 d => shift_refused kv seq p0 p1 ∨ d = 0
  | OpDecode b _ => swa_refuses kv flash_attn (Z.of_nat (n_tokens b))
  | _ => False
  end.

Lemma mrope_text_only_false seq lo hi cells : mrope_text_only seq lo hi cells = false →
  ∃ c, c ∈ cells ∧ has_seq_id c seq = true ∧ in_range c lo hi = true ∧
    (c_pos_h c, c_pos_w c, c_pos_e c) ≠ (c_pos c, c_pos c, 0).
Proof using Type.
  unfold mrope_text_only. induction cells as [|c cells IH]; cbn; [done|]. intros [H|H]%andb_false_iff.
  - exists c. apply orb_false_iff in H as [[Hm Hr]%negb_false_iff%andb_true_iff Ht].
    split_and!; [constructor|done..|]. intros [= E1 E2 E3]. rewrite E1, E2, E3 in Ht.
    by rewrite !bool_decide_true in Ht.
  - destruct (IH H) as (c' & ? & ?). exists c'. split; [by constructor|done].
Qed.




(** The caches a history leads to, with the entries the specification predicts. *)
Inductive kv_reaches (kv0 : llama_kv_cache) : llama_kv_cache → list entry → Prop :=
  | reaches_init : kv_reaches kv0 kv0 []
  | reaches_step kv es op ok kv' :
      kv_reaches kv0 kv es → op_ok kv op → kv_exec kv op = Ok (ok, kv') →
      kv_reaches kv0 kv' (op_effect kv op ok es).

Lemma op_effect_proper kv op ok es es' : es ≡ₚ es' → op_effect kv op ok es ≡ₚ op_effect kv op ok es'.
Proof using Type.
  intros E. destruct op; cbn; unfold shifted; repeat case_match; rewrite ?E; done.
Qed.

Lemma init_wf n hybrid mrope qsa strict slots hp sc ssc n_ubatch kv :
  0 ≤ n < 2 ^ 30 →
  llama_kv_cache_init n false hybrid mrope qsa strict slots hp sc ssc flash_attn n_ubatch = Ok kv →
  kv_wf kv ∧ contents kv = [] ∧ kv_size kv = n.
Proof using Type.
  intros Hn. unfold llama_kv_cache_init. cbn [orb].
  set (cells := if hybrid then _ else _).
  assert (∀ k c, cells !! k = Some c → (k < Z.to_nat n)%nat ∧ ¬ in_use c ∧ cell_ok c ∧ c_delta c = 0 ∧
    (c_src c = 0 ∨ 0 ≤ c_src c < n)) as Hcells.
  { subst cells. intros k c Hc. assert ((k < Z.to_nat n)%nat ∧ (c = default_cell ∨ c = with_src default_cell (Z.of_nat k)))
      as [Hk Hd].
    { destruct hybrid; [rewrite list_lookup_imap in Hc; apply fmap_Some in Hc as (c0 & [-> ?]%lookup_replicate & ->); auto|].
      apply lookup_replicate in Hc as [-> ?]. auto. }
    destruct Hd as [->| ->]; split_and!; try done; try apply default_not_in_use; try apply default_cell_ok; cbn; lia. }
  assert (length cells = Z.to_nat n) as Hlen by (subst cells; destruct hybrid; by rewrite ?length_imap, length_replicate).
  assert (live_cells cells = []) as Hlive.
  { apply filter_none, Forall_lookup_2. intros k c Hc. by apply Hcells in Hc as (_ & ? & _). }
  assert (Hmk : ∀ kv, kv_cells kv = cells → kv_size kv = n → kv_used kv = 0 → kv_head kv = 0 → kv_recurrent kv = false →
    kv_wf kv ∧ contents kv = [] ∧ kv_size kv = n).
  { intros kv0 Hc Hs Hu Hh Hr. split_and!; [|unfold contents; by rewrite Hc, Hlive|done].
    split; rewrite ?Hc, ?Hs, ?Hu, ?Hh, ?Hlive; try lia; try done; try apply Forall_lookup_2; try (intros k c Hk; by apply Hcells in Hk as (?&?&?&?&?)).
    intros _. apply Forall_lookup_2. intros k c Hk. by apply Hcells in Hk as (?&?&?&?&?). }
  intros H. destruct (sc && ssc); [|injection H as <-; by apply Hmk].
  inv_res. destruct (existsb _ _); inv_res; by apply Hmk.
Qed.

End history.

(** C12. The search succeeds exactly when enough free cells are in a row somewhere,
    for every head.  Then the cells from the head on were free and hold the batch,
    cell by cell and with all its positions and sequences, and every other cell is
    as before; otherwise no cell changes. *)
Theorem find_slot_complete kv b embd : kv_wf kv → kv_has_shift kv = false → batch_ok (kv_mrope kv) b →
  ∃ ok kv', llama_kv_cache_find_slot kv b embd true = Ok (ok, kv') ∧ kv_wf kv' ∧
    (ok = true ↔ ∃ s, free_run (kv_cells kv) (n_tokens b) s) ∧
    (ok = true → free_run (kv_cells kv) (n_tokens b) (Z.to_nat (kv_head kv')) ∧ slot_filled kv kv' (kv_mrope kv) b embd ∧
       contents kv' ≡ₚ contents kv ++ batch_entries (kv_mrope kv) b embd) ∧
    (ok = false → kv_cells kv' = kv_cells kv).
Proof.
  intros Hwf Hs Hb. destruct (find_slot_spec true kv b embd Hwf Hs Hb) as (ok & kv' & -> & Hwf' & _ & _ & _ & Hok).
  exists ok, kv'. destruct ok; [destruct Hok as (H1 & H2 & H3)|destruct Hok as [H1 H2]]; (split; [done|split; [done|split; [|split]]]); try done.
  - split; [eauto|done].
  - split; [done|]. intros [s ?]. by destruct (H2 s).
Qed.

(** ** Examples *)

Definition init32 : res llama_kv_cache :=
  llama_kv_cache_init 32 false false false false false 0 (HparamsSwa 0 0 [] 0 0) false false false 512.
Definition one_token : llama_batch := Batch (Some [7]) [0] [[0]].

Lemma one_token_ok : batch_ok false one_token.
Proof.
  split; cbn.
  - lia.
  - intros toks [= <-]. cbn. lia.
  - intros [|i] p Hi [= <-]. lia.
  - repeat constructor. discriminate.
Qed.



Lemma find_slot_complete_witness :
  ∃ kv', llama_kv_cache_find_slot holes_kv one_token 0 true = Ok (true, kv') ∧ slot_filled holes_kv kv' false one_token 0.
Proof.
  destruct (find_slot_complete holes_kv one_token 0 holes_kv_wf eq_refl one_token_ok) as (ok & kv' & Hf & _ & _ & Hok & _).
  assert (ok = true) as -> by (vm_compute in Hf; congruence). exists kv'. split; [exact Hf|]. apply (Hok eq_refl).
Defined.
