(* ===== verification/KvWindow.v ===== *)
(** * Compacted sliding-window layers

    A compacted layer keeps the rows of the last positions only: the row of
    position [p] is [sink_rows + p - pos_base_swa].  The rows allocated, their
    compaction, the removal of a suffix and the view the attention reads. *)
From S2P Require Import Prelude KvCache KvLemmas.

(** ** Rounding to the padding *)

Lemma div_mul_le a b : 0 < b → a / b * b ≤ a.
Proof. intros. pose proof (Z.mul_div_le a b). lia. Qed.

Lemma div_mul_ge a b c : 0 < b → (b | c) → c ≤ a → c ≤ a / b * b.
Proof. intros Hb [k ->] Hle. assert (k ≤ a / b) by (by apply Z.div_le_lower_bound; lia). nia. Qed.

Lemma round_up_spec a b : 0 < b → 0 ≤ a →
  a ≤ (a + b - 1) / b * b < a + b ∧ (b | (a + b - 1) / b * b).
Proof.
  intros Hb Ha. split; [|by exists ((a + b - 1) / b)].
  pose proof (Z.div_mod (a + b - 1) b). pose proof (Z.mod_pos_bound (a + b - 1) b). lia.
Qed.

Lemma pad_up_spec x fa : 0 ≤ x →
  x ≤ pad_up x (get_padding fa) < x + get_padding fa ∧ (get_padding fa | pad_up x (get_padding fa)).
Proof.
  intros Hx. unfold pad_up. rewrite bool_decide_true by (by destruct fa).
  rewrite Z.quot_div_nonneg by (destruct fa; cbn; lia). apply round_up_spec; [by destruct fa|done].
Qed.

(** ** The window *)

(** The invariant of the fields that describe the window. *)
Record swa_wf (kv : llama_kv_cache) : Prop := {
  swa_any : any_compacted kv = true;
  swa_sink : 0 ≤ kv_sink_rows kv;
  swa_window : 0 < kv_window_swa kv;
  swa_head : kv_sink_rows kv ≤ kv_head_swa kv ≤ kv_size_swa kv;
  swa_size : kv_size_swa kv < 2 ^ 30;
  swa_base : 0 ≤ kv_pos_base_swa kv;
  swa_end : kv_pos_base_swa kv + (kv_head_swa kv - kv_sink_rows kv) < 2 ^ 31;
  swa_full : kv_pos_base_swa kv = 0 ∨ kv_window_swa kv ≤ kv_head_swa kv - kv_sink_rows kv }.

(** The end of the live positions. *)
Definition swa_next (kv : llama_kv_cache) : Z := kv_pos_base_swa kv + live_swa kv.

(** The row of a position. *)
Definition swa_row (kv : llama_kv_cache) (p : Z) : Z := kv_sink_rows kv + (p - kv_pos_base_swa kv).

(** The tensor holds [data p] in the row of every live position [p]. *)
Definition window_holds {A} (kv : llama_kv_cache) (data : Z → A) (tensor : list A) : Prop :=
  ∀ p, kv_pos_base_swa kv ≤ p < swa_next kv → tensor !! Z.to_nat (swa_row kv p) = Some (data p).

Lemma live_swa_val kv : swa_wf kv → live_swa kv = kv_head_swa kv - kv_sink_rows kv.
Proof. intros []. apply u32_small. lia. Qed.

Lemma swa_capacity_spec kv fa : swa_wf kv →
  0 ≤ swa_capacity kv fa ≤ kv_size_swa kv - kv_sink_rows kv ∧ (get_padding fa | swa_capacity kv fa).
Proof.
  intros []. unfold swa_capacity. rewrite bool_decide_true by (by destruct fa).
  assert (0 < get_padding fa) by (by destruct fa).
  pose proof (div_mul_le (kv_size_swa kv - kv_sink_rows kv) (get_padding fa) ltac:(done)).
  assert (0 ≤ (kv_size_swa kv - kv_sink_rows kv) / get_padding fa) by (apply Z.div_pos; lia).
  rewrite (u32_small (kv_size_swa kv - _)) by lia. rewrite u32_small by nia.
  split; [nia|]. apply Z.divide_factor_r.
Qed.

(** The rows allocated hold a whole window and a micro-batch, provided that the
    sinks or the window and the slack are multiples of the padding. *)
Theorem compact_rows_suffice window fa n_ubatch sink rows :
  0 ≤ sink → 0 ≤ window → 0 ≤ n_ubatch → sink + window + Z.max n_ubatch 256 < 2 ^ 30 →
  (get_padding fa | sink) ∨ (get_padding fa | window + Z.max n_ubatch 256) →
  rows = llama_swa_compact_rows window (get_padding fa) n_ubatch sink →
  window + Z.max n_ubatch 256 ≤ (rows - sink) / get_padding fa * get_padding fa ≤ rows - sink.
Proof.
  intros Hs Hw Hn Hb Hd ->. assert (0 < get_padding fa ≤ 256) by (by destruct fa).
  split; [|apply div_mul_le; lia].
  unfold llama_swa_compact_rows. replace (if bool_decide (256 < n_ubatch) then n_ubatch else 256) with (Z.max n_ubatch 256)
    by (case_bool_decide; lia).
  rewrite bool_decide_true by (by destruct fa). set (pad := get_padding fa) in *. set (t := window + Z.max n_ubatch 256) in *.
  rewrite (u32_small (sink + window + Z.max n_ubatch 256)) by lia.
  rewrite (u32_small (_ + pad)), (u32_small (_ - 1)) by lia.
  replace (sink + window + Z.max n_ubatch 256) with (sink + t) by lia.
  destruct (round_up_spec (sink + t) pad ltac:(lia) ltac:(lia)) as [Hup [k Hk]].
  rewrite u32_small by lia. destruct Hd as [[j ->]|Hd]; [|apply div_mul_ge; [lia|done|lia]].
  rewrite Hk. replace (k * pad - j * pad) with ((k - j) * pad) by lia. rewrite Z.div_mul by lia. lia.
Qed.

(** With room for a window and the batch, compaction succeeds. *)
Lemma compact_swa_spec kv fa n : swa_wf kv → 0 ≤ n → kv_window_swa kv + n ≤ swa_capacity kv fa →
  ∃ c kv', llama_kv_cache_compact_swa kv fa n = Ok (c, kv') ∧ swa_wf kv' ∧
    (∃ h p, kv' = with_swa kv h p) ∧ live_swa kv' + n ≤ swa_capacity kv' fa ∧ swa_next kv' = swa_next kv ∧
    kv_pos_base_swa kv ≤ kv_pos_base_swa kv' ∧
    (kv_pos_base_swa kv' ≠ kv_pos_base_swa kv → kv_pos_base_swa kv' = swa_next kv' - kv_window_swa kv) ∧
    (∀ A (tensor : list A) (data : Z → A), length tensor = Z.to_nat (kv_size_swa kv) → window_holds kv data tensor →
      ∃ tensor', compact_tensor c tensor = Ok tensor' ∧ window_holds kv' data tensor' ∧
        length tensor' = length tensor ∧
        ∀ i, Z.of_nat i < kv_sink_rows kv → tensor' !! i = tensor !! i) ∧
    (∀ A (tensor : list (list A)), Forall (λ r, length r = Z.to_nat (kv_size_swa kv)) tensor →
      ∃ tensor', compact_transposed c tensor = Ok tensor' ∧
        Forall2 (λ r r', compact_tensor c r = Ok r') tensor tensor').
Proof.
  intros Hwf Hn Hcap. pose proof (swa_capacity_spec kv fa Hwf) as [Hc _]. pose proof (live_swa_val kv Hwf) as Hl.
  pose proof Hwf as []. unfold llama_kv_cache_compact_swa. rewrite swa_any0. cbn [negb].
  rewrite (bool_decide_true (n ≤ _)) by lia. cbn [ggml_assert mbind res_bind].
  rewrite (u32_small (live_swa kv + n)) by lia.
  bdec (live_swa kv + n ≤ swa_capacity kv fa) as Hfit.
  { exists None, kv. split_and!; try done; [by exists (kv_head_swa kv), (kv_pos_base_swa kv); destruct kv|by intros; exists tensor|].
    intros A tensor Hlen. apply mapM_Ok. eapply Forall_impl; [done|]. by intros r _; exists r. }
  rewrite (bool_decide_true (kv_window_swa kv ≤ live_swa kv)) by lia. cbn [ggml_assert mbind res_bind mret res_ret].
  rewrite Hl in *. rewrite (u32_small (kv_sink_rows kv + _)), (u32_small (_ - kv_window_swa kv)) by lia.
  rewrite (u32_small (kv_head_swa kv - _ - _)), (i32_small (_ - kv_window_swa kv)), i32_small, u32_small by lia.
  set (kv' := with_swa _ _ _). do 2 eexists. split; [done|].
  assert (Hwf' : swa_wf kv') by (split; cbn; try done; lia).
  assert (Hl' : live_swa kv' = kv_window_swa kv) by (rewrite live_swa_val by done; cbn; lia).
  assert (Hnext : swa_next kv' = swa_next kv) by (unfold swa_next; rewrite Hl', Hl; cbn; lia).
  split_and!; [done|by do 2 eexists|rewrite Hl'; exact Hcap|done|cbn; lia|unfold swa_next; rewrite Hl'; cbn; lia| |].
  - intros A tensor data Hlen Hh. edestruct (copy_rows_spec (A:=A)) as (t' & Ht' & Hlen' & Hk); [| |exists t'; split; [exact Ht'|]].
    + lia.
    + lia.
    + split; [|split; [done|intros i Hi; rewrite Hk, decide_False by lia; done]].
      intros p Hp. rewrite Hnext in Hp. cbn in Hp. unfold swa_next in Hp. rewrite Hl in Hp.
      rewrite Hk. unfold swa_row. cbn. rewrite decide_True by lia. rewrite <- (Hh p) by (unfold swa_next; rewrite Hl; lia).
      f_equal. unfold swa_row. lia.
  - intros A tensor Hlen. apply mapM_Ok. eapply Forall_impl; [done|]. intros r Hr. cbn in Hr |- *.
    edestruct (copy_rows_spec (A:=A)) as (t' & Ht' & _); [| |by exists t']; lia.
Qed.

(** ** The view of the attention *)

(** The rows as [llama_kv_cache_init] allocates them, for micro-batches of up to
    [n_ubatch] tokens; the sinks, or the window with the slack, are whole paddings. *)
Record swa_allocated (fa : bool) (n_ubatch : Z) (kv : llama_kv_cache) : Prop := {
  al_wf : swa_wf kv;
  al_rows : kv_size_swa kv = llama_swa_compact_rows (kv_window_swa kv) (get_padding fa) n_ubatch (kv_sink_rows kv);
  al_ubatch : 0 ≤ n_ubatch;
  al_bound : kv_sink_rows kv + kv_window_swa kv + Z.max n_ubatch 256 < 2 ^ 30;
  al_pad : (get_padding fa | kv_sink_rows kv) ∨ (get_padding fa | kv_window_swa kv + Z.max n_ubatch 256) }.

Lemma allocated_capacity fa n_ubatch kv : swa_allocated fa n_ubatch kv →
  kv_window_swa kv + Z.max n_ubatch 256 ≤ swa_capacity kv fa.
Proof.
  intros [[] Hr Hn Hb Hp]. destruct (compact_rows_suffice (kv_window_swa kv) fa n_ubatch (kv_sink_rows kv) _ swa_sink0 ltac:(lia) Hn Hb Hp Hr) as [H _].
  unfold swa_capacity. rewrite bool_decide_true by (by destruct fa). assert (0 < get_padding fa) by (by destruct fa).
  pose proof (div_mul_le (kv_size_swa kv - kv_sink_rows kv) (get_padding fa) ltac:(done)).
  rewrite (u32_small (kv_size_swa kv - _)) by lia. by rewrite u32_small by lia.
Qed.

Lemma mapM_inv {A B} (f : A → res B) l k : mapM f l = Ok k → Forall2 (λ x y, f x = Ok y) l k.
Proof.
  induction l as [|x l IH] in k |- *; cbn; [by intros [= <-]|]. intros (y & Hy & (k' & Hk & [= <-])%bind_Ok)%bind_Ok. constructor; auto.
Qed.

(** All compacted layers have these rows. *)
Lemma rows_compacted_spec rows plan kv_size r0 r : rows ≠ 0 → Forall (λ x, x = rows ∨ kv_size ≤ x) plan → r0 = 0 ∨ r0 = rows →
  rows_compacted plan kv_size r0 = Ok r → r = if existsb (λ x, bool_decide (x < kv_size)) plan then rows else r0.
Proof.
  intros H0 Hall. induction Hall as [|x plan Hx _ IH] in r0 |- *; intros Hr0 H; cbn in *; [by injection H as <-|].
  bdec (kv_size ≤ x) as Hle.
  - rewrite (bool_decide_false (x < kv_size)) by lia. by apply IH.
  - rewrite (bool_decide_true (x < kv_size)) by lia. destruct Hx as [->|]; [|lia].
    apply bind_Ok in H as (_ & _ & H). rewrite (IH rows) by (done || by right). cbn. by destruct (existsb _ _).
Qed.

Lemma layer_rows_spec hp il kv_size n_ubatch pad r : llama_kv_layer_rows hp il kv_size true n_ubatch pad = Ok r →
  r = llama_swa_compact_rows (hp_n_swa hp) pad n_ubatch (hp_param_sink_number hp) ∨ kv_size ≤ r.
Proof.
  unfold llama_kv_layer_rows. destruct (_ || _); [intros [= <-]; right; lia|].
  destruct (bool_decide _); [intros [= <-]; right; lia|]. intros (b & _ & H)%bind_Ok.
  destruct b; cbn [negb] in H; [|injection H as <-; right; lia]. injection H as <-.
  case_bool_decide; [by left|right; lia].
Qed.

(** An initialised cache with compacted layers starts so. *)
Lemma init_allocated n hybrid mrope qsa strict slots hp sc ssc fa n_ubatch kv :
  llama_kv_cache_init n false hybrid mrope qsa strict slots hp sc ssc fa n_ubatch = Ok kv → any_compacted kv = true →
  0 ≤ n_ubatch → 0 < hp_n_swa hp → 0 ≤ hp_param_sink_number hp →
  hp_param_sink_number hp + hp_n_swa hp + Z.max n_ubatch 256 < 2 ^ 29 →
  (get_padding fa | hp_param_sink_number hp) ∨ (get_padding fa | hp_n_swa hp + Z.max n_ubatch 256) →
  swa_allocated fa n_ubatch kv.
Proof.
  intros Hinit Hac Hn Hw Hs Hb Hp. unfold llama_kv_cache_init in Hinit.
  destruct (sc && ssc); [|injection Hinit as <-; done]. apply bind_Ok in Hinit as (plan & Hplan & Hinit).
  destruct (existsb _ plan) eqn:Ee; [|injection Hinit as <-; done]. apply bind_Ok in Hinit as (r & Hr & [= <-]).
  set (rows := llama_swa_compact_rows (hp_n_swa hp) (get_padding fa) n_ubatch (hp_param_sink_number hp)).
  assert (0 < get_padding fa ≤ 256) as Hpad by (by destruct fa).
  assert (hp_param_sink_number hp ≤ rows < 2 ^ 30 ∧ rows ≠ 0) as [Hrange H0].
  { subst rows. unfold llama_swa_compact_rows. replace (if bool_decide (256 < n_ubatch) then n_ubatch else 256) with (Z.max n_ubatch 256) by (case_bool_decide; lia).
    rewrite bool_decide_true by (by destruct fa). set (t := hp_param_sink_number hp + hp_n_swa hp + Z.max n_ubatch 256).
    rewrite (u32_small t), (u32_small (t + _)), (u32_small (t + _ - 1)) by lia.
    destruct (round_up_spec t (get_padding fa) ltac:(lia) ltac:(lia)) as [Hup _]. rewrite u32_small by lia. lia. }
  assert (r = rows) as ->.
  { assert (Forall (λ x, x = rows ∨ n ≤ x) plan) as Hall.
    { apply Forall_lookup. intros k x Hx. apply mapM_inv in Hplan.
      destruct (Forall2_lookup_r _ _ _ _ _ Hplan Hx) as (il & _ & Hil). by apply layer_rows_spec in Hil. }
    rewrite (rows_compacted_spec rows plan n 0 r H0 Hall (or_introl eq_refl) Hr). by rewrite Ee. }
  split; cbn; [|done|done|lia|done]. split; cbn; try lia; done.
Qed.

(** C15. Layers compacted as [llama_kv_cache_init] allocates them, whose sinks, or
    window and slack, are whole paddings: before every micro-batch of at most
    [n_ubatch] tokens compaction makes room, keeps at least the window, forgets no
    position the window covers, and moves the rows along: the sinks and the data of
    every position that stays live are where [swa_row] says, in plain and in
    transposed tensors.  The tokens then find their rows, and the layers stay in
    this state for the next micro-batch. *)
Theorem compact_swa_keeps_window fa n_ubatch kv n : swa_allocated fa n_ubatch kv → Z.of_nat n ≤ Z.max n_ubatch 256 →
  swa_next kv + Z.of_nat n < 2 ^ 31 →
  ∃ c kv' kv'', llama_kv_cache_compact_swa kv fa (Z.of_nat n) = Ok (c, kv') ∧
    live_swa kv' + Z.of_nat n ≤ swa_capacity kv' fa ∧ swa_next kv' = swa_next kv ∧
    kv_pos_base_swa kv ≤ kv_pos_base_swa kv' ∧
    (kv_pos_base_swa kv' ≠ kv_pos_base_swa kv → kv_pos_base_swa kv' = swa_next kv' - kv_window_swa kv) ∧
    (∀ A (tensor : list A) (data : Z → A), length tensor = Z.to_nat (kv_size_swa kv) → window_holds kv data tensor →
      ∃ tensor', compact_tensor c tensor = Ok tensor' ∧ window_holds kv' data tensor' ∧
        length tensor' = length tensor ∧
        ∀ i, Z.of_nat i < kv_sink_rows kv → tensor' !! i = tensor !! i) ∧
    (∀ A (tensor : list (list A)), Forall (λ r, length r = Z.to_nat (kv_size_swa kv)) tensor →
      ∃ tensor', compact_transposed c tensor = Ok tensor' ∧
        Forall2 (λ r r', compact_tensor c r = Ok r') tensor tensor') ∧
    decode_advance kv' n = Ok kv'' ∧ swa_allocated fa n_ubatch kv'' ∧ swa_next kv'' = swa_next kv + Z.of_nat n.
Proof.
  intros Hal Hn Hnext. pose proof (allocated_capacity _ _ _ Hal) as Hcap.
  destruct (compact_swa_spec kv fa (Z.of_nat n) (al_wf _ _ _ Hal)) as (c & kv' & Hc & Hwf' & (h & p & Ekv) & Hroom & Hnx & H1 & H2 & H3 & H4); [lia..|].
  exists c, kv'. pose proof (swa_capacity_spec kv' fa Hwf') as [Hcs _]. pose proof (live_swa_val kv' Hwf') as Hl. pose proof Hwf' as [].
  unfold decode_advance. rewrite swa_any0. unfold swa_next in *.
  rewrite (u32_small (kv_head_swa kv' + Z.of_nat n)) by lia. rewrite bool_decide_true by lia. cbn [ggml_assert mbind res_bind mret res_ret].
  eexists. do 8 (split; [done|]).
  match goal with |- _ ∧ kv_pos_base_swa ?k + _ = _ => set (kv'' := k) end.
  assert (swa_wf kv'') as Hwf'' by (split; cbn; try done; lia).
  assert (live_swa kv'' = live_swa kv' + Z.of_nat n) as Hl'' by (rewrite (live_swa_val _ Hwf''); cbn; lia).
  split; [|rewrite Hl''; change (kv_pos_base_swa kv'') with (kv_pos_base_swa kv'); lia].
  destruct Hal. split; try done; subst kv''; subst kv'; cbn in *; done.
Qed.

(** After compaction, the view of the compacted rows lies inside the allocation and
    contains the row of every live position that some token of the batch may attend
    to; the view of an uncompacted layer contains the cells in the window. *)
Theorem window_views_cover kv fa n : swa_wf kv → 0 < n → live_swa kv + n ≤ swa_capacity kv fa →
  let pad := get_padding fa in
  let W := kv_window_swa kv in
  let v := llama_swa_calc_window_view_compact (live_swa kv + n) (kv_sink_rows kv) n W pad in
  kv_sink_rows kv ≤ wv_win_off v ∧ wv_win_off v + wv_w_view v ≤ kv_size_swa kv ∧
  (∀ p, kv_pos_base_swa kv ≤ p → swa_next kv - W ≤ p < swa_next kv + n →
    wv_win_off v ≤ swa_row kv p < wv_win_off v + wv_w_view v) ∧
  (∀ head, 0 ≤ head →
    let n_kv := pad_up (head + n) pad in
    let u := llama_swa_calc_window_view n_kv n W pad in
    0 ≤ wv_win_off u ∧ wv_win_off u + wv_w_view u = n_kv ∧
    ∀ p, 0 ≤ p → head - W ≤ p < head + n → wv_win_off u ≤ p < wv_win_off u + wv_w_view u).
Proof.
  intros Hwf Hn Hfit. cbn zeta. pose proof (swa_capacity_spec kv fa Hwf) as [Hc [j Hj]].
  pose proof (live_swa_val kv Hwf) as Hl. pose proof Hwf as [].
  unfold llama_swa_calc_window_view_compact, llama_swa_calc_window_view.
  assert (0 < get_padding fa) as Hpad by (by destruct fa).
  destruct (pad_up_spec (live_swa kv + n) fa ltac:(lia)) as [Hlp [i Hi]].
  destruct (pad_up_spec (kv_window_swa kv + get_padding fa + n) fa ltac:(lia)) as [Hov _].
  assert (pad_up (live_swa kv + n) (get_padding fa) ≤ swa_capacity kv fa) as Hle.
  { rewrite Hi, Hj in *. assert (i < j + 1) by nia. nia. }
  unfold swa_next, swa_row. set (lp := pad_up (live_swa kv + n) _) in *.
  set (ov := pad_up (kv_window_swa kv + _ + n) _) in *. cbn [wv_win_off wv_w_view]. split_and!.
  - case_bool_decide; lia.
  - case_bool_decide; lia.
  - intros p Hp Hw. case_bool_decide; lia.
  - intros head Hh. destruct (pad_up_spec (head + n) fa ltac:(lia)) as [Hnk _].
    set (n_kv := pad_up (head + n) _) in *.
    rewrite (bool_decide_false (kv_window_swa kv ≤ 0)), (bool_decide_false (n_kv ≤ 0)) by lia. cbn [orb wv_win_off wv_w_view].
    split_and!; [case_bool_decide; lia..|]. intros p Hp Hw. case_bool_decide; lia.
Qed.

(** ** Removing *)

(** A removal that is carried out shortens the window at its end; the positions that
    stay are still where they were. *)
Theorem seq_rm_truncates_window kv seq p0 p1 effect kv' effect' :
  swa_wf kv → kv_recurrent kv = false → - 2 ^ 31 ≤ p0 < 2 ^ 31 → - 2 ^ 31 ≤ p1 < 2 ^ 31 →
  llama_kv_cache_seq_rm kv seq p0 p1 effect = Ok (true, kv', effect') →
  swa_wf kv' ∧
  swa_next kv' = (if decide (seq ≤ 0 ∧ range_lo p0 < range_hi p1 ∧ range_lo p0 < swa_next kv ∧
                             kv_pos_base_swa kv < range_hi p1) then range_lo p0 else swa_next kv) ∧
  ∀ A (data : Z → A) tensor, window_holds kv data tensor → window_holds kv' data tensor.
Proof.
  intros Hwf Hrec H0 H1. pose proof (live_swa_val kv Hwf) as Hl. pose proof Hwf as [].
  assert (0 ≤ range_lo p0 < 2 ^ 31) as Hlo by (unfold range_lo; case_bool_decide; lia).
  assert (0 ≤ range_hi p1 < 2 ^ 31) as Hhi by (unfold range_hi, POS_MAX; case_bool_decide; lia).
  unfold llama_kv_cache_seq_rm. rewrite Hrec. cbn [mbind res_bind].
  destruct (rm_loop _ _ _ _ _ _ _ _) as [cells a].
  unfold rm_compact_decision. rewrite swa_any0. cbn [andb].
  assert (Hkeep : ∀ hd u, let kv1 := with_state kv hd u cells in
    swa_wf kv1 ∧ swa_next kv1 = swa_next kv ∧ ∀ A (data : Z → A) t, window_holds kv data t → window_holds kv1 data t)
    by (intros; split_and!; [by split|done|done]).
  assert (Hcut : ∀ hd u base h', let kv1 := with_swa (with_state kv hd u cells) h' base in
    0 ≤ base ≤ kv_pos_base_swa kv → kv_sink_rows kv ≤ h' ≤ kv_head_swa kv →
    (base = kv_pos_base_swa kv ∨ h' = kv_sink_rows kv) → (base = 0 ∨ kv_window_swa kv ≤ h' - kv_sink_rows kv) →
    swa_wf kv1 ∧ swa_next kv1 = base + (h' - kv_sink_rows kv) ∧
    ∀ A (data : Z → A) t, window_holds kv data t → window_holds kv1 data t).
  { intros hd u base h' kv1 Hb Hh Hor Hfull. assert (swa_wf kv1) as Hwf1 by (split; cbn; try done; lia).
    assert (swa_next kv1 = base + (h' - kv_sink_rows kv)) as Hn by (unfold swa_next; by rewrite live_swa_val).
    split_and!; [done..|]. intros A data t Ht p Hp. rewrite Hn in Hp. cbn in Hp.
    destruct Hor as [->| ->]; [|lia]. apply Ht. unfold swa_next. lia. }
  rewrite Hl. set (e := kv_pos_base_swa kv + (kv_head_swa kv - kv_sink_rows kv)) in *.
  assert (Hnext : swa_next kv = e) by (unfold swa_next; by rewrite Hl). rewrite Hnext.
  destruct (bool_decide (seq ≤ 0) && bool_decide (range_lo p0 < range_hi p1)) eqn:Eg; cbn [mbind res_bind].
  2: { intros [= <- <-]. rewrite decide_False; [rewrite <- Hnext; apply Hkeep|].
       intros (? & ? & _). by rewrite !bool_decide_true in Eg. }
  apply andb_true_iff in Eg as [Hs%bool_decide_eq_true Hlt%bool_decide_eq_true].
  rewrite i32_small by (subst e; lia). destruct (ggml_assert _); cbn [mbind res_bind]; [|done].
  bdec (range_lo p0 < e) as He; bdec (kv_pos_base_swa kv < range_hi p1) as Hb; cbn [andb mbind res_bind].
  2-4: intros [= <- <-]; rewrite decide_False by tauto; rewrite <- Hnext; apply Hkeep.
  rewrite decide_True by done.
  bdec (range_hi p1 < e) as Hend; cbn [mbind res_bind]; [done|].
  bdec (range_lo p0 = 0) as Hz; cbn [mbind res_bind].
  { intros [= <- <-]. edestruct (Hcut) as (? & Hn & ?); [| | | |split_and!; [done|rewrite Hn; lia|done]]; lia. }
  destruct (_ || bool_decide (kv_pos_base_swa kv + _ ≤ _)) eqn:Eo; cbn [mbind res_bind]; [|done].
  intros [= <- <-]. assert (kv_pos_base_swa kv = 0 ∨ kv_pos_base_swa kv + kv_window_swa kv ≤ range_lo p0) as Ho
    by (apply orb_true_iff in Eo as [?%bool_decide_eq_true|?%bool_decide_eq_true]; auto).
  rewrite (u32_small (range_lo p0 - _)) by lia. rewrite u32_small by lia.
  edestruct (Hcut) as (? & Hn & ?); [| | | |split_and!; [done|rewrite Hn; lia|done]]; lia.
Qed.

(** ** Saved states *)

(** The cells a saved state covers. *)
Definition selected (seq_id : Z) (c : llama_kv_cell) : bool :=
  if bool_decide (seq_id < 0) then negb (is_empty c) else has_seq_id c seq_id.

Definition selected_pos (seq_id : Z) (cells : list llama_kv_cell) : list Z :=
  c_pos <$> filter (λ c, selected seq_id c = true) cells.

Lemma compact_seen_spec cells count seq_id seen cnt :
  length seen = Z.to_nat count → 0 ≤ count < 2 ^ 32 → 0 ≤ cnt →
  (∀ p, 0 ≤ p < count → seen !! Z.to_nat p = Some true ∨ seen !! Z.to_nat p = Some false) →
  compact_seen cells count seq_id seen cnt =
    if decide (NoDup (selected_pos seq_id cells) ∧
               Forall (λ p, 0 ≤ p < count ∧ seen !! Z.to_nat p = Some false) (selected_pos seq_id cells))
    then Some (foldl (λ k _, u32 (k + 1)) cnt (selected_pos seq_id cells)) else None.
Proof.
  intros Hlen Hc. revert seen cnt Hlen. induction cells as [|c cells IH]; intros seen cnt Hlen Hcnt Hseen; [done|].
  cbn [compact_seen]. fold (selected seq_id c). unfold selected_pos in *.
  destruct (selected seq_id c) eqn:Es; cbn [negb];
    [rewrite filter_cons_True by done|rewrite filter_cons_False by (by rewrite Es); by apply IH].
  cbn [fmap list_fmap foldl].
  destruct (decide (0 ≤ c_pos c < count ∧ seen !! Z.to_nat (c_pos c) = Some false)) as [[Hp Hf]|Hbad].
  - rewrite (bool_decide_false (c_pos c < 0)), (bool_decide_false (count ≤ c_pos c)) by lia.
    rewrite bool_decide_false by congruence. cbn [orb]. rewrite IH.
    + set (ps := c_pos <$> filter _ cells). apply decide_ext. rewrite NoDup_cons, Forall_cons. split.
      * intros (Hnd & Hall). rewrite Forall_forall in Hall. split; [split; [|done]|split; [done|]].
        -- intros Hin. destruct (Hall _ Hin) as [_ E]. rewrite list_lookup_insert_eq in E by lia. done.
        -- apply Forall_forall. intros p Hin. destruct (Hall p Hin) as [? E]. split; [done|].
           apply list_lookup_insert_Some in E as [(_ & ? & _)|[_ E]]; done.
      * intros ((Hni & Hnd) & _ & Hall). split; [done|]. rewrite Forall_forall in Hall |- *.
        intros p Hin. destruct (Hall p Hin) as [? E]. split; [done|].
        rewrite list_lookup_insert_ne; [done|]. intros Heq. assert (p = c_pos c) as -> by lia. done.
    + by rewrite length_insert.
    + pose proof (u32_range (cnt + 1)). lia.
    + intros p Hr. destruct (decide (p = c_pos c)) as [->|].
      * left. apply list_lookup_insert_eq. lia.
      * rewrite list_lookup_insert_ne by lia. by apply Hseen.
  - rewrite decide_False by (rewrite Forall_cons; tauto).
    destruct (decide (0 ≤ c_pos c < count)) as [Hr|Hr].
    + destruct (Hseen _ Hr) as [E|E]; [|tauto]. rewrite (bool_decide_true (_ = Some true)) by done. by rewrite !orb_true_r.
    + bdec (c_pos c < 0) as H1; [done|]. rewrite (bool_decide_true (count ≤ c_pos c)) by lia. done.
Qed.

(** The check of the positions accepts exactly the states in which the selected
    cells have the positions from 0 to [cell_count - 1], each once. *)
Theorem contiguous_positions_exact kv cell_count seq_id :
  0 ≤ cell_count < 2 ^ 32 → (length (kv_cells kv) < Z.to_nat (2 ^ 32))%nat →
  llama_kv_cache_compact_contiguous_positions_valid kv cell_count seq_id = true ↔
  selected_pos seq_id (kv_cells kv) ≡ₚ seqZ 0 cell_count.
Proof.
  intros Hc Hlen. unfold llama_kv_cache_compact_contiguous_positions_valid.
  rewrite compact_seen_spec; [|by rewrite length_replicate|done|done|].
  2: { intros p Hp. right. apply lookup_replicate. split; [done|lia]. }
  set (ps := selected_pos seq_id (kv_cells kv)).
  assert (Hcount : ∀ (l : list Z) k, 0 ≤ k → k + Z.of_nat (length l) < 2 ^ 32 →
    foldl (λ k _, u32 (k + 1)) k l = k + Z.of_nat (length l)).
  { induction l as [|x l IH]; intros k Hk Hl; cbn in *; [lia|]. rewrite u32_small by lia. rewrite IH; lia. }
  assert (Hps : (length ps ≤ length (kv_cells kv))%nat)
    by (subst ps; unfold selected_pos; rewrite length_fmap; apply length_filter).
  rewrite Hcount by lia. destruct (decide _) as [[Hnd Hall]|Hno].
  - rewrite bool_decide_eq_true. split.
    + intros Hl. apply submseteq_length_Permutation; [|rewrite length_seqZ; lia].
      apply NoDup_submseteq; [done|]. intros p Hp. apply elem_of_seqZ.
      destruct (proj1 (Forall_forall _ _) Hall p Hp). lia.
    + intros E. rewrite E, length_seqZ. lia.
  - split; [done|]. intros E. destruct Hno. split; [rewrite E; apply NoDup_seqZ|].
    rewrite E. apply Forall_forall. intros p Hp%elem_of_seqZ. split; [lia|]. apply lookup_replicate. split; [done|lia].
Qed.

(** ** Examples *)

(** Two sink rows, a window of 32 rows out of 66, 64 of them live. *)
Definition window_kv : llama_kv_cache :=
  KvCache false false false false false false false 0 0 256 0 32 [66] 66 2 32 66 8 [].

Lemma window_kv_wf : swa_wf window_kv.
Proof. split; cbn; reflexivity || lia. Qed.

Lemma compact_rows_suffice_witness :
  128 + Z.max 512 256 ≤ (640 - 0) / get_padding false * get_padding false ≤ 640 - 0.
Proof.
  apply (compact_rows_suffice 128 false 512 0 640); try lia; [|reflexivity]. left. by exists 0.
Defined.

(** Two sink rows, a window of 32 and a slack of 256; 284 positions are live. *)
Definition allocated_kv : llama_kv_cache :=
  KvCache false false false false false false false 0 0 512 0 32 [320] 320 2 32 286 8 [].

Lemma allocated_kv_ok : swa_allocated false 16 allocated_kv.
Proof. split; cbn; [split; cbn; reflexivity || lia|reflexivity|lia|lia|right; by exists 9]. Qed.

Lemma compact_swa_keeps_window_witness : ∃ c kv' kv'',
  llama_kv_cache_compact_swa allocated_kv false (Z.of_nat 8) = Ok (c, kv') ∧ live_swa kv' + 8 ≤ swa_capacity kv' false ∧
  decode_advance kv' 8 = Ok kv'' ∧ swa_allocated false 16 kv''.
Proof.
  destruct (compact_swa_keeps_window false 16 allocated_kv 8 allocated_kv_ok) as (c & kv' & kv'' & Hc & Hroom & _ & _ & _ & _ & _ & Hadv & Hal & _);
    [lia|vm_compute; reflexivity|].
  exists c, kv', kv''. split; [exact Hc|]. split; [exact Hroom|]. split; [exact Hadv|exact Hal].
Defined.

(** The window after that compaction. *)
Definition compacted_kv : llama_kv_cache := with_swa window_kv 34 40.

Lemma window_views_cover_witness :
  let v := llama_swa_calc_window_view_compact (live_swa compacted_kv + 8) (kv_sink_rows compacted_kv) 8
             (kv_window_swa compacted_kv) (get_padding false) in
  kv_sink_rows compacted_kv ≤ wv_win_off v ∧ wv_win_off v + wv_w_view v ≤ kv_size_swa compacted_kv.
Proof.
  assert (swa_wf compacted_kv) as Hwf by (split; cbn; reflexivity || lia).
  destruct (window_views_cover compacted_kv false 8 Hwf ltac:(lia) ltac:(vm_compute; discriminate)) as (? & ? & _).
  by split.
Defined.

Lemma seq_rm_truncates_window_witness :
  swa_wf (with_swa window_kv 62 8) ∧
  swa_next (with_swa window_kv 62 8) = (if decide (0 ≤ 0 ∧ range_lo 68 < range_hi (-1) ∧ range_lo 68 < swa_next window_kv ∧
                             kv_pos_base_swa window_kv < range_hi (-1)) then range_lo 68 else swa_next window_kv) ∧
  ∀ A (data : Z → A) tensor, window_holds window_kv data tensor → window_holds (with_swa window_kv 62 8) data tensor.
Proof.
  apply (seq_rm_truncates_window window_kv 0 68 (-1) None (with_swa window_kv 62 8) None window_kv_wf eq_refl); [lia|lia|].
  vm_compute. reflexivity.
Defined.

Lemma contiguous_positions_exact_witness :
  llama_kv_cache_compact_contiguous_positions_valid holes_kv 2 0 = true ↔
  selected_pos 0 (kv_cells holes_kv) ≡ₚ seqZ 0 2.
Proof. apply (contiguous_positions_exact holes_kv 2 0); [lia|cbn; lia]. Defined.
