(* ===== verification/KvView.v ===== *)
(** * Reading the KV cache

    The view of the cells for callers ([llama_kv_cache_view_update]), the tokens
    before a batch ([llama_kv_cache_get_prev_tokens]) and the number of cells the
    graph looks at. *)
From S2P Require Import Prelude KvCache KvLemmas KvSlot.

(** ** The view *)

Record llama_kv_cache_view := View {
  v_n_cells : Z; v_n_seq_max : Z; v_token_count : Z; v_used_cells : Z;
  v_max_contiguous : Z; v_max_contiguous_idx : Z;
  v_cells : option (list Z); v_cells_sequences : option (list Z) }.

Definition llama_kv_cache_view_init (kv : llama_kv_cache) (n_seq_max : Z) : llama_kv_cache_view :=
  View 0 n_seq_max 0 (llama_get_kv_cache_used_cells kv) 0 (-1) None None.

(** Both arrays are released. *)
Definition llama_kv_cache_view_free (v : llama_kv_cache_view) : llama_kv_cache_view :=
  View (v_n_cells v) (v_n_seq_max v) (v_token_count v) (v_used_cells v)
    (v_max_contiguous v) (v_max_contiguous_idx v) None None.

(** The sequence ids of a cell as the view stores them: in increasing order, cut or
    filled with -1 to [n_seq_max] entries. *)
Definition view_sequences (n_seq_max : nat) (c : llama_kv_cell) : list Z :=
  let ids := take n_seq_max (merge_sort Z.le (elements (c_seq_id c))) in
  ids ++ replicate (n_seq_max - length ids) (-1).

(** The counters of the loop. *)
Record view_acc := ViewAcc {
  va_used : Z; va_tokens : Z; va_idx : Z; va_max : Z; va_max_idx : Z }.

Definition view_cell (n_seq_max : nat) (i : nat) (c : llama_kv_cell) (a : view_acc) : view_acc :=
  let curr_size := Z.of_nat (size (c_seq_id c)) in
  let tokens := i32 (va_tokens a + curr_size) in
  let used := if bool_decide (0 < Z.min curr_size (Z.of_nat n_seq_max)) then va_used a + 1 else va_used a in
  if bool_decide (0 < curr_size) then
    if bool_decide (0 ≤ va_idx a) && bool_decide (va_max a < u32 (Z.of_nat i - va_idx a))
    then ViewAcc used tokens (-1) (Z.of_nat i - va_idx a) (va_idx a)
    else ViewAcc used tokens (-1) (va_max a) (va_max_idx a)
  else ViewAcc used tokens (if bool_decide (va_idx a < 0) then Z.of_nat i else va_idx a) (va_max a) (va_max_idx a).

Fixpoint view_loop (n_seq_max : nat) (i : nat) (cells : list llama_kv_cell) (a : view_acc) : view_acc :=
  match cells with
  | [] => a
  | c :: cells' => view_loop n_seq_max (S i) cells' (view_cell n_seq_max i c a)
  end.

Definition llama_kv_cache_view_update (kv : llama_kv_cache) (v : llama_kv_cache_view) : llama_kv_cache_view :=
  let grow := bool_decide (u32 (v_n_cells v) < kv_size kv) || bool_decide (v_cells v = None) in
  let n_cells := if grow then i32 (kv_size kv) else v_n_cells v in
  let n_seq_max := Z.to_nat (v_n_seq_max v) in
  let size := length (kv_cells kv) in
  let old := default [] (v_cells v) in
  let old_seqs := default [] (v_cells_sequences v) in
  let a := view_loop n_seq_max 0 (kv_cells kv) (ViewAcc 0 0 (-1) 0 (-1)) in
  let tail := bool_decide (0 ≤ va_idx a) && bool_decide (va_max a < Z.of_nat size - va_idx a) in
  View n_cells (v_n_seq_max v) (va_tokens a) (va_used a)
    (if tail then Z.of_nat size - va_idx a else va_max a)
    (if tail then va_idx a else va_max_idx a)
    (Some (((λ c, i32 (c_pos c + c_delta c)) <$> kv_cells kv) ++ drop size old))
    (Some ((kv_cells kv ≫= view_sequences n_seq_max) ++ drop (size * n_seq_max) old_seqs)).

(** ** The tokens before a batch *)

Definition hist_key (seq_id pos : Z) : Z := Z.lor (Z.shiftl (u32 seq_id) 32) (u32 pos).

(** The smallest and largest position and the sequences of the batch. *)
Fixpoint prev_scan (b : llama_batch) (n i : nat) (p_min p_max : Z) (seqs : gset Z) : res (Z * Z * gset Z) :=
  match n with
  | O => Ok (p_min, p_max, seqs)
  | S n' =>
    ids ← at_ (b_seq_id b) i;
    _ ← ggml_assert (bool_decide (length ids = 1%nat));
    pos ← at_ (b_pos b) i;
    seq_id ← at_ ids 0;
    prev_scan b n' (S i) (Z.min p_min pos) (Z.max p_max pos) (seqs ∪ {[seq_id]})
  end.

Definition batch_seq (b : llama_batch) (i : nat) : res Z := ids ← at_ (b_seq_id b) i; at_ ids 0.

(** The fast path for one entry of the result; [None]: not contiguous. *)
Definition prev_direct (kv : llama_kv_cache) (b : llama_batch) (n i j : nat) : res (option Z) :=
  seq_id ← batch_seq b i;
  bpos ← at_ (b_pos b) i;
  let d := Z.of_nat n - Z.of_nat j in
  let pos := bpos - d in
  if bool_decide (pos < 0) then Ok (Some LLAMA_TOKEN_NULL)
  else
    let cell_idx := kv_head kv + Z.of_nat i - d in
    let cell_idx := if bool_decide (cell_idx < 0) then cell_idx + kv_size kv else cell_idx in
    if bool_decide (cell_idx < 0) || bool_decide (kv_size kv ≤ cell_idx) then Ok None
    else
      cell ← at_ (kv_cells kv) (Z.to_nat cell_idx);
      if negb (bool_decide (c_pos cell = pos)) || negb (has_seq_id cell seq_id) then Ok None
      else Ok (Some (c_token cell)).

(** The fast path: all entries, or [None] as soon as one fails. *)
Fixpoint prev_fast (kv : llama_kv_cache) (b : llama_batch) (n : nat) (entries : list (nat * nat)) : res (option (list Z)) :=
  match entries with
  | [] => Ok (Some [])
  | (i, j) :: entries' =>
    t ← prev_direct kv b n i j;
    match t with
    | None => Ok None
    | Some t => r ← prev_fast kv b n entries'; mret (option_map (cons t) r)
    end
  end.

(** The history: the tokens from position [w0] on by key, and for each sequence the
    last cell below [w0]. *)
Definition hist_seq (c : llama_kv_cell) (w0 : Z) (seqs : gset Z) (h : gmap Z Z * gmap Z (Z * Z)) (seq_id : Z)
    : gmap Z Z * gmap Z (Z * Z) :=
  if negb (bool_decide (seq_id ∈ seqs)) then h
  else if bool_decide (w0 ≤ c_pos c) then (<[hist_key seq_id (c_pos c) := c_token c]> h.1, h.2)
  else
    match h.2 !! seq_id with
    | Some (p, _) => if bool_decide (p < c_pos c) then (h.1, <[seq_id := (c_pos c, c_token c)]> h.2) else h
    | None => (h.1, <[seq_id := (c_pos c, c_token c)]> h.2)
    end.

Definition hist_cell (w0 p_max : Z) (seqs : gset Z) (h : gmap Z Z * gmap Z (Z * Z)) (c : llama_kv_cell)
    : gmap Z Z * gmap Z (Z * Z) :=
  if is_empty c || bool_decide (p_max < c_pos c) then h
  else fold_left (hist_seq c w0 seqs) (merge_sort Z.le (elements (c_seq_id c))) h.

(** The lookup; without tokens it goes down to the nearest earlier position. *)
Fixpoint lookup_down (fuel : nat) (h : gmap Z Z) (seq_id cur : Z) : option Z :=
  match fuel with
  | O => None
  | S fuel' =>
    match h !! hist_key seq_id cur with
    | Some t => Some t
    | None => lookup_down fuel' h seq_id (cur - 1)
    end
  end.

Definition hist_lookup (tokens : bool) (w0 : Z) (h : gmap Z Z * gmap Z (Z * Z)) (seq_id pos : Z) : Z :=
  if tokens then default LLAMA_TOKEN_NULL (h.1 !! hist_key seq_id pos)
  else
    match lookup_down (Z.to_nat (pos - w0 + 1)) h.1 seq_id pos with
    | Some t => t
    | None => match h.2 !! seq_id with Some (_, t) => t | None => LLAMA_TOKEN_NULL end
    end.

(** The tokens of the batch that belong to a sequence, in order. *)
Definition seq_indices (b : llama_batch) (seq_id : Z) : list nat :=
  filter (λ i, (b_seq_id b !! i) ≫= head = Some seq_id) (seq 0 (n_tokens b)).

(** The general path for one entry. *)
Definition prev_general (b : llama_batch) (n : nat) (w0 : Z) (h : gmap Z Z * gmap Z (Z * Z)) (ij : nat * nat) : res Z :=
  let '(i, j) := ij in
  seq_id ← batch_seq b i;
  let d := Z.of_nat n - Z.of_nat j in
  pos ← (match b_token b with
         | Some _ => p ← at_ (b_pos b) i; mret (p - d)
         | None =>
           let idx := seq_indices b seq_id in
           let ord := length (filter (λ k, k < i)%nat idx) in
           let k := Z.of_nat ord - d in
           if bool_decide (0 ≤ k) then q ← at_ idx (Z.to_nat k); at_ (b_pos b) q
           else q ← at_ idx 0; p ← at_ (b_pos b) q; mret (p + k)
         end);
  mret (if bool_decide (0 ≤ pos) then hist_lookup (bool_decide (b_token b ≠ None)) w0 h seq_id pos else LLAMA_TOKEN_NULL).

Definition prev_entries (b : llama_batch) (n : nat) : list (nat * nat) :=
  seq 0 (n_tokens b) ≫= λ i, pair i <$> seq 0 n.

Definition llama_kv_cache_get_prev_tokens (kv : llama_kv_cache) (b : llama_batch) (n : nat) : res (list Z) :=
  if bool_decide (n = 0)%nat || bool_decide (n_tokens b = 0)%nat then Ok []
  else
    '(p_min, p_max, seqs) ← prev_scan b (n_tokens b) 0 POS_MAX POS_MIN ∅;
    fast ← (match b_token b with Some _ => prev_fast kv b n (prev_entries b n) | None => Ok None end);
    match fast with
    | Some result => Ok result
    | None =>
      let w0 := p_min - Z.of_nat n in
      mapM (prev_general b n w0 (fold_left (hist_cell w0 p_max seqs) (kv_cells kv) (∅, ∅))) (prev_entries b n)
    end.

(** ** The history by position *)

Definition i32_range (z : Z) : Prop := - 2 ^ 31 ≤ z < 2 ^ 31.

Lemma u32_inj a b : i32_range a → i32_range b → u32 a = u32 b → a = b.
Proof. unfold i32_range, u32. intros. zify_div. Qed.

Lemma hist_key_inj s p s' p' : i32_range s → i32_range p → i32_range s' → i32_range p' →
  hist_key s p = hist_key s' p' → s = s' ∧ p = p'.
Proof.
  intros Hs Hp Hs' Hp'. unfold hist_key. rewrite !Z.shiftl_mul_pow2 by lia.
  rewrite !(lor_disjoint_add _ _ 32) by (first [lia|apply u32_range|apply Z.mod_mul; lia]).
  intros E. pose proof (u32_range p). pose proof (u32_range p').
  assert (u32 s = u32 s') by lia. assert (u32 p = u32 p') by lia. split; by apply u32_inj.
Qed.

Lemma elem_of_sorted (X : gset Z) s : s ∈ merge_sort Z.le (elements X) ↔ s ∈ X.
Proof. by rewrite (merge_sort_Permutation Z.le (elements X)), elem_of_elements. Qed.

Section history.
Context (w0 p_max : Z) (seqs : gset Z).

(** The pairs of a cell and one of its sequences, in the order of the loops. *)
Definition cell_pairs (c : llama_kv_cell) : list (llama_kv_cell * Z) :=
  if is_empty c || bool_decide (p_max < c_pos c) then []
  else pair c <$> merge_sort Z.le (elements (c_seq_id c)).

Lemma elem_of_cell_pairs c c' s :
  (c', s) ∈ cell_pairs c ↔ c' = c ∧ s ∈ c_seq_id c ∧ c_pos c ≤ p_max.
Proof using Type.
  unfold cell_pairs. destruct (is_empty c) eqn:Ee; cbn [orb].
  { apply is_empty_true in Ee. assert (c_seq_id c = ∅) as -> by (by apply dec_stable). set_solver. }
  bdec (p_max < c_pos c) as Hp; [split; [by intros ?%not_elem_of_nil|intros (_ & _ & ?); lia]|].
  rewrite list_elem_of_fmap. setoid_rewrite elem_of_sorted. split.
  - intros (s' & [= -> ->] & ?). split_and!; [done..|lia].
  - intros (-> & ? & _). eauto.
Qed.

Definition pair_step (h : gmap Z Z * gmap Z (Z * Z)) (cs : llama_kv_cell * Z) := hist_seq cs.1 w0 seqs h cs.2.

Lemma hist_pairs cells h :
  fold_left (hist_cell w0 p_max seqs) cells h = fold_left pair_step (cells ≫= cell_pairs) h.
Proof using Type.
  revert h. induction cells as [|c cells IH]; intros h; [done|]. cbn. rewrite fold_left_app, IH. f_equal.
  unfold hist_cell, cell_pairs. destruct (_ || _); [done|].
  generalize (merge_sort Z.le (elements (c_seq_id c))). intros ids. revert h.
  induction ids as [|s ids IHi]; intros h; cbn; [done|by rewrite <- IHi].
Qed.

Definition records (cs : llama_kv_cell * Z) (k : Z) : Prop :=
  cs.2 ∈ seqs ∧ w0 ≤ c_pos cs.1 ∧ k = hist_key cs.2 (c_pos cs.1).

Lemma pair_step_spec h cs k :
  (records cs k ∧ (pair_step h cs).1 !! k = Some (c_token cs.1)) ∨
  (¬ records cs k ∧ (pair_step h cs).1 !! k = h.1 !! k).
Proof using Type.
  unfold pair_step, hist_seq, records. destruct cs as [c s]. cbn.
  bdec (s ∈ seqs) as Hs; cbn [negb]; [|right; by split; [tauto|]].
  bdec (w0 ≤ c_pos c) as Hw; cbn.
  - destruct (decide (k = hist_key s (c_pos c))) as [->|Hk].
    + left. by rewrite lookup_insert_eq.
    + right. rewrite lookup_insert_ne by done. by split; [tauto|].
  - right. split; [tauto|]. by repeat case_match.
Qed.

Lemma fold_pairs_spec ps h k :
  (∀ t, (fold_left pair_step ps h).1 !! k = Some t →
     h.1 !! k = Some t ∨ ∃ cs, cs ∈ ps ∧ records cs k ∧ t = c_token cs.1) ∧
  ((is_Some (h.1 !! k) ∨ ∃ cs, cs ∈ ps ∧ records cs k) → is_Some ((fold_left pair_step ps h).1 !! k)).
Proof using Type.
  revert h. induction ps as [|cs ps IH]; intros h; cbn.
  { split; [auto|]. intros [?|(cs & ?%not_elem_of_nil & _)]; done. }
  destruct (IH (pair_step h cs)) as [H1 H2]. destruct (pair_step_spec h cs k) as [[Hr E]|[Hr E]]; rewrite E in H1, H2.
  - split; [|intros _; apply H2; by left; eexists].
    intros t Ht. destruct (H1 t Ht) as [[= <-]|(cs' & ? & ? & ?)]; right; [exists cs|exists cs']; by split_and!; [constructor|..].
  - split.
    + intros t Ht. destruct (H1 t Ht) as [?|(cs' & ? & ? & ?)]; [by left|right; exists cs'; by split_and!; [constructor|..]].
    + intros [?|(cs' & [->|?]%elem_of_cons & ?)]; apply H2; [by left|done|right; eauto].
Qed.

(** The cell [c] gives the token at position [p] of sequence [s]. *)
Definition gives (c : llama_kv_cell) (s p : Z) : Prop := c_pos c = p ∧ s ∈ c_seq_id c.

Definition cells_i32 (cells : list llama_kv_cell) : Prop :=
  ∀ c, c ∈ cells → i32_range (c_pos c) ∧ ∀ s, s ∈ c_seq_id c → i32_range s.

Lemma history_spec cells s p : cells_i32 cells → s ∈ seqs → i32_range s → i32_range p → w0 ≤ p ≤ p_max →
  let h := (fold_left (hist_cell w0 p_max seqs) cells (∅, ∅)).1 in
  (∀ t, h !! hist_key s p = Some t → ∃ c, c ∈ cells ∧ gives c s p ∧ t = c_token c) ∧
  ((∃ c, c ∈ cells ∧ gives c s p) → is_Some (h !! hist_key s p)).
Proof using Type.
  intros Hi Hs Hsi Hpi Hw h. subst h. rewrite hist_pairs.
  destruct (fold_pairs_spec (cells ≫= cell_pairs) (∅, ∅) (hist_key s p)) as [H1 H2]. split.
  - intros t Ht. destruct (H1 t Ht) as [E|(cs & Hcs & (Hin & Hwc & Hk) & ->)]; [done|].
    apply list_elem_of_bind in Hcs as (c & Hcs & Hc). destruct cs as [c' s'].
    apply elem_of_cell_pairs in Hcs as (-> & Hs' & _). destruct (Hi c Hc) as [Hpc Hsc].
    cbn in Hk. apply hist_key_inj in Hk as [E1 E2]; [|done..|by apply Hsc|done].
    exists c. split; [done|]. split; [split; congruence|done].
  - intros (c & Hc & <- & Hsc). apply H2. right. exists (c, s). split.
    + apply list_elem_of_bind. exists c. split; [|done]. apply elem_of_cell_pairs. split_and!; [done..|lia].
    + split_and!; [done| |done]. cbn. lia.
Qed.
End history.

(** ** The tokens before a batch of tokens *)

(** [t] is the token at position [p] of sequence [s], or the null token if the cache
    has none. *)
Definition prev_is (kv : llama_kv_cache) (s p t : Z) : Prop :=
  (∃ c, c ∈ kv_cells kv ∧ 0 ≤ p ∧ gives c s p ∧ t = c_token c) ∨
  (t = LLAMA_TOKEN_NULL ∧ (p < 0 ∨ ∀ c, c ∈ kv_cells kv → ¬ gives c s p)).

(** Batches of tokens that belong to one sequence each. *)
Record prev_batch (b : llama_batch) : Prop := {
  pb_tokens : b_token b ≠ None;
  pb_len : (n_tokens b ≤ length (b_pos b))%nat;
  pb_one : ∀ i ids, b_seq_id b !! i = Some ids → ∃ s, ids = [s] ∧ i32_range s;
  pb_pos : ∀ i p, (i < n_tokens b)%nat → b_pos b !! i = Some p → 0 ≤ p < 2 ^ 31 }.

Lemma batch_seq_at b i : prev_batch b → (i < n_tokens b)%nat →
  ∃ s, b_seq_id b !! i = Some [s] ∧ batch_seq b i = Ok s ∧ i32_range s.
Proof.
  intros Hb Hi. destruct (lookup_lt_is_Some_2 (b_seq_id b) i Hi) as [ids Hids].
  destruct (pb_one _ Hb _ _ Hids) as (s & -> & ?). exists s. unfold batch_seq, at_. by rewrite Hids.
Qed.

Lemma prev_scan_spec b n i pmin pmax seqs : prev_batch b → (i + n = n_tokens b)%nat →
  ∃ pmin' pmax' seqs', prev_scan b n i pmin pmax seqs = Ok (pmin', pmax', seqs') ∧
    pmin' ≤ pmin ∧ pmax ≤ pmax' ∧ seqs ⊆ seqs' ∧
    ∀ k p s, (i ≤ k < n_tokens b)%nat → b_pos b !! k = Some p → b_seq_id b !! k = Some [s] → pmin' ≤ p ≤ pmax' ∧ s ∈ seqs'.
Proof.
  intros Hb. induction n as [|n IH] in i, pmin, pmax, seqs |- *; intros Hin; cbn [prev_scan].
  { do 3 eexists. split_and!; try done. intros; lia. }
  destruct (batch_seq_at b i Hb) as (s & Hs & _ & _); [lia|]. rewrite (proj2 (at_Ok (b_seq_id b) i [s]) Hs).
  cbn [mbind res_bind]. rewrite bool_decide_true by done. cbn [ggml_assert mbind res_bind].
  destruct (at_lt (b_pos b) i) as (p & -> & Hp); [pose proof (pb_len _ Hb); lia|]. cbn [mbind res_bind].
  destruct (IH (S i) (Z.min pmin p) (Z.max pmax p) (seqs ∪ {[s]})) as (pmin' & pmax' & seqs' & E & ? & ? & Hsub & Hall); [lia|].
  do 3 eexists. split; [exact E|]. split_and!; [lia|lia|set_solver|].
  intros k p' s' Hk Hp' Hs'. destruct (decide (k = i)) as [->|]; [|apply (Hall k); [lia|done..]].
  simplify_eq. split; [lia|set_solver].
Qed.

(** The result of one entry of the fast path. *)
Lemma prev_direct_spec kv b n i j : prev_batch b → (i < n_tokens b)%nat → Z.of_nat (length (kv_cells kv)) = kv_size kv →
  ∃ r s p, prev_direct kv b n i j = Ok r ∧ b_seq_id b !! i = Some [s] ∧ b_pos b !! i = Some p ∧
    match r with Some t => prev_is kv s (p - (Z.of_nat n - Z.of_nat j)) t | None => True end.
Proof.
  intros Hb Hi Hsz. destruct (batch_seq_at b i Hb Hi) as (s & Hs & Hs' & _). unfold prev_direct. rewrite Hs'. cbn [mbind res_bind].
  destruct (at_lt (b_pos b) i) as (p & -> & Hp); [pose proof (pb_len _ Hb); lia|]. cbn [mbind res_bind].
  set (q := p - (Z.of_nat n - Z.of_nat j)).
  bdec (q < 0) as Hq; [exists (Some LLAMA_TOKEN_NULL), s, p; split_and!; try done; right; auto|].
  set (idx := if bool_decide _ then _ else _). 
  destruct (bool_decide (idx < 0) || bool_decide (kv_size kv ≤ idx)) eqn:Eb; [by exists None, s, p|].
  apply orb_false_iff in Eb as [?%bool_decide_eq_false ?%bool_decide_eq_false].
  destruct (at_lt (kv_cells kv) (Z.to_nat idx)) as (c & -> & Hc); [lia|]. cbn [mbind res_bind].
  bdec (c_pos c = q) as Hcp; cbn [negb orb]; [|by exists None, s, p].
  destruct (has_seq_id c s) eqn:Em; cbn [negb]; [|by exists None, s, p].
  exists (Some (c_token c)), s, p. split_and!; try done. left. exists c.
  apply bool_decide_eq_true in Em. split_and!; [by eapply list_elem_of_lookup_2|lia|done|done].
Qed.

Lemma prev_fast_spec kv b n entries : prev_batch b → Z.of_nat (length (kv_cells kv)) = kv_size kv →
  Forall (λ ij, (ij.1 < n_tokens b)%nat) entries →
  ∃ r, prev_fast kv b n entries = Ok r ∧
    match r with
    | Some l => Forall2 (λ ij t, ∃ s p, b_seq_id b !! ij.1 = Some [s] ∧ b_pos b !! ij.1 = Some p ∧
                  prev_is kv s (p - (Z.of_nat n - Z.of_nat ij.2)) t) entries l
    | None => True
    end.
Proof.
  intros Hb Hsz. induction 1 as [|[i j] entries Hi _ (r & IH & Hr)]; [by exists (Some [])|]. cbn [prev_fast].
  destruct (prev_direct_spec kv b n i j Hb Hi Hsz) as (t & s & p & -> & Hs & Hp & Ht). cbn [mbind res_bind].
  destruct t as [t|]; [|by exists None]. rewrite IH. cbn. exists (option_map (cons t) r). split; [done|].
  destruct r as [l|]; cbn; [|done]. constructor; [by exists s, p|done].
Qed.

(** C24. For a batch of tokens (not of embeddings), each in one sequence: the tokens
    returned are those of the cells at the positions before, by the fast path and by
    the general one. *)
Theorem get_prev_tokens_correct kv b n :
  prev_batch b → Z.of_nat (length (kv_cells kv)) = kv_size kv → cells_i32 (kv_cells kv) → Z.of_nat n < 2 ^ 30 →
  ∃ result, llama_kv_cache_get_prev_tokens kv b n = Ok result ∧
    Forall2 (λ ij t, ∃ s p, b_seq_id b !! ij.1 = Some [s] ∧ b_pos b !! ij.1 = Some p ∧
       prev_is kv s (p - (Z.of_nat n - Z.of_nat ij.2)) t) (prev_entries b n) result.
Proof.
  intros Hb Hsz Hi32 Hn. unfold llama_kv_cache_get_prev_tokens.
  destruct (bool_decide (n = 0)%nat || bool_decide (n_tokens b = 0)%nat) eqn:E0.
  { exists []. split; [done|]. unfold prev_entries.
    apply orb_true_iff in E0 as [->%bool_decide_eq_true| ->%bool_decide_eq_true]; [|constructor].
    replace (_ ≫= _) with (@nil (nat * nat)); [constructor|]. by induction (seq 0 (n_tokens b)). }
  assert (Hent : Forall (λ ij, (ij.1 < n_tokens b)%nat ∧ (ij.2 < n)%nat) (prev_entries b n)).
  { apply Forall_forall. intros ij (i & (j & -> & Hj)%list_elem_of_fmap & Hi)%list_elem_of_bind.
    apply elem_of_seq in Hi, Hj. cbn. lia. }
  destruct (prev_scan_spec b (n_tokens b) 0 POS_MAX POS_MIN ∅ Hb) as (pmin & pmax & seqs & -> & _ & _ & _ & Hall); [done|].
  cbn [mbind res_bind]. destruct (b_token b) as [toks|] eqn:Et; [|by destruct (pb_tokens _ Hb)].
  destruct (prev_fast_spec kv b n (prev_entries b n) Hb Hsz) as (fast & -> & Hfast).
  { eapply Forall_impl; [done|]. by intros ij [? _]. }
  cbn [mbind res_bind]. destruct fast as [l|]; [by exists l|]. clear Hfast.
  set (w0 := pmin - Z.of_nat n). set (h := fold_left _ _ _).
  assert (Hgen : Forall (λ ij, ∃ t, prev_general b n w0 h ij = Ok t ∧
    ∃ s p, b_seq_id b !! ij.1 = Some [s] ∧ b_pos b !! ij.1 = Some p ∧
       prev_is kv s (p - (Z.of_nat n - Z.of_nat ij.2)) t) (prev_entries b n)).
  { eapply Forall_impl; [done|]. intros [i j] [Hi Hj]; cbn in Hi, Hj.
    destruct (batch_seq_at b i Hb Hi) as (s & Hs & Hs' & Hsi). unfold prev_general. rewrite Hs', Et. cbn [mbind res_bind].
    destruct (at_lt (b_pos b) i) as (p & -> & Hp); [pose proof (pb_len _ Hb); lia|]. cbn [mbind res_bind mret res_ret].
    destruct (Hall i p s) as [Hr Hin]; [lia|done..|]. pose proof (pb_pos _ Hb _ _ Hi Hp).
    set (q := p - (Z.of_nat n - Z.of_nat j)). eexists. split; [done|]. exists s, p. split_and!; [done..|]. cbn [fst snd]. fold q.
    bdec (0 ≤ q) as Hq; [|right; split; [done|left; lia]].
    rewrite bool_decide_true by done. unfold hist_lookup.
    destruct (history_spec w0 pmax seqs (kv_cells kv) s q Hi32 Hin Hsi) as [H1 H2];
      [unfold i32_range; lia|subst w0 q; lia|]. fold h in H1, H2.
    destruct (h.1 !! hist_key s q) as [t|]; cbn.
    - destruct (H1 t eq_refl) as (c & Hc & Hg & ->). left. exists c. by split_and!.
    - right. split; [done|]. right. intros c Hc Hg. destruct H2; [eauto|done]. }
  destruct (mapM_Ok (prev_general b n w0 h) (prev_entries b n)) as (k & -> & Hk).
  { eapply Forall_impl; [done|]. intros ij (t & ? & _). eauto. }
  exists k. split; [done|]. apply Forall2_same_length_lookup_2; [by eapply Forall2_length|].
  intros i ij t Hij Ht. pose proof (Forall2_lookup_lr _ _ _ _ _ _ Hk Hij Ht) as Ht'. cbn in Ht'.
  destruct (Forall_lookup_1 _ _ _ _ Hgen Hij) as (t' & Ht'' & Hres). assert (t' = t) as <- by congruence. exact Hres.
Qed.

(** ** The longest run of free cells *)

(** The cells from [s] to [s + k] are free. *)
Definition free_cells (cells : list llama_kv_cell) (s k : nat) : Prop :=
  (s + k ≤ length cells)%nat ∧ ∀ i c, (s ≤ i < s + k)%nat → cells !! i = Some c → ¬ in_use c.

Lemma free_cells_run kv n s : Forall cell_ok (kv_cells kv) → free_cells (kv_cells kv) s n ↔ free_run (kv_cells kv) n s.
Proof.
  intros Hok. unfold free_cells, free_run. split; intros [Hle Hf]; (split; [done|]); intros i c Hi Hc.
  - pose proof (Forall_lookup_1 _ _ _ _ Hok Hc) as Hc'. specialize (Hf i c Hi Hc). unfold cell_ok in Hc'.
    destruct (decide (0 ≤ c_pos c)); [tauto|lia].
  - intros Hu. pose proof (proj2 (Forall_lookup_1 _ _ _ _ Hok Hc) Hu). specialize (Hf i c Hi Hc). lia.
Qed.

Lemma size_in_use c : 0 < Z.of_nat (size (c_seq_id c)) ↔ in_use c.
Proof.
  pose proof (size_empty_iff (c_seq_id c)) as H. rewrite leibniz_equiv_iff in H. unfold in_use. rewrite <- H. lia.
Qed.

Section view.
Context (cells : list llama_kv_cell) (n_seq_max : nat).
Context (Hlen : Z.of_nat (length cells) < 2 ^ 31) (Hseq : (0 < n_seq_max)%nat).

(** Where the cells outside an open run end. *)
Definition closed_end (i : nat) (a : view_acc) : nat := if decide (va_idx a = -1) then i else Z.to_nat (va_idx a).

(** After [i] cells: the open run of free cells starts at [va_idx], no closed run
    is longer than [va_max], which is the length of the run at [va_max_idx]. *)
Record view_inv (i : nat) (a : view_acc) : Prop := {
  vi_used : va_used a = Z.of_nat (length (live_cells (take i cells)));
  vi_idx : va_idx a = -1 ∧ (∀ j c, S j = i → cells !! j = Some c → in_use c) ∨
           ∃ s, va_idx a = Z.of_nat s ∧ (s < i)%nat ∧ free_cells cells s (i - s) ∧
             ∀ j c, S j = s → cells !! j = Some c → in_use c;
  vi_max : 0 ≤ va_max a ≤ Z.of_nat i;
  vi_run : 0 < va_max a → 0 ≤ va_max_idx a ∧ free_cells cells (Z.to_nat (va_max_idx a)) (Z.to_nat (va_max a));
  vi_all : ∀ s k, free_cells cells s k → (s + k ≤ closed_end i a)%nat →
             Z.of_nat k ≤ va_max a }.

Lemma view_cell_inv i c a : cells !! i = Some c → view_inv i a → view_inv (S i) (view_cell n_seq_max i c a).
Proof using Hlen Hseq.
  unfold closed_end. intros Hc []. unfold closed_end in *. pose proof (lookup_lt_Some _ _ _ Hc) as Hi.
  assert (Htake : live_cells (take (S i) cells) = live_cells (take i cells) ++ if decide (in_use c) then [c] else []).
  { rewrite (take_S_r _ _ _ Hc). unfold live_cells. rewrite filter_app. done. }
  assert (Hused : (if bool_decide (0 < Z.min (Z.of_nat (size (c_seq_id c))) (Z.of_nat n_seq_max)) then va_used a + 1 else va_used a)
    = Z.of_nat (length (live_cells (take (S i) cells)))).
  { rewrite Htake, length_app, vi_used0. pose proof (size_in_use c). destruct (decide (in_use c)).
    - rewrite bool_decide_true by (apply Z.min_glb_lt; [tauto|lia]). cbn. lia.
    - assert (¬ 0 < Z.of_nat (size (c_seq_id c))) by tauto. rewrite bool_decide_false by lia. cbn. lia. }
  unfold view_cell. rewrite Hused. clear Hused Htake.
  destruct (decide (in_use c)) as [Hu|Hu]; pose proof (size_in_use c) as Hsz.
  - rewrite (bool_decide_true (0 < Z.of_nat (size _))) by tauto.
    destruct vi_idx0 as [[Hidx Hlast]|(s & Hidx & Hs & Hfree & Hbefore)].
    + rewrite Hidx in *. cbn [bool_decide decide andb]. rewrite (bool_decide_false (0 ≤ -1)) by lia. cbn [andb].
      split; unfold closed_end; cbn; [done| |lia|done|].
      * left. split; [done|]. intros j c' [= ->] Hc'. by simplify_eq.
      * rewrite decide_True in vi_all0 |- * by done. intros s k Hf Hle. destruct (decide (s + k ≤ i)%nat); [by apply (vi_all0 s k)|].
        destruct k as [|k]; [lia|]. destruct Hf as [_ Hf]. destruct (Hf i c); [lia|done..].
    + rewrite Hidx. rewrite (bool_decide_true (0 ≤ Z.of_nat s)) by lia. cbn [andb].
      rewrite u32_small by lia.
      assert (Hall : ∀ s' k m, free_cells cells s' k → (s' + k ≤ S i)%nat → va_max a ≤ m → Z.of_nat i - Z.of_nat s ≤ m → Z.of_nat k ≤ m).
      { intros s' k m Hf Hle H1 H2. destruct (decide (k = 0)%nat); [lia|].
        destruct (decide (s' + k ≤ i)%nat).
        2: { destruct Hf as [_ Hf]. destruct (Hf i c); [lia|done..]. }
        destruct (decide (s' + k ≤ s)%nat).
        { rewrite decide_False in vi_all0 by lia. etransitivity; [apply (vi_all0 s' k); [done|lia]|done]. }
        destruct (decide (s ≤ s')%nat); [lia|]. destruct (lookup_lt_is_Some_2 cells (s - 1)) as [c' Hc']; [lia|].
        destruct Hf as [_ Hf]. destruct (Hf (s - 1)%nat c'); [lia|done|]. apply (Hbefore (s - 1)%nat); [lia|done]. }
      bdec (va_max a < Z.of_nat i - Z.of_nat s) as Hm; split; unfold closed_end; cbn; try done; try lia.
      * left. split; [done|]. intros j c' [= ->] Hc'. by simplify_eq.
      * intros _. split; [lia|]. replace (Z.to_nat (Z.of_nat s)) with s by lia.
        by replace (Z.to_nat (Z.of_nat i - Z.of_nat s)) with (i - s)%nat by lia.
      * rewrite decide_True by done. intros s' k Hf Hle. apply (Hall s' k); [done|done|lia..].
      * left. split; [done|]. intros j c' [= ->] Hc'. by simplify_eq.
      * rewrite decide_True by done. intros s' k Hf Hle. apply (Hall s' k); [done|done|lia..].
  - rewrite (bool_decide_false (0 < Z.of_nat (size _))) by tauto.
    destruct vi_idx0 as [[Hidx Hlast]|(s & Hidx & Hs & Hfree & Hbefore)].
    + rewrite Hidx in *. rewrite (bool_decide_true (-1 < 0)) by lia. split; unfold closed_end; cbn; [done| |lia|done|].
      * right. exists i. split_and!; [done|lia| |]; [|done].
        split; [lia|]. intros j c' Hj Hc'. assert (j = i) as -> by lia. by simplify_eq.
      * rewrite decide_False by lia. rewrite decide_True in vi_all0 by done.
        intros s k Hf Hle. apply (vi_all0 s k); [done|lia].
    + rewrite Hidx. rewrite (bool_decide_false (Z.of_nat s < 0)) by lia. split; unfold closed_end; cbn; [done| |lia|done|].
      * right. exists s. split_and!; [done|lia| |done].
        split; [lia|]. intros j c' Hj Hc'. destruct (decide (j = i)) as [->|]; [by simplify_eq|].
        destruct Hfree as [_ Hf]. apply (Hf j); [lia|done].
      * rewrite decide_False by lia. rewrite Hidx, decide_False in vi_all0 by lia. done.
Qed.

Lemma view_loop_inv i a : view_inv i a → (i ≤ length cells)%nat →
  view_inv (length cells) (view_loop n_seq_max i (drop i cells) a).
Proof using Hlen Hseq.
  remember (length cells - i)%nat as n eqn:En. revert i a En. induction n as [|n IH]; intros i a En Ha Hi.
  - rewrite drop_ge by lia. by replace (length cells) with i by lia.
  - destruct (lookup_lt_is_Some_2 cells i) as [c Hc]; [lia|]. rewrite (drop_S _ _ _ Hc). cbn [view_loop].
    apply IH; [lia| |lia]. by apply view_cell_inv.
Qed.

Lemma view_inv_init : view_inv 0 (ViewAcc 0 0 (-1) 0 (-1)).
Proof using Hseq.
  split; unfold closed_end; cbn.
  - done.
  - by left.
  - lia.
  - lia.
  - rewrite decide_True by done. intros s k _ ?. lia.
Qed.
End view.

(** The view reports the cells in use, and the longest run of free cells: a batch
    fits somewhere exactly when it is not longer. *)
Theorem view_max_contiguous_exact kv v : kv_wf kv → 0 < v_n_seq_max v →
  let v' := llama_kv_cache_view_update kv v in
  v_used_cells v' = kv_used kv ∧
  (∀ n, (∃ s, free_run (kv_cells kv) n s) ↔ Z.of_nat n ≤ v_max_contiguous v') ∧
  (0 < v_max_contiguous v' → free_run (kv_cells kv) (Z.to_nat (v_max_contiguous v')) (Z.to_nat (v_max_contiguous_idx v'))).
Proof.
  intros Hwf Hm. pose proof (wf_size _ Hwf). pose proof (wf_bound _ Hwf).
  set (m := Z.to_nat (v_n_seq_max v)).
  pose proof (view_loop_inv (kv_cells kv) m ltac:(lia) ltac:(lia) 0 _ (view_inv_init _ m ltac:(lia)) ltac:(lia)) as Hinv.
  rewrite drop_0 in Hinv. cbn zeta. unfold llama_kv_cache_view_update. fold m.
  set (a := view_loop _ _ _ _) in *. cbn [v_used_cells v_max_contiguous v_max_contiguous_idx].
  set (size := length (kv_cells kv)) in *. destruct Hinv. unfold closed_end in *.
  split; [rewrite vi_used0, take_ge by (subst size; lia); rewrite (wf_used _ Hwf); done|].
  set (tail := _ && _).
  assert (Hmx : 0 ≤ (if tail then Z.of_nat size - va_idx a else va_max a) ∧
    (0 < (if tail then Z.of_nat size - va_idx a else va_max a) →
     free_cells (kv_cells kv) (Z.to_nat (if tail then va_idx a else va_max_idx a))
       (Z.to_nat (if tail then Z.of_nat size - va_idx a else va_max a))) ∧
    ∀ s k, free_cells (kv_cells kv) s k → Z.of_nat k ≤ if tail then Z.of_nat size - va_idx a else va_max a).
  { destruct vi_idx0 as [[Hidx _]|(s & Hidx & Hs & Hfree & Hbefore)].
    - subst tail. rewrite Hidx. cbn [bool_decide decide andb]. rewrite bool_decide_false by lia. cbn.
      split; [lia|]. split; [by apply vi_run0|]. intros s k Hf. apply (vi_all0 s k Hf). rewrite decide_True by done. apply Hf.
    - rewrite decide_False in vi_all0 by lia.
      assert (Hall : ∀ s' k, free_cells (kv_cells kv) s' k → Z.of_nat k ≤ va_max a ∨ Z.of_nat k ≤ Z.of_nat size - Z.of_nat s).
      { intros s' k Hf. destruct (decide (s' + k ≤ s)%nat); [left; apply (vi_all0 s' k Hf); lia|right].
        destruct Hf as [Hle Hf]. destruct (decide (s ≤ s')%nat); [lia|].
        destruct (lookup_lt_is_Some_2 (kv_cells kv) (s - 1)) as [c' Hc']; [lia|].
        destruct (Hf (s - 1)%nat c'); [lia|done|]. apply (Hbefore (s - 1)%nat); [lia|done]. }
      subst tail. rewrite Hidx. rewrite bool_decide_true by lia. cbn [andb].
      bdec (va_max a < Z.of_nat size - Z.of_nat s) as Hlt; split_and!; try lia.
      + intros _. rewrite Nat2Z.id. by replace (Z.to_nat (Z.of_nat size - Z.of_nat s)) with (size - s)%nat by lia.
      + intros s' k Hf. destruct (Hall s' k Hf); lia.
      + apply vi_run0.
      + intros s' k Hf. destruct (Hall s' k Hf); lia. }
  destruct Hmx as (Hpos & Hrun & Hall). setoid_rewrite <- (free_cells_run kv); [|apply Hwf..].
  split; [|done]. intros n. split; [intros [s Hs]; by apply (Hall s)|]. intros Hn.
  destruct (decide (n = 0)%nat) as [->|]; [exists 0%nat; split; [lia|intros; lia]|].
  destruct Hrun as [Hle Hf]; [lia|]. exists (Z.to_nat (if tail then va_idx a else va_max_idx a)).
  split; [lia|intros i c Hi; apply Hf; lia].
Qed.

(** ** The number of cells the graph looks at *)

Lemma GGML_PAD_spec x k : 0 ≤ k ≤ 30 → 0 ≤ x < 2 ^ 30 → GGML_PAD x (2 ^ k) = (x + 2 ^ k - 1) / 2 ^ k * 2 ^ k.
Proof.
  intros Hk Hx. unfold GGML_PAD. assert (0 < 2 ^ k ≤ 2 ^ 30) by (split; [lia|apply Z.pow_le_mono_r; lia]).
  rewrite u32_small by lia. replace (2 ^ k - 1) with (Z.ones k) by (rewrite Z.ones_equiv; lia).
  rewrite <- Z.ldiff_land, Z.ldiff_ones_r by lia.
  by rewrite Z.shiftl_mul_pow2, Z.shiftr_div_pow2 by lia.
Qed.

Lemma cell_max_between_spec n cells j m : Forall cell_ok cells → (n ≤ j ≤ length cells)%nat → (j - n < m ≤ j)%nat →
  (∀ i c, (m ≤ i)%nat → cells !! i = Some c → ¬ in_use c) → (∃ c, cells !! (m - 1)%nat = Some c ∧ in_use c) →
  cell_max_between n cells j = Ok (Some m).
Proof.
  intros Hok. induction n as [|n IH] in j |- *; intros Hj Hm Hout Hin; [lia|]. cbn [cell_max_between].
  destruct (at_lt cells (j - 1)) as (c & -> & Hc); [lia|]. cbn [mbind res_bind].
  destruct (decide (m = j)) as [->|].
  - destruct Hin as (c' & Hc' & Hu). assert (c' = c) as -> by congruence.
    by rewrite (proj2 (cell_live_spec c (Forall_lookup_1 _ _ _ _ Hok Hc)) Hu).
  - destruct (cell_live c) eqn:El; [|apply IH; (done || lia)].
    apply (cell_live_spec c (Forall_lookup_1 _ _ _ _ Hok Hc)) in El. destruct (Hout (j - 1)%nat c); [lia|done..].
Qed.

Lemma cell_max_padded_spec fuel cells i last pad m : Forall cell_ok cells → (0 < pad)%nat →
  (∃ k, i = k * pad)%nat → (i < fuel)%nat → (i ≤ last ≤ length cells)%nat → (m ≤ last ≤ i + pad)%nat →
  (∀ i c, (m ≤ i)%nat → cells !! i = Some c → ¬ in_use c) →
  (∀ m', m = S m' → ∃ c, cells !! m' = Some c ∧ in_use c) →
  (∀ k c, 0 < k * pad ≤ m → cells !! (k * pad - 1) = Some c → in_use c)%nat →
  ∃ r, cell_max_padded fuel cells i last pad = Ok (Z.of_nat r) ∧ (r = m ∨ r = 0 ∧ m ≤ pad)%nat.
Proof.
  intros Hok Hpad. induction fuel as [|fuel IH] in i, last |- *; intros (k & Hk) Hf Hi Hm Hout Hin Hst; [lia|].
  cbn [cell_max_padded]. bdec (i = 0)%nat as H0; [exists 0%nat; split; [done|lia]|].
  destruct (at_lt cells (i - 1)) as (c & -> & Hc); [lia|]. cbn [mbind res_bind].
  pose proof (Forall_lookup_1 _ _ _ _ Hok Hc) as Hokc. cbn in Hokc.
  destruct (cell_live c) eqn:El.
  - apply (cell_live_spec c Hokc) in El. assert (i ≤ m)%nat.
    { destruct (decide (i ≤ m)%nat); [done|]. destruct (Hout (i - 1)%nat c); [lia|done..]. }
    exists m. split; [|by left]. destruct (decide (i = m)) as [->|].
    + assert (cell_max_between (last - m) cells last = Ok None) as ->; [|done].
      assert (∀ n j, (n ≤ j ≤ length cells)%nat → (m ≤ j - n)%nat → cell_max_between n cells j = Ok None) as Hnone.
      { induction n as [|n IHn]; intros j Hj Hmj; [done|]. cbn [cell_max_between].
        destruct (at_lt cells (j - 1)) as (c' & -> & Hc'); [lia|]. cbn [mbind res_bind].
        destruct (cell_live c') eqn:El'; [|apply IHn; lia].
        apply (cell_live_spec c' (Forall_lookup_1 _ _ _ _ Hok Hc')) in El'. destruct (Hout (j - 1)%nat c'); [lia|done..]. }
      apply Hnone; lia.
    + rewrite (cell_max_between_spec _ cells last m); [done|done|lia|lia|done|]. apply Hin. lia.
  - assert (m < i)%nat.
    { destruct (decide (m < i)%nat); [done|]. assert (in_use c) as Hu.
      { apply (Hst k c); [lia|]. by rewrite <- Hk. }
      apply (cell_live_spec c Hokc) in Hu. congruence. }
    destruct k as [|k]; [lia|]. rewrite bool_decide_true by lia.
    apply IH; try done; [exists k; lia|lia..].
Qed.

(** The graph looks at all cells in use, and at no more than a padding needs, as
    long as the cells at the multiples of the padding are in use up to the last one. *)
Theorem decode_set_n_exact kv fa : kv_wf kv → (get_padding fa | kv_size kv) →
  (∀ k c, 0 < k * get_padding fa ≤ llama_kv_cache_cell_max kv →
     kv_cells kv !! Z.to_nat (k * get_padding fa - 1) = Some c → in_use c) →
  ∃ kv', decode_set_n kv fa = Ok kv' ∧
    kv_n kv' = Z.min (kv_size kv) (Z.max (get_padding fa) (pad_up (llama_kv_cache_cell_max kv) (get_padding fa))) ∧
    ∀ i c, kv_cells kv !! i = Some c → in_use c → Z.of_nat i < kv_n kv'.
Proof.
  intros Hwf [q Hq] Hst. pose proof (wf_size _ Hwf). pose proof (wf_bound _ Hwf).
  set (pad := get_padding fa) in *. assert (∃ k, 5 ≤ k ≤ 8 ∧ pad = 2 ^ k) as (k & Hk & Hpk)
    by (destruct fa; [by exists 8|by exists 5]).
  assert (0 < pad ≤ 256) as Hpad by (subst pad; by destruct fa).
  set (m := llama_kv_cache_cell_max kv) in *.
  destruct (cell_max_from_spec (kv_cells kv) (Z.to_nat m) (wf_cells _ Hwf) eq_refl) as (Hm & Hout & Hin).
  assert (0 ≤ m) as Hm0 by (subst m; unfold llama_kv_cache_cell_max; generalize (rev (kv_cells kv)); intros l;
    induction l as [|c l IH]; cbn; [lia|destruct (cell_live c); lia]).
  destruct (cell_max_padded_spec (S (length (kv_cells kv))) (kv_cells kv) (length (kv_cells kv)) (length (kv_cells kv))
    (Z.to_nat pad) (Z.to_nat m)) as (r & Hr & Hrm); try done; try lia; [apply Hwf|exists (Z.to_nat q); nia| |].
  { intros j c Hj Hc. apply (Hst (Z.of_nat j)); [lia|]. by replace (Z.to_nat (Z.of_nat j * pad - 1)) with (j * Z.to_nat pad - 1)%nat by lia. }
  unfold decode_set_n, llama_kv_cache_cell_max_pad. fold pad. rewrite Hr. cbn [mbind res_bind mret res_ret].
  eexists. split; [done|]. cbn [kv_n with_n].
  assert (Hpu : Z.max pad (GGML_PAD (Z.of_nat r) pad) = Z.max pad (pad_up m pad) ∧ m ≤ pad_up m pad).
  { unfold pad_up. rewrite (bool_decide_true (1 < pad)) by (subst pad; by destruct fa).
    rewrite Z.quot_div_nonneg by lia. rewrite Hpk, GGML_PAD_spec by lia. rewrite <- Hpk.
    pose proof (Z.div_mod (m + pad - 1) pad). pose proof (Z.mod_pos_bound (m + pad - 1) pad).
    split; [|lia]. destruct Hrm as [->|[-> Hle]]; [by rewrite Z2Nat.id by lia|].
    replace (Z.of_nat 0 + pad - 1) with (pad - 1) by lia. rewrite Z.div_small by lia.
    assert ((m + pad - 1) / pad ≤ 1) by (apply Z.lt_succ_r, Z.div_lt_upper_bound; lia). nia. }
  destruct Hpu as [Hpu Hle]. split; [by rewrite Hpu|].
  intros i c Hc Hu. pose proof (lookup_lt_Some _ _ _ Hc).
  assert (i < Z.to_nat m)%nat. { destruct (decide (i < Z.to_nat m)%nat); [done|]. destruct (Hout i c); [lia|done..]. }
  lia.
Qed.

(** ** Examples *)

Lemma get_prev_tokens_correct_witness :
  ∃ result, llama_kv_cache_get_prev_tokens holes_kv (Batch (Some [102]) [2] [[0]]) 2 = Ok result ∧
    Forall2 (λ ij t, ∃ s p, [[0]] !! ij.1 = Some [s] ∧ [2] !! ij.1 = Some p ∧
       prev_is holes_kv s (p - (Z.of_nat 2 - Z.of_nat ij.2)) t) (prev_entries (Batch (Some [102]) [2] [[0]]) 2) result.
Proof.
  apply (get_prev_tokens_correct holes_kv (Batch (Some [102]) [2] [[0]]) 2).
  - split; cbn.
    + discriminate.
    + unfold n_tokens. cbn. lia.
    + intros [|i] ids Hi; [|discriminate Hi]. injection Hi as <-. exists 0. split; [reflexivity|]. unfold i32_range. lia.
    + intros [|i] p Hi Hp; [|discriminate Hp]. injection Hp as <-. lia.
  - reflexivity.
  - intros c Hc. assert (Forall (λ c, i32_range (c_pos c) ∧ Forall i32_range (elements (c_seq_id c))) (kv_cells holes_kv)) as Hf.
    { repeat constructor; unfold i32_range; cbn; lia. }
    destruct (proj1 (Forall_forall _ _) Hf c Hc) as [Hp Hs]. split; [exact Hp|].
    intros s Hin. apply (proj1 (Forall_forall _ _) Hs). by apply elem_of_elements.
  - lia.
Defined.

Definition view0 : llama_kv_cache_view := llama_kv_cache_view_init holes_kv 1.

Lemma view_max_contiguous_exact_witness :
  let v' := llama_kv_cache_view_update holes_kv view0 in
  v_used_cells v' = kv_used holes_kv ∧
  (∀ n, (∃ s, free_run (kv_cells holes_kv) n s) ↔ Z.of_nat n ≤ v_max_contiguous v') ∧
  (0 < v_max_contiguous v' → free_run (kv_cells holes_kv) (Z.to_nat (v_max_contiguous v')) (Z.to_nat (v_max_contiguous_idx v'))).
Proof. apply (view_max_contiguous_exact holes_kv view0 holes_kv_wf). reflexivity. Defined.

(** 32 cells, the first in use. *)
Definition first_kv : llama_kv_cache :=
  KvCache false false false false false false false 0 0 32 1 0 [] 0 0 0 0 0 (text_cell 0 100 0 :: replicate 31 default_cell).

Lemma decode_set_n_exact_witness :
  ∃ kv', decode_set_n first_kv false = Ok kv' ∧
    kv_n kv' = Z.min (kv_size first_kv)
      (Z.max (get_padding false) (pad_up (llama_kv_cache_cell_max first_kv) (get_padding false))) ∧
    ∀ i c, kv_cells first_kv !! i = Some c → in_use c → Z.of_nat i < kv_n kv'.
Proof.
  apply (decode_set_n_exact first_kv false).
  - split; try (vm_compute; split; discriminate); try reflexivity.
    + apply (bool_decide_unpack _). vm_compute. exact I.
    + apply (bool_decide_unpack _). vm_compute. exact I.
    + intros _. apply (bool_decide_unpack _). vm_compute. exact I.
  - by exists 1.
  - intros k c Hk. exfalso. change (llama_kv_cache_cell_max first_kv) with 1 in Hk. change (get_padding false) with 32 in Hk. lia.
Defined.
