(* ===== verification/KvFindings.v ===== *)
(** * What the model of the KV cache shows

    Concrete histories in which the code does not do what its comments or its
    callers expect. *)
From S2P Require Import Prelude KvCache KvLemmas KvSlot KvDefrag KvSpec KvWindow.

Definition no_swa : llama_hparams_swa := HparamsSwa 0 0 [] 0 0.

(** A cache of [n] cells for an attention model ([slots] recurrent states). *)
Definition fresh (n slots : Z) (hybrid : bool) : res llama_kv_cache :=
  llama_kv_cache_init n false hybrid false false false slots no_swa false false false 512.

(** A batch of [n] tokens of sequence [s] from position [p] on. *)
Definition text_batch (s p : Z) (n : nat) : llama_batch :=
  Batch (Some (seqZ 100 (Z.of_nat n))) (seqZ p (Z.of_nat n)) (replicate n [s]).

(** Running operations one after the other. *)
Fixpoint run_ops (kv : llama_kv_cache) (ops : list kv_op) : res llama_kv_cache :=
  match ops with
  | [] => Ok kv
  | op :: ops' => '(_, kv) ← kv_exec true false 8 kv op; run_ops kv ops'
  end.

Definition run_fresh (n slots : Z) (hybrid : bool) (ops : list kv_op) : res llama_kv_cache :=
  kv ← fresh n slots hybrid; run_ops kv ops.

(** *** The number of cells the graph looks at

    The padded search looks at every 32nd cell only.  When such a cell was removed
    from the middle of a sequence, the cells after it are not seen: the next token
    does not attend to the last tokens before it. *)
Definition removed_middle : res llama_kv_cache :=
  run_fresh 64 0 false [OpDecode (text_batch 0 0 36) 0; OpRm 0 10 33; OpDecode (text_batch 0 36 1) 0].

(** The cell of position 35 is in use, but only the first 32 cells are looked at. *)
Theorem cell_max_pad_hides_cells :
  (λ kv, (kv_n kv, llama_kv_cache_cell_max kv,
          c_pos <$> kv_cells kv !! 35%nat, bool_decide (in_use (default default_cell (kv_cells kv !! 35%nat)))))
    <$> removed_middle = Ok (32, 36, Some 35, true).
Proof. vm_compute. reflexivity. Qed.

(** *** Copying a sequence of a model with recurrent states

    The number of tokens of a sequence. *)
Definition seq_tokens (s : Z) (kv : llama_kv_cache) : nat := length (filter (λ c, has_seq_id c s = true) (kv_cells kv)).

(** Two tokens of sequence 0 are copied to 1, then all of 1 to 2; and sequence 1 is
    copied after a defragmentation. *)
Definition copied_twice : res llama_kv_cache :=
  run_fresh 32 8 true [OpDecode (text_batch 0 0 5) 0; OpCp 0 1 0 2; OpCp 1 2 (-1) (-1)].
Definition copied_after_defrag : res llama_kv_cache :=
  run_fresh 32 8 true [OpDecode (text_batch 0 0 2) 0; OpDecode (text_batch 1 0 3) 0; OpRm 0 0 (-1); OpDefrag;
                       OpDecode (text_batch 3 3 1) 0; OpCp 1 2 (-1) (-1)].

(** The second copy takes the tokens of sequence 0, all five; the third takes none
    of the three tokens of sequence 1, since the defragmentation moved the source of
    slot 1 with the cell. *)
Theorem seq_cp_wrong_tokens :
  (λ kv, (seq_tokens 1 kv, seq_tokens 2 kv)) <$> copied_twice = Ok (2%nat, 5%nat) ∧
  (λ kv, (seq_tokens 1 kv, seq_tokens 2 kv)) <$> copied_after_defrag = Ok (3%nat, 0%nat).
Proof. split; vm_compute; reflexivity. Qed.

(** *** The smallest position of a sequence

    The position of its first cell is returned, which defragmentation changes. *)
Theorem seq_pos_min_not_smallest :
  (λ kv, (llama_kv_cache_seq_pos_min kv 1, c_pos <$> filter (λ c, has_seq_id c 1 = true) (kv_cells kv)))
    <$> run_fresh 32 0 false [OpDecode (text_batch 0 0 2) 0; OpDecode (text_batch 1 0 3) 0; OpRm 0 0 (-1); OpDefrag;
                              OpDecode (text_batch 3 3 1) 0]
  = Ok (1, [1; 2; 0]).
Proof. vm_compute. reflexivity. Qed.

(** *** Pending shifts of freed cells

    A cell freed by [seq_add] keeps its pending shift, and [find_slot] stores the
    first token of a restored state there without resetting it. *)
Theorem find_slot_keeps_stale_delta :
  (kv ← run_fresh 32 0 false [OpDecode (text_batch 0 0 4) 0; OpAdd 0 0 2 (-3)];
   '(ok, kv) ← llama_kv_cache_find_slot kv (text_batch 1 0 1) 0 false;
   mret (ok, (λ c, (elements (c_seq_id c), c_delta c)) <$> kv_cells kv !! 0%nat)) = Ok (true, Some ([1], -3)).
Proof. vm_compute. reflexivity. Qed.

(** *** Rows of compacted layers

    With one sink row and a window of 130, the rows allocated are too few for a
    window and a micro-batch of 256 tokens in whole paddings: the view after a
    compaction ends behind the last row. *)
Theorem compact_rows_insufficient :
  let rows := llama_swa_compact_rows 130 32 256 1 in
  let v := llama_swa_calc_window_view_compact (130 + 256) 1 256 130 32 in
  rows = 416 ∧ (rows - 1) / 32 * 32 < 130 + 256 ∧ rows < wv_win_off v + wv_w_view v.
Proof. vm_compute. repeat split; discriminate. Qed.
