(* ===== verification/KqMask.v ===== *)
(** * The masks of the attention

    The part of [llama_set_inputs] ([src/llama.cpp]) that fills the masks of the
    attention scores: for every token of a micro-batch and every cell the graph
    looks at, whether the token attends to the cell and with which bias.

    A value is kept as it is before its conversion to [float] or to a half: minus
    infinity, or an integer.  The memory of a mask is a list of values, rows of
    [n_kv] one after the other; what it holds before is arbitrary. *)
From S2P Require Import Prelude KvCache.

(** ** Values *)

Inductive mask_val :=
  | Minf            (** [-INFINITY] *)
  | Mval (z : Z).   (** a finite bias *)

#[global] Instance mask_val_eq_dec : EqDecision mask_val.
Proof. solve_decision. Defined.

(** The value of the build without Vulkan. *)
Definition GGML_KQ_MASK_PAD : Z := 16.

(** What the masks depend on: [cparams.flash_attn], and of the model [use_alibi],
    [n_attn_chunk], the sliding window in force ([n_swa_eff]) and the one of
    [hparams], and [causal_attn]. *)
Record mask_params := MaskParams {
  mp_flash_attn : bool; mp_use_alibi : bool; mp_n_attn_chunk : Z; mp_n_swa : Z; mp_hparams_n_swa : Z;
  mp_causal_model : bool }.

(** [n_swa_eff]: the layers that predict further tokens have a window of their own. *)
Definition n_swa_eff (openpangu mtp : bool) (n_swa n_swa_mtp : Z) : Z :=
  if openpangu && mtp && bool_decide (0 < n_swa_mtp) then n_swa_mtp else n_swa.

(** The two masks, each present or not ([data] or [data_f16], by [flash_attn]). *)
Record masks := Masks { m_data : option (list mask_val); m_swa : option (list mask_val) }.

Definition put_opt (v : option (list mask_val)) (k : nat) (x : mask_val) : res (option (list mask_val)) :=
  match v with
  | None => Ok None
  | Some l => l ← put l k x; mret (Some l)
  end.

(** What the sliding window, or the chunk, leaves of a value; [n_attn_chunk] is
    unsigned, and so is the product. *)
Definition swa_cut (p : mask_params) (f : mask_val) (cell_pos pos : Z) : mask_val :=
  if negb (bool_decide (mp_n_attn_chunk p = 0)) then
    let pos_chunk_start := i32 (u32 (u32 pos / mp_n_attn_chunk p * mp_n_attn_chunk p)) in
    if bool_decide (cell_pos < pos_chunk_start) || bool_decide (pos < pos_chunk_start) then Minf else f
  else if bool_decide (i32 (mp_n_swa p) ≤ pos - cell_pos) then Minf else f.

(** The same parameters with another window. *)
Definition with_window (p : mask_params) (n_swa : Z) : mask_params :=
  MaskParams (mp_flash_attn p) (mp_use_alibi p) (mp_n_attn_chunk p) n_swa (mp_hparams_n_swa p) (mp_causal_model p).

(** Is cell [i] hidden from token [j]: not of its sequence, or in its future? *)
Definition hidden (kv : llama_kv_cache) (b : llama_batch) (j : nat) (seq_id : Z) (c : llama_kv_cell) : res bool :=
  if negb (has_seq_id c seq_id) then Ok true else llama_kv_cell_is_future kv c b j.

(** ** Causal masks *)

(** One round of [noalibi_f16]. *)
Definition noalibi_f16 (p : mask_params) (kv : llama_kv_cache) (b : llama_batch) (n_kv j i : nat) (seq_id : Z)
    (m : masks) : res masks :=
  pos ← at_ (b_pos b) j;
  c ← at_ (kv_cells kv) i;
  hid ← hidden kv b j seq_id c;
  let h := if hid : bool then Minf else Mval 0 in
  data ← put_opt (m_data m) (j * n_kv + i) h;
  let h := if bool_decide (h = Minf) then h else swa_cut p h (c_pos c) pos in
  swa ← put_opt (m_swa m) (j * n_kv + i) h;
  mret (Masks data swa).

(** One round of the general loop; the threads cut only what is not hidden
    ([guarded]), the loop without threads cuts always. *)
Definition general_elt (guarded : bool) (p : mask_params) (kv : llama_kv_cache) (b : llama_batch)
    (n_kv j i : nat) (seq_id : Z) (m : masks) : res masks :=
  pos ← at_ (b_pos b) j;
  c ← at_ (kv_cells kv) i;
  hid ← hidden kv b j seq_id c;
  let f := if hid : bool then Minf
           else Mval (if mp_use_alibi p then - Z.abs (c_pos c - pos) else 0) in
  data ← put_opt (m_data m) (j * n_kv + i) f;
  let f := if guarded && bool_decide (f = Minf) then f else swa_cut p f (c_pos c) pos in
  swa ← put_opt (m_swa m) (j * n_kv + i) f;
  mret (Masks data swa).

Definition causal_elt (guarded : bool) (p : mask_params) (kv : llama_kv_cache) (b : llama_batch)
    (n_kv : nat) (ji : nat * nat) (m : masks) : res masks :=
  seqs ← at_ (b_seq_id b) ji.1;
  seq_id ← at_ seqs 0;
  if negb (mp_use_alibi p) && mp_flash_attn p then noalibi_f16 p kv b n_kv ji.1 ji.2 seq_id m
  else general_elt guarded p kv b n_kv ji.1 ji.2 seq_id m.

(** The loops over tokens and cells, as the list of the pairs of their indices. *)
Definition span (n_tok first last : nat) : list (nat * nat) :=
  j ← seq 0 n_tok; (λ i, (j, i)) <$> seq first (last - first).

Fixpoint fill_pairs (elt : nat * nat → masks → res masks) (w : list (nat * nat)) (m : masks) : res masks :=
  match w with
  | [] => Ok m
  | ji :: w' => m ← elt ji m; fill_pairs elt w' m
  end.

(** *** Threads

    [compute (ith)] does the cells [ith * npt] to [(ith + 1) * npt]. *)
Definition n_thread (hardware_concurrency : Z) : Z := Z.max 1 (Z.quot hardware_concurrency 2).
Definition npt (n_kv n_thread : Z) : Z := Z.quot (n_kv + n_thread - 1) n_thread.

Definition thread_work (n_tok : nat) (n_kv n_thread : Z) (ith : nat) : list (nat * nat) :=
  let first := Z.of_nat ith * npt n_kv n_thread in
  let last := Z.min n_kv (first + npt n_kv n_thread) in
  if bool_decide (last ≤ first) then [] else span n_tok (Z.to_nat first) (Z.to_nat last).

Definition works (n_tok : nat) (n_kv n_thread : Z) : list (list (nat * nat)) :=
  thread_work n_tok n_kv n_thread <$> seq 0 (Z.to_nat n_thread).

(** A schedule of the threads: their rounds in any order that keeps the order of
    each thread. *)
Inductive interleaved {A} : list (list A) → list A → Prop :=
  | interleaved_done ls : Forall (λ l, l = []) ls → interleaved ls []
  | interleaved_step ls k x l w : ls !! k = Some (x :: l) → interleaved (<[k := l]> ls) w → interleaved ls (x :: w).

(** *** The rows of padding *)

Definition pad_rows (n_kv n_tok n_padded : nat) (v : option (list mask_val)) : res (option (list mask_val)) :=
  match v with
  | None => Ok None
  | Some l =>
    if bool_decide (n_tok * n_kv + (n_padded - n_tok) * n_kv ≤ length l)%nat then
      Ok (Some (take (n_tok * n_kv) l ++ replicate ((n_padded - n_tok) * n_kv) Minf ++
                drop (n_tok * n_kv + (n_padded - n_tok) * n_kv) l))
    else Err Oob
  end.

Definition pad_masks (n_kv n_tok : nat) (m : masks) : res masks :=
  let n_padded := Z.to_nat (GGML_PAD (Z.of_nat n_tok) GGML_KQ_MASK_PAD) in
  if bool_decide (n_tok < n_padded)%nat then
    data ← pad_rows n_kv n_tok n_padded (m_data m);
    swa ← pad_rows n_kv n_tok n_padded (m_swa m);
    mret (Masks data swa)
  else Ok m.

(** The causal branch; [w] is the schedule of the threads, when they are used. *)
Definition set_causal_masks (p : mask_params) (kv : llama_kv_cache) (b : llama_batch) (w : list (nat * nat))
    (m : masks) : res masks :=
  let n_kv := Z.to_nat (kv_n kv) in
  m ← (if bool_decide (1024 ≤ kv_n kv) && bool_decide (32 ≤ n_tokens b)%nat
       then fill_pairs (causal_elt true p kv b n_kv) w m
       else fill_pairs (causal_elt false p kv b n_kv) (span (n_tokens b) 0 n_kv) m);
  pad_masks n_kv (n_tokens b) m.

(** ** Masks without causality *)

(** A causal model with flash attention: by the cells. *)
Definition noncausal_cell (p : mask_params) (kv : llama_kv_cache) (b : llama_batch) (n_kv : nat) (ji : nat * nat)
    (m : masks) : res masks :=
  seqs ← at_ (b_seq_id b) ji.1;
  seq_id ← at_ seqs 0;
  pos ← at_ (b_pos b) ji.1;
  c ← at_ (kv_cells kv) ji.2;
  let h := if has_seq_id c seq_id then Mval 0 else Minf in
  data ← put_opt (m_data m) (ji.1 * n_kv + ji.2) h;
  let h := if bool_decide (h = Minf) then h else swa_cut p h (c_pos c) pos in
  swa ← put_opt (m_swa m) (ji.1 * n_kv + ji.2) h;
  mret (Masks data swa).

(** Otherwise by the tokens of the batch; the window, here always the one of
    [hparams], compares token [i] with cell [i]. *)
Definition noncausal_token (p : mask_params) (kv : llama_kv_cache) (b : llama_batch) (n_stride : nat)
    (ji : nat * nat) (m : masks) : res masks :=
  seqs ← at_ (b_seq_id b) ji.1;
  seq_id ← at_ seqs 0;
  seqs_i ← at_ (b_seq_id b) ji.2;
  pos_i ← at_ (b_pos b) ji.2;
  pos_j ← at_ (b_pos b) ji.1;
  let f := if bool_decide (seq_id ∈ seqs_i)
           then Mval (if mp_use_alibi p then - Z.abs (pos_i - pos_j) else 0) else Minf in
  data ← put_opt (m_data m) (ji.1 * (if mp_flash_attn p then n_tokens b else n_stride) + ji.2) f;
  match m_swa m with
  | None => mret (Masks data None)
  | Some swa =>
    c ← at_ (kv_cells kv) ji.2;
    swa ← put swa (ji.1 * n_tokens b + ji.2) (swa_cut (with_window p (mp_hparams_n_swa p)) f (c_pos c) pos_i);
    mret (Masks data (Some swa))
  end.

(** The columns from [n_tokens] to the stride of one row. *)
Fixpoint fill_inf (n : nat) (l : list mask_val) (k : nat) : res (list mask_val) :=
  match n with
  | O => Ok l
  | S n' => l ← put l k Minf; fill_inf n' l (S k)
  end.

(** The rows in turn: the tokens of a row, then its padding. *)
Fixpoint noncausal_rows (p : mask_params) (kv : llama_kv_cache) (b : llama_batch) (n_stride n j : nat)
    (m : masks) : res masks :=
  match n with
  | O => Ok m
  | S n' =>
    m ← fill_pairs (noncausal_token p kv b n_stride) ((λ i, (j, i)) <$> seq 0 (n_tokens b)) m;
    data ← match m_data m with
           | None => Ok None
           | Some l => l ← fill_inf (n_stride - n_tokens b) l (j * n_stride + n_tokens b); mret (Some l)
           end;
    noncausal_rows p kv b n_stride n' (S j) (Masks data (m_swa m))
  end.

Definition set_noncausal_masks (p : mask_params) (is_encoding : bool) (kv : llama_kv_cache) (b : llama_batch)
    (m : masks) : res masks :=
  let n_kv := Z.to_nat (kv_n kv) in
  if mp_flash_attn p && mp_causal_model p && negb is_encoding then
    m ← fill_pairs (noncausal_cell p kv b n_kv) (span (n_tokens b) 0 n_kv) m;
    pad_masks n_kv (n_tokens b) m
  else
    let n_stride := if mp_causal_model p && negb is_encoding then n_kv else n_tokens b in
    noncausal_rows p kv b n_stride (n_tokens b) 0 m.

(** The masks of a micro-batch: [causal_attn] is [cparams.causal_attn]; the model
    must allow it. *)
Definition set_masks (p : mask_params) (causal_attn is_encoding : bool) (kv : llama_kv_cache) (b : llama_batch)
    (w : list (nat * nat)) (m : masks) : res masks :=
  _ ← ggml_assert (mp_causal_model p || negb causal_attn);
  if causal_attn && negb is_encoding then set_causal_masks p kv b w m
  else set_noncausal_masks p is_encoding kv b m.

(** ** The window of a view

    Layers that read only a window of the cells have a mask of [W_view] columns
    ([data_swa_win]).  [win_off] is the first cell, or the first row of a compacted
    layer, whose rows stand for consecutive positions. *)
Record window_params := WindowParams {
  wp_compacted : bool; wp_window : Z; wp_w_view : Z; wp_win_off : Z }.

Definition window_elt (p : mask_params) (wp : window_params) (kv : llama_kv_cache) (b : llama_batch)
    (jc : nat * nat) (l : list mask_val) : res (list mask_val) :=
  pos ← at_ (b_pos b) jc.1;
  seqs ← at_ (b_seq_id b) jc.1;
  seq_id ← at_ seqs 0;
  let i := wp_win_off wp + Z.of_nat jc.2 in
  '(cell_pos, hid) ←
    (if wp_compacted wp then
       let cell_pos := i32 (kv_pos_base_swa kv + i32 (i - kv_sink_rows kv)) in
       Ok (cell_pos, bool_decide (cell_pos < kv_pos_base_swa kv) || bool_decide (pos < cell_pos))
     else
       c ← at_ (kv_cells kv) (Z.to_nat i);
       hid ← hidden kv b jc.1 seq_id c;
       mret (c_pos c, hid));
  let f := if hid : bool then Minf
           else Mval (if mp_use_alibi p then - Z.abs (cell_pos - pos) else 0) in
  let f := if bool_decide (f = Minf) then f
           else swa_cut (with_window p (wp_window wp)) f cell_pos pos in
  put l (jc.1 * Z.to_nat (wp_w_view wp) + jc.2) f.

Fixpoint window_loop (p : mask_params) (wp : window_params) (kv : llama_kv_cache) (b : llama_batch)
    (w : list (nat * nat)) (l : list mask_val) : res (list mask_val) :=
  match w with
  | [] => Ok l
  | jc :: w' => l ← window_elt p wp kv b jc l; window_loop p wp kv b w' l
  end.

(** The view the mask was built for must be the one of this batch. *)
Definition set_window_mask (p : mask_params) (wp : window_params) (kv : llama_kv_cache) (b : llama_batch)
    (l : list mask_val) : res (option (list mask_val)) :=
  let pad := get_padding (mp_flash_attn p) in
  let n_tok := Z.of_nat (n_tokens b) in
  let view := if wp_compacted wp
    then llama_swa_calc_window_view_compact (live_swa kv + n_tok) (kv_sink_rows kv) n_tok (wp_window wp) pad
    else llama_swa_calc_window_view (kv_n kv) n_tok (wp_window wp) pad in
  _ ← ggml_assert (wv_engaged view);
  _ ← ggml_assert (bool_decide (wp_w_view wp = wv_w_view view) && bool_decide (wp_win_off wp = wv_win_off view));
  l ← window_loop p wp kv b (span (n_tokens b) 0 (Z.to_nat (wp_w_view wp))) l;
  let n_padded := Z.to_nat (GGML_PAD n_tok GGML_KQ_MASK_PAD) in
  if bool_decide (n_tokens b < n_padded)%nat
  then pad_rows (Z.to_nat (wp_w_view wp)) (n_tokens b) n_padded (Some l)
  else Ok (Some l).

(** ** The tensors of the masks

    [build_inp_KQ_mask]: the type ([f16] or not), the width and the number of rows
    of the tensor that is filled, and whether the graph converts it afterwards. *)
Record mask_tensor := MaskTensor { mt_f16 : bool; mt_width : Z; mt_rows : Z; mt_cast : bool }.

Definition build_inp_KQ_mask (causal flash_attn : bool) (n_kv n_tok : Z) : mask_tensor :=
  let padded := GGML_PAD n_tok GGML_KQ_MASK_PAD in
  if causal && flash_attn then MaskTensor true n_kv padded false
  else MaskTensor false (if causal then n_kv else n_tok) padded flash_attn.
