(* ===== verification/KqMaskSpec.v ===== *)
(** * What the masks of the attention say

    Every schedule of the threads fills the masks with the same values: a token
    attends to the cells of its sequence that are not in its future (and in its
    window).  With the contract of the cache, a token attends to the entries of its
    sequence up to itself: those from before and those of its own batch. *)
From S2P Require Import Prelude KvCache KvLemmas KvSpec KvWindow KvView KqMask.

(** ** What a token may see *)

Definition tok_pos (b : llama_batch) (j : nat) : Z := default 0 (b_pos b !! j).
Definition tok_seq (b : llama_batch) (j : nat) : Z := default 0 (b_seq_id b !! j ≫= head).

(** Is the entry in the future of the token?  Cells of an image have the same
    position and are ordered by row and column. *)
Definition e_future (mrope : bool) (b : llama_batch) (j : nat) (e : entry) : bool :=
  if decide (e_pos e = tok_pos b j) then
    mrope && (let h := default 0 (b_pos b !! (n_tokens b + j)%nat) in
              let w := default 0 (b_pos b !! (2 * n_tokens b + j)%nat) in
              bool_decide (h < e_h e) || (bool_decide (e_h e = h) && bool_decide (w < e_w e)))
  else bool_decide (tok_pos b j < e_pos e).

Definition visible (mrope : bool) (b : llama_batch) (j : nat) (e : entry) : bool :=
  e_member (tok_seq b j) e && negb (e_future mrope b j e).

(** In the window, or in the chunk of the token. *)
Definition in_window (p : mask_params) (b : llama_batch) (j : nat) (e : entry) : bool :=
  if decide (mp_n_attn_chunk p = 0) then bool_decide (tok_pos b j - e_pos e < mp_n_swa p)
  else bool_decide (tok_pos b j / mp_n_attn_chunk p * mp_n_attn_chunk p ≤ e_pos e).

(** The numbers fit into their types. *)
Record window_ok (p : mask_params) (b : llama_batch) : Prop := {
  wo_pos : ∀ j, 0 ≤ tok_pos b j < 2 ^ 31;
  wo_swa : 0 ≤ mp_n_swa p < 2 ^ 31;
  wo_chunk : 0 ≤ mp_n_attn_chunk p < 2 ^ 32 }.

(** The values of the masks for token [j] and cell [c]. *)
Definition causal_value (p : mask_params) (mrope : bool) (b : llama_batch) (j : nat) (c : llama_kv_cell) : mask_val :=
  if visible mrope b j (entry_of c)
  then Mval (if mp_use_alibi p then - Z.abs (c_pos c - tok_pos b j) else 0) else Minf.
Definition swa_value (p : mask_params) (mrope : bool) (b : llama_batch) (j : nat) (c : llama_kv_cell) : mask_val :=
  swa_cut p (causal_value p mrope b j c) (c_pos c) (tok_pos b j).

Lemma swa_cut_minf p cp pos : swa_cut p Minf cp pos = Minf.
Proof. unfold swa_cut. by repeat case_match. Qed.

Lemma swa_cut_fin p b j z e : window_ok p b →
  swa_cut p (Mval z) (e_pos e) (tok_pos b j) = Minf ↔ in_window p b j e = false.
Proof.
  intros [Hpos Hswa Hch]. specialize (Hpos j). unfold swa_cut, in_window.
  bdec (mp_n_attn_chunk p = 0) as H0; cbn [negb].
  - rewrite i32_small by lia. rewrite bool_decide_eq_false. case_bool_decide; split; (done || lia).
  - pose proof (Z.div_mod (tok_pos b j) (mp_n_attn_chunk p)). pose proof (Z.mod_pos_bound (tok_pos b j) (mp_n_attn_chunk p)).
    assert (0 ≤ tok_pos b j / mp_n_attn_chunk p) by (apply Z.div_pos; lia).
    rewrite (u32_small (tok_pos b j)), u32_small, i32_small by nia.
    rewrite bool_decide_eq_false, (bool_decide_false (tok_pos b j < _)), orb_false_r by nia.
    case_bool_decide; split; (done || lia).
Qed.

(** ** One element *)

Section elements.
Context (p : mask_params) (kv : llama_kv_cache) (b : llama_batch).
Context (Hb : batch_ok (kv_mrope kv) b).

Lemma batch_token_at j : (j < n_tokens b)%nat →
  ∃ s seqs pos, b_seq_id b !! j = Some (s :: seqs) ∧ b_pos b !! j = Some pos ∧ tok_seq b j = s ∧ tok_pos b j = pos.
Proof using Hb.
  intros Hj. destruct (lookup_lt_is_Some_2 (b_seq_id b) j Hj) as [seqs Hs].
  pose proof (Forall_lookup_1 _ _ _ _ (batch_seqs _ _ Hb) Hs) as Hne. destruct seqs as [|s seqs]; [done|].
  pose proof (batch_pos _ _ Hb). destruct (lookup_lt_is_Some_2 (b_pos b) j) as [pos Hp]; [destruct (kv_mrope kv); lia|].
  exists s, seqs, pos. unfold tok_seq, tok_pos. by rewrite Hs, Hp.
Qed.

Lemma is_future_spec j c : (j < n_tokens b)%nat →
  llama_kv_cell_is_future kv c b j = Ok (e_future (kv_mrope kv) b j (entry_of c)).
Proof using Hb.
  intros Hj. destruct (batch_token_at j Hj) as (s & seqs & pos & Hs & Hp & _ & Hpos).
  unfold llama_kv_cell_is_future, e_future, at_. rewrite Hp, Hpos. cbn [mbind res_bind e_pos entry_of].
  bdec (c_pos c = pos) as Hc; cbn [negb]; [|done]. pose proof (batch_pos _ _ Hb) as Hl. destruct (kv_mrope kv); cbn [negb andb]; [|done].
  destruct (lookup_lt_is_Some_2 (b_pos b) (n_tokens b + j)) as [h ->]; [lia|].
  destruct (lookup_lt_is_Some_2 (b_pos b) (2 * n_tokens b + j)) as [w ->]; [lia|]. done.
Qed.

Lemma hidden_spec j c : (j < n_tokens b)%nat →
  hidden kv b j (tok_seq b j) c = Ok (negb (visible (kv_mrope kv) b j (entry_of c))).
Proof using Hb.
  intros Hj. unfold hidden, visible. rewrite e_member_of. destruct (has_seq_id c (tok_seq b j)); cbn [negb andb]; [|done].
  rewrite is_future_spec by done. by rewrite negb_involutive.
Qed.

(** A round writes the two values. *)
Definition put_both (idx : nat * nat → nat) (vd vs : nat * nat → mask_val) (ji : nat * nat) (m : masks) : res masks :=
  data ← put_opt (m_data m) (idx ji) (vd ji);
  swa ← put_opt (m_swa m) (idx ji) (vs ji);
  mret (Masks data swa).

Definition cell_at (i : nat) : llama_kv_cell := default default_cell (kv_cells kv !! i).
Definition row_major (n_kv : nat) (ji : nat * nat) : nat := (ji.1 * n_kv + ji.2)%nat.

Definition data_value (ji : nat * nat) : mask_val := causal_value p (kv_mrope kv) b ji.1 (cell_at ji.2).
Definition window_value (ji : nat * nat) : mask_val := swa_value p (kv_mrope kv) b ji.1 (cell_at ji.2).

Lemma causal_elt_spec guarded n_kv ji m : (ji.1 < n_tokens b)%nat → (ji.2 < length (kv_cells kv))%nat →
  causal_elt guarded p kv b n_kv ji m = put_both (row_major n_kv) data_value window_value ji m.
Proof using Hb.
  destruct ji as [j i]. cbn [fst snd]. intros Hj Hi.
  destruct (batch_token_at j Hj) as (s & seqs & pos & Hs & Hp & Hseq & Hpos).
  destruct (lookup_lt_is_Some_2 (kv_cells kv) i Hi) as [c Hc].
  unfold put_both, data_value, window_value, swa_value, causal_value, cell_at, row_major, causal_elt, noalibi_f16, general_elt.
  cbn [fst snd]. rewrite Hc. cbn [default from_option id]. unfold at_. rewrite Hs, Hp, Hc. cbn [mbind res_bind lookup list_lookup].
  rewrite <- Hseq, hidden_spec by done. cbn [mbind res_bind]. rewrite Hpos.
  destruct (visible (kv_mrope kv) b j (entry_of c)); cbn [negb].
  - destruct (mp_use_alibi p), (mp_flash_attn p); cbn [negb andb]; rewrite ?(bool_decide_false (Mval _ = Minf)) by done;
      rewrite ?andb_false_r; done.
  - rewrite swa_cut_minf. rewrite !(bool_decide_true (Minf = Minf)) by done.
    destruct (negb (mp_use_alibi p) && mp_flash_attn p); [done|]. by destruct guarded.
Qed.
End elements.

(** ** Filling *)

Definition opt_len (n : nat) (v : option (list mask_val)) : Prop := ∀ l, v = Some l → length l = n.

Lemma opt_len_Some n l : length l = n → opt_len n (Some l).
Proof. by intros ? ? [= <-]. Qed.

(** [v'] is [v] with the values of [w] written. *)
Definition written (idx : nat * nat → nat) (val : nat * nat → mask_val) (w : list (nat * nat))
    (v v' : option (list mask_val)) : Prop :=
  match v, v' with
  | None, None => True
  | Some l, Some l' => length l' = length l ∧ (∀ ji, ji ∈ w → l' !! idx ji = Some (val ji)) ∧
      (∀ k, (∀ ji, ji ∈ w → idx ji ≠ k) → l' !! k = l !! k)
  | _, _ => False
  end.

Lemma put_opt_written idx val ji w n v : opt_len n v → (idx ji < n)%nat →
  (∀ ji', ji' ∈ ji :: w → idx ji' = idx ji → ji' = ji) →
  ∃ v1, put_opt v (idx ji) (val ji) = Ok v1 ∧ opt_len n v1 ∧
    ∀ v', written idx val w v1 v' → written idx val (ji :: w) v v'.
Proof.
  intros Hl Hk Hinj. destruct v as [l|]; cbn; [|by exists None; split_and!; [..|intros []]].
  rewrite (Hl l) in * by done. specialize (Hl l eq_refl). rewrite put_lt by lia. cbn.
  eexists. split; [done|]. split; [intros ? [= <-]; by rewrite length_insert|].
  intros [l'|]; unfold written; [|done]. rewrite length_insert. intros (Hlen & Hin & Hout). split; [congruence|]. split.
  - intros ji' Hji. destruct (decide (ji' ∈ w)) as [Hw|Hw]; [by apply Hin|].
    apply elem_of_cons in Hji as [->|?]; [|done].
    rewrite Hout; [by rewrite list_lookup_insert_eq by lia|].
    intros ji' Hji' E. apply Hw. replace ji with ji'; [done|]. apply Hinj; [by right|done].
  - intros k Hne. rewrite Hout by (intros; apply Hne; by right). apply list_lookup_insert_ne, Hne. by left.
Qed.

Lemma fill_pairs_written elt idx vd vs n w m :
  (∀ ji m, ji ∈ w → elt ji m = put_both idx vd vs ji m) →
  (∀ ji, ji ∈ w → (idx ji < n)%nat) → (∀ ji ji', ji ∈ w → ji' ∈ w → idx ji = idx ji' → ji = ji') →
  opt_len n (m_data m) → opt_len n (m_swa m) →
  ∃ m', fill_pairs elt w m = Ok m' ∧ written idx vd w (m_data m) (m_data m') ∧ written idx vs w (m_swa m) (m_swa m') ∧
    opt_len n (m_data m') ∧ opt_len n (m_swa m').
Proof.
  intros Helt Hlt Hinj. induction w as [|ji w IH] in m, Helt, Hlt, Hinj |- *; intros Hd Hs.
  { exists m. split; [done|]. split_and!; [..|done|done].
    all: unfold written; case_match; [split_and!; [done|by intros ? ?%elem_of_nil|done]|done]. }
  cbn [fill_pairs]. rewrite Helt by (by left). unfold put_both.
  destruct (put_opt_written idx vd ji w n (m_data m) Hd) as (d1 & -> & Hd1 & Hd2);
    [apply Hlt; by left|intros; apply Hinj; [done|by left|done]|].
  destruct (put_opt_written idx vs ji w n (m_swa m) Hs) as (s1 & -> & Hs1 & Hs2);
    [apply Hlt; by left|intros; apply Hinj; [done|by left|done]|].
  cbn [mbind res_bind mret res_ret].
  destruct (IH (Masks d1 s1)) as (m' & -> & Hwd & Hws & ? & ?); try done.
  { intros; apply Helt; by right. } { intros; apply Hlt; by right. } { intros; apply Hinj; [by right..|done]. }
  exists m'. auto.
Qed.

(** ** Schedules *)

Lemma elem_of_span n_tok first last j i :
  (j, i) ∈ span n_tok first last ↔ (j < n_tok ∧ first ≤ i < last)%nat.
Proof.
  unfold span. rewrite list_elem_of_bind. setoid_rewrite list_elem_of_fmap. setoid_rewrite elem_of_seq. split.
  - intros (j' & (i' & [= -> ->] & ?) & ?). lia.
  - intros ?. exists j. split; [exists i; split; [done|lia]|lia].
Qed.

Lemma interleaved_elem {A} (ls : list (list A)) w : interleaved ls w →
  ∀ x, x ∈ w ↔ ∃ l, l ∈ ls ∧ x ∈ l.
Proof.
  induction 1 as [ls Hnil|ls k y l w Hk _ IH]; intros x.
  - split; [by intros ?%elem_of_nil|]. intros (l & Hl & Hx). rewrite Forall_forall in Hnil.
    rewrite (Hnil l Hl) in Hx. by apply elem_of_nil in Hx.
  - rewrite elem_of_cons, IH. pose proof (lookup_lt_Some _ _ _ Hk). split.
    + intros [->|(l' & Hl' & Hx)]; [exists (y :: l); split; [by eapply list_elem_of_lookup_2|by left]|].
      apply elem_of_insert_inv in Hl' as [->|?]; [exists (y :: l); split; [by eapply list_elem_of_lookup_2|by right]|].
      by exists l'.
    + intros (l' & (k' & Hk')%list_elem_of_lookup & Hx). destruct (decide (k' = k)) as [->|].
      * assert (l' = y :: l) as -> by congruence. apply elem_of_cons in Hx as [->|?]; [by left|right].
        exists l. split; [|done]. apply (list_elem_of_lookup_2 _ k). by apply list_lookup_insert_eq.
      * right. exists l'. split; [|done]. apply (list_elem_of_lookup_2 _ k'). by rewrite list_lookup_insert_ne.
Qed.

(** The threads share all cells. *)
Lemma works_cover n_tok n_kv n_thr j i : 0 ≤ n_kv → 0 < n_thr →
  (∃ l, l ∈ works n_tok n_kv n_thr ∧ (j, i) ∈ l) ↔ (j < n_tok)%nat ∧ Z.of_nat i < n_kv.
Proof.
  intros Hkv Hthr. unfold works, thread_work. set (n := npt n_kv n_thr).
  assert (n_kv ≤ n_thr * n ∧ 0 ≤ n) as [Hn Hn0].
  { subst n. unfold npt. rewrite Z.quot_div_nonneg by lia.
    pose proof (Z.div_mod (n_kv + n_thr - 1) n_thr). pose proof (Z.mod_pos_bound (n_kv + n_thr - 1) n_thr).
    split; [nia|]. apply Z.div_pos; lia. }
  setoid_rewrite list_elem_of_fmap. setoid_rewrite elem_of_seq. split.
  - intros (l & (ith & -> & Hith) & Hin). revert Hin. case_bool_decide; [by intros ?%elem_of_nil|].
    rewrite elem_of_span. lia.
  - intros [Hj Hi]. assert (0 < n) as Hpos by nia.
    set (ith := Z.to_nat (Z.of_nat i / n)).
    assert (Z.of_nat ith = Z.of_nat i / n) as Hith by (subst ith; pose proof (Z.div_pos (Z.of_nat i) n); lia).
    pose proof (Z.div_mod (Z.of_nat i) n). pose proof (Z.mod_pos_bound (Z.of_nat i) n).
    eexists. split; [exists ith; split; [done|]|].
    + split; [lia|]. cbn. apply Nat2Z.inj_lt. rewrite Hith, Z2Nat.id by lia. apply Z.div_lt_upper_bound; nia.
    + rewrite bool_decide_false by nia. rewrite elem_of_span. split; [done|]. nia.
Qed.

(** ** The whole mask *)

Definition padded (n : nat) : nat := Z.to_nat (GGML_PAD (Z.of_nat n) GGML_KQ_MASK_PAD).

Lemma padded_spec n : Z.of_nat n < 2 ^ 30 → (n ≤ padded n < n + 16)%nat ∧ (16 | Z.of_nat (padded n)).
Proof.
  intros Hn. unfold padded. change GGML_KQ_MASK_PAD with (2 ^ 4). rewrite GGML_PAD_spec by lia.
  change (2 ^ 4) with 16. pose proof (Z.div_mod (Z.of_nat n + 16 - 1) 16). pose proof (Z.mod_pos_bound (Z.of_nat n + 16 - 1) 16).
  split; [lia|]. exists ((Z.of_nat n + 16 - 1) / 16). rewrite Z2Nat.id; [done|]. apply Z.mul_nonneg_nonneg; [apply Z.div_pos|]; lia.
Qed.

(** [v'] holds [val] in its first [n_tok] rows and minus infinity in the others. *)
Definition filled (n_kv n_tok : nat) (val : nat * nat → mask_val) (v v' : option (list mask_val)) : Prop :=
  match v, v' with
  | None, None => True
  | Some l, Some l' => length l' = length l ∧
      ∀ j i, (j < padded n_tok)%nat → (i < n_kv)%nat →
        l' !! (j * n_kv + i)%nat = Some (if decide (j < n_tok)%nat then val (j, i) else Minf)
  | _, _ => False
  end.

Lemma row_major_inj n_kv ji ji' : (ji.2 < n_kv)%nat → (ji'.2 < n_kv)%nat →
  row_major n_kv ji = row_major n_kv ji' → ji = ji'.
Proof.
  destruct ji as [j i], ji' as [j' i']. unfold row_major. cbn. intros Hi Hi' E.
  assert (j = j') as ->; [|f_equal; lia]. destruct (lt_eq_lt_dec j j') as [[H|H]|H]; [|done|]; nia.
Qed.

Lemma pad_rows_spec n_kv n_tok val v v1 : Z.of_nat n_tok < 2 ^ 30 →
  opt_len (n_kv * padded n_tok) v → opt_len (n_kv * padded n_tok) v1 →
  written (row_major n_kv) val (span n_tok 0 n_kv) v v1 →
  ∃ v', pad_rows n_kv n_tok (padded n_tok) v1 = Ok v' ∧ filled n_kv n_tok val v v'.
Proof.
  intros Hn Hl Hl1. destruct (padded_spec n_tok Hn) as [Hp _]. set (np := padded n_tok) in *.
  destruct v as [l|], v1 as [l1|]; unfold written, pad_rows; try done; [|by exists None].
  intros (Hlen & Hin & _). pose proof (Hl1 l1 eq_refl) as Hl1'. rewrite bool_decide_true by nia.
  eexists. split; [done|]. unfold filled. fold np. split.
  { rewrite !length_app, length_take, length_replicate, length_drop. nia. }
  intros j i Hj Hi. case_decide as Hjt.
  - rewrite lookup_app_l by (rewrite length_take; nia). rewrite lookup_take_lt by nia.
    apply (Hin (j, i)), elem_of_span. lia.
  - rewrite lookup_app_r; rewrite length_take_le by nia; [|nia].
    rewrite lookup_app_l by (rewrite length_replicate; nia). apply lookup_replicate. split; [done|nia].
Qed.

(** Without rows of padding the mask is complete. *)
Lemma no_pad_filled n_kv n_tok val v v1 : padded n_tok = n_tok →
  written (row_major n_kv) val (span n_tok 0 n_kv) v v1 → filled n_kv n_tok val v v1.
Proof.
  intros Hp. destruct v as [l|], v1 as [l1|]; unfold written, filled; try done.
  intros (Hlen & Hin & _). split; [done|]. intros j i Hj Hi. rewrite decide_True by lia.
  apply (Hin (j, i)), elem_of_span. lia.
Qed.

Lemma pad_filled n_kv n_tok val v v1 : Z.of_nat n_tok < 2 ^ 30 →
  opt_len (n_kv * padded n_tok) v → opt_len (n_kv * padded n_tok) v1 →
  written (row_major n_kv) val (span n_tok 0 n_kv) v v1 →
  ∃ v', (if bool_decide (n_tok < padded n_tok)%nat then pad_rows n_kv n_tok (padded n_tok) v1 else Ok v1) = Ok v' ∧
    filled n_kv n_tok val v v'.
Proof.
  intros Hn Hl Hl1 Hw. pose proof (proj1 (padded_spec n_tok Hn)). case_bool_decide; [by apply pad_rows_spec|].
  exists v1. split; [done|]. apply no_pad_filled; [lia|done].
Qed.

Lemma written_ext idx val w w' v v' : (∀ x, x ∈ w ↔ x ∈ w') → written idx val w v v' → written idx val w' v v'.
Proof.
  intros Hw. destruct v as [l|], v' as [l'|]; unfold written; try done. setoid_rewrite Hw. done.
Qed.

(** *** Masks are filled

    The memory of both masks has a row for every token and for the padding. *)
Definition masks_fit (kv : llama_kv_cache) (b : llama_batch) (m : masks) : Prop :=
  opt_len (Z.to_nat (kv_n kv) * padded (n_tokens b)) (m_data m) ∧
  opt_len (Z.to_nat (kv_n kv) * padded (n_tokens b)) (m_swa m).

Section fill.
Context (p : mask_params) (kv : llama_kv_cache) (b : llama_batch).
Context (Hb : batch_ok (kv_mrope kv) b) (Hn : 0 ≤ kv_n kv ≤ Z.of_nat (length (kv_cells kv))).
Context (Htok : Z.of_nat (n_tokens b) < 2 ^ 30).

Lemma fill_rounds guarded w m : masks_fit kv b m →
  (∀ x, x ∈ w ↔ x ∈ span (n_tokens b) 0 (Z.to_nat (kv_n kv))) →
  ∃ m', fill_pairs (causal_elt guarded p kv b (Z.to_nat (kv_n kv))) w m = Ok m' ∧ masks_fit kv b m' ∧
    written (row_major (Z.to_nat (kv_n kv))) (data_value p kv b) (span (n_tokens b) 0 (Z.to_nat (kv_n kv))) (m_data m) (m_data m') ∧
    written (row_major (Z.to_nat (kv_n kv))) (window_value p kv b) (span (n_tokens b) 0 (Z.to_nat (kv_n kv))) (m_swa m) (m_swa m').
Proof using Hb Hn Htok.
  intros [Hd Hs] Hw. destruct (padded_spec _ Htok) as [Hpad _]. set (n_kv := Z.to_nat (kv_n kv)) in *.
  assert (∀ ji, ji ∈ w → (ji.1 < n_tokens b)%nat ∧ (ji.2 < n_kv)%nat) as Hr.
  { intros [j i]. rewrite Hw, elem_of_span. cbn. lia. }
  destruct (fill_pairs_written (causal_elt guarded p kv b n_kv) (row_major n_kv) (data_value p kv b) (window_value p kv b)
    (n_kv * padded (n_tokens b)) w m) as (m' & Hm' & H1 & H2 & H3 & H4); [|..|done|done|].
  - intros ji m0 Hji. destruct (Hr ji Hji). apply causal_elt_spec; [done|lia|lia].
  - intros ji Hji. destruct (Hr ji Hji). unfold row_major. nia.
  - intros ji ji' Hji Hji'. destruct (Hr ji Hji), (Hr ji' Hji'). by apply row_major_inj.
  - exists m'. split; [done|]. split; [by split|]. split; by eapply written_ext.
Qed.

Lemma pad_masks_spec m m1 : masks_fit kv b m → masks_fit kv b m1 →
  written (row_major (Z.to_nat (kv_n kv))) (data_value p kv b) (span (n_tokens b) 0 (Z.to_nat (kv_n kv))) (m_data m) (m_data m1) →
  written (row_major (Z.to_nat (kv_n kv))) (window_value p kv b) (span (n_tokens b) 0 (Z.to_nat (kv_n kv))) (m_swa m) (m_swa m1) →
  ∃ m', pad_masks (Z.to_nat (kv_n kv)) (n_tokens b) m1 = Ok m' ∧
    filled (Z.to_nat (kv_n kv)) (n_tokens b) (data_value p kv b) (m_data m) (m_data m') ∧
    filled (Z.to_nat (kv_n kv)) (n_tokens b) (window_value p kv b) (m_swa m) (m_swa m').
Proof using Htok.
  intros [Hd Hs] [Hd1 Hs1] Hwd Hws. unfold pad_masks. fold (padded (n_tokens b)).
  destruct (padded_spec _ Htok) as [Hpad _].
  bdec (n_tokens b < padded (n_tokens b))%nat as Hlt.
  - destruct (pad_rows_spec _ _ _ _ _ Htok Hd Hd1 Hwd) as (d' & -> & ?).
    destruct (pad_rows_spec _ _ _ _ _ Htok Hs Hs1 Hws) as (s' & -> & ?). cbn [mbind res_bind mret res_ret]. by eexists.
  - exists m1. split; [done|]. split; apply no_pad_filled; (done || lia).
Qed.

Lemma causal_masks_filled n_thr w m : 0 < n_thr → masks_fit kv b m →
  interleaved (works (n_tokens b) (kv_n kv) n_thr) w →
  ∃ m', set_causal_masks p kv b w m = Ok m' ∧
    filled (Z.to_nat (kv_n kv)) (n_tokens b) (data_value p kv b) (m_data m) (m_data m') ∧
    filled (Z.to_nat (kv_n kv)) (n_tokens b) (window_value p kv b) (m_swa m) (m_swa m').
Proof using Hb Hn Htok.
  intros Hthr Hfit Hw. unfold set_causal_masks.
  assert (∃ m1, (if bool_decide (1024 ≤ kv_n kv) && bool_decide (32 ≤ n_tokens b)%nat
       then fill_pairs (causal_elt true p kv b (Z.to_nat (kv_n kv))) w m
       else fill_pairs (causal_elt false p kv b (Z.to_nat (kv_n kv))) (span (n_tokens b) 0 (Z.to_nat (kv_n kv))) m) = Ok m1 ∧
    masks_fit kv b m1 ∧
    written (row_major (Z.to_nat (kv_n kv))) (data_value p kv b) (span (n_tokens b) 0 (Z.to_nat (kv_n kv))) (m_data m) (m_data m1) ∧
    written (row_major (Z.to_nat (kv_n kv))) (window_value p kv b) (span (n_tokens b) 0 (Z.to_nat (kv_n kv))) (m_swa m) (m_swa m1))
    as (m1 & -> & Hfit1 & Hwd & Hws).
  { destruct (_ && _); apply fill_rounds; [done| |done|done]. intros [j i].
    rewrite (interleaved_elem _ _ Hw), works_cover by lia. rewrite elem_of_span. lia. }
  cbn [mbind res_bind]. by apply (pad_masks_spec m m1).
Qed.
End fill.

(** Reading one value of a filled mask. *)
Definition mask_holds (v : option (list mask_val)) (n_kv : nat) (val : nat → nat → mask_val) : Prop :=
  ∀ l, v = Some l → ∀ j i, (i < n_kv)%nat → (j * n_kv + i < length l)%nat → l !! (j * n_kv + i)%nat = Some (val j i).

(** C17. Under every schedule of the threads, and also without threads, the masks
    are filled without an access out of bounds, and with the same values: minus
    infinity in the rows of padding and where a token does not see a cell, else the
    bias. *)
Theorem causal_masks_exact p kv b n_thr w m :
  batch_ok (kv_mrope kv) b → 0 ≤ kv_n kv ≤ Z.of_nat (length (kv_cells kv)) → Z.of_nat (n_tokens b) < 2 ^ 30 →
  0 < n_thr → masks_fit kv b m → interleaved (works (n_tokens b) (kv_n kv) n_thr) w →
  ∃ m', set_causal_masks p kv b w m = Ok m' ∧
    (is_Some (m_data m') ↔ is_Some (m_data m)) ∧ (is_Some (m_swa m') ↔ is_Some (m_swa m)) ∧
    mask_holds (m_data m') (Z.to_nat (kv_n kv)) (λ j i,
      if decide (j < n_tokens b)%nat then causal_value p (kv_mrope kv) b j (cell_at kv i) else Minf) ∧
    mask_holds (m_swa m') (Z.to_nat (kv_n kv)) (λ j i,
      if decide (j < n_tokens b)%nat then swa_value p (kv_mrope kv) b j (cell_at kv i) else Minf).
Proof.
  intros Hb Hn Htok Hthr [Hd Hs] Hw.
  destruct (causal_masks_filled p kv b Hb Hn Htok n_thr w m Hthr (conj Hd Hs) Hw) as (m' & -> & Hfd & Hfs).
  exists m'. split; [done|].
  assert (∀ val v v', opt_len (Z.to_nat (kv_n kv) * padded (n_tokens b)) v →
    filled (Z.to_nat (kv_n kv)) (n_tokens b) val v v' → (is_Some v' ↔ is_Some v) ∧
    mask_holds v' (Z.to_nat (kv_n kv)) (λ j i, if decide (j < n_tokens b)%nat then val (j, i) else Minf)) as Hg.
  { intros val [l|] [l'|] Hl; unfold filled; try done. intros [Hlen Hv]. split; [done|].
    intros ? [= <-] j i Hi Hji. apply Hv; [|done]. rewrite (Hl l) in Hlen by done. nia. }
  destruct (Hg _ _ _ Hd Hfd) as [? ?], (Hg _ _ _ Hs Hfs) as [? ?]. done.
Qed.

(** ** What a token attends to *)

(** Row [j] of a mask, and the entries it does not mask. *)
Definition mask_row (l : list mask_val) (n_kv j : nat) : list mask_val := take n_kv (drop (j * n_kv) l).

Definition attended (cells : list llama_kv_cell) (row : list mask_val) : list entry :=
  omap (λ cf, match cf.2 with Minf => None | Mval _ => Some (entry_of cf.1) end) (zip cells row).

(** The entries among the cells the graph looks at. *)
Definition seen (kv : llama_kv_cache) : list entry :=
  entry_of <$> live_cells (take (Z.to_nat (kv_n kv)) (kv_cells kv)).

Lemma attended_fmap (f : llama_kv_cell → mask_val) (Q : entry → bool) n cells :
  (∀ c, f c = Minf ↔ Q (entry_of c) = false) → (∀ c, Q (entry_of c) = true → in_use c) →
  attended cells (f <$> take n cells) = filter (λ e, Q e = true) (entry_of <$> live_cells (take n cells)).
Proof.
  intros Hf Hu. unfold attended. induction cells as [|c cells IH] in n |- *; [by destruct n|].
  destruct n as [|n]; [done|]. cbn [take fmap list_fmap zip zip_with omap list_omap fst snd]. rewrite live_cells_cons.
  specialize (IH n). specialize (Hf c). specialize (Hu c). destruct (Q (entry_of c)) eqn:EQ.
  - rewrite decide_True by auto. cbn [fmap list_fmap]. rewrite filter_cons_True by done.
    destruct (f c) as [|z] eqn:Ef; [by pose proof (proj1 Hf eq_refl)|]. by f_equal.
  - rewrite (proj2 Hf eq_refl). case_decide; [|exact IH]. cbn [fmap list_fmap].
    rewrite filter_cons_False by (by rewrite EQ). exact IH.
Qed.

Lemma visible_in_use mrope b j c : visible mrope b j (entry_of c) = true → in_use c.
Proof. unfold visible. rewrite e_member_of. intros [? _]%andb_true_iff. by eapply has_seq_use. Qed.

Lemma causal_value_minf p mrope b j c : causal_value p mrope b j c = Minf ↔ visible mrope b j (entry_of c) = false.
Proof. unfold causal_value. by destruct (visible _ _ _ _). Qed.

Lemma swa_value_minf p mrope b j c : window_ok p b →
  swa_value p mrope b j c = Minf ↔ visible mrope b j (entry_of c) && in_window p b j (entry_of c) = false.
Proof.
  intros Hw. unfold swa_value, causal_value. destruct (visible _ _ _ _); cbn [andb]; [|by rewrite swa_cut_minf].
  exact (swa_cut_fin p b j _ (entry_of c) Hw).
Qed.

Lemma filled_row kv n_tok val v l j (f : llama_kv_cell → mask_val) : Z.of_nat n_tok < 2 ^ 30 →
  (Z.to_nat (kv_n kv) ≤ length (kv_cells kv))%nat → (j < n_tok)%nat →
  filled (Z.to_nat (kv_n kv)) n_tok val v (Some l) → (∀ i, val (j, i) = f (cell_at kv i)) →
  mask_row l (Z.to_nat (kv_n kv)) j = f <$> take (Z.to_nat (kv_n kv)) (kv_cells kv).
Proof.
  intros Htok Hn Hj Hfill Hval. destruct v as [l0|]; [|done]. destruct Hfill as [_ Hl].
  pose proof (proj1 (padded_spec _ Htok)). unfold mask_row. apply list_eq. intros i. rewrite list_lookup_fmap.
  destruct (decide (i < Z.to_nat (kv_n kv))%nat) as [Hi|Hi].
  - rewrite !lookup_take_lt, lookup_drop by done. rewrite Hl by lia. rewrite decide_True by done.
    rewrite Hval. unfold cell_at. destruct (lookup_lt_is_Some_2 (kv_cells kv) i) as [c ->]; [lia|done].
  - rewrite !lookup_take_ge by lia. done.
Qed.

(** When every cell in use is among those the graph looks at, all entries are seen. *)
Lemma seen_contents kv : (∀ i c, kv_cells kv !! i = Some c → in_use c → Z.of_nat i < kv_n kv) → seen kv = contents kv.
Proof.
  intros Hc. unfold seen, contents. f_equal. rewrite <- (take_drop (Z.to_nat (kv_n kv)) (kv_cells kv)) at 2.
  unfold live_cells. rewrite filter_app, (filter_none in_use (drop _ _)), app_nil_r; [done|].
  apply Forall_lookup_2. intros i c Hi Hu. rewrite lookup_drop in Hi. specialize (Hc _ _ Hi Hu). lia.
Qed.

(** The cells at the multiples of the padding are in use, up to the last one. *)
Definition dense (kv : llama_kv_cache) (fa : bool) : Prop :=
  ∀ k c, 0 < k * get_padding fa ≤ llama_kv_cache_cell_max kv →
    kv_cells kv !! Z.to_nat (k * get_padding fa - 1) = Some c → in_use c.

Lemma prepared_n kv1 kv' fa : kv_wf kv1 → kv_cells kv' = kv_cells kv1 → (get_padding fa | kv_size kv1) →
  decode_set_n kv1 fa = Ok kv' → 0 ≤ kv_n kv' ≤ Z.of_nat (length (kv_cells kv')) ∧ (dense kv' fa → seen kv' = contents kv').
Proof.
  intros Hwf1 Hcells Hpad Hn. pose proof (wf_size _ Hwf1). split.
  - revert Hn. unfold decode_set_n. intros (mc & _ & [= <-])%bind_Ok. cbn. pose proof (get_padding_pos fa). lia.
  - intros Hd. destruct (decode_set_n_exact kv1 fa Hwf1 Hpad) as (kv2 & E & _ & Hcov).
    + unfold dense, llama_kv_cache_cell_max in *. by rewrite Hcells in Hd.
    + assert (kv2 = kv') as -> by congruence. apply seen_contents. by rewrite Hcells.
Qed.

(** C16. A causal model with causal attention, and a cache without compacted layers.
    After a micro-batch was stored, under every schedule of the threads, each of its
    tokens attends exactly to the entries the graph looks at that belong to its
    sequence and are not in its future, and in the layers with a window to those of
    its window.  If no hole lies at the stride of the padded search ([dense]), the
    entries the graph looks at are all there are: what the cache held before, with
    pending shifts applied, and the micro-batch itself.  (Otherwise entries can be
    left out, see [cell_max_pad_hides_cells].) *)
Theorem decode_attends can_shift max_moves p kv b embd kv' n_thr w m :
  kv_wf kv → 0 < max_moves → batch_ok (kv_mrope kv) b → Z.of_nat (n_tokens b) < 2 ^ 30 → window_ok p b →
  (get_padding (mp_flash_attn p) | kv_size kv) → any_compacted kv = false → mp_causal_model p = true →
  decode_prepare true can_shift (mp_flash_attn p) max_moves kv b embd = Ok (0, kv') →
  masks_fit kv' b m → 0 < n_thr → interleaved (works (n_tokens b) (kv_n kv') n_thr) w →
  ∃ m', set_masks p true false kv' b w m = Ok m' ∧
    (∀ j l, (j < n_tokens b)%nat → m_data m' = Some l →
       attended (kv_cells kv') (mask_row l (Z.to_nat (kv_n kv')) j) =
       filter (λ e, visible (kv_mrope kv) b j e = true) (seen kv')) ∧
    (∀ j l, (j < n_tokens b)%nat → m_swa m' = Some l →
       attended (kv_cells kv') (mask_row l (Z.to_nat (kv_n kv')) j) =
       filter (λ e, visible (kv_mrope kv) b j e && in_window p b j e = true) (seen kv')) ∧
    (dense kv' (mp_flash_attn p) →
       seen kv' ≡ₚ shifted kv (contents kv) ++ batch_entries (kv_mrope kv) b embd).
Proof.
  intros Hwf Hmax Hb Htok Hwo Hpad Hac Hcm Hprep Hfit Hthr Hw.
  destruct (decode_prepare_spec can_shift (mp_flash_attn p) max_moves kv b embd Hwf Hmax Hb Hpad Hac)
    as (ret & kv'' & E & Hwf' & (Hsz & Hrc & Hmr) & Hcase). rewrite Hprep in E. injection E as <- <-.
  destruct (kv_has_shift kv && negb can_shift); [by destruct Hcase|].
  destruct Hcase as [(_ & Hcont & kv1 & Hwf1 & Hsz1 & Hcells & Hset)|[? _]]; [|done].
  destruct (prepared_n kv1 kv' _ Hwf1 Hcells ltac:(by rewrite Hsz1) Hset) as [Hn Hdense].
  destruct (causal_masks_filled p kv' b ltac:(by rewrite Hmr) Hn Htok n_thr w m Hthr Hfit Hw) as (m' & Hm' & Hf1 & Hf2).
  exists m'. unfold set_masks. rewrite Hcm. cbn [orb ggml_assert mbind res_bind andb negb]. split; [done|].
  split_and!.
  - intros j l Hj Hl. rewrite Hl in Hf1.
    rewrite (filled_row kv' (n_tokens b) _ _ l j (causal_value p (kv_mrope kv) b j) Htok ltac:(lia) Hj Hf1)
      by (intros i; unfold data_value; by rewrite Hmr).
    apply attended_fmap; [apply causal_value_minf|apply visible_in_use].
  - intros j l Hj Hl. rewrite Hl in Hf2.
    rewrite (filled_row kv' (n_tokens b) _ _ l j (swa_value p (kv_mrope kv) b j) Htok ltac:(lia) Hj Hf2)
      by (intros i; unfold window_value; by rewrite Hmr).
    rewrite (attended_fmap _ (λ e, visible (kv_mrope kv) b j e && in_window p b j e)); [done|intros; by apply swa_value_minf|].
    intros c [Hv _]%andb_true_iff. by eapply visible_in_use.
  - intros Hde. by rewrite (Hdense Hde).
Qed.

(** ** The mask of a view of a compacted layer *)

Lemma window_loop_written p wp kv b idx val n w l :
  (∀ jc l, jc ∈ w → window_elt p wp kv b jc l = put l (idx jc) (val jc)) →
  (∀ jc, jc ∈ w → (idx jc < n)%nat) → (∀ jc jc', jc ∈ w → jc' ∈ w → idx jc = idx jc' → jc = jc') → length l = n →
  ∃ l', window_loop p wp kv b w l = Ok l' ∧ written idx val w (Some l) (Some l').
Proof.
  intros Helt Hlt Hinj. induction w as [|jc w IH] in l, Helt, Hlt, Hinj |- *; intros Hl.
  { exists l. split; [done|]. unfold written. split_and!; [done|by intros ? ?%elem_of_nil|done]. }
  cbn [window_loop]. rewrite Helt by (by left).
  destruct (put_opt_written idx val jc w n (Some l)) as ([l1|] & Hp & Hl1 & Hw);
    [by intros ? [= <-]|apply Hlt; by left|intros; apply Hinj; [done|by left|done]| |].
  all: cbn in Hp; destruct (put l (idx jc) (val jc)) as [l2|] eqn:E; try done. injection Hp as ->.
  cbn [mbind res_bind]. destruct (IH l1) as (l' & -> & Hw'); [..|by apply Hl1|].
  { intros; apply Helt; by right. } { intros; apply Hlt; by right. } { intros; apply Hinj; [by right..|done]. }
  exists l'. split; [done|]. by apply Hw.
Qed.

(** The view of a batch, and what a token may see of it. *)
Definition compact_view (kv : llama_kv_cache) (fa : bool) (n : nat) : window_params :=
  let v := llama_swa_calc_window_view_compact (live_swa kv + Z.of_nat n) (kv_sink_rows kv) (Z.of_nat n)
             (kv_window_swa kv) (get_padding fa) in
  WindowParams true (kv_window_swa kv) (wv_w_view v) (wv_win_off v).

(** The position that column [c] of the view stands for. *)
Definition column_pos (kv : llama_kv_cache) (wp : window_params) (c : nat) : Z :=
  kv_pos_base_swa kv + (wp_win_off wp + Z.of_nat c - kv_sink_rows kv).

Definition window_bias (p : mask_params) (kv : llama_kv_cache) (b : llama_batch) (j : nat) (q : Z) : mask_val :=
  if decide (kv_pos_base_swa kv ≤ q ∧ tok_pos b j - kv_window_swa kv < q ≤ tok_pos b j)
  then Mval (if mp_use_alibi p then - Z.abs (q - tok_pos b j) else 0) else Minf.

Section window.
Context (p : mask_params) (kv : llama_kv_cache) (b : llama_batch).
Context (Hb : batch_ok (kv_mrope kv) b) (Hwf : swa_wf kv) (Hchunk : mp_n_attn_chunk p = 0).
Context (Hfit : live_swa kv + Z.of_nat (n_tokens b) ≤ swa_capacity kv (mp_flash_attn p)).
Context (Hpos : ∀ j, (j < n_tokens b)%nat → swa_next kv ≤ tok_pos b j < swa_next kv + Z.of_nat (n_tokens b)).
Context (Hend : swa_next kv + Z.of_nat (n_tokens b) < 2 ^ 31) (Hwin : kv_window_swa kv < 2 ^ 31).

Lemma view_facts : (0 < n_tokens b)%nat →
  let wp := compact_view kv (mp_flash_attn p) (n_tokens b) in
  kv_sink_rows kv ≤ wp_win_off wp ∧ 0 ≤ wp_w_view wp ∧ wp_win_off wp + wp_w_view wp ≤ kv_size_swa kv ∧
  ∀ q, kv_pos_base_swa kv ≤ q → swa_next kv - kv_window_swa kv ≤ q < swa_next kv + Z.of_nat (n_tokens b) →
    wp_win_off wp ≤ swa_row kv q < wp_win_off wp + wp_w_view wp.
Proof using Hwf Hfit.
  intros Hn. destruct (swa_capacity_spec kv (mp_flash_attn p) Hwf) as [Hcap _].
  pose proof (live_swa_val kv Hwf) as Hl. destruct Hwf. cbn zeta. unfold compact_view. cbn [wp_win_off wp_w_view].
  unfold llama_swa_calc_window_view_compact. cbn [wv_win_off wv_w_view].
  destruct (pad_up_spec (live_swa kv + Z.of_nat (n_tokens b)) (mp_flash_attn p) ltac:(lia)) as [Hlp [i Hi]].
  destruct (pad_up_spec (kv_window_swa kv + get_padding (mp_flash_attn p) + Z.of_nat (n_tokens b)) (mp_flash_attn p))
    as [Hov _]; [by destruct (mp_flash_attn p); cbn; lia|].
  destruct (swa_capacity_spec kv (mp_flash_attn p) Hwf) as [_ [k Hk]].
  assert (0 < get_padding (mp_flash_attn p)) by (by destruct (mp_flash_attn p)).
  assert (pad_up (live_swa kv + Z.of_nat (n_tokens b)) (get_padding (mp_flash_attn p)) ≤ swa_capacity kv (mp_flash_attn p)).
  { rewrite Hi, Hk in *. assert (i < k + 1) by nia. nia. }
  unfold swa_next, swa_row. set (lp := pad_up (live_swa kv + _) _) in *. set (ov := pad_up (kv_window_swa kv + _ + _) _) in *.
  split_and!; [case_bool_decide; lia..|]. intros q Hq Hw. case_bool_decide; lia.
Qed.

Lemma window_elt_spec jc l : let wp := compact_view kv (mp_flash_attn p) (n_tokens b) in
  (jc.1 < n_tokens b)%nat → (jc.2 < Z.to_nat (wp_w_view wp))%nat →
  window_elt p wp kv b jc l =
  put l (row_major (Z.to_nat (wp_w_view wp)) jc) (window_bias p kv b jc.1 (column_pos kv wp jc.2)).
Proof using All.
  cbn zeta. destruct jc as [j c]. cbn [fst snd]. intros Hj Hc. pose proof (view_facts ltac:(lia)) as (Hoff & Hw & Hin & _).
  set (wp := compact_view kv _ _) in *. pose proof (live_swa_val kv Hwf) as Hl. specialize (Hpos j Hj).
  pose proof (swa_sink kv Hwf). pose proof (swa_size kv Hwf). pose proof (swa_base kv Hwf). pose proof (swa_window kv Hwf).
  pose proof (swa_head kv Hwf).
  destruct (batch_token_at kv b Hb j Hj) as (s & seqs & pos & Hs & Hp & Hseq & Htp).
  unfold window_elt. cbn [fst snd]. unfold at_. rewrite Hp, Hs. cbn [mbind res_bind lookup list_lookup].
  change (wp_compacted wp) with true. cbv iota.
  assert (kv_pos_base_swa kv + kv_size_swa kv < 2 ^ 31 + 2 ^ 30) by (unfold swa_next in *; lia).
  rewrite (i32_small (wp_win_off wp + Z.of_nat c - kv_sink_rows kv)) by lia.
  unfold row_major, window_bias, column_pos. cbn [fst snd]. rewrite Htp in *.
  set (q := kv_pos_base_swa kv + (wp_win_off wp + Z.of_nat c - kv_sink_rows kv)).
  destruct (decide (q < 2 ^ 31)) as [Hq|Hq].
  - rewrite (i32_small q) by lia. cbn [mbind res_bind]. change (wp_window wp) with (kv_window_swa kv).
    unfold swa_cut. cbn [with_window mp_n_attn_chunk mp_n_swa]. rewrite Hchunk, (bool_decide_true (0 = 0)) by done. cbn [negb].
    rewrite (i32_small (kv_window_swa kv)) by lia.
    bdec (q < kv_pos_base_swa kv) as Hq1; cbn [orb]; [by rewrite decide_False by lia|].
    bdec (pos < q) as Hq2; [by rewrite decide_False by lia|]. cbn [orb].
    rewrite (bool_decide_false (Mval _ = Minf)) by done.
    bdec (kv_window_swa kv ≤ pos - q) as Hq3; [by rewrite decide_False by lia|]. by rewrite decide_True by lia.
  - assert (i32 q = q - 2 ^ 32) as ->.
    { unfold i32. replace (q + 2 ^ 31) with (q - 2 ^ 31 + 1 * 2 ^ 32) by lia. rewrite Z.mod_add, Z.mod_small by lia. lia. }
    rewrite (bool_decide_true (q - 2 ^ 32 < kv_pos_base_swa kv)) by lia. cbn [orb mbind res_bind].
    rewrite (bool_decide_true (Minf = Minf)) by done. by rewrite decide_False by lia.
Qed.
End window.

(** C18. In a compacted layer the mask of the view lets a token see exactly the live
    positions of its window, itself included: every such position is a column of
    the view, in the row where the layer stores it, and no other column is seen. *)
Theorem window_mask_exact p kv b l :
  batch_ok (kv_mrope kv) b → swa_wf kv → mp_n_attn_chunk p = 0 → (0 < n_tokens b)%nat → Z.of_nat (n_tokens b) < 2 ^ 30 →
  live_swa kv + Z.of_nat (n_tokens b) ≤ swa_capacity kv (mp_flash_attn p) →
  (∀ j, (j < n_tokens b)%nat → swa_next kv ≤ tok_pos b j < swa_next kv + Z.of_nat (n_tokens b)) →
  swa_next kv + Z.of_nat (n_tokens b) < 2 ^ 31 → kv_window_swa kv < 2 ^ 31 →
  let wp := compact_view kv (mp_flash_attn p) (n_tokens b) in
  length l = (Z.to_nat (wp_w_view wp) * padded (n_tokens b))%nat →
  ∃ l', set_window_mask p wp kv b l = Ok (Some l') ∧ ∀ j, (j < n_tokens b)%nat →
    (∀ c, (c < Z.to_nat (wp_w_view wp))%nat →
       l' !! (j * Z.to_nat (wp_w_view wp) + c)%nat = Some (window_bias p kv b j (column_pos kv wp c))) ∧
    (∀ q, window_bias p kv b j q ≠ Minf →
       ∃ c, (c < Z.to_nat (wp_w_view wp))%nat ∧ column_pos kv wp c = q ∧ wp_win_off wp + Z.of_nat c = swa_row kv q).
Proof.
  intros Hb Hwf Hchunk Hn Htok Hfit Hpos Hend Hwin wp Hl.
  pose proof (view_facts p kv b Hwf Hfit Hn) as (Hoff & Hw & Hin & Hcov). fold wp in Hoff, Hw, Hin, Hcov.
  destruct (padded_spec _ Htok) as [Hpad _]. set (wv := Z.to_nat (wp_w_view wp)) in *.
  assert (∀ jc, jc ∈ span (n_tokens b) 0 wv → (jc.1 < n_tokens b)%nat ∧ (jc.2 < wv)%nat) as Hsp.
  { intros [j c]. rewrite elem_of_span. cbn. lia. }
  destruct (window_loop_written p wp kv b (row_major wv) (λ jc, window_bias p kv b jc.1 (column_pos kv wp jc.2)) (wv * padded (n_tokens b))
    (span (n_tokens b) 0 wv) l) as (l1 & Hl1 & Hw1); [|..|done|].
  { intros jc l0 Hjc. destruct (Hsp jc Hjc). by apply (window_elt_spec p kv b). }
  { intros jc Hjc. destruct (Hsp jc Hjc). unfold row_major. nia. }
  { intros jc jc' H1 H2. destruct (Hsp jc H1), (Hsp jc' H2). by apply row_major_inj. }
  assert (length l1 = wv * padded (n_tokens b))%nat as Hlen1 by (rewrite <- Hl; apply Hw1).
  destruct (pad_filled wv (n_tokens b) _ _ _ Htok (opt_len_Some _ _ Hl) (opt_len_Some _ _ Hlen1) Hw1)
    as ([l'|] & Hp & Hf); [|destruct Hf].
  exists l'. split.
  { unfold set_window_mask. change (wp_compacted wp) with true. cbv iota. change (wp_window wp) with (kv_window_swa kv).
    cbn [wv_engaged llama_swa_calc_window_view_compact ggml_assert mbind res_bind].
    rewrite (bool_decide_true (wp_w_view wp = _)), (bool_decide_true (wp_win_off wp = _)) by reflexivity.
    cbn [andb ggml_assert mbind res_bind]. fold wv. rewrite Hl1. cbn [mbind res_bind]. exact Hp. }
  intros j Hj. destruct Hf as [_ Hf]. split.
  - intros c Hc. rewrite Hf by lia. by destruct (decide (j < n_tokens b)%nat).
  - intros q. unfold window_bias. destruct (decide _) as [Hq|Hq]; [intros _|done]. specialize (Hpos j Hj).
    destruct (Hcov q) as [Hlo Hhi]; [lia|lia|]. exists (Z.to_nat (swa_row kv q - wp_win_off wp)).
    unfold column_pos, swa_row in *. split_and!; lia.
Qed.

(** ** Examples *)

Lemma interleaved_one {A} (l : list A) : interleaved [l] l.
Proof.
  induction l as [|x l IH]; [by apply interleaved_done, Forall_singleton|].
  by apply (interleaved_step [x :: l] 0 x l l).
Qed.

(** A model with a window of 8, without flash attention. *)
Definition small_window : mask_params := MaskParams false false 0 8 8 true.

(** A cache of 32 cells, after a first token was prepared. *)
Definition prepared : llama_kv_cache :=
  match kv ← init32; decode_prepare true false false 8 kv one_token 0 with Ok (_, kv) => kv | Err _ => holes_kv end.

Definition blank_masks : masks := Masks (Some (replicate 512 Minf)) (Some (replicate 512 Minf)).

Lemma blank_masks_fit : masks_fit prepared one_token blank_masks.
Proof. split; apply opt_len_Some; vm_compute; reflexivity. Qed.

Lemma small_window_ok : window_ok small_window one_token.
Proof.
  split; cbn; try lia. intros [|j]; unfold tok_pos; cbn; [lia|]. destruct j; cbn; lia.
Qed.

Lemma causal_masks_exact_witness :
  ∃ m', set_causal_masks small_window prepared one_token (span 1 0 32) blank_masks = Ok m' ∧
    (is_Some (m_data m') ↔ is_Some (m_data blank_masks)) ∧ (is_Some (m_swa m') ↔ is_Some (m_swa blank_masks)) ∧
    mask_holds (m_data m') 32 (λ j i,
      if decide (j < 1)%nat then causal_value small_window false one_token j (cell_at prepared i) else Minf) ∧
    mask_holds (m_swa m') 32 (λ j i,
      if decide (j < 1)%nat then swa_value small_window false one_token j (cell_at prepared i) else Minf).
Proof.
  apply (causal_masks_exact small_window prepared one_token 1).
  - exact one_token_ok.
  - vm_compute. split; discriminate.
  - cbn. lia.
  - lia.
  - exact blank_masks_fit.
  - assert (works (n_tokens one_token) (kv_n prepared) 1 = [span 1 0 32]) as -> by (vm_compute; reflexivity).
    apply interleaved_one.
Defined.

Definition init32_kv : llama_kv_cache := match init32 with Ok kv => kv | Err _ => holes_kv end.

Lemma init32_kv_wf : kv_wf init32_kv.
Proof.
  split; try (vm_compute; split; discriminate); try reflexivity.
  - apply (bool_decide_unpack _). vm_compute. exact I.
  - apply (bool_decide_unpack _). vm_compute. exact I.
  - intros _. apply (bool_decide_unpack _). vm_compute. exact I.
Qed.

Lemma decode_attends_witness :
  ∃ m', set_masks small_window true false prepared one_token (span 1 0 32) blank_masks = Ok m' ∧
    (∀ j l, (j < 1)%nat → m_data m' = Some l →
       attended (kv_cells prepared) (mask_row l 32 j) =
       filter (λ e, visible false one_token j e = true) (seen prepared)) ∧
    (∀ j l, (j < 1)%nat → m_swa m' = Some l →
       attended (kv_cells prepared) (mask_row l 32 j) =
       filter (λ e, visible false one_token j e && in_window small_window one_token j e = true) (seen prepared)) ∧
    (dense prepared false →
       seen prepared ≡ₚ shifted init32_kv (contents init32_kv) ++ batch_entries false one_token 0).
Proof.
  apply (decode_attends false 8 small_window init32_kv one_token 0 prepared 1).
  - exact init32_kv_wf.
  - lia.
  - exact one_token_ok.
  - cbn. lia.
  - exact small_window_ok.
  - by exists 1.
  - reflexivity.
  - reflexivity.
  - vm_compute. reflexivity.
  - exact blank_masks_fit.
  - lia.
  - assert (works (n_tokens one_token) (kv_n prepared) 1 = [span 1 0 32]) as -> by (vm_compute; reflexivity).
    apply interleaved_one.
Defined.

(** Two tokens behind a compacted window of 32 positions. *)
Definition next_two : llama_batch := Batch (Some [1; 2]) [72; 73] [[0]; [0]].

Lemma window_mask_exact_witness :
  let wp := compact_view compacted_kv false 2 in
  ∃ l', set_window_mask small_window wp compacted_kv next_two
      (replicate (Z.to_nat (wp_w_view wp) * padded 2) Minf) = Ok (Some l') ∧ ∀ j, (j < 2)%nat →
    (∀ c, (c < Z.to_nat (wp_w_view wp))%nat →
       l' !! (j * Z.to_nat (wp_w_view wp) + c)%nat =
       Some (window_bias small_window compacted_kv next_two j (column_pos compacted_kv wp c))) ∧
    (∀ q, window_bias small_window compacted_kv next_two j q ≠ Minf →
       ∃ c, (c < Z.to_nat (wp_w_view wp))%nat ∧ column_pos compacted_kv wp c = q ∧
         wp_win_off wp + Z.of_nat c = swa_row compacted_kv q).
Proof.
  apply (window_mask_exact small_window compacted_kv next_two (replicate _ Minf)).
  - split; cbn; [lia|intros ? [= <-]; cbn; lia| |repeat constructor; done].
    intros [|[|i]] q _; cbn; intros [= <-]; lia.
  - split; cbn; reflexivity || lia.
  - reflexivity.
  - cbn. lia.
  - cbn. lia.
  - vm_compute. discriminate.
  - intros [|[|j]] Hj; [vm_compute; split; done..|cbn in Hj; lia].
  - vm_compute. reflexivity.
  - vm_compute. reflexivity.
  - apply length_replicate.
Defined.

(** ** Without causality

    The code says that a causal model that decodes an image without causality needs
    its mask by cells, since the tokens of the image lie behind those before; only the
    path with flash attention does so.  Three tokens are cached and an image of two
    follows: *)
Definition image_kv : llama_kv_cache :=
  KvCache false false false false false false false 0 3 32 5 32 [] 0 0 0 0 0
    (((λ i, text_cell i 100 0) <$> seqZ 0 5) ++ replicate 27 default_cell).
Definition image_batch : llama_batch := Batch None [3; 4] [[0]; [0]].

(** The positions that the tokens of the image attend to. *)
Definition attended_positions (flash_attn : bool) : res (list (list Z)) :=
  m ← set_masks (MaskParams flash_attn false 0 0 0 true) false false image_kv image_batch []
        (Masks (Some (replicate 512 Minf)) None);
  mret ((λ j, e_pos <$> attended (kv_cells image_kv) (mask_row (default [] (m_data m)) 32 j)) <$> [0; 1]%nat).

(** With flash attention they see all five tokens, without it only the first two,
    not even themselves. *)
Theorem noncausal_mask_by_tokens :
  attended_positions true = Ok [[0; 1; 2; 3; 4]; [0; 1; 2; 3; 4]] ∧
  attended_positions false = Ok [[0; 1]; [0; 1]].
Proof. split; vm_compute; reflexivity. Qed.

(** *** Halves in a tensor of floats

    The bits of a value (without biases) as a half, and of minus infinity as a float;
    a float is made of two halves, the low one first. *)
Definition half_bits (f : mask_val) : Z := match f with Minf => 0xFC00 | Mval _ => 0 end.
Definition float_minf : Z := 0xFF800000.

(** With flash attention the fill writes halves, but without causality the tensor
    has floats, which the graph converts: no pair of halves reads as minus infinity,
    so that nothing is masked, and the rows in the second half are not written. *)
Theorem noncausal_flash_mask_unmasked n_kv n :
  let t := build_inp_KQ_mask false true n_kv n in
  mt_f16 t = false ∧ mt_cast t = true ∧
  (∀ lo hi, half_bits lo + 2 ^ 16 * half_bits hi ≠ float_minf) ∧
  (∀ j i, 0 ≤ i → n ≤ 2 * j → 0 ≤ n → 2 * (n * n) ≤ 4 * (j * mt_width t + i)).
Proof.
  cbn. split_and!; [done..| |nia]. intros [|] [|]; vm_compute; discriminate.
Qed.
