(* ===== verification/Outputs.v ===== *)
(** * Decoding a batch

    [llama_decode_internal] ([src/llama.cpp]): a batch is cut into micro-batches,
    each of which is stored in the cache and evaluated; the rows of logits or
    embeddings that were asked for are gathered, and [llama_get_logits_ith] finds
    them by the index of the token.

    What a graph computes is a parameter: the row of every token of a micro-batch,
    given the cache.  Speculative heads (MTP, DFlash) and the caches of particular
    architectures are left out. *)
From S2P Require Import Prelude KvCache.

(** ** Batches of the interface

    [llama_batch] of [include/llama.h]; arrays that may be [NULL] are options.  Of
    embeddings only their presence matters here. *)
Record user_batch := UserBatch {
  ub_n_tokens : nat;
  ub_token : option (list Z);
  ub_embd : bool;
  ub_pos : option (list Z);
  ub_seq_id : option (list (list Z));   (** [seq_id] with [n_seq_id] *)
  ub_logits : option (list Z);
  ub_all_pos_0 : Z; ub_all_pos_1 : Z; ub_all_seq_id : Z }.

Definition llama_batch_get_one (tokens : list Z) (n_tokens : nat) (pos_0 seq_id : Z) : user_batch :=
  UserBatch n_tokens (Some tokens) false None None None pos_0 1 seq_id.

Inductive llama_pooling_type := PoolingNone | PoolingMean | PoolingCls | PoolingLast | PoolingUnspecified.

#[global] Instance pooling_eq_dec : EqDecision llama_pooling_type.
Proof. solve_decision. Defined.

(** The parameters of the context and the model that matter. *)
Record dec_params := DecParams {
  dp_n_batch : nat; dp_n_ubatch : nat; dp_n_seq_max : Z;
  dp_n_vocab : Z; dp_n_embd : Z;
  dp_embeddings : bool; dp_pooling : llama_pooling_type; dp_logits_all : bool;
  dp_causal_attn : bool;       (** [cparams.causal_attn] *)
  dp_causal_model : bool;      (** [hparams.causal_attn] *)
  dp_mrope : bool; dp_hybrid : bool; dp_qwen4exp : bool; dp_all_rows : bool;
  dp_rope : bool; dp_can_shift : bool; dp_flash_attn : bool; dp_max_moves : Z;
  dp_embd_token : Z }.

(** ** Micro-batches *)

(** The scan of the sequences of a micro-batch for models with recurrent layers:
    can it be decided, do tokens differ, is a sequence repeated? *)
Fixpoint hybrid_scan (seqs : list (list Z)) (first : option Z) (seen : gset Z) (any_diff has_dup : bool)
    : bool * bool * bool :=
  match seqs with
  | [] => (true, any_diff, has_dup)
  | [] :: _ => (false, any_diff, has_dup)
  | (s :: _) :: seqs' =>
    hybrid_scan seqs' (Some (default s first)) (seen ∪ {[s]})
      (any_diff || negb (bool_decide (default s first = s)))
      (has_dup || bool_decide (s ∈ seen))
  end.

(** The first token of another sequence, from index [i] on. *)
Fixpoint same_seq_prefix (seqs : list (list Z)) (first : Z) (i n : nat) : nat :=
  match seqs with
  | [] => n
  | [] :: _ => i
  | (s :: _) :: seqs' => if bool_decide (s = first) then same_seq_prefix seqs' first (S i) n else i
  end.

(** The number of tokens of the micro-batch at [cur]. *)
Definition ubatch_size (dp : dec_params) (b : user_batch) (cur : nat) : nat :=
  let n := Nat.min (dp_n_ubatch dp) (ub_n_tokens b - cur) in
  let n :=
    match ub_seq_id b with
    | Some seqs =>
      if dp_hybrid dp && bool_decide (1 < n)%nat then
        let '(can_check, any_diff, has_dup) := hybrid_scan (take n (drop cur seqs)) None ∅ false false in
        if can_check && any_diff && has_dup then 1%nat else n
      else n
    | None => n
    end in
  match ub_seq_id b with
  | Some seqs =>
    if dp_qwen4exp dp && bool_decide (1 < n)%nat then
      match seqs !! cur with
      | Some (s :: _) => same_seq_prefix (take (n - 1) (drop (S cur) seqs)) s 1 n
      | _ => n
      end
    else n
  | None => n
  end.

(** The positions of a micro-batch: one section, or four for M-RoPE. *)
Definition ubatch_pos (dp : dec_params) (b : user_batch) (cur n : nat) : res (list Z) :=
  match ub_pos b with
  | None =>
    let p0 := i32 (ub_all_pos_0 b + i32 (Z.of_nat cur * ub_all_pos_1 b)) in
    let ps := (λ i, i32 (p0 + i32 (Z.of_nat i * ub_all_pos_1 b))) <$> seq 0 n in
    Ok (if dp_mrope dp then ps ++ ps ++ ps ++ replicate n 0 else ps)
  | Some pos =>
    if negb (dp_mrope dp) then Ok (drop cur pos)
    else
      t ← mapM (λ i, at_ pos (cur + i)) (seq 0 n);
      match ub_token b with
      | Some _ => Ok (t ++ t ++ t ++ replicate n 0)
      | None =>
        h ← mapM (λ i, at_ pos (ub_n_tokens b + cur + i)) (seq 0 n);
        w ← mapM (λ i, at_ pos (2 * ub_n_tokens b + cur + i)) (seq 0 n);
        e ← mapM (λ i, at_ pos (3 * ub_n_tokens b + cur + i)) (seq 0 n);
        Ok (t ++ h ++ w ++ e)
      end
  end.

Definition make_ubatch (dp : dec_params) (b : user_batch) (cur n : nat) : res llama_batch :=
  pos ← ubatch_pos dp b cur n;
  Ok (Batch (drop cur <$> ub_token b) pos
       match ub_seq_id b with
       | Some seqs => take n (drop cur seqs)
       | None => replicate n [ub_all_seq_id b]
       end).

(** ** The buffers of the outputs

    [A] is a row of logits, [E] a row of embeddings.  A row is [None] before it is
    written; the capacity of the buffer is in bytes. *)
Record out_ctx (A E : Type) := OutCtx {
  oc_output_ids : list Z;
  oc_buf : option Z;
  oc_logits : option (list (option A));
  oc_embd : option (list (option E));
  oc_output_size : Z; oc_logits_size : Z; oc_embd_size : Z;
  oc_n_outputs : Z; oc_n_outputs_embd : Z;
  oc_embd_seq : gmap Z E }.
Arguments OutCtx {A E}.
Arguments oc_output_ids {A E}. Arguments oc_buf {A E}. Arguments oc_logits {A E}. Arguments oc_embd {A E}.
Arguments oc_output_size {A E}. Arguments oc_logits_size {A E}. Arguments oc_embd_size {A E}.
Arguments oc_n_outputs {A E}. Arguments oc_n_outputs_embd {A E}. Arguments oc_embd_seq {A E}.

(** Pooled embeddings: the flags of the batch are ignored and all tokens are outputs. *)
Definition embd_pooled (dp : dec_params) : bool :=
  dp_embeddings dp && negb (bool_decide (dp_pooling dp = PoolingNone)).

Definition count_flags (flags : list Z) : nat := length (filter (λ f, f ≠ 0) flags).

Definition count_outputs (dp : dec_params) (b : user_batch) : nat :=
  match ub_logits b with
  | Some flags =>
    if negb (embd_pooled dp) then count_flags (take (ub_n_tokens b) flags)
    else ub_n_tokens b
  | None => if dp_logits_all dp || embd_pooled dp then ub_n_tokens b else 1
  end.

Section outputs.
Context {A E : Type}.

Definition with_ids (c : out_ctx A E) (ids : list Z) : out_ctx A E :=
  OutCtx ids (oc_buf c) (oc_logits c) (oc_embd c) (oc_output_size c) (oc_logits_size c) (oc_embd_size c)
    (oc_n_outputs c) (oc_n_outputs_embd c) (oc_embd_seq c).
Definition with_n_outputs (c : out_ctx A E) (n n_embd : Z) : out_ctx A E :=
  OutCtx (oc_output_ids c) (oc_buf c) (oc_logits c) (oc_embd c) (oc_output_size c) (oc_logits_size c) (oc_embd_size c)
    n n_embd (oc_embd_seq c).
Definition with_rows (c : out_ctx A E) (logits : option (list (option A))) (embd : option (list (option E)))
    (embd_seq : gmap Z E) : out_ctx A E :=
  OutCtx (oc_output_ids c) (oc_buf c) logits embd (oc_output_size c) (oc_logits_size c) (oc_embd_size c)
    (oc_n_outputs c) (oc_n_outputs_embd c) embd_seq.

(** [llama_output_reserve]: [alloc] tells whether a buffer of that size can be had.
    0 is returned when it cannot, and the context is then without buffer. *)
Definition llama_output_reserve (dp : dec_params) (alloc : Z → bool) (c : out_ctx A E) (n_outputs : Z)
    : Z * out_ctx A E :=
  let n_outputs_max := Z.max n_outputs (dp_n_seq_max dp) in
  let has_logits := negb (dp_embeddings dp) in
  let has_embd := dp_embeddings dp && bool_decide (dp_pooling dp = PoolingNone) in
  let logits_size := if has_logits then u64 (dp_n_vocab dp * n_outputs_max) else 0 in
  let embd_size := if has_embd then u64 (dp_n_embd dp * n_outputs_max) else 0 in
  let ids := if bool_decide (oc_output_ids c = []) then replicate (dp_n_batch dp) 0 else oc_output_ids c in
  let new_size := u64 (u64 (logits_size + embd_size) * 4) in
  let buf := match oc_buf c with
             | Some prev_size => if bool_decide (prev_size < new_size) then None else Some prev_size
             | None => None
             end in
  match (match buf with Some size => Some size | None => if alloc new_size then Some new_size else None end) with
  | None =>
    let freed := bool_decide (is_Some (oc_buf c)) in
    (0, OutCtx ids None (if freed then None else oc_logits c) (if freed then None else oc_embd c)
          (oc_output_size c) (oc_logits_size c) (oc_embd_size c) (oc_n_outputs c) (oc_n_outputs_embd c) (oc_embd_seq c))
  | Some size =>
    (n_outputs_max,
     OutCtx (replicate (length ids) (-1)) (Some size)
       (if has_logits then Some (replicate (Z.to_nat n_outputs_max) None) else None)
       (if has_embd then Some (replicate (Z.to_nat n_outputs_max) None) else None)
       n_outputs_max logits_size embd_size 0 (oc_n_outputs_embd c) (oc_embd_seq c))
  end.

(** The mapping of tokens to rows, by the flags. *)
Fixpoint map_flags (flags : list Z) (i : nat) (i_logits : Z) (ids : list Z) : res (list Z) :=
  match flags with
  | [] => Ok ids
  | f :: flags' =>
    if bool_decide (f ≠ 0) then
      ids ← put ids i i_logits;
      map_flags flags' (S i) (i_logits + 1) ids
    else
      ids ← put ids i (-1);
      map_flags flags' (S i) i_logits ids
  end.

Fixpoint put_range (n i : nat) (f : nat → Z) (ids : list Z) : res (list Z) :=
  match n with
  | O => Ok ids
  | S n' => ids ← put ids i (f i); put_range n' (S i) f ids
  end.

Definition map_outputs (b : user_batch) (n_outputs : nat) (ids : list Z) : res (list Z) :=
  match ub_logits b with
  | Some flags => map_flags (take (ub_n_tokens b) flags) 0 0 ids
  | None =>
    if bool_decide (n_outputs = 1)%nat && bool_decide (0 < ub_n_tokens b)%nat then
      ids ← put_range (ub_n_tokens b) 0 (λ _, -1) ids;
      put ids (ub_n_tokens b - 1) 0
    else put_range n_outputs 0 Z.of_nat ids
  end.

(** The outputs of the micro-batch of [n] tokens at [cur]. *)
Definition ubatch_outputs (dp : dec_params) (b : user_batch) (n_outputs cur n : nat) : nat :=
  match ub_logits b with
  | Some flags =>
    if negb (embd_pooled dp) then count_flags (take n (drop cur flags))
    else if bool_decide (n_outputs = ub_n_tokens b)%nat then n
    else if bool_decide (ub_n_tokens b ≤ cur + n)%nat then 1 else 0
  | None =>
    if bool_decide (n_outputs = ub_n_tokens b)%nat then n
    else if bool_decide (ub_n_tokens b ≤ cur + n)%nat then 1 else 0
  end.

(** The tokens whose flag is set. *)
Fixpoint flagged (flags : list Z) (i : nat) : list nat :=
  match flags with
  | [] => []
  | f :: flags' => if bool_decide (f ≠ 0) then i :: flagged flags' (S i) else flagged flags' (S i)
  end.

(** [inp_out_ids] of [llama_set_inputs]: the tokens whose rows the graph keeps. *)
Definition out_ids (b : user_batch) (n_new cur n : nat) : res (list nat) :=
  if bool_decide (n_new = n)%nat then Ok (seq 0 n)
  else match ub_logits b with
  | Some flags =>
    let ids := flagged (take n (drop cur flags)) 0 in
    _ ← ggml_assert (bool_decide (n_new = length ids)%nat);
    Ok ids
  | None =>
    if bool_decide (n_new = 1)%nat then Ok [(n - 1)%nat]
    else
      _ ← ggml_assert (bool_decide (n_new = 0)%nat);
      Ok []
  end.

(** Copying rows [src], [src + 1], … of a result to rows [dst], … of a buffer. *)
Fixpoint copy_result {R} (n : nat) (rows : list R) (src : nat) (buf : list (option R)) (dst : nat)
    : res (list (option R)) :=
  match n with
  | O => Ok buf
  | S n' =>
    r ← at_ rows src;
    buf ← put buf dst (Some r);
    copy_result n' rows (S src) buf (S dst)
  end.

Fixpoint copy_flagged {R} (ids : list nat) (rows : list R) (buf : list (option R)) (dst : nat)
    : res (list (option R)) :=
  match ids with
  | [] => Ok buf
  | i :: ids' =>
    r ← at_ rows i;
    buf ← put buf dst (Some r);
    copy_flagged ids' rows buf (S dst)
  end.

(** Copying [n] floats of a result to offset [off] of a buffer with rows of [w]
    floats.  A row that is not written as a whole is lost. *)
Fixpoint spoil {R} (n : nat) (buf : list (option R)) (dst : nat) : res (list (option R)) :=
  match n with
  | O => Ok buf
  | S n' => buf ← put buf dst None; spoil n' buf (S dst)
  end.

Definition copy_floats {R} (w off n : Z) (rows : list R) (buf : list (option R)) : res (list (option R)) :=
  if bool_decide (n = 0) then Ok buf
  else
    let dst := Z.to_nat (off / w) in
    if bool_decide (off mod w = 0) then
      buf ← copy_result (Z.to_nat (n / w)) rows 0 buf dst;
      if bool_decide (n mod w = 0) then Ok buf else spoil 1 buf (dst + Z.to_nat (n / w))
    else spoil (Z.to_nat ((off + n - 1) / w - off / w + 1)) buf dst.

(** ** The graph

    [eval] is the row of logits of a token, [eval_embd] its row of embeddings and
    [eval_pooled] the rows of pooled embeddings by sequence; [skips] tells whether
    the graph of a micro-batch keeps only the rows of [inp_out_ids].  [alloc] is the
    allocator, [frag] the measure of fragmentation against its threshold, [stop]
    whether decoding is stopped from outside after the micro-batch at an index. *)
Context (dp : dec_params)
  (eval : llama_kv_cache → llama_batch → nat → A)
  (eval_embd : llama_kv_cache → llama_batch → nat → E)
  (eval_pooled : llama_kv_cache → llama_batch → list E)
  (skips : llama_batch → nat → bool)
  (alloc : Z → bool) (frag : llama_kv_cache → bool) (stop : nat → bool).

(** The tokens of the rows of the result; [set_inputs] checks that a graph that can
    skip rows does. *)
Definition result_tokens (b : user_batch) (ub : llama_batch) (n_new cur n : nat) : res (list nat) :=
  if dp_causal_model dp || bool_decide (dp_pooling dp = PoolingNone) then
    _ ← ggml_assert (negb (bool_decide (1 < n)%nat && bool_decide (n_new < n)%nat && negb (dp_all_rows dp)) || skips ub n_new);
    if skips ub n_new then out_ids b n_new cur n else Ok (seq 0 n)
  else if skips ub n_new then Err Oob (* [inp_out_ids] is never set *)
  else Ok (seq 0 n).

(** The extraction of the logits. *)
Definition extract_logits (b : user_batch) (rows : list A) (n_outputs n_prev n_new cur n : nat) (c : out_ctx A E)
    : res (out_ctx A E) :=
  match oc_logits c with
  | None => Err Abort
  | Some buf =>
    if bool_decide (n_new = 0)%nat then Ok c
    else
      _ ← ggml_assert (bool_decide (n_prev + n_new ≤ n_outputs)%nat);
      _ ← ggml_assert (bool_decide (Z.of_nat (n_prev + n_new) * dp_n_vocab dp ≤ oc_logits_size c));
      buf ← (if bool_decide (length rows = n)%nat && bool_decide (n_new < n)%nat then
        match ub_logits b with
        | Some flags =>
          if negb (embd_pooled dp) then copy_flagged (flagged (take n (drop cur flags)) 0) rows buf n_prev
          else if bool_decide (ub_n_tokens b ≤ cur + n)%nat then copy_result 1 rows (n - 1) buf n_prev else Ok buf
        | None => if bool_decide (ub_n_tokens b ≤ cur + n)%nat then copy_result 1 rows (n - 1) buf n_prev else Ok buf
        end
      else copy_result n_new rows 0 buf n_prev);
      mret (with_rows c (Some buf) (oc_embd c) (oc_embd_seq c))
  end.

(** One embedding for every sequence of the micro-batch. *)
Fixpoint pooled_rows (toks : list (list Z)) (rows : list E) (m : gmap Z E) : res (gmap Z E) :=
  match toks with
  | [] => Ok m
  | seqs :: toks' =>
    seq_id ← at_ seqs 0;
    match m !! seq_id with
    | Some _ => pooled_rows toks' rows m
    | None =>
      r ← (if bool_decide (0 ≤ seq_id) then at_ rows (Z.to_nat seq_id) else Err Oob);
      pooled_rows toks' rows (<[seq_id := r]> m)
    end
  end.

(** The width of a row of embeddings is an [uint32_t], and so are the products with
    it; for logits the width is an [int64_t]. *)
Definition extract_embeddings (ub : llama_batch) (rows : list E) (pooled : list E) (n_outputs n_prev n_new : nat)
    (c : out_ctx A E) : res (out_ctx A E) :=
  match dp_pooling dp with
  | PoolingNone =>
    match oc_embd c with
    | None => Err Abort
    | Some buf =>
      if bool_decide (n_new = 0)%nat then Ok c
      else
        _ ← ggml_assert (bool_decide (n_prev + n_new ≤ n_outputs)%nat);
        _ ← ggml_assert (bool_decide (u32 (Z.of_nat (n_prev + n_new) * dp_n_embd dp) ≤ oc_embd_size c));
        buf ← copy_floats (dp_n_embd dp) (u32 (Z.of_nat n_prev * dp_n_embd dp)) (u32 (Z.of_nat n_new * dp_n_embd dp)) rows buf;
        mret (with_rows c (oc_logits c) (Some buf) (oc_embd_seq c))
    end
  | PoolingMean | PoolingCls | PoolingLast =>
    m ← pooled_rows (b_seq_id ub) pooled ∅;
    mret (with_rows c (oc_logits c) (oc_embd c) m)
  | PoolingUnspecified => Err Abort
  end.

(** ** The loop over the micro-batches *)

(** The steps on the cache before the graph; a model that cannot be causal has none. *)
Definition prepare_cache (kv : llama_kv_cache) (ub : llama_batch) : res (Z * llama_kv_cache) :=
  if dp_causal_model dp
  then decode_prepare (dp_rope dp) (dp_can_shift dp) (dp_flash_attn dp) (dp_max_moves dp) kv ub (dp_embd_token dp)
  else Ok (0, kv).

(** Reading the results of one micro-batch. *)
Definition extract (b : user_batch) (ub : llama_batch) (kv : llama_kv_cache) (n_outputs n_prev n_new cur n : nat)
    (c : out_ctx A E) : res (out_ctx A E) :=
  toks ← result_tokens b ub n_new cur n;
  if bool_decide (n_new = 0)%nat then Ok c
  else if dp_embeddings dp
  then extract_embeddings ub (eval_embd kv ub <$> toks) (eval_pooled kv ub) n_outputs n_prev n_new c
  else extract_logits b (eval kv ub <$> toks) n_outputs n_prev n_new cur n c.

Fixpoint decode_loop (fuel : nat) (b : user_batch) (n_outputs cur n_prev : nat) (kv : llama_kv_cache)
    (c : out_ctx A E) : res (Z * llama_kv_cache * out_ctx A E) :=
  match fuel with
  | O => Err NoFuel
  | S fuel' =>
    if bool_decide (cur < ub_n_tokens b)%nat then
      let n := ubatch_size dp b cur in
      ub ← make_ubatch dp b cur n;
      let n_new := ubatch_outputs dp b n_outputs cur n in
      let c := with_n_outputs c (Z.of_nat n_new) (oc_n_outputs_embd c) in
      '(ret, kv) ← prepare_cache kv ub;
      if negb (bool_decide (ret = 0)) then Ok (ret, kv, c)
      else
        c ← extract b ub kv n_outputs n_prev n_new cur n c;
        kv ← decode_advance kv n;
        if stop cur then Ok (-3, kv, c)
        else decode_loop fuel' b n_outputs (cur + n) (n_prev + n_new) kv c
    else Ok (0, kv, c)
  end.

Definition llama_decode_internal (b : user_batch) (kv : llama_kv_cache) (c : out_ctx A E)
    : res (Z * llama_kv_cache * out_ctx A E) :=
  if bool_decide (ub_n_tokens b = 0)%nat then Ok (-1, kv, c)
  else
    _ ← ggml_assert (negb (bool_decide (is_Some (ub_token b))) && ub_embd b ||
                     bool_decide (is_Some (ub_token b)) && negb (ub_embd b));
    _ ← ggml_assert (bool_decide (ub_n_tokens b ≤ dp_n_batch dp)%nat);
    _ ← ggml_assert (dp_causal_attn dp || bool_decide (ub_n_tokens b ≤ dp_n_ubatch dp)%nat);
    let n_outputs := count_outputs dp b in
    let '(reserved, c) := llama_output_reserve dp alloc c (Z.of_nat n_outputs) in
    if bool_decide (reserved < Z.of_nat n_outputs) then Ok (-2, kv, c)
    else
      ids ← map_outputs b n_outputs (oc_output_ids c);
      '(ret, kv, c) ← decode_loop (S (ub_n_tokens b)) b n_outputs 0 0 kv (with_ids c ids);
      if negb (bool_decide (ret = 0)) then Ok (ret, kv, c)
      else
        let c := with_n_outputs c (Z.of_nat n_outputs) (Z.of_nat n_outputs) in
        mret (0, if dp_causal_attn dp && frag kv then llama_kv_cache_defrag kv else kv, c).
End outputs.

(** ** Reading outputs

    [NULL] (here [None]) is returned for a token without output; the reason is only
    logged.  In a build with assertions the program stops instead.  Otherwise the
    result is a pointer into the buffer, here the row that starts there ([None] when
    no whole row does). *)
Definition output_row {A E} (c : out_ctx A E) (n_outputs i : Z) : option Z :=
  let j := if bool_decide (i < 0) then Some (n_outputs + i)
           else oc_output_ids c !! Z.to_nat i in
  match j with
  | None => None
  | Some j => if bool_decide (j < 0) || bool_decide (n_outputs ≤ j) then None else Some j
  end.

(** The row at offset [off] of a buffer with rows of [w] floats. *)
Definition row_at {R} (w off : Z) (buf : list (option R)) : option R :=
  if bool_decide (off mod w = 0) then mjoin (buf !! Z.to_nat (off / w)) else None.

(** [j*ctx->model.hparams.n_vocab] is a product of 32 bits. *)
Definition llama_get_logits_ith {A E} (dp : dec_params) (c : out_ctx A E) (i : Z) : option (option A) :=
  match oc_logits c with
  | None => None
  | Some buf =>
    j ← output_row c (oc_n_outputs c) i;
    Some (row_at (dp_n_vocab dp) (u32 (j * dp_n_vocab dp)) buf)
  end.

(** [(size_t) j * llama_output_embd_width( *ctx)] is one of 64 bits. *)
Definition llama_get_embeddings_ith {A E} (dp : dec_params) (c : out_ctx A E) (i : Z) : option (option E) :=
  match oc_embd c with
  | None => None
  | Some buf =>
    j ← output_row c (oc_n_outputs_embd c) i;
    Some (row_at (dp_n_embd dp) (u64 (j * dp_n_embd dp)) buf)
  end.

Definition llama_get_embeddings_seq {A E} (c : out_ctx A E) (seq_id : Z) : option E := oc_embd_seq c !! seq_id.
