(* ===== verification/OutputsSpec.v ===== *)
(** * Which rows a caller gets

    Decoding a batch gives every token that asked for an output the row that its
    graph computed, wherever the batch was cut, and gives the others none. *)
From S2P Require Import Prelude KvCache KvLemmas KvSpec Outputs.

(** ** The tokens with outputs *)

Definition requested (dp : dec_params) (b : user_batch) (i : nat) : bool :=
  match ub_logits b with
  | Some flags => bool_decide (default 0 (flags !! i) ≠ 0)
  | None => dp_logits_all dp || bool_decide (S i = ub_n_tokens b)
  end.

(** Those among the [n] tokens from [a] on. *)
Definition asked (dp : dec_params) (b : user_batch) (a n : nat) : list nat :=
  filter (λ i, requested dp b i = true) (seq a n).

Lemma asked_app dp b a n m : asked dp b a (n + m) = asked dp b a n ++ asked dp b (a + n) m.
Proof. unfold asked. by rewrite seq_app, filter_app. Qed.

Lemma asked_S dp b a n :
  asked dp b a (S n) = if requested dp b a then a :: asked dp b (S a) n else asked dp b (S a) n.
Proof. unfold asked. cbn [seq]. rewrite filter_cons. destruct (requested dp b a); by rewrite ?decide_True, ?decide_False by done. Qed.

Lemma asked_le dp b a n : (length (asked dp b a n) ≤ n)%nat.
Proof. unfold asked. etrans; [apply length_filter|]. by rewrite length_seq. Qed.

Lemma elem_of_asked dp b a n i : i ∈ asked dp b a n ↔ requested dp b i = true ∧ (a ≤ i < a + n)%nat.
Proof. unfold asked. by rewrite list_elem_of_filter, elem_of_seq. Qed.

(** The rank of a token among those with outputs. *)
Lemma asked_rank dp b a n i : (a ≤ i < a + n)%nat → requested dp b i = true →
  asked dp b a n !! length (asked dp b a (i - a)) = Some i.
Proof.
  intros Hi Hr. replace n with ((i - a) + (1 + (n - (i - a) - 1)))%nat at 1 by lia.
  rewrite !asked_app, lookup_app_r by done. rewrite Nat.sub_diag. replace (a + (i - a))%nat with i by lia.
  rewrite (asked_S dp b i 0), Hr. done.
Qed.

Lemma filter_length_all {A} (P : A → Prop) `{!∀ x, Decision (P x)} (l : list A) :
  length (filter P l) = length l → filter P l = l.
Proof.
  induction l as [|x l IH]; [done|]. rewrite filter_cons. case_decide; cbn.
  - intros [= H1]. by rewrite IH.
  - pose proof (length_filter P l). lia.
Qed.

Lemma asked_true dp b a n : (∀ i, (a ≤ i < a + n)%nat → requested dp b i = true) → asked dp b a n = seq a n.
Proof.
  induction n as [|n IH] in a |- *; intros Hr; [done|]. rewrite asked_S, Hr by lia. cbn. f_equal. apply IH.
  intros i Hi. apply Hr. lia.
Qed.

Lemma asked_false dp b a n : (∀ i, (a ≤ i < a + n)%nat → requested dp b i = false) → asked dp b a n = [].
Proof.
  induction n as [|n IH] in a |- *; intros Hr; [done|]. rewrite asked_S, Hr by lia. apply IH.
  intros i Hi. apply Hr. lia.
Qed.

(** ** Counting *)

Definition flags_ok (b : user_batch) : Prop := ∀ flags, ub_logits b = Some flags → length flags = ub_n_tokens b.

Lemma flagged_asked dp b flags a n k : ub_logits b = Some flags → (a + n ≤ length flags)%nat →
  flagged (take n (drop a flags)) k = (λ i, k + (i - a))%nat <$> asked dp b a n.
Proof.
  intros Hf. induction n as [|n IH] in a, k |- *; intros Hn; [done|]. rewrite asked_S.
  destruct (lookup_lt_is_Some_2 flags a) as [f Ha]; [lia|]. rewrite (drop_S _ _ _ Ha). cbn [take flagged].
  assert (requested dp b a = bool_decide (f ≠ 0)) as -> by (unfold requested; by rewrite Hf, Ha).
  rewrite (IH (S a) (S k)) by lia.
  assert ((λ i, (S k + (i - S a))%nat) <$> asked dp b (S a) n = (λ i, (k + (i - a))%nat) <$> asked dp b (S a) n) as ->.
  { apply list_fmap_ext. intros _ i Hi%list_elem_of_lookup_2. apply elem_of_asked in Hi as [_ Hi]. lia. }
  case_bool_decide; [|done]. cbn. f_equal. lia.
Qed.

Lemma count_flags_asked dp b flags a n : ub_logits b = Some flags → (a + n ≤ length flags)%nat →
  count_flags (take n (drop a flags)) = length (asked dp b a n).
Proof.
  intros Hf Hn. rewrite <- (length_fmap (λ i, (0 + (i - a))%nat)), <- (flagged_asked dp b flags a n 0 Hf Hn).
  unfold count_flags. generalize (take n (drop a flags)). intros l. generalize 0%nat.
  induction l as [|f l IH]; intros k; [done|]. rewrite filter_cons. cbn [flagged].
  case_decide; case_bool_decide; try done; cbn; by rewrite (IH (S k)).
Qed.

Section counting.
Context (dp : dec_params) (b : user_batch).
Context (Hflags : flags_ok b) (Hpool : embd_pooled dp = false).

Lemma count_outputs_asked : (0 < ub_n_tokens b)%nat → count_outputs dp b = length (asked dp b 0 (ub_n_tokens b)).
Proof using Hflags Hpool.
  intros Hn. unfold count_outputs. rewrite Hpool. destruct (ub_logits b) as [flags|] eqn:Ef; cbn [negb].
  - rewrite <- (drop_0 flags). apply count_flags_asked; [done|]. rewrite (Hflags _ Ef). lia.
  - rewrite orb_false_r. destruct (dp_logits_all dp) eqn:Ea.
    + rewrite asked_true; [by rewrite length_seq|]. intros i _. unfold requested. by rewrite Ef, Ea.
    + replace (ub_n_tokens b) with ((ub_n_tokens b - 1) + 1)%nat by lia. rewrite asked_app, asked_false.
      * cbn [app]. rewrite asked_true; [done|]. intros i Hi. unfold requested. rewrite Ef, Ea.
        by rewrite bool_decide_true by lia.
      * intros i Hi. unfold requested. rewrite Ef, Ea. by rewrite bool_decide_false by lia.
Qed.

Lemma ubatch_outputs_asked cur n : (cur + n ≤ ub_n_tokens b)%nat → (0 < n)%nat →
  ubatch_outputs dp b (count_outputs dp b) cur n = length (asked dp b cur n).
Proof using Hflags Hpool.
  intros Hn Hn0. unfold ubatch_outputs, count_outputs. rewrite Hpool. destruct (ub_logits b) as [flags|] eqn:Ef; cbn [negb].
  - apply count_flags_asked; [done|]. rewrite (Hflags _ Ef). lia.
  - rewrite orb_false_r. destruct (dp_logits_all dp) eqn:Ea.
    + rewrite bool_decide_true by done. rewrite asked_true; [by rewrite length_seq|].
      intros i _. unfold requested. by rewrite Ef, Ea.
    + case_bool_decide as H1.
      * assert (cur = 0 ∧ n = 1)%nat as [-> ->] by lia. rewrite asked_true; [done|].
        intros i Hi. unfold requested. rewrite Ef, Ea. by rewrite bool_decide_true by lia.
      * case_bool_decide as H2.
        -- replace n with ((n - 1) + 1)%nat by lia. rewrite asked_app, asked_false.
           ++ cbn [app]. rewrite asked_true; [done|]. intros i Hi. unfold requested. rewrite Ef, Ea.
              by rewrite bool_decide_true by lia.
           ++ intros i Hi. unfold requested. rewrite Ef, Ea. by rewrite bool_decide_false by lia.
        -- rewrite asked_false; [done|]. intros i Hi. unfold requested. rewrite Ef, Ea.
           by rewrite bool_decide_false by lia.
Qed.

(** The tokens whose rows the graph keeps are those that ask. *)
Lemma out_ids_asked cur n : (cur + n ≤ ub_n_tokens b)%nat → (0 < n)%nat →
  out_ids b (length (asked dp b cur n)) cur n = Ok ((λ i, i - cur)%nat <$> asked dp b cur n).
Proof using Hflags.
  intros Hn Hn0. unfold out_ids. case_bool_decide as H1.
  { f_equal. assert (asked dp b cur n = seq cur n) as ->.
    - apply filter_length_all. by rewrite length_seq.
    - apply list_eq. intros i. rewrite list_lookup_fmap. destruct (decide (i < n)%nat).
      + rewrite !lookup_seq_lt by done. cbn. f_equal. lia.
      + rewrite !lookup_seq_ge by lia. done. }
  destruct (ub_logits b) as [flags|] eqn:Ef.
  - rewrite (flagged_asked dp b flags cur n 0 Ef) by (rewrite (Hflags _ Ef); lia).
    rewrite length_fmap, bool_decide_true by done. done.
  - destruct (dp_logits_all dp) eqn:Ea.
    { destruct H1. rewrite asked_true; [by rewrite length_seq|]. intros i _. unfold requested. by rewrite Ef, Ea. }
    destruct (decide (cur + n = ub_n_tokens b)%nat) as [He|He].
    + replace n with ((n - 1) + 1)%nat by lia. rewrite asked_app, asked_false.
      * cbn [app]. rewrite asked_true; [cbn; rewrite bool_decide_true by done; do 2 f_equal; lia|]. intros i Hi. unfold requested. rewrite Ef, Ea.
        by rewrite bool_decide_true by lia.
      * intros i Hi. unfold requested. rewrite Ef, Ea. by rewrite bool_decide_false by lia.
    + rewrite asked_false; [done|]. intros i Hi. unfold requested. rewrite Ef, Ea.
      by rewrite bool_decide_false by lia.
Qed.
End counting.

(** ** Micro-batches *)

Lemma same_seq_prefix_range seqs first i n : (1 ≤ i ≤ n)%nat → (i + length seqs ≤ n)%nat →
  (1 ≤ same_seq_prefix seqs first i n ≤ n)%nat.
Proof.
  induction seqs as [|[|s seqs0] seqs IH] in i |- *; intros Hi Hl; cbn in *; [lia..|].
  case_bool_decide; [apply IH; lia|lia].
Qed.

(** Every micro-batch has at least one token and ends within the batch. *)
Lemma ubatch_size_range dp b cur : (0 < dp_n_ubatch dp)%nat → (cur < ub_n_tokens b)%nat →
  (0 < ubatch_size dp b cur ∧ cur + ubatch_size dp b cur ≤ ub_n_tokens b ∧ ubatch_size dp b cur ≤ dp_n_ubatch dp)%nat.
Proof.
  intros Hu Hc. unfold ubatch_size. set (n0 := Nat.min _ _).
  assert (0 < n0 ∧ cur + n0 ≤ ub_n_tokens b ∧ n0 ≤ dp_n_ubatch dp)%nat as Hn0 by (subst n0; lia).
  destruct (ub_seq_id b) as [seqs|]; [|done].
  set (n1 := if dp_hybrid dp && _ then _ else n0).
  assert (0 < n1 ≤ n0)%nat as Hn1.
  { subst n1. destruct (dp_hybrid dp && _); [|lia]. destruct (hybrid_scan _ _ _ _ _) as [[??]?].
    destruct (_ && _ && _); lia. }
  destruct (dp_qwen4exp dp && bool_decide (1 < n1)%nat) eqn:Eq; [|lia].
  apply andb_true_iff in Eq as [_ Hn%bool_decide_eq_true].
  destruct (seqs !! cur) as [[|s l]|]; [lia| |lia].
  pose proof (same_seq_prefix_range (take (n1 - 1) (drop (S cur) seqs)) s 1 n1) as Hp.
  rewrite length_take in Hp. specialize (Hp ltac:(lia) ltac:(lia)). lia.
Qed.

(** ** Copying rows *)

Lemma copy_result_spec {R} n (rows : list R) src buf dst :
  (src + n ≤ length rows)%nat → (dst + n ≤ length buf)%nat →
  copy_result n rows src buf dst = Ok (list_inserts dst (Some <$> take n (drop src rows)) buf).
Proof.
  induction n as [|n IH] in src, buf, dst |- *; intros Hs Hd; [done|]. cbn [copy_result].
  destruct (at_lt rows src) as (r & -> & Hr); [lia|]. cbn [mbind res_bind]. rewrite put_lt by lia. cbn [mbind res_bind].
  rewrite IH; [|lia|rewrite length_insert; lia]. rewrite (drop_S _ _ _ Hr). cbn [take fmap list_fmap list_inserts].
  by rewrite list_insert_inserts_lt by lia.
Qed.

Lemma copy_flagged_spec {R} (ids : list nat) (rows xs : list R) buf dst :
  Forall2 (λ i x, rows !! i = Some x) ids xs → (dst + length ids ≤ length buf)%nat →
  copy_flagged ids rows buf dst = Ok (list_inserts dst (Some <$> xs) buf).
Proof.
  induction 1 as [|i x ids xs Hi _ IH] in buf, dst |- *; intros Hd; [done|]. cbn in Hd. cbn [copy_flagged].
  unfold at_. rewrite Hi. cbn [mbind res_bind]. rewrite put_lt by lia. cbn [mbind res_bind].
  rewrite IH by (rewrite length_insert; lia). cbn [fmap list_fmap list_inserts].
  by rewrite list_insert_inserts_lt by lia.
Qed.

(** ** One micro-batch *)

Section outputs_spec.
Context {A E : Type} (dp : dec_params)
  (eval : llama_kv_cache → llama_batch → nat → A)
  (eval_embd : llama_kv_cache → llama_batch → nat → E)
  (eval_pooled : llama_kv_cache → llama_batch → list E)
  (skips : llama_batch → nat → bool)
  (alloc : Z → bool) (frag : llama_kv_cache → bool) (stop : nat → bool).
Context (b : user_batch).

(** The mode of logits, and a graph that skips rows where it must. *)
Context (Hlogits : dp_embeddings dp = false) (Hmodel : dp_causal_model dp = true ∨ dp_pooling dp = PoolingNone).
Context (Hskips : ∀ ub n_new, (1 < n_tokens ub)%nat → (n_new < n_tokens ub)%nat → dp_all_rows dp = false →
  skips ub n_new = true).
(** The arrays of the batch have their lengths. *)
Context (Hflags : flags_ok b) (Hseqs : ∀ seqs, ub_seq_id b = Some seqs → length seqs = ub_n_tokens b).

Lemma not_pooled : embd_pooled dp = false.
Proof using Hlogits. unfold embd_pooled. by rewrite Hlogits. Qed.

Lemma make_ubatch_tokens cur n ub : (cur + n ≤ ub_n_tokens b)%nat → make_ubatch dp b cur n = Ok ub → n_tokens ub = n.
Proof using Hseqs.
  intros Hn. unfold make_ubatch. intros (pos & _ & [= <-])%bind_Ok. unfold n_tokens. cbn.
  destruct (ub_seq_id b) as [seqs|]; [|apply length_replicate].
  rewrite length_take, length_drop, (Hseqs _ eq_refl). lia.
Qed.

(** The rows of the tokens that ask. *)
Definition new_rows (kv : llama_kv_cache) (ub : llama_batch) (cur n : nat) : list A :=
  (λ i, eval kv ub (i - cur)) <$> asked dp b cur n.

(** Both ways of copying store these rows. *)
Lemma copy_rows_asked kv ub cur n n_prev (buf : list (option A)) toks :
  (0 < n)%nat → (cur + n ≤ ub_n_tokens b)%nat → (0 < length (asked dp b cur n))%nat →
  (n_prev + length (asked dp b cur n) ≤ length buf)%nat →
  toks = ((λ i, i - cur)%nat <$> asked dp b cur n) ∨ toks = seq 0 n →
  (if bool_decide (length (eval kv ub <$> toks) = n)%nat && bool_decide (length (asked dp b cur n) < n)%nat then
     match ub_logits b with
     | Some flags =>
       if negb (embd_pooled dp) then copy_flagged (flagged (take n (drop cur flags)) 0) (eval kv ub <$> toks) buf n_prev
       else if bool_decide (ub_n_tokens b ≤ cur + n)%nat then copy_result 1 (eval kv ub <$> toks) (n - 1) buf n_prev else Ok buf
     | None => if bool_decide (ub_n_tokens b ≤ cur + n)%nat then copy_result 1 (eval kv ub <$> toks) (n - 1) buf n_prev else Ok buf
     end
   else copy_result (length (asked dp b cur n)) (eval kv ub <$> toks) 0 buf n_prev) =
  Ok (list_inserts n_prev (Some <$> new_rows kv ub cur n) buf).
Proof using Hlogits Hflags.
  intros Hn0 Hn Hpos Hlen Htoks. pose proof (asked_le dp b cur n) as Hle. rewrite not_pooled. cbn [negb].
  assert (toks = ((λ i, i - cur)%nat <$> asked dp b cur n) →
    copy_result (length (asked dp b cur n)) (eval kv ub <$> toks) 0 buf n_prev =
    Ok (list_inserts n_prev (Some <$> new_rows kv ub cur n) buf)) as Hsel.
  { intros ->. rewrite <- list_fmap_compose. rewrite copy_result_spec by (rewrite ?length_fmap; lia).
    rewrite drop_0. rewrite take_ge by (rewrite length_fmap; lia). done. }
  bdec (length (asked dp b cur n) < n)%nat as Hlt.
  - rewrite andb_true_r. destruct Htoks as [Ht|Ht].
    { rewrite bool_decide_false; [by apply Hsel|]. rewrite Ht, !length_fmap. lia. }
    subst toks. rewrite bool_decide_true by (by rewrite length_fmap, length_seq).
    destruct (ub_logits b) as [flags|] eqn:Ef.
    + rewrite (flagged_asked dp b flags cur n 0 Ef) by (rewrite (Hflags _ Ef); lia).
      apply copy_flagged_spec; [|by rewrite length_fmap]. unfold new_rows.
      rewrite Forall2_fmap. apply Forall_Forall2_diag. apply Forall_forall. intros i [_ Hi]%elem_of_asked.
      rewrite list_lookup_fmap, lookup_seq_lt by lia. done.
    + destruct (dp_logits_all dp) eqn:Ea.
      { exfalso. rewrite asked_true in Hlt; [rewrite length_seq in Hlt; lia|].
        intros i _. unfold requested. by rewrite Ef, Ea. }
      assert (cur + n = ub_n_tokens b)%nat as He.
      { destruct (decide (cur + n = ub_n_tokens b)%nat); [done|exfalso]. rewrite asked_false in Hpos; [cbn in Hpos; lia|].
        intros i Hi. unfold requested. rewrite Ef, Ea. by rewrite bool_decide_false by lia. }
      rewrite bool_decide_true by lia.
      rewrite copy_result_spec; [|rewrite length_fmap, length_seq; lia|lia].
      assert (asked dp b cur n = [(cur + (n - 1))%nat]) as Ha.
      { replace n with ((n - 1) + 1)%nat at 1 by lia. rewrite asked_app, asked_false, asked_true; [done|..].
        - intros i Hi. unfold requested. rewrite Ef, Ea. by rewrite bool_decide_true by lia.
        - intros i Hi. unfold requested. rewrite Ef, Ea. by rewrite bool_decide_false by lia. }
      unfold new_rows. rewrite Ha. cbn [fmap list_fmap]. do 2 f_equal.
      rewrite <- fmap_drop, <- fmap_take. replace n with ((n - 1) + 1)%nat at 2 by lia.
      rewrite seq_app, drop_app_length' by (by rewrite length_seq). cbn.
      by replace (cur + (n - 1) - cur)%nat with (n - 1)%nat by lia.
  - rewrite andb_false_r. destruct Htoks as [Ht| ->]; [by apply Hsel|].
    apply Hsel. assert (asked dp b cur n = seq cur n) as ->.
    { apply filter_length_all. fold (asked dp b cur n). rewrite length_seq. lia. }
    apply list_eq. intros i. rewrite list_lookup_fmap. destruct (decide (i < n)%nat).
    + rewrite !lookup_seq_lt by done. cbn. f_equal. lia.
    + rewrite !lookup_seq_ge by lia. done.
Qed.

(** The graph gives the rows of the tokens that ask, or all rows. *)
Lemma result_tokens_spec ub cur n : n_tokens ub = n → (0 < n)%nat → (cur + n ≤ ub_n_tokens b)%nat →
  ∃ toks, result_tokens dp skips b ub (length (asked dp b cur n)) cur n = Ok toks ∧
    (toks = (λ i, i - cur)%nat <$> asked dp b cur n ∨ toks = seq 0 n).
Proof using Hmodel Hskips Hflags.
  intros Hub Hn0 Hn. unfold result_tokens.
  assert (dp_causal_model dp || bool_decide (dp_pooling dp = PoolingNone) = true) as ->.
  { destruct Hmodel as [->| ->]; [done|]. by rewrite bool_decide_true, orb_true_r. }
  set (n_new := length (asked dp b cur n)) in *.
  assert (negb (bool_decide (1 < n)%nat && bool_decide (n_new < n)%nat && negb (dp_all_rows dp)) || skips ub n_new = true) as ->.
  { destruct (bool_decide (1 < n)%nat) eqn:H1; [|done]. destruct (bool_decide (n_new < n)%nat) eqn:H2; [|done].
    destruct (dp_all_rows dp) eqn:H3; [done|]. apply bool_decide_eq_true in H1, H2. cbn. apply Hskips; (done || lia). }
  cbn [ggml_assert mbind res_bind]. destruct (skips ub n_new); [|by eexists; split; [|right]].
  eexists. split; [by apply (out_ids_asked dp b Hflags)|by left].
Qed.

Lemma extract_none kv ub cur n n_outputs n_prev (c : out_ctx A E) :
  n_tokens ub = n → (0 < n)%nat → (cur + n ≤ ub_n_tokens b)%nat → asked dp b cur n = [] →
  extract dp eval eval_embd eval_pooled skips b ub kv n_outputs n_prev (length (asked dp b cur n)) cur n c = Ok c.
Proof using Hmodel Hskips Hflags.
  intros Hub Hn0 Hn Ha. unfold extract. destruct (result_tokens_spec ub cur n Hub Hn0 Hn) as (toks & -> & _).
  cbn [mbind res_bind]. by rewrite Ha, bool_decide_true.
Qed.

Lemma extract_spec kv ub cur n n_prev buf (c : out_ctx A E) :
  n_tokens ub = n → (0 < n)%nat → (cur + n ≤ ub_n_tokens b)%nat → oc_logits c = Some buf →
  (n_prev + length (asked dp b cur n) ≤ count_outputs dp b)%nat → (count_outputs dp b ≤ length buf)%nat →
  Z.of_nat (count_outputs dp b) * dp_n_vocab dp ≤ oc_logits_size c → 0 ≤ dp_n_vocab dp →
  extract dp eval eval_embd eval_pooled skips b ub kv (count_outputs dp b) n_prev (length (asked dp b cur n)) cur n c =
  Ok (with_rows c (Some (list_inserts n_prev (Some <$> new_rows kv ub cur n) buf)) (oc_embd c) (oc_embd_seq c)).
Proof using Hlogits Hmodel Hskips Hflags.
  intros Hub Hn0 Hn Hbuf Hout Hlen Hsize Hvoc. pose proof (asked_le dp b cur n) as Hle.
  unfold extract. destruct (result_tokens_spec ub cur n Hub Hn0 Hn) as (toks & -> & Htoks).
  set (n_new := length (asked dp b cur n)) in *.
  cbn [mbind res_bind]. rewrite Hlogits. bdec (n_new = 0)%nat as H0.
  { unfold new_rows. rewrite (nil_length_inv _ H0). cbn. rewrite <- Hbuf. by destruct c. }
  unfold extract_logits. rewrite Hbuf, (bool_decide_false (n_new = 0)%nat) by done.
  assert (Z.of_nat (n_prev + n_new) * dp_n_vocab dp ≤ oc_logits_size c).
  { etrans; [|exact Hsize]. apply Z.mul_le_mono_nonneg_r; lia. }
  rewrite (bool_decide_true (n_prev + n_new ≤ _)%nat), (bool_decide_true (_ ≤ oc_logits_size c)) by done.
  cbn [ggml_assert mbind res_bind]. subst n_new.
  rewrite (copy_rows_asked kv ub cur n n_prev buf toks) by (done || lia). done.
Qed.
(** ** The reference: all rows

    The same loop without outputs: it returns the rows of all tokens in order. *)
Fixpoint all_rows (fuel cur : nat) (kv : llama_kv_cache) : res (Z * llama_kv_cache * list A) :=
  match fuel with
  | O => Err NoFuel
  | S fuel' =>
    if bool_decide (cur < ub_n_tokens b)%nat then
      let n := ubatch_size dp b cur in
      ub ← make_ubatch dp b cur n;
      '(ret, kv) ← prepare_cache dp kv ub;
      if negb (bool_decide (ret = 0)) then Ok (ret, kv, [])
      else
        let rows := eval kv ub <$> seq 0 n in
        kv ← decode_advance kv n;
        if stop cur then Ok (-3, kv, rows)
        else
          '(ret, kv, rest) ← all_rows fuel' (cur + n) kv;
          mret (ret, kv, rows ++ rest)
    else Ok (0, kv, [])
  end.

(** What the loop leaves in the buffer, from [n_prev] outputs on. *)
Record gathered (cur n_prev : nat) (buf' : list (option A)) (rows : list A) : Prop := {
  ga_len : length rows = (ub_n_tokens b - cur)%nat;
  ga_rows : ∀ k i, asked dp b cur (ub_n_tokens b - cur) !! k = Some i →
    buf' !! (n_prev + k)%nat = Some (rows !! (i - cur)%nat) }.

Lemma gathered_step cur n n_prev kv ub buf buf' rest : (cur + n ≤ ub_n_tokens b)%nat →
  (n_prev + length (asked dp b cur n) ≤ length buf)%nat →
  (∀ k, (k < n_prev + length (asked dp b cur n))%nat →
     buf' !! k = list_inserts n_prev (Some <$> new_rows kv ub cur n) buf !! k) →
  gathered (cur + n) (n_prev + length (asked dp b cur n)) buf' rest →
  gathered cur n_prev buf' ((eval kv ub <$> seq 0 n) ++ rest).
Proof.
  intros Hn Hlen Hold [Hl Hr]. split; [rewrite length_app, length_fmap, length_seq; lia|].
  intros k i Hk. replace (ub_n_tokens b - cur)%nat with (n + (ub_n_tokens b - (cur + n)))%nat in Hk by lia.
  rewrite asked_app in Hk. apply lookup_app_Some in Hk as [Hk|[Hk1 Hk]].
  - pose proof (lookup_lt_Some _ _ _ Hk) as Hlt. rewrite Hold by lia.
    rewrite list_lookup_inserts by (rewrite ?length_fmap; unfold new_rows; rewrite ?length_fmap; lia).
    replace (n_prev + k - n_prev)%nat with k by lia. unfold new_rows. rewrite !list_lookup_fmap, Hk. cbn.
    apply list_elem_of_lookup_2, elem_of_asked in Hk as [_ Hi].
    rewrite lookup_app_l by (rewrite length_fmap, length_seq; lia).
    rewrite list_lookup_fmap, lookup_seq_lt by lia. done.
  - specialize (Hr _ _ Hk). apply list_elem_of_lookup_2, elem_of_asked in Hk as [_ Hi].
    replace (n_prev + length (asked dp b cur n) + (k - length (asked dp b cur n)))%nat with (n_prev + k)%nat in Hr by lia.
    rewrite Hr, lookup_app_r by (rewrite length_fmap, length_seq; lia). rewrite length_fmap, length_seq. do 2 f_equal. lia.
Qed.

(** The capacities and the embeddings are as before. *)
Definition same_caps (c c' : out_ctx A E) : Prop :=
  oc_output_size c' = oc_output_size c ∧ oc_logits_size c' = oc_logits_size c ∧
  oc_embd c' = oc_embd c ∧ oc_embd_size c' = oc_embd_size c.

Lemma decode_loop_spec fuel cur n_prev kv (c : out_ctx A E) buf ret kv' rows :
  (0 < dp_n_ubatch dp)%nat → 0 ≤ dp_n_vocab dp → (cur ≤ ub_n_tokens b)%nat → (0 < ub_n_tokens b)%nat →
  n_prev = length (asked dp b 0 cur) → oc_logits c = Some buf → (count_outputs dp b ≤ length buf)%nat →
  Z.of_nat (count_outputs dp b) * dp_n_vocab dp ≤ oc_logits_size c →
  all_rows fuel cur kv = Ok (ret, kv', rows) →
  ∃ c' buf', decode_loop dp eval eval_embd eval_pooled skips stop fuel b (count_outputs dp b) cur n_prev kv c = Ok (ret, kv', c') ∧
    oc_logits c' = Some buf' ∧ oc_output_ids c' = oc_output_ids c ∧ length buf' = length buf ∧
    (∀ k, (k < n_prev)%nat → buf' !! k = buf !! k) ∧ (ret = 0 → gathered cur n_prev buf' rows) ∧ same_caps c c'.
Proof using Hlogits Hmodel Hskips Hflags Hseqs.
  intros Hu Hvoc. induction fuel as [|fuel IH] in cur, n_prev, kv, c, buf, ret, kv', rows |- *;
    intros Hcur Hpos Hprev Hbuf Hlen Hsize Hall; [done|].
  cbn [all_rows] in Hall. cbn [decode_loop]. bdec (cur < ub_n_tokens b)%nat as Hlt.
  2: { injection Hall as <- <- <-. exists c, buf. repeat (split; [done|]). split; [|done]. intros _.
       assert (cur = ub_n_tokens b) as -> by lia. split; rewrite Nat.sub_diag; [done|]. by intros k i Hk. }
  destruct (ubatch_size_range dp b cur Hu Hlt) as (Hn0 & Hn & _). set (n := ubatch_size dp b cur) in *.
  destruct (make_ubatch dp b cur n) as [ub|] eqn:Eub; [|done]. cbn [mbind res_bind] in Hall |- *.
  pose proof (make_ubatch_tokens cur n ub Hn Eub) as Htok.
  rewrite (ubatch_outputs_asked dp b Hflags not_pooled cur n Hn Hn0).
  destruct (prepare_cache dp kv ub) as [[ret1 kv1]|]; [|done]. cbn [mbind res_bind] in Hall |- *.
  destruct (negb (bool_decide (ret1 = 0))) eqn:Er.
  { injection Hall as <- <- <-. do 2 eexists. repeat (split; [done|]). split; [|done].
    intros ->. by rewrite bool_decide_true in Er. }
  assert (n_prev + length (asked dp b cur n) ≤ count_outputs dp b)%nat as Hout.
  { rewrite (count_outputs_asked dp b Hflags not_pooled Hpos), Hprev.
    replace (ub_n_tokens b) with (cur + (n + (ub_n_tokens b - cur - n)))%nat by lia.
    rewrite !asked_app, !length_app. cbn. lia. }
  rewrite (extract_spec kv1 ub cur n n_prev buf) by done. cbn [mbind res_bind].
  destruct (decode_advance kv1 n) as [kv2|]; [|done]. cbn [mbind res_bind] in Hall |- *.
  set (buf1 := list_inserts _ _ buf). assert (length buf1 = length buf) as Hl1 by apply length_inserts.
  assert (∀ k, (k < n_prev)%nat → buf1 !! k = buf !! k) as Hold by (intros; by apply list_lookup_inserts_lt).
  destruct (stop cur).
  { injection Hall as <- <- <-. do 2 eexists. split; [done|]. split_and!; try done. }
  destruct (all_rows fuel (cur + n) kv2) as [[[ret2 kv3] rest]|] eqn:Erest; [|done].
  injection Hall as <- <- <-.
  set (c1 := with_rows _ _ _ _).
  destruct (IH (cur + n)%nat (n_prev + length (asked dp b cur n))%nat kv2 c1 buf1 ret2 kv3 rest)
    as (c' & buf' & -> & Hb' & Hids & Hl' & Hk' & Hg & Hcaps); try done; try lia.
  { rewrite asked_app, length_app, Hprev. done. }
  exists c', buf'. split; [done|]. split; [done|]. split; [done|]. split; [lia|]. split; [|split; [|done]].
  - intros k Hk. rewrite Hk' by lia. by apply Hold.
  - intros H0. apply (gathered_step cur n n_prev kv1 ub buf); [done|lia|done|by apply Hg].
Qed.
(** Without outputs the loop does not touch the buffers. *)
Lemma decode_loop_none fuel cur kv (c : out_ctx A E) ret kv' rows :
  (0 < dp_n_ubatch dp)%nat → (cur ≤ ub_n_tokens b)%nat → count_outputs dp b = 0%nat → (0 < ub_n_tokens b)%nat →
  all_rows fuel cur kv = Ok (ret, kv', rows) →
  ∃ c', decode_loop dp eval eval_embd eval_pooled skips stop fuel b (count_outputs dp b) cur 0 kv c = Ok (ret, kv', c').
Proof using Hlogits Hmodel Hskips Hflags Hseqs.
  intros Hu Hcur Hnone Hpos. rewrite (count_outputs_asked dp b Hflags not_pooled Hpos) in Hnone.
  induction fuel as [|fuel IH] in cur, Hcur, kv, c, ret, kv', rows |- *; intros Hall; [done|].
  cbn [all_rows] in Hall. cbn [decode_loop]. bdec (cur < ub_n_tokens b)%nat as Hlt.
  2: { injection Hall as <- <- <-. by eexists. }
  destruct (ubatch_size_range dp b cur Hu Hlt) as (Hn0 & Hn & _). set (n := ubatch_size dp b cur) in *.
  destruct (make_ubatch dp b cur n) as [ub|] eqn:Eub; [|done]. cbn [mbind res_bind] in Hall |- *.
  pose proof (make_ubatch_tokens cur n ub Hn Eub) as Htok.
  rewrite (ubatch_outputs_asked dp b Hflags not_pooled cur n Hn Hn0).
  assert (asked dp b cur n = []) as Ha.
  { apply nil_length_inv. replace (ub_n_tokens b) with (cur + (n + (ub_n_tokens b - cur - n)))%nat in Hnone by lia.
    rewrite !asked_app, !length_app in Hnone. cbn in Hnone. lia. }
  destruct (prepare_cache dp kv ub) as [[ret1 kv1]|]; [|done]. cbn [mbind res_bind] in Hall |- *.
  destruct (negb (bool_decide (ret1 = 0))); [injection Hall as <- <- <-; by eexists|].
  rewrite (extract_none kv1 ub cur n) by done. cbn [mbind res_bind].
  destruct (decode_advance kv1 n) as [kv2|]; [|done]. cbn [mbind res_bind] in Hall |- *.
  destruct (stop cur); [injection Hall as <- <- <-; by eexists|].
  destruct (all_rows fuel (cur + n) kv2) as [[[ret2 kv3] rest]|] eqn:Erest; [|done].
  injection Hall as <- <- <-. rewrite Ha. cbn [length Nat.add]. by apply (IH _ _ _ _ _ rest).
Qed.

(** ** The mapping of tokens to rows *)

Definition row_id (i : nat) : Z := if requested dp b i then Z.of_nat (length (asked dp b 0 i)) else -1.

(** The ids from [a] to [e] are set, the others are as before. *)
Definition ids_set (a e : nat) (f : nat → Z) (ids ids' : list Z) : Prop :=
  length ids' = length ids ∧ ∀ i, ids' !! i = if decide (a ≤ i < e)%nat then Some (f i) else ids !! i.

Lemma ids_set_nil a f ids : ids_set a a f ids ids.
Proof. split; [done|]. intros i. by rewrite decide_False by lia. Qed.

Lemma ids_set_cons a e f ids ids' : (a < e)%nat → (a < length ids)%nat →
  ids_set (S a) e f (<[a := f a]> ids) ids' → ids_set a e f ids ids'.
Proof.
  intros Hae Hl [Hlen Hi]. rewrite length_insert in Hlen. split; [done|]. intros i. rewrite Hi.
  destruct (decide (i = a)) as [->|].
  - rewrite decide_False by lia. rewrite decide_True by lia. by apply list_lookup_insert_eq.
  - rewrite list_lookup_insert_ne by done. do 2 case_decide; (done || lia).
Qed.

Lemma put_range_spec n a f ids : (a + n ≤ length ids)%nat →
  ∃ ids', put_range n a f ids = Ok ids' ∧ ids_set a (a + n) f ids ids'.
Proof.
  induction n as [|n IH] in a, ids |- *; intros Hl.
  - exists ids. split; [done|]. rewrite Nat.add_0_r. apply ids_set_nil.
  - cbn [put_range]. rewrite put_lt by lia. cbn [mbind res_bind].
    destruct (IH (S a) (<[a := f a]> ids)) as (ids' & -> & Hs); [rewrite length_insert; lia|].
    exists ids'. split; [done|]. apply ids_set_cons; [lia..|]. by rewrite Nat.add_succ_r.
Qed.

Lemma map_flags_spec flags n a ids : ub_logits b = Some flags → (a + n = length flags)%nat → (a + n ≤ length ids)%nat →
  ∃ ids', map_flags (drop a flags) a (Z.of_nat (length (asked dp b 0 a))) ids = Ok ids' ∧ ids_set a (a + n) row_id ids ids'.
Proof.
  intros Hf. induction n as [|n IH] in a, ids |- *; intros Ha Hl.
  - exists ids. rewrite drop_ge by lia. split; [done|]. rewrite Nat.add_0_r. apply ids_set_nil.
  - destruct (lookup_lt_is_Some_2 flags a) as [f Hfa]; [lia|]. rewrite (drop_S _ _ _ Hfa). cbn [map_flags].
    assert (requested dp b a = bool_decide (f ≠ 0)) as Hr by (unfold requested; by rewrite Hf, Hfa).
    assert (Z.of_nat (length (asked dp b 0 (S a))) =
      if requested dp b a then Z.of_nat (length (asked dp b 0 a)) + 1 else Z.of_nat (length (asked dp b 0 a))) as Hnext.
    { replace (S a) with (a + 1)%nat by lia. rewrite asked_app, asked_S. cbn [Nat.add].
      destruct (requested dp b a); rewrite length_app; cbn; lia. }
    rewrite !put_lt by lia. cbn [mbind res_bind].
    destruct (IH (S a) (<[a := row_id a]> ids)) as (ids' & He & Hs); [lia|rewrite length_insert; lia|].
    exists ids'. split; [|apply ids_set_cons; [lia..|]; by rewrite Nat.add_succ_r].
    rewrite Hnext in He. unfold row_id in He at 1. by rewrite <- Hr; destruct (requested dp b a).
Qed.

Lemma map_outputs_spec ids : (0 < ub_n_tokens b)%nat → (ub_n_tokens b ≤ length ids)%nat →
  ∃ ids', map_outputs b (count_outputs dp b) ids = Ok ids' ∧ ids_set 0 (ub_n_tokens b) row_id ids ids'.
Proof using Hflags Hlogits.
  intros Hpos Hl. unfold map_outputs. destruct (ub_logits b) as [flags|] eqn:Ef.
  { rewrite <- (Hflags _ Ef), firstn_all. destruct (map_flags_spec flags (length flags) 0 ids Ef) as (ids' & He & Hs);
      [done|rewrite (Hflags _ Ef); lia|]. by exists ids'. }
  assert (count_outputs dp b = if dp_logits_all dp then ub_n_tokens b else 1%nat) as Hc.
  { unfold count_outputs. rewrite Ef, not_pooled, orb_false_r. done. }
  rewrite Hc. destruct (decide (ub_n_tokens b = 1)%nat) as [H1|H1].
  { assert ((if dp_logits_all dp then ub_n_tokens b else 1) = 1)%nat as -> by (rewrite H1; by destruct (dp_logits_all dp)).
    rewrite (bool_decide_true (1 = 1)%nat), H1 by done. rewrite (bool_decide_true (0 < 1)%nat) by lia. cbn [andb put_range].
    rewrite put_lt by lia. cbn [mbind res_bind]. rewrite put_lt by (rewrite length_insert; lia).
    eexists. split; [done|]. cbn. rewrite list_insert_insert_eq. apply ids_set_cons; [lia..|].
    assert (row_id 0 = 0) as ->. { unfold row_id, requested. rewrite Ef, bool_decide_true, orb_true_r by lia. done. }
    apply ids_set_nil. }
  destruct (dp_logits_all dp) eqn:Ea.
  - rewrite bool_decide_false by done. cbn [andb].
    destruct (put_range_spec (ub_n_tokens b) 0 Z.of_nat ids) as (ids' & -> & Hlen & Hs); [lia|].
    exists ids'. split; [done|]. split; [done|]. intros i. rewrite Hs. cbn [Nat.add].
    case_decide; [|done]. f_equal.
    unfold row_id. assert (∀ i, requested dp b i = true) as Hr by (intros; unfold requested; by rewrite Ef, Ea).
    rewrite Hr, asked_true by auto. by rewrite length_seq.
  - rewrite (bool_decide_true (1 = 1)%nat), (bool_decide_true (0 < ub_n_tokens b)%nat) by done. cbn [andb].
    destruct (put_range_spec (ub_n_tokens b) 0 (λ _, -1) ids) as (ids1 & -> & Hlen & Hs); [lia|]. cbn [mbind res_bind].
    rewrite put_lt by lia. eexists. split; [done|]. split; [by rewrite length_insert|]. intros i.
    assert (∀ i, requested dp b i = bool_decide (S i = ub_n_tokens b)) as Hr by (intros; unfold requested; by rewrite Ef, Ea).
    destruct (decide (i = ub_n_tokens b - 1)%nat) as [->|Hi].
    + rewrite list_lookup_insert_eq, decide_True by lia. unfold row_id. rewrite Hr, bool_decide_true by lia.
      rewrite asked_false; [done|]. intros k Hk. rewrite Hr. by apply bool_decide_false; lia.
    + rewrite list_lookup_insert_ne, Hs by done. cbn [Nat.add]. case_decide; [|done]. unfold row_id. by rewrite Hr, bool_decide_false by lia.
Qed.

(** ** Reading *)

(** The offset of a row is exact as long as the products fit 32 bits. *)
Lemma row_at_row {R} (w : Z) (j n : nat) (buf : list (option R)) : 0 < w → w * Z.of_nat n ≤ 2 ^ 32 → (j < n)%nat →
  row_at w (u32 (Z.of_nat j * w)) buf = mjoin (buf !! j).
Proof.
  intros Hw Hn Hj. unfold row_at. rewrite u32_small by nia.
  by rewrite Z.mod_mul, Z.div_mul, bool_decide_true, Nat2Z.id by (done || lia).
Qed.

Lemma asked_rank0 i : (i < ub_n_tokens b)%nat → requested dp b i = true →
  asked dp b 0 (ub_n_tokens b) !! length (asked dp b 0 i) = Some i.
Proof.
  intros Hi Hr. pose proof (asked_rank dp b 0 (ub_n_tokens b) i ltac:(lia) Hr) as Ha. by rewrite Nat.sub_0_r in Ha.
Qed.

Lemma get_logits_gathered (c' : out_ctx A E) buf' rows ids0 : (0 < ub_n_tokens b)%nat →
  oc_logits c' = Some buf' → gathered 0 0 buf' rows →
  oc_n_outputs c' = Z.of_nat (count_outputs dp b) → ids_set 0 (ub_n_tokens b) row_id ids0 (oc_output_ids c') →
  (∀ i x, ids0 !! i = Some x → x = -1) →
  0 < dp_n_vocab dp → dp_n_vocab dp * Z.of_nat (count_outputs dp b) ≤ 2 ^ 32 →
  (∀ i, llama_get_logits_ith dp c' (Z.of_nat i) =
     if decide (i < ub_n_tokens b ∧ requested dp b i = true)%nat then Some (rows !! i) else None) ∧
  (∀ k, 0 < k → llama_get_logits_ith dp c' (- k) =
     if decide (k ≤ Z.of_nat (count_outputs dp b))
     then (λ i, rows !! i) <$> asked dp b 0 (ub_n_tokens b) !! (count_outputs dp b - Z.to_nat k)%nat else None).
Proof using Hflags Hlogits.
  intros Hpos Hbuf [_ Hg] Hno [_ Hids] Hminus Hw H32. rewrite Nat.sub_0_r in Hg.
  pose proof (count_outputs_asked dp b Hflags not_pooled Hpos) as Hcount.
  assert (∀ k i, asked dp b 0 (ub_n_tokens b) !! k = Some i →
    row_at (dp_n_vocab dp) (u32 (Z.of_nat k * dp_n_vocab dp)) buf' = rows !! i) as Hrow.
  { intros k i Hk. pose proof (lookup_lt_Some _ _ _ Hk) as Hlt. rewrite <- Hcount in Hlt.
    rewrite (row_at_row _ k (count_outputs dp b)) by done.
    specialize (Hg k i Hk). rewrite Nat.sub_0_r in Hg. cbn in Hg. by rewrite Hg. }
  unfold llama_get_logits_ith, output_row. rewrite Hbuf, Hno. split.
  - intros i. rewrite bool_decide_false by lia. rewrite Nat2Z.id, Hids.
    destruct (decide (0 ≤ i < ub_n_tokens b)%nat) as [Hi|Hi].
    + unfold row_id. destruct (requested dp b i) eqn:Er.
      * rewrite decide_True by (split; [lia|done]). pose proof (asked_rank0 i ltac:(lia) Er) as Ha.
        pose proof (lookup_lt_Some _ _ _ Ha). rewrite !bool_decide_false by lia. cbn. f_equal. by apply Hrow.
      * rewrite decide_False by (intros [_ ?]; done). done.
    + rewrite decide_False by lia. destruct (ids0 !! i) as [x|] eqn:Ex; [|done]. by rewrite (Hminus i x Ex).
  - intros k Hk. rewrite bool_decide_true by lia.
    case_decide as Hle.
    + rewrite !bool_decide_false by lia. cbn. replace (Z.of_nat (count_outputs dp b) + - k) with (Z.of_nat (count_outputs dp b - Z.to_nat k)) by lia.
      destruct (lookup_lt_is_Some_2 (asked dp b 0 (ub_n_tokens b)) (count_outputs dp b - Z.to_nat k)) as [i Hi]; [lia|].
      rewrite Hi. cbn. f_equal. by apply Hrow.
    + by rewrite (bool_decide_true (_ + - k < 0)) by lia.
Qed.
End outputs_spec.

(** ** Decoding *)

(** A context whose table of ids is not there yet or has its length, and a batch
    whose outputs fit the types. *)
Record outputs_ok {A E} (dp : dec_params) (b : user_batch) (c : out_ctx A E) : Prop := {
  oo_ids : oc_output_ids c = [] ∨ length (oc_output_ids c) = dp_n_batch dp;
  oo_kind : bool_decide (is_Some (ub_token b)) = negb (ub_embd b);
  oo_pos : (0 < ub_n_tokens b ≤ dp_n_batch dp)%nat;
  oo_causal : dp_causal_attn dp = true ∨ (ub_n_tokens b ≤ dp_n_ubatch dp)%nat;
  oo_ubatch : (0 < dp_n_ubatch dp)%nat;
  oo_vocab : 0 ≤ dp_n_vocab dp;
  oo_size : dp_n_vocab dp * Z.max (Z.of_nat (ub_n_tokens b)) (dp_n_seq_max dp) < 2 ^ 61 }.

(** A reservation that succeeds: empty rows for all outputs, and no id. *)
Lemma output_reserve_spec {A E} (dp : dec_params) (b : user_batch) (c : out_ctx A E) alloc n :
  dp_embeddings dp = false → outputs_ok dp b c → (∀ z, alloc z = true) → 0 ≤ n ≤ Z.of_nat (ub_n_tokens b) →
  ∃ c', llama_output_reserve dp alloc c n = (Z.max n (dp_n_seq_max dp), c') ∧
    oc_logits c' = Some (replicate (Z.to_nat (Z.max n (dp_n_seq_max dp))) None) ∧
    oc_output_ids c' = replicate (dp_n_batch dp) (-1) ∧
    oc_logits_size c' = dp_n_vocab dp * Z.max n (dp_n_seq_max dp) ∧
    oc_output_size c' = Z.max n (dp_n_seq_max dp) ∧ oc_embd c' = None ∧ oc_embd_size c' = 0.
Proof.
  intros Hlog [] Halloc Hn. unfold llama_output_reserve. rewrite Hlog. cbn [negb andb].
  assert (0 ≤ dp_n_vocab dp * Z.max n (dp_n_seq_max dp) < 2 ^ 61) as Hv.
  { split; [apply Z.mul_nonneg_nonneg; lia|]. eapply Z.le_lt_trans; [|exact oo_size0]. apply Z.mul_le_mono_nonneg_l; lia. }
  rewrite (u64_small (dp_n_vocab dp * _)) by lia. rewrite Halloc.
  assert (length (if bool_decide (oc_output_ids c = []) then replicate (dp_n_batch dp) 0 else oc_output_ids c) = dp_n_batch dp) as ->.
  { clear oo_kind0. case_bool_decide; [apply length_replicate|]. by destruct oo_ids0. }
  destruct (match oc_buf c with Some prev_size => if bool_decide (prev_size < _) then None else Some prev_size | None => None end);
    by eexists.
Qed.

(** What a batch that was decoded leaves. *)
Record decoded {A E} (dp : dec_params) (b : user_batch) (rows : list A) (c : out_ctx A E) : Prop := {
  de_ids : ids_set 0 (ub_n_tokens b) (row_id dp b) (replicate (dp_n_batch dp) (-1)) (oc_output_ids c);
  de_n : oc_n_outputs c = Z.of_nat (count_outputs dp b);
  de_n_embd : oc_n_outputs_embd c = Z.of_nat (count_outputs dp b);
  de_rows : ∃ buf, oc_logits c = Some buf ∧ gathered dp b 0 0 buf rows;
  de_caps : oc_output_size c = Z.max (Z.of_nat (count_outputs dp b)) (dp_n_seq_max dp) ∧
    oc_logits_size c = dp_n_vocab dp * Z.max (Z.of_nat (count_outputs dp b)) (dp_n_seq_max dp) ∧
    oc_embd c = None ∧ oc_embd_size c = 0 }.

(** What decoding returns, given what the reference loop over all rows returns. *)
Lemma decode_internal_spec {A E} (dp : dec_params) (eval : llama_kv_cache → llama_batch → nat → A)
    (eval_embd : llama_kv_cache → llama_batch → nat → E) (eval_pooled : llama_kv_cache → llama_batch → list E)
    skips alloc frag stop b kv (c : out_ctx A E) ret kv' rows :
  dp_embeddings dp = false → (dp_causal_model dp = true ∨ dp_pooling dp = PoolingNone) →
  (∀ ub n_new, (1 < n_tokens ub)%nat → (n_new < n_tokens ub)%nat → dp_all_rows dp = false → skips ub n_new = true) →
  (∀ z, alloc z = true) → flags_ok b → (∀ seqs, ub_seq_id b = Some seqs → length seqs = ub_n_tokens b) →
  outputs_ok dp b c →
  all_rows dp eval stop b (S (ub_n_tokens b)) 0 kv = Ok (ret, kv', rows) →
  ∃ kv'' c', llama_decode_internal dp eval eval_embd eval_pooled skips alloc frag stop b kv c = Ok (ret, kv'', c') ∧
    (kv'' = kv' ∨ kv'' = llama_kv_cache_defrag kv') ∧ (ret = 0 → decoded dp b rows c').
Proof.
  intros Hlog Hmodel Hskips Halloc Hflags Hseqs Hok Hall. pose proof (not_pooled dp Hlog) as Hpool. pose proof Hok as [].
  pose proof (count_outputs_asked dp b Hflags Hpool ltac:(lia)) as Hcount.
  pose proof (asked_le dp b 0 (ub_n_tokens b)) as Hle. rewrite <- Hcount in *.
  unfold llama_decode_internal. rewrite (bool_decide_false (ub_n_tokens b = 0)%nat) by lia. rewrite oo_kind0.
  assert (negb (negb (ub_embd b)) && ub_embd b || negb (ub_embd b) && negb (ub_embd b) = true) as -> by (by destruct (ub_embd b)).
  rewrite (bool_decide_true (ub_n_tokens b ≤ dp_n_batch dp)%nat) by lia.
  assert (dp_causal_attn dp || bool_decide (ub_n_tokens b ≤ dp_n_ubatch dp)%nat = true) as ->.
  { destruct oo_causal0 as [->|?]; [done|]. by rewrite bool_decide_true, orb_true_r. }
  cbn [ggml_assert mbind res_bind].
  destruct (output_reserve_spec dp b c alloc (Z.of_nat (count_outputs dp b)) Hlog Hok Halloc ltac:(lia)) as (c1 & -> & Hbuf & Hids & Hls & Hos & Heb & Hes).
  rewrite bool_decide_false by lia. rewrite Hids.
  destruct (map_outputs_spec dp b Hlog Hflags (replicate (dp_n_batch dp) (-1))) as (ids & -> & Hset); [lia|rewrite length_replicate; lia|].
  cbn [mbind res_bind].
  destruct (decode_loop_spec dp eval eval_embd eval_pooled skips stop b Hlog Hmodel Hskips Hflags Hseqs (S (ub_n_tokens b)) 0 0 kv
    (with_ids c1 ids) (replicate (Z.to_nat (Z.max (Z.of_nat (count_outputs dp b)) (dp_n_seq_max dp))) None) ret kv' rows)
    as (c2 & buf' & -> & Hb2 & Hi2 & _ & _ & Hg & Hcaps); try done; try lia.
  { rewrite length_replicate. lia. }
  { cbn. rewrite Hls, Z.mul_comm. apply Z.mul_le_mono_nonneg_l; lia. }
  cbn [mbind res_bind]. bdec (ret = 0) as Hr; cbn [negb].
  2: { do 2 eexists. split; [done|]. split; [by left|done]. }
  subst ret. do 2 eexists. split; [done|]. split.
  { destruct (dp_causal_attn dp && frag kv'); [by right|by left]. }
  intros _. destruct Hcaps as (Hc1 & Hc2 & Hc3 & Hc4). cbn in Hc1, Hc2, Hc3, Hc4. split; cbn; try done.
  - by rewrite Hi2.
  - exists buf'. split; [done|]. by apply Hg.
  - split_and!; congruence.
Qed.

(** The rows that are found then. *)
Lemma decoded_lookups {A E} (dp : dec_params) (b : user_batch) rows (c : out_ctx A E) : dp_embeddings dp = false → flags_ok b →
  (0 < ub_n_tokens b)%nat → 0 < dp_n_vocab dp → dp_n_vocab dp * Z.of_nat (count_outputs dp b) ≤ 2 ^ 32 →
  decoded dp b rows c → length rows = ub_n_tokens b ∧
  (∀ i, llama_get_logits_ith dp c (Z.of_nat i) =
     if decide (i < ub_n_tokens b ∧ requested dp b i = true)%nat then Some (rows !! i) else None) ∧
  (∀ k, 0 < k → llama_get_logits_ith dp c (- k) =
     if decide (k ≤ Z.of_nat (length (asked dp b 0 (ub_n_tokens b))))
     then (λ i, rows !! i) <$> asked dp b 0 (ub_n_tokens b) !! (length (asked dp b 0 (ub_n_tokens b)) - Z.to_nat k)%nat
     else None).
Proof.
  intros Hlog Hflags Hpos Hw H32 [Hids Hn _ (buf & Hbuf & Hg) _]. split; [rewrite (ga_len _ _ _ _ _ _ Hg); lia|].
  rewrite <- (count_outputs_asked dp b Hflags (not_pooled dp Hlog) Hpos).
  apply (get_logits_gathered dp b Hlog Hflags c buf rows (replicate (dp_n_batch dp) (-1))); try done. by intros i x [-> _]%lookup_replicate.
Qed.

Lemma defrag_cells kv : kv_cells (llama_kv_cache_defrag kv) = kv_cells kv.
Proof. unfold llama_kv_cache_defrag. by repeat case_match. Qed.

(** C19. A context that computes logits, with a batch for which the buffer of the
    outputs can be reserved.  For every way the batch is cut into micro-batches:
    decoding ends as the reference loop does, without a failed assertion or an access
    out of bounds, and when it succeeds and the outputs have at most [2^32] floats,
    [llama_get_logits_ith] gives each token that asked for an output the row computed
    for that token, negative indices count these tokens from the end, and all other
    indices give no row.  (Beyond [2^32] floats see [logits_offset_wraps].) *)
Theorem decode_outputs_exact {A E} (dp : dec_params) (eval : llama_kv_cache → llama_batch → nat → A)
    (eval_embd : llama_kv_cache → llama_batch → nat → E) (eval_pooled : llama_kv_cache → llama_batch → list E)
    skips alloc frag stop b kv (c : out_ctx A E) ret kv' rows :
  dp_embeddings dp = false → (dp_causal_model dp = true ∨ dp_pooling dp = PoolingNone) →
  (∀ ub n_new, (1 < n_tokens ub)%nat → (n_new < n_tokens ub)%nat → dp_all_rows dp = false → skips ub n_new = true) →
  (∀ z, alloc z = true) → flags_ok b → (∀ seqs, ub_seq_id b = Some seqs → length seqs = ub_n_tokens b) →
  outputs_ok dp b c → 0 < dp_n_vocab dp → dp_n_vocab dp * Z.of_nat (count_outputs dp b) ≤ 2 ^ 32 →
  all_rows dp eval stop b (S (ub_n_tokens b)) 0 kv = Ok (ret, kv', rows) →
  ∃ kv'' c', llama_decode_internal dp eval eval_embd eval_pooled skips alloc frag stop b kv c = Ok (ret, kv'', c') ∧
    kv_cells kv'' = kv_cells kv' ∧
    (ret = 0 → length rows = ub_n_tokens b ∧
      (∀ i, llama_get_logits_ith dp c' (Z.of_nat i) =
         if decide (i < ub_n_tokens b ∧ requested dp b i = true)%nat then Some (rows !! i) else None) ∧
      (∀ k, 0 < k → llama_get_logits_ith dp c' (- k) =
         if decide (k ≤ Z.of_nat (length (asked dp b 0 (ub_n_tokens b))))
         then (λ i, rows !! i) <$> asked dp b 0 (ub_n_tokens b) !! (length (asked dp b 0 (ub_n_tokens b)) - Z.to_nat k)%nat
         else None)).
Proof.
  intros Hlog Hmodel Hskips Halloc Hflags Hseqs Hok Hw H32 Hall.
  destruct (decode_internal_spec dp eval eval_embd eval_pooled skips alloc frag stop b kv c ret kv' rows Hlog Hmodel
    Hskips Halloc Hflags Hseqs Hok Hall) as (kv'' & c' & Hd & Hkv & Hrows).
  exists kv'', c'. split; [done|]. split; [destruct Hkv as [->| ->]; [done|apply defrag_cells]|].
  intros H0. apply (decoded_lookups dp b rows c' Hlog Hflags); [apply Hok|done..|by apply Hrows].
Qed.

(** ** Decoding returns *)

(** A batch whose arrays have their lengths and whose positions are positions. *)
Record user_batch_ok (mrope : bool) (b : user_batch) : Prop := {
  uo_pos : ∀ pos, ub_pos b = Some pos →
    ((if mrope && negb (bool_decide (is_Some (ub_token b))) then 4 else 1) * ub_n_tokens b ≤ length pos)%nat ∧
    ∀ i p, (i < ub_n_tokens b)%nat → pos !! i = Some p → 0 ≤ p;
  uo_all_pos : ub_pos b = None → 0 ≤ ub_all_pos_0 b ∧ 0 ≤ ub_all_pos_1 b ∧
    ub_all_pos_0 b + Z.of_nat (ub_n_tokens b) * ub_all_pos_1 b < 2 ^ 31;
  uo_token : ∀ toks, ub_token b = Some toks → (ub_n_tokens b ≤ length toks)%nat;
  uo_seqs : ∀ seqs, ub_seq_id b = Some seqs → length seqs = ub_n_tokens b ∧ Forall (λ s, s ≠ []) seqs }.

Lemma mapM_at (pos : list Z) off a n : (off + a + n ≤ length pos)%nat →
  mapM (λ i, at_ pos (off + i)) (seq a n) = Ok (take n (drop (off + a) pos)).
Proof.
  induction n as [|n IH] in a |- *; intros Hl; [done|]. cbn [seq mapM].
  destruct (at_lt pos (off + a)) as (x & Hx & Hlx); [lia|].
  change (mapM (λ i, at_ pos (off + i)) (a :: seq (S a) n)) with
    (x ← at_ pos (off + a); xs ← mapM (λ i, at_ pos (off + i)) (seq (S a) n); mret (x :: xs)).
  rewrite Hx. cbn [mbind res_bind]. rewrite IH by lia. rewrite (drop_S _ _ _ Hlx). cbn. by rewrite Nat.add_succ_r.
Qed.

Lemma default_positions b cur n i : 0 ≤ ub_all_pos_0 b → 0 ≤ ub_all_pos_1 b →
  ub_all_pos_0 b + Z.of_nat (ub_n_tokens b) * ub_all_pos_1 b < 2 ^ 31 → (cur + n ≤ ub_n_tokens b)%nat → (i < n)%nat →
  i32 (i32 (ub_all_pos_0 b + i32 (Z.of_nat cur * ub_all_pos_1 b)) + i32 (Z.of_nat i * ub_all_pos_1 b)) =
  ub_all_pos_0 b + Z.of_nat (cur + i) * ub_all_pos_1 b.
Proof.
  intros H0 H1 Hb Hn Hi.
  assert (Z.of_nat cur * ub_all_pos_1 b + Z.of_nat i * ub_all_pos_1 b ≤ Z.of_nat (ub_n_tokens b) * ub_all_pos_1 b) by nia.
  assert (0 ≤ Z.of_nat cur * ub_all_pos_1 b) by nia. assert (0 ≤ Z.of_nat i * ub_all_pos_1 b) by nia.
  rewrite (i32_small (Z.of_nat cur * _)), (i32_small (Z.of_nat i * _)) by lia. rewrite !i32_small by (rewrite ?i32_small by lia; lia). lia.
Qed.

Lemma ubatch_pos_ok dp b cur n : user_batch_ok (dp_mrope dp) b → (cur + n ≤ ub_n_tokens b)%nat →
  ∃ ps, ubatch_pos dp b cur n = Ok ps ∧ ((if dp_mrope dp then 4 else 1) * n ≤ length ps)%nat ∧
    ∀ i p, (i < n)%nat → ps !! i = Some p → 0 ≤ p.
Proof.
  intros [Hpos Hall Htok _] Hn. unfold ubatch_pos. destruct (ub_pos b) as [pos|].
  - destruct (Hpos pos eq_refl) as [Hl Hp]. destruct (dp_mrope dp); cbn [negb andb] in *.
    2: { exists (drop cur pos). split; [done|]. split; [rewrite length_drop; lia|].
         intros i p Hi. rewrite lookup_drop. apply Hp. lia. }
    rewrite (mapM_at pos cur 0 n) by (destruct (bool_decide _); cbn in Hl; lia). cbn [mbind res_bind]. rewrite Nat.add_0_r.
    assert (length (take n (drop cur pos)) = n) as Ht
      by (rewrite length_take, length_drop; destruct (bool_decide _); cbn in Hl; lia).
    assert (∀ rest i p, (i < n)%nat → (take n (drop cur pos) ++ rest) !! i = Some p → 0 ≤ p) as Hfirst.
    { intros rest i p Hi. rewrite lookup_app_l, lookup_take_lt, lookup_drop by lia. apply Hp. lia. }
    destruct (ub_token b) as [toks|].
    + eexists. split; [done|]. split; [rewrite !length_app, length_replicate; lia|]. apply Hfirst.
    + rewrite (bool_decide_false (is_Some None)) in Hl by (by intros [? ?]). cbn [negb] in Hl.
      rewrite (mapM_at pos (ub_n_tokens b + cur) 0 n), (mapM_at pos (2 * ub_n_tokens b + cur) 0 n),
        (mapM_at pos (3 * ub_n_tokens b + cur) 0 n) by lia. cbn [mbind res_bind].
      eexists. split; [done|]. split; [rewrite !length_app, !length_take, !length_drop; lia|]. apply Hfirst.
  - destruct (Hall eq_refl) as (H0 & H1 & Hb). eexists. split; [done|]. set (ps := _ <$> seq 0 n).
    assert (length ps = n) as Hlen by (subst ps; by rewrite length_fmap, length_seq).
    assert (∀ i p, (i < n)%nat → ps !! i = Some p → 0 ≤ p) as Hp.
    { intros i p Hi. subst ps. rewrite list_lookup_fmap, lookup_seq_lt by done. cbn. intros [= <-].
      rewrite (default_positions b cur n i) by done. nia. }
    destruct (dp_mrope dp); [|split; [lia|done]].
    split; [rewrite !length_app, length_replicate; lia|]. intros i p Hi. rewrite lookup_app_l by lia. by apply Hp.
Qed.

Lemma make_ubatch_ok dp b cur n : user_batch_ok (dp_mrope dp) b → (cur + n ≤ ub_n_tokens b)%nat →
  ∃ ub, make_ubatch dp b cur n = Ok ub ∧ batch_ok (dp_mrope dp) ub ∧ n_tokens ub = n.
Proof.
  intros Hok Hn. destruct (ubatch_pos_ok dp b cur n Hok Hn) as (ps & Hps & Hlen & Hnn).
  unfold make_ubatch. rewrite Hps. cbn [mbind res_bind]. destruct Hok as [_ _ Htok Hseq].
  set (seqs := match ub_seq_id b with Some _ => _ | None => _ end).
  assert (length seqs = n ∧ Forall (λ s, s ≠ []) seqs) as [Hl Hf].
  { subst seqs. destruct (ub_seq_id b) as [l|].
    - destruct (Hseq l eq_refl) as [? ?]. split; [rewrite length_take, length_drop; lia|]. by apply Forall_take, Forall_drop.
    - split; [apply length_replicate|]. by apply Forall_replicate. }
  eexists. split; [done|]. split; [|exact Hl]. split; unfold n_tokens; cbn [b_pos b_token b_seq_id]; rewrite ?Hl; [done| |done|done].
  intros toks (toks' & Ht & ->)%fmap_Some. specialize (Htok _ Ht). rewrite length_drop. lia.
Qed.

Section returns.
Context {A : Type} (dp : dec_params) (eval : llama_kv_cache → llama_batch → nat → A) (stop : nat → bool).
Context (b : user_batch).
Context (Hcausal : dp_causal_model dp = true) (Hrope : dp_rope dp = true) (Hmoves : 0 < dp_max_moves dp)
  (Hubatch : (0 < dp_n_ubatch dp)%nat) (Hbatch : user_batch_ok (dp_mrope dp) b).

(** The cache of a model with rotary positions and full attention, of a size its
    graphs can look at. *)
Record cache_ok (kv : llama_kv_cache) : Prop := {
  co_wf : kv_wf kv;
  co_pad : (get_padding (dp_flash_attn dp) | kv_size kv);
  co_full : any_compacted kv = false;
  co_mrope : kv_mrope kv = dp_mrope dp }.

Lemma cache_ok_shape kv kv' : cache_ok kv → kv_wf kv' → same_shape kv kv' → cache_ok kv'.
Proof.
  intros [Hwf Hpad Hac Hm] Hwf' Hsh. pose proof Hsh as (Hs & _ & Hm'). split; [done|by rewrite Hs| |by rewrite Hm'].
  by rewrite (same_compacted _ _ Hsh).
Qed.

Lemma same_shape_trans kv1 kv2 kv3 : same_shape kv1 kv2 → same_shape kv2 kv3 → same_shape kv1 kv3.
Proof. intros (? & ? & ?) (? & ? & ?). split_and!; congruence. Qed.

Lemma same_shape_defrag kv1 kv2 : kv_wf kv1 → kv2 = kv1 ∨ kv2 = llama_kv_cache_defrag kv1 → same_shape kv1 kv2 ∧ kv_wf kv2.
Proof.
  intros Hwf [->| ->]; [done|]. unfold llama_kv_cache_defrag. repeat case_match; try done. split; [done|]. by apply with_flags_wf.
Qed.

Lemma all_rows_returns fuel cur kv : (ub_n_tokens b - cur < fuel)%nat → (cur ≤ ub_n_tokens b)%nat → cache_ok kv →
  ∃ ret kv' rows, all_rows dp eval stop b fuel cur kv = Ok (ret, kv', rows) ∧
    ret ∈ [0; 1; -3] ∧ kv_wf kv' ∧ same_shape kv kv'.
Proof using Hcausal Hrope Hmoves Hubatch Hbatch.
  induction fuel as [|fuel IH] in cur, kv |- *; intros Hfuel Hcur Hkv; [lia|]. cbn [all_rows].
  bdec (cur < ub_n_tokens b)%nat as Hc.
  2: { do 3 eexists. split; [done|]. split; [set_solver|]. split; [apply Hkv|done]. }
  destruct (ubatch_size_range dp b cur Hubatch Hc) as (Hn0 & Hn & _). set (n := ubatch_size dp b cur) in *.
  destruct (make_ubatch_ok dp b cur n Hbatch Hn) as (ub & -> & Hub & Hnt). cbn [mbind res_bind].
  unfold prepare_cache. rewrite Hcausal, Hrope. pose proof Hkv as [Hwf Hpad Hac Hm]. rewrite <- Hm in Hub.
  destruct (decode_prepare_spec (dp_can_shift dp) (dp_flash_attn dp) (dp_max_moves dp) kv ub (dp_embd_token dp) Hwf Hmoves Hub Hpad Hac)
    as (ret & kv1 & -> & Hwf1 & Hsh1 & Hcase). cbn [mbind res_bind].
  assert (ret = 0 ∨ ret = 1) as [-> | ->].
  { destruct (kv_has_shift kv && _); [right; apply Hcase|]. destruct Hcase as [[-> _]|[-> _]]; auto. }
  2: { change (bool_decide (1 = 0)) with false. cbn [negb]. do 3 eexists. split; [done|]. split; [set_solver|done]. }
  change (bool_decide (0 = 0)) with true. cbn [negb].
  pose proof (cache_ok_shape kv kv1 Hkv Hwf1 Hsh1) as Hkv1.
  destruct (decode_advance_spec kv1 n Hwf1 (co_full _ Hkv1)) as (h & -> & Hwf2). cbn [mbind res_bind].
  set (kv2 := with_state kv1 h _ _) in *. assert (same_shape kv1 kv2) as Hsh2 by done.
  pose proof (same_shape_trans _ _ _ Hsh1 Hsh2) as Hsh.
  destruct (stop cur). { do 3 eexists. split; [done|]. split; [set_solver|done]. }
  destruct (IH (cur + n)%nat kv2) as (ret & kv3 & rows & -> & Hret & Hwf3 & Hsh3); [lia..|by apply (cache_ok_shape kv)|].
  cbn [mbind res_bind mret res_ret]. do 3 eexists. split; [done|]. split; [done|]. split; [done|].
  by apply (same_shape_trans _ kv2).
Qed.
End returns.

(** A reservation that fails frees the buffers, and leaves the table of ids. *)
Lemma output_reserve_cases {A E} (dp : dec_params) (b : user_batch) (c : out_ctx A E) alloc n :
  dp_embeddings dp = false → outputs_ok dp b c → 0 ≤ n ≤ Z.of_nat (ub_n_tokens b) →
  (∃ c', llama_output_reserve dp alloc c n = (0, c') ∧ length (oc_output_ids c') = dp_n_batch dp) ∨
  llama_output_reserve dp alloc c n = llama_output_reserve dp (λ _, true) c n.
Proof.
  intros Hlog [Hids _ _ _ _ _ _] Hn. unfold llama_output_reserve.
  set (size := u64 (u64 (_ + _) * 4)). set (buf := match oc_buf c with Some _ => _ | None => _ end).
  destruct buf; [by right|]. destruct (alloc size); [by right|]. left. eexists. split; [done|]. cbn.
  case_bool_decide; [apply length_replicate|]. by destruct Hids.
Qed.

(** What decoding returns in each case. *)
Lemma decode_internal_cases {A E} (dp : dec_params) (eval : llama_kv_cache → llama_batch → nat → A)
    (eval_embd : llama_kv_cache → llama_batch → nat → E) (eval_pooled : llama_kv_cache → llama_batch → list E)
    skips alloc frag stop b kv (c : out_ctx A E) ret kv' rows :
  dp_embeddings dp = false → dp_causal_model dp = true →
  (∀ ub n_new, (1 < n_tokens ub)%nat → (n_new < n_tokens ub)%nat → dp_all_rows dp = false → skips ub n_new = true) →
  flags_ok b → (∀ seqs, ub_seq_id b = Some seqs → length seqs = ub_n_tokens b) →
  outputs_ok dp b c →
  all_rows dp eval stop b (S (ub_n_tokens b)) 0 kv = Ok (ret, kv', rows) →
  (∃ c', llama_decode_internal dp eval eval_embd eval_pooled skips alloc frag stop b kv c = Ok (-2, kv, c')) ∨
  (∃ kv'' c', llama_decode_internal dp eval eval_embd eval_pooled skips alloc frag stop b kv c = Ok (ret, kv'', c') ∧
    (kv'' = kv' ∨ kv'' = llama_kv_cache_defrag kv')).
Proof.
  intros Hlog Hmodel Hskips Hflags Hseqs Hok Hall. pose proof Hok as [].
  pose proof (count_outputs_asked dp b Hflags (not_pooled dp Hlog) ltac:(lia)) as Hcount.
  pose proof (asked_le dp b 0 (ub_n_tokens b)) as Hle. rewrite <- Hcount in Hle.
  destruct (output_reserve_cases dp b c alloc (Z.of_nat (count_outputs dp b)) Hlog Hok ltac:(lia)) as [(c1 & Hres & Hl1)|Hres].
  2: { right. destruct (decode_internal_spec dp eval eval_embd eval_pooled skips (λ _, true) frag stop b kv c ret kv' rows)
         as (kv2 & c2 & Hd & Hkv & _); try done; [by left|].
       exists kv2, c2. split; [|done]. rewrite <- Hd. unfold llama_decode_internal. by rewrite Hres. }
  unfold llama_decode_internal. rewrite (bool_decide_false (ub_n_tokens b = 0)%nat) by lia. rewrite oo_kind0.
  assert (negb (negb (ub_embd b)) && ub_embd b || negb (ub_embd b) && negb (ub_embd b) = true) as -> by (by destruct (ub_embd b)).
  rewrite (bool_decide_true (ub_n_tokens b ≤ dp_n_batch dp)%nat) by lia.
  assert (dp_causal_attn dp || bool_decide (ub_n_tokens b ≤ dp_n_ubatch dp)%nat = true) as ->.
  { destruct oo_causal0 as [->|?]; [done|]. by rewrite bool_decide_true, orb_true_r. }
  cbn [ggml_assert mbind res_bind]. rewrite Hres. bdec (0 < Z.of_nat (count_outputs dp b)) as Hsome; [left; by eexists|right].
  destruct (map_outputs_spec dp b Hlog Hflags (oc_output_ids c1)) as (ids & -> & _); [lia..|]. cbn [mbind res_bind].
  destruct (decode_loop_none dp eval eval_embd eval_pooled skips stop b Hlog (or_introl Hmodel) Hskips Hflags Hseqs
    (S (ub_n_tokens b)) 0 kv (with_ids c1 ids) ret kv' rows) as (c2 & ->); [lia..|done|].
  cbn [mbind res_bind]. bdec (ret = 0) as Hr; cbn [negb]; [|do 2 eexists; split; [done|by left]].
  subst ret. do 2 eexists. split; [done|]. destruct (dp_causal_attn dp && frag kv'); [by right|by left].
Qed.

(** C20. A context that computes logits, of a model with causal attention and rotary
    positions, whose cache has no compacted layers.  Decoding a batch, also an empty
    one, ends: no assertion of the decode path, of the cache or of the gathering of
    rows fails, nothing is read or written out of bounds, whatever the graph computes,
    whether or not the outputs can be allocated and however the batch is cut.  The
    code is -1 exactly for the empty batch, -2 when the outputs cannot be reserved,
    both with the cache as it was, or else 0, 1 (no room, or a shift that the model
    cannot do) or -3 (stopped), and the cache is well formed for the next batch. *)
Theorem decode_returns {A E} (dp : dec_params) (eval : llama_kv_cache → llama_batch → nat → A)
    (eval_embd : llama_kv_cache → llama_batch → nat → E) (eval_pooled : llama_kv_cache → llama_batch → list E)
    skips alloc frag stop b kv (c : out_ctx A E) :
  dp_embeddings dp = false → dp_causal_model dp = true → dp_rope dp = true → 0 < dp_max_moves dp →
  (∀ ub n_new, (1 < n_tokens ub)%nat → (n_new < n_tokens ub)%nat → dp_all_rows dp = false → skips ub n_new = true) →
  flags_ok b → user_batch_ok (dp_mrope dp) b → ((0 < ub_n_tokens b)%nat → outputs_ok dp b c) → cache_ok dp kv →
  ∃ ret kv' c', llama_decode_internal dp eval eval_embd eval_pooled skips alloc frag stop b kv c = Ok (ret, kv', c') ∧
    ret ∈ [0; 1; -1; -2; -3] ∧ (ret = -1 ↔ ub_n_tokens b = 0%nat) ∧ (ret = -1 ∨ ret = -2 → kv' = kv) ∧
    ((∀ z, alloc z = true) → ret ≠ -2) ∧ cache_ok dp kv' ∧ kv_size kv' = kv_size kv.
Proof.
  intros Hlog Hcausal Hrope Hmoves Hskips Hflags Hb Hok Hkv.
  destruct (decide (ub_n_tokens b = 0)%nat) as [H0|H0].
  { exists (-1), kv, c. unfold llama_decode_internal. rewrite bool_decide_true by done. split_and!; try done. set_solver. }
  specialize (Hok ltac:(lia)).
  assert (∀ seqs, ub_seq_id b = Some seqs → length seqs = ub_n_tokens b) as Hseqs by (intros seqs Hs; by apply (uo_seqs _ _ Hb)).
  destruct (all_rows_returns dp eval stop b Hcausal Hrope Hmoves (oo_ubatch _ _ _ Hok) Hb (S (ub_n_tokens b)) 0 kv)
    as (ret & kv1 & rows & Hall & Hret & Hwf & Hsh); [lia..|done|].
  assert (ret ≠ -1 ∧ ret ≠ -2) as [Hr1 Hr2] by (set_unfold in Hret; lia).
  destruct (decode_internal_cases dp eval eval_embd eval_pooled skips alloc frag stop b kv c ret kv1 rows)
    as [(c2 & Hd)|(kv2 & c2 & Hd & Hkv2)]; try done.
  - exists (-2), kv, c2. split; [done|]. split; [set_solver|]. split_and!; try done.
    intros Halloc. destruct (decode_internal_spec dp eval eval_embd eval_pooled skips alloc frag stop b kv c ret kv1 rows)
      as (kv2 & c3 & Hd2 & _); try done; [by left|]. congruence.
  - exists ret, kv2, c2. split; [done|]. split; [set_unfold in Hret; set_unfold; lia|]. do 3 (split; [tauto|]).
    pose proof (same_shape_defrag kv1 kv2 Hwf Hkv2) as [Hsh2 Hwf2].
    pose proof (same_shape_trans _ _ _ Hsh Hsh2) as Hsh3. split; [by apply (cache_ok_shape dp kv)|]. apply Hsh3.
Qed.

(** The row of logits is found by an offset of 32 bits: with a vocabulary of 131072
    tokens, output 32768 is looked up at the beginning of the buffer. *)
Lemma logits_offset_wraps {A E} (dp : dec_params) (c : out_ctx A E) buf i :
  dp_n_vocab dp = 131072 → oc_logits c = Some buf → 0 ≤ i → oc_output_ids c !! Z.to_nat i = Some 32768 →
  32768 < oc_n_outputs c → llama_get_logits_ith dp c i = Some (mjoin (buf !! 0%nat)).
Proof.
  intros Hv Hb Hi Hid Hn. unfold llama_get_logits_ith, output_row.
  rewrite Hb, (bool_decide_false (i < 0)), Hid by lia.
  rewrite (bool_decide_false (32768 < 0)), (bool_decide_false (_ ≤ 32768)), Hv by lia. done.
Qed.

(** ** Examples *)

(** Five tokens in micro-batches of two; the second, fourth and fifth ask for
    outputs, and the row of a token is its number. *)
Definition five_dp : dec_params :=
  DecParams 8 2 1 16 4 false PoolingNone false true true false false false false true true false 8 0.
Definition five_batch : user_batch :=
  UserBatch 5 (Some [10; 11; 12; 13; 14]) false None None (Some [0; 1; 0; 1; 1]) 0 1 0.
Definition five_eval (kv : llama_kv_cache) (ub : llama_batch) (i : nat) : Z :=
  default 0 (toks ← b_token ub; toks !! i).
Definition five_skips (ub : llama_batch) (n_new : nat) : bool := bool_decide (n_new < n_tokens ub)%nat.
Definition five_ctx : out_ctx Z Z := OutCtx [] None None None 0 0 0 0 0 ∅.
Definition five_kv : llama_kv_cache := default holes_kv (match init32 with Ok kv => Some kv | _ => None end).
Definition five_decode : res (Z * llama_kv_cache * out_ctx Z Z) :=
  llama_decode_internal five_dp five_eval five_eval (λ _ _, []) five_skips (λ _, true) (λ _, false) (λ _, false)
    five_batch five_kv five_ctx.

Lemma five_ok : outputs_ok five_dp five_batch five_ctx.
Proof. split; cbn; (lia || (by left) || done). Qed.

Lemma five_batch_ok : user_batch_ok false five_batch.
Proof. split; cbn; [done|lia|by intros toks [= <-]|done]. Qed.

Lemma five_kv_ok : cache_ok five_dp five_kv.
Proof.
  split; [|by exists 1|done..].
  refine (proj1 (init_wf false 32 false false false false 0 (HparamsSwa 0 0 [] 0 0) false false 512 _ _ eq_refl)). lia.
Qed.

Lemma five_skips_ok ub n_new : (1 < n_tokens ub)%nat → (n_new < n_tokens ub)%nat → dp_all_rows five_dp = false →
  five_skips ub n_new = true.
Proof. intros _ ? _. by apply bool_decide_true. Qed.

Lemma decode_outputs_exact_witness :
  ∃ kv'' c', five_decode = Ok (0, kv'', c') ∧
    llama_get_logits_ith five_dp c' 0 = None ∧ llama_get_logits_ith five_dp c' 1 = Some (Some 11) ∧
    llama_get_logits_ith five_dp c' 3 = Some (Some 13) ∧ llama_get_logits_ith five_dp c' (-1) = Some (Some 14) ∧
    llama_get_logits_ith five_dp c' (-4) = None.
Proof.
  destruct (decode_outputs_exact five_dp five_eval five_eval (λ _ _, []) five_skips (λ _, true) (λ _, false) (λ _, false)
    five_batch five_kv five_ctx 0
    (default five_kv (match all_rows five_dp five_eval (λ _, false) five_batch 6 0 five_kv with Ok (_, kv, _) => Some kv | _ => None end))
    [10; 11; 12; 13; 14]) as (kv'' & c' & Hd & _ & Hrows).
  - reflexivity.
  - by left.
  - exact five_skips_ok.
  - reflexivity.
  - by intros flags [= <-].
  - done.
  - exact five_ok.
  - reflexivity.
  - vm_compute. discriminate.
  - vm_compute. reflexivity.
  - destruct (Hrows eq_refl) as (_ & Hget & Hneg). exists kv'', c'. split; [exact Hd|].
    split; [apply (Hget 0%nat)|]. split; [apply (Hget 1%nat)|]. split; [apply (Hget 3%nat)|].
    split; [apply (Hneg 1); lia|apply (Hneg 4); lia].
Defined.

Lemma decode_returns_witness : ∃ ret kv' c', five_decode = Ok (ret, kv', c') ∧ ret ∈ [0; 1; -1; -2; -3] ∧
  (ret = -1 ↔ 5%nat = 0%nat) ∧ (ret = -1 ∨ ret = -2 → kv' = five_kv) ∧ ret ≠ -2 ∧
  cache_ok five_dp kv' ∧ kv_size kv' = kv_size five_kv.
Proof.
  destruct (decode_returns five_dp five_eval five_eval (λ _ _, []) five_skips (λ _, true) (λ _, false) (λ _, false)
    five_batch five_kv five_ctx) as (ret & kv' & c' & Hd & Hret & Hempty & Hsame & Halloc & Hkv); try reflexivity.
  - exact five_skips_ok.
  - by intros flags [= <-].
  - exact five_batch_ok.
  - intros _. exact five_ok.
  - exact five_kv_ok.
  - exists ret, kv', c'. split; [exact Hd|]. split; [exact Hret|]. split; [exact Hempty|]. split; [exact Hsame|].
    split; [by apply Halloc|exact Hkv].
Defined.
