(* ===== verification/StateIO.v ===== *)
(** * Saving and restoring the cache

    The part of the state files and buffers of [src/llama.cpp] that concerns the
    cache: [write_kv_cache] and [read_kv_cache] with the classes [llama_data_write]
    and [llama_data_read], and the interface for single sequences
    ([llama_state_seq_get_size], [..._get_data], [..._set_data]; sequence -1 is the
    whole cache).

    A writer is the list of its calls of [write] and [write_tensor_data], which the
    subclasses interpret: one counts bytes, one fills a buffer.  A reader is a
    computation on the cache, the data of its tensors and the bytes that are left;
    when it throws, what it did to the cache before stays.

    Left out: tensors split over devices, copies of tensors for several memory
    nodes, the pools of keys derived from the indexer, and what openPangu and
    DeepSeek-V4 add. *)
From S2P Require Import Prelude KvCache.

(** ** Integers as bytes, little endian *)

Fixpoint le (n : nat) (v : Z) : bytes :=
  match n with
  | O => []
  | S n' => Z.land v 255 :: le n' (Z.shiftr v 8)
  end.

Fixpoint un_le (bs : bytes) : Z :=
  match bs with
  | [] => 0
  | b :: bs' => Z.lor b (Z.shiftl (un_le bs') 8)
  end.

(** ** Tensors of the cache

    [TensorK] and [TensorV] are [k_l] and [v_l], [TensorS] the recurrent states
    [s_l], [TensorKr] the keys of the indexer [kr_l]. *)
Inductive cache_tensor := TensorK | TensorV | TensorS | TensorKr.

#[global] Instance cache_tensor_eq_dec : EqDecision cache_tensor.
Proof. solve_decision. Defined.

(** The type of a tensor, the bytes of a row and of an element, and the elements of
    a row; a layer without the tensor has none. *)
Record tensor_geom := TensorGeom { tg_type : Z; tg_row : Z; tg_el : Z; tg_embd : Z }.

Record state_geom := StateGeom {
  sg_k : list (option tensor_geom);
  sg_v : list (option tensor_geom);    (** empty without a V cache *)
  sg_s : list (option tensor_geom);
  sg_kr : list (option tensor_geom);   (** empty without an indexer *)
  sg_v_trans : bool;
  sg_tokens : bool;                    (** [ple_n_heads > 0]: tokens are saved *)
  sg_n_seq_max : Z }.

Definition geom (g : state_geom) (t : cache_tensor) : list (option tensor_geom) :=
  match t with TensorK => sg_k g | TensorV => sg_v g | TensorS => sg_s g | TensorKr => sg_kr g end.

(** The cache and the bytes of its tensors, by layer. *)
Record kv_state := KvState {
  ks_kv : llama_kv_cache; ks_k : list bytes; ks_v : list bytes; ks_s : list bytes; ks_kr : list bytes }.

Definition ks_data (st : kv_state) (t : cache_tensor) : list bytes :=
  match t with TensorK => ks_k st | TensorV => ks_v st | TensorS => ks_s st | TensorKr => ks_kr st end.

Definition with_data (st : kv_state) (t : cache_tensor) (l : list bytes) : kv_state :=
  match t with
  | TensorK => KvState (ks_kv st) l (ks_v st) (ks_s st) (ks_kr st)
  | TensorV => KvState (ks_kv st) (ks_k st) l (ks_s st) (ks_kr st)
  | TensorS => KvState (ks_kv st) (ks_k st) (ks_v st) l (ks_kr st)
  | TensorKr => KvState (ks_kv st) (ks_k st) (ks_v st) (ks_s st) l
  end.

Definition with_kv (st : kv_state) (kv : llama_kv_cache) : kv_state :=
  KvState kv (ks_k st) (ks_v st) (ks_s st) (ks_kr st).

(** [llama_kv_cache_clear] with the buffers, which it fills with zeros. *)
Definition clear_state (st : kv_state) : kv_state :=
  let zeros := fmap (λ d : bytes, replicate (length d) 0) in
  KvState (llama_kv_cache_clear (ks_kv st)) (zeros (ks_k st)) (zeros (ks_v st)) (zeros (ks_s st)) (zeros (ks_kr st)).

(** [ggml_backend_tensor_get] and [ggml_backend_tensor_set]: a range outside the
    tensor is an assertion; offsets and sizes are unsigned. *)
Definition tensor_get (d : bytes) (off size : Z) : res bytes :=
  if bool_decide (0 ≤ off ∧ 0 ≤ size ∧ off + size ≤ Z.of_nat (length d)) then Ok (take (Z.to_nat size) (drop (Z.to_nat off) d)) else Err Abort.

Definition tensor_set (d : bytes) (off : Z) (bs : bytes) : res bytes :=
  if bool_decide (off + Z.of_nat (length bs) ≤ Z.of_nat (length d))
  then Ok (take (Z.to_nat off) d ++ bs ++ drop (Z.to_nat off + length bs) d) else Err Abort.

(** ** Writing *)

Inductive write_call :=
  | Write (bs : bytes)
  | WriteTensor (d : bytes) (off size : Z).

Definition call_size (c : write_call) : Z :=
  match c with Write bs => Z.of_nat (length bs) | WriteTensor _ _ size => size end.

(** [llama_data_write_dummy]. *)
Definition run_dummy (calls : list write_call) : Z := foldr (λ c n, call_size c + n) 0 calls.

Definition call_bytes (c : write_call) : res bytes :=
  match c with Write bs => Ok bs | WriteTensor d off size => tensor_get d off size end.

(** [llama_data_write_buffer]: what is written into a buffer of that size. *)
Fixpoint run_buffer (buf_size : Z) (calls : list write_call) : res bytes :=
  match calls with
  | [] => Ok []
  | c :: calls' =>
    if bool_decide (buf_size < call_size c) then Err (Throw "unexpectedly reached end of buffer")
    else
      bs ← call_bytes c;
      rest ← run_buffer (buf_size - call_size c) calls';
      mret (bs ++ rest)
  end.

Definition write_u32 (v : Z) : write_call := Write (le 4 (u32 v)).
Definition write_i32 (v : Z) : write_call := Write (le 4 (u32 v)).
Definition write_u64 (v : Z) : write_call := Write (le 8 (u64 v)).

Definition LLAMA_SWA_COMPACT_LAYOUT_MAGIC : Z := 0x53574143.
Definition LLAMA_QSA_CELL_META_MAGIC : Z := 0x51534131.

(** *** The cells *)

Definition selected (seq_id : Z) (c : llama_kv_cell) : bool :=
  bool_decide (seq_id = -1) && negb (is_empty c) || has_seq_id c seq_id.

(** The number of the cells that are selected and their ranges; [begin] is the start
    of the range that is open, or [size]. *)
Fixpoint find_ranges (seq_id size : Z) (cells : list llama_kv_cell) (i begin : Z) : Z * list (Z * Z) :=
  match cells with
  | [] => (0, if bool_decide (begin = size) then [] else [(begin, size)])
  | c :: cells' =>
    if selected seq_id c then
      let '(n, ranges) := find_ranges seq_id size cells' (i + 1) (if bool_decide (begin = size) then i else begin) in
      (n + 1, ranges)
    else
      let '(n, ranges) := find_ranges seq_id size cells' (i + 1) size in
      (n, if bool_decide (begin = size) then ranges else (begin, i) :: ranges)
  end.

(** The indices of the cells of the ranges. *)
Definition range_cells (ranges : list (Z * Z)) : list nat :=
  '(first, last) ← ranges; seq (Z.to_nat first) (Z.to_nat (last - first)).

Definition write_cell (g : state_geom) (kv : llama_kv_cache) (seq_id : Z) (c : llama_kv_cell) : list write_call :=
  let seqs := if bool_decide (seq_id = -1) then merge_sort Z.le (elements (c_seq_id c)) else [] in
  [write_i32 (c_pos c); write_u32 (Z.of_nat (length seqs))] ++
  (if sg_tokens g then [write_i32 (c_token c)] else []) ++
  (if kv_qsa kv then [write_i32 (c_qsa_pos c); write_i32 (c_pos_h c); write_i32 (c_pos_w c); write_i32 (c_pos_e c)] else []) ++
  (write_i32 <$> seqs).

Definition write_kv_cache_meta (g : state_geom) (kv : llama_kv_cache) (ranges : list (Z * Z)) (seq_id : Z)
    : res (list write_call) :=
  cells ← mapM (at_ (kv_cells kv)) (range_cells ranges);
  mret ((if kv_qsa kv then [write_u32 LLAMA_QSA_CELL_META_MAGIC] else []) ++ (cells ≫= write_cell g kv seq_id)).

(** *** The tensors *)

(** Is the tensor of a layer part of the state? *)
Definition has_cache (kv : llama_kv_cache) (need_kv : bool) (il : nat) (tg : option tensor_geom) : res bool :=
  comp ← is_compacted kv il;
  mret (bool_decide (is_Some tg) && (need_kv || comp)).

Definition geom_or (tg : option tensor_geom) (has : bool) : tensor_geom :=
  if has then default (TensorGeom (-1) 0 0 0) tg else TensorGeom (-1) 0 0 0.

(** One layer of the keys, or of the values when they are not transposed. *)
Definition write_rows (g : state_geom) (st : kv_state) (t : cache_tensor) (need_kv : bool) (ranges : list (Z * Z))
    (il : nat) : res (list write_call) :=
  let kv := ks_kv st in
  tg ← at_ (geom g t) il;
  has ← has_cache kv need_kv il tg;
  let tg := geom_or tg has in
  let header := [write_i32 (tg_type tg); write_u64 (tg_row tg)] in
  if negb has then Ok header
  else
    d ← at_ (ks_data st t) il;
    comp ← is_compacted kv il;
    if comp : bool then
      Ok (header ++ if bool_decide (live_swa kv = 0) then []
                    else [WriteTensor d (kv_sink_rows kv * tg_row tg) (live_swa kv * tg_row tg)])
    else
      Ok (header ++ ((λ '(first, last), WriteTensor d (first * tg_row tg) ((last - first) * tg_row tg)) <$> ranges)).

(** The place of an element of the transposed values: computed in 32 bits, in a
    compacted layer in 64. *)
Definition v_src_offset (first j kv_size el : Z) : Z := u32 (u32 (first + u32 (j * kv_size)) * el).
Definition v_src_offset_compact (sink_rows j kv_size el : Z) : Z := (sink_rows + j * kv_size) * el.

Definition write_transposed (g : state_geom) (st : kv_state) (need_kv : bool) (ranges : list (Z * Z))
    (il : nat) : res (list write_call) :=
  let kv := ks_kv st in
  tg ← at_ (sg_v g) il;
  has ← has_cache kv need_kv il tg;
  let tg := geom_or tg has in
  let header := [write_i32 (tg_type tg); write_u32 (tg_el tg); write_u32 (tg_embd tg)] in
  if negb has then Ok header
  else
    d ← at_ (ks_v st) il;
    kv_size ← rows kv il;
    comp ← is_compacted kv il;
    let js := Z.of_nat <$> seq 0 (Z.to_nat (tg_embd tg)) in
    if comp : bool then
      Ok (header ++ if bool_decide (live_swa kv = 0) then []
                    else (λ j, WriteTensor d (v_src_offset_compact (kv_sink_rows kv) j kv_size (tg_el tg))
                                           (live_swa kv * tg_el tg)) <$> js)
    else
      Ok (header ++ (j ← js; (λ '(first, last), WriteTensor d (v_src_offset first j kv_size (tg_el tg))
                                                  ((last - first) * tg_el tg)) <$> ranges)).

(** One layer of the recurrent states: all of them, or the one of the sequence. *)
Definition write_state_rows (g : state_geom) (st : kv_state) (seq_id : Z) (il : nat) : res (list write_call) :=
  let kv := ks_kv st in
  let tg := mjoin (sg_s g !! il) in
  let row := tg_row (geom_or tg (bool_decide (is_Some tg))) in
  '(s_rows, s_row) ←
    (if negb (bool_decide (is_Some tg)) then Ok (0, 0)
     else if bool_decide (seq_id = -1) then Ok (kv_state_slots kv, 0)
     else if llama_kv_qnext_seq_id_in_range kv seq_id && bool_decide (seq_id < kv_size kv) then
       c ← at_ (kv_cells kv) (Z.to_nat seq_id);
       mret (if llama_kv_qnext_seq_id_in_range kv (c_src c) then (1, c_src c) else (0, 0))
     else Ok (0, 0));
  let header := [write_i32 (tg_type (geom_or tg (bool_decide (is_Some tg)))); write_u64 row; write_u32 s_rows] in
  if bool_decide (0 < s_rows) then
    d ← at_ (ks_s st) il;
    mret (header ++ [WriteTensor d (s_row * row) (s_rows * row)])
  else Ok header.

(** One layer of the keys of the indexer. *)
Definition write_indexer (g : state_geom) (st : kv_state) (need_kv : bool) (ranges : list (Z * Z)) (il : nat)
    : res (list write_call) :=
  match mjoin (sg_kr g !! il) with
  | Some tg =>
    if need_kv then
      d ← at_ (ks_kr st) il;
      mret ([write_i32 (tg_type tg); write_u64 (tg_row tg)] ++
            ((λ '(first, last), WriteTensor d (first * tg_row tg) ((last - first) * tg_row tg)) <$> ranges))
    else Ok []
  | None => Ok []
  end.

(** [v_state]: 2 without values, 1 when they are transposed. *)
Definition v_state (g : state_geom) : Z :=
  if bool_decide (sg_v g = []) then 2 else if sg_v_trans g then 1 else 0.

Definition layers (g : state_geom) (f : nat → res (list write_call)) : res (list write_call) :=
  calls ← mapM f (seq 0 (length (sg_k g)));
  mret (mjoin calls).

Definition write_kv_cache_data (g : state_geom) (st : kv_state) (ranges : list (Z * Z)) (seq_id : Z) (need_kv : bool)
    : res (list write_call) :=
  ks ← layers g (write_rows g st TensorK need_kv ranges);
  vs ← (if bool_decide (v_state g = 0) then layers g (write_rows g st TensorV need_kv ranges)
        else if bool_decide (v_state g = 1) then layers g (write_transposed g st need_kv ranges)
        else Ok []);
  let qnext := llama_kv_has_qnext_state_storage (ks_kv st) in
  ss ← (if qnext then layers g (write_state_rows g st seq_id) else Ok []);
  let dsa := negb (bool_decide (sg_kr g = [])) in
  krs ← (if dsa then layers g (write_indexer g st need_kv ranges) else Ok []);
  mret ([write_u32 (v_state g); write_u32 (Z.of_nat (length (sg_k g)))] ++ ks ++ vs ++
        [write_u32 (if qnext then 1 else 0)] ++ ss ++ [write_u32 (if dsa then 1 else 0)] ++ krs).

(** *** The whole state *)

Definition write_kv_cache (g : state_geom) (st : kv_state) (seq_id : Z) (need_kv : bool) : res (list write_call) :=
  let kv := ks_kv st in
  let '(cell_count, ranges) := find_ranges seq_id (kv_size kv) (kv_cells kv) 0 (kv_size kv) in
  _ ← ggml_assert (bool_decide (cell_count = foldr (λ '(first, last) n, last - first + n) 0 ranges));
  header ← (if any_compacted kv then
      if negb (llama_kv_cache_compact_state_valid kv cell_count seq_id)
      then Err (Throw "failed to save kv cache: inconsistent compacted window state")
      else Ok [write_u32 LLAMA_SWA_COMPACT_LAYOUT_MAGIC; write_u32 (kv_size_swa kv); write_u32 (live_swa kv);
               write_i32 (kv_pos_base_swa kv); write_u32 (kv_head_swa kv)]
    else Ok []);
  meta ← write_kv_cache_meta g kv ranges seq_id;
  data ← write_kv_cache_data g st ranges seq_id need_kv;
  mret (header ++ [write_u32 cell_count] ++ meta ++ data).

(** ** Reading *)

(** Computations on the state and the bytes left, which can fail. *)
Definition rd (A : Type) : Type := kv_state * bytes → res A * (kv_state * bytes).

#[global] Instance rd_ret : MRet rd := λ A a s, (Ok a, s).
#[global] Instance rd_bind : MBind rd := λ A B f m s,
  match m s with
  | (Ok a, s') => f a s'
  | (Err e, s') => (Err e, s')
  end.

Definition lift {A} (r : res A) : rd A := λ s, (r, s).
Definition get_state : rd kv_state := λ s, (Ok s.1, s).
Definition put_state (st : kv_state) : rd unit := λ s, (Ok tt, (st, s.2)).
Definition get_cache : rd llama_kv_cache := λ s, (Ok (ks_kv s.1), s).
Definition put_cache (kv : llama_kv_cache) : rd unit := λ s, (Ok tt, (with_kv s.1 kv, s.2)).

(** [llama_data_read_buffer]. *)
Definition read (n : Z) : rd bytes := λ s,
  if bool_decide (Z.of_nat (length s.2) < n) then (Err (Throw "unexpectedly reached end of buffer"), s)
  else (Ok (take (Z.to_nat n) s.2), (s.1, drop (Z.to_nat n) s.2)).

Definition read_u32 : rd Z := bs ← read 4; mret (un_le bs).
Definition read_i32 : rd Z := bs ← read 4; mret (i32 (un_le bs)).
Definition read_u64 : rd Z := bs ← read 8; mret (un_le bs).

(** *** The cells *)

(** What the state holds of a cell, before its sequences. *)
Record cell_meta := CellMeta {
  cm_pos : Z; cm_n_seq : Z; cm_token : Z; cm_qsa_pos : Z; cm_h : Z; cm_w : Z; cm_e : Z }.

Definition read_meta (g : state_geom) (qsa : bool) : rd cell_meta :=
  pos ← read_i32;
  n_seq_id ← read_u32;
  token ← (if sg_tokens g then read_i32 else mret LLAMA_TOKEN_NULL);
  if qsa : bool then
    qsa_pos ← read_i32; h ← read_i32; w ← read_i32; e ← read_i32;
    mret (CellMeta pos n_seq_id token qsa_pos h w e)
  else mret (CellMeta pos n_seq_id token 0 0 0 0).

(** A single sequence: the cells become a batch, unless one names sequences. *)
Fixpoint read_batch (g : state_geom) (qsa : bool) (n : nat) : rd (option (list cell_meta)) :=
  match n with
  | O => mret (Some [])
  | S n' =>
    m ← read_meta g qsa;
    if negb (bool_decide (cm_n_seq m = 0)) then mret None
    else
      ms ← read_batch g qsa n';
      mret ((λ l, m :: l) <$> ms)
  end.

Definition with_qsa (c : llama_kv_cell) (m : cell_meta) : llama_kv_cell :=
  Cell (c_pos c) (c_delta c) (c_src c) (c_token c) (cm_qsa_pos m) (cm_h m) (cm_w m) (cm_e m) (c_seq_id c).

Fixpoint put_qsa (ms : list cell_meta) (i : nat) (cells : list llama_kv_cell) : res (list llama_kv_cell) :=
  match ms with
  | [] => Ok cells
  | m :: ms' =>
    c ← at_ cells i;
    cells ← put cells i (with_qsa c m);
    put_qsa ms' (S i) cells
  end.

(** The checks after the slot is filled; an empty batch has no first position. *)
Definition check_slot (kv : llama_kv_cache) (positions : list Z) (dest_seq_id : Z) : res unit :=
  let count := Z.of_nat (length positions) in
  _ ← ggml_assert (bool_decide (u32 (kv_head kv + count) ≤ kv_size kv));
  first ← at_ (kv_cells kv) (Z.to_nat (kv_head kv));
  p0 ← at_ positions 0;
  _ ← ggml_assert (bool_decide (c_pos first = p0));
  last ← at_ (kv_cells kv) (Z.to_nat (u32 (kv_head kv + count - 1)));
  p1 ← at_ positions (Z.to_nat (u32 (count - 1)));
  _ ← ggml_assert (bool_decide (c_pos last = p1));
  _ ← ggml_assert (has_seq_id first dest_seq_id);
  ggml_assert (has_seq_id last dest_seq_id).

Definition seq_batch (ms : list cell_meta) (dest_seq_id : Z) : llama_batch :=
  Batch (Some (cm_token <$> ms)) (cm_pos <$> ms) ((λ _, [dest_seq_id]) <$> ms).

Definition read_seq_meta (g : state_geom) (cell_count dest_seq_id : Z) : rd bool :=
  kv ← get_cache;
  if bool_decide (kv_size kv < cell_count) then mret false
  else
    '(_, kv, _) ← lift (llama_kv_cache_seq_rm kv dest_seq_id (-1) (-1) None);
    _ ← put_cache kv;
    ms ← read_batch g (kv_qsa kv) (Z.to_nat cell_count);
    match ms with
    | None => mret false
    | Some ms =>
      '(ok, kv) ← lift (llama_kv_cache_find_slot kv (seq_batch ms dest_seq_id) LLAMA_TOKEN_NULL false);
      _ ← put_cache kv;
      if negb ok then mret false
      else
        _ ← lift (check_slot kv (cm_pos <$> ms) dest_seq_id);
        if kv_qsa kv then
          cells ← lift (put_qsa ms (Z.to_nat (kv_head kv)) (kv_cells kv));
          _ ← put_cache (with_state kv (kv_head kv) (kv_used kv) cells);
          mret true
        else mret true
    end.

(** The whole cache: cell by cell, with the sequences of each, which are stored as
    they are read. *)
Definition put_cell (i : nat) (c : llama_kv_cell) : rd unit :=
  kv ← get_cache;
  cells ← lift (put (kv_cells kv) i c);
  put_cache (with_state kv (kv_head kv) (kv_used kv) cells).

Definition set_cell (i : nat) (f : llama_kv_cell → llama_kv_cell) : rd unit :=
  kv ← get_cache;
  c ← lift (at_ (kv_cells kv) i);
  put_cell i (f c).

Definition set_token (t : Z) (c : llama_kv_cell) : llama_kv_cell :=
  Cell (c_pos c) (c_delta c) (c_src c) t (c_qsa_pos c) (c_pos_h c) (c_pos_w c) (c_pos_e c) (c_seq_id c).
Definition set_qsa_pos (p : Z) (c : llama_kv_cell) : llama_kv_cell :=
  Cell (c_pos c) (c_delta c) (c_src c) (c_token c) p (c_pos_h c) (c_pos_w c) (c_pos_e c) (c_seq_id c).
Definition set_pos_h (h : Z) (c : llama_kv_cell) : llama_kv_cell :=
  Cell (c_pos c) (c_delta c) (c_src c) (c_token c) (c_qsa_pos c) h (c_pos_w c) (c_pos_e c) (c_seq_id c).
Definition set_pos_w (w : Z) (c : llama_kv_cell) : llama_kv_cell :=
  Cell (c_pos c) (c_delta c) (c_src c) (c_token c) (c_qsa_pos c) (c_pos_h c) w (c_pos_e c) (c_seq_id c).
Definition set_pos_e (e : Z) (c : llama_kv_cell) : llama_kv_cell :=
  Cell (c_pos c) (c_delta c) (c_src c) (c_token c) (c_qsa_pos c) (c_pos_h c) (c_pos_w c) e (c_seq_id c).

Fixpoint read_seqs (g : state_geom) (i n : nat) : rd bool :=
  match n with
  | O => mret true
  | S n' =>
    seq_id ← read_i32;
    if bool_decide (seq_id < 0) || bool_decide (sg_n_seq_max g ≤ seq_id) then mret false
    else
      _ ← set_cell i (λ c, with_seq c (c_seq_id c ∪ {[seq_id]}));
      read_seqs g i n'
  end.

Definition read_cell (g : state_geom) (qsa : bool) (i : nat) : rd bool :=
  pos ← read_i32;
  n_seq_id ← read_u32;
  _ ← set_cell i (λ c, set_token LLAMA_TOKEN_NULL (with_pos c pos));
  _ ← (if sg_tokens g then token ← read_i32; set_cell i (set_token token) else mret tt);
  _ ← (if qsa : bool then
         p ← read_i32; _ ← set_cell i (set_qsa_pos p);
         h ← read_i32; _ ← set_cell i (set_pos_h h);
         w ← read_i32; _ ← set_cell i (set_pos_w w);
         e ← read_i32; set_cell i (set_pos_e e)
       else mret tt);
  read_seqs g i (Z.to_nat n_seq_id).

Fixpoint read_cells (g : state_geom) (qsa : bool) (n i : nat) : rd bool :=
  match n with
  | O => mret true
  | S n' =>
    ok ← read_cell g qsa i;
    if negb ok then mret false else read_cells g qsa n' (S i)
  end.

Definition read_full_meta (g : state_geom) (cell_count : Z) : rd bool :=
  kv ← get_cache;
  if bool_decide (kv_size kv < cell_count) then mret false
  else
    st ← get_state;
    _ ← put_state (clear_state st);
    ok ← read_cells g (kv_qsa kv) (Z.to_nat cell_count) 0;
    if negb ok then mret false
    else
      kv ← get_cache;
      _ ← put_cache (with_state kv 0 cell_count (kv_cells kv));
      mret true.

Definition read_kv_cache_meta (g : state_geom) (cell_count dest_seq_id : Z) : rd bool :=
  kv ← get_cache;
  marker ← (if kv_qsa kv then read_u32 else mret LLAMA_QSA_CELL_META_MAGIC);
  if negb (bool_decide (marker = LLAMA_QSA_CELL_META_MAGIC)) then mret false
  else if negb (bool_decide (dest_seq_id = -1)) then read_seq_meta g cell_count dest_seq_id
  else read_full_meta g cell_count.

(** *** The tensors *)

Definition set_rows (t : cache_tensor) (il : nat) (off : Z) (bs : bytes) : rd unit :=
  st ← get_state;
  d ← lift (at_ (ks_data st t) il);
  d ← lift (tensor_set d off bs);
  put_state (with_data st t (<[il := d]> (ks_data st t))).

(** Where the rows of a layer go: the slot of the cells, or the window. *)
Definition dest_rows (kv : llama_kv_cache) (comp : bool) (cell_count : Z) : Z * Z :=
  if comp then (live_swa kv, kv_sink_rows kv) else (cell_count, kv_head kv).

Definition read_rows (g : state_geom) (t : cache_tensor) (need_kv : bool) (cell_count : Z) (il : nat) : rd bool :=
  kv ← get_cache;
  tg ← lift (at_ (geom g t) il);
  has ← lift (has_cache kv need_kv il tg);
  let tg := geom_or tg has in
  type ← read_i32;
  if negb (bool_decide (type = tg_type tg)) then mret false
  else
    row ← read_u64;
    if negb (bool_decide (row = tg_row tg)) then mret false
    else if negb has then mret true
    else
      comp ← lift (is_compacted kv il);
      let '(n, dst) := dest_rows kv comp cell_count in
      if bool_decide (n = 0) then mret true
      else
        bs ← read (n * tg_row tg);
        _ ← set_rows t il (dst * tg_row tg) bs;
        mret true.

(** The rounds over the columns of the transposed values. *)
Fixpoint read_columns (il : nat) (el kv_size n dst : Z) (k j : nat) : rd unit :=
  match k with
  | O => mret tt
  | S k' =>
    bs ← read (n * el);
    _ ← set_rows TensorV il ((dst + Z.of_nat j * kv_size) * el) bs;
    read_columns il el kv_size n dst k' (S j)
  end.

Definition read_transposed (g : state_geom) (need_kv : bool) (cell_count : Z) (il : nat) : rd bool :=
  kv ← get_cache;
  tg ← lift (at_ (sg_v g) il);
  has ← lift (has_cache kv need_kv il tg);
  let tg := geom_or tg has in
  type ← read_i32;
  if negb (bool_decide (type = tg_type tg)) then mret false
  else
    el ← read_u32;
    if negb (bool_decide (el = tg_el tg)) then mret false
    else
      embd ← read_u32;
      if negb (bool_decide (embd = tg_embd tg)) then mret false
      else if negb has then mret true
      else
        comp ← lift (is_compacted kv il);
        let '(n, dst) := dest_rows kv comp cell_count in
        if bool_decide (n = 0) then mret true
        else
          kv_size ← lift (rows kv il);
          _ ← read_columns il (tg_el tg) kv_size n dst (Z.to_nat (tg_embd tg)) 0;
          mret true.

Definition read_state_rows (g : state_geom) (seq_id : Z) (il : nat) : rd bool :=
  kv ← get_cache;
  let tg := mjoin (sg_s g !! il) in
  let has := bool_decide (is_Some tg) in
  let tg := geom_or tg has in
  type ← read_i32;
  if negb (bool_decide (type = tg_type tg)) then mret false
  else
    row ← read_u64;
    if negb (bool_decide (row = tg_row tg)) then mret false
    else
      n_ref ← read_u32;
      let '(n, dst) :=
        if negb has then (0, 0)
        else if bool_decide (seq_id = -1) then (kv_state_slots kv, 0)
        else if llama_kv_qnext_seq_id_in_range kv seq_id then (1, seq_id) else (0, 0) in
      if negb (bool_decide (n_ref = n)) then mret false
      else if bool_decide (0 < n) then
        bs ← read (n * tg_row tg);
        _ ← set_rows TensorS il (dst * tg_row tg) bs;
        mret true
      else mret true.

Definition read_indexer (g : state_geom) (need_kv : bool) (cell_count : Z) (il : nat) : rd bool :=
  kv ← get_cache;
  match mjoin (sg_kr g !! il) with
  | Some tg =>
    if negb need_kv then mret true
    else
      type ← read_i32;
      if negb (bool_decide (type = tg_type tg)) then mret false
      else
        row ← read_u64;
        if negb (bool_decide (row = tg_row tg)) then mret false
        else if bool_decide (cell_count = 0) then mret true
        else
          bs ← read (cell_count * tg_row tg);
          _ ← set_rows TensorKr il (kv_head kv * tg_row tg) bs;
          mret true
  | None => mret true
  end.

Fixpoint read_layers (f : nat → rd bool) (n il : nat) : rd bool :=
  match n with
  | O => mret true
  | S n' =>
    ok ← f il;
    if negb ok then mret false else read_layers f n' (S il)
  end.

Definition read_kv_cache_data (g : state_geom) (cell_count seq_id : Z) (need_kv : bool) : rd bool :=
  kv ← get_cache;
  let n_layer := length (sg_k g) in
  v_state_ref ← read_u32;
  n_layer_ref ← read_u32;
  if negb (bool_decide (n_layer_ref = Z.of_nat n_layer)) then mret false
  else if bool_decide (kv_size kv < cell_count) then mret false
  else if negb (eqb (bool_decide (v_state_ref = 2)) (bool_decide (sg_v g = []))) ||
          (negb (bool_decide (v_state_ref = 2)) && negb (eqb (sg_v_trans g) (bool_decide (v_state_ref = 1))))
  then mret false
  else
    ok ← read_layers (read_rows g TensorK need_kv cell_count) n_layer 0;
    if negb ok then mret false
    else
      ok ← (if bool_decide (v_state_ref = 0) then read_layers (read_rows g TensorV need_kv cell_count) n_layer 0
            else if bool_decide (v_state_ref = 1) then read_layers (read_transposed g need_kv cell_count) n_layer 0
            else mret true);
      if negb ok then mret false
      else
        qnext_ref ← read_u32;
        if negb (eqb (negb (bool_decide (qnext_ref = 0))) (llama_kv_has_qnext_state_storage kv)) then mret false
        else
          ok ← (if bool_decide (qnext_ref = 0) then mret true
                else read_layers (read_state_rows g seq_id) n_layer 0);
          if negb ok then mret false
          else
            dsa_ref ← read_u32;
            if negb (eqb (negb (bool_decide (dsa_ref = 0))) (negb (bool_decide (sg_kr g = [])))) then mret false
            else if bool_decide (dsa_ref = 0) then mret true
            else read_layers (read_indexer g need_kv cell_count) n_layer 0.

Definition read_kv_cache (g : state_geom) (seq_id : Z) (need_kv : bool) : rd unit :=
  kv ← get_cache;
  cell_count ← read_u32;
  let compact_blob := bool_decide (cell_count = LLAMA_SWA_COMPACT_LAYOUT_MAGIC) in
  if negb (eqb (any_compacted kv) compact_blob)
  then lift (Err (Throw "failed to restore kv cache: incompatible compacted sliding-window layout"))
  else
    '(cell_count, pos_base, head_swa) ←
      (if compact_blob then
         size_swa ← read_u32; live ← read_u32; pos_base ← read_i32; head_swa ← read_u32;
         cell_count ← read_u32;
         if negb (llama_kv_cache_compact_header_valid kv cell_count size_swa live pos_base head_swa)
         then lift (Err (Throw "failed to restore kv cache: inconsistent compacted window state"))
         else mret (cell_count, pos_base, head_swa)
       else mret (cell_count, 0, 0));
    ok ← read_kv_cache_meta g cell_count seq_id;
    ok ← (if ok && compact_blob then
            kv ← get_cache;
            _ ← put_cache (with_swa kv head_swa pos_base);
            kv ← get_cache;
            mret (llama_kv_cache_compact_contiguous_positions_valid kv cell_count seq_id)
          else mret ok);
    ok ← (if ok : bool then read_kv_cache_data g cell_count seq_id need_kv else mret false);
    if ok : bool then mret tt
    else
      kv ← get_cache;
      _ ← (if bool_decide (seq_id = -1) then st ← get_state; put_state (clear_state st)
           else '(_, kv, _) ← lift (llama_kv_cache_seq_rm kv seq_id (-1) (-1) None); put_cache kv);
      lift (Err (Throw "failed to restore kv cache")).

(** ** The interface

    Exceptions are caught: 0 is returned, and [SIZE_MAX] for a context that cannot
    restore. *)
Definition SIZE_MAX : Z := 2 ^ 64 - 1.

Definition llama_state_io_supported (kv : llama_kv_cache) (seq_id : Z) : bool :=
  negb (bool_decide (seq_id < 0) && any_compacted kv).

Definition llama_state_seq_get_size (g : state_geom) (st : kv_state) (seq_id : Z) (need_kv : bool) : res Z :=
  if negb (llama_state_io_supported (ks_kv st) seq_id) then Ok 0
  else
    calls ← write_kv_cache g st seq_id need_kv;
    mret (run_dummy calls).

(** The size that is returned and what is written into a buffer of [size] bytes. *)
Definition llama_state_seq_get_data (g : state_geom) (st : kv_state) (size : Z) (seq_id : Z) (need_kv : bool)
    : res (Z * bytes) :=
  if negb (llama_state_io_supported (ks_kv st) seq_id) then Ok (0, [])
  else
    match (calls ← write_kv_cache g st seq_id need_kv; run_buffer size calls) with
    | Ok bs => Ok (Z.of_nat (length bs), bs)
    | Err (Throw _) => Ok (0, [])
    | Err e => Err e
    end.

Definition llama_state_seq_set_data (g : state_geom) (st : kv_state) (src : bytes) (dest_seq_id : Z) (need_kv : bool)
    : res (Z * kv_state) :=
  if negb (llama_state_io_supported (ks_kv st) dest_seq_id) then Ok (SIZE_MAX, st)
  else
    match read_kv_cache g dest_seq_id need_kv (st, src) with
    | (Ok _, (st, rest)) => Ok (Z.of_nat (length src - length rest), st)
    | (Err (Throw _), (st, _)) => Ok (0, st)
    | (Err e, _) => Err e
    end.
