(* ===== verification/StateIOSpec.v ===== *)
(** * Restoring what was saved

    Bytes, the two writers, the ranges of cells and the rows of tensors; then the
    round trips: a sequence, or the whole cache, restored from its saved state. *)
From S2P Require Import Prelude KvCache KvLemmas KvSpec StateIO.

(** ** Integers *)

Lemma length_le n v : length (le n v) = n.
Proof. induction n as [|n IH] in v |- *; [done|]. cbn. by rewrite IH. Qed.

Lemma byte_split v : Z.lor (Z.land v 255) (Z.shiftl (Z.shiftr v 8) 8) = v.
Proof.
  apply Z.bits_inj'. intros k Hk. rewrite Z.lor_spec, Z.land_spec. change 255 with (Z.ones 8).
  destruct (decide (k < 8)).
  - rewrite Z.ones_spec_low, Z.shiftl_spec_low, andb_true_r, orb_false_r by lia. done.
  - rewrite Z.ones_spec_high, Z.shiftl_spec_high, Z.shiftr_spec, andb_false_r by lia. cbn. f_equal. lia.
Qed.

Lemma un_le_le n v : 0 ≤ v < 2 ^ (8 * Z.of_nat n) → un_le (le n v) = v.
Proof.
  induction n as [|n IH] in v |- *; intros Hv; [cbn in *; lia|]. cbn [le un_le]. rewrite IH; [apply byte_split|].
  rewrite Z.shiftr_div_pow2 by lia. split; [apply Z.div_pos; lia|]. apply Z.div_lt_upper_bound; [lia|].
  rewrite <- Z.pow_add_r by lia. replace (8 + 8 * Z.of_nat n) with (8 * Z.of_nat (S n)) by lia. apply Hv.
Qed.

Lemma i32_u32 v : i32 (u32 v) = i32 v.
Proof. unfold i32, u32. rewrite Zplus_mod_idemp_l. done. Qed.

(** ** Steps of a reader *)

Lemma rd_step {A B} (m : rd A) (f : A → rd B) s a s' : m s = (Ok a, s') → (m ≫= f) s = f a s'.
Proof. intros H. unfold mbind, rd_bind. by rewrite H. Qed.

Ltac rd H := rewrite (rd_step _ _ _ _ _ H).

Lemma read_app st bs rest n : n = Z.of_nat (length bs) → read n (st, bs ++ rest) = (Ok bs, (st, rest)).
Proof.
  intros ->. unfold read. cbn [fst snd]. rewrite bool_decide_false by (rewrite length_app; lia).
  rewrite Nat2Z.id, take_app_length, drop_app_length. done.
Qed.

Lemma read_u32_app st v rest : read_u32 (st, le 4 (u32 v) ++ rest) = (Ok (u32 v), (st, rest)).
Proof.
  unfold read_u32. rewrite (rd_step _ _ _ _ _ (read_app st (le 4 (u32 v)) rest 4 ltac:(by rewrite length_le))).
  unfold mret, rd_ret. rewrite un_le_le; [done|]. apply u32_range.
Qed.

Lemma read_i32_app st v rest : - 2 ^ 31 ≤ v < 2 ^ 31 → read_i32 (st, le 4 (u32 v) ++ rest) = (Ok v, (st, rest)).
Proof.
  intros Hv. unfold read_i32. rewrite (rd_step _ _ _ _ _ (read_app st (le 4 (u32 v)) rest 4 ltac:(by rewrite length_le))).
  unfold mret, rd_ret. rewrite un_le_le by apply u32_range. by rewrite i32_u32, i32_small.
Qed.

Lemma read_u64_app st v rest : 0 ≤ v < 2 ^ 64 → read_u64 (st, le 8 (u64 v) ++ rest) = (Ok v, (st, rest)).
Proof.
  intros Hv. unfold read_u64. rewrite (rd_step _ _ _ _ _ (read_app st (le 8 (u64 v)) rest 8 ltac:(by rewrite length_le))).
  unfold mret, rd_ret. rewrite u64_small by done. rewrite un_le_le; [done|]. cbn in *. lia.
Qed.

(** ** Writers *)

Definition calls_bytes (calls : list write_call) : res bytes :=
  chunks ← mapM call_bytes calls; mret (mjoin chunks).

(** A writer that returns these bytes. *)
Definition writes (m : res (list write_call)) (bs : bytes) : Prop :=
  ∃ calls, m = Ok calls ∧ calls_bytes calls = Ok bs.

Lemma tensor_get_length d off size bs : tensor_get d off size = Ok bs → Z.of_nat (length bs) = size.
Proof.
  unfold tensor_get. bdec (0 ≤ off ∧ 0 ≤ size ∧ off + size ≤ Z.of_nat (length d)) as Hd; [|done]. intros [= <-].
  rewrite length_take, length_drop. lia.
Qed.

Lemma calls_bytes_cons c calls : calls_bytes (c :: calls) = (bs ← call_bytes c; rest ← calls_bytes calls; mret (bs ++ rest)).
Proof.
  unfold calls_bytes. cbn. destruct (call_bytes c) as [bs|]; [|done]. cbn [mbind res_bind].
  destruct (mapM call_bytes calls) as [chunks|]; done.
Qed.

Lemma calls_bytes_nil : calls_bytes [] = Ok [].
Proof. done. Qed.

Lemma calls_bytes_app calls1 calls2 :
  calls_bytes (calls1 ++ calls2) = (bs1 ← calls_bytes calls1; bs2 ← calls_bytes calls2; mret (bs1 ++ bs2)).
Proof.
  induction calls1 as [|c calls1 IH].
  { cbn [app]. rewrite calls_bytes_nil. by destruct (calls_bytes calls2). }
  cbn [app]. rewrite !calls_bytes_cons, IH. destruct (call_bytes c) as [bs|]; [|done]. cbn [mbind res_bind].
  destruct (calls_bytes calls1) as [bs1|]; [|done]. cbn [mbind res_bind mret res_ret].
  destruct (calls_bytes calls2) as [bs2|]; [|done]. cbn [mbind res_bind mret res_ret]. by rewrite app_assoc.
Qed.

Lemma calls_bytes_app_ok calls1 calls2 bs1 bs2 : calls_bytes calls1 = Ok bs1 → calls_bytes calls2 = Ok bs2 →
  calls_bytes (calls1 ++ calls2) = Ok (bs1 ++ bs2).
Proof. intros H1 H2. rewrite calls_bytes_app, H1. cbn [mbind res_bind]. by rewrite H2. Qed.

Lemma calls_bytes_write bs calls rest : calls_bytes calls = Ok rest → calls_bytes (Write bs :: calls) = Ok (bs ++ rest).
Proof. intros H. rewrite calls_bytes_cons, H. done. Qed.

Lemma calls_bytes_join {A} (f : A → list write_call) (g : A → bytes) (l : list A) :
  (∀ x, x ∈ l → calls_bytes (f x) = Ok (g x)) → calls_bytes (l ≫= f) = Ok (l ≫= g).
Proof.
  induction l as [|x l IH]; intros H; [done|]. cbn [mbind list_bind]. rewrite calls_bytes_app, H, IH by set_solver. done.
Qed.

Lemma calls_bytes_fmap {A} (f : A → write_call) (g : A → bytes) (l : list A) :
  (∀ x, x ∈ l → call_bytes (f x) = Ok (g x)) → calls_bytes (f <$> l) = Ok (l ≫= g).
Proof.
  induction l as [|x l IH]; intros H; [done|]. cbn [fmap list_fmap mbind list_bind]. rewrite calls_bytes_cons, H, IH by set_solver. done.
Qed.

Lemma call_bytes_length c bs : call_bytes c = Ok bs → Z.of_nat (length bs) = call_size c.
Proof. destruct c; cbn; [by intros [= <-]|]. apply tensor_get_length. Qed.

(** The writer that counts gives the size from which on a buffer is big enough. *)
Lemma run_buffer_spec calls bs : calls_bytes calls = Ok bs →
  run_dummy calls = Z.of_nat (length bs) ∧
  ∀ n, run_buffer n calls =
    if bool_decide (n < Z.of_nat (length bs)) && negb (bool_decide (calls = [])) then Err (Throw "unexpectedly reached end of buffer") else Ok bs.
Proof.
  induction calls as [|c calls IH] in bs |- *.
  { intros [= <-]. split; [done|]. intros n. by rewrite andb_false_r. }
  rewrite calls_bytes_cons. intros (b1 & Hb1 & (b2 & Hb2 & [= <-])%bind_Ok)%bind_Ok.
  destruct (IH b2 Hb2) as [Hd Hr]. pose proof (call_bytes_length c b1 Hb1) as Hl.
  split; [cbn; rewrite <- Hl; unfold run_dummy in Hd; rewrite Hd, length_app; lia|].
  intros n. cbn [run_buffer negb]. rewrite (bool_decide_false (c :: calls = [])) by done. rewrite andb_true_r, <- Hl.
  rewrite length_app. bdec (n < Z.of_nat (length b1)) as H1.
  { by rewrite bool_decide_true by lia. }
  rewrite Hb1. cbn [mbind res_bind]. rewrite Hr.
  bdec (n - Z.of_nat (length b1) < Z.of_nat (length b2)) as H2.
  - rewrite (bool_decide_true (n < _)) by lia. bdec (calls = []) as Hn; [|done]. subst calls. injection Hb2 as <-. cbn in H2. lia.
  - rewrite (bool_decide_false (n < _)) by lia. done.
Qed.

(** ** The cells that are saved *)

Fixpoint sel_from (seq_id : Z) (cells : list llama_kv_cell) (i : nat) : list nat :=
  match cells with
  | [] => []
  | c :: cells' => if selected seq_id c then i :: sel_from seq_id cells' (S i) else sel_from seq_id cells' (S i)
  end.

Definition saved_cells (seq_id : Z) (kv : llama_kv_cache) : list nat := sel_from seq_id (kv_cells kv) 0.

Definition range_sum (ranges : list (Z * Z)) : Z := foldr (λ '(first, last) n, last - first + n) 0 ranges.

(** The ranges cover exactly the cells that are selected, in order. *)
Lemma find_ranges_spec seq_id size cells i b n ranges :
  Z.of_nat (i + length cells) = size → b = size ∨ 0 ≤ b < Z.of_nat i →
  find_ranges seq_id size cells (Z.of_nat i) b = (n, ranges) →
  n = Z.of_nat (length (sel_from seq_id cells i)) ∧
  range_cells ranges = (if decide (b = size) then [] else seq (Z.to_nat b) (i - Z.to_nat b)) ++ sel_from seq_id cells i ∧
  Forall (λ '(first, last), 0 ≤ first ≤ last ∧ last ≤ size) ranges ∧
  range_sum ranges = (if decide (b = size) then 0 else Z.of_nat i - b) + n.
Proof.
  induction cells as [|c cells IH] in i, b, n, ranges |- *; intros Hs Hb; cbn [find_ranges sel_from].
  - intros [= <- <-]. cbn in Hs. bdec (b = size) as E; [done|].
    unfold range_cells. cbn. rewrite !app_nil_r.
    split; [done|]. split; [f_equal; lia|]. split; [repeat constructor; lia|lia].
  - cbn in Hs. replace (Z.of_nat i + 1) with (Z.of_nat (S i)) by lia. destruct (selected seq_id c).
    + destruct (find_ranges _ _ _ _ _) as [n' ranges'] eqn:E. intros [= <- <-].
      apply IH in E as (-> & Hr & Hf & Hsum); [|lia|destruct (bool_decide _); lia].
      split; [cbn; lia|]. bdec (b = size) as Eb.
      * rewrite decide_False in Hr by lia. rewrite decide_False in Hsum by lia.
        split; [|split; [done|lia]]. rewrite Hr. replace (S i - Z.to_nat (Z.of_nat i))%nat with 1%nat by lia. cbn. by rewrite Nat2Z.id.
      * rewrite ?decide_False in Hr by done. rewrite ?decide_False in Hsum by done.
        split; [|split; [done|lia]]. rewrite Hr. replace (S i - Z.to_nat b)%nat with (S (i - Z.to_nat b)) by lia.
        rewrite seq_S. replace (Z.to_nat b + (i - Z.to_nat b))%nat with i by lia. by rewrite <- app_assoc.
    + destruct (find_ranges _ _ _ _ _) as [n' ranges'] eqn:E. intros [= <- <-].
      apply IH in E as (-> & Hr & Hf & Hsum); [|lia|by left].
      rewrite decide_True in Hr by done. rewrite decide_True in Hsum by done. split; [done|]. bdec (b = size) as Eb.
      * done.
      * unfold range_cells in *. cbn [mbind list_bind]. rewrite Hr.
        split; [f_equal; f_equal; lia|]. split; [constructor; [lia|done]|]. unfold range_sum in *. cbn [foldr]. lia.
Qed.

Lemma sel_from_lookup seq_id cells i r idx : sel_from seq_id cells i !! r = Some idx →
  ∃ c, (i ≤ idx)%nat ∧ cells !! (idx - i)%nat = Some c ∧ selected seq_id c = true.
Proof.
  induction cells as [|c cells IH] in i, r |- *; [done|]. cbn. destruct (selected seq_id c) eqn:E.
  - destruct r as [|r]; cbn.
    + intros [= <-]. exists c. rewrite Nat.sub_diag. done.
    + intros H. destruct (IH _ _ H) as (c' & ? & ? & ?). exists c'. split; [lia|]. by replace (idx - i)%nat with (S (idx - S i)) by lia.
  - intros H. destruct (IH _ _ H) as (c' & ? & ? & ?). exists c'. split; [lia|]. by replace (idx - i)%nat with (S (idx - S i)) by lia.
Qed.

Lemma saved_cells_lookup seq_id kv idx : idx ∈ saved_cells seq_id kv → ∃ c, kv_cells kv !! idx = Some c ∧ selected seq_id c = true.
Proof.
  intros [r Hr]%list_elem_of_lookup. apply sel_from_lookup in Hr as (c & _ & Hc & Hs). rewrite Nat.sub_0_r in Hc. eauto.
Qed.

(** ** Rows

    The part of [w] bytes at index [i]. *)
Definition slot_of (w : nat) (d : bytes) (i : nat) : bytes := take w (drop (i * w) d).

Lemma slot_of_length w d i : ((i + 1) * w ≤ length d)%nat → length (slot_of w d i) = w.
Proof. intros H. unfold slot_of. rewrite length_take, length_drop. lia. Qed.

Lemma slots_range w d a n : ((a + n) * w ≤ length d)%nat →
  take (n * w) (drop (a * w) d) = seq a n ≫= slot_of w d.
Proof.
  induction n as [|n IH] in a |- *; intros H; [done|]. cbn [seq mbind list_bind].
  rewrite <- (IH (S a)) by lia. unfold slot_of.
  replace (S n * w)%nat with (w + n * w)%nat by lia.
  rewrite <- (take_take_drop _ w (n * w)), drop_drop. do 3 f_equal; lia.
Qed.

Lemma bind_bind {A B C} (l : list A) (f : A → list B) (h : B → list C) : (l ≫= f) ≫= h = l ≫= (λ x, f x ≫= h).
Proof. induction l as [|x l IH]; [done|]. cbn [mbind list_bind]. by rewrite bind_app, IH. Qed.

(** What one call writes for a range. *)
Lemma tensor_get_range w d first last : 0 ≤ first ≤ last → (Z.to_nat last * w ≤ length d)%nat →
  tensor_get d (first * Z.of_nat w) ((last - first) * Z.of_nat w) =
  Ok (seq (Z.to_nat first) (Z.to_nat (last - first)) ≫= slot_of w d).
Proof.
  intros Hf Hl. unfold tensor_get. rewrite bool_decide_true by nia. f_equal.
  rewrite <- slots_range by nia. f_equal; [nia|]. f_equal. nia.
Qed.

Lemma slot_of_bind w (f : nat → bytes) ids r i : (∀ k, k ∈ ids → length (f k) = w) → ids !! r = Some i →
  slot_of w (ids ≫= f) r = f i.
Proof.
  induction ids as [|k ids IH] in r |- *; intros Hw Hr; [done|]. cbn [mbind list_bind]. unfold slot_of.
  destruct r as [|r].
  - injection Hr as ->. cbn [Nat.mul]. rewrite drop_0. apply take_app_length'. by rewrite Hw by left.
  - cbn [Nat.mul]. rewrite <- (IH r); [|intros; apply Hw; by right|done]. unfold slot_of. f_equal.
    rewrite <- drop_drop. f_equal. apply drop_app_length'. by rewrite Hw by left.
Qed.

Lemma bind_length w (f : nat → bytes) ids : (∀ k, k ∈ ids → length (f k) = w) → length (ids ≫= f) = (length ids * w)%nat.
Proof.
  induction ids as [|k ids IH]; intros Hw; [done|]. cbn [mbind list_bind]. rewrite length_app, IH by set_solver.
  rewrite Hw by left. cbn. lia.
Qed.

(** Writing into a tensor. *)
Definition splice (d : bytes) (off : nat) (bs : bytes) : bytes := take off d ++ bs ++ drop (off + length bs) d.

Lemma length_splice d off bs : (off + length bs ≤ length d)%nat → length (splice d off bs) = length d.
Proof. intros H. unfold splice. rewrite !length_app, length_take, length_drop. lia. Qed.

(** Without effect where the bytes do not fit. *)
Definition splice_ok (d : bytes) (off : nat) (bs : bytes) : bytes :=
  if decide (off + length bs ≤ length d)%nat then splice d off bs else d.

Lemma length_splice_ok d off bs : length (splice_ok d off bs) = length d.
Proof. unfold splice_ok. case_decide; [by apply length_splice|done]. Qed.

Lemma splice_ok_nil d off : splice_ok d off [] = d.
Proof. unfold splice_ok, splice. case_decide; [|done]. cbn [length app]. by rewrite Nat.add_0_r, take_drop. Qed.

Lemma splice_lookup d off bs x : (off + length bs ≤ length d)%nat →
  splice d off bs !! x = if decide (off ≤ x < off + length bs)%nat then bs !! (x - off)%nat else d !! x.
Proof.
  intros H. unfold splice. assert (length (take off d) = off) as Ht by (rewrite length_take; lia).
  case_decide as Hx.
  - rewrite lookup_app_r, Ht, lookup_app_l by lia. done.
  - destruct (decide (x < off)%nat).
    + rewrite lookup_app_l, lookup_take_lt by lia. done.
    + rewrite lookup_app_r, Ht, lookup_app_r, lookup_drop by lia. f_equal. lia.
Qed.

Lemma slot_of_lookup w d i x : slot_of w d i !! x = if decide (x < w)%nat then d !! (i * w + x)%nat else None.
Proof.
  unfold slot_of. case_decide; [by rewrite lookup_take_lt, lookup_drop by done|]. apply lookup_take_ge. lia.
Qed.

Lemma slot_of_splice w d a bs n k : length bs = (n * w)%nat → ((a + n) * w ≤ length d)%nat →
  slot_of w (splice d (a * w) bs) k = if decide (a ≤ k < a + n)%nat then slot_of w bs (k - a) else slot_of w d k.
Proof.
  intros Hb Hl. apply list_eq. intros x. rewrite slot_of_lookup. destruct (decide (x < w)%nat) as [Hx|Hx].
  - rewrite splice_lookup by lia. rewrite Hb. case_decide as H1; case_decide as H2; rewrite ?slot_of_lookup, ?decide_True by done.
    + f_equal. nia.
    + exfalso. nia.
    + exfalso. nia.
    + done.
  - case_decide; by rewrite slot_of_lookup, decide_False by done.
Qed.

Lemma tensor_set_spec d off bs : 0 ≤ off → off + Z.of_nat (length bs) ≤ Z.of_nat (length d) →
  tensor_set d off bs = Ok (splice d (Z.to_nat off) bs).
Proof. intros ? H. unfold tensor_set. by rewrite bool_decide_true. Qed.

(** ** What is written

    A context: the types of its tensors have sizes that fit, every layer that has a
    tensor has its bytes; nothing is compacted.  To be saved, transposed values must
    be within reach of 32 bits. *)
Record geom_ok (g : state_geom) : Prop := {
  go_layers : Z.of_nat (length (sg_k g)) < 2 ^ 32;
  go_v : sg_v g = [] ∨ length (sg_v g) = length (sg_k g);
  go_others : (length (sg_kr g) ≤ length (sg_k g))%nat ∧ (length (sg_s g) ≤ length (sg_k g))%nat;
  go_seqs : sg_n_seq_max g ≤ 2 ^ 31;
  go_tensor : ∀ t il tg, geom g t !! il = Some (Some tg) →
    0 ≤ tg_type tg < 2 ^ 31 ∧ 0 ≤ tg_row tg < 2 ^ 64 ∧ 0 ≤ tg_el tg < 2 ^ 32 ∧ 0 ≤ tg_embd tg < 2 ^ 32 }.

Definition tensor_bytes (g : state_geom) (kv : llama_kv_cache) (t : cache_tensor) (tg : tensor_geom) : Z :=
  match t with
  | TensorS => kv_state_slots kv * tg_row tg
  | TensorV => if sg_v_trans g then tg_embd tg * kv_size kv * tg_el tg else kv_size kv * tg_row tg
  | _ => kv_size kv * tg_row tg
  end.

Record tensors_ok (g : state_geom) (st : kv_state) : Prop := {
  so_full : any_compacted (ks_kv st) = false;
  so_slots : 0 ≤ kv_state_slots (ks_kv st) < 2 ^ 31;
  so_geom : geom_ok g;
  so_data : ∀ t il tg, geom g t !! il = Some (Some tg) →
    ∃ d, ks_data st t !! il = Some d ∧ Z.of_nat (length d) = tensor_bytes g (ks_kv st) t tg }.

Record state_ok (g : state_geom) (st : kv_state) : Prop := {
  so_wf : kv_wf (ks_kv st);
  so_tensors : tensors_ok g st;
  so_trans : sg_v_trans g = true → ∀ il tg, sg_v g !! il = Some (Some tg) →
    tg_embd tg * kv_size (ks_kv st) * tg_el tg < 2 ^ 32 }.

Lemma has_cache_full kv need_kv il tg : any_compacted kv = false →
  has_cache kv need_kv il tg = Ok (bool_decide (is_Some tg) && need_kv).
Proof. intros H. unfold has_cache, is_compacted. rewrite H. cbn. by rewrite orb_false_r. Qed.

Definition nth_data (st : kv_state) (t : cache_tensor) (il : nat) : bytes := default [] (ks_data st t !! il).

(** The bytes of one layer. *)
Definition rows_wire (g : state_geom) (st : kv_state) (t : cache_tensor) (ids : list nat) (il : nat) : bytes :=
  match mjoin (geom g t !! il) with
  | Some tg => le 4 (u32 (tg_type tg)) ++ le 8 (u64 (tg_row tg)) ++ (ids ≫= slot_of (Z.to_nat (tg_row tg)) (nth_data st t il))
  | None => le 4 (u32 (-1)) ++ le 8 (u64 0)
  end.

(** Column [j] of the transposed values has [kv_size] elements. *)
Definition columns_wire (g : state_geom) (st : kv_state) (ids : list nat) (il : nat) : bytes :=
  match mjoin (sg_v g !! il) with
  | Some tg =>
    le 4 (u32 (tg_type tg)) ++ le 4 (u32 (tg_el tg)) ++ le 4 (u32 (tg_embd tg)) ++
    (j ← seq 0 (Z.to_nat (tg_embd tg));
     ids ≫= (λ i, slot_of (Z.to_nat (tg_el tg)) (nth_data st TensorV il) (j * Z.to_nat (kv_size (ks_kv st)) + i)))
  | None => le 4 (u32 (-1)) ++ le 4 (u32 0) ++ le 4 (u32 0)
  end.

Section writing.
Context (g : state_geom) (st : kv_state) (seq_id : Z) (Hok : state_ok g st).
Context (ranges : list (Z * Z)).
Context (Hranges : Forall (λ '(first, last), 0 ≤ first ≤ last ∧ last ≤ kv_size (ks_kv st)) ranges).

Lemma range_slots w d : (Z.to_nat (kv_size (ks_kv st)) * w ≤ length d)%nat →
  calls_bytes ((λ '(first, last), WriteTensor d (first * Z.of_nat w) ((last - first) * Z.of_nat w)) <$> ranges) =
  Ok (range_cells ranges ≫= slot_of w d).
Proof using Hranges.
  intros Hd. unfold range_cells. rewrite bind_bind.
  erewrite (calls_bytes_fmap _ (λ x, (λ '(first, last), seq (Z.to_nat first) (Z.to_nat (last - first))) x ≫= slot_of w d)); [done|].
  intros [first last] Hx. rewrite Forall_forall in Hranges. specialize (Hranges _ Hx). cbn in Hranges.
  cbn [call_bytes]. apply tensor_get_range; [lia|]. nia.
Qed.

Lemma write_rows_spec t il : t = TensorK ∨ t = TensorV ∧ sg_v_trans g = false → (il < length (geom g t))%nat →
  writes (write_rows g st t true ranges il) (rows_wire g st t (range_cells ranges) il).
Proof using Hok Hranges.
  intros Ht Hil. unfold write_rows, rows_wire. destruct (at_lt (geom g t) il Hil) as (tg & -> & Htg). rewrite Htg. cbn [mbind res_bind mjoin option_join].
  rewrite has_cache_full by apply (so_full _ _ (so_tensors _ _ Hok)). cbn [mbind res_bind]. destruct tg as [tg|].
  2: { rewrite (bool_decide_false (is_Some None)) by (by intros [? ?]). cbn [andb negb geom_or tg_type tg_row]. by eexists. }
  rewrite (bool_decide_true (is_Some (Some tg))) by done. cbn [andb negb geom_or default id].
  destruct (so_data _ _ (so_tensors _ _ Hok) t il tg Htg) as (d & Hd & Hlen). unfold nth_data. rewrite Hd. unfold at_. rewrite Hd. cbn [mbind res_bind default id].
  unfold is_compacted. rewrite (so_full _ _ (so_tensors _ _ Hok)). cbn [mbind res_bind].
  pose proof (go_tensor _ (so_geom _ _ (so_tensors _ _ Hok)) t il tg Htg) as (_ & Hrow & _).
  assert (Z.of_nat (length d) = kv_size (ks_kv st) * tg_row tg) as Hlen'.
  { rewrite Hlen. by destruct Ht as [->|[-> Hv]]; cbn; rewrite ?Hv. }
  eexists. split; [done|]. cbn [app]. apply calls_bytes_write, calls_bytes_write.
  pose proof (range_slots (Z.to_nat (tg_row tg)) d ltac:(nia)) as Hr. by rewrite Z2Nat.id in Hr by lia.
Qed.

Lemma v_src_offset_small first j n el : 0 ≤ first → 0 ≤ j → 0 ≤ n → 0 ≤ el → (first + j * n) * el < 2 ^ 32 → 0 < el →
  v_src_offset first j n el = (first + j * n) * el.
Proof.
  intros. assert (0 ≤ j * n) by nia. assert (first + j * n < 2 ^ 32) by nia. unfold v_src_offset.
  rewrite (u32_small (j * n)), (u32_small (first + _)), u32_small by nia. done.
Qed.

(** Column [j] of the ranges. *)
Lemma column_slots d el j : 0 ≤ el → (Z.of_nat j + 1) * kv_size (ks_kv st) * el < 2 ^ 32 →
  (Z.of_nat j + 1) * kv_size (ks_kv st) * el ≤ Z.of_nat (length d) →
  calls_bytes ((λ '(first, last), WriteTensor d (v_src_offset first (Z.of_nat j) (kv_size (ks_kv st)) el) ((last - first) * el)) <$> ranges) =
  Ok (range_cells ranges ≫= (λ i, slot_of (Z.to_nat el) d (j * Z.to_nat (kv_size (ks_kv st)) + i))).
Proof using Hranges.
  intros Hel Hfit Hd. unfold range_cells. rewrite bind_bind. set (n := kv_size (ks_kv st)) in *.
  erewrite (calls_bytes_fmap _ (λ x, (λ '(first, last), seq (Z.to_nat first) (Z.to_nat (last - first))) x ≫= (λ i, slot_of (Z.to_nat el) d (j * Z.to_nat n + i)))); [done|].
  intros [first last] Hx. rewrite Forall_forall in Hranges. specialize (Hranges _ Hx). cbn in Hranges. cbn [call_bytes].
  destruct (decide (el = 0)) as [->|Hel0].
  { unfold v_src_offset. rewrite !Z.mul_0_r. unfold tensor_get. rewrite bool_decide_true by (rewrite u32_small by lia; lia).
    f_equal. cbn. induction (seq _ _) as [|x l IH]; [done|]. cbn [mbind list_bind]. rewrite <- IH. done. }
  assert ((first + Z.of_nat j * n) * el < 2 ^ 32) by nia.
  rewrite v_src_offset_small by lia.
  rewrite <- (Z2Nat.id el) at 1 2 by lia.
  replace (last - first) with ((last + Z.of_nat j * n) - (first + Z.of_nat j * n)) by lia.
  rewrite tensor_get_range; [|nia|nia]. f_equal.
  replace (Z.to_nat (first + Z.of_nat j * n)) with (j * Z.to_nat n + Z.to_nat first)%nat by nia.
  rewrite <- fmap_add_seq. replace (last + Z.of_nat j * n - (first + Z.of_nat j * n)) with (last - first) by lia.
  generalize (seq (Z.to_nat first) (Z.to_nat (last - first))). intros l. induction l as [|x l IH]; [done|].
  cbn [fmap list_fmap mbind list_bind] in *. by rewrite IH.
Qed.

Lemma write_transposed_spec il : sg_v_trans g = true → (il < length (sg_v g))%nat →
  writes (write_transposed g st true ranges il) (columns_wire g st (range_cells ranges) il).
Proof using Hok Hranges.
  intros Htr Hil. unfold write_transposed, columns_wire. destruct (at_lt (sg_v g) il Hil) as (tg & -> & Htg). rewrite Htg. cbn [mbind res_bind mjoin option_join].
  rewrite has_cache_full by apply (so_full _ _ (so_tensors _ _ Hok)). cbn [mbind res_bind]. destruct tg as [tg|].
  2: { rewrite (bool_decide_false (is_Some None)) by (by intros [? ?]). cbn [andb negb geom_or tg_type tg_el tg_embd]. by eexists. }
  rewrite (bool_decide_true (is_Some (Some tg))) by done. cbn [andb negb geom_or default id].
  destruct (so_data _ _ (so_tensors _ _ Hok) TensorV il tg Htg) as (d & Hd & Hlen). unfold nth_data. rewrite Hd. unfold at_. cbn [ks_data] in Hd. rewrite Hd. cbn [mbind res_bind default id].
  unfold rows, is_compacted. rewrite (so_full _ _ (so_tensors _ _ Hok)). cbn [mbind res_bind].
  pose proof (so_geom _ _ (so_tensors _ _ Hok)) as Hg. pose proof (go_tensor _ Hg TensorV il tg Htg) as (_ & _ & Hel & Hembd).
  pose proof (so_trans _ _ Hok Htr il tg Htg) as Hfit. cbn [tensor_bytes] in Hlen. rewrite Htr in Hlen.
  pose proof (wf_size _ (so_wf _ _ Hok)) as Hsize.
  eexists. split; [done|]. cbn [app]. do 3 apply calls_bytes_write.
  assert (∀ (A B C : Type) (f : A → B) (h : B → list C) l, (f <$> l) ≫= h = l ≫= (λ x, h (f x))) as Hfb.
  { intros A B C f h l. induction l as [|x l IH]; [done|]. cbn [fmap list_fmap mbind list_bind] in *. by rewrite IH. }
  rewrite Hfb. apply calls_bytes_join. intros j [_ Hj]%elem_of_seq.
  assert ((Z.of_nat j + 1) * kv_size (ks_kv st) * tg_el tg ≤ tg_embd tg * kv_size (ks_kv st) * tg_el tg)
    by (apply Z.mul_le_mono_nonneg_r; [lia|]; apply Z.mul_le_mono_nonneg_r; lia).
  apply column_slots; unfold id; lia.
Qed.

(** Which rows of the recurrent states are saved: their number and the first. *)
Definition saved_states (has : bool) : Z * Z :=
  if negb has then (0, 0)
  else if bool_decide (seq_id = -1) then (kv_state_slots (ks_kv st), 0)
  else if llama_kv_qnext_seq_id_in_range (ks_kv st) seq_id && bool_decide (seq_id < kv_size (ks_kv st)) then
    match kv_cells (ks_kv st) !! Z.to_nat seq_id with
    | Some c => if llama_kv_qnext_seq_id_in_range (ks_kv st) (c_src c) then (1, c_src c) else (0, 0)
    | None => (0, 0)
    end
  else (0, 0).

Definition states_wire (il : nat) : bytes :=
  let tg := mjoin (sg_s g !! il) in
  let has := bool_decide (is_Some tg) in
  le 4 (u32 (tg_type (geom_or tg has))) ++ le 8 (u64 (tg_row (geom_or tg has))) ++
  le 4 (u32 (saved_states has).1) ++
  take (Z.to_nat ((saved_states has).1 * tg_row (geom_or tg has)))
    (drop (Z.to_nat ((saved_states has).2 * tg_row (geom_or tg has))) (nth_data st TensorS il)).

Lemma in_range_lt s : llama_kv_qnext_seq_id_in_range (ks_kv st) s = true → 0 ≤ s → s < 2 ^ 31 → s < kv_state_slots (ks_kv st).
Proof using.
  unfold llama_kv_qnext_seq_id_in_range. intros [_ H%bool_decide_eq_true]%andb_true_iff ? ?. rewrite u32_small in H by lia. done.
Qed.

Lemma saved_states_range has n s : saved_states has = (n, s) →
  (0 ≤ n ∧ 0 ≤ s ∧ n + s ≤ kv_state_slots (ks_kv st) ∧ n < 2 ^ 31) ∧ (has = false → n = 0 ∧ s = 0).
Proof using Hok.
  pose proof (so_slots _ _ (so_tensors _ _ Hok)) as Hs. pose proof (wf_bound _ (so_wf _ _ Hok)) as Hb. unfold saved_states.
  destruct has; cbn [negb]; [|intros [= <- <-]; split; [lia|done]].
  destruct (bool_decide (seq_id = -1)); [intros [= <- <-]; split; [lia|done]|].
  destruct (llama_kv_qnext_seq_id_in_range (ks_kv st) seq_id && _); [|intros [= <- <-]; split; [lia|done]].
  destruct (kv_cells (ks_kv st) !! Z.to_nat seq_id) as [c|] eqn:Ec; [|intros [= <- <-]; split; [lia|done]].
  destruct (llama_kv_qnext_seq_id_in_range (ks_kv st) (c_src c)) eqn:Er; intros [= <- <-]; (split; [|done]); [|lia].
  pose proof (Forall_lookup_1 _ _ _ _ (wf_src _ (so_wf _ _ Hok)) Ec) as Hsrc. cbn in Hsrc.
  pose proof (in_range_lt (c_src c) Er ltac:(lia) ltac:(lia)). lia.
Qed.

Lemma write_state_rows_spec il : writes (write_state_rows g st seq_id il) (states_wire il).
Proof using Hok.
  unfold write_state_rows, states_wire. set (otg := mjoin (sg_s g !! il)). set (has := bool_decide (is_Some otg)).
  set (rows := if negb has then Ok (0, 0) else _).
  assert (rows = Ok (saved_states has)) as ->.
  { subst rows. unfold saved_states. destruct has; [|done]. cbn [negb]. destruct (bool_decide (seq_id = -1)); [done|].
    destruct (llama_kv_qnext_seq_id_in_range (ks_kv st) seq_id) eqn:Er; [|done]. cbn [andb].
    bdec (seq_id < kv_size (ks_kv st)) as Hs; [|done]. pose proof (wf_size _ (so_wf _ _ Hok)).
    assert (0 ≤ seq_id) as H0.
    { unfold llama_kv_qnext_seq_id_in_range in Er. apply andb_true_iff in Er as [[_ Er%bool_decide_eq_true]%andb_true_iff _]. done. }
    destruct (at_lt (kv_cells (ks_kv st)) (Z.to_nat seq_id)) as (c & Hat & Hc); [lia|]. rewrite Hat, Hc. cbn.
    by destruct (llama_kv_qnext_seq_id_in_range (ks_kv st) (c_src c)). }
  destruct (saved_states has) as [n s] eqn:Es. cbn [mbind res_bind fst snd].
  destruct (saved_states_range has n s Es) as [(Hn & Hs & Hns & _) Hhas].
  bdec (0 < n) as H0.
  2: { assert (n = 0) as -> by lia. rewrite Z.mul_0_l. cbn [Z.to_nat take]. eexists. split; [done|].
       do 3 apply calls_bytes_write. done. }
  destruct otg as [tg|] eqn:Etg.
  2: { subst has. rewrite bool_decide_false in Hhas by (by intros [? ?]). destruct Hhas; [done|lia]. }
  subst has. rewrite (bool_decide_true (is_Some (Some tg))) in * by done. cbn [geom_or default id].
  assert (geom g TensorS !! il = Some (Some tg)) as Htg.
  { cbn. subst otg. destruct (sg_s g !! il) as [x|] eqn:E; cbn in Etg; [by rewrite Etg|done]. }
  destruct (so_data _ _ (so_tensors _ _ Hok) TensorS il tg Htg) as (d & Hd & Hlen). unfold nth_data. rewrite Hd. cbn [ks_data] in Hd.
  unfold at_. rewrite Hd. cbn [mbind res_bind mret res_ret default id]. eexists. split; [done|]. cbn [app].
  pose proof (go_tensor _ (so_geom _ _ (so_tensors _ _ Hok)) TensorS il tg Htg) as (_ & Hrow & _).
  do 3 apply calls_bytes_write. rewrite calls_bytes_cons. cbn [call_bytes]. unfold tensor_get. cbn [tensor_bytes] in Hlen.
  assert ((s + n) * tg_row tg ≤ kv_state_slots (ks_kv st) * tg_row tg) by (apply Z.mul_le_mono_nonneg_r; lia).
  rewrite bool_decide_true by lia. cbn. by rewrite app_nil_r.
Qed.

Definition indexer_wire (il : nat) : bytes :=
  match mjoin (sg_kr g !! il) with
  | Some tg => le 4 (u32 (tg_type tg)) ++ le 8 (u64 (tg_row tg)) ++
      (range_cells ranges ≫= slot_of (Z.to_nat (tg_row tg)) (nth_data st TensorKr il))
  | None => []
  end.

Lemma write_indexer_spec il : writes (write_indexer g st true ranges il) (indexer_wire il).
Proof using Hok Hranges.
  unfold write_indexer, indexer_wire. destruct (mjoin (sg_kr g !! il)) as [tg|] eqn:Etg; [|by eexists].
  assert (geom g TensorKr !! il = Some (Some tg)) as Htg.
  { cbn. destruct (sg_kr g !! il) as [x|] eqn:E; cbn in Etg; [by rewrite Etg|done]. }
  destruct (so_data _ _ (so_tensors _ _ Hok) TensorKr il tg Htg) as (d & Hd & Hlen). unfold nth_data. rewrite Hd. cbn [ks_data] in Hd.
  unfold at_. rewrite Hd. cbn [mbind res_bind mret res_ret default id]. eexists. split; [done|]. cbn [app].
  pose proof (go_tensor _ (so_geom _ _ (so_tensors _ _ Hok)) TensorKr il tg Htg) as (_ & Hrow & _). cbn [tensor_bytes] in Hlen.
  apply calls_bytes_write, calls_bytes_write.
  pose proof (range_slots (Z.to_nat (tg_row tg)) d ltac:(nia)) as Hr. by rewrite Z2Nat.id in Hr by lia.
Qed.

Lemma layers_spec (f : nat → res (list write_call)) (W : nat → bytes) :
  (∀ il, (il < length (sg_k g))%nat → writes (f il) (W il)) → writes (layers g f) (seq 0 (length (sg_k g)) ≫= W).
Proof using.
  intros H. unfold layers. set (N := length (sg_k g)) in *. assert (∀ il, (il < 0 + N)%nat → writes (f il) (W il)) as H' by done.
  clear H. revert H'. generalize 0%nat. intros a Ha. induction N as [|N IH] in a, Ha |- *; [by eexists|].
  cbn [seq mbind list_bind]. destruct (Ha a) as (c & Hc & Hb); [lia|]. destruct (IH (S a)) as (cs & Hcs & Hbs); [intros; apply Ha; lia|].
  cbn [mapM]. rewrite Hc. cbn [mbind res_bind]. apply bind_Ok in Hcs as (css & Hcss & [= <-]). rewrite Hcss. cbn [mbind res_bind mret res_ret].
  eexists. split; [done|]. change (mjoin (c :: css)) with (c ++ mjoin css). rewrite calls_bytes_app, Hb. cbn [mbind res_bind]. by rewrite Hbs.
Qed.

Definition values_wire : bytes :=
  if bool_decide (v_state g = 0) then seq 0 (length (sg_k g)) ≫= rows_wire g st TensorV (range_cells ranges)
  else if bool_decide (v_state g = 1) then seq 0 (length (sg_k g)) ≫= columns_wire g st (range_cells ranges)
  else [].

Definition data_wire : bytes :=
  le 4 (u32 (v_state g)) ++ le 4 (u32 (Z.of_nat (length (sg_k g)))) ++
  (seq 0 (length (sg_k g)) ≫= rows_wire g st TensorK (range_cells ranges)) ++ values_wire ++
  le 4 (u32 (if llama_kv_has_qnext_state_storage (ks_kv st) then 1 else 0)) ++
  (if llama_kv_has_qnext_state_storage (ks_kv st) then seq 0 (length (sg_k g)) ≫= states_wire else []) ++
  le 4 (u32 (if negb (bool_decide (sg_kr g = [])) then 1 else 0)) ++
  (if negb (bool_decide (sg_kr g = [])) then seq 0 (length (sg_k g)) ≫= indexer_wire else []).

Lemma write_data_spec : writes (write_kv_cache_data g st ranges seq_id true) data_wire.
Proof using Hok Hranges.
  unfold write_kv_cache_data, data_wire.
  destruct (layers_spec (write_rows g st TensorK true ranges) (rows_wire g st TensorK (range_cells ranges))) as (ks & -> & Hks).
  { intros il Hil. apply write_rows_spec; [by left|done]. }
  cbn [mbind res_bind]. set (vs := if bool_decide (v_state g = 0) then _ else _).
  assert (writes vs values_wire) as (cv & -> & Hvs).
  { subst vs. unfold values_wire. pose proof (go_v _ (so_geom _ _ (so_tensors _ _ Hok))) as Hv.
    bdec (v_state g = 0) as H0; [|bdec (v_state g = 1) as H1; [|by eexists]].
    - apply layers_spec. intros il Hil. unfold v_state in H0. bdec (sg_v g = []) as Hnil; [done|].
      destruct (sg_v_trans g) eqn:Etr; [done|]. destruct Hv as [?|Hv]; [done|]. apply write_rows_spec; [by right|cbn; lia].
    - apply layers_spec. intros il Hil. unfold v_state in H1. bdec (sg_v g = []) as Hnil; [done|].
      destruct (sg_v_trans g) eqn:Etr; [|done]. destruct Hv as [?|Hv]; [done|]. apply write_transposed_spec; [done|lia]. }
  cbn [mbind res_bind]. set (ss := if llama_kv_has_qnext_state_storage (ks_kv st) then layers g _ else _).
  assert (writes ss (if llama_kv_has_qnext_state_storage (ks_kv st) then seq 0 (length (sg_k g)) ≫= states_wire else [])) as (cs & -> & Hss).
  { subst ss. destruct (llama_kv_has_qnext_state_storage (ks_kv st)); [|by eexists]. apply layers_spec. intros il _. apply write_state_rows_spec. }
  cbn [mbind res_bind]. set (krs := if negb _ then layers g _ else _).
  assert (writes krs (if negb (bool_decide (sg_kr g = [])) then seq 0 (length (sg_k g)) ≫= indexer_wire else [])) as (ck & -> & Hkrs).
  { subst krs. destruct (negb (bool_decide (sg_kr g = []))); [|by eexists]. apply layers_spec. intros il _. apply write_indexer_spec. }
  cbn [mbind res_bind mret res_ret]. eexists. split; [done|]. cbn [app]. do 2 apply calls_bytes_write.
  apply calls_bytes_app_ok; [done|]. apply calls_bytes_app_ok; [done|]. apply calls_bytes_write.
  apply calls_bytes_app_ok; [done|]. by apply calls_bytes_write.
Qed.
End writing.

(** *** The cells *)

Definition cell_wire (g : state_geom) (kv : llama_kv_cache) (seq_id : Z) (c : llama_kv_cell) : bytes :=
  let seqs := if bool_decide (seq_id = -1) then merge_sort Z.le (elements (c_seq_id c)) else [] in
  le 4 (u32 (c_pos c)) ++ le 4 (u32 (Z.of_nat (length seqs))) ++
  (if sg_tokens g then le 4 (u32 (c_token c)) else []) ++
  (if kv_qsa kv then le 4 (u32 (c_qsa_pos c)) ++ le 4 (u32 (c_pos_h c)) ++ le 4 (u32 (c_pos_w c)) ++ le 4 (u32 (c_pos_e c)) else []) ++
  (seqs ≫= λ s, le 4 (u32 s)).

Lemma write_cell_spec g kv seq_id c : calls_bytes (write_cell g kv seq_id c) = Ok (cell_wire g kv seq_id c).
Proof.
  unfold write_cell, cell_wire. set (seqs := if bool_decide (seq_id = -1) then _ else _). cbn [app].
  do 2 apply calls_bytes_write. apply calls_bytes_app_ok.
  { destruct (sg_tokens g); [|done]. rewrite <- (app_nil_r (le 4 _)). by apply calls_bytes_write. }
  apply calls_bytes_app_ok.
  { destruct (kv_qsa kv); [|done]. do 3 apply calls_bytes_write. rewrite <- (app_nil_r (le 4 (u32 (c_pos_e c)))). by apply calls_bytes_write. }
  by apply (calls_bytes_fmap write_i32 (λ s, le 4 (u32 s))).
Qed.

Definition cells_of (kv : llama_kv_cache) (ids : list nat) : list llama_kv_cell := omap (λ i, kv_cells kv !! i) ids.

Lemma mapM_cells kv ids : (∀ i, i ∈ ids → (i < length (kv_cells kv))%nat) → mapM (at_ (kv_cells kv)) ids = Ok (cells_of kv ids).
Proof.
  induction ids as [|i ids IH]; intros H; [done|]. cbn [mapM]. destruct (at_lt (kv_cells kv) i) as (c & -> & Hc); [apply H; by left|].
  cbn [mbind res_bind]. rewrite IH by (intros; apply H; by right). unfold cells_of. cbn [omap list_omap]. by rewrite Hc.
Qed.

Definition state_wire (g : state_geom) (st : kv_state) (seq_id : Z) (ranges : list (Z * Z)) : bytes :=
  le 4 (u32 (Z.of_nat (length (range_cells ranges)))) ++
  (if kv_qsa (ks_kv st) then le 4 (u32 LLAMA_QSA_CELL_META_MAGIC) else []) ++
  (cells_of (ks_kv st) (range_cells ranges) ≫= cell_wire g (ks_kv st) seq_id) ++
  data_wire g st seq_id ranges.

(** The state that is saved: the number of cells, the cells, the rows. *)
Lemma write_kv_cache_spec g st seq_id : state_ok g st →
  ∃ ranges, range_cells ranges = saved_cells seq_id (ks_kv st) ∧
    writes (write_kv_cache g st seq_id true) (state_wire g st seq_id ranges).
Proof.
  intros Hok. pose proof (wf_size _ (so_wf _ _ Hok)) as Hsize. unfold write_kv_cache.
  destruct (find_ranges _ _ _ _ _) as [n ranges] eqn:E. exists ranges.
  apply (find_ranges_spec seq_id (kv_size (ks_kv st)) (kv_cells (ks_kv st)) 0) in E as (Hn & Hr & Hf & Hsum); [|lia|by left].
  rewrite decide_True in Hr by done. rewrite decide_True in Hsum by done. cbn [app] in Hr. split; [done|].
  change (foldr _ 0 ranges) with (range_sum ranges). rewrite bool_decide_true by lia. cbn [ggml_assert mbind res_bind].
  rewrite (so_full _ _ (so_tensors _ _ Hok)). cbn [mbind res_bind]. unfold write_kv_cache_meta.
  rewrite mapM_cells.
  2: { intros i Hi. rewrite Hr in Hi. apply saved_cells_lookup in Hi as (c & Hc & _). by apply lookup_lt_Some in Hc. }
  cbn [mbind res_bind mret res_ret].
  destruct (write_data_spec g st seq_id Hok ranges Hf) as (data & -> & Hd). cbn [mbind res_bind mret res_ret].
  eexists. split; [done|]. unfold state_wire. cbn [app]. rewrite Hn, <- Hr. apply calls_bytes_write.
  rewrite app_assoc. apply calls_bytes_app_ok; [|done]. apply calls_bytes_app_ok.
  - destruct (kv_qsa (ks_kv st)); [|done]. rewrite <- (app_nil_r (le 4 _)). by apply calls_bytes_write.
  - apply calls_bytes_join. intros c _. apply write_cell_spec.
Qed.

(** ** What is read

    Reading the bytes of the layer [il] changes at most the data of that layer. *)
Definition upd (g : state_geom) (t : cache_tensor) (F : nat → tensor_geom → bytes → bytes) (il : nat) (st : kv_state) : kv_state :=
  match mjoin (geom g t !! il) with
  | Some tg => with_data st t (alter (F il tg) il (ks_data st t))
  | None => st
  end.

Definition upds (g : state_geom) (t : cache_tensor) (F : nat → tensor_geom → bytes → bytes) (ils : list nat) (st : kv_state) : kv_state :=
  foldl (λ st il, upd g t F il st) st ils.

Lemma ks_data_with st t l t' : ks_data (with_data st t l) t' = if decide (t' = t) then l else ks_data st t'.
Proof. by destruct t, t'. Qed.

Lemma upd_kv g t F il st : ks_kv (upd g t F il st) = ks_kv st.
Proof. unfold upd. destruct (mjoin _); [|done]. by destruct t. Qed.

Lemma upds_kv g t F ils st : ks_kv (upds g t F ils st) = ks_kv st.
Proof. unfold upds. induction ils as [|il ils IH] in st |- *; [done|]. cbn. by rewrite IH, upd_kv. Qed.

Lemma geom_lookup g t il tg : mjoin (geom g t !! il) = Some tg ↔ geom g t !! il = Some (Some tg).
Proof. destruct (geom g t !! il) as [[x|]|]; cbn; split; congruence. Qed.

Lemma upds_data g t F ils st t' il : NoDup ils →
  ks_data (upds g t F ils st) t' !! il =
  match mjoin (geom g t !! il) with
  | Some tg => if decide (t' = t ∧ il ∈ ils) then F il tg <$> ks_data st t' !! il else ks_data st t' !! il
  | None => ks_data st t' !! il
  end.
Proof.
  unfold upds. induction ils as [|k ils IH] in st |- *; intros Hnd.
  { cbn. destruct (mjoin _); [|done]. rewrite decide_False by (intros [_ ?]; set_solver). done. }
  apply NoDup_cons in Hnd as [Hk Hnd]. cbn [foldl]. rewrite IH by done. clear IH.
  unfold upd. destruct (decide (il = k)) as [->|Hne].
  - destruct (mjoin (geom g t !! k)) as [tg|]; [|done]. rewrite decide_False by (intros [_ ?]; done).
    rewrite ks_data_with. destruct (decide (t' = t)) as [->|].
    + rewrite decide_True by (split; [done|left]). by rewrite list_lookup_alter_eq.
    + by rewrite decide_False by (intros [? _]; done).
  - assert (ks_data match mjoin (geom g t !! k) with
      | Some tg => with_data st t (alter (F k tg) k (ks_data st t)) | None => st end t' !! il = ks_data st t' !! il) as ->.
    { destruct (mjoin (geom g t !! k)); [|done]. rewrite ks_data_with. case_decide; [|done]. subst. by rewrite list_lookup_alter_ne. }
    destruct (mjoin (geom g t !! il)) as [tg|]; [|done].
    destruct (decide (t' = t)); [|rewrite !decide_False by (intros [? _]; done); done].
    destruct (decide (il ∈ ils)); [rewrite !decide_True by (split; [done|set_solver]); done|].
    rewrite !decide_False by (intros [_ ?]; set_solver). done.
Qed.

Lemma upd_ok g t F il st : (∀ tg d, length (F il tg d) = length d) → tensors_ok g st → tensors_ok g (upd g t F il st).
Proof.
  intros HF [Hf Hs Hg Hd]. split; rewrite ?upd_kv; try done. intros t' k tg Htg. destruct (Hd t' k tg Htg) as (d & Hk & Hl).
  unfold upd. destruct (mjoin (geom g t !! il)) as [tg'|] eqn:E; [|eauto]. rewrite ks_data_with. case_decide; [|eauto]. subst t'.
  destruct (decide (k = il)) as [->|]; [|rewrite list_lookup_alter_ne by done; eauto].
  rewrite list_lookup_alter_eq, Hk. eexists. split; [done|]. by rewrite HF.
Qed.

(** The rounds over the layers. *)
Lemma read_layers_spec g (f : nat → rd bool) (W : nat → bytes) t F (kv : llama_kv_cache) N :
  (∀ il tg d, length (F il tg d) = length d) →
  (∀ il st rest, (il < N)%nat → ks_kv st = kv → tensors_ok g st →
     f il (st, W il ++ rest) = (Ok true, (upd g t F il st, rest))) →
  ∀ n il st rest, (il + n = N)%nat → ks_kv st = kv → tensors_ok g st →
    read_layers f n il (st, (seq il n ≫= W) ++ rest) = (Ok true, (upds g t F (seq il n) st, rest)) ∧
    tensors_ok g (upds g t F (seq il n) st).
Proof.
  intros HF Hf. induction n as [|n IH]; intros il st rest Hn Hkv Hok; [done|].
  cbn [read_layers seq mbind list_bind]. rewrite <- app_assoc.
  rewrite (rd_step _ _ _ _ _ (Hf il st _ ltac:(lia) Hkv Hok)). cbn [negb].
  destruct (IH (S il) (upd g t F il st) rest) as [-> ?]; [lia|by rewrite upd_kv|by apply upd_ok|]. done.
Qed.

Lemma set_rows_spec st t il d off bs rest : ks_data st t !! il = Some d → 0 ≤ off → off + Z.of_nat (length bs) ≤ Z.of_nat (length d) →
  set_rows t il off bs (st, rest) = (Ok tt, (with_data st t (<[il := splice d (Z.to_nat off) bs]> (ks_data st t)), rest)).
Proof.
  intros Hd Ho Hl. unfold set_rows. unfold mbind, rd_bind, get_state, lift, put_state. cbn [fst snd]. unfold at_. rewrite Hd.
  rewrite tensor_set_spec by done. done.
Qed.

Lemma read_n_rows w (bs : bytes) n st rest : (length bs = n * w)%nat →
  read (Z.of_nat n * Z.of_nat w) (st, bs ++ rest) = (Ok bs, (st, rest)).
Proof. intros H. apply read_app. lia. Qed.
Lemma get_cache_spec st rest : get_cache (st, rest) = (Ok (ks_kv st), (st, rest)).
Proof. done. Qed.

Lemma lift_Ok {A} (a : A) s : lift (Ok a) s = (Ok a, s).
Proof. done. Qed.

Lemma with_data_id st t : with_data st t (ks_data st t) = st.
Proof. by destruct st, t. Qed.

Section reading.
Context (g : state_geom) (src : kv_state) (ids : list nat) (kv : llama_kv_cache).
Context (Hsrc : state_ok g src) (Hids : ∀ i, i ∈ ids → (i < Z.to_nat (kv_size (ks_kv src)))%nat).
Context (Hhead : 0 ≤ kv_head kv ∧ kv_head kv + Z.of_nat (length ids) ≤ kv_size kv ∧ kv_size kv < 2 ^ 30).

Definition rows_restored (t : cache_tensor) (il : nat) (tg : tensor_geom) (d : bytes) : bytes :=
  splice_ok d (Z.to_nat (kv_head kv) * Z.to_nat (tg_row tg)) (ids ≫= slot_of (Z.to_nat (tg_row tg)) (nth_data src t il)).

Lemma rows_restored_length t il tg d : length (rows_restored t il tg d) = length d.
Proof using. apply length_splice_ok. Qed.

(** Column [j] of the saved cells. *)
Definition column (il : nat) (tg : tensor_geom) (j : nat) : bytes :=
  ids ≫= (λ i, slot_of (Z.to_nat (tg_el tg)) (nth_data src TensorV il) (j * Z.to_nat (kv_size (ks_kv src)) + i)).

Definition columns_from (il : nat) (tg : tensor_geom) (js : list nat) (d : bytes) : bytes :=
  foldl (λ d j, splice_ok d ((Z.to_nat (kv_head kv) + j * Z.to_nat (kv_size kv)) * Z.to_nat (tg_el tg)) (column il tg j)) d js.

Definition columns_restored (il : nat) (tg : tensor_geom) (d : bytes) : bytes :=
  columns_from il tg (seq 0 (Z.to_nat (tg_embd tg))) d.

Lemma columns_from_length il tg js d : length (columns_from il tg js d) = length d.
Proof using. unfold columns_from. induction js as [|j js IH] in d |- *; [done|]. cbn. by rewrite IH, length_splice_ok. Qed.

(** The rows of the source have their length. *)
Lemma source_rows t il tg : t = TensorK ∨ t = TensorKr ∨ t = TensorV ∧ sg_v_trans g = false →
  geom g t !! il = Some (Some tg) → ∀ i, i ∈ ids → length (slot_of (Z.to_nat (tg_row tg)) (nth_data src t il) i) = Z.to_nat (tg_row tg).
Proof using Hsrc Hids.
  intros Ht Htg i Hi. specialize (Hids i Hi). destruct (so_data _ _ (so_tensors _ _ Hsrc) t il tg Htg) as (d & Hd & Hl).
  unfold nth_data. rewrite Hd. cbn [default id]. apply slot_of_length.
  pose proof (go_tensor _ (so_geom _ _ (so_tensors _ _ Hsrc)) t il tg Htg) as (_ & Hrow & _).
  assert (Z.of_nat (length d) = kv_size (ks_kv src) * tg_row tg) as Hl'.
  { rewrite Hl. destruct Ht as [->|[->|[-> Hv]]]; cbn; rewrite ?Hv; done. }
  assert ((i + 1) * Z.to_nat (tg_row tg) ≤ Z.to_nat (kv_size (ks_kv src)) * Z.to_nat (tg_row tg))%nat by (apply Nat.mul_le_mono_r; lia).
  nia.
Qed.


Lemma read_rows_spec t il st rest : t = TensorK ∨ t = TensorV ∧ sg_v_trans g = false → (il < length (geom g t))%nat →
  ks_kv st = kv → tensors_ok g st →
  read_rows g t true (Z.of_nat (length ids)) il (st, rows_wire g src t ids il ++ rest) =
  (Ok true, (upd g t (rows_restored t) il st, rest)).
Proof using Hsrc Hids Hhead.
  intros Ht Hil Hkv Hok. unfold read_rows. rd (get_cache_spec st (rows_wire g src t ids il ++ rest)). rewrite Hkv.
  destruct (at_lt (geom g t) il Hil) as (otg & Hat & Htg). rewrite Hat. rd (@lift_Ok (option tensor_geom) otg (st, rows_wire g src t ids il ++ rest)).
  rewrite has_cache_full by (rewrite <- Hkv; apply Hok). rd (@lift_Ok bool (bool_decide (is_Some otg) && true) (st, rows_wire g src t ids il ++ rest)).
  unfold rows_wire, upd. rewrite Htg. cbn [mjoin option_join]. rewrite andb_true_r. destruct otg as [tg|].
  2: { rewrite bool_decide_false by (by intros [? ?]). cbn [geom_or tg_type tg_row negb]. rewrite <- app_assoc.
       rd (read_i32_app st (-1) (le 8 (u64 0) ++ rest) ltac:(lia)). rewrite bool_decide_true by done. cbn [negb].
       rd (read_u64_app st 0 rest ltac:(lia)). done. }
  rewrite bool_decide_true by done. cbn [geom_or default id negb].
  pose proof (go_tensor _ (so_geom _ _ Hok) t il tg Htg) as (Hty & Hrow & _). rewrite <- !app_assoc.
  rd (read_i32_app st (tg_type tg) (le 8 (u64 (tg_row tg)) ++ (ids ≫= slot_of (Z.to_nat (tg_row tg)) (nth_data src t il)) ++ rest) ltac:(lia)).
  rewrite bool_decide_true by done. cbn [negb].
  rd (read_u64_app st (tg_row tg) ((ids ≫= slot_of (Z.to_nat (tg_row tg)) (nth_data src t il)) ++ rest) ltac:(lia)).
  rewrite bool_decide_true by done. cbn [negb].
  unfold is_compacted. rewrite <- Hkv, (so_full _ _ Hok), Hkv. rd (@lift_Ok bool false (st, (ids ≫= slot_of (Z.to_nat (tg_row tg)) (nth_data src t il)) ++ rest)).
  cbn [dest_rows]. destruct (so_data _ _ Hok t il tg Htg) as (d & Hd & Hl).
  assert (Z.of_nat (length d) = kv_size kv * tg_row tg) as Hl'.
  { rewrite Hl, Hkv. destruct Ht as [->|[-> Hv]]; cbn; rewrite ?Hv; done. }
  set (w := Z.to_nat (tg_row tg)) in *. set (bs := ids ≫= slot_of w (nth_data src t il)).
  assert (length bs = (length ids * w)%nat) as Hbs by (apply bind_length, source_rows; [tauto|done]).
  assert ((Z.to_nat (kv_head kv) + length ids) * w ≤ Z.to_nat (kv_size kv) * w)%nat by (apply Nat.mul_le_mono_r; lia).
  assert (Z.of_nat (length d) = Z.of_nat (Z.to_nat (kv_size kv) * w)) as Hl2 by (rewrite Hl'; subst w; rewrite Nat2Z.inj_mul; lia).
  assert (alter (rows_restored t il tg) il (ks_data st t) = <[il := splice d (Z.to_nat (kv_head kv) * w) bs]> (ks_data st t)) as ->.
  { apply list_eq. intros k. destruct (decide (k = il)) as [->|].
    - pose proof (lookup_lt_Some _ _ _ Hd). rewrite list_lookup_alter_eq, Hd, list_lookup_insert_eq by done. cbn. f_equal. unfold rows_restored, splice_ok. fold w bs.
      rewrite decide_True; [done|]. rewrite Hbs. lia.
    - by rewrite list_lookup_alter_ne, list_lookup_insert_ne. }
  bdec (Z.of_nat (length ids) = 0) as H0.
  { assert (bs = []) as -> by (apply nil_length_inv; rewrite Hbs; lia). unfold splice. cbn [length app]. rewrite Nat.add_0_r, take_drop.
    rewrite list_insert_id by done. rewrite with_data_id. done. }
  replace (tg_row tg) with (Z.of_nat w) by lia. rd (read_n_rows w bs (length ids) st rest Hbs).
  rd (set_rows_spec st t il d (kv_head kv * Z.of_nat w) bs rest Hd ltac:(nia) ltac:(nia)).
  replace (Z.to_nat (kv_head kv * Z.of_nat w)) with (Z.to_nat (kv_head kv) * w)%nat by nia. done.
Qed.

Lemma source_column il tg j : sg_v_trans g = true → sg_v g !! il = Some (Some tg) → (j < Z.to_nat (tg_embd tg))%nat →
  ∀ i, i ∈ ids → length (slot_of (Z.to_nat (tg_el tg)) (nth_data src TensorV il) (j * Z.to_nat (kv_size (ks_kv src)) + i)) = Z.to_nat (tg_el tg).
Proof using Hsrc Hids.
  intros Htr Htg Hj i Hi. specialize (Hids i Hi). destruct (so_data _ _ (so_tensors _ _ Hsrc) TensorV il tg Htg) as (d & Hd & Hl).
  unfold nth_data. rewrite Hd. cbn [default id]. apply slot_of_length.
  pose proof (go_tensor _ (so_geom _ _ (so_tensors _ _ Hsrc)) TensorV il tg Htg) as (_ & _ & Hel & Hembd).
  cbn [tensor_bytes] in Hl. rewrite Htr in Hl. set (n := kv_size (ks_kv src)) in *.
  assert ((j * Z.to_nat n + i + 1) * Z.to_nat (tg_el tg) ≤ (Z.to_nat (tg_embd tg) * Z.to_nat n) * Z.to_nat (tg_el tg))%nat.
  { apply Nat.mul_le_mono_r. assert ((j + 1) * Z.to_nat n ≤ Z.to_nat (tg_embd tg) * Z.to_nat n)%nat by (apply Nat.mul_le_mono_r; lia). lia. }
  assert (Z.of_nat (Z.to_nat (tg_embd tg) * Z.to_nat n * Z.to_nat (tg_el tg)) = Z.of_nat (length d)); [|lia].
  rewrite Hl, !Nat2Z.inj_mul, !Z2Nat.id by lia. done.
Qed.

Lemma alter_insert {X} (f : X → X) (l : list X) i x : l !! i = Some x → alter f i l = <[i := f x]> l.
Proof using.
  intros Hx. apply list_eq. intros k. destruct (decide (k = i)) as [->|].
  - pose proof (lookup_lt_Some _ _ _ Hx). by rewrite list_lookup_alter_eq, Hx, list_lookup_insert_eq.
  - by rewrite list_lookup_alter_ne, list_lookup_insert_ne.
Qed.

Lemma read_columns_spec il tg k : sg_v_trans g = true → sg_v g !! il = Some (Some tg) →
  ∀ j st d rest, (j + k = Z.to_nat (tg_embd tg))%nat → ks_v st !! il = Some d →
  Z.of_nat (length d) = tg_embd tg * kv_size kv * tg_el tg →
  read_columns il (tg_el tg) (kv_size kv) (Z.of_nat (length ids)) (kv_head kv) k j (st, (seq j k ≫= column il tg) ++ rest) =
  (Ok tt, (with_data st TensorV (alter (columns_from il tg (seq j k)) il (ks_v st)), rest)).
Proof using Hsrc Hids Hhead.
  intros Htr Htg. pose proof (go_tensor _ (so_geom _ _ (so_tensors _ _ Hsrc)) TensorV il tg Htg) as (_ & _ & Hel & Hembd).
  induction k as [|k IH]; intros j st d rest Hj Hd Hl.
  { cbn. rewrite (alter_insert _ _ _ d Hd). cbn. rewrite list_insert_id by done. by destruct st. }
  cbn [read_columns seq mbind list_bind]. rewrite <- app_assoc.
  set (el := Z.to_nat (tg_el tg)). assert (tg_el tg = Z.of_nat el) as Hel' by lia.
  assert (length (column il tg j) = (length ids * el)%nat) as Hc by (apply bind_length, source_column; [done..|lia]).
  assert ((Z.to_nat (kv_head kv) + j * Z.to_nat (kv_size kv)) * el + length ids * el ≤ length d)%nat as Hfit.
  { assert ((Z.to_nat (kv_head kv) + j * Z.to_nat (kv_size kv) + length ids) * el ≤ (Z.to_nat (tg_embd tg) * Z.to_nat (kv_size kv)) * el)%nat as H.
    { apply Nat.mul_le_mono_r. assert ((j + 1) * Z.to_nat (kv_size kv) ≤ Z.to_nat (tg_embd tg) * Z.to_nat (kv_size kv))%nat by (apply Nat.mul_le_mono_r; lia). lia. }
    assert (Z.of_nat (Z.to_nat (tg_embd tg) * Z.to_nat (kv_size kv) * el) = Z.of_nat (length d)); [|lia].
    rewrite Hl, !Nat2Z.inj_mul, !Z2Nat.id by lia. by rewrite <- Hel'. }
  rewrite Hel'. rd (read_n_rows el (column il tg j) (length ids) st ((seq (S j) k ≫= column il tg) ++ rest) Hc).
  rewrite <- Hel'.
  assert (0 ≤ Z.of_nat j * kv_size kv) as Hj0 by (apply Z.mul_nonneg_nonneg; lia).
  assert (Z.to_nat ((kv_head kv + Z.of_nat j * kv_size kv) * tg_el tg) = (Z.to_nat (kv_head kv) + j * Z.to_nat (kv_size kv)) * el)%nat as Hoff.
  { rewrite Hel', Z2Nat.inj_mul, Z2Nat.inj_add, Z2Nat.inj_mul, !Nat2Z.id by lia. done. }
  assert (0 ≤ (kv_head kv + Z.of_nat j * kv_size kv) * tg_el tg) as Hoff0 by (apply Z.mul_nonneg_nonneg; lia).
  rd (set_rows_spec st TensorV il d ((kv_head kv + Z.of_nat j * kv_size kv) * tg_el tg) (column il tg j)
        ((seq (S j) k ≫= column il tg) ++ rest) Hd Hoff0 ltac:(lia)).
  rewrite Hoff. set (d1 := splice d _ _). set (st1 := with_data st TensorV _).
  assert (ks_v st1 !! il = Some d1) as Hd1 by (apply list_lookup_insert_eq; by apply lookup_lt_Some in Hd).
  rewrite (IH (S j) st1 d1 rest) by (done || lia || (by unfold d1; rewrite length_splice by (rewrite Hc; lia))).
  do 3 f_equal. subst st1. cbn [with_data ks_v]. rewrite (alter_insert _ _ _ d1) by done.
  rewrite (alter_insert _ (ks_v st) _ d) by done. rewrite list_insert_insert_eq. unfold columns_from. cbn [seq foldl]. fold el.
  unfold splice_ok at 3. rewrite decide_True by (rewrite Hc; lia). done.
Qed.

Lemma read_transposed_spec il st rest : sg_v_trans g = true → (il < length (sg_v g))%nat →
  ks_kv st = kv → tensors_ok g st →
  read_transposed g true (Z.of_nat (length ids)) il (st, columns_wire g src ids il ++ rest) =
  (Ok true, (upd g TensorV columns_restored il st, rest)).
Proof using Hsrc Hids Hhead.
  intros Htr Hil Hkv Hok. unfold read_transposed. rd (get_cache_spec st (columns_wire g src ids il ++ rest)). rewrite Hkv.
  destruct (at_lt (sg_v g) il Hil) as (otg & Hat & Htg). rewrite Hat. rd (@lift_Ok (option tensor_geom) otg (st, columns_wire g src ids il ++ rest)).
  rewrite has_cache_full by (rewrite <- Hkv; apply Hok). rd (@lift_Ok bool (bool_decide (is_Some otg) && true) (st, columns_wire g src ids il ++ rest)).
  unfold columns_wire, upd. cbn [geom]. rewrite Htg. cbn [mjoin option_join]. rewrite andb_true_r. destruct otg as [tg|].
  2: { rewrite bool_decide_false by (by intros [? ?]). cbn [geom_or tg_type tg_el tg_embd negb]. rewrite <- !app_assoc.
       rd (read_i32_app st (-1) (le 4 (u32 0) ++ le 4 (u32 0) ++ rest) ltac:(lia)). rewrite bool_decide_true by done. cbn [negb].
       rd (read_u32_app st 0 (le 4 (u32 0) ++ rest)). rewrite bool_decide_true by done. cbn [negb].
       rd (read_u32_app st 0 rest). done. }
  rewrite bool_decide_true by done. cbn [geom_or default id negb].
  pose proof (go_tensor _ (so_geom _ _ Hok) TensorV il tg Htg) as (Hty & _ & Hel & Hembd). rewrite <- !app_assoc.
  change (j ← seq 0 (Z.to_nat (tg_embd tg)); _) with (seq 0 (Z.to_nat (tg_embd tg)) ≫= column il tg).
  rd (read_i32_app st (tg_type tg) (le 4 (u32 (tg_el tg)) ++ le 4 (u32 (tg_embd tg)) ++ (seq 0 (Z.to_nat (tg_embd tg)) ≫= column il tg) ++ rest) ltac:(lia)).
  rewrite bool_decide_true by done. cbn [negb].
  rd (read_u32_app st (tg_el tg) (le 4 (u32 (tg_embd tg)) ++ (seq 0 (Z.to_nat (tg_embd tg)) ≫= column il tg) ++ rest)).
  rewrite (u32_small (tg_el tg)), bool_decide_true by done. cbn [negb].
  rd (read_u32_app st (tg_embd tg) ((seq 0 (Z.to_nat (tg_embd tg)) ≫= column il tg) ++ rest)).
  rewrite (u32_small (tg_embd tg)), bool_decide_true by done. cbn [negb].
  unfold is_compacted. rewrite <- Hkv, (so_full _ _ Hok), Hkv. rd (@lift_Ok bool false (st, (seq 0 (Z.to_nat (tg_embd tg)) ≫= column il tg) ++ rest)).
  cbn [dest_rows]. destruct (so_data _ _ Hok TensorV il tg Htg) as (d & Hd & Hl). cbn [tensor_bytes] in Hl. rewrite Htr, Hkv in Hl. cbn [ks_data] in Hd |- *.
  bdec (Z.of_nat (length ids) = 0) as H0.
  { assert (ids = []) as Hnil by (apply nil_length_inv; lia).
    assert (∀ l : list nat, l ≫= column il tg = []) as ->.
    { intros l. unfold column. rewrite Hnil. induction l as [|j l IH]; [done|]. cbn [mbind list_bind] in *. by rewrite IH. }
    rewrite (alter_insert _ _ _ d Hd). assert (columns_restored il tg d = d) as ->.
    { unfold columns_restored, columns_from, column. rewrite Hnil. generalize (seq 0 (Z.to_nat (tg_embd tg))). intros l.
      induction l as [|j l IH]; [done|]. cbn [foldl mbind list_bind] in *. by rewrite splice_ok_nil. }
    rewrite list_insert_id by done. by destruct st. }
  unfold rows. rewrite <- Hkv, (so_full _ _ Hok), Hkv. rd (@lift_Ok Z (kv_size kv) (st, (seq 0 (Z.to_nat (tg_embd tg)) ≫= column il tg) ++ rest)).
  rd (read_columns_spec il tg (Z.to_nat (tg_embd tg)) Htr Htg 0 st d rest eq_refl Hd Hl). done.
Qed.

Lemma read_indexer_spec il st rest : ks_kv st = kv → tensors_ok g st →
  read_indexer g true (Z.of_nat (length ids)) il (st, match mjoin (sg_kr g !! il) with
    | Some tg => le 4 (u32 (tg_type tg)) ++ le 8 (u64 (tg_row tg)) ++ (ids ≫= slot_of (Z.to_nat (tg_row tg)) (nth_data src TensorKr il))
    | None => [] end ++ rest) =
  (Ok true, (upd g TensorKr (rows_restored TensorKr) il st, rest)).
Proof using Hsrc Hids Hhead.
  intros Hkv Hok. unfold read_indexer. set (wire := match mjoin (sg_kr g !! il) with Some _ => _ | None => _ end).
  rd (get_cache_spec st (wire ++ rest)). subst wire. rewrite Hkv. unfold upd. cbn [geom].
  destruct (mjoin (sg_kr g !! il)) as [tg|] eqn:Etg; [|done]. pose proof (proj1 (geom_lookup g TensorKr il tg) Etg) as Htg. cbn [negb].
  pose proof (go_tensor _ (so_geom _ _ Hok) TensorKr il tg Htg) as (Hty & Hrow & _). rewrite <- !app_assoc.
  rd (read_i32_app st (tg_type tg) (le 8 (u64 (tg_row tg)) ++ (ids ≫= slot_of (Z.to_nat (tg_row tg)) (nth_data src TensorKr il)) ++ rest) ltac:(lia)).
  rewrite bool_decide_true by done. cbn [negb].
  rd (read_u64_app st (tg_row tg) ((ids ≫= slot_of (Z.to_nat (tg_row tg)) (nth_data src TensorKr il)) ++ rest) ltac:(lia)).
  rewrite bool_decide_true by done. cbn [negb].
  destruct (so_data _ _ Hok TensorKr il tg Htg) as (d & Hd & Hl). cbn [tensor_bytes] in Hl. rewrite Hkv in Hl.
  set (w := Z.to_nat (tg_row tg)) in *. set (bs := ids ≫= slot_of w (nth_data src TensorKr il)).
  assert (length bs = (length ids * w)%nat) as Hbs by (apply bind_length, source_rows; [tauto|done]).
  assert ((Z.to_nat (kv_head kv) + length ids) * w ≤ Z.to_nat (kv_size kv) * w)%nat by (apply Nat.mul_le_mono_r; lia).
  assert (Z.of_nat (length d) = Z.of_nat (Z.to_nat (kv_size kv) * w)) as Hl2 by (rewrite Hl; subst w; rewrite Nat2Z.inj_mul; lia).
  rewrite (alter_insert _ _ _ d Hd). assert (rows_restored TensorKr il tg d = splice d (Z.to_nat (kv_head kv) * w) bs) as ->.
  { unfold rows_restored, splice_ok. fold w bs. rewrite decide_True; [done|]. rewrite Hbs. lia. }
  bdec (Z.of_nat (length ids) = 0) as H0.
  { assert (bs = []) as -> by (apply nil_length_inv; rewrite Hbs; lia). unfold splice. cbn [length app]. rewrite Nat.add_0_r, take_drop.
    rewrite list_insert_id by done. by rewrite with_data_id. }
  replace (tg_row tg) with (Z.of_nat w) by lia. rd (read_n_rows w bs (length ids) st rest Hbs).
  rd (set_rows_spec st TensorKr il d (kv_head kv * Z.of_nat w) bs rest Hd ltac:(nia) ltac:(nia)).
  replace (Z.to_nat (kv_head kv * Z.of_nat w)) with (Z.to_nat (kv_head kv) * w)%nat by nia. done.
Qed.

(** The recurrent states of sequence [sseq] go to the place of sequence [dseq]. *)
Context (sseq dseq : Z).

Definition dest_states : Z * Z :=
  if bool_decide (dseq = -1) then (kv_state_slots kv, 0)
  else if llama_kv_qnext_seq_id_in_range kv dseq then (1, dseq) else (0, 0).

Context (Hstates : (saved_states src sseq true).1 = dest_states.1) (Hdseq : dseq < 2 ^ 31).

Definition states_restored (il : nat) (tg : tensor_geom) (d : bytes) : bytes :=
  splice_ok d (Z.to_nat (dest_states.2 * tg_row tg))
    (take (Z.to_nat (dest_states.1 * tg_row tg)) (drop (Z.to_nat ((saved_states src sseq true).2 * tg_row tg)) (nth_data src TensorS il))).

Lemma dest_states_range : 0 ≤ kv_state_slots kv < 2 ^ 31 →
  0 ≤ dest_states.1 ∧ 0 ≤ dest_states.2 ∧ dest_states.1 + dest_states.2 ≤ kv_state_slots kv.
Proof using Hdseq.
  clear - Hdseq. intros Hs. unfold dest_states. destruct (bool_decide (dseq = -1)); [cbn; lia|].
  destruct (llama_kv_qnext_seq_id_in_range kv dseq) eqn:Er; [|cbn; lia]. cbn.
  unfold llama_kv_qnext_seq_id_in_range in Er. apply andb_true_iff in Er as [[_ H0%bool_decide_eq_true]%andb_true_iff H1%bool_decide_eq_true].
  rewrite u32_small in H1 by lia. lia.
Qed.

Lemma read_state_rows_spec il st rest : ks_kv st = kv → tensors_ok g st →
  read_state_rows g dseq il (st, states_wire g src sseq il ++ rest) =
  (Ok true, (upd g TensorS states_restored il st, rest)).
Proof using Hsrc Hstates Hdseq.
  clear Hids Hhead. intros Hkv Hok. unfold read_state_rows. rd (get_cache_spec st (states_wire g src sseq il ++ rest)). rewrite Hkv.
  unfold states_wire, upd. cbn [geom]. destruct (mjoin (sg_s g !! il)) as [tg|] eqn:Etg.
  2: { rewrite bool_decide_false by (by intros [? ?]). cbn [geom_or tg_type tg_row negb]. unfold saved_states. cbn [negb fst snd].
       rewrite !Z.mul_0_l. cbn [Z.to_nat take]. rewrite <- !app_assoc.
       rd (read_i32_app st (-1) (le 8 (u64 0) ++ le 4 (u32 0) ++ [] ++ rest) ltac:(lia)). rewrite bool_decide_true by done. cbn [negb].
       rd (read_u64_app st 0 (le 4 (u32 0) ++ [] ++ rest) ltac:(lia)). rewrite bool_decide_true by done. cbn [negb].
       rd (read_u32_app st 0 ([] ++ rest)). done. }
  pose proof (proj1 (geom_lookup g TensorS il tg) Etg) as Htg.
  rewrite bool_decide_true by done. cbn [geom_or default id negb].
  pose proof (go_tensor _ (so_geom _ _ Hok) TensorS il tg Htg) as (Hty & Hrow & _).
  assert (0 ≤ kv_state_slots kv < 2 ^ 31) as Hslots by (rewrite <- Hkv; apply Hok).
  pose proof (dest_states_range Hslots) as (Hn & Hs & Hns).
  destruct (saved_states src sseq true) as [n s] eqn:Es. cbn [fst snd] in *.
  destruct (saved_states_range g src sseq Hsrc true n s Es) as [(_ & Hs0 & Hns0 & _) _].
  rewrite <- !app_assoc. set (bs := take (Z.to_nat (n * tg_row tg)) (drop (Z.to_nat (s * tg_row tg)) (nth_data src TensorS il))).
  rd (read_i32_app st (tg_type tg) (le 8 (u64 (tg_row tg)) ++ le 4 (u32 n) ++ bs ++ rest) ltac:(lia)).
  rewrite bool_decide_true by done. cbn [negb].
  rd (read_u64_app st (tg_row tg) (le 4 (u32 n) ++ bs ++ rest) ltac:(lia)). rewrite bool_decide_true by done. cbn [negb].
  rd (read_u32_app st n (bs ++ rest)). rewrite u32_small by lia.
  change (if bool_decide (dseq = -1) then (kv_state_slots kv, 0)
    else if llama_kv_qnext_seq_id_in_range kv dseq then (1, dseq) else (0, 0)) with dest_states.
  destruct dest_states as [n' dst] eqn:Ed. cbn [fst snd] in *. subst n'. rewrite bool_decide_true by done. cbn [negb].
  destruct (so_data _ _ Hok TensorS il tg Htg) as (d & Hd & Hl). cbn [tensor_bytes] in Hl. rewrite Hkv in Hl.
  destruct (so_data _ _ (so_tensors _ _ Hsrc) TensorS il tg Htg) as (ds & Hds & Hls). cbn [tensor_bytes] in Hls.
  assert ((n + s) * tg_row tg ≤ kv_state_slots (ks_kv src) * tg_row tg) by (apply Z.mul_le_mono_nonneg_r; lia).
  assert ((n + dst) * tg_row tg ≤ kv_state_slots kv * tg_row tg) by (apply Z.mul_le_mono_nonneg_r; lia).
  assert (0 ≤ n * tg_row tg) by (apply Z.mul_nonneg_nonneg; lia). assert (0 ≤ s * tg_row tg) by (apply Z.mul_nonneg_nonneg; lia).
  assert (0 ≤ dst * tg_row tg) by (apply Z.mul_nonneg_nonneg; lia).
  assert (Z.of_nat (length bs) = n * tg_row tg) as Hbs.
  { subst bs. unfold nth_data. rewrite Hds. cbn [default id]. rewrite length_take, length_drop. lia. }
  rewrite (alter_insert _ _ _ d Hd). assert (states_restored il tg d = splice d (Z.to_nat (dst * tg_row tg)) bs) as ->.
  { unfold states_restored, splice_ok. rewrite Ed, Es. cbn [fst snd]. fold bs. rewrite decide_True; [done|]. lia. }
  bdec (0 < n) as Hn0.
  - rd (read_app st bs rest (n * tg_row tg) ltac:(lia)).
    rd (set_rows_spec st TensorS il d (dst * tg_row tg) bs rest Hd ltac:(lia) ltac:(lia)). done.
  - assert (n = 0) as -> by lia. assert (bs = []) as -> by (apply nil_length_inv; lia).
    unfold splice. cbn [length app]. rewrite Nat.add_0_r, take_drop. rewrite list_insert_id by done. by rewrite with_data_id.
Qed.

(** All layers of all tensors. *)
Definition restored_data (st : kv_state) : kv_state :=
  let ils := seq 0 (length (sg_k g)) in
  let st := upds g TensorK (rows_restored TensorK) ils st in
  let st := if bool_decide (v_state g = 0) then upds g TensorV (rows_restored TensorV) ils st
            else if bool_decide (v_state g = 1) then upds g TensorV columns_restored ils st else st in
  let st := if llama_kv_has_qnext_state_storage kv then upds g TensorS states_restored ils st else st in
  if negb (bool_decide (sg_kr g = [])) then upds g TensorKr (rows_restored TensorKr) ils st else st.

Lemma read_data_spec st ranges rest : ks_kv st = kv → tensors_ok g st → range_cells ranges = ids →
  llama_kv_has_qnext_state_storage kv = llama_kv_has_qnext_state_storage (ks_kv src) →
  read_kv_cache_data g (Z.of_nat (length ids)) dseq true (st, data_wire g src sseq ranges ++ rest) =
  (Ok true, (restored_data st, rest)).
Proof using Hsrc Hids Hhead Hstates Hdseq.
  intros Hkv Hok Hr Hq. unfold read_kv_cache_data, data_wire. rewrite Hr. rewrite <- !app_assoc.
  set (ks := seq 0 (length (sg_k g)) ≫= rows_wire g src TensorK ids). set (vs := values_wire g src ranges).
  set (ss := if llama_kv_has_qnext_state_storage (ks_kv src) then _ else []). set (krs := if negb (bool_decide (sg_kr g = [])) then _ else []).
  match goal with |- mbind _ _ (st, ?bs) = _ => rd (get_cache_spec st bs) end. rewrite Hkv.
  match goal with |- mbind _ _ (st, _ ++ ?bs) = _ => rd (read_u32_app st (v_state g) bs) end.
  match goal with |- mbind _ _ (st, _ ++ ?bs) = _ => rd (read_u32_app st (Z.of_nat (length (sg_k g))) bs) end.
  pose proof (so_geom _ _ Hok) as Hg. rewrite (u32_small (Z.of_nat (length (sg_k g)))) by (pose proof (go_layers _ Hg); lia).
  rewrite (bool_decide_true (_ = _)) by done. cbn [negb]. rewrite (bool_decide_false (kv_size kv < _)) by lia.
  assert (u32 (v_state g) = v_state g) as -> by (unfold v_state; by repeat case_match).
  set (bad := _ || _). assert (bad = false) as ->.
  { subst bad. unfold v_state. destruct (bool_decide (sg_v g = [])); [done|]. by destruct (sg_v_trans g). }
  assert (length (sg_k g) = length (geom g TensorK)) as HN by done.
  destruct (read_layers_spec g (read_rows g TensorK true (Z.of_nat (length ids))) (rows_wire g src TensorK ids) TensorK (rows_restored TensorK) kv
    (length (sg_k g)) (rows_restored_length TensorK)) with (n := length (sg_k g)) (il := 0%nat) (st := st)
    (rest := vs ++ le 4 (u32 (if llama_kv_has_qnext_state_storage (ks_kv src) then 1 else 0)) ++ ss ++
      le 4 (u32 (if negb (bool_decide (sg_kr g = [])) then 1 else 0)) ++ krs ++ rest) as [Hread1 Hok1]; [|done..|].
  { intros il st' rest' Hil Hkv' Hok'. apply read_rows_spec; [by left|done..]. }
  rd Hread1. cbn [negb]. unfold restored_data. set (st1 := upds g TensorK _ _ st) in *.
  assert (ks_kv st1 = kv) as Hkv1 by (unfold st1; by rewrite upds_kv).
  set (st2 := if bool_decide (v_state g = 0) then upds g TensorV (rows_restored TensorV) _ st1 else _).
  match goal with |- mbind _ _ (st1, vs ++ ?r) = _ => set (rest2 := r) end.
  set (readv := if bool_decide (v_state g = 0) then read_layers (read_rows g TensorV true _) _ _ else _).
  assert (readv (st1, vs ++ rest2) = (Ok true, (st2, rest2)) ∧ tensors_ok g st2 ∧ ks_kv st2 = kv) as (Hread2 & Hok2 & Hkv2).
  { subst readv st2 vs. unfold values_wire. rewrite Hr. pose proof (go_v _ Hg) as Hv.
    bdec (v_state g = 0) as H0; [|bdec (v_state g = 1) as H1; [|by split_and!]].
    - assert (sg_v g ≠ [] ∧ sg_v_trans g = false) as [Hne Htr].
      { unfold v_state in H0. destruct (bool_decide_reflect (sg_v g = [])); [done|]. by destruct (sg_v_trans g). }
      destruct Hv as [?|Hv]; [done|]. rewrite upds_kv.
      destruct (read_layers_spec g (read_rows g TensorV true (Z.of_nat (length ids))) (rows_wire g src TensorV ids) TensorV (rows_restored TensorV) kv
        (length (sg_k g)) (rows_restored_length TensorV)) with (n := length (sg_k g)) (il := 0%nat) (st := st1) (rest := rest2) as [? ?]; [|done..].
      intros il st' rest' Hil Hkv' Hok'. apply read_rows_spec; [by right|cbn; lia|done..].
    - assert (sg_v g ≠ [] ∧ sg_v_trans g = true) as [Hne Htr].
      { unfold v_state in H1. destruct (bool_decide_reflect (sg_v g = [])); [done|]. by destruct (sg_v_trans g). }
      destruct Hv as [?|Hv]; [done|]. rewrite upds_kv.
      destruct (read_layers_spec g (read_transposed g true (Z.of_nat (length ids))) (columns_wire g src ids) TensorV columns_restored kv
        (length (sg_k g)) (λ il tg d, columns_from_length il tg _ d)) with (n := length (sg_k g)) (il := 0%nat) (st := st1) (rest := rest2) as [? ?]; [|done..].
      intros il st' rest' Hil Hkv' Hok'. apply read_transposed_spec; [done|lia|done..]. }
  rd Hread2. cbn [negb]. subst rest2.
  match goal with |- mbind _ _ (st2, le 4 (u32 ?v) ++ ?bs) = _ => rd (read_u32_app st2 v bs) end.
  rewrite <- Hq. set (q := llama_kv_has_qnext_state_storage kv) in *.
  assert (eqb (negb (bool_decide (u32 (if q then 1 else 0) = 0))) q = true) as -> by (by destruct q). cbn [negb].
  set (st3 := if q then upds g TensorS states_restored _ st2 else st2).
  match goal with |- mbind _ _ (st2, ss ++ ?r) = _ => set (rest3 := r) end.
  set (reads := if bool_decide (u32 (if q then 1 else 0) = 0) then _ else _).
  assert (reads (st2, ss ++ rest3) = (Ok true, (st3, rest3)) ∧ tensors_ok g st3 ∧ ks_kv st3 = kv) as (Hread3 & Hok3 & Hkv3).
  { subst reads st3 ss. rewrite <- Hq. destruct q; [|by split_and!]. rewrite bool_decide_false by done. rewrite upds_kv.
    destruct (read_layers_spec g (read_state_rows g dseq) (states_wire g src sseq) TensorS states_restored kv
      (length (sg_k g)) (λ il tg d, length_splice_ok d _ _)) with (n := length (sg_k g)) (il := 0%nat) (st := st2) (rest := rest3) as [? ?]; [|done..].
    intros il st' rest' Hil Hkv' Hok'. by apply read_state_rows_spec. }
  rd Hread3. cbn [negb]. subst rest3.
  match goal with |- mbind _ _ (st3, le 4 (u32 ?v) ++ ?bs) = _ => rd (read_u32_app st3 v bs) end.
  subst krs. destruct (bool_decide (sg_kr g = [])) eqn:Ekr; cbn [negb]; [done|].
  change (u32 1) with 1. rewrite (bool_decide_false (1 = 0)) by done. cbn [negb eqb].
  destruct (read_layers_spec g (read_indexer g true (Z.of_nat (length ids))) (indexer_wire g src ranges) TensorKr (rows_restored TensorKr) kv
    (length (sg_k g)) (rows_restored_length TensorKr)) with (n := length (sg_k g)) (il := 0%nat) (st := st3) (rest := rest) as [Hread4 _]; [|done..].
  intros il st' rest' Hil Hkv' Hok'. unfold indexer_wire. rewrite Hr. by apply read_indexer_spec.
Qed.
End reading.
