(* ===== verification/StateRoundtrip.v ===== *)
(** * Round trips of saved states

    A sequence, or the whole cache, that is saved and restored: the cells that are
    in use hold the same entries afterwards, and the rows of all tensors are those of
    the cells they were saved from. *)
From S2P Require Import Prelude KvCache KvLemmas KvSlot KvSpec StateIO StateIOSpec.

(** ** The bytes of a cell

    What a tensor holds for the cell [i]: a row, or an element of every column. *)
Definition cell_bytes (g : state_geom) (size : Z) (t : cache_tensor) (tg : tensor_geom) (d : bytes) (i : nat) : bytes :=
  if bool_decide (t = TensorV) && sg_v_trans g
  then j ← seq 0 (Z.to_nat (tg_embd tg)); slot_of (Z.to_nat (tg_el tg)) d (j * Z.to_nat size + i)
  else slot_of (Z.to_nat (tg_row tg)) d i.

Section views.
Context (g : state_geom) (src : kv_state) (ids : list nat) (kv : llama_kv_cache).
Context (Hsrc : state_ok g src) (Hids : ∀ i, i ∈ ids → (i < Z.to_nat (kv_size (ks_kv src)))%nat).
Context (Hhead : 0 ≤ kv_head kv ∧ kv_head kv + Z.of_nat (length ids) ≤ kv_size kv ∧ kv_size kv < 2 ^ 30).

(** The cell that was saved for the cell [k]. *)
Definition origin (k : nat) : option nat :=
  if decide (Z.to_nat (kv_head kv) ≤ k)%nat then ids !! (k - Z.to_nat (kv_head kv))%nat else None.

Lemma origin_case k : match origin k with
  | Some i => (Z.to_nat (kv_head kv) ≤ k < Z.to_nat (kv_head kv) + length ids)%nat ∧ ids !! (k - Z.to_nat (kv_head kv))%nat = Some i
  | None => ¬ (Z.to_nat (kv_head kv) ≤ k < Z.to_nat (kv_head kv) + length ids)%nat
  end.
Proof using.
  unfold origin. case_decide as Hk; [|lia]. destruct (ids !! (k - Z.to_nat (kv_head kv))%nat) as [i|] eqn:E.
  - apply lookup_lt_Some in E as Hl. split; [lia|done].
  - apply lookup_ge_None in E. lia.
Qed.

Lemma rows_view t il tg d k : t = TensorK ∨ t = TensorKr ∨ t = TensorV ∧ sg_v_trans g = false →
  geom g t !! il = Some (Some tg) → (Z.to_nat (kv_size kv) * Z.to_nat (tg_row tg) ≤ length d)%nat →
  slot_of (Z.to_nat (tg_row tg)) (rows_restored src ids kv t il tg d) k =
  match origin k with
  | Some i => slot_of (Z.to_nat (tg_row tg)) (nth_data src t il) i
  | None => slot_of (Z.to_nat (tg_row tg)) d k
  end.
Proof using Hsrc Hids Hhead.
  intros Ht Htg Hl. set (w := Z.to_nat (tg_row tg)) in *. unfold rows_restored. fold w.
  assert (∀ i, i ∈ ids → length (slot_of w (nth_data src t il) i) = w) as Hw by (by apply (source_rows g src ids Hsrc Hids)).
  pose proof (bind_length w _ ids Hw) as Hbs. assert ((Z.to_nat (kv_head kv) + length ids) * w ≤ Z.to_nat (kv_size kv) * w)%nat as Hf
    by (apply Nat.mul_le_mono_r; lia).
  unfold splice_ok. rewrite decide_True by (rewrite Hbs; lia).
  rewrite (slot_of_splice w d (Z.to_nat (kv_head kv)) _ (length ids) k) by (done || lia).
  pose proof (origin_case k) as Ho. destruct (origin k) as [i|].
  - destruct Ho as [Hr Hi]. rewrite decide_True by done. by apply slot_of_bind.
  - by rewrite decide_False.
Qed.

Lemma columns_view il tg js d j k : sg_v_trans g = true → sg_v g !! il = Some (Some tg) →
  Forall (λ j, (j < Z.to_nat (tg_embd tg))%nat) js → NoDup js → (k < Z.to_nat (kv_size kv))%nat →
  (Z.to_nat (tg_embd tg) * Z.to_nat (kv_size kv) * Z.to_nat (tg_el tg) ≤ length d)%nat →
  slot_of (Z.to_nat (tg_el tg)) (columns_from src ids kv il tg js d) (j * Z.to_nat (kv_size kv) + k) =
  match (if decide (j ∈ js) then origin k else None) with
  | Some i => slot_of (Z.to_nat (tg_el tg)) (nth_data src TensorV il) (j * Z.to_nat (kv_size (ks_kv src)) + i)
  | None => slot_of (Z.to_nat (tg_el tg)) d (j * Z.to_nat (kv_size kv) + k)
  end.
Proof using Hsrc Hids Hhead.
  intros Htr Htg Hjs Hnd Hk Hl. set (el := Z.to_nat (tg_el tg)) in *. set (n := Z.to_nat (kv_size kv)) in *.
  induction js as [|j0 js IH] in d, Hjs, Hnd, Hl |- *.
  { rewrite decide_False by (by intros ?%elem_of_nil). done. }
  apply Forall_cons in Hjs as [Hj0 Hjs]. apply NoDup_cons in Hnd as [Hni Hnd].
  change (columns_from src ids kv il tg (j0 :: js) d) with
    (columns_from src ids kv il tg js (splice_ok d ((Z.to_nat (kv_head kv) + j0 * n) * el) (column src ids il tg j0))).
  set (d1 := splice_ok d _ _). rewrite IH by (done || (unfold d1; by rewrite length_splice_ok)). clear IH.
  assert (∀ i, i ∈ ids → length (slot_of el (nth_data src TensorV il) (j0 * Z.to_nat (kv_size (ks_kv src)) + i)) = el) as Hw
    by (by apply (source_column g src ids Hsrc Hids)).
  assert (length (column src ids il tg j0) = length ids * el)%nat as Hbs by (by apply bind_length).
  assert ((Z.to_nat (kv_head kv) + j0 * n + length ids) * el ≤ (Z.to_nat (tg_embd tg) * n) * el)%nat as Hf.
  { apply Nat.mul_le_mono_r. assert ((j0 + 1) * n ≤ Z.to_nat (tg_embd tg) * n)%nat by (apply Nat.mul_le_mono_r; lia). lia. }
  assert (slot_of el d1 (j * n + k) = if decide (j = j0) then
      match origin k with Some i => slot_of el (nth_data src TensorV il) (j * Z.to_nat (kv_size (ks_kv src)) + i) | None => slot_of el d (j * n + k) end
      else slot_of el d (j * n + k)) as ->.
  { unfold d1, splice_ok. rewrite decide_True by (rewrite Hbs; lia).
    rewrite (slot_of_splice el d (Z.to_nat (kv_head kv) + j0 * n) _ (length ids)) by (done || lia).
    pose proof (origin_case k) as Ho. destruct (decide (j = j0)) as [->|Hne].
    - destruct (origin k) as [i|].
      + destruct Ho as [Hr Hi]. rewrite decide_True by lia. replace (j0 * n + k - (Z.to_nat (kv_head kv) + j0 * n))%nat with (k - Z.to_nat (kv_head kv))%nat by lia.
        by apply (slot_of_bind el (λ i, slot_of el (nth_data src TensorV il) (j0 * Z.to_nat (kv_size (ks_kv src)) + i))).
      + rewrite decide_False by lia. done.
    - rewrite decide_False; [done|]. intros [H1 H2]. destruct (decide (j < j0)%nat).
      + assert ((j + 1) * n ≤ j0 * n)%nat by (apply Nat.mul_le_mono_r; lia). lia.
      + assert ((j0 + 1) * n ≤ j * n)%nat by (apply Nat.mul_le_mono_r; lia). lia. }
  destruct (decide (j ∈ js)) as [Hin|Hin].
  - rewrite (decide_True (P := j ∈ j0 :: js)) by (by right). destruct (origin k); [done|]. by destruct (decide (j = j0)).
  - destruct (decide (j = j0)) as [->|Hne].
    + rewrite decide_True by left. done.
    + rewrite decide_False by (intros [?|?]%elem_of_cons; done). done.
Qed.

Lemma upds_other t F ils st t' : NoDup ils → t' ≠ t → ks_data (upds g t F ils st) t' = ks_data st t'.
Proof using.
  intros Hnd Hne. apply list_eq. intros il. rewrite upds_data by done. destruct (mjoin _); [|done].
  by rewrite decide_False by (intros [? _]; done).
Qed.

Lemma upds_this t F st il tg d : geom g t !! il = Some (Some tg) → (il < length (sg_k g))%nat → ks_data st t !! il = Some d →
  ks_data (upds g t F (seq 0 (length (sg_k g))) st) t !! il = Some (F il tg d).
Proof using.
  clear - g. intros Htg Hil Hd. rewrite upds_data by apply NoDup_seq. rewrite (proj2 (geom_lookup _ _ _ _) Htg).
  rewrite decide_True by (split; [done|apply elem_of_seq; lia]). by rewrite Hd.
Qed.

Context (sseq dseq : Z).

Definition cell_tensor (t : cache_tensor) : Prop := t ≠ TensorS.

(** The rows of the restored cells are those of the cells they come from, the others
    are as before. *)
Lemma restored_view st t il tg : ks_kv st = kv → tensors_ok g st → cell_tensor t → geom g t !! il = Some (Some tg) →
  ∀ k, (k < Z.to_nat (kv_size kv))%nat →
  cell_bytes g (kv_size kv) t tg (nth_data (restored_data g src ids kv sseq dseq st) t il) k =
  match origin k with
  | Some i => cell_bytes g (kv_size (ks_kv src)) t tg (nth_data src t il) i
  | None => cell_bytes g (kv_size kv) t tg (nth_data st t il) k
  end.
Proof using Hsrc Hids Hhead.
  intros Hkv Hok Ht Htg k Hk. destruct (so_data _ _ Hok t il tg Htg) as (d & Hd & Hl). pose proof (so_geom _ _ Hok) as Hg.
  pose proof (go_tensor _ Hg t il tg Htg) as (_ & Hrow & Hel & Hembd). rewrite Hkv in Hl.
  pose proof (NoDup_seq 0 (length (sg_k g))) as Hnd. set (ils := seq 0 (length (sg_k g))) in *.
  assert (nth_data st t il = d) as Hnd0 by (unfold nth_data; by rewrite Hd).
  assert (il < length (sg_k g))%nat as Hil.
  { apply lookup_lt_Some in Htg. destruct (go_others _ Hg). destruct t; cbn in Htg; try lia.
    destruct (go_v _ Hg) as [E|E]; [rewrite E in Htg; cbn in Htg; lia|lia]. }
  assert (∀ w, 0 ≤ w → kv_size kv * w = Z.of_nat (length d) → (Z.to_nat (kv_size kv) * Z.to_nat w ≤ length d)%nat) as Hfit by nia.
  unfold nth_data at 1. unfold restored_data. fold ils.
  set (st1 := upds g TensorK _ ils st).
  set (st2 := if bool_decide (v_state g = 0) then _ else _).
  set (st3 := if llama_kv_has_qnext_state_storage kv then _ else _).
  assert (∀ t', t' ≠ TensorS → ks_data st3 t' = ks_data st2 t') as H3.
  { intros t' ?. subst st3. destruct (llama_kv_has_qnext_state_storage kv); [|done]. by apply upds_other. }
  assert (∀ t', t' ≠ TensorV → ks_data st2 t' = ks_data st1 t') as H2.
  { intros t' ?. subst st2. destruct (bool_decide (v_state g = 0)); [by apply upds_other|].
    destruct (bool_decide (v_state g = 1)); [by apply upds_other|done]. }
  unfold cell_bytes. destruct t; [| |done|].
  - cbn [bool_decide]. rewrite bool_decide_false by done. cbn [andb].
    assert (ks_data (if negb (bool_decide (sg_kr g = [])) then upds g TensorKr (rows_restored src ids kv TensorKr) ils st3 else st3) TensorK = ks_data st1 TensorK) as ->.
    { destruct (negb _); [rewrite upds_other by done|]; by rewrite H3, H2. }
    subst st1. rewrite (upds_this TensorK _ st il tg d) by done. cbn [default id]. rewrite Hnd0.
    apply rows_view; [by left|done|]. apply Hfit; [lia|]. by rewrite Hl.
  - rewrite bool_decide_true by done. cbn [andb].
    assert (ks_data (if negb (bool_decide (sg_kr g = [])) then upds g TensorKr (rows_restored src ids kv TensorKr) ils st3 else st3) TensorV = ks_data st2 TensorV) as ->.
    { destruct (negb _); [rewrite upds_other by done|]; by rewrite H3. }
    assert (sg_v g ≠ []) as Hne by (intros E; cbn in Htg; by rewrite E in Htg).
    assert (ks_data st1 TensorV !! il = Some d) as Hd1 by (subst st1; by rewrite upds_other).
    subst st2. unfold v_state. rewrite (bool_decide_false (sg_v g = [])) by done. cbn [tensor_bytes] in Hl. rewrite Hnd0.
    destruct (sg_v_trans g) eqn:Etr.
    + rewrite (bool_decide_false (1 = 0)), (bool_decide_true (1 = 1)) by done.
      rewrite (upds_this TensorV _ st1 il tg d) by done. cbn [default id].
      assert (∀ l, Forall (λ j, (j < Z.to_nat (tg_embd tg))%nat) l →
        (l ≫= λ j, slot_of (Z.to_nat (tg_el tg)) (columns_restored src ids kv il tg d) (j * Z.to_nat (kv_size kv) + k)) =
        match origin k with
        | Some i => l ≫= λ j, slot_of (Z.to_nat (tg_el tg)) (nth_data src TensorV il) (j * Z.to_nat (kv_size (ks_kv src)) + i)
        | None => l ≫= λ j, slot_of (Z.to_nat (tg_el tg)) d (j * Z.to_nat (kv_size kv) + k)
        end) as Hcol.
      { induction 1 as [|j l Hj _ IH]; [by destruct (origin k)|]. cbn [mbind list_bind] in *. rewrite IH.
        unfold columns_restored. rewrite (columns_view il tg _ d j k) by
          (done || (by apply NoDup_seq) || (apply Forall_forall; intros x [_ ?]%elem_of_seq; lia) ||
           (rewrite <- (Nat2Z.id (length d)), Hl, !Z2Nat.inj_mul by (try apply Z.mul_nonneg_nonneg; lia); done)).
        rewrite decide_True by (apply elem_of_seq; lia). by destruct (origin k). }
      apply Hcol. apply Forall_forall. intros x [_ ?]%elem_of_seq. lia.
    + rewrite (bool_decide_true (0 = 0)) by done. rewrite (upds_this TensorV _ st1 il tg d) by done. cbn [default id].
      apply rows_view; [by do 2 right|done|]. apply Hfit; [lia|]. by rewrite Hl.
  - rewrite bool_decide_false by done. cbn [andb].
    assert (sg_kr g ≠ []) as Hne by (intros E; cbn in Htg; by rewrite E in Htg).
    rewrite (bool_decide_false (sg_kr g = [])) by done. cbn [negb].
    assert (ks_data st3 TensorKr !! il = Some d) as Hd3 by (rewrite H3, H2 by done; subst st1; by rewrite upds_other).
    rewrite (upds_this TensorKr _ st3 il tg d) by done. cbn [default id]. rewrite Hnd0.
    apply rows_view; [by right; left|done|]. apply Hfit; [lia|]. by rewrite Hl.
Qed.
End views.

Lemma restored_kv g src ids kv sseq dseq st : ks_kv (restored_data g src ids kv sseq dseq st) = ks_kv st.
Proof.
  unfold restored_data. destruct (negb _), (llama_kv_has_qnext_state_storage kv), (bool_decide (v_state g = 0));
    rewrite ?upds_kv; try done; destruct (bool_decide (v_state g = 1)); by rewrite ?upds_kv.
Qed.

(** ** The cells of a sequence *)

Definition cell_i32 (c : llama_kv_cell) : Prop :=
  is_i32 (c_pos c) ∧ is_i32 (c_token c) ∧ is_i32 (c_qsa_pos c) ∧ is_i32 (c_pos_h c) ∧ is_i32 (c_pos_w c) ∧ is_i32 (c_pos_e c).

(** What is saved of a cell. *)
Definition meta_of (g : state_geom) (qsa : bool) (c : llama_kv_cell) : cell_meta :=
  CellMeta (c_pos c) 0 (if sg_tokens g then c_token c else LLAMA_TOKEN_NULL)
    (if qsa then c_qsa_pos c else 0) (if qsa then c_pos_h c else 0) (if qsa then c_pos_w c else 0) (if qsa then c_pos_e c else 0).

Lemma read_meta_spec g kv sseq c st rest : sseq ≠ -1 → cell_i32 c →
  read_meta g (kv_qsa kv) (st, cell_wire g kv sseq c ++ rest) = (Ok (meta_of g (kv_qsa kv) c), (st, rest)).
Proof.
  intros Hs (Hp & Ht & Hq & Hh & Hw & He). unfold read_meta, cell_wire, meta_of. rewrite (bool_decide_false (sseq = -1)) by done.
  cbn [length mbind list_bind]. rewrite app_nil_r, <- !app_assoc.
  match goal with |- mbind _ _ (_, _ ++ ?bs) = _ => rd (read_i32_app st (c_pos c) bs Hp) end.
  match goal with |- mbind _ _ (_, _ ++ ?bs) = _ => rd (read_u32_app st (Z.of_nat 0) bs) end.
  set (tok := if sg_tokens g then c_token c else LLAMA_TOKEN_NULL).
  set (qs := if kv_qsa kv then _ else []).
  assert ((if sg_tokens g then read_i32 else mret LLAMA_TOKEN_NULL) (st, (if sg_tokens g then le 4 (u32 (c_token c)) else []) ++ qs ++ rest) =
    (Ok tok, (st, qs ++ rest))) as H1 by (subst tok; destruct (sg_tokens g); [by apply read_i32_app|done]).
  rd H1. subst qs. destruct (kv_qsa kv); [|done]. rewrite <- !app_assoc.
  match goal with |- mbind _ _ (_, _ ++ ?bs) = _ => rd (read_i32_app st (c_qsa_pos c) bs Hq) end.
  match goal with |- mbind _ _ (_, _ ++ ?bs) = _ => rd (read_i32_app st (c_pos_h c) bs Hh) end.
  match goal with |- mbind _ _ (_, _ ++ ?bs) = _ => rd (read_i32_app st (c_pos_w c) bs Hw) end.
  rd (read_i32_app st (c_pos_e c) rest He). done.
Qed.

Lemma read_batch_spec g kv sseq cells st rest : sseq ≠ -1 → Forall cell_i32 cells →
  read_batch g (kv_qsa kv) (length cells) (st, (cells ≫= cell_wire g kv sseq) ++ rest) =
  (Ok (Some (meta_of g (kv_qsa kv) <$> cells)), (st, rest)).
Proof.
  intros Hs. induction 1 as [|c cells Hc _ IH]; [done|]. cbn [length read_batch mbind list_bind]. rewrite <- app_assoc.
  rd (read_meta_spec g kv sseq c st ((cells ≫= cell_wire g kv sseq) ++ rest) Hs Hc). rewrite bool_decide_true by done. cbn [negb].
  by rd IH.
Qed.

(** ** What the operations on cells leave alone *)

Lemma seq_rm_full kv seq p0 p1 : kv_wf kv → any_compacted kv = false →
  ∃ head used cells, llama_kv_cache_seq_rm kv seq p0 p1 None = Ok (true, with_state kv head used cells, None).
Proof.
  intros Hwf Hac. unfold llama_kv_cache_seq_rm. rewrite (wf_attn _ Hwf). unfold rm_compact_decision. rewrite Hac. cbn [andb mbind res_bind].
  destruct (rm_loop _ _ _ _ _ _ _ _) as [cells a]. by do 3 eexists.
Qed.

Lemma find_slot_frame kv b embd meta ok kv' : kv_recurrent kv = false →
  llama_kv_cache_find_slot kv b embd meta = Ok (ok, kv') → ∃ head used cells, kv' = with_state kv head used cells.
Proof.
  intros Hr. unfold llama_kv_cache_find_slot. rewrite Hr. destruct (bool_decide _).
  { intros [= <- <-]. exists (kv_head kv), (kv_used kv), (kv_cells kv). by destruct kv. }
  intros ([found h] & _ & H)%bind_Ok. destruct found; cbn [negb] in H.
  - apply bind_Ok in H as (cells & _ & [= <- <-]). by do 3 eexists.
  - injection H as <- <-. by do 3 eexists.
Qed.

(** Filling free cells adds their entries. *)
Lemma contents_filled cells cells' h es :
  (∀ k c, (h ≤ k < h + length es)%nat → cells !! k = Some c → ¬ in_use c) → length cells' = length cells →
  (h + length es ≤ length cells)%nat →
  (∀ k, ¬ (h ≤ k < h + length es)%nat → cells' !! k = cells !! k) →
  (∀ r e, es !! r = Some e → ∃ c, cells' !! (h + r)%nat = Some c ∧ in_use c ∧ entry_of c = e) →
  entry_of <$> live_cells cells' ≡ₚ (entry_of <$> live_cells cells) ++ es.
Proof.
  intros Hfree Hlen Hfit Hout Hin. set (n := length es) in *.
  assert (∀ l : list llama_kv_cell, length l = length cells → l = take h l ++ take n (drop h l) ++ drop (h + n) l) as Hsplit.
  { intros l _. rewrite <- (take_drop h l) at 1. f_equal. rewrite <- drop_drop. by rewrite take_drop. }
  rewrite (Hsplit cells), (Hsplit cells') by done. unfold live_cells. rewrite !filter_app, !fmap_app.
  assert (take h cells' = take h cells) as ->.
  { apply list_eq. intros k. destruct (decide (k < h)%nat); [|by rewrite !lookup_take_ge by lia].
    rewrite !lookup_take_lt by done. apply Hout. lia. }
  assert (drop (h + n) cells' = drop (h + n) cells) as ->.
  { apply list_eq. intros k. rewrite !lookup_drop. apply Hout. lia. }
  assert (filter in_use (take n (drop h cells)) = []) as ->.
  { apply filter_none. apply Forall_lookup. intros k c Hk. pose proof (lookup_lt_Some _ _ _ Hk) as Hl. rewrite length_take in Hl.
    rewrite lookup_take_lt, lookup_drop in Hk by lia. apply (Hfree (h + k)%nat c); [lia|done]. }
  assert (entry_of <$> filter in_use (take n (drop h cells')) = es) as ->.
  { rewrite filter_all.
    - apply list_eq. intros r. rewrite list_lookup_fmap. destruct (es !! r) as [e|] eqn:Er.
      + destruct (Hin _ _ Er) as (c & Hc & _ & <-). apply lookup_lt_Some in Er. by rewrite lookup_take_lt, lookup_drop, Hc by done.
      + apply lookup_ge_None in Er. by rewrite lookup_take_ge by done.
    - apply Forall_lookup. intros r c Hr. pose proof (lookup_lt_Some _ _ _ Hr) as Hl. rewrite length_take in Hl.
      destruct (lookup_lt_is_Some_2 es r) as [e He]; [lia|]. destruct (Hin _ _ He) as (c' & Hc' & Hu & _).
      rewrite lookup_take_lt, lookup_drop in Hr by lia. congruence. }
  cbn [fmap list_fmap app]. rewrite <- !app_assoc. apply Permutation_app_head. apply Permutation_app_comm.
Qed.

(** Changing the fields of the cells that do not matter for well-formedness. *)
Definition cell_sim (c c' : llama_kv_cell) : Prop :=
  c_pos c' = c_pos c ∧ c_delta c' = c_delta c ∧ c_src c' = c_src c ∧ c_seq_id c' = c_seq_id c.

Lemma wf_sim kv cells : kv_wf kv → Forall2 cell_sim (kv_cells kv) cells → kv_wf (with_state kv (kv_head kv) (kv_used kv) cells).
Proof.
  intros Hwf Hsim. assert (∀ P : llama_kv_cell → Prop, (∀ c c', cell_sim c c' → P c → P c') → Forall P (kv_cells kv) → Forall P cells) as HP.
  { intros P HPs HPf. apply Forall_lookup. intros k c' Hk. destruct (Forall2_lookup_r _ _ _ _ _ Hsim Hk) as (c & Hc & Hs).
    apply (HPs c); [done|]. by eapply Forall_lookup_1. }
  split; cbn; try apply Hwf.
  - rewrite <- (wf_size _ Hwf). by rewrite <- (Forall2_length _ _ _ Hsim).
  - apply (HP cell_ok); [|apply Hwf]. intros c c' (Hp & _ & _ & Hs). unfold cell_ok, in_use. by rewrite Hp, Hs.
  - apply (HP (λ c, c_src c = 0 ∨ 0 ≤ c_src c < kv_size kv)); [|apply Hwf]. intros c c' (_ & _ & Hs & _). by rewrite Hs.
  - rewrite (wf_used _ Hwf). f_equal. clear -Hsim. unfold live_cells. induction Hsim as [|c c' l l' (_ & _ & _ & Hs) _ IH]; [done|].
    rewrite !filter_cons.
    assert (in_use c' ↔ in_use c) as Hu by (unfold in_use; by rewrite Hs).
    destruct (decide (in_use c)), (decide (in_use c')); try tauto; cbn; by rewrite IH.
  - intros Hf. apply (HP (λ c, c_delta c = 0)); [|by apply (wf_delta _ Hwf)]. intros c c' (_ & Hd & _). by rewrite Hd.
Qed.

(** ** Restoring the cells of a sequence *)

Lemma put_cache_spec kv st rest : put_cache kv (st, rest) = (Ok tt, (with_kv st kv, rest)).
Proof. done. Qed.

#[global] Instance cell_sim_refl : Reflexive cell_sim.
Proof. by intros c. Qed.
#[global] Instance cell_sim_trans : Transitive cell_sim.
Proof. intros c1 c2 c3 (? & ? & ? & ?) (? & ? & ? & ?). split_and!; congruence. Qed.

Lemma put_qsa_spec ms i cells : (i + length ms ≤ length cells)%nat →
  ∃ cells', put_qsa ms i cells = Ok cells' ∧ Forall2 cell_sim cells cells' ∧
    (∀ k, ¬ (i ≤ k < i + length ms)%nat → cells' !! k = cells !! k) ∧
    (∀ r m c, ms !! r = Some m → cells !! (i + r)%nat = Some c → cells' !! (i + r)%nat = Some (with_qsa c m)).
Proof.
  induction ms as [|m ms IH] in i, cells |- *; intros Hl; [by exists cells|].
  cbn [put_qsa length] in *. destruct (at_lt cells i) as (c & -> & Hc); [lia|]. cbn [mbind res_bind]. rewrite put_lt by lia. cbn [mbind res_bind].
  destruct (IH (S i) (<[i := with_qsa c m]> cells)) as (cells' & -> & Hsim & Hout & Hin); [rewrite length_insert; lia|].
  exists cells'. split; [done|]. split; [|split].
  - etrans; [|done]. apply Forall2_same_length_lookup_2; [by rewrite length_insert|]. intros k x y Hx.
    destruct (decide (k = i)) as [->|].
    + rewrite list_lookup_insert_eq by lia. intros [= <-]. rewrite Hc in Hx. injection Hx as <-. done.
    + rewrite list_lookup_insert_ne by done. intros Hy. by simplify_eq.
  - intros k Hk. rewrite Hout by lia. by rewrite list_lookup_insert_ne by lia.
  - intros [|r] m' c' Hm Hc'.
    + injection Hm as <-. rewrite Nat.add_0_r in *. rewrite Hout by lia. rewrite list_lookup_insert_eq by lia. congruence.
    + replace (i + S r)%nat with (S i + r)%nat in * by lia. apply Hin; [done|]. by rewrite list_lookup_insert_ne by lia.
Qed.

(** What a restored cell holds. *)
Definition seq_entry (g : state_geom) (qsa : bool) (dseq : Z) (c : llama_kv_cell) : entry :=
  Entry (c_pos c) 0 (if sg_tokens g then c_token c else LLAMA_TOKEN_NULL)
    (if qsa then c_pos_h c else c_pos c) (if qsa then c_pos_w c else c_pos c) (if qsa then c_pos_e c else 0) {[dseq]}.

Definition saved_ok (cells : list llama_kv_cell) : Prop := Forall (λ c, cell_i32 c ∧ 0 ≤ c_pos c) cells.

Section seq_meta.
Context (g : state_geom) (skv : llama_kv_cache) (sseq dseq : Z) (cells : list llama_kv_cell).
Context (Hs : sseq ≠ -1) (Hcells : saved_ok cells) (Hne : cells ≠ []).

Definition the_batch (qsa : bool) : llama_batch := seq_batch (meta_of g qsa <$> cells) dseq.

Lemma the_batch_tokens qsa : n_tokens (the_batch qsa) = length cells.
Proof using. unfold n_tokens. cbn. by rewrite !length_fmap. Qed.

Lemma the_batch_ok qsa : batch_ok false (the_batch qsa).
Proof using Hcells.
  split; rewrite ?the_batch_tokens; cbn.
  - rewrite !length_fmap. lia.
  - intros toks [= <-]. by rewrite !length_fmap.
  - intros i p _ Hp. rewrite !list_lookup_fmap in Hp. destruct (cells !! i) as [c|] eqn:Ec; [|done]. injection Hp as <-.
    by apply (Forall_lookup_1 _ _ _ _ Hcells Ec).
  - apply Forall_fmap, Forall_true. done.
Qed.

Lemma the_batch_entry qsa r c : cells !! r = Some c →
  batch_entry false (the_batch qsa) LLAMA_TOKEN_NULL r =
  Some (Entry (c_pos c) 0 (if sg_tokens g then c_token c else LLAMA_TOKEN_NULL) (c_pos c) (c_pos c) 0 {[dseq]}).
Proof using.
  intros Hc. unfold batch_entry, the_batch, seq_batch. cbn [b_pos b_token b_seq_id]. rewrite !list_lookup_fmap, Hc. cbn.
  do 2 f_equal. clear. set_solver.
Qed.

(** The slot of the sequence in the restored cache. *)
Record seq_restored (kv1 kv2 : llama_kv_cache) : Prop := {
  sr_wf : kv_wf kv2;
  sr_frame : ∃ h u cs, kv2 = with_state kv1 h u cs;
  sr_run : free_run (kv_cells kv1) (length cells) (Z.to_nat (kv_head kv2));
  sr_out : ∀ k, ¬ (Z.to_nat (kv_head kv2) ≤ k < Z.to_nat (kv_head kv2) + length cells)%nat → kv_cells kv2 !! k = kv_cells kv1 !! k;
  sr_in : ∀ r c, cells !! r = Some c → ∃ c', kv_cells kv2 !! (Z.to_nat (kv_head kv2) + r)%nat = Some c' ∧
    entry_of c' = seq_entry g (kv_qsa kv1) dseq c }.

Lemma check_slot_ok kv ms : kv_wf kv → (Z.to_nat (kv_head kv) + length cells ≤ length (kv_cells kv))%nat → length ms = length cells →
  (∀ r c, cells !! r = Some c → ∃ c', kv_cells kv !! (Z.to_nat (kv_head kv) + r)%nat = Some c' ∧ c_pos c' = c_pos c ∧ dseq ∈ c_seq_id c') →
  (∀ r c, cells !! r = Some c → ms !! r = Some (c_pos c)) →
  check_slot kv ms dseq = Ok tt.
Proof using Hne.
  clear Hcells Hs. intros Hwf Hfit Hlm Hin Hms. unfold check_slot. pose proof (wf_size _ Hwf). pose proof (wf_bound _ Hwf). pose proof (wf_head _ Hwf).
  assert (0 < length cells)%nat as Hn by (destruct cells; [done|cbn; lia]).
  rewrite Hlm, (u32_small (kv_head kv + Z.of_nat (length cells))) by lia.
  rewrite (bool_decide_true (kv_head kv + Z.of_nat (length cells) ≤ kv_size kv)) by lia. cbn [ggml_assert mbind res_bind].
  destruct (lookup_lt_is_Some_2 cells 0) as [c0 Hl0]; [lia|]. destruct (Hin _ _ Hl0) as (c0' & Hc0 & Hp0 & Hs0). rewrite Nat.add_0_r in Hc0.
  rewrite (proj2 (at_Ok _ _ _) Hc0). cbn [mbind res_bind]. rewrite (proj2 (at_Ok _ _ _) (Hms _ _ Hl0)). cbn [mbind res_bind].
  rewrite (bool_decide_true (c_pos c0' = c_pos c0)) by done. cbn [ggml_assert mbind res_bind].
  destruct (lookup_lt_is_Some_2 cells (length cells - 1)) as [c1 Hl1]; [lia|]. destruct (Hin _ _ Hl1) as (c1' & Hc1 & Hp1 & Hs1).
  rewrite (u32_small (kv_head kv + Z.of_nat (length cells) - 1)), (u32_small (Z.of_nat (length cells) - 1)) by lia.
  replace (Z.to_nat (kv_head kv + Z.of_nat (length cells) - 1)) with (Z.to_nat (kv_head kv) + (length cells - 1))%nat by lia.
  rewrite (proj2 (at_Ok _ _ _) Hc1). cbn [mbind res_bind].
  replace (Z.to_nat (Z.of_nat (length cells) - 1)) with (length cells - 1)%nat by lia. rewrite (proj2 (at_Ok _ _ _) (Hms _ _ Hl1)). cbn [mbind res_bind].
  rewrite (bool_decide_true (c_pos c1' = c_pos c1)) by done. cbn [ggml_assert mbind res_bind]. unfold has_seq_id.
  rewrite (bool_decide_true (dseq ∈ c_seq_id c0')), (bool_decide_true (dseq ∈ c_seq_id c1')) by done. done.
Qed.

(** Reading the cells of a sequence: it is removed, and its cells are put where there
    is room for them, if there is. *)
Lemma read_seq_meta_spec st rest : kv_wf (ks_kv st) → any_compacted (ks_kv st) = false → kv_has_shift (ks_kv st) = false →
  kv_qsa (ks_kv st) = kv_qsa skv → Z.of_nat (length cells) ≤ kv_size (ks_kv st) →
  ∃ kv1, llama_kv_cache_seq_rm (ks_kv st) dseq (-1) (-1) None = Ok (true, kv1, None) ∧ kv_wf kv1 ∧
    ∃ ok kv2, read_seq_meta g (Z.of_nat (length cells)) dseq (st, (cells ≫= cell_wire g skv sseq) ++ rest) =
      (Ok ok, (with_kv st kv2, rest)) ∧
      if ok : bool then seq_restored kv1 kv2
      else kv_wf kv2 ∧ kv_cells kv2 = kv_cells kv1 ∧ (∃ h u cs, kv2 = with_state kv1 h u cs) ∧
           ∀ s, ¬ free_run (kv_cells kv1) (length cells) s.
Proof using Hs Hcells Hne.
  intros Hwf Hac Hshift Hqsa Hfit.
  destruct (seq_rm_full (ks_kv st) dseq (-1) (-1) Hwf Hac) as (h1 & u1 & cs1 & Hrm).
  pose proof (seq_rm_refines _ _ _ _ _ _ _ _ Hwf Hrm) as (Hwf1 & _ & Hsz1 & _ & _).
  set (kv1 := with_state (ks_kv st) h1 u1 cs1) in *. exists kv1. split; [done|]. split; [done|].
  assert (kv_qsa kv1 = kv_qsa skv) as Hqsa1 by done. assert (kv_has_shift kv1 = false) as Hshift1 by done. clearbody kv1.
  unfold read_seq_meta. match goal with |- context [mbind _ _ (st, ?bs) = _] => set (inp := bs) end.
  assert (Hrb : read_batch g (kv_qsa kv1) (length cells) (with_kv st kv1, inp) =
    (Ok (Some (meta_of g (kv_qsa kv1) <$> cells)), (with_kv st kv1, rest))).
  { rewrite Hqsa1. apply read_batch_spec; [done|].
    eapply Forall_impl; [done|]. by intros c [? _]. }
  pose proof (find_slot_spec false kv1 (the_batch (kv_qsa kv1)) LLAMA_TOKEN_NULL Hwf1 Hshift1 (the_batch_ok _))
    as (ok & kv2 & Hfs & Hwf2 & Hsz2 & _ & _ & Hcase).
  pose proof (find_slot_frame _ _ _ _ _ _ (wf_attn _ Hwf1) Hfs) as (h2 & u2 & cs2 & Hframe).
  pose proof (wf_size _ Hwf1) as Hl1. pose proof (wf_size _ Hwf2) as Hl2.
  assert (read_seq_meta g (Z.of_nat (length cells)) dseq (st, inp) =
    (if negb ok then mret false
     else _ ← lift (check_slot kv2 (cm_pos <$> (meta_of g (kv_qsa kv1) <$> cells)) dseq);
       if kv_qsa kv2 then
         cells ← lift (put_qsa (meta_of g (kv_qsa kv1) <$> cells) (Z.to_nat (kv_head kv2)) (kv_cells kv2));
         _ ← put_cache (with_state kv2 (kv_head kv2) (kv_used kv2) cells);
         mret true
       else mret true) (with_kv st kv2, rest)) as Hstep.
  { unfold read_seq_meta. rd (get_cache_spec st inp). rewrite bool_decide_false by lia. rewrite Hrm.
    rd (@lift_Ok _ (true, kv1, @None llama_kv_cache_seq_rm_effect) (st, inp)).
    rd (put_cache_spec kv1 st inp). rewrite Nat2Z.id. rd Hrb. unfold the_batch in Hfs. rewrite Hfs.
    rd (@lift_Ok _ (ok, kv2) (with_kv st kv1, rest)). rd (put_cache_spec kv2 (with_kv st kv1) rest). done. }
  unfold read_seq_meta in Hstep. rewrite Hstep. clear Hstep.
  destruct ok; cbn [negb].
  2: { destruct Hcase as [Hc Hno]. rewrite the_batch_tokens in Hno. exists false, kv2. split; [done|]. split_and!; try done; by exists h2, u2, cs2. }
  destruct Hcase as (_ & Hrun & Hslot). unfold slot_filled in Hslot. rewrite the_batch_tokens in Hrun, Hslot. destruct Hslot as [Hout Hin].
  cbn [andb] in Hin. pose proof (proj1 Hrun) as Hlen.
  assert (∀ r c, cells !! r = Some c → ∃ c', kv_cells kv2 !! (Z.to_nat (kv_head kv2) + r)%nat = Some c' ∧
    entry_of c' = Entry (c_pos c) 0 (if sg_tokens g then c_token c else LLAMA_TOKEN_NULL) (c_pos c) (c_pos c) 0 {[dseq]}) as Hin'.
  { intros r c Hc. destruct (Hin r) as (c' & Hc' & He); [by eapply lookup_lt_Some|]. exists c'. split; [done|].
    rewrite (the_batch_entry _ _ _ Hc) in He. by apply (inj Some) in He. }
  assert (check_slot kv2 (cm_pos <$> (meta_of g (kv_qsa kv1) <$> cells)) dseq = Ok tt) as ->.
  { apply check_slot_ok; [done|lia|by rewrite !length_fmap| |].
    - intros r c Hc. destruct (Hin' _ _ Hc) as (c' & Hc' & He). exists c'. split; [done|]. unfold entry_of in He. injection He as Hp _ _ _ _ _ Hsq.
      split; [done|]. rewrite Hsq. set_solver.
    - intros r c Hc. by rewrite !list_lookup_fmap, Hc. }
  rd (@lift_Ok unit tt (with_kv st kv2, rest)). assert (kv_qsa kv2 = kv_qsa kv1) as Hq2 by (by rewrite Hframe). rewrite Hq2.
  destruct (kv_qsa kv1) eqn:Eq.
  2: { exists true, kv2. split; [done|]. split; [done|by exists h2, u2, cs2|done|done|].
       intros r c Hc. destruct (Hin' _ _ Hc) as (c' & Hc' & He). exists c'. split; [done|]. rewrite He. unfold seq_entry. by rewrite Eq. }
  destruct (put_qsa_spec (meta_of g true <$> cells) (Z.to_nat (kv_head kv2)) (kv_cells kv2)) as (cells' & -> & Hsim & Hout' & Hqin);
    [rewrite length_fmap; lia|]. rewrite length_fmap in Hout'.
  rd (@lift_Ok _ cells' (with_kv st kv2, rest)). rd (put_cache_spec (with_state kv2 (kv_head kv2) (kv_used kv2) cells') (with_kv st kv2) rest).
  exists true, (with_state kv2 (kv_head kv2) (kv_used kv2) cells'). split; [done|]. split.
  - by apply wf_sim.
  - exists (kv_head kv2), (kv_used kv2), cells'. by rewrite Hframe.
  - done.
  - intros k Hk. cbn. rewrite Hout' by done. by apply Hout.
  - intros r c Hc. destruct (Hin' _ _ Hc) as (c' & Hc' & He). exists (with_qsa c' (meta_of g true c)). cbn [kv_cells kv_head with_state].
    split; [by apply Hqin; [rewrite list_lookup_fmap, Hc|]|]. unfold entry_of in *. injection He as Hp Hd Ht _ _ _ Hsq.
    unfold seq_entry. rewrite Eq. cbn. congruence.
Qed.
End seq_meta.

(** ** A sequence *)

Lemma with_kv_tensors g st kv : tensors_ok g st → kv_size kv = kv_size (ks_kv st) → kv_state_slots kv = kv_state_slots (ks_kv st) →
  kv_row_count kv = kv_row_count (ks_kv st) → tensors_ok g (with_kv st kv).
Proof.
  intros [Hf Hs Hg Hd] Hsz Hsl Hrc. split; cbn [ks_kv with_kv]; [unfold any_compacted in *; by rewrite Hrc|by rewrite Hsl|done|].
  intros t il tg Htg. destruct (Hd t il tg Htg) as (d & Hk & Hl). exists d. split; [by destruct t|]. rewrite Hl.
  unfold tensor_bytes. rewrite Hsz, Hsl. done.
Qed.

Lemma spec_rm_idem seq p0 p1 (es : list entry) : omap (spec_rm seq p0 p1) (omap (spec_rm seq p0 p1) es) = omap (spec_rm seq p0 p1) es.
Proof.
  induction es as [|e es IH]; [done|]. cbn [omap list_omap]. destruct (spec_rm seq p0 p1 e) as [e'|] eqn:E; [|done].
  cbn [omap list_omap]. rewrite IH. replace (spec_rm seq p0 p1 e') with (Some e'); [done|].
  unfold spec_rm in *. destruct (e_between p0 p1 e) eqn:Eb; [|injection E as <-; by rewrite Eb].
  destruct (decide (seq < 0)); [by rewrite decide_True in E by done|]. case_decide as Hs; [done|]. injection E as <-.
  change (e_between p0 p1 (e_with_seqs e (e_seqs e ∖ {[seq]}))) with (e_between p0 p1 e). rewrite Eb.
  cbn [e_with_seqs e_seqs]. replace (e_seqs e ∖ {[seq]} ∖ {[seq]}) with (e_seqs e ∖ {[seq]}) by set_solver. by rewrite decide_False.
Qed.

Lemma saved_cells_bound seq_id kv i : kv_wf kv → i ∈ saved_cells seq_id kv → (i < Z.to_nat (kv_size kv))%nat.
Proof. intros Hwf (c & Hc & _)%saved_cells_lookup. apply lookup_lt_Some in Hc. rewrite <- (wf_size _ Hwf). lia. Qed.

Lemma cells_of_Forall2 kv ids : (∀ i, i ∈ ids → is_Some (kv_cells kv !! i)) → Forall2 (λ i c, kv_cells kv !! i = Some c) ids (cells_of kv ids).
Proof.
  induction ids as [|i ids IH]; intros H; [constructor|]. destruct (H i) as [c Hc]; [left|]. unfold cells_of. cbn [omap list_omap]. rewrite Hc.
  constructor; [done|]. apply IH. intros. apply H. by right.
Qed.

Lemma sel_from_length seq_id cells i : (length (sel_from seq_id cells i) ≤ length cells)%nat.
Proof. induction cells as [|c cells IH] in i |- *; [done|]. cbn. destruct (selected seq_id c); cbn; specialize (IH (S i)); lia. Qed.

(** The bytes of a saved state, for every sequence. *)
Lemma get_data_spec g src sseq : state_ok g src → ∃ ranges, range_cells ranges = saved_cells sseq (ks_kv src) ∧
  llama_state_seq_get_size g src sseq true = Ok (Z.of_nat (length (state_wire g src sseq ranges))) ∧
  ∀ size, llama_state_seq_get_data g src size sseq true =
    if bool_decide (size < Z.of_nat (length (state_wire g src sseq ranges))) then Ok (0, [])
    else Ok (Z.of_nat (length (state_wire g src sseq ranges)), state_wire g src sseq ranges).
Proof.
  intros Hok. destruct (write_kv_cache_spec g src sseq Hok) as (ranges & Hr & calls & Hcalls & Hbs). exists ranges. split; [done|].
  unfold llama_state_seq_get_size, llama_state_seq_get_data, llama_state_io_supported. rewrite (so_full _ _ (so_tensors _ _ Hok)), andb_false_r. cbn [negb].
  rewrite Hcalls. cbn [mbind res_bind mret res_ret]. destruct (run_buffer_spec _ _ Hbs) as [-> Hrun]. split; [done|]. intros size. rewrite Hrun.
  rewrite (bool_decide_false (calls = [])); [|intros ->; unfold state_wire in Hbs; rewrite calls_bytes_nil in Hbs; cbn [le app] in Hbs; discriminate].
  cbn [negb]. rewrite andb_true_r. by bdec (size < Z.of_nat (length (state_wire g src sseq ranges))) as Hsz.
Qed.

(** The recurrent state of the sequence. *)
Lemma restored_states g src ids kv sseq dseq st il tg : (∀ i, i ∈ ids → (i < Z.to_nat (kv_size (ks_kv src)))%nat) →
  ks_kv st = kv → tensors_ok g st → llama_kv_has_qnext_state_storage kv = true → sg_s g !! il = Some (Some tg) →
  nth_data (restored_data g src ids kv sseq dseq st) TensorS il =
  states_restored src kv sseq dseq il tg (nth_data st TensorS il).
Proof.
  intros Hids Hkv Hok Hq Htg. destruct (so_data _ _ Hok TensorS il tg Htg) as (d & Hd & Hl). pose proof (so_geom _ _ Hok) as Hg.
  pose proof (NoDup_seq 0 (length (sg_k g))) as Hnd.
  assert (il < length (sg_k g))%nat as Hil by (apply lookup_lt_Some in Htg; destruct (go_others _ Hg); lia).
  unfold nth_data, restored_data. rewrite Hq.
  set (st2 := if bool_decide (v_state g = 0) then _ else _).
  assert (ks_data st2 TensorS = ks_data st TensorS) as H2.
  { subst st2. destruct (bool_decide (v_state g = 0)); [by rewrite !upds_other|].
    destruct (bool_decide (v_state g = 1)); by rewrite !upds_other. }
  set (st3 := upds g TensorS _ _ st2).
  assert (ks_data (if negb (bool_decide (sg_kr g = [])) then upds g TensorKr (rows_restored src ids kv TensorKr) (seq 0 (length (sg_k g))) st3 else st3) TensorS
    = ks_data st3 TensorS) as -> by (destruct (negb _); [by rewrite upds_other|done]).
  subst st3. rewrite (upds_this g TensorS _ st2 il tg d) by (done || by rewrite H2). by rewrite Hd.
Qed.

Lemma slot_of_splice_ok w d e k i : ((k + 1) * w ≤ length d)%nat → ((i + 1) * w ≤ length e)%nat →
  slot_of w (splice_ok d (k * w) (take w (drop (i * w) e))) k = slot_of w e i.
Proof.
  intros Hd He. change (take w (drop (i * w) e)) with (slot_of w e i). pose proof (slot_of_length w e i He) as Hl.
  unfold splice_ok. rewrite Hl, decide_True by lia. rewrite (slot_of_splice w d k _ 1 k) by lia. rewrite decide_True by lia.
  rewrite Nat.sub_diag. unfold slot_of at 1. rewrite drop_0, <- Hl at 1. apply firstn_all.
Qed.

(** What restoring a sequence leaves: the entries of the destination without the
    sequence, and those of the cells that were saved; the restored cells are a run
    and their rows, in all tensors, are those of the cells they come from. *)
Record seq_landed (g : state_geom) (src dst dst' : kv_state) (sseq dseq : Z) : Prop := {
  sl_wf : kv_wf (ks_kv dst');
  sl_contents : contents (ks_kv dst') ≡ₚ omap (spec_rm dseq (-1) (-1)) (contents (ks_kv dst)) ++
    (seq_entry g (kv_qsa (ks_kv src)) dseq <$> cells_of (ks_kv src) (saved_cells sseq (ks_kv src)));
  sl_cells : ∀ r i, saved_cells sseq (ks_kv src) !! r = Some i →
    let k := (Z.to_nat (kv_head (ks_kv dst')) + r)%nat in
    (∃ c c', kv_cells (ks_kv src) !! i = Some c ∧ kv_cells (ks_kv dst') !! k = Some c' ∧
       entry_of c' = seq_entry g (kv_qsa (ks_kv src)) dseq c) ∧
    ∀ t il tg, t ≠ TensorS → geom g t !! il = Some (Some tg) →
      cell_bytes g (kv_size (ks_kv dst)) t tg (nth_data dst' t il) k = cell_bytes g (kv_size (ks_kv src)) t tg (nth_data src t il) i;
  sl_others : ∀ k, (k < Z.to_nat (kv_size (ks_kv dst)))%nat →
    ¬ (Z.to_nat (kv_head (ks_kv dst')) ≤ k < Z.to_nat (kv_head (ks_kv dst')) + length (saved_cells sseq (ks_kv src)))%nat →
    ∀ t il tg, t ≠ TensorS → geom g t !! il = Some (Some tg) →
      cell_bytes g (kv_size (ks_kv dst)) t tg (nth_data dst' t il) k = cell_bytes g (kv_size (ks_kv dst)) t tg (nth_data dst t il) k;
  sl_states : llama_kv_has_qnext_state_storage (ks_kv src) = true → (saved_states src sseq true).1 = 1 →
    ∀ il tg, sg_s g !! il = Some (Some tg) →
      slot_of (Z.to_nat (tg_row tg)) (nth_data dst' TensorS il) (Z.to_nat dseq) =
      slot_of (Z.to_nat (tg_row tg)) (nth_data src TensorS il) (Z.to_nat (saved_states src sseq true).2) }.

(** Both caches belong to contexts of the same model. *)
Record compatible (g : state_geom) (src dst : kv_state) (sseq dseq : Z) : Prop := {
  co_src : state_ok g src;
  co_fields : Forall cell_i32 (kv_cells (ks_kv src));
  co_wf : kv_wf (ks_kv dst);
  co_dst : tensors_ok g dst;
  co_shift : kv_has_shift (ks_kv dst) = false;
  co_qsa : kv_qsa (ks_kv dst) = kv_qsa (ks_kv src);
  co_qnext : llama_kv_has_qnext_state_storage (ks_kv dst) = llama_kv_has_qnext_state_storage (ks_kv src);
  co_states : (saved_states src sseq true).1 = (dest_states (ks_kv dst) dseq).1;
  co_sseq : 0 ≤ sseq;
  co_dseq : 0 ≤ dseq < 2 ^ 31 }.

Section seq_roundtrip.
Context (g : state_geom) (src dst : kv_state) (sseq dseq : Z) (Hco : compatible g src dst sseq dseq).
Context (Hne : saved_cells sseq (ks_kv src) ≠ []).

Local Abbreviation ids := (saved_cells sseq (ks_kv src)).
Local Abbreviation cells := (cells_of (ks_kv src) ids).

Lemma ids_cells : Forall2 (λ i c, kv_cells (ks_kv src) !! i = Some c) ids cells.
Proof using. apply cells_of_Forall2. intros i (c & -> & _)%saved_cells_lookup. done. Qed.

Lemma seq_saved_ok : saved_ok cells.
Proof using Hco.
  pose proof (so_wf _ _ (co_src _ _ _ _ _ Hco)) as Hwf.
  apply Forall_lookup. intros r c Hc. destruct (Forall2_lookup_r _ _ _ _ _ ids_cells Hc) as (i & Hi & Hic).
  split; [by eapply Forall_lookup_1; [apply (co_fields _ _ _ _ _ Hco)|]|].
  destruct (saved_cells_lookup sseq (ks_kv src) i) as (c' & Hc' & Hsel); [by eapply list_elem_of_lookup_2|]. simplify_eq.
  apply (Forall_lookup_1 _ _ _ _ (wf_cells _ Hwf) Hic). apply (has_seq_use sseq). pose proof (co_sseq _ _ _ _ _ Hco).
  unfold selected in Hsel. by rewrite bool_decide_false in Hsel by lia.
Qed.

Lemma seq_count : length cells = length ids ∧ (0 < length ids)%nat ∧ Z.of_nat (length ids) < 2 ^ 30.
Proof using Hco Hne.
  pose proof (so_wf _ _ (co_src _ _ _ _ _ Hco)) as Hwf. split; [symmetry; exact (Forall2_length _ _ _ ids_cells)|].
  pose proof (sel_from_length sseq (kv_cells (ks_kv src)) 0). pose proof (wf_size _ Hwf). pose proof (wf_bound _ Hwf).
  fold (saved_cells sseq (ks_kv src)) in *. split; [|lia]. destruct ids; [done|cbn; lia].
Qed.

Lemma seq_ids i : i ∈ ids → (i < Z.to_nat (kv_size (ks_kv src)))%nat.
Proof using Hco. apply saved_cells_bound, (so_wf _ _ (co_src _ _ _ _ _ Hco)). Qed.

(** The cleanup when there is no room. *)
Lemma cleanup_spec kv kv1 : kv_wf kv → any_compacted kv = false → llama_kv_cache_seq_rm kv dseq (-1) (-1) None = Ok (true, kv1, None) →
  contents kv1 = omap (spec_rm dseq (-1) (-1)) (contents kv) ∧ kv_wf kv1 ∧ any_compacted kv1 = false.
Proof using.
  clear. intros Hwf Hac H. destruct (seq_rm_refines _ _ _ _ _ _ _ _ Hwf H) as (Hwf1 & Hc & _ & Hr & _).
  split; [done|]. split; [done|]. unfold any_compacted in *. by rewrite Hr.
Qed.
Lemma landed kv1 kv2 : llama_kv_cache_seq_rm (ks_kv dst) dseq (-1) (-1) None = Ok (true, kv1, None) →
  seq_restored g dseq cells kv1 kv2 →
  tensors_ok g (with_kv dst kv2) ∧ llama_kv_has_qnext_state_storage kv2 = llama_kv_has_qnext_state_storage (ks_kv src) ∧
  (saved_states src sseq true).1 = (dest_states kv2 dseq).1 ∧
  0 ≤ kv_head kv2 ∧ kv_head kv2 + Z.of_nat (length ids) ≤ kv_size kv2 ∧ kv_size kv2 < 2 ^ 30 ∧
  seq_landed g src dst (restored_data g src ids kv2 sseq dseq (with_kv dst kv2)) sseq dseq.
Proof using Hco Hne.
  intros Hrm [Hwf2 (h & u & cs & Hframe) Hrun Hout Hin]. pose proof seq_count as (Hlc & Hpos & Hbd).
  destruct Hco as [Hsrc Hfields Hwf Hdst Hshift Hqsa Hqnext Hstates Hsseq Hdseq].
  destruct (seq_rm_full (ks_kv dst) dseq (-1) (-1) Hwf (so_full _ _ Hdst)) as (h1 & u1 & cs1 & Hrm'). rewrite Hrm in Hrm'. injection Hrm' as Hkv1.
  pose proof (seq_rm_refines _ _ _ _ _ _ _ _ Hwf Hrm) as (Hwf1 & Hc1 & Hs1 & _ & _).
  assert (kv_size kv2 = kv_size (ks_kv dst)) as Hs2 by (by rewrite Hframe, <- Hs1).
  assert (kv_qsa kv1 = kv_qsa (ks_kv src)) as Hq1 by (by rewrite Hkv1, <- Hqsa). rewrite Hq1 in Hin.
  assert (tensors_ok g (with_kv dst kv2)) as Hok2 by (apply with_kv_tensors; [done|by rewrite Hframe, Hkv1..]).
  assert (dest_states kv2 dseq = dest_states (ks_kv dst) dseq) as Hds by (by rewrite Hframe, Hkv1).
  assert (llama_kv_has_qnext_state_storage kv2 = llama_kv_has_qnext_state_storage (ks_kv src)) as Hqn by (by rewrite Hframe, Hkv1, <- Hqnext).
  pose proof (wf_size _ Hwf1) as Hl1. pose proof (wf_size _ Hwf2) as Hl2. pose proof (wf_bound _ Hwf2) as Hb2. pose proof (wf_head _ Hwf2) as Hh2.
  pose proof Hrun as [Hfit Hfree]. rewrite Hlc in *.
  assert (0 ≤ kv_head kv2 ∧ kv_head kv2 + Z.of_nat (length ids) ≤ kv_size kv2 ∧ kv_size kv2 < 2 ^ 30) as Hhead by lia.
  split; [done|]. split; [done|]. split; [by rewrite Hds|]. do 2 (split; [lia|]). split; [done|].
  set (dst' := restored_data _ _ _ _ _ _ _). assert (ks_kv dst' = kv2) as Hkv' by (by apply restored_kv).
  assert (∀ t il, nth_data (with_kv dst kv2) t il = nth_data dst t il) as Hnth by (by intros []).
  assert (∀ k t il tg, (k < Z.to_nat (kv_size (ks_kv dst)))%nat → t ≠ TensorS → geom g t !! il = Some (Some tg) → _) as Hview
    by (intros k t il tg Hk Ht Htg; pose proof (restored_view g src ids kv2 Hsrc seq_ids Hhead sseq dseq (with_kv dst kv2) t il tg eq_refl Hok2 Ht Htg k) as Hv;
        rewrite Hs2, Hnth in Hv; exact (Hv Hk)).
  split; rewrite ?Hkv'.
  - done.
  - rewrite <- Hc1. apply (contents_filled (kv_cells kv1) (kv_cells kv2) (Z.to_nat (kv_head kv2))); rewrite ?length_fmap, ?Hlc.
    + intros k c Hk Hc Hu. specialize (Hfree k c Hk Hc). pose proof (proj2 (Forall_lookup_1 _ _ _ _ (wf_cells _ Hwf1) Hc) Hu). lia.
    + lia.
    + lia.
    + done.
    + intros r e He. rewrite list_lookup_fmap in He. destruct (cells !! r) as [c|] eqn:Ec; [|done]. injection He as <-.
      destruct (Hin _ _ Ec) as (c' & Hc' & He'). exists c'. split; [done|]. split; [|done].
      unfold in_use. unfold entry_of, seq_entry in He'. injection He' as _ _ _ _ _ _ ->. set_solver.
  - intros r i Hr. cbn zeta. destruct (Forall2_lookup_l _ _ _ _ _ ids_cells Hr) as (c & Hc & Hic). pose proof (lookup_lt_Some _ _ _ Hr) as Hlt.
    split; [destruct (Hin _ _ Hc) as (c' & ? & ?); by exists c, c'|]. intros t il tg Ht Htg. rewrite Hview by (done || lia).
    unfold origin. rewrite decide_True by lia. replace (Z.to_nat (kv_head kv2) + r - Z.to_nat (kv_head kv2))%nat with r by lia. by rewrite Hr.
  - intros k Hk Hno t il tg Ht Htg. rewrite Hview by done. pose proof (origin_case ids kv2 k) as Ho. destruct (origin ids kv2 k); [by destruct Ho|done].
  - intros Hq H1 il tg Htg. unfold dst'.
    rewrite (restored_states g src ids kv2 sseq dseq (with_kv dst kv2) il tg seq_ids eq_refl Hok2) by (done || by rewrite Hqn).
    destruct (so_data _ _ (so_tensors _ _ Hsrc) TensorS il tg Htg) as (ds & Hds1 & Hls). cbn [tensor_bytes] in Hls.
    destruct (so_data _ _ Hok2 TensorS il tg Htg) as (dd & Hdd & Hld). cbn [tensor_bytes ks_kv with_kv] in Hld.
    pose proof (go_tensor _ (so_geom _ _ Hok2) TensorS il tg Htg) as (_ & Hrow & _).
    destruct (saved_states src sseq true) as [n s] eqn:Es. cbn [fst snd] in *. assert (n = 1) as -> by congruence. clear H1. rename Hstates into H1. symmetry in H1.
    pose proof (proj1 (saved_states_range g src sseq Hsrc true 1 s Es)) as (_ & Hs0 & Hss & _).
    pose proof (dest_states_range kv2 dseq (proj2 Hdseq) (so_slots _ _ Hok2)) as (_ & _ & Hdd2).
    assert (dest_states kv2 dseq = (1, dseq)) as Hd1.
    { rewrite Hds. unfold dest_states in *. destruct (bool_decide (dseq = -1)) eqn:E; [apply bool_decide_eq_true in E; lia|].
      by destruct (llama_kv_qnext_seq_id_in_range (ks_kv dst) dseq). }
    unfold states_restored. rewrite Hd1, Es in *. cbn [fst snd] in *. rewrite !Z.mul_1_l.
    unfold nth_data. rewrite Hdd, Hds1. cbn [default id].
    rewrite !Z2Nat.inj_mul by lia. apply slot_of_splice_ok; nia.
Qed.

(** Reading the cells: the room that is found, or none. *)
Lemma read_cells_spec rest : kv_qsa (ks_kv dst) = kv_qsa (ks_kv src) →
  ∃ kv1, llama_kv_cache_seq_rm (ks_kv dst) dseq (-1) (-1) None = Ok (true, kv1, None) ∧ kv_wf kv1 ∧
    ∃ ok kv2 rest', read_seq_meta g (Z.of_nat (length ids)) dseq (dst, (cells ≫= cell_wire g (ks_kv src) sseq) ++ rest) =
      (Ok ok, (with_kv dst kv2, rest')) ∧
      if ok : bool then seq_restored g dseq cells kv1 kv2 ∧ rest' = rest
      else kv_wf kv2 ∧ any_compacted kv2 = false ∧ (∀ s, ¬ free_run (kv_cells kv1) (length ids) s) ∧
           omap (spec_rm dseq (-1) (-1)) (contents kv2) = omap (spec_rm dseq (-1) (-1)) (contents (ks_kv dst)).
Proof using Hco Hne.
  intros Hqsa. pose proof seq_count as (Hlc & Hpos & Hbd). pose proof seq_saved_ok as Hsaved.
  pose proof (so_full _ _ (co_dst _ _ _ _ _ Hco)) as Hac. pose proof (co_wf _ _ _ _ _ Hco) as Hwf. pose proof (co_sseq _ _ _ _ _ Hco) as Hs.
  destruct (decide (Z.of_nat (length ids) ≤ kv_size (ks_kv dst))) as [Hle|Hgt].
  - destruct (read_seq_meta_spec g (ks_kv src) sseq dseq cells) with (st := dst) (rest := rest) as (kv1 & Hrm & Hwf1 & ok & kv2 & Hread & Hcase);
      [lia|done|intros E; rewrite E in Hlc; cbn in Hlc; lia|done|done|apply Hco|done|by rewrite Hlc|]. rewrite Hlc in *.
    exists kv1. split; [done|]. split; [done|]. exists ok, kv2, rest. split; [done|]. destruct ok; [done|].
    destruct Hcase as (Hwf2 & Hcells & (h & u & cs & Hf) & Hno). split; [done|]. destruct (cleanup_spec _ _ Hwf Hac Hrm) as (Hc1 & _ & Hac1).
    split; [by rewrite Hf|]. split; [done|]. unfold contents at 1. rewrite Hcells. fold (contents kv1). by rewrite Hc1, spec_rm_idem.
  - destruct (seq_rm_full (ks_kv dst) dseq (-1) (-1) Hwf Hac) as (h1 & u1 & cs1 & Hrm). pose proof (seq_rm_refines _ _ _ _ _ _ _ _ Hwf Hrm) as (Hwf1 & _ & Hs1 & _).
    eexists. split; [done|]. split; [done|]. exists false, (ks_kv dst). eexists. split.
    { unfold read_seq_meta. match goal with |- mbind _ _ (_, ?bs) = _ => rd (get_cache_spec dst bs) end. rewrite bool_decide_true by lia. by destruct dst. }
    split; [done|]. split; [done|]. split; [|done]. intros s [Hf _]. pose proof (wf_size _ Hwf1). lia.
Qed.

(** Reading the whole state. *)
Lemma read_state_spec ranges rest : range_cells ranges = ids →
  ∃ kv1, llama_kv_cache_seq_rm (ks_kv dst) dseq (-1) (-1) None = Ok (true, kv1, None) ∧
    ∃ r dst' rest', read_kv_cache g dseq true (dst, state_wire g src sseq ranges ++ rest) = (r, (dst', rest')) ∧
      ((r = Ok tt ∧ rest' = rest ∧ (∃ s, free_run (kv_cells kv1) (length ids) s) ∧ seq_landed g src dst dst' sseq dseq) ∨
       (r = Err (Throw "failed to restore kv cache") ∧ (∀ s, ¬ free_run (kv_cells kv1) (length ids) s) ∧
        ∃ kv', dst' = with_kv dst kv' ∧ kv_wf kv' ∧ contents kv' = omap (spec_rm dseq (-1) (-1)) (contents (ks_kv dst)))).
Proof using Hco Hne.
  intros Hr. pose proof seq_count as (Hlc & Hpos & Hbd). pose proof (co_dseq _ _ _ _ _ Hco) as Hd.
  unfold state_wire. rewrite Hr, <- !app_assoc. set (cs := cells ≫= _). set (data := data_wire g src sseq ranges).
  destruct (read_cells_spec (data ++ rest) (co_qsa _ _ _ _ _ Hco)) as (kv1 & Hrm & Hwf1 & ok & kv2 & rest2 & Hread & Hcase). fold cs in Hread.
  exists kv1. split; [done|]. unfold read_kv_cache.
  match goal with |- context [mbind _ _ (_, ?bs)] => set (inp := bs) end.
  assert (Hmeta : read_kv_cache_meta g (Z.of_nat (length ids)) dseq
    (dst, (if kv_qsa (ks_kv src) then le 4 (u32 LLAMA_QSA_CELL_META_MAGIC) else []) ++ cs ++ data ++ rest) = (Ok ok, (with_kv dst kv2, rest2))).
  { unfold read_kv_cache_meta. match goal with |- mbind _ _ (_, ?bs) = _ => rd (get_cache_spec dst bs) end. rewrite (co_qsa _ _ _ _ _ Hco).
    assert ((if kv_qsa (ks_kv src) then read_u32 else mret LLAMA_QSA_CELL_META_MAGIC) (dst, (if kv_qsa (ks_kv src) then le 4 (u32 LLAMA_QSA_CELL_META_MAGIC) else []) ++ cs ++ data ++ rest)
      = (Ok LLAMA_QSA_CELL_META_MAGIC, (dst, cs ++ data ++ rest))) as Hmark.
    { destruct (kv_qsa (ks_kv src)); [|done]. by rewrite read_u32_app. }
    rd Hmark. rewrite bool_decide_true by done. cbn [negb]. rewrite bool_decide_false by lia. done. }
  subst inp. match goal with |- context [mbind _ _ (_, ?bs)] => rd (get_cache_spec dst bs) end.
  match goal with |- context [mbind _ _ (_, le 4 (u32 ?v) ++ ?bs)] => rd (read_u32_app dst v bs) end.
  rewrite u32_small by lia. rewrite (bool_decide_false (_ = LLAMA_SWA_COMPACT_LAYOUT_MAGIC)) by (unfold LLAMA_SWA_COMPACT_LAYOUT_MAGIC; lia).
  rewrite (so_full _ _ (co_dst _ _ _ _ _ Hco)). cbn [eqb negb].
  match goal with |- context [mbind _ (mret ?a) ?s] => rd (eq_refl : (mret a : rd _) s = (Ok a, s)) end.
  rd Hmeta. rewrite andb_false_r.
  match goal with |- context [mbind _ (mret ?a) ?s] => rd (eq_refl : (mret a : rd _) s = (Ok a, s)) end.
  destruct ok.
  - destruct Hcase as [Hrest ->]. destruct (landed kv1 kv2 Hrm Hrest) as (Hok2 & Hqn & Hst & Hh0 & Hfit & Hb & Hland).
    pose proof (read_data_spec g src ids kv2 (co_src _ _ _ _ _ Hco) seq_ids ltac:(done) sseq dseq Hst ltac:(lia) (with_kv dst kv2) ranges rest eq_refl Hok2 Hr Hqn) as Hdata.
    fold data in Hdata. rd Hdata. do 3 eexists. split; [done|]. left. split; [done|]. split; [done|]. split; [|done].
    exists (Z.to_nat (kv_head kv2)). rewrite <- Hlc. apply Hrest.
  - destruct Hcase as (Hwf2 & Hac2 & Hno & Hcont).
    match goal with |- context [mbind _ (mret ?a) ?s] => rd (eq_refl : (mret a : rd _) s = (Ok a, s)) end.
    rd (get_cache_spec (with_kv dst kv2) rest2). rewrite (bool_decide_false (dseq = -1)) by lia.
    destruct (seq_rm_full kv2 dseq (-1) (-1) Hwf2 Hac2) as (h3 & u3 & cs3 & Hrm3). cbn [ks_kv with_kv]. rewrite Hrm3.
    destruct (cleanup_spec _ _ Hwf2 Hac2 Hrm3) as (Hc3 & Hwf3 & _). rewrite Hcont in Hc3.
    do 3 eexists. split; [done|]. right. split; [done|]. split; [done|]. eexists. split; [|split; done]. done.
Qed.
End seq_roundtrip.

(** The entries as they were, where the model saves all fields and no shift is pending. *)
Lemma seq_entries_exact g dseq cells : sg_tokens g = true → Forall (λ c, c_delta c = 0) cells →
  seq_entry g true dseq <$> cells = (λ c, e_with_seqs (entry_of c) {[dseq]}) <$> cells.
Proof.
  intros Ht Hd. apply list_fmap_ext. intros _ c Hc%list_elem_of_lookup_2. rewrite Forall_forall in Hd.
  unfold seq_entry, e_with_seqs, entry_of. cbn. by rewrite Ht, (Hd _ Hc).
Qed.

