(* ===== verification/StateFull.v ===== *)
(** * The whole cache saved and restored

    A saved cache that is put into a cache of the same model: its cells come first,
    in order, with their rows; and what a saved state does not hold. *)
From S2P Require Import Prelude KvCache KvLemmas KvSlot KvSpec StateIO StateIOSpec StateRoundtrip.

(** ** The cells *)

Definition full_cell (g : state_geom) (qsa : bool) (cl c : llama_kv_cell) : llama_kv_cell :=
  Cell (c_pos c) (c_delta cl) (c_src cl) (if sg_tokens g then c_token c else LLAMA_TOKEN_NULL)
    (if qsa then c_qsa_pos c else c_qsa_pos cl) (if qsa then c_pos_h c else c_pos_h cl)
    (if qsa then c_pos_w c else c_pos_w cl) (if qsa then c_pos_e c else c_pos_e cl) (c_seq_id cl ∪ c_seq_id c).

Definition seqs_ok (g : state_geom) (c : llama_kv_cell) : Prop := ∀ s, s ∈ c_seq_id c → 0 ≤ s < sg_n_seq_max g.

Lemma seqs_count g c : sg_n_seq_max g ≤ 2 ^ 31 → seqs_ok g c → Z.of_nat (length (elements (c_seq_id c))) < 2 ^ 32.
Proof.
  intros Hmax Hs. assert (c_seq_id c ⊆ list_to_set (seqZ 0 (sg_n_seq_max g))) as Hsub.
  { intros s Hin. apply elem_of_list_to_set, elem_of_seqZ. specialize (Hs s Hin). lia. }
  apply subseteq_size in Hsub. rewrite size_list_to_set, length_seqZ in Hsub by apply NoDup_seqZ. unfold size, set_size in Hsub. cbn in Hsub. lia.
Qed.

(** The state with other cells. *)
Definition with_cells (st : kv_state) (cells : list llama_kv_cell) : kv_state :=
  with_kv st (with_state (ks_kv st) (kv_head (ks_kv st)) (kv_used (ks_kv st)) cells).

Lemma insert_middle {A} (pre : list A) c post x : <[length pre := x]> (pre ++ c :: post) = pre ++ x :: post.
Proof. pose proof (insert_app_r pre (c :: post) 0 x) as H. by rewrite Nat.add_0_r in H. Qed.

Lemma set_cell_spec st pre c post f rest :
  set_cell (length pre) f (with_cells st (pre ++ c :: post), rest) = (Ok tt, (with_cells st (pre ++ f c :: post), rest)).
Proof.
  unfold set_cell. rd (get_cache_spec (with_cells st (pre ++ c :: post)) rest). cbn [with_cells with_kv ks_kv with_state kv_cells].
  rewrite (proj2 (at_Ok _ _ c)) by (by rewrite list_lookup_middle).
  rd (@lift_Ok _ c (with_cells st (pre ++ c :: post), rest)). unfold put_cell.
  rd (get_cache_spec (with_cells st (pre ++ c :: post)) rest). cbn [with_cells with_kv ks_kv with_state kv_cells].
  rewrite put_lt by (rewrite length_app; cbn; lia). rewrite (insert_middle pre c post).
  rd (@lift_Ok _ (pre ++ f c :: post) (with_cells st (pre ++ c :: post), rest)). done.
Qed.

Lemma read_seqs_spec g st pre c post seqs rest : sg_n_seq_max g ≤ 2 ^ 31 → Forall (λ s, 0 ≤ s < sg_n_seq_max g) seqs →
  read_seqs g (length pre) (length seqs) (with_cells st (pre ++ c :: post), (seqs ≫= λ s, le 4 (u32 s)) ++ rest) =
  (Ok true, (with_cells st (pre ++ with_seq c (c_seq_id c ∪ list_to_set seqs) :: post), rest)).
Proof.
  intros Hmax. induction 1 as [|s seqs Hs _ IH] in c |- *.
  { cbn. assert (with_seq c (c_seq_id c ∪ ∅) = c) as -> by (destruct c; cbn; f_equal; set_solver). done. }
  cbn [length read_seqs mbind list_bind]. rewrite <- app_assoc.
  match goal with |- mbind _ _ (?st', _ ++ ?bs) = _ => rd (read_i32_app st' s bs ltac:(lia)) end.
  rewrite (bool_decide_false (s < 0)), (bool_decide_false (sg_n_seq_max g ≤ s)) by lia. cbn [orb].
  match goal with |- mbind _ _ (_, ?bs) = _ => rd (set_cell_spec st pre c post (λ c, with_seq c (c_seq_id c ∪ {[s]})) bs) end.
  rewrite IH. replace (c_seq_id c ∪ list_to_set (s :: seqs)) with (c_seq_id c ∪ {[s]} ∪ list_to_set seqs) by (cbn [list_to_set]; set_solver).
  by destruct c.
Qed.

Lemma read_cell_spec g kv st pre cl c post rest : sg_n_seq_max g ≤ 2 ^ 31 → cell_i32 c → seqs_ok g c →
  read_cell g (kv_qsa kv) (length pre) (with_cells st (pre ++ cl :: post), cell_wire g kv (-1) c ++ rest) =
  (Ok true, (with_cells st (pre ++ full_cell g (kv_qsa kv) cl c :: post), rest)).
Proof.
  intros Hmax (Hp & Ht & Hq & Hh & Hw & He) Hseqs. pose proof (seqs_count g c Hmax Hseqs) as Hlen. unfold read_cell, cell_wire. rewrite (bool_decide_true (-1 = -1)) by done.
  set (seqs := merge_sort Z.le (elements (c_seq_id c))). pose proof (merge_sort_Permutation Z.le (elements (c_seq_id c))) as Hperm. fold seqs in Hperm.
  rewrite <- !app_assoc.
  match goal with |- mbind _ _ (?st', _ ++ ?bs) = _ => rd (read_i32_app st' (c_pos c) bs Hp) end.
  match goal with |- mbind _ _ (?st', _ ++ ?bs) = _ => rd (read_u32_app st' (Z.of_nat (length seqs)) bs) end.
  rewrite u32_small by (rewrite Hperm; lia). rewrite Nat2Z.id.
  match goal with |- mbind _ _ (_, ?bs) = _ => rd (set_cell_spec st pre cl post (λ c0, set_token LLAMA_TOKEN_NULL (with_pos c0 (c_pos c))) bs) end.
  set (cl1 := set_token _ _). set (tail := (if kv_qsa kv then _ else []) ++ _).
  assert (Htok : (if sg_tokens g then token ← read_i32; set_cell (length pre) (set_token token) else mret tt : rd unit)
    (with_cells st (pre ++ cl1 :: post), (if sg_tokens g then le 4 (u32 (c_token c)) else []) ++ tail) =
    (Ok tt, (with_cells st (pre ++ set_token (if sg_tokens g then c_token c else LLAMA_TOKEN_NULL) cl1 :: post), tail))).
  { destruct (sg_tokens g); [|done].
    match goal with |- mbind _ _ (?st', _) = _ => rd (read_i32_app st' (c_token c) tail Ht) end. apply set_cell_spec. }
  rd Htok. subst tail. set (cl2 := set_token _ cl1). set (tail := (seqs ≫= _) ++ rest).
  set (cl3 := if kv_qsa kv then set_pos_e (c_pos_e c) (set_pos_w (c_pos_w c) (set_pos_h (c_pos_h c) (set_qsa_pos (c_qsa_pos c) cl2))) else cl2).
  match goal with |- mbind _ (mbind (λ _, _) ?m) (?st', ?bs) = _ => idtac | |- mbind _ ?m (?st', ?bs) = _ =>
    assert (Hqsa : m (st', bs) = (Ok tt, (with_cells st (pre ++ cl3 :: post), tail))) end.
  { subst cl3. destruct (kv_qsa kv); [|done]. rewrite <- !app_assoc.
    match goal with |- mbind _ _ (?st', _ ++ ?bs) = _ => rd (read_i32_app st' (c_qsa_pos c) bs Hq) end.
    match goal with |- mbind _ _ (_, ?bs) = _ => rd (set_cell_spec st pre cl2 post (set_qsa_pos (c_qsa_pos c)) bs) end.
    match goal with |- mbind _ _ (?st', _ ++ ?bs) = _ => rd (read_i32_app st' (c_pos_h c) bs Hh) end.
    match goal with |- mbind _ _ (_, ?bs) = _ => rd (set_cell_spec st pre (set_qsa_pos (c_qsa_pos c) cl2) post (set_pos_h (c_pos_h c)) bs) end.
    match goal with |- mbind _ _ (?st', _ ++ ?bs) = _ => rd (read_i32_app st' (c_pos_w c) bs Hw) end.
    match goal with |- mbind _ _ (_, ?bs) = _ => rd (set_cell_spec st pre (set_pos_h (c_pos_h c) (set_qsa_pos (c_qsa_pos c) cl2)) post (set_pos_w (c_pos_w c)) bs) end.
    match goal with |- mbind _ _ (?st', _ ++ ?bs) = _ => rd (read_i32_app st' (c_pos_e c) bs He) end.
    apply set_cell_spec. }
  rd Hqsa. subst tail. rewrite read_seqs_spec; [|done|].
  2: { apply Forall_forall. intros s Hs. rewrite Hperm in Hs. apply Hseqs. by apply elem_of_elements. }
  do 5 f_equal. assert (list_to_set seqs = c_seq_id c) as -> by (rewrite Hperm; apply list_to_set_elements_L).
  subst cl3 cl2 cl1. unfold full_cell. by destruct (kv_qsa kv), cl.
Qed.

Fixpoint full_cells (g : state_geom) (qsa : bool) (cls cells : list llama_kv_cell) : list llama_kv_cell :=
  match cls, cells with
  | cl :: cls', c :: cells' => full_cell g qsa cl c :: full_cells g qsa cls' cells'
  | _, _ => cls
  end.

Lemma read_cells_all_spec g kv st cells : sg_n_seq_max g ≤ 2 ^ 31 →
  Forall (λ c, cell_i32 c ∧ seqs_ok g c) cells →
  ∀ pre cls rest, (length cells ≤ length cls)%nat →
  read_cells g (kv_qsa kv) (length cells) (length pre) (with_cells st (pre ++ cls), (cells ≫= cell_wire g kv (-1)) ++ rest) =
  (Ok true, (with_cells st (pre ++ full_cells g (kv_qsa kv) cls cells), rest)).
Proof.
  intros Hmax. induction 1 as [|c cells [Hi Hs] _ IH]; intros pre cls rest Hle.
  { cbn. by destruct cls. }
  destruct cls as [|cl cls]; [cbn in Hle; lia|]. cbn [length read_cells mbind list_bind full_cells]. rewrite <- app_assoc.
  rd (read_cell_spec g kv st pre cl c cls ((cells ≫= cell_wire g kv (-1)) ++ rest) Hmax Hi Hs). cbn [negb].
  specialize (IH (pre ++ [full_cell g (kv_qsa kv) cl c]) cls rest ltac:(cbn in Hle; lia)).
  rewrite length_app, <- !app_assoc in IH. cbn [length app] in IH. rewrite Nat.add_1_r in IH. exact IH.
Qed.

(** ** The cleared cache and the restored cells *)

Lemma Forall_field {A B} (f : A → B) (P : B → Prop) (l : list A) : Forall (λ x, P (f x)) l ↔ Forall P (f <$> l).
Proof. rewrite Forall_fmap. done. Qed.

Definition cleared_cell (c : llama_kv_cell) : Prop := c_seq_id c = ∅ ∧ c_pos c = -1 ∧ c_pos_h c = 0 ∧ c_pos_w c = 0 ∧ c_pos_e c = 0.

Lemma clear_cells_spec i cells : Forall cleared_cell (clear_cells i cells) ∧ c_delta <$> clear_cells i cells = c_delta <$> cells ∧
  c_src <$> clear_cells i cells = Z.of_nat <$> seq i (length cells).
Proof.
  induction cells as [|c cells IH] in i |- *; [done|]. destruct (IH (S i)) as (Hf & Hd & Hs). cbn. split; [by constructor|]. by rewrite Hd, Hs.
Qed.

(** The entry of a restored cell. *)
Definition full_entry (g : state_geom) (qsa : bool) (c : llama_kv_cell) : entry :=
  Entry (c_pos c) 0 (if sg_tokens g then c_token c else LLAMA_TOKEN_NULL)
    (if qsa then c_pos_h c else 0) (if qsa then c_pos_w c else 0) (if qsa then c_pos_e c else 0) (c_seq_id c).

Lemma full_cells_length g qsa cls cells : length (full_cells g qsa cls cells) = length cls.
Proof. induction cls as [|cl cls IH] in cells |- *; [done|]. destruct cells; [done|]. cbn. by rewrite IH. Qed.

Lemma full_cells_fields g qsa cls cells :
  c_delta <$> full_cells g qsa cls cells = c_delta <$> cls ∧ c_src <$> full_cells g qsa cls cells = c_src <$> cls.
Proof.
  induction cls as [|cl cls IH] in cells |- *; [done|]. destruct cells as [|c cells]; [done|]. cbn. by destruct (IH cells) as [-> ->].
Qed.

Lemma cleared_live cls : Forall cleared_cell cls → live_cells cls = [].
Proof. intros H. apply filter_none. eapply Forall_impl; [done|]. intros c [Hc _] Hu. by apply Hu. Qed.

Lemma full_cells_spec g qsa cls cells : Forall cleared_cell cls → Forall (λ c, c_delta c = 0) cls →
  Forall (λ c, in_use c ∧ 0 ≤ c_pos c) cells → (length cells ≤ length cls)%nat →
  Forall cell_ok (full_cells g qsa cls cells) ∧ entry_of <$> live_cells (full_cells g qsa cls cells) = full_entry g qsa <$> cells.
Proof.
  intros Hcl Hd Hc. induction Hcl as [|cl cls (Hs & Hp & Hh & Hw & He) Hcl IH] in cells, Hd, Hc |- *; intros Hl.
  { destruct cells; [done|cbn in Hl; lia]. }
  apply Forall_cons in Hd as [Hd0 Hd]. destruct Hc as [|c cells [Hu Hpos] Hc].
  - cbn [full_cells fmap list_fmap]. assert (Forall cleared_cell (cl :: cls)) as Hall by by constructor. split; [|by rewrite cleared_live].
    eapply Forall_impl; [exact Hall|]. intros x (Hx & Hxp & _). unfold cell_ok, in_use. rewrite Hx, Hxp. split; [lia|done].
  - cbn [full_cells fmap list_fmap]. destruct (IH cells Hd Hc ltac:(cbn in Hl; lia)) as [Hok Hent].
    assert (in_use (full_cell g qsa cl c)) as Hf by (unfold in_use in *; cbn; set_solver).
    split; [constructor; [by split|done]|]. unfold live_cells in *. rewrite filter_cons_True by done. cbn [fmap list_fmap]. f_equal; [|done].
    unfold entry_of, full_entry. cbn. rewrite Hd0, Hs, Hh, Hw, He. f_equal. set_solver.
Qed.

Lemma saved_all kv : cells_of kv (saved_cells (-1) kv) = live_cells (kv_cells kv).
Proof.
  unfold cells_of, saved_cells, live_cells. enough (∀ cells pre, kv_cells kv = pre ++ cells →
    omap (λ i, kv_cells kv !! i) (sel_from (-1) cells (length pre)) = filter in_use cells) as H by by apply (H _ []).
  induction cells as [|c cells IH]; intros pre Heq; [done|]. cbn [sel_from]. specialize (IH (pre ++ [c])).
  rewrite length_app, <- app_assoc in IH. cbn [length app] in IH. rewrite Nat.add_1_r in IH. specialize (IH Heq).
  unfold selected. rewrite (bool_decide_true (-1 = -1)) by done. cbn [andb]. destruct (decide (in_use c)) as [Hu|Hu].
  - rewrite filter_cons_True by done. rewrite (proj2 (is_empty_false c) Hu). cbn [negb orb omap list_omap]. rewrite Heq at 1. rewrite list_lookup_middle by done. by rewrite IH.
  - rewrite filter_cons_False by done. rewrite (proj2 (is_empty_true c) Hu). cbn [negb orb]. unfold has_seq_id. rewrite bool_decide_false; [done|].
    intros Hin. apply Hu. intros E. rewrite E in Hin. set_solver.
Qed.

(** Both contexts are of the same model and hold as many sequences. *)
Record compatible_all (g : state_geom) (src dst : kv_state) : Prop := {
  ca_src : state_ok g src;
  ca_fields : Forall (λ c, cell_i32 c ∧ seqs_ok g c) (kv_cells (ks_kv src));
  ca_wf : kv_wf (ks_kv dst);
  ca_dst : tensors_ok g dst;
  ca_shift : kv_has_shift (ks_kv dst) = false;
  ca_qsa : kv_qsa (ks_kv dst) = kv_qsa (ks_kv src);
  ca_qnext : llama_kv_has_qnext_state_storage (ks_kv dst) = llama_kv_has_qnext_state_storage (ks_kv src);
  ca_slots : kv_state_slots (ks_kv dst) = kv_state_slots (ks_kv src) }.

Section full.
Context (g : state_geom) (src dst : kv_state) (Hca : compatible_all g src dst).

Local Abbreviation ids := (saved_cells (-1) (ks_kv src)).
Local Abbreviation cells := (live_cells (kv_cells (ks_kv src))).

(** The cache after the cells are read. *)
Definition full_kv : llama_kv_cache :=
  with_state (llama_kv_cache_clear (ks_kv dst)) 0 (Z.of_nat (length cells))
    (full_cells g (kv_qsa (ks_kv src)) (clear_cells 0 (kv_cells (ks_kv dst))) cells).

Lemma full_count : length ids = length cells ∧ Z.of_nat (length cells) < 2 ^ 30.
Proof using Hca.
  pose proof (so_wf _ _ (ca_src _ _ _ Hca)) as Hwf. pose proof (wf_size _ Hwf). pose proof (wf_bound _ Hwf).
  rewrite <- (saved_all (ks_kv src)). pose proof (Forall2_length _ _ _ (cells_of_Forall2 (ks_kv src) ids ltac:(intros i (c & -> & _)%saved_cells_lookup; done))) as Hl.
  split; [done|]. rewrite <- Hl. pose proof (sel_from_length (-1) (kv_cells (ks_kv src)) 0). unfold saved_cells. lia.
Qed.

Lemma live_fields : Forall (λ c, cell_i32 c ∧ seqs_ok g c) cells ∧ Forall (λ c, in_use c ∧ 0 ≤ c_pos c) cells.
Proof using Hca.
  pose proof (so_wf _ _ (ca_src _ _ _ Hca)) as Hwf. split; apply Forall_forall; intros c [Hu Hc]%list_elem_of_filter.
  - exact (proj1 (Forall_forall _ _) (ca_fields _ _ _ Hca) c Hc).
  - split; [done|]. by apply (proj1 (Forall_forall _ _) (wf_cells _ Hwf) c Hc).
Qed.

Lemma full_kv_spec : Z.of_nat (length cells) ≤ kv_size (ks_kv dst) →
  kv_wf full_kv ∧ contents full_kv = full_entry g (kv_qsa (ks_kv src)) <$> cells.
Proof using Hca.
  intros Hle. pose proof (ca_wf _ _ _ Hca) as Hwf. pose proof (clear_cells_spec 0 (kv_cells (ks_kv dst))) as (Hcl & Hd & Hs).
  pose proof (wf_size _ Hwf) as Hsz. assert (length (clear_cells 0 (kv_cells (ks_kv dst))) = length (kv_cells (ks_kv dst))) as Hlen
    by (by rewrite <- (length_fmap c_delta), Hd, length_fmap).
  pose proof (wf_delta _ Hwf (ca_shift _ _ _ Hca)) as Hd0.
  assert (Forall (λ c, c_delta c = 0) (clear_cells 0 (kv_cells (ks_kv dst)))) as Hcd.
  { apply (Forall_field c_delta (λ d, d = 0)). rewrite Hd. by apply (Forall_field c_delta (λ d, d = 0)). }
  destruct (full_cells_spec g (kv_qsa (ks_kv src)) _ cells Hcl Hcd (proj2 live_fields)) as [Hok Hent]; [rewrite Hlen; lia|].
  destruct (full_cells_fields g (kv_qsa (ks_kv src)) (clear_cells 0 (kv_cells (ks_kv dst))) cells) as [Hfd Hfs].
  split; [|exact Hent]. pose proof (wf_bound _ Hwf). pose proof (wf_attn _ Hwf).
  split; cbn; try done.
  - by rewrite full_cells_length, Hlen.
  - apply (Forall_field c_src (λ s, s = 0 ∨ 0 ≤ s < kv_size (ks_kv dst))). rewrite Hfs, Hs. apply Forall_fmap, Forall_forall.
    intros k [_ Hk]%elem_of_seq. cbn in *. lia.
  - f_equal. by rewrite <- (length_fmap (full_entry g (kv_qsa (ks_kv src))) cells), <- Hent, length_fmap.
  - lia.
  - intros _. apply (Forall_field c_delta (λ d, d = 0)). rewrite Hfd, Hd. by apply (Forall_field c_delta (λ d, d = 0)).
Qed.

Lemma clear_tensors_ok : tensors_ok g (clear_state dst).
Proof using Hca.
  destruct (ca_dst _ _ _ Hca) as [Hf Hs Hg Hd]. split; [exact Hf|exact Hs|done|].
  intros t il tg Htg. destruct (Hd t il tg Htg) as (d & Hk & Hl). exists (replicate (length d) 0). split.
  - destruct t; cbn in *; by rewrite list_lookup_fmap, Hk.
  - by rewrite length_replicate, Hl.
Qed.

(** The cells of a saved cache. *)
Lemma read_full_spec rest : Z.of_nat (length cells) ≤ kv_size (ks_kv dst) →
  read_full_meta g (Z.of_nat (length cells)) (dst, (cells ≫= cell_wire g (ks_kv src) (-1)) ++ rest) =
  (Ok true, (with_kv (clear_state dst) full_kv, rest)).
Proof using Hca.
  intros Hle. unfold read_full_meta. set (inp := (cells ≫= _) ++ rest). rd (get_cache_spec dst inp). rewrite bool_decide_false by lia.
  rd (eq_refl : get_state (dst, inp) = (Ok dst, (dst, inp))). rd (eq_refl : put_state (clear_state dst) (dst, inp) = (Ok tt, (clear_state dst, inp))).
  assert (clear_state dst = with_cells (clear_state dst) ([] ++ clear_cells 0 (kv_cells (ks_kv dst)))) as Hst by done.
  assert (length (clear_cells 0 (kv_cells (ks_kv dst))) = length (kv_cells (ks_kv dst))) as Hlen
    by (by rewrite <- (length_fmap c_delta), (proj1 (proj2 (clear_cells_spec 0 (kv_cells (ks_kv dst))))), length_fmap).
  pose proof (wf_size _ (ca_wf _ _ _ Hca)).
  pose proof (read_cells_all_spec g (ks_kv src) (clear_state dst) cells (go_seqs _ (so_geom _ _ (ca_dst _ _ _ Hca))) (proj1 live_fields) []
    (clear_cells 0 (kv_cells (ks_kv dst))) rest ltac:(rewrite Hlen; lia)) as Hread.
  rewrite <- Hst in Hread. fold inp in Hread. rewrite <- (ca_qsa _ _ _ Hca) in Hread at 1. rewrite Nat2Z.id. cbn [length] in Hread. rd Hread. cbn [negb].
  match goal with |- mbind _ _ (?s, ?bs) = _ => rd (get_cache_spec s bs) end. done.
Qed.

Lemma read_all_spec ranges rest : range_cells ranges = ids →
  read_kv_cache g (-1) true (dst, state_wire g src (-1) ranges ++ rest) =
    (if decide (Z.of_nat (length cells) ≤ kv_size (ks_kv dst))
     then (Ok tt, (restored_data g src ids full_kv (-1) (-1) (with_kv (clear_state dst) full_kv), rest))
     else (Err (Throw "failed to restore kv cache"), (clear_state dst, (cells ≫= cell_wire g (ks_kv src) (-1)) ++ data_wire g src (-1) ranges ++ rest))).
Proof using Hca.
  intros Hr. pose proof full_count as [Hlc Hbd]. pose proof (ca_src _ _ _ Hca) as Hsrc.
  unfold state_wire. rewrite Hr, Hlc, saved_all, <- !app_assoc. set (cs := cells ≫= _). set (data := data_wire g src (-1) ranges).
  unfold read_kv_cache. match goal with |- mbind _ _ (_, ?bs) = _ => rd (get_cache_spec dst bs) end.
  match goal with |- mbind _ _ (_, le 4 (u32 ?v) ++ ?bs) = _ => rd (read_u32_app dst v bs) end.
  rewrite u32_small by lia. rewrite (bool_decide_false (_ = LLAMA_SWA_COMPACT_LAYOUT_MAGIC)) by (unfold LLAMA_SWA_COMPACT_LAYOUT_MAGIC; lia).
  rewrite (so_full _ _ (ca_dst _ _ _ Hca)). cbn [eqb negb].
  match goal with |- mbind _ (mret ?a) ?s = _ => rd (eq_refl : (mret a : rd _) s = (Ok a, s)) end.
  assert (Hmeta : ∀ r, read_full_meta g (Z.of_nat (length cells)) (dst, cs ++ data ++ rest) = r →
    read_kv_cache_meta g (Z.of_nat (length cells)) (-1)
      (dst, (if kv_qsa (ks_kv src) then le 4 (u32 LLAMA_QSA_CELL_META_MAGIC) else []) ++ cs ++ data ++ rest) = r).
  { intros r Hrd. unfold read_kv_cache_meta. match goal with |- mbind _ _ (_, ?bs) = _ => rd (get_cache_spec dst bs) end. rewrite (ca_qsa _ _ _ Hca).
    assert ((if kv_qsa (ks_kv src) then read_u32 else mret LLAMA_QSA_CELL_META_MAGIC) (dst, (if kv_qsa (ks_kv src) then le 4 (u32 LLAMA_QSA_CELL_META_MAGIC) else []) ++ cs ++ data ++ rest)
      = (Ok LLAMA_QSA_CELL_META_MAGIC, (dst, cs ++ data ++ rest))) as Hmark.
    { destruct (kv_qsa (ks_kv src)); [|done]. by rewrite read_u32_app. }
    rd Hmark. rewrite bool_decide_true by done. cbn [negb]. rewrite bool_decide_true by done. done. }
  destruct (decide (Z.of_nat (length cells) ≤ kv_size (ks_kv dst))) as [Hle|Hgt].
  - rd (Hmeta _ (read_full_spec (data ++ rest) Hle)). rewrite andb_false_r.
    match goal with |- mbind _ (mret ?a) ?s = _ => rd (eq_refl : (mret a : rd _) s = (Ok a, s)) end.
    destruct (full_kv_spec Hle) as [Hwf2 _]. pose proof (wf_bound _ Hwf2).
    assert (Hok2 : tensors_ok g (with_kv (clear_state dst) full_kv)) by (apply with_kv_tensors; [apply clear_tensors_ok|done..]).
    pose proof (read_data_spec g src ids full_kv Hsrc ltac:(intros i; apply saved_cells_bound, Hsrc) ltac:(cbn [full_kv kv_head kv_size with_state] in *; rewrite Hlc; cbn in *; lia)
      (-1) (-1) (eq_sym (ca_slots _ _ _ Hca)) ltac:(lia) (with_kv (clear_state dst) full_kv) ranges rest eq_refl Hok2 Hr (ca_qnext _ _ _ Hca)) as Hdata.
    rewrite Hlc in Hdata. fold data in Hdata. rd Hdata. done.
  - assert (Hno : read_full_meta g (Z.of_nat (length cells)) (dst, cs ++ data ++ rest) = (Ok false, (dst, cs ++ data ++ rest))).
    { unfold read_full_meta. rd (get_cache_spec dst (cs ++ data ++ rest)). by rewrite bool_decide_true by lia. }
    rd (Hmeta _ Hno). cbn [andb].
    do 2 match goal with |- mbind _ (mret ?a) ?s = _ => rd (eq_refl : (mret a : rd _) s = (Ok a, s)) end.
    rd (get_cache_spec dst (cs ++ data ++ rest)). rewrite bool_decide_true by done. done.
Qed.
(** The positions and sequences are saved of every cell; the token and the further
    positions only by some models, a pending shift by none. *)
Lemma entries_kept : (λ e, (e_pos e, e_seqs e)) <$> (full_entry g (kv_qsa (ks_kv src)) <$> cells) =
  (λ e, (e_pos e, e_seqs e)) <$> contents (ks_kv src).
Proof using. clear Hca. unfold contents. by rewrite <- !list_fmap_compose. Qed.

Lemma entries_exact : kv_qsa (ks_kv src) = true → sg_tokens g = true → Forall (λ c, c_delta c = 0) cells →
  full_entry g (kv_qsa (ks_kv src)) <$> cells = contents (ks_kv src).
Proof using.
  clear Hca. intros -> Ht Hd. unfold contents. apply list_fmap_ext. intros _ c Hc%list_elem_of_lookup_2.
  rewrite Forall_forall in Hd. unfold full_entry, entry_of. by rewrite Ht, (Hd _ Hc).
Qed.

(** What restoring the whole cache leaves: the cells in use come first, in order, with
    the fields that are saved, and have the rows and columns they were saved with; and
    so have the recurrent states. *)
Record cache_landed (dst' : kv_state) : Prop := {
  cl_wf : kv_wf (ks_kv dst');
  cl_size : kv_size (ks_kv dst') = kv_size (ks_kv dst);
  cl_contents : contents (ks_kv dst') = full_entry g (kv_qsa (ks_kv src)) <$> cells;
  cl_kept : (λ e, (e_pos e, e_seqs e)) <$> contents (ks_kv dst') = (λ e, (e_pos e, e_seqs e)) <$> contents (ks_kv src);
  cl_exact : kv_qsa (ks_kv src) = true → sg_tokens g = true → Forall (λ c, c_delta c = 0) cells →
    contents (ks_kv dst') = contents (ks_kv src);
  cl_rows : ∀ r i t il tg, ids !! r = Some i → t ≠ TensorS → geom g t !! il = Some (Some tg) →
    cell_bytes g (kv_size (ks_kv dst)) t tg (nth_data dst' t il) r = cell_bytes g (kv_size (ks_kv src)) t tg (nth_data src t il) i;
  cl_states : llama_kv_has_qnext_state_storage (ks_kv src) = true →
    ∀ il tg, sg_s g !! il = Some (Some tg) → nth_data dst' TensorS il = nth_data src TensorS il }.

Lemma restored_all : Z.of_nat (length cells) ≤ kv_size (ks_kv dst) →
  cache_landed (restored_data g src ids full_kv (-1) (-1) (with_kv (clear_state dst) full_kv)).
Proof using Hca.
  intros Hle. pose proof (ca_src _ _ _ Hca) as Hsrc. pose proof full_count as [Hlc Hbd]. destruct (full_kv_spec Hle) as [Hwf2 Hcont].
  assert (kv_size full_kv = kv_size (ks_kv dst)) as Hs2 by done. pose proof (wf_bound _ Hwf2) as Hb2.
  assert (Hok2 : tensors_ok g (with_kv (clear_state dst) full_kv)) by (apply with_kv_tensors; [apply clear_tensors_ok|done..]).
  assert (Hids : ∀ i, i ∈ ids → (i < Z.to_nat (kv_size (ks_kv src)))%nat) by (intros i; apply saved_cells_bound, Hsrc).
  assert (Hhead : 0 ≤ kv_head full_kv ∧ kv_head full_kv + Z.of_nat (length ids) ≤ kv_size full_kv ∧ kv_size full_kv < 2 ^ 30)
    by (rewrite Hlc; change (kv_head full_kv) with 0; lia).
  split; rewrite ?restored_kv; [done..| | | |]; cbn [ks_kv with_kv].
  - rewrite Hcont. apply entries_kept.
  - intros Hq Ht Hdel. rewrite Hcont. by apply entries_exact.
  - intros r i t il tg Hi Ht Htg. apply lookup_lt_Some in Hi as Hlt. rewrite <- Hs2.
    rewrite (restored_view g src _ full_kv Hsrc Hids Hhead (-1) (-1) (with_kv (clear_state dst) full_kv) t il tg eq_refl Hok2 Ht Htg r) by lia.
    unfold origin. change (kv_head full_kv) with 0. cbn [Z.to_nat]. rewrite decide_True by lia. by rewrite Nat.sub_0_r, Hi.
  - intros Hq il tg Htg.
    rewrite (restored_states g src _ full_kv (-1) (-1) (with_kv (clear_state dst) full_kv) il tg Hids eq_refl Hok2) by (done || by rewrite <- Hq, <- (ca_qnext _ _ _ Hca)).
    destruct (so_data _ _ (so_tensors _ _ Hsrc) TensorS il tg Htg) as (ds & Hds1 & Hls). cbn [tensor_bytes] in Hls.
    destruct (so_data _ _ Hok2 TensorS il tg Htg) as (dd & Hdd & Hld). cbn [tensor_bytes ks_kv with_kv] in Hld.
    unfold states_restored, nth_data. rewrite Hdd, Hds1. cbn [default id]. change (dest_states full_kv (-1)) with (kv_state_slots (ks_kv dst), 0).
    change (saved_states src (-1) true) with (kv_state_slots (ks_kv src), 0). cbn [fst snd]. rewrite !Z.mul_0_l. cbn [Z.to_nat]. rewrite drop_0.
    change (kv_state_slots full_kv) with (kv_state_slots (ks_kv dst)) in Hld. rewrite (ca_slots _ _ _ Hca) in *.
    rewrite <- Hls, Nat2Z.id, take_ge by lia. unfold splice_ok. rewrite decide_True by lia. unfold splice.
    rewrite take_0, drop_ge by lia. cbn [app]. by rewrite app_nil_r.
Qed.
End full.

(** The whole cache saved and restored into a cache of the same model: when the
    cells in use fit, [llama_state_seq_set_data] returns the number of bytes, the
    cells come first, in order, with the fields that are saved, and have the rows and
    columns they were saved with, and so have the recurrent states; when they do not
    fit, 0 is returned and the cache is cleared. *)
Theorem full_state_roundtrip g src dst : compatible_all g src dst →
  ∃ bs, llama_state_seq_get_size g src (-1) true = Ok (Z.of_nat (length bs)) ∧
    (∀ size, llama_state_seq_get_data g src size (-1) true =
       if bool_decide (size < Z.of_nat (length bs)) then Ok (0, []) else Ok (Z.of_nat (length bs), bs)) ∧
    ∀ rest,
      if decide (Z.of_nat (length (live_cells (kv_cells (ks_kv src)))) ≤ kv_size (ks_kv dst))
      then ∃ dst', llama_state_seq_set_data g dst (bs ++ rest) (-1) true = Ok (Z.of_nat (length bs), dst') ∧
        cache_landed g src dst dst'
      else llama_state_seq_set_data g dst (bs ++ rest) (-1) true = Ok (0, clear_state dst).
Proof.
  intros Hca. destruct (get_data_spec g src (-1) (ca_src _ _ _ Hca)) as (ranges & Hr & Hsize & Hget).
  exists (state_wire g src (-1) ranges). split; [done|]. split; [done|]. intros rest.
  unfold llama_state_seq_set_data, llama_state_io_supported. rewrite (so_full _ _ (ca_dst _ _ _ Hca)), andb_false_r. cbn [negb].
  rewrite (read_all_spec g src dst Hca ranges rest Hr). case_decide as Hle; [|done].
  eexists. split; [f_equal; f_equal; rewrite length_app; lia|]. by apply restored_all.
Qed.

(** ** Examples

    One layer of keys of two bytes, of values of two transposed columns of a byte,
    and a recurrent state of two bytes for each of four sequences. *)
Definition small_geom : state_geom :=
  StateGeom [Some (TensorGeom 1 2 0 0)] [Some (TensorGeom 24 0 1 2)] [Some (TensorGeom 0 2 0 0)] [] true false 4.

Definition small_cell (pos src : Z) (seqs : list Z) : llama_kv_cell :=
  Cell pos 0 src LLAMA_TOKEN_NULL (-1) (Z.max pos 0) (Z.max pos 0) 0 (list_to_set seqs).

Definition small_kv (used : Z) (cells : list llama_kv_cell) : llama_kv_cache :=
  KvCache false false false false false false false 4 0 4 used 0 [] 0 0 0 0 0 cells.

Definition small_src : kv_state :=
  KvState (small_kv 3 [small_cell 0 0 [0]; small_cell (-1) 1 []; small_cell 1 2 [0; 1]; small_cell 0 3 [1]])
    [[1; 2; 3; 4; 5; 6; 7; 8]] [[11; 12; 13; 14; 15; 16; 17; 18]] [[21; 22; 23; 24; 25; 26; 27; 28]] [].

Definition small_dst : kv_state :=
  KvState (small_kv 1 [small_cell 5 0 [2]; small_cell (-1) 1 []; small_cell (-1) 2 []; small_cell (-1) 3 []])
    [replicate 8 0] [replicate 8 0] [replicate 8 0] [].

(** What is saved, and what is restored from it. *)
Definition saved (st : kv_state) (seq_id : Z) : bytes :=
  match llama_state_seq_get_data small_geom st 1000 seq_id true with Ok (_, bs) => bs | _ => [] end.
Definition restored (st : kv_state) (bs : bytes) (seq_id : Z) : res (Z * kv_state) :=
  llama_state_seq_set_data small_geom st bs seq_id true.

Definition with_ops (st : kv_state) (ops : llama_kv_cache → res llama_kv_cache) : kv_state :=
  match ops (ks_kv st) with Ok kv => with_kv st kv | Err _ => st end.

Lemma small_ok (st : kv_state) : kv_wf (ks_kv st) → any_compacted (ks_kv st) = false → kv_size (ks_kv st) = 4 → kv_state_slots (ks_kv st) = 4 →
  length <$> ks_k st = [8%nat] → length <$> ks_v st = [8%nat] → length <$> ks_s st = [8%nat] → state_ok small_geom st.
Proof.
  intros Hwf Hc Hs Hsl Hk Hv Hst. assert (geom_ok small_geom) as Hg.
  { split; cbn; try lia. intros t il tg. destruct t, il as [|[|il]]; cbn; try done; intros [= <-]; cbn; lia. }
  assert (∀ (l : list bytes), length <$> l = [8%nat] → ∃ d, l !! 0%nat = Some d ∧ length d = 8%nat) as H8.
  { intros [|d l] Hl; [done|]. injection Hl as Hl _. by exists d. }
  split; [done|split; [done|lia|done|]|].
  - intros t il tg. destruct t, il as [|[|il]]; cbn; try done; intros [= <-]; unfold tensor_bytes; cbn; rewrite ?Hs, ?Hsl.
    + destruct (H8 _ Hk) as (d & ? & ?). exists d. split; [done|lia].
    + destruct (H8 _ Hv) as (d & ? & ?). exists d. split; [done|lia].
    + destruct (H8 _ Hst) as (d & ? & ?). exists d. split; [done|lia].
  - intros _ il tg. destruct il as [|[|il]]; cbn; try done. intros [= <-]. cbn. rewrite Hs. lia.
Qed.

Lemma small_src_wf : kv_wf (ks_kv small_src).
Proof.
  split; cbn; try done; try lia.
  - repeat constructor; unfold cell_ok, in_use; cbn; intros ?; try lia; try set_solver.
  - repeat constructor; cbn; lia.
  - repeat constructor.
Qed.

Lemma small_dst_wf : kv_wf (ks_kv small_dst).
Proof.
  split; cbn; try done; try lia.
  - repeat constructor; unfold cell_ok, in_use; cbn; intros ?; try lia; try set_solver.
  - repeat constructor; cbn; lia.
  - repeat constructor.
Qed.

Lemma small_compatible : compatible_all small_geom small_src small_dst.
Proof.
  split; try reflexivity.
  - apply small_ok; try reflexivity. exact small_src_wf.
  - cbn. repeat (apply Forall_cons; split); try apply Forall_nil_2.
    all: split; [unfold cell_i32, is_i32; cbn; unfold LLAMA_TOKEN_NULL; lia|].
    all: intros s Hs; cbn in Hs |- *; set_unfold; lia.
  - exact small_dst_wf.
  - apply (so_tensors _ _ (small_ok small_dst small_dst_wf eq_refl eq_refl eq_refl eq_refl eq_refl eq_refl)).
Qed.


Lemma full_state_roundtrip_witness : ∃ bs dst', llama_state_seq_get_size small_geom small_src (-1) true = Ok (Z.of_nat (length bs)) ∧
  llama_state_seq_set_data small_geom small_dst (bs ++ []) (-1) true = Ok (Z.of_nat (length bs), dst') ∧
  contents (ks_kv dst') = full_entry small_geom false <$> live_cells (kv_cells (ks_kv small_src)).
Proof.
  destruct (full_state_roundtrip small_geom small_src small_dst small_compatible) as (bs & Hsize & _ & Hset).
  destruct (Hset []) as (dst' & Hn & Hl). exists bs, dst'. split; [done|]. split; [done|]. apply (cl_contents _ _ _ _ Hl).
Defined.

(** ** What a saved state does not hold, and what can go wrong

    A sequence without cells can be saved; restoring it reads the first position of
    an empty batch. *)
Theorem empty_sequence_state : llama_state_seq_get_size small_geom small_src 2 true = Ok 62 ∧
  length (saved small_src 2) = 62%nat ∧ restored small_dst (saved small_src 2) 3 = Err Oob.
Proof. vm_compute. done. Qed.

(** A whole state that ends after the cells: 0 is returned, the cells stay, but none
    counts as used. *)
Theorem truncated_state_keeps_cells :
  (λ '(n, st), (n, kv_used (ks_kv st), length (live_cells (kv_cells (ks_kv st))))) <$> restored small_dst (take 36 (saved small_src (-1))) (-1)
  = Ok (0, 0, 2%nat).
Proof. vm_compute. done. Qed.

(** The rows of a sequence whose cells are read but not all of its tensors. *)
Theorem truncated_sequence_stays :
  (λ '(n, st), (n, (λ c, (c_pos c, bool_decide (3 ∈ c_seq_id c))) <$> kv_cells (ks_kv st), ks_k st, ks_v st)) <$> restored small_dst (take 44 (saved small_src 0)) 3
  = Ok (0, [(5, false); (0, true); (1, true); (-1, false)], [[0; 0; 1; 2; 5; 6; 0; 0]], [replicate 8 0]).
Proof. vm_compute. done. Qed.

(** The place of the transposed values is computed in 32 bits when they are saved,
    but not for compacted layers, nor when they are restored. *)
Theorem saved_values_wrap : v_src_offset 0 2048 1048576 2 = 0 ∧ v_src_offset_compact 0 2048 1048576 2 = 4294967296.
Proof. done. Qed.

(** A pending shift is not saved: the restored cells have the new positions, their
    keys are the old ones and will not be shifted. *)
Definition shifted_src : kv_state := with_ops small_src (λ kv, llama_kv_cache_seq_add kv 0 0 (-1) 1).
Theorem pending_shift_not_saved :
  (λ c, (c_pos c, c_delta c)) <$> kv_cells (ks_kv shifted_src) = [(1, 1); (-1, 0); (2, 1); (0, 0)] ∧
  (λ '(_, st), ((λ c, (c_pos c, c_delta c)) <$> kv_cells (ks_kv st), ks_k st)) <$> restored small_dst (saved shifted_src 0) 3
  = Ok ([(5, 0); (1, 0); (2, 0); (-1, 0)], [[0; 0; 1; 2; 5; 6; 0; 0]]).
Proof. vm_compute. done. Qed.

(** A pending copy is not saved with the whole cache: the recurrent state of the copy
    is that of sequence 0 when it is saved alone, but the old one when the cache is
    saved and restored. *)
Definition copied_src : kv_state := with_ops small_src (λ kv, llama_kv_cache_seq_cp kv 0 3 (-1) (-1)).
Definition state_row (st : kv_state) (seq_id : Z) : bytes :=
  slot_of 2 (nth_data st TensorS 0) (Z.to_nat (saved_states st seq_id true).2).
Theorem pending_copy_not_saved :
  state_row copied_src 3 = [21; 22] ∧
  (λ '(_, st), state_row st 3) <$> restored small_dst (saved copied_src (-1)) (-1) = Ok [27; 28].
Proof. vm_compute. done. Qed.

(** With positions in several dimensions, which only some of the caches save, the
    restored text cells are no longer text cells: shifting them is an assertion. *)
Definition mrope_kv (kv : llama_kv_cache) : llama_kv_cache :=
  KvCache false false false false true false false 4 0 4 (kv_used kv) 0 [] 0 0 0 0 0 (kv_cells kv).
Definition mrope_src : kv_state := with_kv small_src (mrope_kv (ks_kv small_src)).
Definition mrope_dst : kv_state := with_kv small_dst (mrope_kv (ks_kv small_dst)).
Theorem saved_cells_lose_positions :
  (λ kv, c_pos <$> kv_cells kv) <$> llama_kv_cache_seq_add (ks_kv mrope_src) 0 0 (-1) 1 = Ok [1; -1; 2; 0] ∧
  ('(_, st) ← restored mrope_dst (saved mrope_src (-1)) (-1); llama_kv_cache_seq_add (ks_kv st) 0 0 (-1) 1) = Err Abort.
Proof. vm_compute. done. Qed.

(** The whole state of a compacted cache cannot be restored: the number of bytes that
    is returned is not 0. *)
Theorem unsupported_state_size g st src need_kv : any_compacted (ks_kv st) = true →
  llama_state_seq_set_data g st src (-1) need_kv = Ok (2 ^ 64 - 1, st).
Proof. intros H. unfold llama_state_seq_set_data, llama_state_io_supported. by rewrite H. Qed.
