(* ===== verification/StateCtx.v ===== *)
(** * Saving and restoring a context

    The state of a whole context ([src/llama.cpp]): the architecture, the random
    state of the sampler, the outputs of the last batch and the cache, in buffers
    ([llama_state_get_data], [llama_state_set_data]) and in session files
    ([llama_state_save_file], [llama_state_load_file]); and the files of single
    sequences.

    Rows of outputs are their bytes.  Parameters are the random state with its
    text ([operator<<] and [operator>>] of [std::mt19937]), the allocator of the
    output buffer and the contents of memory that was never written.  A file is its
    bytes; errors of the file system are left out. *)
From S2P Require Import Prelude KvCache Outputs StateIO.

(** The random state, the outputs and the cache of a context. *)
Record ctx_state (R : Type) := Ctx { cs_rng : R; cs_out : out_ctx bytes bytes; cs_kv : kv_state }.
Arguments Ctx {R}. Arguments cs_rng {R}. Arguments cs_out {R}. Arguments cs_kv {R}.

(** The model and the parameters of a context. *)
Record ctx_params := CtxParams { cp_arch : bytes; cp_dec : dec_params; cp_geom : state_geom }.

Section context.
Context {R : Type} (print_rng : R → bytes) (scan_rng : bytes → option R).
Context (alloc : Z → bool) (junk : nat → bytes).
Context (p : ctx_params).

Local Abbreviation dp := (cp_dec p).
Local Abbreviation g := (cp_geom p).

(** ** Writing *)

Definition write_string (s : bytes) : list write_call := [write_u32 (Z.of_nat (length s)); Write s].

Definition write_model_info : list write_call := write_string (cp_arch p).
Definition write_rng (rng : R) : list write_call := write_string (print_rng rng).

(** The token of every row. *)
Fixpoint output_positions (n i : nat) (output_ids : list Z) (n_outputs : Z) (output_pos : list Z) : res (list Z) :=
  match n with
  | O => Ok output_pos
  | S n' =>
    pos ← at_ output_ids i;
    if bool_decide (0 ≤ pos) then
      _ ← ggml_assert (bool_decide (u32 pos < n_outputs));
      output_pos ← put output_pos (Z.to_nat pos) (Z.of_nat i);
      output_positions n' (S i) output_ids n_outputs output_pos
    else output_positions n' (S i) output_ids n_outputs output_pos
  end.

Definition write_output_ids (c : out_ctx bytes bytes) : res (list write_call) :=
  let n_outputs := u32 (oc_n_outputs c) in
  _ ← ggml_assert (bool_decide (n_outputs ≤ oc_output_size c));
  output_pos ← output_positions (dp_n_batch dp) 0 (oc_output_ids c) n_outputs (replicate (Z.to_nat n_outputs) 0);
  mret (write_u32 n_outputs :: if bool_decide (n_outputs = 0) then [] else [Write (output_pos ≫= λ i, le 4 (u32 i))]).

(** The first [n] bytes of a buffer of rows of [w] bytes. *)
Definition buf_bytes (w : nat) (buf : option (list (option bytes))) (n : Z) : res bytes :=
  match buf with
  | None => Err Oob
  | Some rows =>
    let flat := rows ≫= default (junk w) in
    if bool_decide (n ≤ Z.of_nat (length flat)) then Ok (take (Z.to_nat n) flat) else Err Oob
  end.

Definition write_floats (w : Z) (buf : option (list (option bytes))) (size : Z) : res (list write_call) :=
  if bool_decide (size = 0) then Ok [write_u64 size]
  else
    bs ← buf_bytes (Z.to_nat (w * 4)) buf (size * 4);
    mret [write_u64 size; Write bs].

Definition write_logits (c : out_ctx bytes bytes) : res (list write_call) :=
  write_floats (dp_n_vocab dp) (oc_logits c) (Z.min (oc_logits_size c) (u64 (u64 (oc_n_outputs c) * dp_n_vocab dp))).

Definition write_embeddings (c : out_ctx bytes bytes) : res (list write_call) :=
  let row_width := dp_n_embd dp in
  write_floats row_width (oc_embd c) (Z.min (oc_embd_size c) (u64 (u64 (oc_n_outputs_embd c) * row_width))).

(** The parts of the state, in order; every part may fail. *)
Definition state_parts (c : ctx_state R) : list (res (list write_call)) :=
  [Ok write_model_info; Ok (write_rng (cs_rng c)); write_output_ids (cs_out c); write_logits (cs_out c);
   write_embeddings (cs_out c); write_kv_cache g (cs_kv c) (-1) true].

Definition write_state (c : ctx_state R) : res (list write_call) :=
  parts ← mapM id (state_parts c);
  mret (mjoin parts).

(** The buffer may be full before a part fails. *)
Fixpoint run_parts (buf_size : Z) (parts : list (res (list write_call))) : res bytes :=
  match parts with
  | [] => Ok []
  | part :: parts' =>
    calls ← part;
    bs ← run_buffer buf_size calls;
    rest ← run_parts (buf_size - run_dummy calls) parts';
    mret (bs ++ rest)
  end.

Definition llama_state_get_size (c : ctx_state R) : res Z :=
  if negb (llama_state_io_supported (ks_kv (cs_kv c)) (-1)) then Ok 0
  else
    match write_state c with
    | Ok calls => Ok (run_dummy calls)
    | Err (Throw _) => Ok 0
    | Err e => Err e
    end.

Definition llama_state_get_data (c : ctx_state R) (size : Z) : res (Z * bytes) :=
  if negb (llama_state_io_supported (ks_kv (cs_kv c)) (-1)) then Ok (0, [])
  else
    match run_parts size (state_parts c) with
    | Ok bs => Ok (Z.of_nat (length bs), bs)
    | Err (Throw _) => Ok (0, [])
    | Err e => Err e
    end.

(** ** Reading *)

Definition crd (A : Type) : Type := ctx_state R * bytes → res A * (ctx_state R * bytes).

#[global] Instance crd_ret : MRet crd := λ A a s, (Ok a, s).
#[global] Instance crd_bind : MBind crd := λ A B f m s,
  match m s with
  | (Ok a, s') => f a s'
  | (Err e, s') => (Err e, s')
  end.

(** A reader of the cache. *)
Definition in_kv {A} (m : rd A) : crd A := λ s,
  let '(r, (kv, bs)) := m (cs_kv s.1, s.2) in (r, (Ctx (cs_rng s.1) (cs_out s.1) kv, bs)).

Definition fail {A} (e : fault) : crd A := λ s, (Err e, s).
Definition clift {A} (r : res A) : crd A := λ s, (r, s).
Definition get_out : crd (out_ctx bytes bytes) := λ s, (Ok (cs_out s.1), s).
Definition put_out (c : out_ctx bytes bytes) : crd unit := λ s, (Ok tt, (Ctx (cs_rng s.1) c (cs_kv s.1), s.2)).
Definition put_rng (r : R) : crd unit := λ s, (Ok tt, (Ctx r (cs_out s.1) (cs_kv s.1), s.2)).

Definition read_string : crd bytes :=
  str_size ← in_kv read_u32;
  in_kv (read str_size).

Definition read_model_info : crd unit :=
  arch ← read_string;
  if negb (bool_decide (arch = cp_arch p)) then fail (Throw "wrong model arch") else mret tt.

Definition read_rng : crd unit :=
  s ← read_string;
  match scan_rng s with
  | Some r => put_rng r
  | None => fail (Throw "failed to load RNG state")
  end.

Definition INT32_MAX : Z := 2 ^ 31 - 1.

(** Reserving outputs; what is left when it fails stays. *)
Definition reserve_outputs (n : Z) : crd unit :=
  c ← get_out;
  let '(reserved, c) := llama_output_reserve dp alloc c n in
  _ ← put_out c;
  if bool_decide (reserved < n) then fail (Throw "could not reserve outputs") else mret tt.

(** The bytes of [n] integers. *)
Fixpoint parse_i32s (n : nat) (bs : bytes) : list Z :=
  match n with
  | O => []
  | S n' => i32 (un_le (take 4 bs)) :: parse_i32s n' (drop 4 bs)
  end.

(** Bytes are copied to the front of a buffer. *)
Fixpoint put_bytes (w : nat) (bs : bytes) (rows : list (option bytes)) : list (option bytes) :=
  match rows with
  | [] => []
  | r :: rows' =>
    if bool_decide (length bs = 0)%nat then rows
    else if bool_decide (w ≤ length bs)%nat then Some (take w bs) :: put_bytes w (drop w bs) rows'
    else Some (bs ++ drop (length bs) (default (junk w) r)) :: rows'
  end.

Definition put_logits (bs : bytes) : crd unit :=
  c ← get_out;
  match oc_logits c with
  | None => fail Oob
  | Some rows => put_out (with_rows c (Some (put_bytes (Z.to_nat (dp_n_vocab dp * 4)) bs rows)) (oc_embd c) (oc_embd_seq c))
  end.

Definition put_embd (bs : bytes) : crd unit :=
  c ← get_out;
  match oc_embd c with
  | None => fail Oob
  | Some rows => put_out (with_rows c (oc_logits c) (Some (put_bytes (Z.to_nat (dp_n_embd dp * 4)) bs rows)) (oc_embd_seq c))
  end.

Fixpoint set_ids (output_pos : list Z) (i : nat) (output_ids : list Z) : res (list Z) :=
  match output_pos with
  | [] => Ok output_ids
  | id :: output_pos' =>
    output_ids ← put output_ids (Z.to_nat id) (Z.of_nat i);
    set_ids output_pos' (S i) output_ids
  end.

(** The outputs: the ids. *)
Definition read_output_pos (n_outputs : Z) : crd (list Z) :=
  if bool_decide (n_outputs = 0) then mret []
  else
    bs ← in_kv (read (n_outputs * 4));
    let output_pos := parse_i32s (Z.to_nat n_outputs) bs in
    if forallb (λ id, bool_decide (u32 id < Z.of_nat (dp_n_batch dp))) output_pos then mret output_pos
    else fail (Throw "invalid output id").

(** The logits that were saved. *)
Definition read_logits (n_outputs : Z) : crd Z :=
  logits_size ← in_kv read_u64;
  c ← get_out;
  if bool_decide (u64 (n_outputs * dp_n_vocab dp) < logits_size) || bool_decide (SIZE_MAX ÷ 4 < logits_size) ||
     bool_decide (oc_logits_size c < logits_size)
  then fail (Throw "logits buffer too small")
  else if bool_decide (logits_size = 0) then mret logits_size
  else
    bs ← in_kv (read (logits_size * 4));
    _ ← put_logits bs;
    mret logits_size.

(** More outputs are reserved when the embeddings need them; the logits are kept. *)
Definition reserve_more (required embeddings_size logits_size : Z) : crd bytes :=
  c ← get_out;
  if bool_decide (oc_output_size c < required) || bool_decide (oc_embd_size c < embeddings_size) then
    logits ← (if bool_decide (logits_size = 0) then mret []
              else clift (buf_bytes (Z.to_nat (dp_n_vocab dp * 4)) (oc_logits c) (logits_size * 4)));
    _ ← reserve_outputs required;
    c ← get_out;
    if bool_decide (oc_logits_size c < logits_size) then fail (Throw "logits buffer too small") else mret logits
  else mret [].

Definition read_outputs : crd unit :=
  n_outputs ← in_kv read_u32;
  if bool_decide (INT32_MAX < n_outputs) || bool_decide (Z.of_nat (dp_n_batch dp) < n_outputs)
  then fail (Throw "could not reserve outputs")
  else
    _ ← reserve_outputs n_outputs;
    output_pos ← read_output_pos n_outputs;
    logits_size ← read_logits n_outputs;
    embeddings_size ← in_kv read_u64;
    let row_width := dp_n_embd dp in
    if bool_decide (row_width = 0) || negb (bool_decide (embeddings_size mod row_width = 0))
    then fail (Throw "invalid embeddings payload size")
    else
      let n_outputs_embd := embeddings_size ÷ row_width in
      if bool_decide (INT32_MAX < n_outputs_embd) || bool_decide (SIZE_MAX ÷ 4 < embeddings_size)
      then fail (Throw "too many embedding outputs")
      else
        logits ← reserve_more (Z.max n_outputs n_outputs_embd) embeddings_size logits_size;
        c ← get_out;
        if bool_decide (oc_embd_size c < embeddings_size) then fail (Throw "embeddings buffer too small")
        else
          ids ← clift (set_ids output_pos 0 (oc_output_ids c));
          _ ← put_out (with_n_outputs (with_ids c ids) n_outputs (oc_n_outputs_embd c));
          _ ← (if bool_decide (logits = []) then mret tt else put_logits logits);
          c ← get_out;
          _ ← put_out (with_n_outputs c (oc_n_outputs c) n_outputs_embd);
          if bool_decide (embeddings_size = 0) then mret tt
          else
            bs ← in_kv (read (embeddings_size * 4));
            put_embd bs.

Definition read_state : crd unit :=
  _ ← read_model_info;
  _ ← read_rng;
  _ ← read_outputs;
  in_kv (read_kv_cache g (-1) true).

(** What [llama_state_set_data_internal] returns, or throws, and the context. *)
Definition set_data_internal (c : ctx_state R) (src : bytes) : res Z * ctx_state R :=
  if negb (llama_state_io_supported (ks_kv (cs_kv c)) (-1)) then (Ok SIZE_MAX, c)
  else
    match read_state (c, src) with
    | (Ok _, (c, rest)) => (Ok (Z.of_nat (length src - length rest)), c)
    | (Err e, (c, _)) => (Err e, c)
    end.

Definition llama_state_set_data (c : ctx_state R) (src : bytes) : res (Z * ctx_state R) :=
  match set_data_internal c src with
  | (Ok n, c) => Ok (n, c)
  | (Err (Throw _), c) => Ok (0, c)
  | (Err e, _) => Err e
  end.

(** ** Files *)

Definition LLAMA_SESSION_MAGIC : Z := 0x6767736e.
Definition LLAMA_SESSION_VERSION : Z := 12.
Definition LLAMA_STATE_SEQ_MAGIC : Z := 0x67677371.
Definition LLAMA_STATE_SEQ_VERSION : Z := 6.

Definition file_header (magic version : Z) (tokens : list Z) : bytes :=
  le 4 (u32 magic) ++ le 4 (u32 version) ++ le 4 (u32 (Z.of_nat (length tokens))) ++ (tokens ≫= λ t, le 4 (u32 t)).

(** The file that is written; [None] for failure. *)
Definition llama_state_save_file (c : ctx_state R) (tokens : list Z) : res (option bytes) :=
  if negb (llama_state_io_supported (ks_kv (cs_kv c)) (-1)) then Ok None
  else
    match (calls ← write_state c; chunks ← mapM call_bytes calls; mret (mjoin chunks)) with
    | Ok bs => Ok (if bool_decide (length bs = 0)%nat then None
                   else Some (file_header LLAMA_SESSION_MAGIC LLAMA_SESSION_VERSION tokens ++ bs))
    | Err (Throw _) => Ok None
    | Err e => Err e
    end.

(** The header of a file: the tokens and the rest, unless it does not fit or the file
    is of another kind or too short. *)
Definition parse_header (magic version capacity : Z) (file : bytes) : option (list Z * bytes) :=
  if bool_decide (length file < 12)%nat then None
  else if negb (bool_decide (un_le (take 4 file) = magic)) || negb (bool_decide (un_le (take 4 (drop 4 file)) = version)) then None
  else
    let n := un_le (take 4 (drop 8 file)) in
    if bool_decide (capacity < n) then None
    else if bool_decide (Z.of_nat (length file) < 12 + 4 * n) then None
    else Some (parse_i32s (Z.to_nat n) (drop 12 file), drop (12 + 4 * Z.to_nat n) file).

(** Success, the tokens (unless the header is refused) and the context. *)
Definition llama_state_load_file (c : ctx_state R) (file : bytes) (n_token_capacity : Z)
    : res (bool * option (list Z) * ctx_state R) :=
  if negb (llama_state_io_supported (ks_kv (cs_kv c)) (-1)) then Ok (false, None, c)
  else
    match parse_header LLAMA_SESSION_MAGIC LLAMA_SESSION_VERSION n_token_capacity file with
    | None => Ok (false, None, c)
    | Some (tokens, data) =>
      match set_data_internal c data with
      | (Ok n_read, c) => Ok (bool_decide (n_read = Z.of_nat (length data)), Some tokens, c)
      | (Err (Throw _), c) => Ok (false, Some tokens, c)
      | (Err e, _) => Err e
      end
    end.
End context.

(** The files of single sequences; the size of the file is returned, 0 for failure. *)
Definition llama_state_seq_save_file (g : state_geom) (st : kv_state) (seq_id : Z) (tokens : list Z) : res (Z * bytes) :=
  if negb (llama_state_io_supported (ks_kv st) seq_id) then Ok (0, [])
  else
    match (calls ← write_kv_cache g st seq_id true; chunks ← mapM call_bytes calls; mret (mjoin chunks)) with
    | Ok bs =>
      let file := file_header LLAMA_STATE_SEQ_MAGIC LLAMA_STATE_SEQ_VERSION tokens ++ bs in
      if bool_decide (length bs = 0)%nat then Ok (0, file) else Ok (Z.of_nat (length file), file)
    | Err (Throw _) => Ok (0, [])
    | Err e => Err e
    end.

Definition llama_state_seq_load_file (g : state_geom) (st : kv_state) (file : bytes) (dest_seq_id n_token_capacity : Z)
    : res (Z * option (list Z) * kv_state) :=
  if negb (llama_state_io_supported (ks_kv st) dest_seq_id) then Ok (0, None, st)
  else
    match parse_header LLAMA_STATE_SEQ_MAGIC LLAMA_STATE_SEQ_VERSION n_token_capacity file with
    | None => Ok (0, None, st)
    | Some (tokens, data) =>
      match read_kv_cache g dest_seq_id true (st, data) with
      | (Ok _, (st, rest)) =>
        if bool_decide (length data - length rest = 0)%nat then Ok (0, Some tokens, st)
        else Ok (Z.of_nat (length file - length rest), Some tokens, st)
      | (Err (Throw _), (st, _)) => Ok (0, Some tokens, st)
      | (Err e, _) => Err e
      end
    end.
