(* ===== verification/StateCtxSpec.v ===== *)
(** * Sessions survive

    A context saved to a session file and restored from it: the random state, the
    rows of the last outputs, and the cache. *)
From S2P Require Import Prelude KvCache KvLemmas KvSlot KvSpec Outputs StateIO StateIOSpec StateRoundtrip StateFull StateCtx.

(** ** Buffers of rows *)

(** The first [n] rows of a buffer are written, [w] floats each; without buffer there
    is no room. *)
Definition buf_ok (has : bool) (w n : Z) (buf : option (list (option bytes))) (size : Z) : Prop :=
  if has
  then ∃ b rows, buf = Some b ∧ take (Z.to_nat n) b = Some <$> rows ∧ length rows = Z.to_nat n ∧
    Forall (λ r, Z.of_nat (length r) = w * 4) rows ∧ n * w ≤ size
  else buf = None ∧ size = 0.

(** The bytes of these rows. *)
Definition saved_rows (n : Z) (buf : option (list (option bytes))) : bytes :=
  mjoin (omap id (take (Z.to_nat n) (default [] buf))).

Lemma mjoin_cons (r : bytes) rows : mjoin (r :: rows) = r ++ mjoin rows.
Proof. done. Qed.

Lemma mjoin_length (w : nat) (rows : list bytes) : Forall (λ r, length r = w) rows → length (mjoin rows) = (length rows * w)%nat.
Proof. induction 1 as [|r rows Hr _ IH]; [done|]. rewrite mjoin_cons, length_app, IH. cbn. lia. Qed.

Lemma omap_id_Some {A} (l : list A) : omap id (Some <$> l) = l.
Proof. induction l as [|x l IH]; [done|]. cbn. by rewrite IH. Qed.

Lemma take_flat junk (w : nat) (b : list (option bytes)) (rows : list bytes) n : take n b = Some <$> rows → Forall (λ r, length r = w) rows →
  take (length rows * w) (b ≫= default (junk w)) = mjoin rows.
Proof.
  intros Ht Hw. rewrite <- (take_drop n b), Ht, bind_app. rewrite take_app_length'.
  - clear. induction rows as [|r rows IH]; [done|]. rewrite mjoin_cons. cbn [fmap list_fmap mbind list_bind default] in *. unfold id in *. by rewrite IH.
  - rewrite <- (mjoin_length w rows Hw). clear. induction rows as [|r rows IH]; [done|]. rewrite mjoin_cons. cbn [fmap list_fmap mbind list_bind default] in *. unfold id in *. by rewrite !length_app, IH.
Qed.

Lemma flat_length junk (w : nat) (b : list (option bytes)) (rows : list bytes) n : take n b = Some <$> rows → Forall (λ r, length r = w) rows →
  (length rows * w ≤ length (b ≫= default (junk w)))%nat.
Proof.
  intros Ht Hw. rewrite <- (take_drop n b), Ht, bind_app, length_app. rewrite <- (mjoin_length w rows Hw).
  enough (length ((Some <$> rows) ≫= default (junk w)) = length (mjoin rows)) by lia.
  clear. induction rows as [|r rows IH]; [done|]. rewrite mjoin_cons. cbn [fmap list_fmap mbind list_bind default] in *. unfold id in *. by rewrite !length_app, IH.
Qed.

Lemma put_bytes_spec junk (w : nat) (rows : list bytes) b : (0 < w)%nat → Forall (λ r, length r = w) rows → (length rows ≤ length b)%nat →
  put_bytes junk w (mjoin rows) b = (Some <$> rows) ++ drop (length rows) b.
Proof.
  intros Hw. induction rows as [|r rows IH] in b |- *; intros Hr Hl; [by destruct b|].
  apply Forall_cons in Hr as [Hr0 Hr]. destruct b as [|x b]; [cbn in Hl; lia|]. rewrite mjoin_cons. cbn [put_bytes fmap list_fmap length drop app].
  rewrite (bool_decide_false (length (r ++ mjoin rows) = 0)%nat) by (rewrite length_app; lia).
  rewrite (bool_decide_true (w ≤ length (r ++ mjoin rows))%nat) by (rewrite length_app; lia).
  rewrite take_app_length', drop_app_length' by done. rewrite IH; [done|done|cbn in Hl; lia].
Qed.

(** ** Ids *)

Lemma output_positions_spec (n i : nat) ids n_outputs pos : (i + n ≤ length ids)%nat →
  n_outputs = Z.of_nat (length pos) → n_outputs < 2 ^ 31 → Forall (λ q, q = -1 ∨ 0 ≤ q < n_outputs) ids →
  (∀ j k q, 0 ≤ q → ids !! j = Some q → ids !! k = Some q → j = k) →
  ∃ pos', output_positions n i ids n_outputs pos = Ok pos' ∧ length pos' = length pos ∧
    ∀ r j, ids !! j = Some (Z.of_nat r) → (r < length pos)%nat →
      pos' !! r = if decide (i ≤ j < i + n)%nat then Some (Z.of_nat j) else pos !! r.
Proof.
  intros Hl Hn Hsm Hids Hinj. induction n as [|n IH] in i, pos, Hl, Hn |- *; cbn [output_positions].
  { exists pos. split; [done|]. split; [done|]. intros r j _ _. by rewrite decide_False by lia. }
  destruct (at_lt ids i) as (q & -> & Hq); [lia|]. cbn [mbind res_bind]. pose proof (Forall_lookup_1 _ _ _ _ Hids Hq) as Hr. cbn in Hr.
  bdec (0 ≤ q) as H0.
  - rewrite u32_small by lia. rewrite (bool_decide_true (q < n_outputs)) by lia. cbn [ggml_assert mbind res_bind].
    rewrite put_lt by lia. cbn [mbind res_bind].
    destruct (IH (S i) (<[Z.to_nat q := Z.of_nat i]> pos)) as (pos' & -> & Hlen & Hspec); [lia|by rewrite length_insert|].
    exists pos'. split; [done|]. rewrite length_insert in Hlen, Hspec. split; [done|]. intros r j Hj Hr'. rewrite (Hspec r j Hj Hr').
    destruct (decide (i ≤ j < i + S n)%nat) as [Hin|Hout].
    + destruct (decide (j = i)) as [->|Hne].
      * rewrite decide_False by lia. rewrite Hq in Hj. injection Hj as ->. rewrite Nat2Z.id. by rewrite list_lookup_insert_eq by lia.
      * by rewrite decide_True by lia.
    + rewrite decide_False by lia. rewrite list_lookup_insert_ne; [done|]. intros Heq. assert (q = Z.of_nat r) as -> by lia.
      pose proof (Hinj i j (Z.of_nat r) ltac:(lia) Hq Hj). lia.
  - destruct (IH (S i) pos) as (pos' & -> & Hlen & Hspec); [lia|done|]. exists pos'. split; [done|]. split; [done|].
    intros r j Hj Hr'. rewrite (Hspec r j Hj Hr'). destruct (decide (j = i)) as [->|Hne].
    + rewrite Hq in Hj. injection Hj as ->. lia.
    + apply decide_ext. lia.
Qed.

Lemma set_ids_spec pos i ids : Forall (λ q, 0 ≤ q < Z.of_nat (length ids)) pos → NoDup pos →
  ∃ ids', set_ids pos i ids = Ok ids' ∧ length ids' = length ids ∧
    (∀ r q, pos !! r = Some q → ids' !! Z.to_nat q = Some (Z.of_nat (i + r))) ∧
    (∀ k, Z.of_nat k ∉ pos → ids' !! k = ids !! k).
Proof.
  induction pos as [|q pos IH] in i, ids |- *; intros Hr Hnd; [by exists ids|].
  apply Forall_cons in Hr as [Hq Hr]. apply NoDup_cons in Hnd as [Hni Hnd]. cbn [set_ids]. rewrite put_lt by lia. cbn [mbind res_bind].
  destruct (IH (S i) (<[Z.to_nat q := Z.of_nat i]> ids)) as (ids' & -> & Hl & Hin & Hout); [by rewrite length_insert|done|].
  rewrite length_insert in Hl. exists ids'. split; [done|]. split; [done|]. split.
  - intros [|r] x Hx.
    + injection Hx as ->. rewrite Hout by (rewrite Z2Nat.id by lia; done). rewrite list_lookup_insert_eq by lia. by rewrite Nat.add_0_r.
    + rewrite (Hin r x Hx). f_equal. lia.
  - intros k Hk. apply not_elem_of_cons in Hk as [Hne Hk]. rewrite Hout by done. by rewrite list_lookup_insert_ne by lia.
Qed.

Lemma parse_i32s_spec (l : list Z) rest : Forall is_i32 l → parse_i32s (length l) ((l ≫= λ x, le 4 (u32 x)) ++ rest) = l.
Proof.
  induction 1 as [|x l Hx _ IH]; [done|]. cbn [length parse_i32s mbind list_bind]. rewrite <- app_assoc.
  rewrite take_app_length', drop_app_length' by (by rewrite length_le). rewrite IH. rewrite un_le_le by apply u32_range. by rewrite i32_u32, i32_small.
Qed.

Lemma i32s_length (l : list Z) : length (l ≫= λ x, le 4 (u32 x)) = (length l * 4)%nat.
Proof. induction l as [|x l IH]; [done|]. cbn [mbind list_bind length]. rewrite length_app, length_le. lia. Qed.

(** ** Contexts *)

Definition has_logits (dp : dec_params) : bool := negb (dp_embeddings dp).
Definition has_embd (dp : dec_params) : bool := dp_embeddings dp && bool_decide (dp_pooling dp = PoolingNone).

(** Sizes that fit the types. *)
Record params_ok (p : ctx_params) : Prop := {
  pa_arch : Z.of_nat (length (cp_arch p)) < 2 ^ 32;
  pa_batch : Z.of_nat (dp_n_batch (cp_dec p)) < 2 ^ 31;
  pa_seq : 0 ≤ dp_n_seq_max (cp_dec p);
  pa_vocab : 0 < dp_n_vocab (cp_dec p) ∧ dp_n_vocab (cp_dec p) * Z.max (Z.of_nat (dp_n_batch (cp_dec p))) (dp_n_seq_max (cp_dec p)) < 2 ^ 58;
  pa_embd : 0 < dp_n_embd (cp_dec p) ∧ dp_n_embd (cp_dec p) * Z.max (Z.of_nat (dp_n_batch (cp_dec p))) (dp_n_seq_max (cp_dec p)) < 2 ^ 58 }.

(** The outputs of a batch: every row belongs to one token, and is written. *)
Record outs_ok (dp : dec_params) (c : out_ctx bytes bytes) : Prop := {
  ok_ids : length (oc_output_ids c) = dp_n_batch dp;
  ok_n : 0 ≤ oc_n_outputs c ≤ Z.of_nat (dp_n_batch dp) ∧ oc_n_outputs c ≤ oc_output_size c;
  ok_range : Forall (λ q, q = -1 ∨ 0 ≤ q < oc_n_outputs c) (oc_output_ids c);
  ok_row : ∀ r, 0 ≤ r < oc_n_outputs c → ∃ i, oc_output_ids c !! i = Some r;
  ok_inj : ∀ j k q, 0 ≤ q → oc_output_ids c !! j = Some q → oc_output_ids c !! k = Some q → j = k;
  ok_logits : buf_ok (has_logits dp) (dp_n_vocab dp) (oc_n_outputs c) (oc_logits c) (oc_logits_size c);
  ok_n_embd : 0 ≤ oc_n_outputs_embd c ≤ oc_n_outputs c;
  ok_embd : buf_ok (has_embd dp) (dp_n_embd dp) (oc_n_outputs_embd c) (oc_embd c) (oc_embd_size c) }.

Definition floats_size (has : bool) (w n : Z) : Z := if has then n * w else 0.
Definition floats_wire (has : bool) (w n : Z) (buf : option (list (option bytes))) : bytes :=
  le 8 (u64 (floats_size has w n)) ++ (if has then saved_rows n buf else []).

Lemma saved_rows_spec n b rows : take (Z.to_nat n) b = Some <$> rows → saved_rows n (Some b) = mjoin rows.
Proof. intros Ht. unfold saved_rows. cbn [default]. unfold id. rewrite Ht. by rewrite omap_id_Some. Qed.

Lemma Forall_nat_len (w : Z) (rows : list bytes) : 0 ≤ w → Forall (λ r, Z.of_nat (length r) = w) rows → Forall (λ r, length r = Z.to_nat w) rows.
Proof. intros Hw H. eapply Forall_impl; [done|]. cbn. intros. lia. Qed.

Lemma saved_rows_length has w n buf size : 0 ≤ n → 0 < w → buf_ok has w n buf size → has = true →
  Z.of_nat (length (saved_rows n buf)) = n * w * 4.
Proof.
  intros Hn Hw Hb ->. destruct Hb as (b & rows & -> & Ht & Hl & Hf & _). rewrite (saved_rows_spec n b rows Ht).
  rewrite (mjoin_length (Z.to_nat (w * 4)) rows) by (apply Forall_nat_len; [lia|done]). rewrite Hl. nia.
Qed.

Lemma calls_bytes_write1 bs : calls_bytes [Write bs] = Ok bs.
Proof. rewrite <- (app_nil_r bs) at 2. by apply calls_bytes_write. Qed.

Lemma write_floats_spec junk has w n buf size : 0 ≤ n → 0 < w → n * w < 2 ^ 60 → n < 2 ^ 32 → buf_ok has w n buf size →
  writes (write_floats junk w buf (Z.min size (u64 (u64 n * w)))) (floats_wire has w n buf).
Proof.
  intros Hn Hw Hs Hn32 Hb. assert (0 ≤ n * w) by (apply Z.mul_nonneg_nonneg; lia). rewrite (u64_small n), (u64_small (n * w)) by lia.
  unfold write_floats, floats_wire, floats_size. destruct has.
  - pose proof (saved_rows_length true w n buf size Hn Hw Hb eq_refl) as Hlen.
    destruct Hb as (b & rows & -> & Ht & Hl & Hf & Hsize). rewrite Z.min_r by lia. bdec (n * w = 0) as H0.
    { assert (saved_rows n (Some b) = []) as -> by (apply nil_length_inv; lia). rewrite app_nil_r, H0. eexists. split; [done|].
      apply calls_bytes_write1. }
    apply Forall_nat_len in Hf; [|lia]. unfold buf_bytes. rewrite (saved_rows_spec n b rows Ht) in *.
    pose proof (mjoin_length _ _ Hf) as Hm. pose proof (flat_length junk _ b rows _ Ht Hf) as Hfl.
    rewrite bool_decide_true by lia. cbn [mbind res_bind mret res_ret].
    replace (Z.to_nat (n * w * 4)) with (length rows * Z.to_nat (w * 4))%nat by lia. rewrite (take_flat junk _ b rows _ Ht Hf).
    eexists. split; [done|]. apply calls_bytes_write, calls_bytes_write1.
  - destruct Hb as [-> ->]. rewrite Z.min_l by lia. rewrite bool_decide_true by done. rewrite app_nil_r. eexists. split; [done|].
    apply calls_bytes_write1.
Qed.

Lemma run_buffer_app n calls1 calls2 : run_buffer n (calls1 ++ calls2) =
  (bs ← run_buffer n calls1; rest ← run_buffer (n - run_dummy calls1) calls2; mret (bs ++ rest)).
Proof.
  induction calls1 as [|c calls1 IH] in n |- *.
  { cbn. rewrite Z.sub_0_r. by destruct (run_buffer n calls2). }
  cbn [app run_buffer]. bdec (n < call_size c) as Hn; [done|]. destruct (call_bytes c) as [bs|]; [|done]. cbn [mbind res_bind].
  rewrite IH. unfold run_dummy. cbn [foldr]. fold (run_dummy calls1). replace (n - (call_size c + run_dummy calls1)) with (n - call_size c - run_dummy calls1) by lia.
  destruct (run_buffer _ calls1) as [bs1|]; [|done]. cbn [mbind res_bind mret res_ret].
  destruct (run_buffer _ calls2) as [bs2|]; [|done]. cbn [mbind res_bind mret res_ret]. by rewrite app_assoc.
Qed.

(** When no part fails, the buffer is filled as if all had been collected before. *)
Lemma run_parts_ok n parts calls : mapM id parts = Ok calls → run_parts n parts = run_buffer n (mjoin calls).
Proof.
  induction parts as [|part parts IH] in n, calls |- *; cbn [mapM id]; [by intros [= <-]|].
  intros (c & -> & (cs & Hcs & [= <-])%bind_Ok)%bind_Ok. cbn [run_parts mbind res_bind mjoin list_join].
  rewrite run_buffer_app. destruct (run_buffer n c) as [bs|]; [|done]. cbn [mbind res_bind]. by rewrite (IH _ cs Hcs).
Qed.

(** The token of every row. *)
Definition row_tokens (c : out_ctx bytes bytes) (pos : list Z) : Prop :=
  length pos = Z.to_nat (oc_n_outputs c) ∧
  (∀ r q, pos !! r = Some q → 0 ≤ q ∧ oc_output_ids c !! Z.to_nat q = Some (Z.of_nat r)).

Lemma write_output_ids_spec p c : params_ok p → outs_ok (cp_dec p) c → ∃ pos, row_tokens c pos ∧
  writes (write_output_ids p c) (le 4 (u32 (oc_n_outputs c)) ++ (pos ≫= λ i, le 4 (u32 i))).
Proof.
  intros Hp Hok. destruct Hok as [Hids [Hn Hcap] Hrange Hrow Hinj _ _ _]. pose proof (pa_batch _ Hp). unfold write_output_ids.
  rewrite u32_small by lia. rewrite (bool_decide_true (oc_n_outputs c ≤ oc_output_size c)) by lia. cbn [ggml_assert mbind res_bind].
  destruct (output_positions_spec (dp_n_batch (cp_dec p)) 0 (oc_output_ids c) (oc_n_outputs c) (replicate (Z.to_nat (oc_n_outputs c)) 0))
    as (pos & -> & Hl & Hspec); [lia|rewrite length_replicate; lia|lia|done|done|]. rewrite length_replicate in Hl, Hspec.
  cbn [mbind res_bind mret res_ret]. exists pos. split.
  - split; [done|]. intros r q Hq. pose proof (lookup_lt_Some _ _ _ Hq). destruct (Hrow (Z.of_nat r)) as [j Hj]; [lia|].
    rewrite (Hspec r j Hj) in Hq by lia. pose proof (lookup_lt_Some _ _ _ Hj). rewrite decide_True in Hq by lia. injection Hq as <-.
    split; [lia|]. by rewrite Nat2Z.id.
  - eexists. split; [done|]. unfold write_u32; rewrite u32_small by lia; apply calls_bytes_write. bdec (oc_n_outputs c = 0) as H0.
    + assert (pos = []) as -> by (apply nil_length_inv; lia). done.
    + apply calls_bytes_write1.
Qed.

Section session.
Context {R : Type} (print_rng : R → bytes) (scan_rng : bytes → option R) (alloc : Z → bool) (junk : nat → bytes) (p : ctx_params).
Context (Hscan : ∀ r, scan_rng (print_rng r) = Some r) (Hprint : ∀ r, Z.of_nat (length (print_rng r)) < 2 ^ 32).
Context (Halloc : ∀ n, alloc n = true) (Hp : params_ok p).

Local Abbreviation dp := (cp_dec p).

Definition string_wire (s : bytes) : bytes := le 4 (u32 (Z.of_nat (length s))) ++ s.

Definition outs_wire (c : out_ctx bytes bytes) (pos : list Z) : bytes :=
  le 4 (u32 (oc_n_outputs c)) ++ (pos ≫= λ i, le 4 (u32 i)) ++
  floats_wire (has_logits dp) (dp_n_vocab dp) (oc_n_outputs c) (oc_logits c) ++
  floats_wire (has_embd dp) (dp_n_embd dp) (oc_n_outputs_embd c) (oc_embd c).

Definition ctx_wire (c : ctx_state R) (pos : list Z) (ranges : list (Z * Z)) : bytes :=
  string_wire (cp_arch p) ++ string_wire (print_rng (cs_rng c)) ++ outs_wire (cs_out c) pos ++
  state_wire (cp_geom p) (cs_kv c) (-1) ranges.

Lemma outputs_fit w n : 0 < w → w * Z.max (Z.of_nat (dp_n_batch dp)) (dp_n_seq_max dp) < 2 ^ 58 → 0 ≤ n ≤ Z.of_nat (dp_n_batch dp) →
  0 ≤ n * w < 2 ^ 58 ∧ 0 ≤ w * Z.max n (dp_n_seq_max dp) < 2 ^ 58 ∧ n * w ≤ w * Z.max n (dp_n_seq_max dp).
Proof using Hp.
  intros Hw Hs Hn. pose proof (pa_seq _ Hp).
  assert (w * Z.max n (dp_n_seq_max dp) ≤ w * Z.max (Z.of_nat (dp_n_batch dp)) (dp_n_seq_max dp)) by (apply Z.mul_le_mono_nonneg_l; lia).
  assert (w * n ≤ w * Z.max n (dp_n_seq_max dp)) by (apply Z.mul_le_mono_nonneg_l; lia).
  assert (0 ≤ w * n) by (apply Z.mul_nonneg_nonneg; lia). lia.
Qed.

Lemma write_state_spec c : outs_ok dp (cs_out c) → state_ok (cp_geom p) (cs_kv c) → ∃ pos ranges,
  row_tokens (cs_out c) pos ∧ range_cells ranges = saved_cells (-1) (ks_kv (cs_kv c)) ∧
  writes (write_state print_rng junk p c) (ctx_wire c pos ranges).
Proof using Hp.
  intros Hok Hkv. destruct (write_output_ids_spec p (cs_out c) Hp Hok) as (pos & Hpos & ids & Hids & Hbids).
  destruct (write_kv_cache_spec (cp_geom p) (cs_kv c) (-1) Hkv) as (ranges & Hr & kv & Hkvw & Hbkv).
  pose proof (pa_batch _ Hp). destruct (pa_vocab _ Hp) as [Hv1 Hv2]. destruct (pa_embd _ Hp) as [He1 He2].
  destruct (ok_n _ _ Hok) as [Hn _]. pose proof (ok_n_embd _ _ Hok) as Hne.
  pose proof (outputs_fit _ _ Hv1 Hv2 Hn). pose proof (outputs_fit _ (oc_n_outputs_embd (cs_out c)) He1 He2 ltac:(lia)).
  destruct (write_floats_spec junk _ _ _ _ _ (proj1 Hn) Hv1 ltac:(lia) ltac:(lia) (ok_logits _ _ Hok)) as (ls & Hls & Hbls).
  destruct (write_floats_spec junk _ _ _ _ _ (proj1 Hne) He1 ltac:(lia) ltac:(lia) (ok_embd _ _ Hok)) as (es & Hes & Hbes).
  exists pos, ranges. split; [done|]. split; [done|]. unfold write_state, state_parts, write_logits, write_embeddings. cbn [mapM id mbind res_bind].
  rewrite Hids. cbn [mbind res_bind]. rewrite Hls. cbn [mbind res_bind]. rewrite Hes. cbn [mbind res_bind]. rewrite Hkvw. cbn [mbind res_bind mret res_ret].
  eexists. split; [done|]. unfold ctx_wire, outs_wire, string_wire, write_model_info, write_rng, write_string. rewrite <- !app_assoc.
  cbn [mjoin list_join app]. do 4 apply calls_bytes_write. rewrite (app_assoc (le 4 _) (pos ≫= _)), app_nil_r.
  apply calls_bytes_app_ok; [done|]. by do 2 (apply calls_bytes_app_ok; [done|]).
Qed.

(** *** Reading *)

Lemma crd_step {A B} (m : @crd R A) (f : A → @crd R B) s a s' : m s = (Ok a, s') → (m ≫= f) s = f a s'.
Proof using. clear. intros H. unfold mbind, crd_bind. by rewrite H. Qed.

Lemma in_kv_Ok {A} (m : rd A) (c : ctx_state R) bs a bs' : m (cs_kv c, bs) = (Ok a, (cs_kv c, bs')) → in_kv m (c, bs) = (Ok a, (c, bs')).
Proof using. clear. intros H. unfold in_kv. cbn [fst snd]. rewrite H. by destruct c. Qed.

Ltac crd H := rewrite (crd_step _ _ _ _ _ H).

Definition with_out (c : ctx_state R) (o : out_ctx bytes bytes) : ctx_state R := Ctx (cs_rng c) o (cs_kv c).

Lemma read_string_spec (c : ctx_state R) s rest : Z.of_nat (length s) < 2 ^ 32 → read_string (c, string_wire s ++ rest) = (Ok s, (c, rest)).
Proof using.
  clear. intros Hs. unfold read_string, string_wire. rewrite <- app_assoc.
  crd (in_kv_Ok read_u32 c _ _ _ (read_u32_app (cs_kv c) (Z.of_nat (length s)) (s ++ rest))).
  apply in_kv_Ok. apply read_app. by rewrite u32_small by lia.
Qed.

Lemma read_model_info_spec (c : ctx_state R) rest : read_model_info p (c, string_wire (cp_arch p) ++ rest) = (Ok tt, (c, rest)).
Proof using Hp. unfold read_model_info. crd (read_string_spec c (cp_arch p) rest (pa_arch _ Hp)). by rewrite bool_decide_true. Qed.

Lemma read_rng_spec (c : ctx_state R) r rest :
  read_rng scan_rng (c, string_wire (print_rng r) ++ rest) = (Ok tt, (Ctx r (cs_out c) (cs_kv c), rest)).
Proof using Hscan Hprint. unfold read_rng. crd (read_string_spec c (print_rng r) rest (Hprint r)). by rewrite Hscan. Qed.

(** What reserving outputs leaves. *)
Record reserved (n : Z) (o : out_ctx bytes bytes) : Prop := {
  re_ids : oc_output_ids o = replicate (dp_n_batch dp) (-1);
  re_size : oc_output_size o = Z.max n (dp_n_seq_max dp);
  re_logits : oc_logits o = if has_logits dp then Some (replicate (Z.to_nat (Z.max n (dp_n_seq_max dp))) None) else None;
  re_embd : oc_embd o = if has_embd dp then Some (replicate (Z.to_nat (Z.max n (dp_n_seq_max dp))) None) else None;
  re_lsize : oc_logits_size o = if has_logits dp then dp_n_vocab dp * Z.max n (dp_n_seq_max dp) else 0;
  re_esize : oc_embd_size o = if has_embd dp then dp_n_embd dp * Z.max n (dp_n_seq_max dp) else 0 }.

Lemma reserve_outputs_spec (c : ctx_state R) n bs : 0 ≤ n ≤ Z.of_nat (dp_n_batch dp) →
  oc_output_ids (cs_out c) = [] ∨ length (oc_output_ids (cs_out c)) = dp_n_batch dp →
  ∃ o, reserve_outputs alloc p n (c, bs) = (Ok tt, (with_out c o, bs)) ∧ reserved n o.
Proof using Halloc Hp.
  intros Hn Hids. destruct (pa_vocab _ Hp) as [Hv1 Hv2]. destruct (pa_embd _ Hp) as [He1 He2].
  pose proof (outputs_fit _ _ Hv1 Hv2 Hn). pose proof (outputs_fit _ _ He1 He2 Hn).
  unfold reserve_outputs. crd (eq_refl : get_out (c, bs) = (Ok (cs_out c), (c, bs))). unfold llama_output_reserve.
  fold (has_logits dp). fold (has_embd dp). rewrite (u64_small (dp_n_vocab dp * _)), (u64_small (dp_n_embd dp * _)) by lia. rewrite Halloc.
  assert (length (if bool_decide (oc_output_ids (cs_out c) = []) then replicate (dp_n_batch dp) 0 else oc_output_ids (cs_out c)) = dp_n_batch dp) as ->.
  { bdec (oc_output_ids (cs_out c) = []) as E; [apply length_replicate|]. by destruct Hids. }
  set (new_size := u64 (_ * 4)). match goal with |- context [match ?b with Some size => Some size | None => Some new_size end] => set (buf := b) end.
  assert (∃ size, match buf with Some size => Some size | None => Some new_size end = Some size) as [size ->] by (destruct buf; by eexists).
  match goal with |- context [put_out ?o] => exists o; crd (eq_refl : put_out o (c, bs) = (Ok tt, (with_out c o, bs))) end.
  rewrite bool_decide_false by lia. split; [done|]. split; try done.
Qed.

Lemma read_output_pos_spec (c : ctx_state R) o pos rest : row_tokens o pos → 0 ≤ oc_n_outputs o ≤ Z.of_nat (dp_n_batch dp) →
  length (oc_output_ids o) = dp_n_batch dp →
  read_output_pos p (oc_n_outputs o) (c, (pos ≫= λ i, le 4 (u32 i)) ++ rest) = (Ok pos, (c, rest)).
Proof using Hp.
  intros [Hl Hpos] Hn Hids. pose proof (pa_batch _ Hp). unfold read_output_pos. bdec (oc_n_outputs o = 0) as H0.
  { assert (pos = []) as -> by (apply nil_length_inv; lia). done. }
  assert (Forall (λ q, 0 ≤ q < Z.of_nat (dp_n_batch dp)) pos) as Hf.
  { apply Forall_lookup. intros r q Hq. destruct (Hpos r q Hq) as [Hq0 Hi]. apply lookup_lt_Some in Hi. lia. }
  crd (in_kv_Ok (read (oc_n_outputs o * 4)) c _ _ _ (read_app (cs_kv c) (pos ≫= λ i, le 4 (u32 i)) rest (oc_n_outputs o * 4) ltac:(rewrite i32s_length; lia))).
  rewrite <- Hl. rewrite <- (app_nil_r (pos ≫= _)), parse_i32s_spec.
  2: { eapply Forall_impl; [exact Hf|]. unfold is_i32. cbn. intros. lia. }
  assert (forallb (λ id, bool_decide (u32 id < Z.of_nat (dp_n_batch dp))) pos = true) as ->; [|done].
  apply forallb_forall. intros q Hq%list_elem_of_In. pose proof (proj1 (Forall_forall _ _) Hf q Hq). cbn in *.
  rewrite u32_small by lia. apply bool_decide_true. lia.
Qed.

(** A buffer with the rows of another in front. *)
Definition buf_same (has : bool) (n : Z) (buf buf' : option (list (option bytes))) : Prop :=
  if has then ∃ b b', buf = Some b ∧ buf' = Some b' ∧ take (Z.to_nat n) b' = take (Z.to_nat n) b else buf' = None.

Lemma put_saved_rows w n b size m : 0 < w → 0 ≤ n → (Z.to_nat n ≤ m)%nat → buf_ok true w n (Some b) size →
  take (Z.to_nat n) (put_bytes junk (Z.to_nat (w * 4)) (saved_rows n (Some b)) (replicate m None)) = take (Z.to_nat n) b.
Proof using.
  clear. intros Hw Hn Hm (b0 & rows & [= <-] & Ht & Hl & Hf & _). rewrite (saved_rows_spec n b rows Ht), Ht.
  rewrite put_bytes_spec by (rewrite ?length_replicate; lia || apply Forall_nat_len; done || lia).
  rewrite <- Hl, take_app_length' by (by rewrite length_fmap). done.
Qed.

Lemma floats_zero has w n buf size : 0 ≤ n → 0 < w → buf_ok has w n buf size → floats_size has w n = 0 → (if has then saved_rows n buf else []) = [].
Proof using.
  clear. intros Hn Hw Hb H0. destruct has; [|done]. apply nil_length_inv. pose proof (saved_rows_length true w n buf size Hn Hw Hb eq_refl).
  cbn in H0. lia.
Qed.

Lemma with_out_id (c : ctx_state R) : with_out c (cs_out c) = c.
Proof using. by destruct c. Qed.

(** The logits. *)
Lemma read_logits_spec (c : ctx_state R) (o src : out_ctx bytes bytes) m rest : 0 ≤ oc_n_outputs src ≤ Z.of_nat (dp_n_batch dp) →
  buf_ok (has_logits dp) (dp_n_vocab dp) (oc_n_outputs src) (oc_logits src) (oc_logits_size src) →
  m = Z.max (oc_n_outputs src) (dp_n_seq_max dp) → reserved (oc_n_outputs src) o →
  ∃ buf, read_logits junk p (oc_n_outputs src)
    (with_out c o, floats_wire (has_logits dp) (dp_n_vocab dp) (oc_n_outputs src) (oc_logits src) ++ rest) =
    (Ok (floats_size (has_logits dp) (dp_n_vocab dp) (oc_n_outputs src)), (with_out c (with_rows o buf (oc_embd o) (oc_embd_seq o)), rest)) ∧
    buf_same (has_logits dp) (oc_n_outputs src) (oc_logits src) buf.
Proof using Hp.
  intros Hn Hb Hm [Hids Hsz Hl He Hls Hes]. destruct (pa_vocab _ Hp) as [Hv1 Hv2]. pose proof (outputs_fit _ _ Hv1 Hv2 Hn) as (Hf1 & Hf2 & Hf3).
  set (n := oc_n_outputs src) in *. set (has := has_logits dp) in *. set (w := dp_n_vocab dp) in *.
  assert (0 ≤ floats_size has w n ≤ n * w) as Hfs by (unfold floats_size; destruct has; lia).
  unfold read_logits, floats_wire. rewrite <- app_assoc. set (payload := if has then saved_rows n (oc_logits src) else []).
  crd (in_kv_Ok read_u64 (with_out c o) _ _ _ (read_u64_app (cs_kv c) (floats_size has w n) (payload ++ rest) ltac:(lia))).
  crd (eq_refl : get_out (with_out c o, payload ++ rest) = (Ok o, (with_out c o, payload ++ rest))).
  fold w. rewrite (u64_small (n * w)) by lia. rewrite (bool_decide_false (n * w < floats_size has w n)) by lia.
  rewrite (bool_decide_false (SIZE_MAX ÷ 4 < floats_size has w n)) by (change (SIZE_MAX ÷ 4) with 4611686018427387903; lia).
  rewrite (bool_decide_false (oc_logits_size o < floats_size has w n)) by (rewrite Hls; unfold floats_size; destruct has; lia). cbn [orb].
  bdec (floats_size has w n = 0) as H0.
  - pose proof (floats_zero has w n _ _ (proj1 Hn) Hv1 Hb H0) as Hz. fold payload in Hz. rewrite Hz, H0. cbn [app].
    exists (oc_logits o). split; [by destruct o|]. rewrite Hl. unfold buf_same. destruct has; [|done].
    cbn [floats_size] in H0. assert (n = 0) as -> by lia. destruct Hb as (b & rows & -> & _). by do 2 eexists.
  - assert (has = true) as Ht by (destruct has; [done|by cbn in H0]). subst payload. rewrite Ht in *. cbn [floats_size] in *.
    pose proof (saved_rows_length true w n _ _ (proj1 Hn) Hv1 Hb eq_refl) as Hlen.
    pose proof Hb as (b & rows & Hbuf & _). rewrite Hbuf in *.
    crd (in_kv_Ok (read (n * w * 4)) (with_out c o) _ _ _ (read_app (cs_kv c) (saved_rows n (Some b)) rest (n * w * 4) ltac:(lia))).
    assert (Hput : put_logits junk p (saved_rows n (Some b)) (with_out c o, rest) =
      (Ok tt, (with_out c (with_rows o (Some (put_bytes junk (Z.to_nat (w * 4)) (saved_rows n (Some b)) (replicate (Z.to_nat m) None))) (oc_embd o) (oc_embd_seq o)), rest))).
    { unfold put_logits. crd (eq_refl : get_out (with_out c o, rest) = (Ok o, (with_out c o, rest))). rewrite Hl, <- Hm. done. }
    crd Hput. eexists. split; [done|].
    exists b. eexists. split; [done|]. split; [done|]. apply (put_saved_rows w n b (oc_logits_size src)); [done|lia|lia|done].
Qed.
(** Outputs that look the same. *)
Record outs_same (o o' : out_ctx bytes bytes) : Prop := {
  sa_ids : oc_output_ids o' = oc_output_ids o;
  sa_n : oc_n_outputs o' = oc_n_outputs o;
  sa_logits : buf_same (has_logits dp) (oc_n_outputs o) (oc_logits o) (oc_logits o');
  sa_n_embd : oc_n_outputs_embd o' = if has_embd dp then oc_n_outputs_embd o else 0;
  sa_embd : buf_same (has_embd dp) (oc_n_outputs_embd o) (oc_embd o) (oc_embd o') }.

(** The ids of the rows put them back. *)
Lemma set_ids_restores src pos : outs_ok dp src → row_tokens src pos →
  set_ids pos 0 (replicate (dp_n_batch dp) (-1)) = Ok (oc_output_ids src).
Proof using.
  clear. intros [Hids [Hn _] Hrange Hrow Hinj _ _ _] [Hl Hpos].
  assert (NoDup pos) as Hnd.
  { apply NoDup_alt. intros r1 r2 q H1 H2. destruct (Hpos _ _ H1) as [_ E1]. destruct (Hpos _ _ H2) as [_ E2].
    rewrite E1 in E2. injection E2. lia. }
  destruct (set_ids_spec pos 0 (replicate (dp_n_batch dp) (-1))) as (ids' & -> & Hl' & Hin & Hout); [|done|].
  { rewrite length_replicate. apply Forall_lookup. intros r q Hq. destruct (Hpos r q Hq) as [Hq0 Hi]. apply lookup_lt_Some in Hi. lia. }
  rewrite length_replicate in Hl'. f_equal. apply list_eq_same_length with (n := dp_n_batch dp); [done|done|].
  intros k x y Hk Hx Hy. pose proof (Forall_lookup_1 _ _ _ _ Hrange Hy) as Hr. cbn in Hr. destruct Hr as [->|Hr].
  - rewrite Hout in Hx; [by apply lookup_replicate in Hx as [-> _]|]. intros Hin'. apply list_elem_of_lookup in Hin' as [r Hr].
    destruct (Hpos r _ Hr) as [_ Hi]. rewrite Nat2Z.id, Hy in Hi. injection Hi. lia.
  - destruct (lookup_lt_is_Some_2 pos (Z.to_nat y)) as [q Hq]; [lia|]. destruct (Hpos _ _ Hq) as [Hq0 Hi].
    rewrite Z2Nat.id in Hi by lia. pose proof (Hinj k (Z.to_nat q) y ltac:(lia) Hy Hi) as ->.
    rewrite (Hin _ _ Hq) in Hx. injection Hx as <-. lia.
Qed.

Lemma floats_div has w n : 0 < w → 0 ≤ n → floats_size has w n mod w = 0 ∧ floats_size has w n ÷ w = if has then n else 0.
Proof using.
  clear. intros Hw Hn. unfold floats_size. destruct has; [|by rewrite Zmod_0_l, Z.quot_0_l by lia].
  by rewrite Z_mod_mult, Z.quot_mul by lia.
Qed.

(** The rows of embeddings, into a buffer with enough room. *)
Lemma read_embd_spec (c : ctx_state R) (o src : out_ctx bytes bytes) rest : 0 ≤ oc_n_outputs_embd src →
  buf_ok (has_embd dp) (dp_n_embd dp) (oc_n_outputs_embd src) (oc_embd src) (oc_embd_size src) →
  (if has_embd dp then ∃ m, (Z.to_nat (oc_n_outputs_embd src) ≤ m)%nat ∧ oc_embd o = Some (replicate m None) else oc_embd o = None) →
  let es := floats_size (has_embd dp) (dp_n_embd dp) (oc_n_outputs_embd src) in
  ∃ buf, (if bool_decide (es = 0) then mret tt else (bs ← in_kv (read (es * 4)); put_embd junk p bs))
      (with_out c o, (if has_embd dp then saved_rows (oc_n_outputs_embd src) (oc_embd src) else []) ++ rest) =
    (Ok tt, (with_out c (with_rows o (oc_logits o) buf (oc_embd_seq o)), rest)) ∧
    buf_same (has_embd dp) (oc_n_outputs_embd src) (oc_embd src) buf.
Proof using Hp.
  intros Hn Hb Ho es. destruct (pa_embd _ Hp) as [He1 _]. set (ne := oc_n_outputs_embd src) in *. set (w := dp_n_embd dp) in *. bdec (es = 0) as H0.
  - rewrite (floats_zero (has_embd dp) w ne _ _ Hn He1 Hb H0). exists (oc_embd o). split; [by destruct o|]. unfold buf_same.
    subst es. unfold floats_size in H0. destruct (has_embd dp); [|done]. assert (ne = 0) as -> by lia.
    destruct Hb as (b & rows & Hb & _), Ho as (m & _ & ->). by do 2 eexists.
  - assert (has_embd dp = true) as Ht by (subst es; unfold floats_size in H0; by destruct (has_embd dp)).
    subst es. rewrite Ht in *. cbn [floats_size] in *. pose proof (saved_rows_length true w ne _ _ Hn He1 Hb eq_refl) as Hlen.
    pose proof Hb as (b & rows & Hbuf & _). destruct Ho as (m & Hm & Hom). rewrite Hbuf in *.
    crd (in_kv_Ok (read (ne * w * 4)) (with_out c o) _ _ _ (read_app (cs_kv c) (saved_rows ne (Some b)) rest (ne * w * 4) ltac:(lia))).
    eexists. split.
    { unfold put_embd. crd (eq_refl : get_out (with_out c o, rest) = (Ok o, (with_out c o, rest))). rewrite Hom. done. }
    exists b. eexists. split; [done|]. split; [done|]. fold w. apply (put_saved_rows w ne b (oc_embd_size src)); [done|lia|lia|done].
Qed.

Lemma read_outputs_spec (c : ctx_state R) src pos rest : outs_ok dp src → row_tokens src pos →
  oc_output_ids (cs_out c) = [] ∨ length (oc_output_ids (cs_out c)) = dp_n_batch dp →
  ∃ o', read_outputs alloc junk p (c, outs_wire src pos ++ rest) = (Ok tt, (with_out c o', rest)) ∧ outs_same src o'.
Proof using Halloc Hp.
  intros Hok Hpos Hdst. pose proof (set_ids_restores _ _ Hok Hpos) as Hset. pose proof Hok as [Hids [Hn Hcap] _ _ _ Hlb Hne Heb].
  pose proof (pa_batch _ Hp). destruct (pa_embd _ Hp) as [He1 He2].
  destruct (outputs_fit (dp_n_embd dp) (oc_n_outputs_embd src) He1 He2 ltac:(lia)) as (Hf1 & Hf2 & Hf3).
  set (n := oc_n_outputs src) in *. set (ne := oc_n_outputs_embd src) in *. set (w := dp_n_embd dp) in *.
  unfold read_outputs, outs_wire. fold n ne w. rewrite <- !app_assoc.
  set (lw := floats_wire (has_logits dp) _ _ _). set (ew := floats_wire (has_embd dp) _ _ _).
  crd (in_kv_Ok read_u32 c _ _ _ (read_u32_app (cs_kv c) n ((pos ≫= λ i, le 4 (u32 i)) ++ lw ++ ew ++ rest))).
  rewrite u32_small by lia. rewrite (bool_decide_false (INT32_MAX < n)) by (unfold INT32_MAX; lia).
  rewrite (bool_decide_false (Z.of_nat (dp_n_batch dp) < n)) by lia. cbn [orb].
  destruct (reserve_outputs_spec c n ((pos ≫= λ i, le 4 (u32 i)) ++ lw ++ ew ++ rest) Hn Hdst) as (o & Hres & Ho). crd Hres.
  crd (read_output_pos_spec (with_out c o) src pos (lw ++ ew ++ rest) Hpos Hn Hids).
  destruct (read_logits_spec c o src _ (ew ++ rest) Hn Hlb eq_refl Ho) as (buf & Hread & Hbuf). fold n lw in Hread. crd Hread.
  set (o1 := with_rows o buf (oc_embd o) (oc_embd_seq o)). subst ew. unfold floats_wire. set (es := floats_size (has_embd dp) w ne).
  assert (0 ≤ es ≤ ne * w) as Hes by (subst es; unfold floats_size; destruct (has_embd dp); lia).
  destruct (floats_div (has_embd dp) w ne He1 (proj1 Hne)) as [Hmod Hquot]. fold es in Hmod, Hquot.
  set (payload := if has_embd dp then saved_rows ne (oc_embd src) else []). rewrite <- app_assoc.
  crd (in_kv_Ok read_u64 (with_out c o1) _ _ _ (read_u64_app (cs_kv c) es (payload ++ rest) ltac:(lia))). cbn zeta. fold w.
  rewrite (bool_decide_false (w = 0)), (bool_decide_true (es mod w = 0)) by lia. cbn [orb negb]. rewrite Hquot.
  set (ne' := if has_embd dp then ne else 0). assert (0 ≤ ne' ≤ ne) as Hne' by (subst ne'; destruct (has_embd dp); lia).
  rewrite (bool_decide_false (INT32_MAX < ne')) by (unfold INT32_MAX; lia).
  rewrite (bool_decide_false (SIZE_MAX ÷ 4 < es)) by (change (SIZE_MAX ÷ 4) with 4611686018427387903; lia). cbn [orb].
  assert (es ≤ oc_embd_size o1) as Hesz.
  { change (oc_embd_size o1) with (oc_embd_size o). rewrite (re_esize _ _ Ho). fold w. subst es. unfold floats_size. destruct (has_embd dp); [|lia].
    assert (w * ne ≤ w * Z.max n (dp_n_seq_max dp)) by (apply Z.mul_le_mono_nonneg_l; lia). lia. }
  set (ls := floats_size (has_logits dp) _ _).
  assert (reserve_more alloc junk p (Z.max n ne') es ls (with_out c o1, payload ++ rest) = (Ok [], (with_out c o1, payload ++ rest))) as Hmore.
  { unfold reserve_more. crd (eq_refl : get_out (with_out c o1, payload ++ rest) = (Ok o1, (with_out c o1, payload ++ rest))).
    change (oc_output_size o1) with (oc_output_size o). rewrite (re_size _ _ Ho).
    rewrite (bool_decide_false (_ < Z.max n ne')) by lia. by rewrite (bool_decide_false (oc_embd_size o1 < es)) by lia. }
  crd Hmore. crd (eq_refl : get_out (with_out c o1, payload ++ rest) = (Ok o1, (with_out c o1, payload ++ rest))).
  rewrite (bool_decide_false (oc_embd_size o1 < es)) by lia. change (oc_output_ids o1) with (oc_output_ids o). rewrite (re_ids _ _ Ho), Hset.
  crd (eq_refl : clift (R := R) (Ok (oc_output_ids src)) (with_out c o1, payload ++ rest) = (Ok (oc_output_ids src), (with_out c o1, payload ++ rest))).
  set (o2 := with_n_outputs (with_ids o1 _) _ _). crd (eq_refl : put_out o2 (with_out c o1, payload ++ rest) = (Ok tt, (with_out c o2, payload ++ rest))).
  rewrite (bool_decide_true ([] = [])) by done.
  crd (eq_refl : (mret tt : @crd R unit) (with_out c o2, payload ++ rest) = (Ok tt, (with_out c o2, payload ++ rest))).
  crd (eq_refl : get_out (with_out c o2, payload ++ rest) = (Ok o2, (with_out c o2, payload ++ rest))).
  set (o3 := with_n_outputs o2 _ _). crd (eq_refl : put_out o3 (with_out c o2, payload ++ rest) = (Ok tt, (with_out c o3, payload ++ rest))).
  destruct (read_embd_spec c o3 src rest (proj1 Hne) Heb) as (ebuf & Hembd & Hsame);
    [change (oc_embd o3) with (oc_embd o); rewrite (re_embd _ _ Ho); fold n; fold ne; by destruct (has_embd dp); [eexists; split; [|done]; lia|]|].
  fold ne w es payload in Hembd. rewrite Hembd. eexists. split; [done|]. by split.
Qed.

(** *** The whole session *)

Lemma buf_same_lookup has n buf buf' b' (j : nat) : 0 ≤ Z.of_nat j < n → buf_same has n buf buf' → buf' = Some b' →
  ∃ b, buf = Some b ∧ b' !! j = b !! j.
Proof using.
  clear. intros Hj Hs ->. destruct has; [|done]. destruct Hs as (b & b0 & -> & [= <-] & Ht). exists b. split; [done|].
  rewrite <- (lookup_take_lt b' (Z.to_nat n) j), <- (lookup_take_lt b (Z.to_nat n) j) by lia. by rewrite Ht.
Qed.

Lemma output_row_range {A E} (c : out_ctx A E) n i j : output_row c n i = Some j → 0 ≤ j < n.
Proof using.
  clear. unfold output_row. intros H. destruct (if bool_decide (i < 0) then Some (n + i) else oc_output_ids c !! Z.to_nat i) as [j0|]; [|done].
  destruct (bool_decide (j0 < 0) || bool_decide (n ≤ j0)) eqn:Ej; [done|]. injection H as <-.
  apply orb_false_iff in Ej as [?%bool_decide_eq_false ?%bool_decide_eq_false]. lia.
Qed.

(** An offset below the rows in use, wherever it wrapped to, finds the same floats. *)
Lemma row_at_same has w off n buf buf' b b' : 0 < w → 0 ≤ off < n * w → buf_same has n buf buf' → has = true →
  buf = Some b → buf' = Some b' → row_at w off b' = row_at w off b.
Proof using.
  clear. intros Hw Hoff Hs -> -> ->. unfold row_at. case_bool_decide; [|done].
  assert (0 ≤ off / w < n) as Hj by (split; [by apply Z.div_pos; lia|apply Z.div_lt_upper_bound; lia]).
  destruct (buf_same_lookup true n _ _ b' (Z.to_nat (off / w)) ltac:(lia) Hs eq_refl) as (b0 & [= <-] & ->). done.
Qed.

Lemma u32_le z : 0 ≤ z → 0 ≤ u32 z ≤ z.
Proof using. clear. intros. unfold u32. split; [apply Z.mod_pos_bound; lia|apply Z.mod_le; lia]. Qed.

Lemma u64_le z : 0 ≤ z → 0 ≤ u64 z ≤ z.
Proof using. clear. intros. unfold u64. split; [apply Z.mod_pos_bound; lia|apply Z.mod_le; lia]. Qed.

(** The rows that are found. *)
Lemma same_lookups src o' : 0 < dp_n_vocab dp → 0 < dp_n_embd dp → outs_ok dp src → outs_same src o' →
  (∀ i, llama_get_logits_ith dp o' i = llama_get_logits_ith dp src i) ∧
  (∀ i, llama_get_embeddings_ith dp o' i = llama_get_embeddings_ith dp src i).
Proof using.
  clear. intros Hw Hwe Hok [Hids Hn Hl Hne He]. pose proof (ok_logits _ _ Hok) as Hlb. pose proof (ok_embd _ _ Hok) as Heb.
  assert (∀ n i, output_row o' n i = output_row src n i) as Hrow by (intros; unfold output_row; by rewrite Hids).
  unfold llama_get_logits_ith, llama_get_embeddings_ith. rewrite Hn, Hne. split; intros i; rewrite Hrow.
  - destruct (has_logits dp) eqn:Eh; [|cbn in Hl, Hlb; destruct Hlb as [-> _]; by rewrite Hl].
    pose proof Hl as (b & b' & Es & Eb & _). rewrite Es, Eb.
    destruct (output_row src (oc_n_outputs src) i) as [j|] eqn:Ej; [|done]. apply output_row_range in Ej. cbn. f_equal.
    pose proof (u32_le (j * dp_n_vocab dp) ltac:(nia)). apply (row_at_same true _ _ (oc_n_outputs src) (oc_logits src) (oc_logits o')); (done || nia).
  - destruct (has_embd dp) eqn:Eh; [|cbn in He, Heb; destruct Heb as [-> _]; by rewrite He].
    pose proof He as (b & b' & Es & Eb & _). rewrite Es, Eb.
    destruct (output_row src (oc_n_outputs_embd src) i) as [j|] eqn:Ej; [|done]. apply output_row_range in Ej. cbn. f_equal.
    pose proof (u64_le (j * dp_n_embd dp) ltac:(nia)). apply (row_at_same true _ _ (oc_n_outputs_embd src) (oc_embd src) (oc_embd o')); (done || nia).
Qed.

Lemma read_state_spec' src (dst : ctx_state R) pos ranges : outs_ok dp (cs_out src) → row_tokens (cs_out src) pos →
  oc_output_ids (cs_out dst) = [] ∨ length (oc_output_ids (cs_out dst)) = dp_n_batch dp →
  compatible_all (cp_geom p) (cs_kv src) (cs_kv dst) → range_cells ranges = saved_cells (-1) (ks_kv (cs_kv src)) →
  ∃ o', outs_same (cs_out src) o' ∧
    if decide (Z.of_nat (length (live_cells (kv_cells (ks_kv (cs_kv src))))) ≤ kv_size (ks_kv (cs_kv dst)))
    then ∃ kv', read_state scan_rng alloc junk p (dst, ctx_wire src pos ranges) = (Ok tt, (Ctx (cs_rng src) o' kv', [])) ∧
      cache_landed (cp_geom p) (cs_kv src) (cs_kv dst) kv'
    else ∃ rest, read_state scan_rng alloc junk p (dst, ctx_wire src pos ranges) =
      (Err (Throw "failed to restore kv cache"), (Ctx (cs_rng src) o' (clear_state (cs_kv dst)), rest)).
Proof using Hscan Hprint Halloc Hp.
  intros Hok Hpos Hdst Hca Hr. unfold read_state, ctx_wire. set (kvw := state_wire _ _ _ _). set (ow := outs_wire _ _).
  crd (read_model_info_spec dst (string_wire (print_rng (cs_rng src)) ++ ow ++ kvw)).
  crd (read_rng_spec dst (cs_rng src) (ow ++ kvw)). set (c1 := Ctx (cs_rng src) (cs_out dst) (cs_kv dst)).
  destruct (read_outputs_spec c1 (cs_out src) pos kvw Hok Hpos Hdst) as (o' & Hread & Hsame). fold ow in Hread.
  exists o'. split; [done|]. pose proof (read_all_spec (cp_geom p) (cs_kv src) (cs_kv dst) Hca ranges [] Hr) as Hkv.
  rewrite app_nil_r in Hkv. fold kvw in Hkv. case_decide as Hle.
  - eexists. split; [|by apply (restored_all _ _ _ Hca)]. crd Hread. unfold in_kv. cbn [fst snd with_out c1 cs_kv cs_rng cs_out]. by rewrite Hkv.
  - eexists. crd Hread. unfold in_kv. cbn [fst snd with_out c1 cs_kv cs_rng cs_out]. by rewrite Hkv.
Qed.
End session.

Lemma length_file_header magic version tokens : length (file_header magic version tokens) = (12 + length tokens * 4)%nat.
Proof. unfold file_header. rewrite !length_app, !length_le, i32s_length. lia. Qed.

Lemma parse_header_spec magic version capacity tokens data : 0 ≤ magic < 2 ^ 32 → 0 ≤ version < 2 ^ 32 → Forall is_i32 tokens →
  Z.of_nat (length tokens) ≤ capacity → Z.of_nat (length tokens) < 2 ^ 32 →
  parse_header magic version capacity (file_header magic version tokens ++ data) = Some (tokens, data).
Proof.
  intros Hm Hv Ht Hc Hn. unfold parse_header. pose proof (length_file_header magic version tokens) as Hl.
  rewrite (bool_decide_false (_ < 12)%nat) by (rewrite length_app; lia).
  assert (drop 12 (file_header magic version tokens ++ data) = (tokens ≫= λ t, le 4 (u32 t)) ++ data) as Hd.
  { unfold file_header. by rewrite <- !app_assoc. }
  assert (take 4 (file_header magic version tokens ++ data) = le 4 (u32 magic)) as -> by done.
  assert (take 4 (drop 4 (file_header magic version tokens ++ data)) = le 4 (u32 version)) as -> by done.
  assert (take 4 (drop 8 (file_header magic version tokens ++ data)) = le 4 (u32 (Z.of_nat (length tokens)))) as -> by done.
  rewrite !un_le_le by apply u32_range. rewrite !u32_small by lia. rewrite !bool_decide_true by done. cbn [negb orb].
  rewrite (bool_decide_false (capacity < _)) by lia. rewrite bool_decide_false by (rewrite length_app; lia). rewrite Nat2Z.id, Hd.
  rewrite parse_i32s_spec by done. rewrite drop_app_length' by lia. done.
Qed.
