(* ===== verification/Session.v ===== *)
(** * Sessions

    The claims about saved contexts: a session file gives the context back; and what
    a batch computed can still be asked for after its context was saved and
    restored. *)
From S2P Require Import Prelude KvCache KvLemmas KvSlot KvSpec Outputs OutputsSpec StateIO StateIOSpec StateRoundtrip StateFull StateCtx StateCtxSpec.

(** ** The outputs of a decoded batch *)

Section decoded.
Context (dp : dec_params) (b : user_batch) (rows : list bytes) (c : out_ctx bytes bytes).
Context (Hlog : dp_embeddings dp = false) (Hflags : flags_ok b) (Hpos : (0 < ub_n_tokens b ≤ dp_n_batch dp)%nat).
Context (Hvocab : 0 < dp_n_vocab dp) (Hdec : decoded dp b rows c).
Context (Hlen : length rows = ub_n_tokens b) (Hrows : Forall (λ r, Z.of_nat (length r) = dp_n_vocab dp * 4) rows).

Local Abbreviation tokens := (asked dp b 0 (ub_n_tokens b)).

Lemma tokens_count : count_outputs dp b = length tokens.
Proof using Hlog Hflags Hpos. clear Hlen. apply (count_outputs_asked dp b Hflags (not_pooled dp Hlog)). lia. Qed.

Lemma tokens_NoDup : NoDup tokens.
Proof using. apply NoDup_filter, NoDup_seq. Qed.

(** The rank of a token and the token of a rank. *)
Lemma row_id_rank i q : (i < ub_n_tokens b)%nat → row_id dp b i = q → 0 ≤ q → tokens !! Z.to_nat q = Some i.
Proof using.
  clear. intros Hi. unfold row_id. destruct (requested dp b i) eqn:E; [|lia]. intros <- _. rewrite Nat2Z.id. by apply asked_rank0.
Qed.

Lemma rank_row_id r i : tokens !! r = Some i → (i < ub_n_tokens b)%nat ∧ row_id dp b i = Z.of_nat r.
Proof using.
  clear Hlen Hpos. intros Hr. pose proof (list_elem_of_lookup_2 _ _ _ Hr) as [Hreq Hi]%elem_of_asked. split; [lia|]. unfold row_id. rewrite Hreq.
  pose proof (asked_rank0 dp b i ltac:(lia) Hreq) as Ha. f_equal. by apply (NoDup_lookup _ _ _ _ tokens_NoDup Ha).
Qed.

Lemma decoded_id i q : oc_output_ids c !! i = Some q → q = -1 ∨ (i < ub_n_tokens b)%nat ∧ row_id dp b i = q.
Proof using Hdec.
  clear Hlen Hpos. destruct (de_ids _ _ _ _ Hdec) as [_ Hids]. rewrite Hids. case_decide as Hi; [intros [= <-]; right; split; [lia|done]|].
  intros [-> _]%lookup_replicate. by left.
Qed.

Lemma decoded_outs_ok : outs_ok dp c.
Proof using Hlog Hflags Hpos Hvocab Hdec Hlen Hrows.
  pose proof tokens_count as Hcount. pose proof (asked_le dp b 0 (ub_n_tokens b)) as Hle. pose proof Hdec as [[Hl Hids] Hn Hne (buf & Hbuf & Hg) (Hc1 & Hc2 & Hc3 & Hc4)].
  rewrite length_replicate in Hl. split; rewrite ?Hn, ?Hne.
  - done.
  - lia.
  - apply Forall_lookup. intros i q Hq. destruct (decoded_id i q Hq) as [->|[Hi Hr]]; [by left|].
    destruct (decide (q < 0)); [left; unfold row_id in Hr; destruct (requested dp b i); lia|right].
    pose proof (lookup_lt_Some _ _ _ (row_id_rank i q Hi Hr ltac:(lia))). lia.
  - intros r Hr. destruct (lookup_lt_is_Some_2 tokens (Z.to_nat r)) as [i Hi]; [lia|]. destruct (rank_row_id _ _ Hi) as [Hlt Hid].
    exists i. rewrite Hids, decide_True by lia. f_equal. lia.
  - intros j k q Hq Hj Hk. destruct (decoded_id j q Hj) as [->|[Hj' Hrj]]; [lia|]. destruct (decoded_id k q Hk) as [->|[Hk' Hrk]]; [lia|].
    pose proof (row_id_rank j q Hj' Hrj Hq). pose proof (row_id_rank k q Hk' Hrk Hq). congruence.
  - unfold has_logits. rewrite Hlog. cbn [negb buf_ok]. exists buf, ((λ i, default [] (rows !! i)) <$> tokens).
    assert (∀ r i, tokens !! r = Some i → ∃ row, rows !! i = Some row ∧ buf !! r = Some (Some row)) as Hrow.
    { intros r i Hr. pose proof (list_elem_of_lookup_2 _ _ _ Hr) as [_ Hi]%elem_of_asked.
      destruct (lookup_lt_is_Some_2 rows i) as [row Hrow]; [lia|]. exists row. split; [done|].
      pose proof (ga_rows _ _ _ _ _ _ Hg r i) as Hgr. cbn [Nat.add] in Hgr. rewrite !Nat.sub_0_r in Hgr. rewrite (Hgr Hr). by rewrite Hrow. }
    split; [done|]. split; [|split; [|split]].
    + rewrite Nat2Z.id, Hcount. apply list_eq. intros r. rewrite list_lookup_fmap, list_lookup_fmap. destruct (tokens !! r) as [i|] eqn:Er.
      * destruct (Hrow r i Er) as (row & Hr & Hb). apply lookup_lt_Some in Er. rewrite lookup_take_lt, Hb by done. cbn. by rewrite Hr.
      * apply lookup_ge_None in Er. by rewrite lookup_take_ge by done.
    + rewrite length_fmap. lia.
    + apply Forall_fmap, Forall_forall. intros i Hi. apply list_elem_of_lookup in Hi as [r Hr]. destruct (Hrow r i Hr) as (row & Hrow' & _).
      cbn. rewrite Hrow'. by apply (Forall_lookup_1 _ _ _ _ Hrows Hrow').
    + rewrite Hc2, Z.mul_comm. apply Z.mul_le_mono_nonneg_l; lia.
  - lia.
  - unfold has_embd. rewrite Hlog. done.
Qed.
End decoded.

(** ** Session files *)

Section files.
Context {R : Type} (print_rng : R → bytes) (scan_rng : bytes → option R) (alloc : Z → bool) (junk : nat → bytes) (p : ctx_params).

(** Two contexts of one model, with parameters that fit their types. *)
Record session_ok (src dst : ctx_state R) (tokens : list Z) (capacity : Z) : Prop := {
  ss_params : params_ok p;
  ss_outs : outs_ok (cp_dec p) (cs_out src);
  ss_ids : oc_output_ids (cs_out dst) = [] ∨ length (oc_output_ids (cs_out dst)) = dp_n_batch (cp_dec p);
  ss_kv : compatible_all (cp_geom p) (cs_kv src) (cs_kv dst);
  ss_tokens : Forall is_i32 tokens ∧ Z.of_nat (length tokens) ≤ capacity ∧ Z.of_nat (length tokens) < 2 ^ 32 }.

(** What a restored context has: the random state, the rows of the outputs, and the
    cache. *)
Record ctx_landed (src dst dst' : ctx_state R) : Prop := {
  xl_rng : cs_rng dst' = cs_rng src;
  xl_logits : ∀ i, llama_get_logits_ith (cp_dec p) (cs_out dst') i = llama_get_logits_ith (cp_dec p) (cs_out src) i;
  xl_embd : ∀ i, llama_get_embeddings_ith (cp_dec p) (cs_out dst') i = llama_get_embeddings_ith (cp_dec p) (cs_out src) i;
  xl_kv : cache_landed (cp_geom p) (cs_kv src) (cs_kv dst) (cs_kv dst') }.

(** Everything that is saved is one sequence of bytes. *)
Lemma save_spec src : params_ok p → outs_ok (cp_dec p) (cs_out src) → state_ok (cp_geom p) (cs_kv src) →
  ∃ pos ranges, row_tokens (cs_out src) pos ∧ range_cells ranges = saved_cells (-1) (ks_kv (cs_kv src)) ∧
    let bs := ctx_wire print_rng p src pos ranges in
    llama_state_get_size print_rng junk p src = Ok (Z.of_nat (length bs)) ∧
    (∀ size, llama_state_get_data print_rng junk p src size =
       if bool_decide (size < Z.of_nat (length bs)) then Ok (0, []) else Ok (Z.of_nat (length bs), bs)) ∧
    ∀ tokens, llama_state_save_file print_rng junk p src tokens =
      Ok (Some (file_header LLAMA_SESSION_MAGIC LLAMA_SESSION_VERSION tokens ++ bs)).
Proof.
  intros Hp Hok Hkv. destruct (write_state_spec print_rng junk p Hp src Hok Hkv) as (pos & ranges & Hpos & Hr & calls & Hw & Hb).
  exists pos, ranges. split; [done|]. split; [done|]. intros bs. fold bs in Hb.
  assert (length bs ≠ 0)%nat as Hne by (unfold bs, ctx_wire, string_wire; rewrite !length_app, length_le; lia).
  destruct (run_buffer_spec _ _ Hb) as [Hsize Hrun]. unfold llama_state_get_size, llama_state_get_data, llama_state_save_file, llama_state_io_supported.
  rewrite (so_full _ _ (so_tensors _ _ Hkv)), andb_false_r. cbn [negb]. rewrite Hw. split; [by rewrite Hsize|]. split.
  - intros size. pose proof Hw as (parts & Hparts & [= <-])%bind_Ok. rewrite (run_parts_ok _ _ _ Hparts), Hrun.
    rewrite (bool_decide_false (mjoin parts = [])) by (intros E; rewrite E in Hb; by injection Hb as <-).
    cbn [negb]. rewrite andb_true_r. by bdec (size < Z.of_nat (length bs)) as Hsz.
  - intros tokens. cbn [mbind res_bind]. unfold calls_bytes in Hb. rewrite Hb. by rewrite bool_decide_false by done.
Qed.

Context (Hscan : ∀ r, scan_rng (print_rng r) = Some r) (Hprint : ∀ r, Z.of_nat (length (print_rng r)) < 2 ^ 32) (Halloc : ∀ n, alloc n = true).

Lemma load_spec src dst tokens capacity pos ranges :
  session_ok src dst tokens capacity → row_tokens (cs_out src) pos → range_cells ranges = saved_cells (-1) (ks_kv (cs_kv src)) →
  let bs := ctx_wire print_rng p src pos ranges in
  let file := file_header LLAMA_SESSION_MAGIC LLAMA_SESSION_VERSION tokens ++ bs in
  if decide (Z.of_nat (length (live_cells (kv_cells (ks_kv (cs_kv src))))) ≤ kv_size (ks_kv (cs_kv dst)))
  then ∃ dst', llama_state_set_data scan_rng alloc junk p dst bs = Ok (Z.of_nat (length bs), dst') ∧
    llama_state_load_file scan_rng alloc junk p dst file capacity = Ok (true, Some tokens, dst') ∧ ctx_landed src dst dst'
  else ∃ dst', llama_state_set_data scan_rng alloc junk p dst bs = Ok (0, dst') ∧
    llama_state_load_file scan_rng alloc junk p dst file capacity = Ok (false, Some tokens, dst') ∧ cs_kv dst' = clear_state (cs_kv dst).
Proof using Hscan Hprint Halloc.
  intros [Hp Hok Hids Hca (Ht1 & Ht2 & Ht3)] Hpos Hr bs file. unfold llama_state_load_file, llama_state_set_data, set_data_internal, llama_state_io_supported.
  rewrite (so_full _ _ (ca_dst _ _ _ Hca)), andb_false_r. cbn [negb]. subst file. rewrite parse_header_spec by done.
  destruct (read_state_spec' print_rng scan_rng alloc junk p Hscan Hprint Halloc Hp src dst pos ranges Hok Hpos Hids Hca Hr) as (o' & Hsame & Hread).
  fold bs in Hread. case_decide as Hle.
  - destruct Hread as (kv' & -> & Hland). eexists. rewrite Nat.sub_0_r, bool_decide_true by done. split; [done|]. split; [done|].
    destruct (same_lookups p (cs_out src) o' (proj1 (pa_vocab _ Hp)) (proj1 (pa_embd _ Hp)) Hok Hsame). by split.
  - destruct Hread as (rest & ->). by eexists.
Qed.

End files.


(** ** Batches and sessions *)

(** Every row is as wide as the graph makes it. *)
Lemma all_rows_width dp (eval : llama_kv_cache → llama_batch → nat → bytes) stop b w fuel cur kv ret kv' rows :
  (∀ kv ub i, Z.of_nat (length (eval kv ub i)) = w) → all_rows dp eval stop b fuel cur kv = Ok (ret, kv', rows) →
  Forall (λ r, Z.of_nat (length r) = w) rows.
Proof.
  intros Hw. induction fuel as [|fuel IH] in cur, kv, ret, kv', rows |- *; cbn [all_rows]; [done|].
  bdec (cur < ub_n_tokens b)%nat as Hcur; [|by intros [= _ _ <-]].
  intros (ub & _ & ([ret1 kv1] & _ & H)%bind_Ok)%bind_Ok. bdec (ret1 = 0) as Hr; cbn [negb] in H; [|by injection H as _ _ <-].
  apply bind_Ok in H as (kv2 & _ & H). assert (Forall (λ r, Z.of_nat (length r) = w) (eval kv1 ub <$> seq 0 (ubatch_size dp b cur))) as Hrows
    by (apply Forall_fmap, Forall_forall; intros i _; apply Hw).
  destruct (stop cur); [by injection H as _ _ <-|]. apply bind_Ok in H as ([[ret3 kv3] rest] & Hrest & [= _ _ <-]).
  apply Forall_app. split; [done|]. by apply (IH _ _ _ _ _ Hrest).
Qed.


(** ** Examples

    A context with a vocabulary of two, a random state of one bit, and a batch of
    three tokens in two micro-batches; the last two ask for logits. *)
Definition sess_dp : dec_params :=
  DecParams 8 2 1 2 4 false PoolingNone false true true false false false false true true false 8 0.
Definition print_bit (r : bool) : bytes := [if r then 49 else 48].
Definition scan_bit (s : bytes) : option bool := match s with [c] => Some (bool_decide (c = 49)) | _ => None end.
Definition zeros (w : nat) : bytes := replicate w 0.
Definition sess_batch : user_batch := UserBatch 3 (Some [10; 11; 12]) false None None (Some [0; 1; 1]) 0 1 0.
Definition sess_eval (kv : llama_kv_cache) (ub : llama_batch) (i : nat) : bytes :=
  replicate 8 (default 0 (toks ← b_token ub; toks !! i)).
Definition sess_out : out_ctx bytes bytes := OutCtx [] None None None 0 0 0 0 0 ∅.
Definition sess_decode (stop : nat → bool) : res (Z * llama_kv_cache * out_ctx bytes bytes) :=
  llama_decode_internal sess_dp sess_eval sess_eval (λ _ _, []) five_skips (λ _, true) (λ _, false) stop sess_batch five_kv sess_out.

(** One layer of keys and transposed values in a cache of 32 cells. *)
Definition sess_params (g : state_geom) : ctx_params := CtxParams [108; 108] sess_dp g.
Definition sess_geom : state_geom := StateGeom [Some (TensorGeom 1 2 0 0)] [Some (TensorGeom 24 0 1 2)] [None] [] true false 4.
Definition sess_state (kv : llama_kv_cache) : kv_state := KvState kv [replicate 64 1] [replicate 64 2] [] [].

Lemma sess_params_ok g : params_ok (sess_params g).
Proof. split; cbn; lia. Qed.

Lemma scan_bit_print r : scan_bit (print_bit r) = Some r.
Proof. by destruct r. Qed.

Lemma print_bit_length r : Z.of_nat (length (print_bit r)) < 2 ^ 32.
Proof. cbn. lia. Qed.

Lemma sess_tensors kv : any_compacted kv = false → kv_size kv = 32 → kv_state_slots kv = 0 → tensors_ok sess_geom (sess_state kv).
Proof.
  intros Hc Hs Hsl. split; cbn [ks_kv sess_state]; [done|lia| |].
  - split; cbn; try lia. intros t il tg. destruct t, il as [|[|il]]; cbn; try done; intros [= <-]; cbn; lia.
  - intros t il tg. destruct t, il as [|[|il]]; cbn; try done; intros [= <-]; unfold tensor_bytes; cbn; rewrite Hs; by eexists.
Qed.

(** Rows written by a batch like this one. *)
Definition two_rows : out_ctx bytes bytes :=
  OutCtx [-1; 0; 1; -1; -1; -1; -1; -1] (Some 16) (Some [Some (replicate 8 11); Some (replicate 8 12)]) None 2 4 0 2 2 ∅.

Lemma two_rows_ok : outs_ok sess_dp two_rows.
Proof.
  split; cbn; try done; try lia.
  - repeat (apply Forall_cons; split); [lia..|apply Forall_nil_2].
  - intros r Hr. destruct (decide (r = 0)) as [->|]; [by exists 1%nat|]. exists 2%nat. cbn. f_equal. lia.
  - intros j k q Hq Hj Hk. do 8 (destruct j as [|j]; [do 8 (destruct k as [|k]; [cbn in Hj, Hk; simplify_eq; lia|]); done|]). done.
  - do 2 eexists. split; [done|]. split; [by instantiate (1 := [replicate 8 11; replicate 8 12])|]. split; [done|].
    split; [|lia]. by repeat (apply Forall_cons; split).
Qed.


(** A batch that is stopped between its micro-batches: the tokens of all of them have
    rows, but only those of the last micro-batch are counted, and the assertion in
    [write_output_ids] fails when the context is saved. *)
Theorem stopped_batch_cannot_be_saved :
  ('(ret, kv, out) ← sess_decode (λ cur, bool_decide (cur = 2%nat)); Ok (ret, oc_output_ids out, oc_n_outputs out)) =
    Ok (-3, [-1; 0; 1; -1; -1; -1; -1; -1], 1) ∧
  ('(_, kv, out) ← sess_decode (λ cur, bool_decide (cur = 2%nat));
   llama_state_get_size print_bit zeros (sess_params sess_geom) (Ctx true out (sess_state kv))) = Err Abort ∧
  ('(_, kv, out) ← sess_decode (λ cur, false);
   llama_state_get_size print_bit zeros (sess_params sess_geom) (Ctx true out (sess_state kv))) = Ok 147.
Proof. vm_compute. done. Qed.

(** The cache of the batch. *)
Definition sess_kv : llama_kv_cache := match sess_decode (λ _, false) with Ok (_, kv, _) => kv | Err _ => five_kv end.

Lemma sess_kv_wf : kv_wf sess_kv.
Proof.
  split; try (vm_compute; done).
  - unfold cell_ok. refine (bool_decide_unpack _ _); vm_compute. done.
  - refine (bool_decide_unpack _ _); vm_compute. done.
  - intros _. refine (bool_decide_unpack _ _); vm_compute. done.
Qed.

Lemma sess_cells_ok : Forall (λ c, cell_i32 c ∧ seqs_ok sess_geom c) (kv_cells sess_kv).
Proof.
  assert (Forall (λ c, Forall (λ z, -10 ≤ z ≤ 100) [c_pos c; c_token c; c_qsa_pos c; c_pos_h c; c_pos_w c; c_pos_e c] ∧ set_Forall (λ s, 0 ≤ s < 4) (c_seq_id c)) (kv_cells sess_kv)) as H.
  { refine (bool_decide_unpack _ _); vm_compute. done. }
  eapply Forall_impl; [exact H|]. cbn. intros c [H1 H2]. split; [|done]. unfold cell_i32, is_i32.
  rewrite !Forall_cons in H1. lia.
Qed.

Lemma sess_state_ok kv : kv_wf kv → any_compacted kv = false → kv_size kv = 32 → kv_state_slots kv = 0 → state_ok sess_geom (sess_state kv).
Proof.
  intros Hwf Hc Hs Hsl. split; [done|by apply sess_tensors|]. intros _ il tg. destruct il as [|[|il]]; cbn; try done. intros [= <-]. cbn. rewrite Hs. lia.
Qed.

Lemma sess_compatible : compatible_all sess_geom (sess_state sess_kv) (sess_state five_kv).
Proof.
  split.
  - apply sess_state_ok; [exact sess_kv_wf|vm_compute; reflexivity..].
  - exact sess_cells_ok.
  - exact (OutputsSpec.co_wf _ _ five_kv_ok).
  - apply sess_tensors; vm_compute; reflexivity.
  - vm_compute. reflexivity.
  - vm_compute. reflexivity.
  - vm_compute. reflexivity.
  - vm_compute. reflexivity.
Qed.

