(* ===== verification/HashSet.v ===== *)
(** * The pointer hash set of ggml (ggml/src/ggml-impl.h, ggml/src/ggml.c)

    [ggml_hash_set] is an open-addressing table with linear probing over tensor
    addresses: an array of keys, of which [ggml_hash_set_new] leaves the
    contents uninitialised, and a bitset [used] of 32-bit words.  The visited
    set of a compute graph and the tensor table of the graph allocator are such
    tables.

    A tensor address is an integer in [0, 2^64).  A key that was never written
    is [None]; reading it is an error, so the theorems show that the table
    reads only keys it wrote.  The C loops end when the probe comes back to its
    first slot; the fuel is the number of slots. *)
From S2P Require Import Prelude.

Abbreviation ptr := Z.

(** ** The bitset *)

Definition BITSET_SHR  : Z := 5.
Definition BITSET_MASK : Z := 31.

Definition ggml_bitset_size (n : Z) : Z := Z.shiftr (u64 (n + BITSET_MASK)) BITSET_SHR.

Definition ggml_bitset_get (bitset : list Z) (i : Z) : res bool :=
  w ← at_ bitset (Z.to_nat (Z.shiftr i BITSET_SHR));
  Ok (negb (Z.land w (Z.shiftl 1 (Z.land i BITSET_MASK)) =? 0)).

Definition ggml_bitset_set (bitset : list Z) (i : Z) : res (list Z) :=
  w ← at_ bitset (Z.to_nat (Z.shiftr i BITSET_SHR));
  put bitset (Z.to_nat (Z.shiftr i BITSET_SHR)) (Z.lor w (Z.shiftl 1 (Z.land i BITSET_MASK))).

Definition ggml_bitset_clear (bitset : list Z) (i : Z) : res (list Z) :=
  w ← at_ bitset (Z.to_nat (Z.shiftr i BITSET_SHR));
  put bitset (Z.to_nat (Z.shiftr i BITSET_SHR))
    (Z.land w (u32 (Z.lnot (Z.shiftl 1 (Z.land i BITSET_MASK))))).

(** ** The hash set *)

Record ggml_hash_set : Type := mk_hash_set {
  hs_size : Z;
  hs_used : list Z;                 (* words of 32 bits *)
  hs_keys : list (option ptr)       (* [None]: never written *)
}.

Definition GGML_HASHSET_FULL           : Z := SIZE_MAX.
Definition GGML_HASHSET_ALREADY_EXISTS : Z := SIZE_MAX - 1.

(** [a % n]: undefined for [n = 0]. *)
Definition rem_size (a n : Z) : res Z := if n =? 0 then Err Oob else Ok (a mod n).

(** [keys[i]]: reading an uninitialised key is undefined. *)
Definition key_at (hs : ggml_hash_set) (i : Z) : res ptr :=
  k ← at_ hs.(hs_keys) (Z.to_nat i);
  match k with Some p => Ok p | None => Err Oob end.

Definition ggml_hash (p : ptr) : Z := Z.shiftr p 4.

Fixpoint ggml_hash_find_loop (fuel : nat) (hs : ggml_hash_set) (key : ptr) (h i : Z) : res Z :=
  match fuel with
  | O => Err NoFuel
  | S fuel =>
      used ← ggml_bitset_get hs.(hs_used) i;
      if used : bool then
        k ← key_at hs i;
        if k =? key then Ok i
        else
          i ← rem_size (u64 (i + 1)) hs.(hs_size);
          if i =? h then Ok GGML_HASHSET_FULL else ggml_hash_find_loop fuel hs key h i
      else Ok i
  end.

Definition ggml_hash_find (hs : ggml_hash_set) (key : ptr) : res Z :=
  h ← rem_size (ggml_hash key) hs.(hs_size);
  ggml_hash_find_loop (Z.to_nat hs.(hs_size)) hs key h h.

Definition ggml_hash_contains (hs : ggml_hash_set) (key : ptr) : res bool :=
  i ← ggml_hash_find hs key;
  if i =? GGML_HASHSET_FULL then Ok false else ggml_bitset_get hs.(hs_used) i.

(** [bitset_set(used, i); keys[i] = key]. *)
Definition occupy (hs : ggml_hash_set) (i : Z) (key : ptr) : res ggml_hash_set :=
  used ← ggml_bitset_set hs.(hs_used) i;
  keys ← put hs.(hs_keys) (Z.to_nat i) (Some key);
  Ok (mk_hash_set hs.(hs_size) used keys).

Fixpoint ggml_hash_insert_loop (fuel : nat) (hs : ggml_hash_set) (key : ptr) (h i : Z)
    : res (Z * ggml_hash_set) :=
  match fuel with
  | O => Err NoFuel
  | S fuel =>
      used ← ggml_bitset_get hs.(hs_used) i;
      if negb used then hs ← occupy hs i key; Ok (i, hs)
      else
        k ← key_at hs i;
        if k =? key then Ok (GGML_HASHSET_ALREADY_EXISTS, hs)
        else
          i ← rem_size (u64 (i + 1)) hs.(hs_size);
          if i =? h then Err Abort else ggml_hash_insert_loop fuel hs key h i
  end.

Definition ggml_hash_insert (hs : ggml_hash_set) (key : ptr) : res (Z * ggml_hash_set) :=
  h ← rem_size (ggml_hash key) hs.(hs_size);
  ggml_hash_insert_loop (Z.to_nat hs.(hs_size)) hs key h h.

Fixpoint ggml_hash_find_or_insert_loop (fuel : nat) (hs : ggml_hash_set) (key : ptr) (h i : Z)
    : res (Z * ggml_hash_set) :=
  match fuel with
  | O => Err NoFuel
  | S fuel =>
      used ← ggml_bitset_get hs.(hs_used) i;
      if negb used then hs ← occupy hs i key; Ok (i, hs)
      else
        k ← key_at hs i;
        if k =? key then Ok (i, hs)
        else
          i ← rem_size (u64 (i + 1)) hs.(hs_size);
          if i =? h then Err Abort else ggml_hash_find_or_insert_loop fuel hs key h i
  end.

Definition ggml_hash_find_or_insert (hs : ggml_hash_set) (key : ptr) : res (Z * ggml_hash_set) :=
  h ← rem_size (ggml_hash key) hs.(hs_size);
  ggml_hash_find_or_insert_loop (Z.to_nat hs.(hs_size)) hs key h h.

(** ** The size of a table *)

Definition primes : list Z :=
  [2; 3; 5; 11; 17; 37; 67; 131; 257; 521; 1031;
   2053; 4099; 8209; 16411; 32771; 65537; 131101;
   262147; 524309; 1048583; 2097169; 4194319; 8388617;
   16777259; 33554467; 67108879; 134217757; 268435459;
   536870923; 1073741827; 2147483659].

Fixpoint hash_size_search (fuel : nat) (min_sz : Z) (l r : nat) : res nat :=
  match fuel with
  | O => Err NoFuel
  | S fuel =>
      if (l <? r)%nat then
        let m := ((l + r) / 2)%nat in
        p ← at_ primes m;
        if p <? min_sz then hash_size_search fuel min_sz (S m) r
        else hash_size_search fuel min_sz l m
      else Ok l
  end.

Definition ggml_hash_size (min_sz : Z) : res Z :=
  let n_primes := length primes in
  l ← hash_size_search (S n_primes) min_sz 0 n_primes;
  if (l <? n_primes)%nat then at_ primes l else Ok (Z.lor min_sz 1).

Definition ggml_hash_set_new (size : Z) : res ggml_hash_set :=
  size ← ggml_hash_size size;
  Ok (mk_hash_set size
        (replicate (Z.to_nat (ggml_bitset_size size)) 0)
        (replicate (Z.to_nat size) None)).

Definition ggml_hash_set_reset (hs : ggml_hash_set) : ggml_hash_set :=
  mk_hash_set hs.(hs_size)
    (replicate (Z.to_nat (ggml_bitset_size hs.(hs_size))) 0)
    hs.(hs_keys).

(** ** The bitset as a set of bits *)

Definition used_bit (used : list Z) (i : nat) : bool :=
  match used !! (i / 32)%nat with Some w => Z.testbit w (Z.of_nat (i mod 32)) | None => false end.

Lemma land_pow2_testbit (w : Z) (k : Z) :
  0 ≤ k → negb (Z.land w (Z.shiftl 1 k) =? 0) = Z.testbit w k.
Proof.
  intros Hk. rewrite Z.shiftl_1_l. destruct (Z.testbit w k) eqn:E.
  - apply negb_true_iff, Z.eqb_neq. intros H0.
    assert (Z.testbit (Z.land w (2 ^ k)) k = false) as H by by rewrite H0, Z.bits_0.
    by rewrite Z.land_spec, E, Z.pow2_bits_true in H.
  - apply negb_false_iff, Z.eqb_eq. apply Z.bits_inj'. intros j Hj.
    rewrite Z.land_spec, Z.bits_0, Z.pow2_bits_eqb by done.
    destruct (Z.eqb_spec k j) as [->|]; [by rewrite E|apply andb_false_r].
Qed.

Lemma bitset_word (i : nat) : Z.to_nat (Z.shiftr (Z.of_nat i) BITSET_SHR) = (i / 32)%nat.
Proof. rewrite Z.shiftr_div_pow2 by done. change (2 ^ BITSET_SHR) with (Z.of_nat 32). rewrite <- Nat2Z.inj_div. lia. Qed.

Lemma bitset_bit (i : nat) : Z.land (Z.of_nat i) BITSET_MASK = Z.of_nat (i mod 32).
Proof. rewrite (land_ones_mod _ 5) by done. change (2 ^ 5) with (Z.of_nat 32). by rewrite <- Nat2Z.inj_mod. Qed.

Lemma bitset_get_spec (used : list Z) (i : nat) :
  (i / 32 < length used)%nat → ggml_bitset_get used (Z.of_nat i) = Ok (used_bit used i).
Proof.
  intros Hi. unfold ggml_bitset_get, used_bit. rewrite bitset_word, bitset_bit.
  destruct (at_lt used _ Hi) as (w & -> & ->). cbn. by rewrite land_pow2_testbit by lia.
Qed.

Lemma bitset_set_spec (used : list Z) (i : nat) :
  (i / 32 < length used)%nat →
  ∃ used', ggml_bitset_set used (Z.of_nat i) = Ok used' ∧ length used' = length used ∧
    ∀ j, used_bit used' j = (bool_decide (i = j) || used_bit used j).
Proof.
  intros Hi. unfold ggml_bitset_set. rewrite bitset_word, bitset_bit.
  destruct (at_lt used _ Hi) as (w & -> & Hw). cbn [mbind res_bind]. rewrite put_lt by done.
  eexists. split_and!; [done|by rewrite length_insert|]. intros j. unfold used_bit.
  rewrite list_lookup_insert. destruct (decide ((i / 32)%nat = (j / 32)%nat)) as [E|E].
  - rewrite decide_True by lia. rewrite <- E, Hw.
    rewrite Z.lor_spec, Z.shiftl_1_l, Z.pow2_bits_eqb by lia. rewrite orb_comm. f_equal.
    pose proof (Nat.div_mod_eq i 32). pose proof (Nat.div_mod_eq j 32).
    case_bool_decide; [subst; by apply Z.eqb_eq|apply Z.eqb_neq; lia].
  - rewrite decide_False by naive_solver. rewrite bool_decide_false by naive_solver. done.
Qed.

Lemma used_bit_zero (n i : nat) : used_bit (replicate n 0) i = false.
Proof.
  unfold used_bit. destruct (replicate n 0 !! (i / 32)%nat) eqn:E; [|done].
  apply lookup_replicate in E as [-> _]. apply Z.bits_0.
Qed.

(** ** The table as a partial map from slots to keys *)

Definition slot (hs : ggml_hash_set) (i : nat) : option ptr :=
  if used_bit hs.(hs_used) i then mjoin (hs.(hs_keys) !! i) else None.

(** The [d]-th slot that the probe for [k] visits in a table of [n] slots. *)
Definition probe (n : nat) (k : ptr) (d : nat) : nat :=
  ((Z.to_nat (ggml_hash k mod Z.of_nat n) + d) mod n)%nat.

(** Slot [i] is held by a key other than [k]. *)
Definition taken (hs : ggml_hash_set) (k : ptr) (i : nat) : Prop :=
  ∃ k', slot hs i = Some k' ∧ k' ≠ k.

Definition ptr_ok (k : ptr) : Prop := 0 ≤ k < 2 ^ 64.

Record hash_wf (hs : ggml_hash_set) (n : nat) : Prop := {
  hw_size  : hs.(hs_size) = Z.of_nat n;
  hw_bound : (0 < n)%nat ∧ Z.of_nat n < 2 ^ 60;
  hw_keys  : length hs.(hs_keys) = n;
  hw_used  : (n ≤ 32 * length hs.(hs_used))%nat;
  hw_init  : ∀ i, (i < n)%nat → used_bit hs.(hs_used) i = true → is_Some (slot hs i);
  hw_probe : ∀ i k, slot hs i = Some k →
    ∃ d, (d < n)%nat ∧ i = probe n k d ∧ ∀ d', (d' < d)%nat → taken hs k (probe n k d');
}.

(** Where the probe for [k] ends: at a free slot or at the slot of [k]. *)
Definition ends_at (hs : ggml_hash_set) (n : nat) (k : ptr) (i : nat) : Prop :=
  ∃ d, (d < n)%nat ∧ i = probe n k d ∧ ¬ taken hs k i ∧
    ∀ d', (d' < d)%nat → taken hs k (probe n k d').

Section probe_facts.
Context (n : nat).
Hypothesis Hn : (0 < n)%nat.

Lemma probe_lt k d : (probe n k d < n)%nat.
Proof using Hn. apply Nat.mod_upper_bound. lia. Qed.

Lemma probe_inj k d d' : (d < n)%nat → (d' < n)%nat → probe n k d = probe n k d' → d = d'.
Proof using Hn.
  unfold probe. intros. set (h := Z.to_nat _) in *. clearbody h.
  pose proof (Nat.div_mod_eq (h + d) n). pose proof (Nat.div_mod_eq (h + d') n).
  assert ((h + d) / n = (h + d') / n)%nat; [|lia].
  destruct (Nat.lt_trichotomy ((h + d) / n) ((h + d') / n)) as [|[|]]; [nia|done|nia].
Qed.

Lemma probe_surj k i : (i < n)%nat → ∃ d, (d < n)%nat ∧ probe n k d = i.
Proof using Hn.
  intros Hi. unfold probe. set (z := ggml_hash k).
  pose proof (Z.mod_pos_bound z (Z.of_nat n) ltac:(lia)).
  set (h := Z.to_nat (z mod Z.of_nat n)). assert (h < n)%nat by lia. clearbody h.
  destruct (decide (h ≤ i)%nat).
  - exists (i - h)%nat. split; [lia|]. rewrite Nat.mod_small by lia. lia.
  - exists (i + n - h)%nat. split; [lia|].
    replace (h + (i + n - h))%nat with (i + 1 * n)%nat by lia.
    rewrite Nat.Div0.mod_add. by apply Nat.mod_small.
Qed.

(** The step of the probe, as the code computes it. *)
Lemma probe_next k d : Z.of_nat n < 2 ^ 60 →
  rem_size (u64 (Z.of_nat (probe n k d) + 1)) (Z.of_nat n) = Ok (Z.of_nat (probe n k (S d))).
Proof using Hn.
  intros Hb. pose proof (probe_lt k d). unfold rem_size.
  destruct (Z.eqb_spec (Z.of_nat n) 0); [lia|]. rewrite u64_small by lia. f_equal.
  replace (Z.of_nat (probe n k d) + 1) with (Z.of_nat (S (probe n k d))) by lia.
  rewrite <- Nat2Z.inj_mod. f_equal. unfold probe.
  rewrite <- Nat.add_1_r, Nat.Div0.add_mod_idemp_l. f_equal. lia.
Qed.

Lemma probe_first k : 0 ≤ ggml_hash k →
  rem_size (ggml_hash k) (Z.of_nat n) = Ok (Z.of_nat (probe n k 0)).
Proof using Hn.
  intros. unfold rem_size, probe. destruct (Z.eqb_spec (Z.of_nat n) 0); [lia|]. f_equal.
  pose proof (Z.mod_pos_bound (ggml_hash k) (Z.of_nat n) ltac:(lia)).
  rewrite Nat.mod_small by lia. lia.
Qed.

(** The probe is back at its first slot exactly after [n] steps. *)
Lemma probe_back k d : (d < n)%nat → probe n k (S d) = probe n k 0 ↔ S d = n.
Proof using Hn.
  intros Hd. split.
  - intros E. destruct (decide (S d = n)); [done|].
    apply probe_inj in E; lia.
  - intros ->. unfold probe. rewrite Nat.add_0_r.
    replace (_ + n)%nat with (Z.to_nat (ggml_hash k mod Z.of_nat n) + 1 * n)%nat by lia.
    by rewrite Nat.Div0.mod_add.
Qed.
End probe_facts.

Lemma ggml_hash_nonneg k : 0 ≤ k → 0 ≤ ggml_hash k.
Proof. intros. by apply Z.shiftr_nonneg. Qed.

(** The probe ends somewhere unless all slots are taken by other keys. *)
Lemma ends_dec (hs : ggml_hash_set) (n : nat) (k : ptr) :
  (∃ i, ends_at hs n k i) ∨ ∀ d, (d < n)%nat → taken hs k (probe n k d).
Proof.
  assert (∀ m, (m ≤ n)%nat → (∃ i, ends_at hs n k i) ∨ ∀ d, (d < m)%nat → taken hs k (probe n k d)) as H.
  { induction m as [|m IH]; intros Hm; [right; lia|].
    destruct IH as [?|IH]; [lia|by left|].
    assert (taken hs k (probe n k m) ∨ ¬ taken hs k (probe n k m)) as [Ht|Ht].
    { unfold taken. destruct (slot hs (probe n k m)) as [k'|] eqn:E; [|right; naive_solver].
      destruct (decide (k' = k)); [right|left]; naive_solver. }
    - right. intros d Hd. destruct (decide (d = m)) as [->|]; [done|apply IH; lia].
    - left. exists (probe n k m), m. split_and!; [lia|done|done|]. intros. apply IH. lia. }
  by apply H.
Qed.

Section table.
Context (hs : ggml_hash_set) (n : nat) (Hwf : hash_wf hs n).

Let Hn : (0 < n)%nat := proj1 (hw_bound hs n Hwf).

Lemma read_slot (i : nat) : (i < n)%nat →
  match slot hs i with
  | None => ggml_bitset_get hs.(hs_used) (Z.of_nat i) = Ok false
  | Some k => ggml_bitset_get hs.(hs_used) (Z.of_nat i) = Ok true ∧ key_at hs (Z.of_nat i) = Ok k
  end.
Proof using Hwf.
  intros Hi. pose proof (hw_used _ _ Hwf).
  rewrite bitset_get_spec by (apply Nat.Div0.div_lt_upper_bound; lia).
  pose proof (hw_init _ _ Hwf i Hi) as Hs. unfold slot in *.
  destruct (used_bit _ i) eqn:E; [|done]. destruct Hs as [k Hk]; [done|]. rewrite Hk.
  split; [done|]. unfold key_at, at_. rewrite Nat2Z.id.
  destruct (hs_keys hs !! i) as [[]|]; cbn in *; congruence.
Qed.

Lemma taken_read k i : (i < n)%nat → taken hs k i →
  ggml_bitset_get hs.(hs_used) (Z.of_nat i) = Ok true ∧
  ∃ k', key_at hs (Z.of_nat i) = Ok k' ∧ (k' =? k) = false.
Proof using Hwf.
  intros Hi (k' & Hk' & Hne). pose proof (read_slot i Hi) as H. rewrite Hk' in H.
  destruct H as [H1 H2]. split; [done|]. exists k'. split; [done|]. by apply Z.eqb_neq.
Qed.

Lemma ends_read k i : ends_at hs n k i →
  (i < n)%nat ∧
  ((slot hs i = None ∧ ggml_bitset_get hs.(hs_used) (Z.of_nat i) = Ok false) ∨
   (slot hs i = Some k ∧ ggml_bitset_get hs.(hs_used) (Z.of_nat i) = Ok true ∧
    key_at hs (Z.of_nat i) = Ok k)).
Proof using Hwf.
  intros (d & Hd & -> & Ht & _). pose proof (probe_lt n Hn k d) as Hi. split; [done|].
  pose proof (read_slot _ Hi) as H. unfold taken in Ht.
  destruct (slot hs (probe n k d)) as [k'|]; [right|by left].
  destruct (decide (k' = k)) as [->|]; [done|]. naive_solver.
Qed.

Lemma ends_unique k i j : ends_at hs n k i → ends_at hs n k j → i = j.
Proof.
  intros (d & ? & -> & Hi & Hd) (d' & ? & -> & Hj & Hd').
  destruct (Nat.lt_trichotomy d d') as [|[->|]]; [|done|]; naive_solver.
Qed.

(** The loop invariant of the three probes: everything before [d] is taken. *)
Definition probing (k : ptr) (fuel d : nat) : Prop :=
  (d < n)%nat ∧ (n - d ≤ fuel)%nat ∧ ∀ d', (d' < d)%nat → taken hs k (probe n k d').

(** One round: the probe ends here, or goes on, or has seen every slot. *)
Lemma probing_step k fuel d : probing k (S fuel) d →
  ends_at hs n k (probe n k d) ∨
  (taken hs k (probe n k d) ∧
   ((probe n k (S d) ≠ probe n k 0 ∧ probing k fuel (S d)) ∨
    (probe n k (S d) = probe n k 0 ∧ ∀ d', (d' < n)%nat → taken hs k (probe n k d')))).
Proof using Hwf.
  intros (Hd & Hf & Ht).
  assert (taken hs k (probe n k d) ∨ ¬ taken hs k (probe n k d)) as [Htd|Htd].
  { unfold taken. destruct (slot hs (probe n k d)) as [k'|]; [|right; naive_solver].
    destruct (decide (k' = k)); [right|left]; naive_solver. }
  - assert (∀ d', (d' < S d)%nat → taken hs k (probe n k d')) as HtS.
    { intros d' ?. destruct (decide (d' = d)) as [->|]; [done|apply Ht; lia]. }
    right. split; [done|]. destruct (decide (S d = n)) as [E|E].
    + right. split; [by apply probe_back|]. intros d' ?. apply HtS. lia.
    + left. split; [by rewrite probe_back|]. unfold probing. split_and!; [lia|lia|done].
  - left. exists d. done.
Qed.

Lemma ends_taken k i : ends_at hs n k i → ¬ ∀ d, (d < n)%nat → taken hs k (probe n k d).
Proof. intros (d & Hd & -> & Ht & _) H. by apply Ht, H. Qed.

Lemma probing_init k : probing k (Z.to_nat (hs_size hs)) 0.
Proof using Hwf. unfold probing. rewrite (hw_size _ _ Hwf), Nat2Z.id. split_and!; [done|lia|lia]. Qed.

Lemma probe_start k : 0 ≤ k → rem_size (ggml_hash k) (hs_size hs) = Ok (Z.of_nat (probe n k 0)).
Proof using Hwf.
  intros. rewrite (hw_size _ _ Hwf). apply probe_first; [apply Hn|by apply ggml_hash_nonneg].
Qed.

Lemma probe_move k d :
  rem_size (u64 (Z.of_nat (probe n k d) + 1)) (hs_size hs) = Ok (Z.of_nat (probe n k (S d))).
Proof using Hwf. rewrite (hw_size _ _ Hwf). apply probe_next; [apply Hn|apply (hw_bound _ _ Hwf)]. Qed.

(** Run one round of a probe loop on [H : probing k (S fuel) d]. *)
Ltac probe_round H :=
  let He := fresh "He" in let Hi := fresh "Hi" in let Ht := fresh "Ht" in
  let Hg := fresh "Hg" in let Hk := fresh "Hk" in let Hne := fresh "Hne" in
  destruct (probing_step _ _ _ H) as [He|[Ht [[Hne Hnext]|[Hne Hall]]]];
  [ destruct (ends_read _ _ He) as (Hi & [[Hs Hg]|(Hs & Hg & Hk)]);
    rewrite Hg; cbn [mbind res_bind negb]; [|rewrite Hk; cbn [mbind res_bind]; rewrite Z.eqb_refl]
  | | ];
  [ | |
    destruct (taken_read _ _ (probe_lt n Hn _ _) Ht) as (Hg & ? & Hk & Hkne);
    rewrite Hg; cbn [mbind res_bind negb]; rewrite Hk; cbn [mbind res_bind]; rewrite Hkne, probe_move;
    cbn [mbind res_bind]; rewrite (proj2 (Z.eqb_neq _ _)) by lia
  | destruct (taken_read _ _ (probe_lt n Hn _ _) Ht) as (Hg & ? & Hk & Hkne);
    rewrite Hg; cbn [mbind res_bind negb]; rewrite Hk; cbn [mbind res_bind]; rewrite Hkne, probe_move;
    cbn [mbind res_bind]; rewrite (proj2 (Z.eqb_eq _ _)) by lia ].

Lemma find_loop_spec k fuel d : probing k fuel d →
  ∃ r, ggml_hash_find_loop fuel hs k (Z.of_nat (probe n k 0)) (Z.of_nat (probe n k d)) = Ok r ∧
  ((∃ i, r = Z.of_nat i ∧ ends_at hs n k i) ∨
   (r = GGML_HASHSET_FULL ∧ ∀ d, (d < n)%nat → taken hs k (probe n k d))).
Proof using Hwf.
  revert d. induction fuel as [|fuel IH]; intros d H; [destruct H; lia|].
  cbn [ggml_hash_find_loop]. probe_round H; eauto 8.
Qed.

Lemma find_or_insert_loop_spec k fuel d : probing k fuel d →
  (∃ i, ends_at hs n k i ∧
     ggml_hash_find_or_insert_loop fuel hs k (Z.of_nat (probe n k 0)) (Z.of_nat (probe n k d)) =
     match slot hs i with
     | Some _ => Ok (Z.of_nat i, hs)
     | None => hs' ← occupy hs (Z.of_nat i) k; Ok (Z.of_nat i, hs')
     end) ∨
  ((∀ d, (d < n)%nat → taken hs k (probe n k d)) ∧
   ggml_hash_find_or_insert_loop fuel hs k (Z.of_nat (probe n k 0)) (Z.of_nat (probe n k d)) = Err Abort).
Proof using Hwf.
  revert d. induction fuel as [|fuel IH]; intros d H; [destruct H; lia|].
  cbn [ggml_hash_find_or_insert_loop]. probe_round H; auto.
  all: left; exists (probe n k d); by rewrite Hs.
Qed.

Lemma insert_loop_spec k fuel d : probing k fuel d →
  (∃ i, ends_at hs n k i ∧
     ggml_hash_insert_loop fuel hs k (Z.of_nat (probe n k 0)) (Z.of_nat (probe n k d)) =
     match slot hs i with
     | Some _ => Ok (GGML_HASHSET_ALREADY_EXISTS, hs)
     | None => hs' ← occupy hs (Z.of_nat i) k; Ok (Z.of_nat i, hs')
     end) ∨
  ((∀ d, (d < n)%nat → taken hs k (probe n k d)) ∧
   ggml_hash_insert_loop fuel hs k (Z.of_nat (probe n k 0)) (Z.of_nat (probe n k d)) = Err Abort).
Proof using Hwf.
  revert d. induction fuel as [|fuel IH]; intros d H; [destruct H; lia|].
  cbn [ggml_hash_insert_loop]. probe_round H; auto.
  all: left; exists (probe n k d); by rewrite Hs.
Qed.

(** Occupying the slot where the probe for [k] ended. *)
Lemma occupy_spec k i : ends_at hs n k i → slot hs i = None →
  ∃ hs', occupy hs (Z.of_nat i) k = Ok hs' ∧ hash_wf hs' n ∧
    ∀ j, slot hs' j = if decide (j = i) then Some k else slot hs j.
Proof using Hwf.
  intros He Hs. pose proof (ends_read _ _ He) as [Hi _]. destruct Hwf as [Hsz Hb Hks Hus Hini Hpr].
  destruct (bitset_set_spec hs.(hs_used) i) as (used' & Hset & Hlen & Hbits).
  { apply Nat.Div0.div_lt_upper_bound. lia. }
  unfold occupy. rewrite Hset. cbn [mbind res_bind]. rewrite Nat2Z.id, put_lt by lia. cbn [mbind res_bind].
  eexists. split; [done|].
  assert (∀ j, slot (mk_hash_set (hs_size hs) used' (<[i:=Some k]> (hs_keys hs))) j =
    if decide (j = i) then Some k else slot hs j) as Hslot.
  { intros j. unfold slot. cbn [hs_used hs_keys]. rewrite Hbits. case_decide as Hj.
    - subst. rewrite bool_decide_true by done. cbn [orb]. by rewrite list_lookup_insert_eq by lia.
    - rewrite bool_decide_false by done. cbn [orb]. by rewrite list_lookup_insert_ne by done. }
  assert (∀ k' j, taken hs k' j → taken (mk_hash_set (hs_size hs) used' (<[i:=Some k]> (hs_keys hs))) k' j) as Htk.
  { intros k' j (k'' & Hj & ?). exists k''. rewrite Hslot. case_decide; [congruence|done]. }
  split; [|done]. split; cbn [hs_size hs_keys hs_used].
  - done.
  - done.
  - by rewrite length_insert.
  - lia.
  - intros j Hj Hu. rewrite Hslot. case_decide; [done|]. apply Hini; [done|].
    rewrite Hbits, bool_decide_false in Hu by done. done.
  - intros j k' Hj. rewrite Hslot in Hj. case_decide as E.
    + simplify_eq. destruct He as (d & ? & -> & _ & Hd). exists d. naive_solver.
    + destruct (Hpr j k' Hj) as (d & ? & -> & Hd). exists d. naive_solver.
Qed.

(** A stored key is where its probe ends. *)
Lemma stored_ends k i : slot hs i = Some k → ends_at hs n k i.
Proof using Hwf.
  intros Hi. destruct (hw_probe _ _ Hwf i k Hi) as (d & ? & -> & Hd). exists d.
  split_and!; [done|done| |done]. intros (k' & ? & ?). congruence.
Qed.

Lemma stored_unique k i j : slot hs i = Some k → slot hs j = Some k → i = j.
Proof using Hwf. intros Hi Hj. by apply (ends_unique k); apply stored_ends. Qed.

Lemma slot_lt k i : slot hs i = Some k → (i < n)%nat.
Proof using Hwf. intros Hi. by destruct (ends_read _ _ (stored_ends _ _ Hi)). Qed.
End table.

(** ** What the operations promise to their clients *)

Lemma find_or_insert_spec hs n k : hash_wf hs n → 0 ≤ k →
  (∃ i hs', ggml_hash_find_or_insert hs k = Ok (Z.of_nat i, hs') ∧ hash_wf hs' n ∧
     (slot hs i = None ∨ slot hs i = Some k) ∧ (i < n)%nat ∧
     ∀ j, slot hs' j = if decide (j = i) then Some k else slot hs j) ∨
  (ggml_hash_find_or_insert hs k = Err Abort ∧ ∀ i, (i < n)%nat → taken hs k i).
Proof.
  intros Hwf Hk. unfold ggml_hash_find_or_insert. rewrite (probe_start hs n) by done.
  cbn [mbind res_bind].
  destruct (find_or_insert_loop_spec hs n Hwf k _ 0 (probing_init hs n Hwf k)) as [(i & He & Hl)|[Hall Hl]].
  - left. destruct (ends_read _ _ Hwf _ _ He) as [Hi _]. destruct (slot hs i) as [k'|] eqn:Hs.
    + exists i, hs. destruct He as (_ & _ & _ & Ht & _). unfold taken in Ht.
      destruct (decide (k' = k)) as [->|]; [|naive_solver].
      split_and!; [done|done|auto|done|]. intros j. case_decide; congruence.
    + destruct (occupy_spec _ _ Hwf _ _ He Hs) as (hs' & Ho & ? & ?).
      rewrite Ho in Hl. exists i, hs'. split_and!; [done|done|auto|done|done].
  - right. split; [done|]. intros i Hi.
    destruct (probe_surj n ltac:(lia) k i Hi) as (d & ? & <-). by apply Hall.
Qed.

Lemma insert_spec hs n k : hash_wf hs n → 0 ≤ k →
  ggml_hash_insert hs k =
    '(i, hs') ← ggml_hash_find_or_insert hs k;
    if bool_decide (slot hs (Z.to_nat i) = Some k) then Ok (GGML_HASHSET_ALREADY_EXISTS, hs)
    else Ok (i, hs').
Proof.
  intros Hwf Hk. unfold ggml_hash_insert, ggml_hash_find_or_insert. rewrite (probe_start hs n) by done.
  cbn [mbind res_bind].
  destruct (find_or_insert_loop_spec hs n Hwf k _ 0 (probing_init hs n Hwf k)) as [(i & He & Hl)|[Hall Hl]];
  destruct (insert_loop_spec hs n Hwf k _ 0 (probing_init hs n Hwf k)) as [(i' & He' & Hl')|[Hall' Hl']];
  rewrite Hl, Hl'; try done; try by edestruct ends_taken; eauto.
  pose proof (ends_unique _ _ _ _ _ He He') as <-.
  destruct (ends_read _ _ Hwf _ _ He) as (Hi & [[Hs _]|[Hs _]]); rewrite Hs.
  - destruct (occupy_spec _ _ Hwf _ _ He Hs) as (hs' & -> & _). cbn [mbind res_bind].
    by rewrite Nat2Z.id, Hs.
  - cbn [mbind res_bind]. by rewrite Nat2Z.id, Hs, bool_decide_true.
Qed.

Lemma find_spec hs n k : hash_wf hs n → 0 ≤ k →
  (∃ i, ggml_hash_find hs k = Ok (Z.of_nat i) ∧ (i < n)%nat ∧ (slot hs i = Some k ∨
      (slot hs i = None ∧ ∀ j, slot hs j ≠ Some k))) ∨
  (ggml_hash_find hs k = Ok GGML_HASHSET_FULL ∧ ∀ i, (i < n)%nat → taken hs k i).
Proof.
  intros Hwf Hk. unfold ggml_hash_find. rewrite (probe_start hs n) by done. cbn [mbind res_bind].
  destruct (find_loop_spec hs n Hwf k _ 0 (probing_init hs n Hwf k)) as (r & -> & [(i & -> & He)|[-> Hall]]).
  - left. exists i. destruct (ends_read _ _ Hwf _ _ He) as (Hi & [[Hs _]|[Hs _]]); split_and!; auto.
    right. split; [done|]. intros j Hj. pose proof (ends_unique _ _ _ _ _ He (stored_ends _ _ Hwf _ _ Hj)).
    congruence.
  - right. split; [done|]. intros i Hi.
    destruct (probe_surj n ltac:(lia) k i Hi) as (d & ? & <-). by apply Hall.
Qed.

Lemma contains_spec hs n k : hash_wf hs n → 0 ≤ k →
  ∃ b, ggml_hash_contains hs k = Ok b ∧ (b = true ↔ ∃ i, slot hs i = Some k).
Proof.
  intros Hwf Hk. destruct (hw_bound _ _ Hwf) as [_ Hb]. unfold ggml_hash_contains.
  destruct (find_spec hs n k Hwf Hk) as [(i & -> & Hi & Hs)|[-> Hall]]; cbn [mbind res_bind].
  - rewrite (proj2 (Z.eqb_neq _ _)) by (unfold GGML_HASHSET_FULL, SIZE_MAX; lia).
    pose proof (read_slot _ _ Hwf i Hi) as Hr.
    destruct Hs as [Hs|[Hs Hno]]; rewrite Hs in Hr; [destruct Hr as [Hr _]|].
    + exists true. split; [done|]. naive_solver.
    + exists false. split; [done|]. naive_solver.
  - exists false. split; [done|]. split; [done|]. intros (i & Hi).
    destruct (Hall i (slot_lt _ _ Hwf _ _ Hi)) as (? & ? & ?). congruence.
Qed.

Lemma words_enough (n : nat) : Z.of_nat n < 2 ^ 60 →
  (n ≤ 32 * Z.to_nat (ggml_bitset_size (Z.of_nat n)))%nat.
Proof.
  intros Hb. unfold ggml_bitset_size, BITSET_MASK, BITSET_SHR.
  rewrite u64_small by lia. rewrite Z.shiftr_div_pow2 by done. change (2 ^ 5) with 32. zify_div.
Qed.

Lemma reset_spec hs n : hash_wf hs n →
  hash_wf (ggml_hash_set_reset hs) n ∧ ∀ i, slot (ggml_hash_set_reset hs) i = None.
Proof.
  intros Hwf. assert (∀ i, slot (ggml_hash_set_reset hs) i = None) as Hno.
  { intros i. unfold slot. cbn. by rewrite used_bit_zero. }
  split; [|done]. destruct Hwf as [Hsz Hb Hk Hu Hi Hp]. split; cbn; [done|done|done| | |].
  - rewrite length_replicate, Hsz. apply words_enough. lia.
  - intros i _ Hu'. by rewrite used_bit_zero in Hu'.
  - intros i k Hs. by rewrite Hno in Hs.
Qed.

(** ** The table as a finite set *)

Definition elems (hs : ggml_hash_set) (n : nat) : gset ptr :=
  list_to_set (omap (slot hs) (seq 0 n)).

Lemma elem_of_elems hs n k : hash_wf hs n → k ∈ elems hs n ↔ ∃ i, slot hs i = Some k.
Proof.
  intros Hwf. unfold elems. rewrite elem_of_list_to_set, list_elem_of_omap. split.
  - naive_solver.
  - intros (i & Hi). exists i. split; [|done]. apply elem_of_seq. pose proof (slot_lt _ _ Hwf _ _ Hi). lia.
Qed.

Lemma slots_NoDup hs n l : hash_wf hs n → NoDup l → NoDup (omap (slot hs) l).
Proof.
  intros Hwf. induction 1 as [|i l Hi Hl IH]; cbn; [constructor|].
  destruct (slot hs i) as [k|] eqn:Hs; [|done]. constructor; [|done].
  intros (j & Hj & Hjs)%list_elem_of_omap. by pose proof (stored_unique _ _ Hwf _ _ _ Hs Hjs) as <-.
Qed.

Lemma omap_slots_length hs (l : list nat) :
  (length (omap (slot hs) l) ≤ length l)%nat ∧
  (length (omap (slot hs) l) = length l ↔ Forall (λ i, is_Some (slot hs i)) l).
Proof.
  induction l as [|i l [IH1 IH2]]; [by split|]. cbn. destruct (slot hs i) eqn:E; cbn; rewrite Forall_cons.
  - split; [lia|]. rewrite <- IH2, E. split; [intros; split; [eauto|lia]|lia].
  - split; [lia|]. rewrite E. split; [lia|]. by intros [[? ?] ?].
Qed.

Lemma size_elems hs n : hash_wf hs n →
  (size (elems hs n) ≤ n)%nat ∧ (size (elems hs n) = n ↔ ∀ i, (i < n)%nat → is_Some (slot hs i)).
Proof.
  intros Hwf. unfold elems. rewrite size_list_to_set by (apply (slots_NoDup _ _ _ Hwf), NoDup_seq).
  pose proof (omap_slots_length hs (seq 0 n)) as [H1 H2]. rewrite length_seq in *. split; [done|].
  rewrite H2, Forall_seq. split; [|intros H i ?; apply H; lia]. intros H i Hi. apply H. lia.
Qed.

Inductive hash_op : Type :=
  | HInsert (k : ptr)
  | HFindOrInsert (k : ptr)
  | HContains (k : ptr)
  | HReset.

Definition op_key_ok (op : hash_op) : Prop :=
  match op with HInsert k | HFindOrInsert k | HContains k => ptr_ok k | HReset => True end.

(** A client sees whether an insertion was new, whether the slot returned by
    [ggml_hash_find_or_insert] holds its key, and the answer of a query. *)
Definition hash_exec (hs : ggml_hash_set) (op : hash_op) : res (bool * ggml_hash_set) :=
  match op with
  | HInsert k =>
      '(i, hs) ← ggml_hash_insert hs k; Ok (negb (i =? GGML_HASHSET_ALREADY_EXISTS), hs)
  | HFindOrInsert k =>
      '(i, hs) ← ggml_hash_find_or_insert hs k; Ok (bool_decide (key_at hs i = Ok k), hs)
  | HContains k => b ← ggml_hash_contains hs k; Ok (b, hs)
  | HReset => Ok (true, ggml_hash_set_reset hs)
  end.

(** The set that the table implements: [n] is its capacity. *)
Definition set_exec (n : nat) (s : gset ptr) (op : hash_op) : res (bool * gset ptr) :=
  match op with
  | HInsert k =>
      if bool_decide (k ∈ s) then Ok (false, s)
      else if (size s <? n)%nat then Ok (true, {[k]} ∪ s) else Err Abort
  | HFindOrInsert k =>
      if bool_decide (k ∈ s) then Ok (true, s)
      else if (size s <? n)%nat then Ok (true, {[k]} ∪ s) else Err Abort
  | HContains k => Ok (bool_decide (k ∈ s), s)
  | HReset => Ok (true, ∅)
  end.

Fixpoint run {S} (step : S → hash_op → res (bool * S)) (s : S) (ops : list hash_op) : res (list bool * S) :=
  match ops with
  | [] => Ok ([], s)
  | op :: ops => '(o, s) ← step s op; '(os, s) ← run step s ops; Ok (o :: os, s)
  end.

Lemma elems_insert hs hs' n k i : hash_wf hs n → hash_wf hs' n →
  slot hs i = None ∨ slot hs i = Some k →
  (∀ j, slot hs' j = if decide (j = i) then Some k else slot hs j) →
  elems hs' n = {[k]} ∪ elems hs n.
Proof.
  intros Hwf Hwf' Hi Hs. apply set_eq. intros x.
  rewrite elem_of_union, elem_of_singleton, !elem_of_elems by done. split.
  - intros (j & Hj). rewrite Hs in Hj. case_decide; [left; congruence|eauto].
  - intros [->|(j & Hj)].
    + exists i. by rewrite Hs, decide_True.
    + destruct (decide (j = i)) as [->|]; [|exists j; by rewrite Hs, decide_False].
      exists i. rewrite Hs, decide_True by done. naive_solver congruence.
Qed.

Lemma full_table hs n k : hash_wf hs n → (∀ i, (i < n)%nat → taken hs k i) →
  (k ∉ elems hs n) ∧ (size (elems hs n) <? n)%nat = false.
Proof.
  intros Hwf Hall. split.
  - rewrite elem_of_elems by done. intros (i & Hi).
    destruct (Hall i (slot_lt _ _ Hwf _ _ Hi)) as (? & ? & ?). congruence.
  - apply Nat.ltb_ge. destruct (size_elems hs n Hwf) as [_ [_ H]]. rewrite H; [done|].
    intros i Hi. destruct (Hall i Hi) as (? & ? & _). eauto.
Qed.

Lemma free_table hs n i : hash_wf hs n → (i < n)%nat → slot hs i = None →
  (size (elems hs n) <? n)%nat = true.
Proof.
  intros Hwf Hi Hs. apply Nat.ltb_lt. destruct (size_elems hs n Hwf) as [Hle [H _]].
  destruct (decide (size (elems hs n) = n)) as [E|]; [|lia].
  destruct (H E i Hi). congruence.
Qed.

Lemma insert_cases hs n k : hash_wf hs n → 0 ≤ k →
  (k ∈ elems hs n ∧ ggml_hash_insert hs k = Ok (GGML_HASHSET_ALREADY_EXISTS, hs)) ∨
  ((k ∉ elems hs n) ∧ (size (elems hs n) < n)%nat ∧
     ∃ i hs', ggml_hash_insert hs k = Ok (i, hs') ∧ (i =? GGML_HASHSET_ALREADY_EXISTS) = false ∧
       hash_wf hs' n ∧ elems hs' n = {[k]} ∪ elems hs n) ∨
  ((k ∉ elems hs n) ∧ (n ≤ size (elems hs n))%nat ∧ ggml_hash_insert hs k = Err Abort).
Proof.
  intros Hwf Hk. pose proof (hw_bound _ _ Hwf) as [_ Hb]. rewrite (insert_spec hs n) by done.
  destruct (find_or_insert_spec hs n k Hwf Hk) as [(i & hs' & -> & Hwf' & Hi & Hin & Hs)|[-> Hall]];
    cbn [mbind res_bind]; rewrite ?Nat2Z.id.
  - destruct Hi as [Hi|Hi]; rewrite Hi.
    + right. left. rewrite bool_decide_false by done. split_and!.
      * rewrite elem_of_elems by done. intros (j & Hj).
        assert (slot hs' j = Some k) as Hj2 by (rewrite Hs; by case_decide).
        assert (slot hs' i = Some k) as Hi2 by by rewrite Hs, decide_True.
        pose proof (stored_unique _ _ Hwf' _ _ _ Hj2 Hi2). congruence.
      * by apply Nat.ltb_lt, (free_table hs n i).
      * exists (Z.of_nat i), hs'. split_and!; [done| |done|by apply (elems_insert hs hs' n k i); auto].
        apply Z.eqb_neq. unfold GGML_HASHSET_ALREADY_EXISTS, SIZE_MAX. lia.
    + left. rewrite bool_decide_true by done. split; [|done]. rewrite elem_of_elems by done. eauto.
  - right. right. destruct (full_table hs n k Hwf Hall) as [? H]. apply Nat.ltb_ge in H. done.
Qed.

Lemma hash_exec_refines hs n op : hash_wf hs n → op_key_ok op →
  match hash_exec hs op with
  | Ok (o, hs') => hash_wf hs' n ∧ set_exec n (elems hs n) op = Ok (o, elems hs' n)
  | Err e => e = Abort ∧ set_exec n (elems hs n) op = Err Abort
  end.
Proof.
  intros Hwf Hop. pose proof (hw_bound _ _ Hwf) as [_ Hb]. destruct op as [k|k|k|]; cbn [hash_exec set_exec].
  - destruct (insert_cases hs n k Hwf ltac:(apply Hop)) as
      [[Hin ->]|[(Hin & Hlt & i & hs' & -> & Hne & Hwf' & He)|(Hin & Hle & ->)]]; cbn [mbind res_bind].
    + rewrite Z.eqb_refl. by rewrite bool_decide_true.
    + rewrite Hne, He, bool_decide_false by done. by rewrite (proj2 (Nat.ltb_lt _ _)).
    + rewrite bool_decide_false by done. by rewrite (proj2 (Nat.ltb_ge _ _)).
  - destruct (find_or_insert_spec hs n k Hwf ltac:(apply Hop)) as [(i & hs' & -> & Hwf' & Hi & Hin & Hs)|[-> Hall]];
      cbn [mbind res_bind].
    + split; [done|]. assert (slot hs' i = Some k) as Hk by by rewrite Hs, decide_True.
      pose proof (read_slot _ _ Hwf' i Hin) as Hr. rewrite Hk in Hr. destruct Hr as [_ ->].
      rewrite (bool_decide_true (Ok k = Ok k)) by done.
      rewrite (elems_insert hs hs' n k i) by auto. destruct (decide (k ∈ elems hs n)) as [Hin'|Hin'].
      * rewrite bool_decide_true by done. by rewrite subseteq_union_1_L by set_solver.
      * rewrite bool_decide_false by done. destruct Hi as [Hi|Hi]; [by rewrite (free_table hs n i)|].
        destruct Hin'. apply elem_of_elems; eauto.
    + split; [done|]. destruct (full_table hs n k Hwf Hall) as [? ->]. by rewrite bool_decide_false.
  - destruct (contains_spec hs n k Hwf ltac:(apply Hop)) as (b & -> & Hb'). cbn [mbind res_bind].
    split; [done|]. do 2 f_equal. rewrite <- elem_of_elems in Hb' by done.
    destruct b; [rewrite bool_decide_true; naive_solver|rewrite bool_decide_false; naive_solver].
  - destruct (reset_spec hs n Hwf) as [? Hno]. split; [done|]. do 2 f_equal.
    apply set_eq. intros x. rewrite elem_of_elems by done. rewrite elem_of_empty.
    split; [done|]. intros (i & Hi). by rewrite Hno in Hi.
Qed.

Lemma hash_run_refines (ops : list hash_op) (n : nat) : ∀ hs, hash_wf hs n → Forall op_key_ok ops →
  match run hash_exec hs ops with
  | Ok (os, hs') => hash_wf hs' n ∧ run (set_exec n) (elems hs n) ops = Ok (os, elems hs' n)
  | Err e => e = Abort ∧ run (set_exec n) (elems hs n) ops = Err Abort
  end.
Proof.
  induction ops as [|op ops IH]; intros hs Hwf Hok; [done|].
  apply Forall_cons in Hok as [Hop Hok]. cbn [run].
  pose proof (hash_exec_refines hs n op Hwf Hop) as H.
  destruct (hash_exec hs op) as [[o hs1]|e]; cbn [mbind res_bind]; [|by destruct H as [-> ->]].
  destruct H as [Hwf1 ->]. cbn [mbind res_bind]. specialize (IH hs1 Hwf1 Hok).
  destruct (run hash_exec hs1 ops) as [[os hs2]|e]; cbn [mbind res_bind]; destruct IH as [? ->]; [done|].
  by subst.
Qed.

(** ** The size of a new table *)

(** Trial division up to [b]. *)
Fixpoint no_divisor (fuel : nat) (d n : Z) : bool :=
  match fuel with
  | O => true
  | S fuel => negb (n mod d =? 0) && no_divisor fuel (d + 1) n
  end.

Definition prime_upto_sqrt (n : Z) : bool := no_divisor (Z.to_nat (Z.sqrt n - 1)) 2 n.

Lemma no_divisor_spec fuel d n : 0 < d → no_divisor fuel d n = true →
  ∀ x, d ≤ x < d + Z.of_nat fuel → ¬ (x | n).
Proof.
  revert d. induction fuel as [|fuel IH]; intros d Hd H x Hx; [lia|].
  cbn in H. apply andb_true_iff in H as [H1 H2]. destruct (decide (x = d)) as [->|].
  - apply negb_true_iff, Z.eqb_neq in H1. by rewrite <- Z.mod_divide by lia.
  - apply (IH (d + 1)); [lia|done|lia].
Qed.

Lemma prime_upto_sqrt_spec n : 1 < n → prime_upto_sqrt n = true → Znumtheory.prime n.
Proof.
  intros Hn H. apply Znumtheory.prime_alt. split; [done|]. intros x Hx [y Hy].
  pose proof (Z.sqrt_spec n ltac:(lia)) as [Hs1 Hs2]. unfold prime_upto_sqrt in H.
  assert (0 < y) by (apply Z.lt_nge; intros ?; assert (y * x ≤ 0) by nia; lia).
  assert (y ≠ 1) by (intros ->; lia). assert (y < n) by nia. assert (0 ≤ Z.sqrt n) by apply Z.sqrt_nonneg.
  destruct (decide (x ≤ Z.sqrt n)) as [Hle|Hgt].
  - apply (no_divisor_spec (Z.to_nat (Z.sqrt n - 1)) 2 n ltac:(lia) H x); [lia|]. by exists y.
  - assert (y ≤ Z.sqrt n).
    { apply Z.le_ngt. intros ?. unfold Z.succ in Hs2.
      assert ((Z.sqrt n + 1) * (Z.sqrt n + 1) ≤ y * x) by (apply Z.mul_le_mono_nonneg; lia). lia. }
    apply (no_divisor_spec (Z.to_nat (Z.sqrt n - 1)) 2 n ltac:(lia) H y); [lia|]. exists x. lia.
Qed.

Lemma primes_are_prime : Forall (λ p, Znumtheory.prime p) primes.
Proof.
  assert (forallb (λ p, (1 <? p) && prime_upto_sqrt p) primes = true) as H by (vm_compute; reflexivity).
  rewrite forallb_forall in H. apply Forall_forall. intros p Hp%list_elem_of_In.
  apply H in Hp. apply andb_true_iff in Hp as [H1 H2]. apply prime_upto_sqrt_spec; [lia|done].
Qed.

Lemma primes_sorted (i j : nat) p q : (i < j)%nat → primes !! i = Some p → primes !! j = Some q → p < q.
Proof.
  assert (StronglySorted Z.lt primes) as H by (apply (bool_decide_unpack _); vm_compute; exact I).
  intros. by eapply (StronglySorted_lookup Z.lt).
Qed.

Lemma hash_size_search_spec (min_sz : Z) (fuel l r : nat) :
  (l ≤ r ≤ length primes)%nat → (r - l < fuel)%nat →
  (∀ i p, (i < l)%nat → primes !! i = Some p → p < min_sz) →
  (∀ i p, (r ≤ i)%nat → primes !! i = Some p → min_sz ≤ p) →
  ∃ m, hash_size_search fuel min_sz l r = Ok m ∧ (m ≤ length primes)%nat ∧
    (∀ i p, (i < m)%nat → primes !! i = Some p → p < min_sz) ∧
    (∀ i p, (m ≤ i)%nat → primes !! i = Some p → min_sz ≤ p).
Proof.
  revert l r. induction fuel as [|fuel IH]; intros l r Hlr Hf Hlo Hhi; [lia|].
  cbn [hash_size_search]. destruct (Nat.ltb_spec l r) as [Hlt|Hge]; cycle 1.
  { exists l. replace r with l in * by lia. auto with lia. }
  pose proof (Nat.div_mod_eq (l + r) 2). pose proof (Nat.mod_upper_bound (l + r) 2 ltac:(lia)).
  set (m := ((l + r) / 2)%nat) in *. assert (l ≤ m < r)%nat as Hm by lia. clearbody m.
  destruct (at_lt primes m ltac:(lia)) as (p & -> & Hp). cbn [mbind res_bind].
  destruct (Z.ltb_spec p min_sz).
  - apply IH; [lia|lia| |done]. intros i q Hi Hq. destruct (decide (i = m)) as [->|]; [congruence|].
    enough (q < p) by lia. apply (primes_sorted i m); [lia|done|done].
  - apply IH; [lia|lia|done|]. intros i q Hi Hq. destruct (decide (i = m)) as [->|]; [congruence|].
    enough (p < q) by lia. apply (primes_sorted m i); [lia|done|done].
Qed.

Lemma lor_1 (z : Z) : Z.lor z 1 = z + 1 - z mod 2.
Proof.
  pose proof (Z.div_mod z 2 ltac:(lia)) as Hd. pose proof (Z.mod_pos_bound z 2 ltac:(lia)).
  set (q := z / 2) in *. set (r := z mod 2) in *. assert (r = 0 ∨ r = 1) as Hr by lia. clearbody q r.
  assert (Z.lor (q * 2) 1 = q * 2 + 1) as Hq.
  { apply (lor_disjoint_add _ _ 1); [lia|lia|apply Z.mod_mul; lia]. }
  destruct Hr as [-> | ->].
  - replace z with (q * 2) by lia. lia.
  - replace z with (q * 2 + 1) by lia. rewrite <- Hq, <- Z.lor_assoc, Z.lor_diag. lia.
Qed.

(** The size chosen is at least the size asked for and odd or a prime; up to
    the last entry of the table it is the smallest entry that is enough. *)
Lemma ggml_hash_size_spec (min_sz : Z) : 0 ≤ min_sz < 2 ^ 64 →
  ∃ sz, ggml_hash_size min_sz = Ok sz ∧ min_sz ≤ sz ≤ min_sz + 2 ^ 32 ∧ 0 < sz ∧
    if bool_decide (min_sz ≤ 2147483659)
    then Znumtheory.prime sz ∧ sz ∈ primes ∧ ∀ p, p ∈ primes → min_sz ≤ p → sz ≤ p
    else sz = Z.lor min_sz 1.
Proof.
  intros Hm. unfold ggml_hash_size.
  assert (∃ m, hash_size_search (S (length primes)) min_sz 0 (length primes) = Ok m ∧ (m ≤ length primes)%nat ∧
    (∀ i p, (i < m)%nat → primes !! i = Some p → p < min_sz) ∧
    (∀ i p, (m ≤ i)%nat → primes !! i = Some p → min_sz ≤ p)) as (m & -> & Hle & Hlo & Hhi).
  { apply hash_size_search_spec; [lia|lia|lia|]. intros i p ? Hp%lookup_lt_Some. lia. }
  cbn [mbind res_bind]. destruct (Nat.ltb_spec m (length primes)) as [Hlt|Hge].
  - destruct (at_lt primes m Hlt) as (p & -> & Hp). exists p. split; [done|].
    assert (p ∈ primes) as Hin by by eapply list_elem_of_lookup_2.
    assert (2 ≤ p ≤ 2147483659) as Hb.
    { revert p Hp Hin. assert (Forall (λ p, 2 ≤ p ≤ 2147483659) primes) as H
        by (apply (bool_decide_unpack _); vm_compute; exact I). intros. by rewrite Forall_forall in H; apply H. }
    pose proof (Hhi m p ltac:(lia) Hp). split_and!; [lia|lia|lia|].
    rewrite bool_decide_true by lia. split_and!; [|done|].
    + pose proof primes_are_prime as H'. rewrite Forall_forall in H'. by apply H'.
    + intros q (j & Hj)%list_elem_of_lookup Hq. destruct (Nat.lt_trichotomy j m) as [Hjm|[->|Hjm]].
      * pose proof (Hlo j q Hjm Hj). lia.
      * simplify_eq. lia.
      * pose proof (primes_sorted m j p q Hjm Hp Hj). lia.
  - exists (Z.lor min_sz 1). split; [done|]. assert (m = length primes) as -> by lia.
    pose proof (Hlo 31%nat 2147483659 ltac:(vm_compute; lia) eq_refl).
    pose proof (Z.lor_nonneg min_sz 1) as [_ Hnn]. specialize (Hnn ltac:(lia)).
    assert (Z.lor min_sz 1 = min_sz + 1 - min_sz mod 2) as Hlor.
    { apply lor_1. }
    pose proof (Z.mod_pos_bound min_sz 2 ltac:(lia)).
    split_and!; [lia|lia|lia|]. by rewrite bool_decide_false by lia.
Qed.

Lemma ggml_hash_set_new_spec (min_sz : Z) : 0 ≤ min_sz < 2 ^ 59 →
  ∃ hs n, ggml_hash_set_new min_sz = Ok hs ∧ ggml_hash_size min_sz = Ok (Z.of_nat n) ∧
    min_sz ≤ Z.of_nat n ∧ hash_wf hs n ∧ ∀ i, slot hs i = None.
Proof.
  intros Hm. destruct (ggml_hash_size_spec min_sz ltac:(lia)) as (sz & Hsz & Hb & Hpos & _).
  unfold ggml_hash_set_new. rewrite Hsz. cbn [mbind res_bind].
  eexists _, (Z.to_nat sz). split; [done|]. rewrite Z2Nat.id by lia. split_and!; [done|lia| |].
  - split; cbn; [lia|lia|by rewrite length_replicate| | |].
    + rewrite length_replicate. pose proof (words_enough (Z.to_nat sz)) as H. rewrite Z2Nat.id in H by lia. apply H. lia.
    + intros i _ Hu. by rewrite used_bit_zero in Hu.
    + intros i k. unfold slot. cbn. by rewrite used_bit_zero.
  - intros i. unfold slot. cbn. by rewrite used_bit_zero.
Qed.

(** ** The claims *)

(** C31. The table is a finite set with a capacity.  Start from the table that
    [ggml_hash_set_new] makes for [min_sz] elements and run any sequence of
    insertions, find-or-insertions, queries and resets of tensor addresses.
    The answers are those of the same operations on a finite set; the run stops
    in [GGML_ABORT] exactly when the set model inserts a new element into a
    set that already has as many elements as the table has slots, which is at
    least [min_sz].  No uninitialised key is read, no index is out of bounds,
    and every probe ends. *)
Theorem hash_set_refines (min_sz : Z) (ops : list hash_op) :
  0 ≤ min_sz < 2 ^ 59 → Forall op_key_ok ops →
  ∃ hs n, ggml_hash_set_new min_sz = Ok hs ∧ min_sz ≤ Z.of_nat n ∧
    match run hash_exec hs ops with
    | Ok (os, hs') => hash_wf hs' n ∧ run (set_exec n) ∅ ops = Ok (os, elems hs' n)
    | Err e => e = Abort ∧ run (set_exec n) ∅ ops = Err Abort
    end.
Proof.
  intros Hm Hok. destruct (ggml_hash_set_new_spec min_sz Hm) as (hs & n & Hnew & _ & Hle & Hwf & Hno).
  exists hs, n. split_and!; [done|done|].
  assert (elems hs n = ∅) as He.
  { apply set_eq. intros x. rewrite elem_of_elems by done. rewrite elem_of_empty.
    split; [|done]. intros (i & Hi). by rewrite Hno in Hi. }
  rewrite <- He. by apply hash_run_refines.
Qed.

Definition ops_example : list hash_op :=
  [HInsert 0x1000; HInsert 0x1050; HInsert 0x1000; HContains 0x1050; HContains 0x10a0;
   HFindOrInsert 0x10a0; HReset; HContains 0x1000].

Lemma hash_set_refines_witness :
  Forall op_key_ok ops_example ∧
  ∃ hs n, ggml_hash_set_new 4 = Ok hs ∧ 4 ≤ Z.of_nat n ∧
    match run hash_exec hs ops_example with
    | Ok (os, hs') => hash_wf hs' n ∧ run (set_exec n) ∅ ops_example = Ok (os, elems hs' n)
    | Err e => e = Abort ∧ run (set_exec n) ∅ ops_example = Err Abort
    end.
Proof.
  assert (Forall op_key_ok ops_example) as H.
  { unfold ops_example. repeat constructor; unfold ptr_ok; lia. }
  split; [exact H|]. apply (hash_set_refines 4 ops_example); [lia|exact H].
Defined.

(** On this input the run returns these answers (0x1000, 0x1050 and 0x10a0
    collide modulo 5). *)
Example ops_example_run :
  (hs ← ggml_hash_set_new 4; fst <$> run hash_exec hs ops_example)
  = Ok [true; true; false; true; false; true; true; false].
Proof. vm_compute. reflexivity. Qed.
