(* ===== verification/DynAlloc.v ===== *)
(** * The offset allocators of ggml (ggml/src/ggml-alloc.c)

    [ggml_dyn_tallocr] hands out offsets of a buffer that does not exist yet:
    the graph allocator runs it on a graph to find where each tensor goes and
    how large the buffer has to be.  Its state is an array of 256 free blocks of
    which the first [n_free_blocks] are in use, sorted by offset; the loops that
    shift the array are written out.  [ggml_tallocr] hands out the bytes of a
    given buffer in order.

    [repr a bs] says that [bs] is the free list stored in the array; the
    theorems are about runs of allocations and frees ([dyn_run]) and the regions
    that are live after them.  The debug-only code under GGML_ALLOCATOR_DEBUG
    and the text of the messages are left out. *)
From S2P Require Import Prelude.

(** ** Definitions *)

Definition MAX_FREE_BLOCKS : nat := 256.

Definition aligned_offset (buffer offset alignment : Z) : Z :=
  let align := (alignment - u64 (buffer + offset) mod alignment) mod alignment in
  u64 (offset + align).

Record free_block : Type := mk_block { fb_offset : Z; fb_size : Z }.

Record ggml_dyn_tallocr : Type := mk_dyn {
  da_alignment     : Z;
  da_n_free_blocks : nat;
  da_free_blocks   : list free_block;   (* MAX_FREE_BLOCKS entries *)
  da_max_size      : Z;
}.

#[global] Instance free_block_eq_dec : EqDecision free_block.
Proof. solve_decision. Defined.

(** [for (j = j0; k more rounds; j++) fb[j] = fb[j+1]]. *)
Fixpoint shift_down (k : nat) (fb : list free_block) (j : nat) : res (list free_block) :=
  match k with
  | O => Ok fb
  | S k => b ← at_ fb (S j); fb ← put fb j b; shift_down k fb (S j)
  end.

(** [for (i = i0; k more rounds; i--) fb[i] = fb[i-1]]. *)
Fixpoint shift_up (k : nat) (fb : list free_block) (i : nat) : res (list free_block) :=
  match k with
  | O => Ok fb
  | S k => b ← at_ fb (i - 1); fb ← put fb i b; shift_up k fb (i - 1)
  end.

(** The best fitting of [k] blocks from index [i] on; a later block wins a tie. *)
Fixpoint best_fit_loop (k : nat) (fb : list free_block) (size : Z) (i : nat)
    (best : option nat) (best_size : Z) : res (option nat) :=
  match k with
  | O => Ok best
  | S k =>
      b ← at_ fb i;
      if (size <=? b.(fb_size)) && (b.(fb_size) <=? best_size)
      then best_fit_loop k fb size (S i) (Some i) b.(fb_size)
      else best_fit_loop k fb size (S i) best best_size
  end.

(** [free_blocks[n_free_blocks - 1]]. *)
Definition last_index (n : nat) : res nat := match n with O => Err Oob | S k => Ok k end.

Definition find_block (a : ggml_dyn_tallocr) (size : Z) : res nat :=
  best ← best_fit_loop (a.(da_n_free_blocks) - 1) a.(da_free_blocks) size 0 None SIZE_MAX;
  match best with
  | Some i => Ok i
  | None =>
      (* the last block is our last resort *)
      l ← last_index a.(da_n_free_blocks);
      b ← at_ a.(da_free_blocks) l;
      if size <=? b.(fb_size) then Ok l else Err Abort
  end.

(** The last part of an allocation: take [size] bytes off the front of block [i]. *)
Definition take_block (a : ggml_dyn_tallocr) (i : nat) (size : Z) : res (Z * ggml_dyn_tallocr) :=
  b ← at_ a.(da_free_blocks) i;
  let offset := b.(fb_offset) in
  let rest := u64 (b.(fb_size) - size) in
  fb ← put a.(da_free_blocks) i (mk_block (u64 (offset + size)) rest);
  let max_size := Z.max a.(da_max_size) (u64 (offset + size)) in
  if rest =? 0 then
    let n := (a.(da_n_free_blocks) - 1)%nat in
    fb ← shift_down (n - i) fb i;
    Ok (offset, mk_dyn a.(da_alignment) n fb max_size)
  else Ok (offset, mk_dyn a.(da_alignment) a.(da_n_free_blocks) fb max_size).

Definition ggml_dyn_tallocr_alloc (a : ggml_dyn_tallocr) (size : Z) : res (Z * ggml_dyn_tallocr) :=
  let size := aligned_offset 0 size a.(da_alignment) in
  i ← find_block a size;
  take_block a i size.

Definition block_end (b : free_block) : Z := u64 (b.(fb_offset) + b.(fb_size)).

(** A region that begins where block [i] ends. *)
Definition merge_after (a : ggml_dyn_tallocr) (i : nat) (b : free_block) (size : Z) : res ggml_dyn_tallocr :=
  let n := a.(da_n_free_blocks) in
  let b := mk_block b.(fb_offset) (u64 (b.(fb_size) + size)) in
  fb ← put a.(da_free_blocks) i b;
  let keep := Ok (mk_dyn a.(da_alignment) n fb a.(da_max_size)) in
  if (i <? n - 1)%nat then
    next ← at_ fb (S i);
    if block_end b =? next.(fb_offset) then
      fb ← put fb i (mk_block b.(fb_offset) (u64 (b.(fb_size) + next.(fb_size))));
      fb ← shift_down (n - 1 - S i) fb (S i);
      Ok (mk_dyn a.(da_alignment) (n - 1) fb a.(da_max_size))
    else keep
  else keep.

(** A region that ends where block [i] begins. *)
Definition merge_before (a : ggml_dyn_tallocr) (i : nat) (b : free_block) (offset size : Z) : res ggml_dyn_tallocr :=
  let n := a.(da_n_free_blocks) in
  let b := mk_block offset (u64 (b.(fb_size) + size)) in
  fb ← put a.(da_free_blocks) i b;
  let keep := Ok (mk_dyn a.(da_alignment) n fb a.(da_max_size)) in
  if (0 <? i)%nat then
    prev ← at_ fb (i - 1);
    if block_end prev =? b.(fb_offset) then
      fb ← put fb (i - 1) (mk_block prev.(fb_offset) (u64 (prev.(fb_size) + b.(fb_size))));
      fb ← shift_down (n - 1 - i) fb i;
      Ok (mk_dyn a.(da_alignment) (n - 1) fb a.(da_max_size))
    else keep
  else keep.

Fixpoint merge_loop (k : nat) (a : ggml_dyn_tallocr) (i : nat) (offset size : Z) : res (option ggml_dyn_tallocr) :=
  match k with
  | O => Ok None
  | S k =>
      b ← at_ a.(da_free_blocks) i;
      if block_end b =? offset then Some <$> merge_after a i b size
      else if u64 (offset + size) =? b.(fb_offset) then Some <$> merge_before a i b offset size
      else merge_loop k a (S i) offset size
  end.

(** [while (insert_pos < n && free_blocks[insert_pos].offset < offset) insert_pos++]. *)
Fixpoint insert_pos_loop (k : nat) (fb : list free_block) (pos : nat) (offset : Z) : res nat :=
  match k with
  | O => Ok pos
  | S k =>
      b ← at_ fb pos;
      if b.(fb_offset) <? offset then insert_pos_loop k fb (S pos) offset else Ok pos
  end.

Definition insert_block (a : ggml_dyn_tallocr) (offset size : Z) : res ggml_dyn_tallocr :=
  let n := a.(da_n_free_blocks) in
  _ ← ggml_assert (n <? MAX_FREE_BLOCKS)%nat;
  pos ← insert_pos_loop n a.(da_free_blocks) 0 offset;
  fb ← shift_up (n - pos) a.(da_free_blocks) n;
  fb ← put fb pos (mk_block offset size);
  Ok (mk_dyn a.(da_alignment) (S n) fb a.(da_max_size)).

Definition ggml_dyn_tallocr_free_tensor (a : ggml_dyn_tallocr) (offset size : Z) : res ggml_dyn_tallocr :=
  let size := aligned_offset 0 size a.(da_alignment) in
  merged ← merge_loop a.(da_n_free_blocks) a 0 offset size;
  match merged with
  | Some a => Ok a
  | None => insert_block a offset size
  end.

Definition ggml_dyn_tallocr_reset (a : ggml_dyn_tallocr) : res ggml_dyn_tallocr :=
  fb ← put a.(da_free_blocks) 0 (mk_block 0 (SIZE_MAX / 2));
  Ok (mk_dyn a.(da_alignment) 1 fb 0).

Definition ggml_dyn_tallocr_new (alignment : Z) : res ggml_dyn_tallocr :=
  ggml_dyn_tallocr_reset (mk_dyn alignment 0 (replicate MAX_FREE_BLOCKS (mk_block 0 0)) 0).

Definition ggml_dyn_tallocr_max_size (a : ggml_dyn_tallocr) : Z := a.(da_max_size).

(** *** The linear allocator of a buffer *)

(** [GGML_PAD(x, n)]: [((x) + (n) - 1) & ~((n) - 1)]. *)
Definition GGML_PAD (x n : Z) : Z := Z.land (u64 (x + n - 1)) (u64 (Z.lnot (n - 1))).

(** [get_base], [get_size] and [get_alignment] of the buffer are the fields
    [ta_base], [ta_size] and [ta_alignment]. *)
Record ggml_tallocr : Type := mk_tallocr {
  ta_base : Z; ta_size : Z; ta_alignment : Z; ta_offset : Z;
}.

Definition ggml_tallocr_new (base size alignment : Z) : ggml_tallocr :=
  mk_tallocr base size alignment (aligned_offset base 0 alignment).

(** Returns the address given to the tensor; [alloc_size] is what
    [ggml_backend_buffer_get_alloc_size] says of it. *)
Definition ggml_tallocr_alloc (t : ggml_tallocr) (alloc_size : Z) : res (Z * ggml_tallocr) :=
  let size := GGML_PAD alloc_size t.(ta_alignment) in
  if t.(ta_size) <? u64 (t.(ta_offset) + size) then Err Abort
  else
    Ok (u64 (t.(ta_base) + t.(ta_offset)),
        mk_tallocr t.(ta_base) t.(ta_size) t.(ta_alignment) (u64 (t.(ta_offset) + size))).

(** ** The free list in the array *)

Definition END : Z := SIZE_MAX / 2.

(** The first [n_free_blocks] entries are [bs]. *)
Definition repr (a : ggml_dyn_tallocr) (bs : list free_block) : Prop :=
  ∃ junk, a.(da_free_blocks) = bs ++ junk ∧ a.(da_n_free_blocks) = length bs ∧
    length (bs ++ junk) = MAX_FREE_BLOCKS.

(** A block lies in [0, END]: no sum of an offset and a size wraps. *)
Definition in_range (b : free_block) : Prop :=
  0 ≤ fb_offset b ∧ 0 ≤ fb_size b ∧ fb_offset b + fb_size b ≤ END.

Lemma END_val : END = 2 ^ 63 - 1.
Proof. reflexivity. Qed.

Lemma block_end_eq b : in_range b → block_end b = fb_offset b + fb_size b.
Proof. unfold in_range, block_end. rewrite END_val. intros. apply u64_small. lia. Qed.

Section arrays.
Implicit Types (l : list free_block) (b : free_block).

Lemma at_mid l b l' : at_ (l ++ b :: l') (length l) = Ok b.
Proof. apply at_Ok. by apply list_lookup_middle. Qed.

Lemma at_next l b c l' : at_ (l ++ b :: c :: l') (S (length l)) = Ok c.
Proof.
  apply at_Ok. change (b :: c :: l') with ([b] ++ c :: l'). rewrite app_assoc.
  apply list_lookup_middle. rewrite length_app. cbn. lia.
Qed.

Lemma put_mid l b b' l' : put (l ++ b :: l') (length l) b' = Ok (l ++ b' :: l').
Proof.
  rewrite put_lt by (rewrite length_app; cbn; lia). f_equal.
  pose proof (insert_app_r l (b :: l') 0 b') as H. by rewrite Nat.add_0_r in H.
Qed.

Lemma shift_down_spec l b l2 junk :
  ∃ junk', shift_down (length l2) (l ++ b :: l2 ++ junk) (length l) = Ok (l ++ l2 ++ junk') ∧
    length junk' = S (length junk).
Proof.
  revert l b. induction l2 as [|c l2 IH]; intros l b; cbn [length shift_down].
  - exists (b :: junk). done.
  - change (b :: (c :: l2) ++ junk) with ([b] ++ c :: l2 ++ junk).
    cbn [app]. rewrite at_next. cbn [mbind res_bind]. rewrite put_mid. cbn [mbind res_bind].
    destruct (IH (l ++ [c]) c) as (junk' & H & ?). rewrite length_app in H. cbn [length] in H.
    rewrite Nat.add_1_r, <- !app_assoc in H. exists junk'. split; [exact H|done].
Qed.

Lemma shift_up_spec l l2 x junk :
  ∃ y, shift_up (length l2) (l ++ l2 ++ x :: junk) (length (l ++ l2)) = Ok (l ++ y :: l2 ++ junk).
Proof.
  revert x junk. induction l2 as [|c l2 IH] using rev_ind; intros x junk; cbn [length shift_up].
  - by exists x.
  - rewrite !length_app, Nat.add_1_r. cbn [shift_up length].
    replace (length l + S (length l2) - 1)%nat with (length (l ++ l2)) by (rewrite length_app; lia).
    replace (length l + S (length l2))%nat with (length (l ++ l2 ++ [c])) by (rewrite !length_app; cbn; lia).
    replace (l ++ (l2 ++ [c]) ++ x :: junk) with ((l ++ l2) ++ c :: x :: junk) by (by rewrite <- !app_assoc).
    rewrite at_mid. cbn [mbind res_bind].
    replace ((l ++ l2) ++ c :: x :: junk) with ((l ++ l2 ++ [c]) ++ x :: junk) by (by rewrite <- !app_assoc).
    rewrite put_mid. cbn [mbind res_bind].
    destruct (IH c (c :: junk)) as (y & Hy). exists y.
    replace ((l ++ l2 ++ [c]) ++ c :: junk) with (l ++ l2 ++ c :: c :: junk) by (by rewrite <- !app_assoc).
    rewrite Hy. by rewrite <- app_assoc.
Qed.
End arrays.

Lemma repr_length a bs : repr a bs → (length bs ≤ MAX_FREE_BLOCKS)%nat ∧ da_n_free_blocks a = length bs.
Proof. intros (junk & _ & Hn & Hl). rewrite length_app in Hl. lia. Qed.

Lemma repr_intro al n fb bs junk m : fb = bs ++ junk → n = length bs → length fb = MAX_FREE_BLOCKS →
  repr (mk_dyn al n fb m) bs.
Proof. intros -> -> ?. by exists junk. Qed.

(** *** Searching a block *)

Lemma best_fit_loop_spec fb size (k : nat) : ∀ i best bsz,
  (i + k ≤ length fb)%nat →
  ∃ r, best_fit_loop k fb size i best bsz = Ok r ∧
    ((r = best ∧ ∀ j b, (i ≤ j < i + k)%nat → fb !! j = Some b → ¬ (size ≤ fb_size b ≤ bsz)) ∨
     ∃ p b, r = Some p ∧ (i ≤ p < i + k)%nat ∧ fb !! p = Some b ∧ size ≤ fb_size b ≤ bsz ∧
       (∀ j c, (i ≤ j < i + k)%nat → fb !! j = Some c → size ≤ fb_size c → fb_size b ≤ fb_size c) ∧
       (∀ j c, (p < j < i + k)%nat → fb !! j = Some c → size ≤ fb_size c → fb_size b < fb_size c)).
Proof.
  induction k as [|k IH]; intros i best bsz Hik; cbn [best_fit_loop].
  { exists best. split; [done|]. left. split; [done|lia]. }
  destruct (at_lt fb i ltac:(lia)) as (c & -> & Hc). cbn [mbind res_bind].
  destruct ((size <=? fb_size c) && (fb_size c <=? bsz)) eqn:E.
  - assert (size ≤ fb_size c ≤ bsz) as Hcb by lia.
    destruct (IH (S i) (Some i) (fb_size c) ltac:(lia)) as (r & -> & [[-> Hno]|(p & b & -> & Hp & Hb & Hs & Hmin & Htie)]).
    + eexists. split; [done|]. right. exists i, c. split_and!; [done|lia|lia|done|lia|lia| |].
      * intros j d Hj Hd Hsd. destruct (decide (j = i)) as [->|]; [naive_solver lia|].
        pose proof (Hno j d ltac:(lia) Hd). lia.
      * intros j d Hj Hd Hsd. pose proof (Hno j d ltac:(lia) Hd). lia.
    + eexists. split; [done|]. right. exists p, b. split_and!; [done|lia|lia|done|lia|lia| |].
      * intros j d Hj Hd Hsd. destruct (decide (j = i)) as [->|]; [naive_solver lia|]. apply (Hmin j); [lia|done|done].
      * intros j d Hj Hd Hsd. apply (Htie j); [lia|done|done].
  - destruct (IH (S i) best bsz ltac:(lia)) as (r & -> & [[-> Hno]|(p & b & -> & Hp & Hb & Hs & Hmin & Htie)]).
    + eexists. split; [done|]. left. split; [done|]. intros j d Hj Hd.
      destruct (decide (j = i)) as [->|]; [naive_solver lia|]. apply (Hno j); [lia|done].
    + eexists. split; [done|]. right. exists p, b. split_and!; [done|lia|lia|done|lia|lia| |].
      * intros j d Hj Hd Hsd. destruct (decide (j = i)) as [->|].
        -- simplify_eq. lia.
        -- apply (Hmin j); [lia|done|done].
      * intros j d Hj Hd Hsd. apply (Htie j); [lia|done|done].
Qed.

(** The block an allocation of [size] bytes takes: the smallest that fits among
    all but the last (the latest of several), else the last. *)
Definition fits (bs : list free_block) (size : Z) (p : nat) : Prop :=
  ∃ b, bs !! p = Some b ∧ size ≤ fb_size b ∧
    (((S p < length bs)%nat ∧
      (∀ j c, (S j < length bs)%nat → bs !! j = Some c → size ≤ fb_size c → fb_size b ≤ fb_size c) ∧
      (∀ j c, (p < j)%nat → (S j < length bs)%nat → bs !! j = Some c → size ≤ fb_size c → fb_size b < fb_size c)) ∨
     (S p = length bs ∧ ∀ j c, (S j < length bs)%nat → bs !! j = Some c → fb_size c < size)).

Lemma fits_unique bs size p q : fits bs size p → fits bs size q → p = q.
Proof.
  intros (b & Hb & Hsb & Hp) (c & Hc & Hsc & Hq).
  destruct Hp as [(Hpl & Hpm & Hpt)|[Hpl Hpm]], Hq as [(Hql & Hqm & Hqt)|[Hql Hqm]].
  - destruct (Nat.lt_trichotomy p q) as [?|[?|?]]; [|done|].
    + pose proof (Hpt q c ltac:(lia) Hql Hc Hsc). pose proof (Hqm p b Hpl Hb Hsb). lia.
    + pose proof (Hqt p b ltac:(lia) Hpl Hb Hsb). pose proof (Hpm q c Hql Hc Hsc). lia.
  - pose proof (Hqm p b Hpl Hb). lia.
  - pose proof (Hpm q c Hql Hc). lia.
  - lia.
Qed.

Lemma find_block_spec a bs size : repr a bs → bs ≠ [] → Forall in_range bs →
  (∃ p, find_block a size = Ok p ∧ fits bs size p) ∨
  (find_block a size = Err Abort ∧ Forall (λ b, fb_size b < size) bs).
Proof.
  intros (junk & Hfb & Hn & Hl) Hne Hr. unfold find_block. rewrite Hfb, Hn.
  assert (0 < length bs)%nat by (destruct bs; cbn; [done|lia]).
  assert (∀ j, (j < length bs)%nat → (bs ++ junk) !! j = bs !! j) as Hlk by (intros; by apply lookup_app_l).
  assert (∀ j b, bs !! j = Some b → fb_size b ≤ SIZE_MAX) as Hmax.
  { intros j b Hb. rewrite Forall_lookup in Hr. destruct (Hr j b Hb) as (? & ? & He).
    rewrite END_val in He. unfold SIZE_MAX. lia. }
  destruct (best_fit_loop_spec (bs ++ junk) size (length bs - 1) 0 None SIZE_MAX) as (r & -> & Hbf).
  { rewrite length_app. lia. }
  cbn [mbind res_bind]. destruct Hbf as [[-> Hno]|(p & b & -> & Hp & Hb & Hs & Hmin & Htie)].
  - destruct (length bs) as [|m] eqn:Hm; [lia|]. cbn [last_index mbind res_bind].
    assert (is_Some (bs !! m)) as [b Hb] by (apply lookup_lt_is_Some_2; lia).
    unfold at_. rewrite Hlk, Hb by lia. cbn [mbind res_bind].
    assert (∀ j c, (S j < length bs)%nat → bs !! j = Some c → fb_size c < size) as Hsmall.
    { intros j c Hj Hc. apply Z.lt_nge. intros ?. apply (Hno j c); [lia|rewrite Hlk by lia; done|].
      split; [done|by eapply Hmax]. }
    destruct (Z.leb_spec size (fb_size b)) as [Hle|Hgt]; [left; exists m|right]; split; try done.
    + exists b. split_and!; [done|done|]. right. split; [lia|done].
    + apply Forall_lookup. intros j c Hc. pose proof (lookup_lt_Some _ _ _ Hc).
      destruct (decide (j = m)) as [->|]; [congruence|]. apply (Hsmall j); [lia|done].
  - left. exists p. split; [done|]. rewrite Hlk in Hb by lia. exists b. split_and!; [done|lia|].
    left. split_and!; [lia| |].
    + intros j c Hj Hc. apply (Hmin j); [lia|]. by rewrite Hlk by lia.
    + intros j c Hpj Hj Hc. apply (Htie j); [lia|]. by rewrite Hlk by lia.
Qed.

(** What is left of a block. *)
Definition rest_of (b : free_block) (size : Z) : list free_block :=
  if fb_size b - size =? 0 then [] else [mk_block (fb_offset b + size) (fb_size b - size)].

Lemma take_block_spec a l1 b l2 size : repr a (l1 ++ b :: l2) → in_range b → 0 ≤ size ≤ fb_size b →
  ∃ a', take_block a (length l1) size = Ok (fb_offset b, a') ∧ repr a' (l1 ++ rest_of b size ++ l2) ∧
    da_alignment a' = da_alignment a ∧ da_max_size a' = Z.max (da_max_size a) (fb_offset b + size).
Proof.
  intros (junk & Hfb & Hn & Hl) (Ho & Hs & He) Hsz. rewrite END_val in He.
  rewrite <- app_assoc in Hfb, Hl. cbn [app] in Hfb, Hl.
  unfold take_block. rewrite Hfb, at_mid. cbn [mbind res_bind]. rewrite put_mid. cbn [mbind res_bind].
  rewrite !u64_small by lia. unfold rest_of. rewrite length_app in Hn. cbn [length] in Hn.
  destruct (Z.eqb_spec (fb_size b - size) 0) as [Hz|Hz].
  - replace (da_n_free_blocks a - 1 - length l1)%nat with (length l2) by lia.
    destruct (shift_down_spec l1 (mk_block (fb_offset b + size) (fb_size b - size)) l2 junk) as (junk' & -> & Hj).
    cbn [mbind res_bind app]. eexists. split_and!; [done| |done|done].
    apply (repr_intro _ _ _ _ junk'); [by rewrite <- app_assoc|rewrite length_app; lia|].
    rewrite !length_app in *. cbn in Hl. rewrite length_app in Hl. lia.
  - eexists. split_and!; [done| |done|done]. cbn [app].
    apply (repr_intro _ _ _ _ junk); [by rewrite <- app_assoc|rewrite length_app; cbn; lia|].
    rewrite length_app in *. exact Hl.
Qed.

(** *** Giving a region back *)

Definition bend (b : free_block) : Z := fb_offset b + fb_size b.

(** [r] neither begins where [b] ends nor ends where [b] begins. *)
Definition apart (r b : free_block) : Prop := bend b ≠ fb_offset r ∧ bend r ≠ fb_offset b.

(** The free lists before and after region [r] is freed. *)
Inductive freed (r : free_block) : list free_block → list free_block → Prop :=
  | freed_after l1 b l2 :
      bend b = fb_offset r → (∀ c l, l2 = c :: l → bend r ≠ fb_offset c) →
      freed r (l1 ++ b :: l2) (l1 ++ mk_block (fb_offset b) (fb_size b + fb_size r) :: l2)
  | freed_after_both l1 b c l2 :
      bend b = fb_offset r → bend r = fb_offset c →
      freed r (l1 ++ b :: c :: l2)
              (l1 ++ mk_block (fb_offset b) (fb_size b + fb_size r + fb_size c) :: l2)
  | freed_before l1 b l2 :
      bend r = fb_offset b → Forall (λ c, bend c ≠ fb_offset r) l1 →
      freed r (l1 ++ b :: l2) (l1 ++ mk_block (fb_offset r) (fb_size b + fb_size r) :: l2)
  | freed_new l1 l2 :
      Forall (apart r) (l1 ++ l2) → Forall (λ c, fb_offset c < fb_offset r) l1 →
      (∀ c l, l2 = c :: l → fb_offset r ≤ fb_offset c) →
      freed r (l1 ++ l2) (l1 ++ r :: l2).

Section free_specs.
Context (a : ggml_dyn_tallocr) (r : free_block).
Hypothesis Hr : in_range r.

Lemma merge_after_spec l1 b l2 : repr a (l1 ++ b :: l2) → Forall in_range (l1 ++ b :: l2) →
  bend b = fb_offset r →
  ∃ a' bs', merge_after a (length l1) b (fb_size r) = Ok a' ∧ freed r (l1 ++ b :: l2) bs' ∧ repr a' bs' ∧
    da_alignment a' = da_alignment a ∧ da_max_size a' = da_max_size a.
Proof using Hr.
  intros (junk & Hfb & Hn & Hl) Hok He.
  apply Forall_app in Hok as [_ [Hb Hok]%Forall_cons].
  destruct Hr as (Hro & Hrs & Hre), Hb as (Hbo & Hbs & Hbe). unfold bend in *. rewrite END_val in *.
  rewrite <- app_assoc in Hfb, Hl. cbn [app] in Hfb, Hl.
  rewrite !length_app in Hl. cbn [length] in Hl. rewrite length_app in Hl.
  rewrite length_app in Hn. cbn [length] in Hn.
  unfold merge_after. rewrite Hfb, put_mid. cbn [mbind res_bind]. rewrite Hn.
  rewrite u64_small by lia. set (b' := mk_block (fb_offset b) (fb_size b + fb_size r)).
  destruct l2 as [|c l2]; cbn [app length].
  { rewrite (proj2 (Nat.ltb_ge _ _)) by lia. eexists _, _.
    split_and!; [done|by apply (freed_after r l1 b [])| |done|done].
    apply (repr_intro _ _ _ _ junk); [by rewrite <- app_assoc|rewrite length_app; done|].
    rewrite length_app. cbn in *. lia. }
  rewrite (proj2 (Nat.ltb_lt _ _)) by lia.
  apply Forall_cons in Hok as [(Hco & Hcs & Hce) _]. rewrite END_val in Hce.
  rewrite at_next. cbn [mbind res_bind]. rewrite block_end_eq; cycle 1.
  { unfold in_range. rewrite END_val. cbn. lia. }
  cbn [fb_offset fb_size b']. destruct (Z.eqb_spec (fb_offset b + (fb_size b + fb_size r)) (fb_offset c)) as [Hc|Hc].
  - rewrite put_mid. cbn [mbind res_bind]. rewrite u64_small by lia.
    set (b'' := mk_block _ _).
    replace (l1 ++ b'' :: c :: l2 ++ junk) with ((l1 ++ [b'']) ++ c :: l2 ++ junk) by (by rewrite <- app_assoc).
    replace (length l1 + S (S (length l2)) - 1 - S (length l1))%nat with (length l2) by lia.
    replace (S (length l1)) with (length (l1 ++ [b''])) by (rewrite length_app; cbn; lia).
    destruct (shift_down_spec (l1 ++ [b'']) c l2 junk) as (junk' & -> & Hj).
    cbn [mbind res_bind]. eexists _, _.
    split_and!; [done|apply (freed_after_both r l1 b c l2); unfold bend; lia| |done|done].
    apply (repr_intro _ _ _ _ junk'); [by rewrite <- !app_assoc|rewrite length_app; cbn; lia|].
    rewrite !length_app. cbn [length] in *. lia.
  - eexists _, _. split_and!; [done|apply (freed_after r l1 b (c :: l2))| |done|done]; unfold bend.
    + lia.
    + intros ? ? [= <- <-]. lia.
    + apply (repr_intro _ _ _ _ junk); [by rewrite <- app_assoc|rewrite length_app; cbn; lia|].
      rewrite !length_app in *. cbn [length] in *. rewrite length_app. lia.
Qed.

Lemma merge_before_spec l1 b l2 : repr a (l1 ++ b :: l2) → Forall in_range (l1 ++ b :: l2) →
  bend r = fb_offset b → Forall (λ c, bend c ≠ fb_offset r) l1 →
  ∃ a' bs', merge_before a (length l1) b (fb_offset r) (fb_size r) = Ok a' ∧ freed r (l1 ++ b :: l2) bs' ∧
    repr a' bs' ∧ da_alignment a' = da_alignment a ∧ da_max_size a' = da_max_size a.
Proof using Hr.
  intros (junk & Hfb & Hn & Hl) Hok He Hl1.
  apply Forall_app in Hok as [Hok [Hb _]%Forall_cons].
  destruct Hr as (Hro & Hrs & Hre), Hb as (Hbo & Hbs & Hbe). unfold bend in *. rewrite END_val in *.
  rewrite <- app_assoc in Hfb, Hl. cbn [app] in Hfb, Hl.
  unfold merge_before. rewrite Hfb, put_mid. cbn [mbind res_bind]. rewrite u64_small by lia.
  set (b' := mk_block (fb_offset r) (fb_size b + fb_size r)). rewrite Hn.
  assert (freed r (l1 ++ b :: l2) (l1 ++ b' :: l2)) as Hfr by by apply freed_before.
  assert (repr (mk_dyn (da_alignment a) (length (l1 ++ b :: l2)) (l1 ++ b' :: l2 ++ junk) (da_max_size a)) (l1 ++ b' :: l2)) as Hrep.
  { apply (repr_intro _ _ _ _ junk); [by rewrite <- app_assoc|by rewrite !length_app|].
    rewrite length_app in *. exact Hl. }
  destruct l1 as [|p l1 _] using rev_ind.
  { cbn [length Nat.ltb Nat.leb app] in *. eauto 8. }
  rewrite (proj2 (Nat.ltb_lt _ _)) by (rewrite length_app; cbn; lia).
  replace (length (l1 ++ [p]) - 1)%nat with (length l1) by (rewrite length_app; cbn; lia).
  replace ((l1 ++ [p]) ++ b' :: l2 ++ junk) with (l1 ++ p :: b' :: l2 ++ junk) by (by rewrite <- app_assoc).
  rewrite at_mid. cbn [mbind res_bind].
  apply Forall_app in Hok as [_ [Hp _]%Forall_cons]. apply Forall_app in Hl1 as [_ [Hne _]%Forall_cons].
  rewrite block_end_eq by done. cbn [b' fb_offset]. rewrite (proj2 (Z.eqb_neq _ _)) by lia.
  eexists _, _. split_and!; [done|exact Hfr| |done|done].
  replace (l1 ++ p :: b' :: l2 ++ junk) with ((l1 ++ [p]) ++ b' :: l2 ++ junk) by (by rewrite <- app_assoc).
  exact Hrep.
Qed.

Lemma merge_loop_spec l2 : ∀ l1, repr a (l1 ++ l2) → Forall in_range (l1 ++ l2) → Forall (apart r) l1 →
  (merge_loop (length l2) a (length l1) (fb_offset r) (fb_size r) = Ok None ∧ Forall (apart r) (l1 ++ l2)) ∨
  ∃ a' bs', merge_loop (length l2) a (length l1) (fb_offset r) (fb_size r) = Ok (Some a') ∧
    freed r (l1 ++ l2) bs' ∧ repr a' bs' ∧ da_alignment a' = da_alignment a ∧ da_max_size a' = da_max_size a.
Proof using Hr.
  induction l2 as [|b l2 IH]; intros l1 Hrep Hok Hap; cbn [length merge_loop].
  { left. rewrite app_nil_r. done. }
  destruct Hrep as (junk & Hfb & Hn & Hl) eqn:Hrep'.
  assert (at_ (da_free_blocks a) (length l1) = Ok b) as ->.
  { rewrite Hfb, <- app_assoc. apply at_mid. }
  cbn [mbind res_bind]. pose proof Hok as [_ [Hb _]%Forall_cons]%Forall_app.
  rewrite block_end_eq by done. fold (bend b).
  assert (u64 (fb_offset r + fb_size r) = bend r) as ->.
  { destruct Hr as (? & ? & ?). rewrite END_val in *. unfold bend. apply u64_small. lia. }
  destruct (Z.eqb_spec (bend b) (fb_offset r)) as [E1|E1].
  { right. destruct (merge_after_spec l1 b l2 Hrep Hok E1) as (a' & bs' & -> & ?). cbn. eauto. }
  destruct (Z.eqb_spec (bend r) (fb_offset b)) as [E2|E2].
  { right. destruct (merge_before_spec l1 b l2 Hrep Hok E2) as (a' & bs' & -> & ?); [|cbn; eauto].
    eapply Forall_impl; [exact Hap|]. by intros c [? _]. }
  specialize (IH (l1 ++ [b])). rewrite <- app_assoc, length_app, Nat.add_1_r in IH. apply IH; [done|done|].
  apply Forall_app. split; [done|]. repeat constructor; done.
Qed.

Lemma insert_pos_loop_spec fb l2 junk : ∀ l1, fb = l1 ++ l2 ++ junk →
  Forall (λ c, fb_offset c < fb_offset r) l1 →
  ∃ m1 m2, insert_pos_loop (length l2) fb (length l1) (fb_offset r) = Ok (length m1) ∧ l1 ++ l2 = m1 ++ m2 ∧
    Forall (λ c, fb_offset c < fb_offset r) m1 ∧ (∀ c l, m2 = c :: l → fb_offset r ≤ fb_offset c).
Proof using.
  induction l2 as [|b l2 IH]; intros l1 -> Hl1; cbn [length insert_pos_loop].
  { exists l1, []. done. }
  cbn [app]. rewrite at_mid. cbn [mbind res_bind]. destruct (Z.ltb_spec (fb_offset b) (fb_offset r)).
  - destruct (IH (l1 ++ [b])) as (m1 & m2 & H1 & H2 & H3).
    { by rewrite <- app_assoc. }
    { apply Forall_app. split; [done|]. by constructor. }
    rewrite length_app, Nat.add_1_r in H1. exists m1, m2. rewrite <- H2, <- app_assoc. done.
  - exists l1, (b :: l2). split_and!; [done|done|done|]. by intros ? ? [= <- <-].
Qed.

(** Freeing [r]: the array stays in bounds, and the call aborts only when all
    entries are in use and none of them touches [r]. *)
Lemma free_tensor_spec bs size : repr a bs → Forall in_range bs →
  aligned_offset 0 size (da_alignment a) = fb_size r →
  (∃ a' bs', ggml_dyn_tallocr_free_tensor a (fb_offset r) size = Ok a' ∧ freed r bs bs' ∧ repr a' bs' ∧
     da_alignment a' = da_alignment a ∧ da_max_size a' = da_max_size a) ∨
  (ggml_dyn_tallocr_free_tensor a (fb_offset r) size = Err Abort ∧ length bs = MAX_FREE_BLOCKS ∧
     Forall (apart r) bs).
Proof using Hr.
  intros Hrep Hok Hsz. unfold ggml_dyn_tallocr_free_tensor. rewrite Hsz.
  pose proof (repr_length _ _ Hrep) as [Hmax Hn].
  destruct (merge_loop_spec bs [] Hrep Hok ltac:(constructor)) as [[Hml Hap]|(a' & bs' & Hml & ?)];
    cbn [length app] in Hml; rewrite Hn, Hml; cbn [mbind res_bind]; [|by left; exists a', bs'].
  destruct Hrep as (junk & Hfb & _ & Hl). unfold insert_block. rewrite Hn, Hfb.
  destruct (Nat.ltb_spec (length bs) MAX_FREE_BLOCKS) as [Hlt|Hge]; cbn [ggml_assert mbind res_bind].
  2: { right. split_and!; [done|lia|done]. }
  left. destruct (insert_pos_loop_spec (bs ++ junk) bs junk []) as (m1 & m2 & Hp & Hb & Hm1 & Hm2);
    [done|constructor|]. cbn [length app] in *. rewrite Hp. cbn [mbind res_bind]. subst bs.
  destruct junk as [|x junk]; [rewrite app_nil_r in Hl; lia|].
  replace (length (m1 ++ m2) - length m1)%nat with (length m2) by (rewrite length_app; lia).
  replace ((m1 ++ m2) ++ x :: junk) with (m1 ++ m2 ++ x :: junk) by (by rewrite <- app_assoc).
  destruct (shift_up_spec m1 m2 x junk) as (y & ->). cbn [mbind res_bind]. rewrite put_mid. cbn [mbind res_bind].
  eexists _, _. split_and!; [done|by apply freed_new| |done|done].
  assert (mk_block (fb_offset r) (fb_size r) = r) as -> by by destruct r.
  apply (repr_intro _ _ _ _ junk); [by rewrite <- app_assoc|rewrite !length_app; cbn; lia|].
  rewrite !length_app in *. cbn [length] in *. rewrite length_app. lia.
Qed.
End free_specs.

(** ** Regions

    [cover l x] is the number of blocks of [l] that contain byte [x]. *)

Definition covers (b : free_block) (x : Z) : nat :=
  if bool_decide (fb_offset b ≤ x < bend b) then 1 else 0.

Definition cover (l : list free_block) (x : Z) : nat := sum_list ((λ b, covers b x) <$> l).

Lemma cover_app l l' x : cover (l ++ l') x = (cover l x + cover l' x)%nat.
Proof. unfold cover. rewrite fmap_app. induction l; cbn; lia. Qed.

Lemma cover_cons b l x : cover (b :: l) x = (covers b x + cover l x)%nat.
Proof. done. Qed.

Lemma cover_Permutation l l' x : l ≡ₚ l' → cover l x = cover l' x.
Proof. induction 1; rewrite ?cover_cons in *; cbn in *; lia. Qed.

(** Arithmetic of [covers] over adjacent blocks. *)
Ltac solve_covers :=
  unfold covers, bend in *; cbn [fb_offset fb_size] in *;
  repeat match goal with |- context [bool_decide ?P] => destruct (bool_decide P) eqn:? end;
  repeat match goal with
  | H : bool_decide _ = true |- _ => apply bool_decide_eq_true in H
  | H : bool_decide _ = false |- _ => apply bool_decide_eq_false in H
  end; lia.

Lemma cover_rest b size x : in_range b → 0 ≤ size ≤ fb_size b →
  covers b x = (covers (mk_block (fb_offset b) size) x + cover (rest_of b size) x)%nat.
Proof.
  intros (? & ? & ?) ?. unfold rest_of. destruct (Z.eqb_spec (fb_size b - size) 0); cbn;
    rewrite ?Nat.add_0_r; solve_covers.
Qed.

Lemma cover_freed r bs bs' x : in_range r → Forall in_range bs → freed r bs bs' →
  cover bs' x = (cover bs x + covers r x)%nat ∧ Forall in_range bs'.
Proof.
  intros (? & ? & ?) Hok Hf. destruct Hf as [l1 b l2 E _|l1 b c l2 E E'|l1 b l2 E _|l1 l2 _ _ _].
  - apply Forall_app in Hok as [Hl1 [(? & ? & ?) Hl2]%Forall_cons]. unfold bend in E.
    rewrite !cover_app, !cover_cons. split.
    + enough (covers (mk_block (fb_offset b) (fb_size b + fb_size r)) x = (covers b x + covers r x)%nat) by lia.
      solve_covers.
    + apply Forall_app. split; [done|]. constructor; [|done]. unfold in_range. cbn. lia.
  - apply Forall_app in Hok as [Hl1 [(? & ? & ?) [(? & ? & ?) Hl2]%Forall_cons]%Forall_cons]. unfold bend in *.
    rewrite !cover_app, !cover_cons. split.
    + enough (covers (mk_block (fb_offset b) (fb_size b + fb_size r + fb_size c)) x =
        (covers b x + covers r x + covers c x)%nat) by lia. solve_covers.
    + apply Forall_app. split; [done|]. constructor; [|done]. unfold in_range. cbn. lia.
  - apply Forall_app in Hok as [Hl1 [(? & ? & ?) Hl2]%Forall_cons]. unfold bend in E.
    rewrite !cover_app, !cover_cons. split.
    + enough (covers (mk_block (fb_offset r) (fb_size b + fb_size r)) x = (covers b x + covers r x)%nat) by lia.
      solve_covers.
    + apply Forall_app. split; [done|]. constructor; [|done]. unfold in_range. cbn. lia.
  - rewrite !cover_app, cover_cons. split; [lia|]. apply Forall_app in Hok as [? ?].
    apply Forall_app. split; [done|]. by constructor.
Qed.

(** ** Runs

    A client allocates tensors and frees those that are live; [live] lists the
    offset and the requested size of each. *)

Inductive dyn_op : Type :=
  | DAlloc (size : Z)
  | DFree (i : nat).      (* the [i]-th live tensor *)

Definition dyn_step (st : ggml_dyn_tallocr * list (Z * Z)) (op : dyn_op)
    : res (ggml_dyn_tallocr * list (Z * Z)) :=
  let '(a, live) := st in
  match op with
  | DAlloc size => '(offset, a) ← ggml_dyn_tallocr_alloc a size; Ok (a, (offset, size) :: live)
  | DFree i =>
      match live !! i with
      | Some (offset, size) => a ← ggml_dyn_tallocr_free_tensor a offset size; Ok (a, delete i live)
      | None => Ok st
      end
  end.

Fixpoint dyn_run (st : ggml_dyn_tallocr * list (Z * Z)) (ops : list dyn_op)
    : res (ggml_dyn_tallocr * list (Z * Z)) :=
  match ops with
  | [] => Ok st
  | op :: ops => st ← dyn_step st op; dyn_run st ops
  end.

(** The alignments of buffer types are powers of two; here from 2 to 2^32. *)
Definition is_alignment (al : Z) : Prop := ∃ k, 1 ≤ k ≤ 32 ∧ al = 2 ^ k.

(** The bytes that belong to a live tensor: its size rounded up. *)
Definition region (al : Z) (p : Z * Z) : free_block := mk_block p.1 (aligned_offset 0 p.2 al).

Definition size_ok (s : Z) : Prop := 0 ≤ s < 2 ^ 62.

Lemma is_alignment_bound al : is_alignment al → 2 ≤ al ≤ 2 ^ 32.
Proof.
  intros (k & Hk & ->). split.
  - change 2 with (2 ^ 1) at 1. apply Z.pow_le_mono_r; lia.
  - apply Z.pow_le_mono_r; lia.
Qed.

Lemma END_not_aligned al : is_alignment al → ¬ (al | END).
Proof.
  intros (k & Hk & ->) Hd. assert (2 | END) as [z Hz].
  { etrans; [|exact Hd]. exists (2 ^ (k - 1)).
    replace k with (Z.succ (k - 1)) at 1 by lia. rewrite Z.pow_succ_r by lia. lia. }
  rewrite END_val in Hz. lia.
Qed.

Lemma aligned_offset_spec al base x : 0 < al ≤ 2 ^ 32 → 0 ≤ base → 0 ≤ x < 2 ^ 63 → base + x < 2 ^ 64 →
  x ≤ aligned_offset base x al < x + al ∧ (al | base + aligned_offset base x al).
Proof.
  intros Hal Hb Hx Hbx. unfold aligned_offset. rewrite (u64_small (base + x)) by lia.
  pose proof (Z.mod_pos_bound (base + x) al ltac:(lia)) as Hm.
  pose proof (Z.div_mod (base + x) al ltac:(lia)) as Hd.
  set (m := (base + x) mod al) in *. set (q := (base + x) / al) in *. clearbody m q.
  destruct (decide (m = 0)) as [->|].
  - rewrite Z.sub_0_r, Z.mod_same by lia. rewrite u64_small by lia. split; [lia|]. exists q. lia.
  - rewrite (Z.mod_small (al - m)) by lia. rewrite u64_small by lia. split; [lia|]. exists (q + 1). lia.
Qed.

Lemma aligned_size al s : is_alignment al → size_ok s →
  s ≤ aligned_offset 0 s al < s + al ∧ (al | aligned_offset 0 s al).
Proof.
  intros Hal Hs. pose proof (is_alignment_bound al Hal). unfold size_ok in Hs.
  apply (aligned_offset_spec al 0 s); lia.
Qed.

Record dyn_inv (al : Z) (a : ggml_dyn_tallocr) (live : list (Z * Z)) (bs : list free_block) : Prop := {
  di_repr  : repr a bs;
  di_al    : da_alignment a = al;
  di_range : Forall in_range bs;
  di_base  : Forall (λ b, (al | fb_offset b)) bs;
  di_live  : Forall (λ p, size_ok p.2 ∧ (al | p.1) ∧ in_range (region al p) ∧
                          bend (region al p) ≤ da_max_size a) live;
  di_cover : ∀ x, (cover bs x + cover (region al <$> live) x)%nat = if bool_decide (0 ≤ x < END) then 1%nat else 0%nat;
  di_max   : 0 ≤ da_max_size a ≤ END;
}.

Section steps.
Context (al : Z) (Hal : is_alignment al).

Lemma cover_elem l x : (0 < cover l x)%nat → ∃ b, b ∈ l ∧ fb_offset b ≤ x < bend b.
Proof.
  induction l as [|b l IH]; rewrite ?cover_cons; [cbn; lia|]. intros H.
  unfold covers in H. case_bool_decide.
  - exists b. split; [left|done].
  - destruct IH as (c & ? & ?); [lia|]. exists c. split; [by right|done].
Qed.

Lemma elem_cover l x b : b ∈ l → fb_offset b ≤ x < bend b → (1 ≤ cover l x)%nat.
Proof.
  intros Hb Hx. induction Hb as [c l|c c' l _ IH]; rewrite cover_cons.
  - unfold covers. rewrite bool_decide_true by done. lia.
  - lia.
Qed.

(** Some block is always left: no aligned region ends at END. *)
Lemma free_list_nonempty a live bs : dyn_inv al a live bs → bs ≠ [].
Proof using Hal.
  intros Hi ->. pose proof (di_cover _ _ _ _ Hi (END - 1)) as Hc.
  rewrite bool_decide_true in Hc by (rewrite END_val; lia). cbn [cover Nat.add] in Hc.
  destruct (cover_elem (region al <$> live) (END - 1)) as (b & Hb & Hx); [unfold cover in *; cbn in *; lia|].
  apply list_elem_of_fmap in Hb as (p & -> & Hp). pose proof (di_live _ _ _ _ Hi) as Hl.
  rewrite Forall_forall in Hl. destruct (Hl p Hp) as (Hs & Hd & (_ & _ & He) & _).
  pose proof (aligned_size al _ Hal Hs) as [_ Hd'].
  apply (END_not_aligned al Hal). unfold bend, region in *. cbn [fb_offset fb_size] in *.
  replace END with (p.1 + aligned_offset 0 p.2 al) by lia. by apply Z.divide_add_r.
Qed.

Lemma new_inv : ∃ a, ggml_dyn_tallocr_new al = Ok a ∧ dyn_inv al a [] [mk_block 0 END] ∧ da_max_size a = 0.
Proof using Hal.
  unfold ggml_dyn_tallocr_new, ggml_dyn_tallocr_reset. rewrite put_lt by (cbn; lia).
  cbn [mbind res_bind]. eexists. split; [done|]. split; [|done]. split.
  - apply (repr_intro _ _ _ _ (replicate 255 (mk_block 0 0))); reflexivity.
  - done.
  - constructor; [|constructor]. unfold in_range. cbn. rewrite END_val. lia.
  - constructor; [|constructor]. cbn. apply Z.divide_0_r.
  - constructor.
  - intros x. cbn. unfold covers, bend. cbn. rewrite Z.add_0_l. lia.
  - cbn. rewrite END_val. lia.
Qed.

Lemma alloc_inv a live bs s : dyn_inv al a live bs → size_ok s →
  let sz := aligned_offset 0 s al in
  (∃ l1 b l2 a', bs = l1 ++ b :: l2 ∧ fits bs sz (length l1) ∧ sz ≤ fb_size b ∧
     ggml_dyn_tallocr_alloc a s = Ok (fb_offset b, a') ∧
     da_max_size a' = Z.max (da_max_size a) (fb_offset b + sz) ∧
     dyn_inv al a' ((fb_offset b, s) :: live) (l1 ++ rest_of b sz ++ l2)) ∨
  (ggml_dyn_tallocr_alloc a s = Err Abort ∧ Forall (λ b, fb_size b < sz) bs).
Proof using Hal.
  intros Hi Hs sz. pose proof (free_list_nonempty _ _ _ Hi) as Hne.
  pose proof (aligned_size al s Hal Hs) as [Hsz Hsd]. fold sz in Hsz, Hsd. unfold size_ok in Hs.
  destruct Hi as [Hrep Ha Hr Hb Hl Hc Hm]. unfold ggml_dyn_tallocr_alloc. rewrite Ha. fold sz.
  destruct (find_block_spec a bs sz Hrep Hne Hr) as [(p & -> & Hfit)|[-> Hsmall]]; [left|by right].
  cbn [mbind res_bind]. pose proof Hfit as (b & Hbp & Hsb & _).
  apply list_elem_of_split_length in Hbp as (l1 & l2 & -> & ->).
  apply Forall_app in Hr as [Hr1 [Hrb Hr2]%Forall_cons].
  apply Forall_app in Hb as [Hb1 [Hbb Hb2]%Forall_cons].
  destruct (take_block_spec a l1 b l2 sz Hrep Hrb ltac:(lia)) as (a' & Ht & Hrep' & Ha' & Hm').
  exists l1, b, l2, a'. split_and!; [done|done|done|done|done|].
  pose proof Hrb as (Hbo & Hbs & Hbe).
  split; [done|congruence| | | | |rewrite Hm'; lia].
  - rewrite !Forall_app. split_and!; [done| |done]. unfold rest_of. case_match; repeat constructor; cbn; lia.
  - rewrite !Forall_app. split_and!; [done| |done]. unfold rest_of. case_match; repeat constructor.
    cbn. by apply Z.divide_add_r.
  - constructor.
    + cbn [fst snd]. split_and!; [done|done| |].
      * unfold in_range. cbn. fold sz. lia.
      * unfold bend. cbn. fold sz. lia.
    + eapply Forall_impl; [exact Hl|]. intros q (? & ? & ? & ?). split_and!; [done|done|done|lia].
  - intros x. rewrite <- Hc, !cover_app, fmap_cons, !cover_cons.
    rewrite (cover_rest b sz x Hrb) by lia. unfold region at 1. cbn [fst snd]. fold sz. lia.
Qed.

Lemma free_inv a live bs i o s : dyn_inv al a live bs → live !! i = Some (o, s) →
  (∃ a' bs', ggml_dyn_tallocr_free_tensor a o s = Ok a' ∧ freed (region al (o, s)) bs bs' ∧
     dyn_inv al a' (delete i live) bs' ∧ da_max_size a' = da_max_size a) ∨
  (ggml_dyn_tallocr_free_tensor a o s = Err Abort ∧ length bs = MAX_FREE_BLOCKS).
Proof using Hal.
  intros [Hrep Ha Hr Hb Hl Hc Hm] Hlk. set (r := region al (o, s)).
  pose proof Hl as Hl'. rewrite Forall_lookup in Hl'. destruct (Hl' _ _ Hlk) as (Hs & Hd & Hrr & Hre).
  fold r in Hrr, Hre.
  destruct (free_tensor_spec a r Hrr bs s Hrep Hr) as [(a' & bs' & Hf & Hfr & Hrep' & Ha' & Hm')|(Hf & Hlen & _)].
  { by rewrite Ha. }
  2: by right.
  left. exists a', bs'. split_and!; [done|done| |done]. split.
  - done.
  - congruence.
  - by apply (cover_freed r bs bs' 0).
  - clear -Hb Hd Hfr. destruct Hfr as [l1 b l2 _ _|l1 b c l2 _ _|l1 b l2 _ _|l1 l2 _ _ _];
      rewrite ?Forall_app, ?Forall_cons in *; cbn [fb_offset region fst] in *; naive_solver.
  - rewrite Hm'. by apply Forall_delete.
  - intros x. rewrite <- Hc. destruct (cover_freed r bs bs' x) as [-> _]; [done..|].
    rewrite (cover_Permutation (region al <$> live) (r :: (region al <$> delete i live))).
    + rewrite cover_cons. lia.
    + unfold r. rewrite <- fmap_cons. apply fmap_Permutation. by apply delete_Permutation.
  - by rewrite Hm'.
Qed.
End steps.

Definition op_size_ok (op : dyn_op) : Prop :=
  match op with DAlloc s => size_ok s | DFree _ => True end.

(** No byte belongs to both. *)
Definition disjoint_blocks (b c : free_block) : Prop :=
  ∀ x, ¬ (fb_offset b ≤ x < bend b ∧ fb_offset c ≤ x < bend c).

Definition start (al : Z) : res (ggml_dyn_tallocr * list (Z * Z)) :=
  a ← ggml_dyn_tallocr_new al; Ok (a, []).

Section runs.
Context (al : Z) (Hal : is_alignment al).

Lemma dyn_step_inv a live bs op : dyn_inv al a live bs → op_size_ok op →
  match dyn_step (a, live) op with
  | Ok (a', live') => ∃ bs', dyn_inv al a' live' bs'
  | Err e => e = Abort
  end.
Proof using Hal.
  intros Hi Hop. destruct op as [s|i]; cbn [dyn_step].
  - destruct (alloc_inv al Hal a live bs s Hi Hop) as [(l1 & b & l2 & a' & _ & _ & _ & -> & _ & Hi')|[-> _]];
      cbn [mbind res_bind]; [eauto|done].
  - destruct (live !! i) as [[o s]|] eqn:Hlk; [|eauto].
    destruct (free_inv al Hal a live bs i o s Hi Hlk) as [(a' & bs' & -> & _ & Hi' & _)|[-> _]];
      cbn [mbind res_bind]; [eauto|done].
Qed.

Lemma dyn_run_inv ops : ∀ a live bs, dyn_inv al a live bs → Forall op_size_ok ops →
  match dyn_run (a, live) ops with
  | Ok (a', live') => ∃ bs', dyn_inv al a' live' bs'
  | Err e => e = Abort
  end.
Proof using Hal.
  induction ops as [|op ops IH]; intros a live bs Hi Hok; cbn [dyn_run]; [eauto|].
  apply Forall_cons in Hok as [Hop Hok]. pose proof (dyn_step_inv a live bs op Hi Hop) as Hs.
  destruct (dyn_step (a, live) op) as [[a' live']|e]; cbn [mbind res_bind]; [|done].
  destruct Hs as (bs' & Hi'). by eapply IH.
Qed.

Lemma cover_two (l : list free_block) i j b c x : i ≠ j → l !! i = Some b → l !! j = Some c →
  fb_offset b ≤ x < bend b → fb_offset c ≤ x < bend c → (2 ≤ cover l x)%nat.
Proof.
  intros Hij Hi Hj Hb Hc. rewrite (cover_Permutation l (b :: delete i l)) by (by apply delete_Permutation).
  rewrite cover_cons. unfold covers at 1. rewrite bool_decide_true by done.
  pose proof (elem_cover (delete i l) x c) as H.
  enough (c ∈ delete i l) as Hin by (specialize (H Hin Hc); lia).
  destruct (decide (j < i)%nat).
  - apply (list_elem_of_lookup_2 _ j). by rewrite list_lookup_delete_lt.
  - apply (list_elem_of_lookup_2 _ (j - 1)). rewrite list_lookup_delete_ge by lia.
    by replace (S (j - 1))%nat with j by lia.
Qed.

Lemma live_disjoint a live bs i j p q : dyn_inv al a live bs → i ≠ j →
  live !! i = Some p → live !! j = Some q → disjoint_blocks (region al p) (region al q).
Proof.
  intros Hi Hij Hp Hq x [Hxp Hxq].
  assert (2 ≤ cover (region al <$> live) x)%nat as H2.
  { apply (cover_two _ i j (region al p) (region al q)); [done| | |done|done]; by rewrite list_lookup_fmap, ?Hp, ?Hq. }
  pose proof (di_cover _ _ _ _ Hi x) as Hc. case_bool_decide; lia.
Qed.

(** ** Positive sizes: the free list is canonical

    Blocks of positive size, sorted, with a gap between neighbours. *)

Definition canonical (bs : list free_block) : Prop :=
  StronglySorted (λ b c, bend b < fb_offset c) bs ∧ Forall (λ b, 0 < fb_size b) bs.

Lemma canonical_app l1 l2 : canonical (l1 ++ l2) ↔
  canonical l1 ∧ canonical l2 ∧ ∀ b c, b ∈ l1 → c ∈ l2 → bend b < fb_offset c.
Proof. unfold canonical. rewrite Forall_app, StronglySorted_app. naive_solver. Qed.

Lemma canonical_cons b l : canonical (b :: l) ↔
  0 < fb_size b ∧ canonical l ∧ ∀ c, c ∈ l → bend b < fb_offset c.
Proof.
  unfold canonical. rewrite Forall_cons, StronglySorted_cons, Forall_forall. naive_solver.
Qed.

Lemma canonical_nil : canonical [].
Proof. split; constructor. Qed.

(** Equal coverage, equal canonical lists. *)
Lemma canonical_unique l l' : canonical l → canonical l' → (∀ x, cover l x = cover l' x) → l = l'.
Proof.
  assert (∀ b m x, (∀ c, c ∈ m → bend b < fb_offset c) → x ≤ bend b → cover m x = 0%nat) as Hout.
  { intros b m x Hm Hx. destruct (cover m x) as [|k] eqn:E; [done|].
    destruct (cover_elem m x) as (c & Hc & ?); [lia|]. specialize (Hm c Hc). lia. }
  assert (∀ b m, canonical (b :: m) → (1 ≤ cover (b :: m) (fb_offset b))%nat ∧ cover (b :: m) (bend b) = 0%nat ∧
     (∀ x, x < fb_offset b → cover (b :: m) x = 0%nat) ∧
     (∀ x, fb_offset b ≤ x < bend b → cover (b :: m) x = 1%nat)) as Hhd.
  { intros b m (Hs & Hm & Hlt)%canonical_cons. unfold bend. rewrite !cover_cons. split_and!.
    - unfold covers. rewrite bool_decide_true by (unfold bend; lia). lia.
    - rewrite (Hout b m) by (done || unfold bend; lia). unfold covers. rewrite bool_decide_false by (unfold bend; lia). lia.
    - intros x Hx. rewrite cover_cons, (Hout b m) by (done || unfold bend; lia).
      unfold covers. rewrite bool_decide_false by (unfold bend; lia). lia.
    - intros x Hx. rewrite cover_cons, (Hout b m) by (done || unfold bend; lia).
      unfold covers. rewrite bool_decide_true by (unfold bend; lia). lia. }
  revert l'. induction l as [|b l IH]; intros [|c l'] Hl Hl' Hc.
  - done.
  - destruct (Hhd c l' Hl') as (H & _). rewrite <- Hc in H. cbn in H. lia.
  - destruct (Hhd b l Hl) as (H & _). rewrite Hc in H. cbn in H. lia.
  - destruct (Hhd b l Hl) as (Hb1 & Hb2 & Hb3 & Hb4), (Hhd c l' Hl') as (Hc1 & Hc2 & Hc3 & Hc4).
    assert (fb_offset b = fb_offset c) as Ho.
    { destruct (Z.lt_trichotomy (fb_offset b) (fb_offset c)) as [H|[?|H]]; [|done|].
      - apply Hc3 in H. rewrite <- Hc in H. lia.
      - apply Hb3 in H. rewrite Hc in H. lia. }
    apply canonical_cons in Hl as (Hbs & Hl & Hbl). apply canonical_cons in Hl' as (Hcs & Hl' & Hcl).
    assert (bend b = bend c) as He.
    { destruct (Z.lt_trichotomy (bend b) (bend c)) as [H|[?|H]]; [|done|]; unfold bend in *.
      - pose proof (Hc4 (fb_offset b + fb_size b) ltac:(lia)) as H'. rewrite <- Hc in H'. lia.
      - pose proof (Hb4 (fb_offset c + fb_size c) ltac:(lia)) as H'. rewrite Hc in H'. lia. }
    assert (b = c) as -> by (destruct b, c; unfold bend in *; cbn in *; f_equal; lia).
    f_equal. apply IH; [done|done|]. intros x. specialize (Hc x). rewrite !cover_cons in Hc. lia.
Qed.

Lemma canonical_alloc l1 b l2 sz : canonical (l1 ++ b :: l2) → 0 < sz ≤ fb_size b →
  canonical (l1 ++ rest_of b sz ++ l2).
Proof.
  intros (H1 & (Hb & H2 & Hb2)%canonical_cons & H12)%canonical_app Hsz. unfold rest_of.
  destruct (Z.eqb_spec (fb_size b - sz) 0); cbn [app]; apply canonical_app.
  - split_and!; [done|done|]. intros c d ? ?. apply H12; [done|by right].
  - split_and!; [done|apply canonical_cons; split_and!; cbn; [lia|done|]|].
    + intros c Hc. specialize (Hb2 c Hc). unfold bend in *. cbn. lia.
    + intros c d Hc [->|Hd]%elem_of_cons; [|apply H12; [done|by right]].
      specialize (H12 c b Hc ltac:(left)). cbn. lia.
Qed.

(** A freed region does not overlap the free blocks. *)
Lemma canonical_freed r bs bs' : in_range r → 0 < fb_size r → canonical bs → Forall in_range bs →
  (∀ b, b ∈ bs → bend b ≤ fb_offset r ∨ bend r ≤ fb_offset b) →
  freed r bs bs' → canonical bs'.
Proof.
  intros Hr Hrs Hcan Hok Hdis Hf. destruct Hf as [l1 b l2 E Hn|l1 b c l2 E E'|l1 b l2 E Hn|l1 l2 Hap Hlo Hhi].
  - apply canonical_app in Hcan as (H1 & (Hb & H2 & Hb2)%canonical_cons & H12).
    apply canonical_app. split_and!; [done|apply canonical_cons; split_and!; cbn; [lia|done|]|].
    + intros d Hd. unfold bend at 1. cbn. unfold bend in E.
      assert (bend r < fb_offset d) as Hlt; [|unfold bend in Hlt; lia].
      destruct l2 as [|c l2]; [by apply elem_of_nil in Hd|].
      assert (bend r < fb_offset c) as Hc.
      { specialize (Hn c l2 eq_refl). specialize (Hb2 c ltac:(left)).
        destruct (Hdis c) as [?|?]; [apply elem_of_app; right; right; left| |lia].
        apply canonical_cons in H2 as (? & _). unfold bend in *. lia. }
      apply elem_of_cons in Hd as [->|Hd]; [done|].
      apply canonical_cons in H2 as (? & _ & H2). specialize (H2 d Hd). unfold bend in *. lia.
    + intros c d Hc [->|Hd]%elem_of_cons; [cbn; apply (H12 c b); [done|left]|apply H12; [done|by right]].
  - apply canonical_app in Hcan as (H1 & (Hb & (Hc & H2 & Hc2)%canonical_cons & Hb2)%canonical_cons & H12).
    apply canonical_app. split_and!; [done|apply canonical_cons; split_and!; cbn; [lia|done|]|].
    + intros d Hd. specialize (Hc2 d Hd). unfold bend in *. cbn. lia.
    + intros d e Hd [->|He]%elem_of_cons; [cbn; apply (H12 d b); [done|left]|apply H12; [done|by do 2 right]].
  - apply canonical_app in Hcan as (H1 & (Hb & H2 & Hb2)%canonical_cons & H12).
    apply canonical_app. split_and!; [done|apply canonical_cons; split_and!; cbn; [lia|done|]|].
    + intros d Hd. specialize (Hb2 d Hd). unfold bend in *. cbn. lia.
    + intros d e Hd [->|He]%elem_of_cons; [|apply H12; [done|by right]]. cbn.
      specialize (H12 d b Hd ltac:(left)). rewrite Forall_forall in Hn. specialize (Hn d Hd).
      destruct (Hdis d) as [?|Hbad]; [apply elem_of_app; by left|lia|].
      assert (0 < fb_size d) by by apply (proj1 (Forall_forall _ _) (proj2 H1)).
      unfold bend in *. lia.
  - pose proof Hcan as (H1 & H2 & H12)%canonical_app.
    rewrite Forall_forall in Hap, Hlo. apply canonical_app. split_and!; [done|apply canonical_cons; split_and!; [done|done|]|].
    + assert (∀ d, d ∈ l2 → fb_offset r ≤ fb_offset d) as Hge.
      { intros d Hd. destruct l2 as [|c l2]; [by apply elem_of_nil in Hd|]. specialize (Hhi c l2 eq_refl).
        apply elem_of_cons in Hd as [->|Hd]; [done|].
        apply canonical_cons in H2 as (? & _ & H2). specialize (H2 d Hd). unfold bend in *. lia. }
      intros d Hd. assert (d ∈ l1 ++ l2) as Hin by (apply elem_of_app; by right).
      destruct (Hap d Hin) as [_ Ha], (Hdis d Hin) as [?|?]; [|lia]. specialize (Hge d Hd).
      assert (0 < fb_size d) by by apply (proj1 (Forall_forall _ _) (proj2 H2)). unfold bend in *. lia.
    + intros c d Hc [->|Hd]%elem_of_cons; [|by apply H12].
      assert (c ∈ l1 ++ l2) as Hin by (apply elem_of_app; by left).
      destruct (Hap c Hin) as [Ha _], (Hdis c Hin) as [?|?]; [lia|]. specialize (Hlo c Hc). cbn in Hlo.
      unfold bend in *. lia.
Qed.

Lemma canonical_end bs b : canonical bs → b ∈ bs → cover bs (bend b) = 0%nat.
Proof.
  intros Hcan Hb. destruct (cover bs (bend b)) as [|k] eqn:E; [done|].
  destruct (cover_elem bs (bend b)) as (c & Hc & Hx); [lia|].
  apply list_elem_of_split in Hb as (l1 & l2 & ->).
  apply canonical_app in Hcan as (H1 & (Hs & H2 & Hb2)%canonical_cons & H12).
  apply elem_of_app in Hc as [Hc|[->|Hc]%elem_of_cons].
  - specialize (H12 c b Hc ltac:(left)). unfold bend in *. lia.
  - lia.
  - specialize (Hb2 c Hc). lia.
Qed.

(** A run of free bytes lies inside one free block. *)
Lemma gap_in_block bs x sz : canonical bs → 0 < sz →
  (∀ y, x ≤ y < x + sz → (1 ≤ cover bs y)%nat) → ∃ b, b ∈ bs ∧ fb_offset b ≤ x ∧ x + sz ≤ bend b.
Proof.
  intros Hcan Hsz Hc. destruct (cover_elem bs x) as (b & Hb & Hx); [apply Hc; lia|].
  exists b. split_and!; [done|lia|]. apply Z.le_ngt. intros ?.
  specialize (Hc (bend b) ltac:(lia)). rewrite canonical_end in Hc by done. lia.
Qed.

(** Between two neighbouring free blocks lies a live tensor, and a different one
    for each pair of neighbours. *)
Lemma blocks_le_live a live bs : dyn_inv al a live bs → canonical bs → (length bs ≤ length live + 1)%nat.
Proof.
  intros Hi Hcan. set (rs := region al <$> live).
  assert (∀ i b, (S i < length bs)%nat → bs !! i = Some b → ∃ j p, live !! j = Some p ∧
     fb_offset (region al p) ≤ bend b < bend (region al p)) as Hex.
  { intros i b Hlt Hb. assert (b ∈ bs) as Hin by by eapply list_elem_of_lookup_2.
    destruct (lookup_lt_is_Some_2 bs (S i) Hlt) as [c Hc].
    pose proof (StronglySorted_lookup _ _ i (S i) b c (proj1 Hcan) ltac:(lia) Hb Hc) as Hbc. cbn in Hbc.
    pose proof (di_cover _ _ _ _ Hi (bend b)) as Hcov. rewrite canonical_end in Hcov by done.
    pose proof (di_range _ _ _ _ Hi) as Hr. rewrite Forall_lookup in Hr.
    destruct (Hr _ _ Hb) as (? & ? & ?), (Hr _ _ Hc) as (? & ? & ?).
    rewrite bool_decide_true in Hcov by (unfold bend in *; lia).
    destruct (cover_elem rs (bend b)) as (r & (p & -> & Hp)%list_elem_of_fmap & Hx); [fold rs in Hcov; lia|].
    apply list_elem_of_lookup in Hp as [j Hj]. eauto. }
  destruct (decide (length bs = 0)%nat) as [|Hne]; [lia|].
  assert (∃ f : nat → nat, ∀ i b, (S i < length bs)%nat → bs !! i = Some b →
    ∃ p, live !! f i = Some p ∧ fb_offset (region al p) ≤ bend b < bend (region al p)) as [f Hf].
  { exists (λ i, match bs !! i with
      | Some b => default 0%nat (fst <$> list_find (λ p, fb_offset (region al p) ≤ bend b < bend (region al p)) live)
      | None => 0%nat end).
    intros i b Hlt Hb. rewrite Hb. destruct (Hex i b Hlt Hb) as (j & p & Hj & Hx).
    destruct (list_find_elem_of (λ p, fb_offset (region al p) ≤ bend b < bend (region al p)) live p) as [[k q] Hk];
      [by eapply list_elem_of_lookup_2|done|]. rewrite Hk. cbn. apply list_find_Some in Hk as (? & ? & _). eauto. }
  enough (NoDup (f <$> seq 0 (length bs - 1)) ∧ (f <$> seq 0 (length bs - 1)) ⊆ seq 0 (length live)) as [Hnd Hsub].
  { assert (length (f <$> seq 0 (length bs - 1)) ≤ length (seq 0 (length live)))%nat as H
      by by apply submseteq_length, NoDup_submseteq.
    rewrite length_fmap, !length_seq in H. lia. }
  assert (∀ i i', (i < i')%nat → (S i' < length bs)%nat → f i ≠ f i') as Hinj.
  { intros i i' Hlt Hi' E.
    destruct (lookup_lt_is_Some_2 bs i ltac:(lia)) as [b Hb], (lookup_lt_is_Some_2 bs i' ltac:(lia)) as [b' Hb'].
    destruct (Hf i b ltac:(lia) Hb) as (p & Hp & Hx), (Hf i' b' ltac:(lia) Hb') as (p' & Hp' & Hx').
    rewrite E in Hp. simplify_eq.
    pose proof (StronglySorted_lookup _ _ i i' b b' (proj1 Hcan) Hlt Hb Hb') as Hbb. cbn in Hbb.
    assert (b' ∈ bs) as Hin' by by eapply list_elem_of_lookup_2.
    assert (0 < fb_size b') by by apply (proj1 (Forall_forall _ _) (proj2 Hcan)).
    pose proof (di_cover _ _ _ _ Hi (fb_offset b')) as Hcov.
    pose proof (elem_cover bs (fb_offset b') b' Hin' ltac:(unfold bend in *; lia)).
    pose proof (elem_cover (region al <$> live) (fb_offset b') (region al p)) as H2.
    assert (region al p ∈ region al <$> live) as Hpin by (apply list_elem_of_fmap_2; by eapply list_elem_of_lookup_2).
    specialize (H2 Hpin ltac:(unfold bend in *; lia)). case_bool_decide; lia. }
  split.
  - apply NoDup_fmap_2_strong; [|apply NoDup_seq]. intros i i' H1%elem_of_seq H2%elem_of_seq E.
    destruct (Nat.lt_trichotomy i i') as [H|[|H]]; [|done|].
    + by destruct (Hinj i i' H ltac:(lia)).
    + by destruct (Hinj i' i H ltac:(lia)).
  - intros j (i & -> & Hin%elem_of_seq)%list_elem_of_fmap. apply elem_of_seq.
    destruct (lookup_lt_is_Some_2 bs i ltac:(lia)) as [b Hb].
    destruct (Hf i b ltac:(lia) Hb) as (p & Hp%lookup_lt_Some & _). lia.
Qed.

Definition op_positive (op : dyn_op) : Prop :=
  match op with DAlloc s => 0 < s < 2 ^ 62 | DFree _ => True end.

Lemma region_positive p : 0 < p.2 < 2 ^ 62 → 0 < fb_size (region al p).
Proof using Hal.
  intros Hp. pose proof (aligned_size al p.2 Hal ltac:(unfold size_ok; lia)). cbn. lia.
Qed.

Definition pos_inv (a : ggml_dyn_tallocr) (live : list (Z * Z)) (bs : list free_block) : Prop :=
  dyn_inv al a live bs ∧ canonical bs ∧ Forall (λ p, 0 < p.2) live.

Lemma pos_free a live bs i o s : pos_inv a live bs → live !! i = Some (o, s) →
  (∃ a' bs', ggml_dyn_tallocr_free_tensor a o s = Ok a' ∧ pos_inv a' (delete i live) bs') ∨
  (ggml_dyn_tallocr_free_tensor a o s = Err Abort ∧ length bs = MAX_FREE_BLOCKS).
Proof using Hal.
  intros (Hi & Hcan & Hpos) Hlk.
  destruct (free_inv al Hal a live bs i o s Hi Hlk) as [(a' & bs' & Hf & Hfr & Hi' & _)|?]; [left|by right].
  exists a', bs'. split; [done|]. split_and!; [done| |by apply Forall_delete].
  pose proof (di_live _ _ _ _ Hi) as Hl. rewrite Forall_lookup in Hl, Hpos.
  destruct (Hl _ _ Hlk) as (Hs & _ & Hrr & _). specialize (Hpos _ _ Hlk). unfold size_ok in Hs.
  apply (canonical_freed (region al (o, s)) bs); [done| |done|apply (di_range _ _ _ _ Hi)| |done].
  { apply region_positive. lia. }
  intros b Hb. assert (0 < fb_size b) by by apply (proj1 (Forall_forall _ _) (proj2 Hcan)).
  pose proof (region_positive (o, s) ltac:(lia)) as Hrp.
  destruct (decide (bend b ≤ fb_offset (region al (o, s)) ∨ bend (region al (o, s)) ≤ fb_offset b)) as [|Hn]; [done|].
  exfalso. set (x := Z.max (fb_offset b) (fb_offset (region al (o, s)))).
  pose proof (elem_cover bs x b Hb ltac:(unfold bend in *; lia)).
  pose proof (elem_cover (region al <$> live) x (region al (o, s))) as H2.
  assert (region al (o, s) ∈ region al <$> live) as Hin
    by (apply list_elem_of_fmap_2; by eapply list_elem_of_lookup_2).
  specialize (H2 Hin ltac:(unfold bend in *; lia)).
  pose proof (di_cover _ _ _ _ Hi x). case_bool_decide; lia.
Qed.

Lemma pos_run ops : ∀ a live bs a' live', pos_inv a live bs → Forall op_positive ops →
  dyn_run (a, live) ops = Ok (a', live') → ∃ bs', pos_inv a' live' bs'.
Proof using Hal.
  induction ops as [|op ops IH]; intros a live bs a' live' Hp Hok Hrun; cbn [dyn_run] in Hrun.
  { simplify_eq. eauto. }
  apply Forall_cons in Hok as [Hop Hok]. destruct op as [s|i]; cbn [dyn_step] in Hrun.
  - destruct Hp as (Hi & Hcan & Hpos). cbn in Hop.
    pose proof (aligned_size al s Hal ltac:(unfold size_ok; lia)).
    destruct (alloc_inv al Hal a live bs s Hi ltac:(unfold size_ok; lia))
      as [(l1 & b & l2 & a1 & -> & _ & Hle & Hal' & _ & Hi')|[Hal' _]]; rewrite Hal' in Hrun; [|done].
    cbn [mbind res_bind] in Hrun. eapply (IH a1); [|done|exact Hrun]. split_and!; [exact Hi'| |].
    + apply canonical_alloc; [done|lia].
    + constructor; [cbn; lia|done].
  - destruct (live !! i) as [[o s]|] eqn:Hlk; [|by eapply IH].
    destruct (pos_free a live bs i o s Hp Hlk) as [(a1 & bs1 & Hf & Hp1)|[Hf _]]; rewrite Hf in Hrun; [|done].
    cbn [mbind res_bind] in Hrun. by eapply (IH a1).
Qed.

Lemma start_run ops a live : Forall op_positive ops →
  (st ← start al; dyn_run st ops) = Ok (a, live) → ∃ bs, pos_inv a live bs.
Proof using Hal.
  intros Hok Hrun. destruct (new_inv al Hal) as (a0 & Hnew & Hi & _). unfold start in Hrun. rewrite Hnew in Hrun.
  cbn [mbind res_bind] in Hrun. eapply (pos_run ops a0 [] [mk_block 0 END]); [|done|done].
  split_and!; [done| |constructor]. apply canonical_cons. split_and!; [done|apply canonical_nil|].
  by intros c Hc%elem_of_nil.
Qed.

(** A request is served from the best gap whenever some gap is large enough. *)
Lemma pos_alloc a live bs s x : pos_inv a live bs → 0 < s < 2 ^ 62 →
  let sz := aligned_offset 0 s al in
  0 ≤ x → x + sz ≤ END → (∀ y, x ≤ y < x + sz → cover (region al <$> live) y = 0%nat) →
  ∃ o a', ggml_dyn_tallocr_alloc a s = Ok (o, a') ∧
    ∃ p b, bs !! p = Some b ∧ fb_offset b = o ∧ fits bs sz p.
Proof using Hal.
  intros (Hi & Hcan & _) Hs sz Hx Hxe Hfree.
  pose proof (region_positive (0, s) Hs) as Hsz. cbn in Hsz. fold sz in Hsz.
  destruct (gap_in_block bs x sz Hcan Hsz) as (b & Hb & Hb1 & Hb2).
  { intros y Hy. pose proof (di_cover _ _ _ _ Hi y) as Hc. rewrite (Hfree y Hy) in Hc.
    rewrite bool_decide_true in Hc by lia. lia. }
  destruct (alloc_inv al Hal a live bs s Hi ltac:(unfold size_ok; lia))
    as [(l1 & c & l2 & a' & -> & Hfit & _ & Ha & _)|[_ Hsmall]].
  - exists (fb_offset c), a'. split; [done|]. exists (length l1), c.
    split_and!; [by apply list_lookup_middle|done|done].
  - rewrite Forall_forall in Hsmall. specialize (Hsmall b Hb). fold sz in Hsmall. unfold bend in Hb2. lia.
Qed.
End runs.

(** ** The claims *)

(** C27. Run any sequence of allocations and frees of live tensors on a new
    allocator, empty tensors included.  It returns or stops in [GGML_ABORT]; it
    never reads or writes outside the array of free blocks, and no offset
    computation wraps.  Afterwards no byte belongs to two live tensors, every
    live tensor starts at a multiple of the alignment and holds at least its
    size, and the buffer size reported by [ggml_dyn_tallocr_max_size] covers
    every live tensor. *)
Theorem dyn_alloc_exclusive (al : Z) (ops : list dyn_op) :
  is_alignment al → Forall op_size_ok ops →
  match (st ← start al; dyn_run st ops) with
  | Ok (a, live) =>
      (∀ i j p q, i ≠ j → live !! i = Some p → live !! j = Some q →
         disjoint_blocks (region al p) (region al q)) ∧
      Forall (λ p, 0 ≤ p.1 ∧ (al | p.1) ∧ p.2 ≤ fb_size (region al p) ∧
         p.1 + fb_size (region al p) ≤ ggml_dyn_tallocr_max_size a ≤ END) live
  | Err e => e = Abort
  end.
Proof.
  intros Hal Hok. destruct (new_inv al Hal) as (a0 & Hnew & Hi0 & _). unfold start. rewrite Hnew.
  cbn [mbind res_bind]. pose proof (dyn_run_inv al Hal ops a0 [] _ Hi0 Hok) as Hrun.
  destruct (dyn_run (a0, []) ops) as [[a live]|e]; [|done]. destruct Hrun as (bs & Hi). split.
  - intros i j p q Hij Hp Hq. by eapply live_disjoint.
  - eapply Forall_impl; [apply (di_live _ _ _ _ Hi)|]. intros p (Hs & Hd & (? & _ & _) & Hm).
    pose proof (aligned_size al p.2 Hal Hs). pose proof (di_max _ _ _ _ Hi).
    unfold bend, region, ggml_dyn_tallocr_max_size in *. cbn [fb_offset fb_size] in *. split_and!; [done|done|lia|lia|lia].
Qed.

(** The blocks that are in use in the array. *)
Definition free_list (a : ggml_dyn_tallocr) : list free_block :=
  take a.(da_n_free_blocks) a.(da_free_blocks).

Lemma repr_free_list a bs : repr a bs → free_list a = bs.
Proof. intros (junk & Hfb & Hn & _). unfold free_list. rewrite Hfb, Hn. by rewrite take_app_length. Qed.

(** C28. With tensors of positive size the free list is a function of the live
    tensors: two runs, however different, that leave the same tensors live leave
    the same free list, sorted and with no two blocks touching.  So an
    allocation followed by its free restores the list, freeing everything gives
    back the one initial block, and there is at most one free block more than
    there are live tensors. *)
Theorem dyn_free_list_canonical (al : Z) (ops ops' : list dyn_op) a a' live live' :
  is_alignment al → Forall op_positive ops → Forall op_positive ops' →
  (st ← start al; dyn_run st ops) = Ok (a, live) →
  (st ← start al; dyn_run st ops') = Ok (a', live') →
  live ≡ₚ live' →
  free_list a = free_list a' ∧
  StronglySorted (λ b c, bend b < fb_offset c) (free_list a) ∧
  (length (free_list a) ≤ length live + 1)%nat.
Proof.
  intros Hal Hok Hok' Hrun Hrun' Hperm.
  destruct (start_run al Hal ops a live Hok Hrun) as (bs & Hi & Hcan & _).
  destruct (start_run al Hal ops' a' live' Hok' Hrun') as (bs' & Hi' & Hcan' & _).
  rewrite (repr_free_list _ _ (di_repr _ _ _ _ Hi)), (repr_free_list _ _ (di_repr _ _ _ _ Hi')).
  split_and!; [|apply Hcan|by eapply blocks_le_live].
  apply canonical_unique; [done|done|]. intros x.
  pose proof (di_cover _ _ _ _ Hi x) as H1. pose proof (di_cover _ _ _ _ Hi' x) as H2.
  rewrite (cover_Permutation (region al <$> live) (region al <$> live')) in H1 by by apply fmap_Permutation.
  lia.
Qed.

(** C29. Requests are served when they can be.  After any run with tensors of
    positive size, an allocation succeeds if any run of free bytes below END is
    long enough, wherever it is; it takes the front of the smallest free block
    that fits, the last block only if no other fits.  Freeing a live tensor
    succeeds as long as at most 254 tensors are live. *)
Theorem dyn_requests_served (al : Z) (ops : list dyn_op) a live :
  is_alignment al → Forall op_positive ops →
  (st ← start al; dyn_run st ops) = Ok (a, live) →
  (∀ s x, 0 < s < 2 ^ 62 → 0 ≤ x → x + aligned_offset 0 s al ≤ END →
     (∀ y, x ≤ y < x + aligned_offset 0 s al → cover (region al <$> live) y = 0%nat) →
     ∃ o a' p b, ggml_dyn_tallocr_alloc a s = Ok (o, a') ∧
       free_list a !! p = Some b ∧ fb_offset b = o ∧ fits (free_list a) (aligned_offset 0 s al) p) ∧
  ((length live ≤ 254)%nat → ∀ i o s, live !! i = Some (o, s) →
     ∃ a', ggml_dyn_tallocr_free_tensor a o s = Ok a').
Proof.
  intros Hal Hok Hrun. destruct (start_run al Hal ops a live Hok Hrun) as (bs & Hp).
  pose proof Hp as (Hi & Hcan & _). rewrite (repr_free_list _ _ (di_repr _ _ _ _ Hi)). split.
  - intros s x Hs Hx Hxe Hf. destruct (pos_alloc al Hal a live bs s x Hp Hs Hx Hxe Hf) as (o & a' & Ha & p & b & ?).
    by exists o, a', p, b.
  - intros Hlen i o s Hlk. destruct (pos_free al Hal a live bs i o s Hp Hlk) as [(a' & _ & -> & _)|[_ Hfull]]; [eauto|].
    pose proof (blocks_le_live al a live bs Hi Hcan) as H. rewrite Hfull in H. unfold MAX_FREE_BLOCKS in H. lia.
Qed.

(** *** On concrete runs *)

Definition run_example : list dyn_op :=
  [DAlloc 100; DAlloc 300; DAlloc 50; DAlloc 64; DFree 2; DAlloc 200; DFree 3; DAlloc 0; DFree 0].

(** Tensors of 50, 64 and 200 bytes are live; the last one is in the gap left
    by the tensor of 300 bytes. *)
Example run_example_live :
  (st ← start 32; snd <$> dyn_run st run_example) = Ok [(128, 200); (512, 64); (448, 50)].
Proof. vm_compute. reflexivity. Qed.

Lemma is_alignment_32 : is_alignment 32.
Proof. by exists 5. Qed.

Lemma dyn_alloc_exclusive_witness :
  is_alignment 32 ∧ Forall op_size_ok run_example ∧
  match (st ← start 32; dyn_run st run_example) with
  | Ok (a, live) =>
      (∀ i j p q, i ≠ j → live !! i = Some p → live !! j = Some q →
         disjoint_blocks (region 32 p) (region 32 q)) ∧
      Forall (λ p, 0 ≤ p.1 ∧ (32 | p.1) ∧ p.2 ≤ fb_size (region 32 p) ∧
         p.1 + fb_size (region 32 p) ≤ ggml_dyn_tallocr_max_size a ≤ END) live
  | Err e => e = Abort
  end.
Proof.
  assert (Forall op_size_ok run_example) as H by (repeat constructor; cbn; unfold size_ok; lia).
  split_and!; [exact is_alignment_32|exact H|].
  apply (dyn_alloc_exclusive 32 run_example is_alignment_32 H).
Defined.

Definition run_a : list dyn_op := [DAlloc 100; DAlloc 300; DAlloc 50; DFree 1].
Definition run_b : list dyn_op := [DAlloc 100; DAlloc 290; DFree 0; DAlloc 320; DAlloc 50; DAlloc 7; DFree 0; DFree 1].

Definition end_a : ggml_dyn_tallocr * list (Z * Z) :=
  match (st ← start 32; dyn_run st run_a) with Ok r => r | Err _ => (mk_dyn 0 0 [] 0, []) end.
Definition end_b : ggml_dyn_tallocr * list (Z * Z) :=
  match (st ← start 32; dyn_run st run_b) with Ok r => r | Err _ => (mk_dyn 0 0 [] 0, []) end.

Lemma run_ends :
  (st ← start 32; dyn_run st run_a) = Ok (end_a.1, end_a.2) ∧
  (st ← start 32; dyn_run st run_b) = Ok (end_b.1, end_b.2) ∧
  end_a.2 = end_b.2.
Proof. vm_compute. done. Qed.

Lemma runs_positive : Forall op_positive run_a ∧ Forall op_positive run_b.
Proof. split; repeat constructor; cbn; lia. Qed.

Lemma dyn_free_list_canonical_witness :
  end_a.2 ≡ₚ end_b.2 ∧ free_list end_a.1 = free_list end_b.1.
Proof.
  assert (end_a.2 ≡ₚ end_b.2) as Hp by (rewrite (proj2 (proj2 run_ends)); reflexivity).
  split; [exact Hp|].
  apply (dyn_free_list_canonical 32 run_a run_b end_a.1 end_b.1 end_a.2 end_b.2 is_alignment_32
    (proj1 runs_positive) (proj2 runs_positive) (proj1 run_ends) (proj1 (proj2 run_ends)) Hp).
Defined.

Lemma dyn_requests_served_witness :
  (∃ o a' p b, ggml_dyn_tallocr_alloc end_a.1 300 = Ok (o, a') ∧
     free_list end_a.1 !! p = Some b ∧ fb_offset b = o ∧ fits (free_list end_a.1) 320 p) ∧
  ∃ a', ggml_dyn_tallocr_free_tensor end_a.1 448 50 = Ok a'.
Proof.
  pose proof (dyn_requests_served 32 run_a end_a.1 end_a.2 is_alignment_32
    (proj1 runs_positive) (proj1 run_ends)) as [H1 H2].
  split.
  - apply (H1 300 128); [lia|lia|vm_compute; discriminate|].
    intros y Hy. change (aligned_offset 0 300 32) with 320 in Hy.
    change (region 32 <$> end_a.2) with [mk_block 448 64; mk_block 0 128].
    unfold cover, covers, bend. cbn. rewrite !bool_decide_false by lia. reflexivity.
  - apply (H2 ltac:(vm_compute; lia) 0%nat). vm_compute. reflexivity.
Defined.
