(* ===== verification/Graph.v ===== *)
(** * Tensors and compute graphs (ggml/include/ggml.h, ggml/src/ggml.c)

    A tensor is a record at an address; the tensors of a program are a finite
    map [T] from addresses to records, and a null pointer is the address 0.  The
    fields are those that building, allocating and scheduling a graph read:
    names, op parameters, NUMA mirrors and the data itself are left out.

    A compute graph lists its nodes and leafs in the order in which
    [ggml_visit_parents] pushed them, and remembers what it visited in a hash
    set.  The arrays [nodes] and [leafs] are the lists of their first [n_nodes]
    and [n_leafs] entries; [size] is their capacity.  The recursion of
    [ggml_visit_parents] takes fuel; every nested call has inserted a new key,
    so the number of tensors plus one is enough. *)
From S2P Require Import Prelude HashSet.

(** ** Tensors *)

Inductive ggml_op : Type :=
  | GGML_OP_NONE | GGML_OP_DUP | GGML_OP_ADD | GGML_OP_ADD_ID | GGML_OP_ADD1 | GGML_OP_ACC
  | GGML_OP_SUB | GGML_OP_MUL | GGML_OP_DIV | GGML_OP_SQR | GGML_OP_SQRT | GGML_OP_LOG
  | GGML_OP_SUM | GGML_OP_SUM_ROWS | GGML_OP_MEAN | GGML_OP_ARGMAX | GGML_OP_REPEAT
  | GGML_OP_REPEAT_BACK | GGML_OP_CONCAT | GGML_OP_SILU_BACK | GGML_OP_NORM | GGML_OP_RMS_NORM
  | GGML_OP_RMS_NORM_BACK | GGML_OP_GROUP_NORM | GGML_OP_FUSED_RMS_NORM | GGML_OP_FUSED_MUL_UNARY
  | GGML_OP_MULTI_ADD | GGML_OP_MUL_MAT | GGML_OP_MUL_MAT_ID | GGML_OP_OUT_PROD
  | GGML_OP_FUSED_UP_GATE | GGML_OP_MOE_FUSED_UP_GATE | GGML_OP_MUL_MULTI_ADD | GGML_OP_HADAMARD
  | GGML_OP_SCALE | GGML_OP_SET | GGML_OP_CPY | GGML_OP_CONT | GGML_OP_RESHAPE | GGML_OP_VIEW
  | GGML_OP_PERMUTE | GGML_OP_TRANSPOSE | GGML_OP_GET_ROWS | GGML_OP_GET_ROWS_BACK
  | GGML_OP_SET_ROWS | GGML_OP_DIAG | GGML_OP_DIAG_MASK_INF | GGML_OP_DIAG_MASK_ZERO
  | GGML_OP_SOFT_MAX | GGML_OP_SOFT_MAX_BACK | GGML_OP_ROPE | GGML_OP_ROPE_BACK
  | GGML_OP_ROPE_CACHE | GGML_OP_ROPE_FAST | GGML_OP_CLAMP | GGML_OP_CONV_TRANSPOSE_1D
  | GGML_OP_IM2COL | GGML_OP_CONV_TRANSPOSE_2D | GGML_OP_POOL_1D | GGML_OP_POOL_2D
  | GGML_OP_UPSCALE | GGML_OP_PAD | GGML_OP_ARANGE | GGML_OP_TIMESTEP_EMBEDDING | GGML_OP_ARGSORT
  | GGML_OP_ARGSORT_THRESH | GGML_OP_GROUPED_TOPK | GGML_OP_LEAKY_RELU | GGML_OP_SOFTCAP
  | GGML_OP_SOFT_CAP_MAX | GGML_OP_CONV_2D | GGML_OP_CONV_2D_DW | GGML_OP_FLASH_ATTN_EXT
  | GGML_OP_FLASH_ATTN_BACK | GGML_OP_SSM_CONV | GGML_OP_SSM_SCAN | GGML_OP_WIN_PART
  | GGML_OP_WIN_UNPART | GGML_OP_GET_REL_POS | GGML_OP_ADD_REL_POS | GGML_OP_UNARY | GGML_OP_CUMSUM
  | GGML_OP_L2_NORM | GGML_OP_TRI | GGML_OP_FILL | GGML_OP_SOLVE_TRI | GGML_OP_DELTA_NET
  | GGML_OP_MAP_UNARY | GGML_OP_MAP_BINARY | GGML_OP_MAP_CUSTOM1_F32 | GGML_OP_MAP_CUSTOM2_F32
  | GGML_OP_MAP_CUSTOM3_F32 | GGML_OP_MAP_CUSTOM1 | GGML_OP_MAP_CUSTOM2 | GGML_OP_MAP_CUSTOM3
  | GGML_OP_CROSS_ENTROPY_LOSS | GGML_OP_CROSS_ENTROPY_LOSS_BACK | GGML_OP_GLU | GGML_OP_REDUCE
  | GGML_OP_FAKE_CPY | GGML_OP_FUSED_NORM | GGML_OP_FUSED_RMS_RMS_ADD | GGML_OP_BLEND
  | GGML_OP_INDEXER_TOPK | GGML_OP_MASK_TOPK | GGML_OP_SINKHORN | GGML_OP_HC_PRE | GGML_OP_HC_POST
  | GGML_OP_MASK_TO_IDX | GGML_OP_LATENT_ATTN | GGML_OP_DS4_COMP | GGML_OP_COUNT.

#[global] Instance ggml_op_eq_dec : EqDecision ggml_op.
Proof. solve_decision. Defined.

Definition NULL : ptr := 0.

Definition GGML_MAX_SRC : nat := 16.

Definition GGML_TENSOR_FLAG_INPUT  : Z := 1.
Definition GGML_TENSOR_FLAG_OUTPUT : Z := 2.

Record ggml_tensor : Type := mk_tensor {
  t_type     : Z;
  t_ne       : list Z;      (* GGML_MAX_DIMS numbers of elements *)
  t_nb       : list Z;      (* GGML_MAX_DIMS strides *)
  t_op       : ggml_op;
  t_flags    : Z;
  t_grad     : ptr;
  t_src      : list ptr;    (* GGML_MAX_SRC entries, NULL where there is none *)
  t_view_src : ptr;
  t_view_offs : Z;
  t_data     : ptr;
  t_buffer   : ptr;
}.

#[global] Instance ggml_tensor_eq_dec : EqDecision ggml_tensor.
Proof. solve_decision. Defined.

(** The tensors of the program, by address. *)
Abbreviation tensors := (gmap ptr ggml_tensor).

(** [*p]: undefined when no tensor is at [p]. *)
Definition deref (T : tensors) (p : ptr) : res ggml_tensor :=
  match T !! p with Some t => Ok t | None => Err Oob end.

Definition is_null (p : ptr) : bool := p =? NULL.

(** ** Compute graphs *)

Inductive ggml_cgraph_eval_order : Type :=
  | GGML_CGRAPH_EVAL_ORDER_LEFT_TO_RIGHT
  | GGML_CGRAPH_EVAL_ORDER_RIGHT_TO_LEFT
  | GGML_CGRAPH_EVAL_ORDER_COUNT.

Record ggml_cgraph : Type := mk_cgraph {
  cg_size    : nat;
  cg_nodes   : list ptr;
  cg_grads   : option (list ptr);
  cg_leafs   : list ptr;
  cg_visited : ggml_hash_set;
  cg_order   : ggml_cgraph_eval_order;
}.

Definition with_visited (g : ggml_cgraph) (hs : ggml_hash_set) : ggml_cgraph :=
  mk_cgraph g.(cg_size) g.(cg_nodes) g.(cg_grads) g.(cg_leafs) hs g.(cg_order).

(** The sources in the order in which they are visited. *)
Definition visit_order (o : ggml_cgraph_eval_order) (src : list ptr) : list ptr :=
  match o with
  | GGML_CGRAPH_EVAL_ORDER_LEFT_TO_RIGHT => src
  | GGML_CGRAPH_EVAL_ORDER_RIGHT_TO_LEFT => reverse src
  | GGML_CGRAPH_EVAL_ORDER_COUNT => src
  end.

Definition push_leaf (g : ggml_cgraph) (p : ptr) : res ggml_cgraph :=
  _ ← ggml_assert (length g.(cg_leafs) <? g.(cg_size))%nat;
  Ok (mk_cgraph g.(cg_size) g.(cg_nodes) g.(cg_grads) (g.(cg_leafs) ++ [p]) g.(cg_visited) g.(cg_order)).

Definition push_node (g : ggml_cgraph) (p grad : ptr) : res ggml_cgraph :=
  _ ← ggml_assert (length g.(cg_nodes) <? g.(cg_size))%nat;
  Ok (mk_cgraph g.(cg_size) (g.(cg_nodes) ++ [p]) ((λ gs, gs ++ [grad]) <$> g.(cg_grads))
        g.(cg_leafs) g.(cg_visited) g.(cg_order)).

(** [op == GGML_OP_NONE && grad == NULL]. *)
Definition is_leaf (t : ggml_tensor) : bool :=
  bool_decide (t.(t_op) = GGML_OP_NONE) && is_null t.(t_grad).

Definition push (g : ggml_cgraph) (p : ptr) (t : ggml_tensor) : res ggml_cgraph :=
  if is_leaf t then push_leaf g p else push_node g p t.(t_grad).

(** [for (i...) if (src[k]) visit(src[k])]. *)
Fixpoint visit_all (visit : ggml_cgraph → ptr → res ggml_cgraph) (g : ggml_cgraph) (src : list ptr)
    : res ggml_cgraph :=
  match src with
  | [] => Ok g
  | p :: src => g ← (if is_null p then Ok g else visit g p); visit_all visit g src
  end.

Fixpoint ggml_visit_parents (fuel : nat) (T : tensors) (g : ggml_cgraph) (node : ptr) : res ggml_cgraph :=
  match fuel with
  | O => Err NoFuel
  | S fuel =>
      t ← deref T node;
      '(i, visited) ← ggml_hash_insert g.(cg_visited) node;
      let g := with_visited g visited in
      if i =? GGML_HASHSET_ALREADY_EXISTS then Ok g
      else
        g ← visit_all (ggml_visit_parents fuel T) g (visit_order g.(cg_order) t.(t_src));
        push g node t
  end.

Definition visit_fuel (T : tensors) : nat := S (size T).

Definition ggml_graph_clear (g : ggml_cgraph) : ggml_cgraph :=
  mk_cgraph g.(cg_size) [] ((λ _, []) <$> g.(cg_grads)) [] (ggml_hash_set_reset g.(cg_visited)) g.(cg_order).

Definition ggml_build_forward_impl (T : tensors) (g : ggml_cgraph) (tensor : ptr) (expand : bool)
    : res ggml_cgraph :=
  let g := if expand then g else ggml_graph_clear g in
  let n0 := length g.(cg_nodes) in
  g ← ggml_visit_parents (visit_fuel T) T g tensor;
  let n_new := (length g.(cg_nodes) - n0)%nat in
  _ ← (if (0 <? n_new)%nat then ggml_assert (bool_decide (last g.(cg_nodes) = Some tensor)) else Ok tt);
  Ok g.

Definition ggml_build_forward_expand (T : tensors) (g : ggml_cgraph) (tensor : ptr) : res ggml_cgraph :=
  ggml_build_forward_impl T g tensor true.

(** The keys of a new graph lie in the memory of the context: not initialised. *)
Definition ggml_new_graph_custom (size : nat) (grads : bool) : res ggml_cgraph :=
  hash_size ← ggml_hash_size (u64 (Z.of_nat size * 2));
  let hs := mk_hash_set hash_size
              (replicate (Z.to_nat (ggml_bitset_size hash_size)) 0)
              (replicate (Z.to_nat hash_size) None) in
  Ok (mk_cgraph size [] (if grads then Some [] else None) [] (ggml_hash_set_reset hs)
        GGML_CGRAPH_EVAL_ORDER_LEFT_TO_RIGHT).

Definition ggml_graph_node (g : ggml_cgraph) (i : Z) : res ptr :=
  if i <? 0 then
    _ ← ggml_assert (0 <=? Z.of_nat (length g.(cg_nodes)) + i);
    at_ g.(cg_nodes) (Z.to_nat (Z.of_nat (length g.(cg_nodes)) + i))
  else
    _ ← ggml_assert (i <? Z.of_nat (length g.(cg_nodes)));
    at_ g.(cg_nodes) (Z.to_nat i).

(** [for (i...) if (src->keys[i]) ggml_hash_insert(dst, src->keys[i])]. *)
Fixpoint copy_keys (k : nat) (src : ggml_hash_set) (i : Z) (dst : ggml_hash_set) : res ggml_hash_set :=
  match k with
  | O => Ok dst
  | S k =>
      key ← key_at src i;
      dst ← (if is_null key then Ok dst else '(_, dst) ← ggml_hash_insert dst key; Ok dst);
      copy_keys k src (i + 1) dst
  end.

Definition ggml_graph_cpy (src dst : ggml_cgraph) : res ggml_cgraph :=
  _ ← ggml_assert (length src.(cg_leafs) <=? dst.(cg_size))%nat;
  _ ← ggml_assert (length src.(cg_nodes) <=? dst.(cg_size))%nat;
  _ ← ggml_assert (src.(cg_visited).(hs_size) <=? dst.(cg_visited).(hs_size));
  grads ← match src.(cg_grads) with
          | None => Ok dst.(cg_grads)
          | Some gs => _ ← ggml_assert (bool_decide (is_Some dst.(cg_grads))); Ok (Some gs)
          end;
  visited ← copy_keys (Z.to_nat src.(cg_visited).(hs_size)) src.(cg_visited) 0 dst.(cg_visited);
  Ok (mk_cgraph dst.(cg_size) src.(cg_nodes) grads src.(cg_leafs) visited src.(cg_order)).

Definition ggml_graph_dup (g : ggml_cgraph) : res ggml_cgraph :=
  result ← ggml_new_graph_custom g.(cg_size) (bool_decide (is_Some g.(cg_grads)));
  ggml_graph_cpy g result.

(** ** Well-formed programs *)

(** [q] is a source of the tensor at [p]. *)
Definition is_src (T : tensors) (q p : ptr) : Prop :=
  ∃ t, T !! p = Some t ∧ q ∈ t.(t_src) ∧ q ≠ NULL.

(** The tensors a computation from [p] depends on. *)
Definition reaches (T : tensors) : ptr → ptr → Prop := rtc (λ p q, is_src T q p).

(** Addresses are non-null 64-bit values, sources are tensors, constants have no
    sources, and [rank] shows that the sources of a tensor do not depend on it. *)
Record tensors_ok (T : tensors) (rank : ptr → nat) : Prop := {
  to_ptr  : ∀ p, is_Some (T !! p) → ptr_ok p ∧ p ≠ NULL;
  to_src  : ∀ p q, is_src T q p → is_Some (T !! q) ∧ (rank q < rank p)%nat;
  to_leaf : ∀ p q t, T !! p = Some t → is_leaf t = true → ¬ is_src T q p;
}.

(** What [ggml_visit_parents] maintains: [G] are the tensors it has entered and
    not left. *)
Record graph_inv (T : tensors) (N : nat) (G : list ptr) (g : ggml_cgraph) : Prop := {
  gi_hash  : hash_wf g.(cg_visited) N;
  gi_elems : ∀ p, p ∈ elems g.(cg_visited) N ↔ p ∈ g.(cg_leafs) ++ g.(cg_nodes) ++ G;
  gi_nodup : NoDup (g.(cg_leafs) ++ g.(cg_nodes) ++ G);
  gi_dom   : ∀ p, p ∈ g.(cg_leafs) ++ g.(cg_nodes) ++ G → is_Some (T !! p);
  gi_leafs : ∀ p t, p ∈ g.(cg_leafs) → T !! p = Some t → is_leaf t = true;
  gi_nodes : ∀ p t, p ∈ g.(cg_nodes) → T !! p = Some t → is_leaf t = false;
  gi_topo  : ∀ i p q, g.(cg_nodes) !! i = Some p → is_src T q p →
               q ∈ g.(cg_leafs) ∨ q ∈ take i g.(cg_nodes);
  gi_size  : (length g.(cg_leafs) ≤ g.(cg_size) ∧ length g.(cg_nodes) ≤ g.(cg_size))%nat;
}.

(** [g'] is [g] with leafs [l] and nodes [n] pushed. *)
Definition extends (T : tensors) (p : ptr) (g g' : ggml_cgraph) : Prop :=
  cg_size g' = cg_size g ∧ cg_order g' = cg_order g ∧
  ∃ l n, cg_leafs g' = cg_leafs g ++ l ∧ cg_nodes g' = cg_nodes g ++ n ∧ Forall (reaches T p) (l ++ n).

Definition pushed (g : ggml_cgraph) : list ptr := cg_leafs g ++ cg_nodes g.

Section graphs.
Context (T : tensors) (N : nat).

Lemma extends_refl p g : extends T p g g.
Proof. split_and!; [done|done|]. exists [], []. rewrite !app_nil_r. done. Qed.

Lemma extends_trans p q g g' g'' : extends T p g g' → extends T q g' g'' → reaches T p q → extends T p g g''.
Proof.
  intros (S1 & O1 & l & n & L1 & N1 & R1) (S2 & O2 & l' & n' & L2 & N2 & R2) Hpq.
  split_and!; [congruence|congruence|]. exists (l ++ l'), (n ++ n').
  rewrite L2, N2, L1, N1, <- !app_assoc. split_and!; [done|done|].
  rewrite !Forall_app in *. destruct R1, R2. split_and!; [done| |done|].
  all: eapply Forall_impl; [eassumption|]; intros x ?; by etrans.
Qed.

Lemma extends_pushed p g g' x : extends T p g g' → x ∈ pushed g → x ∈ pushed g'.
Proof. intros (_ & _ & l & n & L & Nn & _). unfold pushed. rewrite L, Nn. set_solver. Qed.

Lemma graph_inv_length g G : graph_inv T N G g → (length (pushed g) + length G ≤ size T)%nat.
Proof.
  intros Hi. rewrite <- size_dom, <- length_app. unfold pushed. rewrite <- app_assoc.
  pose proof (gi_nodup _ _ _ _ Hi) as Hnd.
  rewrite <- (size_list_to_set (C := gset ptr) _ Hnd).
  apply subseteq_size. intros p Hp%elem_of_list_to_set. apply elem_of_dom. by apply (gi_dom _ _ _ _ Hi).
Qed.

(** Entering a tensor: it is visited, or it is new, or the table is full. *)
Lemma enter_spec g G p : graph_inv T N G g → is_Some (T !! p) → ptr_ok p →
  (p ∈ cg_leafs g ++ cg_nodes g ++ G ∧
     ggml_hash_insert g.(cg_visited) p = Ok (GGML_HASHSET_ALREADY_EXISTS, g.(cg_visited))) ∨
  ((p ∉ cg_leafs g ++ cg_nodes g ++ G) ∧ ∃ i hs, ggml_hash_insert g.(cg_visited) p = Ok (i, hs) ∧
     (i =? GGML_HASHSET_ALREADY_EXISTS) = false ∧ graph_inv T N (p :: G) (with_visited g hs)) ∨
  (ggml_hash_insert g.(cg_visited) p = Err Abort ∧ (N < size T)%nat).
Proof.
  intros Hi Hp Hpok. pose proof Hi as [Hwf He Hnd Hdom Hlf Hnodes Htopo Hsz].
  destruct (insert_cases _ _ p Hwf ltac:(apply Hpok)) as
    [[Hin ->]|[(Hin & _ & i & hs & -> & Hne & Hwf' & He')|(Hin & Hle & ->)]]; rewrite He in Hin; [left|right; left|right; right].
  - done.
  - split; [done|]. exists i, hs. split_and!; [done|done|].
    assert (p :: cg_leafs g ++ cg_nodes g ++ G ≡ₚ cg_leafs g ++ cg_nodes g ++ p :: G) as Hperm by solve_Permutation.
    split; cbn [with_visited cg_visited cg_leafs cg_nodes cg_size]; [done| | | |done|done|done|done].
    + intros q. rewrite He', elem_of_union, elem_of_singleton, He, <- Hperm, elem_of_cons. done.
    + rewrite <- Hperm. by constructor.
    + intros q. rewrite <- Hperm, elem_of_cons. intros [->|?]; auto.
  - split; [done|]. rewrite <- size_dom.
    assert (elems (cg_visited g) N ⊂ dom T) as Hlt%subset_size; [|lia].
    split.
    + intros q Hq%He. apply elem_of_dom. auto.
    + intros Hsub. apply Hin, He. apply Hsub. by apply elem_of_dom.
Qed.
End graphs.

Section visit.
Context (T : tensors) (rank : ptr → nat) (N : nat).
Hypothesis HT : tensors_ok T rank.

(** The two ways a visit stops in an assertion. *)
Definition too_small (size_ : nat) : Prop := (N < size T)%nat ∨ (size_ < size T)%nat.

Definition visited_ok (G : list ptr) (g : ggml_cgraph) (p : ptr) (r : res ggml_cgraph) : Prop :=
  (∃ g', r = Ok g' ∧ graph_inv T N G g' ∧ extends T p g g' ∧ p ∈ pushed g' ∧
     (cg_nodes g' = cg_nodes g ∨ last (cg_nodes g') = Some p)) ∨
  (r = Err Abort ∧ too_small (cg_size g)).

Lemma extends_length p g g' : extends T p g g' → (length (pushed g) ≤ length (pushed g'))%nat.
Proof. intros (_ & _ & l & n & L & Nn & _). unfold pushed. rewrite L, Nn, !length_app. lia. Qed.

Lemma visit_all_spec (fuel : nat) (G : list ptr) (p : ptr) :
  (∀ g q, graph_inv T N (p :: G) g → is_Some (T !! q) → (∀ x, x ∈ p :: G → (rank q < rank x)%nat) →
     (size T < fuel + length (pushed g) + length (p :: G))%nat →
     visited_ok (p :: G) g q (ggml_visit_parents fuel T g q)) →
  (∀ x, x ∈ G → (rank p < rank x)%nat) →
  ∀ l g, (∀ q, q ∈ l → q ≠ NULL → is_src T q p) → graph_inv T N (p :: G) g →
    (size T < fuel + length (pushed g) + length (p :: G))%nat →
    (∃ g', visit_all (ggml_visit_parents fuel T) g l = Ok g' ∧ graph_inv T N (p :: G) g' ∧ extends T p g g' ∧
       (∀ q, q ∈ l → q ≠ NULL → q ∈ pushed g') ∧ ((∀ q, q ∈ l → q = NULL) → g' = g)) ∨
    (visit_all (ggml_visit_parents fuel T) g l = Err Abort ∧ too_small (cg_size g)).
Proof using HT.
  intros IH HG. induction l as [|q l IHl]; intros g Hl Hi Hf; cbn [visit_all].
  { left. exists g. split_and!; [done|done|apply extends_refl|by intros q Hq%elem_of_nil|done]. }
  assert (∀ q0, q0 ∈ l → q0 ≠ NULL → is_src T q0 p) as Hl' by (intros; apply Hl; [by right|done]).
  unfold is_null. destruct (Z.eqb_spec q NULL) as [->|Hq]; cbn [mbind res_bind].
  - destruct (IHl g Hl' Hi Hf) as [(g' & -> & Hi' & Hx & Hin & Hnil)|H]; [left; exists g'|by right].
    split_and!; [done|done|done| |].
    + intros x [->|?]%elem_of_cons ?; [done|auto].
    + intros Hall. apply Hnil. intros x ?. apply Hall. by right.
  - pose proof (Hl q ltac:(left) Hq) as Hsrc. destruct (to_src _ _ HT p q Hsrc) as [Hq' Hrk].
    destruct (IH g q Hi Hq') as [(g1 & -> & Hi1 & Hx1 & Hin1 & _)|[-> Hsm]]; cbn [mbind res_bind].
    + intros x [->|Hx]%elem_of_cons; [done|]. specialize (HG x Hx). lia.
    + done.
    + assert (extends T p g g1) as Hx1'.
      { eapply (extends_trans T p q); [apply extends_refl|exact Hx1|]. by apply rtc_once. }
      destruct (IHl g1 Hl' Hi1) as [(g' & -> & Hi' & Hx & Hin & _)|[-> Hsm]].
      * pose proof (extends_length _ _ _ Hx1). lia.
      * left. exists g'. split_and!; [done|done| | |].
        -- eapply (extends_trans T p p); [exact Hx1'|exact Hx|done].
        -- intros x [->|?]%elem_of_cons ?; [|auto]. by eapply extends_pushed.
        -- intros Hall. destruct Hq. apply Hall. left.
      * right. split; [done|]. destruct Hx1 as (<- & _). done.
    + by right.
Qed.

(** Leaving a tensor: it moves from the entered ones to the leafs or nodes. *)
Lemma push_spec G g p t : graph_inv T N (p :: G) g → T !! p = Some t →
  (∀ q, is_src T q p → q ∈ pushed g) →
  (∃ g', push g p t = Ok g' ∧ graph_inv T N G g' ∧ extends T p g g' ∧ p ∈ pushed g' ∧
     if is_leaf t then cg_nodes g' = cg_nodes g else last (cg_nodes g') = Some p) ∨
  (push g p t = Err Abort ∧ (cg_size g < size T)%nat).
Proof using HT.
  intros Hi Ht Hsrc. pose proof (graph_inv_length _ _ _ _ Hi) as Hlen.
  destruct Hi as [Hwf He Hnd Hdom Hlf Hnodes Htopo [Hs1 Hs2]].
  assert (cg_leafs g ++ cg_nodes g ++ p :: G ≡ₚ (cg_leafs g ++ [p]) ++ cg_nodes g ++ G) as Hp1 by solve_Permutation.
  assert (cg_leafs g ++ cg_nodes g ++ p :: G ≡ₚ cg_leafs g ++ (cg_nodes g ++ [p]) ++ G) as Hp2 by solve_Permutation.
  unfold pushed in *. rewrite length_app in Hlen. cbn [length] in Hlen.
  unfold push. destruct (is_leaf t) eqn:Hleaf; unfold push_leaf, push_node.
  - destruct (Nat.ltb_spec (length (cg_leafs g)) (cg_size g)); cbn [ggml_assert mbind res_bind]; [left|right; split; [done|lia]].
    eexists. split; [done|]. split_and!; cbn [cg_nodes cg_leafs].
    + split; cbn [cg_nodes cg_leafs cg_size cg_visited]; try done.
      * intros q. by rewrite He, Hp1.
      * by rewrite <- Hp1.
      * intros q. rewrite <- Hp1. auto.
      * intros q u [Hq|Hq%list_elem_of_singleton]%elem_of_app Hu; [eauto|subst; congruence].
      * intros i q r Hq Hr. destruct (Htopo i q r Hq Hr); [left; apply elem_of_app; by left|by right].
      * rewrite length_app. cbn. lia.
    + split_and!; [done|done|]. exists [p], []. rewrite app_nil_r. split_and!; [done|done|].
      constructor; [apply rtc_refl|constructor].
    + set_solver.
    + done.
  - destruct (Nat.ltb_spec (length (cg_nodes g)) (cg_size g)); cbn [ggml_assert mbind res_bind]; [left|right; split; [done|lia]].
    eexists. split; [done|]. split_and!; cbn [cg_nodes cg_leafs].
    + split; cbn [cg_nodes cg_leafs cg_size cg_visited]; try done.
      * intros q. by rewrite He, Hp2.
      * by rewrite <- Hp2.
      * intros q. rewrite <- Hp2. auto.
      * intros q u [Hq|Hq%list_elem_of_singleton]%elem_of_app Hu; [eauto|subst; congruence].
      * intros i q r Hq Hr. apply lookup_snoc_Some in Hq as [[Hi Hq]|[Hi ->]].
        -- destruct (Htopo i q r Hq Hr); [by left|right]. by rewrite take_app_le by lia.
        -- rewrite Hi, take_app_length. by apply elem_of_app, Hsrc.
      * rewrite length_app. cbn. lia.
    + split_and!; [done|done|]. exists [], [p]. rewrite app_nil_r. split_and!; [done|done|].
      constructor; [apply rtc_refl|constructor].
    + set_solver.
    + by rewrite last_snoc.
Qed.

Lemma visit_spec (fuel : nat) : ∀ G g p,
  graph_inv T N G g → is_Some (T !! p) → (∀ x, x ∈ G → (rank p < rank x)%nat) →
  (size T < fuel + length (pushed g) + length G)%nat →
  visited_ok G g p (ggml_visit_parents fuel T g p).
Proof using HT.
  induction fuel as [|fuel IH]; intros G g p Hi Hp HG Hf.
  { pose proof (graph_inv_length _ _ _ _ Hi). lia. }
  destruct Hp as [t Ht]. destruct (to_ptr _ _ HT p ltac:(eauto)) as [Hpok _].
  cbn [ggml_visit_parents]. unfold deref. rewrite Ht. cbn [mbind res_bind].
  destruct (enter_spec T N g G p Hi ltac:(eauto) Hpok) as
    [[Hin ->]|[(Hnin & i & hs & -> & Hne & Hi1)|[-> Hsm]]]; cbn [mbind res_bind].
  - rewrite Z.eqb_refl. left. exists g.
    assert (with_visited g (cg_visited g) = g) as -> by by destruct g.
    split_and!; [done|done|apply extends_refl| |by left].
    unfold pushed. apply elem_of_app. apply elem_of_app in Hin as [?|[?|Hg]%elem_of_app]; [by left|by right|].
    specialize (HG p Hg). lia.
  - rewrite Hne. set (g1 := with_visited g hs) in *.
    assert (∀ q, q ∈ visit_order (cg_order g1) (t_src t) ↔ q ∈ t_src t) as Hord.
    { intros q. destruct (cg_order g1); cbn; [done|apply elem_of_reverse|done]. }
    destruct (visit_all_spec fuel G p ltac:(intros; apply IH; auto) HG (visit_order (cg_order g1) (t_src t)) g1)
      as [(g2 & -> & Hi2 & Hx2 & Hin2 & Hnil)|[-> Hsm]]; cbn [mbind res_bind].
    + intros q Hq%Hord ?. by exists t.
    + done.
    + cbn [length]. change (pushed g1) with (pushed g). lia.
    + destruct (push_spec G g2 p t Hi2 Ht) as [(g3 & -> & Hi3 & Hx3 & Hin3 & Hlast)|[-> Hsm]].
      * intros q (t' & Ht' & Hq & Hn). apply Hin2; [|done]. apply Hord. congruence.
      * left. exists g3. split_and!; [done|done| |done|].
        -- eapply (extends_trans T p p); [exact Hx2|exact Hx3|done].
        -- destruct (is_leaf t) eqn:Hleaf; [left|by right]. rewrite Hlast, Hnil; [done|].
           intros q Hq%Hord. destruct (decide (q = NULL)) as [|Hn]; [done|].
           destruct (to_leaf _ _ HT p q t Ht Hleaf). by exists t.
      * right. split; [done|]. right. destruct Hx2 as (Hs & _). rewrite Hs in Hsm. exact Hsm.
    + by right.
  - right. split; [done|by left].
Qed.
End visit.

(** ** Building graphs *)

(** [ggml_build_forward_expand] for each of [ts]. *)
Fixpoint build_all (T : tensors) (g : ggml_cgraph) (ts : list ptr) : res ggml_cgraph :=
  match ts with
  | [] => Ok g
  | t :: ts => g ← ggml_build_forward_expand T g t; build_all T g ts
  end.

Section build.
Context (T : tensors) (rank : ptr → nat) (N : nat).
Hypothesis HT : tensors_ok T rank.

Lemma new_graph_eq (sz : nat) (grads : bool) :
  ggml_new_graph_custom sz grads =
    hs ← ggml_hash_set_new (u64 (Z.of_nat sz * 2));
    Ok (mk_cgraph sz [] (if grads then Some [] else None) [] (ggml_hash_set_reset hs)
          GGML_CGRAPH_EVAL_ORDER_LEFT_TO_RIGHT).
Proof. unfold ggml_new_graph_custom, ggml_hash_set_new. by destruct (ggml_hash_size _). Qed.

Lemma empty_graph_inv (sz n : nat) grads order hs : hash_wf hs n → (∀ i, slot hs i = None) →
  graph_inv T n [] (mk_cgraph sz [] grads [] hs order).
Proof.
  intros Hwf Hno. split; cbn [cg_visited cg_leafs cg_nodes cg_size app].
  - done.
  - intros p. rewrite elem_of_elems, elem_of_nil by done. split; [|done]. intros (i & Hi). by rewrite Hno in Hi.
  - constructor.
  - by intros p Hp%elem_of_nil.
  - by intros p t Hp%elem_of_nil.
  - by intros p t Hp%elem_of_nil.
  - done.
  - cbn. lia.
Qed.

Lemma new_graph_inv (sz : nat) (grads : bool) : Z.of_nat sz < 2 ^ 58 →
  ∃ g n, ggml_new_graph_custom sz grads = Ok g ∧ graph_inv T n [] g ∧ cg_size g = sz ∧ pushed g = [] ∧ (sz * 2 ≤ n)%nat.
Proof.
  intros Hsz. rewrite new_graph_eq, u64_small by lia.
  destruct (ggml_hash_set_new_spec (Z.of_nat sz * 2) ltac:(lia)) as (hs & n & -> & _ & Hle & Hwf & _).
  destruct (reset_spec _ n Hwf) as [Hwf' Hno']. cbn [mbind res_bind].
  eexists _, n. split; [reflexivity|]. split_and!; [by apply empty_graph_inv|reflexivity|reflexivity|lia].
Qed.

Lemma expand_spec g p : graph_inv T N [] g → is_Some (T !! p) →
  (∃ g', ggml_build_forward_expand T g p = Ok g' ∧ graph_inv T N [] g' ∧ extends T p g g' ∧ p ∈ pushed g') ∨
  (ggml_build_forward_expand T g p = Err Abort ∧ too_small T N (cg_size g)).
Proof using HT.
  intros Hi Hp. unfold ggml_build_forward_expand, ggml_build_forward_impl.
  destruct (visit_spec T rank N HT (visit_fuel T) [] g p Hi Hp) as
    [(g' & -> & Hi' & Hx & Hin & Hlast)|[-> Hsm]]; cbn [mbind res_bind].
  - by intros x Hx%elem_of_nil.
  - unfold visit_fuel. lia.
  - left. exists g'. split_and!; [|done|done|done].
    destruct (Nat.ltb_spec 0 (length (cg_nodes g') - length (cg_nodes g))); [|done].
    destruct Hlast as [E|E]; [rewrite E in *; lia|]. by rewrite E, bool_decide_true.
  - by right.
Qed.

Lemma build_all_spec ts : ∀ g, graph_inv T N [] g → Forall (λ p, is_Some (T !! p)) ts →
  (∃ g', build_all T g ts = Ok g' ∧ graph_inv T N [] g' ∧ (∀ p, p ∈ pushed g → p ∈ pushed g') ∧
     (∀ p, p ∈ ts → p ∈ pushed g') ∧
     (∀ p, p ∈ pushed g' → p ∈ pushed g ∨ ∃ t, t ∈ ts ∧ reaches T t p)) ∨
  (build_all T g ts = Err Abort ∧ too_small T N (cg_size g)).
Proof using HT.
  induction ts as [|t ts IH]; intros g Hi Hts; cbn [build_all].
  { left. exists g. split_and!; [done|done|done|by intros p Hp%elem_of_nil|by left]. }
  apply Forall_cons in Hts as [Ht Hts].
  destruct (expand_spec g t Hi Ht) as [(g1 & -> & Hi1 & Hx1 & Hin1)|[-> Hsm]]; cbn [mbind res_bind]; [|by right].
  destruct (IH g1 Hi1 Hts) as [(g2 & -> & Hi2 & Hold & Hin2 & Hnew)|[-> Hsm]].
  - left. exists g2. split_and!; [done|done| | |].
    + intros p ?. by eapply Hold, extends_pushed.
    + intros p [->|?]%elem_of_cons; auto.
    + intros p Hp. destruct (Hnew p Hp) as [Hp1|(u & ? & ?)].
      * destruct Hx1 as (_ & _ & l & n & L & Nn & HF). unfold pushed in *. rewrite L, Nn in Hp1.
        rewrite Forall_forall in HF.
        assert (p ∈ cg_leafs g ++ cg_nodes g ∨ p ∈ l ++ n) as [?|Hln] by set_solver; [by left|].
        right. exists t. split; [left|by apply HF].
      * right. exists u. split; [by right|done].
  - right. split; [done|]. destruct Hx1 as (Hs & _). rewrite Hs in Hsm. exact Hsm.
Qed.

Lemma pushed_closed g p q : graph_inv T N [] g → p ∈ pushed g → is_src T q p → q ∈ pushed g.
Proof using HT.
  intros Hi Hp Hq. unfold pushed in *. apply elem_of_app in Hp as [Hp|Hp].
  - destruct Hq as (t & Ht & Hq). destruct (to_leaf _ _ HT p q t Ht); [by eapply gi_leafs|by exists t].
  - apply list_elem_of_lookup in Hp as [i Hp]. destruct (gi_topo _ _ _ _ Hi i p q Hp Hq) as [?|Ht].
    + set_solver.
    + apply elem_of_app. right. apply elem_of_take in Ht as (j & Hj & _). by eapply list_elem_of_lookup_2.
Qed.
End build.

(** ** A decision procedure for well-formed programs *)

Definition tensor_ok (T : tensors) (rank : ptr → nat) (p : ptr) (t : ggml_tensor) : Prop :=
  (0 < p < 2 ^ 64) ∧
  Forall (λ q, q = NULL ∨ (is_Some (T !! q) ∧ (rank q < rank p)%nat)) t.(t_src) ∧
  (is_leaf t = true → Forall (λ q, q = NULL) t.(t_src)).

#[global] Instance tensor_ok_dec T rank p t : Decision (tensor_ok T rank p t).
Proof. unfold tensor_ok. apply _. Defined.

Lemma tensors_ok_intro T rank : map_Forall (tensor_ok T rank) T → tensors_ok T rank.
Proof.
  intros H. split.
  - intros p [t Ht]. destruct (H p t Ht) as (Hp & _). unfold ptr_ok, NULL. lia.
  - intros p q (t & Ht & Hq & Hn). destruct (H p t Ht) as (_ & Hs & _).
    rewrite Forall_forall in Hs. by destruct (Hs q Hq).
  - intros p q t Ht Hl (t' & Ht' & Hq & Hn). destruct (H p t Ht) as (_ & _ & Hs).
    specialize (Hs Hl). rewrite Forall_forall in Hs. simplify_eq. auto.
Qed.

(** ** The claims *)

(** C30. Building a graph.  Let the tensors of a program have no cyclic dependencies
    and let a new graph have room for all of them.  Then
    [ggml_build_forward_expand], called for any tensors in turn, returns (the
    recursion ends, no assertion fails, the visited set never overflows), and
    the graph holds exactly the tensors that these depend on, each once, the
    constants among the leafs and the others among the nodes, every node after
    all of its sources. *)
Theorem build_forward_topological (T : tensors) (rank : ptr → nat) (sz : nat) (grads : bool) (ts : list ptr) :
  tensors_ok T rank → (size T ≤ sz)%nat → Z.of_nat sz < 2 ^ 58 → Forall (λ p, is_Some (T !! p)) ts →
  ∃ g, (g ← ggml_new_graph_custom sz grads; build_all T g ts) = Ok g ∧
    (∀ p, p ∈ cg_leafs g ++ cg_nodes g ↔ ∃ t, t ∈ ts ∧ reaches T t p) ∧
    NoDup (cg_leafs g ++ cg_nodes g) ∧
    (∀ p t, T !! p = Some t → (p ∈ cg_leafs g → is_leaf t = true) ∧ (p ∈ cg_nodes g → is_leaf t = false)) ∧
    (∀ i p q, cg_nodes g !! i = Some p → is_src T q p → q ∈ cg_leafs g ∨ q ∈ take i (cg_nodes g)).
Proof.
  intros HT Hsz Hb Hts. destruct (new_graph_inv T sz grads Hb) as (g0 & n & -> & Hi0 & Hsz0 & Hp0 & Hn).
  cbn [mbind res_bind].
  destruct (build_all_spec T rank n HT ts g0 Hi0 Hts) as [(g & -> & Hi & _ & Hin & Hnew)|[_ [?|?]]]; [|lia|lia].
  exists g. split; [done|]. pose proof Hi as [_ _ Hnd _ Hlf Hnd' Htopo _]. rewrite app_nil_r in Hnd.
  split_and!; [|done|naive_solver|done]. intros p. split.
  - intros Hp. destruct (Hnew p Hp) as [Hp'|?]; [|done]. rewrite Hp0 in Hp'. by apply elem_of_nil in Hp'.
  - intros (t & Ht & Hr). specialize (Hin t Ht). clear Ht Hnew. change (p ∈ pushed g).
    induction Hr as [|t u p Htu _ IH]; [done|]. apply IH. by eapply pushed_closed.
Qed.

(** A small program: [n2 = w1 * x], [n3 = n2 + x] (may work in place of [n2]),
    [n4] a view of [n3], [n5 = scale n4], [n6 = n5 + n3], [n7 = rms_norm n6] the
    output. *)
Definition ex_src (l : list ptr) : list ptr := l ++ replicate (GGML_MAX_SRC - length l) NULL.

Definition ex_tensor (op : ggml_op) (flags : Z) (src : list ptr) (view_src : ptr) : ggml_tensor :=
  mk_tensor 0 [8; 2; 1; 1] [4; 32; 64; 64] op flags NULL (ex_src src) view_src 0 NULL NULL.

Definition ex_tensors : tensors := list_to_map [
  (0x1000, ex_tensor GGML_OP_NONE 1 [] NULL);
  (0x1100, ex_tensor GGML_OP_NONE 0 [] NULL);
  (0x1200, ex_tensor GGML_OP_MUL_MAT 0 [0x1100; 0x1000] NULL);
  (0x1300, ex_tensor GGML_OP_ADD 0 [0x1200; 0x1000] NULL);
  (0x1400, ex_tensor GGML_OP_VIEW 0 [0x1300] 0x1300);
  (0x1500, ex_tensor GGML_OP_SCALE 0 [0x1400] NULL);
  (0x1600, ex_tensor GGML_OP_ADD 0 [0x1500; 0x1300] NULL);
  (0x1700, ex_tensor GGML_OP_RMS_NORM 2 [0x1600] NULL)].

Definition ex_rank (p : ptr) : nat := Z.to_nat (p / 0x100).

Lemma ex_tensors_ok : tensors_ok ex_tensors ex_rank.
Proof. apply tensors_ok_intro. apply (bool_decide_unpack _). vm_compute. exact I. Qed.

Example ex_graph :
  (g ← ggml_new_graph_custom 8 false; g ← build_all ex_tensors g [0x1700]; Ok (cg_leafs g, cg_nodes g))
  = Ok ([0x1100; 0x1000], [0x1200; 0x1300; 0x1400; 0x1500; 0x1600; 0x1700]).
Proof. vm_compute. reflexivity. Qed.

Lemma build_forward_topological_witness :
  tensors_ok ex_tensors ex_rank ∧
  ∃ g, (g ← ggml_new_graph_custom 8 false; build_all ex_tensors g [0x1500; 0x1700]) = Ok g ∧
    NoDup (cg_leafs g ++ cg_nodes g).
Proof.
  split; [exact ex_tensors_ok|].
  destruct (build_forward_topological ex_tensors ex_rank 8 false [0x1500; 0x1700] ex_tensors_ok)
    as (g & Hg & _ & Hnd & _).
  - apply (bool_decide_unpack _). vm_compute. exact I.
  - lia.
  - apply (bool_decide_unpack _). vm_compute. exact I.
  - exists g. split; [exact Hg|exact Hnd].
Defined.

(** ** Copying a graph

    [ggml_graph_cpy] copies every key of the visited set of the source that is
    not null, whether its slot is in use or not.  The keys of a graph are not
    initialised, and clearing a graph keeps them. *)

Definition ex_small : tensors := list_to_map [
  (0x1000, ex_tensor GGML_OP_NONE 0 [] NULL);
  (0x1010, ex_tensor GGML_OP_SQR 0 [0x1000] NULL)].

(** Duplicating a graph with a free slot reads a key that was never written. *)
Lemma graph_dup_reads_uninitialised :
  (g ← ggml_new_graph_custom 8 false; g ← build_all ex_tensors g [0x1700]; ggml_graph_dup g) = Err Oob.
Proof. vm_compute. reflexivity. Qed.

(** A stale key of a cleared graph: the copy takes the tensor at 0x1010, which
    is not in the graph, as visited, and then refuses to add it. *)
Lemma graph_cpy_stale_keys :
  (g ← ggml_new_graph_custom 1 false;
   g ← build_all ex_small g [0x1010];
   let g := ggml_graph_clear g in
   g ← build_all ex_small g [0x1000];
   d ← ggml_graph_dup g;
   d' ← build_all ex_small d [0x1010];
   Ok (cg_nodes g, cg_nodes d, cg_nodes d')) = Ok ([], [], []).
Proof. vm_compute. reflexivity. Qed.
