(* ===== verification/GraphAlloc.v ===== *)
(** * The graph allocator (ggml/src/ggml-alloc.c)

    [ggml_gallocr] decides where each tensor of a compute graph lives: it walks
    the graph once with offset allocators ([DynAlloc]), counting for each tensor
    its remaining users and views, frees a tensor after its last use and lets
    some operations write over a source that nobody else needs.

    The state is the record [ggml_gallocr].  Pointers into it are indices: the
    C code shares one [ggml_dyn_tallocr] between buffers of the same type, so
    [ga_buf_tallocs] holds indices into [ga_tallocs]; a [struct hash_node *] is
    an index into [ga_hash_values], which is where [ggml_hash_find_or_insert]
    ([HashSet]) puts it.  The calls of the backend interface are parameters: the
    alignment of a buffer type, the size it needs for a tensor, and whether it
    can allocate a buffer.  The [assert]s of <assert.h>, which release builds
    drop, and the debug output are left out. *)
From S2P Require Import Prelude HashSet Graph DynAlloc.

(** ** Data *)

Record hash_node : Type := mk_hash_node {
  hn_n_children : Z;
  hn_n_views    : Z;
  hn_buffer_id  : Z;
  hn_offset     : Z;
  hn_allocated  : bool;
}.

Definition zero_node : hash_node := mk_hash_node 0 0 0 0 false.

Record tensor_alloc : Type := mk_tensor_alloc {
  al_buffer_id : Z;
  al_offset    : Z;
  al_size_max  : Z;   (* 0 = pre-allocated, unused, or view *)
}.

Definition zero_alloc : tensor_alloc := mk_tensor_alloc 0 0 0.

Record leaf_alloc : Type := mk_leaf_alloc { la_buffer_id : Z; la_leaf : tensor_alloc }.
Record node_alloc : Type := mk_node_alloc { na_dst : tensor_alloc; na_src : list tensor_alloc }.

(** A backend buffer: its address and its size. *)
Record buffer : Type := mk_buffer { bf_id : Z; bf_size : Z }.

Abbreviation buft := Z.

Record ggml_gallocr : Type := mk_gallocr {
  ga_bufts       : list buft;
  ga_buffers     : list (option buffer);
  ga_buf_tallocs : list nat;
  ga_tallocs     : list ggml_dyn_tallocr;
  ga_hash_set    : ggml_hash_set;
  ga_hash_values : list hash_node;
  ga_node_allocs : list node_alloc;   (* node_allocs_capacity entries *)
  ga_n_nodes     : nat;
  ga_leaf_allocs : list leaf_alloc;   (* leaf_allocs_capacity entries *)
  ga_n_leafs     : nat;
}.

Definition with_hash (g : ggml_gallocr) (hs : ggml_hash_set) (hv : list hash_node) : ggml_gallocr :=
  mk_gallocr g.(ga_bufts) g.(ga_buffers) g.(ga_buf_tallocs) g.(ga_tallocs) hs hv
    g.(ga_node_allocs) g.(ga_n_nodes) g.(ga_leaf_allocs) g.(ga_n_leafs).

Definition with_tallocs (g : ggml_gallocr) (ts : list ggml_dyn_tallocr) : ggml_gallocr :=
  mk_gallocr g.(ga_bufts) g.(ga_buffers) g.(ga_buf_tallocs) ts g.(ga_hash_set) g.(ga_hash_values)
    g.(ga_node_allocs) g.(ga_n_nodes) g.(ga_leaf_allocs) g.(ga_n_leafs).

Definition with_buffers (g : ggml_gallocr) (bs : list (option buffer)) : ggml_gallocr :=
  mk_gallocr g.(ga_bufts) bs g.(ga_buf_tallocs) g.(ga_tallocs) g.(ga_hash_set) g.(ga_hash_values)
    g.(ga_node_allocs) g.(ga_n_nodes) g.(ga_leaf_allocs) g.(ga_n_leafs).

Definition with_node_allocs (g : ggml_gallocr) (na : list node_alloc) (n : nat) : ggml_gallocr :=
  mk_gallocr g.(ga_bufts) g.(ga_buffers) g.(ga_buf_tallocs) g.(ga_tallocs) g.(ga_hash_set) g.(ga_hash_values)
    na n g.(ga_leaf_allocs) g.(ga_n_leafs).

Definition with_leaf_allocs (g : ggml_gallocr) (la : list leaf_alloc) (n : nat) : ggml_gallocr :=
  mk_gallocr g.(ga_bufts) g.(ga_buffers) g.(ga_buf_tallocs) g.(ga_tallocs) g.(ga_hash_set) g.(ga_hash_values)
    g.(ga_node_allocs) g.(ga_n_nodes) la n.

Definition ga_n_buffers (g : ggml_gallocr) : nat := length g.(ga_bufts).

(** [v[i]] for an [int] index. *)
Definition at_int {A} (v : list A) (i : Z) : res A :=
  if i <? 0 then Err Oob else at_ v (Z.to_nat i).

(** [for (x : l) s = f(s, x)]. *)
Fixpoint for_each {St A} (f : St → A → res St) (s : St) (l : list A) : res St :=
  match l with
  | [] => Ok s
  | x :: l => s ← f s x; for_each f s l
  end.

(** The same with the index of the element. *)
Fixpoint for_each_i {St A} (f : St → nat → A → res St) (i : nat) (s : St) (l : list A) : res St :=
  match l with
  | [] => Ok s
  | x :: l => s ← f s i x; for_each_i f (S i) s l
  end.

(** ** Tests on tensors *)

Definition ggml_is_view (t : ggml_tensor) : bool := negb (is_null t.(t_view_src)).

Definition ggml_are_same_layout (a b : ggml_tensor) : bool :=
  (a.(t_type) =? b.(t_type)) && bool_decide (a.(t_ne) = b.(t_ne)) && bool_decide (a.(t_nb) = b.(t_nb)).

Definition ggml_op_can_inplace (op : ggml_op) : bool :=
  match op with
  | GGML_OP_SCALE | GGML_OP_DIAG_MASK_ZERO | GGML_OP_DIAG_MASK_INF | GGML_OP_ADD | GGML_OP_ADD_ID
  | GGML_OP_ADD1 | GGML_OP_SUB | GGML_OP_MUL | GGML_OP_DIV | GGML_OP_SQR | GGML_OP_SQRT | GGML_OP_LOG
  | GGML_OP_UNARY | GGML_OP_ROPE | GGML_OP_RMS_NORM | GGML_OP_SOFT_MAX => true
  | _ => false
  end.

Definition has_flag (t : ggml_tensor) (flag : Z) : bool := negb (Z.land t.(t_flags) flag =? 0).

(** ** The tensor table *)

(** [ggml_gallocr_hash_get]: the index of the entry of [t]. *)
Definition ggml_gallocr_hash_get (g : ggml_gallocr) (t : ptr) : res (nat * ggml_gallocr) :=
  '(i, hs) ← ggml_hash_find_or_insert g.(ga_hash_set) t;
  Ok (Z.to_nat i, with_hash g hs g.(ga_hash_values)).

(** [*hn] and [*hn = h]. *)
Definition hn_at (g : ggml_gallocr) (i : nat) : res hash_node := at_ g.(ga_hash_values) i.
Definition set_hn (g : ggml_gallocr) (i : nat) (h : hash_node) : res ggml_gallocr :=
  hv ← put g.(ga_hash_values) i h; Ok (with_hash g g.(ga_hash_set) hv).

Definition hn_set_allocated (h : hash_node) (b : bool) : hash_node :=
  mk_hash_node h.(hn_n_children) h.(hn_n_views) h.(hn_buffer_id) h.(hn_offset) b.
Definition hn_set_place (h : hash_node) (buffer_id offset : Z) : hash_node :=
  mk_hash_node h.(hn_n_children) h.(hn_n_views) buffer_id offset h.(hn_allocated).
Definition hn_add_children (h : hash_node) (d : Z) : hash_node :=
  mk_hash_node (h.(hn_n_children) + d) h.(hn_n_views) h.(hn_buffer_id) h.(hn_offset) h.(hn_allocated).
Definition hn_add_views (h : hash_node) (d : Z) : hash_node :=
  mk_hash_node h.(hn_n_children) (h.(hn_n_views) + d) h.(hn_buffer_id) h.(hn_offset) h.(hn_allocated).

(** [*hn = f( *hn )] for the entry at index [i]. *)
Definition upd_hn (g : ggml_gallocr) (i : nat) (f : hash_node → hash_node) : res ggml_gallocr :=
  h ← hn_at g i; set_hn g i (f h).

Definition ggml_gallocr_is_own (g : ggml_gallocr) (t : ptr) : res (bool * ggml_gallocr) :=
  '(i, g) ← ggml_gallocr_hash_get g t;
  h ← hn_at g i;
  Ok (h.(hn_allocated), g).

Definition ggml_gallocr_is_allocated (T : tensors) (g : ggml_gallocr) (t : ptr) : res (bool * ggml_gallocr) :=
  tt ← deref T t;
  if negb (is_null tt.(t_data)) then Ok (true, g) else ggml_gallocr_is_own g t.

Section galloc.
(** The backend interface. *)
Context (buft_get_alignment : buft → Z)
        (buft_get_alloc_size : buft → ggml_tensor → Z)
        (buft_alloc_buffer : buft → Z → option buffer).

(** ** A new allocator *)

(** The index of the first buffer type equal to the [i]-th, among the first [i]. *)
Definition same_before {A} `{EqDecision A} (l : list A) (i : nat) : option nat :=
  match l !! i with
  | Some x => fst <$> list_find (λ y, y = x) (take i l)
  | None => None
  end.

Definition gallocr_new_step (bufts : list buft) (acc : list nat * list ggml_dyn_tallocr) (i : nat) (b : buft)
    : res (list nat * list ggml_dyn_tallocr) :=
  let '(ids, ts) := acc in
  match same_before bufts i with
  | Some j => k ← at_ ids j; Ok (ids ++ [k], ts)
  | None => a ← ggml_dyn_tallocr_new (buft_get_alignment b); Ok (ids ++ [length ts], ts ++ [a])
  end.

Definition ggml_gallocr_new_n (bufts : list buft) : res ggml_gallocr :=
  '(ids, ts) ← for_each_i (gallocr_new_step bufts) 0 ([], []) bufts;
  Ok (mk_gallocr bufts (replicate (length bufts) None) ids ts (mk_hash_set 0 [] []) [] [] 0 [] 0).

Definition ggml_gallocr_new (b : buft) : res ggml_gallocr := ggml_gallocr_new_n [b].

(** ** Allocating and freeing a tensor *)

(** [parent->flags & OUTPUT || (parent->view_src && parent->view_src->flags & OUTPUT)]. *)
Definition is_output_parent (T : tensors) (pt : ggml_tensor) : res bool :=
  if has_flag pt GGML_TENSOR_FLAG_OUTPUT then Ok true
  else if ggml_is_view pt then vt ← deref T pt.(t_view_src); Ok (has_flag vt GGML_TENSOR_FLAG_OUTPUT)
  else Ok false.

(** The node at entry [hi] takes over the memory of entry [pi]. *)
Definition take_over (g : ggml_gallocr) (hi pi : nat) : res ggml_gallocr :=
  p ← hn_at g pi;
  g ← upd_hn g hi (λ h, hn_set_place h p.(hn_buffer_id) p.(hn_offset));
  upd_hn g pi (λ h, hn_set_allocated h false).

(** One round of the loop over the sources: whether the parent was reused. *)
Definition try_parent (T : tensors) (g : ggml_gallocr) (hi : nat) (t : ggml_tensor) (parent : ptr)
    : res (bool * ggml_gallocr) :=
  '(own, g) ← ggml_gallocr_is_own g parent;
  if negb own then Ok (false, g)
  else
    pt ← deref T parent;
    out ← is_output_parent T pt;
    if out : bool then Ok (false, g)
    else if negb (ggml_are_same_layout t pt) then Ok (false, g)
    else
      '(pi, g) ← ggml_gallocr_hash_get g parent;
      p ← hn_at g pi;
      if (p.(hn_n_children) =? 1) && (p.(hn_n_views) =? 0) then
        if ggml_is_view pt then
          vt ← deref T pt.(t_view_src);
          '(vi, g) ← ggml_gallocr_hash_get g pt.(t_view_src);
          v ← hn_at g vi;
          if (v.(hn_n_views) =? 1) && (v.(hn_n_children) =? 0) && (vt.(t_data) =? pt.(t_data)) then
            g ← take_over g hi pi;
            g ← upd_hn g vi (λ h, hn_set_allocated h false);
            Ok (true, g)
          else Ok (false, g)
        else g ← take_over g hi pi; Ok (true, g)
      else Ok (false, g).

Fixpoint try_inplace (T : tensors) (g : ggml_gallocr) (hi : nat) (t : ggml_tensor) (src : list ptr)
    : res (bool * ggml_gallocr) :=
  match src with
  | [] => Ok (false, g)
  | parent :: src =>
      if is_null parent then try_inplace T g hi t src
      else
        '(reused, g) ← try_parent T g hi t parent;
        if reused : bool then Ok (true, g) else try_inplace T g hi t src
  end.

(** Memory from the buffer. *)
Definition alloc_from_buffer (g : ggml_gallocr) (hi : nat) (t : ggml_tensor) (buffer_id : Z)
    : res ggml_gallocr :=
  k ← at_int g.(ga_buf_tallocs) buffer_id;
  b ← at_int g.(ga_bufts) buffer_id;
  a ← at_ g.(ga_tallocs) k;
  '(offset, a) ← ggml_dyn_tallocr_alloc a (buft_get_alloc_size b t);
  ts ← put g.(ga_tallocs) k a;
  upd_hn (with_tallocs g ts) hi (λ h, hn_set_place h buffer_id offset).

Definition ggml_gallocr_allocate_node (T : tensors) (g : ggml_gallocr) (node : ptr) (buffer_id : Z)
    : res ggml_gallocr :=
  t ← deref T node;
  '(hi, g) ← ggml_gallocr_hash_get g node;
  '(allocated, g) ← ggml_gallocr_is_allocated T g node;
  if negb allocated && negb (ggml_is_view t) then
    g ← upd_hn g hi (λ h, hn_set_allocated h true);
    '(reused, g) ← (if ggml_op_can_inplace t.(t_op) then try_inplace T g hi t t.(t_src) else Ok (false, g));
    if reused : bool then Ok g else alloc_from_buffer g hi t buffer_id
  else Ok g.

Definition ggml_gallocr_free_node (T : tensors) (g : ggml_gallocr) (node : ptr) : res ggml_gallocr :=
  t ← deref T node;
  if has_flag t GGML_TENSOR_FLAG_OUTPUT then Ok g
  else
    '(hi, g) ← ggml_gallocr_hash_get g node;
    h ← hn_at g hi;
    k ← at_int g.(ga_buf_tallocs) h.(hn_buffer_id);
    b ← at_int g.(ga_bufts) h.(hn_buffer_id);
    a ← at_ g.(ga_tallocs) k;
    a ← ggml_dyn_tallocr_free_tensor a h.(hn_offset) (buft_get_alloc_size b t);
    ts ← put g.(ga_tallocs) k a;
    upd_hn (with_tallocs g ts) hi (λ h, hn_set_allocated h false).

(** ** Walking the graph *)

Definition get_node_buffer_id (ids : option (list Z)) (i : nat) : res Z :=
  match ids with Some l => at_ l i | None => Ok 0 end.

(** [ggml_gallocr_hash_get(galloc, t)->field += d]. *)
Definition hash_update (g : ggml_gallocr) (t : ptr) (f : hash_node → hash_node) : res ggml_gallocr :=
  '(i, g) ← ggml_gallocr_hash_get g t; upd_hn g i f.

Definition leaf_step (T : tensors) (leaf_ids : option (list Z)) (g : ggml_gallocr) (i : nat) (leaf : ptr)
    : res ggml_gallocr :=
  id ← get_node_buffer_id leaf_ids i;
  ggml_gallocr_allocate_node T g leaf id.

Definition count_src (T : tensors) (node_ids : option (list Z)) (i : nat) (g : ggml_gallocr) (src : ptr)
    : res ggml_gallocr :=
  if is_null src then Ok g
  else
    g ← hash_update g src (λ h, hn_add_children h 1);
    st ← deref T src;
    if has_flag st GGML_TENSOR_FLAG_INPUT then
      id ← get_node_buffer_id node_ids i; ggml_gallocr_allocate_node T g src id
    else Ok g.

Definition count_step (T : tensors) (node_ids : option (list Z)) (g : ggml_gallocr) (i : nat) (node : ptr)
    : res ggml_gallocr :=
  t ← deref T node;
  g ← (if ggml_is_view t && negb (bool_decide (t.(t_op) = GGML_OP_NONE))
       then hash_update g t.(t_view_src) (λ h, hn_add_views h 1) else Ok g);
  g ← (if has_flag t GGML_TENSOR_FLAG_INPUT
       then id ← get_node_buffer_id node_ids i; ggml_gallocr_allocate_node T g node id else Ok g);
  for_each (count_src T node_ids i) g t.(t_src).

(** A parent that may have had its last use. *)
Definition update_parent (T : tensors) (g : ggml_gallocr) (parent : ptr) : res ggml_gallocr :=
  if is_null parent then Ok g
  else
    pt ← deref T parent;
    '(pi, g) ← ggml_gallocr_hash_get g parent;
    g ← upd_hn g pi (λ h, hn_add_children h (-1));
    p ← hn_at g pi;
    if (p.(hn_n_children) =? 0) && (p.(hn_n_views) =? 0) then
      if ggml_is_view pt then
        '(vi, g) ← ggml_gallocr_hash_get g pt.(t_view_src);
        g ← upd_hn g vi (λ h, hn_add_views h (-1));
        v ← hn_at g vi;
        if (v.(hn_n_views) =? 0) && (v.(hn_n_children) =? 0) && v.(hn_allocated)
        then ggml_gallocr_free_node T g pt.(t_view_src) else Ok g
      else if p.(hn_allocated) then ggml_gallocr_free_node T g parent
      else Ok g
    else Ok g.

(** [if (parent) ggml_gallocr_allocate_node(galloc, parent, buffer_id)]. *)
Definition allocate_parent (T : tensors) (id : Z) (g : ggml_gallocr) (parent : ptr) : res ggml_gallocr :=
  if is_null parent then Ok g else ggml_gallocr_allocate_node T g parent id.

(** The allocations of one node: its parents and itself. *)
Definition node_alloc_step (T : tensors) (node_ids : option (list Z)) (g : ggml_gallocr) (i : nat) (node : ptr)
    : res ggml_gallocr :=
  t ← deref T node;
  id ← get_node_buffer_id node_ids i;
  g ← for_each (allocate_parent T id) g t.(t_src);
  ggml_gallocr_allocate_node T g node id.

Definition node_step (T : tensors) (node_ids : option (list Z)) (g : ggml_gallocr) (i : nat) (node : ptr)
    : res ggml_gallocr :=
  t ← deref T node;
  g ← node_alloc_step T node_ids g i node;
  for_each (update_parent T) g t.(t_src).

Definition clear_hash (g : ggml_gallocr) : ggml_gallocr :=
  with_hash g (ggml_hash_set_reset g.(ga_hash_set))
    (replicate (Z.to_nat g.(ga_hash_set).(hs_size)) zero_node).

Definition ggml_gallocr_alloc_graph_impl (T : tensors) (g : ggml_gallocr) (nodes leafs : list ptr)
    (node_ids leaf_ids : option (list Z)) : res ggml_gallocr :=
  let g := clear_hash g in
  g ← for_each_i (leaf_step T leaf_ids) 0 g leafs;
  g ← for_each_i (count_step T node_ids) 0 g nodes;
  for_each_i (node_step T node_ids) 0 g nodes.

(** ** Reserving buffers for a graph *)

(** What the walk found for a tensor. *)
Definition tensor_alloc_of (T : tensors) (g : ggml_gallocr) (p : ptr) : res (tensor_alloc * ggml_gallocr) :=
  if is_null p then Ok (mk_tensor_alloc (-1) SIZE_MAX 0, g)
  else
    t ← deref T p;
    if ggml_is_view t || negb (is_null t.(t_data)) then Ok (mk_tensor_alloc (-1) SIZE_MAX 0, g)
    else
      '(i, g) ← ggml_gallocr_hash_get g p;
      h ← hn_at g i;
      b ← at_int g.(ga_bufts) h.(hn_buffer_id);
      Ok (mk_tensor_alloc h.(hn_buffer_id) h.(hn_offset) (buft_get_alloc_size b t), g).

Definition src_alloc_step (T : tensors) (acc : list tensor_alloc * ggml_gallocr) (src : ptr)
    : res (list tensor_alloc * ggml_gallocr) :=
  let '(l, g) := acc in
  '(a, g) ← tensor_alloc_of T g src;
  Ok (l ++ [a], g).

Definition node_alloc_of (T : tensors) (g : ggml_gallocr) (i : nat) (node : ptr) : res ggml_gallocr :=
  t ← deref T node;
  '(dst, g) ← tensor_alloc_of T g node;
  '(src, g) ← for_each (src_alloc_step T) ([], g) t.(t_src);
  na ← put g.(ga_node_allocs) i (mk_node_alloc dst src);
  Ok (with_node_allocs g na g.(ga_n_nodes)).

Definition leaf_alloc_of (T : tensors) (g : ggml_gallocr) (i : nat) (leaf : ptr) : res ggml_gallocr :=
  '(hi, g) ← ggml_gallocr_hash_get g leaf;
  h ← hn_at g hi;
  '(a, g) ← tensor_alloc_of T g leaf;
  la ← put g.(ga_leaf_allocs) i (mk_leaf_alloc h.(hn_buffer_id) a);
  Ok (with_leaf_allocs g la g.(ga_n_leafs)).

(** The buffer of index [i], allocated again if it is too small; [false] when
    the backend cannot allocate it. *)
Definition reserve_buffer (acc : bool * ggml_gallocr) (i : nat) (b : buft) : res (bool * ggml_gallocr) :=
  let '(ok, g) := acc in
  if negb ok then Ok (false, g)
  else
    buffers ← match same_before g.(ga_buf_tallocs) i with
              | Some j => bj ← at_ g.(ga_buffers) j; put g.(ga_buffers) i bj
              | None => Ok g.(ga_buffers)
              end;
    bi ← at_ buffers i;
    let cur_size := match bi with Some x => x.(bf_size) | None => 0 end in
    k ← at_ g.(ga_buf_tallocs) i;
    a ← at_ g.(ga_tallocs) k;
    let new_size := ggml_dyn_tallocr_max_size a in
    if (cur_size <? new_size) || bool_decide (bi = None) then
      let x := buft_alloc_buffer b new_size in
      buffers ← put buffers i x;
      Ok (bool_decide (is_Some x), with_buffers g buffers)
    else Ok (true, with_buffers g buffers).

(** [ggml_dyn_tallocr_reset(galloc->buf_tallocs[i])] for every buffer. *)
Definition reset_talloc (ts : list ggml_dyn_tallocr) (k : nat) : res (list ggml_dyn_tallocr) :=
  a ← at_ ts k; a ← ggml_dyn_tallocr_reset a; put ts k a.

Definition ensure_hash_size (g : ggml_gallocr) (min_hash_size : Z) : res ggml_gallocr :=
  if g.(ga_hash_set).(hs_size) <? min_hash_size then
    hs ← ggml_hash_set_new min_hash_size;
    Ok (with_hash g hs (replicate (Z.to_nat hs.(hs_size)) zero_node))
  else Ok g.

(** The arrays of assignments, allocated again when they are too short. *)
Definition ensure_node_allocs (g : ggml_gallocr) (n : nat) : ggml_gallocr :=
  with_node_allocs g
    (if (length g.(ga_node_allocs) <? n)%nat
     then replicate n (mk_node_alloc zero_alloc (replicate GGML_MAX_SRC zero_alloc)) else g.(ga_node_allocs)) n.
Definition ensure_leaf_allocs (g : ggml_gallocr) (n : nat) : ggml_gallocr :=
  with_leaf_allocs g
    (if (length g.(ga_leaf_allocs) <? n)%nat
     then replicate n (mk_leaf_alloc 0 zero_alloc) else g.(ga_leaf_allocs)) n.

Definition ggml_gallocr_reserve_n (T : tensors) (g : ggml_gallocr) (nodes leafs : list ptr)
    (node_ids leaf_ids : option (list Z)) : res (bool * ggml_gallocr) :=
  let n := Z.of_nat (length nodes) + Z.of_nat (length leafs) in
  g ← ensure_hash_size g (u64 (n + n / 4));
  ts ← for_each reset_talloc g.(ga_tallocs) g.(ga_buf_tallocs);
  let g := with_tallocs g ts in
  g ← ggml_gallocr_alloc_graph_impl T g nodes leafs node_ids leaf_ids;
  g ← for_each_i (node_alloc_of T) 0 (ensure_node_allocs g (length nodes)) nodes;
  g ← for_each_i (leaf_alloc_of T) 0 (ensure_leaf_allocs g (length leafs)) leafs;
  for_each_i reserve_buffer 0 (true, g) g.(ga_bufts).

Definition ggml_gallocr_reserve (T : tensors) (g : ggml_gallocr) (nodes leafs : list ptr) :
    res (bool * ggml_gallocr) :=
  ggml_gallocr_reserve_n T g nodes leafs None None.

End galloc.
