(* ===== verification/GallocFrame.v ===== *)
(** * What a walk of the graph allocator leaves alone

    The operations on single tensors, and so the whole walk over a graph, change
    the table of the tensors and the free lists only: the buffers, the recorded
    assignments, and the number and the alignments of the offset allocators stay
    as they are.  This holds for every graph and every state, without an
    invariant. *)
From S2P Require Import Prelude HashSet Graph DynAlloc GraphAlloc.

(** [Q] holds of the result, if there is one. *)
Definition oks {A} (m : res A) (Q : A → Prop) : Prop :=
  match m with Ok a => Q a | Err _ => True end.

Lemma oks_bind {A B} (m : res A) (f : A → res B) (Q : A → Prop) (R : B → Prop) :
  oks m Q → (∀ a, Q a → oks (f a) R) → oks (m ≫= f) R.
Proof. destruct m; cbn; auto. Qed.

Lemma oks_any {A B} (m : res A) (f : A → res B) (R : B → Prop) :
  (∀ a, oks (f a) R) → oks (m ≫= f) R.
Proof. destruct m; cbn; auto. Qed.

Lemma oks_eqn {A B} (m : res A) (f : A → res B) (R : B → Prop) :
  (∀ a, m = Ok a → oks (f a) R) → oks (m ≫= f) R.
Proof. destruct m; cbn; auto. Qed.

Lemma oks_mono {A} (m : res A) (Q R : A → Prop) : oks m Q → (∀ a, Q a → R a) → oks m R.
Proof. destruct m; cbn; auto. Qed.

Lemma oks_for_each {St A} (f : St → A → res St) (I : St → Prop) (l : list A) : ∀ s,
  (∀ s x, I s → oks (f s x) I) → I s → oks (for_each f s l) I.
Proof. induction l as [|x l IH]; intros s Hf Hs; [done|]. cbn. eapply oks_bind; [by apply Hf|]. auto. Qed.

Lemma oks_for_each_i {St A} (f : St → nat → A → res St) (I : St → Prop) (l : list A) : ∀ i s,
  (∀ s i x, I s → oks (f s i x) I) → I s → oks (for_each_i f i s l) I.
Proof. induction l as [|x l IH]; intros i s Hf Hs; [done|]. cbn. eapply oks_bind; [by apply Hf|]. auto. Qed.

Record untouched (g g' : ggml_gallocr) : Prop := {
  un_bufts   : ga_bufts g' = ga_bufts g;
  un_buffers : ga_buffers g' = ga_buffers g;
  un_ids     : ga_buf_tallocs g' = ga_buf_tallocs g;
  un_al      : da_alignment <$> ga_tallocs g' = da_alignment <$> ga_tallocs g;
  un_nodes   : ga_node_allocs g' = ga_node_allocs g ∧ ga_n_nodes g' = ga_n_nodes g;
  un_leafs   : ga_leaf_allocs g' = ga_leaf_allocs g ∧ ga_n_leafs g' = ga_n_leafs g;
}.

#[export] Instance untouched_preorder : PreOrder untouched.
Proof.
  split; [done|]. intros g1 g2 g3 [A1 A2 A3 A4 [A5 A6] [A7 A8]] [B1 B2 B3 B4 [B5 B6] [B7 B8]].
  split; [congruence|congruence|congruence|congruence|split; congruence|split; congruence].
Qed.

Create HintDb untouched.
#[export] Hint Extern 1 (oks (if ?b then _ else _) _) => destruct b : untouched.
#[export] Hint Extern 1 (oks (Ok _) _) => cbn; reflexivity : untouched.

(** Goes through the body of an operation: a call with a known lemma is passed
    with it, any other call with nothing, a test is split. *)
Ltac oks_walk :=
  repeat match goal with
  | |- oks (Err _) _ => exact I
  | |- oks (Ok _) _ => cbn
  | |- oks (let '(_, _) := ?x in _) _ => destruct x
  | |- oks (if ?b then _ else _) _ => destruct b
  | |- oks (match ?x with _ => _ end) _ => destruct x
  | |- oks (_ ≫= _) _ =>
      first [ eapply oks_bind; [solve [eauto with untouched]|]; cbn beta iota; intros
            | apply oks_any; intros ]
  end.

(** Composes the steps in the hypotheses, with that of a call in tail position. *)
Ltac untouched_end :=
  cbn in *;
  first [ done
        | by repeat (etrans; [eassumption|])
        | eapply oks_mono; [solve [eauto with untouched]|]; cbn; intros; by repeat (etrans; [eassumption|]) ].

Section frame.
Implicit Types (g : ggml_gallocr) (a : ggml_dyn_tallocr).

(** *** The alignment of an offset allocator *)

Lemma take_block_al a i size : oks (take_block a i size) (λ r, da_alignment r.2 = da_alignment a).
Proof. unfold take_block. oks_walk; done. Qed.

Lemma dyn_alloc_al a size : oks (ggml_dyn_tallocr_alloc a size) (λ r, da_alignment r.2 = da_alignment a).
Proof. unfold ggml_dyn_tallocr_alloc. apply oks_any. intros. apply take_block_al. Qed.

Lemma merge_after_al a i b size : oks (merge_after a i b size) (λ r, da_alignment r = da_alignment a).
Proof. unfold merge_after. oks_walk; done. Qed.

Lemma merge_before_al a i b offset size : oks (merge_before a i b offset size) (λ r, da_alignment r = da_alignment a).
Proof. unfold merge_before. oks_walk; done. Qed.

Lemma merge_loop_al a offset size k : ∀ i,
  oks (merge_loop k a i offset size) (λ o, ∀ r, o = Some r → da_alignment r = da_alignment a).
Proof.
  induction k as [|k IH]; intros i; [done|]. cbn. apply oks_any. intros b. destruct (_ =? _).
  - pose proof (merge_after_al a i b size) as Hm. destruct (merge_after _ _ _ _); cbn in *; [|done]. by intros r [= <-].
  - destruct (_ =? _); [|apply IH]. pose proof (merge_before_al a i b offset size) as Hm.
    destruct (merge_before _ _ _ _ _); cbn in *; [|done]. by intros r [= <-].
Qed.

Lemma dyn_free_al a offset size :
  oks (ggml_dyn_tallocr_free_tensor a offset size) (λ r, da_alignment r = da_alignment a).
Proof.
  unfold ggml_dyn_tallocr_free_tensor. eapply oks_bind; [apply merge_loop_al|]. intros [r|] Hr; cbn; [auto|].
  unfold insert_block. oks_walk; done.
Qed.

(** *** The operations on the table *)

Lemma hash_get_untouched g p : oks (ggml_gallocr_hash_get g p) (λ r, untouched g r.2).
Proof. unfold ggml_gallocr_hash_get. oks_walk; done. Qed.
#[local] Hint Resolve hash_get_untouched : untouched.

Lemma upd_hn_untouched g i f : oks (upd_hn g i f) (untouched g).
Proof. unfold upd_hn, set_hn. oks_walk; done. Qed.
#[local] Hint Resolve upd_hn_untouched : untouched.

Lemma is_own_untouched g p : oks (ggml_gallocr_is_own g p) (λ r, untouched g r.2).
Proof. unfold ggml_gallocr_is_own. oks_walk; done. Qed.
#[local] Hint Resolve is_own_untouched : untouched.

Lemma is_allocated_untouched T g p : oks (ggml_gallocr_is_allocated T g p) (λ r, untouched g r.2).
Proof. unfold ggml_gallocr_is_allocated. oks_walk; [done|apply is_own_untouched]. Qed.
#[local] Hint Resolve is_allocated_untouched : untouched.

Lemma take_over_untouched g hi pi : oks (take_over g hi pi) (untouched g).
Proof. unfold take_over. oks_walk; untouched_end. Qed.
#[local] Hint Resolve take_over_untouched : untouched.

Lemma try_parent_untouched T g hi t parent : oks (try_parent T g hi t parent) (λ r, untouched g r.2).
Proof. unfold try_parent. oks_walk; untouched_end. Qed.
#[local] Hint Resolve try_parent_untouched : untouched.

Lemma try_inplace_untouched T hi t src : ∀ g, oks (try_inplace T g hi t src) (λ r, untouched g r.2).
Proof. induction src as [|p src IH]; intros g; [done|]. cbn [try_inplace]. oks_walk; untouched_end. Qed.
#[local] Hint Resolve try_inplace_untouched : untouched.

Context (buft_get_alloc_size : buft → ggml_tensor → Z).

Lemma with_tallocs_untouched g k a a' : ga_tallocs g !! k = Some a → da_alignment a' = da_alignment a →
  untouched g (with_tallocs g (<[k := a']> (ga_tallocs g))).
Proof.
  intros Hk Ha. split; try done. cbn. rewrite list_fmap_insert, Ha. apply list_insert_id with (i := k).
  by rewrite list_lookup_fmap, Hk.
Qed.

Lemma put_talloc_untouched g k a a' : at_ (ga_tallocs g) k = Ok a → da_alignment a' = da_alignment a →
  oks (put (ga_tallocs g) k a') (λ ts, untouched g (with_tallocs g ts)).
Proof.
  intros Hk Ha. rewrite at_Ok in Hk. rewrite put_lt by by eapply lookup_lt_Some. by eapply with_tallocs_untouched.
Qed.

Lemma alloc_from_buffer_untouched g hi t id : oks (alloc_from_buffer buft_get_alloc_size g hi t id) (untouched g).
Proof.
  unfold alloc_from_buffer. apply oks_any. intros k. apply oks_any. intros b. apply oks_eqn. intros a Ha.
  eapply oks_bind; [apply dyn_alloc_al|]. intros [offset a'] Hal.
  eapply oks_bind; [by apply (put_talloc_untouched g k a)|]. intros ts Hts. untouched_end.
Qed.
#[local] Hint Resolve alloc_from_buffer_untouched : untouched.

Lemma allocate_node_untouched T g p id : oks (ggml_gallocr_allocate_node buft_get_alloc_size T g p id) (untouched g).
Proof. unfold ggml_gallocr_allocate_node. oks_walk; untouched_end. Qed.
#[local] Hint Resolve allocate_node_untouched : untouched.

Lemma free_node_untouched T g p : oks (ggml_gallocr_free_node buft_get_alloc_size T g p) (untouched g).
Proof.
  unfold ggml_gallocr_free_node. apply oks_any. intros t. destruct (has_flag _ _); [done|].
  eapply oks_bind; [apply hash_get_untouched|]. intros [hi g1] Hg1. apply oks_any. intros h.
  apply oks_any. intros k. apply oks_any. intros b. apply oks_eqn. intros a Ha.
  eapply oks_bind; [apply dyn_free_al|]. intros a' Hal.
  eapply oks_bind; [by apply (put_talloc_untouched g1 k a)|]. intros ts Hts. untouched_end.
Qed.
#[local] Hint Resolve free_node_untouched : untouched.

(** *** The walk *)

Lemma hash_update_untouched g p f : oks (hash_update g p f) (untouched g).
Proof. unfold hash_update. oks_walk; untouched_end. Qed.
#[local] Hint Resolve hash_update_untouched : untouched.

Lemma count_src_untouched T ids i g p : oks (count_src buft_get_alloc_size T ids i g p) (untouched g).
Proof. unfold count_src. oks_walk; untouched_end. Qed.

Lemma count_step_untouched T ids g i p : oks (count_step buft_get_alloc_size T ids g i p) (untouched g).
Proof.
  unfold count_step. apply oks_any. intros t.
  eapply oks_bind; [destruct (_ && _); [apply hash_update_untouched|done]|]. intros g1 H1.
  eapply (oks_bind _ _ (untouched g1)); [oks_walk; untouched_end|]. intros g2 H2.
  apply oks_for_each; [|by etrans]. intros g3 q H3. eapply oks_mono; [apply count_src_untouched|].
  intros g4 H4. by etrans.
Qed.

Lemma update_parent_untouched T g p : oks (update_parent buft_get_alloc_size T g p) (untouched g).
Proof. unfold update_parent. oks_walk; untouched_end. Qed.

Lemma allocate_parent_untouched T id g p : oks (allocate_parent buft_get_alloc_size T id g p) (untouched g).
Proof. unfold allocate_parent. oks_walk; untouched_end. Qed.

Lemma oks_for_each_untouched {A} (f : ggml_gallocr → A → res ggml_gallocr) l g :
  (∀ g x, oks (f g x) (untouched g)) → oks (for_each f g l) (untouched g).
Proof.
  intros Hf. apply oks_for_each; [|done]. intros g1 x H1. eapply oks_mono; [apply Hf|]. intros g2 H2. by etrans.
Qed.

Lemma oks_for_each_i_untouched {A} (f : ggml_gallocr → nat → A → res ggml_gallocr) l i g :
  (∀ g i x, oks (f g i x) (untouched g)) → oks (for_each_i f i g l) (untouched g).
Proof.
  intros Hf. apply oks_for_each_i; [|done]. intros g1 j x H1. eapply oks_mono; [apply Hf|]. intros g2 H2. by etrans.
Qed.

Lemma node_step_untouched T ids g i p : oks (node_step buft_get_alloc_size T ids g i p) (untouched g).
Proof.
  unfold node_step, node_alloc_step. apply oks_any. intros t. eapply (oks_bind _ _ (untouched g)).
  - apply oks_any. intros t'. apply oks_any. intros id.
    eapply oks_bind; [apply oks_for_each_untouched; intros; apply allocate_parent_untouched|].
    intros g1 H1. untouched_end.
  - intros g1 H1. eapply oks_mono; [apply oks_for_each_untouched; intros; apply update_parent_untouched|].
    intros g2 H2. by etrans.
Qed.

Lemma alloc_graph_untouched T g nodes leafs nids lids :
  oks (ggml_gallocr_alloc_graph_impl buft_get_alloc_size T g nodes leafs nids lids) (untouched g).
Proof.
  unfold ggml_gallocr_alloc_graph_impl. assert (untouched g (clear_hash g)) as H0 by done.
  eapply oks_bind; [apply oks_for_each_i_untouched; intros; unfold leaf_step; oks_walk; untouched_end|].
  intros g1 H1. eapply oks_bind; [apply oks_for_each_i_untouched; intros; apply count_step_untouched|].
  intros g2 H2. eapply oks_mono; [apply oks_for_each_i_untouched; intros; apply node_step_untouched|].
  intros g3 H3. untouched_end.
Qed.
End frame.
