(* ===== verification/GallocTable.v ===== *)
(** * The tensor table of the graph allocator as a map

    [GraphAlloc] keeps the record of a tensor in a hash table.  Here the table
    is seen as a total map from addresses to records, [node_of]: a tensor that
    was never looked up has the zero record.  Looking a tensor up leaves the map
    alone, writing the record of a tensor changes the map in one point.  The
    proofs about the walk over the graph use only these facts. *)
From S2P Require Import Prelude HashSet Graph DynAlloc GraphAlloc.

(** [m] returns a value with [Q] or stops in [GGML_ABORT]. *)
Definition aborts {A} (m : res A) (Q : A → Prop) : Prop :=
  match m with Ok a => Q a | Err e => e = Abort end.

Section aborts_lemmas.
Context {A B : Type}.

Lemma aborts_bind (m : res A) (f : A → res B) (Q : A → Prop) (R : B → Prop) :
  aborts m Q → (∀ a, Q a → aborts (f a) R) → aborts (m ≫= f) R.
Proof. destruct m as [a|e]; cbn; [auto|by intros ->]. Qed.

Lemma aborts_weaken (m : res A) (Q R : A → Prop) : aborts m Q → (∀ a, Q a → R a) → aborts m R.
Proof. destruct m as [a|e]; cbn; auto. Qed.
End aborts_lemmas.

(** The invariant of a loop. *)
Lemma for_each_inv {St A} (f : St → A → res St) (I : list A → St → Prop) (l : list A) : ∀ s,
  (∀ x l' s, (∃ l0, l = l0 ++ x :: l') → I (x :: l') s → aborts (f s x) (I l')) →
  I l s → aborts (for_each f s l) (I []).
Proof.
  assert (∀ l1 l0 s, l = l0 ++ l1 → (∀ x l' s, (∃ l0, l = l0 ++ x :: l') → I (x :: l') s → aborts (f s x) (I l')) →
    I l1 s → aborts (for_each f s l1) (I [])) as H.
  { induction l1 as [|x l1 IH]; intros l0 s Hl Hf Hs; [done|]. cbn [for_each].
    eapply aborts_bind; [apply Hf; [eauto|exact Hs]|]. intros s' Hs'.
    apply (IH (l0 ++ [x])); [by rewrite <- app_assoc|done|done]. }
  intros s Hf Hs. by apply (H l []).
Qed.

Lemma for_each_i_inv {St A} (f : St → nat → A → res St) (I : nat → St → Prop) (l : list A) (s : St) :
  (∀ i x s, l !! i = Some x → I i s → aborts (f s i x) (I (S i))) →
  I 0%nat s → aborts (for_each_i f 0 s l) (I (length l)).
Proof.
  intros Hf. assert (∀ l1 i s, drop i l = l1 → I i s → aborts (for_each_i f i s l1) (I (i + length l1)%nat)) as H.
  { induction l1 as [|x l1 IH]; intros i s' Hd Hs; cbn [for_each_i length]; [by rewrite Nat.add_0_r|].
    apply drop_lookup_inv in Hd as [Hx Hd]. eapply aborts_bind; [by apply Hf|].
    intros s'' Hs''. rewrite Nat.add_succ_r. by apply (IH (S i)). }
  intros Hs. by apply (H l 0%nat).
Qed.

Lemma for_each_i_ok {St A} (f : St → nat → A → res St) (I : nat → St → Prop) (l : list A) (s : St) :
  (∀ i x s, l !! i = Some x → I i s → ∃ s', f s i x = Ok s' ∧ I (S i) s') →
  I 0%nat s → ∃ s', for_each_i f 0 s l = Ok s' ∧ I (length l) s'.
Proof.
  intros Hf. assert (∀ l1 i s, drop i l = l1 → I i s →
    ∃ s', for_each_i f i s l1 = Ok s' ∧ I (i + length l1)%nat s') as H.
  { induction l1 as [|x l1 IH]; intros i s' Hd Hs; cbn [for_each_i length]; [rewrite Nat.add_0_r; eauto|].
    apply drop_lookup_inv in Hd as [Hx Hd]. destruct (Hf i x s' Hx Hs) as (s2 & -> & Hs2).
    cbn [mbind res_bind]. rewrite Nat.add_succ_r. by apply (IH (S i)). }
  intros Hs. by apply (H l 0%nat).
Qed.

(** ** The map *)

Definition node_of (g : ggml_gallocr) (p : ptr) : hash_node :=
  match list_find (λ i, slot g.(ga_hash_set) i = Some p) (seq 0 (length g.(ga_hash_values))) with
  | Some (_, i) => default zero_node (g.(ga_hash_values) !! i)
  | None => zero_node
  end.

Record table_wf (g : ggml_gallocr) (n : nat) : Prop := {
  tw_hash : hash_wf g.(ga_hash_set) n;
  tw_len  : length g.(ga_hash_values) = n;
  tw_zero : ∀ i, (i < n)%nat → slot g.(ga_hash_set) i = None → g.(ga_hash_values) !! i = Some zero_node;
}.

(** [g'] is [g] but for the table. *)
Definition frame (g g' : ggml_gallocr) : Prop := g' = with_hash g g'.(ga_hash_set) g'.(ga_hash_values).

Lemma frame_refl g : frame g g.
Proof. by destruct g. Qed.

Lemma frame_trans g1 g2 g3 : frame g1 g2 → frame g2 g3 → frame g1 g3.
Proof. unfold frame. intros -> ->. done. Qed.

(** [g'] is [g] after looking tensors up. *)
Record kept (g g' : ggml_gallocr) : Prop := {
  kp_frame : frame g g';
  kp_node  : ∀ q, node_of g' q = node_of g q;
  kp_slot  : ∀ i q, slot g.(ga_hash_set) i = Some q → slot g'.(ga_hash_set) i = Some q;
}.

Lemma kept_refl g : kept g g.
Proof. split; [apply frame_refl|done|done]. Qed.

Lemma kept_trans g1 g2 g3 : kept g1 g2 → kept g2 g3 → kept g1 g3.
Proof.
  intros [F1 N1 S1] [F2 N2 S2]. split; [by eapply frame_trans| |auto]. intros q. by rewrite N2.
Qed.

Section table.
Context (n : nat).
Implicit Types (g : ggml_gallocr) (p q : ptr).

Lemma node_of_slot g p i : table_wf g n → slot g.(ga_hash_set) i = Some p →
  g.(ga_hash_values) !! i = Some (node_of g p).
Proof.
  intros [Hwf Hlen _] Hi. pose proof (slot_lt _ _ Hwf _ _ Hi) as Hlt. unfold node_of.
  destruct (list_find_elem_of (λ i, slot g.(ga_hash_set) i = Some p) (seq 0 (length g.(ga_hash_values))) i)
    as [[k j] Hk]; [apply elem_of_seq; lia|done|].
  rewrite Hk. apply list_find_Some in Hk as (Hkj & Hj & _).
  rewrite (stored_unique _ _ Hwf _ _ _ Hj Hi).
  destruct (lookup_lt_is_Some_2 g.(ga_hash_values) i ltac:(lia)) as [h ->]. done.
Qed.

Lemma node_of_none g p : (∀ i, slot g.(ga_hash_set) i ≠ Some p) → node_of g p = zero_node.
Proof.
  intros Hno. unfold node_of. destruct (list_find _ _) as [[k j]|] eqn:E; [|done].
  apply list_find_Some in E as (_ & E & _). by destruct (Hno j).
Qed.

Lemma hn_at_spec g p i : table_wf g n → slot g.(ga_hash_set) i = Some p → hn_at g i = Ok (node_of g p).
Proof. intros Hwf Hi. unfold hn_at. apply at_Ok. by apply node_of_slot. Qed.

Lemma hash_get_spec g p : table_wf g n → 0 ≤ p →
  aborts (ggml_gallocr_hash_get g p) (λ '(i, g'), table_wf g' n ∧ slot g'.(ga_hash_set) i = Some p ∧ kept g g').
Proof.
  intros Htw Hp. pose proof Htw as [Hwf Hlen Hz]. unfold ggml_gallocr_hash_get.
  destruct (find_or_insert_spec _ n p Hwf Hp) as [(i & hs & -> & Hwf' & Hi & Hin & Hs)|[-> _]]; cbn; [|done].
  rewrite Nat2Z.id. set (g' := with_hash g hs g.(ga_hash_values)).
  assert (table_wf g' n) as Htw'.
  { split; cbn; [done|done|]. intros j Hj Hsj. rewrite Hs in Hsj. case_decide; [done|auto]. }
  assert (slot hs i = Some p) as Hip by by rewrite Hs, decide_True.
  split_and!; [done|done|]. split; [done| |].
  - intros q. destruct (decide (q = p)) as [->|Hq].
    + assert (g.(ga_hash_values) !! i = Some (node_of g' p)) as H1 by exact (node_of_slot g' p i Htw' Hip). destruct Hi as [Hi|Hi].
      * rewrite (Hz i Hin Hi) in H1. rewrite (node_of_none g); [congruence|]. intros j Hj.
        assert (slot hs j = Some p) as Hjp by (rewrite Hs; by case_decide).
        pose proof (stored_unique _ _ Hwf' _ _ _ Hjp Hip). congruence.
      * rewrite (node_of_slot g p i Htw Hi) in H1. congruence.
    + unfold node_of. cbn.
      assert (∀ l, list_find (λ i0, slot hs i0 = Some q) l = list_find (λ i0, slot g.(ga_hash_set) i0 = Some q) l) as ->; [|done].
      intros l. apply list_find_ext. intros j. rewrite Hs. case_decide as Hj; [|done]. subst j.
      destruct Hi as [Hi|Hi]; rewrite Hi; naive_solver.
  - intros j q Hj. cbn. rewrite Hs. case_decide as Hji; [|done]. subst j. destruct Hi; congruence.
Qed.

Lemma upd_hn_spec g p i f : table_wf g n → slot g.(ga_hash_set) i = Some p →
  ∃ g', upd_hn g i f = Ok g' ∧ table_wf g' n ∧ g'.(ga_hash_set) = g.(ga_hash_set) ∧ frame g g' ∧
    ∀ q, node_of g' q = if decide (q = p) then f (node_of g p) else node_of g q.
Proof.
  intros Htw Hi. pose proof Htw as [Hwf Hlen Hz]. pose proof (slot_lt _ _ Hwf _ _ Hi) as Hlt.
  unfold upd_hn. rewrite (hn_at_spec g p i) by done. cbn. unfold set_hn. rewrite put_lt by lia. cbn.
  eexists. split; [done|].
  set (g' := with_hash g _ _).
  assert (table_wf g' n) as Htw'.
  { split; cbn; [done|by rewrite length_insert|]. intros j Hj Hsj.
    rewrite list_lookup_insert_ne by congruence. auto. }
  split_and!; [done|done|done|]. intros q. case_decide as Hq; [subst q|].
  - assert (<[i:=f (node_of g p)]> g.(ga_hash_values) !! i = Some (node_of g' p)) as H by exact (node_of_slot g' p i Htw' Hi).
    rewrite list_lookup_insert_eq in H by lia. congruence.
  - unfold node_of. cbn. rewrite length_insert.
    destruct (list_find _ _) as [[k j]|] eqn:E; [|done]. apply list_find_Some in E as (Hkj & Hj & _).
    rewrite list_lookup_insert_ne; [done|]. intros ->. congruence.
Qed.
End table.

(** Reading the state through a frame. *)
Lemma frame_eqs g g' : frame g g' →
  ga_bufts g' = ga_bufts g ∧ ga_buf_tallocs g' = ga_buf_tallocs g ∧ ga_tallocs g' = ga_tallocs g ∧
  ga_buffers g' = ga_buffers g.
Proof. intros ->. done. Qed.
