(* ===== verification/GallocNode.v ===== *)
(** * Allocating and freeing one tensor of a graph

    The memory invariant of the graph allocator and its preservation by
    [ggml_gallocr_allocate_node] and [ggml_gallocr_free_node].  [own] lists the
    tensors that own memory now: those whose record says [allocated].  For each
    offset allocator, the invariant of [DynAlloc] holds with the regions of the
    tensors of [own] that are placed in it as live regions. *)
From S2P Require Import Prelude HashSet Graph DynAlloc GraphAlloc GallocTable.

(** A tensor that the allocator places: not a view and not allocated before. *)
Definition managed_t (t : ggml_tensor) : bool := is_null t.(t_view_src) && is_null t.(t_data).
Definition managed (T : tensors) (p : ptr) : Prop := ∃ t, T !! p = Some t ∧ managed_t t = true.

Section node.
Context (T : tensors) (buft_get_alloc_size : buft → ggml_tensor → Z) (n : nat).

(** What the backend promises: sizes are of sane magnitude and depend on the
    type and the shape of the tensor only. *)
Hypothesis size_sane : ∀ b t, size_ok (buft_get_alloc_size b t).
Hypothesis size_layout : ∀ b t t', ggml_are_same_layout t t' = true →
  buft_get_alloc_size b t = buft_get_alloc_size b t'.

(** Every address in the program is a tensor, and no tensor is its own source. *)
Hypothesis T_ptr : ∀ p, is_Some (T !! p) → ptr_ok p.
Hypothesis T_src : ∀ p t q, T !! p = Some t → q ∈ t.(t_src) → q ≠ NULL → is_Some (T !! q) ∧ q ≠ p.
Hypothesis T_view : ∀ p t, T !! p = Some t → t.(t_view_src) ≠ NULL → is_Some (T !! t.(t_view_src)).

(** Which allocator a tensor with record [h] is in, and where. *)
Definition entry (g : ggml_gallocr) (h : hash_node) (t : ggml_tensor) : option (nat * (Z * Z)) :=
  if bool_decide (0 ≤ h.(hn_buffer_id)) then
    k ← g.(ga_buf_tallocs) !! Z.to_nat h.(hn_buffer_id);
    b ← g.(ga_bufts) !! Z.to_nat h.(hn_buffer_id);
    Some (k, (h.(hn_offset), buft_get_alloc_size b t))
  else None.

Definition place (g : ggml_gallocr) (p : ptr) : option (nat * (Z * Z)) :=
  t ← T !! p; entry g (node_of g p) t.

(** The regions of [own] in allocator [k]. *)
Definition live (g : ggml_gallocr) (k : nat) (own : list ptr) : list (Z * Z) :=
  omap (λ p, '(k', e) ← place g p; if decide (k' = k) then Some e else None) own.

Record static (g g' : ggml_gallocr) : Prop := {
  st_bufts : ga_bufts g' = ga_bufts g;
  st_ids   : ga_buf_tallocs g' = ga_buf_tallocs g;
  st_ts    : ∀ k a, ga_tallocs g !! k = Some a → ∃ a', ga_tallocs g' !! k = Some a' ∧
               da_alignment a' = da_alignment a ∧ da_max_size a ≤ da_max_size a';
}.

(** The allocators are there and aligned for their buffers. *)
Record galloc_ok (g : ggml_gallocr) : Prop := {
  go_ids  : length (ga_buf_tallocs g) = length (ga_bufts g);
  go_ts   : ∀ b k, ga_buf_tallocs g !! b = Some k → is_Some (ga_tallocs g !! k);
  go_al   : ∀ k a, ga_tallocs g !! k = Some a → is_alignment (da_alignment a);
}.

Record mem_inv (g : ggml_gallocr) (own : list ptr) : Prop := {
  mi_ok      : galloc_ok g;
  mi_nodup   : NoDup own;
  mi_managed : ∀ p, p ∈ own → managed T p;
  mi_place   : ∀ p, p ∈ own → is_Some (place g p);
  mi_dyn     : ∀ k a, ga_tallocs g !! k = Some a → ∃ bs, dyn_inv (da_alignment a) a (live g k own) bs;
}.

Record state_inv (g : ggml_gallocr) (own : list ptr) : Prop := {
  si_table : table_wf g n;
  si_mem   : mem_inv g own;
  si_own   : ∀ p, p ∈ own ↔ hn_allocated (node_of g p) = true;
}.

Lemma static_refl g : static g g.
Proof. split; [done|done|]. intros k a Hk. exists a. split_and!; [done|done|lia]. Qed.

Lemma static_trans g1 g2 g3 : static g1 g2 → static g2 g3 → static g1 g3.
Proof.
  intros [B1 I1 T1] [B2 I2 T2]. split; [congruence|congruence|]. intros k a Hk.
  destruct (T1 k a Hk) as (a1 & Hk1 & ? & ?). destruct (T2 k a1 Hk1) as (a2 & ? & ? & ?).
  exists a2. split_and!; [done|congruence|lia].
Qed.

Lemma static_frame g g' : frame g g' → static g g'.
Proof.
  intros (Hb & Hi & Ht & _)%frame_eqs. split; [done|done|]. intros k a Hk. rewrite Ht.
  exists a. split_and!; [done|done|lia].
Qed.

Lemma galloc_ok_frame g g' : frame g g' → galloc_ok g → galloc_ok g'.
Proof. intros (Hb & Hi & Ht & _)%frame_eqs [H1 H2 H3]. split; rewrite ?Hb, ?Hi, ?Ht; done. Qed.

(** The regions depend on the places only. *)
Lemma entry_ext g g' h h' t : ga_bufts g' = ga_bufts g → ga_buf_tallocs g' = ga_buf_tallocs g →
  hn_buffer_id h' = hn_buffer_id h → hn_offset h' = hn_offset h → entry g' h' t = entry g h t.
Proof. intros Hb Hi Hid Hof. unfold entry. by rewrite Hb, Hi, Hid, Hof. Qed.

(** [g'] puts [p] where [g] does. *)
Definition same_place (g g' : ggml_gallocr) (p : ptr) : Prop :=
  hn_buffer_id (node_of g' p) = hn_buffer_id (node_of g p) ∧ hn_offset (node_of g' p) = hn_offset (node_of g p).

Lemma place_ext g g' p : static g g' → same_place g g' p → place g' p = place g p.
Proof.
  intros [Hb Hi _] [H1 H2]. unfold place. destruct (T !! p); [|done]. cbn. by apply entry_ext.
Qed.

Lemma live_ext g g' k own : static g g' → (∀ p, p ∈ own → same_place g g' p) → live g' k own = live g k own.
Proof.
  intros Hs Hp. unfold live. induction own as [|p own IH]; [done|]. cbn.
  rewrite (place_ext g g' p) by (auto; apply Hp; left). rewrite IH; [done|]. intros q ?. apply Hp. by right.
Qed.

Lemma dyn_inv_perm al a l l' bs : l ≡ₚ l' → dyn_inv al a l bs → dyn_inv al a l' bs.
Proof.
  intros Hp [H1 H2 H3 H4 H5 H6 H7]. split; try done; [by rewrite <- Hp|].
  intros x. by rewrite (cover_Permutation (region al <$> l') (region al <$> l)) by by rewrite Hp.
Qed.

Lemma live_perm g k own own' : own ≡ₚ own' → live g k own ≡ₚ live g k own'.
Proof. intros Hp. unfold live. by rewrite Hp. Qed.

Lemma mem_inv_perm g own own' : own ≡ₚ own' → mem_inv g own → mem_inv g own'.
Proof.
  intros Hp [H1 H2 H3 H4 H5]. split; [done|by rewrite <- Hp| | |].
  - intros p. rewrite <- Hp. auto.
  - intros p. rewrite <- Hp. auto.
  - intros k a Hk. destruct (H5 k a Hk) as (bs & ?). exists bs. eapply dyn_inv_perm; [|done]. by apply live_perm.
Qed.

Lemma mem_inv_kept g g' own : frame g g' → (∀ p, p ∈ own → same_place g g' p) → mem_inv g own → mem_inv g' own.
Proof.
  intros Hf Hp [H1 H2 H3 H4 H5]. pose proof (static_frame _ _ Hf) as Hs.
  split; [by eapply galloc_ok_frame|done|done| |].
  - intros p Hin. rewrite (place_ext g g') by auto. auto.
  - intros k a Hk. destruct (frame_eqs _ _ Hf) as (_ & _ & Ht & _). rewrite Ht in Hk.
    rewrite (live_ext g g') by auto. auto.
Qed.

Lemma state_inv_kept g g' own : kept g g' → table_wf g' n → state_inv g own → state_inv g' own.
Proof.
  intros [Hf Hn _] Htw [_ Hm Ho]. split; [done| |].
  - eapply mem_inv_kept; [done| |done]. intros p _. unfold same_place. by rewrite Hn.
  - intros p. by rewrite Hn.
Qed.

(** *** Changing one allocator *)

Lemma static_tallocs g k a a' : ga_tallocs g !! k = Some a → da_alignment a' = da_alignment a →
  da_max_size a ≤ da_max_size a' → static g (with_tallocs g (<[k := a']> (ga_tallocs g))).
Proof.
  intros Hk Hal Hm. split; [done|done|]. intros j b Hj. cbn. destruct (decide (j = k)) as [->|].
  - rewrite list_lookup_insert_eq by (by eapply lookup_lt_Some). simplify_eq. eauto.
  - rewrite list_lookup_insert_ne by done. exists b. split_and!; [done|done|lia].
Qed.

Lemma galloc_ok_static g g' : static g g' → length (ga_tallocs g') = length (ga_tallocs g) →
  galloc_ok g → galloc_ok g'.
Proof.
  intros [Hb Hi Ht] Hlen [H1 H2 H3]. split; rewrite ?Hb, ?Hi; [done| |].
  - intros b k Hk. destruct (H2 b k Hk) as [a Ha]. destruct (Ht k a Ha) as (a' & ? & _). eauto.
  - intros k a' Hk. destruct (lookup_lt_is_Some_2 (ga_tallocs g) k) as [a Ha].
    { rewrite <- Hlen. by eapply lookup_lt_Some. }
    destruct (Ht k a Ha) as (a'' & Hk' & Hal & _). simplify_eq. rewrite Hal. eauto.
Qed.

(** The entry of a tensor at a valid buffer. *)
Lemma entry_at g h t b k bt : 0 ≤ hn_buffer_id h → b = Z.to_nat (hn_buffer_id h) →
  ga_buf_tallocs g !! b = Some k → ga_bufts g !! b = Some bt →
  entry g h t = Some (k, (hn_offset h, buft_get_alloc_size bt t)).
Proof. intros Hb -> Hk Hbt. unfold entry. rewrite bool_decide_true by done. by rewrite Hk, Hbt. Qed.

Lemma at_int_spec {A} (v : list A) (i : Z) : 0 ≤ i < Z.of_nat (length v) →
  ∃ x, at_int v i = Ok x ∧ v !! Z.to_nat i = Some x.
Proof.
  intros Hi. unfold at_int. rewrite (proj2 (Z.ltb_ge _ _)) by lia. apply at_lt. lia.
Qed.

Lemma live_cons g k p own :
  live g k (p :: own) = match place g p with
                        | Some (k', e) => if decide (k' = k) then e :: live g k own else live g k own
                        | None => live g k own
                        end.
Proof. unfold live. cbn. destruct (place g p) as [[k' e]|]; [|done]. cbn. by case_decide. Qed.

Definition owned_place (h : hash_node) (id off : Z) : hash_node := hn_set_place (hn_set_allocated h true) id off.

(** Memory from the buffer for a tensor that owns none. *)
Lemma alloc_from_buffer_spec g own p t hi id :
  table_wf g n → slot (ga_hash_set g) hi = Some p → mem_inv g own → (p ∉ own) →
  T !! p = Some t → managed_t t = true → 0 ≤ id < Z.of_nat (length (ga_bufts g)) →
  aborts (alloc_from_buffer buft_get_alloc_size g hi t id) (λ g', table_wf g' n ∧
    ga_hash_set g' = ga_hash_set g ∧ static g g' ∧ mem_inv g' (p :: own) ∧
    ∃ off, ∀ q, node_of g' q = if decide (q = p) then hn_set_place (node_of g p) id off else node_of g q).
Proof using All.
  intros Htw Hhi [Hok Hnd Hman Hpl Hdyn] Hnin Ht Hm Hid. pose proof Hok as [Hids Hts Hals].
  unfold alloc_from_buffer.
  destruct (at_int_spec (ga_buf_tallocs g) id ltac:(lia)) as (k & -> & Hk). cbn [mbind res_bind].
  destruct (at_int_spec (ga_bufts g) id ltac:(lia)) as (b & -> & Hb). cbn [mbind res_bind].
  destruct (Hts _ _ Hk) as [a Ha]. rewrite (proj2 (at_Ok _ _ _) Ha). cbn [mbind res_bind].
  destruct (Hdyn k a Ha) as (bs & Hinv). set (sz := buft_get_alloc_size b t).
  destruct (alloc_inv _ (Hals k a Ha) a (live g k own) bs sz Hinv (size_sane b t))
    as [(l1 & bl & l2 & a' & _ & _ & _ & -> & Hmax & Hinv')|[-> _]]; cbn [mbind res_bind aborts]; [|done].
  rewrite put_lt by (by eapply lookup_lt_Some). cbn [mbind res_bind].
  set (g1 := with_tallocs g (<[k := a']> (ga_tallocs g))).
  assert (da_alignment a' = da_alignment a) as Hal' by apply (di_al _ _ _ _ Hinv').
  assert (static g g1) as Hs1 by (apply static_tallocs with a; [done|done|lia]).
  assert (table_wf g1 n) as Htw1 by (by destruct Htw; split).
  destruct (upd_hn_spec n g1 p hi (λ h, hn_set_place h id (fb_offset bl)) Htw1 Hhi) as (g2 & -> & Htw2 & Hhs & Hf2 & Hn2).
  cbn [aborts]. assert (static g g2) as Hs2 by (eapply static_trans; [exact Hs1|by apply static_frame]).
  destruct (frame_eqs _ _ Hf2) as (HB & HI & HT & _).
  assert (∀ q, q ∈ own → same_place g g2 q) as Hsame.
  { intros q Hq. unfold same_place. rewrite Hn2. rewrite decide_False by (intros ->; done). done. }
  assert (place g2 p = Some (k, (fb_offset bl, sz))) as Hpp.
  { unfold place. rewrite Ht. cbn. rewrite Hn2, decide_True by done.
    rewrite (entry_at g2 _ t (Z.to_nat id) k b); cbn; [done|lia|done|by rewrite HI|by rewrite HB]. }
  split_and!; [done|done|done| |].
  - split.
    + apply (galloc_ok_static g); [done| |done]. rewrite HT. cbn. by rewrite length_insert.
    + by constructor.
    + intros q [->|Hq]%elem_of_cons; [by exists t|auto].
    + intros q [->|Hq]%elem_of_cons; [by rewrite Hpp|]. rewrite (place_ext g g2) by auto. auto.
    + intros j c Hj. rewrite HT in Hj. cbn in Hj. rewrite live_cons, Hpp, (live_ext g g2) by done.
      destruct (decide (j = k)) as [->|Hjk].
      * rewrite list_lookup_insert_eq in Hj by (by eapply lookup_lt_Some). simplify_eq.
        rewrite decide_True by done. rewrite Hal'. eauto.
      * rewrite list_lookup_insert_ne in Hj by done. rewrite decide_False by done. auto.
  - exists (fb_offset bl). intros q. rewrite Hn2. by case_decide.
Qed.

(** Giving the memory of a tensor back. *)
Lemma free_node_spec g own p t : state_inv g own → p ∈ own → T !! p = Some t →
  aborts (ggml_gallocr_free_node buft_get_alloc_size T g p) (λ g', ∃ own', state_inv g' own' ∧ static g g' ∧
    if has_flag t GGML_TENSOR_FLAG_OUTPUT then g' = g ∧ own' = own
    else own ≡ₚ p :: own' ∧
      ∀ q, node_of g' q = if decide (q = p) then hn_set_allocated (node_of g p) false else node_of g q).
Proof using All.
  intros [Htw Hmem Hown] Hp Ht. unfold ggml_gallocr_free_node, deref. rewrite Ht. cbn [mbind res_bind].
  destruct (has_flag t GGML_TENSOR_FLAG_OUTPUT).
  { cbn. exists own. split_and!; [done|apply static_refl|done|done]. }
  eapply aborts_bind; [apply (hash_get_spec n); [done|apply (T_ptr p); eauto]|].
  intros [hi g0] (Htw0 & Hhi & Hk0). rewrite (hn_at_spec n g0 p hi) by done. cbn [mbind res_bind].
  pose proof (mem_inv_kept g g0 own (kp_frame _ _ Hk0)) as Hmem0.
  pose proof (kp_node _ _ Hk0) as Hn0.
  specialize (Hmem0 ltac:(intros q _; unfold same_place; by rewrite Hn0) Hmem).
  pose proof Hmem0 as [Hok Hnd Hman Hpl Hdyn]. pose proof Hok as [Hids Hts Hals].
  apply list_elem_of_split in Hp as (o1 & o2 & Ho). assert (own ≡ₚ p :: (o1 ++ o2)) as Hperm by (subst; solve_Permutation).
  destruct (Hpl p ltac:(rewrite Ho; set_solver)) as [[k e] Hpp].
  pose proof Hpp as Hpp'. unfold place in Hpp'. rewrite Ht in Hpp'. cbn in Hpp'. unfold entry in Hpp'.
  case_bool_decide as Hge; [|done].
  destruct (ga_buf_tallocs g0 !! _) as [k'|] eqn:Hkk; [|done]. cbn in Hpp'.
  destruct (ga_bufts g0 !! _) as [b|] eqn:Hbb; [|done]. cbn in Hpp'. injection Hpp' as <- <-.
  unfold at_int. rewrite (proj2 (Z.ltb_ge _ _)) by lia. rewrite (proj2 (at_Ok _ _ _) Hkk). cbn [mbind res_bind].
  rewrite (proj2 (at_Ok _ _ _) Hbb). cbn [mbind res_bind].
  destruct (Hts _ _ Hkk) as [a Ha]. rewrite (proj2 (at_Ok _ _ _) Ha). cbn [mbind res_bind].
  destruct (Hdyn k' a Ha) as (bs & Hinv).
  assert (live g0 k' own ≡ₚ (hn_offset (node_of g0 p), buft_get_alloc_size b t) :: live g0 k' (o1 ++ o2)) as Hlp.
  { rewrite (live_perm g0 k' _ _ Hperm), live_cons, Hpp. by rewrite decide_True. }
  apply (dyn_inv_perm _ _ _ _ _ Hlp) in Hinv.
  destruct (free_inv _ (Hals k' a Ha) a _ bs 0 _ _ Hinv eq_refl) as [(a' & bs' & -> & _ & Hinv' & Hmax)|[-> _]];
    cbn [mbind res_bind aborts]; [|done].
  rewrite put_lt by (by eapply lookup_lt_Some). cbn [mbind res_bind].
  set (g1 := with_tallocs g0 (<[k' := a']> (ga_tallocs g0))).
  assert (da_alignment a' = da_alignment a) as Hal' by apply (di_al _ _ _ _ Hinv').
  assert (static g0 g1) as Hs1 by (apply static_tallocs with a; [done|done|lia]).
  assert (table_wf g1 n) as Htw1 by (by destruct Htw0; split).
  destruct (upd_hn_spec n g1 p hi (λ h, hn_set_allocated h false) Htw1 Hhi) as (g2 & -> & Htw2 & Hhs & Hf2 & Hn2).
  destruct (frame_eqs _ _ Hf2) as (HB & HI & HT & _). cbn [aborts]. exists (o1 ++ o2).
  assert (static g0 g2) as Hs2 by (eapply static_trans; [exact Hs1|by apply static_frame]).
  assert (∀ q, q ∈ o1 ++ o2 → same_place g0 g2 q) as Hsame.
  { intros q Hq. unfold same_place. rewrite Hn2. by case_decide; subst. }
  assert (NoDup (p :: o1 ++ o2)) as [Hpn Hnd']%NoDup_cons by by rewrite <- Hperm.
  split_and!.
  - split; [done| |].
    + split.
      * apply (galloc_ok_static g0); [done| |done]. rewrite HT. cbn. by rewrite length_insert.
      * done.
      * intros q Hq. apply Hman. rewrite Ho. set_solver.
      * intros q Hq. rewrite (place_ext g0 g2) by auto. apply Hpl. rewrite Ho. set_solver.
      * intros j c Hj. rewrite HT in Hj. cbn in Hj. rewrite (live_ext g0 g2) by done.
        destruct (decide (j = k')) as [->|Hjk].
        -- rewrite list_lookup_insert_eq in Hj by (by eapply lookup_lt_Some). simplify_eq.
           rewrite Hal'. exists bs'. exact Hinv'.
        -- rewrite list_lookup_insert_ne in Hj by done. destruct (Hdyn j c Hj) as (bs2 & Hi2). exists bs2.
           eapply dyn_inv_perm; [|exact Hi2]. rewrite (live_perm g0 j _ _ Hperm), live_cons, Hpp.
           by rewrite decide_False by congruence.
    + intros q. rewrite Hn2. case_decide as Hq.
      * subst q. cbn. split; [|done]. intros ?. done.
      * change (node_of g1 q) with (node_of g0 q). rewrite Hn0, <- Hown, Hperm, elem_of_cons. naive_solver.
  - eapply static_trans; [apply static_frame, (kp_frame _ _ Hk0)|exact Hs2].
  - done.
  - intros q. rewrite Hn2. change (node_of g1) with (node_of g0). rewrite !Hn0. done.
Qed.

(** *** Writing over a source *)

Definition reuse_ok (g : ggml_gallocr) (t : ggml_tensor) (own : list ptr) (parent : ptr) : Prop :=
  parent ∈ own ∧ parent ∈ t.(t_src) ∧ parent ≠ NULL ∧
  ∃ pt, T !! parent = Some pt ∧ has_flag pt GGML_TENSOR_FLAG_OUTPUT = false ∧
    ggml_are_same_layout t pt = true ∧
    hn_n_children (node_of g parent) = 1 ∧ hn_n_views (node_of g parent) = 0.

(** The records after [p] took over the memory of [parent]. *)
Definition taken_over (g g' : ggml_gallocr) (p parent : ptr) : Prop :=
  ∀ q, node_of g' q =
    if decide (q = p) then hn_set_place (node_of g p) (hn_buffer_id (node_of g parent)) (hn_offset (node_of g parent))
    else if decide (q = parent) then hn_set_allocated (node_of g parent) false
    else node_of g q.

Lemma take_over_spec g p parent hi pi : table_wf g n → slot (ga_hash_set g) hi = Some p →
  slot (ga_hash_set g) pi = Some parent → p ≠ parent →
  ∃ g', take_over g hi pi = Ok g' ∧ table_wf g' n ∧ ga_hash_set g' = ga_hash_set g ∧ frame g g' ∧
    taken_over g g' p parent.
Proof.
  intros Htw Hhi Hpi Hne. unfold take_over. rewrite (hn_at_spec n g parent pi) by done. cbn [mbind res_bind].
  destruct (upd_hn_spec n g p hi (λ h, hn_set_place h (hn_buffer_id (node_of g parent)) (hn_offset (node_of g parent)))
    Htw Hhi) as (g1 & -> & Htw1 & Hh1 & Hf1 & Hn1). cbn [mbind res_bind].
  destruct (upd_hn_spec n g1 parent pi (λ h, hn_set_allocated h false) Htw1 ltac:(by rewrite Hh1))
    as (g2 & -> & Htw2 & Hh2 & Hf2 & Hn2).
  exists g2. split_and!; [done|done|congruence|by eapply frame_trans|].
  intros q. rewrite Hn2, !Hn1. rewrite (decide_False (P := parent = p)) by done.
  destruct (decide (q = p)) as [->|]; [|done]. by rewrite decide_False by done.
Qed.

Record reuse_pre (g : ggml_gallocr) (own : list ptr) (p : ptr) (hi : nat) : Prop := {
  rp_table : table_wf g n;
  rp_slot  : slot (ga_hash_set g) hi = Some p;
  rp_own   : ∀ q, q ≠ p → q ∈ own ↔ hn_allocated (node_of g q) = true;
}.

Lemma reuse_pre_kept g g' own p hi : kept g g' → table_wf g' n → reuse_pre g own p hi → reuse_pre g' own p hi.
Proof. intros [_ Hn Hs] Htw [H1 H2 H3]. split; [done|auto|]. intros q. by rewrite Hn; auto. Qed.

Definition reuse_post (g : ggml_gallocr) (t : ggml_tensor) (own : list ptr) (p : ptr) (hi : nat)
    (r : bool * ggml_gallocr) : Prop :=
  let '(b, g') := r in
  if b then table_wf g' n ∧ frame g g' ∧ ∃ parent, reuse_ok g t own parent ∧ taken_over g g' p parent
  else reuse_pre g' own p hi ∧ kept g g'.

Lemma try_parent_spec g own p t hi parent : (∀ q, q ∈ own → managed T q) → reuse_pre g own p hi →
  T !! p = Some t → parent ∈ t.(t_src) → parent ≠ NULL →
  aborts (try_parent T g hi t parent) (reuse_post g t own p hi).
Proof using All.
  intros Hman Hpre Ht Hsrc Hnn. destruct (T_src p t parent Ht Hsrc Hnn) as [[pt Hpt] Hne].
  pose proof (T_ptr parent ltac:(eauto)) as [Hge _]. unfold try_parent, ggml_gallocr_is_own.
  eapply aborts_bind.
  { eapply aborts_bind; [apply (hash_get_spec n _ parent (rp_table _ _ _ _ Hpre) Hge)|].
    intros [pi g1] (Htw1 & Hpi & Hk1). rewrite (hn_at_spec n g1 parent pi) by done. cbn [mbind res_bind].
    instantiate (1 := λ '(own', g1), reuse_pre g1 own p hi ∧ kept g g1 ∧ own' = hn_allocated (node_of g1 parent)).
    split_and!; [by eapply reuse_pre_kept|done|done]. }
  intros [b g1] (Hpre1 & Hk1 & ->).
  destruct (hn_allocated (node_of g1 parent)) eqn:Hal; cbn [negb]; [|done].
  assert (parent ∈ own) as Hin by (apply (rp_own _ _ _ _ Hpre1); done).
  destruct (Hman parent Hin) as (pt' & Hpt' & Hm). simplify_eq.
  apply andb_true_iff in Hm as [Hview Hdata].
  unfold deref. rewrite Hpt. cbn [mbind res_bind].
  assert (ggml_is_view pt = false) as Hv by (unfold ggml_is_view; by rewrite Hview).
  unfold is_output_parent. rewrite Hv.
  destruct (has_flag pt GGML_TENSOR_FLAG_OUTPUT) eqn:Hout; cbn [mbind res_bind]; [done|].
  destruct (ggml_are_same_layout t pt) eqn:Hlay; cbn [negb]; [|done].
  eapply aborts_bind; [apply (hash_get_spec n _ parent (rp_table _ _ _ _ Hpre1) Hge)|].
  intros [pi g2] (Htw2 & Hpi & Hk2). rewrite (hn_at_spec n g2 parent pi) by done. cbn [mbind res_bind].
  pose proof (kept_trans _ _ _ Hk1 Hk2) as Hk. pose proof (reuse_pre_kept _ _ _ _ _ Hk2 Htw2 Hpre1) as Hpre2.
  destruct ((hn_n_children (node_of g2 parent) =? 1) && (hn_n_views (node_of g2 parent) =? 0)) eqn:Hc; [|done].
  destruct (take_over_spec g2 p parent hi pi Htw2 (rp_slot _ _ _ _ Hpre2) Hpi ltac:(done))
    as (g3 & -> & Htw3 & Hh3 & Hf3 & Hn3). cbn [mbind res_bind aborts reuse_post].
  split_and!; [done|eapply frame_trans; [apply (kp_frame _ _ Hk)|exact Hf3]|]. exists parent. split.
  - rewrite (kp_node _ _ Hk) in Hc. split_and!; [done|done|done|]. exists pt. split_and!; [done|done|done|lia|lia].
  - intros q. rewrite Hn3. rewrite !(kp_node _ _ Hk). done.
Qed.

Lemma try_inplace_spec own p t hi : (∀ q, q ∈ own → managed T q) → T !! p = Some t →
  ∀ src g, src ⊆ t.(t_src) → reuse_pre g own p hi →
  aborts (try_inplace T g hi t src) (reuse_post g t own p hi).
Proof using All.
  intros Hman Ht. induction src as [|parent src IH]; intros g Hsub Hpre; cbn [try_inplace].
  { cbn. split; [done|apply kept_refl]. }
  assert (src ⊆ t_src t) as Hsub' by set_solver. unfold is_null.
  destruct (Z.eqb_spec parent NULL) as [|Hn]; [by apply IH|].
  eapply aborts_bind; [apply (try_parent_spec g own p t hi parent); [done|done|done|set_solver|done]|].
  intros [[|] g1]; cbn [reuse_post]; [done|]. intros [Hpre1 Hk1].
  eapply aborts_weaken; [by apply IH|]. intros [[|] g2]; cbn [reuse_post].
  - intros (Htw & Hf & parent' & (H1 & H2 & H3 & pt & H4) & Hto). split_and!; [done|eapply frame_trans; [apply (kp_frame _ _ Hk1)|done]|].
    exists parent'. split.
    + split_and!; [done|done|done|]. exists pt. by rewrite (kp_node _ _ Hk1) in H4.
    + intros q. rewrite Hto. rewrite !(kp_node _ _ Hk1). done.
  - intros [? ?]. split; [done|]. by eapply kept_trans.
Qed.

(** The owners after [p] took the place of [parent]. *)
Definition swap (parent p : ptr) (own : list ptr) : list ptr :=
  (λ q, if decide (q = parent) then p else q) <$> own.

Lemma elem_of_swap parent p own q : (p ∉ own) → parent ∈ own →
  q ∈ swap parent p own ↔ q = p ∨ (q ∈ own ∧ q ≠ parent).
Proof.
  intros Hp Hin. unfold swap. rewrite list_elem_of_fmap. split.
  - intros (x & -> & Hx). case_decide; [by left|by right].
  - intros [->|[Hq Hne]]; [exists parent; by rewrite decide_True|exists q; by rewrite decide_False].
Qed.

Lemma mem_inv_swap g g' own p t pt parent : frame g g' → mem_inv g own → (p ∉ own) → parent ∈ own →
  T !! p = Some t → managed_t t = true → T !! parent = Some pt → ggml_are_same_layout t pt = true →
  (∀ q, q ≠ p → same_place g g' q) →
  hn_buffer_id (node_of g' p) = hn_buffer_id (node_of g parent) →
  hn_offset (node_of g' p) = hn_offset (node_of g parent) →
  mem_inv g' (swap parent p own).
Proof using All.
  intros Hf [Hok Hnd Hman Hpl Hdyn] Hp Hin Ht Hm Hpt Hlay Hsame Hid Hoff.
  destruct (frame_eqs _ _ Hf) as (HB & HI & HT & _). pose proof (static_frame _ _ Hf) as Hs.
  assert (place g' p = place g parent) as Hpp.
  { unfold place. rewrite Ht, Hpt. cbn. rewrite (entry_ext g' g' (node_of g parent) (node_of g' p)) by (done || congruence).
    unfold entry. rewrite HB, HI. case_bool_decide; [|done].
    destruct (ga_buf_tallocs g !! _); [|done]. cbn. destruct (ga_bufts g !! _); [|done]. cbn.
    by rewrite (size_layout _ t pt). }
  assert (∀ q, q ∈ own → q ≠ parent → place g' q = place g q) as Hother.
  { intros q Hq Hne. apply (place_ext g g'); [done|]. apply Hsame. congruence. }
  split.
  - by eapply galloc_ok_frame.
  - unfold swap. apply NoDup_fmap_2_strong; [|done]. intros x y Hx Hy. do 2 case_decide; congruence.
  - intros q. rewrite elem_of_swap by done. intros [->|[Hq _]]; [by exists t|auto].
  - intros q. rewrite elem_of_swap by done. intros [->|[Hq Hne]]; [rewrite Hpp; auto|]. rewrite Hother by done. auto.
  - intros k a Hk. rewrite HT in Hk. destruct (Hdyn k a Hk) as (bs & Hi). exists bs.
    assert (live g' k (swap parent p own) = live g k own) as ->; [|done].
    clear -Hp Hpp Hother. unfold live, swap. induction own as [|q own IH]; [done|]. cbn [fmap list_fmap omap list_omap].
    rewrite IH; [|set_solver|intros x ? ?; apply Hother; [by right|done]].
    case_decide as Hq; [subst q; by rewrite Hpp|]. by rewrite Hother by (by left || done).
Qed.

(** *** The whole step *)

(** Nothing to allocate: a view, a tensor with data, or one that owns memory. *)
Definition settled (own : list ptr) (p : ptr) (t : ggml_tensor) : Prop :=
  managed_t t = false ∨ p ∈ own.

(** A tensor that gets memory: over a source, or new. *)
Definition placed (g g' : ggml_gallocr) (own own' : list ptr) (p : ptr) (t : ggml_tensor) (id : Z) : Prop :=
  (∃ parent, reuse_ok g t own parent ∧ ggml_op_can_inplace t.(t_op) = true ∧ own' = swap parent p own ∧
     ∀ q, node_of g' q =
       if decide (q = p) then owned_place (node_of g p) (hn_buffer_id (node_of g parent)) (hn_offset (node_of g parent))
       else if decide (q = parent) then hn_set_allocated (node_of g parent) false else node_of g q) ∨
  (own' = p :: own ∧ ∃ off, ∀ q, node_of g' q = if decide (q = p) then owned_place (node_of g p) id off else node_of g q).

Lemma own_irrefl g own p t : state_inv g own → T !! p = Some t → managed_t t = true → (p ∉ own) →
  hn_allocated (node_of g p) = false.
Proof.
  intros [_ _ Ho] Ht Hm Hp. destruct (hn_allocated (node_of g p)) eqn:E; [|done]. by destruct Hp; apply Ho.
Qed.

Lemma is_allocated_spec g own p t : state_inv g own → T !! p = Some t →
  aborts (ggml_gallocr_is_allocated T g p) (λ '(b, g'), table_wf g' n ∧ kept g g' ∧
    b = (negb (is_null t.(t_data)) || bool_decide (p ∈ own))).
Proof using All.
  intros [Htw Hmem Hown] Ht. unfold ggml_gallocr_is_allocated, deref. rewrite Ht. cbn [mbind res_bind].
  destruct (is_null (t_data t)); cbn [negb orb]; [|cbn [aborts]; split_and!; [done|apply kept_refl|done]].
  unfold ggml_gallocr_is_own.
  eapply aborts_bind; [apply (hash_get_spec n _ p Htw); apply (T_ptr p); eauto|].
  intros [i g1] (Htw1 & Hi & Hk1). rewrite (hn_at_spec n g1 p i) by done. cbn [mbind res_bind aborts].
  split_and!; [done|done|]. rewrite (kp_node _ _ Hk1). apply eq_bool_prop_intro.
  rewrite bool_decide_spec, Hown. destruct (hn_allocated _); naive_solver.
Qed.

Lemma allocate_node_spec g own p t id : state_inv g own → T !! p = Some t →
  0 ≤ id < Z.of_nat (length (ga_bufts g)) →
  aborts (ggml_gallocr_allocate_node buft_get_alloc_size T g p id) (λ g', ∃ own', state_inv g' own' ∧ static g g' ∧
    ((settled own p t ∧ own' = own ∧ ∀ q, node_of g' q = node_of g q) ∨
     (managed_t t = true ∧ (p ∉ own) ∧ placed g g' own own' p t id))).
Proof using All.
  intros Hsi Ht Hid. pose proof Hsi as [Htw Hmem Hown]. unfold ggml_gallocr_allocate_node.
  unfold deref at 1. rewrite Ht. cbn [mbind res_bind].
  eapply aborts_bind; [apply (hash_get_spec n _ p Htw); apply (T_ptr p); eauto|].
  intros [hi g1] (Htw1 & Hhi & Hk1). pose proof (state_inv_kept _ _ _ Hk1 Htw1 Hsi) as Hsi1.
  eapply aborts_bind; [by apply (is_allocated_spec g1 own p t)|].
  intros [b g2] (Htw2 & Hk2 & ->). pose proof (state_inv_kept _ _ _ Hk2 Htw2 Hsi1) as Hsi2.
  pose proof (kept_trans _ _ _ Hk1 Hk2) as Hk. pose proof (kp_slot _ _ Hk2 _ _ Hhi) as Hhi2.
  destruct (negb _ && _) eqn:Hc.
  2: { cbn. exists own. split_and!; [done|apply static_frame, (kp_frame _ _ Hk)|]. left.
    split_and!; [|done|apply (kp_node _ _ Hk)]. unfold settled, managed_t, ggml_is_view in *.
    destruct (is_null (t_view_src t)), (is_null (t_data t)); cbn in *; auto.
    destruct (bool_decide (p ∈ own)) eqn:E; [right; by apply bool_decide_eq_true in E|done]. }
  assert (managed_t t = true ∧ p ∉ own) as [Hm Hp].
  { unfold managed_t, ggml_is_view in *. apply andb_true_iff in Hc as [Hc1 Hc2].
    destruct (is_null (t_view_src t)); [|done]. destruct (is_null (t_data t)); [|done].
    split; [done|]. destruct (bool_decide (p ∈ own)) eqn:E; [done|by apply bool_decide_eq_false in E]. }
  destruct (upd_hn_spec n g2 p hi (λ h, hn_set_allocated h true) Htw2 Hhi2) as (g3 & -> & Htw3 & Hh3 & Hf3 & Hn3).
  cbn [mbind res_bind].
  assert (∀ q, node_of g3 q = if decide (q = p) then hn_set_allocated (node_of g p) true else node_of g q) as Hn3'.
  { intros q. by rewrite Hn3, !(kp_node _ _ Hk). }
  assert (frame g g3) as Hf by (eapply frame_trans; [apply (kp_frame _ _ Hk)|done]).
  assert (∀ q, same_place g g3 q) as Hsame.
  { intros q. unfold same_place. rewrite Hn3'. destruct (decide (q = p)) as [->|]; split; done. }
  assert (mem_inv g3 own) as Hmem3 by (by eapply mem_inv_kept).
  assert (reuse_pre g3 own p hi) as Hpre.
  { split; [done|by rewrite Hh3|]. intros q Hq. rewrite Hn3', decide_False by done. apply Hown. }
  assert (static g g3) as Hs3 by (by apply static_frame).
  eapply (aborts_bind _ _ (λ r, reuse_post g3 t own p hi r ∧ (r.1 = true → ggml_op_can_inplace t.(t_op) = true))).
  { destruct (ggml_op_can_inplace (t_op t)) eqn:Hop.
    - eapply aborts_weaken; [by apply try_inplace_spec; [apply Hmem| | |]|]. naive_solver.
    - cbn. split; [|done]. split; [done|apply kept_refl]. }
  intros [[|] g4]; cbn [reuse_post fst].
  - intros [(Htw4 & Hf4 & parent & (Hin & Hsrc & Hnn & pt & Hpt & Hout & Hlay & Hch & Hvw) & Hto) Hop]. specialize (Hop eq_refl).
    assert (parent ≠ p) as Hne by congruence.
    rewrite Hn3', decide_False in Hch, Hvw by done. cbn [aborts]. exists (swap parent p own).
    assert (∀ q, node_of g4 q =
       if decide (q = p) then owned_place (node_of g p) (hn_buffer_id (node_of g parent)) (hn_offset (node_of g parent))
       else if decide (q = parent) then hn_set_allocated (node_of g parent) false else node_of g q) as Hn4.
    { intros q. rewrite Hto, !Hn3'. rewrite (decide_False (P := parent = p)) by done.
      destruct (decide (q = p)) as [->|]; [by rewrite decide_True|]. done. }
    split_and!.
    + split; [done| |].
      * eapply (mem_inv_swap g3 g4 own p t pt parent); try done.
        -- intros q Hq. unfold same_place. rewrite Hto. rewrite decide_False by done. destruct (decide (q = parent)) as [->|]; split; done.
        -- rewrite Hto, decide_True by done. done.
        -- rewrite Hto, decide_True by done. done.
      * intros q. rewrite elem_of_swap by done. rewrite Hn4.
        destruct (decide (q = p)) as [->|]; [cbn; naive_solver|]. destruct (decide (q = parent)) as [->|]; cbn.
        -- split; [|done]. naive_solver.
        -- rewrite <- Hown. naive_solver.
    + eapply static_trans; [exact Hs3|by apply static_frame].
    + right. split_and!; [done|done|]. left. exists parent. split_and!; [|done|done|done].
      split_and!; [done|done|done|]. by exists pt.
  - intros [[Hpre4 Hk4] _]. pose proof (rp_table _ _ _ _ Hpre4) as Htw4.
    pose proof (kp_node _ _ Hk4) as Hn4.
    assert (mem_inv g4 own) as Hmem4.
    { eapply mem_inv_kept; [apply (kp_frame _ _ Hk4)| |done]. intros q _. unfold same_place. by rewrite Hn4. }
    assert (static g g4) as Hs4 by (eapply static_trans; [exact Hs3|apply static_frame, (kp_frame _ _ Hk4)]).
    eapply aborts_weaken; [apply (alloc_from_buffer_spec g4 own p t hi id); try done|].
    + apply (rp_slot _ _ _ _ Hpre4).
    + by rewrite (st_bufts _ _ Hs4).
    + intros g5 (Htw5 & _ & Hs5 & Hmem5 & off & Hn5). exists (p :: own).
      assert (∀ q, node_of g5 q = if decide (q = p) then owned_place (node_of g p) id off else node_of g q) as Hn5'.
      { intros q. rewrite Hn5, !Hn4, !Hn3'. rewrite (decide_True (P := p = p)) by done.
        destruct (decide (q = p)) as [->|]; done. }
      split_and!; [split; [done|done|]|by eapply static_trans|].
      * intros q. rewrite Hn5', elem_of_cons. destruct (decide (q = p)) as [->|]; cbn; [naive_solver|]. rewrite <- Hown. naive_solver.
      * right. split_and!; [done|done|]. right. split; [done|]. by exists off.
Qed.
End node.
