(* ===== verification/GallocWalk.v ===== *)
(** * The walk of the graph allocator over a graph

    The invariant of [ggml_gallocr_alloc_graph_impl]: the counters of a tensor
    are the number of its uses and of its unfinished views that are still to
    come, every tensor that is still needed owns its memory, and the decisions
    taken so far clobber nothing.  A graph is well formed ([graph_ok]) when it
    is as [ggml_build_forward_expand] builds it and its views refer to tensors
    that come first. *)
From S2P Require Import Prelude HashSet Graph DynAlloc GraphAlloc GallocTable GallocNode.

(** ** Graphs *)

Definition root (T : tensors) (p : ptr) : ptr :=
  match T !! p with Some t => if is_null t.(t_view_src) then p else t.(t_view_src) | None => p end.

Definition op_of (T : tensors) (p : ptr) : ggml_op :=
  match T !! p with Some t => t.(t_op) | None => GGML_OP_NONE end.

Definition flagged (T : tensors) (flag : Z) (p : ptr) : Prop := ∃ t, T !! p = Some t ∧ has_flag t flag = true.

Definition is_view_p (T : tensors) (p : ptr) : Prop := ∃ t, T !! p = Some t ∧ t.(t_view_src) ≠ NULL.

(** The sources of a node. *)
Definition uses (T : tensors) (p : ptr) : list ptr :=
  match T !! p with Some t => filter (λ q, q ≠ NULL) t.(t_src) | None => [] end.

(** A view that the allocator counts, of [r]. *)
Definition counted_view (T : tensors) (v r : ptr) : Prop :=
  ∃ t, T !! v = Some t ∧ t.(t_view_src) = r ∧ r ≠ NULL ∧ t.(t_op) ≠ GGML_OP_NONE.

#[global] Instance counted_view_dec T v r : Decision (counted_view T v r).
Proof.
  destruct (T !! v) as [t|] eqn:E; [|right; intros (t & ? & _); congruence].
  destruct (decide (t_view_src t = r ∧ r ≠ NULL ∧ t_op t ≠ GGML_OP_NONE)) as [H|H].
  - left. by exists t.
  - right. intros (t' & ? & ?). simplify_eq. auto.
Defined.

#[global] Instance is_view_p_dec T p : Decision (is_view_p T p).
Proof.
  destruct (T !! p) as [t|] eqn:E; [|right; intros (t & ? & _); congruence].
  destruct (decide (t_view_src t = NULL)) as [H|H].
  - right. intros (t' & ? & ?). congruence.
  - left. by exists t.
Defined.

Lemma root_not_view T p : ¬ is_view_p T p → root T p = p.
Proof.
  intros Hv. unfold root. destruct (T !! p) as [t|] eqn:Ht; [|done]. unfold is_null.
  destruct (Z.eqb_spec (t_view_src t) NULL); [done|]. destruct Hv. by exists t.
Qed.

Lemma root_view T p t : T !! p = Some t → t.(t_view_src) ≠ NULL → root T p = t.(t_view_src).
Proof. intros Ht Hn. unfold root. rewrite Ht. unfold is_null. by rewrite (proj2 (Z.eqb_neq _ _)). Qed.

Lemma managed_not_view T p : managed T p → ¬ is_view_p T p.
Proof.
  intros (t & Ht & Hm) (t' & Ht' & Hv). simplify_eq. unfold managed_t, is_null in Hm.
  apply andb_true_iff in Hm as [Hm _]. by apply Z.eqb_eq in Hm.
Qed.

Record graph_ok (T : tensors) (nodes leafs : list ptr) : Prop := {
  gr_dom   : ∀ p, p ∈ leafs ++ nodes → is_Some (T !! p);
  gr_nodup : NoDup (leafs ++ nodes);
  gr_topo  : ∀ i p q, nodes !! i = Some p → q ∈ uses T p → q ∈ leafs ∨ q ∈ take i nodes;
  gr_leaf  : ∀ p, p ∈ leafs → op_of T p = GGML_OP_NONE;
  gr_input : ∀ p, p ∈ nodes → flagged T GGML_TENSOR_FLAG_INPUT p → ggml_op_can_inplace (op_of T p) = false;
  gr_view  : ∀ i p, nodes !! i = Some p → is_view_p T p → managed T (root T p) →
               root T p ∈ leafs ∨ root T p ∈ take i nodes;
  gr_vsrc  : ∀ p q, p ∈ nodes → q ∈ uses T p → is_view_p T q → managed T (root T q) →
               q ∈ nodes ∧ op_of T q ≠ GGML_OP_NONE;
}.

(** Tensors of a program, and views that are not views of views. *)
Record program_ok (T : tensors) : Prop := {
  pr_null : T !! NULL = None;
  pr_ptr  : ∀ p, is_Some (T !! p) → ptr_ok p;
  pr_src  : ∀ p t q, T !! p = Some t → q ∈ t.(t_src) → q ≠ NULL → is_Some (T !! q) ∧ q ≠ p;
  pr_view : ∀ p t, T !! p = Some t → t.(t_view_src) ≠ NULL →
              ∃ r, T !! t.(t_view_src) = Some r ∧ r.(t_view_src) = NULL;
}.

Section walk.
Context (T : tensors) (nodes leafs : list ptr).
Hypothesis HP : program_ok T.
Hypothesis HG : graph_ok T nodes leafs.

Definition all_uses : list ptr := nodes ≫= uses T.
Definition uses_from (i : nat) : list ptr := drop i nodes ≫= uses T.

Definition count (L : list ptr) (p : ptr) : nat := length (filter (λ q, q = p) L).

(** The view [v] had uses, and all of them are behind. *)
Definition retired (L : list ptr) (v : ptr) : Prop := v ∈ all_uses ∧ (v ∉ L).

Definition vcount (L : list ptr) (r : ptr) : nat :=
  length (filter (λ v, counted_view T v r ∧ ¬ retired L v) nodes).

(** The tensors that have their memory before step [i]. *)
Definition born (i : nat) (p : ptr) : Prop :=
  p ∈ leafs ∨ p ∈ take i nodes ∨ (p ∈ nodes ∧ flagged T GGML_TENSOR_FLAG_INPUT p).

(** Who must keep its memory, when [L] are the uses to come. *)
Definition needed (i : nat) (L : list ptr) (p : ptr) : Prop :=
  p ∈ L ∨ (0 < vcount L p)%nat ∨ flagged T GGML_TENSOR_FLAG_OUTPUT p ∨ p ∈ drop i nodes.

(** *** Counting *)

Lemma count_cons L q p : count (q :: L) p = ((if decide (q = p) then 1 else 0) + count L p)%nat.
Proof. unfold count. rewrite filter_cons. by case_decide. Qed.

Lemma count_app L L' p : count (L ++ L') p = (count L p + count L' p)%nat.
Proof. unfold count. by rewrite filter_app, length_app. Qed.

Lemma count_pos L p : (0 < count L p)%nat ↔ p ∈ L.
Proof.
  unfold count. split.
  - intros H. destruct (filter (λ q, q = p) L) as [|x l] eqn:E; [cbn in H; lia|].
    assert (x ∈ filter (λ q, q = p) L) as Hx by (rewrite E; left). apply list_elem_of_filter in Hx. naive_solver.
  - intros H. destruct (filter (λ q, q = p) L) as [|x l] eqn:E; [|cbn; lia].
    assert (p ∈ filter (λ q, q = p) L) as Hx by by apply list_elem_of_filter. rewrite E in Hx. by apply elem_of_nil in Hx.
Qed.

Lemma count_zero L p : count L p = 0%nat ↔ p ∉ L.
Proof. rewrite <- count_pos. lia. Qed.

(** Dropping one use of [q] that is not the last changes no view count. *)
Lemma vcount_same L q r : q ∈ L → vcount (q :: L) r = vcount L r.
Proof.
  intros Hq. unfold vcount. f_equal. apply list_filter_iff. intros v. unfold retired. set_solver.
Qed.

Lemma vcount_other L q r : ¬ counted_view T q r → vcount (q :: L) r = vcount L r.
Proof.
  intros Hq. unfold vcount. f_equal. apply list_filter_iff. intros v. unfold retired.
  destruct (decide (v = q)) as [->|]; [naive_solver|]. set_solver.
Qed.

(** Dropping the last use of a counted view retires it. *)
Lemma vcount_last L q r : (q ∉ L) → q ∈ nodes → q ∈ all_uses → counted_view T q r →
  vcount (q :: L) r = S (vcount L r).
Proof.
  intros Hq Hn Ha Hc. pose proof (gr_nodup _ _ _ HG) as [_ [_ Hnd]]%NoDup_app. unfold vcount.
  apply list_elem_of_split in Hn as (l1 & l2 & Hl). rewrite Hl in *.
  assert (∀ l : list ptr, (q ∉ l) → filter (λ v, counted_view T v r ∧ ¬ retired (q :: L) v) l =
    filter (λ v, counted_view T v r ∧ ¬ retired L v) l) as Hsame.
  { intros l Hql. apply list_filter_ext_in. intros v Hv. unfold retired. set_solver. }
  apply NoDup_app in Hnd as (_ & Hd & [Hq2 _]%NoDup_cons).
  assert (q ∉ l1) as Hq1 by (intros ?; apply (Hd q); [done|left]).
  rewrite !filter_app, !length_app, !filter_cons, (Hsame l1), (Hsame l2) by done.
  rewrite decide_True by (split; [done|unfold retired; set_solver]).
  rewrite decide_False by (unfold retired; naive_solver). cbn. lia.
Qed.

Lemma vcount_mono L L' r : L' ⊆ L → (vcount L' r ≤ vcount L r)%nat.
Proof.
  intros Hs. unfold vcount. apply sublist_length. clear HP HG. induction nodes as [|v l IH]; [done|].
  rewrite !filter_cons. repeat case_decide; [by apply sublist_skip| |by apply sublist_cons|done].
  unfold retired in *. set_solver.
Qed.

Lemma vcount_pos L r : (0 < vcount L r)%nat ↔ ∃ v, v ∈ nodes ∧ counted_view T v r ∧ ¬ retired L v.
Proof.
  unfold vcount. split.
  - intros H. destruct (filter _ nodes) as [|v l] eqn:E; [cbn in H; lia|].
    assert (v ∈ v :: l) as Hv by left. rewrite <- E, list_elem_of_filter in Hv. naive_solver.
  - intros (v & Hv & Hc). destruct (filter _ nodes) as [|w l] eqn:E; [|cbn; lia].
    assert (v ∈ filter (λ v, counted_view T v r ∧ ¬ retired L v) nodes) as Hx by by apply list_elem_of_filter.
    rewrite E in Hx. by apply elem_of_nil in Hx.
Qed.

(** *** Regions and claims *)

Context (buft_get_alloc_size : buft → ggml_tensor → Z) (n nb : nat).
Hypothesis size_sane : ∀ b t, size_ok (buft_get_alloc_size b t).
Hypothesis size_layout : ∀ b t t', ggml_are_same_layout t t' = true →
  buft_get_alloc_size b t = buft_get_alloc_size b t'.

(** The allocator and the bytes given to [p]. *)
Definition region_of (g : ggml_gallocr) (p : ptr) : option (nat * free_block) :=
  '(k, e) ← place T buft_get_alloc_size g p; a ← ga_tallocs g !! k; Some (k, region (da_alignment a) e).

Definition apart (g : ggml_gallocr) (p q : ptr) : Prop :=
  ∀ k b c, region_of g p = Some (k, b) → region_of g q = Some (k, c) → disjoint_blocks b c.

(** The region of [p] lies below the size that its buffer will have. *)
Definition in_bounds (g : ggml_gallocr) (p : ptr) : Prop :=
  ∃ k b a, region_of g p = Some (k, b) ∧ ga_tallocs g !! k = Some a ∧
    0 ≤ fb_offset b ∧ bend b ≤ da_max_size a.

(** [r] is read after step [j], or is an output of the graph. *)
Definition needed_after (j : nat) (r : ptr) : Prop :=
  flagged T GGML_TENSOR_FLAG_OUTPUT r ∨
  ∃ i m, (j < i)%nat ∧ nodes !! i = Some m ∧
    ((∃ q, q ∈ uses T m ∧ root T q = r) ∨ (root T m = r ∧ op_of T m ≠ GGML_OP_NONE)).

(** Node [m] writes over its source [r]. *)
Definition reuses (m r : ptr) : Prop :=
  r ∈ uses T m ∧ ggml_op_can_inplace (op_of T m) = true ∧
  ∃ t t', T !! m = Some t ∧ T !! r = Some t' ∧ ggml_are_same_layout t t' = true.

(** Node [m] computes something: it is not a marker for a dependency. *)
Definition computes (m : ptr) : Prop := op_of T m ≠ GGML_OP_NONE ∨ ¬ is_view_p T m.

(** What node [j] writes is apart from what is still needed and from what it
    reads, except from a source that it may overwrite and nobody needs later. *)
Definition step_claim (g : ggml_gallocr) (j : nat) : Prop :=
  ∀ m r, nodes !! j = Some m → computes m → managed T (root T m) → managed T r → r ≠ root T m →
    r ∈ leafs ∨ r ∈ take j nodes →
    (needed_after j r → apart g (root T m) r) ∧
    ((∃ q, q ∈ uses T m ∧ root T q = r) → apart g (root T m) r ∨ (reuses m r ∧ ¬ needed_after j r)).

Record walk_inv (i : nat) (L E own : list ptr) (g : ggml_gallocr) : Prop := {
  wi_state    : state_inv T buft_get_alloc_size n g own;
  wi_nb       : length (ga_bufts g) = nb;
  wi_children : ∀ p, hn_n_children (node_of g p) = Z.of_nat (count L p);
  wi_views    : ∀ r, managed T r ∨ is_view_p T r → hn_n_views (node_of g r) = Z.of_nat (vcount L r);
  wi_born     : ∀ p, p ∈ own → born i p;
  wi_needed   : ∀ p, managed T p → born i p → (p ∉ E) → needed i L p → p ∈ own;
  wi_bounds   : ∀ p, managed T p → born i p → in_bounds g p;
  wi_claims   : ∀ j, (j < i)%nat → step_claim g j;
  wi_leafs    : ∀ p q, p ∈ leafs → q ∈ leafs → managed T p → managed T q → p ≠ q → apart g p q;
}.

Lemma region_of_stable g g' p x : static g g' → place T buft_get_alloc_size g' p = place T buft_get_alloc_size g p →
  region_of g p = Some x → region_of g' p = Some x.
Proof.
  intros [_ _ Hts] Hp. unfold region_of. rewrite Hp. destruct (place _ _ g p) as [[k e]|]; [|done]. cbn.
  destruct (ga_tallocs g !! k) as [a|] eqn:Ha; [|done]. cbn. destruct (Hts k a Ha) as (a' & -> & Hal & _).
  cbn. by rewrite Hal.
Qed.

Lemma in_bounds_stable g g' p : static g g' → place T buft_get_alloc_size g' p = place T buft_get_alloc_size g p →
  in_bounds g p → in_bounds g' p ∧ region_of g' p = region_of g p.
Proof.
  intros Hs Hp (k & b & a & Hr & Ha & H0 & Hb). pose proof (region_of_stable g g' p _ Hs Hp Hr) as Hr'.
  destruct (st_ts _ _ Hs k a Ha) as (a' & Ha' & _ & Hm). split; [|congruence].
  exists k, b, a'. split_and!; [done|done|done|lia].
Qed.

Lemma apart_stable g g' p q : region_of g' p = region_of g p → region_of g' q = region_of g q →
  apart g p q → apart g' p q.
Proof. intros Hp Hq. unfold apart. by rewrite Hp, Hq. Qed.

Lemma live_split g k p own e : NoDup own → p ∈ own → place T buft_get_alloc_size g p = Some (k, e) →
  ∃ own', own ≡ₚ p :: own' ∧ live T buft_get_alloc_size g k own ≡ₚ e :: live T buft_get_alloc_size g k own'.
Proof.
  intros _ Hp Hpl. apply list_elem_of_split in Hp as (l1 & l2 & ->). exists (l1 ++ l2).
  assert (l1 ++ p :: l2 ≡ₚ p :: l1 ++ l2) as Hperm by solve_Permutation.
  split; [done|]. rewrite (live_perm T buft_get_alloc_size g k _ _ Hperm), live_cons, Hpl. by rewrite decide_True.
Qed.

Lemma own_apart g own p q : mem_inv T buft_get_alloc_size g own → p ∈ own → q ∈ own → p ≠ q → apart g p q.
Proof.
  intros [Hok Hnd Hman Hpl Hdyn] Hp Hq Hne k b c Hb Hc. unfold region_of in *.
  destruct (place _ _ g p) as [[kp ep]|] eqn:Hpp; [|done]. cbn in Hb.
  destruct (place _ _ g q) as [[kq eq]|] eqn:Hpq; [|done]. cbn in Hc.
  destruct (ga_tallocs g !! kp) as [a|] eqn:Ha; [|done]. destruct (ga_tallocs g !! kq) as [a'|] eqn:Ha'; [|done].
  cbn in Hb, Hc. simplify_eq. destruct (Hdyn k a Ha) as (bs & Hi).
  destruct (live_split g k p own ep Hnd Hp Hpp) as (own' & Hperm & Hl).
  assert (q ∈ own') as Hq' by (rewrite Hperm in Hq; apply elem_of_cons in Hq; naive_solver).
  assert (NoDup own') as Hnd' by (rewrite Hperm in Hnd; by apply NoDup_cons in Hnd as [_ ?]).
  destruct (live_split g k q own' eq Hnd' Hq' Hpq) as (own'' & _ & Hl').
  rewrite Hl' in Hl. apply (dyn_inv_perm _ _ _ _ _ Hl) in Hi.
  by apply (live_disjoint _ a _ bs 0 1 ep eq Hi).
Qed.

Lemma own_bounds g own p : mem_inv T buft_get_alloc_size g own → p ∈ own → in_bounds g p.
Proof.
  intros [Hok Hnd Hman Hpl Hdyn] Hp. destruct (Hpl p Hp) as [[k e] Hpp].
  assert (is_Some (ga_tallocs g !! k)) as [a Ha].
  { pose proof Hpp as H. unfold place in H. destruct (T !! p); [|done]. cbn in H. unfold entry in H.
    case_bool_decide; [|done]. destruct (ga_buf_tallocs g !! _) as [k'|] eqn:Hk; [|done]. cbn in H.
    destruct (ga_bufts g !! _); [|done]. cbn in H. simplify_eq. by apply (go_ts _ Hok _ _ Hk). }
  destruct (Hdyn k a Ha) as (bs & Hi). destruct (live_split g k p own e Hnd Hp Hpp) as (own' & _ & Hl).
  apply (dyn_inv_perm _ _ _ _ _ Hl) in Hi. pose proof (di_live _ _ _ _ Hi) as [(_ & _ & (H0 & _) & Hb) _]%Forall_cons.
  exists k, (region (da_alignment a) e), a. unfold region_of. rewrite Hpp. cbn. rewrite Ha. done.
Qed.

Lemma take_mono {A} (l : list A) (i j : nat) x : (i ≤ j)%nat → x ∈ take i l → x ∈ take j l.
Proof. intros Hij (k & Hk & Hlt)%elem_of_take. apply elem_of_take. exists k. split; [done|lia]. Qed.

Lemma born_mono i j p : (i ≤ j)%nat → born i p → born j p.
Proof. intros Hij [?|[?|?]]; [by left|right; left; by eapply take_mono|by do 2 right]. Qed.

Lemma root_born j m : nodes !! j = Some m → managed T (root T m) → root T m ∈ leafs ∨ root T m ∈ take (S j) nodes.
Proof.
  intros Hm Hman. destruct (decide (is_view_p T m)) as [Hv|Hv].
  - destruct (gr_view _ _ _ HG j m Hm Hv Hman) as [?|?]; [by left|right]. eapply take_mono; [|done]. lia.
  - right. rewrite root_not_view by done.
    apply elem_of_take. exists j. split; [done|lia].
Qed.

(** What was decided about tensors that are not moved stays true. *)
Lemma walk_stable i L E own g g' : walk_inv i L E own g → static g g' →
  (∀ p, managed T p → born i p → place T buft_get_alloc_size g' p = place T buft_get_alloc_size g p) →
  (∀ p, managed T p → born i p → in_bounds g' p ∧ region_of g' p = region_of g p) ∧
  (∀ j, (j < i)%nat → step_claim g' j) ∧
  (∀ p q, p ∈ leafs → q ∈ leafs → managed T p → managed T q → p ≠ q → apart g' p q).
Proof.
  intros Hw Hs Hpl.
  assert (∀ p, managed T p → born i p → in_bounds g' p ∧ region_of g' p = region_of g p) as Hst.
  { intros p Hm Hb. apply in_bounds_stable; [done|auto|]. by apply (wi_bounds _ _ _ _ _ Hw). }
  split_and!; [done| |].
  - intros j Hj m r Hm Hc Hmr Hr Hne Hrb.
    destruct (wi_claims _ _ _ _ _ Hw j Hj m r Hm Hc Hmr Hr Hne Hrb) as [H1 H2].
    assert (region_of g' (root T m) = region_of g (root T m)) as E1.
    { apply Hst; [done|]. destruct (root_born j m Hm Hmr) as [?|?]; [by left|].
      right. left. eapply take_mono; [|done]. lia. }
    assert (region_of g' r = region_of g r) as E2.
    { apply Hst; [done|]. destruct Hrb as [?|?]; [by left|]. right. left. eapply take_mono; [|done]. lia. }
    split; [intros ?; eapply apart_stable; eauto|]. intros Hq. destruct (H2 Hq) as [?|?]; [left|by right].
    by eapply apart_stable.
  - intros p q Hp Hq Hmp Hmq Hne. eapply apart_stable; [apply Hst; [done|by left]|apply Hst; [done|by left]|].
    by apply (wi_leafs _ _ _ _ _ Hw).
Qed.

(** A step that changes no record. *)
Lemma walk_same i L E own g g' : walk_inv i L E own g → static g g' → state_inv T buft_get_alloc_size n g' own →
  (∀ q, node_of g' q = node_of g q) → walk_inv i L E own g'.
Proof.
  intros Hw Hs Hsi Hn.
  destruct (walk_stable _ _ _ _ _ g' Hw Hs) as (H1 & H2 & H3).
  { intros p _ _. apply place_ext; [done|]. unfold same_place. by rewrite Hn. }
  destruct Hw as [W1 W2 W3 W4 W5 W6 W7 W8 W9].
  split; [done|by rewrite (st_bufts _ _ Hs)| | |done|done| |done|done].
  - intros p. by rewrite Hn.
  - intros r. rewrite Hn. auto.
  - intros p Hm Hb. by apply H1.
Qed.

Lemma prog_view p t : T !! p = Some t → t.(t_view_src) ≠ NULL → is_Some (T !! t.(t_view_src)).
Proof. intros Ht Hv. destruct (pr_view _ HP p t Ht Hv) as (r & ? & _). eauto. Qed.

Lemma allocate_walk g own p t id : state_inv T buft_get_alloc_size n g own → T !! p = Some t →
  0 ≤ id < Z.of_nat (length (ga_bufts g)) →
  aborts (ggml_gallocr_allocate_node buft_get_alloc_size T g p id) (λ g', ∃ own',
    state_inv T buft_get_alloc_size n g' own' ∧ static g g' ∧
    ((settled own p t ∧ own' = own ∧ ∀ q, node_of g' q = node_of g q) ∨
     (managed_t t = true ∧ (p ∉ own) ∧ placed T g g' own own' p t id))).
Proof.
  apply (allocate_node_spec T buft_get_alloc_size n size_sane size_layout (pr_ptr _ HP) (pr_src _ HP) prog_view).
Qed.

(** Allocating a tensor that is settled changes nothing. *)
Lemma allocate_settled i L E own g p t id : walk_inv i L E own g → T !! p = Some t → settled own p t →
  0 ≤ id < Z.of_nat nb →
  aborts (ggml_gallocr_allocate_node buft_get_alloc_size T g p id) (walk_inv i L E own).
Proof.
  intros Hw Ht Hset Hid. eapply aborts_weaken.
  - apply (allocate_walk g own p t id); [apply Hw|done|]. by rewrite (wi_nb _ _ _ _ _ Hw).
  - intros g' (own' & Hsi & Hs & [(_ & -> & Hn)|(Hm & Hp & _)]).
    + by eapply walk_same.
    + destruct Hset as [?|?]; [congruence|done].
Qed.

(** *** The uses to come *)

Lemma uses_from_step i m : nodes !! i = Some m → uses_from i = uses T m ++ uses_from (S i).
Proof. intros Hm. unfold uses_from. by rewrite (drop_S _ m i Hm). Qed.

Lemma elem_of_uses_from i q : q ∈ uses_from i ↔ ∃ j m, (i ≤ j)%nat ∧ nodes !! j = Some m ∧ q ∈ uses T m.
Proof.
  unfold uses_from. rewrite list_elem_of_bind. split.
  - intros (m & Hq & [k Hm]%list_elem_of_lookup). rewrite lookup_drop in Hm. exists (i + k)%nat, m. split_and!; [lia|done|done].
  - intros (j & m & Hij & Hm & Hq). exists m. split; [done|]. apply list_elem_of_lookup. exists (j - i)%nat.
    rewrite lookup_drop. by replace (i + (j - i))%nat with j by lia.
Qed.

Lemma uses_from_all i q : q ∈ uses_from i → q ∈ all_uses.
Proof.
  rewrite elem_of_uses_from. intros (j & m & _ & Hm & Hq). unfold all_uses. apply list_elem_of_bind.
  exists m. split; [done|by eapply list_elem_of_lookup_2].
Qed.

Lemma uses_src m q : q ∈ uses T m ↔ ∃ t, T !! m = Some t ∧ q ∈ t.(t_src) ∧ q ≠ NULL.
Proof.
  unfold uses. destruct (T !! m) as [t|]; [|split; [by intros ?%elem_of_nil|naive_solver]].
  rewrite list_elem_of_filter. naive_solver.
Qed.

(** Positions in the graph. *)
Lemma node_pos i j m : nodes !! i = Some m → m ∈ take j nodes → (i < j)%nat.
Proof.
  intros Hi (k & Hk & Hlt)%elem_of_take. pose proof (gr_nodup _ _ _ HG) as [_ [_ Hnd]]%NoDup_app.
  by rewrite (NoDup_lookup _ _ _ _ Hnd Hi Hk).
Qed.

Lemma leaf_not_node p : p ∈ leafs → p ∉ nodes.
Proof. pose proof (gr_nodup _ _ _ HG) as (_ & Hd & _)%NoDup_app. auto. Qed.

Lemma born_not_later i p : p ∈ leafs ∨ p ∈ take i nodes → p ∉ drop i nodes.
Proof.
  intros Hb [k Hk]%list_elem_of_lookup. rewrite lookup_drop in Hk. destruct Hb as [Hb|Hb].
  - apply (leaf_not_node p Hb). by eapply list_elem_of_lookup_2.
  - pose proof (node_pos _ _ _ Hk Hb). lia.
Qed.

(** A node is used by later nodes only. *)
Lemma unretired i k m : nodes !! i = Some m → (k ≤ S i)%nat → ¬ retired (uses_from k) m.
Proof.
  intros Hm Hk [Hall Hno]. apply Hno. unfold all_uses in Hall.
  apply list_elem_of_bind in Hall as (x & Hx & [j Hj]%list_elem_of_lookup).
  apply elem_of_uses_from. exists j, x. split_and!; [|done|done].
  destruct (gr_topo _ _ _ HG j x m Hj Hx) as [Hl|Ht].
  - destruct (leaf_not_node m Hl). by eapply list_elem_of_lookup_2.
  - pose proof (node_pos _ _ _ Hm Ht). lia.
Qed.

Lemma view_counted q : is_view_p T q → op_of T q ≠ GGML_OP_NONE → counted_view T q (root T q).
Proof.
  intros (t & Ht & Hv) Hop. exists t. rewrite (root_view T q t) by done. unfold op_of in Hop. by rewrite Ht in Hop.
Qed.

(** A use to come of [q] needs the memory behind [q]. *)
Lemma use_needed i m q : m ∈ nodes → q ∈ uses T m → q ∈ uses_from i → managed T (root T q) → needed i (uses_from i) (root T q).
Proof.
  intros Hm Hq Hin Hman. destruct (decide (is_view_p T q)) as [Hv|Hv].
  - destruct (gr_vsrc _ _ _ HG m q Hm Hq Hv Hman) as [Hqn Hop]. right. left. apply vcount_pos.
    exists q. split_and!; [done|by apply view_counted|]. intros [_ ?]. done.
  - rewrite root_not_view by done. by left.
Qed.

Lemma needed_after_needed j r : managed T r → needed_after j r → needed (S j) (uses_from (S j)) r.
Proof.
  intros Hman [Ho|(i & m & Hij & Hm & [(q & Hq & <-)|[<- Hop]])].
  - by do 2 right; left.
  - apply (use_needed (S j) m); [by eapply list_elem_of_lookup_2|done| |done].
    apply elem_of_uses_from. exists i, m. split_and!; [lia|done|done].
  - destruct (decide (is_view_p T m)) as [Hv|Hv].
    + right. left. apply vcount_pos. exists m.
      split_and!; [by eapply list_elem_of_lookup_2|by apply view_counted|apply (unretired i); [done|lia]].
    + do 3 right. rewrite root_not_view by done. apply list_elem_of_lookup. exists (i - S j)%nat.
      rewrite lookup_drop. by replace (S j + (i - S j))%nat with i by lia.
Qed.

Lemma needed_mono i j L L' r : (i ≤ j)%nat → L' ⊆ L → needed j L' r → needed i L r.
Proof.
  intros Hij Hs [?|[H|[?|H]]].
  - left. auto.
  - right. left. pose proof (vcount_mono L L' r Hs). lia.
  - by do 2 right; left.
  - do 3 right. apply list_elem_of_lookup in H as [k Hk]. rewrite lookup_drop in Hk.
    apply list_elem_of_lookup. exists (j - i + k)%nat. rewrite lookup_drop. by replace (i + (j - i + k))%nat with (j + k)%nat by lia.
Qed.

Lemma uses_from_mono i : uses_from (S i) ⊆ uses_from i.
Proof.
  intros q. rewrite !elem_of_uses_from. intros (j & m & ? & ? & ?). exists j, m. split_and!; [lia|done|done].
Qed.

Lemma op_leaf_no_inplace p : p ∈ leafs → ggml_op_can_inplace (op_of T p) = false.
Proof. intros Hp. by rewrite (gr_leaf _ _ _ HG p Hp). Qed.

(** *** Allocating the node of a step *)

Definition at_step (i : nat) := walk_inv i (uses_from i) [].

(** What an operand of node [i] reads is owned when the step begins. *)
Lemma operand_owned i own g m q : at_step i own g → nodes !! i = Some m → q ∈ uses T m → managed T (root T q) →
  born i (root T q) → root T q ∈ own.
Proof.
  intros Hw Hm Hq Hman Hb. apply (wi_needed _ _ _ _ _ Hw); [done|done|apply not_elem_of_nil|].
  apply (use_needed i m); [by eapply list_elem_of_lookup_2|done| |done].
  apply elem_of_uses_from. exists i, m. split_and!; [lia|done|done].
Qed.

Lemma target_owned i own g m : at_step i own g → nodes !! i = Some m → is_view_p T m → computes m →
  managed T (root T m) → root T m ∈ own.
Proof.
  intros Hw Hm Hv Hc Hman. apply (wi_needed _ _ _ _ _ Hw); [done| |apply not_elem_of_nil|].
  - destruct (gr_view _ _ _ HG i m Hm Hv Hman) as [?|?]; [by left|by right; left].
  - right. left. apply vcount_pos. exists m. destruct Hc as [Hop|?]; [|done].
    split_and!; [by eapply list_elem_of_lookup_2|by apply view_counted|apply (unretired i); [done|lia]].
Qed.

Lemma later_owned i own g r : at_step i own g → managed T r → born i r → needed_after i r → r ∈ own.
Proof.
  intros Hw Hman Hb Hn. apply (wi_needed _ _ _ _ _ Hw); [done|done|apply not_elem_of_nil|].
  eapply (needed_mono i (S i)); [lia|apply uses_from_mono|]. by apply needed_after_needed.
Qed.

(** The claim of step [i], when the target of the node is owned and the others
    are owned but for a reused source. *)
Lemma claim_from_owners i own own' g g' m (E : list ptr) : at_step i own g → nodes !! i = Some m →
  mem_inv T buft_get_alloc_size g' own' →
  (computes m → managed T (root T m) → root T m ∈ own') →
  (∀ r, r ∈ own → r ≠ root T m → (r ∉ E) → r ∈ own') →
  (∀ r, r ∈ E → reuses m r ∧ ¬ needed_after i r) →
  step_claim g' i.
Proof.
  intros Hw Hm Hmem Htgt Hown HE m' r Hm' Hc Hmt Hmr Hne Hb. simplify_eq.
  assert (born i r) as Hbr by (destruct Hb; [by left|by right; left]).
  assert (r ∈ own → (r ∉ E) → apart g' (root T m) r) as Hap.
  { intros Hr HrE. eapply own_apart; [done|by apply Htgt|by apply Hown|done]. }
  destruct (decide (r ∈ E)) as [HrE|HrE].
  - destruct (HE r HrE) as [? Hno]. split; [done|]. by right.
  - split.
    + intros Hn. apply Hap; [|done]. by eapply later_owned.
    + intros (q & Hq & <-). left. apply Hap; [|done]. by eapply operand_owned.
Qed.

Lemma owned_at_settled i own g m t : at_step i own g → nodes !! i = Some m → T !! m = Some t → settled own m t →
  computes m → managed T (root T m) → root T m ∈ own.
Proof.
  intros Hw Hm Ht Hset Hc Hman. destruct (decide (is_view_p T m)) as [Hv|Hv].
  - by eapply target_owned.
  - rewrite root_not_view in * by done. destruct Hset as [Hf|?]; [|done].
    destruct Hman as (t' & ? & ?). congruence.
Qed.

(** The invariant after node [i] got its memory: [E] is the source it took over. *)
Definition node_placed (i : nat) (m : ptr) (own : list ptr) (g : ggml_gallocr) : Prop :=
  ∃ E, walk_inv (S i) (uses_from i) E own g ∧
    ∀ p, p ∈ E → p ∈ uses T m ∧ count (uses_from i) p = 1%nat ∧ ¬ needed (S i) (uses_from (S i)) p.

Lemma born_succ i m p : nodes !! i = Some m → born (S i) p → born i p ∨ p = m.
Proof.
  intros Hm [?|[(k & Hk & Hlt)%elem_of_take|?]]; [by left; left| |by left; do 2 right].
  destruct (decide (k = i)) as [->|]; [right; congruence|]. left. right. left. apply elem_of_take.
  exists k. split; [done|lia].
Qed.

(** Common part of the three cases of an allocation. *)
Lemma walk_advance i own own' E g g' m : at_step i own g → nodes !! i = Some m →
  state_inv T buft_get_alloc_size n g' own' → static g g' →
  (∀ q, hn_n_children (node_of g' q) = hn_n_children (node_of g q) ∧ hn_n_views (node_of g' q) = hn_n_views (node_of g q)) →
  (∀ q, managed T q → born i q → place T buft_get_alloc_size g' q = place T buft_get_alloc_size g q) →
  (∀ q, q ∈ own' → q ∈ own ∨ q = m) →
  (∀ r, r ∈ own → (r ∉ E) → r ∈ own') →
  (managed T m → m ∈ own') →
  step_claim g' i →
  walk_inv (S i) (uses_from i) E own' g'.
Proof.
  intros Hw Hm Hsi Hs Hcnt Hpl Hsub Hsup Hmown Hclaim.
  destruct (walk_stable _ _ _ _ _ g' Hw Hs Hpl) as (H1 & H2 & H3).
  destruct Hw as [W1 W2 W3 W4 W5 W6 W7 W8 W9]. split.
  - done.
  - by rewrite (st_bufts _ _ Hs).
  - intros p. destruct (Hcnt p) as [-> _]. auto.
  - intros r Hr. destruct (Hcnt r) as [_ ->]. auto.
  - intros p Hp. destruct (Hsub p Hp) as [?| ->].
    + apply (born_mono i); [lia|auto].
    + right. left. apply elem_of_take. exists i. split; [done|lia].
  - intros p Hman Hb HpE Hn. destruct (born_succ i m p Hm Hb) as [Hb'| ->]; [|auto].
    apply Hsup; [|done]. apply W6; [done|done|apply not_elem_of_nil|].
    eapply needed_mono; [| |exact Hn]; [lia|done].
  - intros p Hman Hb. destruct (born_succ i m p Hm Hb) as [Hb'| ->]; [by apply H1|].
    eapply own_bounds; [apply Hsi|auto].
  - intros j Hj. destruct (decide (j = i)) as [->|]; [done|]. apply H2. lia.
  - done.
Qed.

Lemma placed_counts g g' own own' p t id : placed T g g' own own' p t id →
  ∀ q, hn_n_children (node_of g' q) = hn_n_children (node_of g q) ∧ hn_n_views (node_of g' q) = hn_n_views (node_of g q).
Proof.
  intros [(parent & _ & _ & _ & Hn)|(_ & off & Hn)] q; rewrite Hn.
  - destruct (decide (q = p)) as [->|]; [done|]. destruct (decide (q = parent)) as [->|]; done.
  - destruct (decide (q = p)) as [->|]; done.
Qed.

Lemma placed_places g g' own own' p t id : static g g' → placed T g g' own own' p t id →
  ∀ q, q ≠ p → place T buft_get_alloc_size g' q = place T buft_get_alloc_size g q.
Proof.
  intros Hs Hp q Hq. apply place_ext; [done|]. unfold same_place.
  destruct Hp as [(parent & _ & _ & _ & Hn)|(_ & off & Hn)]; rewrite Hn, decide_False by done; [|done].
  destruct (decide (q = parent)) as [->|]; done.
Qed.

Lemma reused_source i own g m t parent : at_step i own g → nodes !! i = Some m → T !! m = Some t →
  reuse_ok T g t own parent → ggml_op_can_inplace t.(t_op) = true →
  reuses m parent ∧ parent ∈ uses T m ∧ count (uses_from i) parent = 1%nat ∧
  ¬ needed (S i) (uses_from (S i)) parent.
Proof.
  intros Hw Hm Ht (Hin & Hsrc & Hnn & pt & Hpt & Hout & Hlay & Hch & Hvw) Hop.
  assert (parent ∈ uses T m) as Hu by (apply uses_src; eauto).
  assert (managed T parent) as Hman by (by eapply mi_managed; [apply (wi_state _ _ _ _ _ Hw)|]).
  rewrite (wi_children _ _ _ _ _ Hw) in Hch. rewrite (wi_views _ _ _ _ _ Hw) in Hvw by by left.
  split_and!; [|done|lia|].
  - split_and!; [done|unfold op_of; by rewrite Ht|]. by exists t, pt.
  - intros [Hn|[Hn|[(pt' & ? & ?)|Hn]]].
    + rewrite (uses_from_step i m Hm), count_app in Hch. apply count_pos in Hu, Hn. lia.
    + pose proof (vcount_mono _ _ parent (uses_from_mono i)). lia.
    + congruence.
    + destruct (born_not_later (S i) parent) ; [|done].
      destruct (gr_topo _ _ _ HG i m parent Hm Hu) as [?|?]; [by left|right]. eapply take_mono; [|done]. lia.
Qed.

Lemma allocate_node_walk i own g m t id : at_step i own g → nodes !! i = Some m → T !! m = Some t →
  0 ≤ id < Z.of_nat nb →
  aborts (ggml_gallocr_allocate_node buft_get_alloc_size T g m id) (λ g', ∃ own', node_placed i m own' g').
Proof.
  intros Hw Hm Ht Hid. eapply aborts_weaken.
  { apply (allocate_walk g own m t id); [apply Hw|done|by rewrite (wi_nb _ _ _ _ _ Hw)]. }
  intros g' (own' & Hsi & Hs & [(Hset & -> & Hn)|(Hmt & Hnin & Hpl)]).
  - exists own, []. split; [|by intros p Hp%elem_of_nil].
    apply (walk_advance i own own [] g g' m); try done.
    + intros q. by rewrite Hn.
    + intros q _ _. apply place_ext; [done|]. unfold same_place. by rewrite Hn.
    + auto.
    + intros (t' & Ht' & Hm'). destruct Hset; [congruence|done].
    + apply (claim_from_owners i own own g g' m []); try done; [apply Hsi| |by intros r Hr%elem_of_nil].
      intros Hc Hman. by eapply owned_at_settled.
  - assert (managed T m) as Hman by by exists t.
    assert (root T m = m) as Hroot by by apply root_not_view, managed_not_view.
    assert (¬ born i m) as Hnb.
    { intros Hb. apply Hnin. apply (wi_needed _ _ _ _ _ Hw); [done|done|apply not_elem_of_nil|].
      do 3 right. apply list_elem_of_lookup. exists 0%nat. by rewrite lookup_drop, Nat.add_0_r. }
    pose proof (placed_counts _ _ _ _ _ _ _ Hpl) as Hcnt.
    pose proof (placed_places _ _ _ _ _ _ _ Hs Hpl) as Hplace.
    destruct Hpl as [(parent & Hre & Hop & -> & _)|(-> & _)].
    + destruct (reused_source i own g m t parent Hw Hm Ht Hre Hop) as (Hreuse & Hu & Hc1 & Hnn).
      exists (swap parent m own), [parent]. split; [|by intros p Hp; apply list_elem_of_singleton in Hp; subst p].
      assert (∀ q, q ∈ swap parent m own ↔ q = m ∨ (q ∈ own ∧ q ≠ parent)) as Hsw
        by (intros q; apply elem_of_swap; [done|apply Hre]).
      apply (walk_advance i own _ [parent] g g' m); try done.
      * intros q _ Hb. apply Hplace. by intros ->.
      * intros q. rewrite Hsw. naive_solver.
      * intros r Hr Hne. rewrite Hsw. right. split; [done|]. intros ->. apply Hne. by apply list_elem_of_singleton.
      * intros _. rewrite Hsw. by left.
      * apply (claim_from_owners i own (swap parent m own) g g' m [parent]); try done; [apply Hsi| | |].
        -- intros _ _. rewrite Hroot, Hsw. by left.
        -- intros r Hr Hne HrE. rewrite Hsw. right. split; [done|]. intros ->. apply HrE. by apply list_elem_of_singleton.
        -- intros r HrE. apply list_elem_of_singleton in HrE. subst r. split; [done|]. intros Hna. apply Hnn.
           apply needed_after_needed; [|done]. by eapply mi_managed; [apply (wi_state _ _ _ _ _ Hw)|apply Hre].
    + exists (m :: own), []. split; [|by intros p Hp%elem_of_nil].
      apply (walk_advance i own _ [] g g' m); try done.
      * intros q _ Hb. apply Hplace. by intros ->.
      * intros q [->|?]%elem_of_cons; auto.
      * intros r ? _. by right.
      * intros _. left.
      * apply (claim_from_owners i own (m :: own) g g' m []); try done; [apply Hsi| | |by intros r Hr%elem_of_nil].
        -- intros _ _. rewrite Hroot. left.
        -- intros r ? _ _. by right.
Qed.

(** *** Counting a use as done *)

(** A step that changes counters only. *)
Lemma walk_recount k L L' E own g g' : walk_inv k L E own g → L' ⊆ L →
  state_inv T buft_get_alloc_size n g' own → static g g' → (∀ q, same_place g g' q) →
  (∀ p, hn_n_children (node_of g' p) = Z.of_nat (count L' p)) →
  (∀ r, managed T r ∨ is_view_p T r → hn_n_views (node_of g' r) = Z.of_nat (vcount L' r)) →
  walk_inv k L' E own g'.
Proof.
  intros Hw Hsub Hsi Hs Hpl Hc Hv.
  destruct (walk_stable _ _ _ _ _ g' Hw Hs) as (H1 & H2 & H3); [intros p _ _; by apply place_ext|].
  destruct Hw as [W1 W2 W3 W4 W5 W6 W7 W8 W9]. split; try done.
  - by rewrite (st_bufts _ _ Hs).
  - intros p Hm Hb HE Hn. apply W6; [done|done|done|]. by eapply needed_mono.
  - intros p Hm Hb. by apply H1.
Qed.

Lemma add_views_keeps d h : hn_buffer_id (hn_add_views h d) = hn_buffer_id h ∧
  hn_offset (hn_add_views h d) = hn_offset h ∧ hn_allocated (hn_add_views h d) = hn_allocated h.
Proof. done. Qed.

Lemma add_children_keeps d h : hn_buffer_id (hn_add_children h d) = hn_buffer_id h ∧
  hn_offset (hn_add_children h d) = hn_offset h ∧ hn_allocated (hn_add_children h d) = hn_allocated h.
Proof. done. Qed.

(** A step that changes one record, not its place nor its owner. *)
Lemma state_inv_upd own g g' p f : state_inv T buft_get_alloc_size n g own → table_wf g' n → frame g g' →
  (∀ q, node_of g' q = if decide (q = p) then f (node_of g p) else node_of g q) →
  (∀ h, hn_buffer_id (f h) = hn_buffer_id h ∧ hn_offset (f h) = hn_offset h ∧ hn_allocated (f h) = hn_allocated h) →
  state_inv T buft_get_alloc_size n g' own ∧ static g g' ∧ ∀ q, same_place g g' q.
Proof.
  intros [_ Hmem Hown] Htw Hf Hn Hfk.
  assert (∀ q, same_place g g' q) as Hsame.
  { intros q. unfold same_place. rewrite Hn. destruct (decide (q = p)) as [->|]; [|done].
    destruct (Hfk (node_of g p)) as (? & ? & _). done. }
  split_and!; [|by apply static_frame|done]. split; [done|by eapply mem_inv_kept|].
  intros q. rewrite Hown, Hn. destruct (decide (q = p)) as [->|]; [|done].
  by destruct (Hfk (node_of g p)) as (_ & _ & ->).
Qed.

Lemma walk_free k L E own g p : walk_inv k L E own g → p ∈ own → count L p = 0%nat → vcount L p = 0%nat →
  (p ∉ drop k nodes) →
  aborts (ggml_gallocr_free_node buft_get_alloc_size T g p) (λ g', ∃ own', walk_inv k L E own' g').
Proof.
  intros Hw Hp Hc Hv Hd. pose proof (wi_state _ _ _ _ _ Hw) as Hsi.
  destruct (mi_managed _ _ _ _ (si_mem _ _ _ _ _ Hsi) p Hp) as (t & Ht & Hmt).
  eapply aborts_weaken.
  { apply (free_node_spec T buft_get_alloc_size n size_sane size_layout (pr_ptr _ HP) (pr_src _ HP) prog_view g own p t Hsi Hp Ht). }
  intros g' (own' & Hsi' & Hs & Hcase). exists own'. destruct (has_flag t GGML_TENSOR_FLAG_OUTPUT) eqn:Hout.
  { by destruct Hcase as [-> ->]. }
  destruct Hcase as [Hperm Hn].
  assert (∀ q, same_place g g' q) as Hsame.
  { intros q. unfold same_place. rewrite Hn. destruct (decide (q = p)) as [->|]; done. }
  destruct (walk_stable _ _ _ _ _ g' Hw Hs) as (H1 & H2 & H3); [intros q _ _; by apply place_ext|].
  assert (∀ q, hn_n_children (node_of g' q) = hn_n_children (node_of g q) ∧ hn_n_views (node_of g' q) = hn_n_views (node_of g q)) as Hcnt.
  { intros q. rewrite Hn. destruct (decide (q = p)) as [->|]; done. }
  destruct Hw as [W1 W2 W3 W4 W5 W6 W7 W8 W9]. split; try done.
  - by rewrite (st_bufts _ _ Hs).
  - intros q. destruct (Hcnt q) as [-> _]. auto.
  - intros r Hr. destruct (Hcnt r) as [_ ->]. auto.
  - intros q Hq. apply W5. rewrite Hperm. by right.
  - intros q Hm Hb HE Hnd. assert (q ∈ own) as Hq by auto. rewrite Hperm in Hq.
    apply elem_of_cons in Hq as [->|?]; [|done]. exfalso. destruct Hnd as [Hn1|[Hn1|[(t' & ? & ?)|?]]].
    + by apply count_zero in Hn1.
    + lia.
    + congruence.
    + done.
  - intros q Hm Hb. by apply H1.
Qed.

Lemma no_views_of_views L q : is_view_p T q → vcount L q = 0%nat.
Proof.
  intros (t & Ht & Hv). destruct (vcount L q) as [|k] eqn:E; [done|].
  destruct (proj1 (vcount_pos L q)) as (v & _ & (tv & Htv & Hvq & Hq & _) & _); [lia|].
  destruct (pr_view _ HP v tv Htv) as (r & Hr & Hrv); [congruence|]. simplify_eq.
Qed.

Lemma not_view_counts L q r : ¬ is_view_p T q → vcount (q :: L) r = vcount L r.
Proof.
  intros Hq. apply vcount_other. intros (t & Ht & Hr & Hn & _). apply Hq. exists t. split; [done|congruence].
Qed.

(** Sources come before the node, so do the tensors they are views of. *)
Lemma source_not_later i m q : nodes !! i = Some m → q ∈ uses T m → managed T (root T q) →
  root T q ∉ drop (S i) nodes.
Proof.
  intros Hm Hq Hman. apply born_not_later. pose proof (gr_topo _ _ _ HG i m q Hm Hq) as Hb.
  destruct (decide (is_view_p T q)) as [Hv|Hv].
  - destruct (gr_vsrc _ _ _ HG m q ltac:(by eapply list_elem_of_lookup_2) Hq Hv Hman) as [Hqn _].
    destruct Hb as [Hl|(j & Hj & Hlt)%elem_of_take]; [by destruct (leaf_not_node q Hl)|].
    destruct (gr_view _ _ _ HG j q Hj Hv Hman) as [?|?]; [by left|right]. eapply take_mono; [|done]. lia.
  - rewrite root_not_view by done. destruct Hb as [?|?]; [by left|right]. eapply take_mono; [|done]. lia.
Qed.

Lemma walk_kept k L E own g g' : walk_inv k L E own g → kept g g' → table_wf g' n → walk_inv k L E own g'.
Proof.
  intros Hw Hk Htw. eapply walk_same; [done|apply static_frame, (kp_frame _ _ Hk)| |apply (kp_node _ _ Hk)].
  eapply state_inv_kept; [done|done|apply Hw].
Qed.

(** The last use of a view: its source loses a view, and maybe its memory. *)
Lemma retire_view i m L2 E own g q t : nodes !! i = Some m → q ∈ uses T m → T !! q = Some t →
  t.(t_view_src) ≠ NULL → (q ∉ L2) →
  state_inv T buft_get_alloc_size n g own →
  (∀ g', state_inv T buft_get_alloc_size n g' own → static g g' → (∀ x, same_place g g' x) →
     (∀ x, hn_n_children (node_of g' x) = hn_n_children (node_of g x)) →
     (∀ r, managed T r ∨ is_view_p T r → hn_n_views (node_of g' r) = Z.of_nat (vcount L2 r)) →
     walk_inv (S i) L2 E own g') →
  (∀ r, managed T r ∨ is_view_p T r → hn_n_views (node_of g r) = Z.of_nat (vcount (q :: L2) r)) →
  (∀ x, hn_n_children (node_of g x) = Z.of_nat (count L2 x)) →
  aborts ('(vi, g) ← ggml_gallocr_hash_get g t.(t_view_src);
          g ← upd_hn g vi (λ h, hn_add_views h (-1));
          v ← hn_at g vi;
          if (v.(hn_n_views) =? 0) && (v.(hn_n_children) =? 0) && v.(hn_allocated)
          then ggml_gallocr_free_node buft_get_alloc_size T g t.(t_view_src) else Ok g)
    (λ g', ∃ own', walk_inv (S i) L2 E own' g').
Proof.
  intros Hm Hq Ht Hvs Hlast Hsi Hmk Hviews Hch. set (r := t_view_src t).
  destruct (prog_view q t Ht Hvs) as [tr Htr]. assert (root T q = r) as Hroot by by apply root_view.
  assert (is_view_p T q) as Hqv by by exists t.
  eapply aborts_bind; [apply (hash_get_spec n _ r (si_table _ _ _ _ _ Hsi)); apply (pr_ptr _ HP r); by exists tr|].
  intros [vi g1] (Htw1 & Hvi & Hk1). pose proof (state_inv_kept _ _ _ _ _ _ Hk1 Htw1 Hsi) as Hsi1.
  destruct (upd_hn_spec n g1 r vi (λ h, hn_add_views h (-1)) Htw1 Hvi) as (g2 & -> & Htw2 & Hh2 & Hf2 & Hn2).
  cbn [mbind res_bind]. rewrite (hn_at_spec n g2 r vi) by (done || by rewrite Hh2). cbn [mbind res_bind].
  destruct (state_inv_upd own g1 g2 r _ Hsi1 Htw2 Hf2 Hn2 (add_views_keeps (-1))) as (Hsi2 & Hs2 & Hp2).
  pose proof (kp_node _ _ Hk1) as Hn1.
  assert (∀ x, hn_n_children (node_of g2 x) = hn_n_children (node_of g x)) as Hch2.
  { intros x. rewrite Hn2, !Hn1. destruct (decide (x = r)) as [->|]; done. }
  assert (managed T r → counted_view T q r ∧ q ∈ nodes ∧ q ∈ all_uses) as Hcv.
  { intros Hman. rewrite <- Hroot in Hman.
    destruct (gr_vsrc _ _ _ HG m q ltac:(by eapply list_elem_of_lookup_2) Hq Hqv Hman) as [Hqn Hop].
    split_and!; [rewrite <- Hroot; by apply view_counted|done|]. apply (uses_from_all i). rewrite (uses_from_step i m Hm).
    apply elem_of_app. by left. }
  assert (∀ x, managed T x ∨ is_view_p T x → hn_n_views (node_of g2 x) = Z.of_nat (vcount L2 x)) as Hv2.
  { intros x Hx. rewrite Hn2, !Hn1. destruct (decide (x = r)) as [->|Hxr].
    - cbn. rewrite Hviews by done. destruct Hx as [Hman|(tr' & Htr' & Hrv)].
      + destruct (Hcv Hman) as (Hc & Hqn & Hqa). rewrite (vcount_last L2 q r) by done. lia.
      + destruct (pr_view _ HP q t Ht Hvs) as (tr2 & Htr2 & Hnull). fold r in Htr2. congruence.
    - rewrite Hviews by done. rewrite vcount_other; [done|]. intros (t' & Ht' & Hx' & _). unfold r in Hxr. congruence. }
  assert (walk_inv (S i) L2 E own g2) as Hw2.
  { apply Hmk; [done| | |done|done].
    - eapply static_trans; [apply static_frame, (kp_frame _ _ Hk1)|done].
    - intros x. destruct (Hp2 x) as [Ha Hb]. unfold same_place. rewrite Ha, Hb, Hn1. done. }
  destruct ((_ =? 0) && _ && _) eqn:Hc; [|by exists own].
  apply andb_true_iff in Hc as [[Hc1 Hc2]%andb_true_iff Hal].
  assert (r ∈ own) as Hr by by apply (si_own _ _ _ _ _ Hsi2).
  assert (managed T r) as Hman by (by eapply mi_managed; [apply Hsi2|]).
  apply (walk_free (S i) L2 E own g2 r Hw2 Hr).
  - rewrite Hch2, Hch in Hc2. lia.
  - rewrite Hv2 in Hc1 by by left. lia.
  - rewrite <- Hroot. apply (source_not_later i m q Hm Hq). by rewrite Hroot.
Qed.

Lemma update_parent_walk i m q L2 E own g : nodes !! i = Some m → q ∈ uses T m → walk_inv (S i) (q :: L2) E own g →
  aborts (update_parent buft_get_alloc_size T g q) (λ g', ∃ own', walk_inv (S i) L2 E own' g').
Proof.
  intros Hm Hq Hw. pose proof (wi_state _ _ _ _ _ Hw) as Hsi.
  pose proof Hq as (tm & Htm & Hsrc & Hnn)%uses_src. destruct (pr_src _ HP m tm q Htm Hsrc Hnn) as [[t Ht] Hqm].
  unfold update_parent, is_null at 1. rewrite (proj2 (Z.eqb_neq _ _)) by done.
  unfold deref at 1. rewrite Ht. cbn [mbind res_bind].
  eapply aborts_bind; [apply (hash_get_spec n _ q (si_table _ _ _ _ _ Hsi)); apply (pr_ptr _ HP q); by exists t|].
  intros [pi g1] (Htw1 & Hpi & Hk1). pose proof (walk_kept _ _ _ _ _ _ Hw Hk1 Htw1) as Hw1.
  destruct (upd_hn_spec n g1 q pi (λ h, hn_add_children h (-1)) Htw1 Hpi) as (g2 & -> & Htw2 & Hh2 & Hf2 & Hn2).
  cbn [mbind res_bind]. rewrite (hn_at_spec n g2 q pi) by (done || by rewrite Hh2). cbn [mbind res_bind].
  destruct (state_inv_upd own g1 g2 q _ (wi_state _ _ _ _ _ Hw1) Htw2 Hf2 Hn2 (add_children_keeps (-1))) as (Hsi2 & Hs2 & Hp2).
  assert (∀ x, hn_n_children (node_of g2 x) = Z.of_nat (count L2 x)) as Hch2.
  { intros x. rewrite Hn2. pose proof (wi_children _ _ _ _ _ Hw1 x) as Hx. rewrite count_cons in Hx.
    destruct (decide (x = q)) as [->|Hxq].
    - rewrite decide_True in Hx by done. cbn. lia.
    - rewrite decide_False in Hx by done. lia. }
  assert (∀ r, managed T r ∨ is_view_p T r → hn_n_views (node_of g2 r) = Z.of_nat (vcount (q :: L2) r)) as Hv2.
  { intros r Hr. rewrite <- (wi_views _ _ _ _ _ Hw1 r Hr), Hn2. destruct (decide (r = q)) as [->|]; done. }
  assert (∀ g', state_inv T buft_get_alloc_size n g' own → static g2 g' → (∀ x, same_place g2 g' x) →
     (∀ x, hn_n_children (node_of g' x) = hn_n_children (node_of g2 x)) →
     (∀ r, managed T r ∨ is_view_p T r → hn_n_views (node_of g' r) = Z.of_nat (vcount L2 r)) →
     walk_inv (S i) L2 E own g') as Hmk.
  { intros g' Hsi' Hs' Hp' Hc' Hv'. apply (walk_recount (S i) (q :: L2) L2 E own g1 g' Hw1).
    - set_solver.
    - done.
    - by eapply static_trans.
    - intros x. destruct (Hp2 x), (Hp' x). unfold same_place in *. split; congruence.
    - intros x. by rewrite Hc'.
    - done. }
  destruct (decide (t_view_src t = NULL)) as [Hv|Hv].
  - assert (¬ is_view_p T q) as Hqv by (intros (t' & ? & ?); congruence).
    assert (ggml_is_view t = false) as -> by (unfold ggml_is_view, is_null; by rewrite Hv).
    assert (walk_inv (S i) L2 E own g2) as Hw2.
    { apply Hmk; [done|apply static_refl|done|done|]. intros r Hr. rewrite Hv2 by done. by rewrite not_view_counts. }
    destruct ((_ =? 0) && _) eqn:Hc; [|by exists own]. destruct (hn_allocated _) eqn:Hal; [|by exists own].
    apply andb_true_iff in Hc as [Hc1 Hc2].
    assert (q ∈ own) as Hqo by by apply (si_own _ _ _ _ _ Hsi2).
    assert (managed T q) as Hman by (by eapply mi_managed; [apply Hsi2|]).
    apply (walk_free (S i) L2 E own g2 q Hw2 Hqo).
    + rewrite Hch2 in Hc1. lia.
    + rewrite Hv2, not_view_counts in Hc2 by (done || by left). lia.
    + pose proof (source_not_later i m q Hm Hq) as H. rewrite root_not_view in H by done. auto.
  - assert (is_view_p T q) as Hqv by by exists t.
    assert (ggml_is_view t = true) as -> by (unfold ggml_is_view, is_null; by rewrite (proj2 (Z.eqb_neq _ _))).
    rewrite Hch2, Hv2, no_views_of_views by (done || by right). rewrite Z.eqb_refl, andb_true_r.
    destruct (Z.eqb_spec (Z.of_nat (count L2 q)) 0) as [Hz|Hz].
    + apply (retire_view i m L2 E own g2 q t); try done. apply count_zero. lia.
    + exists own. apply Hmk; [done|apply static_refl|done|done|]. intros r Hr. rewrite Hv2 by done.
      rewrite vcount_same; [done|]. apply count_pos. lia.
Qed.

(** *** One node *)

Definition ids_ok (ids : option (list Z)) (len : nat) : Prop :=
  match ids with
  | Some l => (len ≤ length l)%nat ∧ Forall (λ id, 0 ≤ id < Z.of_nat nb) l
  | None => (0 < nb)%nat
  end.

Lemma ids_get ids len i : ids_ok ids len → (i < len)%nat →
  ∃ id, get_node_buffer_id ids i = Ok id ∧ 0 ≤ id < Z.of_nat nb.
Proof.
  destruct ids as [l|]; cbn.
  - intros [Hl HF] Hi. destruct (at_lt l i ltac:(lia)) as (id & -> & Hid). exists id. split; [done|].
    rewrite Forall_lookup in HF. by eapply HF.
  - intros Hnb _. exists 0. split; [done|lia].
Qed.

Lemma parents_walk i own m t id : nodes !! i = Some m → T !! m = Some t → 0 ≤ id < Z.of_nat nb →
  ∀ src g, src ⊆ t.(t_src) → at_step i own g →
  aborts (for_each (allocate_parent buft_get_alloc_size T id) g src) (at_step i own).
Proof.
  intros Hm Ht Hid. induction src as [|q src IH]; intros g Hsub Hw; cbn [for_each]; [done|].
  eapply aborts_bind; [|intros g' Hw'; apply IH; [set_solver|exact Hw']].
  unfold allocate_parent, is_null. destruct (Z.eqb_spec q NULL) as [|Hn]; [done|].
  assert (q ∈ uses T m) as Hq by (apply uses_src; exists t; split_and!; [done|set_solver|done]).
  destruct (pr_src _ HP m t q Ht ltac:(set_solver) Hn) as [[tq Htq] _].
  apply (allocate_settled i (uses_from i) [] own g q tq id Hw Htq); [|done].
  destruct (managed_t tq) eqn:Hmt; [right|by left].
  assert (managed T q) as Hman by by exists tq.
  assert (root T q = q) as Hr by by apply root_not_view, managed_not_view.
  rewrite <- Hr. apply (operand_owned i own g m q Hw Hm Hq); rewrite Hr; [done|].
  destruct (gr_topo _ _ _ HG i m q Hm Hq) as [?|?]; [by left|by right; left].
Qed.

Lemma updates_walk i m E : nodes !! i = Some m → ∀ src g own, filter (λ q, q ≠ NULL) src ⊆ uses T m →
  walk_inv (S i) (filter (λ q, q ≠ NULL) src ++ uses_from (S i)) E own g →
  aborts (for_each (update_parent buft_get_alloc_size T) g src)
    (λ g', ∃ own', walk_inv (S i) (uses_from (S i)) E own' g').
Proof.
  intros Hm. induction src as [|q src IH]; intros g own Hsub Hw; cbn [for_each]; [by exists own|].
  rewrite filter_cons in Hsub, Hw. destruct (decide (q ≠ NULL)) as [Hn|Hn].
  - eapply aborts_bind; [apply (update_parent_walk i m q (filter (λ q, q ≠ NULL) src ++ uses_from (S i)) E own g Hm); [set_solver|exact Hw]|].
    intros g' (own' & Hw'). apply (IH g' own'); [set_solver|exact Hw'].
  - apply dec_stable in Hn as ->.
    change (update_parent buft_get_alloc_size T g NULL) with (Ok g). cbn [mbind res_bind]. by apply (IH g own).
Qed.

Lemma node_step_walk ids i m own g : ids_ok ids (length nodes) → nodes !! i = Some m → at_step i own g →
  aborts (node_step buft_get_alloc_size T ids g i m) (λ g', ∃ own', at_step (S i) own' g').
Proof.
  intros Hids Hm Hw. destruct (gr_dom _ _ _ HG m) as [t Ht].
  { apply elem_of_app. right. by eapply list_elem_of_lookup_2. }
  unfold node_step, node_alloc_step, deref. rewrite Ht. cbn [mbind res_bind].
  destruct (ids_get ids (length nodes) i Hids ltac:(by eapply lookup_lt_Some)) as (id & -> & Hid). cbn [mbind res_bind].
  eapply aborts_bind.
  { eapply aborts_bind; [by apply (parents_walk i own m t id)|].
    intros g1 Hw1. by apply (allocate_node_walk i own g1 m t id). }
  intros g2 (own2 & E & Hw2 & HE). rewrite (uses_from_step i m Hm) in Hw2.
  assert (uses T m = filter (λ q, q ≠ NULL) (t_src t)) as Hu by (unfold uses; by rewrite Ht).
  rewrite Hu in Hw2. eapply aborts_weaken; [apply (updates_walk i m E Hm (t_src t) g2 own2); [by rewrite Hu|done]|].
  intros g3 (own3 & Hw3). exists own3. destruct Hw3 as [W1 W2 W3 W4 W5 W6 W7 W8 W9]. split; try done.
  intros p Hman Hb _ Hn. apply W6; [done|done| |done]. intros HpE. by destruct (HE p HpE) as (_ & _ & ?).
Qed.

(** *** Leafs and counting *)

(** The records while [C] are the uses and [V] the nodes that were counted. *)
Record pre_inv (C V own : list ptr) (g : ggml_gallocr) : Prop := {
  pi_state    : state_inv T buft_get_alloc_size n g own;
  pi_nb       : length (ga_bufts g) = nb;
  pi_children : ∀ p, hn_n_children (node_of g p) = Z.of_nat (count C p);
  pi_views    : ∀ r, hn_n_views (node_of g r) = Z.of_nat (length (filter (λ v, counted_view T v r) V));
  pi_own      : ∀ p, p ∈ own → born 0 p;
}.

(** Allocating a tensor whose operation cannot work in place. *)
Lemma allocate_plain C V own g p t id : pre_inv C V own g → T !! p = Some t → 0 ≤ id < Z.of_nat nb →
  ggml_op_can_inplace t.(t_op) = false → born 0 p →
  aborts (ggml_gallocr_allocate_node buft_get_alloc_size T g p id)
    (λ g', ∃ own', pre_inv C V own' g' ∧ own ⊆ own' ∧ (managed T p → p ∈ own')).
Proof.
  intros [P1 P2 P3 P4 P5] Ht Hid Hop Hb. eapply aborts_weaken.
  { apply (allocate_walk g own p t id); [done|done|by rewrite P2]. }
  intros g' (own' & Hsi & Hs & [(Hset & -> & Hn)|(Hm & Hp & Hpl)]).
  - exists own. split_and!; [|done|].
    + split; [done|by rewrite (st_bufts _ _ Hs)| | |done]; intros x; by rewrite Hn.
    + intros (t' & Ht' & Hm'). destruct Hset; [congruence|done].
  - exists own'. pose proof (placed_counts _ _ _ _ _ _ _ Hpl) as Hcnt.
    destruct Hpl as [(parent & _ & Hop' & _)|(-> & _)]; [congruence|]. split_and!.
    + split; [done|by rewrite (st_bufts _ _ Hs)| | |].
      * intros x. destruct (Hcnt x) as [-> _]. done.
      * intros x. destruct (Hcnt x) as [_ ->]. done.
      * intros x [->|?]%elem_of_cons; auto.
    + by intros x ?; right.
    + intros _. left.
Qed.

(** The allocators before the walk: nothing is live. *)
Record ready (g : ggml_gallocr) : Prop := {
  rd_ok    : galloc_ok g;
  rd_nb    : length (ga_bufts g) = nb;
  rd_hash  : hash_wf (ga_hash_set g) n;
  rd_fresh : ∀ k a, ga_tallocs g !! k = Some a → ∃ bs, dyn_inv (da_alignment a) a [] bs;
}.

Lemma clear_hash_pre g : ready g → pre_inv [] [] [] (clear_hash g).
Proof.
  intros [[H1 H2 H3] Hnb Hwf Hfr]. destruct (reset_spec _ n Hwf) as [Hwf' Hno].
  assert (∀ p, node_of (clear_hash g) p = zero_node) as Hz.
  { intros p. apply node_of_none. intros i. cbn. by rewrite Hno. }
  split.
  - split.
    + split; cbn; [done| |].
      * by rewrite length_replicate, (hw_size _ _ Hwf), Nat2Z.id.
      * intros i Hi _. apply lookup_replicate. split; [done|]. rewrite (hw_size _ _ Hwf). lia.
    + split; [done|constructor|by intros p Hp%elem_of_nil|by intros p Hp%elem_of_nil|exact Hfr].
    + intros p. rewrite Hz. split; [by intros ?%elem_of_nil|done].
  - done.
  - intros p. by rewrite Hz.
  - intros p. by rewrite Hz.
  - by intros p Hp%elem_of_nil.
Qed.

Lemma leafs_walk ids g : ids_ok ids (length leafs) → pre_inv [] [] [] g →
  aborts (for_each_i (leaf_step buft_get_alloc_size T ids) 0 g leafs)
    (λ g', ∃ own, pre_inv [] [] own g' ∧ ∀ p, p ∈ leafs → managed T p → p ∈ own).
Proof.
  intros Hids Hp. eapply aborts_weaken.
  - apply (for_each_i_inv _ (λ i g, ∃ own, pre_inv [] [] own g ∧ ∀ p, p ∈ take i leafs → managed T p → p ∈ own)).
    + intros i p g1 Hi (own & Hp1 & Hown). assert (p ∈ leafs) as Hl by by eapply list_elem_of_lookup_2.
      destruct (gr_dom _ _ _ HG p) as [t Ht]; [apply elem_of_app; by left|].
      unfold leaf_step. destruct (ids_get ids (length leafs) i Hids ltac:(by eapply lookup_lt_Some)) as (id & -> & Hid).
      cbn [mbind res_bind]. eapply aborts_weaken.
      { apply (allocate_plain [] [] own g1 p t id Hp1 Ht Hid); [|by left].
        pose proof (op_leaf_no_inplace p Hl) as H. unfold op_of in H. by rewrite Ht in H. }
      intros g2 (own2 & Hp2 & Hsub & Hin). exists own2. split; [done|].
      intros q Hq Hman. rewrite (take_S_r _ _ p Hi) in Hq.
      apply elem_of_app in Hq as [Hq|Hq%list_elem_of_singleton]; [by apply Hsub, Hown|subst q; auto].
    + exists []. split; [done|]. cbn. by intros p Hq%elem_of_nil.
  - intros g' (own & Hp' & Hown). exists own. rewrite take_ge in Hown by lia. done.
Qed.

Lemma hash_update_pre C V own g p f : pre_inv C V own g → 0 ≤ p →
  (∀ h, hn_buffer_id (f h) = hn_buffer_id h ∧ hn_offset (f h) = hn_offset h ∧ hn_allocated (f h) = hn_allocated h) →
  aborts (hash_update g p f) (λ g', state_inv T buft_get_alloc_size n g' own ∧ length (ga_bufts g') = nb ∧
    ∀ q, node_of g' q = if decide (q = p) then f (node_of g p) else node_of g q).
Proof.
  intros [P1 P2 P3 P4 P5] Hp Hf. unfold hash_update.
  eapply aborts_bind; [apply (hash_get_spec n _ p (si_table _ _ _ _ _ P1) Hp)|].
  intros [i g1] (Htw1 & Hi & Hk1). pose proof (state_inv_kept _ _ _ _ _ _ Hk1 Htw1 P1) as Hs1.
  destruct (upd_hn_spec n g1 p i f Htw1 Hi) as (g2 & -> & Htw2 & _ & Hf2 & Hn2). cbn [aborts].
  destruct (state_inv_upd own g1 g2 p f Hs1 Htw2 Hf2 Hn2 Hf) as (Hs2 & Hst & _). split_and!; [done| |].
  - rewrite (st_bufts _ _ Hst), (st_bufts _ _ (static_frame _ _ (kp_frame _ _ Hk1))). done.
  - intros q. by rewrite Hn2, !(kp_node _ _ Hk1).
Qed.

Lemma count_src_walk ids i m V : ids_ok ids (length nodes) → nodes !! i = Some m →
  ∀ src C own g, filter (λ q, q ≠ NULL) src ⊆ uses T m → pre_inv C V own g →
  aborts (for_each (count_src buft_get_alloc_size T ids i) g src)
    (λ g', ∃ own', pre_inv (C ++ filter (λ q, q ≠ NULL) src) V own' g' ∧ own ⊆ own').
Proof.
  intros Hids Hm. induction src as [|q src IH]; intros C own g Hsub Hp; cbn [for_each].
  { exists own. split; [by rewrite filter_nil, app_nil_r|done]. }
  rewrite filter_cons in *. destruct (decide (q ≠ NULL)) as [Hn|Hn]; cycle 1.
  { apply dec_stable in Hn as ->. change (count_src buft_get_alloc_size T ids i g NULL) with (Ok g). cbn [mbind res_bind].
    by apply (IH C own g). }
  assert (q ∈ uses T m) as Hq by set_solver. pose proof Hq as (tm & Htm & Hsrc & _)%uses_src.
  destruct (pr_src _ HP m tm q Htm Hsrc Hn) as [[t Ht] _].
  eapply (aborts_bind _ _ (λ g', ∃ own', pre_inv (C ++ [q]) V own' g' ∧ own ⊆ own')).
  - unfold count_src, is_null. rewrite (proj2 (Z.eqb_neq _ _)) by done.
    eapply aborts_bind.
    { apply (hash_update_pre C V own g q _ Hp); [apply (pr_ptr _ HP q); by exists t|apply add_children_keeps]. }
    intros g1 (Hs1 & Hnb1 & Hn1). destruct Hp as [P1 P2 P3 P4 P5].
    assert (pre_inv (C ++ [q]) V own g1) as Hp1.
    { split; [done|done| | |done].
      - intros x. rewrite count_app, count_cons, Hn1. destruct (decide (x = q)) as [->|Hx].
        + rewrite decide_True by done. cbn. rewrite P3. lia.
        + rewrite decide_False by done. rewrite P3. cbn. lia.
      - intros x. rewrite Hn1, <- P4. destruct (decide (x = q)) as [->|]; done. }
    unfold deref. rewrite Ht. cbn [mbind res_bind].
    destruct (has_flag t GGML_TENSOR_FLAG_INPUT) eqn:Hin; [|by exists own].
    destruct (ids_get ids (length nodes) i Hids ltac:(by eapply lookup_lt_Some)) as (id & -> & Hid). cbn [mbind res_bind].
    assert (born 0 q ∧ ggml_op_can_inplace (t_op t) = false) as [Hb Hop].
    { assert (op_of T q = t_op t) as <- by (unfold op_of; by rewrite Ht).
      destruct (gr_topo _ _ _ HG i m q Hm Hq) as [Hl|(j & Hj & _)%elem_of_take].
      - split; [by left|by apply op_leaf_no_inplace].
      - apply list_elem_of_lookup_2 in Hj. assert (flagged T GGML_TENSOR_FLAG_INPUT q) as Hfl by by exists t.
        split; [by do 2 right|by apply (gr_input _ _ _ HG)]. }
    eapply aborts_weaken; [by apply (allocate_plain (C ++ [q]) V own g1 q t id)|].
    intros g2 (own2 & ? & ? & _). by exists own2.
  - intros g1 (own1 & Hp1 & Hs1). eapply aborts_weaken; [apply (IH (C ++ [q]) own1 g1); [set_solver|done]|].
    intros g2 (own2 & Hp2 & Hs2). exists own2. split; [|by etrans]. by rewrite <- app_assoc in Hp2.
Qed.

Lemma count_step_walk ids i m own g : ids_ok ids (length nodes) → nodes !! i = Some m →
  pre_inv (take i nodes ≫= uses T) (take i nodes) own g →
  aborts (count_step buft_get_alloc_size T ids g i m) (λ g', ∃ own',
    pre_inv (take (S i) nodes ≫= uses T) (take (S i) nodes) own' g' ∧ own ⊆ own' ∧
    (flagged T GGML_TENSOR_FLAG_INPUT m → managed T m → m ∈ own')).
Proof.
  intros Hids Hm Hp. set (C := take i nodes ≫= uses T) in *. assert (m ∈ nodes) as Hmn by by eapply list_elem_of_lookup_2.
  destruct (gr_dom _ _ _ HG m) as [t Ht]; [apply elem_of_app; by right|].
  assert (op_of T m = t_op t) as Hop by (unfold op_of; by rewrite Ht).
  unfold count_step, deref. rewrite Ht. cbn [mbind res_bind].
  eapply (aborts_bind _ _ (pre_inv C (take (S i) nodes) own)).
  { rewrite (take_S_r _ _ m Hm).
    assert (∀ r, ¬ counted_view T m r → filter (λ v, counted_view T v r) (take i nodes ++ [m]) =
      filter (λ v, counted_view T v r) (take i nodes)) as Hno.
    { intros r Hr. rewrite filter_app, filter_cons, decide_False by done. by rewrite filter_nil, app_nil_r. }
    destruct (ggml_is_view t && negb _) eqn:Hv.
    - apply andb_true_iff in Hv as [Hv Hnop]. apply negb_true_iff, bool_decide_eq_false in Hnop.
      unfold ggml_is_view, is_null in Hv. apply negb_true_iff, Z.eqb_neq in Hv.
      destruct (prog_view m t Ht Hv) as [tr Htr].
      eapply aborts_weaken.
      { apply (hash_update_pre C _ own g (t_view_src t) _ Hp); [apply (pr_ptr _ HP (t_view_src t)); by exists tr|apply add_views_keeps]. }
      intros g1 (Hs1 & Hnb1 & Hn1). destruct Hp as [P1 P2 P3 P4 P5]. split; [done|done| | |done].
      + intros x. rewrite Hn1, <- P3. destruct (decide (x = t_view_src t)) as [->|]; done.
      + intros r. rewrite Hn1. destruct (decide (r = t_view_src t)) as [->|Hr].
        * rewrite filter_app, filter_cons, decide_True by (exists t; done). rewrite filter_nil, length_app.
          cbn. rewrite P4. lia.
        * rewrite Hno by (intros (t' & ? & ? & _); congruence). apply P4.
    - destruct Hp as [P1 P2 P3 P4 P5]. split; [done|done|done| |done]. intros r.
      rewrite Hno; [apply P4|]. intros (t' & Ht' & Hvs & Hnn & Hnop). simplify_eq.
      unfold ggml_is_view, is_null in Hv. rewrite (proj2 (Z.eqb_neq _ _)) in Hv by done.
      rewrite bool_decide_false in Hv by done. done. }
  intros g1 Hp1. eapply (aborts_bind _ _ (λ g', ∃ own', pre_inv C (take (S i) nodes) own' g' ∧ own ⊆ own' ∧
    (flagged T GGML_TENSOR_FLAG_INPUT m → managed T m → m ∈ own'))).
  { destruct (has_flag t GGML_TENSOR_FLAG_INPUT) eqn:Hin.
    - destruct (ids_get ids (length nodes) i Hids ltac:(by eapply lookup_lt_Some)) as (id & -> & Hid). cbn [mbind res_bind].
      assert (flagged T GGML_TENSOR_FLAG_INPUT m) as Hfl by by exists t.
      eapply aborts_weaken; [apply (allocate_plain C (take (S i) nodes) own g1 m t id); try done|].
      + rewrite <- Hop. by apply (gr_input _ _ _ HG).
      + by do 2 right.
      + intros g2 (own2 & ? & ? & ?). by exists own2.
    - exists own. split_and!; [done|done|]. intros (t' & ? & ?). congruence. }
  intros g2 (own2 & Hp2 & Hs2 & Hin2).
  assert (uses T m = filter (λ q, q ≠ NULL) (t_src t)) as Hu by (unfold uses; by rewrite Ht).
  eapply aborts_weaken; [apply (count_src_walk ids i m (take (S i) nodes) Hids Hm (t_src t) C own2 g2); [by rewrite Hu|done]|].
  intros g3 (own3 & Hp3 & Hs3). exists own3. split_and!; [|by etrans|auto].
  rewrite <- Hu in Hp3. unfold C in Hp3. rewrite (take_S_r nodes i m Hm) in Hp3 |- *. rewrite bind_app, bind_singleton. done.
Qed.

(** The counters when everything is counted. *)
Lemma all_counted r : vcount all_uses r = length (filter (λ v, counted_view T v r) nodes).
Proof. unfold vcount. f_equal. apply list_filter_iff. intros v. unfold retired. naive_solver. Qed.

Lemma pre_at_step own g : pre_inv all_uses nodes own g →
  (∀ p, managed T p → born 0 p → p ∈ own) → at_step 0 own g.
Proof.
  intros [P1 P2 P3 P4 P5] Hown. assert (uses_from 0 = all_uses) as Hu by by unfold uses_from; rewrite drop_0.
  unfold at_step. rewrite Hu. split; try done.
  - intros r _. by rewrite P4, all_counted.
  - intros p Hman Hb _ _. auto.
  - intros p Hman Hb. eapply own_bounds; [apply P1|auto].
  - lia.
  - intros p q Hp Hq Hmp Hmq Hne. eapply own_apart; [apply P1| | |done]; apply Hown; try done; by left.
Qed.

Lemma alloc_graph_walk node_ids leaf_ids g : ready g →
  ids_ok node_ids (length nodes) → ids_ok leaf_ids (length leafs) →
  aborts (ggml_gallocr_alloc_graph_impl buft_get_alloc_size T g nodes leafs node_ids leaf_ids)
    (λ g', ∃ own, at_step (length nodes) own g').
Proof.
  intros Hr Hnid Hlid. unfold ggml_gallocr_alloc_graph_impl.
  eapply aborts_bind; [apply (leafs_walk leaf_ids _ Hlid), clear_hash_pre, Hr|].
  intros g1 (own1 & Hp1 & Hl1).
  eapply aborts_bind.
  - apply (for_each_i_inv _ (λ i g, ∃ own, pre_inv (take i nodes ≫= uses T) (take i nodes) own g ∧
      (∀ p, p ∈ leafs → managed T p → p ∈ own) ∧
      (∀ p, p ∈ take i nodes → flagged T GGML_TENSOR_FLAG_INPUT p → managed T p → p ∈ own))).
    + intros i m g2 Hm (own2 & Hp2 & Hl2 & Hi2).
      eapply aborts_weaken; [by apply (count_step_walk node_ids i m own2 g2)|].
      intros g3 (own3 & Hp3 & Hs3 & Hi3). exists own3. split_and!; [done|auto|].
      intros p Hp. rewrite (take_S_r _ _ m Hm) in Hp.
      apply elem_of_app in Hp as [Hp|Hp%list_elem_of_singleton]; [auto|by subst p].
    + exists own1. split_and!; [done|done|]. cbn. by intros p Hp%elem_of_nil.
  - cbn beta. rewrite take_ge by lia. intros g2 (own2 & Hp2 & Hl2 & Hi2).
    eapply aborts_weaken.
    + apply (for_each_i_inv _ (λ i g, ∃ own, at_step i own g)).
      * intros i m g3 Hm (own3 & Hw3). by apply (node_step_walk node_ids i m own3 g3).
      * exists own2. apply pre_at_step; [exact Hp2|]. intros p Hman [?|[Hb|[? ?]]]; [auto| |auto].
        by apply elem_of_nil in Hb.
    + done.
Qed.
End walk.
