(* ===== verification/GallocSpec.v ===== *)
(** * Reserving memory for a graph

    What [ggml_gallocr_reserve_n] promises: starting from any state of the
    allocator that [ggml_gallocr_new_n] and earlier calls can leave
    ([gallocr_inv]), it returns or stops in [GGML_ABORT], the memory it assigns
    is not clobbered while it is needed, and the buffers it allocates hold every
    assignment.  The walk over the graph is in [GallocWalk]. *)
From S2P Require Import Prelude HashSet Graph DynAlloc GraphAlloc GallocFrame GallocTable GallocNode GallocWalk.

Section spec.
Context (buft_get_alignment : buft → Z)
        (buft_get_alloc_size : buft → ggml_tensor → Z)
        (buft_alloc_buffer : buft → Z → option buffer).
Hypothesis alignment_pow2 : ∀ b, is_alignment (buft_get_alignment b).
Hypothesis size_sane : ∀ b t, size_ok (buft_get_alloc_size b t).
Hypothesis size_layout : ∀ b t t', ggml_are_same_layout t t' = true →
  buft_get_alloc_size b t = buft_get_alloc_size b t'.
Hypothesis buffer_size : ∀ b s x, buft_alloc_buffer b s = Some x → s ≤ bf_size x.

(** The backend made [x] as a buffer of type [b]. *)
Definition made (b : buft) (x : buffer) : Prop := ∃ s, buft_alloc_buffer b s = Some x.

(** ** States of the allocator *)

Record gallocr_inv (g : ggml_gallocr) : Prop := {
  gv_ok      : galloc_ok g;
  gv_buffers : length (ga_buffers g) = length (ga_bufts g);
  gv_array   : ∀ k a, ga_tallocs g !! k = Some a → length (da_free_blocks a) = MAX_FREE_BLOCKS;
  gv_used    : ∀ k, (k < length (ga_tallocs g))%nat → k ∈ ga_buf_tallocs g;
  gv_match   : ∀ i k b, ga_buf_tallocs g !! i = Some k → ga_bufts g !! i = Some b →
                 ∃ a, ga_tallocs g !! k = Some a ∧ da_alignment a = buft_get_alignment b;
  gv_same    : ∀ i j k, ga_buf_tallocs g !! i = Some k → ga_buf_tallocs g !! j = Some k →
                 ga_bufts g !! i = ga_bufts g !! j;
  gv_made    : ∀ i x b, ga_buffers g !! i = Some (Some x) → ga_bufts g !! i = Some b → made b x;
  gv_hash    : hs_size (ga_hash_set g) = 0 ∨ ∃ n, hash_wf (ga_hash_set g) n;
}.

Lemma same_before_Some {A} `{EqDecision A} (l : list A) (i j : nat) :
  same_before l i = Some j → (j < i)%nat ∧ ∃ x, l !! i = Some x ∧ l !! j = Some x.
Proof.
  unfold same_before. destruct (l !! i) as [x|] eqn:Hi; [|done].
  destruct (list_find _ _) as [[k y]|] eqn:Hf; [|done]. intros [= <-].
  apply list_find_Some in Hf as (Hk & -> & _). apply lookup_take_Some in Hk as [Hk ?]. eauto.
Qed.

Definition new_inv_at (bufts : list buft) (i : nat) (acc : list nat * list ggml_dyn_tallocr) : Prop :=
  let '(ids, ts) := acc in
  length ids = i ∧
  (∀ j k b, ids !! j = Some k → bufts !! j = Some b → ∃ a, ts !! k = Some a ∧ da_alignment a = buft_get_alignment b) ∧
  (∀ j k, ids !! j = Some k → is_Some (ts !! k)) ∧
  (∀ k a, ts !! k = Some a → is_alignment (da_alignment a) ∧ length (da_free_blocks a) = MAX_FREE_BLOCKS) ∧
  (∀ k, (k < length ts)%nat → k ∈ ids) ∧
  (∀ j j' k, ids !! j = Some k → ids !! j' = Some k → bufts !! j = bufts !! j').

Lemma gallocr_new_step_spec bufts i b acc : bufts !! i = Some b → new_inv_at bufts i acc →
  aborts (gallocr_new_step buft_get_alignment bufts acc i b) (new_inv_at bufts (S i)).
Proof using alignment_pow2.
  destruct acc as [ids ts]. intros Hb (Hlen & Hm & Hs & Ht & Hu & Hsame). unfold gallocr_new_step.
  destruct (same_before bufts i) as [j|] eqn:Hj.
  - apply same_before_Some in Hj as (Hji & x & Hx & Hxj). simplify_eq.
    destruct (at_lt ids j Hji) as (k & -> & Hk). cbn. split_and!; [rewrite length_app; cbn; lia| | |done| |].
    + intros j' k' b' [[? Hj']|[-> <-]]%lookup_snoc_Some Hb'; [eauto|]. simplify_eq. eauto.
    + intros j' k' [[? Hj']|[-> <-]]%lookup_snoc_Some; eauto.
    + intros k' Hk'. apply elem_of_app. left. auto.
    + assert (∀ j', ids !! j' = Some k → bufts !! j' = bufts !! length ids) as Hnew.
      { intros j' Hj'. rewrite (Hsame j' j k Hj' Hk). congruence. }
      intros j1 j2 k' [[? H1]|[-> <-]]%lookup_snoc_Some [[? H2]|[-> ?]]%lookup_snoc_Some; simplify_eq; eauto.
      symmetry. auto.
  - destruct (new_inv (buft_get_alignment b) (alignment_pow2 b)) as (a & -> & Hi & _). cbn.
    split_and!; [rewrite length_app; cbn; lia| | | | |].
    + intros j' k' b' [[? Hj']|[-> <-]]%lookup_snoc_Some Hb'.
      * destruct (Hm j' k' b' Hj' Hb') as (a' & Ha' & ?). exists a'. split; [|done].
        by apply lookup_app_l_Some.
      * rewrite Hlen in Hb'. simplify_eq. exists a. split; [apply lookup_snoc_Some; by right|].
        apply (di_al _ _ _ _ Hi).
    + intros j' k' [[? Hj']|[-> <-]]%lookup_snoc_Some.
      * destruct (Hs j' k' Hj') as [a' ?]. exists a'. by apply lookup_app_l_Some.
      * exists a. apply lookup_snoc_Some; by right.
    + intros k a' [[_ Ha']|[_ <-]]%lookup_snoc_Some; [by eapply Ht|]. split.
      * rewrite (di_al _ _ _ _ Hi). apply alignment_pow2.
      * destruct (di_repr _ _ _ _ Hi) as (junk & -> & _ & ?). done.
    + intros k Hk. rewrite length_app in Hk. cbn in Hk. apply elem_of_app.
      destruct (decide (k = length ts)) as [->|]; [right; left|left; apply Hu; lia].
    + assert (∀ j', ids !! j' ≠ Some (length ts)) as Hno.
      { intros j' Hj'. destruct (Hs _ _ Hj') as [? ?%lookup_lt_Some]. lia. }
      intros j1 j2 k' [[? H1]|[-> <-]]%lookup_snoc_Some [[? H2]|[-> ?]]%lookup_snoc_Some; simplify_eq; eauto.
      * by destruct (Hno j1).
      * by destruct (Hno j2).
Qed.

Lemma gallocr_new_n_inv bufts :
  aborts (ggml_gallocr_new_n buft_get_alignment bufts) (λ g, gallocr_inv g ∧ ga_bufts g = bufts).
Proof using alignment_pow2.
  unfold ggml_gallocr_new_n. eapply aborts_bind.
  - apply (for_each_i_inv _ (new_inv_at bufts)).
    + intros i b acc Hb Hacc. by apply gallocr_new_step_spec.
    + cbn. split_and!; [done|intros ? ? ? [=]|intros ? ? [=]|intros ? ? [=]|lia|intros ? ? ? [=]].
  - intros [ids ts] (Hlen & Hm & Hs & Ht & Hu & Hsame). cbn. split; [|done]. split; cbn.
    + split; cbn; [done|done|]. intros k a Hk. by apply (Ht k a).
    + by rewrite length_replicate.
    + intros k a Hk. by apply (Ht k a).
    + done.
    + done.
    + done.
    + intros i x b Hi. by apply lookup_replicate in Hi as [? _].
    + by left.
Qed.

(** ** Getting ready *)

Definition fresh (a : ggml_dyn_tallocr) : Prop := ∃ bs, dyn_inv (da_alignment a) a [] bs.

Lemma reset_fresh a : length (da_free_blocks a) = MAX_FREE_BLOCKS →
  ∃ a', ggml_dyn_tallocr_reset a = Ok a' ∧ da_alignment a' = da_alignment a ∧ fresh a' ∧
    length (da_free_blocks a') = MAX_FREE_BLOCKS.
Proof.
  intros Hlen. unfold ggml_dyn_tallocr_reset. destruct (da_free_blocks a) as [|b junk] eqn:Hfb; [done|].
  rewrite put_lt by (cbn; lia). cbn [mbind res_bind]. eexists. split_and!; [done|done| |by cbn in *].
  exists [mk_block 0 END]. split; cbn [da_alignment da_max_size].
  - apply (repr_intro _ _ _ _ junk); [done|done|]. by cbn in *.
  - done.
  - constructor; [|constructor]. unfold in_range. cbn. rewrite END_val. lia.
  - constructor; [|constructor]. cbn. apply Z.divide_0_r.
  - constructor.
  - intros x. cbn. unfold covers, bend. cbn. rewrite Z.add_0_l. lia.
  - rewrite END_val. lia.
Qed.

Lemma reset_all ids ts : (∀ k, k ∈ ids → is_Some (ts !! k)) →
  (∀ k a, ts !! k = Some a → length (da_free_blocks a) = MAX_FREE_BLOCKS) →
  ∃ ts', for_each reset_talloc ts ids = Ok ts' ∧ length ts' = length ts ∧
    (∀ k a, ts !! k = Some a → ∃ a', ts' !! k = Some a' ∧ da_alignment a' = da_alignment a ∧
       length (da_free_blocks a') = MAX_FREE_BLOCKS ∧ (k ∈ ids ∨ fresh a → fresh a')).
Proof.
  revert ts. induction ids as [|k ids IH]; intros ts Hk Hlen; cbn [for_each].
  { exists ts. split_and!; [done|done|]. intros k a Ha. exists a. split_and!; [done|done|eauto|].
    intros [?%elem_of_nil|?]; done. }
  destruct (Hk k ltac:(left)) as [a Ha]. destruct (reset_fresh a (Hlen k a Ha)) as (a' & Ha' & Hal & Hfr & Hl').
  assert (reset_talloc ts k = Ok (<[k := a']> ts)) as ->.
  { unfold reset_talloc. rewrite (proj2 (at_Ok _ _ _) Ha). cbn [mbind res_bind]. rewrite Ha'. cbn [mbind res_bind].
    rewrite put_lt by (by eapply lookup_lt_Some). done. }
  cbn [mbind res_bind].
  destruct (IH (<[k := a']> ts)) as (ts' & -> & Hlt & Hts).
  - intros j Hj. destruct (Hk j ltac:(by right)) as [c Hc]. rewrite list_lookup_insert. case_decide; eauto.
  - intros j c Hj. apply list_lookup_insert_Some in Hj as [(_ & <- & _)|[_ Hj]]; [done|eauto].
  - exists ts'. split_and!; [done|by rewrite length_insert in Hlt|]. intros j c Hj.
    destruct (decide (j = k)) as [->|Hjk].
    + simplify_eq. destruct (Hts k a') as (a2 & Ha2 & ? & ? & Hf2).
      { apply list_lookup_insert_eq. by eapply lookup_lt_Some. }
      exists a2. split_and!; [done|congruence|done|]. intros _. apply Hf2. by right.
    + destruct (Hts j c) as (a2 & Ha2 & ? & ? & Hf2); [by rewrite list_lookup_insert_ne|].
      exists a2. split_and!; [done|done|done|]. intros [[->|?]%elem_of_cons|?]; [done| |]; apply Hf2; auto.
Qed.

(** ** Recording the assignments *)

Section record.
Context (T : tensors) (nodes leafs : list ptr) (n nb : nat).
Hypothesis HP : program_ok T.
Hypothesis HG : graph_ok T nodes leafs.

(** The assignment [a] is what the walk found for [p]. *)
Definition recorded (g : ggml_gallocr) (p : ptr) (a : tensor_alloc) : Prop :=
  match T !! p with
  | Some t =>
      if managed_t t then
        ∃ b, 0 ≤ hn_buffer_id (node_of g p) ∧ ga_bufts g !! Z.to_nat (hn_buffer_id (node_of g p)) = Some b ∧
          a = mk_tensor_alloc (hn_buffer_id (node_of g p)) (hn_offset (node_of g p)) (buft_get_alloc_size b t)
      else a = mk_tensor_alloc (-1) SIZE_MAX 0
  | None => a = mk_tensor_alloc (-1) SIZE_MAX 0
  end.

(** [g'] has the places and the allocators of [g]. *)
Record agrees (g g' : ggml_gallocr) : Prop := {
  ag_bufts : ga_bufts g' = ga_bufts g;
  ag_ids   : ga_buf_tallocs g' = ga_buf_tallocs g;
  ag_ts    : ga_tallocs g' = ga_tallocs g;
  ag_node  : ∀ q, node_of g' q = node_of g q;
}.

Lemma agrees_refl g : agrees g g.
Proof. done. Qed.

Lemma agrees_trans g1 g2 g3 : agrees g1 g2 → agrees g2 g3 → agrees g1 g3.
Proof. intros [A1 A2 A3 A4] [B1 B2 B3 B4]. split; congruence. Qed.

Lemma kept_agrees g g' : kept g g' → agrees g g'.
Proof. intros [Hf Hn _]. destruct (frame_eqs _ _ Hf) as (? & ? & ? & _). done. Qed.

Lemma recorded_agrees g g' p a : agrees g g' → recorded g' p a ↔ recorded g p a.
Proof.
  intros [Hb Hi Ht Hn]. unfold recorded. destruct (T !! p) as [t|]; [|done]. destruct (managed_t t); [|done].
  by rewrite !Hn, !Hb.
Qed.

Lemma place_agrees g g' p : agrees g g' → place T buft_get_alloc_size g' p = place T buft_get_alloc_size g p.
Proof.
  intros [Hb Hi Ht Hn]. unfold place. destruct (T !! p); [|done]. cbn. rewrite Hn. by apply entry_ext.
Qed.

Lemma region_agrees g g' p : agrees g g' → region_of T buft_get_alloc_size g' p = region_of T buft_get_alloc_size g p.
Proof. intros Ha. unfold region_of. rewrite (place_agrees g g') by done. by rewrite (ag_ts _ _ Ha). Qed.

Lemma apart_agrees g g' p q : agrees g g' → apart T buft_get_alloc_size g p q → apart T buft_get_alloc_size g' p q.
Proof. intros Ha. unfold apart. by rewrite !(region_agrees g g' _ Ha). Qed.

Lemma in_bounds_agrees g g' p : agrees g g' → in_bounds T buft_get_alloc_size g p → in_bounds T buft_get_alloc_size g' p.
Proof. intros Ha. unfold in_bounds. by rewrite (region_agrees g g' _ Ha), (ag_ts _ _ Ha). Qed.

Lemma step_claim_agrees g g' j : agrees g g' → step_claim T nodes leafs buft_get_alloc_size g j →
  step_claim T nodes leafs buft_get_alloc_size g' j.
Proof.
  intros Ha Hc m r H1 H2 H3 H4 H5 H6. destruct (Hc m r H1 H2 H3 H4 H5 H6) as [Hn Hu]. split.
  - intros H. apply (apart_agrees g g'); auto.
  - intros H. destruct (Hu H) as [?|?]; [left|by right]. by apply (apart_agrees g g').
Qed.

Lemma tensor_alloc_of_spec g p : table_wf g n → (p ≠ NULL → is_Some (T !! p)) →
  (managed T p → is_Some (place T buft_get_alloc_size g p)) →
  aborts (tensor_alloc_of buft_get_alloc_size T g p) (λ '(a, g'), recorded g p a ∧ kept g g' ∧ table_wf g' n).
Proof using HP.
  intros Htw Hp Hpl. unfold tensor_alloc_of. unfold is_null at 1. destruct (Z.eqb_spec p NULL) as [->|Hne].
  { cbn. split_and!; [|apply kept_refl|done]. unfold recorded. by rewrite (pr_null T HP). }
  destruct (Hp Hne) as [t Ht]. unfold deref. rewrite Ht. cbn [mbind res_bind].
  assert (ggml_is_view t || negb (is_null (t_data t)) = negb (managed_t t)) as ->.
  { unfold managed_t, ggml_is_view. by destruct (is_null (t_view_src t)), (is_null (t_data t)). }
  destruct (managed_t t) eqn:Hm; cbn [negb].
  2: { cbn. split_and!; [|apply kept_refl|done]. unfold recorded. by rewrite Ht, Hm. }
  destruct (Hpl ltac:(by exists t)) as [[k e] Hk].
  eapply aborts_bind; [by apply (hash_get_spec n g p); [|destruct (pr_ptr T HP p ltac:(by exists t)); lia]|].
  intros [i g'] (Htw' & Hi & Hkept). cbn beta iota. rewrite (hn_at_spec n g' p i) by done. cbn [mbind res_bind].
  rewrite (kp_node _ _ Hkept). unfold place, entry in Hk. rewrite Ht in Hk. cbn [mbind option_bind] in Hk.
  case_bool_decide as Hid; [|done].
  destruct (ga_buf_tallocs g !! _) as [k'|] eqn:Hk'; [|done]. cbn in Hk.
  destruct (ga_bufts g !! _) as [b|] eqn:Hb; [|done].
  unfold at_int. rewrite (proj2 (Z.ltb_ge _ _)) by lia. destruct (frame_eqs _ _ (kp_frame _ _ Hkept)) as (-> & _).
  rewrite (proj2 (at_Ok _ _ _) Hb). cbn. split_and!; [|done|done].
  unfold recorded. rewrite Ht, Hm. eauto.
Qed.

Lemma src_allocs_spec src : ∀ l g, table_wf g n → (∀ q, q ∈ src → q ≠ NULL → is_Some (T !! q)) →
  (∀ q, q ∈ src → managed T q → is_Some (place T buft_get_alloc_size g q)) →
  aborts (for_each (src_alloc_step buft_get_alloc_size T) (l, g) src)
    (λ '(l', g'), ∃ l2, l' = l ++ l2 ∧ Forall2 (recorded g) src l2 ∧ kept g g' ∧ table_wf g' n).
Proof using HP.
  induction src as [|q src IH]; intros l g Htw Hq Hpl; cbn [for_each].
  { cbn. exists []. rewrite app_nil_r. split_and!; [done|constructor|apply kept_refl|done]. }
  unfold src_alloc_step at 1. eapply aborts_bind.
  - eapply aborts_bind; [apply (tensor_alloc_of_spec g q Htw); [apply Hq; left|apply Hpl; left]|].
    intros [a g1] (Ha & Hk & Htw1). cbn beta iota.
    instantiate (1 := λ '(l', g1), ∃ a, l' = l ++ [a] ∧ recorded g q a ∧ kept g g1 ∧ table_wf g1 n). cbn. eauto.
  - intros [l1 g1] (a & -> & Ha & Hk & Htw1).
    eapply aborts_weaken; [apply (IH (l ++ [a]) g1 Htw1)|].
    + intros r Hr. apply Hq. by right.
    + intros r Hr Hm. rewrite (place_agrees g g1) by by apply kept_agrees. apply Hpl; [by right|done].
    + intros [l' g'] (l2 & -> & H2 & Hk2 & Htw2). exists (a :: l2). split_and!.
      * by rewrite <- app_assoc.
      * constructor; [done|]. eapply Forall2_impl; [exact H2|]. intros r b. apply (recorded_agrees g g1). by apply kept_agrees.
      * by eapply kept_trans.
      * done.
Qed.

(** The recorded part of the state, relative to the state [g0] after the walk. *)
Record recording (g0 g : ggml_gallocr) : Prop := {
  rg_table   : table_wf g n;
  rg_agrees  : agrees g0 g;
  rg_buffers : ga_buffers g = ga_buffers g0;
}.

Definition node_recorded (g : ggml_gallocr) (i : nat) (m : ptr) : Prop :=
  ∃ t na, T !! m = Some t ∧ ga_node_allocs g !! i = Some na ∧
    recorded g m (na_dst na) ∧ Forall2 (recorded g) (t_src t) (na_src na).

Definition leaf_recorded (g : ggml_gallocr) (i : nat) (p : ptr) : Prop :=
  ∃ la, ga_leaf_allocs g !! i = Some la ∧ recorded g p (la_leaf la).

Lemma node_recorded_agrees g g' i m : agrees g g' → ga_node_allocs g' !! i = ga_node_allocs g !! i →
  node_recorded g i m → node_recorded g' i m.
Proof.
  intros Ha Hi (t & na & Ht & Hna & Hd & Hs). exists t, na. split_and!; [done|congruence| |].
  - by apply (recorded_agrees g g').
  - eapply Forall2_impl; [exact Hs|]. intros r b. by apply (recorded_agrees g g').
Qed.

Lemma leaf_recorded_agrees g g' i p : agrees g g' → ga_leaf_allocs g' !! i = ga_leaf_allocs g !! i →
  leaf_recorded g i p → leaf_recorded g' i p.
Proof. intros Ha Hi (la & Hla & Hd). exists la. split; [congruence|]. by apply (recorded_agrees g g'). Qed.

Lemma kept_recording g0 g g' : recording g0 g → kept g g' → table_wf g' n → recording g0 g'.
Proof.
  intros [H1 H2 H3] Hk Htw. split; [done|eapply agrees_trans; [done|by apply kept_agrees]|].
  destruct (frame_eqs _ _ (kp_frame _ _ Hk)) as (_ & _ & _ & ->). done.
Qed.

Lemma kept_allocs g g' : kept g g' → ga_node_allocs g' = ga_node_allocs g ∧ ga_leaf_allocs g' = ga_leaf_allocs g ∧
  ga_n_nodes g' = ga_n_nodes g ∧ ga_n_leafs g' = ga_n_leafs g.
Proof. intros [-> _ _]. done. Qed.

Lemma node_alloc_of_spec g0 g i m : recording g0 g → nodes !! i = Some m →
  (i < length (ga_node_allocs g))%nat →
  (∀ q, q ∈ leafs ++ nodes → managed T q → is_Some (place T buft_get_alloc_size g0 q)) →
  aborts (node_alloc_of buft_get_alloc_size T g i m) (λ g', recording g0 g' ∧
    length (ga_node_allocs g') = length (ga_node_allocs g) ∧ ga_n_nodes g' = ga_n_nodes g ∧
    (∀ j, j ≠ i → ga_node_allocs g' !! j = ga_node_allocs g !! j) ∧ node_recorded g' i m).
Proof using HP HG.
  intros Hr Hi Hlt Hpl. assert (m ∈ nodes) as Hm by by eapply list_elem_of_lookup_2.
  destruct (gr_dom T _ _ HG m ltac:(apply elem_of_app; by right)) as [t Ht].
  assert (∀ q, q ∈ leafs ++ nodes → managed T q → is_Some (place T buft_get_alloc_size g q)) as Hpl'.
  { intros q Hq Hman. rewrite (place_agrees g0 g) by apply Hr. auto. }
  unfold node_alloc_of, deref. rewrite Ht. cbn [mbind res_bind].
  eapply aborts_bind.
  { apply (tensor_alloc_of_spec g m); [apply Hr|by exists t|]. apply Hpl', elem_of_app. by right. }
  intros [dst g1] (Hd & Hk1 & Htw1). cbn beta iota.
  eapply aborts_bind.
  { apply (src_allocs_spec (t_src t) [] g1 Htw1).
    - intros q Hq Hne. by apply (pr_src T HP m t q).
    - intros q Hq Hman. rewrite (place_agrees g g1) by by apply kept_agrees. apply Hpl'; [|done].
      destruct (decide (q = NULL)) as [->|Hne].
      { destruct Hman as (? & Hnl & _). by rewrite (pr_null T HP) in Hnl. }
      apply elem_of_app. destruct (gr_topo T _ _ HG i m q Hi) as [?|Ht']; [|by left|right; by apply (subseteq_take i nodes)].
      apply uses_src. eauto. }
  intros [src g2] (l2 & -> & Hs & Hk2 & Htw2). cbn beta iota.
  destruct (kept_allocs _ _ (kept_trans _ _ _ Hk1 Hk2)) as (Hna & _ & Hnn & _).
  rewrite put_lt by (by rewrite Hna). cbn.
  set (g3 := with_node_allocs _ _ _).
  assert (agrees g2 g3) as Ha3 by done. pose proof (kept_agrees _ _ Hk1) as Ha1. pose proof (kept_agrees _ _ Hk2) as Ha2.
  split_and!.
  - destruct (kept_recording g0 g g2 Hr (kept_trans _ _ _ Hk1 Hk2) Htw2) as [[] ? ?].
    split; [done| |done]. by eapply agrees_trans.
  - by rewrite length_insert, Hna.
  - exact Hnn.
  - intros j Hj. rewrite list_lookup_insert_ne by done. by rewrite Hna.
  - exists t, (mk_node_alloc dst l2). split_and!; [done| | |].
    + apply list_lookup_insert_eq. by rewrite Hna.
    + apply (recorded_agrees g g3); [|done]. by eapply agrees_trans, agrees_trans.
    + eapply Forall2_impl; [exact Hs|]. intros r b. apply (recorded_agrees g1 g3). by eapply agrees_trans.
Qed.

Lemma leaf_alloc_of_spec g0 g i p : recording g0 g → leafs !! i = Some p →
  (i < length (ga_leaf_allocs g))%nat →
  (∀ q, q ∈ leafs ++ nodes → managed T q → is_Some (place T buft_get_alloc_size g0 q)) →
  aborts (leaf_alloc_of buft_get_alloc_size T g i p) (λ g', recording g0 g' ∧
    length (ga_leaf_allocs g') = length (ga_leaf_allocs g) ∧ ga_n_leafs g' = ga_n_leafs g ∧
    (∀ j, j ≠ i → ga_leaf_allocs g' !! j = ga_leaf_allocs g !! j) ∧ leaf_recorded g' i p ∧
    ga_node_allocs g' = ga_node_allocs g ∧ ga_n_nodes g' = ga_n_nodes g).
Proof using HP HG.
  intros Hr Hi Hlt Hpl. assert (p ∈ leafs) as Hm by by eapply list_elem_of_lookup_2.
  assert (p ∈ leafs ++ nodes) as Hp by (apply elem_of_app; by left). destruct (gr_dom T _ _ HG p Hp) as [t Ht].
  pose proof (pr_ptr T HP p ltac:(by exists t)) as [Hp0 _]. unfold leaf_alloc_of.
  eapply aborts_bind; [by apply (hash_get_spec n g p); [apply Hr|]|].
  intros [hi g1] (Htw1 & Hs1 & Hk1). cbn beta iota. rewrite (hn_at_spec n g1 p hi) by done. cbn [mbind res_bind].
  eapply aborts_bind.
  { apply (tensor_alloc_of_spec g1 p Htw1); [by exists t|]. intros Hman.
    rewrite (place_agrees g g1) by by apply kept_agrees. rewrite (place_agrees g0 g) by apply Hr. auto. }
  intros [a g2] (Ha & Hk2 & Htw2). cbn beta iota. pose proof (kept_trans _ _ _ Hk1 Hk2) as Hk.
  destruct (kept_allocs _ _ Hk) as (Hna & Hla & Hnn & Hnl).
  rewrite put_lt by (by rewrite Hla). cbn. set (g3 := with_leaf_allocs _ _ _).
  assert (agrees g1 g3) as Ha3 by (eapply agrees_trans; [by apply kept_agrees|done]).
  destruct (kept_recording g0 g g2 Hr Hk Htw2) as [[] ? ?]. split_and!; [|by rewrite length_insert, Hla|done| | |done|done].
  - split; [done| |done]. by eapply agrees_trans.
  - intros j Hj. rewrite list_lookup_insert_ne by done. by rewrite Hla.
  - exists (mk_leaf_alloc (hn_buffer_id (node_of g1 p)) a). split; [apply list_lookup_insert_eq; by rewrite Hla|].
    by apply (recorded_agrees g1 g3).
Qed.

Lemma ensure_allocs_length {A} (l : list A) (k : nat) x :
  (k ≤ length (if (length l <? k)%nat then replicate k x else l))%nat.
Proof. destruct (Nat.ltb_spec (length l) k); [by rewrite length_replicate|done]. Qed.

(** Both loops. *)
Record all_recorded (g : ggml_gallocr) : Prop := {
  ar_n_nodes : ga_n_nodes g = length nodes;
  ar_n_leafs : ga_n_leafs g = length leafs;
  ar_nodes   : ∀ i m, nodes !! i = Some m → node_recorded g i m;
  ar_leafs   : ∀ i p, leafs !! i = Some p → leaf_recorded g i p;
}.

Lemma record_spec g0 : table_wf g0 n →
  (∀ q, q ∈ leafs ++ nodes → managed T q → is_Some (place T buft_get_alloc_size g0 q)) →
  aborts (g ← for_each_i (node_alloc_of buft_get_alloc_size T) 0 (ensure_node_allocs g0 (length nodes)) nodes;
          for_each_i (leaf_alloc_of buft_get_alloc_size T) 0 (ensure_leaf_allocs g (length leafs)) leafs)
    (λ g, recording g0 g ∧ all_recorded g).
Proof using HP HG.
  intros Htw Hpl. eapply aborts_bind.
  - apply (for_each_i_inv _ (λ i g, recording g0 g ∧ ga_n_nodes g = length nodes ∧
      (length nodes ≤ length (ga_node_allocs g))%nat ∧
      ∀ j m, (j < i)%nat → nodes !! j = Some m → node_recorded g j m)).
    + intros i m g Hi (Hr & Hn & Hlen & Hrec). pose proof (lookup_lt_Some _ _ _ Hi) as Hlt.
      eapply aborts_weaken; [apply (node_alloc_of_spec g0 g i m Hr Hi); [lia|done]|].
      intros g' (Hr' & Hlen' & Hn' & Hj & Hm). split_and!; [done|congruence|lia|].
      intros j mj Hji Hmj. destruct (decide (j = i)) as [->|Hne]; [by simplify_eq|].
      apply (node_recorded_agrees g g'); [|by apply Hj|apply Hrec; [lia|done]].
      destruct Hr as [_ [] _], Hr' as [_ [] _]. split; congruence.
    + split_and!; [by destruct Htw|done|apply ensure_allocs_length|lia].
  - intros g (Hr & Hn & _ & Hrec). eapply aborts_weaken.
    + apply (for_each_i_inv _ (λ i g, recording g0 g ∧ ga_n_nodes g = length nodes ∧ ga_n_leafs g = length leafs ∧
        (length leafs ≤ length (ga_leaf_allocs g))%nat ∧
        (∀ j m, nodes !! j = Some m → node_recorded g j m) ∧
        ∀ j p, (j < i)%nat → leafs !! j = Some p → leaf_recorded g j p)).
      * intros i p g1 Hi (Hr1 & Hn1 & Hnl & Hlen & Hrn & Hrl). pose proof (lookup_lt_Some _ _ _ Hi) as Hlt.
        eapply aborts_weaken; [apply (leaf_alloc_of_spec g0 g1 i p Hr1 Hi); [lia|done]|].
        intros g' (Hr' & Hlen' & Hl' & Hj & Hm & Hna & Hnn).
        assert (agrees g1 g') as Hag by (destruct Hr1 as [_ [] _], Hr' as [_ [] _]; split; congruence).
        split_and!; [done|congruence|congruence|lia| |].
        -- intros j m Hjm. apply (node_recorded_agrees g1 g'); [done|by rewrite Hna|auto].
        -- intros j q Hji Hq. destruct (decide (j = i)) as [->|Hne]; [by simplify_eq|].
           apply (leaf_recorded_agrees g1 g'); [done|by apply Hj|apply Hrl; [lia|done]].
      * split_and!; [by destruct Hr as [[] [] ?]|done|done|apply ensure_allocs_length| |lia].
        intros j m Hm. apply (node_recorded_agrees g); [done|done|]. apply Hrec; [by eapply lookup_lt_Some|done].
    + intros g1 (Hr1 & Hn1 & Hl1 & _ & H1 & H2). split; [done|]. split; [done|done|done|].
      intros i p Hi. apply H2; [by eapply lookup_lt_Some|done].
Qed.
End record.

(** ** The buffers *)

Lemma same_before_None {A} `{EqDecision A} (l : list A) (i : nat) (x : A) : l !! i = Some x →
  same_before l i = None → ∀ j, (j < i)%nat → l !! j ≠ Some x.
Proof.
  intros Hi Hn j Hj Hx. unfold same_before in Hn. rewrite Hi in Hn.
  destruct (list_find _ _) eqn:Hf; [done|]. eapply list_find_None in Hf. rewrite Forall_lookup in Hf.
  apply (Hf j x); [|done]. by apply lookup_take_Some.
Qed.

(** The buffer of index [j] can hold everything its allocator gave out. *)
Definition buffer_holds (g : ggml_gallocr) (j : nat) : Prop :=
  ∃ x k a, ga_buffers g !! j = Some (Some x) ∧ ga_buf_tallocs g !! j = Some k ∧
    ga_tallocs g !! k = Some a ∧ da_max_size a ≤ bf_size x.

Definition buffers_shared (g : ggml_gallocr) (i : nat) : Prop :=
  ∀ j j' k, (j < i)%nat → (j' < i)%nat → ga_buf_tallocs g !! j = Some k → ga_buf_tallocs g !! j' = Some k →
    ga_buffers g !! j = ga_buffers g !! j'.

Record buffers_inv (g0 : ggml_gallocr) (i : nat) (acc : bool * ggml_gallocr) : Prop := {
  bi_eq     : acc.2 = with_buffers g0 (ga_buffers acc.2);
  bi_len    : length (ga_buffers acc.2) = length (ga_bufts g0);
  bi_holds  : acc.1 = true → ∀ j, (j < i)%nat → buffer_holds acc.2 j;
  bi_shared : acc.1 = true → buffers_shared acc.2 i;
  bi_made   : ∀ j x b, ga_buffers acc.2 !! j = Some (Some x) → ga_bufts g0 !! j = Some b → made b x;
}.

(** One step: buffer [i] becomes [x]. *)
Lemma buffers_inv_step g0 i g k a x : buffers_inv g0 i (true, g) → (i < length (ga_bufts g0))%nat →
  ga_buf_tallocs g0 !! i = Some k → ga_tallocs g0 !! k = Some a →
  (∀ y, x = Some y → da_max_size a ≤ bf_size y) →
  (∀ y b, x = Some y → ga_bufts g0 !! i = Some b → made b y) →
  (∀ j, (j < i)%nat → ga_buf_tallocs g0 !! j = Some k → ga_buffers g !! j = Some x) →
  buffers_inv g0 (S i) (bool_decide (is_Some x), with_buffers g (<[i := x]> (ga_buffers g))).
Proof.
  intros [Heq Hlen Hh Hs Hmd] Hi Hk Ha Hsz Hmk Hsh. cbn in *.
  split; cbn; [by rewrite Heq|by rewrite length_insert| | |].
  3: { intros j y b [(-> & -> & _)|[_ ?]]%list_lookup_insert_Some; eauto. }
  - intros [y ->]%bool_decide_eq_true j Hj. destruct (decide (j = i)) as [->|Hne].
    + exists y, k, a. cbn. rewrite list_lookup_insert_eq by lia. rewrite Heq. cbn. eauto.
    + destruct (Hh eq_refl j ltac:(lia)) as (z & k' & a' & Hz & ? & ? & ?). exists z, k', a'. cbn.
      by rewrite list_lookup_insert_ne.
  - intros [y ->]%bool_decide_eq_true. 
    assert (∀ j, (j < S i)%nat → ga_buf_tallocs g0 !! j = Some k → <[i:=Some y]> (ga_buffers g) !! j = Some (Some y)) as Hjk.
    { intros j Hj Hjk. destruct (decide (j = i)) as [->|Hne]; [apply list_lookup_insert_eq; lia|].
      rewrite list_lookup_insert_ne by done. apply Hsh; [lia|done]. }
    intros j j' k' Hj Hj' Hjk1 Hjk2. rewrite Heq in Hjk1, Hjk2. cbn in Hjk1, Hjk2. cbn.
    destruct (decide (k' = k)) as [->|Hne]; [by rewrite !Hjk|].
    rewrite !list_lookup_insert_ne by congruence. specialize (Hs eq_refl). apply (Hs j j' k').
    + assert (j ≠ i) by congruence. lia.
    + assert (j' ≠ i) by congruence. lia.
    + by rewrite Heq.
    + by rewrite Heq.
Qed.

Lemma reserve_buffer_spec g0 i b acc : galloc_ok g0 →
  (∀ i j k, ga_buf_tallocs g0 !! i = Some k → ga_buf_tallocs g0 !! j = Some k → ga_bufts g0 !! i = ga_bufts g0 !! j) → ga_bufts g0 !! i = Some b → buffers_inv g0 i acc →
  ∃ acc', reserve_buffer buft_alloc_buffer acc i b = Ok acc' ∧ buffers_inv g0 (S i) acc'.
Proof using buffer_size.
  intros Hok Hsame Hb Hinv. pose proof (lookup_lt_Some _ _ _ Hb) as Hi. destruct acc as [[] g].
  2: { exists (false, g). split; [done|]. destruct Hinv. by split. }
  pose proof Hinv as [Heq Hlen Hh Hs Hmd]. cbn in Heq, Hlen, Hmd.
  destruct (lookup_lt_is_Some_2 (ga_buf_tallocs g0) i) as [k Hk]; [rewrite (go_ids g0 Hok); lia|].
  destruct (go_ts g0 Hok i k Hk) as [a Ha].
  assert (ga_buf_tallocs g = ga_buf_tallocs g0) as Hids by by rewrite Heq.
  assert (ga_tallocs g = ga_tallocs g0) as Hts by by rewrite Heq.
  unfold reserve_buffer. cbn [negb].
  assert (∀ bs x, length bs = length (ga_buffers g) → bs !! i = Some x → (∀ j, j ≠ i → bs !! j = ga_buffers g !! j) →
    bs = <[i := x]> (ga_buffers g)) as Hbs.
  { intros bs x Hl Hx Hne. apply list_eq. intros j. destruct (decide (j = i)) as [->|Hj].
    - rewrite list_lookup_insert_eq; [done|lia].
    - rewrite list_lookup_insert_ne; auto. }
  destruct (same_before (ga_buf_tallocs g) i) as [j|] eqn:Hj.
  - rewrite Hids in Hj. apply same_before_Some in Hj as (Hji & k' & Hk1 & Hk2). simplify_eq.
    destruct (Hh eq_refl j Hji) as (x & k' & a' & Hx & Hxk & Hxa & Hxs). cbn in Hx, Hxk, Hxa.
    rewrite Hids in Hxk. rewrite Hts in Hxa. simplify_eq.
    rewrite (proj2 (at_Ok _ _ _) Hx). cbn [mbind res_bind]. rewrite put_lt by lia. cbn [mbind res_bind].
    rewrite (proj2 (at_Ok _ _ (Some x))) by (apply list_lookup_insert_eq; lia). cbn [mbind res_bind].
    rewrite Hids, (proj2 (at_Ok _ _ _) Hk). cbn [mbind res_bind]. rewrite Hts, (proj2 (at_Ok _ _ _) Ha). cbn [mbind res_bind].
    unfold ggml_dyn_tallocr_max_size. rewrite (proj2 (Z.ltb_ge _ _)) by lia. cbn.
    eexists. split; [done|]. apply (buffers_inv_step g0 i g k a (Some x)); try done.
    + by intros y [= <-].
    + intros y c [= <-] Hc. apply (Hmd j); [done|]. by rewrite (Hsame j i k).
    + intros j' Hj' Hjk. rewrite <- Hx. apply (Hs eq_refl j' j k); cbn; try done; by rewrite Hids.
  - destruct (lookup_lt_is_Some_2 (ga_buffers g) i ltac:(lia)) as [bi Hbi]. cbn [mbind res_bind].
    rewrite (proj2 (at_Ok _ _ _) Hbi). cbn [mbind res_bind].
    rewrite Hids, (proj2 (at_Ok _ _ _) Hk). cbn [mbind res_bind]. rewrite Hts, (proj2 (at_Ok _ _ _) Ha). cbn [mbind res_bind].
    assert (∀ j, (j < i)%nat → ga_buf_tallocs g0 !! j ≠ Some k) as Hno.
    { apply same_before_None; [done|]. by rewrite <- Hids. }
    unfold ggml_dyn_tallocr_max_size.
    destruct ((_ <? _) || _) eqn:Hgrow.
    + rewrite put_lt by lia. cbn [mbind res_bind]. eexists. split; [done|].
      apply (buffers_inv_step g0 i g k a); try done.
      * intros y Hy. by eapply buffer_size.
      * intros y c Hy Hc. simplify_eq. by eexists.
      * intros j' Hj' Hjk. by destruct (Hno j' Hj').
    + apply orb_false_iff in Hgrow as [Hge Hsome]. apply Z.ltb_ge in Hge. apply bool_decide_eq_false in Hsome.
      destruct bi as [y|]; [|done]. eexists. split; [done|].
      rewrite <- (list_insert_id (ga_buffers g) i (Some y) Hbi) at 1.
      apply (buffers_inv_step g0 i g k a (Some y)); try done.
      * by intros z [= <-].
      * intros z c [= <-] Hc. by apply (Hmd i).
      * intros j' Hj' Hjk. by destruct (Hno j' Hj').
Qed.

Lemma reserve_buffers g : gallocr_inv g →
  ∃ ok g', for_each_i (reserve_buffer buft_alloc_buffer) 0 (true, g) (ga_bufts g) = Ok (ok, g') ∧
    buffers_inv g (length (ga_bufts g)) (ok, g').
Proof using buffer_size.
  intros Hg. destruct (for_each_i_ok (reserve_buffer buft_alloc_buffer) (buffers_inv g) (ga_bufts g) (true, g))
    as ([ok g'] & ? & ?); [| |by exists ok, g'].
  - intros i b acc. apply reserve_buffer_spec; [apply (gv_ok g Hg)|apply (gv_same g Hg)].
  - split; cbn; [by destruct g|apply (gv_buffers g Hg)|lia| |exact (gv_made g Hg)]. intros _ j; lia.
Qed.

(** ** Reserving *)

Lemma dyn_inv_array al a l bs : dyn_inv al a l bs → length (da_free_blocks a) = MAX_FREE_BLOCKS.
Proof. intros Hi. by destruct (di_repr _ _ _ _ Hi) as (junk & -> & _ & ?). Qed.

Section reserve.
Context (T : tensors) (nodes leafs : list ptr).
Hypothesis HP : program_ok T.
Hypothesis HG : graph_ok T nodes leafs.
Hypothesis nonempty : (0 < length nodes + length leafs)%nat.
(** [n_nodes] and [n_leafs] are of type [int]. *)
Hypothesis int_sizes : Z.of_nat (length nodes) < 2 ^ 31 ∧ Z.of_nat (length leafs) < 2 ^ 31.

(** What a reservation leaves behind. *)
Record reserved (g : ggml_gallocr) : Prop := {
  rv_claims   : ∀ j, (j < length nodes)%nat → step_claim T nodes leafs buft_get_alloc_size g j;
  rv_leafs    : ∀ p q, p ∈ leafs → q ∈ leafs → managed T p → managed T q → p ≠ q →
                  apart T buft_get_alloc_size g p q;
  rv_bounds   : ∀ p, p ∈ leafs ++ nodes → managed T p → in_bounds T buft_get_alloc_size g p;
  rv_recorded : all_recorded T nodes leafs g;
}.

Lemma ensure_hash_spec g : gallocr_inv g →
  let m := Z.of_nat (length nodes) + Z.of_nat (length leafs) in
  ∃ hs hv n, ensure_hash_size g (u64 (m + m / 4)) = Ok (with_hash g hs hv) ∧ hash_wf hs n.
Proof using nonempty int_sizes.
  intros Hg m. destruct int_sizes as [Hn Hl].
  assert (0 < m < 2 ^ 32) as Hm by (unfold m; change (2 ^ 32) with (2 ^ 31 + 2 ^ 31); lia).
  assert (0 < m + m / 4 < 2 ^ 33) as Hm4.
  { change (2 ^ 33) with (2 ^ 32 + 2 ^ 32). assert (0 ≤ m / 4 ≤ m); [|lia].
    split; [apply Z.div_pos; lia|]. apply Z.div_le_upper_bound; lia. }
  assert (u64 (m + m / 4) = m + m / 4) as ->.
  { unfold u64. apply Z.mod_small. assert (2 ^ 33 < 2 ^ 64) by (apply Z.pow_lt_mono_r; lia). lia. }
  unfold ensure_hash_size. destruct (Z.ltb_spec (hs_size (ga_hash_set g)) (m + m / 4)) as [Hlt|Hge].
  - destruct (ggml_hash_set_new_spec (m + m / 4)) as (hs & n & -> & _ & _ & Hwf & _).
    { assert (2 ^ 33 < 2 ^ 59) by (apply Z.pow_lt_mono_r; lia). lia. }
    cbn. by exists hs, (replicate (Z.to_nat (hs_size hs)) zero_node), n.
  - destruct (gv_hash _ Hg) as [H0|[n Hwf]]; [lia|].
    exists (ga_hash_set g), (ga_hash_values g), n. by destruct g.
Qed.

Lemma ready_spec g : gallocr_inv g →
  let m := Z.of_nat (length nodes) + Z.of_nat (length leafs) in
  ∃ g1 ts n, ensure_hash_size g (u64 (m + m / 4)) = Ok g1 ∧
    for_each reset_talloc (ga_tallocs g1) (ga_buf_tallocs g1) = Ok ts ∧
    ready n (length (ga_bufts g)) (with_tallocs g1 ts) ∧ ga_bufts g1 = ga_bufts g ∧
    ga_buf_tallocs g1 = ga_buf_tallocs g ∧ ga_buffers g1 = ga_buffers g ∧ length ts = length (ga_tallocs g) ∧
    ∀ k a, ga_tallocs g !! k = Some a → ∃ a', ts !! k = Some a' ∧ da_alignment a' = da_alignment a.
Proof using nonempty int_sizes.
  intros Hg m. destruct (ensure_hash_spec g Hg) as (hs & hv & n & Hens & Hwf).
  destruct (reset_all (ga_buf_tallocs g) (ga_tallocs g)) as (ts & Hts & Hlen & Hk).
  { intros k Hk. apply list_elem_of_lookup in Hk as [i Hi]. by eapply (go_ts g (gv_ok g Hg)). }
  { apply (gv_array g Hg). }
  exists (with_hash g hs hv), ts, n. split_and!; try done.
  - pose proof (gv_ok g Hg) as [H1 H2 H3]. split; cbn.
    + split; cbn; [done| |].
      * intros b k Hb. apply lookup_lt_is_Some_2. rewrite Hlen. apply lookup_lt_is_Some_1. by eapply H2.
      * intros k a' Ha'. destruct (lookup_lt_is_Some_2 (ga_tallocs g) k) as [a Ha].
        { rewrite <- Hlen. by eapply lookup_lt_Some. }
        destruct (Hk k a Ha) as (a2 & ? & Hal & _). simplify_eq. rewrite Hal. by eapply H3.
    + done.
    + done.
    + intros k a' Ha'. assert (k < length (ga_tallocs g))%nat as Hlt by (rewrite <- Hlen; by eapply lookup_lt_Some).
      destruct (lookup_lt_is_Some_2 _ _ Hlt) as [a Ha].
      destruct (Hk k a Ha) as (a2 & ? & Hal & _ & Hfr). simplify_eq. apply Hfr. left. by apply (gv_used g Hg).
  - intros k a Ha. destruct (Hk k a Ha) as (a' & ? & ? & _). eauto.
Qed.

(** The allocator after the walk. *)
Lemma walked_inv g gr g' n own : gallocr_inv g → untouched gr g' → length (ga_tallocs gr) = length (ga_tallocs g) →
  ga_bufts gr = ga_bufts g → ga_buf_tallocs gr = ga_buf_tallocs g → ga_buffers gr = ga_buffers g →
  (∀ k a, ga_tallocs g !! k = Some a → ∃ a', ga_tallocs gr !! k = Some a' ∧ da_alignment a' = da_alignment a) →
  state_inv T buft_get_alloc_size n g' own → gallocr_inv g'.
Proof.
  intros [H1 H2 H3 H4 H5 H6 H7 H8] [Ub Uf Ui Ua _ _] Hlen Hb Hi Hbuf Hal [Htw [Hok _ _ _ Hdyn] _]. split.
  - done.
  - congruence.
  - intros k a Ha. destruct (Hdyn k a Ha) as [bs Hbs]. by eapply dyn_inv_array.
  - intros k Hk. rewrite Ui, Hi. apply H4. rewrite <- Hlen.
    rewrite <- (length_fmap da_alignment (ga_tallocs gr)), <- Ua, length_fmap. done.
  - intros i k b Hik Hib. rewrite Ui, Hi in Hik. rewrite Ub, Hb in Hib.
    destruct (H5 i k b Hik Hib) as (a & Ha & <-). destruct (Hal k a Ha) as (a1 & Ha1 & <-).
    assert ((da_alignment <$> ga_tallocs g') !! k = Some (da_alignment a1)) as Hk by by rewrite Ua, list_lookup_fmap, Ha1.
    rewrite list_lookup_fmap in Hk. destruct (ga_tallocs g' !! k) as [a2|]; [|done]. cbn in Hk. simplify_eq. eauto.
  - by rewrite Ui, Hi, Ub, Hb.
  - by rewrite Uf, Hbuf, Ub, Hb.
  - right. exists n. apply Htw.
Qed.

Lemma at_step_reserved n nb own g : at_step T nodes leafs buft_get_alloc_size n nb (length nodes) own g →
  (∀ p, p ∈ leafs ++ nodes → managed T p → in_bounds T buft_get_alloc_size g p) ∧
  (∀ p, p ∈ leafs ++ nodes → managed T p → is_Some (place T buft_get_alloc_size g p)).
Proof.
  intros Hw.
  assert (∀ p, p ∈ leafs ++ nodes → managed T p → in_bounds T buft_get_alloc_size g p) as Hb.
  { intros p Hp Hman. apply (wi_bounds _ _ _ _ _ _ _ _ _ _ _ Hw p Hman). unfold born.
    rewrite take_ge by lia. apply elem_of_app in Hp. naive_solver. }
  split; [exact Hb|]. intros p Hp Hman. destruct (Hb p Hp Hman) as (k & b & a & Hr & _).
  unfold region_of in Hr. destruct (place _ _ _ _); [done|by cbn in Hr].
Qed.

Lemma gallocr_inv_agrees g g' : agrees g g' → length (ga_buffers g') = length (ga_buffers g) →
  (∀ i x b, ga_buffers g' !! i = Some (Some x) → ga_bufts g !! i = Some b → made b x) →
  (∃ n, table_wf g' n) → gallocr_inv g → gallocr_inv g'.
Proof.
  intros [Ab Ai At An] Hl Hmd [n Htw] [[O1 O2 O3] H2 H3 H4 H5 H6 _ _]. split.
  - split; rewrite ?Ab, ?Ai, ?At; done.
  - congruence.
  - by rewrite At.
  - by rewrite At, Ai.
  - by rewrite At, Ai, Ab.
  - by rewrite Ai, Ab.
  - by rewrite Ab.
  - right. exists n. apply Htw.
Qed.

Lemma reserve_main g node_ids leaf_ids : gallocr_inv g →
  ids_ok (length (ga_bufts g)) node_ids (length nodes) → ids_ok (length (ga_bufts g)) leaf_ids (length leafs) →
  aborts (ggml_gallocr_reserve_n buft_get_alloc_size buft_alloc_buffer T g nodes leafs node_ids leaf_ids)
    (λ '(ok, g'), gallocr_inv g' ∧ ga_bufts g' = ga_bufts g ∧ reserved g' ∧
       (ok = true → (∀ j, (j < length (ga_bufts g))%nat → buffer_holds g' j) ∧
                    buffers_shared g' (length (ga_bufts g)))).
Proof using All.
  intros Hg Hnid Hlid. destruct (ready_spec g Hg) as (g1 & ts & n & Hens & Hres & Hready & Hb & Hi & Hbuf & Hlen & Hal).
  unfold ggml_gallocr_reserve_n. rewrite Hens. cbn [mbind res_bind]. rewrite Hres. cbn [mbind res_bind].
  set (gr := with_tallocs g1 ts) in *.
  pose proof (alloc_graph_untouched buft_get_alloc_size T gr nodes leafs node_ids leaf_ids) as Hun.
  pose proof (alloc_graph_walk T nodes leafs HP HG buft_get_alloc_size n (length (ga_bufts g)) size_sane size_layout
    node_ids leaf_ids gr Hready Hnid Hlid) as Hw.
  destruct (ggml_gallocr_alloc_graph_impl _ _ _ _ _ _ _) as [g2|e]; [|exact Hw]. cbn in Hun, Hw. cbn [mbind res_bind].
  destruct Hw as [own Hw]. pose proof (at_step_reserved n _ own g2 Hw) as [Hbnd Hpl].
  assert (gallocr_inv g2) as Hg2.
  { eapply (walked_inv g gr g2 n own); try done. apply Hw. }
  pose proof (wi_state _ _ _ _ _ _ _ _ _ _ _ Hw) as Hst.
  pose proof (record_spec T nodes leafs n HP HG g2 (si_table _ _ _ _ _ Hst) Hpl) as Hrec.
  destruct (for_each_i (node_alloc_of _ _) _ _ _) as [g3|e]; [|exact Hrec]. cbn [mbind res_bind] in *.
  destruct (for_each_i (leaf_alloc_of _ _) _ _ _) as [g4|e]; [|exact Hrec]. cbn in Hrec. cbn [mbind res_bind].
  destruct Hrec as [[Htw4 Hag4 Hbuf4] Hall].
  assert (gallocr_inv g4) as Hg4.
  { apply (gallocr_inv_agrees g2); [done|by rewrite Hbuf4| |by exists n|done]. rewrite Hbuf4. apply (gv_made g2 Hg2). }
  assert (ga_bufts g4 = ga_bufts g) as Hb4.
  { rewrite (ag_bufts _ _ Hag4), (un_bufts _ _ Hun). exact Hb. }
  destruct (reserve_buffers g4 Hg4) as (ok & g5 & -> & [Heq5 Hlen5 Hh5 Hs5 Hm5]).
  cbn in Heq5, Hlen5, Hh5, Hs5, Hm5. cbn.
  assert (agrees g4 g5) as Hag5 by by rewrite Heq5. pose proof (agrees_trans _ _ _ Hag4 Hag5) as Hag.
  split_and!.
  - apply (gallocr_inv_agrees g4); [done|by rewrite Hlen5, (gv_buffers _ Hg4)|exact Hm5| |done].
    exists n. destruct Htw4. rewrite Heq5. by split.
  - by rewrite (ag_bufts _ _ Hag5).
  - split.
    + intros j Hj. apply (step_claim_agrees T nodes leafs g2); [done|]. by apply (wi_claims _ _ _ _ _ _ _ _ _ _ _ Hw).
    + intros p q Hp Hq Hmp Hmq Hne. apply (apart_agrees T g2); [done|]. by apply (wi_leafs _ _ _ _ _ _ _ _ _ _ _ Hw).
    + intros p Hp Hman. apply (in_bounds_agrees T g2); [done|]. auto.
    + destruct Hall as [A1 A2 A3 A4]. split.
      * by rewrite Heq5.
      * by rewrite Heq5.
      * intros i m Him. apply (node_recorded_agrees T g4); [done|by rewrite Heq5|auto].
      * intros i p Hip. apply (leaf_recorded_agrees T g4); [done|by rewrite Heq5|auto].
  - intros ->. rewrite <- Hb4. auto.
Qed.
End reserve.
End spec.
