(* ===== verification/GallocInit.v ===== *)
(** * Using the assignments of the graph allocator (ggml/src/ggml-alloc.c)

    [ggml_gallocr_alloc_graph] gives the tensors of a graph the addresses that a
    reservation recorded, after checking that the record can be used for the
    graph; ggml/src/ggml-backend.cpp has the two functions that write the address
    into a tensor.  Then the queries about the size of the allocator.  The hook
    [ggml_backend_buffer_init_tensor] of a backend writes fields that the model
    of a tensor does not have, and [ggml_backend_buffer_reset] acts on the buffer
    only: they are left out. *)
From S2P Require Import Prelude HashSet Graph DynAlloc GraphAlloc.

Definition set_data (t : ggml_tensor) (data buf : ptr) : ggml_tensor :=
  mk_tensor t.(t_type) t.(t_ne) t.(t_nb) t.(t_op) t.(t_flags) t.(t_grad) t.(t_src)
    t.(t_view_src) t.(t_view_offs) data buf.

(** [ggml_backend_view_init]: a view takes the buffer of its source. *)
Definition ggml_backend_view_init (T : tensors) (p : ptr) : res tensors :=
  t ← deref T p;
  _ ← ggml_assert (is_null t.(t_buffer));
  _ ← ggml_assert (negb (is_null t.(t_view_src)));
  v ← deref T t.(t_view_src);
  _ ← ggml_assert (negb (is_null v.(t_buffer)));
  _ ← ggml_assert (negb (is_null v.(t_data)));
  Ok (<[p := set_data t (u64 (v.(t_data) + t.(t_view_offs))) v.(t_buffer)]> T).

Section init.
Context (buft_get_alloc_size : buft → ggml_tensor → Z)
        (buft_alloc_buffer : buft → Z → option buffer)
        (buffer_base : buffer → ptr)
        (buffer_get_alloc_size : buffer → ggml_tensor → Z).

Definition ggml_backend_buffer_get_base (x : buffer) : res ptr :=
  _ ← ggml_assert (negb (is_null (buffer_base x))); Ok (buffer_base x).

Definition ggml_backend_tensor_alloc (T : tensors) (x : buffer) (p addr : ptr) : res tensors :=
  t ← deref T p;
  _ ← ggml_assert (is_null t.(t_buffer));
  _ ← ggml_assert (is_null t.(t_data));
  _ ← ggml_assert (is_null t.(t_view_src));
  base ← ggml_backend_buffer_get_base x;
  _ ← ggml_assert (base <=? addr);
  _ ← ggml_assert (u64 (addr + buffer_get_alloc_size x t) <=? u64 (base + x.(bf_size)));
  Ok (<[p := set_data t addr x.(bf_id)]> T).

(** [buffers[i]], which must not be NULL. *)
Definition buffer_at (g : ggml_gallocr) (i : Z) : res buffer :=
  b ← at_int g.(ga_buffers) i;
  match b with Some x => Ok x | None => Err Oob end.

Definition ggml_gallocr_init_tensor (g : ggml_gallocr) (T : tensors) (p : ptr) (a : tensor_alloc) : res tensors :=
  t ← deref T p;
  if ggml_is_view t then
    if is_null t.(t_buffer) then
      v ← deref T t.(t_view_src);
      if is_null v.(t_buffer) then Ok T else ggml_backend_view_init T p
    else Ok T
  else if is_null t.(t_data) then
    x ← buffer_at g a.(al_buffer_id);
    base ← ggml_backend_buffer_get_base x;
    ggml_backend_tensor_alloc T x p (u64 (base + a.(al_offset)))
  else Ok T.

(** ** Can the record be used for this graph? *)

Definition ggml_gallocr_node_needs_realloc (g : ggml_gallocr) (t : ggml_tensor) (a : tensor_alloc) : res bool :=
  if negb (is_null t.(t_data)) || ggml_is_view t then Ok true
  else if (a.(al_buffer_id) <? 0) || (Z.of_nat (ga_n_buffers g) <=? a.(al_buffer_id)) then Ok false
  else b ← at_int g.(ga_bufts) a.(al_buffer_id); Ok (buft_get_alloc_size b t <=? a.(al_size_max)).

(** The sources of a node: one of them does not fit its assignment. *)
Fixpoint srcs_need_realloc (T : tensors) (g : ggml_gallocr) (src : list ptr) (l : list tensor_alloc) : res bool :=
  match src with
  | [] => Ok false
  | q :: src =>
      a ← at_ l 0;
      if is_null q then srcs_need_realloc T g src (tail l)
      else
        t ← deref T q;
        ok ← ggml_gallocr_node_needs_realloc g t a;
        if ok : bool then srcs_need_realloc T g src (tail l) else Ok true
  end.

(** From node [i] on. *)
Fixpoint nodes_need_realloc (T : tensors) (g : ggml_gallocr) (i : nat) (nodes : list ptr) : res bool :=
  match nodes with
  | [] => Ok false
  | m :: nodes =>
      na ← at_ g.(ga_node_allocs) i;
      t ← deref T m;
      ok ← ggml_gallocr_node_needs_realloc g t na.(na_dst);
      if negb ok then Ok true
      else
        bad ← srcs_need_realloc T g t.(t_src) na.(na_src);
        if bad : bool then Ok true else nodes_need_realloc T g (S i) nodes
  end.

Definition ggml_gallocr_needs_realloc (T : tensors) (g : ggml_gallocr) (nodes leafs : list ptr) : res bool :=
  if negb (g.(ga_n_nodes) =? length nodes)%nat then Ok true
  else if negb (g.(ga_n_leafs) =? length leafs)%nat then Ok true
  else nodes_need_realloc T g 0 nodes.

(** ** Allocating the tensors of a graph *)

Definition init_leaf (g : ggml_gallocr) (T : tensors) (i : nat) (leaf : ptr) : res tensors :=
  la ← at_ g.(ga_leaf_allocs) i; ggml_gallocr_init_tensor g T leaf la.(la_leaf).

(** The sources of a node, each with its assignment. *)
Fixpoint init_srcs (g : ggml_gallocr) (T : tensors) (src : list ptr) (l : list tensor_alloc) : res tensors :=
  match src with
  | [] => Ok T
  | q :: src =>
      a ← at_ l 0;
      T ← (if is_null q then Ok T else ggml_gallocr_init_tensor g T q a);
      init_srcs g T src (tail l)
  end.

Definition init_node (g : ggml_gallocr) (T : tensors) (i : nat) (node : ptr) : res tensors :=
  na ← at_ g.(ga_node_allocs) i;
  t ← deref T node;
  T ← init_srcs g T t.(t_src) na.(na_src);
  ggml_gallocr_init_tensor g T node na.(na_dst).

(** A fresh reservation when the record does not fit; only with one buffer. *)
Definition prepare_graph (T : tensors) (g : ggml_gallocr) (nodes leafs : list ptr) : res (bool * ggml_gallocr) :=
  bad ← ggml_gallocr_needs_realloc T g nodes leafs;
  if bad : bool then
    if (ga_n_buffers g =? 1)%nat then ggml_gallocr_reserve buft_get_alloc_size buft_alloc_buffer T g nodes leafs
    else Ok (false, g)
  else Ok (true, g).

Definition ggml_gallocr_alloc_graph (T : tensors) (g : ggml_gallocr) (nodes leafs : list ptr)
    : res (bool * (ggml_gallocr * tensors)) :=
  '(ready, g) ← prepare_graph T g nodes leafs;
  if negb ready then Ok (false, (g, T))
  else
    T ← for_each_i (init_leaf g) 0 T leafs;
    T ← for_each_i (init_node g) 0 T nodes;
    Ok (true, (g, T)).

End init.

(** ** Sizes *)

(** The size of a buffer, zero for the second and later appearances of it. *)
Definition ggml_gallocr_get_buffer_size (g : ggml_gallocr) (buffer_id : Z) : res Z :=
  _ ← ggml_assert ((0 <=? buffer_id) && (buffer_id <? Z.of_nat (ga_n_buffers g)));
  b ← at_int g.(ga_buffers) buffer_id;
  match b with
  | None => Ok 0
  | Some x =>
      if existsb (λ y, bool_decide (bf_id <$> y = Some x.(bf_id))) (take (Z.to_nat buffer_id) g.(ga_buffers))
      then Ok 0 else Ok x.(bf_size)
  end.

(** [ggml_gallocr_metadata_add]: [None] when the sum is not a [size_t]. *)
Definition ggml_gallocr_metadata_add (total : option Z) (count item_size : Z) : option Z :=
  total ← total;
  if negb (count =? 0) && (SIZE_MAX / count <? item_size) then None
  else
    let bytes := u64 (count * item_size) in
    if u64 (SIZE_MAX - bytes) <? total then None else Some (u64 (total + bytes)).

(** The sizes of the C structures, which the compiler chooses. *)
Record layout : Type := mk_layout {
  sz_gallocr : Z; sz_pointer : Z; sz_bitset : Z; sz_hash_node : Z;
  sz_node_alloc : Z; sz_leaf_alloc : Z; sz_dyn_tallocr : Z;
}.

(** The first of equal entries of [buf_tallocs] and [buffers] counts. *)
Definition add_talloc (L : layout) (ids : list nat) (total : option Z) (i : nat) : option Z :=
  match same_before ids i with
  | Some _ => total
  | None => ggml_gallocr_metadata_add total 1 L.(sz_dyn_tallocr)
  end.

Definition add_buffer (buffer_metadata : buffer → option Z) (bs : list (option buffer)) (total : option Z) (i : nat)
    : option Z :=
  match mjoin (bs !! i) with
  | None => total
  | Some x =>
      if existsb (λ y, bool_decide (bf_id <$> y = Some x.(bf_id))) (take i bs) then total
      else match buffer_metadata x with
           | Some s => ggml_gallocr_metadata_add total 1 s
           | None => None
           end
  end.

Definition metadata_arrays (L : layout) (g : ggml_gallocr) : list (Z * Z) :=
  [(Z.of_nat (ga_n_buffers g), L.(sz_pointer)); (Z.of_nat (ga_n_buffers g), L.(sz_pointer));
   (Z.of_nat (ga_n_buffers g), L.(sz_pointer)); (g.(ga_hash_set).(hs_size), L.(sz_pointer));
   (ggml_bitset_size g.(ga_hash_set).(hs_size), L.(sz_bitset)); (g.(ga_hash_set).(hs_size), L.(sz_hash_node));
   (Z.of_nat (length g.(ga_node_allocs)), L.(sz_node_alloc));
   (Z.of_nat (length g.(ga_leaf_allocs)), L.(sz_leaf_alloc))].

Definition ggml_gallocr_get_metadata_size (L : layout) (buffer_metadata : buffer → option Z) (g : ggml_gallocr)
    : option Z :=
  let total := foldl (λ total '(count, item), ggml_gallocr_metadata_add total count item)
                 (Some L.(sz_gallocr)) (metadata_arrays L g) in
  let total := foldl (add_talloc L g.(ga_buf_tallocs)) total (seq 0 (ga_n_buffers g)) in
  foldl (add_buffer buffer_metadata g.(ga_buffers)) total (seq 0 (ga_n_buffers g)).

(** [ggml_gallocr_free]: the buffers and the offset allocators it frees, in order. *)
Definition ggml_gallocr_free (g : ggml_gallocr) : list Z * list nat :=
  (omap (λ i, x ← mjoin (g.(ga_buffers) !! i);
              if existsb (λ y, bool_decide (bf_id <$> y = Some x.(bf_id))) (take i g.(ga_buffers)) then None
              else Some x.(bf_id)) (seq 0 (ga_n_buffers g)),
   omap (λ i, k ← g.(ga_buf_tallocs) !! i;
              match same_before g.(ga_buf_tallocs) i with Some _ => None | None => Some k end)
     (seq 0 (ga_n_buffers g))).

(** ** The size of the metadata

    What the function adds up, in order; [None] for a buffer whose backend does
    not tell the size of its metadata. *)

Definition first_buffer (bs : list (option buffer)) (i : nat) : option buffer :=
  x ← mjoin (bs !! i);
  if existsb (λ y, bool_decide (bf_id <$> y = Some x.(bf_id))) (take i bs) then None else Some x.

Definition metadata_items (L : layout) (buffer_metadata : buffer → option Z) (g : ggml_gallocr) : list (option Z) :=
  map (λ '(count, item), Some (count * item)) (metadata_arrays L g) ++
  omap (λ i, match same_before g.(ga_buf_tallocs) i with Some _ => None | None => Some (Some L.(sz_dyn_tallocr)) end)
    (seq 0 (ga_n_buffers g)) ++
  omap (λ i, buffer_metadata <$> first_buffer g.(ga_buffers) i) (seq 0 (ga_n_buffers g)).

Fixpoint sum_items (l : list (option Z)) : option Z :=
  match l with
  | [] => Some 0
  | x :: l => x ← x; s ← sum_items l; Some (x + s)
  end.

Definition size_t (z : Z) : Prop := 0 ≤ z ≤ SIZE_MAX.

(** [total + x], when both are known and the sum is a [size_t]. *)
Definition checked_add (total x : option Z) : option Z :=
  t ← total; x ← x; if bool_decide (t + x ≤ SIZE_MAX) then Some (t + x) else None.

Section metadata.
Implicit Types (l : list (option Z)).

Lemma metadata_add_exact total count item : from_option size_t True total → size_t count → size_t item →
  ggml_gallocr_metadata_add total count item = checked_add total (Some (count * item)).
Proof.
  destruct total as [t|]; [|done]. unfold size_t, checked_add. cbn. intros Ht Hc Hi.
  assert (SIZE_MAX = 2 ^ 64 - 1) as HM by done. unfold ggml_gallocr_metadata_add. cbn [mbind option_bind].
  assert (negb (count =? 0) && (SIZE_MAX / count <? item) = bool_decide (SIZE_MAX < count * item)) as ->.
  { destruct (Z.eqb_spec count 0) as [->|Hne]; cbn; [by rewrite bool_decide_eq_false_2 by lia|].
    destruct (Z.ltb_spec (SIZE_MAX / count) item) as [Hlt|Hge]; symmetry.
    - apply bool_decide_eq_true. pose proof (Z.mul_succ_div_gt SIZE_MAX count ltac:(lia)). nia.
    - apply bool_decide_eq_false. pose proof (Z.mul_div_le SIZE_MAX count ltac:(lia)). nia. }
  case_bool_decide as Hov.
  { rewrite bool_decide_eq_false_2 by lia. done. }
  rewrite (u64_small (count * item)) by nia. rewrite (u64_small (SIZE_MAX - _)) by nia.
  destruct (Z.ltb_spec (SIZE_MAX - count * item) t).
  - rewrite bool_decide_eq_false_2 by lia. done.
  - rewrite bool_decide_eq_true_2 by lia. rewrite u64_small by nia. done.
Qed.

Lemma checked_add_ok total x : from_option size_t True total → from_option (Z.le 0) True x →
  from_option size_t True (checked_add total x).
Proof.
  destruct total as [t|], x as [x|]; cbn; try done. unfold size_t. intros. case_bool_decide; cbn; lia.
Qed.

Lemma checked_fold l : ∀ total, from_option size_t True total → Forall (from_option (Z.le 0) True) l →
  foldl checked_add total l = (t ← total; s ← sum_items l; if bool_decide (t + s ≤ SIZE_MAX) then Some (t + s) else None).
Proof.
  induction l as [|x l IH]; intros total Ht Hl; cbn [foldl sum_items].
  { destruct total as [t|]; [|done]. cbn in *. rewrite Z.add_0_r, bool_decide_eq_true_2; [done|]. apply Ht. }
  apply Forall_cons in Hl as [Hx Hl]. rewrite IH by (try done; by apply checked_add_ok).
  destruct total as [t|], x as [x|]; cbn in *; try done.
  assert (from_option (Z.le 0) True (sum_items l)) as Hs.
  { clear -Hl. induction Hl as [|[y|] l Hy _ IH]; cbn in *; [lia| |done]. destruct (sum_items l); cbn in *; [lia|done]. }
  destruct (sum_items l) as [s|]; cbn in *; [|by case_bool_decide].
  rewrite (Z.add_assoc t). repeat case_bool_decide; cbn; try done; try lia.
  - by rewrite bool_decide_eq_true_2.
  - by rewrite bool_decide_eq_false_2.
Qed.

(** A loop that adds the items [f] finds. *)
Lemma foldl_items {A} (f : A → option (option Z)) (h : option Z → A → option Z) (k : list A) :
  (∀ total a, from_option size_t True total → a ∈ k →
     h total a = match f a with Some x => checked_add total x | None => total end) →
  (∀ a x, a ∈ k → f a = Some x → from_option (Z.le 0) True x) →
  ∀ total, from_option size_t True total → foldl h total k = foldl checked_add total (omap f k).
Proof.
  induction k as [|a k IH]; intros Hh Hf total Ht; [done|]. cbn [foldl omap list_omap].
  rewrite Hh by (try done; left). destruct (f a) as [x|] eqn:Hfa; cbn [foldl].
  - apply IH; [| |apply checked_add_ok; [done|apply (Hf a x); [left|done]]].
    + intros t b Htt Hb. apply Hh; [done|by right].
    + intros b y Hb. apply Hf. by right.
  - apply IH; [| |done].
    + intros t b Htt Hb. apply Hh; [done|by right].
    + intros b y Hb. apply Hf. by right.
Qed.

Lemma omap_items_nonneg {A} (f : A → option (option Z)) (k : list A) :
  (∀ a x, a ∈ k → f a = Some x → from_option (Z.le 0) True x) → Forall (from_option (Z.le 0) True) (omap f k).
Proof. intros Hf. apply Forall_forall. intros x (a & Ha & Hx)%list_elem_of_omap. eauto. Qed.

Context (L : layout) (buffer_metadata : buffer → option Z) (g : ggml_gallocr).
Hypothesis gallocr_size : size_t L.(sz_gallocr) ∧ size_t L.(sz_dyn_tallocr).
Hypothesis array_sizes : ∀ count item, (count, item) ∈ metadata_arrays L g → size_t count ∧ size_t item.
Hypothesis backend_sizes : ∀ x s, buffer_metadata x = Some s → size_t s.

(** [ggml_gallocr_get_metadata_size] returns the exact size of what the
    allocator owns, each shared allocator and buffer counted once; it fails
    exactly when the sum is no [size_t] or a backend does not tell its share. *)
Theorem metadata_size_exact :
  ggml_gallocr_get_metadata_size L buffer_metadata g =
  (s ← sum_items (metadata_items L buffer_metadata g);
   if bool_decide (L.(sz_gallocr) + s ≤ SIZE_MAX) then Some (L.(sz_gallocr) + s) else None).
Proof using All.
  unfold ggml_gallocr_get_metadata_size.
  set (f1 := λ ci : Z * Z, Some (Some (ci.1 * ci.2))).
  set (f2 := λ i, match same_before g.(ga_buf_tallocs) i with Some _ => None | None => Some (Some L.(sz_dyn_tallocr)) end).
  set (f3 := λ i, buffer_metadata <$> first_buffer g.(ga_buffers) i).
  assert (metadata_items L buffer_metadata g = omap f1 (metadata_arrays L g) ++ omap f2 (seq 0 (ga_n_buffers g)) ++
    omap f3 (seq 0 (ga_n_buffers g))) as Hitems by done.
  assert (∀ a x, a ∈ metadata_arrays L g → f1 a = Some x → from_option (Z.le 0) True x) as H1.
  { intros [c i] x Hci [= <-]. destruct (array_sizes c i Hci) as [[] []]. cbn. nia. }
  assert (∀ a x, a ∈ seq 0 (ga_n_buffers g) → f2 a = Some x → from_option (Z.le 0) True x) as H2.
  { intros i x _. unfold f2. destruct (same_before _ _); [done|]. intros [= <-]. cbn. apply gallocr_size. }
  assert (∀ a x, a ∈ seq 0 (ga_n_buffers g) → f3 a = Some x → from_option (Z.le 0) True x) as H3.
  { intros i x _. unfold f3. destruct (first_buffer _ _) as [y|]; [|done]. intros [= <-].
    destruct (buffer_metadata y) as [s|] eqn:Hs; [|done]. apply (backend_sizes y s Hs). }
  assert (∀ l t, from_option size_t True t → Forall (from_option (Z.le 0) True) l →
    from_option size_t True (foldl checked_add t l)) as Hok.
  { intros l. induction l as [|x l IH]; intros t Ht Hl; [done|]. apply Forall_cons in Hl as [Hx Hl].
    cbn. apply IH; [by apply checked_add_ok|done]. }
  pose proof (omap_items_nonneg f1 _ H1) as N1. pose proof (omap_items_nonneg f2 _ H2) as N2.
  pose proof (omap_items_nonneg f3 _ H3) as N3.
  rewrite (foldl_items f1 _ (metadata_arrays L g)); [|intros t [c i] Ht Hci|done|apply gallocr_size].
  2: { cbn. destruct (array_sizes c i Hci). by apply metadata_add_exact. }
  rewrite (foldl_items f2 (add_talloc L (ga_buf_tallocs g)) (seq 0 _)); [|intros t i Ht _|done|apply Hok; [apply gallocr_size|done]].
  2: { unfold add_talloc, f2. destruct (same_before _ _); [done|].
       rewrite metadata_add_exact; [by rewrite Z.mul_1_l|done|by split|apply gallocr_size]. }
  rewrite (foldl_items f3 (add_buffer buffer_metadata (ga_buffers g)) (seq 0 _)); [|intros t i Ht _|done|apply Hok; [apply Hok; [apply gallocr_size|done]|done]].
  2: { unfold add_buffer, f3, first_buffer. destruct (mjoin _) as [x|]; [|done]. cbn.
       destruct (existsb _ _); [done|]. cbn. destruct (buffer_metadata x) as [s|] eqn:Hs.
       - rewrite metadata_add_exact; [by rewrite Z.mul_1_l|done|by split|by apply (backend_sizes x)].
       - by destruct t. }
  rewrite <- !foldl_app, <- Hitems.
  rewrite checked_fold; [done|apply gallocr_size|]. rewrite Hitems. by rewrite !Forall_app.
Qed.
End metadata.

Definition ex_layout : layout := mk_layout 120 8 4 24 408 32 4128.

(** Two buffer types over one allocator and one buffer. *)
Definition ex_two : ggml_gallocr :=
  mk_gallocr [0; 0] [Some (mk_buffer 7 64); Some (mk_buffer 7 64)] [0%nat; 0%nat]
    [mk_dyn 32 1 [] 0] (mk_hash_set 11 [0] (replicate 11 None)) (replicate 11 zero_node) [] 0 [] 0.

Lemma metadata_size_exact_witness :
  ggml_gallocr_get_metadata_size ex_layout (λ _, Some 100) ex_two = Some 4752.
Proof.
  rewrite (metadata_size_exact ex_layout (λ _, Some 100) ex_two).
  - vm_compute. reflexivity.
  - split; split; vm_compute; discriminate.
  - assert (Forall (λ ci, (0 <=? ci.1) && (ci.1 <=? SIZE_MAX) && (0 <=? ci.2) && (ci.2 <=? SIZE_MAX) = true)
      (metadata_arrays ex_layout ex_two)) as HF by (apply (bool_decide_unpack _); vm_compute; exact I).
    rewrite Forall_forall in HF. intros c i Hci. specialize (HF _ Hci). cbn in HF. unfold size_t. lia.
  - intros x s [= <-]. split; vm_compute; discriminate.
Defined.
