(* ===== verification/GallocUse.v ===== *)
(** * The memory of a graph

    What the graph allocator promises to its callers.  From any state that
    [ggml_gallocr_new_n], reservations and graph allocations can reach, a
    reservation returns or stops in [GGML_ABORT]; what it records clobbers
    nothing that is still needed and fits in the buffers; and
    [ggml_gallocr_alloc_graph] gives every tensor of the graph the recorded
    address, without another reservation. *)
From S2P Require Import Prelude HashSet Graph DynAlloc GraphAlloc GallocTable GallocNode GallocWalk GallocSpec GallocInit.

Section use.
Context (buft_get_alignment : buft → Z)
        (buft_get_alloc_size : buft → ggml_tensor → Z)
        (buft_alloc_buffer : buft → Z → option buffer)
        (buffer_base : buffer → ptr)
        (buffer_get_alloc_size : buffer → ggml_tensor → Z).

(** What the documentation of the backend interface asks of a backend: a power
    of two as alignment, sizes that depend on the type and the shape only, and
    buffers at an address, of the size asked for, that need no more room for a
    tensor than their type says. *)
Record backend_ok : Prop := {
  bo_alignment : ∀ b, is_alignment (buft_get_alignment b);
  bo_size      : ∀ b t, size_ok (buft_get_alloc_size b t);
  bo_layout    : ∀ b t t', ggml_are_same_layout t t' = true → buft_get_alloc_size b t = buft_get_alloc_size b t';
  bo_buffer    : ∀ b s x, buft_alloc_buffer b s = Some x →
                   s ≤ bf_size x ∧ 0 < bf_id x ∧ 0 < buffer_base x ∧ buffer_base x + bf_size x < 2 ^ 64 ∧
                   ∀ t, buffer_get_alloc_size x t ≤ buft_get_alloc_size b t;
  bo_room      : ∀ x t, 0 ≤ buffer_get_alloc_size x t;
}.

Hypothesis HB : backend_ok.

(** ** Addresses *)

Section graph.
Context (T : tensors) (nodes leafs : list ptr) (g : ggml_gallocr).
Hypothesis HP : program_ok T.
Hypothesis HG : graph_ok T nodes leafs.

(** The tensors that get memory have none, and the views among the leafs have
    sources that were allocated before. *)
Hypothesis T_buffer : ∀ p t, T !! p = Some t → managed_t t = true → t.(t_buffer) = NULL.
Hypothesis leaf_views : ∀ p, p ∈ leafs → is_view_p T p → ¬ managed T (root T p).

(** The buffer of [p] and its address. *)
Definition buffer_of (p : ptr) : option buffer :=
  mjoin (ga_buffers g !! Z.to_nat (hn_buffer_id (node_of g p))).
Definition buf_id (p : ptr) : ptr := from_option bf_id NULL (buffer_of p).
Definition addr (p : ptr) : ptr :=
  from_option (λ x, u64 (buffer_base x + hn_offset (node_of g p))) NULL (buffer_of p).

(** What [ggml_gallocr_alloc_graph] makes of a tensor of the graph. *)
Definition allocated_tensor (p : ptr) (t : ggml_tensor) : ggml_tensor :=
  if managed_t t then set_data t (addr p) (buf_id p)
  else if ggml_is_view t && is_null t.(t_buffer) then
    match T !! t.(t_view_src) with
    | Some v =>
        if managed_t v then set_data t (u64 (addr t.(t_view_src) + t.(t_view_offs))) (buf_id t.(t_view_src))
        else if is_null v.(t_buffer) then t
        else set_data t (u64 (v.(t_data) + t.(t_view_offs))) v.(t_buffer)
    | None => t
    end
  else t.

(** The tensors of [D] are done. *)
Definition init_inv (D : list ptr) (T' : tensors) : Prop :=
  ∀ p, T' !! p = (if decide (p ∈ D) then allocated_tensor p <$> T !! p else T !! p).

Hypothesis reserved_g : reserved buft_get_alloc_size T nodes leafs g.
Hypothesis inv_g : gallocr_inv buft_get_alignment buft_alloc_buffer g.
Hypothesis holds_g : ∀ j, (j < length (ga_bufts g))%nat → buffer_holds g j.

(** A tensor that the reservation placed lies in its buffer. *)
Lemma placed_facts p t a : p ∈ leafs ++ nodes → T !! p = Some t → managed_t t = true →
  recorded buft_get_alloc_size T g p a →
  ∃ x b, buffer_at g (al_buffer_id a) = Ok x ∧ buffer_of p = Some x ∧ al_offset a = hn_offset (node_of g p) ∧
    0 ≤ al_offset a ∧ al_offset a + buft_get_alloc_size b t ≤ bf_size x ∧
    0 < bf_id x ∧ 0 < buffer_base x ∧ buffer_base x + bf_size x < 2 ^ 64 ∧
    al_size_max a = buft_get_alloc_size b t ∧ ga_bufts g !! Z.to_nat (al_buffer_id a) = Some b ∧
    0 ≤ al_buffer_id a < Z.of_nat (ga_n_buffers g) ∧
    0 ≤ buffer_get_alloc_size x t ≤ buft_get_alloc_size b t.
Proof using HB reserved_g inv_g holds_g.
  intros Hp Ht Hm Hr. unfold recorded in Hr. rewrite Ht, Hm in Hr. destruct Hr as (b & Hid & Hb & ->).
  cbn. pose proof (lookup_lt_Some _ _ _ Hb) as Hlt.
  destruct (holds_g _ Hlt) as (x & k & al & Hx & Hk & Ha & Hsz).
  destruct (rv_bounds _ _ _ _ _ reserved_g p Hp ltac:(by exists t)) as (k' & blk & al' & Hreg & Ha' & H0 & Hend).
  unfold region_of, place in Hreg. rewrite Ht in Hreg. cbn [mbind option_bind] in Hreg. unfold entry in Hreg.
  rewrite bool_decide_eq_true_2 in Hreg by done. rewrite Hk in Hreg. cbn in Hreg. rewrite Hb in Hreg. cbn in Hreg.
  rewrite Ha in Hreg. cbn in Hreg. simplify_eq. destruct (gv_made _ _ _ inv_g _ x b Hx Hb) as [s Hs].
  destruct (bo_buffer HB b s x Hs) as (_ & ? & ? & ? & Hroom).
  assert (buft_get_alloc_size b t ≤ aligned_offset 0 (buft_get_alloc_size b t) (da_alignment al)) as Hal.
  { apply (aligned_size _ _ (go_al _ (gv_ok _ _ _ inv_g) _ _ Ha) (bo_size HB b t)). }
  exists x, b. unfold buffer_of, buffer_at, at_int. rewrite (proj2 (Z.ltb_ge _ _)) by done.
  rewrite (proj2 (at_Ok _ _ _) Hx), Hx. unfold region, bend in *. cbn in *.
  split_and!; try done; [lia|unfold ga_n_buffers; lia|apply (bo_room HB)].
Qed.

Lemma recorded_exists p : p ∈ leafs ++ nodes → ∃ a, recorded buft_get_alloc_size T g p a.
Proof using reserved_g.
  intros [[i Hi]%list_elem_of_lookup|[i Hi]%list_elem_of_lookup]%elem_of_app.
  - destruct (ar_leafs _ _ _ _ _ (rv_recorded _ _ _ _ _ reserved_g) i p Hi) as (la & _ & ?). eauto.
  - destruct (ar_nodes _ _ _ _ _ (rv_recorded _ _ _ _ _ reserved_g) i p Hi) as (t & na & _ & _ & ? & _). eauto.
Qed.

(** The address and the buffer of a placed tensor are not NULL. *)
Lemma addr_facts p t : p ∈ leafs ++ nodes → T !! p = Some t → managed_t t = true →
  0 < addr p ∧ 0 < buf_id p.
Proof using HB reserved_g inv_g holds_g.
  intros Hp Ht Hm. destruct (recorded_exists p Hp) as [a Ha].
  destruct (placed_facts p t a Hp Ht Hm Ha) as (x & b & _ & Hx & Ho & ? & ? & ? & ? & ? & _ & _ & _ & ?).
  unfold addr, buf_id. rewrite Hx. cbn. rewrite <- Ho, u64_small by lia. lia.
Qed.

Lemma not_view_of_placed t : managed_t t = true → ggml_is_view t = false ∧ is_null (t_data t) = true.
Proof. unfold managed_t, ggml_is_view. by destruct (is_null (t_view_src t)), (is_null (t_data t)). Qed.

Lemma is_null_pos q : 0 < q → is_null q = false.
Proof. unfold is_null, NULL. intros. apply Z.eqb_neq. lia. Qed.

Abbreviation init_tensor := (ggml_gallocr_init_tensor buffer_base buffer_get_alloc_size g).

Lemma deref_Ok T' p t : T' !! p = Some t → deref T' p = Ok t.
Proof. intros Hp. unfold deref. by rewrite Hp. Qed.

(** A placed tensor gets its address. *)
Lemma init_placed T' p t a : p ∈ leafs ++ nodes → T !! p = Some t → managed_t t = true →
  recorded buft_get_alloc_size T g p a → T' !! p = Some t →
  init_tensor T' p a = Ok (<[p := allocated_tensor p t]> T').
Proof using HB T_buffer reserved_g inv_g holds_g.
  intros Hp Ht Hm Ha Ht'. destruct (not_view_of_placed t Hm) as [Hv Hd].
  destruct (placed_facts p t a Hp Ht Hm Ha) as (x & b & Hat & Hx & Ho & Ho0 & Hend & ? & ? & ? & _ & _ & _ & ?).
  unfold ggml_gallocr_init_tensor. rewrite (deref_Ok _ _ _ Ht'). cbn [mbind res_bind]. rewrite Hv, Hd, Hat.
  assert (ggml_backend_buffer_get_base buffer_base x = Ok (buffer_base x)) as Hbase.
  { unfold ggml_backend_buffer_get_base. by rewrite is_null_pos. }
  cbn [mbind res_bind]. rewrite Hbase. cbn [mbind res_bind]. unfold ggml_backend_tensor_alloc.
  rewrite (deref_Ok _ _ _ Ht'). cbn [mbind res_bind]. rewrite (T_buffer p t Ht Hm), Hd.
  unfold ggml_is_view in Hv. apply negb_false_iff in Hv. rewrite Hv, Hbase. cbn [mbind res_bind is_null].
  rewrite (u64_small (buffer_base x + al_offset a)), !u64_small by lia.
  cbn. rewrite (proj2 (Z.leb_le _ _)) by lia. cbn. rewrite (proj2 (Z.leb_le _ _)) by lia. cbn.
  unfold allocated_tensor. rewrite Hm. unfold addr, buf_id. rewrite Hx. cbn. rewrite <- Ho, u64_small by lia. done.
Qed.

(** A tensor whose turn came before keeps its address. *)
Lemma init_again T' p t a : managed_t t = true → p ∈ leafs ++ nodes → T !! p = Some t →
  T' !! p = Some (allocated_tensor p t) → init_tensor T' p a = Ok T'.
Proof using HB reserved_g inv_g holds_g.
  intros Hm Hp Ht Ht'. destruct (addr_facts p t Hp Ht Hm) as [Haddr _]. destruct (not_view_of_placed t Hm) as [Hv Hd].
  unfold ggml_gallocr_init_tensor. rewrite (deref_Ok _ _ _ Ht'). cbn [mbind res_bind].
  unfold allocated_tensor. rewrite Hm. unfold ggml_is_view in *. cbn. rewrite Hv. by rewrite is_null_pos.
Qed.

Lemma init_inv_done D T' p : init_inv D T' → allocated_tensor p <$> T !! p = T' !! p → init_inv (p :: D) T'.
Proof.
  intros Hi Hp q. destruct (decide (q = p)) as [->|Hne].
  - rewrite decide_True by left. done.
  - rewrite (Hi q). destruct (decide (q ∈ D)); [rewrite decide_True by (by right); done|].
    rewrite decide_False; [done|]. intros [?|?]%elem_of_cons; done.
Qed.

Lemma init_inv_set D T' p t : init_inv D T' → T !! p = Some t → init_inv (p :: D) (<[p := allocated_tensor p t]> T').
Proof.
  intros Hi Hp q. rewrite lookup_insert. destruct (decide (p = q)) as [<-|Hne].
  - rewrite decide_True by left. by rewrite Hp.
  - rewrite (Hi q). destruct (decide (q ∈ D)); [rewrite decide_True by (by right); done|].
    rewrite decide_False; [done|]. intros [?|?]%elem_of_cons; done.
Qed.

Lemma view_init_spec T' p t r v : T' !! p = Some t → t_buffer t = NULL → t_view_src t = r → r ≠ NULL →
  T' !! r = Some v → is_null (t_buffer v) = false → is_null (t_data v) = false →
  ggml_backend_view_init T' p = Ok (<[p := set_data t (u64 (t_data v + t_view_offs t)) (t_buffer v)]> T').
Proof.
  intros Hp Hb Hr Hn Hv Hvb Hvd. unfold ggml_backend_view_init. rewrite (deref_Ok _ _ _ Hp). cbn [mbind res_bind].
  assert (is_null r = false) as Hrn by by apply Z.eqb_neq. rewrite Hb, Hr, Hrn. cbn [mbind res_bind negb ggml_assert].
  cbn. rewrite (deref_Ok _ _ _ Hv). cbn [mbind res_bind]. rewrite Hvb. cbn. by rewrite Hvd.
Qed.

(** A view whose source is settled. *)
Lemma init_view D T' p t a : init_inv D T' → D ⊆ leafs ++ nodes → T !! p = Some t → ggml_is_view t = true →
  (managed T (root T p) → root T p ∈ D) →
  ∃ T'', init_tensor T' p a = Ok T'' ∧ init_inv (p :: D) T''.
Proof using All.
  intros Hi HD Hp Hv Hroot. assert (t_view_src t ≠ NULL) as Hn.
  { unfold ggml_is_view, is_null in Hv. apply negb_true_iff in Hv. by apply Z.eqb_neq. }
  assert (managed_t t = false) as Hm by (unfold managed_t, ggml_is_view in *; by destruct (is_null (t_view_src t))).
  destruct (pr_view T HP p t Hp Hn) as (v & Hv' & Hvv). set (r := t_view_src t) in *.
  assert (root T p = r) as Hr by by apply root_view. rewrite Hr in Hroot.
  assert (ggml_is_view v = false) as Hvnv by by unfold ggml_is_view, is_null; rewrite Hvv.
  pose proof (Hi p) as Hp'. rewrite Hp in Hp'. cbn in Hp'.
  assert (∀ t', T' !! p = Some t' → ggml_is_view t' = true → is_null (t_buffer t') = false → init_tensor T' p a = Ok T') as Hkeep.
  { intros t' Ht' Hvt Hb. unfold ggml_gallocr_init_tensor. rewrite (deref_Ok _ _ _ Ht'). cbn [mbind res_bind]. by rewrite Hvt, Hb. }
  assert (∀ d b, ggml_is_view (set_data t d b) = true) as Hsv by done.
  assert (allocated_tensor p t = if is_null (t_buffer t)
    then (if managed_t v then set_data t (u64 (addr r + t_view_offs t)) (buf_id r)
          else if is_null (t_buffer v) then t else set_data t (u64 (t_data v + t_view_offs t)) (t_buffer v)) else t) as Hal.
  { unfold allocated_tensor. rewrite Hm, Hv. fold r. rewrite Hv'. by destruct (is_null (t_buffer t)). }
  destruct (is_null (t_buffer t)) eqn:Htb.
  2: { exists T'. assert (T' !! p = Some t) as Hpt by (destruct (decide (p ∈ D)); congruence).
       split; [by apply (Hkeep t)|]. apply init_inv_done; [done|]. rewrite Hp, Hpt; cbn; by rewrite Hal. }
  apply Z.eqb_eq in Htb as Htb'. rewrite Hal in Hp'.
  assert (∀ v', T' !! r = Some v' → T' !! p = Some t → is_null (t_buffer v') = false → is_null (t_data v') = false →
    allocated_tensor p t = set_data t (u64 (t_data v' + t_view_offs t)) (t_buffer v') →
    ∃ T'', init_tensor T' p a = Ok T'' ∧ init_inv (p :: D) T'') as Hset.
  { intros v' Hrv Hpt Hvb Hvd Heq. exists (<[p := allocated_tensor p t]> T').
    split; [|by apply init_inv_set]. unfold ggml_gallocr_init_tensor. rewrite (deref_Ok _ _ _ Hpt). cbn [mbind res_bind].
    rewrite Hv, Htb. fold r. rewrite (deref_Ok _ _ _ Hrv). cbn [mbind res_bind]. rewrite Hvb, Heq.
    by apply (view_init_spec T' p t r v'). }
  destruct (managed_t v) eqn:Hmv.
  - assert (r ∈ D) as HrD by (apply Hroot; by exists v). destruct (addr_facts r v (HD r HrD) Hv' Hmv) as [Ha Hb].
    assert (T' !! r = Some (set_data v (addr r) (buf_id r))) as Hrv.
    { rewrite (Hi r), decide_True by done. rewrite Hv'. cbn. unfold allocated_tensor. by rewrite Hmv. }
    destruct (decide (p ∈ D)) as [HpD|HpD].
    + exists T'. split; [|apply init_inv_done; [done|rewrite Hp, Hp'; cbn; by rewrite Hal]].
      eapply Hkeep; [exact Hp'|done|]. by apply is_null_pos.
    + apply (Hset _ Hrv Hp'); [by apply is_null_pos|by apply is_null_pos|done].
  - assert (T' !! r = Some v) as Hrv.
    { rewrite (Hi r), Hv'. destruct (decide (r ∈ D)); [|done]. cbn. unfold allocated_tensor. by rewrite Hmv, Hvnv. }
    assert (is_null (t_data v) = false) as Hvd.
    { unfold managed_t, ggml_is_view in *. apply negb_false_iff in Hvnv. by rewrite Hvnv in Hmv. }
    destruct (is_null (t_buffer v)) eqn:Hvb.
    + assert (T' !! p = Some t) as Hpt by by destruct (decide (p ∈ D)).
      exists T'. split; [|apply init_inv_done; [done|rewrite Hp, Hpt; cbn; by rewrite Hal]].
      unfold ggml_gallocr_init_tensor. rewrite (deref_Ok _ _ _ Hpt). cbn [mbind res_bind].
      rewrite Hv, Htb. fold r. rewrite (deref_Ok _ _ _ Hrv). cbn [mbind res_bind]. by rewrite Hvb.
    + destruct (decide (p ∈ D)) as [HpD|HpD].
      * exists T'. split; [|apply init_inv_done; [done|rewrite Hp, Hp'; cbn; by rewrite Hal]]. by eapply Hkeep.
      * by apply (Hset v).
Qed.

Lemma init_step D T' p a : init_inv D T' → D ⊆ leafs ++ nodes → p ∈ leafs ++ nodes →
  recorded buft_get_alloc_size T g p a → (is_view_p T p → managed T (root T p) → root T p ∈ D) →
  ∃ T'', init_tensor T' p a = Ok T'' ∧ init_inv (p :: D) T''.
Proof using All.
  intros Hi HD Hp Ha Hroot. destruct (gr_dom T _ _ HG p Hp) as [t Ht].
  pose proof (Hi p) as Hp'. rewrite Ht in Hp'. cbn in Hp'.
  destruct (ggml_is_view t) eqn:Hv.
  { apply (init_view D T' p t a); try done. apply Hroot. exists t. split; [done|].
    unfold ggml_is_view, is_null in Hv. apply negb_true_iff in Hv. by apply Z.eqb_neq. }
  destruct (managed_t t) eqn:Hm.
  - destruct (decide (p ∈ D)) as [HpD|HpD].
    + exists T'. split; [by apply (init_again T' p t)|]. apply init_inv_done; [done|]. by rewrite Ht, Hp'.
    + exists (<[p := allocated_tensor p t]> T'). split; [by apply init_placed|by apply init_inv_set].
  - assert (allocated_tensor p t = t) as Hal by by unfold allocated_tensor; rewrite Hm, Hv.
    assert (T' !! p = Some t) as Hpt by (destruct (decide (p ∈ D)); congruence).
    exists T'. split; [|apply init_inv_done; [done|by rewrite Ht, Hpt; cbn; rewrite Hal]].
    unfold ggml_gallocr_init_tensor. rewrite (deref_Ok _ _ _ Hpt). cbn [mbind res_bind]. rewrite Hv.
    unfold managed_t, ggml_is_view in *. apply negb_false_iff in Hv. rewrite Hv in Hm. cbn in Hm. by rewrite Hm.
Qed.

(** *** The loops *)

Lemma init_inv_ext D D' T' : (∀ p, p ∈ D ↔ p ∈ D') → init_inv D T' → init_inv D' T'.
Proof.
  intros HD Hi p. rewrite (Hi p). destruct (decide (p ∈ D)) as [Hp|Hp]; rewrite HD in Hp.
  - by rewrite decide_True.
  - by rewrite decide_False.
Qed.

Lemma init_leafs_spec : ∃ T', for_each_i (init_leaf buffer_base buffer_get_alloc_size g) 0 T leafs = Ok T' ∧
  init_inv leafs T'.
Proof using All.
  destruct (for_each_i_ok (init_leaf buffer_base buffer_get_alloc_size g)
    (λ i T', init_inv (take i leafs) T') leafs T) as (T' & ? & Hi).
  - intros i p T1 Hi Hinv. destruct (ar_leafs _ _ _ _ _ (rv_recorded _ _ _ _ _ reserved_g) i p Hi) as (la & Hla & Hrec).
    unfold init_leaf. rewrite (proj2 (at_Ok _ _ _) Hla). cbn [mbind res_bind].
    assert (p ∈ leafs) as Hp by by eapply list_elem_of_lookup_2.
    destruct (init_step (take i leafs) T1 p (la_leaf la)) as (T2 & -> & H2); try done.
    + intros q Hq. apply elem_of_app. left. by eapply (subseteq_take i leafs).
    + apply elem_of_app. by left.
    + intros Hv Hman. by destruct (leaf_views p Hp Hv).
    + exists T2. split; [done|]. eapply init_inv_ext; [|exact H2]. intros q.
      rewrite (take_S_r _ _ p Hi), elem_of_app, list_elem_of_singleton, elem_of_cons. tauto.
  - intros p. rewrite decide_False; [done|]. by intros ?%elem_of_nil.
  - exists T'. split; [done|]. rewrite take_ge in Hi by lia. done.
Qed.

Lemma init_srcs_spec D src l : D ⊆ leafs ++ nodes → (∀ q, q ∈ src → q ≠ NULL → q ∈ D) →
  (∀ q, q ∈ D → is_view_p T q → managed T (root T q) → root T q ∈ D) →
  Forall2 (recorded buft_get_alloc_size T g) src l → ∀ T', init_inv D T' →
  ∃ T'', init_srcs buffer_base buffer_get_alloc_size g T' src l = Ok T'' ∧ init_inv D T''.
Proof using All.
  intros HD Hsrc Hroot Hrec. revert Hsrc. induction Hrec as [|q a src l Hq Hl IH]; intros Hsrc T' Hi; [by exists T'|].
  cbn [init_srcs at_ lookup list_lookup mbind res_bind tail]. unfold is_null.
  destruct (Z.eqb_spec q NULL) as [->|Hne]; cbn [mbind res_bind].
  - apply IH; [|done]. intros r Hr. apply Hsrc. by right.
  - assert (q ∈ D) as HqD by (apply Hsrc; [left|done]).
    destruct (init_step D T' q a Hi HD (HD q HqD) Hq (Hroot q HqD)) as (T1 & -> & H1). cbn [mbind res_bind].
    apply IH; [intros r Hr; apply Hsrc; by right|]. eapply init_inv_ext; [|exact H1].
    intros r. rewrite elem_of_cons. naive_solver.
Qed.

(** What comes first in the order of the graph. *)
Lemma view_root_before i p : p ∈ leafs ++ take i nodes → is_view_p T p → managed T (root T p) →
  root T p ∈ leafs ++ take i nodes.
Proof using HG leaf_views.
  intros [Hp|(j & Hj & Hji)%elem_of_take]%elem_of_app Hv Hman; [by destruct (leaf_views p Hp Hv)|].
  apply elem_of_app. destruct (gr_view T _ _ HG j p Hj Hv Hman) as [?|Ht]; [by left|right].
  apply (take_mono nodes j); [lia|done].
Qed.

Lemma init_nodes_spec T1 : init_inv leafs T1 →
  ∃ T', for_each_i (init_node buffer_base buffer_get_alloc_size g) 0 T1 nodes = Ok T' ∧ init_inv (leafs ++ nodes) T'.
Proof using All.
  intros Hi1. destruct (for_each_i_ok (init_node buffer_base buffer_get_alloc_size g)
    (λ i T', init_inv (leafs ++ take i nodes) T') nodes T1) as (T' & ? & Hi).
  - intros i m T2 Hi Hinv. destruct (ar_nodes _ _ _ _ _ (rv_recorded _ _ _ _ _ reserved_g) i m Hi)
      as (t & na & Ht & Hna & Hdst & Hsrc).
    assert (leafs ++ take i nodes ⊆ leafs ++ nodes) as HD.
    { intros q. rewrite !elem_of_app. intros [?|?]; [by left|right]. by apply (subseteq_take i nodes). }
    assert (m ∈ nodes) as Hm by by eapply list_elem_of_lookup_2.
    unfold init_node. rewrite (proj2 (at_Ok _ _ _) Hna). cbn [mbind res_bind].
    assert (∃ t', T2 !! m = Some t' ∧ t_src t' = t_src t) as (t' & Ht' & Hst').
    { pose proof (Hinv m) as H2. rewrite Ht in H2. cbn in H2. rewrite decide_False in H2; [eauto|].
      intros [Hl|Hb]%elem_of_app; [by destruct (leaf_not_node T nodes leafs HG m Hl)|].
      by apply (Nat.lt_irrefl i), (node_pos T nodes leafs HG i i m). }
    rewrite (deref_Ok _ _ _ Ht'). cbn [mbind res_bind]. rewrite Hst'.
    destruct (init_srcs_spec (leafs ++ take i nodes) (t_src t) (na_src na) HD) with (T' := T2) as (T3 & -> & H3); try done.
    { intros q Hq Hne. apply elem_of_app. apply (gr_topo T _ _ HG i m q Hi). apply uses_src. eauto. }
    { intros q. apply view_root_before. }
    cbn [mbind res_bind].
    destruct (init_step (leafs ++ take i nodes) T3 m (na_dst na)) as (T4 & -> & H4); try done.
    { apply elem_of_app. by right. }
    { intros Hv Hman. apply elem_of_app. by apply (gr_view T _ _ HG i m Hi). }
    exists T4. split; [done|]. eapply init_inv_ext; [|exact H4]. intros q.
    rewrite (take_S_r _ _ m Hi), !elem_of_app, list_elem_of_singleton, elem_of_cons, elem_of_app. tauto.
  - by rewrite take_0, app_nil_r.
  - exists T'. split; [done|]. by rewrite take_ge in Hi by lia.
Qed.

(** *** The record can be used *)

Lemma needs_realloc_fits p t a : p ∈ leafs ++ nodes → T !! p = Some t → recorded buft_get_alloc_size T g p a →
  ggml_gallocr_node_needs_realloc buft_get_alloc_size g t a = Ok true.
Proof using HB reserved_g inv_g holds_g.
  intros Hp Ht Ha. unfold ggml_gallocr_node_needs_realloc.
  destruct (managed_t t) eqn:Hm.
  - destruct (not_view_of_placed t Hm) as [-> ->]. cbn [negb orb].
    destruct (placed_facts p t a Hp Ht Hm Ha) as (x & b & _ & _ & _ & _ & _ & _ & _ & _ & Hsz & Hb & Hid & _).
    rewrite (proj2 (Z.ltb_ge _ _)), (proj2 (Z.leb_gt _ _)) by lia. cbn [orb]. unfold at_int.
    rewrite (proj2 (Z.ltb_ge _ _)) by lia. rewrite (proj2 (at_Ok _ _ _) Hb). cbn. rewrite Hsz. f_equal. apply Z.leb_refl.
  - assert (negb (is_null (t_data t)) || ggml_is_view t = true) as ->; [|done].
    unfold managed_t, ggml_is_view in *. by destruct (is_null (t_view_src t)), (is_null (t_data t)).
Qed.

Lemma srcs_fit src l : (∀ q, q ∈ src → q ≠ NULL → q ∈ leafs ++ nodes) →
  Forall2 (recorded buft_get_alloc_size T g) src l → srcs_need_realloc buft_get_alloc_size T g src l = Ok false.
Proof using HB HG reserved_g inv_g holds_g.
  intros Hsrc Hrec. revert Hsrc. induction Hrec as [|q a src l Hq Hl IH]; intros Hsrc; [done|].
  cbn [srcs_need_realloc at_ lookup list_lookup mbind res_bind tail]. unfold is_null.
  assert (∀ r, r ∈ src → r ≠ NULL → r ∈ leafs ++ nodes) as Hsrc' by (intros r Hr; apply Hsrc; by right).
  destruct (Z.eqb_spec q NULL) as [->|Hne]; [by apply IH|].
  assert (q ∈ leafs ++ nodes) as Hqg by (apply Hsrc; [left|done]). destruct (gr_dom T _ _ HG q Hqg) as [t Ht].
  rewrite (deref_Ok _ _ _ Ht). cbn [mbind res_bind]. rewrite (needs_realloc_fits q t a Hqg Ht Hq). by apply IH.
Qed.

Lemma nodes_fit k i : drop i nodes = k → nodes_need_realloc buft_get_alloc_size T g i k = Ok false.
Proof using HB HP HG reserved_g inv_g holds_g.
  revert i. induction k as [|m k IH]; intros i Hd; [done|]. apply drop_lookup_inv in Hd as [Hi Hd].
  destruct (ar_nodes _ _ _ _ _ (rv_recorded _ _ _ _ _ reserved_g) i m Hi) as (t & na & Ht & Hna & Hdst & Hsrc).
  cbn [nodes_need_realloc]. rewrite (proj2 (at_Ok _ _ _) Hna). cbn [mbind res_bind].
  rewrite (deref_Ok _ _ _ Ht). cbn [mbind res_bind].
  rewrite (needs_realloc_fits m t (na_dst na)); [|apply elem_of_app; right; by eapply list_elem_of_lookup_2|done|done].
  cbn [mbind res_bind negb]. rewrite (srcs_fit (t_src t) (na_src na)); [|intros q Hq Hne|done].
  - cbn [mbind res_bind]. by apply IH.
  - apply elem_of_app. destruct (gr_topo T _ _ HG i m q Hi) as [?|Hb]; [apply uses_src; eauto|by left|right].
    by apply (subseteq_take i nodes).
Qed.

Lemma alloc_graph_main :
  ∃ T', ggml_gallocr_alloc_graph buft_get_alloc_size buft_alloc_buffer buffer_base buffer_get_alloc_size
          T g nodes leafs = Ok (true, (g, T')) ∧ init_inv (leafs ++ nodes) T'.
Proof using All.
  unfold ggml_gallocr_alloc_graph, prepare_graph, ggml_gallocr_needs_realloc.
  destruct (rv_recorded _ _ _ _ _ reserved_g) as [-> -> _ _]. rewrite !Nat.eqb_refl. cbn [negb].
  rewrite (nodes_fit nodes 0) by done. cbn [mbind res_bind negb].
  destruct init_leafs_spec as (T1 & -> & H1). cbn [mbind res_bind].
  destruct (init_nodes_spec T1 H1) as (T2 & -> & H2). cbn [mbind res_bind]. by exists T2.
Qed.
End graph.

(** ** Histories of calls *)

(** A call for the graph of [nodes] and [leafs] in the program [T]. *)
Record call_ok (T : tensors) (nodes leafs : list ptr) : Prop := {
  co_program : program_ok T;
  co_graph   : graph_ok T nodes leafs;
  co_some    : (0 < length nodes + length leafs)%nat;
  co_int     : Z.of_nat (length nodes) < 2 ^ 31 ∧ Z.of_nat (length leafs) < 2 ^ 31;
}.

Definition buffers_ok (g : ggml_gallocr) (nodes leafs : list ptr) (node_ids leaf_ids : option (list Z)) : Prop :=
  ids_ok (ga_n_buffers g) node_ids (length nodes) ∧ ids_ok (ga_n_buffers g) leaf_ids (length leafs).

Abbreviation reserve_n := (ggml_gallocr_reserve_n buft_get_alloc_size buft_alloc_buffer).
Abbreviation alloc_graph :=
  (ggml_gallocr_alloc_graph buft_get_alloc_size buft_alloc_buffer buffer_base buffer_get_alloc_size).

Inductive reachable : ggml_gallocr → Prop :=
  | reach_new bufts g :
      ggml_gallocr_new_n buft_get_alignment bufts = Ok g → reachable g
  | reach_reserve T nodes leafs node_ids leaf_ids g ok g' :
      reachable g → call_ok T nodes leafs → buffers_ok g nodes leafs node_ids leaf_ids →
      reserve_n T g nodes leafs node_ids leaf_ids = Ok (ok, g') → reachable g'
  | reach_alloc T nodes leafs g ok g' T' :
      reachable g → call_ok T nodes leafs →
      alloc_graph T g nodes leafs = Ok (ok, (g', T')) → reachable g'.

Lemma reserve_inv T nodes leafs node_ids leaf_ids g :
  gallocr_inv buft_get_alignment buft_alloc_buffer g → call_ok T nodes leafs →
  buffers_ok g nodes leafs node_ids leaf_ids →
  aborts (reserve_n T g nodes leafs node_ids leaf_ids)
    (λ '(ok, g'), gallocr_inv buft_get_alignment buft_alloc_buffer g' ∧ ga_bufts g' = ga_bufts g ∧
       reserved buft_get_alloc_size T nodes leafs g' ∧
       (ok = true → (∀ j, (j < length (ga_bufts g))%nat → buffer_holds g' j) ∧
                    buffers_shared g' (length (ga_bufts g)))).
Proof using HB.
  intros Hg [HP HG Hne Hint] [Hn Hl].
  apply (reserve_main buft_get_alignment); try done; [apply HB|apply HB|apply HB|].
  intros b s x Hx. by apply (bo_buffer HB b s x).
Qed.

Lemma reachable_inv g : reachable g → gallocr_inv buft_get_alignment buft_alloc_buffer g.
Proof using HB.
  induction 1 as [bufts g Hnew|T nodes leafs nids lids g ok g' _ IH Hc Hb Hr|T nodes leafs g ok g' T' _ IH Hc Ha].
  - pose proof (gallocr_new_n_inv buft_get_alignment buft_alloc_buffer (bo_alignment HB) bufts) as Hi.
    rewrite Hnew in Hi. apply Hi.
  - pose proof (reserve_inv T nodes leafs nids lids g IH Hc Hb) as Hi. rewrite Hr in Hi. apply Hi.
  - unfold ggml_gallocr_alloc_graph in Ha.
    destruct (prepare_graph _ _ T g nodes leafs) as [[ready g1]|] eqn:Hp; [|done]. cbn [mbind res_bind] in Ha.
    assert (gallocr_inv buft_get_alignment buft_alloc_buffer g1) as Hg1.
    { unfold prepare_graph in Hp. destruct (ggml_gallocr_needs_realloc _ T g nodes leafs) as [[]|]; cbn in Hp; simplify_eq; [|done].
      destruct (Nat.eqb_spec (ga_n_buffers g) 1) as [H1|]; [|by simplify_eq].
      pose proof (reserve_inv T nodes leafs None None g IH Hc) as Hi.
      unfold ggml_gallocr_reserve in Hp. rewrite Hp in Hi. apply Hi. split; cbn; lia. }
    destruct ready; cbn in Ha; [|by simplify_eq].
    destruct (for_each_i _ _ T leafs) as [T1|]; [|done]. cbn in Ha.
    destruct (for_each_i _ _ T1 nodes) as [T2|]; [|done]. cbn in Ha. by simplify_eq.
Qed.

(** What a tensor gets: [x] is its buffer and its bytes lie in it. *)
Definition lies_in (T' : tensors) (p : ptr) (x : buffer) (size : Z) : Prop :=
  ∃ t, T' !! p = Some t ∧ t_buffer t = bf_id x ∧
    buffer_base x ≤ t_data t ∧ t_data t + size ≤ buffer_base x + bf_size x.
End use.
