(* ===== verification/GallocClaims.v ===== *)
(** * Claims about the graph allocator

    The theorems of [GallocUse] in one place, each with a concrete run: the
    example program of [Graph] with one buffer type.  Then two behaviours that
    differ from what the comments say. *)
From S2P Require Import Prelude HashSet Graph DynAlloc GraphAlloc GallocTable GallocNode GallocWalk GallocSpec GallocInit GallocUse.

(** ** Checking graphs *)

Definition flagged_b (T : tensors) (flag : Z) (p : ptr) : bool :=
  match T !! p with Some t => has_flag t flag | None => false end.

Definition managed_b (T : tensors) (p : ptr) : bool :=
  match T !! p with Some t => managed_t t | None => false end.

Lemma flagged_spec T flag p : flagged T flag p ↔ flagged_b T flag p = true.
Proof.
  unfold flagged, flagged_b. destruct (T !! p) as [t|]; [|naive_solver].
  split; [by intros (t' & [= <-] & ?)|by exists t].
Qed.

Lemma managed_spec T p : managed T p ↔ managed_b T p = true.
Proof.
  unfold managed, managed_b. destruct (T !! p) as [t|]; [|naive_solver].
  split; [by intros (t' & [= <-] & ?)|by exists t].
Qed.

#[global] Instance flagged_dec T flag p : Decision (flagged T flag p).
Proof. refine (cast_if (decide (flagged_b T flag p = true))); by rewrite flagged_spec. Defined.

#[global] Instance managed_dec T p : Decision (managed T p).
Proof. refine (cast_if (decide (managed_b T p = true))); by rewrite managed_spec. Defined.

Definition node_ok (T : tensors) (nodes leafs : list ptr) (i : nat) (p : ptr) : Prop :=
  Forall (λ q, q ∈ leafs ∨ q ∈ take i nodes) (uses T p) ∧
  (flagged T GGML_TENSOR_FLAG_INPUT p → ggml_op_can_inplace (op_of T p) = false) ∧
  (is_view_p T p → managed T (root T p) → root T p ∈ leafs ∨ root T p ∈ take i nodes) ∧
  Forall (λ q, is_view_p T q → managed T (root T q) → q ∈ nodes ∧ op_of T q ≠ GGML_OP_NONE) (uses T p).

Definition graph_check (T : tensors) (nodes leafs : list ptr) : Prop :=
  Forall (λ p, is_Some (T !! p)) (leafs ++ nodes) ∧ NoDup (leafs ++ nodes) ∧
  Forall (λ p, op_of T p = GGML_OP_NONE) leafs ∧
  Forall (λ '(i, p), node_ok T nodes leafs i p) (imap pair nodes).

Lemma graph_check_ok T nodes leafs : graph_check T nodes leafs → graph_ok T nodes leafs.
Proof.
  intros (Hdom & Hnd & Hleaf & Hnode). rewrite Forall_forall in Hdom, Hleaf. pose proof (proj1 (Forall_forall _ _) Hnode) as Hn0.
  assert (∀ i p, nodes !! i = Some p → node_ok T nodes leafs i p) as Hn.
  { intros i p Hi. apply (Hn0 (i, p)). apply list_elem_of_lookup. exists i. by rewrite list_lookup_imap, Hi. }
  split; try done.
  - intros i p q Hi Hq. destruct (Hn i p Hi) as (Hu & _). rewrite Forall_forall in Hu. auto.
  - intros p [i Hi]%list_elem_of_lookup Hf. destruct (Hn i p Hi) as (_ & H & _). auto.
  - intros i p Hi Hv Hm. destruct (Hn i p Hi) as (_ & _ & H & _). auto.
  - intros p q [i Hi]%list_elem_of_lookup Hq Hv Hm. destruct (Hn i p Hi) as (_ & _ & _ & H).
    rewrite Forall_forall in H. auto.
Qed.

Definition program_check (T : tensors) : Prop :=
  T !! NULL = None ∧
  map_Forall (λ p t, ptr_ok p ∧ Forall (λ q, q ≠ NULL → is_Some (T !! q) ∧ q ≠ p) t.(t_src) ∧
                (t.(t_view_src) ≠ NULL → t_view_src <$> T !! t.(t_view_src) = Some NULL)) T.

Lemma program_check_ok T : program_check T → program_ok T.
Proof.
  intros [Hn Hall]. split; [done| | |].
  - intros p [t Ht]. by destruct (Hall p t Ht).
  - intros p t q Ht Hq. destruct (Hall p t Ht) as (_ & H & _). rewrite Forall_forall in H. auto.
  - intros p t Ht Hv. destruct (Hall p t Ht) as (_ & _ & H). specialize (H Hv).
    destruct (T !! t_view_src t) as [r|]; [|done]. cbn in H. simplify_eq. eauto.
Qed.

#[global] Instance node_ok_dec T nodes leafs i p : Decision (node_ok T nodes leafs i p).
Proof. unfold node_ok. apply _. Defined.

#[global] Instance graph_check_dec T nodes leafs : Decision (graph_check T nodes leafs).
Proof.
  unfold graph_check. apply and_dec; [apply _|]. apply and_dec; [apply _|]. apply and_dec; [apply _|].
  apply Forall_dec. intros [i p]. apply _.
Defined.

#[global] Instance program_check_dec T : Decision (program_check T).
Proof. unfold program_check, ptr_ok. apply _. Defined.

Definition ex_nodes : list ptr := [0x1200; 0x1300; 0x1400; 0x1500; 0x1600; 0x1700].
Definition ex_leafs : list ptr := [0x1100; 0x1000].

(** A backend with one kind of memory: 64 bytes for each tensor. *)
Definition ex_alignment (b : buft) : Z := 32.
Definition ex_size (b : buft) (t : ggml_tensor) : Z := 64.
Definition ex_alloc (b : buft) (s : Z) : option buffer :=
  if bool_decide (0 ≤ b ∧ s ≤ 2 ^ 40) then Some (mk_buffer (b + 1) (Z.max s 0)) else None.
Definition ex_base (x : buffer) : ptr := 0x100000.
Definition ex_buffer_size (x : buffer) (t : ggml_tensor) : Z := 64.

Lemma ex_backend : backend_ok ex_alignment ex_size ex_alloc ex_base ex_buffer_size.
Proof.
  split; unfold ex_alignment, ex_size, ex_base, ex_buffer_size; try done.
  - intros _. exists 5. split; [lia|done].
  - intros b s x. unfold ex_alloc. case_bool_decide as Hs; [|done]. intros [= <-]. cbn.
    assert (2 ^ 40 + 0x100000 < 2 ^ 64) by done. split_and!; try lia.
Qed.

Lemma ex_call : call_ok ex_tensors ex_nodes ex_leafs.
Proof.
  split; [apply program_check_ok|apply graph_check_ok|vm_compute; lia|split; vm_compute; done].
  - apply (bool_decide_unpack _). vm_compute. exact I.
  - apply (bool_decide_unpack _). vm_compute. exact I.
Qed.

(** ** Claims *)

Section claims.
Context (al : buft → Z) (sz : buft → ggml_tensor → Z) (mk : buft → Z → option buffer)
        (base : buffer → ptr) (bsz : buffer → ggml_tensor → Z).
Hypothesis HB : backend_ok al sz mk base bsz.

(** C25. Whatever calls came before, reserving memory for a graph returns or
    stops in [GGML_ABORT], and the memory it assigns is not clobbered: what a
    node writes is apart from every tensor that a later node reads, directly or
    through a view, and from every output of the graph; it is apart from what
    the node itself reads, except when the operation may work in place and
    nobody needs that source later.  The leafs are pairwise apart. *)
Theorem reserve_no_clobber T nodes leafs node_ids leaf_ids g :
  reachable al sz mk base bsz g → call_ok T nodes leafs → buffers_ok g nodes leafs node_ids leaf_ids →
  match ggml_gallocr_reserve_n sz mk T g nodes leafs node_ids leaf_ids with
  | Ok (_, g') =>
      (∀ j, (j < length nodes)%nat → step_claim T nodes leafs sz g' j) ∧
      (∀ p q, p ∈ leafs → q ∈ leafs → managed T p → managed T q → p ≠ q → apart T sz g' p q)
  | Err e => e = Abort
  end.
Proof using HB.
  intros Hg Hc Hb. pose proof (reserve_inv _ _ _ _ _ HB T nodes leafs node_ids leaf_ids g
    (reachable_inv _ _ _ _ _ HB g Hg) Hc Hb) as Hr.
  destruct (ggml_gallocr_reserve_n _ _ _ _ _ _ _ _) as [[ok g']|e]; [|exact Hr].
  destruct Hr as (_ & _ & [Hs Hl _ _] & _). split; [exact Hs|exact Hl].
Qed.

(** C26. After a reservation that succeeded, allocating the same graph succeeds
    without reserving again: every tensor of the graph that had no memory gets
    the address of its assignment and its bytes lie in its buffer, every view
    gets the address of its source plus its offset, and no other tensor
    changes. *)
Theorem reserve_then_alloc T nodes leafs node_ids leaf_ids g g' :
  reachable al sz mk base bsz g → call_ok T nodes leafs → buffers_ok g nodes leafs node_ids leaf_ids →
  (∀ p t, T !! p = Some t → managed_t t = true → t_buffer t = NULL) →
  (∀ p, p ∈ leafs → is_view_p T p → ¬ managed T (root T p)) →
  ggml_gallocr_reserve_n sz mk T g nodes leafs node_ids leaf_ids = Ok (true, g') →
  ∃ T', ggml_gallocr_alloc_graph sz mk base bsz T g' nodes leafs = Ok (true, (g', T')) ∧
    (∀ p, p ∉ leafs ++ nodes → T' !! p = T !! p) ∧
    (∀ p, p ∈ leafs ++ nodes → T' !! p = allocated_tensor base T g' p <$> T !! p) ∧
    (∀ p t, p ∈ leafs ++ nodes → T !! p = Some t → managed_t t = true →
       ∃ x b, buffer_of g' p = Some x ∧ ga_bufts g' !! Z.to_nat (hn_buffer_id (node_of g' p)) = Some b ∧
         lies_in base T' p x (sz b t)).
Proof using HB.
  intros Hg Hc Hb HTb Hlv Hr. pose proof (reserve_inv _ _ _ _ _ HB T nodes leafs node_ids leaf_ids g
    (reachable_inv _ _ _ _ _ HB g Hg) Hc Hb) as Hi. rewrite Hr in Hi.
  destruct Hi as (Hg' & Hbufts & Hres & Hok). destruct (Hok eq_refl) as [Hholds _]. rewrite <- Hbufts in Hholds.
  destruct Hc as [HP HG _ _].
  destruct (alloc_graph_main al sz mk base bsz HB T nodes leafs g' HP HG HTb Hlv Hres Hg' Hholds) as (T' & Ha & Hi).
  exists T'. split_and!; [exact Ha| | |].
  - intros p Hp. by rewrite (Hi p), decide_False.
  - intros p Hp. by rewrite (Hi p), decide_True.
  - intros p t Hp Ht Hm. destruct (recorded_exists sz T nodes leafs g' Hres p Hp) as [a Hrec].
    destruct (placed_facts al sz mk base bsz HB T nodes leafs g' Hres Hg' Hholds p t a Hp Ht Hm Hrec)
      as (x & b & _ & Hx & Ho & ? & ? & ? & ? & ? & _ & Hbt & _ & ?).
    unfold recorded in Hrec. rewrite Ht, Hm in Hrec. destruct Hrec as (b' & _ & Hb' & ->). cbn in *. simplify_eq.
    exists x. eexists. split_and!; [done|done|]. exists (allocated_tensor base T g' p t).
    split; [by rewrite (Hi p), decide_True, Ht|]. unfold allocated_tensor. rewrite Hm. unfold addr, buf_id.
    rewrite Hx. cbn. rewrite u64_small by lia. split_and!; [done|lia|lia].
Qed.
End claims.

Definition ok_or {A} (d : A) (m : res A) : A := match m with Ok a => a | Err _ => d end.
Definition ex_empty : ggml_gallocr := mk_gallocr [] [] [] [] (mk_hash_set 0 [] []) [] [] 0 [] 0.
Definition ex_new : ggml_gallocr := ok_or ex_empty (ggml_gallocr_new_n ex_alignment [0; 0]).
Definition ex_ids : option (list Z) := Some [0; 1; 0; 0; 1; 0].
Definition ex_reserved : ggml_gallocr :=
  (ok_or (false, ex_empty) (ggml_gallocr_reserve_n ex_size ex_alloc ex_tensors ex_new ex_nodes ex_leafs ex_ids None)).2.

Lemma ex_reachable : reachable ex_alignment ex_size ex_alloc ex_base ex_buffer_size ex_new.
Proof. apply (reach_new _ _ _ _ _ [0; 0]). vm_compute. reflexivity. Qed.

Lemma ex_ids_ok : buffers_ok ex_new ex_nodes ex_leafs ex_ids None.
Proof. split; cbn; [split; [lia|]|]; [apply (bool_decide_unpack _); vm_compute; exact I|vm_compute; lia]. Qed.

(** The memory of the example: 0x1300 works in place of 0x1200, whose only
    user it is; then the chain 0x1500, 0x1600, 0x1700 works in place where the
    first leaf was. *)
Example ex_reserve_result :
  ggml_gallocr_reserve_n ex_size ex_alloc ex_tensors ex_new ex_nodes ex_leafs ex_ids None = Ok (true, ex_reserved) ∧
  map (place ex_tensors ex_size ex_reserved) (ex_leafs ++ [0x1200; 0x1300; 0x1500; 0x1600; 0x1700]) =
    [Some (0%nat, (0, 64)); Some (0%nat, (64, 64)); Some (0%nat, (128, 64)); Some (0%nat, (128, 64));
     Some (0%nat, (0, 64)); Some (0%nat, (0, 64)); Some (0%nat, (0, 64))].
Proof. split; vm_compute; reflexivity. Qed.

Lemma reserve_no_clobber_witness :
  (∀ j, (j < 6)%nat → step_claim ex_tensors ex_nodes ex_leafs ex_size ex_reserved j) ∧
  apart ex_tensors ex_size ex_reserved 0x1500 0x1300.
Proof.
  pose proof (reserve_no_clobber _ _ _ _ _ ex_backend ex_tensors ex_nodes ex_leafs ex_ids None ex_new
    ex_reachable ex_call ex_ids_ok) as Hr.
  rewrite (proj1 ex_reserve_result) in Hr. destruct Hr as [Hs _]. split; [exact Hs|].
  destruct (Hs 3%nat ltac:(cbn; lia) 0x1500 0x1300 eq_refl) as [Hneed _].
  - left. discriminate.
  - apply (bool_decide_unpack _). vm_compute. exact I.
  - apply (bool_decide_unpack _). vm_compute. exact I.
  - discriminate.
  - right. apply (bool_decide_unpack _). vm_compute. exact I.
  - apply Hneed. right. exists 4%nat, 0x1600. split_and!; [lia|reflexivity|]. left. exists 0x1300. split.
    + apply (bool_decide_unpack _). vm_compute. exact I.
    + vm_compute. reflexivity.
Defined.

Lemma ex_buffers_null p t : ex_tensors !! p = Some t → managed_t t = true → t_buffer t = NULL.
Proof.
  apply (bool_decide_unpack (map_Forall (λ _ t, managed_t t = true → t_buffer t = NULL) ex_tensors)).
  vm_compute. exact I.
Qed.

Lemma ex_leaf_views p : p ∈ ex_leafs → is_view_p ex_tensors p → ¬ managed ex_tensors (root ex_tensors p).
Proof.
  assert (Forall (λ p, is_view_p ex_tensors p → ¬ managed ex_tensors (root ex_tensors p)) ex_leafs) as HF.
  { apply (bool_decide_unpack _). vm_compute. exact I. }
  rewrite Forall_forall in HF. apply HF.
Qed.

Lemma reserve_then_alloc_witness :
  ∃ T', ggml_gallocr_alloc_graph ex_size ex_alloc ex_base ex_buffer_size ex_tensors ex_reserved ex_nodes ex_leafs
          = Ok (true, (ex_reserved, T')) ∧
    t_data <$> T' !! 0x1300 = Some 0x100080 ∧ t_data <$> T' !! 0x1400 = Some 0x100080.
Proof.
  destruct (reserve_then_alloc _ _ _ _ _ ex_backend ex_tensors ex_nodes ex_leafs ex_ids None ex_new ex_reserved
    ex_reachable ex_call ex_ids_ok ex_buffers_null ex_leaf_views (proj1 ex_reserve_result))
    as (T' & Ha & _ & Hp & _).
  exists T'. split; [exact Ha|]. rewrite !Hp.
  - split; vm_compute; reflexivity.
  - apply (bool_decide_unpack _). vm_compute. exact I.
  - apply (bool_decide_unpack _). vm_compute. exact I.
Defined.

(** ** Behaviours that differ from the comments *)

(** A chain of four tensors, and the same chain whose last node also reads the
    first result. *)
Definition chain (last : list ptr) : tensors := list_to_map [
  (0x1000, ex_tensor GGML_OP_NONE 0 [] NULL);
  (0x1100, ex_tensor GGML_OP_SQR 0 [0x1000] NULL);
  (0x1200, ex_tensor GGML_OP_SQR 0 [0x1100] NULL);
  (0x1300, ex_tensor GGML_OP_ADD 0 last NULL)].
Definition chain_nodes : list ptr := [0x1100; 0x1200; 0x1300].

(** [ggml_gallocr_alloc_graph] does not see that the topology changed: the
    assignments of the first graph are used for the second one, where 0x1200 is
    written over 0x1100 although 0x1300 still reads it. *)
Theorem topology_change_not_detected :
  (g ← ggml_gallocr_new ex_alignment 0;
   '(_, g) ← ggml_gallocr_reserve ex_size ex_alloc (chain [0x1200; 0x1200]) g chain_nodes [0x1000];
   '(ok, (_, T)) ← ggml_gallocr_alloc_graph ex_size ex_alloc ex_base ex_buffer_size
                     (chain [0x1200; 0x1100]) g chain_nodes [0x1000];
   Ok (ok, t_data <$> T !! 0x1100, t_data <$> T !! 0x1200))
  = Ok (true, Some 0x100000, Some 0x100000).
Proof. vm_compute. reflexivity. Qed.

(** A backend that refuses buffers of more than 64 bytes. *)
Definition small_alloc (b : buft) (s : Z) : option buffer :=
  if s <=? 64 then Some (mk_buffer (b + 1) s) else None.

(** Two entries share a buffer; growing it fails.  The first entry is NULL, the
    second still has the buffer that was freed, and [ggml_gallocr_free] frees
    it again. *)
Theorem reserve_failure_keeps_freed_buffer :
  let T := chain [0x1200; 0x1100] in
  (g ← ggml_gallocr_new_n ex_alignment [0; 0];
   '(ok1, g1) ← ggml_gallocr_reserve ex_size small_alloc T g [0x1100] [0x1000];
   '(ok2, g2) ← ggml_gallocr_reserve ex_size small_alloc T g1 chain_nodes [0x1000];
   Ok ((ok1, ga_buffers g1), (ok2, ga_buffers g2), (ggml_gallocr_free g2).1))
  = Ok ((true, [Some (mk_buffer 1 64); Some (mk_buffer 1 64)]), (false, [None; Some (mk_buffer 1 64)]), [1]).
Proof. vm_compute. reflexivity. Qed.
