(* ===== verification/ReasoningBudget.v ===== *)
(** * The reasoning budget (common/reasoning-budget.cpp)

    A state machine that watches the sampled tokens, counts the tokens of a
    reasoning block between a start and an end sequence and, when the budget is
    used up, masks every token but the next one of a forced sequence.  The
    pieces of tokens come from the vocabulary, which is a parameter: [None] is
    the null pointer.  Logging is left out. *)
From S2P Require Import Prelude Utf8.

(** ** Data *)

Abbreviation llama_token := Z.

(** [pos] tokens of the sequence have been seen. *)
Record token_matcher : Type := mk_matcher { tm_tokens : list llama_token; tm_pos : nat }.

Inductive common_reasoning_budget_state : Type :=
  | REASONING_BUDGET_IDLE
  | REASONING_BUDGET_COUNTING
  | REASONING_BUDGET_FORCING
  | REASONING_BUDGET_WAITING_UTF8
  | REASONING_BUDGET_DONE.

#[global] Instance budget_state_eq_dec : EqDecision common_reasoning_budget_state.
Proof. solve_decision. Defined.

Record common_reasoning_budget_ctx : Type := mk_budget {
  rb_vocab         : option (llama_token → bytes);
  rb_start_matcher : token_matcher;
  rb_end_matcher   : token_matcher;
  rb_forced_tokens : list llama_token;
  rb_budget        : Z;
  rb_remaining     : Z;
  rb_state         : common_reasoning_budget_state;
  rb_force_pos     : nat;
}.

Definition with_start (c : common_reasoning_budget_ctx) (m : token_matcher) : common_reasoning_budget_ctx :=
  mk_budget c.(rb_vocab) m c.(rb_end_matcher) c.(rb_forced_tokens) c.(rb_budget) c.(rb_remaining) c.(rb_state) c.(rb_force_pos).
Definition with_end (c : common_reasoning_budget_ctx) (m : token_matcher) : common_reasoning_budget_ctx :=
  mk_budget c.(rb_vocab) c.(rb_start_matcher) m c.(rb_forced_tokens) c.(rb_budget) c.(rb_remaining) c.(rb_state) c.(rb_force_pos).
Definition with_remaining (c : common_reasoning_budget_ctx) (r : Z) : common_reasoning_budget_ctx :=
  mk_budget c.(rb_vocab) c.(rb_start_matcher) c.(rb_end_matcher) c.(rb_forced_tokens) c.(rb_budget) r c.(rb_state) c.(rb_force_pos).
Definition with_state (c : common_reasoning_budget_ctx) (s : common_reasoning_budget_state) : common_reasoning_budget_ctx :=
  mk_budget c.(rb_vocab) c.(rb_start_matcher) c.(rb_end_matcher) c.(rb_forced_tokens) c.(rb_budget) c.(rb_remaining) s c.(rb_force_pos).
Definition with_force_pos (c : common_reasoning_budget_ctx) (p : nat) : common_reasoning_budget_ctx :=
  mk_budget c.(rb_vocab) c.(rb_start_matcher) c.(rb_end_matcher) c.(rb_forced_tokens) c.(rb_budget) c.(rb_remaining) c.(rb_state) p.

(** ** Matching a sequence *)

Definition matcher_reset (m : token_matcher) : token_matcher := mk_matcher m.(tm_tokens) 0.

(** Whether the sequence is complete, and the matcher after [token]. *)
Definition matcher_advance (m : token_matcher) (token : llama_token) : res (bool * token_matcher) :=
  match m.(tm_tokens) with
  | [] => Ok (false, m)
  | first :: _ =>
      next ← at_ m.(tm_tokens) m.(tm_pos);
      if token =? next then
        if (length m.(tm_tokens) <=? S m.(tm_pos))%nat then Ok (true, mk_matcher m.(tm_tokens) 0)
        else Ok (false, mk_matcher m.(tm_tokens) (S m.(tm_pos)))
      else Ok (false, mk_matcher m.(tm_tokens) (if token =? first then 1 else 0))
  end.

(** ** The state machine *)

Definition start_forcing (c : common_reasoning_budget_ctx) : common_reasoning_budget_ctx :=
  with_force_pos (with_state c REASONING_BUDGET_FORCING) 0.

(** A start sequence was seen. *)
Definition activate (c : common_reasoning_budget_ctx) : common_reasoning_budget_ctx :=
  let c := with_remaining (with_state c REASONING_BUDGET_COUNTING) c.(rb_budget) in
  if c.(rb_remaining) <=? 0 then start_forcing c else c.

Definition reset_end (c : common_reasoning_budget_ctx) : common_reasoning_budget_ctx :=
  with_end c (matcher_reset c.(rb_end_matcher)).

Definition piece_complete (c : common_reasoning_budget_ctx) (token : llama_token) : bool :=
  match c.(rb_vocab) with
  | Some piece => common_utf8_is_complete (piece token)
  | None => true
  end.

(** A token of the block that does not end it. *)
Definition count_token (c : common_reasoning_budget_ctx) (token : llama_token) : common_reasoning_budget_ctx :=
  let utf8_complete := piece_complete c token in
  match c.(rb_state) with
  | REASONING_BUDGET_WAITING_UTF8 => if utf8_complete then reset_end (start_forcing c) else c
  | _ =>
      let c := with_remaining c (i32 (c.(rb_remaining) - 1)) in
      if c.(rb_remaining) <=? 0 then
        if utf8_complete then reset_end (start_forcing c)
        else reset_end (with_state c REASONING_BUDGET_WAITING_UTF8)
      else c
  end.

Definition common_reasoning_budget_accept (c : common_reasoning_budget_ctx) (token : llama_token)
    : res common_reasoning_budget_ctx :=
  match c.(rb_state) with
  | REASONING_BUDGET_IDLE =>
      '(found, m) ← matcher_advance c.(rb_start_matcher) token;
      let c := with_start c m in
      Ok (if found : bool then activate c else c)
  | REASONING_BUDGET_COUNTING | REASONING_BUDGET_WAITING_UTF8 =>
      '(found, m) ← matcher_advance c.(rb_end_matcher) token;
      let c := with_end c m in
      Ok (if found : bool then with_state c REASONING_BUDGET_DONE else count_token c token)
  | REASONING_BUDGET_FORCING =>
      let c := with_force_pos c (S c.(rb_force_pos)) in
      Ok (if (length c.(rb_forced_tokens) <=? c.(rb_force_pos))%nat then with_state c REASONING_BUDGET_DONE else c)
  | REASONING_BUDGET_DONE =>
      '(found, m) ← matcher_advance c.(rb_start_matcher) token;
      let c := with_start c m in
      Ok (if found : bool then reset_end (activate c) else c)
  end.

(** [common_reasoning_budget_apply]: the ids of the candidates whose logit is
    set to minus infinity. *)
Definition common_reasoning_budget_apply (c : common_reasoning_budget_ctx) (ids : list llama_token)
    : list llama_token :=
  match c.(rb_state), c.(rb_forced_tokens) !! c.(rb_force_pos) with
  | REASONING_BUDGET_FORCING, Some forced => filter (λ id, id ≠ forced) ids
  | _, _ => []
  end.

Definition common_reasoning_budget_reset (c : common_reasoning_budget_ctx) : common_reasoning_budget_ctx :=
  mk_budget c.(rb_vocab) (matcher_reset c.(rb_start_matcher)) (matcher_reset c.(rb_end_matcher))
    c.(rb_forced_tokens) c.(rb_budget) c.(rb_budget) REASONING_BUDGET_IDLE 0.

Definition common_reasoning_budget_init (vocab : option (llama_token → bytes))
    (start_tokens end_tokens forced_tokens : list llama_token) (budget : Z)
    (initial_state : common_reasoning_budget_state) : common_reasoning_budget_ctx :=
  let initial_state :=
    if bool_decide (initial_state = REASONING_BUDGET_COUNTING) && (budget <=? 0)
    then REASONING_BUDGET_FORCING else initial_state in
  mk_budget vocab (mk_matcher start_tokens 0) (mk_matcher end_tokens 0) forced_tokens budget budget initial_state 0.

(** The calls of a sampling loop. *)
Inductive budget_call : Type := Accept (token : llama_token) | Reset.

Definition budget_exec (c : common_reasoning_budget_ctx) (call : budget_call) : res common_reasoning_budget_ctx :=
  match call with
  | Accept token => common_reasoning_budget_accept c token
  | Reset => Ok (common_reasoning_budget_reset c)
  end.

Fixpoint budget_run (c : common_reasoning_budget_ctx) (calls : list budget_call) : res common_reasoning_budget_ctx :=
  match calls with
  | [] => Ok c
  | call :: calls => c ← budget_exec c call; budget_run c calls
  end.

(** ** Invariant *)

Definition matcher_ok (m : token_matcher) : Prop :=
  (tm_pos m < length (tm_tokens m) ∨ tm_pos m = 0)%nat.

Definition in_block (s : common_reasoning_budget_state) : Prop :=
  s = REASONING_BUDGET_COUNTING ∨ s = REASONING_BUDGET_WAITING_UTF8 ∨ s = REASONING_BUDGET_FORCING.

Record budget_inv (c : common_reasoning_budget_ctx) : Prop := {
  bi_start  : matcher_ok (rb_start_matcher c);
  bi_end    : matcher_ok (rb_end_matcher c);
  bi_budget : - 2 ^ 31 ≤ rb_budget c < 2 ^ 31;
  bi_count  : rb_state c = REASONING_BUDGET_COUNTING → 0 < rb_remaining c ≤ rb_budget c;
  bi_wait   : rb_state c = REASONING_BUDGET_WAITING_UTF8 → 0 < rb_budget c;
}.

(** What no call changes. *)
Record same_setup (c c' : common_reasoning_budget_ctx) : Prop := {
  ss_vocab  : rb_vocab c' = rb_vocab c;
  ss_forced : rb_forced_tokens c' = rb_forced_tokens c;
  ss_budget : rb_budget c' = rb_budget c;
}.

Lemma matcher_advance_total m token : matcher_ok m →
  ∃ found m', matcher_advance m token = Ok (found, m') ∧ matcher_ok m' ∧ tm_tokens m' = tm_tokens m.
Proof.
  intros Hm. unfold matcher_advance. destruct (tm_tokens m) as [|x l] eqn:Ht; [by exists false, m|].
  destruct (at_lt (x :: l) (tm_pos m)) as (next & -> & Hnext).
  { destruct Hm as [?| ->]; [by rewrite <- Ht|cbn; lia]. }
  cbn [mbind res_bind]. destruct (Z.eqb_spec token next) as [->|Hne].
  - destruct (Nat.leb_spec (length (x :: l)) (S (tm_pos m))).
    + eexists _, _. split_and!; [done|by right|done].
    + eexists _, _. split_and!; [done|by left|done].
  - eexists _, _. split_and!; [done| |done]. destruct (Z.eqb_spec token x) as [->|]; [|by right].
    left. cbn. destruct l; [|cbn; lia]. unfold matcher_ok in Hm. rewrite Ht in Hm. cbn in Hm.
    replace (tm_pos m) with 0%nat in Hnext by lia. cbn in Hnext. congruence.
Qed.

Lemma reset_ok m : matcher_ok (matcher_reset m).
Proof. by right. Qed.

Lemma activate_inv c : matcher_ok (rb_start_matcher c) → matcher_ok (rb_end_matcher c) →
  - 2 ^ 31 ≤ rb_budget c < 2 ^ 31 → budget_inv (activate c) ∧ same_setup c (activate c).
Proof.
  intros H1 H2 H3. unfold activate. destruct (Z.leb_spec (rb_remaining (with_remaining (with_state c REASONING_BUDGET_COUNTING) (rb_budget c))) 0) as [Hz|Hz];
    cbn in Hz; (split; [split; try done|done]).
Qed.

(** *** One token of a block *)

Lemma count_token_spec c t : budget_inv c →
  rb_state c = REASONING_BUDGET_COUNTING ∨ rb_state c = REASONING_BUDGET_WAITING_UTF8 →
  let c' := count_token c t in
  budget_inv c' ∧ same_setup c c' ∧
  if bool_decide (rb_state c = REASONING_BUDGET_COUNTING ∧ 1 < rb_remaining c)
  then rb_state c' = REASONING_BUDGET_COUNTING ∧ rb_remaining c' = rb_remaining c - 1
  else if piece_complete c t then rb_state c' = REASONING_BUDGET_FORCING ∧ rb_force_pos c' = 0%nat
  else rb_state c' = REASONING_BUDGET_WAITING_UTF8.
Proof.
  intros [H1 H2 H3 H4 H5] Hst. cbn zeta. unfold count_token. destruct Hst as [Hst|Hst]; rewrite Hst.
  - destruct (H4 Hst) as [Hr1 Hr2]. rewrite i32_small by lia. cbn [rb_remaining with_remaining].
    destruct (Z.leb_spec (rb_remaining c - 1) 0).
    + rewrite bool_decide_eq_false_2 by lia. destruct (piece_complete c t); (split; [split; try done; (by right) || (cbn; lia)|]; by split).
    + rewrite bool_decide_eq_true_2 by (split; [done|lia]). split_and!; [split; try done; cbn; lia|done|done|done].
  - rewrite bool_decide_eq_false_2 by naive_solver.
    destruct (piece_complete c t); (split; [split; try done; try (by right); cbn; rewrite ?Hst; done|]; by split).
Qed.

Lemma accept_spec c t : budget_inv c →
  ∃ c', common_reasoning_budget_accept c t = Ok c' ∧ budget_inv c' ∧ same_setup c c'.
Proof.
  intros Hc. pose proof Hc as [H1 H2 H3 H4 H5]. unfold common_reasoning_budget_accept. destruct (rb_state c) eqn:Hst.
  - destruct (matcher_advance_total _ t H1) as (found & m & -> & Hm & _). cbn [mbind res_bind].
    eexists. split; [done|]. destruct found.
    { destruct (activate_inv (with_start c m)) as [Ha [S1 S2 S3]]; [done|done|done|]. split; [done|by split]. }
    split; [split; try done; cbn; by rewrite Hst|done].
  - destruct (matcher_advance_total _ t H2) as (found & m & -> & Hm & _). cbn [mbind res_bind].
    eexists. split; [done|]. destruct found; [split; [by split|done]|].
    destruct (count_token_spec (with_end c m) t) as (? & [S1 S2 S3] & _); [by split; cbn; rewrite ?Hst|by left|]. split; [done|by split].
  - eexists. split; [done|]. destruct (_ <=? _)%nat; (split; [split; try done; cbn; by rewrite ?Hst|done]).
  - destruct (matcher_advance_total _ t H2) as (found & m & -> & Hm & _). cbn [mbind res_bind].
    eexists. split; [done|]. destruct found; [split; [by split|done]|].
    destruct (count_token_spec (with_end c m) t) as (? & [S1 S2 S3] & _); [by split; cbn; rewrite ?Hst|by right|]. split; [done|by split].
  - destruct (matcher_advance_total _ t H1) as (found & m & -> & Hm & _). cbn [mbind res_bind].
    eexists. split; [done|]. destruct found.
    + destruct (activate_inv (with_start c m)) as [[A1 A2 A3 A4 A5] [S1 S2 S3]]; [done|done|done|].
      split; [split; try done; by right|by split].
    + split; [split; try done; cbn; by rewrite Hst|done].
Qed.

Lemma init_inv vocab s e f b st : - 2 ^ 31 ≤ b < 2 ^ 31 → (st = REASONING_BUDGET_WAITING_UTF8 → 0 < b) →
  budget_inv (common_reasoning_budget_init vocab s e f b st).
Proof.
  intros Hb Hw. split; cbn; [by right|by right|done|..]; (destruct (decide (st = REASONING_BUDGET_COUNTING)) as [->|Hne];
    [destruct (Z.leb_spec b 0); cbn; (done || lia)|rewrite bool_decide_eq_false_2 by done; cbn; done]).
Qed.

Lemma same_setup_trans c1 c2 c3 : same_setup c1 c2 → same_setup c2 c3 → same_setup c1 c3.
Proof. intros [A1 A2 A3] [B1 B2 B3]. split; congruence. Qed.

Lemma budget_run_spec calls : ∀ c, budget_inv c →
  ∃ c', budget_run c calls = Ok c' ∧ budget_inv c' ∧ same_setup c c'.
Proof.
  induction calls as [|[t|] calls IH]; intros c Hc; cbn [budget_run budget_exec]; [by exists c|..].
  - destruct (accept_spec c t Hc) as (c1 & -> & H1 & S1). cbn [mbind res_bind].
    destruct (IH c1 H1) as (c2 & -> & H2 & S2). exists c2. split_and!; [done|done|by eapply same_setup_trans].
  - cbn [mbind res_bind]. destruct (IH (common_reasoning_budget_reset c)) as (c2 & -> & H2 & [S1 S2 S3]).
    { destruct Hc. split; try done; by right. }
    exists c2. split_and!; [done|done|by split].
Qed.

(** ** Every block ends *)

(** Within [n] of the tokens [ts] the machine is done. *)
Definition ends (c : common_reasoning_budget_ctx) (ts : list llama_token) (n : nat) : Prop :=
  ∃ k c', (k ≤ n)%nat ∧ budget_run c (Accept <$> take k ts) = Ok c' ∧ rb_state c' = REASONING_BUDGET_DONE.

Lemma ends_mono c ts n n' : (n ≤ n')%nat → ends c ts n → ends c ts n'.
Proof. intros ? (k & c' & ? & ? & ?). exists k, c'. split_and!; [lia|done|done]. Qed.

Lemma ends_done c ts n : rb_state c = REASONING_BUDGET_DONE → ends c ts n.
Proof. intros Hc. exists 0%nat, c. split_and!; [lia|by rewrite take_0|done]. Qed.

Lemma ends_step c c1 t ts n : common_reasoning_budget_accept c t = Ok c1 → (1 ≤ n)%nat →
  ends c1 ts (n - 1) → ends c (t :: ts) n.
Proof.
  intros Hc Hn (k & c' & ? & Hk & ?). exists (S k), c'. split_and!; [lia| |done].
  cbn. rewrite Hc. done.
Qed.

Lemma accept_in_block c t : budget_inv c →
  rb_state c = REASONING_BUDGET_COUNTING ∨ rb_state c = REASONING_BUDGET_WAITING_UTF8 →
  ∃ c1, common_reasoning_budget_accept c t = Ok c1 ∧ budget_inv c1 ∧ same_setup c c1 ∧
    (rb_state c1 = REASONING_BUDGET_DONE ∨
     if bool_decide (rb_state c = REASONING_BUDGET_COUNTING ∧ 1 < rb_remaining c)
     then rb_state c1 = REASONING_BUDGET_COUNTING ∧ rb_remaining c1 = rb_remaining c - 1
     else if piece_complete c t then rb_state c1 = REASONING_BUDGET_FORCING ∧ rb_force_pos c1 = 0%nat
     else rb_state c1 = REASONING_BUDGET_WAITING_UTF8).
Proof.
  intros Hc Hst. pose proof Hc as [H1 H2 H3 H4 H5]. unfold common_reasoning_budget_accept.
  destruct (matcher_advance_total _ t H2) as (found & m & Hadv & Hm & _).
  assert (budget_inv (with_end c m)) as Hcm by done.
  destruct (count_token_spec (with_end c m) t Hcm Hst) as (I1 & [S1 S2 S3] & Hcase).
  destruct Hst as [Hst|Hst]; rewrite Hst, Hadv; cbn [mbind res_bind]; (eexists; split; [done|]);
    destruct found; [|split_and!; [done|done|right]| |split_and!; [done|done|right]].
  - split_and!; [by split|done|by left].
  - cbn [with_end rb_state rb_remaining] in Hcase. rewrite Hst in Hcase. exact Hcase.
  - split_and!; [by split|done|by left].
  - cbn [with_end rb_state rb_remaining] in Hcase. rewrite Hst in Hcase. exact Hcase.
Qed.

Lemma forcing_ends d : ∀ c ts, budget_inv c → rb_state c = REASONING_BUDGET_FORCING →
  (length (rb_forced_tokens c) - rb_force_pos c ≤ d)%nat → (Nat.max 1 d ≤ length ts)%nat → ends c ts (Nat.max 1 d).
Proof.
  induction d as [|d IH]; intros c ts Hc Hst Hd Hlen; (destruct ts as [|t ts]; [cbn in Hlen; lia|]);
    (destruct (accept_spec c t Hc) as (c1 & Ha & H1 & [_ S2 _])); pose proof Ha as Ha';
    unfold common_reasoning_budget_accept in Ha'; rewrite Hst in Ha'; cbn [rb_forced_tokens with_force_pos rb_force_pos] in Ha';
    (destruct (Nat.leb_spec (length (rb_forced_tokens c)) (S (rb_force_pos c))); injection Ha' as Ha').
  - eapply ends_step; [exact Ha|lia|]. apply ends_done. by rewrite <- Ha'.
  - lia.
  - eapply ends_step; [exact Ha|lia|]. apply ends_done. by rewrite <- Ha'.
  - eapply ends_step; [exact Ha|lia|].
    apply (ends_mono _ _ (Nat.max 1 d)); [lia|]. apply IH; [done|by rewrite <- Ha'| |cbn in Hlen; lia].
    rewrite S2, <- Ha'. cbn. lia.
Qed.

(** One of the next [w + 1] tokens, whatever they are, ends a character. *)
Definition completes (c : common_reasoning_budget_ctx) (w : nat) (ts : list llama_token) : Prop :=
  ∀ i, (i + w < length ts)%nat → ∃ j t, (i ≤ j ≤ i + w)%nat ∧ ts !! j = Some t ∧ piece_complete c t = true.

Lemma piece_complete_same c c' t : same_setup c c' → piece_complete c' t = piece_complete c t.
Proof. intros [H _ _]. unfold piece_complete. by rewrite H. Qed.

Lemma waiting_ends j : ∀ c ts t, budget_inv c → rb_state c = REASONING_BUDGET_WAITING_UTF8 →
  ts !! j = Some t → piece_complete c t = true →
  (S j + Nat.max 1 (length (rb_forced_tokens c)) ≤ length ts)%nat →
  ends c ts (S j + Nat.max 1 (length (rb_forced_tokens c))).
Proof.
  induction j as [|j IH]; intros c ts t Hc Hst Ht Hp Hlen; (destruct ts as [|x ts]; [done|]);
    (destruct (accept_in_block c x Hc) as (c1 & Ha & H1 & S1 & Hcase); [by right|]);
    rewrite bool_decide_eq_false_2 in Hcase by (rewrite Hst; naive_solver);
    (eapply ends_step; [exact Ha|lia|]); destruct Hcase as [Hd|Hcase]; [by apply ends_done| |by apply ends_done|].
  - cbn in Ht. simplify_eq. rewrite Hp in Hcase. destruct Hcase as [Hf Hpos]. rewrite <- (ss_forced _ _ S1) in *.
    cbn in Hlen. apply (ends_mono _ _ (Nat.max 1 (length (rb_forced_tokens c1)))); [lia|].
    apply forcing_ends; [done|done|lia|lia].
  - cbn in Ht, Hlen. destruct (piece_complete c x).
    + destruct Hcase as [Hf Hpos]. rewrite <- (ss_forced _ _ S1).
      apply (ends_mono _ _ (Nat.max 1 (length (rb_forced_tokens c1)))); [lia|].
      apply forcing_ends; [done|done|lia|]. rewrite (ss_forced _ _ S1). lia.
    + rewrite <- (ss_forced _ _ S1) in *.
      apply (ends_mono _ _ (S j + Nat.max 1 (length (rb_forced_tokens c1)))); [lia|].
      apply (IH c1 ts t); [done|done|done|by rewrite (piece_complete_same c c1)|lia].
Qed.

Lemma completes_tail c c' w t ts : same_setup c c' → completes c w (t :: ts) → completes c' w ts.
Proof.
  intros Hs Hc i Hi. destruct (Hc (S i)) as ([|j] & x & Hj & Hx & Hp); [cbn; lia|lia|].
  exists j, x. split_and!; [lia|lia|done|by rewrite (piece_complete_same c c')].
Qed.

Lemma counting_ends r w : ∀ c ts, budget_inv c → rb_state c = REASONING_BUDGET_COUNTING →
  rb_remaining c = Z.of_nat (S r) → completes c w ts →
  (S r + w + Nat.max 1 (length (rb_forced_tokens c)) ≤ length ts)%nat →
  ends c ts (S r + w + Nat.max 1 (length (rb_forced_tokens c))).
Proof.
  induction r as [|r IH]; intros c ts Hc Hst Hr Hw Hlen; (destruct ts as [|x ts]; [cbn in Hlen; lia|]);
    (destruct (accept_in_block c x Hc) as (c1 & Ha & H1 & S1 & Hcase); [by left|]);
    (eapply ends_step; [exact Ha|lia|]); (destruct Hcase as [Hd|Hcase]; [by apply ends_done|]);
    rewrite <- (ss_forced _ _ S1) in *; cbn [length] in Hlen.
  - rewrite bool_decide_eq_false_2 in Hcase by lia. destruct (piece_complete c x) eqn:Hpx.
    + destruct Hcase as [Hf Hpos]. apply (ends_mono _ _ (Nat.max 1 (length (rb_forced_tokens c1)))); [lia|].
      apply forcing_ends; [done|done|lia|lia].
    + destruct (Hw 0%nat) as (j & t & Hj & Ht & Hp); [cbn; lia|]. destruct j as [|j]; [cbn in Ht; congruence|].
      cbn in Ht. apply (ends_mono _ _ (S j + Nat.max 1 (length (rb_forced_tokens c1)))); [lia|].
      apply (waiting_ends j c1 ts t); [done|done|done|by rewrite (piece_complete_same c c1)|lia].
  - rewrite bool_decide_eq_true_2 in Hcase by (split; [done|lia]). destruct Hcase as [Hst1 Hr1].
    apply (ends_mono _ _ (S r + w + Nat.max 1 (length (rb_forced_tokens c1)))); [lia|].
    apply (IH c1 ts); [done|done|lia|by eapply completes_tail|lia].
Qed.

(** C32. Every reasoning block ends.  In any state of the sampler, reached by any
    calls (it is not started in the middle of waiting without a budget), that is
    inside a block, let the next tokens be arbitrary, except that among any [w + 1] of
    them one completes a character.  Then after at most as many tokens as the budget
    has, [w] tokens to complete a character, and the length of the forced sequence (at
    least one token) the sampler is done. *)
Theorem budget_block_ends vocab start_tokens end_tokens forced budget st calls c ts (w : nat) :
  - 2 ^ 31 ≤ budget < 2 ^ 31 → (st = REASONING_BUDGET_WAITING_UTF8 → 0 < budget) →
  budget_run (common_reasoning_budget_init vocab start_tokens end_tokens forced budget st) calls = Ok c →
  in_block (rb_state c) → completes c w ts →
  let bound := (Z.to_nat budget + w + Nat.max 1 (length forced))%nat in
  (bound ≤ length ts)%nat →
  ∃ k c', (k ≤ bound)%nat ∧ budget_run c (Accept <$> take k ts) = Ok c' ∧ rb_state c' = REASONING_BUDGET_DONE.
Proof.
  intros Hb Hst0 Hrun Hst Hw bound Hlen.
  destruct (budget_run_spec calls _ (init_inv vocab start_tokens end_tokens forced budget st Hb Hst0)) as (c0 & Hc0 & Hi & S0).
  rewrite Hrun in Hc0. injection Hc0 as <-. pose proof (ss_forced _ _ S0) as Hf. pose proof (ss_budget _ _ S0) as Hbud.
  cbn in Hf, Hbud. change (ends c ts bound). unfold bound in *. destruct Hst as [Hst|[Hst|Hst]].
  - destruct (bi_count c Hi Hst) as [Hr1 Hr2]. apply (ends_mono _ _ (S (Z.to_nat (rb_remaining c) - 1) + w + Nat.max 1 (length (rb_forced_tokens c)))).
    { rewrite Hf. lia. }
    apply counting_ends; [done|done|lia|done|rewrite Hf; lia].
  - pose proof (bi_wait c Hi Hst). destruct (Hw 0%nat) as (j & t & Hj & Ht & Hp); [lia|].
    apply (ends_mono _ _ (S j + Nat.max 1 (length (rb_forced_tokens c)))); [rewrite Hf; lia|].
    apply (waiting_ends j c ts t); [done|done|done|done|rewrite Hf; lia].
  - apply (ends_mono _ _ (Nat.max 1 (length (rb_forced_tokens c)))); [rewrite Hf; lia|].
    apply forcing_ends; [done|done|lia|rewrite Hf; lia].
Qed.

(** While the sequence is forced, its next token is the only one that keeps its
    logit. *)
Lemma forcing_masks (i : nat) : ∀ c ts, budget_inv c → rb_state c = REASONING_BUDGET_FORCING →
  length ts = i → (rb_force_pos c + i < length (rb_forced_tokens c))%nat →
  ∃ c' f, budget_run c (Accept <$> ts) = Ok c' ∧ rb_state c' = REASONING_BUDGET_FORCING ∧
    rb_forced_tokens c !! (rb_force_pos c + i)%nat = Some f ∧
    ∀ ids, common_reasoning_budget_apply c' ids = filter (λ id, id ≠ f) ids.
Proof.
  induction i as [|i IH]; intros c ts Hc Hst Hlen Hlt; (destruct ts as [|t ts]; [|cbn in Hlen]; try done).
  - destruct (lookup_lt_is_Some_2 (rb_forced_tokens c) (rb_force_pos c + 0)) as [f Hf]; [lia|].
    exists c, f. split_and!; [done|done|done|]. intros ids. unfold common_reasoning_budget_apply.
    rewrite Hst. rewrite Nat.add_0_r in Hf. by rewrite Hf.
  - destruct (accept_spec c t Hc) as (c1 & Ha & H1 & [_ S2 _]). cbn [fmap list_fmap budget_run budget_exec].
    rewrite Ha. cbn [mbind res_bind]. unfold common_reasoning_budget_accept in Ha. rewrite Hst in Ha.
    cbn [rb_forced_tokens with_force_pos rb_force_pos] in Ha.
    destruct (Nat.leb_spec (length (rb_forced_tokens c)) (S (rb_force_pos c))); [lia|]. injection Ha as <-.
    destruct (IH _ ts H1) as (c' & f & Hrun & Hs & Hf & Hmask); [done|lia|cbn; lia|].
    exists c', f. split_and!; [exact Hrun|exact Hs| |exact Hmask]. cbn in Hf. by rewrite Nat.add_succ_r.
Qed.

(** ** Runs *)

(** Pieces of a vocabulary: tokens 7 and 8 are the two parts of U+4F60, the
    other tokens are single letters. *)
Definition ex_piece (t : llama_token) : bytes :=
  if t =? 7 then [0xE4; 0xBD] else if t =? 8 then [0xA0] else [0x61].

Definition ex_budget : common_reasoning_budget_ctx :=
  common_reasoning_budget_init (Some ex_piece) [1; 2] [3] [5; 3] 2 REASONING_BUDGET_IDLE.
Definition ex_calls : list budget_call := [Accept 9; Accept 1; Accept 2; Accept 9].

Lemma budget_block_ends_witness :
  ∃ k c c', budget_run ex_budget ex_calls = Ok c ∧ (k ≤ 5)%nat ∧
    budget_run c (Accept <$> take k [7; 9; 9; 9; 9]) = Ok c' ∧ rb_state c' = REASONING_BUDGET_DONE.
Proof.
  destruct (budget_run ex_budget ex_calls) as [c|] eqn:Hc; [|vm_compute in Hc; discriminate].
  destruct (budget_block_ends (Some ex_piece) [1; 2] [3] [5; 3] 2 REASONING_BUDGET_IDLE ex_calls c
    [7; 9; 9; 9; 9] 1) as (k & c' & Hk & Hrun & Hd).
  - lia.
  - lia.
  - exact Hc.
  - vm_compute in Hc. injection Hc as <-. left. reflexivity.
  - vm_compute in Hc. injection Hc as <-. intros i Hi.
    destruct i as [|i]; [exists 1%nat, 9; split_and!; [lia|lia|reflexivity|reflexivity]|].
    exists (S i), 9. split_and!; [lia|lia| |reflexivity]. cbn in Hi.
    do 3 (destruct i as [|i]; [reflexivity|]). lia.
  - cbn. lia.
  - exists k, c, c'. split_and!; [reflexivity|cbn in Hk; lia|exact Hrun|exact Hd].
Defined.

(** The matcher forgets a partial match on a mismatch: the sequence 1 1 2 is not
    found in 1 1 1 2. *)
Theorem matcher_misses_overlap :
  let c := common_reasoning_budget_init None [1; 1; 2] [3] [3] 4 REASONING_BUDGET_IDLE in
  rb_state <$> budget_run c (Accept <$> [1; 1; 1; 2]) = Ok REASONING_BUDGET_IDLE ∧
  rb_state <$> budget_run c (Accept <$> [1; 1; 2]) = Ok REASONING_BUDGET_COUNTING.
Proof. split; vm_compute; reflexivity. Qed.

(** The token 8 ends the character that 7 began, but its piece, a lone
    continuation byte, does not count as complete: the sampler waits on. *)
Theorem waits_after_completed_character :
  let c := common_reasoning_budget_init (Some ex_piece) [1] [3] [3] 1 REASONING_BUDGET_IDLE in
  rb_state <$> budget_run c (Accept <$> [1; 7]) = Ok REASONING_BUDGET_WAITING_UTF8 ∧
  common_utf8_is_complete (ex_piece 7 ++ ex_piece 8) = true ∧
  rb_state <$> budget_run c (Accept <$> [1; 7; 8; 8; 8]) = Ok REASONING_BUDGET_WAITING_UTF8.
Proof. split_and!; vm_compute; reflexivity. Qed.

(** The state after a block is left again by a start sequence. *)
Theorem done_is_left_again :
  let c := common_reasoning_budget_init None [1] [3] [3] 4 REASONING_BUDGET_IDLE in
  rb_state <$> budget_run c (Accept <$> [1; 3]) = Ok REASONING_BUDGET_DONE ∧
  rb_state <$> budget_run c (Accept <$> [1; 3; 1]) = Ok REASONING_BUDGET_COUNTING.
Proof. split; vm_compute; reflexivity. Qed.
