(* ===== verification/Vocab.v ===== *)
(** * The vocabulary (src/llama-vocab.cpp, src/llama-vocab.h, src/llama-impl.h)

    Tokens with their texts, scores and attributes, the table from texts to
    tokens that loading builds, the byte tokens, and the replacement of spaces
    by U+2581.  Strings are lists of bytes.  A score is a [float] that is only
    compared: it is modelled as an integer, the multiple of 2^-149 that every
    finite [float] is. *)
From stdpp Require Import pretty.
From S2P Require Import Prelude Utf8.

(** ** Data *)

Abbreviation llama_token := Z.
Definition LLAMA_TOKEN_NULL : llama_token := -1.

Inductive llama_vocab_type : Type :=
  | LLAMA_VOCAB_TYPE_NONE
  | LLAMA_VOCAB_TYPE_SPM
  | LLAMA_VOCAB_TYPE_BPE
  | LLAMA_VOCAB_TYPE_WPM
  | LLAMA_VOCAB_TYPE_UGM
  | LLAMA_VOCAB_TYPE_RWKV
  | LLAMA_VOCAB_TYPE_PLAMO2.

#[global] Instance llama_vocab_type_eq_dec : EqDecision llama_vocab_type.
Proof. solve_decision. Defined.

(** [enum llama_token_attr]: bits of a mask. *)
Definition LLAMA_TOKEN_ATTR_UNDEFINED    : Z := 0.
Definition LLAMA_TOKEN_ATTR_UNKNOWN      : Z := Z.shiftl 1 0.
Definition LLAMA_TOKEN_ATTR_UNUSED       : Z := Z.shiftl 1 1.
Definition LLAMA_TOKEN_ATTR_NORMAL       : Z := Z.shiftl 1 2.
Definition LLAMA_TOKEN_ATTR_CONTROL      : Z := Z.shiftl 1 3.
Definition LLAMA_TOKEN_ATTR_USER_DEFINED : Z := Z.shiftl 1 4.
Definition LLAMA_TOKEN_ATTR_BYTE         : Z := Z.shiftl 1 5.
Definition LLAMA_TOKEN_ATTR_LSTRIP       : Z := Z.shiftl 1 7.
Definition LLAMA_TOKEN_ATTR_RSTRIP       : Z := Z.shiftl 1 8.

Definition has_attr (attr mask : Z) : bool := negb (Z.land attr mask =? 0).

Record token_data : Type := mk_token_data { td_text : bytes; td_score : Z; td_attr : Z }.

(** The fields of [llama_vocab::impl] that tokenizing and detokenizing use;
    [v_pre_type] is the number of the pre-tokenization type. *)
Record llama_vocab : Type := mk_vocab {
  v_type                 : llama_vocab_type;
  v_pre_type             : Z;
  v_max_token_len        : Z;
  v_special_bos_id       : llama_token;
  v_special_eos_id       : llama_token;
  v_special_unk_id       : llama_token;
  v_special_sep_id       : llama_token;
  v_add_space_prefix     : bool;
  v_add_bos              : bool;
  v_add_eos              : bool;
  v_ignore_merges        : bool;
  v_clean_spaces         : bool;
  v_escape_whitespaces   : bool;
  v_token_to_id          : gmap bytes llama_token;
  v_id_to_token          : list token_data;
  v_cache_special_tokens : list llama_token;
  v_cache_token_to_piece : list bytes;
  v_bpe_ranks            : gmap (bytes * bytes) Z;
}.

(** ** Queries *)

(** [v[id]], [v.at(id)] for a signed id: [at] throws where [v[id]] is undefined. *)
Definition at_id {A} (f : fault) (v : list A) (id : Z) : res A :=
  if id <? 0 then Err f else match v !! Z.to_nat id with Some x => Ok x | None => Err f end.

Definition not_none (v : llama_vocab) : res unit := ggml_assert (negb (bool_decide (v_type v = LLAMA_VOCAB_TYPE_NONE))).

Definition n_tokens (v : llama_vocab) : Z := u32 (Z.of_nat (length (v_id_to_token v))).

Definition get_token_data (v : llama_vocab) (id : llama_token) : res token_data :=
  _ ← not_none v; at_id (Throw "vector") (v_id_to_token v) id.

Definition text_to_token (v : llama_vocab) (text : bytes) : res llama_token :=
  _ ← not_none v; Ok (default LLAMA_TOKEN_NULL (v_token_to_id v !! text)).

Definition token_get_attr (v : llama_vocab) (id : llama_token) : res Z :=
  _ ← not_none v; td_attr <$> at_id (Throw "vector") (v_id_to_token v) id.

Definition is_byte_token (v : llama_vocab) (id : llama_token) : res bool :=
  _ ← not_none v; d ← at_id Oob (v_id_to_token v) id; Ok (has_attr (td_attr d) LLAMA_TOKEN_ATTR_BYTE).

(** [token_to_id.at]. *)
Definition id_of (v : llama_vocab) (text : bytes) : res llama_token :=
  match v_token_to_id v !! text with Some id => Ok id | None => Err (Throw "unordered_map") end.

Definition hex : bytes := str "0123456789ABCDEF".

(** ["<0x%02X>"]. *)
Definition byte_text (ch : Z) : bytes :=
  str "<0x" ++ [nth (Z.to_nat (Z.shiftr ch 4)) hex 0; nth (Z.to_nat (Z.land ch 15)) hex 0] ++ str ">".

(** *** Bytes as characters (src/unicode.cpp) *)

(** The character of [unicode_byte_to_utf8_map]: a printable byte is itself, the
    [n]-th of the others is 256 + [n]. *)
Definition printable (ch : Z) : bool :=
  ((0x21 <=? ch) && (ch <=? 0x7E)) || ((0xA1 <=? ch) && (ch <=? 0xAC)) || ((0xAE <=? ch) && (ch <=? 0xFF)).

Fixpoint other_chars (n : Z) (chs : list Z) : list (Z * Z) :=
  match chs with
  | [] => []
  | ch :: chs => if printable ch then (ch, ch) :: other_chars n chs else (ch, 256 + n) :: other_chars (n + 1) chs
  end.

Definition byte_to_utf8_table : list (Z * Z) := other_chars 0 (Z.of_nat <$> seq 0 256).

Definition unicode_byte_to_utf8 (ch : Z) : res bytes :=
  match byte_to_utf8_table !! Z.to_nat ch with
  | Some (_, cpt) => common_unicode_cpt_to_utf8 cpt
  | None => Err (Throw "unordered_map")
  end.

Definition unicode_utf8_to_byte (utf8 : bytes) : res Z :=
  match list_find (λ e, common_unicode_cpt_to_utf8 e.2 = Ok utf8) byte_to_utf8_table with
  | Some (_, (ch, _)) => Ok ch
  | None => Err (Throw "unordered_map")
  end.

Definition byte_to_token (v : llama_vocab) (ch : Z) : res llama_token :=
  _ ← not_none v;
  match v_type v with
  | LLAMA_VOCAB_TYPE_SPM | LLAMA_VOCAB_TYPE_UGM =>
      match v_token_to_id v !! byte_text ch with
      | Some id => Ok id
      | None => id_of v (if ch =? 0 then [] else [ch])
      end
  | LLAMA_VOCAB_TYPE_WPM | LLAMA_VOCAB_TYPE_BPE => text ← unicode_byte_to_utf8 ch; id_of v text
  | LLAMA_VOCAB_TYPE_PLAMO2 => id_of v (byte_text ch)
  | _ => Err Abort
  end.

(** [isspace] in the C locale. *)
Definition isspace (c : Z) : bool := ((9 <=? c) && (c <=? 13)) || (c =? 32).

Definition hex_digit (c : Z) : option Z :=
  if (48 <=? c) && (c <=? 57) then Some (c - 48)
  else if (65 <=? c) && (c <=? 70) then Some (c - 55)
  else if (97 <=? c) && (c <=? 102) then Some (c - 87)
  else None.

Fixpoint hex_digits (acc : Z) (s : bytes) : Z :=
  match s with
  | [] => acc
  | c :: s => match hex_digit c with Some d => hex_digits (acc * 16 + d) s | None => acc end
  end.

(** [strtol(s, NULL, 16)] for the two characters it is called with (the prefix
    0x of such a text reads as 0): leading space, a sign, digits up to the first
    other character. *)
Fixpoint strtol16 (s : bytes) : Z :=
  match s with
  | [] => 0
  | c :: s' =>
      if isspace c then strtol16 s'
      else if c =? 43 then hex_digits 0 s'
      else if c =? 45 then - hex_digits 0 s'
      else hex_digits 0 s
  end.

(** [s.substr(pos, n)]: throws when [pos] is behind the end. *)
Definition substr (s : bytes) (pos n : nat) : res bytes :=
  if (length s <? pos)%nat then Err (Throw "basic_string::substr") else Ok (take n (drop pos s)).

Definition token_to_byte (v : llama_vocab) (id : llama_token) : res Z :=
  _ ← not_none v;
  b ← is_byte_token v id;
  _ ← ggml_assert b;
  d ← at_id (Throw "vector") (v_id_to_token v) id;
  match v_type v with
  | LLAMA_VOCAB_TYPE_SPM | LLAMA_VOCAB_TYPE_UGM | LLAMA_VOCAB_TYPE_BPE =>
      buf ← substr (td_text d) 3 2; Ok (u8 (strtol16 buf))
  | _ => Err Abort
  end.

Definition find_bpe_rank (v : llama_vocab) (token_left token_right : bytes) : res Z :=
  _ ← ggml_assert (bool_decide (32 ∉ token_left));
  _ ← ggml_assert (bool_decide (32 ∉ token_right));
  Ok (default (-1) (v_bpe_ranks v !! (token_left, token_right))).

(** ** Searching and replacing *)

(** [std::string::find (pat, pos)] *)
Fixpoint find_from (fuel : nat) (s pat : bytes) (pos : nat) : option nat :=
  match fuel with
  | O => None
  | S fuel =>
      if (length s <? pos + length pat)%nat then None
      else if bool_decide (take (length pat) (drop pos s) = pat) then Some pos
      else find_from fuel s pat (S pos)
  end.

Definition string_find (s pat : bytes) (pos : nat) : option nat := find_from (S (length s)) s pat pos.

Fixpoint replace_loop (fuel : nat) (s search repl : bytes) (last_pos : nat) (builder : bytes) : res bytes :=
  match string_find s search last_pos with
  | None => Ok (builder ++ drop last_pos s)
  | Some pos =>
      match fuel with
      | O => Err NoFuel
      | S fuel =>
          replace_loop fuel s search repl (pos + length search)
            (builder ++ take (pos - last_pos) (drop last_pos s) ++ repl)
      end
  end.

(** At most one round per byte of [s]. *)
Definition replace_all (s search repl : bytes) : res bytes :=
  match search with [] => Ok s | _ => replace_loop (length s) s search repl 0 [] end.

Definition spm_space : bytes := [0xE2; 0x96; 0x81].
Definition llama_escape_whitespace (text : bytes) : res bytes := replace_all text [32] spm_space.
Definition llama_unescape_whitespace (word : bytes) : res bytes := replace_all word spm_space [32].

(** ** Loading the tokens *)

(** [LLAMA_TOKEN_TYPE_*] of the model file. *)
Definition attr_of_type (ty : Z) : Z :=
  match ty with
  | 1 => LLAMA_TOKEN_ATTR_NORMAL
  | 2 => LLAMA_TOKEN_ATTR_UNKNOWN
  | 3 => LLAMA_TOKEN_ATTR_CONTROL
  | 4 => LLAMA_TOKEN_ATTR_USER_DEFINED
  | 5 => LLAMA_TOKEN_ATTR_UNUSED
  | 6 => LLAMA_TOKEN_ATTR_BYTE
  | _ => LLAMA_TOKEN_ATTR_UNDEFINED
  end.

(** A token as the model file gives it: its text and, where the file has them,
    its score and type. *)
Record file_token : Type := mk_file_token { ft_text : bytes; ft_score : option Z; ft_type : option Z }.

Definition load_word (i : nat) (word : bytes) : bytes :=
  match word with [] => str "[EMPTY_" ++ str (pretty (N.of_nat i)) ++ str "]" | _ => word end.

Definition load_token (i : nat) (t : file_token) : token_data :=
  mk_token_data (load_word i (ft_text t)) (default 0 (ft_score t))
    (match ft_type t with Some ty => attr_of_type ty | None => LLAMA_TOKEN_ATTR_NORMAL end).

(** [token_to_id[word] = i] for each token, in order. *)
Fixpoint index_tokens (i : nat) (ds : list token_data) (m : gmap bytes llama_token) : gmap bytes llama_token :=
  match ds with
  | [] => m
  | d :: ds => index_tokens (S i) ds (<[td_text d := Z.of_nat i]> m)
  end.

Definition longest_token (ds : list token_data) : Z :=
  foldl (λ n d, Z.max n (Z.of_nat (length (td_text d)))) 0 ds.

(** [id_to_token], [token_to_id] and [max_token_len]. *)
Definition load_tokens (ts : list file_token) : res (list token_data * gmap bytes llama_token * Z) :=
  let ds := imap load_token ts in
  let m := index_tokens 0 ds ∅ in
  _ ← ggml_assert (length ds =? size m)%nat;
  Ok (ds, m, longest_token ds).
