(* ===== verification/VocabLemmas.v ===== *)
(** * Facts about the vocabulary

    What loading guarantees of the two tables, the evaluation of the queries on
    such a vocabulary, and the replacement of spaces and its inverse. *)
From S2P Require Import Prelude Utf8 Vocab.

(** ** The tables of a loaded vocabulary *)

(** The tables are inverse to each other, and ids are 32-bit. *)
Record vocab_ok (v : llama_vocab) : Prop := {
  vo_id   : ∀ t id, v_token_to_id v !! t = Some id → 0 ≤ id ∧ td_text <$> v_id_to_token v !! Z.to_nat id = Some t;
  vo_text : ∀ i d, v_id_to_token v !! i = Some d → v_token_to_id v !! td_text d = Some (Z.of_nat i);
  vo_size : Z.of_nat (length (v_id_to_token v)) < 2 ^ 31;
  vo_type : v_type v ≠ LLAMA_VOCAB_TYPE_NONE;
}.

Lemma index_tokens_dom ds : ∀ i m, dom (index_tokens i ds m) = dom m ∪ list_to_set (td_text <$> ds).
Proof.
  induction ds as [|d ds IH]; intros i m; cbn; [set_solver|]. rewrite IH. set_solver.
Qed.

Lemma size_list_to_set_le `{Countable A} (l : list A) : (size (list_to_set (C := gset A) l) ≤ length l)%nat.
Proof.
  induction l as [|x l IH]; cbn; [by rewrite size_empty|].
  rewrite size_union_alt, size_singleton.
  assert (size (list_to_set (C := gset A) l ∖ {[x]}) ≤ size (list_to_set (C := gset A) l))%nat by (apply subseteq_size; set_solver). lia.
Qed.

Lemma size_list_to_set_NoDup `{Countable A} (l : list A) : size (list_to_set (C := gset A) l) = length l → NoDup l.
Proof.
  induction l as [|x l IH]; cbn; [constructor|]. intros Hs. pose proof (size_list_to_set_le l).
  destruct (decide (x ∈ l)) as [Hx|Hx].
  - replace ({[x]} ∪ list_to_set l) with (list_to_set (C := gset A) l) in Hs by set_solver. lia.
  - constructor; [done|]. apply IH. rewrite size_union in Hs by set_solver. rewrite size_singleton in Hs. lia.
Qed.

Lemma index_tokens_Some ds : ∀ i m t id, index_tokens i ds m !! t = Some id →
  (∃ j d, ds !! j = Some d ∧ td_text d = t ∧ id = Z.of_nat (i + j)) ∨ m !! t = Some id.
Proof.
  induction ds as [|d ds IH]; intros i m t id; cbn [index_tokens]; [by right|].
  intros [(j & d' & Hj & Ht & ->)|H]%IH.
  - left. exists (S j), d'. split_and!; [done|done|lia].
  - apply lookup_insert_Some in H as [[Ht <-]|[_ H]]; [|by right].
    left. exists 0%nat, d. split_and!; [done|done|lia].
Qed.

Lemma index_tokens_other ds : ∀ i m t, t ∉ td_text <$> ds → index_tokens i ds m !! t = m !! t.
Proof.
  induction ds as [|d ds IH]; intros i m t Ht; [done|]. cbn [index_tokens]. cbn in Ht.
  rewrite IH, lookup_insert_ne; [done|set_solver|set_solver].
Qed.

Lemma index_tokens_lookup ds : ∀ i m j d, NoDup (td_text <$> ds) → ds !! j = Some d →
  index_tokens i ds m !! td_text d = Some (Z.of_nat (i + j)).
Proof.
  induction ds as [|d0 ds IH]; intros i m j d Hnd Hj; [done|]. cbn [index_tokens]. cbn in Hnd. apply NoDup_cons in Hnd as [Hnot Hnd].
  destruct j as [|j]; cbn in Hj.
  - simplify_eq. rewrite index_tokens_other by done. rewrite lookup_insert_eq. by rewrite Nat.add_0_r.
  - rewrite (IH _ _ j) by done. f_equal. lia.
Qed.

(** Loading stops unless the texts are distinct; then the tables are inverse. *)
Lemma load_tokens_inverse ts ds m longest : load_tokens ts = Ok (ds, m, longest) →
  (∀ t id, m !! t = Some id → 0 ≤ id ∧ td_text <$> ds !! Z.to_nat id = Some t) ∧
  (∀ i d, ds !! i = Some d → m !! td_text d = Some (Z.of_nat i) ∧ td_text d ≠ []).
Proof.
  unfold load_tokens. intros H. inv_res. split.
  - intros t id [(j & d & Hj & <- & ->)|?]%index_tokens_Some; [|done]. split; [lia|].
    replace (Z.to_nat (Z.of_nat (0 + j))) with j by lia. by rewrite Hj.
  - intros i d Hi. split.
    + apply (index_tokens_lookup _ 0 ∅ i d); [|done]. apply size_list_to_set_NoDup.
      match goal with H : (_ =? _)%nat = true |- _ => apply Nat.eqb_eq in H as Hsz end.
      rewrite length_fmap. etrans; [|symmetry; exact Hsz]. rewrite <- size_dom. f_equal.
      rewrite index_tokens_dom. set_solver.
    + rewrite list_lookup_imap in Hi. destruct (ts !! i) as [t|]; [|done]. cbn in Hi. injection Hi as <-. cbn.
      unfold load_word. by destruct (ft_text t).
Qed.

(** ** Queries *)
Section queries.
Context (v : llama_vocab) (Hv : vocab_ok v).

Lemma not_none_ok : not_none v = Ok tt.
Proof using Hv. unfold not_none. rewrite bool_decide_eq_false_2 by apply vo_type, Hv. done. Qed.

Lemma text_to_token_ok t : text_to_token v t = Ok (default LLAMA_TOKEN_NULL (v_token_to_id v !! t)).
Proof using Hv. unfold text_to_token. by rewrite not_none_ok. Qed.

Lemma text_to_token_Some t id : v_token_to_id v !! t = Some id → text_to_token v t = Ok id.
Proof using Hv. intros H. by rewrite text_to_token_ok, H. Qed.

Lemma text_to_token_None t : v_token_to_id v !! t = None → text_to_token v t = Ok LLAMA_TOKEN_NULL.
Proof using Hv. intros H. by rewrite text_to_token_ok, H. Qed.

Lemma token_id_range t id : v_token_to_id v !! t = Some id →
  0 ≤ id < n_tokens v ∧ u32 id = id ∧ id ≠ LLAMA_TOKEN_NULL ∧
  ∃ d, v_id_to_token v !! Z.to_nat id = Some d ∧ td_text d = t.
Proof using Hv.
  intros Hid. destruct (vo_id _ Hv t id Hid) as [Hpos Hd]. apply fmap_Some in Hd as (d & Hd & ->).
  pose proof (lookup_lt_Some _ _ _ Hd). pose proof (vo_size _ Hv). unfold n_tokens. rewrite u32_small by lia.
  rewrite u32_small by lia. unfold LLAMA_TOKEN_NULL. split_and!; [lia|lia|done|lia|eauto].
Qed.

Lemma get_token_data_ok t id d : v_token_to_id v !! t = Some id → v_id_to_token v !! Z.to_nat id = Some d →
  get_token_data v id = Ok d.
Proof using Hv.
  intros Hid Hd. destruct (vo_id _ Hv t id Hid) as [Hpos _]. unfold get_token_data, at_id.
  rewrite not_none_ok. cbn [mbind res_bind]. by rewrite (proj2 (Z.ltb_ge _ _)), Hd.
Qed.
End queries.

(** ** Vocabularies for runs *)

(** The vocabulary of a model file with the tokens [ts] and the merges [ranks]. *)
Definition vocab_of (ty : llama_vocab_type) (ts : list file_token) (ranks : gmap (bytes * bytes) Z) : llama_vocab :=
  match load_tokens ts with
  | Ok (ds, m, longest) =>
      mk_vocab ty 0 longest 1 2 0 (-1) false false false false false true m ds [] [] ranks
  | Err _ => mk_vocab ty 0 0 1 2 0 (-1) false false false false false true ∅ [] [] [] ranks
  end.

Lemma vocab_of_ok ty ts ranks : ty ≠ LLAMA_VOCAB_TYPE_NONE → Z.of_nat (length ts) < 2 ^ 31 →
  vocab_ok (vocab_of ty ts ranks).
Proof.
  intros Hty Hlen. unfold vocab_of. destruct (load_tokens ts) as [[[ds m] longest]|] eqn:Hl.
  - destruct (load_tokens_inverse _ _ _ _ Hl) as [H1 H2]. split; cbn; [done|by intros; apply H2| |done].
    unfold load_tokens in Hl. inv_res. by rewrite length_imap.
  - split; cbn; [by intros ? ?; rewrite lookup_empty|done|lia|done].
Qed.

(** ** Searching *)

Definition occurs (pat s : bytes) : Prop := ∃ a b, s = a ++ pat ++ b.

Definition occurs_at (pat s : bytes) (p : nat) : Prop := (p + length pat ≤ length s)%nat ∧ take (length pat) (drop p s) = pat.

Lemma occurs_at_iff pat s : occurs pat s ↔ ∃ p, occurs_at pat s p.
Proof.
  split.
  - intros (a & b & ->). exists (length a). split; [rewrite !length_app; lia|]. by rewrite drop_app_length, take_app_length.
  - intros (p & Hp & Heq). exists (take p s), (drop (length pat) (drop p s)). rewrite <- Heq at 1.
    by rewrite take_drop, take_drop.
Qed.

Lemma find_from_spec fuel s pat : ∀ pos, (length s < fuel + pos)%nat →
  match find_from fuel s pat pos with
  | Some m => (pos ≤ m)%nat ∧ occurs_at pat s m ∧ ∀ p, (pos ≤ p < m)%nat → ¬ occurs_at pat s p
  | None => ∀ p, (pos ≤ p)%nat → ¬ occurs_at pat s p
  end.
Proof.
  induction fuel as [|fuel IH]; intros pos Hf; cbn [find_from].
  - intros p Hp [Hle _]. lia.
  - destruct (Nat.ltb_spec (length s) (pos + length pat)) as [Hlt|Hge]; [intros p Hp [Hle _]; lia|].
    destruct (bool_decide_reflect (take (length pat) (drop pos s) = pat)) as [Heq|Hne].
    + split_and!; [lia|by split|lia].
    + specialize (IH (S pos) ltac:(lia)). destruct (find_from fuel s pat (S pos)) as [m|].
      * destruct IH as (Hm & Hocc & Hno). split_and!; [lia|done|]. intros p Hp. destruct (decide (p = pos)) as [->|]; [by intros []|apply Hno; lia].
      * intros p Hp. destruct (decide (p = pos)) as [->|]; [by intros []|apply IH; lia].
Qed.

Lemma string_find_spec s pat pos :
  match string_find s pat pos with
  | Some m => (pos ≤ m)%nat ∧ occurs_at pat s m ∧ ∀ p, (pos ≤ p < m)%nat → ¬ occurs_at pat s p
  | None => ∀ p, (pos ≤ p)%nat → ¬ occurs_at pat s p
  end.
Proof. apply find_from_spec. lia. Qed.

(** *** Slices *)

Definition slice (s : bytes) (o l : nat) : bytes := take l (drop o s).

Lemma slice_length s o l : (o + l ≤ length s)%nat → length (slice s o l) = l.
Proof. intros H. unfold slice. rewrite length_take, length_drop. lia. Qed.

Lemma slice_split s o l k : (k ≤ l)%nat → slice s o l = slice s o k ++ slice s (o + k) (l - k).
Proof.
  intros Hk. unfold slice. rewrite <- (take_drop k (take l (drop o s))). rewrite take_take, Nat.min_l by done. f_equal.
  rewrite skipn_firstn_comm, drop_drop. f_equal.
Qed.

Lemma slice_occurs_at s pat o l p : (o + l ≤ length s)%nat →
  occurs_at pat (slice s o l) p ↔ (p + length pat ≤ l)%nat ∧ occurs_at pat s (o + p).
Proof.
  intros Hl. unfold occurs_at. rewrite slice_length by done. unfold slice. rewrite skipn_firstn_comm, drop_drop.
  split; intros [H1 H2]; rewrite take_take in *.
  - rewrite Nat.min_l in H2 by lia. split_and!; [lia|lia|done].
  - destruct H2 as [_ H2]. rewrite Nat.min_l by lia. done.
Qed.

Lemma take_occurs_at s pat n p : (n ≤ length s)%nat → occurs_at pat (take n s) p ↔ (p + length pat ≤ n)%nat ∧ occurs_at pat s p.
Proof. intros Hn. apply (slice_occurs_at s pat 0 n p). lia. Qed.

Lemma slice_occurs_sub s pat o l o' l' : (o + l ≤ length s)%nat → (o ≤ o')%nat → (o' + l' ≤ o + l)%nat →
  occurs pat (slice s o' l') → occurs pat (slice s o l).
Proof.
  intros Hl Ho Ho'. rewrite !occurs_at_iff. intros (p & Hp). rewrite slice_occurs_at in Hp by lia. destruct Hp as [Hp Hocc].
  exists (p + (o' - o))%nat. rewrite slice_occurs_at by done. split; [lia|]. by replace (o + (p + (o' - o)))%nat with (o' + p)%nat by lia.
Qed.
