(* ===== verification/Bigram.v ===== *)
(** * Merging pairs of symbols (src/llama-vocab.cpp)

    The part that the SPM and the BPE sessions share: the doubly linked list of
    symbols, the splitting of a text into characters, the merge of two
    neighbours, the work queue, and a reference definition of what merging by
    priority computes, with the invariant that connects the two. *)
From S2P Require Import Prelude Vocab.

(** ** Symbols *)

(** [text] points into the buffer of the text: it is the offset there. *)
Record llm_symbol : Type := mk_symbol { sym_prev : Z; sym_next : Z; sym_text : nat; sym_n : nat }.

Definition with_sym_n (s : llm_symbol) (n : nat) : llm_symbol := mk_symbol s.(sym_prev) s.(sym_next) s.(sym_text) n.
Definition with_sym_next (s : llm_symbol) (next : Z) : llm_symbol := mk_symbol s.(sym_prev) next s.(sym_text) s.(sym_n).
Definition with_sym_prev (s : llm_symbol) (prev : Z) : llm_symbol := mk_symbol prev s.(sym_next) s.(sym_text) s.(sym_n).

(** [std::string(ptr, n)] of a pointer into [text]. *)
Definition sub_text (text : bytes) (off n : nat) : res bytes :=
  if (off + n <=? length text)%nat then Ok (take n (drop off text)) else Err Oob.

(** [symbols[i]] *)
Definition sym_at (symbols : list llm_symbol) (i : Z) : res llm_symbol := at_id Oob symbols i.
Definition put_sym (symbols : list llm_symbol) (i : Z) (s : llm_symbol) : res (list llm_symbol) :=
  if i <? 0 then Err Oob else put symbols (Z.to_nat i) s.

(** *** Splitting into characters *)

Definition unicode_len_utf8 (src : Z) : nat :=
  nth (Z.to_nat (Z.shiftr (u8 src) 4)) [1; 1; 1; 1; 1; 1; 1; 1; 1; 1; 1; 1; 2; 2; 3; 4]%nat 0%nat.

(** At most one round per byte. *)
Fixpoint split_loop (fuel : nat) (text : bytes) (offs : nat) (index : Z) (symbols : list llm_symbol)
    : res (list llm_symbol) :=
  if (offs <? length text)%nat then
    match fuel with
    | O => Err NoFuel
    | S fuel =>
        c ← at_ text offs;
        let n := Nat.min (unicode_len_utf8 c) (length text - offs) in
        let offs' := (offs + n)%nat in
        let sym := mk_symbol (i32 (index - 1)) (if (offs' =? length text)%nat then -1 else i32 (index + 1)) offs n in
        split_loop fuel text offs' (i32 (index + 1)) (symbols ++ [sym])
    end
  else Ok symbols.

Definition split_chars (text : bytes) : res (list llm_symbol) := split_loop (length text) text 0 0 [].

(** *** Merging two symbols *)

(** The right symbol is merged into the left one and taken out of the chain. *)
Definition merge_symbols (symbols : list llm_symbol) (left right : Z) : res (list llm_symbol) :=
  l ← sym_at symbols left;
  r ← sym_at symbols right;
  symbols ← put_sym symbols left (with_sym_n l (l.(sym_n) + r.(sym_n)));
  symbols ← put_sym symbols right (with_sym_n r 0);
  l ← sym_at symbols left;
  symbols ← put_sym symbols left (with_sym_next l r.(sym_next));
  if 0 <=? r.(sym_next) then
    x ← sym_at symbols r.(sym_next); put_sym symbols r.(sym_next) (with_sym_prev x left)
  else Ok symbols.

(** ** The work queue

    [std::priority_queue] for a comparison [less]: the queue is the list of its
    elements in some order; [top] and [pop] give an element that no other one is
    greater than. *)
Class PriorityQueue {E : Type} (less : E → E → bool) : Type := {
  pq_pop : list E → option (E * list E);
  pq_pop_nil (q : list E) : pq_pop q = None → q = [];
  pq_pop_max (q q' : list E) (e : E) : pq_pop q = Some (e, q') → q ≡ₚ e :: q' ∧ ∀ x, x ∈ q' → less e x = false;
}.

Definition pq_push {E} (q : list E) (e : E) : list E := q ++ [e].

(** The simplest priority queue: search a greatest element. *)
Section select.
Context {E : Type} (less : E → E → bool).
Context (less_irrefl : ∀ a, less a a = false).
Context (less_asym : ∀ a b, less a b = true → less b a = false).
Context (less_trans : ∀ a b c, less a b = false → less b c = false → less a c = false).

Fixpoint select_max (x : E) (ys : list E) : E * list E :=
  match ys with
  | [] => (x, [])
  | y :: ys => if less x y then let '(m, r) := select_max y ys in (m, x :: r)
               else let '(m, r) := select_max x ys in (m, y :: r)
  end.

Definition select_pop (q : list E) : option (E * list E) :=
  match q with [] => None | x :: ys => Some (select_max x ys) end.

Lemma select_max_spec ys : ∀ x m r, select_max x ys = (m, r) →
  x :: ys ≡ₚ m :: r ∧ less m x = false ∧ ∀ z, z ∈ r → less m z = false.
Proof using All.
  induction ys as [|y ys IH]; intros x m r; cbn [select_max].
  - intros [= <- <-]. split_and!; [done|done|by intros ? ?%elem_of_nil].
  - destruct (less x y) eqn:Hxy.
    + destruct (select_max y ys) as [m' r'] eqn:Hsel. intros [= <- <-]. destruct (IH y m' r' Hsel) as (Hp & Hm & Hr).
      assert (less m' x = false) as Hmx by (eapply less_trans; [exact Hm|by apply less_asym]).
      split_and!; [rewrite Hp; apply perm_swap|done|]. intros z [->|Hz]%elem_of_cons; [done|by apply Hr].
    + destruct (select_max x ys) as [m' r'] eqn:Hsel. intros [= <- <-]. destruct (IH x m' r' Hsel) as (Hp & Hm & Hr).
      split_and!; [|done|].
      * etrans; [apply perm_swap|]. rewrite Hp. apply perm_swap.
      * intros z [->|Hz]%elem_of_cons; [by eapply less_trans|by apply Hr].
Qed.

Definition select_queue : PriorityQueue less.
Proof using All.
  refine {| pq_pop := select_pop |}.
  - by intros [|x ys].
  - intros [|x ys] q' e; [done|]. cbn. intros [= Hsel]. by apply select_max_spec in Hsel as (? & _ & ?).
Defined.
End select.

(** ** Reference: merging by priority *)

Section reference.
Context (key : bytes → bytes → option Z).

(** The leftmost adjacent pair of greatest priority. *)
Fixpoint best_pair (k : nat) (ws : list bytes) (best : option (Z * nat)) : option (Z * nat) :=
  match ws with
  | w1 :: ((w2 :: _) as ws') =>
      best_pair (S k) ws'
        (match key w1 w2, best with
         | Some p, Some (q, _) => if q <? p then Some (p, k) else best
         | Some p, None => Some (p, k)
         | None, _ => best
         end)
  | _ => best
  end.

Fixpoint merge_at (k : nat) (ws : list bytes) : list bytes :=
  match k, ws with
  | O, w1 :: w2 :: ws => (w1 ++ w2) :: ws
  | S k, w :: ws => w :: merge_at k ws
  | _, _ => ws
  end.

(** Merge the best pair until no pair can be merged. *)
Fixpoint merge_greedily (fuel : nat) (ws : list bytes) : list bytes :=
  match fuel with
  | O => ws
  | S fuel =>
      match best_pair 0 ws None with
      | Some (_, k) => merge_greedily fuel (merge_at k ws)
      | None => ws
      end
  end.
End reference.

(** The characters of a text. *)
Fixpoint chars_loop (fuel : nat) (text : bytes) : list bytes :=
  match fuel, text with
  | S fuel, c :: _ => take (unicode_len_utf8 c) text :: chars_loop fuel (drop (unicode_len_utf8 c) text)
  | _, _ => []
  end.

Definition chars (text : bytes) : list bytes := chars_loop (length text) text.

(** Segmentation of a text by greedy merging. *)
Definition segments (key : bytes → bytes → option Z) (text : bytes) : list bytes :=
  merge_greedily key (length (chars text)) (chars text).

(** ** The chain of symbols

    [cs] lists the symbols that were not merged away, by index and text. *)

Definition sym_word (text : bytes) (s : llm_symbol) : bytes := take (sym_n s) (drop (sym_text s) text).

Abbreviation links := (list (nat * bytes)).

Definition idx_at (cs : links) (k : nat) : Z := match cs !! k with Some (i, _) => Z.of_nat i | None => -1 end.
Definition idx_before (cs : links) (k : nat) : Z := match k with O => -1 | S k => idx_at cs k end.
Definition offset (cs : links) (k : nat) : nat := length (concat (take k cs.*2)).

Record chain_ok (text : bytes) (syms : list llm_symbol) (cs : links) : Prop := {
  co_text   : concat cs.*2 = text;
  co_at     : ∀ k i w, cs !! k = Some (i, w) →
    w ≠ [] ∧ syms !! i = Some (mk_symbol (idx_before cs k) (idx_at cs (S k)) (offset cs k) (length w));
  co_sorted : ∀ j k i i' w w', (j < k)%nat → cs !! j = Some (i, w) → cs !! k = Some (i', w') → (i < i')%nat;
  co_dead   : ∀ i s, syms !! i = Some s → sym_n s ≠ 0%nat → ∃ k w, cs !! k = Some (i, w);
  co_first  : ∀ i w, cs !! 0%nat = Some (i, w) → i = 0%nat;
}.

Lemma concat_take_drop (ws : list bytes) k w :
  ws !! k = Some w → take (length w) (drop (length (concat (take k ws))) (concat ws)) = w.
Proof.
  intros Hk. rewrite <- (take_drop_middle ws k w Hk) at 2.
  rewrite concat_app, drop_app_length. cbn. by rewrite take_app_length.
Qed.

Lemma offset_S (cs : links) k i w : cs !! k = Some (i, w) → offset cs (S k) = (offset cs k + length w)%nat.
Proof.
  intros Hk. unfold offset. rewrite (take_S_r _ _ w) by (by rewrite list_lookup_fmap, Hk).
  rewrite concat_app, length_app. cbn. by rewrite app_nil_r.
Qed.

Section chain.
Context (text : bytes) (syms : list llm_symbol) (cs : links) (Hcs : chain_ok text syms cs).

Lemma chain_word k i w s : cs !! k = Some (i, w) → syms !! i = Some s → sym_word text s = w ∧ sym_n s = length w ∧ w ≠ [].
Proof.
  intros Hk Hs. destruct (co_at _ _ _ Hcs k i w Hk) as [Hw Hi]. rewrite Hs in Hi. simplify_eq/=.
  split_and!; [|done|done]. unfold sym_word, offset. cbn. rewrite <- (co_text _ _ _ Hcs).
  apply concat_take_drop. by rewrite list_lookup_fmap, Hk.
Qed.

Lemma chain_fits k i w : cs !! k = Some (i, w) → (offset cs k + length w ≤ length text)%nat.
Proof.
  intros Hk. rewrite <- (co_text _ _ _ Hcs). unfold offset.
  rewrite <- (take_drop_middle cs.*2 k w) at 2 by (by rewrite list_lookup_fmap, Hk).
  rewrite concat_app, length_app. cbn. rewrite length_app. lia.
Qed.

Lemma chain_sub_text k i w s : cs !! k = Some (i, w) → syms !! i = Some s →
  sub_text text (sym_text s) (sym_n s) = Ok w.
Proof.
  intros Hk Hs. destruct (chain_word k i w s Hk Hs) as (Hw & Hn & _). pose proof (chain_fits k i w Hk).
  destruct (co_at _ _ _ Hcs k i w Hk) as [_ Hi]. rewrite Hs in Hi. injection Hi as ->. cbn.
  unfold sub_text. rewrite (proj2 (Nat.leb_le _ _)) by done. by f_equal.
Qed.

Lemma chain_index_inj j k i w w' : cs !! j = Some (i, w) → cs !! k = Some (i, w') → j = k.
Proof.
  intros Hj Hk. destruct (Nat.lt_trichotomy j k) as [H|[H|H]]; [|done|].
  - pose proof (co_sorted _ _ _ Hcs j k i i w w' H Hj Hk). lia.
  - pose proof (co_sorted _ _ _ Hcs k j i i w' w H Hk Hj). lia.
Qed.

(** A living symbol and the one it points to are neighbours of the chain. *)
Lemma chain_next i s j : syms !! i = Some s → sym_n s ≠ 0%nat → sym_next s = Z.of_nat j →
  ∃ k w w', cs !! k = Some (i, w) ∧ cs !! S k = Some (j, w') ∧ sym_word text s = w.
Proof.
  intros Hs Hn Hj. destruct (co_dead _ _ _ Hcs i s Hs Hn) as (k & w & Hk).
  destruct (co_at _ _ _ Hcs k i w Hk) as [_ Hi]. rewrite Hs in Hi. injection Hi as ->. cbn in Hj.
  unfold idx_at in Hj. destruct (cs !! S k) as [[j' w']|] eqn:Hk'; [|lia].
  assert (j' = j) as -> by lia. exists k, w, w'. split_and!; [done|done|]. by eapply chain_word.
Qed.
End chain.

(** *** A merge *)

Lemma sym_at_nat syms (i : nat) s : syms !! i = Some s → sym_at syms (Z.of_nat i) = Ok s.
Proof.
  intros Hi. unfold sym_at, at_id. rewrite (proj2 (Z.ltb_ge _ _)) by lia. by rewrite Nat2Z.id, Hi.
Qed.

Lemma put_sym_nat syms (i : nat) s : (i < length syms)%nat → put_sym syms (Z.of_nat i) s = Ok (<[i := s]> syms).
Proof.
  intros Hi. unfold put_sym. rewrite (proj2 (Z.ltb_ge _ _)) by lia. rewrite Nat2Z.id. by apply put_lt.
Qed.

Lemma merge_symbols_spec syms (l r : nat) sl sr : l ≠ r → syms !! l = Some sl → syms !! r = Some sr →
  (∀ x : nat, sym_next sr = Z.of_nat x → is_Some (syms !! x) ∧ x ≠ l ∧ x ≠ r) → sym_next sr = -1 ∨ 0 ≤ sym_next sr →
  ∃ syms', merge_symbols syms (Z.of_nat l) (Z.of_nat r) = Ok syms' ∧ length syms' = length syms ∧
    syms' !! l = Some (mk_symbol (sym_prev sl) (sym_next sr) (sym_text sl) (sym_n sl + sym_n sr)) ∧
    syms' !! r = Some (with_sym_n sr 0) ∧
    ∀ i s, i ≠ l → i ≠ r → syms !! i = Some s →
      syms' !! i = Some (if decide (Z.of_nat i = sym_next sr) then with_sym_prev s (Z.of_nat l) else s).
Proof.
  intros Hne Hl Hr Hx Hnext.
  pose proof (lookup_lt_Some _ _ _ Hl). pose proof (lookup_lt_Some _ _ _ Hr).
  unfold merge_symbols. rewrite (sym_at_nat _ _ _ Hl), (sym_at_nat _ _ _ Hr). cbn [mbind res_bind].
  rewrite put_sym_nat by done. cbn [mbind res_bind]. rewrite put_sym_nat by (by rewrite length_insert).
  cbn [mbind res_bind].
  erewrite sym_at_nat by (rewrite list_lookup_insert_ne by done; by rewrite list_lookup_insert_eq).
  cbn [mbind res_bind]. rewrite put_sym_nat by (by rewrite !length_insert). cbn [mbind res_bind].
  set (s1 := <[l := _]> (<[r := _]> (<[l := _]> syms))).
  assert (length s1 = length syms) as Hlen by (unfold s1; by rewrite !length_insert).
  assert (s1 !! l = Some (mk_symbol (sym_prev sl) (sym_next sr) (sym_text sl) (sym_n sl + sym_n sr))) as H1.
  { unfold s1. by rewrite list_lookup_insert_eq by (by rewrite !length_insert). }
  assert (s1 !! r = Some (with_sym_n sr 0)) as H2.
  { unfold s1. by rewrite list_lookup_insert_ne, list_lookup_insert_eq by (done || by rewrite !length_insert). }
  assert (∀ i, i ≠ l → i ≠ r → s1 !! i = syms !! i) as H3.
  { intros i ? ?. unfold s1. by rewrite !list_lookup_insert_ne by done. }
  destruct Hnext as [Hnext|Hnext].
  - rewrite Hnext. cbn. exists s1. rewrite Hnext in *. split_and!; [done..|]. intros i s ? ? Hi.
    rewrite decide_False by lia. by rewrite H3.
  - rewrite (proj2 (Z.leb_le _ _)) by done. destruct (Z_of_nat_complete _ Hnext) as [x Hxe].
    destruct (Hx x Hxe) as ([sx Hsx] & Hxl & Hxr). rewrite Hxe in *.
    rewrite (sym_at_nat s1 x sx) by (by rewrite H3). cbn [mbind res_bind].
    rewrite put_sym_nat by (rewrite Hlen; by eapply lookup_lt_Some).
    eexists. split; [done|]. split_and!; [by rewrite length_insert|by rewrite list_lookup_insert_ne|by rewrite list_lookup_insert_ne|].
    intros i s ? ? Hi. destruct (decide (Z.of_nat i = Z.of_nat x)) as [He|He].
    + assert (i = x) as -> by lia. rewrite list_lookup_insert_eq by (rewrite Hlen; by eapply lookup_lt_Some). congruence.
    + rewrite list_lookup_insert_ne by lia. by rewrite H3.
Qed.

Fixpoint merge_links (k : nat) (cs : links) : links :=
  match k, cs with
  | O, c1 :: c2 :: cs => (c1.1, c1.2 ++ c2.2) :: cs
  | S k, c :: cs => c :: merge_links k cs
  | _, _ => cs
  end.

Lemma merge_links_words k : ∀ cs, (merge_links k cs).*2 = merge_at k cs.*2.
Proof. induction k as [|k IH]; intros [|c1 [|c2 cs]]; cbn; try done; [by rewrite IH|]. by rewrite IH. Qed.

Lemma merge_links_lookup k : ∀ cs l wl r wr j, cs !! k = Some (l, wl) → cs !! S k = Some (r, wr) →
  merge_links k cs !! j =
    if decide (j < k)%nat then cs !! j else if decide (j = k) then Some (l, wl ++ wr) else cs !! S j.
Proof.
  induction k as [|k IH]; intros [|c cs] l wl r wr j Hl Hr; try done.
  - destruct cs as [|c2 cs]; [done|]. cbn in *. simplify_eq. rewrite decide_False by lia. by destruct j.
  - cbn in Hl. destruct j as [|j]; [done|]. change (merge_links (S k) (c :: cs) !! S j) with (merge_links k cs !! j).
    rewrite (IH cs l wl r wr j Hl Hr). repeat case_decide; try lia; done.
Qed.

Lemma merge_at_offset k (ws : list bytes) wl wr j : ws !! k = Some wl → ws !! S k = Some wr →
  length (concat (take j (merge_at k ws))) =
    length (concat (take (if decide (j ≤ k)%nat then j else S j) ws)).
Proof.
  revert ws j. induction k as [|k IH]; intros [|w ws] j Hl Hr; try done.
  - destruct ws as [|w2 ws]; [done|]. destruct j as [|j]; [done|]. rewrite decide_False by lia.
    cbn. by rewrite app_assoc.
  - destruct j as [|j]; [done|]. cbn [merge_at take concat]. rewrite length_app, (IH ws j Hl Hr).
    repeat case_decide; try lia; cbn; by rewrite length_app.
Qed.

Lemma merge_at_concat k : ∀ ws : list bytes, concat (merge_at k ws) = concat ws.
Proof.
  induction k as [|k IH]; intros [|w1 ws]; try done; cbn.
  - destruct ws; [done|]. cbn. by rewrite app_assoc.
  - by rewrite IH.
Qed.

Lemma merge_at_length k : ∀ (ws : list bytes), (S k < length ws)%nat → length (merge_at k ws) = (length ws - 1)%nat.
Proof.
  induction k as [|k IH]; intros [|w1 ws] H; cbn in *; try lia.
  - destruct ws; cbn in *; lia.
  - rewrite IH by lia. lia.
Qed.

Lemma merge_links_offset k cs l wl r wr j : cs !! k = Some (l, wl) → cs !! S k = Some (r, wr) →
  offset (merge_links k cs) j = offset cs (if decide (j ≤ k)%nat then j else S j).
Proof.
  intros Hl Hr. unfold offset. rewrite merge_links_words. eapply (merge_at_offset k _ wl wr).
  - by rewrite list_lookup_fmap, Hl.
  - by rewrite list_lookup_fmap, Hr.
Qed.

(** *** Merging neighbours keeps the chain *)
Section merge_step.
Context (text : bytes) (syms : list llm_symbol) (cs : links) (Hcs : chain_ok text syms cs).
Context (k l r : nat) (wl wr : bytes) (Hl : cs !! k = Some (l, wl)) (Hr : cs !! S k = Some (r, wr)).

Lemma merge_idx j : idx_at (merge_links k cs) j = idx_at cs (if decide (j ≤ k)%nat then j else S j).
Proof using Hl Hr.
  unfold idx_at. rewrite (merge_links_lookup k cs l wl r wr j Hl Hr).
  repeat case_decide; try lia; try done. subst. by rewrite Hl.
Qed.

(** What the merge does to the symbols. *)
Record merged (syms' : list llm_symbol) : Prop := {
  mg_run    : merge_symbols syms (Z.of_nat l) (Z.of_nat r) = Ok syms';
  mg_length : length syms' = length syms;
  mg_left   : ∃ s, syms' !! l = Some s ∧ sym_n s = (length wl + length wr)%nat ∧ sym_prev s = idx_before cs k ∧
    sym_next s = idx_at cs (S (S k));
  mg_right  : ∃ s, syms' !! r = Some s ∧ sym_n s = 0%nat;
  mg_other  : ∀ i s, i ≠ l → i ≠ r → syms !! i = Some s → ∃ s', syms' !! i = Some s' ∧
    sym_n s' = sym_n s ∧ sym_next s' = sym_next s ∧ sym_text s' = sym_text s;
}.

Lemma merge_chain : ∃ syms', merged syms' ∧ chain_ok text syms' (merge_links k cs).
Proof using Hcs Hl Hr.
  pose proof (co_sorted _ _ _ Hcs k (S k) l r wl wr ltac:(lia) Hl Hr) as Hlr.
  destruct (co_at _ _ _ Hcs k l wl Hl) as [Hwl Hsl]. destruct (co_at _ _ _ Hcs (S k) r wr Hr) as [Hwr Hsr].
  destruct (merge_symbols_spec syms l r _ _ ltac:(lia) Hsl Hsr) as (syms' & Hrun & Hlen & H1 & H2 & H3); cbn [sym_next] in *.
  { intros x. unfold idx_at. destruct (cs !! S (S k)) as [[j w]|] eqn:Hj; [|lia]. intros Hx. assert (j = x) as -> by lia.
    destruct (co_at _ _ _ Hcs (S (S k)) x w Hj) as [_ ?].
    pose proof (co_sorted _ _ _ Hcs (S k) (S (S k)) r x wr w ltac:(lia) Hr Hj). split_and!; [eauto|lia|lia]. }
  { unfold idx_at. destruct (cs !! S (S k)) as [[]|]; lia. }
  exists syms'. split.
  - split; [done|done| | |].
    + eexists. split; [exact H1|]. cbn. done.
    + eexists. split; [exact H2|]. done.
    + intros i s ? ? Hi. eexists. split; [by apply H3|]. by case_decide.
  - split.
    + rewrite merge_links_words, merge_at_concat. apply (co_text _ _ _ Hcs).
    + intros j i w Hj. rewrite (merge_links_offset k cs l wl r wr j Hl Hr), merge_idx.
      replace (idx_before (merge_links k cs) j) with
        (match j with O => -1 | S j' => idx_at cs (if decide (j' ≤ k)%nat then j' else S j') end)
        by (destruct j; [done|cbn [idx_before]; by rewrite merge_idx]).
      rewrite (merge_links_lookup k cs l wl r wr j Hl Hr) in Hj. destruct (decide (j < k)%nat) as [Hjk|Hjk].
      * destruct (co_at _ _ _ Hcs j i w Hj) as [Hw Hi]. split; [done|].
        pose proof (co_sorted _ _ _ Hcs j k i l w wl Hjk Hj Hl).
        rewrite (H3 i _ ltac:(lia) ltac:(lia) Hi). rewrite !(decide_True (P := (_ ≤ k)%nat)) by lia.
        rewrite decide_False.
        -- f_equal. f_equal. destruct j; [done|]. by rewrite decide_True by lia.
        -- unfold idx_at. destruct (cs !! S (S k)) as [[i2 w2]|] eqn:Hi2; [|lia].
           pose proof (co_sorted _ _ _ Hcs j (S (S k)) i i2 w w2 ltac:(lia) Hj Hi2). lia.
      * destruct (decide (j = k)) as [->|Hne].
        -- simplify_eq. split; [by destruct wl|]. rewrite H1, (decide_True (P := (k ≤ k)%nat)), decide_False, length_app by lia.
           f_equal. f_equal. destruct k; [done|]. by rewrite decide_True by lia.
        -- destruct (co_at _ _ _ Hcs (S j) i w Hj) as [Hw Hi]. split; [done|].
           pose proof (co_sorted _ _ _ Hcs (S k) (S j) r i wr w ltac:(lia) Hr Hj).
           rewrite (H3 i _ ltac:(lia) ltac:(lia) Hi). rewrite !(decide_False (P := (_ ≤ k)%nat)) by lia.
           destruct j as [|j]; [lia|]. destruct (decide (j ≤ k)%nat) as [Hj'|Hj'].
           ++ assert (j = k) as -> by lia. rewrite decide_True by (unfold idx_at; by rewrite Hj).
              unfold with_sym_prev. cbn. unfold idx_at. by rewrite Hl.
           ++ rewrite decide_False; [done|]. unfold idx_at. destruct (cs !! S (S k)) as [[i2 w2]|] eqn:Hi2; [|lia].
              pose proof (co_sorted _ _ _ Hcs (S (S k)) (S (S j)) i2 i w2 w ltac:(lia) Hi2 Hj). lia.
    + intros j j' i i' w w' Hjj. rewrite !(merge_links_lookup k cs l wl r wr _ Hl Hr).
      intros Hi Hi'. destruct (decide (j < k)%nat); destruct (decide (j' < k)%nat); try lia.
      * by eapply (co_sorted _ _ _ Hcs j j').
      * destruct (decide (j' = k)); [simplify_eq; by eapply (co_sorted _ _ _ Hcs j k)|].
        by eapply (co_sorted _ _ _ Hcs j (S j')); [lia|..].
      * rewrite decide_False in Hi' by lia. destruct (decide (j = k)); simplify_eq.
        -- by eapply (co_sorted _ _ _ Hcs k (S j')); [lia|..].
        -- by eapply (co_sorted _ _ _ Hcs (S j) (S j')); [lia|..].
    + intros i s Hi Hn. destruct (decide (i = l)) as [->|Hil].
      { exists k. rewrite (merge_links_lookup k cs l wl r wr _ Hl Hr), decide_False, decide_True by lia. eauto. }
      destruct (decide (i = r)) as [->|Hir]; [rewrite H2 in Hi; by simplify_eq|].
      destruct (lookup_lt_is_Some_2 syms i) as [s0 Hs0]; [rewrite <- Hlen; by eapply lookup_lt_Some|].
      rewrite (H3 i s0 Hil Hir Hs0) in Hi. assert (sym_n s0 ≠ 0%nat) as Hn0 by (destruct (decide _); by simplify_eq).
      destruct (co_dead _ _ _ Hcs i s0 Hs0 Hn0) as (j & w & Hj). destruct (decide (j < k)%nat) as [Hjk|Hjk].
      * exists j, w. by rewrite (merge_links_lookup k cs l wl r wr _ Hl Hr), decide_True.
      * destruct (decide (j = k)) as [->|]; [congruence|]. destruct (decide (j = S k)) as [->|]; [congruence|].
        destruct j as [|j]; [lia|]. exists j, w.
        by rewrite (merge_links_lookup k cs l wl r wr _ Hl Hr), !decide_False by lia.
    + intros i w. rewrite (merge_links_lookup k cs l wl r wr _ Hl Hr). destruct k as [|k'].
      * rewrite decide_False, decide_True by lia. intros [= <- _]. by eapply (co_first _ _ _ Hcs).
      * rewrite decide_True by lia. apply (co_first _ _ _ Hcs).
Qed.
End merge_step.

(** ** The best pair *)
Section best.
Context (key : bytes → bytes → option Z).

(** [k] is the position of a pair that can be merged, with priority [p]. *)
Definition mergeable (ws : list bytes) (k : nat) (p : Z) : Prop :=
  ∃ w1 w2, ws !! k = Some w1 ∧ ws !! S k = Some w2 ∧ key w1 w2 = Some p.

Lemma mergeable_S w ws k p : mergeable (w :: ws) (S k) p ↔ mergeable ws k p.
Proof. done. Qed.

Lemma mergeable_0 w1 w2 ws p : mergeable (w1 :: w2 :: ws) 0 p ↔ key w1 w2 = Some p.
Proof. split; [by intros (? & ? & [= <-] & [= <-] & ?)|]. by exists w1, w2. Qed.

Lemma best_pair_cons w1 w2 ws k best :
  best_pair key k (w1 :: w2 :: ws) best =
    best_pair key (S k) (w2 :: ws)
      (match key w1 w2, best with
       | Some p, Some (q, _) => if q <? p then Some (p, k) else best
       | Some p, None => Some (p, k)
       | None, _ => best
       end).
Proof. done. Qed.

Lemma best_pair_keep ws : ∀ k0 q i, (∀ k p, mergeable ws k p → p ≤ q) →
  best_pair key k0 ws (Some (q, i)) = Some (q, i).
Proof.
  induction ws as [|w1 [|w2 ws] IH]; intros k0 q i Hq; [done..|]. rewrite best_pair_cons.
  destruct (key w1 w2) as [p|] eqn:Hp.
  - rewrite (proj2 (Z.ltb_ge _ _)) by (apply (Hq 0%nat), mergeable_0, Hp). apply IH. intros k p'. apply (Hq (S k)).
  - apply IH. intros k p'. apply (Hq (S k)).
Qed.

Lemma best_pair_none ws : ∀ k0, (∀ k p, ¬ mergeable ws k p) → best_pair key k0 ws None = None.
Proof.
  induction ws as [|w1 [|w2 ws] IH]; intros k0 Hn; [done..|]. rewrite best_pair_cons.
  destruct (key w1 w2) as [p|] eqn:Hp; [by edestruct (Hn 0%nat p); apply mergeable_0|].
  apply IH. intros k p'. apply (Hn (S k)).
Qed.

Lemma best_pair_found k : ∀ ws k0 p best, mergeable ws k p →
  (∀ k' p', mergeable ws k' p' → p' < p ∨ p' = p ∧ (k ≤ k')%nat) → (∀ q i, best = Some (q, i) → q < p) →
  best_pair key k0 ws best = Some (p, (k0 + k)%nat).
Proof.
  induction k as [|k IH]; intros ws k0 p best Hm Hmax Hb.
  - destruct Hm as (w1 & w2 & H1 & H2 & Hp). destruct ws as [|w [|w' ws]]; try done. cbn in H1, H2. simplify_eq.
    rewrite best_pair_cons. rewrite Hp.
    replace (match best with Some (q, _) => if q <? p then Some (p, k0) else best | None => Some (p, k0) end)
      with (Some (p, k0)).
    + rewrite Nat.add_0_r. apply best_pair_keep. intros k p' Hk. destruct (Hmax (S k) p'); [done|lia..].
    + destruct best as [[q i]|]; [|done]. by rewrite (proj2 (Z.ltb_lt _ _)) by by eapply Hb.
  - destruct ws as [|w1 [|w2 ws]]; [by destruct Hm as (? & ? & ? & ? & ?)..|].
    rewrite best_pair_cons. rewrite Nat.add_succ_r. rewrite <- Nat.add_succ_l. apply IH.
    + done.
    + intros k' p' Hk. destruct (Hmax (S k') p'); [done|by left|right; lia].
    + intros q i. destruct (key w1 w2) as [p1|] eqn:Hp1; [|apply Hb].
      assert (p1 < p) as Hlt by (destruct (Hmax 0%nat p1) as [|[]]; [by apply mergeable_0|done|lia]).
      destruct best as [[q' i']|]; [|by intros [= <- <-]].
      destruct (Z.ltb_spec q' p1); [by intros [= <- <-]|apply Hb].
Qed.
End best.

(** ** Greedy merging *)

Lemma merge_at_length_le k : ∀ ws : list bytes, (length (merge_at k ws) ≤ length ws)%nat.
Proof.
  induction k as [|k IH]; intros [|w1 ws]; cbn; [lia| |lia|by apply le_n_S].
  destruct ws; cbn; lia.
Qed.

Lemma merge_greedily_length key fuel : ∀ ws, (length (merge_greedily key fuel ws) ≤ length ws)%nat.
Proof.
  induction fuel as [|fuel IH]; intros ws; cbn [merge_greedily]; [lia|].
  destruct (best_pair key 0 ws None) as [[p k]|]; [|lia]. etrans; [apply IH|apply merge_at_length_le].
Qed.

Lemma merge_greedily_none key m ws : best_pair key 0 ws None = None → merge_greedily key m ws = ws.
Proof. destruct m; [done|]. cbn. by intros ->. Qed.

Lemma merge_greedily_S key m cs k p : best_pair key 0 cs.*2 None = Some (p, k) →
  merge_greedily key (S m) cs.*2 = merge_greedily key m (merge_links k cs).*2.
Proof. intros Hb. rewrite merge_links_words. cbn [merge_greedily]. by rewrite Hb. Qed.

Lemma merge_links_length k cs : (S k < length cs)%nat → length (merge_links k cs) = (length cs - 1)%nat.
Proof.
  intros Hk. rewrite <- (length_fmap snd), merge_links_words, merge_at_length by (by rewrite length_fmap).
  by rewrite length_fmap.
Qed.

(** ** The invariant of the work queue

    [describes e l r p sl sr]: the entry [e] was made for the symbols [l] and
    [r], when their texts were [sl] and [sr], with priority [p]. *)
Section queue.
Context (key : bytes → bytes → option Z) (text : bytes).
Context {E : Type} (describes : E → nat → nat → Z → bytes → bytes → Prop).
Context (describes_inj : ∀ e l r p sl sr l' r' p' sl' sr',
  describes e l r p sl sr → describes e l' r' p' sl' sr' → l = l').

(** As long as both symbols are alive, they are neighbours, the left one has the
    same text and the right one has only grown. *)
Record entry_ok (syms : list llm_symbol) (l r : nat) (p : Z) (sl sr : bytes) : Prop := {
  en_key   : key sl sr = Some p;
  en_ne    : sl ≠ [] ∧ sr ≠ [];
  en_left  : (l < length syms)%nat;
  en_right : (r < length syms)%nat;
  en_alive : ∀ s s', syms !! l = Some s → syms !! r = Some s' → sym_n s ≠ 0%nat → sym_n s' ≠ 0%nat →
    sym_next s = Z.of_nat r ∧ sym_word text s = sl ∧ sr `prefix_of` sym_word text s';
}.

Record queue_ok (syms : list llm_symbol) (cs : links) (q : list E) : Prop := {
  qo_entry : ∀ e, e ∈ q → ∃ l r p sl sr, describes e l r p sl sr ∧ entry_ok syms l r p sl sr;
  qo_cover : ∀ k l r wl wr p, cs !! k = Some (l, wl) → cs !! S k = Some (r, wr) → key wl wr = Some p →
    ∃ e, e ∈ q ∧ describes e l r p wl wr;
}.

(** An entry whose symbols are alive and have the size of its texts is the pair
    of two neighbours. *)
Lemma entry_live syms cs l r p sl sr s s' : chain_ok text syms cs → entry_ok syms l r p sl sr →
  syms !! l = Some s → syms !! r = Some s' → sym_n s ≠ 0%nat → sym_n s' ≠ 0%nat →
  (sym_n s + sym_n s' = length sl + length sr)%nat →
  ∃ k, cs !! k = Some (l, sl) ∧ cs !! S k = Some (r, sr).
Proof.
  intros Hcs He Hs Hs' Hn Hn' Hsize. destruct (en_alive _ _ _ _ _ _ He s s' Hs Hs' Hn Hn') as (Hnext & Hw & [x Hx]).
  destruct (chain_next text syms cs Hcs l s r Hs Hn Hnext) as (k & w & w' & Hk & Hk' & Hww).
  destruct (chain_word text syms cs Hcs k l w s Hk Hs) as (_ & Hl & _).
  destruct (chain_word text syms cs Hcs (S k) r w' s' Hk' Hs') as (Hw' & Hl' & _).
  exists k. split; [congruence|]. rewrite Hk'. do 2 f_equal. rewrite Hw' in Hx.
  assert (w = sl) as -> by congruence. rewrite Hl, Hl' in Hsize. rewrite Hx, length_app in Hsize.
  destruct x; [|cbn in Hsize; lia]. by rewrite app_nil_r in Hx.
Qed.

(** And conversely. *)
Lemma live_entry syms cs k l r sl sr : chain_ok text syms cs → cs !! k = Some (l, sl) → cs !! S k = Some (r, sr) →
  ∃ s s', syms !! l = Some s ∧ syms !! r = Some s' ∧ sym_n s = length sl ∧ sym_n s' = length sr ∧
    sl ≠ [] ∧ sr ≠ [] ∧ sub_text text (sym_text s) (sym_n s) = Ok sl ∧ sub_text text (sym_text s') (sym_n s') = Ok sr ∧
    sub_text text (sym_text s) (sym_n s + sym_n s') = Ok (sl ++ sr).
Proof.
  intros Hcs Hl Hr. destruct (co_at _ _ _ Hcs k l sl Hl) as [Hnl Hsl]. destruct (co_at _ _ _ Hcs (S k) r sr Hr) as [Hnr Hsr].
  eexists _, _. split_and!; [exact Hsl|exact Hsr|done|done|done|done| | |].
  - by eapply (chain_sub_text text syms cs Hcs k l).
  - by eapply (chain_sub_text text syms cs Hcs (S k) r).
  - pose proof (chain_fits text syms cs Hcs (S k) r sr Hr) as Hfit. pose proof (offset_S cs k l sl Hl) as Hoff.
    unfold sub_text. cbn [sym_n sym_text]. rewrite (proj2 (Nat.leb_le _ _)) by lia. f_equal.
    rewrite <- (co_text _ _ _ Hcs). unfold offset.
    assert (cs.*2 !! k = Some sl) as Hl2 by (by rewrite list_lookup_fmap, Hl).
    assert (cs.*2 !! S k = Some sr) as Hr2 by (by rewrite list_lookup_fmap, Hr).
    rewrite <- (take_drop_middle cs.*2 k sl Hl2) at 2. rewrite concat_app, drop_app_length.
    cbn [concat]. rewrite (drop_S _ _ _ Hr2). cbn [concat]. rewrite app_assoc, <- length_app. by rewrite take_app_length.
Qed.

Lemma fresh_entry syms cs k l r wl wr p : chain_ok text syms cs → cs !! k = Some (l, wl) → cs !! S k = Some (r, wr) →
  key wl wr = Some p → entry_ok syms l r p wl wr.
Proof.
  intros Hcs Hl Hr Hp. destruct (co_at _ _ _ Hcs k l wl Hl) as [? Hsl]. destruct (co_at _ _ _ Hcs (S k) r wr Hr) as [? Hsr].
  split; [done|done|by eapply lookup_lt_Some|by eapply lookup_lt_Some|].
  intros s s' Hs Hs' _ _. destruct (chain_word text syms cs Hcs k l wl s Hl Hs) as (-> & _).
  destruct (chain_word text syms cs Hcs (S k) r wr s' Hr Hs') as (-> & _).
  split_and!; [|done|done]. rewrite Hsl in Hs. simplify_eq/=. unfold idx_at. by rewrite Hr.
Qed.

(** Skipping an entry that describes no pair of neighbours. *)
Lemma queue_skip syms cs e q q' : queue_ok syms cs q → q ≡ₚ e :: q' →
  (∀ k l r wl wr p, cs !! k = Some (l, wl) → cs !! S k = Some (r, wr) → ¬ describes e l r p wl wr) → queue_ok syms cs q'.
Proof.
  intros [H1 H2] Hq Hstale. split.
  - intros x Hx. apply H1. rewrite Hq. by right.
  - intros k l r wl wr p Hl Hr Hp. destruct (H2 k l r wl wr p Hl Hr Hp) as (x & Hx & Hd).
    rewrite Hq in Hx. apply elem_of_cons in Hx as [->|Hx]; [|eauto]. by destruct (Hstale k l r wl wr p).
Qed.

(** *** The queue across a merge *)

Lemma entry_merge syms syms' cs k l0 r0 wl0 wr0 l r p sl sr :
  chain_ok text syms cs → cs !! k = Some (l0, wl0) → cs !! S k = Some (r0, wr0) →
  merged syms cs k l0 r0 wl0 wr0 syms' → chain_ok text syms' (merge_links k cs) →
  entry_ok syms l r p sl sr → entry_ok syms' l r p sl sr.
Proof.
  intros Hcs Hl0 Hr0 [_ Hlen (s0 & Hs0 & Hn0 & _ & _) (r1 & Hr1 & Hnr1) Hother] Hcs' [H1 H2 H3 H4 H5].
  destruct (co_at _ _ _ Hcs k l0 wl0 Hl0) as [Hw0 Hsl0]. destruct (co_at _ _ _ Hcs (S k) r0 wr0 Hr0) as [Hwr0 Hsr0].
  split; [done|done|lia|lia|]. intros s s' Hs Hs' Hn Hn'.
  destruct (decide (l = r0)) as [->|Hlr0]; [congruence|]. destruct (decide (r = r0)) as [->|Hrr0]; [congruence|].
  destruct (lookup_lt_is_Some_2 syms r H4) as [t' Ht'].
  assert (sym_n t' ≠ 0%nat) as Hnt'.
  { destruct (decide (r = l0)) as [->|Hrl0]; [rewrite Hsl0 in Ht'; injection Ht' as <-; by destruct wl0|].
    destruct (Hother r t' Hrl0 Hrr0 Ht') as (? & ? & Hnn & _). congruence. }
  destruct (decide (l = l0)) as [->|Hll0].
  { assert (sym_next (mk_symbol (idx_before cs k) (idx_at cs (S k)) (offset cs k) (length wl0)) = Z.of_nat r) as Hbad.
    { eapply H5; [done|done| |done]. cbn. by destruct wl0. }
    cbn in Hbad. unfold idx_at in Hbad. rewrite Hr0 in Hbad. lia. }
  destruct (lookup_lt_is_Some_2 syms l H3) as [t Ht].
  destruct (Hother l t Hll0 Hlr0 Ht) as (s1 & Hs1 & Hn1 & Hnx1 & Htx1). rewrite Hs in Hs1. injection Hs1 as <-.
  destruct (H5 t t' Ht Ht' ltac:(congruence) Hnt') as (Hnext & Hword & Hpre).
  split_and!; [congruence|unfold sym_word in *; congruence|].
  destruct (decide (r = l0)) as [->|Hrl0].
  - rewrite Hsl0 in Ht'. injection Ht' as <-.
    destruct (chain_word text syms cs Hcs k l0 wl0 _ Hl0 Hsl0) as (Hwd & _). rewrite Hwd in Hpre.
    assert (merge_links k cs !! k = Some (l0, wl0 ++ wr0)) as Hk.
    { rewrite (merge_links_lookup k cs l0 wl0 r0 wr0 _ Hl0 Hr0). by rewrite decide_False, decide_True by lia. }
    destruct (chain_word text syms' _ Hcs' k l0 _ s' Hk Hs') as (-> & _). by apply prefix_app_r.
  - destruct (Hother r t' Hrl0 Hrr0 Ht') as (s1 & Hs1 & Hn2 & _ & Htx2). rewrite Hs' in Hs1. injection Hs1 as <-.
    unfold sym_word in *. congruence.
Qed.

Lemma queue_merge syms syms' cs k l r wl wr p e q q' q'' :
  chain_ok text syms cs → cs !! k = Some (l, wl) → cs !! S k = Some (r, wr) →
  merged syms cs k l r wl wr syms' → chain_ok text syms' (merge_links k cs) →
  queue_ok syms cs q → q ≡ₚ e :: q' → describes e l r p wl wr →
  (∀ x, x ∈ q' → x ∈ q'') →
  (∀ x, x ∈ q'' → x ∈ q' ∨ ∃ l r p sl sr, describes x l r p sl sr ∧ entry_ok syms' l r p sl sr) →
  (∀ j l r wl wr p, (S j = k ∨ j = k) → merge_links k cs !! j = Some (l, wl) → merge_links k cs !! S j = Some (r, wr) →
     key wl wr = Some p → ∃ x, x ∈ q'' ∧ describes x l r p wl wr) →
  queue_ok syms' (merge_links k cs) q''.
Proof using describes_inj.
  intros Hcs Hl Hr Hmg Hcs' [H1 H2] Hq He Hsub Hnew Hcov. split.
  - intros x Hx. destruct (Hnew x Hx) as [Hx'|]; [|done].
    destruct (H1 x) as (l' & r' & p' & sl & sr & Hd & Hok); [rewrite Hq; by right|].
    exists l', r', p', sl, sr. split; [done|]. exact (entry_merge syms syms' cs k l r wl wr _ _ _ _ _ Hcs Hl Hr Hmg Hcs' Hok).
  - intros j l' r' wl' wr' p' Hl' Hr' Hp'. destruct (decide (S j = k ∨ j = k)) as [?|Hj]; [by eapply Hcov|].
    assert (∃ j', j' ≠ k ∧ cs !! j' = Some (l', wl') ∧ cs !! S j' = Some (r', wr')) as (j' & Hne & Hj1 & Hj2).
    { rewrite (merge_links_lookup k cs l wl r wr _ Hl Hr) in Hl'. rewrite (merge_links_lookup k cs l wl r wr _ Hl Hr) in Hr'.
      repeat case_decide; try lia; [exists j|exists (S j)]; (split; [lia|done]). }
    destruct (H2 j' l' r' wl' wr' p' Hj1 Hj2 Hp') as (x & Hx & Hd).
    rewrite Hq in Hx. apply elem_of_cons in Hx as [->|Hx]; [|eauto].
    assert (l = l') as <- by (by eapply describes_inj). destruct Hne. exact (chain_index_inj text syms cs Hcs j' k l wl' wl Hj1 Hl).
Qed.

(** *** Adding entries for neighbours *)

Definition neighbours (cs : links) (j : nat) (lz rz : Z) : Prop :=
  ∃ l r wl wr, cs !! j = Some (l, wl) ∧ cs !! S j = Some (r, wr) ∧ lz = Z.of_nat l ∧ rz = Z.of_nat r.

(** [q'] is [q] with perhaps one entry more, which it has if the symbols [lz] and
    [rz] are neighbours that can be merged. *)
Record extended (syms : list llm_symbol) (cs : links) (lz rz : Z) (q q' : list E) : Prop := {
  ex_old    : ∀ x, x ∈ q → x ∈ q';
  ex_new    : ∀ x, x ∈ q' → x ∈ q ∨ ∃ l r p sl sr, describes x l r p sl sr ∧ entry_ok syms l r p sl sr;
  ex_length : (length q' ≤ S (length q))%nat;
  ex_cover  : ∀ j l r wl wr p, cs !! j = Some (l, wl) → cs !! S j = Some (r, wr) → lz = Z.of_nat l → rz = Z.of_nat r →
    key wl wr = Some p → ∃ x, x ∈ q' ∧ describes x l r p wl wr;
}.

Lemma extended_none syms cs lz rz q : lz = -1 ∨ rz = -1 → extended syms cs lz rz q q.
Proof. intros Hno. split; auto. lia. Qed.

Lemma extended_add syms cs j l r wl wr q e : chain_ok text syms cs → cs !! j = Some (l, wl) → cs !! S j = Some (r, wr) →
  (∀ p, key wl wr = Some p → describes e l r p wl wr) →
  extended syms cs (Z.of_nat l) (Z.of_nat r) q (if key wl wr is Some _ then q ++ [e] else q).
Proof.
  intros Hcs Hl Hr He. assert (∀ x, x ∈ (if key wl wr is Some _ then q ++ [e] else q) ↔ x ∈ q ∨ x = e ∧ is_Some (key wl wr)) as Hin.
  { intros x. destruct (key wl wr); [rewrite elem_of_app, list_elem_of_singleton; naive_solver|].
    split; [by left|]. by intros [?|[_ [??]]]. }
  split.
  - intros x Hx. apply Hin. by left.
  - intros x [Hx|[-> [p Hp]]]%Hin; [by left|right]. exists l, r, p, wl, wr. split; [by apply He|by eapply fresh_entry].
  - destruct (key wl wr); [rewrite length_app; cbn|]; lia.
  - intros j' l' r' wl' wr' p Hl' Hr' Hll Hrr Hp. assert (l' = l) as -> by lia. assert (r' = r) as -> by lia.
    assert (j' = j) as -> by exact (chain_index_inj text _ cs Hcs _ _ _ _ _ Hl' Hl).
    rewrite Hl in Hl'. rewrite Hr in Hr'. simplify_eq. exists e. split; [apply Hin; right; split; [done|by eexists]|by apply He].
Qed.

(** After a merge the new symbol has neighbours on either side, or none. *)
Lemma merge_left_neighbour cs k l r wl wr : cs !! k = Some (l, wl) → cs !! S k = Some (r, wr) →
  idx_before cs k = -1 ∨ ∃ j, neighbours (merge_links k cs) j (idx_before cs k) (Z.of_nat l).
Proof.
  intros Hl Hr. destruct k as [|k]; [by left|right]. exists k.
  destruct (lookup_lt_is_Some_2 cs k) as [[a wa] Ha]; [apply lookup_lt_Some in Hl; lia|].
  exists a, l, wa, (wl ++ wr). rewrite !(merge_links_lookup (S k) cs l wl r wr _ Hl Hr), decide_True by lia.
  rewrite decide_False, decide_True by lia. split_and!; [done|done| |done]. cbn. unfold idx_at. by rewrite Ha.
Qed.

Lemma merge_right_neighbour cs k l r wl wr : cs !! k = Some (l, wl) → cs !! S k = Some (r, wr) →
  idx_at cs (S (S k)) = -1 ∨ ∃ j, neighbours (merge_links k cs) j (Z.of_nat l) (idx_at cs (S (S k))).
Proof.
  intros Hl Hr. unfold idx_at. destruct (cs !! S (S k)) as [[b wb]|] eqn:Hb; [|by left]. right. exists k.
  exists l, b, (wl ++ wr), wb. rewrite !(merge_links_lookup k cs l wl r wr _ Hl Hr).
  rewrite (decide_False (P := (k < k)%nat)), (decide_True (P := k = k)), !decide_False by lia. done.
Qed.

(** A round that merges: the entry is taken out and the new symbol is paired with
    the symbols on either side. *)
Lemma queue_round syms syms' cs k l r wl wr p e q q1 q2 q3 :
  chain_ok text syms cs → cs !! k = Some (l, wl) → cs !! S k = Some (r, wr) →
  merged syms cs k l r wl wr syms' → chain_ok text syms' (merge_links k cs) →
  queue_ok syms cs q → q ≡ₚ e :: q1 → describes e l r p wl wr →
  extended syms' (merge_links k cs) (idx_before cs k) (Z.of_nat l) q1 q2 →
  extended syms' (merge_links k cs) (Z.of_nat l) (idx_at cs (S (S k))) q2 q3 →
  queue_ok syms' (merge_links k cs) q3.
Proof using describes_inj.
  intros Hcs Hl Hr Hmg Hcs' Hq Hperm He Hx1 Hx2.
  assert (merge_links k cs !! k = Some (l, wl ++ wr)) as Hkk.
  { rewrite (merge_links_lookup k cs l wl r wr _ Hl Hr). by rewrite decide_False, decide_True by lia. }
  apply (queue_merge syms syms' cs k l r wl wr p e q q1 q3 Hcs Hl Hr Hmg Hcs' Hq Hperm He).
  - intros z Hz. apply Hx2, Hx1, Hz.
  - intros z [Hz|Hz]%(ex_new _ _ _ _ _ _ Hx2); [|by right]. by apply (ex_new _ _ _ _ _ _ Hx1) in Hz.
  - intros j l' r' wl' wr' p' [Hj|Hj] Hl' Hr' Hp'.
    + subst k. destruct (ex_cover _ _ _ _ _ _ Hx1 j l' r' wl' wr' p' Hl' Hr') as (z & Hz & Hdz);
        [|by rewrite Hkk in Hr'; simplify_eq|done|].
      * cbn. rewrite (merge_links_lookup (S j) cs l wl r wr j Hl Hr), decide_True in Hl' by lia. unfold idx_at. by rewrite Hl'.
      * exists z. split; [by apply Hx2|done].
    + subst j. apply (ex_cover _ _ _ _ _ _ Hx2 k l' r' wl' wr' p' Hl' Hr'); [by rewrite Hkk in Hl'; simplify_eq| |done].
      rewrite (merge_links_lookup k cs l wl r wr (S k) Hl Hr), decide_False, decide_False in Hr' by lia.
      unfold idx_at. by rewrite Hr'.
Qed.

(** The greatest live entry is the best pair. *)
Lemma queue_best syms cs k l r wl wr p e q q' :
  chain_ok text syms cs → cs !! k = Some (l, wl) → cs !! S k = Some (r, wr) →
  queue_ok syms cs q → q ≡ₚ e :: q' → describes e l r p wl wr → key wl wr = Some p →
  (∀ x l' r' p' sl sr, x ∈ q' → describes x l' r' p' sl sr → p' < p ∨ p' = p ∧ (l ≤ l')%nat) →
  best_pair key 0 cs.*2 None = Some (p, k).
Proof using describes_inj.
  intros Hcs Hl Hr [_ Hcov] Hq He Hp Hmax. rewrite (best_pair_found key k _ 0 p None); [done| | |done].
  - exists wl, wr. rewrite !list_lookup_fmap, Hl, Hr. done.
  - intros j p' (w1 & w2 & Hw1 & Hw2 & Hp'). rewrite list_lookup_fmap in Hw1, Hw2.
    destruct (cs !! j) as [[l' w1']|] eqn:Hj1; [|done]. destruct (cs !! S j) as [[r' w2']|] eqn:Hj2; [|done]. cbn in Hw1, Hw2. simplify_eq.
    destruct (Hcov j l' r' w1 w2 p' Hj1 Hj2 Hp') as (x & Hx & Hd). rewrite Hq in Hx. apply elem_of_cons in Hx as [->|Hx].
    + assert (l = l') as <- by (by eapply describes_inj). assert (j = k) as -> by exact (chain_index_inj text syms cs Hcs j k l w1 wl Hj1 Hl).
      right. split; [|done]. congruence.
    + destruct (Hmax x l' r' p' w1 w2 Hx Hd) as [|[-> Hle]]; [by left|right; split; [done|]].
      destruct (decide (j < k)%nat) as [Hlt|]; [|lia].
      pose proof (co_sorted _ _ _ Hcs j k l' l w1 wl Hlt Hj1 Hl). lia.
Qed.
(** *** The first queue: all pairs of neighbours *)

Record seeded (syms : list llm_symbol) (cs : links) (i : nat) (q : list E) : Prop := {
  sd_entry : ∀ e, e ∈ q → ∃ l r p sl sr, describes e l r p sl sr ∧ entry_ok syms l r p sl sr;
  sd_cover : ∀ k l r wl wr p, (k < i)%nat → cs !! k = Some (l, wl) → cs !! S k = Some (r, wr) → key wl wr = Some p →
    ∃ e, e ∈ q ∧ describes e l r p wl wr;
}.

Lemma seeded_nil syms cs : seeded syms cs 0 [].
Proof. split; [by intros ? ?%elem_of_nil|lia]. Qed.

Lemma seeded_step syms cs i l r wl wr q q' : cs !! i = Some (l, wl) → cs !! S i = Some (r, wr) →
  seeded syms cs i q → extended syms cs (Z.of_nat l) (Z.of_nat r) q q' → seeded syms cs (S i) q'.
Proof.
  intros Hl Hr [H1 H2] [X1 X2 _ X4]. split.
  - intros e [He|He]%X2; [by apply H1|done].
  - intros k l' r' wl' wr' p Hk Hl' Hr' Hp. destruct (decide (k = i)) as [->|].
    + apply (X4 i l' r' wl' wr' p Hl' Hr'); [by rewrite Hl in Hl'; simplify_eq|by rewrite Hr in Hr'; simplify_eq|done].
    + destruct (H2 k l' r' wl' wr' p) as (e & He & Hd); [lia|done..|]. exists e. split; [by apply X1|done].
Qed.

Lemma seeded_queue syms cs i q : (length cs ≤ S i)%nat → seeded syms cs i q → queue_ok syms cs q.
Proof.
  intros Hi [H1 H2]. split; [done|]. intros k l r wl wr p Hl Hr. apply (H2 k); [|done|done].
  apply lookup_lt_Some in Hr. lia.
Qed.

(** *** The end *)

Lemma queue_empty syms cs : queue_ok syms cs [] → best_pair key 0 cs.*2 None = None.
Proof.
  intros [_ Hcov]. apply best_pair_none. intros k p (w1 & w2 & Hw1 & Hw2 & Hp). rewrite list_lookup_fmap in Hw1, Hw2.
  destruct (cs !! k) as [[l wl]|] eqn:Hl; [|done]. destruct (cs !! S k) as [[r wr]|] eqn:Hr; [|done]. cbn in *. simplify_eq.
  destruct (Hcov k l r w1 w2 p Hl Hr Hp) as (e & He & _). by apply elem_of_nil in He.
Qed.
End queue.


(** ** The characters of a text *)

Lemma unicode_len_pos c : (1 ≤ unicode_len_utf8 c ≤ 4)%nat.
Proof.
  unfold unicode_len_utf8, u8. pose proof (Z.mod_pos_bound c (2 ^ 8) ltac:(lia)) as Hc.
  rewrite Z.shiftr_div_pow2 by lia. assert (0 ≤ (c mod 2 ^ 8) / 2 ^ 4 < 16) as Hi by (zify_div).
  assert (Z.to_nat ((c mod 2 ^ 8) / 2 ^ 4) < 16)%nat as Hn by lia.
  destruct (Z.to_nat _) as [|n]; [cbn; lia|]. do 15 (destruct n as [|n]; [cbn; lia|]). lia.
Qed.

Lemma chars_loop_concat fuel : ∀ text : bytes, (length text ≤ fuel)%nat → concat (chars_loop fuel text) = text.
Proof.
  induction fuel as [|fuel IH]; intros [|c text] Hlen; [done|cbn in Hlen; lia|done|]. cbn [chars_loop concat].
  pose proof (unicode_len_pos c). rewrite IH; [by rewrite take_drop|]. rewrite length_drop. lia.
Qed.

Lemma chars_concat text : concat (chars text) = text.
Proof. by apply chars_loop_concat. Qed.

Lemma chars_loop_ne fuel : ∀ text w, w ∈ chars_loop fuel text → w ≠ [].
Proof.
  induction fuel as [|fuel IH]; intros [|c text] w; cbn [chars_loop]; try by intros ?%elem_of_nil.
  intros [->|Hw]%elem_of_cons; [|by eapply IH]. pose proof (unicode_len_pos c).
  by destruct (unicode_len_utf8 c); [lia|].
Qed.

Lemma concat_length_ne (ws : list bytes) : (∀ w, w ∈ ws → w ≠ []) → (length ws ≤ length (concat ws))%nat.
Proof.
  induction ws as [|w ws IH]; intros Hw; cbn; [lia|]. rewrite length_app.
  assert (w ≠ []) by (apply Hw; left). destruct w; [done|]. cbn.
  pose proof (IH ltac:(intros; apply Hw; by right)). lia.
Qed.

Lemma chars_length text : (length (chars text) ≤ length text)%nat.
Proof. rewrite <- (chars_concat text) at 2. apply concat_length_ne. intros w. apply chars_loop_ne. Qed.

Lemma chars_nonempty text : text ≠ [] → chars text ≠ [].
Proof. intros Hne Hc. apply Hne. by rewrite <- (chars_concat text), Hc. Qed.

Fixpoint char_syms (k off : nat) (ws : list bytes) : list llm_symbol :=
  match ws with
  | [] => []
  | w :: ws =>
      mk_symbol (Z.of_nat k - 1) (match ws with [] => -1 | _ => Z.of_nat k + 1 end) off (length w)
        :: char_syms (S k) (off + length w) ws
  end.

Lemma split_chars_loop_spec fuel : ∀ text offs k symbols, (length text - offs ≤ fuel)%nat →
  (offs ≤ length text)%nat → Z.of_nat k + Z.of_nat fuel < 2 ^ 31 →
  split_loop fuel text offs (Z.of_nat k) symbols = Ok (symbols ++ char_syms k offs (chars_loop fuel (drop offs text))).
Proof.
  induction fuel as [|fuel IH]; intros text offs k symbols Hf Ho Hk; cbn [split_loop].
  - destruct (Nat.ltb_spec offs (length text)); [lia|]. cbn. by rewrite app_nil_r.
  - destruct (Nat.ltb_spec offs (length text)) as [Hlt|Hge].
    + destruct (at_lt text offs Hlt) as (c & -> & Hc). cbn [mbind res_bind].
      rewrite (drop_S _ _ _ Hc). cbn [chars_loop]. rewrite <- (drop_S _ _ _ Hc).
      pose proof (unicode_len_pos c) as Hpos. set (n := unicode_len_utf8 c) in *.
      assert (length (take n (drop offs text)) = Nat.min n (length text - offs)) as Hn by by rewrite length_take, length_drop.
      cbn [char_syms]. rewrite Hn, drop_drop.
      rewrite (i32_small (Z.of_nat k - 1)), (i32_small (Z.of_nat k + 1)) by lia. replace (Z.of_nat k + 1) with (Z.of_nat (S k)) by lia.
      rewrite IH by lia. rewrite <- app_assoc. cbn [app].
      assert (chars_loop fuel (drop (offs + Nat.min n (length text - offs)) text) = chars_loop fuel (drop (offs + n) text)) as ->.
      { destruct (Nat.min_spec n (length text - offs)) as [[_ ->]|[? ->]]; [done|]. by rewrite !drop_ge by lia. }
      do 4 f_equal. destruct (Nat.eqb_spec (offs + Nat.min n (length text - offs)) (length text)).
      * rewrite drop_ge by lia. by destruct fuel.
      * pose proof (length_drop text (offs + n)) as Hd. destruct (drop (offs + n) text) as [|c' l]; cbn [length] in Hd; [lia|].
        destruct fuel; [lia|]. done.
    + rewrite drop_ge by lia. cbn. by rewrite app_nil_r.
Qed.

Lemma split_chars_spec text : Z.of_nat (length text) < 2 ^ 31 → split_chars text = Ok (char_syms 0 0 (chars text)).
Proof. intros. unfold split_chars. by rewrite (split_chars_loop_spec _ _ 0 0) by lia. Qed.

Lemma char_syms_lookup ws : ∀ k off i,
  char_syms k off ws !! i =
    w ← ws !! i; Some (mk_symbol (Z.of_nat (k + i) - 1)
      (if decide (S i < length ws)%nat then Z.of_nat (k + i) + 1 else -1) (off + length (concat (take i ws))) (length w)).
Proof.
  induction ws as [|w ws IH]; intros k off i; [done|]. destruct i as [|i].
  - cbn. rewrite Nat.add_0_r. rewrite Nat.add_0_r. destruct ws; [done|]. rewrite decide_True by (cbn; lia). done.
  - change (char_syms (S k) (off + length w) ws !! i = (w0 ← ws !! i; Some (mk_symbol (Z.of_nat (k + S i) - 1)
      (if decide (S (S i) < length (w :: ws))%nat then Z.of_nat (k + S i) + 1 else -1) (off + length (concat (take (S i) (w :: ws)))) (length w0)))).
    rewrite IH. destruct (ws !! i) as [w0|]; [|done]. cbn [mbind option_bind]. do 2 f_equal; [lia| |cbn; rewrite length_app; lia].
    cbn [length]. repeat case_decide; lia.
Qed.

Lemma char_syms_length ws : ∀ k off, length (char_syms k off ws) = length ws.
Proof. induction ws as [|w ws IH]; intros k off; cbn; [done|by rewrite IH]. Qed.

Definition char_links (ws : list bytes) : links := imap pair ws.

Lemma char_links_words ws : (char_links ws).*2 = ws.
Proof. unfold char_links. rewrite fmap_imap. apply list_eq. intros i. rewrite list_lookup_imap. by destruct (ws !! i). Qed.

Lemma char_links_lookup ws i : char_links ws !! i = (i,.) <$> ws !! i.
Proof. unfold char_links. by rewrite list_lookup_imap. Qed.

Lemma char_links_length ws : length (char_links ws) = length ws.
Proof. apply length_imap. Qed.

Lemma chars_chain text : chain_ok text (char_syms 0 0 (chars text)) (char_links (chars text)).
Proof.
  split.
  - rewrite char_links_words. apply chars_concat.
  - intros k i w Hk. rewrite char_links_lookup in Hk. destruct (chars text !! k) as [w'|] eqn:Hw; [|done]. cbn in Hk. simplify_eq.
    split; [by eapply chars_loop_ne, list_elem_of_lookup_2|].
    rewrite char_syms_lookup, Hw. cbn [mbind option_bind]. do 2 f_equal.
    + destruct i as [|i]; [done|]. cbn [idx_before]. unfold idx_at. rewrite char_links_lookup.
      destruct (lookup_lt_is_Some_2 (chars text) i) as [w' ->]; [apply lookup_lt_Some in Hw; lia|]. cbn. lia.
    + unfold idx_at. rewrite char_links_lookup. destruct (chars text !! S i) as [w'|] eqn:Hw'; cbn.
      * apply lookup_lt_Some in Hw'. rewrite decide_True by lia. lia.
      * apply lookup_ge_None in Hw'. by rewrite decide_False by lia.
    + unfold offset. by rewrite char_links_words.
  - intros j k i i' w w' Hjk. rewrite !char_links_lookup. destruct (chars text !! j); [|done]. destruct (chars text !! k); [|done].
    cbn. intros. by simplify_eq.
  - intros i s Hs _. rewrite char_syms_lookup in Hs. destruct (chars text !! i) as [w|] eqn:Hw; [|done].
    exists i, w. by rewrite char_links_lookup, Hw.
  - intros i w. rewrite char_links_lookup. destruct (chars text !! 0%nat); [|done]. cbn. by intros [= <- _].
Qed.

(** ** The words of the living symbols *)

Definition live_words (text : bytes) (syms : list llm_symbol) : list bytes :=
  sym_word text <$> filter (λ s, sym_n s ≠ 0%nat) syms.

Lemma live_words_from text syms cs n : ∀ j k, chain_ok text syms cs → (n + j = length syms)%nat →
  (∀ i x, cs !! i = Some x → (i < k)%nat ↔ (x.1 < j)%nat) → live_words text (drop j syms) = drop k cs.*2.
Proof.
  induction n as [|n IH]; intros j k Hcs Hj Hk.
  - rewrite drop_ge by lia. rewrite drop_ge; [done|]. rewrite length_fmap. destruct (decide (k < length cs)%nat) as [Hlt|]; [|lia].
    destruct (lookup_lt_is_Some_2 cs k Hlt) as [[i w] Hi]. destruct (co_at _ _ _ Hcs k i w Hi) as [_ Hs].
    apply lookup_lt_Some in Hs. pose proof (proj2 (Hk k _ Hi)). cbn in *. lia.
  - destruct (lookup_lt_is_Some_2 syms j) as [s Hs]; [lia|]. rewrite (drop_S _ _ _ Hs). unfold live_words. rewrite filter_cons.
    destruct (decide (sym_n s ≠ 0%nat)) as [Hn|Hn].
    + destruct (co_dead _ _ _ Hcs j s Hs Hn) as (k' & w & Hk'). assert (k' = k) as ->.
      { destruct (Nat.lt_trichotomy k' k) as [Hlt|[|Hlt]]; [|done|].
        - apply (Hk _ _ Hk') in Hlt. cbn in Hlt. lia.
        - destruct (lookup_lt_is_Some_2 cs k) as [[i w'] Hi]; [apply lookup_lt_Some in Hk'; lia|].
          pose proof (co_sorted _ _ _ Hcs k k' i j w' w Hlt Hi Hk'). pose proof (proj2 (Hk _ _ Hi)). cbn in *. lia. }
      destruct (chain_word text syms cs Hcs k j w s Hk' Hs) as (Hw & _). cbn [fmap list_fmap]. rewrite Hw.
      rewrite (drop_S cs.*2 w k) by (by rewrite list_lookup_fmap, Hk'). f_equal. apply (IH (S j) (S k) Hcs); [lia|].
      intros i [x wx] Hx. cbn. destruct (Nat.lt_trichotomy i k) as [Hlt|[->|Hlt]].
      * pose proof (proj1 (Hk i _ Hx) Hlt). cbn in *. lia.
      * rewrite Hk' in Hx. simplify_eq. lia.
      * pose proof (co_sorted _ _ _ Hcs k i j x w wx Hlt Hk' Hx). lia.
    + apply (IH (S j) k Hcs); [lia|]. intros i [x wx] Hx. cbn. rewrite (Hk i _ Hx). cbn. assert (x ≠ j); [|lia].
      intros ->. destruct (chain_word text syms cs Hcs i j wx s Hx Hs) as (_ & Hl & Hne). by destruct wx; [|cbn in Hl; lia].
Qed.

Lemma chain_live_words text syms cs : chain_ok text syms cs → live_words text syms = cs.*2.
Proof. intros Hcs. apply (live_words_from text syms cs (length syms) 0 0 Hcs); [lia|]. intros i x _. lia. Qed.

Lemma chain_word_subseteq text syms cs k i w : chain_ok text syms cs → cs !! k = Some (i, w) → ∀ c, c ∈ w → c ∈ text.
Proof.
  intros Hcs Hk c Hc. rewrite <- (co_text _ _ _ Hcs). apply list_elem_of_In, in_concat. exists w.
  split; [|by apply list_elem_of_In]. apply list_elem_of_In, list_elem_of_fmap. exists (i, w). split; [done|by eapply list_elem_of_lookup_2].
Qed.

(** ** What the segmentation keeps *)

Lemma merge_greedily_concat key fuel : ∀ ws, concat (merge_greedily key fuel ws) = concat ws.
Proof.
  induction fuel as [|fuel IH]; intros ws; cbn [merge_greedily]; [done|].
  destruct (best_pair key 0 ws None) as [[p k]|]; [|done]. by rewrite IH, merge_at_concat.
Qed.

Lemma segments_concat key text : concat (segments key text) = text.
Proof. unfold segments. by rewrite merge_greedily_concat, chars_concat. Qed.

Lemma merge_at_Forall (P : bytes → Prop) k : ∀ ws, Forall P ws →
  (∀ w1 w2, ws !! k = Some w1 → ws !! S k = Some w2 → P (w1 ++ w2)) → Forall P (merge_at k ws).
Proof.
  induction k as [|k IH]; intros [|w1 ws] Hws H; cbn; try done.
  - destruct ws as [|w2 ws]; [done|]. apply Forall_cons in Hws as [_ Hws]. apply Forall_cons in Hws as [_ Hws].
    constructor; [by apply H|done].
  - apply Forall_cons in Hws as [Hw Hws]. constructor; [done|]. apply IH; [done|]. intros u1 u2 H1 H2. by apply (H u1 u2).
Qed.

(** A pair that is merged can be merged. *)
Lemma best_pair_mergeable key ws : ∀ k0 best p k, best_pair key k0 ws best = Some (p, k) →
  best = Some (p, k) ∨ (k0 ≤ k)%nat ∧ mergeable key ws (k - k0) p.
Proof.
  induction ws as [|w1 [|w2 ws] IH]; intros k0 best p k; cbn; [by left|by left|].
  intros [Hb|[Hk Hm]]%IH.
  - destruct (key w1 w2) as [p1|] eqn:Hp1; [|by left]. destruct best as [[q i]|].
    + destruct (Z.ltb_spec q p1); [|by left]. simplify_eq. right. split; [done|]. rewrite Nat.sub_diag. by apply mergeable_0.
    + simplify_eq. right. split; [done|]. rewrite Nat.sub_diag. by apply mergeable_0.
  - right. split; [lia|]. replace (k - k0)%nat with (S (k - S k0)) by lia. by apply mergeable_S.
Qed.

Lemma merge_greedily_Forall (P : bytes → Prop) key fuel :
  (∀ a b p, P a → P b → key a b = Some p → P (a ++ b)) →
  ∀ ws, Forall P ws → Forall P (merge_greedily key fuel ws).
Proof.
  intros HP. induction fuel as [|fuel IH]; intros ws Hws; cbn [merge_greedily]; [done|].
  destruct (best_pair key 0 ws None) as [[p k]|] eqn:Hb; [|done]. apply IH.
  apply best_pair_mergeable in Hb as [?|[_ (w1 & w2 & H1 & H2 & Hp)]]; [done|]. rewrite Nat.sub_0_r in H1, H2.
  apply merge_at_Forall; [done|]. intros u1 u2 Hu1 Hu2. simplify_eq. rewrite Forall_forall in Hws.
  eapply HP; [by eapply Hws, list_elem_of_lookup_2..|done].
Qed.

Lemma segments_ne key text w : w ∈ segments key text → w ≠ [].
Proof.
  intros Hw. eapply (Forall_forall (λ w, w ≠ []) (segments key text)); [|done].
  apply merge_greedily_Forall; [by intros [|] b|]. apply Forall_forall. intros x. apply chars_loop_ne.
Qed.
