(* ===== verification/SpmTokenizer.v ===== *)
(** * The SPM session (src/llama-vocab.cpp, llm_tokenizer_spm_session)

    Segmentation of a text by merging the neighbours whose concatenation is the
    token of the greatest score, with a work queue that may hold outdated
    entries; symbols that are no token are spelled with byte tokens.  It is shown
    to compute the greedy merging of [Bigram.segments]. *)
From S2P Require Import Prelude Vocab VocabLemmas Bigram.

(** ** Data *)

Record llm_bigram_spm : Type := mk_bigram_spm { bs_left : Z; bs_right : Z; bs_score : Z; bs_size : nat }.

(** [llm_bigram_spm::comparator] *)
Definition spm_less (l r : llm_bigram_spm) : bool :=
  (l.(bs_score) <? r.(bs_score)) || ((l.(bs_score) =? r.(bs_score)) && (r.(bs_left) <? l.(bs_left))).

Record llm_tokenizer_spm_session : Type := mk_spm_session {
  ss_symbols    : list llm_symbol;
  ss_work_queue : list llm_bigram_spm;
  ss_rev_merge  : gmap bytes (Z * Z);
}.

Definition with_symbols (s : llm_tokenizer_spm_session) (symbols : list llm_symbol) : llm_tokenizer_spm_session :=
  mk_spm_session symbols s.(ss_work_queue) s.(ss_rev_merge).
Definition with_queue (s : llm_tokenizer_spm_session) (q : list llm_bigram_spm) : llm_tokenizer_spm_session :=
  mk_spm_session s.(ss_symbols) q s.(ss_rev_merge).

(** ** Operations *)
Section spm.
Context `{!PriorityQueue spm_less} (v : llama_vocab) (text : bytes).

Definition try_add_bigram (s : llm_tokenizer_spm_session) (left right : Z) : res llm_tokenizer_spm_session :=
  if (left =? -1) || (right =? -1) then Ok s
  else
    l ← sym_at s.(ss_symbols) left;
    r ← sym_at s.(ss_symbols) right;
    txt ← sub_text text l.(sym_text) (l.(sym_n) + r.(sym_n));
    token ← text_to_token v txt;
    if token =? LLAMA_TOKEN_NULL then Ok s
    else if n_tokens v <=? u32 token then Ok s
    else
      tok_data ← get_token_data v token;
      Ok (mk_spm_session s.(ss_symbols)
            (pq_push s.(ss_work_queue) (mk_bigram_spm left right tok_data.(td_score) (length txt)))
            (<[txt := (left, right)]> s.(ss_rev_merge))).

(** [for (int i = 1; i < symbols.size(); ++i)], [n] rounds. *)
Fixpoint seed_bigrams (n : nat) (i : Z) (s : llm_tokenizer_spm_session) : res llm_tokenizer_spm_session :=
  match n with
  | O => Ok s
  | S n => s ← try_add_bigram s (i - 1) i; seed_bigrams n (i + 1) s
  end.

(** One entry of the work queue. *)
Definition merge_bigram (s : llm_tokenizer_spm_session) (bigram : llm_bigram_spm) : res llm_tokenizer_spm_session :=
  left_sym ← sym_at s.(ss_symbols) bigram.(bs_left);
  right_sym ← sym_at s.(ss_symbols) bigram.(bs_right);
  if (left_sym.(sym_n) =? 0)%nat || (right_sym.(sym_n) =? 0)%nat
     || negb (left_sym.(sym_n) + right_sym.(sym_n) =? bigram.(bs_size))%nat
  then Ok s
  else
    symbols ← merge_symbols s.(ss_symbols) bigram.(bs_left) bigram.(bs_right);
    left_sym ← sym_at symbols bigram.(bs_left);
    s ← try_add_bigram (with_symbols s symbols) left_sym.(sym_prev) bigram.(bs_left);
    left_sym ← sym_at s.(ss_symbols) bigram.(bs_left);
    try_add_bigram s bigram.(bs_left) left_sym.(sym_next).

Fixpoint merge_loop (fuel : nat) (s : llm_tokenizer_spm_session) : res llm_tokenizer_spm_session :=
  match pq_pop s.(ss_work_queue) with
  | None => Ok s
  | Some (bigram, queue) =>
      match fuel with
      | O => Err NoFuel
      | S fuel => s ← merge_bigram (with_queue s queue) bigram; merge_loop fuel s
      end
  end.

(** [fuel] bounds the depth of the recursion. *)
Fixpoint resegment (fuel : nat) (s : llm_tokenizer_spm_session) (symbol : llm_symbol) (output : list llama_token)
    : res (list llama_token) :=
  txt ← sub_text text symbol.(sym_text) symbol.(sym_n);
  token ← text_to_token v txt;
  if negb (token =? LLAMA_TOKEN_NULL) then Ok (output ++ [token])
  else
    match s.(ss_rev_merge) !! txt with
    | None => ids ← mapM (byte_to_token v) txt; Ok (output ++ ids)
    | Some (first, second) =>
        match fuel with
        | O => Err NoFuel
        | S fuel =>
            a ← sym_at s.(ss_symbols) first;
            output ← resegment fuel s a output;
            b ← sym_at s.(ss_symbols) second;
            resegment fuel s b output
        end
    end.

(** [for (int i = 0; i != -1; i = symbols[i].next)], at most one round per symbol. *)
Fixpoint emit_loop (fuel : nat) (s : llm_tokenizer_spm_session) (i : Z) (output : list llama_token)
    : res (list llama_token) :=
  if i =? -1 then Ok output
  else
    match fuel with
    | O => Err NoFuel
    | S fuel =>
        symbol ← sym_at s.(ss_symbols) i;
        output ← resegment (length s.(ss_symbols)) s symbol output;
        emit_loop fuel s symbol.(sym_next) output
    end.

(** Every entry of the queue is popped once, and a merge adds at most two. *)
Definition spm_tokenize (output : list llama_token) : res (list llama_token) :=
  symbols ← split_chars text;
  s ← seed_bigrams (length symbols - 1) 1 (mk_spm_session symbols [] ∅);
  s ← merge_loop (4 * length symbols) s;
  emit_loop (S (length symbols)) s 0 output.
End spm.

(** ** Reference *)

(** The priority of a pair: the score of the token of its concatenation. *)
Definition spm_key (v : llama_vocab) (a b : bytes) : option Z :=
  id ← v_token_to_id v !! (a ++ b); td_score <$> v_id_to_token v !! Z.to_nat id.

(** A segment is a token or is spelled byte by byte. *)
Definition spell (v : llama_vocab) (w : bytes) : res (list llama_token) :=
  match v_token_to_id v !! w with
  | Some id => Ok [id]
  | None => mapM (byte_to_token v) w
  end.

Fixpoint spell_all (v : llama_vocab) (ws : list bytes) (output : list llama_token) : res (list llama_token) :=
  match ws with
  | [] => Ok output
  | w :: ws => ids ← spell v w; spell_all v ws (output ++ ids)
  end.

(** ** The session computes the reference *)
Section spm_correct.
Context `{!PriorityQueue spm_less} (v : llama_vocab) (Hv : vocab_ok v) (text : bytes).

Definition spm_describes (e : llm_bigram_spm) (l r : nat) (p : Z) (sl sr : bytes) : Prop :=
  e = mk_bigram_spm (Z.of_nat l) (Z.of_nat r) p (length sl + length sr).

Lemma spm_describes_inj e l r p sl sr l' r' p' sl' sr' :
  spm_describes e l r p sl sr → spm_describes e l' r' p' sl' sr' → l = l'.
Proof. unfold spm_describes. intros -> [= ?]. lia. Qed.

(** Only texts of tokens are remembered. *)
Definition rev_ok (m : gmap bytes (Z * Z)) : Prop := ∀ t x, m !! t = Some x → is_Some (v_token_to_id v !! t).

(** The session holds the chain [cs]. *)
Record session_ok (s : llm_tokenizer_spm_session) (cs : links) : Prop := {
  so_chain : chain_ok text (ss_symbols s) cs;
  so_queue : queue_ok (spm_key v) text spm_describes (ss_symbols s) cs (ss_work_queue s);
  so_rev   : rev_ok (ss_rev_merge s);
}.

(** *** Pairing two symbols *)

Lemma try_add_bigram_none s l r : l = -1 ∨ r = -1 → try_add_bigram v text s l r = Ok s.
Proof using. intros [->| ->]; unfold try_add_bigram; [done|]. by rewrite orb_true_r. Qed.

Lemma try_add_bigram_spec s cs k l r wl wr : chain_ok text (ss_symbols s) cs →
  cs !! k = Some (l, wl) → cs !! S k = Some (r, wr) →
  try_add_bigram v text s (Z.of_nat l) (Z.of_nat r) =
    Ok (match spm_key v wl wr with
        | Some p => mk_spm_session (ss_symbols s)
            (ss_work_queue s ++ [mk_bigram_spm (Z.of_nat l) (Z.of_nat r) p (length wl + length wr)])
            (<[wl ++ wr := (Z.of_nat l, Z.of_nat r)]> (ss_rev_merge s))
        | None => s
        end).
Proof using Hv.
  intros Hcs Hl Hr. destruct (live_entry text _ cs k l r wl wr Hcs Hl Hr) as (x & y & Hx & Hy & _ & _ & _ & _ & _ & _ & Hsub).
  unfold try_add_bigram. rewrite (proj2 (Z.eqb_neq _ _)), (proj2 (Z.eqb_neq _ _)) by lia. cbn [orb].
  rewrite (sym_at_nat _ _ _ Hx), (sym_at_nat _ _ _ Hy). cbn [mbind res_bind]. rewrite Hsub. cbn [mbind res_bind].
  unfold spm_key. destruct (v_token_to_id v !! (wl ++ wr)) as [id|] eqn:Hid;
    [|by rewrite (text_to_token_None v Hv _ Hid)].
  rewrite (text_to_token_Some v Hv _ _ Hid). cbn [mbind res_bind option_bind].
  destruct (token_id_range v Hv _ _ Hid) as (Hrange & Hu & Hne & d & Hd & _).
  rewrite (proj2 (Z.eqb_neq _ _)) by done. rewrite Hu, (proj2 (Z.leb_gt _ _)) by lia.
  rewrite (get_token_data_ok v Hv _ _ _ Hid Hd), Hd. cbn. by rewrite length_app.
Qed.

Abbreviation extended_by := (extended (spm_key v) text spm_describes).

Lemma try_add_extends s cs lz rz : chain_ok text (ss_symbols s) cs → rev_ok (ss_rev_merge s) →
  (lz = -1 ∨ rz = -1) ∨ (∃ j, neighbours cs j lz rz) →
  ∃ s', try_add_bigram v text s lz rz = Ok s' ∧ ss_symbols s' = ss_symbols s ∧ rev_ok (ss_rev_merge s') ∧
    extended_by (ss_symbols s) cs lz rz (ss_work_queue s) (ss_work_queue s').
Proof using Hv.
  intros Hcs Hrev [Hno|(j & l & r & wl & wr & Hl & Hr & -> & ->)].
  { exists s. split_and!; [by apply try_add_bigram_none|done|done|by apply extended_none]. }
  eexists. split; [by eapply try_add_bigram_spec|].
  pose proof (λ e, extended_add (spm_key v) text spm_describes (ss_symbols s) cs j l r wl wr (ss_work_queue s) e Hcs Hl Hr) as Hext.
  destruct (spm_key v wl wr) as [p|] eqn:Hp; cbn; split_and!; try done.
  - intros t x [[<- _]|[_ ?]]%lookup_insert_Some; [|by eapply Hrev].
    unfold spm_key in Hp. destruct (v_token_to_id v !! (wl ++ wr)); [by eexists|done].
  - apply Hext. by intros ? [= ->].
  - by apply (Hext (mk_bigram_spm 0 0 0 0)).
Qed.

Lemma spm_seed_bigrams_spec syms cs n : ∀ i s, chain_ok text syms cs → ss_symbols s = syms → rev_ok (ss_rev_merge s) →
  (∀ k l w, cs !! k = Some (l, w) → l = k) → (S (i + n) = length cs)%nat →
  seeded (spm_key v) text spm_describes syms cs i (ss_work_queue s) →
  ∃ s', seed_bigrams v text n (Z.of_nat (S i)) s = Ok s' ∧ session_ok s' cs ∧
    (length (ss_work_queue s') ≤ length (ss_work_queue s) + n)%nat.
Proof using Hv.
  induction n as [|n IH]; intros i s Hcs Hs Hrev Hidx Hn Hsd; cbn [seed_bigrams].
  - exists s. split_and!; [done| |lia]. split; [by rewrite Hs| |done]. rewrite Hs.
    apply (seeded_queue _ _ _ _ _ i); [lia|done].
  - destruct (lookup_lt_is_Some_2 cs i) as [[l wl] Hl]; [lia|]. destruct (lookup_lt_is_Some_2 cs (S i)) as [[r wr] Hr]; [lia|].
    pose proof (Hidx _ _ _ Hl) as ->. pose proof (Hidx _ _ _ Hr) as ->.
    replace (Z.of_nat (S i) - 1) with (Z.of_nat i) by lia. replace (Z.of_nat (S i) + 1) with (Z.of_nat (S (S i))) by lia.
    destruct (try_add_extends s cs (Z.of_nat i) (Z.of_nat (S i))) as (s1 & -> & Hs1 & Hrev1 & Hext);
      [by rewrite Hs|done|right; by exists i, i, (S i), wl, wr|]. cbn [mbind res_bind]. rewrite Hs in *.
    destruct (IH (S i) s1 Hcs Hs1 Hrev1 Hidx) as (s' & Hrun & Hok & Hlen); [lia|by eapply seeded_step|].
    exists s'. split_and!; [done|done|]. pose proof (ex_length _ _ _ _ _ _ _ _ _ Hext). lia.
Qed.

(** *** One round *)

Lemma spm_size_live (s s' : llm_symbol) (size : nat) :
  (sym_n s =? 0)%nat || (sym_n s' =? 0)%nat || negb (sym_n s + sym_n s' =? size)%nat = false ↔
  sym_n s ≠ 0%nat ∧ sym_n s' ≠ 0%nat ∧ (sym_n s + sym_n s' = size)%nat.
Proof using.
  rewrite !orb_false_iff, negb_false_iff, !Nat.eqb_neq, Nat.eqb_eq. tauto.
Qed.

Lemma spm_greatest l r p sl sr e x l' r' p' sl' sr' : spm_describes e l r p sl sr → spm_describes x l' r' p' sl' sr' →
  spm_less e x = false → p' < p ∨ p' = p ∧ (l ≤ l')%nat.
Proof using.
  intros -> -> Hmax. unfold spm_less in Hmax. cbn in Hmax. apply orb_false_iff in Hmax as [Hm1 Hm2]. apply Z.ltb_ge in Hm1.
  apply andb_false_iff in Hm2 as [Hm2|Hm2]; [apply Z.eqb_neq in Hm2; lia|apply Z.ltb_ge in Hm2; lia].
Qed.

Lemma spm_stale s cs e q l r p sl sr x y : session_ok s cs → ss_work_queue s ≡ₚ e :: q → spm_describes e l r p sl sr →
  ss_symbols s !! l = Some x → ss_symbols s !! r = Some y →
  (sym_n x =? 0)%nat || (sym_n y =? 0)%nat || negb (sym_n x + sym_n y =? length sl + length sr)%nat = true →
  session_ok (with_queue s q) cs.
Proof using.
  intros [Hcs Hqo Hrev] Hq Hd Hx Hy Hstale. split; [done| |done]. cbn.
  apply (queue_skip _ _ _ _ _ e _ _ Hqo Hq). intros k l' r' wl wr p' Hl Hr Hd'.
  destruct (live_entry text _ cs k l' r' wl wr Hcs Hl Hr) as (x' & y' & Hx' & Hy' & Hnx & Hny & Hwl & Hwr & _).
  unfold spm_describes in Hd, Hd'. rewrite Hd in Hd'. injection Hd' as Hll Hrr _ Hsz. apply Nat2Z.inj in Hll, Hrr. subst l' r'.
  apply not_false_iff_true in Hstale. destruct Hstale. apply spm_size_live.
  destruct wl, wr; try done. simplify_eq. cbn in *. lia.
Qed.

Lemma spm_merge_bigram_spec s cs e q : session_ok s cs → ss_work_queue s ≡ₚ e :: q → (∀ x, x ∈ q → spm_less e x = false) →
  ∃ s', merge_bigram v text (with_queue s q) e = Ok s' ∧
    ((session_ok s' cs ∧ length (ss_work_queue s') = length q) ∨
     ∃ k p, session_ok s' (merge_links k cs) ∧ (S k < length cs)%nat ∧
       best_pair (spm_key v) 0 cs.*2 None = Some (p, k) ∧ (length (ss_work_queue s') ≤ length q + 2)%nat).
Proof using Hv.
  intros Hs Hq Hmax. pose proof Hs as [Hcs Hqo Hrev].
  destruct (qo_entry _ _ _ _ _ _ Hqo e) as (l & r & p & sl & sr & Hd & Hen); [rewrite Hq; by left|].
  destruct (lookup_lt_is_Some_2 _ _ (en_left _ _ _ _ _ _ _ _ Hen)) as [x Hx].
  destruct (lookup_lt_is_Some_2 _ _ (en_right _ _ _ _ _ _ _ _ Hen)) as [y Hy].
  unfold merge_bigram. rewrite Hd. cbn [bs_left bs_right bs_size bs_score ss_symbols with_queue].
  rewrite (sym_at_nat _ _ _ Hx), (sym_at_nat _ _ _ Hy). cbn [mbind res_bind].
  destruct (_ || _ || _) eqn:Hstale.
  { eexists. split; [done|]. left. split; [by eapply spm_stale|done]. }
  apply spm_size_live in Hstale as (Hnx & Hny & Hsize).
  destruct (entry_live _ text _ cs l r p sl sr x y Hcs Hen Hx Hy Hnx Hny Hsize) as (k & Hl & Hr).
  destruct (merge_chain text _ cs Hcs k l r sl sr Hl Hr) as (syms' & Hmg & Hcs').
  pose proof Hmg as [Hrun _ (left & Hleft & _ & Hprev & Hnext) _ _]. rewrite Hrun. cbn [mbind res_bind].
  rewrite (sym_at_nat _ _ _ Hleft). cbn [mbind res_bind]. rewrite Hprev.
  destruct (try_add_extends (with_symbols (with_queue s q) syms') (merge_links k cs) (idx_before cs k) (Z.of_nat l))
    as (s1 & -> & Hs1 & Hrev1 & Hext1); [done|done|destruct (merge_left_neighbour cs k l r sl sr Hl Hr); auto|].
  cbn [ss_symbols with_symbols mbind res_bind] in *. rewrite Hs1, (sym_at_nat _ _ _ Hleft). cbn [mbind res_bind]. rewrite Hnext.
  destruct (try_add_extends s1 (merge_links k cs) (Z.of_nat l) (idx_at cs (S (S k))))
    as (s2 & -> & Hs2 & Hrev2 & Hext2); [by rewrite Hs1|done|destruct (merge_right_neighbour cs k l r sl sr Hl Hr); auto|].
  rewrite Hs1 in *. exists s2. split; [done|]. right. exists k, p. split_and!.
  - split; [by rewrite Hs2| |done]. rewrite Hs2.
    by eapply (queue_round _ _ _ spm_describes_inj (ss_symbols s) syms' cs k l r sl sr p e _ q).
  - by apply lookup_lt_Some in Hr.
  - apply (queue_best (spm_key v) text spm_describes spm_describes_inj (ss_symbols s) cs k l r sl sr p e (ss_work_queue s) q); try done.
    + apply (en_key _ _ _ _ _ _ _ _ Hen).
    + intros z l' r' p' sl' sr' Hz Hdz. by eapply spm_greatest; [..|apply Hmax, Hz].
  - pose proof (ex_length _ _ _ _ _ _ _ _ _ Hext1). pose proof (ex_length _ _ _ _ _ _ _ _ _ Hext2). cbn in *. lia.
Qed.

(** *** The loops *)

Lemma spm_merge_loop_spec fuel : ∀ s cs m, session_ok s cs → (length (ss_work_queue s) + 3 * length cs ≤ fuel)%nat →
  (length cs ≤ m)%nat →
  ∃ s' cs', merge_loop v text fuel s = Ok s' ∧ session_ok s' cs' ∧ cs'.*2 = merge_greedily (spm_key v) m cs.*2.
Proof using Hv.
  induction fuel as [|fuel IH]; intros s cs m Hs Hf Hm; cbn [merge_loop];
    (destruct (pq_pop (ss_work_queue s)) as [[e q]|] eqn:Hpop;
     [pose proof (pq_pop_max _ _ _ Hpop) as [Hq Hmax]; pose proof (Permutation_length Hq) as Hlen; cbn in Hlen; try lia|
      apply pq_pop_nil in Hpop; exists s, cs; split_and!; [done|done|]; symmetry;
      apply merge_greedily_none, (queue_empty _ text spm_describes (ss_symbols s)); rewrite <- Hpop; apply Hs]).
  destruct (spm_merge_bigram_spec s cs e q Hs Hq Hmax) as (s1 & -> & [[Hs1 Hl1]|(k & p & Hs1 & Hk & Hbest & Hl1)]); cbn [mbind res_bind].
  - apply (IH s1 cs m Hs1); lia.
  - pose proof (merge_links_length k cs Hk). destruct m as [|m]; [lia|].
    rewrite (merge_greedily_S _ _ _ _ _ Hbest). apply (IH s1 (merge_links k cs) m Hs1); lia.
Qed.

Lemma resegment_spec fuel s cs k i w x output : session_ok s cs → cs !! k = Some (i, w) → ss_symbols s !! i = Some x →
  resegment v text fuel s x output = ids ← spell v w; Ok (output ++ ids).
Proof using Hv.
  intros [Hcs _ Hrev] Hk Hx. destruct fuel; cbn [resegment]; rewrite (chain_sub_text text _ cs Hcs k i w x Hk Hx);
    cbn [mbind res_bind]; unfold spell; (destruct (v_token_to_id v !! w) as [id|] eqn:Hid;
    [rewrite (text_to_token_Some v Hv _ _ Hid); cbn [mbind res_bind];
     destruct (token_id_range v Hv _ _ Hid) as (_ & _ & Hne & _); by rewrite (proj2 (Z.eqb_neq _ _) Hne)
    |rewrite (text_to_token_None v Hv _ Hid); cbn [mbind res_bind negb Z.eqb LLAMA_TOKEN_NULL Pos.eqb];
     destruct (ss_rev_merge s !! w) as [e|] eqn:He; [apply Hrev in He as [? He]; congruence|done]]).
Qed.

Lemma spm_emit_loop_spec fuel : ∀ s cs k output, session_ok s cs → (length cs < fuel + k)%nat →
  emit_loop v text fuel s (idx_at cs k) output = spell_all v (drop k cs.*2) output.
Proof using Hv.
  induction fuel as [|fuel IH]; intros s cs k output Hs Hf; cbn [emit_loop]; unfold idx_at;
    (destruct (cs !! k) as [[i w]|] eqn:Hk; [|apply lookup_ge_None in Hk; rewrite drop_ge by (rewrite length_fmap; lia); done]).
  - apply lookup_lt_Some in Hk. lia.
  - rewrite (proj2 (Z.eqb_neq _ _)) by lia. destruct (co_at _ _ _ (so_chain _ _ Hs) k i w Hk) as [_ Hx].
    rewrite (sym_at_nat _ _ _ Hx). cbn [mbind res_bind]. rewrite (resegment_spec _ s cs k i w _ output Hs Hk Hx).
    rewrite (drop_S cs.*2 w k) by (by rewrite list_lookup_fmap, Hk). cbn [spell_all].
    destruct (spell v w) as [ids|f]; [|done]. cbn [mbind res_bind sym_next]. apply IH; [done|lia].
Qed.
End spm_correct.

Lemma spm_tokenize_segments `{!PriorityQueue spm_less} (v : llama_vocab) (text : bytes) (output : list llama_token) :
  vocab_ok v → text ≠ [] → Z.of_nat (length text) < 2 ^ 31 →
  spm_tokenize v text output = spell_all v (segments (spm_key v) text) output.
Proof.
  intros Hv Hne Hlen. unfold spm_tokenize. rewrite split_chars_spec by done. cbn [mbind res_bind].
  rewrite char_syms_length. pose proof (chars_chain text) as Hcs. pose proof (chars_nonempty text Hne) as Hws.
  set (s0 := mk_spm_session _ _ _). assert (1 ≤ length (chars text))%nat as Hl1 by (destruct (chars text); [done|cbn; lia]).
  destruct (spm_seed_bigrams_spec v Hv text (char_syms 0 0 (chars text)) (char_links (chars text)) (length (chars text) - 1) 0 s0)
    as (s1 & Hseed & Hok & Hq); [done|done|done| |rewrite char_links_length; lia|apply seeded_nil|].
  { intros k l w Hk. rewrite char_links_lookup in Hk. destruct (chars text !! k); [|done]. cbn in Hk. by simplify_eq. }
  change (Z.of_nat 1) with 1 in Hseed. rewrite Hseed. cbn [mbind res_bind]. cbn in Hq.
  destruct (spm_merge_loop_spec v Hv text (4 * length (chars text)) s1 _ (length (chars text)) Hok) as (s2 & cs2 & -> & Hok2 & Hw2);
    [rewrite char_links_length; lia|by rewrite char_links_length|].
  cbn [mbind res_bind]. rewrite char_links_words in Hw2. unfold segments. rewrite <- Hw2.
  assert (idx_at cs2 0 = 0) as Hi0.
  { unfold idx_at. destruct (cs2 !! 0%nat) as [[i w]|] eqn:H0; [by rewrite (co_first _ _ _ (so_chain _ _ _ _ Hok2) i w H0)|].
    destruct Hne. rewrite <- (co_text _ _ _ (so_chain _ _ _ _ Hok2)). by destruct cs2. }
  rewrite <- Hi0. rewrite (spm_emit_loop_spec v Hv text _ s2 cs2 0 output Hok2); [by rewrite drop_0|].
  rewrite <- (length_fmap snd), Hw2. pose proof (merge_greedily_length (spm_key v) (length (chars text)) (chars text)). lia.
Qed.

(** C34. The session computes the greedy segmentation: starting from the characters
    of the text, the leftmost pair of neighbours whose concatenation is the token
    of the greatest score is merged until no pair is a token, and the segments are
    written as tokens, or byte by byte.  It fails only where a byte has no token,
    and with any priority queue. *)
Theorem spm_tokenize_greedy `{!PriorityQueue spm_less} (v : llama_vocab) (text : bytes) (output : list llama_token) :
  vocab_ok v → text ≠ [] → Z.of_nat (length text) < 2 ^ 31 →
  spm_tokenize v text output = spell_all v (segments (spm_key v) text) output.
Proof. apply spm_tokenize_segments. Qed.

(** ** A run *)

#[export] Instance spm_select_queue : PriorityQueue spm_less.
Proof.
  apply select_queue; unfold spm_less.
  - intros a. rewrite Z.ltb_irrefl, Z.ltb_irrefl. apply andb_false_r.
  - intros a b. rewrite orb_true_iff, orb_false_iff, andb_true_iff, andb_false_iff. lia.
  - intros a b c. rewrite !orb_false_iff, !andb_false_iff. lia.
Defined.

(** Tokens: the characters a, b, c, the texts ab, bc (better), abc, and the byte
    token of d. *)
Definition ex_tokens : list file_token :=
  [mk_file_token (str "a") (Some (-3)) (Some 1); mk_file_token (str "b") (Some (-3)) (Some 1);
   mk_file_token (str "c") (Some (-3)) (Some 1); mk_file_token (str "ab") (Some (-2)) (Some 1);
   mk_file_token (str "bc") (Some (-1)) (Some 1); mk_file_token (str "abc") (Some (-2)) (Some 1);
   mk_file_token (str "<0x64>") (Some 0) (Some 6)].

Definition ex_spm : llama_vocab := vocab_of LLAMA_VOCAB_TYPE_SPM ex_tokens ∅.

(** abcd: first bc (the greater score), then abc, then the byte d. *)
Lemma spm_tokenize_greedy_witness :
  spm_tokenize ex_spm (str "abcd") [] = spell_all ex_spm (segments (spm_key ex_spm) (str "abcd")) [] ∧
  spell_all ex_spm (segments (spm_key ex_spm) (str "abcd")) [] = Ok [5; 6].
Proof.
  split; [|vm_compute; reflexivity].
  apply (spm_tokenize_greedy ex_spm (str "abcd") []); [|discriminate|vm_compute; reflexivity].
  apply vocab_of_ok; [discriminate|vm_compute; reflexivity].
Defined.
