(* ===== verification/BpeTokenizer.v ===== *)
(** * The BPE session (src/llama-vocab.cpp, llm_tokenizer_bpe_session)

    Each word of the pre-tokenizer is segmented by applying the merges of the
    model in the order of their ranks, with a work queue that may hold outdated
    entries; the words themselves, the result of [unicode_regex_split], are an
    argument.  It is shown to compute the greedy merging of [Bigram.segments]. *)
From S2P Require Import Prelude Vocab VocabLemmas Bigram.

(** ** Data *)

Record llm_bigram_bpe : Type := mk_bigram_bpe {
  bb_left : Z; bb_right : Z; bb_text : bytes; bb_rank : Z; bb_size : nat }.

(** [llm_bigram_bpe::comparator] *)
Definition bpe_less (l r : llm_bigram_bpe) : bool :=
  (r.(bb_rank) <? l.(bb_rank)) || ((l.(bb_rank) =? r.(bb_rank)) && (r.(bb_left) <? l.(bb_left))).

(** [symbols] and [work_queue] *)
Record bpe_state : Type := mk_bpe_state { bp_symbols : list llm_symbol; bp_work_queue : list llm_bigram_bpe }.

(** An element of [symbols_final]: its text is that of a symbol of one of the
    words, which stay where they are. *)
Record final_symbol : Type := mk_final { fs_prev : Z; fs_next : Z; fs_str : bytes }.

Definition LLAMA_VOCAB_PRE_TYPE_GEMMA4 : Z := 50.

(** ** Operations *)
Section bpe.
Context `{!PriorityQueue bpe_less} (v : llama_vocab).

Section word.
Context (word : bytes).

Definition add_new_bigram (s : bpe_state) (left right : Z) : res bpe_state :=
  if (left =? -1) || (right =? -1) then Ok s
  else
    l ← sym_at s.(bp_symbols) left;
    left_token ← sub_text word l.(sym_text) l.(sym_n);
    r ← sym_at s.(bp_symbols) right;
    right_token ← sub_text word r.(sym_text) r.(sym_n);
    rank_found ← find_bpe_rank v left_token right_token;
    if rank_found <? 0 then Ok s
    else
      Ok (mk_bpe_state s.(bp_symbols)
            (pq_push s.(bp_work_queue)
               (mk_bigram_bpe left right (left_token ++ right_token) rank_found (length left_token + length right_token)))).

(** [for (int i = 1; i < symbols.size(); ++i)], [n] rounds. *)
Fixpoint seed_bigrams (n : nat) (i : Z) (s : bpe_state) : res bpe_state :=
  match n with
  | O => Ok s
  | S n => s ← add_new_bigram s (i - 1) i; seed_bigrams n (i + 1) s
  end.

(** One entry of the work queue. *)
Definition merge_bigram (s : bpe_state) (bigram : llm_bigram_bpe) : res bpe_state :=
  left_symbol ← sym_at s.(bp_symbols) bigram.(bb_left);
  right_symbol ← sym_at s.(bp_symbols) bigram.(bb_right);
  if (left_symbol.(sym_n) =? 0)%nat || (right_symbol.(sym_n) =? 0)%nat then Ok s
  else
    left_token ← sub_text word left_symbol.(sym_text) left_symbol.(sym_n);
    right_token ← sub_text word right_symbol.(sym_text) right_symbol.(sym_n);
    if negb (bool_decide (left_token ++ right_token = bigram.(bb_text))) then Ok s
    else
      symbols ← merge_symbols s.(bp_symbols) bigram.(bb_left) bigram.(bb_right);
      left_symbol ← sym_at symbols bigram.(bb_left);
      s ← add_new_bigram (mk_bpe_state symbols s.(bp_work_queue)) left_symbol.(sym_prev) bigram.(bb_left);
      left_symbol ← sym_at s.(bp_symbols) bigram.(bb_left);
      add_new_bigram s bigram.(bb_left) left_symbol.(sym_next).

Fixpoint merge_loop (fuel : nat) (s : bpe_state) : res bpe_state :=
  match pq_pop s.(bp_work_queue) with
  | None => Ok s
  | Some (bigram, queue) =>
      match fuel with
      | O => Err NoFuel
      | S fuel => s ← merge_bigram (mk_bpe_state s.(bp_symbols) queue) bigram; merge_loop fuel s
      end
  end.

(** The symbols a word begins with: the whole word where the vocabulary says so,
    else its characters. *)
Definition initial_symbols : res (list llm_symbol) :=
  tok ← (if v_ignore_merges v then text_to_token v word else Ok LLAMA_TOKEN_NULL);
  tok ← (if negb (tok =? LLAMA_TOKEN_NULL) then Ok tok
         else if (v_pre_type v =? LLAMA_VOCAB_PRE_TYPE_GEMMA4) && forallb (Z.eqb 10) word
         then text_to_token v word else Ok LLAMA_TOKEN_NULL);
  if negb (tok =? LLAMA_TOKEN_NULL) then
    split_loop (length word) word (length word) 0 [mk_symbol (-1) (-1) 0 (length word)]
  else split_loop (length word) word 0 0 [].

(** Every entry of the queue is popped once, and a merge adds at most two. *)
Definition merge_word : res (list llm_symbol) :=
  symbols ← initial_symbols;
  s ← seed_bigrams (length symbols - 1) 1 (mk_bpe_state symbols []);
  s ← merge_loop (4 * length symbols) s;
  Ok s.(bp_symbols).

(** [symbols_final], with [final_prev_index]. *)
Definition push_final (st : list final_symbol * Z) (sym : llm_symbol) : res (list final_symbol * Z) :=
  let '(symbols_final, final_prev_index) := st in
  if (0 <? sym.(sym_n))%nat then
    str ← sub_text word sym.(sym_text) sym.(sym_n);
    symbols_final ←
      (if final_prev_index =? -1 then Ok symbols_final
       else
         p ← at_id Oob symbols_final final_prev_index;
         put symbols_final (Z.to_nat final_prev_index)
           (mk_final p.(fs_prev) (i32 (Z.of_nat (length symbols_final))) p.(fs_str)));
    let symbols_final := symbols_final ++ [mk_final final_prev_index (-1) str] in
    Ok (symbols_final, i32 (Z.of_nat (length symbols_final) - 1))
  else Ok st.

Fixpoint push_all (symbols : list llm_symbol) (st : list final_symbol * Z) : res (list final_symbol * Z) :=
  match symbols with
  | [] => Ok st
  | sym :: symbols => st ← push_final st sym; push_all symbols st
  end.
End word.

Fixpoint tokenize_words (words : list bytes) (st : list final_symbol * Z) : res (list final_symbol * Z) :=
  match words with
  | [] => Ok st
  | word :: words =>
      symbols ← merge_word word;
      st ← push_all word symbols st;
      tokenize_words words st
  end.

(** A byte of a symbol that is no token. *)
Definition byte_token (byte_encode : bool) (ch : Z) : res llama_token :=
  if byte_encode then text_to_token v [ch] else text_to_token v (byte_text ch).

Fixpoint spell_bytes (byte_encode : bool) (s : bytes) (output : list llama_token) : res (list llama_token) :=
  match s with
  | [] => Ok output
  | ch :: s =>
      token_multibyte ← byte_token byte_encode ch;
      spell_bytes byte_encode s
        (if negb (token_multibyte =? LLAMA_TOKEN_NULL) then output ++ [token_multibyte] else output)
  end.

(** [for (int i = 0; i != -1; i = symbols[i].next)], at most one round per symbol. *)
Fixpoint emit_loop (fuel : nat) (byte_encode : bool) (symbols : list final_symbol) (i : Z) (output : list llama_token)
    : res (list llama_token) :=
  if i =? -1 then Ok output
  else
    match fuel with
    | O => Err NoFuel
    | S fuel =>
        symbol ← at_id Oob symbols i;
        output ←
          (if (length symbol.(fs_str) =? 0)%nat then Ok output
           else
             token ← text_to_token v symbol.(fs_str);
             if token =? LLAMA_TOKEN_NULL then spell_bytes byte_encode symbol.(fs_str) output
             else Ok (output ++ [token]));
        emit_loop fuel byte_encode symbols symbol.(fs_next) output
    end.

Definition bpe_tokenize (byte_encode : bool) (word_collection : list bytes) (output : list llama_token)
    : res (list llama_token) :=
  '(symbols, _) ← tokenize_words word_collection ([], -1);
  match symbols with
  | [] => Ok output
  | _ => emit_loop (S (length symbols)) byte_encode symbols 0 output
  end.
End bpe.

(** ** Reference *)

(** The priority of a pair: the lower the rank of its merge, the better. *)
Definition bpe_key (v : llama_vocab) (a b : bytes) : option Z :=
  r ← v_bpe_ranks v !! (a, b); if r <? 0 then None else Some (- r).

(** Words that are not split. *)
Definition whole_word (v : llama_vocab) (word : bytes) : bool :=
  (v_ignore_merges v || ((v_pre_type v =? LLAMA_VOCAB_PRE_TYPE_GEMMA4) && forallb (Z.eqb 10) word))
  && bool_decide (is_Some (v_token_to_id v !! word)).

Definition word_segments (v : llama_vocab) (word : bytes) : list bytes :=
  match word with
  | [] => []
  | _ => if whole_word v word then [word] else segments (bpe_key v) word
  end.

(** A segment is a token or is spelled byte by byte; a byte without a token is
    left out. *)
Definition bpe_spell (v : llama_vocab) (byte_encode : bool) (w : bytes) : list llama_token :=
  match v_token_to_id v !! w with
  | Some id => [id]
  | None => omap (λ ch, v_token_to_id v !! (if byte_encode then [ch] else byte_text ch)) w
  end.

(** ** The session computes the reference *)
Section bpe_correct.
Context `{!PriorityQueue bpe_less} (v : llama_vocab) (Hv : vocab_ok v).

Section word_correct.
Context (word : bytes) (Hspace : 32 ∉ word).

Definition bpe_describes (e : llm_bigram_bpe) (l r : nat) (p : Z) (sl sr : bytes) : Prop :=
  e = mk_bigram_bpe (Z.of_nat l) (Z.of_nat r) (sl ++ sr) (- p) (length sl + length sr).

Lemma bpe_describes_inj e l r p sl sr l' r' p' sl' sr' :
  bpe_describes e l r p sl sr → bpe_describes e l' r' p' sl' sr' → l = l'.
Proof using. unfold bpe_describes. intros -> [= ?]. lia. Qed.

(** The session holds the chain [cs]. *)
Record state_ok (s : bpe_state) (cs : links) : Prop := {
  so_chain : chain_ok word (bp_symbols s) cs;
  so_queue : queue_ok (bpe_key v) word bpe_describes (bp_symbols s) cs (bp_work_queue s);
}.

Lemma find_bpe_rank_ok syms cs k i w k' i' w' : chain_ok word syms cs → cs !! k = Some (i, w) → cs !! k' = Some (i', w') →
  find_bpe_rank v w w' = Ok (default (-1) (v_bpe_ranks v !! (w, w'))).
Proof using Hspace.
  intros Hcs Hk Hk'. unfold find_bpe_rank.
  rewrite !bool_decide_eq_true_2 by (intros Hin; apply Hspace;
    first [exact (chain_word_subseteq word syms cs _ _ _ Hcs Hk 32 Hin)|exact (chain_word_subseteq word syms cs _ _ _ Hcs Hk' 32 Hin)]). done.
Qed.

Lemma add_new_bigram_spec s cs k l r wl wr : chain_ok word (bp_symbols s) cs →
  cs !! k = Some (l, wl) → cs !! S k = Some (r, wr) →
  add_new_bigram v word s (Z.of_nat l) (Z.of_nat r) =
    Ok (match bpe_key v wl wr with
        | Some p => mk_bpe_state (bp_symbols s) (bp_work_queue s ++
            [mk_bigram_bpe (Z.of_nat l) (Z.of_nat r) (wl ++ wr) (- p) (length wl + length wr)])
        | None => s
        end).
Proof using Hspace.
  intros Hcs Hl Hr. destruct (live_entry word _ cs k l r wl wr Hcs Hl Hr) as (x & y & Hx & Hy & _ & _ & _ & _ & Hwl & Hwr & _).
  unfold add_new_bigram. rewrite (proj2 (Z.eqb_neq _ _)), (proj2 (Z.eqb_neq _ _)) by lia. cbn [orb].
  rewrite (sym_at_nat _ _ _ Hx). cbn [mbind res_bind]. rewrite Hwl. cbn [mbind res_bind].
  rewrite (sym_at_nat _ _ _ Hy). cbn [mbind res_bind]. rewrite Hwr. cbn [mbind res_bind].
  rewrite (find_bpe_rank_ok _ cs _ _ _ _ _ _ Hcs Hl Hr). cbn [mbind res_bind]. unfold bpe_key.
  destruct (v_bpe_ranks v !! (wl, wr)) as [rank|]; [|done]. cbn. destruct (Z.ltb_spec rank 0); [done|].
  by rewrite Z.opp_involutive.
Qed.

Lemma add_new_extends s cs lz rz : chain_ok word (bp_symbols s) cs →
  (lz = -1 ∨ rz = -1) ∨ (∃ j, neighbours cs j lz rz) →
  ∃ s', add_new_bigram v word s lz rz = Ok s' ∧ bp_symbols s' = bp_symbols s ∧
    extended (bpe_key v) word bpe_describes (bp_symbols s) cs lz rz (bp_work_queue s) (bp_work_queue s').
Proof using Hspace.
  intros Hcs [Hno|(j & l & r & wl & wr & Hl & Hr & -> & ->)].
  { exists s. split_and!; [|done|by apply extended_none]. unfold add_new_bigram. by destruct Hno as [->| ->]; rewrite ?orb_true_r. }
  eexists. split; [by eapply add_new_bigram_spec|].
  pose proof (λ e, extended_add (bpe_key v) word bpe_describes (bp_symbols s) cs j l r wl wr (bp_work_queue s) e Hcs Hl Hr) as Hext.
  destruct (bpe_key v wl wr) as [p|] eqn:Hp; cbn; split; try done.
  - apply Hext. by intros ? [= ->].
  - by apply (Hext (mk_bigram_bpe 0 0 [] 0 0)).
Qed.

Lemma bpe_seed_bigrams_spec syms cs n : ∀ i s, chain_ok word syms cs → bp_symbols s = syms →
  (∀ k l w, cs !! k = Some (l, w) → l = k) → (n = 0%nat ∧ length cs ≤ S i ∨ S (i + n) = length cs)%nat →
  seeded (bpe_key v) word bpe_describes syms cs i (bp_work_queue s) →
  ∃ s', seed_bigrams v word n (Z.of_nat (S i)) s = Ok s' ∧ state_ok s' cs ∧
    (length (bp_work_queue s') ≤ length (bp_work_queue s) + n)%nat.
Proof using Hspace.
  induction n as [|n IH]; intros i s Hcs Hs Hidx Hn Hsd; cbn [seed_bigrams].
  - exists s. split_and!; [done| |lia]. split; [by rewrite Hs|]. rewrite Hs.
    apply (seeded_queue _ _ _ _ _ i); [lia|done].
  - destruct (lookup_lt_is_Some_2 cs i) as [[l wl] Hl]; [lia|]. destruct (lookup_lt_is_Some_2 cs (S i)) as [[r wr] Hr]; [lia|].
    pose proof (Hidx _ _ _ Hl) as ->. pose proof (Hidx _ _ _ Hr) as ->.
    replace (Z.of_nat (S i) - 1) with (Z.of_nat i) by lia. replace (Z.of_nat (S i) + 1) with (Z.of_nat (S (S i))) by lia.
    destruct (add_new_extends s cs (Z.of_nat i) (Z.of_nat (S i))) as (s1 & -> & Hs1 & Hext);
      [by rewrite Hs|right; by exists i, i, (S i), wl, wr|]. cbn [mbind res_bind]. rewrite Hs in *.
    destruct (IH (S i) s1 Hcs Hs1 Hidx) as (s' & Hrun & Hok & Hlen); [lia|by eapply seeded_step|].
    exists s'. split_and!; [done|done|]. pose proof (ex_length _ _ _ _ _ _ _ _ _ Hext). lia.
Qed.

Lemma bpe_greatest l r p sl sr e x l' r' p' sl' sr' : bpe_describes e l r p sl sr → bpe_describes x l' r' p' sl' sr' →
  bpe_less e x = false → p' < p ∨ p' = p ∧ (l ≤ l')%nat.
Proof using.
  intros -> -> Hmax. unfold bpe_less in Hmax. cbn in Hmax. apply orb_false_iff in Hmax as [Hm1 Hm2]. apply Z.ltb_ge in Hm1.
  apply andb_false_iff in Hm2 as [Hm2|Hm2]; [apply Z.eqb_neq in Hm2; lia|apply Z.ltb_ge in Hm2; lia].
Qed.

(** The test of an entry: it describes two neighbours, or is skipped. *)
Lemma bpe_live s cs e q l r p sl sr : state_ok s cs → bp_work_queue s ≡ₚ e :: q → bpe_describes e l r p sl sr →
  entry_ok (bpe_key v) word (bp_symbols s) l r p sl sr →
  (merge_bigram v word (mk_bpe_state (bp_symbols s) q) e = Ok (mk_bpe_state (bp_symbols s) q) ∧
   state_ok (mk_bpe_state (bp_symbols s) q) cs) ∨
  (∃ k, cs !! k = Some (l, sl) ∧ cs !! S k = Some (r, sr)).
Proof using.
  intros [Hcs Hqo] Hq Hd Hen.
  destruct (lookup_lt_is_Some_2 _ _ (en_left _ _ _ _ _ _ _ _ Hen)) as [x Hx].
  destruct (lookup_lt_is_Some_2 _ _ (en_right _ _ _ _ _ _ _ _ Hen)) as [y Hy].
  destruct (decide (sym_n x ≠ 0%nat ∧ sym_n y ≠ 0%nat ∧ (sym_n x + sym_n y = length sl + length sr)%nat)) as [(Hnx & Hny & Hsize)|Hno].
  { right. by eapply entry_live. }
  left. split.
  - unfold merge_bigram. rewrite Hd. cbn [bb_left bb_right bb_text bp_symbols].
    rewrite (sym_at_nat _ _ _ Hx), (sym_at_nat _ _ _ Hy). cbn [mbind res_bind].
    destruct (Nat.eqb_spec (sym_n x) 0); [done|]. destruct (Nat.eqb_spec (sym_n y) 0); [done|]. cbn [orb].
    destruct (co_dead _ _ _ Hcs l x Hx) as (i & wx & Hi); [done|]. destruct (co_dead _ _ _ Hcs r y Hy) as (j & wy & Hj); [done|].
    rewrite (chain_sub_text word _ cs Hcs i l wx x Hi Hx). cbn [mbind res_bind].
    rewrite (chain_sub_text word _ cs Hcs j r wy y Hj Hy). cbn [mbind res_bind].
    rewrite bool_decide_eq_false_2; [done|]. intros Heq. apply (f_equal length) in Heq. rewrite !length_app in Heq.
    destruct (chain_word word _ cs Hcs i l wx x Hi Hx) as (_ & ? & _). destruct (chain_word word _ cs Hcs j r wy y Hj Hy) as (_ & ? & _). lia.
  - split; [done|]. apply (queue_skip _ _ _ _ _ e _ _ Hqo Hq). intros k l' r' wl wr p' Hl Hr Hd'. apply Hno.
    destruct (live_entry word _ cs k l' r' wl wr Hcs Hl Hr) as (x' & y' & Hx' & Hy' & Hnx & Hny & Hwl & Hwr & _).
    unfold bpe_describes in Hd, Hd'. rewrite Hd in Hd'. injection Hd' as Hll Hrr _ _ Hsz. apply Nat2Z.inj in Hll, Hrr. subst l' r'.
    destruct wl, wr; try done. simplify_eq. cbn in *. lia.
Qed.

Lemma bpe_merge_bigram_spec s cs e q : state_ok s cs → bp_work_queue s ≡ₚ e :: q → (∀ x, x ∈ q → bpe_less e x = false) →
  ∃ s', merge_bigram v word (mk_bpe_state (bp_symbols s) q) e = Ok s' ∧
    ((state_ok s' cs ∧ length (bp_work_queue s') = length q) ∨
     ∃ k p, state_ok s' (merge_links k cs) ∧ (S k < length cs)%nat ∧
       best_pair (bpe_key v) 0 cs.*2 None = Some (p, k) ∧ (length (bp_work_queue s') ≤ length q + 2)%nat).
Proof using Hspace.
  intros Hs Hq Hmax. pose proof Hs as [Hcs Hqo].
  destruct (qo_entry _ _ _ _ _ _ Hqo e) as (l & r & p & sl & sr & Hd & Hen); [rewrite Hq; by left|].
  destruct (bpe_live s cs e q l r p sl sr Hs Hq Hd Hen) as [[Hrun Hok]|(k & Hl & Hr)].
  { eexists. split; [exact Hrun|]. left. by split. }
  destruct (live_entry word _ cs k l r sl sr Hcs Hl Hr) as (x & y & Hx & Hy & Hnx & Hny & Hsl & Hsr & Hwx & Hwy & _).
  destruct (merge_chain word _ cs Hcs k l r sl sr Hl Hr) as (syms' & Hmg & Hcs').
  unfold merge_bigram. rewrite Hd. cbn [bb_left bb_right bb_text bp_symbols bp_work_queue].
  rewrite (sym_at_nat _ _ _ Hx), (sym_at_nat _ _ _ Hy). cbn [mbind res_bind].
  destruct (Nat.eqb_spec (sym_n x) 0) as [H0|_]; [destruct sl; [done|]; rewrite Hnx in H0; done|].
  destruct (Nat.eqb_spec (sym_n y) 0) as [H0|_]; [destruct sr; [done|]; rewrite Hny in H0; done|]. cbn [orb].
  rewrite Hwx. cbn [mbind res_bind]. rewrite Hwy. cbn [mbind res_bind]. rewrite bool_decide_eq_true_2 by done. cbn [negb].
  pose proof Hmg as [Hrun _ (left & Hleft & _ & Hprev & Hnext) _ _]. rewrite Hrun. cbn [mbind res_bind].
  rewrite (sym_at_nat _ _ _ Hleft). cbn [mbind res_bind]. rewrite Hprev.
  destruct (add_new_extends (mk_bpe_state syms' q) (merge_links k cs) (idx_before cs k) (Z.of_nat l))
    as (s1 & -> & Hs1 & Hext1); [done|destruct (merge_left_neighbour cs k l r sl sr Hl Hr); auto|].
  cbn [bp_symbols bp_work_queue mbind res_bind] in *. rewrite Hs1, (sym_at_nat _ _ _ Hleft). cbn [mbind res_bind]. rewrite Hnext.
  destruct (add_new_extends s1 (merge_links k cs) (Z.of_nat l) (idx_at cs (S (S k))))
    as (s2 & -> & Hs2 & Hext2); [by rewrite Hs1|destruct (merge_right_neighbour cs k l r sl sr Hl Hr); auto|].
  rewrite Hs1 in *. exists s2. split; [done|]. right. exists k, p. split_and!.
  - split; [by rewrite Hs2|]. rewrite Hs2.
    by eapply (queue_round _ _ _ bpe_describes_inj (bp_symbols s) syms' cs k l r sl sr p e _ q).
  - by apply lookup_lt_Some in Hr.
  - apply (queue_best (bpe_key v) word bpe_describes bpe_describes_inj (bp_symbols s) cs k l r sl sr p e (bp_work_queue s) q); try done.
    + apply (en_key _ _ _ _ _ _ _ _ Hen).
    + intros z l' r' p' sl' sr' Hz Hdz. by eapply bpe_greatest; [..|apply Hmax, Hz].
  - pose proof (ex_length _ _ _ _ _ _ _ _ _ Hext1). pose proof (ex_length _ _ _ _ _ _ _ _ _ Hext2). cbn in *. lia.
Qed.

Lemma bpe_merge_loop_spec fuel : ∀ s cs m, state_ok s cs → (length (bp_work_queue s) + 3 * length cs ≤ fuel)%nat →
  (length cs ≤ m)%nat →
  ∃ s' cs', merge_loop v word fuel s = Ok s' ∧ state_ok s' cs' ∧ cs'.*2 = merge_greedily (bpe_key v) m cs.*2.
Proof using Hspace.
  induction fuel as [|fuel IH]; intros s cs m Hs Hf Hm; cbn [merge_loop];
    (destruct (pq_pop (bp_work_queue s)) as [[e q]|] eqn:Hpop;
     [pose proof (pq_pop_max _ _ _ Hpop) as [Hq Hmax]; pose proof (Permutation_length Hq) as Hlen; cbn in Hlen; try lia|
      apply pq_pop_nil in Hpop; exists s, cs; split_and!; [done|done|]; symmetry;
      apply merge_greedily_none, (queue_empty _ word bpe_describes (bp_symbols s)); rewrite <- Hpop; apply Hs]).
  destruct (bpe_merge_bigram_spec s cs e q Hs Hq Hmax) as (s1 & -> & [[Hs1 Hl1]|(k & p & Hs1 & Hk & Hbest & Hl1)]); cbn [mbind res_bind].
  - apply (IH s1 cs m Hs1); lia.
  - pose proof (merge_links_length k cs Hk). destruct m as [|m]; [lia|].
    rewrite (merge_greedily_S _ _ _ _ _ Hbest). apply (IH s1 (merge_links k cs) m Hs1); lia.
Qed.

(** *** A word *)

Lemma split_loop_end (w : bytes) fuel index symbols : split_loop fuel w (length w) index symbols = Ok symbols.
Proof using. destruct fuel; cbn [split_loop]; by rewrite Nat.ltb_irrefl. Qed.

(** The chain a word begins with. *)
Definition initial_links : links :=
  match word with
  | [] => []
  | _ => if whole_word v word then [(0%nat, word)] else char_links (chars word)
  end.

Lemma whole_chain : word ≠ [] → chain_ok word [mk_symbol (-1) (-1) 0 (length word)] [(0%nat, word)].
Proof using.
  clear Hspace. intros Hne. split.
  - cbn. by rewrite app_nil_r.
  - intros [|k] i w Hk; [|done]. cbn in Hk. by simplify_eq.
  - intros j k i i' w w' Hjk Hj Hk. destruct k; [lia|done].
  - intros [|i] s Hs _; [|done]. by exists 0%nat, word.
  - by intros i w [= <- _].
Qed.

Lemma whole_word_chosen :
  (tok ← (if v_ignore_merges v then text_to_token v word else Ok LLAMA_TOKEN_NULL);
   tok ← (if negb (tok =? LLAMA_TOKEN_NULL) then Ok tok
          else if (v_pre_type v =? LLAMA_VOCAB_PRE_TYPE_GEMMA4) && forallb (Z.eqb 10) word
          then text_to_token v word else Ok LLAMA_TOKEN_NULL);
   Ok (negb (tok =? LLAMA_TOKEN_NULL))) = Ok (whole_word v word).
Proof using Hv.
  unfold whole_word. destruct (v_token_to_id v !! word) as [id|] eqn:Hid.
  - rewrite (text_to_token_Some v Hv _ _ Hid). destruct (token_id_range v Hv _ _ Hid) as (_ & _ & Hne & _).
    apply Z.eqb_neq in Hne. rewrite (bool_decide_eq_true_2 (is_Some _)) by done.
    destruct (v_ignore_merges v), (_ && forallb _ _); cbn [mbind res_bind negb andb orb];
      rewrite ?Z.eqb_refl; cbn [mbind res_bind negb]; rewrite ?Hne; cbn [mbind res_bind negb]; rewrite ?Hne, ?Z.eqb_refl; done.
  - rewrite (text_to_token_None v Hv _ Hid), (bool_decide_eq_false_2 (is_Some _)) by (by intros []).
    by destruct (v_ignore_merges v), (_ && forallb _ _).
Qed.

Lemma initial_symbols_spec : Z.of_nat (length word) < 2 ^ 31 →
  ∃ symbols, initial_symbols v word = Ok symbols ∧ chain_ok word symbols initial_links ∧
    (length symbols = length initial_links ∨ word = [] ∧ length symbols ≤ 1)%nat.
Proof using Hv.
  clear Hspace. intros Hlen. pose proof whole_word_chosen as Hch. unfold initial_symbols.
  destruct (if v_ignore_merges v then _ else _) as [tok|]; [|done]. cbn [mbind res_bind] in *.
  destruct (if negb (tok =? _) then _ else _) as [tok'|]; [|done]. cbn [mbind res_bind] in *. injection Hch as ->.
  unfold initial_links. destruct (whole_word v word) eqn:Hw.
  - rewrite split_loop_end. eexists. split; [done|]. destruct word as [|c w] eqn:Hc.
    + split; [|right; split; [done|cbn; lia]]. split; try done. by intros [|i] s [= <-].
    + rewrite <- Hc. split; [apply whole_chain; by rewrite Hc|by left].
  - pose proof (split_chars_spec word Hlen) as Hsplit. unfold split_chars in Hsplit. rewrite Hsplit.
    eexists. split; [done|]. destruct word as [|c w] eqn:Hc.
    + split; [|by left]. by apply (chars_chain []).
    + rewrite <- Hc. split; [apply chars_chain|left]. by rewrite char_syms_length, char_links_length.
Qed.

Lemma initial_links_words : merge_greedily (bpe_key v) (length initial_links) initial_links.*2 = word_segments v word.
Proof using.
  clear Hspace. unfold initial_links, word_segments. destruct word as [|c w] eqn:Hc; [done|]. rewrite <- Hc.
  destruct (whole_word v word); [done|]. by rewrite char_links_words, char_links_length.
Qed.

Lemma initial_links_idx k l w : initial_links !! k = Some (l, w) → l = k.
Proof using.
  clear Hspace. unfold initial_links. destruct word; [done|]. destruct (whole_word v _).
  - destruct k; [|done]. by intros [= <- _].
  - rewrite char_links_lookup. destruct (chars _ !! k); [|done]. by intros [= <- _].
Qed.

Lemma merge_word_spec : Z.of_nat (length word) < 2 ^ 31 →
  ∃ symbols, merge_word v word = Ok symbols ∧ live_words word symbols = word_segments v word ∧
    ∃ cs, chain_ok word symbols cs.
Proof using Hv Hspace.
  intros Hlen. destruct (initial_symbols_spec Hlen) as (syms & Hsy & Hcs & Hl). unfold merge_word. rewrite Hsy. cbn [mbind res_bind].
  assert (length initial_links ≤ length syms)%nat as Hle by (destruct Hl as [->|[Hw _]]; [lia|unfold initial_links; rewrite Hw; cbn; lia]).
  destruct (bpe_seed_bigrams_spec syms initial_links (length syms - 1) 0 (mk_bpe_state syms [])) as (s1 & Hseed & Hok & Hq);
    [done|done|apply initial_links_idx| |apply seeded_nil|].
  { destruct Hl as [Hl|[Hw Hl]]; [rewrite Hl|].
    - destruct (length initial_links); lia.
    - unfold initial_links. rewrite Hw. cbn. lia. }
  change (Z.of_nat 1) with 1 in Hseed. rewrite Hseed. cbn [mbind res_bind]. cbn in Hq.
  destruct (bpe_merge_loop_spec (4 * length syms) s1 initial_links (length initial_links) Hok) as (s2 & cs2 & -> & Hok2 & Hw2); [lia|lia|].
  cbn [mbind res_bind]. exists (bp_symbols s2). split_and!; [done| |by exists cs2; apply Hok2].
  rewrite (chain_live_words _ _ cs2) by apply Hok2. by rewrite Hw2, initial_links_words.
Qed.
End word_correct.

(** *** The final symbols *)

Definition finals (ws : list bytes) : list final_symbol :=
  imap (λ i w, mk_final (Z.of_nat i - 1) (if decide (S i < length ws)%nat then Z.of_nat (S i) else -1) w) ws.

Lemma finals_lookup ws i : finals ws !! i =
  w ← ws !! i; Some (mk_final (Z.of_nat i - 1) (if decide (S i < length ws)%nat then Z.of_nat (S i) else -1) w).
Proof using. unfold finals. rewrite list_lookup_imap. by destruct (ws !! i). Qed.

Lemma finals_length ws : length (finals ws) = length ws.
Proof using. apply length_imap. Qed.

Definition finals_state (ws : list bytes) : list final_symbol * Z := (finals ws, Z.of_nat (length ws) - 1).

Lemma finals_snoc ws w : ws ≠ [] → ∃ p, finals ws !! (length ws - 1)%nat = Some p ∧
  <[(length ws - 1)%nat := mk_final (fs_prev p) (Z.of_nat (length ws)) (fs_str p)]> (finals ws)
    ++ [mk_final (Z.of_nat (length ws) - 1) (-1) w] = finals (ws ++ [w]).
Proof using.
  intros Hne. assert (length ws ≠ 0)%nat by (by destruct ws).
  destruct (lookup_lt_is_Some_2 ws (length ws - 1)) as [u Hu]; [lia|].
  rewrite finals_lookup, Hu. eexists. split; [done|]. cbn [fs_prev fs_str]. apply list_eq. intros i.
  destruct (decide (i < length ws)%nat) as [Hi|Hi].
  - rewrite lookup_app_l by (by rewrite length_insert, finals_length). rewrite finals_lookup, lookup_app_l, length_app by done. cbn [length].
    destruct (decide (i = length ws - 1)%nat) as [->|Hne'].
    + rewrite list_lookup_insert_eq by (rewrite finals_length; lia). rewrite Hu. cbn. rewrite decide_True by lia.
      do 2 f_equal. lia.
    + rewrite list_lookup_insert_ne, finals_lookup by lia. destruct (ws !! i); [|done]. cbn.
      by rewrite !decide_True by lia.
  - rewrite lookup_app_r by (rewrite length_insert, finals_length; lia). rewrite length_insert, finals_length, finals_lookup.
    destruct (decide (i = length ws)) as [->|].
    + rewrite Nat.sub_diag, lookup_app_r, Nat.sub_diag, length_app by lia. cbn. by rewrite decide_False by lia.
    + rewrite lookup_ge_None_2 by (cbn; lia). rewrite lookup_ge_None_2 by (rewrite length_app; cbn; lia). done.
Qed.

Lemma push_final_spec word ws sym :
  (sym_n sym ≠ 0%nat → sub_text word (sym_text sym) (sym_n sym) = Ok (sym_word word sym)) →
  Z.of_nat (length ws) + 1 < 2 ^ 31 →
  push_final word (finals_state ws) sym =
    Ok (finals_state (if decide (sym_n sym ≠ 0%nat) then ws ++ [sym_word word sym] else ws)).
Proof using.
  intros Hsub Hlen. unfold push_final, finals_state. destruct (Nat.ltb_spec 0 (sym_n sym)) as [Hn|Hn];
    [rewrite decide_True by lia|by rewrite decide_False by lia].
  rewrite Hsub by lia. cbn [mbind res_bind]. rewrite finals_length, i32_small by lia.
  destruct (decide (ws = [])) as [->|Hne]; [done|]. assert (length ws ≠ 0)%nat by (by destruct ws).
  rewrite (proj2 (Z.eqb_neq _ _)) by lia. unfold at_id. rewrite (proj2 (Z.ltb_ge _ _)) by lia.
  destruct (finals_snoc ws (sym_word word sym) Hne) as (p & Hp & Heq).
  replace (Z.to_nat (Z.of_nat (length ws) - 1)) with (length ws - 1)%nat by lia. rewrite Hp. cbn [mbind res_bind].
  rewrite put_lt by (rewrite finals_length; lia). cbn [mbind res_bind]. rewrite Heq, finals_length, !length_app. cbn [length].
  rewrite i32_small by lia. do 2 f_equal.
Qed.

Lemma push_all_spec word cs syms' syms : ∀ ws, chain_ok word syms' cs → syms ⊆ syms' →
  Z.of_nat (length ws + length (live_words word syms)) < 2 ^ 31 - 1 →
  push_all word syms (finals_state ws) = Ok (finals_state (ws ++ live_words word syms)).
Proof using.
  induction syms as [|s syms IH]; intros ws Hcs Hsub Hlen; [by rewrite app_nil_r|]. cbn [push_all].
  assert (s ∈ syms') as [i Hi]%list_elem_of_lookup by (apply Hsub; left).
  unfold live_words in *. rewrite filter_cons in *. rewrite push_final_spec.
  - cbn [mbind res_bind]. destruct (decide (sym_n s ≠ 0%nat)).
    + rewrite IH; [|done|by intros x Hx; apply Hsub; right|rewrite length_app; cbn in *; lia]. by rewrite <- app_assoc.
    + apply IH; [done|by intros x Hx; apply Hsub; right|done].
  - intros Hn. destruct (co_dead _ _ _ Hcs i s Hi Hn) as (k & w & Hk). rewrite (chain_sub_text word _ cs Hcs k i w s Hk Hi).
      by destruct (chain_word word _ cs Hcs k i w s Hk Hi) as (-> & _).
  - destruct (decide _); cbn in *; lia.
Qed.

Definition all_segments (words : list bytes) : list bytes := concat (word_segments v <$> words).

Lemma tokenize_words_spec words : ∀ ws, (∀ w, w ∈ words → (32 ∉ w) ∧ Z.of_nat (length w) < 2 ^ 31) →
  Z.of_nat (length ws + length (all_segments words)) < 2 ^ 31 - 1 →
  tokenize_words v words (finals_state ws) = Ok (finals_state (ws ++ all_segments words)).
Proof using Hv.
  induction words as [|w words IH]; intros ws Hw Hlen; cbn [tokenize_words]; [by rewrite app_nil_r|].
  unfold all_segments in *. cbn [fmap list_fmap concat] in *. rewrite length_app in Hlen.
  destruct (Hw w ltac:(left)) as [Hsp Hl]. destruct (merge_word_spec w Hsp Hl) as (syms & -> & Hlive & cs & Hcs). cbn [mbind res_bind].
  rewrite (push_all_spec w cs syms syms ws Hcs) by (done || rewrite Hlive; lia). cbn [mbind res_bind]. rewrite Hlive.
  rewrite IH, <- app_assoc; [done|intros x Hx; apply Hw; by right|]. rewrite length_app. lia.
Qed.

Lemma spell_bytes_spec byte_encode w : ∀ output, spell_bytes v byte_encode w output =
  Ok (output ++ omap (λ ch, v_token_to_id v !! (if byte_encode then [ch] else byte_text ch)) w).
Proof using Hv.
  induction w as [|ch w IH]; intros output; cbn [spell_bytes]; [by rewrite app_nil_r|].
  assert (byte_token v byte_encode ch = text_to_token v (if byte_encode then [ch] else byte_text ch)) as ->
    by (unfold byte_token; by destruct byte_encode).
  set (t := if byte_encode then [ch] else byte_text ch). cbn [omap list_omap]. fold t.
  destruct (v_token_to_id v !! t) as [id|] eqn:Hid.
  - rewrite (text_to_token_Some v Hv _ _ Hid). cbn [mbind res_bind]. destruct (token_id_range v Hv _ _ Hid) as (_ & _ & Hne & _).
    rewrite (proj2 (Z.eqb_neq _ _) Hne). cbn [negb]. rewrite IH, <- app_assoc. done.
  - rewrite (text_to_token_None v Hv _ Hid). cbn [mbind res_bind]. rewrite Z.eqb_refl. cbn [negb]. apply IH.
Qed.

Lemma bpe_emit_loop_spec byte_encode fuel : ∀ ws k output, (∀ w, w ∈ ws → w ≠ []) → (length ws < fuel + k)%nat →
  emit_loop v fuel byte_encode (finals ws) (if decide (k < length ws)%nat then Z.of_nat k else -1) output =
    Ok (output ++ concat (bpe_spell v byte_encode <$> drop k ws)).
Proof using Hv.
  induction fuel as [|fuel IH]; intros ws k output Hne Hk; cbn [emit_loop].
  - rewrite decide_False, drop_ge by lia. by rewrite app_nil_r.
  - destruct (decide (k < length ws)%nat) as [Hlt|Hge]; [|rewrite drop_ge by lia; by rewrite app_nil_r].
    rewrite (proj2 (Z.eqb_neq _ _)) by lia. destruct (lookup_lt_is_Some_2 ws k Hlt) as [w Hw].
    unfold at_id. rewrite (proj2 (Z.ltb_ge _ _)) by lia. rewrite Nat2Z.id, finals_lookup, Hw. cbn [mbind res_bind option_bind fs_str fs_next].
    assert (w ≠ []) as Hwne by (by eapply Hne, list_elem_of_lookup_2).
    destruct (Nat.eqb_spec (length w) 0); [by destruct w|]. rewrite (drop_S _ _ _ Hw). cbn [fmap list_fmap concat]. rewrite app_assoc.
    rewrite <- (IH ws (S k)) by (done || lia). unfold bpe_spell at 1. destruct (v_token_to_id v !! w) as [id|] eqn:Hid.
    + rewrite (text_to_token_Some v Hv _ _ Hid). cbn [mbind res_bind]. destruct (token_id_range v Hv _ _ Hid) as (_ & _ & Hni & _).
      by rewrite (proj2 (Z.eqb_neq _ _) Hni).
    + rewrite (text_to_token_None v Hv _ Hid). cbn [mbind res_bind]. rewrite Z.eqb_refl, spell_bytes_spec. done.
Qed.

Lemma word_segments_concat word : concat (word_segments v word) = word.
Proof using.
  unfold word_segments. destruct word as [|c w] eqn:Hw; [done|]. rewrite <- Hw.
  destruct (whole_word v word); [cbn; by rewrite app_nil_r|apply segments_concat].
Qed.

Lemma word_segments_ne word w : w ∈ word_segments v word → w ≠ [].
Proof using.
  unfold word_segments. destruct word as [|c w'] eqn:Hw; [by intros ?%elem_of_nil|]. rewrite <- Hw.
  destruct (whole_word v word); [rewrite list_elem_of_singleton; intros ->; by rewrite Hw|apply segments_ne].
Qed.

Lemma all_segments_concat words : concat (all_segments words) = concat words.
Proof using.
  unfold all_segments. induction words as [|w words IH]; [done|]. cbn. by rewrite concat_app, IH, word_segments_concat.
Qed.

Lemma all_segments_ne words w : w ∈ all_segments words → w ≠ [].
Proof using.
  unfold all_segments. intros (ws & Hws & Hw)%list_elem_of_In%in_concat. apply list_elem_of_In in Hw, Hws.
  apply list_elem_of_fmap in Hws as (word & -> & _). by apply word_segments_ne in Hw.
Qed.
End bpe_correct.

(** C35. The session computes the greedy segmentation of each word: starting from the
    characters, the leftmost pair whose merge has the lowest rank is merged until
    no merge applies (words that the vocabulary keeps whole are not split), and
    the segments of all words are written in order, as tokens or byte by byte. *)
Theorem bpe_tokenize_greedy `{!PriorityQueue bpe_less} (v : llama_vocab) (byte_encode : bool)
    (words : list bytes) (output : list llama_token) :
  vocab_ok v → 32 ∉ concat words → Z.of_nat (length (concat words)) < 2 ^ 31 - 1 →
  bpe_tokenize v byte_encode words output =
    Ok (output ++ concat (bpe_spell v byte_encode <$> concat (word_segments v <$> words))).
Proof.
  intros Hv Hspace Hlen. unfold bpe_tokenize.
  pose proof (concat_length_ne (all_segments v words) (all_segments_ne v words)) as Hseg. rewrite all_segments_concat in Hseg.
  change ([], -1) with (finals_state []). rewrite (tokenize_words_spec v Hv words []); [| |cbn; lia].
  - cbn [mbind res_bind finals_state app]. fold (all_segments v words). destruct (finals (all_segments v words)) as [|f fs] eqn:Hf.
    + apply (f_equal length) in Hf. rewrite finals_length in Hf. destruct (all_segments v words); [|done]. by rewrite app_nil_r.
    + rewrite <- Hf, finals_length. rewrite <- (drop_0 (all_segments v words)) at 3. rewrite <- (bpe_emit_loop_spec v Hv byte_encode (S (length (all_segments v words)))).
      * rewrite decide_True; [done|]. rewrite <- finals_length, Hf. cbn. lia.
      * intros w. apply all_segments_ne.
      * lia.
  - intros w Hw. split.
    + intros Hin. apply Hspace. apply list_elem_of_In, in_concat. exists w. by rewrite <- !list_elem_of_In.
    + apply list_elem_of_split in Hw as (l1 & l2 & ->). rewrite concat_app, length_app in Hlen. cbn in Hlen. rewrite length_app in Hlen. lia.
Qed.

(** ** A run *)

#[export] Instance bpe_select_queue : PriorityQueue bpe_less.
Proof.
  apply select_queue; unfold bpe_less.
  - intros a. rewrite !Z.ltb_irrefl. apply andb_false_r.
  - intros a b. rewrite orb_true_iff, orb_false_iff, andb_true_iff, andb_false_iff. lia.
  - intros a b c. rewrite !orb_false_iff, !andb_false_iff. lia.
Defined.

(** The merges b c (first) and a b. *)
Definition ex_bpe : llama_vocab :=
  vocab_of LLAMA_VOCAB_TYPE_BPE
    [mk_file_token (str "a") None None; mk_file_token (str "b") None None; mk_file_token (str "c") None None;
     mk_file_token (str "ab") None None; mk_file_token (str "bc") None None]
    {[ (str "b", str "c") := 0; (str "a", str "b") := 1 ]}.

Lemma bpe_tokenize_greedy_witness :
  bpe_tokenize ex_bpe true [str "abc"; str "abd"] [] =
    Ok ([] ++ concat (bpe_spell ex_bpe true <$> concat (word_segments ex_bpe <$> [str "abc"; str "abd"]))) ∧
  concat (bpe_spell ex_bpe true <$> concat (word_segments ex_bpe <$> [str "abc"; str "abd"])) = [0; 4; 3].
Proof.
  split; [|vm_compute; reflexivity].
  apply (bpe_tokenize_greedy ex_bpe true [str "abc"; str "abd"] []); [|apply (bool_decide_unpack _); vm_compute; exact I|vm_compute; reflexivity].
  apply vocab_of_ok; [discriminate|vm_compute; reflexivity].
Defined.
