(* ===== verification/SpecialTokens.v ===== *)
(** * Special tokens in a text (src/llama-vocab.cpp, tokenizer_st_partition)

    Before a text is tokenized the texts of special tokens are found in it: the
    text becomes a list of fragments, tokens and pieces of raw text.  It is shown
    that no piece contains a special text any more, and that nothing is lost but the
    white space that tokens strip. *)
From S2P Require Import Prelude Vocab VocabLemmas.

(** ** Data *)

(** [fragment_buffer_variant]: a token, or [length] bytes of the text from
    [offset]. *)
Inductive fragment_buffer_variant : Type :=
  | FragToken (token : llama_token)
  | FragText (offset length : nat).

#[global] Instance fragment_eq_dec : EqDecision fragment_buffer_variant.
Proof. solve_decision. Defined.

(** ** The buffer

    A [std::forward_list]; an iterator is the index of its element. *)
Definition emplace_after (buffer : list fragment_buffer_variant) (it : nat) (f : fragment_buffer_variant)
    : list fragment_buffer_variant := take (S it) buffer ++ f :: drop (S it) buffer.

Section partition.
Context (raw_text : bytes).

(** The constructor for raw text. *)
Definition frag_text (offset length : nat) : res fragment_buffer_variant :=
  _ ← ggml_assert (1 <=? length)%nat;
  _ ← ggml_assert (offset + length <=? List.length raw_text)%nat;
  Ok (FragText offset length).

(** [while (length > 0 && isspace(raw_text[offset + length - 1])) length--] *)
Fixpoint lstrip_length (offset length : nat) : res nat :=
  match length with
  | O => Ok 0%nat
  | S length' => c ← at_ raw_text (offset + length'); if isspace c then lstrip_length offset length' else Ok length
  end.

(** [while (length > 0 && isspace(raw_text[offset])) { offset++; length--; }] *)
Fixpoint rstrip_bounds (offset length : nat) : res (nat * nat) :=
  match length with
  | O => Ok (offset, 0%nat)
  | S length' => c ← at_ raw_text offset; if isspace c then rstrip_bounds (S offset) length' else Ok (offset, length)
  end.

Section token.
Context (special_id : llama_token) (data : token_data).

(** One occurrence at [match_]: the fragment [it] is replaced by the text before
    it, the token and the text behind it.  The new iterator and, unless the
    occurrence ends the fragment, the bounds of the text behind it. *)
Definition split_at (buffer : list fragment_buffer_variant) (it base_offset base_length match_ : nat)
    : res (list fragment_buffer_variant * nat * option (nat * nat)) :=
  let source := it in
  '(buffer, it) ←
    (if (base_offset <? match_)%nat then
       left_reminder_length ←
         (if has_attr (td_attr data) LLAMA_TOKEN_ATTR_LSTRIP then lstrip_length base_offset (match_ - base_offset)
          else Ok (match_ - base_offset)%nat);
       if (0 <? left_reminder_length)%nat then
         f ← frag_text base_offset left_reminder_length;
         Ok (emplace_after buffer it f, S it)
       else Ok (buffer, it)
     else Ok (buffer, it));
  let buffer := emplace_after buffer it (FragToken special_id) in
  let it := S it in
  if (match_ + length (td_text data) <? base_offset + base_length)%nat then
    let right_offset := (match_ + length (td_text data))%nat in
    let right_length := (base_length - (match_ - base_offset + length (td_text data)))%nat in
    '(right_offset, right_length) ←
      (if has_attr (td_attr data) LLAMA_TOKEN_ATTR_RSTRIP then rstrip_bounds right_offset right_length
       else Ok (right_offset, right_length));
    '(buffer, it) ←
      (if (0 <? right_length)%nat then
         f ← frag_text right_offset right_length;
         Ok (emplace_after buffer it f, S it)
       else Ok (buffer, it));
    Ok (delete source buffer, (it - 1)%nat, Some (right_offset, right_length))
  else Ok (delete source buffer, (it - 1)%nat, None).

(** [while (true)]: all occurrences in a fragment. *)
Fixpoint split_loop (fuel : nat) (buffer : list fragment_buffer_variant) (it base_offset base_length : nat)
    : res (list fragment_buffer_variant * nat) :=
  match string_find (take (base_offset + base_length) raw_text) (td_text data) base_offset with
  | None => Ok (buffer, it)
  | Some match_ =>
      match fuel with
      | O => Err NoFuel
      | S fuel =>
          '(buffer, it, rest) ← split_at buffer it base_offset base_length match_;
          match rest with
          | Some (offset, length) => split_loop fuel buffer it offset length
          | None => Ok (buffer, it)
          end
      end
  end.

(** [while (it != buffer.end())]; [fuel] bounds the elements still to visit. *)
Fixpoint pass_loop (fuel : nat) (buffer : list fragment_buffer_variant) (it : nat) : res (list fragment_buffer_variant) :=
  match buffer !! it with
  | None => Ok buffer
  | Some fragment =>
      match fuel with
      | O => Err NoFuel
      | S fuel =>
          '(buffer, it) ←
            (match fragment with
             | FragText offset len => split_loop (S (length raw_text)) buffer it offset len
             | FragToken _ => Ok (buffer, it)
             end);
          pass_loop fuel buffer (S it)
      end
  end.
End token.

(** Control and unknown tokens are only found with [parse_special]. *)
Definition ignored (parse_special : bool) (data : token_data) : bool :=
  negb parse_special && has_attr (td_attr data) (Z.lor LLAMA_TOKEN_ATTR_CONTROL LLAMA_TOKEN_ATTR_UNKNOWN).

Fixpoint partition_tokens (v : llama_vocab) (parse_special : bool) (ids : list llama_token)
    (buffer : list fragment_buffer_variant) : res (list fragment_buffer_variant) :=
  match ids with
  | [] => Ok buffer
  | special_id :: ids =>
      data ← get_token_data v special_id;
      buffer ← (if ignored parse_special data then Ok buffer
                else pass_loop special_id data (length buffer) buffer 0);
      partition_tokens v parse_special ids buffer
  end.

Definition tokenizer_st_partition (v : llama_vocab) (parse_special : bool) (buffer : list fragment_buffer_variant)
    : res (list fragment_buffer_variant) :=
  partition_tokens v parse_special (v_cache_special_tokens v) buffer.
End partition.

(** ** What a pass does to a fragment *)

Section pass.
Context (raw_text : bytes) (data_of : llama_token → option token_data).

(** The bytes that a fragment stands for: a token stands for its text and, if it has
    the attribute, for the white space before or behind it. *)
Definition token_covers (d : token_data) (bs : bytes) : Prop :=
  ∃ before behind, bs = before ++ td_text d ++ behind ∧
    Forall (λ c, isspace c = true) before ∧ Forall (λ c, isspace c = true) behind ∧
    (has_attr (td_attr d) LLAMA_TOKEN_ATTR_LSTRIP = false → before = []) ∧
    (has_attr (td_attr d) LLAMA_TOKEN_ATTR_RSTRIP = false → behind = []).

Definition frag_covers (f : fragment_buffer_variant) (bs : bytes) : Prop :=
  match f with
  | FragToken id => ∃ d, data_of id = Some d ∧ token_covers d bs
  | FragText o l => bs = slice raw_text o l
  end.

(** What is left beside a token that strips white space does not begin or end with
    any; two pieces of text are never side by side. *)
Definition no_space (i : nat) : Prop := ∃ c, raw_text !! i = Some c ∧ isspace c = false.

Definition stripped (f g : fragment_buffer_variant) : Prop :=
  match f, g with
  | FragText o l, FragToken t =>
      ∀ d, data_of t = Some d → has_attr (td_attr d) LLAMA_TOKEN_ATTR_LSTRIP = true → no_space (o + l - 1)
  | FragToken t, FragText o l =>
      ∀ d, data_of t = Some d → has_attr (td_attr d) LLAMA_TOKEN_ATTR_RSTRIP = true → no_space o
  | FragText _ _, FragText _ _ => False
  | FragToken _, FragToken _ => True
  end.

Fixpoint chained (fs : list fragment_buffer_variant) : Prop :=
  match fs with
  | [] => True
  | f :: fs' => match fs' with [] => True | g :: _ => stripped f g end ∧ chained fs'
  end.

Lemma chained_app fs gs : chained fs → chained gs →
  (∀ f g, last fs = Some f → head gs = Some g → stripped f g) → chained (fs ++ gs).
Proof using.
  induction fs as [|f fs IH]; intros Hf Hg Hfg; [done|]. destruct fs as [|f' fs].
  - cbn. split; [|done]. destruct gs as [|g gs]; [done|]. by apply Hfg.
  - destruct Hf as [Hff Hf]. split; [done|]. apply IH; [done|done|]. intros x y Hx. by apply Hfg.
Qed.

Lemma emplace_after_app l1 l2 it f : S it = length l1 → emplace_after (l1 ++ l2) it f = l1 ++ f :: l2.
Proof. intros Hit. unfold emplace_after. by rewrite Hit, take_app_length, drop_app_length. Qed.

Lemma frag_text_ok o l : (1 ≤ l)%nat → (o + l ≤ length raw_text)%nat → frag_text raw_text o l = Ok (FragText o l).
Proof.
  intros H1 H2. unfold frag_text. rewrite (proj2 (Nat.leb_le _ _) H1). cbn [ggml_assert mbind res_bind].
  by rewrite (proj2 (Nat.leb_le _ _) H2).
Qed.

(** The bytes between two positions are white space. *)
Definition spaces (a b : nat) : Prop := Forall (λ c, isspace c = true) (slice raw_text a (b - a)).

Lemma spaces_nil a : spaces a a.
Proof. unfold spaces. rewrite Nat.sub_diag. constructor. Qed.

Lemma spaces_iff a b : (b ≤ length raw_text)%nat →
  spaces a b ↔ ∀ i c, (a ≤ i < b)%nat → raw_text !! i = Some c → isspace c = true.
Proof.
  intros Hb. unfold spaces, slice. rewrite Forall_lookup. split.
  - intros H i c Hi Hc. apply (H (i - a)%nat). rewrite lookup_take_lt, lookup_drop by lia. by replace (a + (i - a))%nat with i by lia.
  - intros H i c [Hc Hi]%lookup_take_Some. rewrite lookup_drop in Hc. apply (H (a + i)%nat); [lia|done].
Qed.

Lemma lstrip_length_ok o l : (o + l ≤ length raw_text)%nat → ∃ k, lstrip_length raw_text o l = Ok k ∧ (k ≤ l)%nat ∧
  spaces (o + k) (o + l) ∧ ((0 < k)%nat → no_space (o + k - 1)).
Proof.
  induction l as [|l IH]; intros Hl; cbn [lstrip_length].
  { exists 0%nat. split; [done|]. split; [lia|]. split; [apply spaces_nil|lia]. }
  destruct (at_lt raw_text (o + l)) as (c & -> & Hc); [lia|]. cbn [mbind res_bind].
  destruct (isspace c) eqn:Hsp.
  - destruct IH as (k & -> & Hk & Hs & Hn); [lia|]. exists k. split; [done|]. split; [lia|]. split; [|done].
    rewrite spaces_iff in Hs |- * by lia. intros i x Hi Hx. destruct (decide (i = o + l)%nat) as [->|]; [congruence|]. apply (Hs i); [lia|done].
  - exists (S l). split; [done|]. split; [done|]. split; [apply spaces_nil|]. intros _. exists c.
    by replace (o + S l - 1)%nat with (o + l)%nat by lia.
Qed.

Lemma rstrip_bounds_ok l : ∀ o, (o + l ≤ length raw_text)%nat →
  ∃ o' l', rstrip_bounds raw_text o l = Ok (o', l') ∧ (o ≤ o')%nat ∧ (o' + l' = o + l)%nat ∧
    spaces o o' ∧ ((0 < l')%nat → no_space o').
Proof.
  induction l as [|l IH]; intros o Hl; cbn [rstrip_bounds].
  { exists o, 0%nat. split_and!; [done|lia|lia|apply spaces_nil|lia]. }
  destruct (at_lt raw_text o) as (c & -> & Hc); [lia|]. cbn [mbind res_bind].
  destruct (isspace c) eqn:Hsp; [|exists o, (S l); split_and!; [done|lia|lia|apply spaces_nil|by exists c]].
  destruct (IH (S o)) as (o' & l' & -> & ? & ? & Hs & Hn); [lia|]. exists o', l'. split_and!; [done|lia|lia| |done].
  rewrite spaces_iff in Hs |- * by lia. intros i x Hi Hx. destruct (decide (i = o)) as [->|]; [congruence|]. apply (Hs i); [lia|done].
Qed.

Section token.
Context (special_id : llama_token) (data : token_data) (Hid : data_of special_id = Some data).
Context (Hne : td_text data ≠ []).

Abbreviation pat := (td_text data).

Definition text_if (o l : nat) : list fragment_buffer_variant := if decide (0 < l)%nat then [FragText o l] else [].

Lemma text_if_covers o l : ∃ bss, Forall2 frag_covers (text_if o l) bss ∧ concat bss = slice raw_text o l.
Proof using.
  unfold text_if. destruct (decide (0 < l)%nat).
  - exists [slice raw_text o l]. split; [by repeat constructor|]. cbn. by rewrite app_nil_r.
  - replace l with 0%nat by lia. by exists [].
Qed.

Lemma emplace_text l1 post it o l : S it = length l1 → (o + l ≤ length raw_text)%nat →
  (if (0 <? l)%nat then f ← frag_text raw_text o l; Ok (emplace_after (l1 ++ post) it f, S it) else Ok (l1 ++ post, it)) =
    Ok ((l1 ++ text_if o l) ++ post, (it + length (text_if o l))%nat).
Proof using.
  intros Hit Hl. unfold text_if. destruct (Nat.ltb_spec 0 l); [rewrite decide_True by done|rewrite decide_False by lia].
  - rewrite frag_text_ok by lia. cbn [mbind res_bind]. rewrite emplace_after_app by done.
    rewrite <- app_assoc. do 2 f_equal. cbn. lia.
  - rewrite app_nil_r. do 2 f_equal. cbn. lia.
Qed.

(** The bounds of the text before and behind an occurrence. *)
Definition left_of (o m k : nat) : Prop :=
  (k ≤ m - o)%nat ∧ (has_attr (td_attr data) LLAMA_TOKEN_ATTR_LSTRIP = false → k = m - o)%nat ∧
  spaces (o + k) m ∧ (has_attr (td_attr data) LLAMA_TOKEN_ATTR_LSTRIP = true → (0 < k)%nat → no_space (o + k - 1)).
Definition right_of (o l m : nat) (rest : option (nat * nat)) : Prop :=
  match rest with
  | None => (m + length pat = o + l)%nat
  | Some (ro, rl) => (m + length pat ≤ ro)%nat ∧ (ro + rl = o + l)%nat ∧
      (has_attr (td_attr data) LLAMA_TOKEN_ATTR_RSTRIP = false → ro = m + length pat)%nat ∧
      spaces (m + length pat) ro ∧ (has_attr (td_attr data) LLAMA_TOKEN_ATTR_RSTRIP = true → (0 < rl)%nat → no_space ro)
  end.

Definition rest_text (rest : option (nat * nat)) : list fragment_buffer_variant :=
  match rest with Some (ro, rl) => text_if ro rl | None => [] end.

Lemma left_strip o m : (o ≤ m)%nat → (m ≤ length raw_text)%nat → ∃ k, left_of o m k ∧
  (if has_attr (td_attr data) LLAMA_TOKEN_ATTR_LSTRIP then lstrip_length raw_text o (m - o) else Ok (m - o)%nat) = Ok k.
Proof using.
  intros Hom Hm. unfold left_of. destruct (has_attr _ _).
  - destruct (lstrip_length_ok o (m - o)) as (k & -> & ? & Hs & Hn); [lia|]. exists k.
    replace (o + (m - o))%nat with m in Hs by lia. by split_and!.
  - exists (m - o)%nat. replace (o + (m - o))%nat with m by lia. split_and!; (done || apply spaces_nil).
Qed.

Lemma right_strip o l m : (o ≤ m)%nat → (m + length pat < o + l)%nat → (o + l ≤ length raw_text)%nat →
  ∃ ro rl, right_of o l m (Some (ro, rl)) ∧
    (if has_attr (td_attr data) LLAMA_TOKEN_ATTR_RSTRIP
     then rstrip_bounds raw_text (m + length pat) (l - (m - o + length pat))
     else Ok ((m + length pat)%nat, (l - (m - o + length pat))%nat)) = Ok (ro, rl).
Proof using.
  intros Hom Hml Hl. unfold right_of. destruct (has_attr _ _).
  - destruct (rstrip_bounds_ok (l - (m - o + length pat)) (m + length pat)) as (ro & rl & -> & ? & ? & Hs & Hn); [lia|].
    exists ro, rl. split_and!; (done || lia).
  - eexists _, _. split; [|done]. split_and!; (done || lia || apply spaces_nil).
Qed.

Lemma split_at_spec pre f post o l m : (o ≤ m)%nat → (m + length pat ≤ o + l)%nat → (o + l ≤ length raw_text)%nat →
  ∃ k rest, left_of o m k ∧ right_of o l m rest ∧
    split_at raw_text special_id data (pre ++ f :: post) (length pre) o l m =
      Ok (pre ++ (text_if o k ++ FragToken special_id :: rest_text rest) ++ post,
          (length pre + length (text_if o k) + length (rest_text rest))%nat, rest).
Proof using.
  intros Hom Hml Hl. destruct (left_strip o m) as (k & Hk & Hkeq); [done|lia|]. unfold split_at.
  assert (pre ++ f :: post = (pre ++ [f]) ++ post) as -> by (by rewrite <- app_assoc).
  assert (S (length pre) = length (pre ++ [f])) as Hit by (rewrite length_app; cbn; lia).
  replace (if (o <? m)%nat then _ else _) with
    (Ok (A := _ * nat) (((pre ++ [f]) ++ text_if o k) ++ post, (length pre + length (text_if o k))%nat)).
  2: { symmetry. destruct (Nat.ltb_spec o m).
       - rewrite Hkeq. cbn [mbind res_bind]. apply emplace_text; [done|destruct Hk; lia].
       - assert (k = 0)%nat as -> by (destruct Hk; lia). unfold text_if. cbn. by rewrite app_nil_r, Nat.add_0_r. }
  cbn [mbind res_bind]. rewrite emplace_after_app by (rewrite length_app; lia).
  assert (((pre ++ [f]) ++ text_if o k) ++ FragToken special_id :: post = ((pre ++ [f]) ++ text_if o k ++ [FragToken special_id]) ++ post) as ->
    by (by rewrite <- !app_assoc).
  destruct (Nat.ltb_spec (m + length pat) (o + l)) as [Hlt|Hge].
  - destruct (right_strip o l m) as (ro & rl & Hr & Hreq); [done|done|done|]. exists k, (Some (ro, rl)). split_and!; [done|done|].
    rewrite Hreq. cbn [mbind res_bind]. rewrite emplace_text by (rewrite ?length_app; cbn; rewrite ?length_app; destruct Hr as (? & ? & ? & _); cbn; lia).
    cbn [mbind res_bind rest_text]. rewrite <- !app_assoc. cbn [app]. rewrite delete_middle. do 3 f_equal; first [lia|by rewrite <- !app_assoc].
  - exists k, None. split_and!; [done|unfold right_of; lia|]. rewrite <- !app_assoc. cbn [app]. rewrite delete_middle.
    cbn [rest_text length]. do 3 f_equal; first [lia|by rewrite <- !app_assoc].
Qed.

(** *** All occurrences in a fragment *)

Record split_ok (o l : nat) (mid : list fragment_buffer_variant) : Prop := {
  sp_text  : ∀ o' l', FragText o' l' ∈ mid →
    (o ≤ o' ∧ o' + l' ≤ o + l ∧ 1 ≤ l')%nat ∧ ¬ occurs pat (slice raw_text o' l');
  sp_token : ∀ t, FragToken t ∈ mid → t = special_id;
  sp_bytes : ∃ bss, Forall2 frag_covers mid bss ∧ concat bss = slice raw_text o l;
  sp_chain : chained mid;
  sp_first : ∀ o' l', head mid = Some (FragText o' l') → o' = o;
  sp_last : ∀ o' l', last mid = Some (FragText o' l') → (o' + l' = o + l)%nat;
}.

Lemma find_none o l : (o + l ≤ length raw_text)%nat → string_find (take (o + l) raw_text) pat o = None →
  ¬ occurs pat (slice raw_text o l).
Proof using.
  intros Hl Hf. pose proof (string_find_spec (take (o + l) raw_text) pat o) as Hno. rewrite Hf in Hno.
  intros (p & Hp)%occurs_at_iff. apply slice_occurs_at in Hp as [Hp Hocc]; [|done].
  apply (Hno (o + p)%nat); [lia|]. apply take_occurs_at; [done|]. split; [lia|done].
Qed.

Lemma find_some o l m : (o + l ≤ length raw_text)%nat → string_find (take (o + l) raw_text) pat o = Some m →
  (o ≤ m)%nat ∧ (m + length pat ≤ o + l)%nat ∧ slice raw_text m (length pat) = pat ∧
  ∀ k, (k ≤ m - o)%nat → ¬ occurs pat (slice raw_text o k).
Proof using All.
  intros Hl Hf. pose proof (string_find_spec (take (o + l) raw_text) pat o) as Hs. rewrite Hf in Hs.
  destruct Hs as (Hom & Hocc & Hno). apply take_occurs_at in Hocc as [Hml Hocc]; [|done].
  split_and!; [done|done|apply Hocc|]. intros k Hk (p & Hp)%occurs_at_iff.
  apply slice_occurs_at in Hp as [Hp Hpo]; [|lia]. assert (length pat ≠ 0)%nat by (by destruct pat).
  apply (Hno (o + p)%nat); [lia|]. apply take_occurs_at; [done|]. split; [lia|done].
Qed.

Lemma find_empty o : (o ≤ length raw_text)%nat → string_find (take (o + 0) raw_text) pat o = None.
Proof using All.
  intros Ho. destruct (string_find _ _ _) as [m|] eqn:Hf; [|done].
  destruct (find_some o 0 m) as (? & ? & _); [lia|done|]. assert (length pat ≠ 0)%nat by (by destruct pat). lia.
Qed.

Lemma split_ok_whole o l : (1 ≤ l)%nat → ¬ occurs pat (slice raw_text o l) → split_ok o l [FragText o l].
Proof using.
  intros Hl Hno. split.
  - intros o' l' [= -> ->]%list_elem_of_singleton. split; [lia|done].
  - by intros t ?%list_elem_of_singleton.
  - exists [slice raw_text o l]. split; [by repeat constructor|]. cbn. by rewrite app_nil_r.
  - done.
  - by intros o' l' [= <- <-].
  - by intros o' l' [= <- <-].
Qed.

(** What the token stands for between the text before and the text behind it. *)
Lemma token_slice o l m k rest : (o ≤ m)%nat → (m + length pat ≤ o + l)%nat → (o + l ≤ length raw_text)%nat →
  slice raw_text m (length pat) = pat → left_of o m k → right_of o l m rest →
  let ro := match rest with Some (ro, _) => ro | None => (o + l)%nat end in
  token_covers data (slice raw_text (o + k) (ro - (o + k))) ∧
  slice raw_text o l = slice raw_text o k ++ slice raw_text (o + k) (ro - (o + k)) ++ slice raw_text ro (o + l - ro).
Proof using.
  intros Hom Hml Hol Hpat (Hk & Hk1 & Hk2 & _) Hr ro.
  assert ((m + length pat ≤ ro ≤ o + l)%nat ∧ spaces (m + length pat) ro ∧
    (has_attr (td_attr data) LLAMA_TOKEN_ATTR_RSTRIP = false → ro = m + length pat)%nat) as (Hro & Hs & Hr1).
  { subst ro. destruct rest as [[ro rl]|]; cbn in Hr; [destruct Hr as (? & ? & ? & ? & _); split_and!; (done || lia)|].
    rewrite <- Hr. split_and!; (done || lia || apply spaces_nil). }
  clearbody ro. split.
  - exists (slice raw_text (o + k) (m - (o + k))), (slice raw_text (m + length pat) (ro - (m + length pat))).
    split; [|split; [done|split; [done|]]].
    + rewrite <- Hpat at 1. rewrite (slice_split raw_text (o + k) _ (m - (o + k))) by lia. f_equal.
      replace (o + k + (m - (o + k)))%nat with m by lia.
      rewrite (slice_split raw_text m _ (length pat)) by lia. f_equal. f_equal. lia.
    + split; intros Ha; [rewrite (Hk1 Ha); replace (m - (o + (m - o)))%nat with 0%nat by lia|
        rewrite (Hr1 Ha), Nat.sub_diag]; done.
  - rewrite (slice_split raw_text o l k) by lia. f_equal. rewrite (slice_split raw_text (o + k) _ (ro - (o + k))) by lia. f_equal.
    f_equal; lia.
Qed.

Lemma split_ok_step o l m k rest mid : (o ≤ m)%nat → (m + length pat ≤ o + l)%nat → (o + l ≤ length raw_text)%nat →
  slice raw_text m (length pat) = pat →
  (∀ k, (k ≤ m - o)%nat → ¬ occurs pat (slice raw_text o k)) → left_of o m k → right_of o l m rest →
  match rest with Some (ro, rl) => split_ok ro rl mid | None => mid = [] end →
  split_ok o l (text_if o k ++ FragToken special_id :: mid).
Proof using Hid.
  intros Hom Hml Hol Hpat Hno Hk Hr Hmid. pose proof (token_slice o l m k rest Hom Hml Hol Hpat Hk Hr) as [Htok Hsl].
  destruct Hk as (Hk & _ & _ & Hk3).
  assert (∀ f, last (FragToken special_id :: mid) = Some f → f = FragToken special_id ∨ last mid = Some f) as Hlast.
  { intros f Hf. destruct mid as [|g mid]; [left; by injection Hf|by right]. }
  split.
  - intros o' l' [Hin|[?|Hin]%elem_of_cons]%elem_of_app; [|done|].
    + unfold text_if in Hin. destruct (decide _); [|by apply elem_of_nil in Hin]. apply list_elem_of_singleton in Hin as [= -> ->].
      split; [lia|by apply Hno].
    + destruct rest as [[ro rl]|]; [|subst mid; by apply elem_of_nil in Hin]. destruct Hr as (? & ? & _).
      destruct (sp_text _ _ _ Hmid o' l' Hin) as [? ?]. split; [lia|done].
  - intros t [Hin|[[= ->]|Hin]%elem_of_cons]%elem_of_app; [|done|].
    + unfold text_if in Hin. destruct (decide _); [by apply list_elem_of_singleton in Hin|by apply elem_of_nil in Hin].
    + destruct rest as [[ro rl]|]; [by apply (sp_token _ _ _ Hmid)|subst mid; by apply elem_of_nil in Hin].
  - destruct (text_if_covers o k) as (bl & Hbl & Hcl). rewrite Hsl, <- Hcl.
    assert (∃ br, Forall2 frag_covers mid br ∧
      concat br = slice raw_text (match rest with Some (ro, _) => ro | None => o + l end) (o + l - match rest with Some (ro, _) => ro | None => o + l end)%nat)
      as (br & Hbr & <-).
    { destruct rest as [[ro rl]|]; [|subst mid; exists []; by rewrite Nat.sub_diag]. destruct (sp_bytes _ _ _ Hmid) as (br & ? & Hcat).
      exists br. split; [done|]. rewrite Hcat. f_equal. destruct Hr as (_ & ? & _). lia. }
    eexists (bl ++ _ :: br). split; [|by rewrite concat_app]. apply Forall2_app; [done|]. constructor; [|done]. by exists data.
  - apply chained_app; [unfold text_if; by destruct (decide _)| |].
    + split; [|destruct rest as [[ro rl]|]; [apply Hmid|by subst mid]]. destruct rest as [[ro rl]|]; [|by subst mid].
      destruct Hr as (_ & _ & _ & _ & Hr). destruct mid as [|[t|o' l'] mid]; [done..|]. intros d Hd Ha. rewrite Hid in Hd. injection Hd as <-.
      pose proof (sp_first _ _ _ Hmid o' l' eq_refl) as ->. apply Hr; [done|].
      destruct (sp_text _ _ _ Hmid ro l') as [? _]; [by left|]. lia.
    + intros f g Hf [= <-]. unfold text_if in Hf. destruct (decide _); [|done]. injection Hf as <-. intros d Hd Ha.
      rewrite Hid in Hd. injection Hd as <-. by apply Hk3.
  - intros o' l'. unfold text_if. destruct (decide _); [by intros [= <- _]|done].
  - intros o' l'. rewrite last_app_cons. intros [?|Hl]%Hlast; [done|]. destruct rest as [[ro rl]|]; [|by subst mid].
    destruct Hr as (_ & ? & _). rewrite (sp_last _ _ _ Hmid o' l' Hl). lia.
Qed.

Lemma special_split_loop_spec fuel : ∀ pre post o l, (1 ≤ l)%nat → (l < fuel)%nat → (o + l ≤ length raw_text)%nat →
  ∃ mid, split_loop raw_text special_id data fuel (pre ++ FragText o l :: post) (length pre) o l =
      Ok (pre ++ mid ++ post, (length pre + length mid - 1)%nat) ∧ mid ≠ [] ∧ split_ok o l mid.
Proof using All.
  induction fuel as [|fuel IH]; intros pre post o l Hl Hf Hol; [lia|]. cbn [split_loop].
  destruct (string_find _ _ _) as [m|] eqn:Hfind.
  - destruct (find_some o l m Hol Hfind) as (Hom & Hml & Hpat & Hno). assert (length pat ≠ 0)%nat by (by destruct pat).
    destruct (split_at_spec pre (FragText o l) post o l m Hom Hml Hol) as (k & rest & Hk & Hr & ->). cbn [mbind res_bind].
    pose proof (λ mid, split_ok_step o l m k rest mid Hom Hml Hol Hpat Hno Hk Hr) as Hstep.
    destruct rest as [[ro rl]|]; cbn [rest_text] in *.
    + destruct Hr as (Hr1 & Hr2 & _). destruct (decide (0 < rl)%nat) as [Hrl|Hrl].
      * assert (text_if ro rl = [FragText ro rl]) as -> by (unfold text_if; by rewrite decide_True).
        destruct (IH (pre ++ text_if o k ++ [FragToken special_id]) post ro rl) as (mid & Hrun & Hmne & Hmid); [lia|lia|lia|].
        exists (text_if o k ++ FragToken special_id :: mid). split_and!; [|by destruct (text_if o k)|by apply Hstep].
        revert Hrun. rewrite <- !app_assoc. cbn [app]. rewrite !length_app. cbn [length]. intros Hrun.
        replace (length pre + length (text_if o k) + 1)%nat with (length pre + (length (text_if o k) + 1))%nat by lia.
        rewrite Hrun. do 2 f_equal. rewrite ?length_app. cbn [length]. lia.
      * assert (rl = 0)%nat as -> by lia. change (text_if ro 0) with (@nil fragment_buffer_variant). destruct fuel as [|fuel]; [lia|]. cbn [split_loop]. rewrite find_empty by lia.
        exists (text_if o k ++ [FragToken special_id]). split_and!; [|by destruct (text_if o k)|].
        -- do 2 f_equal. rewrite length_app. cbn. lia.
        -- apply Hstep. split; [by intros ? ? ?%elem_of_nil|by intros ? ?%elem_of_nil|by exists []|done..].
    + exists (text_if o k ++ [FragToken special_id]). split_and!; [|by destruct (text_if o k)|by apply Hstep].
      do 2 f_equal. rewrite length_app. cbn. lia.
  - exists [FragText o l]. split_and!; [|done|by apply split_ok_whole, find_none].
    do 2 f_equal. cbn. lia.
Qed.

(** *** One special token *)

Definition frag_ok (f : fragment_buffer_variant) : Prop :=
  match f with FragToken _ => True | FragText o l => (1 ≤ l ∧ o + l ≤ length raw_text)%nat end.

Definition frag_split (f : fragment_buffer_variant) (fs : list fragment_buffer_variant) : Prop :=
  match f with FragToken _ => fs = [f] | FragText o l => fs ≠ [] ∧ split_ok o l fs end.

Lemma pass_loop_spec fuel : ∀ pre post, (length post ≤ fuel)%nat → Forall frag_ok post →
  ∃ fss, pass_loop raw_text special_id data fuel (pre ++ post) (length pre) = Ok (pre ++ concat fss) ∧ Forall2 frag_split post fss.
Proof using All.
  induction fuel as [|fuel IH]; intros pre [|f post] Hf Hok; cbn [pass_loop];
    [exists []; by rewrite lookup_ge_None_2 by (rewrite length_app; cbn; lia)|cbn in Hf; lia|
     exists []; by rewrite lookup_ge_None_2 by (rewrite length_app; cbn; lia)|].
  rewrite list_lookup_middle by done. apply Forall_cons in Hok as [Hfok Hok]. cbn in Hf.
  assert (∃ mid, (match f with
      | FragText o l => split_loop raw_text special_id data (S (length raw_text)) (pre ++ f :: post) (length pre) o l
      | FragToken _ => Ok (pre ++ f :: post, length pre) end) = Ok (pre ++ mid ++ post, (length pre + length mid - 1)%nat) ∧
    mid ≠ [] ∧ frag_split f mid) as (mid & -> & Hne' & Hmid).
  { destruct f as [t|o l].
    - exists [FragToken t]. split_and!; [|done|done]. do 2 f_equal. cbn. lia.
    - destruct Hfok as [Hl Hol]. destruct (special_split_loop_spec (S (length raw_text)) pre post o l) as (mid & ? & ? & ?); [done|lia|done|].
      by exists mid. }
  cbn [mbind res_bind]. assert (length mid ≠ 0)%nat by (by destruct mid).
  replace (S (length pre + length mid - 1)) with (length (pre ++ mid)) by (rewrite length_app; lia).
  rewrite app_assoc. destruct (IH (pre ++ mid) post) as (fss & -> & Hfss); [lia|done|].
  exists (mid :: fss). split; [by rewrite <- app_assoc|by constructor].
Qed.
End token.

(** ** All special tokens *)
Section all_tokens.
Context (v : llama_vocab) (Hv : vocab_ok v) (parse_special : bool).
Context (Hbytes : ∀ id d, v_id_to_token v !! Z.to_nat id = Some d → data_of id = Some d).

(** A special token that is looked for. *)
Definition enabled (id : llama_token) (d : token_data) : Prop :=
  id ∈ v_cache_special_tokens v ∧ v_id_to_token v !! Z.to_nat id = Some d ∧ ignored parse_special d = false.

Record buffer_ok (ids : list llama_token) (buffer : list fragment_buffer_variant) : Prop := {
  bo_text  : ∀ o l, FragText o l ∈ buffer → (1 ≤ l ∧ o + l ≤ length raw_text)%nat ∧
    ∀ id d, id ∈ ids → enabled id d → ¬ occurs (td_text d) (slice raw_text o l);
  bo_token : ∀ t, FragToken t ∈ buffer → ∃ d, enabled t d;
  bo_bytes : ∃ bss, Forall2 frag_covers buffer bss ∧ concat bss = raw_text;
  bo_chain : chained buffer;
}.

Lemma split_covers id d buffer fss bss : Forall2 (frag_split id d) buffer fss → Forall2 frag_covers buffer bss →
  ∃ bss', Forall2 frag_covers (concat fss) bss' ∧ concat bss' = concat bss.
Proof using.
  intros Hfss. induction Hfss as [|f fs buffer fss Hf Hfss IH] in bss |- *; intros Hc.
  { apply Forall2_nil_inv_l in Hc as ->. by exists []. }
  apply Forall2_cons_inv_l in Hc as (b & bs & Hb & Hbs & ->). destruct (IH bs Hbs) as (bss' & Hc' & He).
  destruct f as [t|o l]; cbn in Hf.
  - subst fs. exists (b :: bss'). split; [by constructor|]. cbn. by rewrite He.
  - destruct (sp_bytes _ _ _ _ _ (proj2 Hf)) as (b1 & Hb1 & He1). exists (b1 ++ bss'). split; [by apply Forall2_app|].
    cbn in Hb |- *. by rewrite concat_app, He1, He, Hb.
Qed.

Lemma split_chained id d buffer fss : Forall2 (frag_split id d) buffer fss → chained buffer → chained (concat fss).
Proof using.
  intros Hfss. induction Hfss as [|f fs buffer fss Hf Hfss IH]; intros Hc; [done|]. destruct Hc as [Hfg Hc].
  assert (chained fs) as Hfs by (destruct f as [t|o l]; cbn in Hf; [subst fs; by split|apply (sp_chain _ _ _ _ _ (proj2 Hf))]).
  cbn [concat]. apply chained_app; [done|by apply IH|]. clear IH. intros f' g' Hlast Hhead.
  destruct Hfss as [|g gs buffer fss Hg Hfss]; [done|]. cbn [concat] in Hhead.
  assert (gs ≠ [] ∧ head gs = Some g') as [_ Hgs].
  { assert (gs ≠ []) as Hne by (destruct g; cbn in Hg; [by subst gs|apply Hg]). split; [done|]. by destruct gs. }
  destruct f as [t|o l], g as [t'|o' l']; cbn in Hf, Hg.
  - subst fs gs. cbn in Hlast, Hgs. by simplify_eq.
  - subst fs. cbn in Hlast. injection Hlast as <-. destruct g' as [t''|o'' l'']; [done|].
    by rewrite (sp_first _ _ _ _ _ (proj2 Hg) _ _ Hgs).
  - subst gs. cbn in Hgs. injection Hgs as <-. destruct f' as [t''|o'' l'']; [done|].
    cbn [stripped]. by rewrite (sp_last _ _ _ _ _ (proj2 Hf) _ _ Hlast).
  - done.
Qed.

Lemma pass_ok ids id d buffer fss : enabled id d → buffer_ok ids buffer → Forall2 (frag_split id d) buffer fss →
  buffer_ok (ids ++ [id]) (concat fss).
Proof using.
  intros Hen [H1 H2 (bss & H3 & H4) H5] Hfss. assert (∀ f, f ∈ concat fss → ∃ f0 fs, f0 ∈ buffer ∧ f ∈ fs ∧ frag_split id d f0 fs) as Hin.
  { intros f (fs & Hfs & Hf)%list_elem_of_In%in_concat. apply list_elem_of_In in Hf, Hfs.
    apply list_elem_of_lookup in Hfs as [i Hi]. destruct (Forall2_lookup_r _ _ _ _ _ Hfss Hi) as (f0 & Hf0 & Hsp).
    exists f0, fs. split_and!; [by eapply list_elem_of_lookup_2|done|done]. }
  split.
  - intros o l (f0 & fs & Hf0 & Hf & Hsp)%Hin. destruct f0 as [t|o0 l0]; cbn in Hsp.
    { subst fs. by apply list_elem_of_singleton in Hf. }
    destruct Hsp as [_ Hsp]. destruct (H1 o0 l0 Hf0) as [[Hl0 Hol0] Hno]. destruct (sp_text _ _ _ _ _ Hsp o l Hf) as [Hb Hnp]. split; [lia|].
    intros id' d' [Hid'| ->%list_elem_of_singleton]%elem_of_app Hen'.
    + intros Hocc. apply (Hno id' d' Hid' Hen'). eapply slice_occurs_sub; [..|exact Hocc]; lia.
    + destruct Hen as (_ & Hd & _), Hen' as (_ & Hd' & _). simplify_eq. done.
  - intros t (f0 & fs & Hf0 & Hf & Hsp)%Hin. destruct f0 as [t0|o0 l0]; cbn in Hsp.
    { subst fs. apply list_elem_of_singleton in Hf as [= ->]. by apply H2. }
    rewrite (sp_token _ _ _ _ _ (proj2 Hsp) t Hf). by exists d.
  - destruct (split_covers id d buffer fss bss Hfss H3) as (bss' & ? & He). exists bss'. split; [done|]. by rewrite He.
  - by apply (split_chained id d buffer).
Qed.

Lemma skip_ok ids id d buffer : v_id_to_token v !! Z.to_nat id = Some d → ignored parse_special d = true →
  buffer_ok ids buffer → buffer_ok (ids ++ [id]) buffer.
Proof using.
  intros Hd Hig [H1 H2 H3 H4]. split; [|done..]. intros o l Hf. destruct (H1 o l Hf) as [Hb Hno]. split; [done|].
  intros id' d' [Hid'| ->%list_elem_of_singleton]%elem_of_app Hen'; [by eapply Hno|].
  destruct Hen' as (_ & Hd' & Hig'). simplify_eq. congruence.
Qed.

Lemma partition_tokens_spec ids : ∀ seen buffer, v_cache_special_tokens v = seen ++ ids →
  (∀ id, id ∈ ids → 0 ≤ id ∧ ∃ d, v_id_to_token v !! Z.to_nat id = Some d ∧ td_text d ≠ []) →
  buffer_ok seen buffer →
  ∃ frags, partition_tokens raw_text v parse_special ids buffer = Ok frags ∧ buffer_ok (seen ++ ids) frags.
Proof using All.
  induction ids as [|id ids IH]; intros seen buffer Hseen Hids Hok; cbn [partition_tokens].
  { exists buffer. by rewrite app_nil_r. }
  destruct (Hids id) as (Hpos & d & Hd & Hne); [by left|]. unfold get_token_data. rewrite (not_none_ok v Hv). cbn [mbind res_bind].
  unfold at_id. rewrite (proj2 (Z.ltb_ge _ _)), Hd by done. cbn [mbind res_bind].
  assert (∃ b, (if ignored parse_special d then Ok buffer else pass_loop raw_text id d (length buffer) buffer 0) = Ok b ∧
    buffer_ok (seen ++ [id]) b) as (b & -> & Hb).
  { destruct (ignored parse_special d) eqn:Hig; [exists buffer; split; [done|by eapply skip_ok]|].
    destruct (pass_loop_spec id d (Hbytes id d Hd) Hne (length buffer) [] buffer) as (fss & Hrun & Hfss); [lia| |].
    - apply Forall_forall. intros [t|o l] Hf; [done|]. by apply (bo_text _ _ Hok).
    - exists (concat fss). split; [done|]. apply (pass_ok seen id d buffer fss); [|done|done].
      split_and!; [rewrite Hseen; set_solver|done|done]. }
  cbn [mbind res_bind]. rewrite cons_middle, app_assoc. apply IH; [by rewrite <- app_assoc|intros x Hx; apply Hids; by right|done].
Qed.
End all_tokens.
End pass.

Abbreviation id_data v := (λ id : llama_token, v_id_to_token v !! Z.to_nat id).

(** C36. The partition of a text always succeeds.  Its pieces of raw text are not
    empty, lie within the text and contain no text of a special token that is
    looked for; its tokens are such special tokens.  Nothing is lost: the text is
    pieces and token texts in order, where only white space before a token with
    LSTRIP and behind a token with RSTRIP is left out, and all of it: no piece before
    such a token ends, and none behind one begins, with white space. *)
Theorem partition_complete (raw_text : bytes) (v : llama_vocab) (parse_special : bool) :
  vocab_ok v → raw_text ≠ [] →
  (∀ id, id ∈ v_cache_special_tokens v → 0 ≤ id ∧ ∃ d, v_id_to_token v !! Z.to_nat id = Some d ∧ td_text d ≠ []) →
  ∃ frags, tokenizer_st_partition raw_text v parse_special [FragText 0 (length raw_text)] = Ok frags ∧
    (∀ o l, FragText o l ∈ frags → (1 ≤ l ∧ o + l ≤ length raw_text)%nat ∧
       ∀ id d, enabled v parse_special id d → ¬ occurs (td_text d) (slice raw_text o l)) ∧
    (∀ t, FragToken t ∈ frags → ∃ d, enabled v parse_special t d) ∧
    (∃ bss, Forall2 (frag_covers raw_text (id_data v)) frags bss ∧ concat bss = raw_text) ∧
    chained raw_text (id_data v) frags.
Proof.
  intros Hv Hne Hids. unfold tokenizer_st_partition.
  destruct (partition_tokens_spec raw_text (id_data v) v Hv parse_special) with
    (ids := v_cache_special_tokens v) (seen := @nil llama_token) (buffer := [FragText 0 (length raw_text)])
    as (frags & Hrun & [H1 H2 H3 H4]); [done..| | |].
  - done.
  - split.
    + intros o l [= -> ->]%list_elem_of_singleton. split; [destruct raw_text; [done|cbn; lia]|]. by intros ? ? ?%elem_of_nil.
    + by intros t ?%list_elem_of_singleton.
    + exists [raw_text]. split; [|cbn; by rewrite app_nil_r]. constructor; [|done]. cbn. unfold slice. by rewrite drop_0, take_ge by lia.
    + done.
  - exists frags. split_and!; [done| |done|done|done]. intros o l Hf. destruct (H1 o l Hf) as [Hb Hno].
    split; [done|]. intros id d Hen. apply (Hno id d); [apply Hen|done].
Qed.

(** ** A run *)

(** Special tokens <s> (control) and <u> (user-defined, strips spaces on both sides). *)
Definition ex_special : llama_vocab :=
  let v := vocab_of LLAMA_VOCAB_TYPE_SPM
    [mk_file_token (str "<s>") None (Some 3); mk_file_token (str "<u>") None (Some 4); mk_file_token (str "a") None (Some 1)] ∅ in
  mk_vocab (v_type v) 0 (v_max_token_len v) 1 2 0 (-1) false false false false false true
    (v_token_to_id v)
    (alter (λ d, mk_token_data (td_text d) (td_score d)
       (Z.lor (td_attr d) (Z.lor LLAMA_TOKEN_ATTR_LSTRIP LLAMA_TOKEN_ATTR_RSTRIP))) 1%nat (v_id_to_token v)) [0; 1] [] ∅.

Lemma alter_text f (l : list token_data) i j : (∀ d, td_text (f d) = td_text d) →
  td_text <$> alter f i l !! j = td_text <$> l !! j.
Proof. intros Hf. rewrite list_lookup_alter. case_decide as Hij; [subst j|done]. destruct (l !! i) as [d|]; [exact (f_equal Some (Hf d))|done]. Qed.

Lemma ex_special_ok : vocab_ok ex_special.
Proof.
  destruct (vocab_of_ok LLAMA_VOCAB_TYPE_SPM [mk_file_token (str "<s>") None (Some 3); mk_file_token (str "<u>") None (Some 4);
    mk_file_token (str "a") None (Some 1)] ∅) as [V1 V2 V3 V4]; [discriminate|vm_compute; reflexivity|].
  assert (∀ i, td_text <$> v_id_to_token ex_special !! i = td_text <$> v_id_to_token (vocab_of LLAMA_VOCAB_TYPE_SPM
    [mk_file_token (str "<s>") None (Some 3); mk_file_token (str "<u>") None (Some 4); mk_file_token (str "a") None (Some 1)] ∅) !! i) as Htext.
  { intros i. apply alter_text. reflexivity. }
  split; [|intros i d Hd|cbn [ex_special v_id_to_token]; rewrite length_alter; exact V3|exact V4].
  - intros t id Ht. rewrite Htext. by apply V1.
  - specialize (Htext i). rewrite Hd in Htext. symmetry in Htext. apply fmap_Some in Htext as (d0 & Hd0 & ->). by apply V2.
Qed.

Lemma partition_complete_witness :
  ∃ frags, tokenizer_st_partition (str "a<s>b  <u> <u>c") ex_special true [FragText 0 15] = Ok frags ∧
    frags = [FragText 0 1; FragToken 0; FragText 4 1; FragToken 1; FragToken 1; FragText 14 1] ∧
    ∃ bss, Forall2 (frag_covers (str "a<s>b  <u> <u>c") (id_data ex_special)) frags bss ∧ concat bss = str "a<s>b  <u> <u>c".
Proof.
  destruct (partition_complete (str "a<s>b  <u> <u>c") ex_special true) as (frags & Hrun & _ & _ & Hbytes & _).
  - exact ex_special_ok.
  - discriminate.
  - intros id Hid. apply elem_of_cons in Hid as [->|Hid]; [|apply list_elem_of_singleton in Hid as ->];
      (split; [lia|]); eexists; (split; [vm_compute; reflexivity|vm_compute; discriminate]).
  - exists frags. split_and!; [exact Hrun| |exact Hbytes].
    vm_compute in Hrun. injection Hrun as <-. reflexivity.
Defined.

(** A text in which no special token occurs is one piece. *)
Lemma partition_none (raw_text : bytes) (v : llama_vocab) (parse_special : bool) :
  vocab_ok v →
  (∀ id, id ∈ v_cache_special_tokens v → 0 ≤ id ∧ ∃ d, v_id_to_token v !! Z.to_nat id = Some d ∧
     td_text d ≠ [] ∧ ¬ occurs (td_text d) raw_text) →
  tokenizer_st_partition raw_text v parse_special [FragText 0 (length raw_text)] = Ok [FragText 0 (length raw_text)].
Proof.
  intros Hv. unfold tokenizer_st_partition. generalize (v_cache_special_tokens v). intros ids.
  induction ids as [|id ids IH]; intros Hids; [done|]. cbn [partition_tokens].
  destruct (Hids id) as (Hpos & d & Hd & Hne & Hno); [by left|]. unfold get_token_data. rewrite (not_none_ok v Hv). cbn [mbind res_bind].
  unfold at_id. rewrite (proj2 (Z.ltb_ge _ _)), Hd by done. cbn [mbind res_bind].
  assert (string_find (take (0 + length raw_text) raw_text) (td_text d) 0 = None) as Hfind.
  { pose proof (string_find_spec raw_text (td_text d) 0) as Hs. rewrite take_ge by lia.
    destruct (string_find _ _ _) as [m|]; [|done]. destruct Hno. apply occurs_at_iff. exists m. by apply Hs. }
  destruct (ignored parse_special d); cbn [length pass_loop lookup list_lookup split_loop]; rewrite ?Hfind; cbn [mbind res_bind];
    (apply IH; intros x Hx; apply Hids; by right).
Qed.
