(* ===== verification/Tokenize.v ===== *)
(** * Tokenizing and detokenizing (src/llama-vocab.cpp, llama_vocab::impl)

    A text with SPM tokens: special tokens, the space prefix, the escaping of
    spaces, BOS and EOS; and back: the piece of a token for every type of
    vocabulary and the concatenation of pieces into a buffer, with the clean-up
    of spaces.  The tokenizer of the vocabulary is taken to be initialised. *)
From stdpp Require Import pretty.
From S2P Require Import Prelude Utf8 Vocab VocabLemmas Bigram SpmTokenizer SpecialTokens.

(** ** Tokenizing *)
Section tokenize.
Context `{!PriorityQueue spm_less} (v : llama_vocab).

(** The fragments of a text, for an SPM vocabulary. *)
Fixpoint spm_fragments (raw_text : bytes) (fragments : list fragment_buffer_variant) (is_prev_special : bool)
    (output : list llama_token) : res (list llama_token) :=
  match fragments with
  | [] => Ok output
  | FragText offset len :: fragments =>
      raw ← substr raw_text offset len;
      let text := (if v_add_space_prefix v && is_prev_special then [32] else []) ++ raw in
      text ← llama_escape_whitespace text;
      output ← spm_tokenize v text output;
      spm_fragments raw_text fragments false output
  | FragToken token :: fragments => spm_fragments raw_text fragments true (output ++ [token])
  end.

(** [fragment_buffer] *)
Definition fragments_of (raw_text : bytes) (parse_special : bool) : res (list fragment_buffer_variant) :=
  match raw_text with
  | [] => Ok []
  | _ =>
      f ← frag_text raw_text 0 (length raw_text);
      tokenizer_st_partition raw_text v parse_special [f]
  end.

(** [llama_vocab::impl::tokenize] for LLAMA_VOCAB_TYPE_SPM. *)
Definition tokenize (raw_text : bytes) (add_special parse_special : bool) : res (list llama_token) :=
  fragment_buffer ← fragments_of raw_text parse_special;
  output ←
    (if add_special && v_add_bos v then
       _ ← ggml_assert (negb (v_special_bos_id v =? LLAMA_TOKEN_NULL)); Ok [v_special_bos_id v]
     else Ok []);
  output ← spm_fragments raw_text fragment_buffer true output;
  if add_special && v_add_eos v then
    _ ← ggml_assert (negb (v_special_eos_id v =? LLAMA_TOKEN_NULL)); Ok (output ++ [v_special_eos_id v])
  else Ok output.

(** [llama_vocab::tokenize] into a buffer of [n_tokens_max] tokens: the result and
    the tokens written. *)
Definition tokenize_into (text : bytes) (n_tokens_max : Z) (add_special parse_special : bool)
    : res (Z * list llama_token) :=
  toks ← tokenize text add_special parse_special;
  let size := Z.of_nat (length toks) in
  if INT32_MAX <=? size then Ok (- 2 ^ 31, [])
  else if n_tokens_max <? size then Ok (- size, [])
  else Ok (size, toks).
End tokenize.

(** ** Pieces *)

(** [_try_copy]: the result and the bytes written. *)
Fixpoint strip_spaces (lstrip : nat) (token : bytes) : bytes :=
  match lstrip, token with
  | S lstrip, 32 :: token => strip_spaces lstrip token
  | _, _ => token
  end.

Definition try_copy (token : bytes) (length_ : Z) (lstrip : nat) : res (Z * bytes) :=
  if INT32_MAX <=? Z.of_nat (length token) then Err Abort
  else
    let token := strip_spaces lstrip token in
    let size := Z.of_nat (length token) in
    if length_ <? size then Ok (- size, []) else Ok (size, token).

(** *** BPE texts (src/unicode.cpp) *)

Definition cont (utf8 : bytes) (i : nat) : bool :=
  match utf8 !! i with Some c => Z.land c 0xc0 =? 0x80 | None => false end.

(** The code point at [offset] and the offset behind it; [None] stands for
    [std::invalid_argument]. *)
Definition unicode_cpt_from_utf8 (utf8 : bytes) (offset : nat) : option (Z * nat) :=
  let c := peek_at utf8 offset in
  if Z.land c 0x80 =? 0 then Some (c, offset + 1)%nat
  else if Z.land c 0x40 =? 0 then None
  else if Z.land c 0x20 =? 0 then
    if negb (cont utf8 (offset + 1)) then None
    else Some (Z.lor (Z.shiftl (Z.land c 0x1f) 6) (Z.land (peek_at utf8 (offset + 1)) 0x3f), (offset + 2)%nat)
  else if Z.land c 0x10 =? 0 then
    if negb (cont utf8 (offset + 1)) || negb (cont utf8 (offset + 2)) then None
    else Some (Z.lor (Z.lor (Z.shiftl (Z.land c 0x0f) 12) (Z.shiftl (Z.land (peek_at utf8 (offset + 1)) 0x3f) 6))
                 (Z.land (peek_at utf8 (offset + 2)) 0x3f), (offset + 3)%nat)
  else if Z.land c 0x08 =? 0 then
    if negb (cont utf8 (offset + 1)) || negb (cont utf8 (offset + 2)) || negb (cont utf8 (offset + 3)) then None
    else Some (Z.lor (Z.lor (Z.lor (Z.shiftl (Z.land c 0x07) 18) (Z.shiftl (Z.land (peek_at utf8 (offset + 1)) 0x3f) 12))
                 (Z.shiftl (Z.land (peek_at utf8 (offset + 2)) 0x3f) 6)) (Z.land (peek_at utf8 (offset + 3)) 0x3f), (offset + 4)%nat)
  else None.

(** Each round consumes a byte at least; an invalid one reads as U+FFFD. *)
Fixpoint cpts_loop (fuel : nat) (utf8 : bytes) (offset : nat) (result : list Z) : res (list Z) :=
  if (offset <? length utf8)%nat then
    match fuel with
    | O => Err NoFuel
    | S fuel =>
        match unicode_cpt_from_utf8 utf8 offset with
        | Some (cpt, offset) => cpts_loop fuel utf8 offset (result ++ [cpt])
        | None => cpts_loop fuel utf8 (S offset) (result ++ [0xFFFD])
        end
    end
  else Ok result.

Definition unicode_cpts_from_utf8 (utf8 : bytes) : res (list Z) := cpts_loop (length utf8) utf8 0 [].

(** [format ("%02x", c)] *)
Definition hex_lower (ch : Z) : bytes :=
  let digits := str "0123456789abcdef" in
  [nth (Z.to_nat (Z.shiftr ch 4)) digits 0; nth (Z.to_nat (Z.land ch 15)) digits 0].

Fixpoint decode_loop (text : bytes) (cpts : list Z) (decoded_text : bytes) : res bytes :=
  match cpts with
  | [] => Ok decoded_text
  | cpt :: cpts =>
      utf8 ← common_unicode_cpt_to_utf8 cpt;
      decode_loop text cpts
        (decoded_text ++
           match unicode_utf8_to_byte utf8 with
           | Ok b => [b]
           | Err _ => str "[UNK_BYTE_0x" ++ concat (hex_lower <$> utf8) ++ text ++ str "]"
           end)
  end.

Definition llama_decode_text (text : bytes) : res bytes :=
  cpts ← unicode_cpts_from_utf8 text; decode_loop text cpts [].

(** *** RWKV texts *)

(** The parser state: [escaping], [hex_remaining], [hex_acc]. *)
Fixpoint unescape_loop (escaped : bytes) (escaping : bool) (hex_remaining hex_acc : Z) (output : bytes) : bytes :=
  match escaped with
  | [] => output
  | c :: escaped =>
      if negb (hex_remaining =? 0) then
        let value := u8 (if (97 <=? c) && (c <? 128) then c - 97 + 10 else c - 48) in
        let hex_acc := u8 (u8 (Z.shiftl hex_acc 4) + value) in
        if hex_remaining - 1 =? 0 then unescape_loop escaped escaping 0 0 (output ++ [hex_acc])
        else unescape_loop escaped escaping (hex_remaining - 1) hex_acc output
      else if escaping then
        if c =? 116 then unescape_loop escaped false 0 hex_acc (output ++ [9])
        else if c =? 110 then unescape_loop escaped false 0 hex_acc (output ++ [10])
        else if c =? 114 then unescape_loop escaped false 0 hex_acc (output ++ [13])
        else if c =? 120 then unescape_loop escaped false 2 hex_acc output
        else unescape_loop escaped false 0 hex_acc (output ++ [c])
      else if c =? 92 then unescape_loop escaped true 0 hex_acc output
      else unescape_loop escaped false 0 hex_acc (output ++ [c])
  end.

Definition llama_unescape_rwkv_token (escaped : bytes) : bytes := unescape_loop escaped false 0 0 [].

(** *** The piece of a token *)

Definition attr_special : Z := Z.lor LLAMA_TOKEN_ATTR_UNKNOWN LLAMA_TOKEN_ATTR_CONTROL.

(** [std::stoi (s, nullptr, 16)] of two characters: throws without a digit. *)
Definition stoi16 (s : bytes) : res Z :=
  if existsb (λ c, match hex_digit c with Some _ => true | None => false end) s then Ok (strtol16 s) else Err (Throw "stoi").

Definition token_to_piece (v : llama_vocab) (token : llama_token) (length_ : Z) (lstrip : nat) (special : bool)
    : res (Z * bytes) :=
  attr ← token_get_attr v token;
  if negb special && has_attr attr attr_special then Ok (0, [])
  else
    match v_cache_token_to_piece v with
    | _ :: _ => result ← at_id (Throw "vector") (v_cache_token_to_piece v) token; try_copy result length_ lstrip
    | [] =>
        d ← at_id (Throw "vector") (v_id_to_token v) token;
        let token_text := td_text d in
        match v_type v with
        | LLAMA_VOCAB_TYPE_WPM | LLAMA_VOCAB_TYPE_SPM | LLAMA_VOCAB_TYPE_UGM =>
            if has_attr attr (Z.lor attr_special LLAMA_TOKEN_ATTR_USER_DEFINED) then try_copy token_text length_ lstrip
            else if has_attr attr LLAMA_TOKEN_ATTR_NORMAL then
              result ← llama_unescape_whitespace token_text; try_copy result length_ lstrip
            else if has_attr attr LLAMA_TOKEN_ATTR_BYTE then byte ← token_to_byte v token; try_copy [byte] length_ lstrip
            else Ok (0, [])
        | LLAMA_VOCAB_TYPE_BPE =>
            if has_attr attr (Z.lor attr_special LLAMA_TOKEN_ATTR_USER_DEFINED) then try_copy token_text length_ lstrip
            else if has_attr attr LLAMA_TOKEN_ATTR_NORMAL then
              result ← (if v_escape_whitespaces v then llama_unescape_whitespace token_text else llama_decode_text token_text);
              try_copy result length_ lstrip
            else if has_attr attr LLAMA_TOKEN_ATTR_BYTE then byte ← token_to_byte v token; try_copy [byte] length_ lstrip
            else Ok (0, [])
        | LLAMA_VOCAB_TYPE_RWKV =>
            let result := llama_unescape_rwkv_token token_text in
            if u64 length_ <? Z.of_nat (length result) then Ok (- Z.of_nat (length result), [])
            else Ok (Z.of_nat (length result), result)
        | LLAMA_VOCAB_TYPE_PLAMO2 =>
            is_byte ← is_byte_token v token;
            if is_byte && (length token_text =? 6)%nat && bool_decide (take 3 token_text = str "<0x")
               && bool_decide (last token_text = Some 62) then
              buf ← substr token_text 3 2;
              hex_val ← stoi16 buf;
              if length_ <? 1 then Ok (-1, []) else Ok (1, [u8 hex_val])
            else try_copy token_text length_ lstrip
        | LLAMA_VOCAB_TYPE_NONE => Err Abort
        end
    end.

(** [token_to_piece_for_cache] and the cache that loading builds; [capacity] is
    that of an empty string. *)
Definition token_to_piece_for_cache (v : llama_vocab) (capacity : Z) (token : llama_token) (special : bool) : res bytes :=
  '(n_chars, piece) ← token_to_piece v token capacity 0 special;
  if n_chars <? 0 then
    '(check, piece) ← token_to_piece v token (- n_chars) 0 special;
    _ ← ggml_assert (check =? - n_chars);
    Ok piece
  else Ok piece.

Definition without_cache (v : llama_vocab) : llama_vocab :=
  mk_vocab (v_type v) (v_pre_type v) (v_max_token_len v) (v_special_bos_id v) (v_special_eos_id v)
    (v_special_unk_id v) (v_special_sep_id v) (v_add_space_prefix v) (v_add_bos v) (v_add_eos v) (v_ignore_merges v)
    (v_clean_spaces v) (v_escape_whitespaces v) (v_token_to_id v) (v_id_to_token v) (v_cache_special_tokens v) []
    (v_bpe_ranks v).

Definition build_cache (v : llama_vocab) (capacity : Z) : res (list bytes) :=
  mapM (λ id, token_to_piece_for_cache (without_cache v) capacity (Z.of_nat id) true) (seq 0 (length (v_id_to_token v))).

(** ** Detokenizing *)

(** The three passes of the clean-up work in place: [text[total++] = x] behind
    the reading position [i]. *)
Definition is_sentence_end (x : Z) : bool := (x =? 63) || (x =? 33) || (x =? 46) || (x =? 44).

Fixpoint clean_pass1 (n : nat) (i total : nat) (text : bytes) : res (bytes * nat) :=
  match n with
  | O => Ok (text, total)
  | S n =>
      x ← at_ text i;
      p ← at_ text (i - 1);
      let total := if (p =? 32) && is_sentence_end x then (total - 1)%nat else total in
      text ← put text total x;
      clean_pass1 n (S i) (S total) text
  end.

(** [n] bounds the rounds, [limit] is the end of the text. *)
Fixpoint clean_pass2 (n : nat) (limit i total : nat) (text : bytes) : res (bytes * nat) :=
  if (i <? limit)%nat then
    match n with
    | O => Err NoFuel
    | S n =>
        x ← at_ text i;
        p ← at_ text (i - 1);
        next ← (if (x =? 39) && (i + 1 <? limit)%nat && (p =? 32) then at_ text (i + 1) else Ok 0);
        if next =? 32 then
          text ← put text (S i) 0;
          text ← put text (total - 1) x;
          clean_pass2 n limit (S (S i)) total text
        else
          text ← put text total x;
          clean_pass2 n limit (S i) (S total) text
    end
  else Ok (text, total).

Fixpoint clean_pass3 (n : nat) (limit i total : nat) (text : bytes) : res (bytes * nat) :=
  match n with
  | O => Ok (text, total)
  | S n =>
      x ← at_ text i;
      p ← at_ text (i - 1);
      total ←
        (if (p =? 32) && (x =? 39) && (i + 1 <? limit)%nat then
           x1 ← at_ text (i + 1);
           if (x1 =? 116) || (x1 =? 100) then Ok total
           else if (x1 =? 115) || (x1 =? 109) then Ok (total - 1)%nat
           else if (i + 2 <? limit)%nat then
             x2 ← at_ text (i + 2);
             if (x1 =? 108) && (x2 =? 108) then Ok total
             else if ((x1 =? 114) && (x2 =? 101)) || ((x1 =? 118) && (x2 =? 101)) then Ok (total - 1)%nat
             else Ok total
           else Ok total
         else Ok total);
      text ← put text total x;
      clean_pass3 n limit (S i) (S total) text
  end.

Definition clean_up (text : bytes) : res (bytes * nat) :=
  let total1 := length text in
  '(text, total2) ← clean_pass1 (total1 - 1) 1 (Nat.min total1 1) text;
  '(text, total3) ← clean_pass2 total2 total2 1 (Nat.min total2 1) text;
  clean_pass3 (total3 - 1) total3 1 (Nat.min total3 1) text.

(** One piece after the other; [text] are the bytes written. *)
Fixpoint detokenize_loop (v : llama_vocab) (tokens : list llama_token) (remove_space unparse_special : bool)
    (avail total : Z) (text : bytes) : res (Z * bytes) :=
  match tokens with
  | [] => Ok (total, text)
  | token :: tokens =>
      _ ← ggml_assert (0 <=? avail);
      '(n_chars, piece) ← token_to_piece v token avail (if remove_space then 1 else 0) unparse_special;
      if n_chars <? 0 then detokenize_loop v tokens false unparse_special 0 (i32 (total - n_chars)) text
      else detokenize_loop v tokens false unparse_special (avail - n_chars) (i32 (total + n_chars)) (text ++ piece)
  end.

(** [llama_vocab::impl::detokenize]: the result and the bytes of the buffer. *)
Definition detokenize (v : llama_vocab) (tokens : list llama_token) (text_len_max : Z) (remove_special unparse_special : bool)
    : res (Z * bytes) :=
  match v_type v with
  | LLAMA_VOCAB_TYPE_NONE => Ok (0, [])
  | _ =>
      let '(tokens, remove_space) :=
        if remove_special && v_add_bos v && bool_decide (head tokens = Some (v_special_bos_id v))
        then (tail tokens, false) else (tokens, v_add_space_prefix v) in
      let tokens :=
        if remove_special && v_add_eos v && bool_decide (last tokens = Some (v_special_eos_id v))
        then take (length tokens - 1) tokens else tokens in
      '(total, text) ← detokenize_loop v tokens remove_space unparse_special text_len_max 0 [];
      if text_len_max <? total then Ok (- total, text)
      else if v_clean_spaces v then
        '(text, total) ← clean_up text;
        if Z.of_nat total <=? text_len_max then Ok (Z.of_nat total, take total text) else Ok (- Z.of_nat total, text)
      else Ok (if total <=? text_len_max then total else - total, text)
  end.

(** [llama_vocab::detokenize] into a string; [capacity] is that of an empty one. *)
Definition detokenize_string (v : llama_vocab) (capacity : nat) (tokens : list llama_token) (special : bool) : res bytes :=
  let size := Z.of_nat (Nat.max capacity (length tokens)) in
  '(n_chars, text) ← detokenize v tokens size false special;
  if n_chars <? 0 then
    let size := - n_chars in
    '(n_chars, text) ← detokenize v tokens size false special;
    _ ← ggml_assert (n_chars <=? size);
    if n_chars <? 0 then Err (Throw "basic_string::resize") else Ok (take (Z.to_nat n_chars) text)
  else Ok (take (Z.to_nat n_chars) text).
