(* ===== verification/TokenRoundtrip.v ===== *)
(** * Tokenizing and detokenizing a text (src/llama-vocab.cpp)

    The escaping of spaces is undone by the pieces of the tokens, byte tokens give
    back the bytes of characters without a token, and the space put before the
    text is removed: detokenizing the SPM tokens of a text gives the text. *)
From S2P Require Import Prelude Utf8 Vocab VocabLemmas Bigram SpmTokenizer SpecialTokens Tokenize.

(** ** Replacing *)

(** [R] replaces the leftmost occurrences of [search]. *)
Definition replaces (search repl : bytes) (R : bytes → bytes) : Prop :=
  (∀ s, ¬ occurs search s → R s = s) ∧
  (∀ a b, (∀ p, (p < length a)%nat → ¬ occurs_at search (a ++ search ++ b) p) → R (a ++ search ++ b) = a ++ repl ++ R b).

Lemma occurs_at_drop pat s k p : (k ≤ length s)%nat → occurs_at pat (drop k s) p ↔ occurs_at pat s (k + p).
Proof.
  intros Hk. unfold occurs_at. rewrite drop_drop, length_drop. split; intros [? ?]; (split; [lia|done]).
Qed.

Lemma replace_loop_spec search repl R fuel : search ≠ [] → replaces search repl R → ∀ s last builder,
  (length s < fuel + last + 1)%nat → (last ≤ length s)%nat →
  replace_loop fuel s search repl last builder = Ok (builder ++ R (drop last s)).
Proof.
  intros Hne [HR1 HR2]. induction fuel as [|fuel IH]; intros s last builder Hf Hl; cbn [replace_loop];
    pose proof (string_find_spec s search last) as Hfind; destruct (string_find s search last) as [m|].
  - destruct Hfind as (Hm & [Hocc _] & _). assert (length search ≠ 0)%nat by (by destruct search). lia.
  - rewrite HR1; [done|]. intros (p & Hp)%occurs_at_iff. apply occurs_at_drop in Hp; [|done]. apply (Hfind (last + p)%nat); [lia|done].
  - destruct Hfind as (Hm & Hocc & Hno). pose proof Hocc as [Hle Heq]. assert (length search ≠ 0)%nat by (by destruct search).
    rewrite IH by lia. rewrite <- !app_assoc. do 2 f_equal.
    assert (drop last s = take (m - last) (drop last s) ++ search ++ drop (m + length search) s) as Hs.
    { rewrite <- (take_drop (m - last) (drop last s)) at 1. f_equal. rewrite drop_drop. replace (last + (m - last))%nat with m by lia.
      rewrite <- (take_drop (length search) (drop m s)) at 1. by rewrite Heq, drop_drop. }
    rewrite Hs at 2. rewrite HR2; [done|]. intros p Hp Ho. rewrite <- Hs in Ho. apply occurs_at_drop in Ho; [|done].
    rewrite length_take in Hp. apply (Hno (last + p)%nat); [lia|done].
  - rewrite HR1; [done|]. intros (p & Hp)%occurs_at_iff. apply occurs_at_drop in Hp; [|done]. apply (Hfind (last + p)%nat); [lia|done].
Qed.

Lemma replace_all_spec search repl R s : search ≠ [] → replaces search repl R → replace_all s search repl = Ok (R s).
Proof.
  intros Hne HR. unfold replace_all. destruct search as [|c search'] eqn:Hs; [done|]. rewrite <- Hs in *.
  rewrite (replace_loop_spec search repl R) by (done || lia). by rewrite drop_0.
Qed.

(** Every space becomes U+2581. *)
Definition escaped (s : bytes) : bytes := concat ((λ c, if c =? 32 then spm_space else [c]) <$> s).

Lemma escaped_app a b : escaped (a ++ b) = escaped a ++ escaped b.
Proof. unfold escaped. by rewrite fmap_app, concat_app. Qed.

Lemma escaped_id s : 32 ∉ s → escaped s = s.
Proof.
  induction s as [|c s IH]; intros Hc; [done|]. unfold escaped. cbn. apply not_elem_of_cons in Hc as [? ?].
  rewrite (proj2 (Z.eqb_neq _ _)) by lia. cbn. f_equal. by apply IH.
Qed.

Lemma escape_ok s : llama_escape_whitespace s = Ok (escaped s).
Proof.
  apply replace_all_spec; [done|]. split.
  - intros t Ht. apply escaped_id. intros (a & b & ->)%list_elem_of_split. apply Ht. by exists a, b.
  - intros a b Hno. rewrite escaped_app. cbn. f_equal. apply escaped_id. intros (a1 & a2 & ->)%list_elem_of_split.
    apply (Hno (length a1)); [rewrite length_app; cbn; lia|]. split; [rewrite !length_app; cbn; lia|].
    rewrite <- app_assoc, drop_app_length. done.
Qed.

(** Every U+2581 becomes a space. *)
Fixpoint unescaped (s : bytes) : bytes :=
  match s with
  | [] => []
  | c :: s1 =>
      match s1 with
      | c1 :: c2 :: s2 => if bool_decide ([c; c1; c2] = spm_space) then 32 :: unescaped s2 else c :: unescaped s1
      | _ => c :: unescaped s1
      end
  end.

Lemma unescaped_cons c s : c ≠ 0xE2 → unescaped (c :: s) = c :: unescaped s.
Proof.
  intros Hc. destruct s as [|c1 [|c2 s]]; [done..|]. cbn [unescaped]. rewrite bool_decide_eq_false_2; [done|]. by intros [= ->].
Qed.

Lemma unescaped_skip c s : ¬ occurs_at spm_space (c :: s) 0 → unescaped (c :: s) = c :: unescaped s.
Proof.
  intros Hno. destruct s as [|c1 [|c2 s]]; [done..|]. cbn [unescaped]. rewrite bool_decide_eq_false_2; [done|].
  intros Heq. apply Hno. split; [cbn; lia|done].
Qed.

Lemma unescape_ok s : llama_unescape_whitespace s = Ok (unescaped s).
Proof.
  apply replace_all_spec; [done|]. split.
  - intros t. induction t as [|c t IH]; intros Ht; [done|]. rewrite unescaped_skip.
    + f_equal. apply IH. intros (a & b & ->). apply Ht. by exists (c :: a), b.
    + intros Ho. apply Ht, occurs_at_iff. eauto.
  - intros a. induction a as [|c a IH]; intros b Hno; [done|]. cbn [app]. rewrite unescaped_skip by (apply (Hno 0%nat); cbn; lia).
    f_equal. apply IH. intros p Hp Ho. apply (Hno (S p)); [cbn; lia|]. destruct Ho as [Hl Ho]. split; [cbn in *; lia|done].
Qed.

(** ** Characters *)

(** The bytes of a character, as the splitting and the replacing see them. *)
Record char_ok (ch : bytes) : Prop := {
  ch_len  : ∃ c rest, ch = c :: rest ∧ unicode_len_utf8 c = length ch ∧ (c = 0xE2 → length ch = 3%nat);
  ch_tail : 0xE2 ∉ tail ch;
}.

Definition unescaped_char (ch : bytes) : bytes := if bool_decide (ch = spm_space) then [32] else ch.

Lemma unescaped_tail a s : 0xE2 ∉ a → unescaped (a ++ s) = a ++ unescaped s.
Proof.
  induction a as [|c a IH]; intros Hc; [done|]. apply not_elem_of_cons in Hc as [? ?]. cbn [app].
  rewrite unescaped_cons by done. by rewrite IH.
Qed.

Lemma unescaped_char_app ch s : char_ok ch → unescaped (ch ++ s) = unescaped_char ch ++ unescaped s.
Proof.
  intros [(c & rest & -> & _ & H3) Htail]. unfold unescaped_char. destruct (decide (c = 0xE2)) as [->|Hc].
  - specialize (H3 eq_refl). destruct rest as [|c1 [|c2 [|]]]; try done. cbn in Htail. change ([226; c1; c2] ++ s) with (226 :: c1 :: c2 :: s).
    cbn [unescaped]. case_bool_decide; [done|]. apply not_elem_of_cons in Htail as [Hc1 Htail]. apply not_elem_of_cons in Htail as [Hc2 _].
    change (226 :: unescaped (c1 :: c2 :: s) = 226 :: c1 :: c2 :: unescaped s). f_equal.
    rewrite unescaped_cons by done. by rewrite unescaped_cons.
  - cbn [app]. rewrite unescaped_cons by done. rewrite bool_decide_eq_false_2 by (by intros [= ->]). cbn [app]. f_equal.
    by apply unescaped_tail.
Qed.

(** Texts made of characters. *)
Definition well_formed (w : bytes) : Prop := ∃ chs, Forall char_ok chs ∧ w = concat chs.

Lemma well_formed_app a b : well_formed a → well_formed b → well_formed (a ++ b).
Proof. intros (x & Hx & ->) (y & Hy & ->). exists (x ++ y). split; [by apply Forall_app|by rewrite concat_app]. Qed.

Lemma unescaped_app a b : well_formed a → unescaped (a ++ b) = unescaped a ++ unescaped b.
Proof.
  intros (chs & Hchs & ->). induction Hchs as [|ch chs Hch _ IH]; [done|]. cbn [concat].
  rewrite <- app_assoc, (unescaped_char_app ch _ Hch), IH, (unescaped_char_app ch _ Hch). by rewrite <- app_assoc.
Qed.

Lemma unescaped_concat ws : Forall well_formed ws → concat (unescaped <$> ws) = unescaped (concat ws).
Proof. induction 1 as [|w ws Hw _ IH]; [done|]. cbn. rewrite unescaped_app by done. by rewrite IH. Qed.

Lemma unescaped_chars chs : Forall char_ok chs → unescaped (concat chs) = concat (unescaped_char <$> chs).
Proof. induction 1 as [|ch chs Hch _ IH]; [done|]. cbn. by rewrite unescaped_char_app, IH. Qed.

Lemma char_ne ch : char_ok ch → ch ≠ [].
Proof. by intros [(c & rest & -> & _) _]. Qed.

Lemma chars_loop_chars chs : Forall char_ok chs → ∀ fuel, (length (concat chs) ≤ fuel)%nat → chars_loop fuel (concat chs) = chs.
Proof.
  induction 1 as [|ch chs Hch _ IH]; intros fuel Hf; [by destruct fuel|].
  destruct Hch as [(c & rest & -> & Hlen & _) _]. cbn [concat] in *. rewrite length_app in Hf. destruct fuel; [cbn in Hf; lia|].
  change ((c :: rest) ++ concat chs) with (c :: (rest ++ concat chs)). cbn [chars_loop].
  change (c :: rest ++ concat chs) with ((c :: rest) ++ concat chs). rewrite Hlen, take_app_length, drop_app_length.
  rewrite IH; [done|]. cbn in Hf. lia.
Qed.

Lemma chars_concat_chars chs : Forall char_ok chs → chars (concat chs) = chs.
Proof. intros H. by apply chars_loop_chars. Qed.

(** *** Encoded code points *)

Lemma unicode_len_range c : 0 ≤ c < 256 →
  unicode_len_utf8 c = (if (c <? 192)%Z then 1 else if (c <? 224)%Z then 2 else if (c <? 240)%Z then 3 else 4)%nat.
Proof.
  intros Hc.
  assert (forallb (λ n, (unicode_len_utf8 (Z.of_nat n) =?
    (if (Z.of_nat n <? 192)%Z then 1 else if (Z.of_nat n <? 224)%Z then 2 else if (Z.of_nat n <? 240)%Z then 3 else 4))%nat) (seq 0 256) = true)
    as Hall by (vm_compute; reflexivity).
  rewrite forallb_forall in Hall. specialize (Hall (Z.to_nat c)). rewrite Z2Nat.id in Hall by lia.
  apply Nat.eqb_eq, Hall, in_seq. lia.
Qed.

Lemma encoded_char (cp : Z) (ch : bytes) : 0 ≤ cp → common_unicode_cpt_to_utf8 cp = Ok ch →
  char_ok ch ∧ (cp ≠ 0x2581 → ch ≠ spm_space) ∧ (ch = [32] ∨ 32 ∉ ch).
Proof.
  intros Hcp He. destruct (decide (cp ≤ 0x10ffff)) as [Hmax|Hmax].
  2: { unfold common_unicode_cpt_to_utf8 in He. repeat case_bool_decide; try lia; done. }
  rewrite cpt_to_utf8_cases in He by done. injection He as <-. repeat case_bool_decide.
  - split_and!; [split; [exists cp, []; split_and!; [done| |lia]|set_solver]|by intros _ [=]|].
    + rewrite unicode_len_range by lia. rewrite (proj2 (Z.ltb_lt _ _)) by lia. done.
    + destruct (decide (cp = 32)) as [->|]; [by left|right]. set_solver.
  - assert (2 ≤ cp / 64 < 32 ∧ 0 ≤ cp mod 64 < 64) as [? ?] by zify_div.
    split_and!; [split; [eexists _, _; split_and!; [done| |lia]|]|by intros _ [=]|right].
    + rewrite unicode_len_range by lia. rewrite (proj2 (Z.ltb_ge _ _)), (proj2 (Z.ltb_lt _ _)) by lia. done.
    + cbn. rewrite list_elem_of_singleton. lia.
    + rewrite !not_elem_of_cons. split_and!; [lia|lia|set_solver].
  - assert (0 ≤ cp / 4096 < 16 ∧ 0 ≤ cp / 64 mod 64 < 64 ∧ 0 ≤ cp mod 64 < 64) as (? & ? & ?) by zify_div.
    split_and!; [split; [eexists _, _; split_and!; [done| |done]|]| |right].
    + rewrite unicode_len_range by lia. rewrite (proj2 (Z.ltb_ge _ _)), (proj2 (Z.ltb_ge _ _)), (proj2 (Z.ltb_lt _ _)) by lia. done.
    + cbn. rewrite !not_elem_of_cons. split_and!; [lia|lia|set_solver].
    + intros Hne [= Hb0 Hb1 Hb2]. apply Hne. zify_div.
    + rewrite !not_elem_of_cons. split_and!; [lia|lia|lia|set_solver].
  - assert (0 ≤ cp / 262144 < 8 ∧ 0 ≤ cp / 4096 mod 64 < 64 ∧ 0 ≤ cp / 64 mod 64 < 64 ∧ 0 ≤ cp mod 64 < 64) as (? & ? & ? & ?) by zify_div.
    split_and!; [split; [eexists _, _; split_and!; [done| |lia]|]| |right].
    + rewrite unicode_len_range by lia. rewrite !(proj2 (Z.ltb_ge _ _)) by lia. done.
    + cbn. rewrite !not_elem_of_cons. split_and!; [lia|lia|lia|set_solver].
    + by intros _ [=].
    + rewrite !not_elem_of_cons. split_and!; [lia|lia|lia|lia|set_solver].
Qed.

(** A text of characters other than U+2581. *)
Definition plain_char (ch : bytes) : Prop := char_ok ch ∧ ch ≠ spm_space ∧ (ch = [32] ∨ 32 ∉ ch).

Lemma encoded_text cps text : Forall (λ cp, 0 ≤ cp ∧ cp ≠ 0x2581) cps → common_unicode_cpts_to_utf8 cps = Ok text →
  ∃ chs, Forall plain_char chs ∧ text = concat chs.
Proof.
  intros Hcps. revert text. induction Hcps as [|cp cps [Hp Hne] _ IH]; intros text Ht; cbn in Ht; inv_res; [by exists []|].
  match goal with He : common_unicode_cpt_to_utf8 cp = Ok ?ch, Hs : common_unicode_cpts_to_utf8 cps = Ok ?s |- _ =>
    destruct (IH s Hs) as (chs & Hchs & ->); destruct (encoded_char cp ch Hp He) as (H1 & H2 & H3); exists (ch :: chs) end.
  split; [constructor; [|done]|done]. split_and!; auto.
Qed.

Lemma space_char_ok : char_ok spm_space.
Proof.
  split; [|set_solver]. eexists _, _. split_and!; [reflexivity|vm_compute; reflexivity|done].
Qed.

Lemma escaped_char ch : plain_char ch → char_ok (escaped ch) ∧ unescaped_char (escaped ch) = ch.
Proof.
  intros (Hch & Hne & [->|H32]).
  - split; [apply space_char_ok|done].
  - rewrite escaped_id by done. split; [done|]. unfold unescaped_char. by rewrite bool_decide_eq_false_2.
Qed.

Lemma escaped_concat chs : escaped (concat chs) = concat (escaped <$> chs).
Proof. induction chs as [|ch chs IH]; [done|]. cbn [concat fmap list_fmap]. by rewrite escaped_app, IH. Qed.

Lemma unescaped_escaped chs : Forall plain_char chs → Forall char_ok (escaped <$> chs) ∧ unescaped (escaped (concat chs)) = concat chs.
Proof.
  intros Hchs. assert (Forall char_ok (escaped <$> chs)) as Hok.
  { apply Forall_fmap. eapply Forall_impl; [exact Hchs|]. intros ch Hch. by apply escaped_char. }
  split; [done|]. rewrite escaped_concat, unescaped_chars by done. f_equal. rewrite <- list_fmap_compose.
  clear Hok. induction Hchs as [|ch chs Hch _ IH]; [done|]. cbn. f_equal; [by apply escaped_char|done].
Qed.

(** ** Pieces *)

(** The bytes of a token, for every length of the buffer. *)
Definition has_piece (v : llama_vocab) (id : llama_token) (c : bytes) : Prop :=
  ∀ len lstrip special, token_to_piece v id len lstrip special = try_copy c len lstrip.

Lemma token_get_attr_ok v id d : vocab_ok v → 0 ≤ id → v_id_to_token v !! Z.to_nat id = Some d → token_get_attr v id = Ok (td_attr d).
Proof.
  intros Hv Hid Hd. unfold token_get_attr, at_id. rewrite (not_none_ok v Hv). cbn [mbind res_bind].
  by rewrite (proj2 (Z.ltb_ge _ _)), Hd by done.
Qed.

Lemma byte_text_value b : 0 ≤ b < 256 → u8 (strtol16 (take 2 (drop 3 (byte_text b)))) = b ∧ length (byte_text b) = 6%nat.
Proof.
  intros Hb.
  assert (forallb (λ n, (u8 (strtol16 (take 2 (drop 3 (byte_text (Z.of_nat n))))) =? Z.of_nat n) && (length (byte_text (Z.of_nat n)) =? 6)%nat)
    (seq 0 256) = true) as Hall by (vm_compute; reflexivity).
  rewrite forallb_forall in Hall. specialize (Hall (Z.to_nat b)). rewrite Z2Nat.id in Hall by lia.
  apply andb_true_iff in Hall as [H1 H2]; [|apply in_seq; lia]. split; [by apply Z.eqb_eq|by apply Nat.eqb_eq].
Qed.

Section pieces.
Context (v : llama_vocab) (Hv : vocab_ok v) (Hspm : v_type v = LLAMA_VOCAB_TYPE_SPM).
Context (id : llama_token) (d : token_data) (Hid : 0 ≤ id) (Hd : v_id_to_token v !! Z.to_nat id = Some d).

(** The bytes that the text of a token stands for. *)
Definition content (c : bytes) : Prop :=
  (td_attr d = LLAMA_TOKEN_ATTR_NORMAL ∧ c = unescaped (td_text d)) ∨
  (td_attr d = LLAMA_TOKEN_ATTR_BYTE ∧ ∃ b, 0 ≤ b < 256 ∧ td_text d = byte_text b ∧ c = [b]).

Lemma piece_without_cache c : content c → v_cache_token_to_piece v = [] → has_piece v id c.
Proof using All.
  intros Hc Hcache len lstrip special. unfold token_to_piece. rewrite (token_get_attr_ok v id d) by done. cbn [mbind res_bind].
  rewrite Hcache, Hspm. unfold at_id. rewrite (proj2 (Z.ltb_ge _ _)), Hd by done. cbn [mbind res_bind].
  destruct Hc as [[Ha ->]|(Ha & b & Hb & Ht & ->)]; rewrite Ha; cbn [has_attr].
  - replace (has_attr LLAMA_TOKEN_ATTR_NORMAL attr_special) with false by reflexivity. rewrite andb_false_r.
    replace (has_attr LLAMA_TOKEN_ATTR_NORMAL (Z.lor attr_special LLAMA_TOKEN_ATTR_USER_DEFINED)) with false by reflexivity.
    replace (has_attr LLAMA_TOKEN_ATTR_NORMAL LLAMA_TOKEN_ATTR_NORMAL) with true by reflexivity. by rewrite unescape_ok.
  - replace (has_attr LLAMA_TOKEN_ATTR_BYTE attr_special) with false by reflexivity. rewrite andb_false_r.
    replace (has_attr LLAMA_TOKEN_ATTR_BYTE (Z.lor attr_special LLAMA_TOKEN_ATTR_USER_DEFINED)) with false by reflexivity.
    replace (has_attr LLAMA_TOKEN_ATTR_BYTE LLAMA_TOKEN_ATTR_NORMAL) with false by reflexivity.
    replace (has_attr LLAMA_TOKEN_ATTR_BYTE LLAMA_TOKEN_ATTR_BYTE) with true by reflexivity.
    unfold token_to_byte, is_byte_token, at_id. rewrite (not_none_ok v Hv). cbn [mbind res_bind].
    rewrite (proj2 (Z.ltb_ge _ _)), Hd by done. cbn [mbind res_bind]. rewrite Ha.
    replace (has_attr LLAMA_TOKEN_ATTR_BYTE LLAMA_TOKEN_ATTR_BYTE) with true by reflexivity. cbn [ggml_assert mbind res_bind].
    rewrite Hspm. unfold substr. destruct (byte_text_value b Hb) as [Hval Hlen]. rewrite Ht, Hlen. cbn [Nat.ltb Nat.leb mbind res_bind].
    by rewrite Hval.
Qed.

Lemma piece_for_cache c capacity r : 0 ≤ capacity → has_piece v id c → token_to_piece_for_cache v capacity id true = Ok r → r = c.
Proof using.
  intros Hcap Hp. unfold token_to_piece_for_cache. rewrite !Hp. unfold try_copy. cbn [strip_spaces].
  destruct (Z.leb_spec INT32_MAX (Z.of_nat (length c))) as [|Hlen]; [done|]. destruct (Z.ltb_spec capacity (Z.of_nat (length c))); cbn [mbind res_bind].
  - rewrite (proj2 (Z.ltb_lt _ _)) by lia. rewrite Hp. unfold try_copy. cbn [strip_spaces].
    rewrite (proj2 (Z.leb_gt _ _)) by lia. rewrite Z.opp_involutive, Z.ltb_irrefl. cbn [mbind res_bind].
    rewrite Z.eqb_refl. cbn. by intros [= <-].
  - rewrite (proj2 (Z.ltb_ge _ _)) by lia. by intros [= <-].
Qed.
End pieces.

(** The cache of pieces, if there is one, is the one that loading builds. *)
Definition cache_ok (v : llama_vocab) : Prop :=
  v_cache_token_to_piece v = [] ∨ ∃ capacity, 0 ≤ capacity ∧ build_cache v capacity = Ok (v_cache_token_to_piece v).

Lemma mapM_lookup {A B} (f : A → res B) (l : list A) (k : list B) i x : mapM f l = Ok k → l !! i = Some x →
  ∃ y, k !! i = Some y ∧ f x = Ok y.
Proof.
  revert k i. induction l as [|a l IH]; intros k i Hm Hi; [done|]. cbn in Hm. inv_res.
  destruct i as [|i]; cbn in Hi; simplify_eq; [eauto|]. cbn. by eapply IH.
Qed.

Lemma content_piece v id d c : vocab_ok v → v_type v = LLAMA_VOCAB_TYPE_SPM → cache_ok v → 0 ≤ id →
  v_id_to_token v !! Z.to_nat id = Some d → content d c → has_piece v id c.
Proof.
  intros Hv Hspm [Hc|(cap & Hcap & Hb)] Hid Hd Hcont; [by eapply piece_without_cache|].
  assert (has_piece (without_cache v) id c) as Hp.
  { destruct Hv as [V1 V2 V3 V4]. apply (piece_without_cache (without_cache v)) with (d := d); [split; assumption|assumption|assumption|assumption|assumption|reflexivity]. }
  destruct (decide (v_cache_token_to_piece v = [])) as [?|Hne]; [by eapply piece_without_cache|].
  destruct (mapM_lookup _ _ _ (Z.to_nat id) (Z.to_nat id) Hb) as (r & Hr & Hrun).
  { rewrite lookup_seq_lt; [done|]. by eapply lookup_lt_Some. }
  rewrite Z2Nat.id in Hrun by done. pose proof (piece_for_cache (without_cache v) id c cap r Hcap Hp Hrun) as ->.
  intros len lstrip special. unfold token_to_piece. rewrite (token_get_attr_ok v id d) by done. cbn [mbind res_bind].
  assert (has_attr (td_attr d) attr_special = false) as -> by (by destruct Hcont as [[-> _]|[-> _]]). rewrite andb_false_r.
  destruct (v_cache_token_to_piece v) as [|p1 ps1]; [done|].
  unfold at_id. rewrite (proj2 (Z.ltb_ge _ _)) by done. by rewrite Hr.
Qed.

(** ** Vocabularies and texts *)

(** An SPM vocabulary with its 256 byte tokens and the token of U+2581; special
    tokens are not of the normal type. *)
Record spm_vocab_ok (v : llama_vocab) : Prop := {
  sv_ok      : vocab_ok v;
  sv_type    : v_type v = LLAMA_VOCAB_TYPE_SPM;
  sv_clean   : v_clean_spaces v = false;
  sv_cache   : cache_ok v;
  sv_space   : is_Some (v_token_to_id v !! spm_space);
  sv_bytes   : ∀ b, 0 ≤ b < 256 → ∃ id d, v_token_to_id v !! byte_text b = Some id ∧
    v_id_to_token v !! Z.to_nat id = Some d ∧ td_attr d = LLAMA_TOKEN_ATTR_BYTE;
  sv_special : ∀ id, id ∈ v_cache_special_tokens v → 0 ≤ id ∧ ∃ d, v_id_to_token v !! Z.to_nat id = Some d ∧
    td_text d ≠ [] ∧ td_attr d ≠ LLAMA_TOKEN_ATTR_NORMAL;
}.

Definition space_prefix (v : llama_vocab) : bytes := if v_add_space_prefix v then [32] else [].

(** No text of a control, user-defined, unknown, unused or byte token occurs in
    the text, neither as it is nor with its spaces escaped. *)
Definition only_normal (v : llama_vocab) (text : bytes) : Prop :=
  ∀ i d, v_id_to_token v !! i = Some d → td_attr d ≠ LLAMA_TOKEN_ATTR_NORMAL →
    ¬ occurs (td_text d) text ∧ ¬ occurs (td_text d) (escaped (space_prefix v ++ text)).

Section roundtrip.
Context (v : llama_vocab) (Hv : spm_vocab_ok v).

(** *** The tokens of a segment *)

Definition has_pieces (ids : list llama_token) (cs : list bytes) : Prop :=
  Forall2 (has_piece v) ids cs ∧ Forall (λ c, c ≠ []) cs.

Lemma unescaped_ne w : w ≠ [] → unescaped w ≠ [].
Proof using. destruct w as [|c [|c1 [|c2 w]]]; [done..|]. intros _. cbn [unescaped]. by case_bool_decide. Qed.

Lemma byte_pieces w : Forall (λ b, 0 ≤ b < 256) w → ∃ ids, mapM (byte_to_token v) w = Ok ids ∧ has_pieces ids ((λ b, [b]) <$> w).
Proof using Hv.
  induction 1 as [|b w Hb _ (ids & Hids & Hp1 & Hp2)]; [exists []; split; [done|by split]|].
  destruct (sv_bytes v Hv b Hb) as (id & d & Hid & Hd & Ha). exists (id :: ids).
  destruct (token_id_range v (sv_ok v Hv) _ _ Hid) as (Hr & _ & _ & d' & Hd' & Ht). assert (d' = d) as -> by congruence. split.
  - assert (byte_to_token v b = Ok id) as Hb'.
    { unfold byte_to_token. rewrite (not_none_ok v (sv_ok v Hv)), (sv_type v Hv). cbn [mbind res_bind]. by rewrite Hid. }
    cbn. by rewrite Hb', Hids.
  - split; [|by constructor]. constructor; [|done]. apply (content_piece v id d);
      [apply Hv|apply Hv|apply Hv|lia|done|]. right. split; [done|]. by exists b.
Qed.

Lemma segment_pieces s w : Forall (λ b, 0 ≤ b < 256) w → w ≠ [] →
  (∀ i d, v_id_to_token v !! i = Some d → td_attr d ≠ LLAMA_TOKEN_ATTR_NORMAL → ¬ occurs (td_text d) s) → occurs w s →
  is_Some (v_token_to_id v !! w) ∨ char_ok w →
  ∃ ids cs, spell v w = Ok ids ∧ has_pieces ids cs ∧ concat cs = unescaped w.
Proof using Hv.
  intros Hw Hne Hno Hocc Htok. unfold spell. destruct (v_token_to_id v !! w) as [id|] eqn:Hid.
  - destruct (token_id_range v (sv_ok v Hv) _ _ Hid) as (Hr & _ & _ & d & Hd & <-).
    exists [id], [unescaped (td_text d)]. split_and!; [done| |cbn; by rewrite app_nil_r]. split; [|by constructor; [apply unescaped_ne|]].
    constructor; [|done]. apply (content_piece v id d); [apply Hv|apply Hv|apply Hv|lia|done|]. left. split; [|done].
    destruct (decide (td_attr d = LLAMA_TOKEN_ATTR_NORMAL)) as [|Ha]; [done|]. by destruct (Hno _ d Hd Ha).
  - destruct Htok as [[? ?]|Hch]; [done|]. destruct (byte_pieces w Hw) as (ids & -> & Hp).
    exists ids, ((λ b, [b]) <$> w). split_and!; [done|done|].
    rewrite <- (app_nil_r w) at 2. rewrite unescaped_char_app by done. unfold unescaped_char. rewrite bool_decide_eq_false_2.
    + cbn. rewrite app_nil_r. clear. induction w as [|b w IH]; [done|]. cbn. by rewrite IH.
    + intros ->. destruct (sv_space v Hv) as [? ?]. congruence.
Qed.

Lemma spell_all_pieces s ws : ∀ output, Forall (λ b, 0 ≤ b < 256) s → (∀ w, w ∈ ws → w ≠ [] ∧ occurs w s ∧ (is_Some (v_token_to_id v !! w) ∨ char_ok w)) →
  (∀ i d, v_id_to_token v !! i = Some d → td_attr d ≠ LLAMA_TOKEN_ATTR_NORMAL → ¬ occurs (td_text d) s) →
  ∃ ids cs, spell_all v ws output = Ok (output ++ ids) ∧ has_pieces ids cs ∧ concat cs = concat (unescaped <$> ws).
Proof using Hv.
  intros output Hs. revert output. induction ws as [|w ws IH]; intros output Hws Hno; cbn [spell_all].
  { exists [], []. split_and!; [by rewrite app_nil_r|by split|done]. }
  destruct (Hws w ltac:(left)) as (Hne & Hocc & Htok). destruct (segment_pieces s w) as (ids & cs & -> & [Hp1 Hp2] & Hc); [|done..|].
  { destruct Hocc as (a & b & ->). apply Forall_app in Hs as [_ Hs]. by apply Forall_app in Hs as [? _]. }
  cbn [mbind res_bind]. destruct (IH (output ++ ids)) as (ids' & cs' & -> & [Hp3 Hp4] & Hc'); [intros x Hx; apply Hws; by right|done|].
  exists (ids ++ ids'), (cs ++ cs'). split_and!; [by rewrite app_assoc|split; [by apply Forall2_app|by apply Forall_app]|].
  rewrite concat_app, Hc, Hc'. done.
Qed.

(** *** The buffer *)

Definition strip_first (remove_space : bool) (cs : list bytes) : list bytes :=
  match cs with [] => [] | c :: cs => strip_spaces (if remove_space then 1 else 0) c :: cs end.

Lemma strip_spaces_length n c : (length (strip_spaces n c) ≤ length c)%nat.
Proof using.
  revert c. induction n as [|n IH]; intros [|x c]; cbn [strip_spaces]; try done.
  repeat case_match; try (cbn; lia). etrans; [apply IH|cbn; lia].
Qed.

Lemma detokenize_loop_spec ids cs : Forall2 (has_piece v) ids cs → ∀ remove_space special avail total text,
  0 ≤ avail → 0 ≤ total → total + Z.of_nat (length (concat cs)) < INT32_MAX →
  ∃ text', detokenize_loop v ids remove_space special avail total text =
      Ok (total + Z.of_nat (length (concat (strip_first remove_space cs))), text') ∧
    (Z.of_nat (length (concat (strip_first remove_space cs))) ≤ avail → text' = text ++ concat (strip_first remove_space cs)).
Proof using.
  unfold INT32_MAX. induction 1 as [|id c ids cs Hp _ IH]; intros remove_space special avail total text Ha Ht Hsize; cbn [detokenize_loop].
  { exists text. cbn. split; [do 2 f_equal; lia|by rewrite app_nil_r]. }
  cbn [concat strip_first] in *. rewrite length_app in *. rewrite (proj2 (Z.leb_le _ _) Ha). cbn [ggml_assert mbind res_bind].
  rewrite Hp. unfold try_copy, INT32_MAX. rewrite (proj2 (Z.leb_gt _ _)) by lia. set (c' := strip_spaces _ c).
  assert (length c' ≤ length c)%nat as Hc' by apply strip_spaces_length.
  assert (strip_first false cs = cs) as Hsf by (destruct cs as [|x ?]; [done|cbn; by destruct x]).
  destruct (Z.ltb_spec avail (Z.of_nat (length c'))) as [Hlt|Hge]; cbn [mbind res_bind].
  - rewrite (proj2 (Z.ltb_lt _ _)) by lia. rewrite i32_small by lia.
    destruct (IH false special 0 (total - - Z.of_nat (length c')) text) as (text' & -> & _); [lia|lia|lia|]. rewrite Hsf.
    exists text'. split; [do 2 f_equal; lia|lia].
  - rewrite (proj2 (Z.ltb_ge _ _)) by lia. rewrite i32_small by lia.
    destruct (IH false special (avail - Z.of_nat (length c')) (total + Z.of_nat (length c')) (text ++ c')) as (text' & -> & Htext'); [lia|lia|lia|].
    rewrite Hsf in *. exists text'. split; [do 2 f_equal; lia|]. intros Hav. rewrite Htext' by lia. by rewrite app_assoc.
Qed.

Lemma detokenize_pieces capacity ids cs special : Forall2 (has_piece v) ids cs → Z.of_nat (length (concat cs)) < INT32_MAX →
  Z.of_nat (length ids) < INT32_MAX →
  detokenize_string v capacity ids special = Ok (concat (strip_first (v_add_space_prefix v) cs)).
Proof using Hv.
  intros Hp Hlen Hids. unfold detokenize_string, detokenize. rewrite (sv_type v Hv), (sv_clean v Hv). cbn [andb].
  set (size := Z.of_nat (Nat.max capacity (length ids))). set (out := concat (strip_first (v_add_space_prefix v) cs)).
  destruct (detokenize_loop_spec ids cs Hp (v_add_space_prefix v) special size 0 [] ltac:(lia) ltac:(lia)) as (t1 & -> & Ht1); [lia|].
  fold out in Ht1 |- *. cbn [mbind res_bind]. rewrite Z.add_0_l. destruct (Z.ltb_spec size (Z.of_nat (length out))) as [Hlt|Hge]; cbn [mbind res_bind].
  - rewrite (proj2 (Z.ltb_lt _ _)) by lia.
    destruct (detokenize_loop_spec ids cs Hp (v_add_space_prefix v) special (- - Z.of_nat (length out)) 0 [] ltac:(lia) ltac:(lia)) as (t2 & -> & Ht2); [lia|].
    fold out in Ht2 |- *. cbn [mbind res_bind]. rewrite Z.add_0_l, Z.opp_involutive, Z.ltb_irrefl, Z.leb_refl. cbn [ggml_assert mbind res_bind].
    rewrite (proj2 (Z.ltb_ge _ _)), Z.leb_refl by lia. cbn [ggml_assert mbind res_bind]. rewrite Ht2 by lia. cbn [app].
    by rewrite Nat2Z.id, take_ge by lia.
  - rewrite (proj2 (Z.leb_le _ _)) by lia. rewrite (proj2 (Z.ltb_ge _ _)) by lia. rewrite Ht1 by lia. cbn [app].
    by rewrite Nat2Z.id, take_ge by lia.
Qed.

(** *** The tokens of a text *)

Lemma spm_segment_ok text w : w ∈ segments (spm_key v) text →
  w ≠ [] ∧ occurs w text ∧ (is_Some (v_token_to_id v !! w) ∨ w ∈ chars text).
Proof using.
  intros Hw. split_and!.
  - by eapply segments_ne.
  - rewrite <- (segments_concat (spm_key v) text). apply list_elem_of_split in Hw as (l1 & l2 & ->).
    exists (concat l1), (concat l2). by rewrite concat_app.
  - eapply (Forall_forall (λ w, is_Some (v_token_to_id v !! w) ∨ w ∈ chars text) (segments (spm_key v) text)); [|done].
    apply merge_greedily_Forall.
    + intros a b p _ _ Hp. left. unfold spm_key in Hp. by destruct (v_token_to_id v !! (a ++ b)).
    + apply Forall_forall. by right.
Qed.

Lemma plain_text_pieces chs : Forall plain_char chs → Forall (λ b, 0 ≤ b < 256) (concat chs) →
  (∀ i d, v_id_to_token v !! i = Some d → td_attr d ≠ LLAMA_TOKEN_ATTR_NORMAL → ¬ occurs (td_text d) (escaped (concat chs))) →
  ∃ ids cs, spell_all v (segments (spm_key v) (escaped (concat chs))) [] = Ok ids ∧ has_pieces ids cs ∧ concat cs = concat chs.
Proof using Hv.
  intros Hchs Hbytes Hno. destruct (unescaped_escaped chs Hchs) as [Hok Hun]. set (s := escaped (concat chs)) in *.
  assert (chars s = escaped <$> chs) as Hch by (unfold s; rewrite escaped_concat; by apply chars_concat_chars).
  destruct (spell_all_pieces s (segments (spm_key v) s) []) as (ids & cs & Hsp & Hp & Hc); [| |done|].
  - unfold s, escaped. apply Forall_concat, Forall_fmap. eapply Forall_impl; [exact Hbytes|]. intros b Hb. cbn.
    destruct (b =? 32); [repeat constructor; lia|by constructor].
  - intros w Hw. destruct (spm_segment_ok s w Hw) as (Hne & Hocc & Htok). split_and!; [done|done|].
    destruct Htok as [?|Hin]; [by left|right]. rewrite Hch in Hin. by eapply Forall_forall.
  - exists ids, cs. split_and!; [done|done|]. rewrite Hc, unescaped_concat; [by rewrite segments_concat|].
    apply merge_greedily_Forall; [intros a b p; by intros; apply well_formed_app|]. apply Forall_forall. intros w Hw.
    exists [w]. split; [|cbn; by rewrite app_nil_r]. constructor; [|done]. rewrite Hch in Hw. by eapply Forall_forall.
Qed.

Lemma strip_prefix cs text : Forall (λ c, c ≠ []) cs → concat cs = space_prefix v ++ text →
  concat (strip_first (v_add_space_prefix v) cs) = text.
Proof using.
  unfold space_prefix. destruct (v_add_space_prefix v); intros Hne Hcs.
  - destruct cs as [|[|x c] cs]; [done|by apply Forall_cons in Hne as [? _]|]. cbn in Hcs. injection Hcs as -> <-. cbn. by destruct c.
  - cbn in Hcs. rewrite <- Hcs. destruct cs as [|c cs]; [done|]. cbn. by destruct c.
Qed.

Lemma has_pieces_length ids cs : has_pieces ids cs → (length ids ≤ length (concat cs))%nat.
Proof using.
  intros [Hp Hne]. rewrite (Forall2_length _ _ _ Hp). apply concat_length_ne. by apply Forall_forall.
Qed.
End roundtrip.

Lemma plain_space : plain_char [32].
Proof.
  split_and!; [|done|by left]. split; [|set_solver]. eexists _, _. split_and!; [reflexivity|vm_compute; reflexivity|done].
Qed.

Lemma escaped_length s : (length (escaped s) ≤ 3 * length s)%nat.
Proof.
  induction s as [|c s IH]; [done|]. unfold escaped in *. cbn [fmap list_fmap concat]. rewrite length_app.
  destruct (c =? 32); cbn [length]; [change (length spm_space) with 3%nat|]; lia.
Qed.

Lemma cpts_bytes cps text : Forall (λ cp, 0 ≤ cp ∧ cp ≠ 0x2581) cps → common_unicode_cpts_to_utf8 cps = Ok text →
  Forall (λ b, 0 ≤ b < 256) text.
Proof.
  intros Hcps. revert text. induction Hcps as [|cp cps [Hp _] _ IH]; intros text Ht; cbn in Ht; inv_res; [done|].
  apply Forall_app; split; [|by apply IH]. match goal with He : common_unicode_cpt_to_utf8 cp = Ok _ |- _ => revert He end.
  destruct (decide (cp ≤ 0x10ffff)) as [Hm|Hm].
  - rewrite cpt_to_utf8_cases by done. intros [= <-]. repeat case_bool_decide; repeat constructor; zify_div.
  - unfold common_unicode_cpt_to_utf8. repeat case_bool_decide; try lia; done.
Qed.

(** C33. Detokenizing the tokens of a text gives the text, whatever the scores and
    merges of the vocabulary are and whether or not spaces are put before texts:
    for every text that encodes code points other than U+2581 and in which no text
    of a special or byte token occurs. *)
Theorem spm_roundtrip `{!PriorityQueue spm_less} (v : llama_vocab) (cps : list Z) (text : bytes)
    (parse_special special : bool) (capacity : nat) :
  spm_vocab_ok v → Forall (λ cp, 0 ≤ cp ∧ cp ≠ 0x2581) cps → common_unicode_cpts_to_utf8 cps = Ok text →
  text ≠ [] → 3 * (Z.of_nat (length text) + 1) < INT32_MAX → only_normal v text →
  ∃ toks, tokenize v text false parse_special = Ok toks ∧ detokenize_string v capacity toks special = Ok text.
Proof.
  intros Hv Hcps Henc Hne Hlen Hno. destruct (encoded_text cps text Hcps Henc) as (chs & Hchs & Htext).
  pose proof (cpts_bytes cps text Hcps Henc) as Hbytes. unfold INT32_MAX in *.
  set (chs' := (if v_add_space_prefix v then [[32]] else []) ++ chs).
  assert (concat chs' = space_prefix v ++ text) as Hcat.
  { unfold chs', space_prefix. rewrite Htext. by destruct (v_add_space_prefix v). }
  destruct (plain_text_pieces v Hv chs') as (ids & cs & Hsp & Hp & Hc).
  { unfold chs'. destruct (v_add_space_prefix v); [constructor; [apply plain_space|done]|done]. }
  { rewrite Hcat. apply Forall_app; split; [|done]. unfold space_prefix. destruct (v_add_space_prefix v); repeat constructor; lia. }
  { intros i d Hd Ha. rewrite Hcat. by apply (Hno i d). }
  rewrite Hcat in Hsp, Hc. exists ids. split.
  - unfold tokenize, fragments_of. destruct text as [|c0 text0] eqn:Ht; [done|]. rewrite <- Ht in *.
    assert (1 ≤ length text)%nat by (rewrite Ht; cbn; lia).
    rewrite frag_text_ok by lia. cbn [mbind res_bind]. rewrite partition_none; [|apply Hv|].
    2: { intros id Hid. destruct (sv_special v Hv id Hid) as (? & d & Hd & ? & Ha). split; [done|]. exists d. split_and!; [done|done|].
         by destruct (Hno _ d Hd Ha). }
    cbn [mbind res_bind spm_fragments andb]. unfold substr. cbn [Nat.ltb Nat.leb]. rewrite drop_0, take_ge by lia. cbn [mbind res_bind].
    rewrite andb_true_r. fold (space_prefix v). rewrite escape_ok. cbn [mbind res_bind].
    pose proof (escaped_length (space_prefix v ++ text)) as Hle. rewrite length_app in Hle.
    assert (length (space_prefix v) ≤ 1)%nat by (unfold space_prefix; destruct (v_add_space_prefix v); cbn; lia).
    rewrite spm_tokenize_segments; [by rewrite Hsp|apply Hv| |lia].
    intros Hemp. apply (f_equal length) in Hemp. rewrite <- Hcat in Hemp.
    destruct (unescaped_escaped chs') as [_ Hun].
    { unfold chs'. destruct (v_add_space_prefix v); [constructor; [apply plain_space|done]|done]. }
    destruct (escaped (concat chs')); [|done]. rewrite Hcat in Hun. apply (f_equal length) in Hun. rewrite length_app in Hun. cbn in Hun. lia.
  - pose proof (has_pieces_length v ids cs Hp) as Hids. rewrite Hc, length_app in Hids. destruct Hp as [Hp Hcne].
    assert (length (space_prefix v) ≤ 1)%nat by (unfold space_prefix; destruct (v_add_space_prefix v); cbn; lia).
    rewrite (detokenize_pieces v Hv capacity ids cs special Hp).
    + by rewrite (strip_prefix v cs text Hcne Hc).
    + rewrite Hc, length_app. unfold INT32_MAX. lia.
    + unfold INT32_MAX. lia.
Qed.

(** ** A run *)

Definition occurs_check (pat s : bytes) : bool := match string_find s pat 0 with Some _ => true | None => false end.

Lemma occurs_check_false pat s : occurs_check pat s = false → ¬ occurs pat s.
Proof.
  unfold occurs_check. pose proof (string_find_spec s pat 0) as Hs. destruct (string_find s pat 0); [done|].
  intros _ (p & Hp)%occurs_at_iff. apply (Hs p); [lia|done].
Qed.

Definition only_normal_check (v : llama_vocab) (text : bytes) : bool :=
  forallb (λ d, bool_decide (td_attr d = LLAMA_TOKEN_ATTR_NORMAL) ||
    (negb (occurs_check (td_text d) text) && negb (occurs_check (td_text d) (escaped (space_prefix v ++ text))))) (v_id_to_token v).

Lemma only_normal_checked v text : only_normal_check v text = true → only_normal v text.
Proof.
  unfold only_normal_check. intros Hall i d Hd Ha. rewrite forallb_forall in Hall.
  specialize (Hall d (proj1 (list_elem_of_In _ _) (list_elem_of_lookup_2 _ _ _ Hd))). rewrite bool_decide_eq_false_2 in Hall by done.
  apply andb_true_iff in Hall as [H1 H2]. apply negb_true_iff in H1, H2. split; by apply occurs_check_false.
Qed.

Definition bytes_check (v : llama_vocab) : bool :=
  forallb (λ n, match v_token_to_id v !! byte_text (Z.of_nat n) with
    | Some id => match v_id_to_token v !! Z.to_nat id with Some d => td_attr d =? LLAMA_TOKEN_ATTR_BYTE | None => false end
    | None => false end) (seq 0 256).

Lemma bytes_checked v : bytes_check v = true → ∀ b, 0 ≤ b < 256 → ∃ id d, v_token_to_id v !! byte_text b = Some id ∧
  v_id_to_token v !! Z.to_nat id = Some d ∧ td_attr d = LLAMA_TOKEN_ATTR_BYTE.
Proof.
  unfold bytes_check. intros Hall b Hb. rewrite forallb_forall in Hall. specialize (Hall (Z.to_nat b)).
  rewrite Z2Nat.id in Hall by lia. assert (In (Z.to_nat b) (seq 0 256)) as Hin by (apply in_seq; lia). specialize (Hall Hin).
  destruct (v_token_to_id v !! byte_text b) as [id|]; [|done]. exists id. destruct (v_id_to_token v !! Z.to_nat id) as [d|] eqn:Hd; [|done].
  exists d. split_and!; [done|done|by apply Z.eqb_eq].
Qed.

Definition specials_check (v : llama_vocab) : bool :=
  forallb (λ id, (0 <=? id) && match v_id_to_token v !! Z.to_nat id with
    | Some d => negb (bool_decide (td_text d = [])) && negb (td_attr d =? LLAMA_TOKEN_ATTR_NORMAL)
    | None => false end) (v_cache_special_tokens v).

Lemma specials_checked v : specials_check v = true → ∀ id, id ∈ v_cache_special_tokens v → 0 ≤ id ∧
  ∃ d, v_id_to_token v !! Z.to_nat id = Some d ∧ td_text d ≠ [] ∧ td_attr d ≠ LLAMA_TOKEN_ATTR_NORMAL.
Proof.
  unfold specials_check. intros Hall id Hid. rewrite forallb_forall in Hall.
  specialize (Hall id (proj1 (list_elem_of_In _ _) Hid)). apply andb_true_iff in Hall as [H0 Hall].
  split; [lia|]. destruct (v_id_to_token v !! Z.to_nat id) as [d|]; [|done]. exists d.
  apply andb_true_iff in Hall as [H1 H2]. apply negb_true_iff, bool_decide_eq_false in H1. apply negb_true_iff, Z.eqb_neq in H2. done.
Qed.

(** The tokens <unk>, <s>, </s>, the byte tokens, U+2581, a, b, ab and U+2581 ab. *)
Definition ex_file : list file_token :=
  [mk_file_token (str "<unk>") (Some 0) (Some 2); mk_file_token (str "<s>") (Some 0) (Some 3);
   mk_file_token (str "</s>") (Some 0) (Some 3)] ++
  ((λ n, mk_file_token (byte_text (Z.of_nat n)) (Some 0) (Some 6)) <$> seq 0 256) ++
  [mk_file_token spm_space (Some (-10)) (Some 1); mk_file_token (str "a") (Some (-10)) (Some 1);
   mk_file_token (str "b") (Some (-10)) (Some 1); mk_file_token (str "ab") (Some (-1)) (Some 1);
   mk_file_token (spm_space ++ str "ab") (Some (-2)) (Some 1)].

Definition with_flags (v : llama_vocab) (cache : list bytes) : llama_vocab :=
  mk_vocab (v_type v) (v_pre_type v) (v_max_token_len v) 1 2 0 (-1) true true false false false true
    (v_token_to_id v) (v_id_to_token v) [0; 1; 2] cache (v_bpe_ranks v).

Definition ex_roundtrip : llama_vocab :=
  let v := with_flags (vocab_of LLAMA_VOCAB_TYPE_SPM ex_file ∅) [] in
  match build_cache v 15 with Ok cache => with_flags v cache | Err _ => v end.

(** The text a b é ab in UTF-8, with a space after the first letter. *)
Definition ex_cps : list Z := [97; 32; 98; 233; 32; 97; 98].
Definition ex_text : bytes := [97; 32; 98; 195; 169; 32; 97; 98].

Lemma ex_roundtrip_ok : spm_vocab_ok ex_roundtrip.
Proof.
  assert (vocab_ok (with_flags (vocab_of LLAMA_VOCAB_TYPE_SPM ex_file ∅) [])) as [V1 V2 V3 V4].
  { destruct (vocab_of_ok LLAMA_VOCAB_TYPE_SPM ex_file ∅) as [V1 V2 V3 V4]; [discriminate|vm_compute; reflexivity|].
    split; assumption. }
  assert (∃ cache, build_cache (with_flags (vocab_of LLAMA_VOCAB_TYPE_SPM ex_file ∅) []) 15 = Ok cache) as [cache Hcache].
  { destruct (build_cache _ _) as [cache|] eqn:He; [by exists cache|]. vm_compute in He. discriminate. }
  assert (ex_roundtrip = with_flags (vocab_of LLAMA_VOCAB_TYPE_SPM ex_file ∅) cache) as Hex.
  { unfold ex_roundtrip. cbv zeta. rewrite Hcache. reflexivity. }
  split.
  - rewrite Hex. split; assumption.
  - rewrite Hex. reflexivity.
  - rewrite Hex. reflexivity.
  - right. exists 15. split; [lia|]. rewrite Hex. exact Hcache.
  - rewrite Hex. vm_compute. eauto.
  - rewrite Hex. apply bytes_checked. vm_compute. reflexivity.
  - rewrite Hex. apply specials_checked. vm_compute. reflexivity.
Qed.

Lemma spm_roundtrip_witness :
  ∃ toks, tokenize ex_roundtrip ex_text false false = Ok toks ∧
    detokenize_string ex_roundtrip 15 toks false = Ok ex_text ∧ toks = [259; 260; 259; 261; 198; 172; 263].
Proof.
  destruct (spm_roundtrip ex_roundtrip ex_cps ex_text false false 15) as (toks & Htok & Hdet).
  - apply ex_roundtrip_ok.
  - apply (bool_decide_unpack _). vm_compute. exact I.
  - reflexivity.
  - discriminate.
  - vm_compute. reflexivity.
  - apply only_normal_checked. vm_compute. reflexivity.
  - exists toks. split; [exact Htok|]. split; [exact Hdet|]. vm_compute in Htok. injection Htok as <-. reflexivity.
Defined.
