(* ===== verification/Barrier.v ===== *)
(** * The barriers of the compute threads (ggml/src/ggml.c)

    The threads that compute a graph meet in [ggml_barrier] after every node.
    Two algorithms are behind it: a flat barrier on two counters, and a barrier in
    two levels for machines with several memory nodes: the threads of a node
    meet first, the last of them becomes the leader of the node, the leaders meet,
    and then release their nodes.

    The counters are sequentially consistent atomics, so a run is an interleaving
    of steps of the threads; a step is one atomic operation together with the
    local computation behind it.  A waiting loop is a step that leaves everything
    as it is until the awaited value changes; the pauses in it are left out. *)
From S2P Require Import Prelude.

(** ** Shared state *)

Definition GGML_NUMA_MAX_NODES : nat := 8.

(** [ggml_numa_barrier_node] *)
Record ggml_numa_barrier_node : Type := mk_nbn { nd_arrive : Z; nd_release : Z }.

(** [ggml_numa_barrier]; the padding is left out. *)
Record ggml_numa_barrier : Type := mk_nb {
  nb_node           : list ggml_numa_barrier_node;
  nb_global_arrive  : Z;
  nb_global_release : Z;
  nb_node_nth       : list Z;
  nb_n_leaders      : Z;
  nb_active         : bool;
}.

(** [ggml_compute_state_shared]: what the threads synchronise on. *)
Record ggml_compute_state_shared : Type := mk_shared {
  sh_n_threads        : Z;
  sh_n_batch          : Z;
  sh_n_barrier        : Z;
  sh_n_barrier_passed : Z;
  sh_numa_barrier     : ggml_numa_barrier;
  sh_ec               : Z;
}.

Definition GGML_STATUS_SUCCESS : Z := 0.
Definition GGML_STATUS_ABORTED : Z := 1.

Definition with_node (b : ggml_numa_barrier) (node : list ggml_numa_barrier_node) : ggml_numa_barrier :=
  mk_nb node (nb_global_arrive b) (nb_global_release b) (nb_node_nth b) (nb_n_leaders b) (nb_active b).
Definition with_global (b : ggml_numa_barrier) (arrive release : Z) : ggml_numa_barrier :=
  mk_nb (nb_node b) arrive release (nb_node_nth b) (nb_n_leaders b) (nb_active b).
Definition with_flat (s : ggml_compute_state_shared) (n_barrier passed : Z) : ggml_compute_state_shared :=
  mk_shared (sh_n_threads s) (sh_n_batch s) n_barrier passed (sh_numa_barrier s) (sh_ec s).
Definition with_numa (s : ggml_compute_state_shared) (b : ggml_numa_barrier) : ggml_compute_state_shared :=
  mk_shared (sh_n_threads s) (sh_n_batch s) (sh_n_barrier s) (sh_n_barrier_passed s) b (sh_ec s).
Definition with_ec (s : ggml_compute_state_shared) (ec : Z) : ggml_compute_state_shared :=
  mk_shared (sh_n_threads s) (sh_n_batch s) (sh_n_barrier s) (sh_n_barrier_passed s) (sh_numa_barrier s) ec.

(** [struct ggml_numa_barrier numa_barrier = { 0 }] *)
Definition numa_barrier_zero : ggml_numa_barrier :=
  mk_nb (replicate GGML_NUMA_MAX_NODES (mk_nbn 0 0)) 0 0 (replicate GGML_NUMA_MAX_NODES 0) 0 false.

(** ** The division of the threads among the nodes *)

(** [g_state.numa]: is the strategy GGML_NUMA_STRATEGY_MIRROR, and the number of nodes. *)
Record numa_state : Type := mk_numa { numa_mirror : bool; numa_n_nodes : Z }.

Definition ggml_numa_node_for_thread (numa : numa_state) (ith nth : Z) : Z :=
  let n := i32 (numa_n_nodes numa) in
  if (n <=? 1) || (nth <=? 0) then 0
  else
    let node := Z.quot (i32 (ith * n)) nth in
    if n <=? node then n - 1 else node.

(** The value of [tl_numa_node] after [set_numa_thread_affinity]; [old] is the
    value before. *)
Definition set_numa_thread_affinity (numa : numa_state) (old thread_n n_threads : Z) : Z :=
  if negb (1 <? numa_n_nodes numa) then old
  else if numa_mirror numa then ggml_numa_node_for_thread numa thread_n n_threads else old.

(** The first thread of node [k] in the block split. *)
Definition first_thread (n n_threads k : Z) : Z := Z.quot (i32 (k * n_threads + n - 1)) n.

(** [for (int k = 0; k < n; ++k)]: the counters. *)
Fixpoint clear_nodes (n k : nat) (node : list ggml_numa_barrier_node) : res (list ggml_numa_barrier_node) :=
  match n with
  | O => Ok node
  | S n => node ← put node k (mk_nbn 0 0); clear_nodes n (S k) node
  end.

(** The second loop: the threads of each node and the number of leaders. *)
Fixpoint count_nodes (rounds : nat) (n n_threads : Z) (k : nat) (node_nth : list Z) (leaders : Z) : res (list Z * Z) :=
  match rounds with
  | O => Ok (node_nth, leaders)
  | S rounds =>
      let nth := first_thread n n_threads (Z.of_nat k + 1) - first_thread n n_threads (Z.of_nat k) in
      node_nth ← put node_nth k nth;
      count_nodes rounds n n_threads (S k) node_nth (if 0 <? nth then leaders + 1 else leaders)
  end.

Definition ggml_numa_barrier_setup (numa : numa_state) (b : ggml_numa_barrier) (n_threads : Z) : res ggml_numa_barrier :=
  if negb (numa_mirror numa) || (numa_n_nodes numa <? 2) || (n_threads <=? 1) then
    Ok (mk_nb (nb_node b) (nb_global_arrive b) (nb_global_release b) (nb_node_nth b) (nb_n_leaders b) false)
  else
    let n := i32 (numa_n_nodes numa) in
    node ← clear_nodes (Z.to_nat n) 0 (nb_node b);
    '(node_nth, leaders) ← count_nodes (Z.to_nat n) n n_threads 0 (nb_node_nth b) 0;
    Ok (mk_nb node 0 0 node_nth leaders true).

(** ** The position of a thread in a barrier

    Each constructor is the next atomic operation of the thread; the argument is
    its local copy of the release counter. *)
Inductive barrier_pc : Type :=
  | FlatLoad                       (** atomic_load(n_barrier_passed) *)
  | FlatArrive (passed_old : Z)    (** atomic_fetch_add(n_barrier, 1) *)
  | FlatReset                      (** last thread: atomic_store(n_barrier, 0) *)
  | FlatRelease                    (** last thread: atomic_fetch_add(n_barrier_passed, 1) *)
  | FlatWait (passed_old : Z)      (** atomic_load(n_barrier_passed) != passed_old *)
  | NodeLoad                       (** atomic_load(&nb->release) *)
  | NodeArrive (rel_old : Z)       (** atomic_fetch_add(&nb->arrive, 1) *)
  | NodeWait (rel_old : Z)         (** atomic_load(&nb->release) == rel_old *)
  | NodeReset                      (** leader: atomic_store(&nb->arrive, 0) *)
  | GlobalLoad                     (** leader: atomic_load(&barrier->global_release) *)
  | GlobalArrive (g_old : Z)       (** leader: atomic_fetch_add(&barrier->global_arrive, 1) *)
  | GlobalWait (g_old : Z)         (** leader: atomic_load(&barrier->global_release) == g_old *)
  | GlobalReset                    (** last leader: atomic_store(&barrier->global_arrive, 0) *)
  | GlobalRelease                  (** last leader: atomic_fetch_add(&barrier->global_release, 1) *)
  | NodeRelease.                   (** leader: atomic_fetch_add(&barrier->node[node].release, 1) *)

#[global] Instance barrier_pc_eq_dec : EqDecision barrier_pc.
Proof. solve_decision. Defined.

(** After the level of the leaders: release the followers, if there are any. *)
Definition leave_global (node_nth : Z) : option barrier_pc := if 1 <? node_nth then Some NodeRelease else None.

(** The beginning of the level of the leaders. *)
Definition enter_global (b : ggml_numa_barrier) (node_nth : Z) : option barrier_pc :=
  if 1 <? nb_n_leaders b then Some GlobalLoad else leave_global node_nth.

(** Calling [ggml_barrier]: [None] when the call returns at once. *)
Definition ggml_barrier (s : ggml_compute_state_shared) (tl_numa_node : nat) : res (option barrier_pc) :=
  if sh_n_threads s =? 1 then Ok None
  else if nb_active (sh_numa_barrier s) && (sh_n_batch s <=? 32) then
    node_nth ← at_ (nb_node_nth (sh_numa_barrier s)) tl_numa_node;
    Ok (if 1 <? node_nth then Some NodeLoad else enter_global (sh_numa_barrier s) node_nth)
  else Ok (Some FlatLoad).

(** One step of [ggml_barrier_impl]. *)
Definition flat_step (s : ggml_compute_state_shared) (pc : barrier_pc)
    : ggml_compute_state_shared * option barrier_pc :=
  match pc with
  | FlatLoad => (s, Some (FlatArrive (sh_n_barrier_passed s)))
  | FlatArrive passed_old =>
      (with_flat s (i32 (sh_n_barrier s + 1)) (sh_n_barrier_passed s),
       Some (if sh_n_barrier s =? sh_n_threads s - 1 then FlatReset else FlatWait passed_old))
  | FlatReset => (with_flat s 0 (sh_n_barrier_passed s), Some FlatRelease)
  | FlatRelease => (with_flat s (sh_n_barrier s) (i32 (sh_n_barrier_passed s + 1)), None)
  | FlatWait passed_old => (s, if sh_n_barrier_passed s =? passed_old then Some (FlatWait passed_old) else None)
  | _ => (s, Some pc)
  end.

(** One step of [ggml_numa_hier_barrier]. *)
Definition hier_step (s : ggml_compute_state_shared) (node : nat) (pc : barrier_pc)
    : res (ggml_compute_state_shared * option barrier_pc) :=
  let b := sh_numa_barrier s in
  node_nth ← at_ (nb_node_nth b) node;
  nb ← at_ (nb_node b) node;
  match pc with
  | NodeLoad => Ok (s, Some (NodeArrive (nd_release nb)))
  | NodeArrive rel_old =>
      nodes ← put (nb_node b) node (mk_nbn (i32 (nd_arrive nb + 1)) (nd_release nb));
      Ok (with_numa s (with_node b nodes),
          Some (if nd_arrive nb =? node_nth - 1 then NodeReset else NodeWait rel_old))
  | NodeWait rel_old => Ok (s, if nd_release nb =? rel_old then Some (NodeWait rel_old) else None)
  | NodeReset =>
      nodes ← put (nb_node b) node (mk_nbn 0 (nd_release nb));
      Ok (with_numa s (with_node b nodes), enter_global b node_nth)
  | GlobalLoad => Ok (s, Some (GlobalArrive (nb_global_release b)))
  | GlobalArrive g_old =>
      Ok (with_numa s (with_global b (i32 (nb_global_arrive b + 1)) (nb_global_release b)),
          Some (if nb_global_arrive b =? nb_n_leaders b - 1 then GlobalReset else GlobalWait g_old))
  | GlobalReset => Ok (with_numa s (with_global b 0 (nb_global_release b)), Some GlobalRelease)
  | GlobalRelease =>
      Ok (with_numa s (with_global b (nb_global_arrive b) (i32 (nb_global_release b + 1))), leave_global node_nth)
  | GlobalWait g_old =>
      Ok (s, if nb_global_release b =? g_old then Some (GlobalWait g_old) else leave_global node_nth)
  | NodeRelease =>
      nodes ← put (nb_node b) node (mk_nbn (nd_arrive nb) (i32 (nd_release nb + 1)));
      Ok (with_numa s (with_node b nodes), None)
  | _ => Ok (s, Some pc)
  end.

Definition is_flat (pc : barrier_pc) : bool :=
  match pc with FlatLoad | FlatArrive _ | FlatReset | FlatRelease | FlatWait _ => true | _ => false end.

(** A step of a thread inside [ggml_barrier]. *)
Definition barrier_step (s : ggml_compute_state_shared) (node : nat) (pc : barrier_pc)
    : res (ggml_compute_state_shared * option barrier_pc) :=
  if is_flat pc then Ok (flat_step s pc) else hier_step s node pc.
