(* ===== verification/Rendezvous.v ===== *)
(** * A meeting of threads on two counters

    The protocol that the levels of the barriers in [Barrier] have in common:
    participants read the release counter, add one to the arrival counter, and all
    but the last wait for the release counter to change; the last one resets the
    arrivals and, later, adds one to the releases.  The invariant [meeting] relates
    the counters, which are machine integers that wrap around, to the number of
    meetings each participant has left. *)
From S2P Require Import Prelude Barrier.

(** ** Counting *)

#[local] Arguments Nat.b2n : simpl never.

Section tally.
Context {A : Type} (f : A → bool).

Fixpoint tally (l : list A) : nat :=
  match l with [] => 0%nat | x :: l => (Nat.b2n (f x) + tally l)%nat end.

Lemma tally_insert l i x y : l !! i = Some x → (tally (<[i := y]> l) + Nat.b2n (f x) = tally l + Nat.b2n (f y))%nat.
Proof.
  revert i. induction l as [|z l IH]; intros [|i] Hi; [done|done| |].
  - injection Hi as ->. cbn [insert list_insert tally]. lia.
  - specialize (IH i Hi). change (<[S i := y]> (z :: l)) with (z :: <[i := y]> l). cbn [tally]. lia.
Qed.

Lemma tally_pos l : (0 < tally l)%nat ↔ ∃ i x, l !! i = Some x ∧ f x = true.
Proof.
  split.
  - induction l as [|z l IH]; cbn; [lia|]. destruct (f z) eqn:Hz.
    + intros _. by exists 0%nat, z.
    + intros Hp. destruct IH as (i & x & ? & ?); [unfold Nat.b2n in Hp; lia|]. by exists (S i), x.
  - intros (i & x & Hi & Hx). revert i Hi. induction l as [|z l IH]; intros [|i] Hi; [done|done| |].
    + injection Hi as ->. cbn. rewrite Hx. unfold Nat.b2n. lia.
    + cbn in *. specialize (IH i Hi). lia.
Qed.
End tally.

Section tally_two.
Context {A : Type} (f g : A → bool).

Lemma tally_le l : (∀ x, x ∈ l → f x = true → g x = true) → (tally f l ≤ tally g l)%nat.
Proof.
  induction l as [|z l IH]; intros Hfg; cbn; [lia|].
  assert (Nat.b2n (f z) ≤ Nat.b2n (g z))%nat.
  { destruct (f z) eqn:Hz; [|unfold Nat.b2n; lia]. rewrite (Hfg z) by (done || left). lia. }
  specialize (IH (λ x Hx, Hfg x (list_elem_of_further _ _ _ Hx))). lia.
Qed.

(** [f] implies [g] and is as frequent: they agree. *)
Lemma tally_eq l : (∀ x, x ∈ l → f x = true → g x = true) → (tally g l ≤ tally f l)%nat →
  ∀ i x, l !! i = Some x → g x = true → f x = true.
Proof.
  intros Hfg Hle. assert (tally (λ x, g x && negb (f x)) l = 0)%nat as Hz.
  { assert (tally (λ x, g x && negb (f x)) l + tally f l = tally g l)%nat; [|lia].
    clear Hle. induction l as [|z l IH]; cbn; [done|].
    assert (f z = true → g z = true) as Hzz by (apply Hfg; left).
    specialize (IH (λ x Hx, Hfg x (list_elem_of_further _ _ _ Hx))).
    destruct (f z), (g z); unfold Nat.b2n in *; cbn; try lia; by specialize (Hzz eq_refl). }
  intros i x Hi Hg. destruct (f x) eqn:Hf; [done|].
  assert (0 < tally (λ x, g x && negb (f x)) l)%nat; [|lia]. apply tally_pos. exists i, x. by rewrite Hg, Hf.
Qed.
End tally_two.

Lemma tally_lt_exists {A} (f g : A → bool) l : (∀ x, x ∈ l → f x = true → g x = true) → (tally f l < tally g l)%nat →
  ∃ i x, l !! i = Some x ∧ g x = true ∧ f x = false.
Proof.
  intros Hfg Hlt. assert (0 < tally (λ x, g x && negb (f x)) l)%nat as Hp.
  { assert (tally (λ x, g x && negb (f x)) l + tally f l = tally g l)%nat; [|lia].
    clear Hlt. induction l as [|z l IH]; cbn; [done|].
    assert (f z = true → g z = true) as Hzz by (apply Hfg; left).
    specialize (IH (λ x Hx, Hfg x (list_elem_of_further _ _ _ Hx))).
    destruct (f z), (g z); unfold Nat.b2n in *; cbn; try lia; by specialize (Hzz eq_refl). }
  apply tally_pos in Hp as (i & x & Hi & Hx). apply andb_true_iff in Hx as [? ?%negb_true_iff]. eauto.
Qed.

(** ** Counters that wrap around *)

Lemma i32_succ (z : Z) : i32 (i32 z + 1) = i32 (z + 1).
Proof.
  unfold i32. f_equal. replace ((z + 2 ^ 31) mod 2 ^ 32 - 2 ^ 31 + 1 + 2 ^ 31) with ((z + 2 ^ 31) mod 2 ^ 32 + 1) by lia.
  rewrite Z.add_mod_idemp_l by done. f_equal. lia.
Qed.

Lemma i32_next_ne (z : Z) : i32 (z + 1) ≠ i32 z.
Proof. unfold i32. zify_div. Qed.

(** ** The protocol *)

Inductive stage : Type :=
  | Outside
  | Loaded (old : Z)
  | Waiting (old : Z)
  | Last               (** the last one to arrive, before the reset *)
  | Leading.           (** after the reset, before the release *)

(** A participant: whether it takes part, the meetings it has left, its stage. *)
Record participant : Type := mk_part { p_in : bool; p_ph : nat; p_st : stage }.

Definition is_waiting (p : participant) : bool := match p_st p with Waiting _ => true | _ => false end.

(** Waits for the end of meeting number [R]. *)
Definition current (R : nat) (p : participant) : bool := p_in p && is_waiting p && (p_ph p =? R)%nat.

Lemma current_waiter R old : current R (mk_part true R (Waiting old)) = true.
Proof. unfold current. cbn. by rewrite Nat.eqb_refl. Qed.

Definition closes (p : participant) : bool := match p_st p with Last | Leading => p_in p | _ => false end.

Definition stage_ok (n R : nat) (p : participant) : Prop :=
  match p_st p with
  | Outside => p_ph p = R
  | Loaded old => p_ph p = R ∧ old = i32 (Z.of_nat R) ∧ (2 ≤ n)%nat
  | Waiting old => old = i32 (Z.of_nat (p_ph p)) ∧ (p_ph p = R ∨ S (p_ph p) = R) ∧ (2 ≤ n)%nat
  | Last => p_ph p = R ∧ (2 ≤ n)%nat
  | Leading => p_ph p = R
  end.

Record meeting (n : nat) (arrive release : Z) (R : nat) (ps : list participant) : Prop := {
  m_n       : tally p_in ps = n;
  m_bound   : Z.of_nat n < 2 ^ 31;
  m_release : (2 ≤ n)%nat → release = i32 (Z.of_nat R);
  m_stage   : ∀ i p, ps !! i = Some p → p_in p = true → stage_ok n R p;
  m_closes  : ∀ i p j q, ps !! i = Some p → closes p = true → ps !! j = Some q → p_in q = true → j ≠ i → current R q = true;
  m_last    : ∀ i p, ps !! i = Some p → p_in p = true → p_st p = Last → arrive = Z.of_nat n;
  m_leading : ∀ i p, ps !! i = Some p → p_in p = true → p_st p = Leading → arrive = 0;
  m_arrive  : (∀ i p, ps !! i = Some p → closes p = false) → arrive = Z.of_nat (tally (current R) ps);
  m_open    : ∃ i p, ps !! i = Some p ∧ p_in p = true ∧ current R p = false;
}.

Section meeting.
Context (n : nat) (arrive release : Z) (R : nat) (ps : list participant).
Context (Hm : meeting n arrive release R ps).

Lemma current_in p : current R p = true → p_in p = true.
Proof. unfold current. by intros [[? _]%andb_true_iff _]%andb_true_iff. Qed.

(** Someone who has not arrived, or who has been released: nobody closes the meeting. *)
Lemma nobody_closes i p : ps !! i = Some p → p_in p = true → closes p = false → current R p = false →
  ∀ j q, ps !! j = Some q → closes q = false.
Proof using Hm.
  intros Hi Hin Hcl Hcur j q Hj. destruct (closes q) eqn:Hq; [|done].
  assert (i ≠ j) by congruence. pose proof (m_closes _ _ _ _ _ Hm j q i p Hj Hq Hi Hin). naive_solver.
Qed.

Lemma insert_p_in i p p' : ps !! i = Some p → p_in p' = p_in p → tally p_in (<[i := p']> ps) = n.
Proof using Hm. intros Hi Hin. pose proof (tally_insert p_in ps i p p' Hi). rewrite (m_n _ _ _ _ _ Hm), Hin in *. lia. Qed.

(** A participant that does not close: its phase, and that it waits if it is behind. *)
Lemma meeting_phase i p : ps !! i = Some p → p_in p = true →
  p_ph p = R ∨ (S (p_ph p) = R ∧ is_waiting p = true ∧ ∀ j q, ps !! j = Some q → closes q = false).
Proof using Hm.
  intros Hi Hin. pose proof (m_stage _ _ _ _ _ Hm i p Hi Hin) as Hs. unfold stage_ok in Hs.
  destruct (p_st p) eqn:Hst; [by left|left; tauto| |left; tauto|by left].
  destruct Hs as (_ & [?|?] & _); [by left|]. right. split_and!; [done|by unfold is_waiting; rewrite Hst|].
  apply (nobody_closes i p); [done..|by unfold closes; rewrite Hst|].
  unfold current. apply andb_false_iff. right. apply Nat.eqb_neq. lia.
Qed.

(** The only one that closes. *)
Lemma closes_unique i p j q : ps !! i = Some p → closes p = true → ps !! j = Some q → closes q = true → i = j.
Proof using Hm.
  intros Hi Hp Hj Hq. destruct (decide (j = i)) as [|Hne]; [done|].
  assert (p_in q = true) as Hin. { revert Hq. unfold closes. by destruct (p_st q). }
  pose proof (m_closes _ _ _ _ _ Hm i p j q Hi Hp Hj Hin Hne) as Hc. revert Hc Hq. unfold current, is_waiting, closes.
  destruct (p_st q); rewrite ?andb_false_r; done.
Qed.

(** An update of one participant that does not close before or after and that is
    not one of the current waiters before or after. *)
Lemma meeting_quiet i p p' : ps !! i = Some p → p_in p = true → p_in p' = true →
  closes p = false → closes p' = false → current R p = false → current R p' = false → stage_ok n R p' →
  meeting n arrive release R (<[i := p']> ps).
Proof using Hm.
  intros Hi Hin Hin' Hcl Hcl' Hcur Hcur' Hst. pose proof (nobody_closes i p Hi Hin Hcl Hcur) as Hno.
  assert (∀ j q, <[i := p']> ps !! j = Some q → (j = i ∧ q = p') ∨ (j ≠ i ∧ ps !! j = Some q)) as Hlook.
  { intros j q [(-> & <- & _)|[? ?]]%list_lookup_insert_Some; auto. }
  assert (i < length ps)%nat as Hlt by by eapply lookup_lt_Some.
  assert (∀ j q, <[i := p']> ps !! j = Some q → closes q = false) as Hno'.
  { intros j q [(-> & ->)|[? Hj]]%Hlook; [done|by eapply Hno]. }
  split.
  - eapply insert_p_in; [done|congruence].
  - apply Hm.
  - apply Hm.
  - intros j q [(-> & ->)|[? Hj]]%Hlook Hq; [done|]. by eapply Hm.
  - intros j q k r Hj%Hno' Hc. congruence.
  - intros j q Hj%Hno' Hq Hl. unfold closes in Hj. rewrite Hl in Hj. congruence.
  - intros j q Hj%Hno' Hq Hl. unfold closes in Hj. rewrite Hl in Hj. congruence.
  - intros _. pose proof (tally_insert (current R) ps i p p' Hi) as Ht. rewrite Hcur, Hcur' in Ht.
    rewrite (m_arrive _ _ _ _ _ Hm) by done. lia.
  - exists i, p'. by rewrite list_lookup_insert_eq by done.
Qed.
End meeting.

(** ** The steps of a participant *)

Definition at_stage (p : participant) (st : stage) : participant := mk_part (p_in p) (p_ph p) st.
Definition passed (p : participant) : participant := mk_part (p_in p) (S (p_ph p)) Outside.

Section steps.
Context (n : nat) (arrive release : Z) (R : nat) (ps : list participant).
Context (Hm : meeting n arrive release R ps).
Context (i : nat) (p : participant) (Hi : ps !! i = Some p) (Hin : p_in p = true).

Lemma meeting_lookup p' j q : <[i := p']> ps !! j = Some q → (j = i ∧ q = p') ∨ (j ≠ i ∧ ps !! j = Some q).
Proof. intros [(-> & <- & _)|[? ?]]%list_lookup_insert_Some; auto. Qed.

Lemma meeting_lookup_eq p' : <[i := p']> ps !! i = Some p'.
Proof using Hi. apply list_lookup_insert_eq. by eapply lookup_lt_Some. Qed.

Lemma meeting_load : p_st p = Outside → (2 ≤ n)%nat → meeting n arrive release R (<[i := at_stage p (Loaded release)]> ps).
Proof using Hm Hi Hin.
  intros Hst Hn. pose proof (m_stage _ _ _ _ _ Hm i p Hi Hin) as Hok. unfold stage_ok in Hok. rewrite Hst in Hok.
  eapply meeting_quiet; [done..| | | | |].
  all: unfold closes, current, is_waiting, stage_ok, at_stage; cbn; rewrite ?Hst, ?andb_false_r; try done.
  split_and!; [done|by apply (m_release _ _ _ _ _ Hm)|done].
Qed.

Lemma meeting_blocked old : p_st p = Waiting old → release = old → p_ph p = R.
Proof using Hm Hi Hin.
  intros Hst Hold. pose proof (m_stage _ _ _ _ _ Hm i p Hi Hin) as Hok. unfold stage_ok in Hok. rewrite Hst in Hok.
  destruct Hok as (Ho & [?|HS] & Hn); [done|]. exfalso. rewrite (m_release _ _ _ _ _ Hm Hn), Ho in Hold.
  apply (i32_next_ne (Z.of_nat (p_ph p))). rewrite <- Hold. f_equal. lia.
Qed.

Lemma meeting_leave old : p_st p = Waiting old → release ≠ old → meeting n arrive release R (<[i := passed p]> ps).
Proof using Hm Hi Hin.
  intros Hst Hold. pose proof (m_stage _ _ _ _ _ Hm i p Hi Hin) as Hok. unfold stage_ok in Hok. rewrite Hst in Hok.
  destruct Hok as (Ho & Hph & Hn).
  assert (p_ph p ≠ R) as Hne. { intros He. apply Hold. rewrite (m_release _ _ _ _ _ Hm Hn), Ho. congruence. }
  eapply meeting_quiet; [done..| | | | |].
  all: unfold closes, current, is_waiting, stage_ok, passed; cbn; rewrite ?Hst, ?andb_false_r; try done; try lia.
  apply andb_false_iff. right. apply Nat.eqb_neq. lia.
Qed.

(** The others when [p] has not arrived. *)
Lemma meeting_arrivals : closes p = false → current R p = false → arrive = Z.of_nat (tally (current R) ps) ∧
  (tally (current R) ps < n)%nat.
Proof using Hm Hi Hin.
  intros Hcl Hcur. split; [apply (m_arrive _ _ _ _ _ Hm), (nobody_closes _ _ _ _ _ Hm i p); done|].
  rewrite <- (m_n _ _ _ _ _ Hm). pose proof (tally_insert (current R) ps i p (mk_part true R (Waiting 0)) Hi) as Ht.
  assert (tally (current R) (<[i := mk_part true R (Waiting 0)]> ps) ≤ tally p_in ps)%nat as Hle.
  { rewrite (m_n _ _ _ _ _ Hm), <- (insert_p_in _ _ _ _ _ Hm i p (mk_part true R (Waiting 0))) by done.
    apply tally_le. intros x _. apply current_in. }
  rewrite Hcur, current_waiter in Ht. unfold Nat.b2n in Ht. lia.
Qed.

Lemma meeting_arrive old : p_st p = Loaded old →
  meeting n (i32 (arrive + 1)) release R
    (<[i := at_stage p (if arrive =? Z.of_nat n - 1 then Last else Waiting old)]> ps).
Proof using Hm Hi Hin.
  intros Hst. pose proof (m_stage _ _ _ _ _ Hm i p Hi Hin) as Hok. unfold stage_ok in Hok. rewrite Hst in Hok.
  destruct Hok as (Hph & Ho & Hn).
  assert (closes p = false) as Hcl by (unfold closes; by rewrite Hst).
  assert (current R p = false) as Hcur by (unfold current, is_waiting; by rewrite Hst, andb_false_r).
  pose proof (meeting_arrivals Hcl Hcur) as [Harr Hlt]. pose proof (m_bound _ _ _ _ _ Hm) as Hbound.
  pose proof (nobody_closes _ _ _ _ _ Hm i p Hi Hin Hcl Hcur) as Hno.
  rewrite i32_small by lia. set (p' := at_stage p _).
  assert (p_in p' = true) as Hin' by done.
  pose proof (tally_insert (current R) ps i p p' Hi) as Ht. rewrite Hcur in Ht.
  assert (∀ j q, j ≠ i → ps !! j = Some q → closes q = true → False) as Hno2. { intros j q _ Hj. rewrite (Hno j q Hj). done. }
  split.
  - eapply insert_p_in; [done|done|]. by rewrite Hin, Hin'.
  - done.
  - apply Hm.
  - intros j q [(-> & ->)|[? Hj]]%meeting_lookup Hq; [|by eapply Hm].
    unfold stage_ok, p', at_stage. cbn. destruct (arrive =? Z.of_nat n - 1); cbn; rewrite ?Hph; auto.
  - intros j q k r [(-> & ->)|[? Hj]]%meeting_lookup Hc [(-> & ->)|[? Hk]]%meeting_lookup Hr Hne; [done| |exfalso; by apply (Hno2 j q)..].
    assert (arrive = Z.of_nat n - 1) as Ha.
    { revert Hc. unfold p', at_stage, closes. cbn. destruct (arrive =? Z.of_nat n - 1) eqn:He; [lia|done]. }
    (* every other participant is a current waiter *)
    set (w := mk_part true R (Waiting 0)). pose proof (current_waiter R 0 : current R w = true) as Hw.
    pose proof (tally_insert (current R) ps i p w Hi) as Htw. rewrite Hcur, Hw in Htw. unfold Nat.b2n in Htw.
    eapply (tally_eq (current R) p_in (<[i := w]> ps)); [intros x _; apply current_in| | |done].
    + rewrite (insert_p_in _ _ _ _ _ Hm i p w) by done. lia.
    + rewrite list_lookup_insert_ne by done. exact Hk.
  - intros j q [(-> & ->)|[? Hj]]%meeting_lookup Hq Hl.
    + revert Hl. unfold p', at_stage. cbn. destruct (arrive =? Z.of_nat n - 1) eqn:He; [lia|done].
    + exfalso. apply (Hno2 j q); [done|done|]. unfold closes. by rewrite Hl.
  - intros j q [(-> & ->)|[? Hj]]%meeting_lookup Hq Hl.
    + revert Hl. unfold p', at_stage. cbn. by case_match.
    + exfalso. apply (Hno2 j q); [done|done|]. unfold closes. by rewrite Hl.
  - intros Hn'. pose proof (Hn' i p' (meeting_lookup_eq p')) as Hc.
    assert (current R p' = true) as Hcp.
    { revert Hc. unfold closes, current, is_waiting, p', at_stage. cbn. rewrite Hin, Hph, Nat.eqb_refl. by destruct (arrive =? Z.of_nat n - 1). }
    rewrite Hcp in Ht. unfold Nat.b2n in Ht. lia.
  - destruct (arrive =? Z.of_nat n - 1) eqn:He.
    + exists i, p'. rewrite meeting_lookup_eq. split_and!; [done|done|]. unfold current, is_waiting, p'. cbn. by rewrite andb_false_r.
    + assert (Nat.b2n (current R p') ≤ 1)%nat by (unfold Nat.b2n; case_match; lia).
      destruct (tally_lt_exists (current R) p_in (<[i := p']> ps)) as (j & q & ? & ? & ?); [intros x _; apply current_in| |by exists j, q].
      rewrite (insert_p_in _ _ _ _ _ Hm i p p') by (congruence || done). lia.
Qed.

(** A participant that closes the meeting: nobody else does, all others wait. *)
Lemma others_current : closes p = true → ∀ j q, j ≠ i → ps !! j = Some q → p_in q = true → current R q = true.
Proof using Hm Hi. intros Hc j q Hne Hj Hq. by eapply (m_closes _ _ _ _ _ Hm i p j q). Qed.

Lemma closes_in q : closes q = true → p_in q = true.
Proof. unfold closes. by destruct (p_st q). Qed.

Lemma current_quiet q : current R q = true → closes q = false ∧ p_st q ≠ Last ∧ p_st q ≠ Leading.
Proof. unfold current, is_waiting, closes. destruct (p_st q); rewrite ?andb_false_r; done. Qed.

Lemma others_quiet : closes p = true → ∀ j q, j ≠ i → ps !! j = Some q → closes q = false.
Proof using Hm Hi.
  intros Hc j q Hne Hj. destruct (closes q) eqn:Hq; [|done].
  destruct (current_quiet q); [|congruence]. eapply others_current; [done..|by apply closes_in].
Qed.

(** An update of the participant that closes which keeps it closing. *)
Lemma meeting_keep_closing arrive' p' : closes p = true → p_in p' = true → closes p' = true → stage_ok n R p' →
  (p_st p' = Last → arrive' = Z.of_nat n) → (p_st p' = Leading → arrive' = 0) →
  meeting n arrive' release R (<[i := p']> ps).
Proof using Hm Hi Hin.
  intros Hc Hin' Hc' Hok Hlast Hlead. pose proof (others_quiet Hc) as Hq. pose proof (others_current Hc) as Hcur.
  split.
  - eapply insert_p_in; [done|done|congruence].
  - apply Hm.
  - apply Hm.
  - intros j q [(-> & ->)|[? Hj]]%meeting_lookup ?; [done|]. by eapply Hm.
  - intros j q k r [(-> & ->)|[? Hj]]%meeting_lookup Hcq [(-> & ->)|[? Hk]]%meeting_lookup Hr Hne; [done|by eapply Hcur|..].
    all: rewrite (Hq j q) in Hcq by done; done.
  - intros j q [(-> & ->)|[? Hj]]%meeting_lookup Hqi Hl; [by apply Hlast|].
    destruct (current_quiet q) as (_ & ? & _); [by eapply Hcur|done].
  - intros j q [(-> & ->)|[? Hj]]%meeting_lookup Hqi Hl; [by apply Hlead|].
    destruct (current_quiet q) as (_ & _ & ?); [by eapply Hcur|done].
  - intros Hno. rewrite (Hno i p' (meeting_lookup_eq p')) in Hc'. done.
  - exists i, p'. rewrite meeting_lookup_eq. split_and!; [done..|]. destruct (current R p') eqn:Hp'; [|done].
    destruct (current_quiet p' Hp'); congruence.
Qed.

Lemma meeting_reset : p_st p = Last → meeting n 0 release R (<[i := at_stage p Leading]> ps).
Proof using Hm Hi Hin.
  intros Hst. pose proof (m_stage _ _ _ _ _ Hm i p Hi Hin) as Hok. unfold stage_ok in Hok. rewrite Hst in Hok.
  apply meeting_keep_closing; unfold closes, at_stage; cbn; rewrite ?Hst; done || apply Hok.
Qed.

(** The end of the meeting: the releaser leaves, the others are free to. *)
Lemma meeting_release release' : p_st p = Leading → ((2 ≤ n)%nat → release' = i32 (release + 1)) →
  meeting n arrive release' (S R) (<[i := passed p]> ps).
Proof using Hm Hi Hin.
  intros Hst Hrel. assert (closes p = true) as Hc by (unfold closes; by rewrite Hst).
  pose proof (others_quiet Hc) as Hq. pose proof (others_current Hc) as Hcur.
  pose proof (m_stage _ _ _ _ _ Hm i p Hi Hin) as Hok. unfold stage_ok in Hok. rewrite Hst in Hok.
  assert (∀ j q, <[i := passed p]> ps !! j = Some q → closes q = false) as Hno.
  { intros j q [(-> & ->)|[? Hj]]%meeting_lookup; [done|by eapply Hq]. }
  assert (∀ j q, <[i := passed p]> ps !! j = Some q → current (S R) q = false) as Hncur.
  { intros j q [(-> & ->)|[? Hj]]%meeting_lookup; [unfold current, is_waiting; cbn; by rewrite andb_false_r|].
    destruct (p_in q) eqn:Hqi; [|unfold current; by rewrite Hqi]. pose proof (Hcur j q ltac:(done) Hj Hqi) as Hcq.
    unfold current in *. apply andb_true_iff in Hcq as [_ ?%Nat.eqb_eq]. apply andb_false_iff. right. apply Nat.eqb_neq. lia. }
  split.
  - eapply insert_p_in; [done|done|done].
  - apply Hm.
  - intros Hn. rewrite (Hrel Hn), (m_release _ _ _ _ _ Hm Hn), i32_succ. f_equal. lia.
  - intros j q [(-> & ->)|[? Hj]]%meeting_lookup Hqi.
    + unfold stage_ok, passed. cbn. by rewrite Hok.
    + pose proof (Hcur j q ltac:(done) Hj Hqi) as Hcq. pose proof (m_stage _ _ _ _ _ Hm j q Hj Hqi) as Hs. revert Hs Hcq.
      unfold stage_ok, current, is_waiting. destruct (p_st q); rewrite ?andb_false_r; try done.
      intros (? & ? & ?) [_ ?%Nat.eqb_eq]%andb_true_iff. split_and!; [done|right; congruence|done].
  - intros j q k r Hj%Hno Hcq. congruence.
  - intros j q Hj%Hno Hqi Hl. unfold closes in Hj. rewrite Hl in Hj. congruence.
  - intros j q Hj%Hno Hqi Hl. unfold closes in Hj. rewrite Hl in Hj. congruence.
  - intros _. rewrite (m_leading _ _ _ _ _ Hm i p Hi Hin Hst). symmetry. apply (f_equal Z.of_nat (y := 0%nat)).
    destruct (tally (current (S R)) _) eqn:Ht; [done|]. exfalso.
    assert (0 < tally (current (S R)) (<[i := passed p]> ps))%nat as (j & q & Hj & Hjq)%tally_pos by lia.
    rewrite (Hncur j q Hj) in Hjq. done.
  - exists i, (passed p). rewrite meeting_lookup_eq. split_and!; [done..|]. by eapply Hncur, meeting_lookup_eq.
Qed.

(** A single participant skips the counters. *)
Lemma meeting_direct : p_st p = Outside → n = 1%nat → meeting n arrive release R (<[i := at_stage p Leading]> ps).
Proof using Hm Hi Hin.
  intros Hst Hn. pose proof (m_stage _ _ _ _ _ Hm i p Hi Hin) as Hok. unfold stage_ok in Hok. rewrite Hst in Hok.
  assert (closes p = false) as Hc by (unfold closes; by rewrite Hst).
  assert (current R p = false) as Hcur by (unfold current, is_waiting; by rewrite Hst, andb_false_r).
  pose proof (meeting_arrivals Hc Hcur) as [Harr Hlt].
  assert (∀ j q, j ≠ i → ps !! j = Some q → p_in q = false) as Hothers.
  { intros j q Hne Hj. destruct (p_in q) eqn:Hq; [|done]. exfalso.
    pose proof (tally_insert p_in ps i p (mk_part false 0 Outside) Hi) as Ht. rewrite Hin, (m_n _ _ _ _ _ Hm) in Ht.
    unfold Nat.b2n in Ht. cbn in Ht.
    assert (0 < tally p_in (<[i := mk_part false 0 Outside]> ps))%nat; [|lia].
    apply tally_pos. exists j, q. by rewrite list_lookup_insert_ne. }
  set (p' := at_stage p Leading).
  split.
  - by eapply insert_p_in.
  - apply Hm.
  - lia.
  - intros j q [(-> & ->)|[? Hj]]%meeting_lookup Hqi; [done|]. by eapply Hm.
  - intros j q k r Hj Hcq [(-> & ->)|[? Hk]]%meeting_lookup Hr Hne; [|by rewrite (Hothers k r) in Hr].
    apply meeting_lookup in Hj as [(-> & ->)|[? Hj]]; [done|]. by rewrite (nobody_closes _ _ _ _ _ Hm i p Hi Hin Hc Hcur j q Hj) in Hcq.
  - intros j q [(-> & ->)|[? Hj]]%meeting_lookup Hqi Hl; [done|]. by rewrite (Hothers j q) in Hqi.
  - intros j q [(-> & ->)|[? Hj]]%meeting_lookup Hqi Hl; [lia|]. by rewrite (Hothers j q) in Hqi.
  - intros Hno. specialize (Hno i p' (meeting_lookup_eq p')). unfold closes, p' in Hno. cbn in Hno. congruence.
  - exists i, p'. rewrite meeting_lookup_eq. split_and!; [done|done|]. unfold current, is_waiting, p'. cbn. by rewrite andb_false_r.
Qed.
End steps.

(** A meeting that has not begun. *)
Lemma meeting_start n ps : tally p_in ps = n → (1 ≤ n)%nat → Z.of_nat n < 2 ^ 31 →
  (∀ i p, ps !! i = Some p → p_in p = true → p_ph p = 0%nat ∧ p_st p = Outside) → meeting n 0 0 0 ps.
Proof.
  intros Hn H1 Hb Hout.
  assert (∀ i p, ps !! i = Some p → closes p = false) as Hno.
  { intros i p Hi. unfold closes. destruct (p_in p) eqn:Hin; [|by destruct (p_st p)]. by destruct (Hout i p Hi Hin) as [_ ->]. }
  split; [done|done|done| | | | | |].
  - intros i p Hi Hin. unfold stage_ok. by destruct (Hout i p Hi Hin) as [? ->].
  - intros i p j q Hi%Hno Hc. congruence.
  - intros i p Hi Hin Hl. destruct (Hout i p Hi Hin). congruence.
  - done.
  - intros _. destruct (tally (current 0) ps) eqn:Ht; [done|]. exfalso.
    assert (0 < tally (current 0) ps)%nat as (j & q & Hj & Hq)%tally_pos by lia.
    pose proof (current_in 0 q Hq) as Hin. destruct (Hout j q Hj Hin) as [_ Hst]. unfold current, is_waiting in Hq.
    by rewrite Hst, andb_false_r in Hq.
  - assert (0 < tally p_in ps)%nat as (j & q & Hj & Hq)%tally_pos by lia. exists j, q. split_and!; [done..|].
    destruct (Hout j q Hj Hq) as [_ Hst]. unfold current, is_waiting. by rewrite Hst, andb_false_r.
Qed.
