(* ===== verification/BarrierSpec.v ===== *)
(** * What the barriers promise

    The interface [BarrierProtocol] states what the compute threads rely on: an
    invariant that every call and every step keeps, under which the threads are
    never more than one meeting apart, a thread that is behind is still inside the
    barrier, and somebody can move when all are inside or somebody is behind.  The
    flat barrier, the barrier in two levels, and the barrier of a single thread
    implement it. *)
From S2P Require Import Prelude Barrier Rendezvous.

(** ** The interface *)

(** A thread as the barrier sees it: its memory node, the number of barriers it
    has passed (a history variable) and its position inside a barrier. *)
Record bthread : Type := mk_bt { bt_node : nat; bt_phase : nat; bt_pc : option barrier_pc }.

(** The thread after a step that leads to [o]. *)
Definition after (th : bthread) (o : option barrier_pc) : bthread :=
  mk_bt (bt_node th) (match o with None => S (bt_phase th) | Some _ => bt_phase th end) o.

Definition inside (th : bthread) : Prop := bt_pc th ≠ None.

(** The next step of the thread changes something. *)
Definition can_move (s : ggml_compute_state_shared) (th : bthread) : Prop :=
  ∃ pc s' o, bt_pc th = Some pc ∧ barrier_step s (bt_node th) pc = Ok (s', o) ∧ o ≠ Some pc.

Class BarrierProtocol (BI : ggml_compute_state_shared → list bthread → Prop) : Prop := {
  bi_enter s ths t th : BI s ths → ths !! t = Some th → bt_pc th = None →
    ∃ o, ggml_barrier s (bt_node th) = Ok o ∧ BI s (<[t := after th o]> ths);
  bi_step s ths t th pc : BI s ths → ths !! t = Some th → bt_pc th = Some pc →
    ∃ s' o, barrier_step s (bt_node th) pc = Ok (s', o) ∧ BI s' (<[t := after th o]> ths);
  bi_ec s ths ec : BI s ths → BI (with_ec s ec) ths;
  bi_phase s ths : BI s ths → ∃ G, ∀ t th, ths !! t = Some th → bt_phase th = G ∨ (S (bt_phase th) = G ∧ inside th);
  bi_progress s ths : BI s ths → ths ≠ [] →
    (∀ t th, ths !! t = Some th → inside th) ∨
    (∃ t th u uh, ths !! t = Some th ∧ ths !! u = Some uh ∧ inside th ∧ S (bt_phase th) = bt_phase uh) →
    ∃ t th, ths !! t = Some th ∧ can_move s th;
}.

(** ** Steps decrease a rank or change nothing *)

Definition pc_rank (o : option barrier_pc) : nat :=
  match o with
  | None => 0
  | Some pc =>
      match pc with
      | FlatLoad => 4 | FlatArrive _ => 3 | FlatReset => 2 | FlatRelease => 1 | FlatWait _ => 1
      | NodeLoad => 10 | NodeArrive _ => 9 | NodeReset => 8 | NodeWait _ => 1
      | GlobalLoad => 7 | GlobalArrive _ => 6 | GlobalReset => 5 | GlobalRelease => 4 | GlobalWait _ => 3
      | NodeRelease => 1
      end
  end.

Lemma barrier_step_rank s node pc s' o : barrier_step s node pc = Ok (s', o) →
  sh_ec s' = sh_ec s ∧ sh_n_threads s' = sh_n_threads s ∧
  ((s' = s ∧ o = Some pc) ∨ (pc_rank o < pc_rank (Some pc))%nat).
Proof.
  unfold barrier_step, hier_step, flat_step, enter_global, leave_global. intros Hs.
  destruct pc; cbn [is_flat] in Hs; inv_res; repeat case_match; inv_res; cbn; (split; [done|]; split; [done|]);
    first [by left | right; lia].
Qed.

Lemma ggml_barrier_rank s node o : ggml_barrier s node = Ok o → (pc_rank o ≤ 10)%nat.
Proof.
  unfold ggml_barrier, enter_global, leave_global. intros Hs. repeat case_match; inv_res; cbn; try lia.
  all: repeat case_match; cbn; lia.
Qed.

(** ** A single thread *)

Definition single_inv (s : ggml_compute_state_shared) (ths : list bthread) : Prop :=
  sh_n_threads s = 1 ∧ ∃ th, ths = [th] ∧ bt_pc th = None.

#[export] Instance single_protocol : BarrierProtocol single_inv.
Proof.
  split.
  - intros s ths t th (Hn & th' & -> & Hpc) Ht _. destruct t as [|t]; [|done]. injection Ht as ->.
    exists None. unfold ggml_barrier. rewrite Hn. split; [done|]. split; [done|]. by eexists.
  - intros s ths t th pc (Hn & th' & -> & Hpc) Ht Hp. destruct t as [|t]; [|done]. injection Ht as ->. congruence.
  - done.
  - intros s ths (Hn & th & -> & Hpc). exists (bt_phase th). intros [|t] th' Ht; [|done]. injection Ht as ->. by left.
  - intros s ths (Hn & th & -> & Hpc) _ [Hall|(t & th' & u & uh & Ht & Hu & Hin & _)].
    + exfalso. by apply (Hall 0%nat th).
    + destruct t as [|t]; [|done]. injection Ht as ->. done.
Qed.

(** ** The flat barrier *)

Definition flat_stage (pc : option barrier_pc) : stage :=
  match pc with
  | Some (FlatArrive old) => Loaded old
  | Some (FlatWait old) => Waiting old
  | Some FlatReset => Last
  | Some FlatRelease => Leading
  | _ => Outside
  end.

Definition flat_view (th : bthread) : participant := mk_part true (bt_phase th) (flat_stage (bt_pc th)).

Record flat_inv (s : ggml_compute_state_shared) (ths : list bthread) : Prop := {
  fi_n    : 2 ≤ sh_n_threads s;
  fi_mode : nb_active (sh_numa_barrier s) && (sh_n_batch s <=? 32) = false;
  fi_pc   : ∀ t th pc, ths !! t = Some th → bt_pc th = Some pc → is_flat pc = true;
  fi_meet : ∃ R, meeting (Z.to_nat (sh_n_threads s)) (sh_n_barrier s) (sh_n_barrier_passed s) R (flat_view <$> ths);
}.

Lemma flat_pc_insert (ths : list bthread) t th o :
  (∀ u th pc, ths !! u = Some th → bt_pc th = Some pc → is_flat pc = true) →
  (∀ pc, o = Some pc → is_flat pc = true) →
  ∀ u th' pc, <[t := after th o]> ths !! u = Some th' → bt_pc th' = Some pc → is_flat pc = true.
Proof.
  intros Hall Ho u th' pc [(-> & <- & _)|[_ Hu]]%list_lookup_insert_Some Hp; [by apply Ho|by eapply Hall].
Qed.

Lemma view_insert (f : bthread → participant) (ths : list bthread) (t : nat) th :
  f <$> <[t := th]> ths = <[t := f th]> (f <$> ths).
Proof. apply list_fmap_insert. Qed.

Lemma view_lookup (f : bthread → participant) (ths : list bthread) (t : nat) th :
  ths !! t = Some th → (f <$> ths) !! t = Some (f th).
Proof. intros Ht. by rewrite list_lookup_fmap, Ht. Qed.

Lemma view_insert_same (f : bthread → participant) (ths : list bthread) (t : nat) th th' :
  ths !! t = Some th → f th' = f th → f <$> <[t := th']> ths = f <$> ths.
Proof. intros Ht Hf. rewrite view_insert, Hf. apply list_insert_id. by apply view_lookup. Qed.

#[export] Instance flat_protocol : BarrierProtocol flat_inv.
Proof.
  split.
  - intros s ths t th [Hn Hmode Hpc (R & Hm)] Ht Hnone. exists (Some FlatLoad). unfold ggml_barrier.
    rewrite Hmode. case_match; [lia|]. split; [done|]. split; [done|done| |].
    + apply flat_pc_insert; [done|]. by intros pc [= <-].
    + exists R. rewrite (view_insert_same _ _ _ th); [done..|]. unfold flat_view, after. cbn. by rewrite Hnone.
  - intros s ths t th pc [Hn Hmode Hpc (R & Hm)] Ht Hp. unfold barrier_step. rewrite (Hpc t th pc) by done.
    pose proof (view_lookup flat_view ths t th Ht) as Hv. pose proof (Hpc t th pc Ht Hp) as Hf.
    assert (∀ o, (∀ pc', o = Some pc' → is_flat pc' = true) → ∀ s', sh_n_threads s' = sh_n_threads s →
      sh_numa_barrier s' = sh_numa_barrier s → sh_n_batch s' = sh_n_batch s →
      (∃ R', meeting (Z.to_nat (sh_n_threads s)) (sh_n_barrier s') (sh_n_barrier_passed s') R' (<[t := flat_view (after th o)]> (flat_view <$> ths))) →
      flat_inv s' (<[t := after th o]> ths)) as Hmk.
    { intros o Ho s' H1 H2 H3 HR. split; [by rewrite H1|by rewrite H2, H3|by apply flat_pc_insert|]. by rewrite view_insert, H1. }
    eexists _, _. split; [apply f_equal, surjective_pairing|]. destruct pc; try done; cbn [flat_step fst snd].
    + apply Hmk; [by intros pc [= <-]|done..|]. exists R. unfold flat_view at 1. cbn.
      eapply (meeting_load _ _ _ _ _ Hm t (flat_view th)); [done|done| |lia]. cbn. by rewrite Hp.
    + apply Hmk; [intros pc [= <-]; by case_match|done..|]. exists R. cbn [sh_n_barrier sh_n_barrier_passed with_flat].
      pose proof (meeting_arrive _ _ _ _ _ Hm t (flat_view th) Hv eq_refl passed_old) as Harr. cbn in Harr. rewrite Hp in Harr.
      specialize (Harr eq_refl). rewrite Z2Nat.id in Harr by lia. unfold flat_view at 1. cbn. unfold at_stage in Harr. cbn in Harr.
      destruct (sh_n_barrier s =? sh_n_threads s - 1); exact Harr.
    + apply Hmk; [by intros pc [= <-]|done..|]. exists R. unfold flat_view at 1. cbn.
      eapply (meeting_reset _ _ _ _ _ Hm t (flat_view th)); [done|done|]. cbn. by rewrite Hp.
    + apply Hmk; [done|done..|]. exists (S R). unfold flat_view at 1. cbn.
      eapply (meeting_release _ _ _ _ _ Hm t (flat_view th)); [done|done| |done]. cbn. by rewrite Hp.
    + destruct (sh_n_barrier_passed s =? passed_old) eqn:He.
      * apply Hmk; [by intros pc [= <-]|done..|]. exists R. rewrite list_insert_id; [done|]. rewrite Hv. f_equal.
        unfold flat_view, after. cbn. by rewrite Hp.
      * apply Hmk; [done|done..|]. exists R. unfold flat_view at 1. cbn.
        eapply (meeting_leave _ _ _ _ _ Hm t (flat_view th)); [done|done|cbn; by rewrite Hp|lia].
  - intros s ths ec [Hn Hmode Hpc Hm]. by split.
  - intros s ths [Hn Hmode Hpc (R & Hm)]. exists R. intros t th Ht.
    destruct (meeting_phase _ _ _ _ _ Hm t (flat_view th)) as [?|(? & Hw & _)]; [by apply view_lookup|done|by left|].
    right. split; [done|]. unfold inside. intros Hpn. unfold is_waiting in Hw. cbn in Hw. by rewrite Hpn in Hw.
  - intros s ths [Hn Hmode Hpc (R & Hm)] _ Hcase.
    assert (∀ t th, ths !! t = Some th → inside th → current R (flat_view th) = false → can_move s th) as Hmove.
    { intros t th Ht Hin Hcur. destruct (bt_pc th) as [pc|] eqn:Hp; [|done]. pose proof (Hpc t th pc Ht Hp) as Hf.
      unfold can_move, barrier_step. exists pc. rewrite Hf. eexists _, _. split; [done|]. split; [apply f_equal, surjective_pairing|].
      destruct pc; try done; cbn [flat_step snd]; [by case_match|].
      destruct (sh_n_barrier_passed s =? passed_old) eqn:He; [|done]. exfalso.
      pose proof (meeting_blocked _ _ _ _ _ Hm t (flat_view th) (view_lookup _ _ _ _ Ht) eq_refl passed_old) as Hb. cbn in Hb.
      rewrite Hp in Hb. specialize (Hb eq_refl ltac:(lia)). unfold current, is_waiting in Hcur. cbn in Hcur.
      rewrite Hp, Hb, Nat.eqb_refl in Hcur. done. }
    destruct Hcase as [Hall|(t & th & u & uh & Ht & Hu & Hin & Hph)].
    + destruct (m_open _ _ _ _ _ Hm) as (t & p & Hp & _ & Hcur). rewrite list_lookup_fmap in Hp.
      destruct (ths !! t) as [th|] eqn:Ht; [|done]. injection Hp as <-. exists t, th. split; [done|]. by eapply Hmove; eauto.
    + exists t, th. split; [done|]. eapply Hmove; [done..|].
      destruct (meeting_phase _ _ _ _ _ Hm u (flat_view uh)) as [Hpu|(Hpu & _)]; [by apply view_lookup|done| |];
      destruct (meeting_phase _ _ _ _ _ Hm t (flat_view th)) as [Hpt|(Hpt & _)]; try (by apply view_lookup); try done; cbn in *; try lia.
      unfold current. apply andb_false_iff. right. apply Nat.eqb_neq. cbn. lia.
Qed.
