(* ===== verification/BarrierHier.v ===== *)
(** * The barrier in two levels keeps its promise

    Each memory node is a meeting of its threads, and the leaders of the nodes are
    a meeting of their own: a thread between the arrival of its node and the
    release of its followers is the participant of the node in the meeting of the
    leaders. *)
From S2P Require Import Prelude Barrier Rendezvous BarrierSpec.

(** The stage of a thread in the meeting of its node. *)
Definition node_stage (pc : option barrier_pc) : stage :=
  match pc with
  | Some (NodeArrive old) => Loaded old
  | Some (NodeWait old) => Waiting old
  | Some NodeReset => Last
  | Some (GlobalLoad | GlobalArrive _ | GlobalWait _ | GlobalReset | GlobalRelease | NodeRelease) => Leading
  | _ => Outside
  end.

(** The stage of a leader in the meeting of the leaders. *)
Definition global_stage (pc : option barrier_pc) : stage :=
  match pc with
  | Some (GlobalArrive old) => Loaded old
  | Some (GlobalWait old) => Waiting old
  | Some GlobalReset => Last
  | Some GlobalRelease => Leading
  | _ => Outside
  end.

Definition node_view (k : nat) (th : bthread) : participant :=
  if (bt_node th =? k)%nat then mk_part true (bt_phase th) (node_stage (bt_pc th)) else mk_part false 0 Outside.

(** The participant that a leader is among the leaders: once its node only waits
    to be released it has left that meeting. *)
Definition leader_view (th : bthread) : participant :=
  mk_part true (if decide (bt_pc th = Some NodeRelease) then S (bt_phase th) else bt_phase th) (global_stage (bt_pc th)).

Definition leads (th : bthread) : Prop := node_stage (bt_pc th) = Leading.

(** The counters of the nodes, with [R] the meetings each node has finished. *)
Record hier_state (b : ggml_numa_barrier) (ths : list bthread) (R : nat → nat) (G : nat) (gps : list participant) : Prop := {
  hs_node_len : length (nb_node b) = GGML_NUMA_MAX_NODES;
  hs_gps_len  : length gps = GGML_NUMA_MAX_NODES;
  hs_bound    : ∀ t th, ths !! t = Some th → (bt_node th < GGML_NUMA_MAX_NODES)%nat;
  hs_count    : ∀ k nth, nb_node_nth b !! k = Some nth → nth = Z.of_nat (tally p_in (node_view k <$> ths));
  hs_nth_len  : length (nb_node_nth b) = GGML_NUMA_MAX_NODES;
  hs_meet     : ∀ k c nth, nb_node b !! k = Some c → nb_node_nth b !! k = Some nth → 0 < nth →
    meeting (Z.to_nat nth) (nd_arrive c) (nd_release c) (R k) (node_view k <$> ths);
  hs_leaders  : 2 ≤ nb_n_leaders b;
  hs_global   : meeting (Z.to_nat (nb_n_leaders b)) (nb_global_arrive b) (nb_global_release b) G gps;
  hs_used     : ∀ k p nth, gps !! k = Some p → nb_node_nth b !! k = Some nth → p_in p = (0 <? nth);
  hs_lead     : ∀ t th, ths !! t = Some th → leads th → gps !! bt_node th = Some (leader_view th);
  hs_idle     : ∀ k nth, nb_node_nth b !! k = Some nth → 0 < nth →
    (∀ t th, ths !! t = Some th → bt_node th = k → ¬ leads th) → gps !! k = Some (mk_part true (R k) Outside);
}.

Record hier_inv (s : ggml_compute_state_shared) (ths : list bthread) : Prop := {
  hi_n     : sh_n_threads s ≠ 1;
  hi_mode  : nb_active (sh_numa_barrier s) && (sh_n_batch s <=? 32) = true;
  hi_pc    : ∀ t th pc, ths !! t = Some th → bt_pc th = Some pc → is_flat pc = false;
  hi_load  : ∀ t th nth, ths !! t = Some th → bt_pc th = Some NodeLoad →
    nb_node_nth (sh_numa_barrier s) !! bt_node th = Some nth → 1 < nth;
  hi_state : ∃ R G gps, hier_state (sh_numa_barrier s) ths R G gps;
}.

Lemma node_view_in th : node_view (bt_node th) th = mk_part true (bt_phase th) (node_stage (bt_pc th)).
Proof. unfold node_view. by rewrite Nat.eqb_refl. Qed.

Lemma node_view_out k th : bt_node th ≠ k → node_view k th = mk_part false 0 Outside.
Proof. intros Hk%Nat.eqb_neq. unfold node_view. by rewrite Hk. Qed.

Section update.
Context (b : ggml_numa_barrier) (ths : list bthread) (R : nat → nat) (G : nat) (gps : list participant).
Context (H : hier_state b ths R G gps).
Context (t : nat) (th : bthread) (Ht : ths !! t = Some th).

Lemma node_used nth : nb_node_nth b !! bt_node th = Some nth → 0 < nth.
Proof using H Ht.
  intros Hn. rewrite (hs_count _ _ _ _ _ H _ _ Hn).
  assert (0 < tally p_in (node_view (bt_node th) <$> ths))%nat; [|lia].
  apply tally_pos. exists t, (node_view (bt_node th) th). split; [by apply view_lookup|]. by rewrite node_view_in.
Qed.

(** The node of a thread. *)
Lemma node_data : ∃ c nth, nb_node b !! bt_node th = Some c ∧ nb_node_nth b !! bt_node th = Some nth ∧ 0 < nth ∧
  meeting (Z.to_nat nth) (nd_arrive c) (nd_release c) (R (bt_node th)) (node_view (bt_node th) <$> ths).
Proof using H Ht.
  pose proof (hs_bound _ _ _ _ _ H t th Ht) as Hb.
  destruct (lookup_lt_is_Some_2 (nb_node b) (bt_node th)) as [c Hc]; [by rewrite (hs_node_len _ _ _ _ _ H)|].
  destruct (lookup_lt_is_Some_2 (nb_node_nth b) (bt_node th)) as [nth Hn]; [by rewrite (hs_nth_len _ _ _ _ _ H)|].
  pose proof (node_used nth Hn). exists c, nth. split_and!; [done..|]. by eapply hs_meet.
Qed.

(** Nobody else of the node leads, if the thread closes the meeting of the node or
    nobody does. *)
Definition alone : Prop := ∀ u uh, ths !! u = Some uh → u ≠ t → bt_node uh = bt_node th → ¬ leads uh.

Lemma alone_closing : closes (node_view (bt_node th) th) = true → alone.
Proof using H Ht.
  intros Hc u uh Hu Hne Hnode Hl. destruct node_data as (c & nth & _ & _ & _ & Hm).
  apply Hne. apply eq_sym. eapply (closes_unique _ _ _ _ _ Hm t _ u (node_view (bt_node th) uh)); [by apply view_lookup|done|by apply view_lookup|].
  rewrite <- Hnode, node_view_in. unfold closes. cbn. by rewrite Hl.
Qed.

Lemma alone_open : closes (node_view (bt_node th) th) = false → current (R (bt_node th)) (node_view (bt_node th) th) = false →
  ∀ u uh, ths !! u = Some uh → bt_node uh = bt_node th → ¬ leads uh.
Proof using H Ht.
  intros Hc Hcur u uh Hu Hnode Hl. destruct node_data as (c & nth & _ & _ & _ & Hm).
  assert (closes (node_view (bt_node th) uh) = false) as Hcl.
  { eapply (nobody_closes _ _ _ _ _ Hm t); [by apply view_lookup|by rewrite node_view_in|done|done|by apply view_lookup]. }
  rewrite <- Hnode, node_view_in in Hcl. unfold closes in Hcl. cbn in Hcl. by rewrite Hl in Hcl.
Qed.

(** The general update: one thread, the counters of its node, its participant
    among the leaders. *)
Lemma hier_update o c' ga gr G' g' r :
  (∀ nth, nb_node_nth b !! bt_node th = Some nth →
    meeting (Z.to_nat nth) (nd_arrive c') (nd_release c') r (<[t := node_view (bt_node th) (after th o)]> (node_view (bt_node th) <$> ths))) →
  meeting (Z.to_nat (nb_n_leaders b)) ga gr G' (<[bt_node th := g']> gps) →
  p_in g' = true → alone →
  (leads (after th o) → g' = leader_view (after th o)) →
  (¬ leads (after th o) → g' = mk_part true r Outside) →
  hier_state (with_global (with_node b (<[bt_node th := c']> (nb_node b))) ga gr) (<[t := after th o]> ths)
    (λ k, if (k =? bt_node th)%nat then r else R k) G' (<[bt_node th := g']> gps).
Proof using H Ht.
  intros Hmeet Hglob Hin Halone Hlead Hidle. pose proof (hs_bound _ _ _ _ _ H t th Ht) as Hb.
  assert (∀ u uh, <[t := after th o]> ths !! u = Some uh → (u = t ∧ uh = after th o) ∨ (u ≠ t ∧ ths !! u = Some uh)) as Hlook.
  { intros u uh [(-> & <- & _)|[? ?]]%list_lookup_insert_Some; auto. }
  assert (<[t := after th o]> ths !! t = Some (after th o)) as Htt by (apply list_lookup_insert_eq; by eapply lookup_lt_Some).
  split; cbn [with_global with_node nb_node nb_global_arrive nb_global_release nb_node_nth nb_n_leaders nb_active].
  - rewrite length_insert. apply H.
  - rewrite length_insert. apply H.
  - intros u uh [(-> & ->)|[? Hu]]%Hlook; [done|by eapply hs_bound].
  - intros k nth Hk. rewrite (hs_count _ _ _ _ _ H k nth Hk). f_equal.
    assert (p_in (node_view k (after th o)) = p_in (node_view k th)) as Hin' by (unfold node_view; cbn; by case_match).
    rewrite view_insert. pose proof (tally_insert p_in (node_view k <$> ths) t _ (node_view k (after th o)) (view_lookup _ _ _ _ Ht)) as Ht'.
    rewrite Hin' in Ht'. lia.
  - apply H.
  - intros k c nth Hc Hn Hpos. destruct (Nat.eqb_spec k (bt_node th)) as [->|Hne].
    + rewrite list_lookup_insert_eq in Hc by (rewrite (hs_node_len _ _ _ _ _ H); done). injection Hc as <-.
      rewrite view_insert. by apply Hmeet.
    + rewrite list_lookup_insert_ne in Hc by done. rewrite (view_insert_same _ _ _ th); [by eapply hs_meet|done|].
      by rewrite !node_view_out.
  - apply H.
  - done.
  - intros k p nth [(<- & <- & _)|[Hne Hp]]%list_lookup_insert_Some Hn.
    + rewrite Hin. symmetry. apply Z.ltb_lt. by apply node_used.
    + by eapply hs_used.
  - intros u uh [(-> & ->)|[Hne Hu]]%Hlook Hl.
    + rewrite list_lookup_insert_eq; [by rewrite Hlead|]. cbn. by rewrite (hs_gps_len _ _ _ _ _ H).
    + rewrite list_lookup_insert_ne; [by eapply hs_lead|]. intros Hn. by eapply (Halone u uh).
  - intros k nth Hn Hpos Hno. destruct (Nat.eqb_spec k (bt_node th)) as [->|Hne].
    + rewrite list_lookup_insert_eq by (by rewrite (hs_gps_len _ _ _ _ _ H)). f_equal. apply Hidle. by apply (Hno t).
    + rewrite list_lookup_insert_ne by done. eapply hs_idle; [done..|]. intros u uh Hu Hnode.
      apply (Hno u); [|done]. rewrite list_lookup_insert_ne; [done|]. intros ->. congruence.
Qed.
End update.

(** ** The steps *)

Lemma numa_eta b : mk_nb (nb_node b) (nb_global_arrive b) (nb_global_release b) (nb_node_nth b) (nb_n_leaders b) (nb_active b) = b.
Proof. by destruct b. Qed.

Definition hier_ok (b : ggml_numa_barrier) (ths : list bthread) : Prop := ∃ R G gps, hier_state b ths R G gps.

Section node_step.
Context (b : ggml_numa_barrier) (ths : list bthread) (R : nat → nat) (G : nat) (gps : list participant).
Context (H : hier_state b ths R G gps).
Context (t : nat) (th : bthread) (Ht : ths !! t = Some th).

(** A step in the meeting of the node by a thread that does not lead. *)
Lemma hier_node_step o c' :
  ¬ leads th → ¬ leads (after th o) →
  (∀ u uh, ths !! u = Some uh → bt_node uh = bt_node th → ¬ leads uh) →
  (∀ nth, nb_node_nth b !! bt_node th = Some nth →
    meeting (Z.to_nat nth) (nd_arrive c') (nd_release c') (R (bt_node th)) (<[t := node_view (bt_node th) (after th o)]> (node_view (bt_node th) <$> ths))) →
  hier_ok (with_node b (<[bt_node th := c']> (nb_node b))) (<[t := after th o]> ths).
Proof using H Ht.
  intros Hl Hl' Hno Hm. destruct (node_data _ _ _ _ _ H t th Ht) as (c & nth & Hc & Hn & Hpos & _).
  assert (gps !! bt_node th = Some (mk_part true (R (bt_node th)) Outside)) as Hg.
  { eapply (hs_idle _ _ _ _ _ H); [done|done|]. intros u uh Hu Hnode. by apply (Hno u). }
  eexists _, G, _. eapply (hier_update _ _ _ _ _ H t th Ht o c' (nb_global_arrive b) (nb_global_release b) G
    (mk_part true (R (bt_node th)) Outside) (R (bt_node th))); [done| |done| |done|done].
  - rewrite (list_insert_id gps) by done. apply H.
  - intros u uh Hu _ Hnode. by apply (Hno u).
Qed.

(** The last to arrive becomes the leader. *)
Lemma hier_lead_step o c' :
  ¬ leads th → leads (after th o) → alone ths t th →
  leader_view (after th o) = mk_part true (R (bt_node th)) Outside →
  (∀ nth, nb_node_nth b !! bt_node th = Some nth →
    meeting (Z.to_nat nth) (nd_arrive c') (nd_release c') (R (bt_node th)) (<[t := node_view (bt_node th) (after th o)]> (node_view (bt_node th) <$> ths))) →
  hier_ok (with_node b (<[bt_node th := c']> (nb_node b))) (<[t := after th o]> ths).
Proof using H Ht.
  intros Hl Hl' Hno Hv Hm. destruct (node_data _ _ _ _ _ H t th Ht) as (c & nth & Hc & Hn & Hpos & _).
  assert (gps !! bt_node th = Some (mk_part true (R (bt_node th)) Outside)) as Hg.
  { eapply (hs_idle _ _ _ _ _ H); [done|done|]. intros u uh Hu Hnode. destruct (decide (u = t)) as [->|Hne].
    - congruence.
    - by apply (Hno u). }
  eexists _, G, _. eapply (hier_update _ _ _ _ _ H t th Ht o c' (nb_global_arrive b) (nb_global_release b) G
    (mk_part true (R (bt_node th)) Outside) (R (bt_node th))); [done| |done|done|done|done].
  rewrite (list_insert_id gps) by done. apply H.
Qed.

Lemma with_node_same : with_node b (nb_node b) = b.
Proof. apply numa_eta. Qed.

(** A step of a leader that stays one. *)
Lemma hier_global_step o ga gr G' :
  leads th → leads (after th o) → (∃ pc, o = Some pc) →
  meeting (Z.to_nat (nb_n_leaders b)) ga gr G' (<[bt_node th := leader_view (after th o)]> gps) →
  hier_ok (with_global b ga gr) (<[t := after th o]> ths).
Proof using H Ht.
  intros Hl Hl' [pc ->] Hm. destruct (node_data _ _ _ _ _ H t th Ht) as (c & nth & Hc & Hn & Hpos & Hmn).
  assert (node_view (bt_node th) (after th (Some pc)) = node_view (bt_node th) th) as Hv.
  { change (bt_node th) with (bt_node (after th (Some pc))) at 1. rewrite !node_view_in. cbn. unfold leads in *. cbn in Hl'. by rewrite Hl, Hl'. }
  assert (alone ths t th) as Halone.
  { eapply alone_closing; [done..|]. rewrite node_view_in. unfold closes. cbn. by rewrite Hl. }
  pose proof (hier_update _ _ _ _ _ H t th Ht (Some pc) c ga gr G' (leader_view (after th (Some pc))) (R (bt_node th))) as Hup.
  rewrite (list_insert_id (nb_node b)), with_node_same in Hup by done.
  eexists _, _, _. apply Hup; [|done|done|done|done|done].
  intros nth' Hn'. assert (nth' = nth) as -> by congruence. rewrite Hv, list_insert_id; [done|]. by apply view_lookup.
Qed.

(** A leader without followers leaves after the meeting of the leaders. *)
Lemma hier_leave_step ga gr G' :
  leads th → bt_pc th ≠ Some NodeRelease → nb_node_nth b !! bt_node th = Some 1 →
  meeting (Z.to_nat (nb_n_leaders b)) ga gr G' (<[bt_node th := mk_part true (S (bt_phase th)) Outside]> gps) →
  hier_ok (with_global b ga gr) (<[t := after th None]> ths).
Proof using H Ht.
  intros Hl Hpc Hn1 Hm. destruct (node_data _ _ _ _ _ H t th Ht) as (c & nth & Hc & Hn & Hpos & Hmn).
  assert (nth = 1) as -> by congruence.
  assert (alone ths t th) as Halone.
  { eapply alone_closing; [done..|]. rewrite node_view_in. unfold closes. cbn. by rewrite Hl. }
  pose proof (view_lookup (node_view (bt_node th)) ths t th Ht) as Hv. rewrite node_view_in in Hv.
  pose proof (m_stage _ _ _ _ _ Hmn t _ Hv eq_refl) as Hst. unfold stage_ok in Hst. cbn in Hst. rewrite Hl in Hst.
  pose proof (hier_update _ _ _ _ _ H t th Ht None c ga gr G' (mk_part true (S (bt_phase th)) Outside) (S (R (bt_node th)))) as Hup.
  rewrite (list_insert_id (nb_node b)), with_node_same in Hup by done.
  eexists _, _, _. apply Hup; [|done|done|done|done|by rewrite Hst].
  intros nth Hn'. assert (nth = 1) as -> by congruence.
  change (node_view (bt_node th) (after th None)) with (node_view (bt_node (after th None)) (after th None)). rewrite node_view_in.
  eapply (meeting_release _ _ (nd_release c) _ _ Hmn t (mk_part true (bt_phase th) (node_stage (bt_pc th)))); [done|done| |cbn; lia].
  by cbn.
Qed.
End node_step.

(** Everything but the meetings. *)
Lemma hier_inv_after s ths t th o s' :
  hier_inv s ths → ths !! t = Some th →
  sh_n_threads s' = sh_n_threads s → sh_n_batch s' = sh_n_batch s →
  nb_active (sh_numa_barrier s') = nb_active (sh_numa_barrier s) →
  nb_node_nth (sh_numa_barrier s') = nb_node_nth (sh_numa_barrier s) →
  (∀ pc, o = Some pc → is_flat pc = false) →
  (o = Some NodeLoad → ∀ nth, nb_node_nth (sh_numa_barrier s) !! bt_node th = Some nth → 1 < nth) →
  hier_ok (sh_numa_barrier s') (<[t := after th o]> ths) → hier_inv s' (<[t := after th o]> ths).
Proof.
  intros [Hn Hmode Hpc Hload _] Ht H1 H2 H3 H4 Ho Hl Hok. split; [congruence|congruence| | |done].
  - intros u uh pc [(-> & <- & _)|[_ Hu]]%list_lookup_insert_Some Hp; [by apply Ho|by eapply Hpc].
  - intros u uh nth [(-> & <- & _)|[_ Hu]]%list_lookup_insert_Some Hp; rewrite H4; [by apply Hl|by eapply Hload].
Qed.

Section instance.
Context (s : ggml_compute_state_shared) (ths : list bthread) (Hi : hier_inv s ths).
Context (t : nat) (th : bthread) (Ht : ths !! t = Some th).
Local Abbreviation b := (sh_numa_barrier s).
Local Abbreviation k := (bt_node th).

Lemma after_same pc : bt_pc th = Some pc → after th (Some pc) = th.
Proof. unfold after. destruct th. cbn. congruence. Qed.

Lemma view_here R c nth G gps : hier_state b ths R G gps → nb_node b !! k = Some c → nb_node_nth b !! k = Some nth →
  meeting (Z.to_nat nth) (nd_arrive c) (nd_release c) (R k) (node_view k <$> ths) ∧
  (node_view k <$> ths) !! t = Some (mk_part true (bt_phase th) (node_stage (bt_pc th))).
Proof using Ht.
  intros H Hc Hn. split.
  - eapply hs_meet; [done..|]. by eapply node_used.
  - rewrite <- node_view_in. by apply view_lookup.
Qed.

(** Nobody leads in the node of a thread that has not arrived or is released. *)
Lemma nobody_leads R G gps : hier_state b ths R G gps → closes (node_view k th) = false → current (R k) (node_view k th) = false →
  ∀ u uh, ths !! u = Some uh → bt_node uh = k → ¬ leads uh.
Proof using Ht. intros H. by eapply alone_open. Qed.

Lemma enter_ok : bt_pc th = None →
  ∃ o, ggml_barrier s k = Ok o ∧ hier_inv s (<[t := after th o]> ths).
Proof using All.
  intros Hnone. pose proof Hi as [Hn Hmode Hpc Hload (R & G & gps & H)].
  destruct (node_data _ _ _ _ _ H t th Ht) as (c & nth & Hc & Hnth & Hpos & Hm).
  destruct (view_here _ _ _ _ _ H Hc Hnth) as [_ Hv]. rewrite Hnone in Hv.
  unfold ggml_barrier, enter_global. rewrite Hmode. case_match; [lia|]. rewrite (proj2 (at_Ok _ _ _) Hnth). cbn [mbind res_bind].
  pose proof (hs_leaders _ _ _ _ _ H) as HL. rewrite (proj2 (Z.ltb_lt 1 (nb_n_leaders b))) by lia.
  eexists. split; [done|].
  assert (¬ leads th) as Hnl by (unfold leads; by rewrite Hnone).
  assert (closes (node_view k th) = false) as Hcl by (rewrite node_view_in; unfold closes; cbn; by rewrite Hnone).
  assert (current (R k) (node_view k th) = false) as Hcur by (rewrite node_view_in; unfold current, is_waiting; cbn; by rewrite Hnone).
  pose proof (nobody_leads _ _ _ H Hcl Hcur) as Hno.
  destruct (1 <? nth) eqn:H1.
  - apply (hier_inv_after s); try done; [by intros pc [= <-]|intros _ nth' Hn'; assert (nth' = nth) as -> by congruence; lia|].
    rewrite <- (with_node_same b), <- (list_insert_id (nb_node b) k c) by done.
    eapply hier_node_step; [done..|]. intros nth' Hn'. assert (nth' = nth) as -> by congruence.
    rewrite list_insert_id; [done|]. rewrite Hv. f_equal.
    change k with (bt_node (after th (Some NodeLoad))). rewrite node_view_in. done.
  - assert (nth = 1) as -> by lia.
    apply (hier_inv_after s); try done; [by intros pc [= <-]|].
    rewrite <- (with_node_same b), <- (list_insert_id (nb_node b) k c) by done.
    pose proof (m_stage _ _ _ _ _ Hm t _ Hv eq_refl) as Hst. cbn in Hst.
    eapply hier_lead_step; [done..| | |].
    + intros u uh Hu _ Hnode. by apply (Hno u).
    + unfold leader_view. cbn. by rewrite Hst.
    + intros nth' Hn'. assert (nth' = 1) as -> by congruence.
      change (node_view k (after th (Some GlobalLoad))) with (node_view (bt_node (after th (Some GlobalLoad))) (after th (Some GlobalLoad))).
      rewrite node_view_in. eapply (meeting_direct _ _ _ _ _ Hm t _ Hv); done.
Qed.

(** The view of the thread after a step, in its own node. *)
Lemma view_after o : node_view k (after th o) =
  mk_part true (match o with None => S (bt_phase th) | Some _ => bt_phase th end) (node_stage o).
Proof. change k with (bt_node (after th o)). by rewrite node_view_in. Qed.

Lemma meeting_of R G gps c nth nth' arrive release ps : hier_state b ths R G gps → nb_node_nth b !! k = Some nth →
  meeting (Z.to_nat nth) arrive release (R k) ps → nb_node_nth b !! k = Some nth' →
  nb_node b !! k = Some c → meeting (Z.to_nat nth') arrive release (R k) ps.
Proof. intros _ Hn Hm Hn' _. by assert (nth' = nth) as -> by congruence. Qed.

(** A step in the meeting of the node; the thread neither leads before nor after. *)
Lemma node_step_ok R G gps c nth c' o :
  hier_state b ths R G gps → nb_node b !! k = Some c → nb_node_nth b !! k = Some nth →
  ¬ leads th → node_stage o ≠ Leading → closes (node_view k th) = false → current (R k) (node_view k th) = false →
  (∀ pc, o = Some pc → is_flat pc = false) → o ≠ Some NodeLoad →
  meeting (Z.to_nat nth) (nd_arrive c') (nd_release c') (R k)
    (<[t := mk_part true (match o with None => S (bt_phase th) | Some _ => bt_phase th end) (node_stage o)]> (node_view k <$> ths)) →
  hier_inv (with_numa s (with_node b (<[k := c']> (nb_node b)))) (<[t := after th o]> ths).
Proof using All.
  intros H Hc Hnth Hnl Hnl' Hcl Hcur Ho Hload Hm.
  apply (hier_inv_after s); try done. cbn [sh_numa_barrier with_numa].
  eapply hier_node_step; [done|done|done|done|by eapply nobody_leads|].
  intros nth' Hn'. assert (nth' = nth) as -> by congruence. by rewrite view_after.
Qed.

Lemma with_numa_same : with_numa s b = s.
Proof. by destruct s. Qed.

(** The same for a step that only reads. *)
Lemma node_read_ok R G gps c nth o :
  hier_state b ths R G gps → nb_node b !! k = Some c → nb_node_nth b !! k = Some nth →
  ¬ leads th → node_stage o ≠ Leading → closes (node_view k th) = false → current (R k) (node_view k th) = false →
  (∀ pc, o = Some pc → is_flat pc = false) → o ≠ Some NodeLoad →
  meeting (Z.to_nat nth) (nd_arrive c) (nd_release c) (R k)
    (<[t := mk_part true (match o with None => S (bt_phase th) | Some _ => bt_phase th end) (node_stage o)]> (node_view k <$> ths)) →
  hier_inv s (<[t := after th o]> ths).
Proof using All.
  intros H Hc Hnth Hnl Hnl' Hcl Hcur Ho Hload Hm. rewrite <- with_numa_same, <- (with_node_same b), <- (list_insert_id (nb_node b) k c) by done.
  by eapply node_step_ok.
Qed.

(** A step of a leader in the meeting of the leaders. *)
Lemma global_step_ok R G gps ga gr G' pc :
  hier_state b ths R G gps → leads th → node_stage (Some pc) = Leading → is_flat pc = false →
  meeting (Z.to_nat (nb_n_leaders b)) ga gr G' (<[k := leader_view (after th (Some pc))]> gps) →
  hier_inv (with_numa s (with_global b ga gr)) (<[t := after th (Some pc)]> ths).
Proof using All.
  intros H Hl Hl' Hf Hm. apply (hier_inv_after s); try done; [by intros ? [= <-]|intros [= ->]; done|].
  cbn [sh_numa_barrier with_numa]. eapply hier_global_step; [done|done|done|done|by eexists|done].
Qed.

(** Leaving the meeting of the leaders, with or without followers. *)
Lemma leave_step_ok R G gps ga gr G' nth :
  hier_state b ths R G gps → leads th → bt_pc th ≠ Some NodeRelease → nb_node_nth b !! k = Some nth →
  meeting (Z.to_nat (nb_n_leaders b)) ga gr G' (<[k := mk_part true (S (bt_phase th)) Outside]> gps) →
  hier_inv (with_numa s (with_global b ga gr)) (<[t := after th (leave_global nth)]> ths).
Proof using All.
  intros H Hl Hpc Hnth Hm. pose proof (node_used _ _ _ _ _ H t th Ht nth Hnth) as Hpos.
  unfold leave_global. destruct (1 <? nth) eqn:H1.
  - eapply global_step_ok; [done|done|done|done|]. exact Hm.
  - assert (nth = 1) as -> by lia. apply (hier_inv_after s); try done. cbn [sh_numa_barrier with_numa].
    eapply hier_leave_step; [done|done|done|done|done|exact Hm].
Qed.

Lemma release_step_ok R G gps c nth :
  hier_state b ths R G gps → nb_node b !! k = Some c → nb_node_nth b !! k = Some nth → bt_pc th = Some NodeRelease →
  hier_inv (with_numa s (with_node b (<[k := mk_nbn (nd_arrive c) (i32 (nd_release c + 1))]> (nb_node b)))) (<[t := after th None]> ths).
Proof using All.
  intros H Hc Hnth Hpc. assert (leads th) as Hl by (unfold leads; by rewrite Hpc).
  destruct (view_here _ _ _ _ _ H Hc Hnth) as [Hm Hv].
  pose proof (m_stage _ _ _ _ _ Hm t _ Hv eq_refl) as Hst. unfold stage_ok in Hst. cbn in Hst. rewrite Hl in Hst.
  pose proof (hs_lead _ _ _ _ _ H t th Ht Hl) as Hg. unfold leader_view in Hg. rewrite decide_True in Hg by done. rewrite Hpc in Hg.
  apply (hier_inv_after s); try done. cbn [sh_numa_barrier with_numa].
  eexists _, G, _. eapply (hier_update _ _ _ _ _ H t th Ht None _ (nb_global_arrive b) (nb_global_release b) G
    (mk_part true (S (bt_phase th)) Outside) (S (R k))); [| |done| |done|by rewrite Hst].
  - intros nth' Hn'. assert (nth' = nth) as -> by congruence. rewrite view_after. cbn [nd_arrive nd_release].
    eapply (meeting_release _ _ _ _ _ Hm t _ Hv); [done|cbn; by rewrite Hl|done].
  - rewrite list_insert_id by done. apply H.
  - eapply alone_closing; [done..|]. rewrite node_view_in. unfold closes. cbn. by rewrite Hl.
Qed.
End instance.

Lemma global_same s ths :
  hier_inv (with_numa s (with_global (sh_numa_barrier s) (nb_global_arrive (sh_numa_barrier s)) (nb_global_release (sh_numa_barrier s)))) ths →
  hier_inv s ths.
Proof. by destruct s as [? ? ? ? [] ?]. Qed.

Lemma hier_step_ok s ths t th pc : hier_inv s ths → ths !! t = Some th → bt_pc th = Some pc →
  ∃ s' o, barrier_step s (bt_node th) pc = Ok (s', o) ∧ hier_inv s' (<[t := after th o]> ths).
Proof.
  intros Hi Ht Hp. pose proof Hi as [Hn Hmode Hpc Hload (R & G & gps & H)].
  destruct (node_data _ _ _ _ _ H t th Ht) as (c & nth & Hc & Hnth & Hpos & Hm).
  destruct (view_here s ths t th Ht _ _ _ _ _ H Hc Hnth) as [_ Hv].
  unfold barrier_step. rewrite (Hpc t th pc Ht Hp). unfold hier_step.
  rewrite (proj2 (at_Ok _ _ _) Hnth), (proj2 (at_Ok _ _ _) Hc). cbn [mbind res_bind].
  assert (∀ c', put (nb_node (sh_numa_barrier s)) (bt_node th) c' = Ok (<[bt_node th := c']> (nb_node (sh_numa_barrier s)))) as Hput.
  { intros c'. apply put_lt. by eapply lookup_lt_Some. }
  pose proof (hs_leaders _ _ _ _ _ H) as HL. pose proof (hs_global _ _ _ _ _ H) as Hg.
  assert (leads th → gps !! bt_node th = Some (leader_view th)) as Hlead by (intros Hl; by eapply hs_lead).
  pose proof (Hpc t th pc Ht Hp) as Hf. unfold leads in Hlead. unfold leader_view in Hlead.
  rewrite Hp in Hv, Hlead. pose proof (m_stage _ _ _ _ _ Hm t _ Hv eq_refl) as Hst. unfold stage_ok in Hst.
  destruct pc; try done; cbn in Hst, Hlead, Hv; rewrite ?Hput; cbn [mbind res_bind];
    try (specialize (Hlead eq_refl); rewrite decide_False in Hlead by done).
  - (* NodeLoad *)
    pose proof (Hload t th nth Ht Hp Hnth). eexists _, _. split; [done|]. eapply (node_read_ok s ths Hi t th Ht); [done|done|done|..].
    1: unfold leads; by rewrite Hp.
    1: done.
    1-2: rewrite node_view_in; unfold closes, current, is_waiting; cbn; by rewrite Hp.
    1: by intros pc [= <-].
    1: done.
    eapply (meeting_load _ _ _ _ _ Hm t _ Hv); [done|done|lia].
  - (* NodeArrive *)
    eexists _, _. split; [done|]. eapply (node_step_ok s ths Hi t th Ht); [done|done|done|..].
    1: unfold leads; by rewrite Hp.
    1: by destruct (nd_arrive c =? nth - 1).
    1-2: rewrite node_view_in; unfold closes, current, is_waiting; cbn; by rewrite Hp.
    1: by intros pc [= <-]; destruct (nd_arrive c =? nth - 1).
    1: by destruct (nd_arrive c =? nth - 1).
    pose proof (meeting_arrive _ _ _ _ _ Hm t _ Hv eq_refl rel_old eq_refl) as Ha. rewrite Z2Nat.id in Ha by lia.
    unfold at_stage in Ha. cbn in Ha |- *. destruct (nd_arrive c =? nth - 1); exact Ha.
  - (* NodeWait *)
    eexists _, _. split; [done|]. destruct (nd_release c =? rel_old) eqn:He.
    + rewrite (after_same ths t th Ht _ Hp). by rewrite list_insert_id.
    + assert (bt_phase th ≠ R (bt_node th)) as Hne.
      { intros Hph. destruct Hst as (-> & _ & H2). rewrite (m_release _ _ _ _ _ Hm H2), Hph in He. lia. }
      eapply (node_read_ok s ths Hi t th Ht); [done|done|done|..].
      1: unfold leads; by rewrite Hp.
      1: done.
      1: rewrite node_view_in; unfold closes; cbn; by rewrite Hp.
      1: rewrite node_view_in; unfold current; apply andb_false_iff; right; cbn; by apply Nat.eqb_neq.
      1-2: done.
      eapply (meeting_leave _ _ _ _ _ Hm t _ Hv); [done|done|]. lia.
  - (* NodeReset *)
    unfold enter_global. rewrite (proj2 (Z.ltb_lt 1 (nb_n_leaders (sh_numa_barrier s)))) by lia.
    eexists _, _. split; [done|]. apply (hier_inv_after s); try done; [by intros pc [= <-]|]. cbn [sh_numa_barrier with_numa].
    eapply hier_lead_step; [done|done| |done| | |].
    1: unfold leads; by rewrite Hp.
    1: eapply alone_closing; [done..|]; rewrite node_view_in; unfold closes; cbn; by rewrite Hp.
    1: unfold leader_view; cbn; by destruct Hst as [-> _].
    intros nth' Hn'. assert (nth' = nth) as -> by congruence. rewrite view_after. eapply (meeting_reset _ _ _ _ _ Hm t _ Hv); done.
  - (* GlobalLoad *)
    eexists _, _. split; [done|]. apply global_same.
    eapply (global_step_ok s ths Hi t th Ht); [done|unfold leads; by rewrite Hp|done|done|].
    eapply (meeting_load _ _ _ _ _ Hg (bt_node th) _ Hlead); [done|done|lia].
  - (* GlobalArrive *)
    eexists _, _. split; [done|]. eapply (global_step_ok s ths Hi t th Ht); [done|unfold leads; by rewrite Hp|by destruct (nb_global_arrive _ =? _)|by destruct (nb_global_arrive _ =? _)|].
    pose proof (meeting_arrive _ _ _ _ _ Hg (bt_node th) _ Hlead eq_refl g_old eq_refl) as Ha. rewrite Z2Nat.id in Ha by lia.
    unfold at_stage in Ha. cbn in Ha. unfold leader_view. cbn. destruct (nb_global_arrive _ =? _); cbn; exact Ha.
  - (* GlobalWait *)
    eexists _, _. split; [done|]. destruct (nb_global_release (sh_numa_barrier s) =? g_old) eqn:He.
    + rewrite (after_same ths t th Ht _ Hp). by rewrite list_insert_id.
    + apply global_same.
      eapply (leave_step_ok s ths Hi t th Ht); [done|unfold leads; by rewrite Hp|by rewrite Hp|done|].
      eapply (meeting_leave _ _ _ _ _ Hg (bt_node th) _ Hlead); [done|done|]. lia.
  - (* GlobalReset *)
    eexists _, _. split; [done|]. eapply (global_step_ok s ths Hi t th Ht); [done|unfold leads; by rewrite Hp|done|done|].
    eapply (meeting_reset _ _ _ _ _ Hg (bt_node th) _ Hlead); done.
  - (* GlobalRelease *)
    eexists _, _. split; [done|]. eapply (leave_step_ok s ths Hi t th Ht); [done|unfold leads; by rewrite Hp|by rewrite Hp|done|].
    eapply (meeting_release _ _ _ _ _ Hg (bt_node th) _ Hlead); done.
  - (* NodeRelease *)
    eexists _, _. split; [done|]. by eapply (release_step_ok s ths Hi t th Ht).
Qed.

(** ** Phases and progress *)

#[global] Instance stage_eq_dec : EqDecision stage.
Proof. solve_decision. Defined.
#[global] Instance leads_dec th : Decision (leads th).
Proof. unfold leads. apply _. Defined.

Section progress.
Context (s : ggml_compute_state_shared) (ths : list bthread) (Hi : hier_inv s ths).
Context (R : nat → nat) (G : nat) (gps : list participant) (H : hier_state (sh_numa_barrier s) ths R G gps).

Lemma leader_phase t th : ths !! t = Some th → leads th → bt_phase th = R (bt_node th).
Proof using H.
  intros Ht Hl. destruct (node_data _ _ _ _ _ H t th Ht) as (c & nth & Hc & Hnth & Hpos & Hm).
  pose proof (view_lookup (node_view (bt_node th)) ths t th Ht) as Hv. rewrite node_view_in in Hv.
  pose proof (m_stage _ _ _ _ _ Hm t _ Hv eq_refl) as Hst. unfold stage_ok in Hst. cbn in Hst. by rewrite Hl in Hst.
Qed.

(** The node of a thread has a leader or not. *)
Lemma leader_or_not k : (∃ u uh, ths !! u = Some uh ∧ bt_node uh = k ∧ leads uh) ∨
  (∀ u uh, ths !! u = Some uh → bt_node uh = k → ¬ leads uh).
Proof.
  destruct (decide (Exists (λ uh, bt_node uh = k ∧ leads uh) ths)) as [Hex|Hno].
  - left. apply Exists_exists in Hex as (uh & (u & Hu)%list_elem_of_lookup & ? & ?). eauto.
  - right. intros u uh Hu Hk Hl. apply Hno, Exists_exists. exists uh. split; [by eapply list_elem_of_lookup_2|done].
Qed.

Lemma leader_bounds t th : ths !! t = Some th → leads th → bt_phase th = G ∨ S (bt_phase th) = G.
Proof using H.
  intros Ht Hl. pose proof (hs_lead _ _ _ _ _ H t th Ht Hl) as Hg.
  destruct (meeting_phase _ _ _ _ _ (hs_global _ _ _ _ _ H) (bt_node th) _ Hg eq_refl) as [Hp|(Hp & _)];
    unfold leader_view in Hp; cbn in Hp; case_decide; try lia; auto.
  (* the leader has left the meeting of the leaders and is behind: impossible, it does not wait *)
  right. pose proof (meeting_phase _ _ _ _ _ (hs_global _ _ _ _ _ H) (bt_node th) _ Hg eq_refl) as [Hq|(_ & Hw & _)].
  - unfold leader_view in Hq. cbn in Hq. rewrite decide_True in Hq by done. lia.
  - unfold leader_view, is_waiting in Hw. cbn in Hw. by rewrite H0 in Hw.
Qed.

(** A thread that does not lead: its node waits for it, or it has been released. *)
Lemma member_bounds t th : ths !! t = Some th → ¬ leads th →
  (∃ u uh, ths !! u = Some uh ∧ bt_node uh = bt_node th ∧ leads uh ∧ bt_phase th = bt_phase uh ∧ inside th) ∨
  (R (bt_node th) = G ∧ (bt_phase th = G ∨ (S (bt_phase th) = G ∧ inside th))).
Proof using H.
  intros Ht Hl. destruct (node_data _ _ _ _ _ H t th Ht) as (c & nth & Hc & Hnth & Hpos & Hm).
  pose proof (view_lookup (node_view (bt_node th)) ths t th Ht) as Hv. rewrite node_view_in in Hv.
  destruct (leader_or_not (bt_node th)) as [(u & uh & Hu & Hk & Hlu)|Hno].
  - left. exists u, uh. split_and!; [done..| |].
    + assert (u ≠ t) as Hne by (intros ->; congruence).
      pose proof (view_lookup (node_view (bt_node th)) ths u uh Hu) as Hvu. rewrite <- Hk, node_view_in in Hvu. rewrite Hk in Hvu.
      assert (current (R (bt_node th)) (mk_part true (bt_phase th) (node_stage (bt_pc th))) = true) as Hcur.
      { eapply (m_closes _ _ _ _ _ Hm u _ t); [done| |done..]. unfold closes. cbn. by rewrite Hlu. }
      rewrite (leader_phase u uh Hu Hlu), Hk. unfold current in Hcur. by apply andb_true_iff in Hcur as [_ ?%Nat.eqb_eq].
    + assert (u ≠ t) as Hne by (intros ->; congruence).
      pose proof (view_lookup (node_view (bt_node th)) ths u uh Hu) as Hvu. rewrite <- Hk, node_view_in in Hvu. rewrite Hk in Hvu.
      assert (current (R (bt_node th)) (mk_part true (bt_phase th) (node_stage (bt_pc th))) = true) as Hcur.
      { eapply (m_closes _ _ _ _ _ Hm u _ t); [done| |done..]. unfold closes. cbn. by rewrite Hlu. }
      intros Hn. unfold current, is_waiting in Hcur. cbn in Hcur. by rewrite Hn in Hcur.
  - right. pose proof (hs_idle _ _ _ _ _ H _ _ Hnth Hpos Hno) as Hg.
    assert (R (bt_node th) = G) as HR.
    { by destruct (meeting_phase _ _ _ _ _ (hs_global _ _ _ _ _ H) _ _ Hg eq_refl) as [?|(_ & Hw & _)]. }
    split; [done|]. destruct (meeting_phase _ _ _ _ _ Hm t _ Hv eq_refl) as [Hp|(Hp & Hw & _)]; cbn in Hp; [left; congruence|].
    right. split; [congruence|]. intros Hn. unfold is_waiting in Hw. cbn in Hw. by rewrite Hn in Hw.
Qed.

(** A leader that does not wait for the others can move. *)
Lemma leader_moves t th : ths !! t = Some th → leads th → current G (leader_view th) = false → can_move s th.
Proof using Hi H.
  intros Ht Hl Hcur. destruct (node_data _ _ _ _ _ H t th Ht) as (c & nth & Hc & Hnth & Hpos & Hm).
  pose proof (hs_lead _ _ _ _ _ H t th Ht Hl) as Hg.
  destruct (bt_pc th) as [pc|] eqn:Hp; [|unfold leads in Hl; by rewrite Hp in Hl].
  destruct (hier_step_ok s ths t th pc Hi Ht Hp) as (s' & o & Hs & _). exists pc, s', o. split_and!; [done..|].
  unfold barrier_step in Hs. rewrite (hi_pc _ _ Hi t th pc Ht Hp) in Hs. unfold hier_step in Hs.
  rewrite (proj2 (at_Ok _ _ _) Hnth), (proj2 (at_Ok _ _ _) Hc) in Hs. cbn [mbind res_bind] in Hs.
  unfold leads in Hl. rewrite Hp in Hl. unfold leave_global in Hs.
  destruct pc; try done; cbn in Hs; inv_res; try done; try (by repeat case_match).
  match goal with |- context [?x =? g_old] => destruct (x =? g_old) eqn:He end; [|by case_match]. exfalso.
  assert (p_ph (leader_view th) = G) as HG.
  { eapply (meeting_blocked _ _ _ _ _ (hs_global _ _ _ _ _ H) _ _ Hg eq_refl g_old); [unfold leader_view; cbn; by rewrite Hp|lia]. }
  unfold current, is_waiting in Hcur. rewrite HG, Nat.eqb_refl in Hcur. unfold leader_view in Hcur. cbn in Hcur. by rewrite Hp in Hcur.
Qed.

(** A thread inside that is not led and does not wait for its node can move. *)
Lemma member_moves t th : ths !! t = Some th → inside th → ¬ leads th → current (R (bt_node th)) (node_view (bt_node th) th) = false →
  can_move s th.
Proof using Hi H.
  intros Ht Hin Hl Hcur. destruct (node_data _ _ _ _ _ H t th Ht) as (c & nth & Hc & Hnth & Hpos & Hm).
  pose proof (view_lookup (node_view (bt_node th)) ths t th Ht) as Hv. rewrite node_view_in in Hv, Hcur.
  unfold inside in Hin. destruct (bt_pc th) as [pc|] eqn:Hp; [|done].
  destruct (hier_step_ok s ths t th pc Hi Ht Hp) as (s' & o & Hs & _). exists pc, s', o. split_and!; [done..|].
  unfold barrier_step in Hs. pose proof (hi_pc _ _ Hi t th pc Ht Hp) as Hf. rewrite Hf in Hs. unfold hier_step in Hs.
  rewrite (proj2 (at_Ok _ _ _) Hnth), (proj2 (at_Ok _ _ _) Hc) in Hs. cbn [mbind res_bind] in Hs.
  unfold leads in Hl. rewrite Hp in Hl. unfold enter_global, leave_global in Hs.
  destruct pc; try done; cbn in Hs; inv_res; try done; try (by repeat case_match).
  match goal with |- context [?x =? rel_old] => destruct (x =? rel_old) eqn:He end; [|done]. exfalso.
  pose proof (meeting_blocked _ _ _ _ _ Hm t _ Hv eq_refl rel_old) as Hb. cbn in Hb.
  specialize (Hb eq_refl ltac:(lia)). unfold current, is_waiting in Hcur. cbn in Hcur. by rewrite Hb, Nat.eqb_refl in Hcur.
Qed.
End progress.

#[export] Instance hier_protocol : BarrierProtocol hier_inv.
Proof.
  split.
  - intros s ths t th Hi Ht Hn. by eapply enter_ok.
  - intros s ths t th pc. apply hier_step_ok.
  - intros s ths ec [H1 H2 H3 H4 H5]. by split.
  - intros s ths Hi. pose proof Hi as [_ _ _ _ (R & G & gps & H)]. exists G. intros t th Ht.
    destruct (decide (leads th)) as [Hl|Hl].
    + destruct (leader_bounds _ _ _ _ _ H t th Ht Hl); [by left|right]. split; [done|]. intros Hn. unfold leads in Hl. by rewrite Hn in Hl.
    + destruct (member_bounds _ _ _ _ _ H t th Ht Hl) as [(u & uh & Hu & _ & Hlu & -> & Hin)|[_ ?]]; [|done].
      destruct (leader_bounds _ _ _ _ _ H u uh Hu Hlu); auto.
  - intros s ths Hi _ Hcase. pose proof Hi as [_ _ _ _ (R & G & gps & H)].
    destruct Hcase as [Hall|(t & th & u & uh & Ht & Hu & Hin & Hph)].
    + destruct (m_open _ _ _ _ _ (hs_global _ _ _ _ _ H)) as (k & p & Hp & Hpin & Hcur).
      destruct (lookup_lt_is_Some_2 (nb_node_nth (sh_numa_barrier s)) k) as [nth Hnth].
      { rewrite (hs_nth_len _ _ _ _ _ H), <- (hs_gps_len _ _ _ _ _ H). by eapply lookup_lt_Some. }
      destruct (lookup_lt_is_Some_2 (nb_node (sh_numa_barrier s)) k) as [c Hc].
      { rewrite (hs_node_len _ _ _ _ _ H), <- (hs_gps_len _ _ _ _ _ H). by eapply lookup_lt_Some. }
      rewrite (hs_used _ _ _ _ _ H k p nth Hp Hnth) in Hpin.
      destruct (leader_or_not ths k) as [(u & uh & Hu & Hk & Hl)|Hno].
      * exists u, uh. split; [done|]. eapply leader_moves; [done..|]. pose proof (hs_lead _ _ _ _ _ H u uh Hu Hl) as Hg. congruence.
      * destruct (m_open _ _ _ _ _ (hs_meet _ _ _ _ _ H k c nth Hc Hnth ltac:(lia))) as (t & q & Hq & Hqin & Hqc).
        rewrite list_lookup_fmap in Hq. destruct (ths !! t) as [th|] eqn:Ht; [|done]. injection Hq as <-.
        assert (bt_node th = k) as <-. { unfold node_view in Hqin. destruct (Nat.eqb_spec (bt_node th) k); done. }
        exists t, th. split; [done|]. eapply member_moves; [done|done|done|by eapply Hall|by eapply Hno|done].
    + assert (S (bt_phase th) = G) as HG.
      { assert (∀ v vh, ths !! v = Some vh → bt_phase vh = G ∨ S (bt_phase vh) = G) as Hb; [|destruct (Hb t th Ht), (Hb u uh Hu); lia].
        intros v vh Hv. destruct (decide (leads vh)) as [Hl|Hl]; [by eapply leader_bounds|].
        destruct (member_bounds _ _ _ _ _ H v vh Hv Hl) as [(w & wh & Hw & _ & Hlw & -> & _)|[_ [?|[? _]]]]; auto.
        by eapply leader_bounds. }
      assert (∀ v vh, ths !! v = Some vh → leads vh → S (bt_phase vh) = G → can_move s vh) as Hlm.
      { intros v vh Hv Hl HGv. eapply leader_moves; [done..|]. unfold leader_view, current, is_waiting. cbn. case_decide.
        - rewrite H0. done.
        - apply andb_false_iff. right. apply Nat.eqb_neq. lia. }
      destruct (decide (leads th)) as [Hl|Hl]; [exists t, th; split; [done|by eapply Hlm]|].
      destruct (member_bounds _ _ _ _ _ H t th Ht Hl) as [(w & wh & Hw & _ & Hlw & He & _)|[HR _]].
      * exists w, wh. split; [done|]. eapply Hlm; [done..|congruence].
      * exists t, th. split; [done|]. eapply member_moves; [done..|]. rewrite node_view_in. unfold current.
        apply andb_false_iff. right. apply Nat.eqb_neq. cbn. lia.
Qed.
