(* ===== verification/BarrierSetup.v ===== *)
(** * Setting up the barrier for a team

    [ggml_numa_barrier_setup] computes how many threads each memory node gets from
    a formula; it is shown to be the number of threads that
    [ggml_numa_node_for_thread] sends to the node, so that the barrier in two
    levels starts in its invariant.  In all other cases the flat barrier does. *)
From S2P Require Import Prelude Barrier Rendezvous BarrierSpec BarrierHier.

(** ** Counting threads in a range *)

Lemma tally_app {A} (f : A → bool) l1 l2 : tally f (l1 ++ l2) = (tally f l1 + tally f l2)%nat.
Proof. induction l1 as [|x l1 IH]; cbn; [done|]. rewrite IH. lia. Qed.

Lemma tally_ext {A} (f g : A → bool) l : (∀ x, x ∈ l → f x = g x) → tally f l = tally g l.
Proof.
  induction l as [|x l IH]; intros Hfg; cbn; [done|]. rewrite (Hfg x) by left. rewrite IH; [done|]. intros y Hy. apply Hfg. by right.
Qed.

Lemma tally_fmap {A B} (f : B → bool) (g : A → B) l : tally f (g <$> l) = tally (λ x, f (g x)) l.
Proof. induction l as [|x l IH]; cbn; [done|]. by rewrite IH. Qed.

Lemma tally_const {A} (f : A → bool) (v : bool) l : (∀ x, x ∈ l → f x = v) → tally f l = if v then length l else 0%nat.
Proof.
  intros Hf. rewrite (tally_ext f (λ _, v)) by done. destruct v; induction l as [|x l IH]; cbn; try done.
  all: rewrite IH; [done|]. all: intros y Hy; apply Hf; by right.
Qed.

Lemma tally_range a b n : (a ≤ b)%nat → (b ≤ n)%nat → tally (λ t, (a <=? t)%nat && (t <? b)%nat) (seq 0 n) = (b - a)%nat.
Proof.
  intros Hab Hb. replace n with (a + ((b - a) + (n - b)))%nat by lia. rewrite !seq_app, !tally_app.
  rewrite (tally_const _ false (seq 0 a)), (tally_const _ true (seq (0 + a) (b - a))), (tally_const _ false (seq (0 + a + (b - a)) (n - b))).
  - rewrite length_seq. lia.
  - intros x Hx%elem_of_seq. apply andb_false_iff. right. apply Nat.ltb_ge. lia.
  - intros x Hx%elem_of_seq. apply andb_true_iff. split; [apply Nat.leb_le|apply Nat.ltb_lt]; lia.
  - intros x Hx%elem_of_seq. apply andb_false_iff. left. apply Nat.leb_gt. lia.
Qed.

(** ** The division of the threads *)

Section split.
Context (numa : numa_state) (n N : Z).
Context (Hnuma : numa_n_nodes numa = n) (Hn : 2 ≤ n ≤ 8) (HN : 2 ≤ N < 2 ^ 27).

Lemma first_thread_ceil k : 0 ≤ k ≤ n → first_thread n N k = (k * N + n - 1) / n.
Proof using Hn HN. intros Hk. unfold first_thread. rewrite i32_small by nia. apply Z.quot_div_nonneg; nia. Qed.

Lemma node_for_thread_div t : 0 ≤ t < N → ggml_numa_node_for_thread numa t N = t * n / N ∧ 0 ≤ t * n / N < n.
Proof using Hnuma Hn HN.
  intros Ht. assert (0 ≤ t * n / N < n) as Hr. { split; [apply Z.div_pos; nia|]. apply Z.div_lt_upper_bound; nia. }
  split; [|done]. unfold ggml_numa_node_for_thread. rewrite Hnuma, (i32_small n) by lia.
  destruct (n <=? 1) eqn:?, (N <=? 0) eqn:?; try lia. cbn [orb]. rewrite i32_small by nia.
  rewrite Z.quot_div_nonneg by nia. destruct (n <=? t * n / N) eqn:?; lia.
Qed.

(** The threads of node [k] are those from [first_thread k] to [first_thread (k + 1)]. *)
Lemma node_threads t k : 0 ≤ t < N → 0 ≤ k < n →
  ggml_numa_node_for_thread numa t N = k ↔ first_thread n N k ≤ t < first_thread n N (k + 1).
Proof using Hnuma Hn HN.
  intros Ht Hk. destruct (node_for_thread_div t Ht) as [-> _]. rewrite !first_thread_ceil by lia. split.
  - intros <-. pose proof (Z.div_mod (t * n) N ltac:(lia)). pose proof (Z.mod_pos_bound (t * n) N ltac:(lia)). split.
    + apply Z.lt_succ_r, Z.div_lt_upper_bound; nia.
    + apply Z.le_succ_l, Z.div_le_lower_bound; nia.
  - intros [H1 H2]. symmetry. apply Z.div_unique with (t * n - N * k); [left|lia].
    pose proof (Z.div_mod (k * N + n - 1) n ltac:(lia)). pose proof (Z.mod_pos_bound (k * N + n - 1) n ltac:(lia)).
    pose proof (Z.div_mod ((k + 1) * N + n - 1) n ltac:(lia)). pose proof (Z.mod_pos_bound ((k + 1) * N + n - 1) n ltac:(lia)).
    set (q1 := (k * N + n - 1) / n) in *. set (q2 := ((k + 1) * N + n - 1) / n) in *. split; nia.
Qed.

Lemma first_thread_range k : 0 ≤ k < n → 0 ≤ first_thread n N k ≤ first_thread n N (k + 1) ∧ first_thread n N (k + 1) ≤ N.
Proof using Hn HN.
  intros Hk. rewrite !first_thread_ceil by lia. split_and!.
  - apply Z.div_pos; nia.
  - apply Z.div_le_mono; nia.
  - apply Z.lt_succ_r, Z.div_lt_upper_bound; nia.
Qed.

(** The threads of the team, by node. *)
Definition team_node (t : nat) : nat := Z.to_nat (ggml_numa_node_for_thread numa (Z.of_nat t) N).

Lemma team_count k : (Z.of_nat k < n) →
  Z.of_nat (tally (λ t, (team_node t =? k)%nat) (seq 0 (Z.to_nat N))) = first_thread n N (Z.of_nat k + 1) - first_thread n N (Z.of_nat k).
Proof using Hnuma Hn HN.
  intros Hk. pose proof (first_thread_range (Z.of_nat k) ltac:(lia)) as [[H1 H2] H3].
  rewrite (tally_ext _ (λ t, (Z.to_nat (first_thread n N (Z.of_nat k)) <=? t)%nat && (t <? Z.to_nat (first_thread n N (Z.of_nat k + 1)))%nat)).
  - rewrite tally_range by lia. lia.
  - intros t Ht%elem_of_seq. pose proof (node_threads (Z.of_nat t) (Z.of_nat k) ltac:(lia) ltac:(lia)) as Hiff.
    destruct (node_for_thread_div (Z.of_nat t) ltac:(lia)) as [Hd Hr]. unfold team_node.
    apply eq_true_iff_eq. rewrite andb_true_iff, Nat.eqb_eq, Nat.leb_le, Nat.ltb_lt. rewrite Hd in Hiff. rewrite Hd. lia.
Qed.
End split.

(** ** The loops of the setup *)

Lemma clear_nodes_zero m n k : (k + n ≤ m)%nat → clear_nodes n k (replicate m (mk_nbn 0 0)) = Ok (replicate m (mk_nbn 0 0)).
Proof.
  revert k. induction n as [|n IH]; intros k Hk; [done|]. cbn [clear_nodes].
  rewrite put_lt by (rewrite length_replicate; lia). cbn [mbind res_bind]. rewrite insert_replicate. apply IH. lia.
Qed.

Definition node_count (n n_threads : Z) (k : nat) : Z :=
  first_thread n n_threads (Z.of_nat k + 1) - first_thread n n_threads (Z.of_nat k).

Lemma count_nodes_spec rounds n N : ∀ k node_nth leaders, (k + rounds ≤ length node_nth)%nat →
  count_nodes rounds n N k node_nth leaders =
    Ok (take k node_nth ++ (node_count n N <$> seq k rounds) ++ drop (k + rounds) node_nth,
        leaders + Z.of_nat (tally (λ i, 0 <? node_count n N i) (seq k rounds))).
Proof.
  induction rounds as [|rounds IH]; intros k l leaders Hk; cbn [count_nodes].
  - cbn. rewrite Nat.add_0_r, take_drop. do 2 f_equal. lia.
  - rewrite put_lt by lia. cbn [mbind res_bind]. rewrite IH by (rewrite length_insert; lia). f_equal. f_equal.
    + rewrite (take_S_r _ _ (node_count n N k)) by (rewrite list_lookup_insert_eq by lia; done).
      rewrite take_insert_ge, drop_insert_lt by lia. cbn. rewrite <- app_assoc. cbn. do 3 f_equal. f_equal. lia.
    + fold (node_count n N k). cbn. destruct (0 <? node_count n N k); cbn; lia.
Qed.

(** ** The team at the start *)

Definition start_threads (numa : numa_state) (tl_old : nat → Z) (n_threads : Z) : list bthread :=
  (λ ith, mk_bt (Z.to_nat (set_numa_thread_affinity numa (tl_old ith) (Z.of_nat ith) n_threads)) 0 None)
    <$> seq 0 (Z.to_nat n_threads).

Lemma start_thread numa tl_old N t th : start_threads numa tl_old N !! t = Some th →
  th = mk_bt (Z.to_nat (set_numa_thread_affinity numa (tl_old t) (Z.of_nat t) N)) 0 None ∧ (t < Z.to_nat N)%nat.
Proof.
  unfold start_threads. rewrite list_lookup_fmap. intros (u & [Hu ?]%lookup_seq & ->)%fmap_Some. cbn in Hu. by subst u.
Qed.

Lemma flat_start numa tl_old N n_batch b : 2 ≤ N < 2 ^ 27 → nb_active b && (n_batch <=? 32) = false →
  flat_inv (mk_shared N n_batch 0 0 b GGML_STATUS_SUCCESS) (start_threads numa tl_old N).
Proof.
  intros HN Hmode. split; [cbn; lia|done| |].
  - intros t th pc [-> _]%start_thread. done.
  - exists 0%nat. cbn [sh_n_threads sh_n_barrier sh_n_barrier_passed]. apply meeting_start; [|lia|lia|].
    + rewrite (tally_const _ true); [by rewrite length_fmap; unfold start_threads; rewrite length_fmap, length_seq|].
      by intros x (y & -> & _)%list_elem_of_fmap.
    + intros i p Hp _. rewrite list_lookup_fmap in Hp. apply fmap_Some in Hp as (th & [-> _]%start_thread & ->). done.
Qed.

Section hier_start.
Context (numa : numa_state) (n N : Z) (tl_old : nat → Z).
Context (Hnuma : numa_n_nodes numa = n) (Hmirror : numa_mirror numa = true) (Hn : 2 ≤ n ≤ 8) (HN : 2 ≤ N < 2 ^ 27).

Lemma setup_active : ∃ node_nth leaders, ggml_numa_barrier_setup numa numa_barrier_zero N =
    Ok (mk_nb (replicate GGML_NUMA_MAX_NODES (mk_nbn 0 0)) 0 0 node_nth leaders true) ∧
  node_nth = (node_count n N <$> seq 0 (Z.to_nat n)) ++ replicate (GGML_NUMA_MAX_NODES - Z.to_nat n) 0 ∧
  leaders = Z.of_nat (tally (λ i, 0 <? node_count n N i) (seq 0 (Z.to_nat n))).
Proof using Hnuma Hmirror Hn HN.
  eexists _, _. split; [|split; reflexivity]. unfold ggml_numa_barrier_setup. rewrite Hmirror, Hnuma.
  destruct (n <? 2) eqn:?; [lia|]. destruct (N <=? 1) eqn:?; [lia|]. cbn [negb orb]. rewrite i32_small by lia.
  unfold numa_barrier_zero, GGML_NUMA_MAX_NODES. cbn [nb_node nb_node_nth].
  rewrite clear_nodes_zero by lia. cbn [mbind res_bind].
  rewrite count_nodes_spec by (rewrite length_replicate; lia). cbn [mbind res_bind]. cbn [Nat.add take app].
  by rewrite drop_replicate.
Qed.

Lemma start_node t th : start_threads numa tl_old N !! t = Some th →
  bt_node th = team_node numa N t ∧ Z.of_nat (bt_node th) < n ∧ th = mk_bt (team_node numa N t) 0 None.
Proof using Hnuma Hmirror Hn HN.
  intros [-> Ht]%start_thread. cbn. unfold set_numa_thread_affinity. rewrite Hnuma, Hmirror.
  destruct (1 <? n) eqn:?; [|lia]. cbn [negb]. split_and!; [done| |done].
  destruct (node_for_thread_div numa n N Hnuma Hn HN (Z.of_nat t) ltac:(lia)) as [-> ?]. lia.
Qed.

Lemma start_view_count k : Z.of_nat (tally p_in (node_view k <$> start_threads numa tl_old N)) =
  if (Z.of_nat k <? n) then node_count n N k else 0.
Proof using Hnuma Hmirror Hn HN.
  assert (tally p_in (node_view k <$> start_threads numa tl_old N) =
    tally (λ t, (team_node numa N t =? k)%nat) (seq 0 (Z.to_nat N))) as ->.
  { unfold start_threads. rewrite <- list_fmap_compose, tally_fmap. apply tally_ext. intros t Ht%elem_of_seq.
    destruct (start_node t (mk_bt (Z.to_nat (set_numa_thread_affinity numa (tl_old t) (Z.of_nat t) N)) 0 None)) as (Hb & _ & _).
    - unfold start_threads. rewrite list_lookup_fmap. rewrite lookup_seq_lt by lia. done.
    - cbn in Hb. unfold node_view. cbn. rewrite Hb. by case_match. }
  destruct (Z.of_nat k <? n) eqn:Hk.
  - rewrite (team_count numa n N Hnuma Hn HN) by lia. done.
  - rewrite (tally_const _ false); [done|]. intros t Ht%elem_of_seq. apply Nat.eqb_neq. unfold team_node.
    destruct (node_for_thread_div numa n N Hnuma Hn HN (Z.of_nat t) ltac:(lia)) as [-> ?]. lia.
Qed.

Lemma hier_start n_batch b : ggml_numa_barrier_setup numa numa_barrier_zero N = Ok b → n_batch ≤ 32 →
  hier_inv (mk_shared N n_batch 0 0 b GGML_STATUS_SUCCESS) (start_threads numa tl_old N).
Proof using Hnuma Hmirror Hn HN.
  intros Hb Hbatch. destruct setup_active as (nth & leaders & Hset & Hnth & Hlead). rewrite Hset in Hb. injection Hb as <-.
  assert (∀ k c, nth !! k = Some c → c = Z.of_nat (tally p_in (node_view k <$> start_threads numa tl_old N))) as Hcount.
  { intros k c Hk. rewrite start_view_count. rewrite Hnth in Hk. apply lookup_app_Some in Hk as [Hk|[Hge Hk]].
    - rewrite list_lookup_fmap in Hk. apply fmap_Some in Hk as (j & [-> ?]%lookup_seq & ->).
      rewrite (proj2 (Z.ltb_lt _ _)) by lia. done.
    - apply lookup_replicate in Hk as [-> ?]. rewrite length_fmap, length_seq in *. by rewrite (proj2 (Z.ltb_ge _ _)) by lia. }
  assert (length nth = GGML_NUMA_MAX_NODES) as Hlen.
  { rewrite Hnth, length_app, length_fmap, length_seq, length_replicate. unfold GGML_NUMA_MAX_NODES. lia. }
  set (gps := (λ c, mk_part (0 <? c) 0 Outside) <$> nth).
  assert (leaders = Z.of_nat (tally p_in gps)) as Hgps.
  { rewrite Hlead. unfold gps. rewrite Hnth, fmap_app, tally_app, <- list_fmap_compose, tally_fmap.
    rewrite (tally_const _ false (_ <$> replicate _ _)); [cbn; f_equal; lia|]. intros x (y & -> & [-> _]%elem_of_replicate)%list_elem_of_fmap. done. }
  assert (∀ t, (t < Z.to_nat N)%nat → ∃ c, nth !! team_node numa N t = Some c ∧ 0 < c) as Hused.
  { intros t Ht. destruct (lookup_lt_is_Some_2 nth (team_node numa N t)) as [c Hc].
    - rewrite Hlen. destruct (node_for_thread_div numa n N Hnuma Hn HN (Z.of_nat t) ltac:(lia)) as [He ?].
      unfold team_node, GGML_NUMA_MAX_NODES. rewrite He. lia.
    - exists c. split; [done|]. rewrite (Hcount _ _ Hc).
      assert (0 < tally p_in (node_view (team_node numa N t) <$> start_threads numa tl_old N))%nat; [|lia].
      destruct (lookup_lt_is_Some_2 (start_threads numa tl_old N) t) as [th Hth]; [unfold start_threads; by rewrite length_fmap, length_seq|].
      apply tally_pos. exists t, (node_view (team_node numa N t) th). split; [by apply view_lookup|].
      destruct (start_node t th Hth) as (<- & _). by rewrite node_view_in. }
  assert (2 ≤ leaders) as H2.
  { (* the first and the last thread are on different nodes *)
    destruct (Hused 0%nat ltac:(lia)) as (c0 & H0 & Hc0). destruct (Hused (Z.to_nat N - 1)%nat ltac:(lia)) as (c1 & H1 & Hc1).
    assert (team_node numa N 0 ≠ team_node numa N (Z.to_nat N - 1)) as Hne.
    { unfold team_node. destruct (node_for_thread_div numa n N Hnuma Hn HN (Z.of_nat 0) ltac:(lia)) as [-> ?].
      destruct (node_for_thread_div numa n N Hnuma Hn HN (Z.of_nat (Z.to_nat N - 1)) ltac:(lia)) as [-> ?].
      change (Z.of_nat 0 * n) with 0 in *. rewrite Z.div_0_l by lia. intros He.
      assert (1 ≤ Z.of_nat (Z.to_nat N - 1) * n / N); [|lia]. apply Z.div_le_lower_bound; nia. }
    assert (gps !! team_node numa N 0 = Some (mk_part true 0 Outside)) as Hg0.
    { unfold gps. rewrite list_lookup_fmap, H0. cbn. by rewrite (proj2 (Z.ltb_lt _ _)). }
    assert (gps !! team_node numa N (Z.to_nat N - 1) = Some (mk_part true 0 Outside)) as Hg1.
    { unfold gps. rewrite list_lookup_fmap, H1. cbn. by rewrite (proj2 (Z.ltb_lt _ _)). }
    pose proof (tally_insert p_in gps _ _ (mk_part false 0 Outside) Hg0) as Ht. cbn in Ht.
    assert (0 < tally p_in (<[team_node numa N 0 := mk_part false 0 Outside]> gps))%nat; [|lia].
    apply tally_pos. eexists _, _. rewrite list_lookup_insert_ne by done. split; [exact Hg1|done]. }
  split; [cbn; lia|cbn; by rewrite (proj2 (Z.leb_le _ _))| | |].
  - intros t th pc [-> _]%start_thread. done.
  - intros t th c [-> _]%start_thread. done.
  - exists (λ _, 0%nat), 0%nat, gps.
    assert (∀ k i p, (node_view k <$> start_threads numa tl_old N) !! i = Some p → p_in p = true → p_ph p = 0%nat ∧ p_st p = Outside) as Hout.
    { intros k i p Hp Hin. rewrite list_lookup_fmap in Hp. apply fmap_Some in Hp as (th & [-> _]%start_thread & ->).
      unfold node_view in *. cbn in *. by case_match. }
    split; cbn [sh_numa_barrier nb_node nb_node_nth nb_n_leaders nb_global_arrive nb_global_release]; try done.
    + unfold gps. by rewrite length_fmap.
    + intros t th Ht. destruct (start_node t th Ht) as (_ & ? & _). unfold GGML_NUMA_MAX_NODES. lia.
    + intros k c m Hc Hm Hpos. apply (lookup_replicate_1 8 (mk_nbn 0 0) c k) in Hc as [-> _]. cbn [nd_arrive nd_release].
      pose proof (Hcount k m Hm) as Hk. apply meeting_start; [lia|lia| |by apply Hout].
      rewrite Hk, start_view_count in *. destruct (Z.of_nat k <? n) eqn:?; [|lia]. unfold node_count in *.
      pose proof (first_thread_range n N Hn HN (Z.of_nat k) ltac:(lia)). lia.
    + apply meeting_start; [lia|lia| |].
      * assert (tally p_in gps ≤ length gps)%nat; [|unfold gps in *; rewrite length_fmap, Hlen in *; unfold GGML_NUMA_MAX_NODES in *; lia].
        clear. induction gps as [|x l IH]; cbn; [done|]. destruct (p_in x); cbn; lia.
      * intros i p Hp _. unfold gps in Hp. rewrite list_lookup_fmap in Hp. by apply fmap_Some in Hp as (c & _ & ->).
    + intros k p c Hp Hc. unfold gps in Hp. rewrite list_lookup_fmap, Hc in Hp. by injection Hp as <-.
    + intros t th [-> _]%start_thread. done.
    + intros k c Hc Hpos _. unfold gps. rewrite list_lookup_fmap, Hc. cbn. by rewrite (proj2 (Z.ltb_lt _ _)).
Qed.
End hier_start.

(** Whatever the machine, the team starts in the invariant of some barrier that
    keeps its promises. *)
Lemma team_start numa tl_old n_threads n_batch : 0 ≤ numa_n_nodes numa ≤ 8 → 1 ≤ n_threads < 2 ^ 27 →
  ∃ b BI, ggml_numa_barrier_setup numa numa_barrier_zero n_threads = Ok b ∧ BarrierProtocol BI ∧
    BI (mk_shared n_threads n_batch 0 0 b GGML_STATUS_SUCCESS) (start_threads numa tl_old n_threads).
Proof.
  intros Hnuma HN. destruct (decide (n_threads = 1)) as [->|H1].
  { exists (mk_nb (replicate GGML_NUMA_MAX_NODES (mk_nbn 0 0)) 0 0 (replicate GGML_NUMA_MAX_NODES 0) 0 false), single_inv.
    unfold ggml_numa_barrier_setup. rewrite orb_true_r. split_and!; [done|apply _|]. split; [done|]. by eexists. }
  destruct (negb (numa_mirror numa) || (numa_n_nodes numa <? 2)) eqn:Hm.
  { eexists _, flat_inv. unfold ggml_numa_barrier_setup. rewrite Hm. split_and!; [done|apply _|]. apply flat_start; [lia|done]. }
  apply orb_false_iff in Hm as [Hm%negb_false_iff Hn]. 
  destruct (setup_active numa (numa_n_nodes numa) n_threads) as (nth & leaders & Hset & _); [done|done|lia|lia|].
  destruct (n_batch <=? 32) eqn:Hb.
  - eexists _, hier_inv. split_and!; [done|apply _|]. eapply (hier_start _ (numa_n_nodes numa)); [done|done|lia|lia|done|lia].
  - eexists _, flat_inv. split_and!; [done|apply _|]. apply flat_start; [lia|]. cbn. by rewrite Hb.
Qed.
