(* ===== verification/ComputeThreads.v ===== *)
(** * The threads that compute a graph (ggml/src/ggml.c)

    [ggml_graph_compute] starts threads that run the same loop over the nodes of
    the graph and meet in [ggml_barrier] after each of them.  The work of an
    operation is not modelled: [forward] gives the number of barriers that
    [ggml_compute_forward] calls inside a node and the node number it returns,
    which is larger when it computed several nodes at once.  [abort] is what the
    abort callback returns after a node ([false] without a callback).  It is shown
    that all threads compute the same node at the same time, and that they finish
    all nodes when nothing is aborted. *)
From S2P Require Import Prelude Barrier Rendezvous BarrierSpec BarrierHier BarrierSetup.

(** ** The loop of a thread *)

(** Where a thread goes on after a barrier: inside the operation with so many
    barriers to come, or to the test of the status. *)
Inductive barrier_return : Type :=
  | BackToNode (node_n calls : nat)
  | ToStatus (node_n : nat).

Inductive thread_pc : Type :=
  | LoopHead (node_n : nat)
  | Computing (node_n calls : nat)       (** in ggml_compute_forward, barriers to come *)
  | AfterNode (node_n : nat)             (** before the abort callback *)
  | InBarrier (pc : barrier_pc) (r : barrier_return)
  | CheckStatus (node_n : nat)
  | Finished.

#[global] Instance barrier_return_eq_dec : EqDecision barrier_return.
Proof. solve_decision. Defined.
#[global] Instance thread_pc_eq_dec : EqDecision thread_pc.
Proof. solve_decision. Defined.

(** [ggml_compute_state], with the thread-local [tl_numa_node]; [th_passed] (the
    barriers passed) and [th_log] (the operations computed) are history variables. *)
Record thread : Type := mk_thread {
  th_numa_node : nat; th_pc : thread_pc; th_passed : nat; th_log : list nat;
}.

Record team : Type := mk_team { tm_shared : ggml_compute_state_shared; tm_threads : list thread }.

Section compute.
Context (n_nodes : nat) (noop : nat → bool) (forward : nat → nat * nat) (abort : nat → bool).

Definition resume (r : barrier_return) : thread_pc :=
  match r with BackToNode n calls => Computing n calls | ToStatus n => CheckStatus n end.

(** The thread after a call of [ggml_barrier] or a step in it that leads to [o]. *)
Definition in_barrier (th : thread) (o : option barrier_pc) (r : barrier_return) : thread :=
  match o with
  | Some pc => mk_thread (th_numa_node th) (InBarrier pc r) (th_passed th) (th_log th)
  | None => mk_thread (th_numa_node th) (resume r) (S (th_passed th)) (th_log th)
  end.

Definition goto (th : thread) (pc : thread_pc) : thread := mk_thread (th_numa_node th) pc (th_passed th) (th_log th).

(** One step of [ggml_graph_compute_thread] by the thread [ith]. *)
Definition thread_step (s : ggml_compute_state_shared) (ith : nat) (th : thread)
    : res (ggml_compute_state_shared * thread) :=
  match th_pc th with
  | LoopHead node_n =>
      if (node_n <? n_nodes)%nat then
        if noop node_n then Ok (s, goto th (LoopHead (S node_n)))
        else Ok (s, goto th (Computing node_n (forward node_n).1))
      else Ok (s, goto th Finished)
  | Computing node_n (S calls) =>
      o ← ggml_barrier s (th_numa_node th); Ok (s, in_barrier th o (BackToNode node_n calls))
  | Computing node_n O =>
      Ok (s, mk_thread (th_numa_node th) (AfterNode (forward node_n).2) (th_passed th) (th_log th ++ [node_n]))
  | AfterNode node_n =>
      let s := if (ith =? 0)%nat && abort node_n then with_ec s GGML_STATUS_ABORTED else s in
      o ← ggml_barrier s (th_numa_node th); Ok (s, in_barrier th o (ToStatus node_n))
  | InBarrier pc r =>
      '(s, o) ← barrier_step s (th_numa_node th) pc; Ok (s, in_barrier th o r)
  | CheckStatus node_n =>
      Ok (s, goto th (if sh_ec s =? GGML_STATUS_SUCCESS then LoopHead (S node_n) else Finished))
  | Finished => Ok (s, th)
  end.

Definition team_step (st : team) (ith : nat) : res team :=
  th ← at_ (tm_threads st) ith;
  '(s, th) ← thread_step (tm_shared st) ith th;
  Ok (mk_team s (<[ith := th]> (tm_threads st))).

(** The state after the steps of a schedule. *)
Fixpoint exec (st : team) (schedule : list nat) : res team :=
  match schedule with
  | [] => Ok st
  | ith :: schedule => st ← team_step st ith; exec st schedule
  end.

(** The state before step [i] of an infinite schedule. *)
Fixpoint run (st : team) (schedule : nat → nat) (i : nat) : res team :=
  match i with
  | O => Ok st
  | S i => st ← run st schedule i; team_step st (schedule i)
  end.
End compute.

(** [ggml_graph_compute]: the state before the first step; [tl_old] is the value
    of the thread-local node number before. *)
Definition compute_start (numa : numa_state) (n_threads n_batch : Z) (tl_old : nat → Z) : res team :=
  b ← ggml_numa_barrier_setup numa numa_barrier_zero n_threads;
  let s := mk_shared n_threads n_batch 0 0 b GGML_STATUS_SUCCESS in
  Ok (mk_team s
    ((λ ith, mk_thread (Z.to_nat (set_numa_thread_affinity numa (tl_old ith) (Z.of_nat ith) n_threads)) (LoopHead 0) 0 [])
       <$> seq 0 (Z.to_nat n_threads))).

(** ** The work of a thread *)

Section plan.
Context (n_nodes : nat) (noop : nat → bool) (forward : nat → nat * nat).

(** The parts of a node: [calls] barriers separate [calls + 1] parts; a part is
    named by the node and the barriers to come. *)
Fixpoint parts (n calls : nat) : list (nat * nat) :=
  (n, calls) :: match calls with O => [] | S calls => parts n calls end.

Fixpoint plan_loop (fuel n : nat) : list (nat * nat) :=
  match fuel with
  | O => []
  | S fuel =>
      if (n <? n_nodes)%nat then
        if noop n then plan_loop fuel (S n) else parts n (forward n).1 ++ plan_loop fuel (S (forward n).2)
      else []
  end.

Fixpoint visit_loop (fuel n : nat) : list nat :=
  match fuel with
  | O => []
  | S fuel =>
      if (n <? n_nodes)%nat then
        if noop n then visit_loop fuel (S n) else n :: visit_loop fuel (S (forward n).2)
      else []
  end.

(** The parts from node [n] on, and the nodes at which an operation starts. *)
Definition plan (n : nat) : list (nat * nat) := plan_loop (n_nodes - n) n.
Definition visits (n : nat) : list nat := visit_loop (n_nodes - n) n.

Context (forward_up : ∀ n, (n ≤ (forward n).2)%nat).

Lemma loops_fuel fuel : ∀ fuel' n, (n_nodes - n ≤ fuel)%nat → (n_nodes - n ≤ fuel')%nat →
  plan_loop fuel n = plan_loop fuel' n ∧ visit_loop fuel n = visit_loop fuel' n.
Proof using forward_up.
  induction fuel as [|fuel IH]; intros [|fuel'] n H1 H2; cbn [plan_loop visit_loop].
  - done.
  - by rewrite (proj2 (Nat.ltb_ge n n_nodes)) by lia.
  - by rewrite (proj2 (Nat.ltb_ge n n_nodes)) by lia.
  - destruct (Nat.ltb_spec n n_nodes); [|done]. pose proof (forward_up n). destruct (noop n).
    + apply IH; lia.
    + destruct (IH fuel' (S (forward n).2)) as [-> ->]; [lia|lia|done].
Qed.

Lemma plan_S n : plan n =
  if (n <? n_nodes)%nat then if noop n then plan (S n) else parts n (forward n).1 ++ plan (S (forward n).2) else [].
Proof using forward_up.
  unfold plan at 1. destruct (Nat.ltb_spec n n_nodes).
  - destruct (n_nodes - n)%nat as [|fuel] eqn:Hf; [lia|]. cbn [plan_loop visit_loop]. rewrite (proj2 (Nat.ltb_lt n n_nodes)) by lia.
    pose proof (forward_up n). destruct (noop n).
    + apply (loops_fuel fuel (n_nodes - S n) (S n)); lia.
    + f_equal. apply (loops_fuel fuel (n_nodes - S (forward n).2) (S (forward n).2)); lia.
  - by replace (n_nodes - n)%nat with 0%nat by lia.
Qed.

Lemma visits_S n : visits n =
  if (n <? n_nodes)%nat then if noop n then visits (S n) else n :: visits (S (forward n).2) else [].
Proof using forward_up.
  unfold visits at 1. destruct (Nat.ltb_spec n n_nodes).
  - destruct (n_nodes - n)%nat as [|fuel] eqn:Hf; [lia|]. cbn [plan_loop visit_loop]. rewrite (proj2 (Nat.ltb_lt n n_nodes)) by lia.
    pose proof (forward_up n). destruct (noop n).
    + apply (loops_fuel fuel (n_nodes - S n) (S n)); lia.
    + f_equal. apply (loops_fuel fuel (n_nodes - S (forward n).2) (S (forward n).2)); lia.
  - by replace (n_nodes - n)%nat with 0%nat by lia.
Qed.

(** The parts that a thread computes after the barrier it is in. *)
Definition after_barrier (r : barrier_return) : list (nat * nat) :=
  match r with BackToNode n calls => parts n calls ++ plan (S (forward n).2) | ToStatus n => plan (S n) end.

(** The operations still to start or to complete. *)
Definition pending (r : barrier_return) : list nat :=
  match r with BackToNode n _ => n :: visits (S (forward n).2) | ToStatus n => visits (S n) end.

(** The barriers passed and the log determine where a thread is. *)
Definition thread_ok (th : thread) : Prop :=
  let rest := drop (th_passed th) (plan 0) in
  match th_pc th with
  | LoopHead n => rest = plan n ∧ th_log th ++ visits n = visits 0
  | Computing n calls => (n < n_nodes)%nat ∧ rest = parts n calls ++ plan (S (forward n).2) ∧
      th_log th ++ n :: visits (S (forward n).2) = visits 0
  | AfterNode n => (∃ p, rest = p :: plan (S n)) ∧ th_log th ++ visits (S n) = visits 0
  | InBarrier _ r => (∃ p, rest = p :: after_barrier r) ∧ th_log th ++ pending r = visits 0 ∧
      match r with BackToNode n _ => (n < n_nodes)%nat | ToStatus _ => True end
  | CheckStatus n => rest = plan (S n) ∧ th_log th ++ visits (S n) = visits 0
  | Finished => True
  end.

(** A thread that has finished without an abort. *)
Definition done_ok (th : thread) : Prop :=
  th_pc th = Finished → (length (plan 0) ≤ th_passed th)%nat ∧ th_log th = visits 0.

(** ** What is left to do *)

Definition return_weight (r : barrier_return) : nat :=
  20 * length (after_barrier r) + 4 + match r with BackToNode n _ => n_nodes - n | ToStatus n => n_nodes - n end.

Definition weight (th : thread) : nat :=
  match th_pc th with
  | LoopHead n => 20 * length (plan n) + (n_nodes - n) + 2
  | Computing n calls => 20 * length (parts n calls ++ plan (S (forward n).2)) + (n_nodes - n) + 1
  | AfterNode n => 20 * S (length (plan (S n))) + (n_nodes - n)
  | InBarrier pc r => return_weight r + pc_rank (Some pc)
  | CheckStatus n => 20 * length (plan (S n)) + 4 + (n_nodes - n)
  | Finished => 0
  end.
End plan.

(** ** The invariant of a team *)

(** A thread as the barrier sees it. *)
Definition bview (th : thread) : bthread :=
  mk_bt (th_numa_node th) (th_passed th) (match th_pc th with InBarrier pc _ => Some pc | _ => None end).

Lemma bview_in_barrier th o r : bview (in_barrier th o r) = after (bview th) o.
Proof. unfold bview, in_barrier, after. destruct o; [done|]. by destruct r. Qed.

Lemma bview_insert (threads : list thread) (t : nat) th : bview <$> <[t := th]> threads = <[t := bview th]> (bview <$> threads).
Proof. apply list_fmap_insert. Qed.

Section team.
Context (n_nodes : nat) (noop : nat → bool) (forward : nat → nat * nat) (abort : nat → bool).
Context (forward_up : ∀ n, (n ≤ (forward n).2)%nat).
Context (BI : ggml_compute_state_shared → list bthread → Prop) `{!BarrierProtocol BI}.

Local Abbreviation thread_ok := (thread_ok n_nodes noop forward).
Local Abbreviation plan := (plan n_nodes noop forward).
Local Abbreviation visits := (visits n_nodes noop forward).
Local Abbreviation weight := (weight n_nodes noop forward).
Local Abbreviation thread_step := (thread_step n_nodes noop forward abort).
Local Abbreviation team_step := (team_step n_nodes noop forward abort).
Local Abbreviation run := (run n_nodes noop forward abort).

Record team_ok (st : team) : Prop := {
  tk_barrier : BI (tm_shared st) (bview <$> tm_threads st);
  tk_threads : ∀ t th, tm_threads st !! t = Some th → thread_ok th;
}.

(** Where a thread is once the barrier lets it go. *)
Lemma in_barrier_ok th o r : (∃ p, drop (th_passed th) (plan 0) = p :: after_barrier n_nodes noop forward r) →
  th_log th ++ pending n_nodes noop forward r = visits 0 →
  match r with BackToNode n _ => (n < n_nodes)%nat | ToStatus _ => True end → thread_ok (in_barrier th o r).
Proof.
  intros [p Hp] Hlog Hn. unfold in_barrier, ComputeThreads.thread_ok. destruct o; cbn; [eauto|].
  apply drop_lookup_inv in Hp as [_ Hp]. destruct r; cbn in *; auto.
Qed.

(** What a step of a thread does to the barrier and to the thread. *)
Lemma thread_step_ok s ths t th : BI s (bview <$> ths) → ths !! t = Some th → thread_ok th →
  ∃ s' th', thread_step s t th = Ok (s', th') ∧ BI s' (<[t := bview th']> (bview <$> ths)) ∧ thread_ok th'.
Proof using All.
  intros HBI Ht Hok. assert ((bview <$> ths) !! t = Some (bview th)) as Hv by (by rewrite list_lookup_fmap, Ht).
  assert (∀ th', bview th' = bview th → BI s (<[t := bview th']> (bview <$> ths))) as Hsame.
  { intros th' He. by rewrite He, list_insert_id. }
  assert (∀ s' r, BI s' (bview <$> ths) → match th_pc th with InBarrier _ _ => False | _ => True end →
    ∃ o, ggml_barrier s' (th_numa_node th) = Ok o ∧ BI s' (<[t := bview (in_barrier th o r)]> (bview <$> ths))) as Hcall.
  { intros s' r HBI' Hout. destruct (bi_enter s' (bview <$> ths) t (bview th)) as (o & Ho & HBI''); [done|done| |].
    - unfold bview. cbn. by destruct (th_pc th).
    - exists o. split; [exact Ho|]. by rewrite bview_in_barrier. }
  unfold ComputeThreads.thread_ok in Hok. unfold ComputeThreads.thread_step.
  destruct (th_pc th) as [n|n calls|n|pc r|n|] eqn:Hpc.
  - destruct Hok as [Hrest Hlog]. rewrite (plan_S _ _ _ forward_up n) in Hrest. rewrite (visits_S _ _ _ forward_up n) in Hlog.
    destruct (Nat.ltb_spec n n_nodes); [destruct (noop n)|].
    all: eexists s, _; split; [done|]; split; [apply Hsame; unfold bview, goto; cbn; by rewrite Hpc|]; unfold ComputeThreads.thread_ok, goto; cbn [th_pc th_passed th_log]; auto.
  - destruct Hok as (Hn & Hrest & Hlog). destruct calls as [|calls].
    + eexists s, _. split; [done|]. split; [apply Hsame; unfold bview; cbn; by rewrite Hpc|]. unfold ComputeThreads.thread_ok; cbn [th_pc th_passed th_log].
      split; [by (exists (n, 0%nat); rewrite Hrest)|]. rewrite <- app_assoc. done.
    + destruct (Hcall s (BackToNode n calls) HBI ltac:(done)) as (o & Ho & HBI'). rewrite Ho. cbn [mbind res_bind].
      eexists _, _. split; [done|]. split; [done|]. apply in_barrier_ok; [by (exists (n, S calls); rewrite Hrest)|done|done].
  - destruct Hok as ([p Hp] & Hlog). set (s1 := if (t =? 0)%nat && abort n then with_ec s GGML_STATUS_ABORTED else s).
    assert (BI s1 (bview <$> ths)) as HBI1 by (unfold s1; destruct ((t =? 0)%nat && abort n); [by apply bi_ec|done]).
    destruct (Hcall s1 (ToStatus n) HBI1 ltac:(done)) as (o & Ho & HBI'). rewrite Ho. cbn [mbind res_bind].
    eexists _, _. split; [done|]. split; [done|]. apply in_barrier_ok; [by exists p|done|done].
  - destruct Hok as (Hp & Hlog & Hn). destruct (bi_step s (bview <$> ths) t (bview th) pc) as (s' & o & Hs & HBI'); [done|done| |].
    { unfold bview. cbn. by rewrite Hpc. }
    cbn [bt_node bview] in Hs. rewrite Hs. cbn [mbind res_bind]. eexists _, _. split; [done|]. rewrite bview_in_barrier.
    split; [done|]. by apply in_barrier_ok.
  - destruct Hok as [Hrest Hlog]. eexists _, _. split; [done|]. split.
    + apply Hsame. unfold bview, goto. cbn. case_match; rewrite Hpc; by case_match.
    + unfold ComputeThreads.thread_ok, goto. cbn [th_pc th_passed th_log]. by destruct (sh_ec s =? GGML_STATUS_SUCCESS).
  - eexists _, _. split; [done|]. split; [by apply Hsame|]. unfold ComputeThreads.thread_ok. by rewrite Hpc.
Qed.

Lemma team_step_ok st t : team_ok st → (t < length (tm_threads st))%nat →
  ∃ st', team_step st t = Ok st' ∧ team_ok st' ∧ length (tm_threads st') = length (tm_threads st).
Proof using All.
  intros [HBI Hths] Hlt. destruct (lookup_lt_is_Some_2 _ _ Hlt) as [th Ht].
  destruct (thread_step_ok _ _ t th HBI Ht (Hths t th Ht)) as (s' & th' & Hs & HBI' & Hok').
  unfold ComputeThreads.team_step. rewrite (proj2 (at_Ok _ _ _) Ht). cbn [mbind res_bind]. rewrite Hs. cbn [mbind res_bind].
  eexists. split; [done|]. split; [|cbn; by rewrite length_insert]. split; cbn [tm_shared tm_threads].
  - by rewrite bview_insert.
  - intros u uh [(-> & <- & _)|[_ Hu]]%list_lookup_insert_Some; [done|by eapply Hths].
Qed.

(** Two threads that compute do so in the same part of the same node. *)
Lemma team_lockstep st t u th uh n calls n' calls' : team_ok st →
  tm_threads st !! t = Some th → tm_threads st !! u = Some uh →
  th_pc th = Computing n calls → th_pc uh = Computing n' calls' → n = n' ∧ calls = calls'.
Proof using All.
  intros [HBI Hths] Ht Hu Hpt Hpu. destruct (bi_phase _ _ HBI) as [G HG].
  pose proof (HG t (bview th) ltac:(by rewrite list_lookup_fmap, Ht)) as Hph.
  pose proof (HG u (bview uh) ltac:(by rewrite list_lookup_fmap, Hu)) as Hph'.
  unfold inside, bview in Hph, Hph'. cbn in Hph, Hph'. rewrite Hpt in Hph. rewrite Hpu in Hph'.
  destruct Hph as [Hph|[_ ?]]; [|done]. destruct Hph' as [Hph'|[_ ?]]; [|done].
  pose proof (Hths t th Ht) as Ho. pose proof (Hths u uh Hu) as Ho'. unfold ComputeThreads.thread_ok in Ho, Ho'.
  rewrite Hpt in Ho. rewrite Hpu in Ho'. destruct Ho as (_ & Ho & _). destruct Ho' as (_ & Ho' & _).
  rewrite Hph in Ho. rewrite Hph', Ho in Ho'. destruct calls, calls'; by simplify_eq/=.
Qed.
End team.

(** ** Without an abort every thread finishes *)

Definition total (w : thread → nat) (threads : list thread) : nat := sum_list_with w threads.

Lemma total_insert w threads t th th' : threads !! t = Some th →
  (total w (<[t := th']> threads) + w th = total w threads + w th')%nat.
Proof.
  revert t. induction threads as [|x l IH]; intros [|t] Ht; [done|done| |].
  - injection Ht as ->. cbn. lia.
  - specialize (IH t Ht). change (<[S t := th']> (x :: l)) with (x :: <[t := th']> l). unfold total in *. cbn [sum_list_with]. lia.
Qed.

Section alive.
Context (n_nodes : nat) (noop : nat → bool) (forward : nat → nat * nat).
Context (forward_up : ∀ n, (n ≤ (forward n).2)%nat).
Context (BI : ggml_compute_state_shared → list bthread → Prop) `{!BarrierProtocol BI}.

Local Abbreviation no_abort := (λ _ : nat, false).
Local Abbreviation thread_ok := (thread_ok n_nodes noop forward).
Local Abbreviation done_ok := (done_ok n_nodes noop forward).
Local Abbreviation plan := (plan n_nodes noop forward).
Local Abbreviation visits := (visits n_nodes noop forward).
Local Abbreviation weight := (weight n_nodes noop forward).
Local Abbreviation thread_step := (thread_step n_nodes noop forward no_abort).
Local Abbreviation team_step := (team_step n_nodes noop forward no_abort).
Local Abbreviation run := (run n_nodes noop forward no_abort).

Record team_alive (st : team) : Prop := {
  ta_ok   : team_ok n_nodes noop forward BI st;
  ta_ec   : sh_ec (tm_shared st) = GGML_STATUS_SUCCESS;
  ta_done : ∀ t th, tm_threads st !! t = Some th → done_ok th;
}.

Lemma resume_weight th r : (weight (mk_thread (th_numa_node th) (resume r) (S (th_passed th)) (th_log th)) <
  return_weight n_nodes noop forward r + 1)%nat.
Proof. unfold return_weight. destruct r; cbn [resume th_pc ComputeThreads.weight after_barrier]; lia. Qed.

Lemma in_barrier_weight th o r : (weight (in_barrier th o r) < return_weight n_nodes noop forward r + pc_rank o + 1)%nat.
Proof.
  unfold in_barrier. destruct o as [pc|]; [cbn [ComputeThreads.weight th_pc]; lia|]. pose proof (resume_weight th r). cbn [pc_rank]. lia.
Qed.

Lemma parts_length n calls : length (parts n calls) = S calls.
Proof. induction calls as [|c IH]; cbn; [done|]. by rewrite IH. Qed.

(** A step changes nothing or decreases what is left to do. *)
Lemma thread_step_weight s t th s' th' : thread_ok th → sh_ec s = GGML_STATUS_SUCCESS → thread_step s t th = Ok (s', th') →
  sh_ec s' = GGML_STATUS_SUCCESS ∧ ((s' = s ∧ th' = th) ∨ (weight th' < weight th)%nat).
Proof using forward_up.
  intros Hok Hec Hs. unfold ComputeThreads.thread_step in Hs. unfold ComputeThreads.thread_ok in Hok.
  destruct (th_pc th) as [n|n calls|n|pc r|n|] eqn:Hpc.
  - assert (weight th = 20 * length (plan n) + (n_nodes - n) + 2)%nat as Hw by (unfold ComputeThreads.weight; by rewrite Hpc).
    rewrite (plan_S _ _ _ forward_up n) in Hw.
    destruct (Nat.ltb_spec n n_nodes); [destruct (noop n)|]; injection Hs as <- <-; (split; [done|]); right;
      rewrite Hw; cbn [ComputeThreads.weight th_pc goto]; lia.
  - destruct Hok as (Hn & _). pose proof (forward_up n) as Hup.
    assert (weight th = 20 * length (parts n calls ++ plan (S (forward n).2)) + (n_nodes - n) + 1)%nat as Hw by (unfold ComputeThreads.weight; by rewrite Hpc).
    rewrite length_app, parts_length in Hw. destruct calls as [|calls].
    + injection Hs as <- <-. split; [done|]. right. rewrite Hw. cbn [ComputeThreads.weight th_pc]. lia.
    + inv_res. split; [done|]. right. rewrite Hw. match goal with Hb : ggml_barrier _ _ = Ok ?o |- _ => 
        pose proof (ggml_barrier_rank _ _ _ Hb); pose proof (in_barrier_weight th o (BackToNode n calls)) end.
      unfold return_weight in *. cbn [after_barrier] in *. rewrite length_app, parts_length in *. lia.
  - assert (weight th = 20 * S (length (plan (S n))) + (n_nodes - n))%nat as Hw by (unfold ComputeThreads.weight; by rewrite Hpc).
    rewrite andb_false_r in Hs. inv_res. split; [done|]. right. rewrite Hw. match goal with Hb : ggml_barrier _ _ = Ok ?o |- _ => 
        pose proof (ggml_barrier_rank _ _ _ Hb); pose proof (in_barrier_weight th o (ToStatus n)) end.
    unfold return_weight in *. cbn [after_barrier] in *. lia.
  - assert (weight th = return_weight n_nodes noop forward r + pc_rank (Some pc))%nat as Hw by (unfold ComputeThreads.weight; by rewrite Hpc).
    apply bind_Ok in Hs as ([s1 o] & Hb & Hs). injection Hs as <- <-. destruct (barrier_step_rank _ _ _ _ _ Hb) as (He & _ & [[-> ->]|Hr]).
    + split; [done|]. left. split; [done|]. unfold in_barrier. destruct th. cbn in *. by subst.
    + split; [congruence|]. right. rewrite Hw. pose proof (in_barrier_weight th o r).
      lia.
  - assert (weight th = 20 * length (plan (S n)) + 4 + (n_nodes - n))%nat as Hw by (unfold ComputeThreads.weight; by rewrite Hpc).
    injection Hs as <- <-. split; [done|]. right. rewrite Hw, Hec. cbn [ComputeThreads.weight th_pc goto Z.eqb GGML_STATUS_SUCCESS]. lia.
  - injection Hs as <- <-. auto.
Qed.

Lemma thread_step_done s t th s' th' : thread_ok th → done_ok th → sh_ec s = GGML_STATUS_SUCCESS →
  thread_step s t th = Ok (s', th') → done_ok th'.
Proof using forward_up.
  intros Hok Hdone Hec Hs Hfin. unfold ComputeThreads.thread_step in Hs. unfold ComputeThreads.thread_ok in Hok.
  destruct (th_pc th) as [n|n calls|n|pc r|n|] eqn:Hpc.
  - destruct Hok as [Hrest Hlog]. rewrite (plan_S _ _ _ forward_up n) in Hrest. rewrite (visits_S _ _ _ forward_up n) in Hlog.
    destruct (Nat.ltb_spec n n_nodes); [destruct (noop n)|]; injection Hs as <- <-; cbn in Hfin; try done.
    cbn [goto th_passed th_log]. rewrite app_nil_r in Hlog. split; [|done].
    apply (f_equal length) in Hrest. rewrite length_drop in Hrest. cbn in Hrest. lia.
  - destruct calls; inv_res; cbn in Hfin; try done. unfold in_barrier in Hfin. by case_match.
  - inv_res. unfold in_barrier in Hfin. by case_match.
  - apply bind_Ok in Hs as ([s1 o] & Hb & Hs). injection Hs as <- <-. unfold in_barrier in Hfin. case_match; [done|]. by destruct r.
  - injection Hs as <- <-. rewrite Hec in Hfin. done.
  - injection Hs as <- <-. by apply Hdone.
Qed.

Lemma team_step_alive st t : team_alive st → (t < length (tm_threads st))%nat →
  ∃ st', team_step st t = Ok st' ∧ team_alive st' ∧ length (tm_threads st') = length (tm_threads st) ∧
    (st' = st ∨ (total weight (tm_threads st') < total weight (tm_threads st))%nat).
Proof using All.
  intros [Hok Hec Hdone] Hlt.
  destruct (team_step_ok n_nodes noop forward no_abort forward_up BI st t Hok Hlt) as (st' & Hs & Hok' & Hlen).
  exists st'. split; [done|]. unfold ComputeThreads.team_step in Hs. apply bind_Ok in Hs as (th & Ht & Hs). apply at_Ok in Ht.
  apply bind_Ok in Hs as ([s' th'] & Hs & [= <-]).
  destruct (thread_step_weight _ _ _ _ _ (tk_threads _ _ _ _ _ Hok t th Ht) Hec Hs) as [Hec' Hw].
  split_and!; [split; [done|done|]|done|].
  - intros u uh [(-> & <- & _)|[_ Hu]]%list_lookup_insert_Some; [|by eapply Hdone].
    apply (thread_step_done (tm_shared st) u th s' th'); [exact (tk_threads _ _ _ _ _ Hok u th Ht)|by eapply Hdone|done|done].
  - destruct Hw as [[-> ->]|Hw]; [left|right].
    + rewrite list_insert_id by done. by destruct st.
    + cbn [tm_threads]. pose proof (total_insert weight _ t th th' Ht). lia.
Qed.

Definition all_finished (st : team) : Prop := ∀ t th, tm_threads st !! t = Some th → th_pc th = Finished.

#[local] Instance all_finished_dec st : Decision (all_finished st).
Proof.
  destruct (decide (Forall (λ th, th_pc th = Finished) (tm_threads st))) as [Hf|Hf]; [left|right].
  - intros t th Ht. exact (proj1 (Forall_lookup _ _) Hf t th Ht).
  - intros Hall. apply Hf, Forall_lookup. exact Hall.
Defined.

(** A thread whose step changes nothing has finished or waits in the barrier. *)
Lemma stuck_thread st t th : tm_threads st !! t = Some th → team_step st t = Ok st →
  th_pc th = Finished ∨ ∃ pc r s', th_pc th = InBarrier pc r ∧ barrier_step (tm_shared st) (th_numa_node th) pc = Ok (s', Some pc).
Proof.
  intros Ht Hs. unfold ComputeThreads.team_step in Hs. rewrite (proj2 (at_Ok _ _ _) Ht) in Hs. cbn [mbind res_bind] in Hs.
  apply bind_Ok in Hs as ([s' th'] & Hs & He). injection He as He. apply (f_equal tm_threads) in He. cbn in He.
  assert (th' = th) as ->. { pose proof (lookup_lt_Some _ _ _ Ht). rewrite <- He, list_lookup_insert_eq in Ht by done. congruence. }
  unfold ComputeThreads.thread_step in Hs. destruct (th_pc th) as [n|n calls|n|pc r|n|] eqn:Hp; [..|by left].
  - exfalso. destruct (n <? n_nodes)%nat; [destruct (noop n)|]; injection Hs as _ Hs; apply (f_equal th_pc) in Hs; cbn in Hs;
      rewrite Hp in Hs; try done; injection Hs as Hs; lia.
  - exfalso. destruct calls as [|calls]; [injection Hs as _ Hs; apply (f_equal th_pc) in Hs; cbn in Hs; congruence|].
    apply bind_Ok in Hs as (o & _ & Hs). injection Hs as _ Hs. apply (f_equal th_pc) in Hs. rewrite Hp in Hs.
    unfold in_barrier in Hs. destruct o; cbn in Hs; [done|]. injection Hs as Hs. lia.
  - exfalso. apply bind_Ok in Hs as (o & _ & Hs). injection Hs as _ Hs. apply (f_equal th_pc) in Hs. rewrite Hp in Hs.
    unfold in_barrier in Hs. by destruct o.
  - right. apply bind_Ok in Hs as ([s1 o] & Hb & Hs). injection Hs as _ Hs. apply (f_equal th_pc) in Hs. rewrite Hp in Hs.
    unfold in_barrier in Hs. destruct o as [pc'|]; cbn in Hs; [|by destruct r]. injection Hs as ->. eauto.
  - exfalso. injection Hs as _ Hs. apply (f_equal th_pc) in Hs. cbn in Hs. rewrite Hp in Hs. by case_match.
Qed.

Definition outside (th : thread) : bool := match th_pc th with InBarrier _ _ | Finished => false | _ => true end.

Lemma Exists_lookup (P : thread → Prop) `{!∀ th, Decision (P th)} (l : list thread) :
  (∃ t th, l !! t = Some th ∧ P th) ∨ (∀ t th, l !! t = Some th → ¬ P th).
Proof.
  destruct (decide (Exists P l)) as [Hex|Hno].
  - left. apply Exists_exists in Hex as (th & (t & Ht)%list_elem_of_lookup & ?). eauto.
  - right. intros t th Ht Hth. apply Hno, Exists_exists. exists th. split; [by eapply list_elem_of_lookup_2|done].
Qed.

(** A thread that has not finished is behind those that have. *)
Lemma behind_finished st t th u uh : team_alive st → tm_threads st !! t = Some th → tm_threads st !! u = Some uh →
  inside (bview th) → th_pc uh = Finished → S (th_passed th) = th_passed uh.
Proof using All.
  intros [[HBI Hths] Hec Hdone] Ht Hu Hin Hpu.
  destruct (Hdone u uh Hu Hpu) as [Hlen _]. pose proof (Hths t th Ht) as Hok. unfold ComputeThreads.thread_ok in Hok.
  assert (th_passed th < length (plan 0))%nat as Hlt.
  { unfold inside, bview in Hin. cbn in Hin. destruct (th_pc th); try done. destruct Hok as ([q Hq] & _).
    apply (f_equal length) in Hq. rewrite length_drop in Hq. cbn in Hq. lia. }
  destruct (bi_phase _ _ HBI) as [G HG].
  pose proof (HG t (bview th) ltac:(by rewrite list_lookup_fmap, Ht)) as H1.
  pose proof (HG u (bview uh) ltac:(by rewrite list_lookup_fmap, Hu)) as H2. cbn in *. lia.
Qed.

(** Somebody can do a step that changes something. *)
Lemma somebody_moves st : team_alive st → ¬ all_finished st →
  ∃ t, (t < length (tm_threads st))%nat ∧ team_step st t ≠ Ok st.
Proof using All.
  intros Halive Hnot. pose proof Halive as [[HBI Hths] Hec Hdone].
  destruct (Exists_lookup (λ th, outside th = true) (tm_threads st)) as [(t & th & Ht & Hout)|Hno].
  { exists t. split; [by eapply lookup_lt_Some|]. intros Hs. unfold outside in Hout.
    destruct (stuck_thread st t th Ht Hs) as [Hf|(pc & r & s' & Hp & _)]; [by rewrite Hf in Hout|by rewrite Hp in Hout]. }
  assert (∀ t th, tm_threads st !! t = Some th → th_pc th = Finished ∨ inside (bview th)) as Hcases.
  { intros t th Ht. specialize (Hno t th Ht). unfold outside in Hno. unfold inside, bview. cbn. destruct (th_pc th); auto. }
  destruct (bi_progress _ _ HBI) as (t & bt & Hbt & Hmove).
  - intros Hnil. apply Hnot. intros t th Ht. apply (f_equal length) in Hnil. rewrite length_fmap in Hnil.
    apply lookup_lt_Some in Ht. cbn in Hnil. lia.
  - destruct (Exists_lookup (λ th, th_pc th = Finished) (tm_threads st)) as [(u & uh & Hu & Hpu)|Hnone].
    + right. destruct (Exists_lookup (λ th, th_pc th ≠ Finished) (tm_threads st)) as [(t & th & Ht & Hpt)|Hall].
      * destruct (Hcases t th Ht) as [|Hin]; [done|]. exists t, (bview th), u, (bview uh).
        split_and!; [by rewrite list_lookup_fmap, Ht|by rewrite list_lookup_fmap, Hu|done|by eapply behind_finished].
      * exfalso. apply Hnot. intros t th Ht. destruct (decide (th_pc th = Finished)); [done|]. by destruct (Hall t th Ht).
    + left. intros t bt Hbt. rewrite list_lookup_fmap in Hbt. apply fmap_Some in Hbt as (th & Ht & ->).
      destruct (Hcases t th Ht) as [Hf|]; [|done]. by destruct (Hnone t th Ht).
  - rewrite list_lookup_fmap in Hbt. apply fmap_Some in Hbt as (th & Ht & ->). exists t. split; [by eapply lookup_lt_Some|].
    intros Hs. destruct Hmove as (pc & s1 & o & Hpc & Hstep & Hne). unfold bview in Hpc, Hstep. cbn in Hpc, Hstep.
    destruct (stuck_thread st t th Ht Hs) as [Hf|(pc' & r & s' & Hp & Hb)]; [by rewrite Hf in Hpc|].
    rewrite Hp in Hpc. injection Hpc as ->. congruence.
Qed.

(** Somebody can do a step that leaves less to do. *)
Lemma team_progress st : team_alive st → ¬ all_finished st →
  ∃ t, (t < length (tm_threads st))%nat ∧ ∀ st', team_step st t = Ok st' →
    (total weight (tm_threads st') < total weight (tm_threads st))%nat.
Proof using All.
  intros Halive Hnot. destruct (somebody_moves st Halive Hnot) as (t & Hlt & Hne). exists t. split; [done|].
  intros st' Hs. destruct (team_step_alive st t Halive Hlt) as (st2 & Hs2 & _ & _ & [->|?]); congruence.
Qed.

(** ** Fair schedules *)

(** Every thread of the team is scheduled again and again, and nobody else. *)
Definition fair (n_threads : nat) (schedule : nat → nat) : Prop :=
  (∀ i, (schedule i < n_threads)%nat) ∧ ∀ t i, (t < n_threads)%nat → ∃ j, (i ≤ j)%nat ∧ schedule j = t.

Section fair.
Context (st0 : team) (Halive : team_alive st0) (schedule : nat → nat).
Context (Hfair : fair (length (tm_threads st0)) schedule).

Lemma run_alive i : ∃ st, run st0 schedule i = Ok st ∧ team_alive st ∧ length (tm_threads st) = length (tm_threads st0).
Proof using All.
  induction i as [|i (st & Hr & Ha & Hl)]; [by exists st0|].
  destruct (team_step_alive st (schedule i) Ha) as (st' & Hs & Ha' & Hl' & _); [rewrite Hl; apply Hfair|].
  exists st'. cbn. rewrite Hr. cbn. rewrite Hs. split_and!; [done|done|congruence].
Qed.

Lemma run_later i st d : run st0 schedule i = Ok st → ∃ st', run st0 schedule (i + d) = Ok st' ∧
  (st' = st ∨ (total weight (tm_threads st') < total weight (tm_threads st))%nat).
Proof using All.
  intros Hr. induction d as [|d (st1 & Hr1 & Hd)]; [exists st; rewrite Nat.add_0_r; auto|].
  destruct (run_alive (i + d)) as (st2 & Hr2 & Ha & Hl). assert (st2 = st1) as -> by congruence.
  destruct (team_step_alive st1 (schedule (i + d)%nat) Ha) as (st' & Hs & _ & _ & Hw); [rewrite Hl; apply Hfair|].
  exists st'. rewrite Nat.add_succ_r. cbn. rewrite Hr1. cbn. rewrite Hs. split; [done|].
  destruct Hd as [->|], Hw as [->|]; auto; right; lia.
Qed.

Lemma run_finishes : ∃ i st, run st0 schedule i = Ok st ∧ team_alive st ∧ all_finished st.
Proof using All.
  assert (∀ w i st, run st0 schedule i = Ok st → (total weight (tm_threads st) < w)%nat →
    ∃ i st, run st0 schedule i = Ok st ∧ team_alive st ∧ all_finished st) as Hmain; [|apply (Hmain (S (total weight (tm_threads st0))) 0%nat st0); [done|lia]].
  induction w as [|w IH]; intros i st Hr Hw; [lia|].
  destruct (run_alive i) as (st1 & Hr1 & Ha & Hl). assert (st1 = st) as -> by congruence.
  destruct (decide (all_finished st)) as [Hf|Hnf]; [by exists i, st|].
  destruct (team_progress st Ha Hnf) as (t & Hlt & Hdec). rewrite Hl in Hlt.
  destruct (proj2 Hfair t i Hlt) as (j & Hj & Ht).
  destruct (run_later i st (j - i) Hr) as (st2 & Hr2 & Hst2). replace (i + (j - i))%nat with j in Hr2 by lia.
  destruct Hst2 as [->|Hless]; [|by eapply (IH j st2); [done|lia]].
  destruct (run_later j st 1 Hr2) as (st3 & Hr3 & _). rewrite Nat.add_1_r in Hr3.
  apply (IH (S j) st3); [done|]. cbn in Hr3. rewrite Hr2 in Hr3. cbn in Hr3. rewrite Ht in Hr3. specialize (Hdec st3 Hr3). lia.
Qed.
End fair.
End alive.

(** ** What the threads of a graph computation do *)

Section start.
Context (numa : numa_state) (n_threads n_batch : Z) (tl_old : nat → Z).
Context (Hnuma : 0 ≤ numa_n_nodes numa ≤ 8) (HN : 1 ≤ n_threads < 2 ^ 27).
Context (n_nodes : nat) (noop : nat → bool) (forward : nat → nat * nat).

Lemma compute_started : ∃ st0 BI, compute_start numa n_threads n_batch tl_old = Ok st0 ∧ BarrierProtocol BI ∧
  team_alive n_nodes noop forward BI st0 ∧ length (tm_threads st0) = Z.to_nat n_threads.
Proof using Hnuma HN.
  destruct (team_start numa tl_old n_threads n_batch Hnuma HN) as (b & BI & Hset & HP & HBI).
  unfold compute_start. rewrite Hset. cbn [mbind res_bind]. eexists _, BI. split; [done|]. split; [done|].
  split; [|cbn; by rewrite length_fmap, length_seq]. split; [split| |]; cbn [tm_shared tm_threads].
  - rewrite <- list_fmap_compose. exact HBI.
  - intros t th Ht. rewrite list_lookup_fmap in Ht. apply fmap_Some in Ht as (u & _ & ->). split; done.
  - done.
  - intros t th Ht. rewrite list_lookup_fmap in Ht. apply fmap_Some in Ht as (u & _ & ->). done.
Qed.
End start.

Lemma exec_ok n_nodes noop forward abort (Hup : ∀ n, (n ≤ (forward n).2)%nat) BI `{!BarrierProtocol BI} schedule : ∀ st,
  team_ok n_nodes noop forward BI st → Forall (λ t, (t < length (tm_threads st))%nat) schedule →
  ∃ st', exec n_nodes noop forward abort st schedule = Ok st' ∧ team_ok n_nodes noop forward BI st'.
Proof.
  induction schedule as [|t schedule IH]; intros st Hok Hs; [by exists st|]. apply Forall_cons in Hs as [Ht Hs].
  destruct (team_step_ok n_nodes noop forward abort Hup BI st t Hok Ht) as (st1 & H1 & Hok1 & Hlen).
  destruct (IH st1 Hok1) as (st' & He & Hok'); [by rewrite Hlen|]. exists st'. cbn. rewrite H1. done.
Qed.

(** C37. Whatever the interleaving of the threads, the number of memory nodes and the
    barrier in use, no step fails, and two threads that compute at the same time
    compute the same part of the same node: the work of different nodes, and of
    the parts of a node that barriers separate, never overlaps. *)
Theorem compute_lockstep numa n_threads n_batch tl_old n_nodes noop forward abort schedule :
  0 ≤ numa_n_nodes numa ≤ 8 → 1 ≤ n_threads < 2 ^ 27 → (∀ n, (n ≤ (forward n).2)%nat) →
  Forall (λ t, (t < Z.to_nat n_threads)%nat) schedule →
  ∃ st0 st, compute_start numa n_threads n_batch tl_old = Ok st0 ∧ exec n_nodes noop forward abort st0 schedule = Ok st ∧
    ∀ t u th uh n calls n' calls', tm_threads st !! t = Some th → tm_threads st !! u = Some uh →
      th_pc th = Computing n calls → th_pc uh = Computing n' calls' → n = n' ∧ calls = calls'.
Proof.
  intros Hnuma HN Hup Hs. destruct (compute_started numa n_threads n_batch tl_old Hnuma HN n_nodes noop forward) as (st0 & BI & H0 & HP & Ha & Hl).
  destruct (exec_ok n_nodes noop forward abort Hup BI schedule st0 (ta_ok _ _ _ _ _ Ha)) as (st & He & Hok); [by rewrite Hl|].
  exists st0, st. split_and!; [done..|]. intros t u th uh n calls n' calls' Ht Hu Hpt Hpu.
  exact (team_lockstep n_nodes noop forward abort Hup BI st t u th uh n calls n' calls' Hok Ht Hu Hpt Hpu).
Qed.

(** C38. When every thread is scheduled again and again and nothing is aborted, all
    threads finish, each having computed every node once. *)
Theorem compute_finishes numa n_threads n_batch tl_old n_nodes noop forward schedule :
  0 ≤ numa_n_nodes numa ≤ 8 → 1 ≤ n_threads < 2 ^ 27 → (∀ n, (n ≤ (forward n).2)%nat) →
  fair (Z.to_nat n_threads) schedule →
  ∃ st0 i st, compute_start numa n_threads n_batch tl_old = Ok st0 ∧
    run n_nodes noop forward (λ _, false) st0 schedule i = Ok st ∧ sh_ec (tm_shared st) = GGML_STATUS_SUCCESS ∧
    length (tm_threads st) = Z.to_nat n_threads ∧
    ∀ t th, tm_threads st !! t = Some th → th_pc th = Finished ∧ th_log th = visits n_nodes noop forward 0.
Proof.
  intros Hnuma HN Hup Hf. destruct (compute_started numa n_threads n_batch tl_old Hnuma HN n_nodes noop forward) as (st0 & BI & H0 & HP & Ha & Hl).
  rewrite <- Hl in Hf. destruct (run_finishes n_nodes noop forward Hup BI st0 Ha schedule Hf) as (i & st & Hr & Hal & Hfin).
  destruct (run_alive n_nodes noop forward Hup BI st0 Ha schedule Hf i) as (st1 & Hr1 & _ & Hlen).
  assert (st1 = st) as -> by congruence.
  exists st0, i, st. split_and!; [done|done|apply Hal|congruence|]. intros t th Ht. split; [by eapply Hfin|].
  apply (ta_done _ _ _ _ _ Hal t th Ht). by eapply Hfin.
Qed.

(** *** Runs *)

(** Three threads on two memory nodes, and a graph of three nodes of which the
    second is empty and the third has a barrier inside. *)
Definition ex_numa : numa_state := mk_numa true 2.
Definition ex_noop (n : nat) : bool := (n =? 1)%nat.
Definition ex_forward (n : nat) : nat * nat := ((if n =? 2 then 1 else 0)%nat, n).
Definition round_robin (i : nat) : nat := (i mod 3)%nat.

Lemma round_robin_fair : fair 3 round_robin.
Proof.
  split; [intros i; by apply Nat.mod_upper_bound|]. intros t i Ht. exists (3 * i + t)%nat. split; [lia|].
  unfold round_robin. rewrite Nat.add_comm, Nat.mul_comm, Nat.Div0.mod_add. by apply Nat.mod_small.
Qed.

Lemma compute_lockstep_witness : ∃ st0 st, compute_start ex_numa 3 1 (λ _, 0) = Ok st0 ∧
  exec 3 ex_noop ex_forward (λ _, false) st0 (concat (replicate 12 [0; 1; 2]%nat)) = Ok st ∧
  ∀ t u th uh n calls n' calls', tm_threads st !! t = Some th → tm_threads st !! u = Some uh →
    th_pc th = Computing n calls → th_pc uh = Computing n' calls' → n = n' ∧ calls = calls'.
Proof.
  apply (compute_lockstep ex_numa 3 1 (λ _, 0) 3 ex_noop ex_forward (λ _, false)); [cbn; lia|lia|intros n; cbn; lia|].
  apply (bool_decide_unpack _). vm_compute. exact I.
Defined.

Lemma compute_finishes_witness : ∃ st0 i st, compute_start ex_numa 3 1 (λ _, 0) = Ok st0 ∧
  run 3 ex_noop ex_forward (λ _, false) st0 round_robin i = Ok st ∧ sh_ec (tm_shared st) = GGML_STATUS_SUCCESS ∧
  length (tm_threads st) = Z.to_nat 3 ∧
  ∀ t th, tm_threads st !! t = Some th → th_pc th = Finished ∧ th_log th = visits 3 ex_noop ex_forward 0.
Proof.
  apply (compute_finishes ex_numa 3 1 (λ _, 0) 3 ex_noop ex_forward round_robin); [cbn; lia|lia|intros n; cbn; lia|].
  exact round_robin_fair.
Defined.

(** ** Aborting

    The status is a plain field that thread 0 writes before the barrier after a
    node and that all threads read behind the barrier.  A thread that is slow to
    leave the barrier of node 0 reads what thread 0 writes after node 1. *)
Definition late_schedule : list nat := [1; 1; 1; 1; 1; 1; 0; 0; 0; 0; 0; 0; 0; 0; 0; 0; 0; 0; 0; 1; 1]%nat.

(** With two threads and an abort after the second of two nodes there is a run
    after which thread 1 has left the loop and thread 0 waits for it: no further
    step of any thread changes anything, so the call never returns. *)
Theorem abort_deadlocks : ∃ st0 st th0 th1,
  compute_start (mk_numa false 1) 2 1 (λ _, 0) = Ok st0 ∧
  exec 2 (λ _, false) (λ n, (0%nat, n)) (λ n, (n =? 1)%nat) st0 late_schedule = Ok st ∧
  tm_threads st = [th0; th1] ∧ (∃ old r, th_pc th0 = InBarrier (FlatWait old) r) ∧ th_pc th1 = Finished ∧
  ∀ t, (t < 2)%nat → team_step 2 (λ _, false) (λ n, (0%nat, n)) (λ n, (n =? 1)%nat) st t = Ok st.
Proof.
  destruct (compute_start (mk_numa false 1) 2 1 (λ _, 0)) as [st0|] eqn:H0; [|vm_compute in H0; discriminate].
  vm_compute in H0. injection H0 as <-. eexists _. eexists _, _, _. split; [reflexivity|]. split; [vm_compute; reflexivity|].
  cbn [tm_threads]. split; [reflexivity|]. split; [cbn; eauto|]. split; [reflexivity|].
  intros [|[|t]] Ht; [reflexivity|reflexivity|lia].
Qed.
