(* ===== verification/TensorTypes.v ===== *)
(** * Tensor types (ggml/include/ggml.h, ggml/src/ggml-common.h, ggml/src/ggml.c)

    The types of tensor elements.  The elements of a row are stored in blocks:
    [blck_size] elements take [type_size] bytes, and [row_meta_size] bytes at the
    beginning of a row belong to no block.  [type_traits] has the entries of the
    table of that name, without the kernels ([to_float], [vec_dot], ...); the size
    of a block is the one its [static_assert] demands. *)
From S2P Require Import Prelude.

(** ** Blocks *)

Definition sizeof_ggml_half : Z := 2.
Definition QK4_0 : Z := 32.
Definition QK4_1 : Z := 32.
Definition QK5_0 : Z := 32.
Definition QK5_1 : Z := 32.
Definition QK6_0 : Z := 32.
Definition QK8_0 : Z := 32.
Definition QK8_1 : Z := 32.
Definition QK8_2 : Z := 32.
Definition QK_K : Z := 256.
Definition K_SCALE_SIZE : Z := 12.
Definition IQ3S_N_SCALE : Z := QK_K / 64.
Definition QK_IQ2BN : Z := 64.
Definition QK4_NL : Z := 32.
Definition QK_MXFP4 : Z := 32.
Definition QK1_0_G128 : Z := 128.
Definition QK_IQ1BN : Z := 64.

Definition sizeof_block_q4_0 : Z := sizeof_ggml_half + QK4_0 / 2.
Definition sizeof_block_q4_1 : Z := 2 * sizeof_ggml_half + QK4_1 / 2.
Definition sizeof_block_q5_0 : Z := sizeof_ggml_half + 4 + QK5_0 / 2.
Definition sizeof_block_q5_1 : Z := 2 * sizeof_ggml_half + 4 + QK5_1 / 2.
Definition sizeof_block_q6_0 : Z := sizeof_ggml_half + QK6_0 / 2 + QK6_0 / 4.
Definition sizeof_block_q8_0 : Z := sizeof_ggml_half + QK8_0.
Definition sizeof_block_q8_1 : Z := 2 * sizeof_ggml_half + QK8_1.
Definition sizeof_block_q8_2 : Z := sizeof_ggml_half + 2 + QK8_2.
Definition sizeof_block_q2_K : Z := 2 * sizeof_ggml_half + QK_K / 16 + QK_K / 4.
Definition sizeof_block_q3_K : Z := sizeof_ggml_half + QK_K / 4 + QK_K / 8 + 12.
Definition sizeof_block_q4_K : Z := 2 * sizeof_ggml_half + K_SCALE_SIZE + QK_K / 2.
Definition sizeof_block_q5_K : Z := 2 * sizeof_ggml_half + K_SCALE_SIZE + QK_K / 2 + QK_K / 8.
Definition sizeof_block_q6_K : Z := sizeof_ggml_half + QK_K / 16 + 3 * QK_K / 4.
Definition sizeof_block_q8_k_r8 : Z := 8 * sizeof_ggml_half + 8 * QK_K.
Definition sizeof_block_q8_k_r16 : Z := 16 * sizeof_ggml_half + 16 * QK_K.
Definition sizeof_block_iq2_xxs : Z := sizeof_ggml_half + QK_K / 8 * 2.
Definition sizeof_block_iq2_xs : Z := sizeof_ggml_half + QK_K / 8 * 2 + QK_K / 32.
Definition sizeof_block_iq3_xxs : Z := sizeof_ggml_half + 3 * (QK_K / 8).
Definition sizeof_block_iq3_s : Z := sizeof_ggml_half + 13 * (QK_K / 32) + IQ3S_N_SCALE.
Definition sizeof_block_iq2_s : Z := sizeof_ggml_half + QK_K / 4 + QK_K / 16.
Definition sizeof_block_iq1_s : Z := sizeof_ggml_half + QK_K / 8 + QK_K / 16.
Definition sizeof_block_iq1_s_r4 : Z := 24.
Definition sizeof_block_iq1_m : Z := QK_K / 8 + QK_K / 16 + QK_K / 32.
Definition sizeof_block_iq1_m_r4 : Z := 28.
Definition sizeof_block_iq1_bn : Z := 13.
Definition sizeof_block_iq2_bn : Z := QK_IQ2BN / 4.
Definition sizeof_block_iq4_nl : Z := sizeof_ggml_half + QK4_NL / 2.
Definition sizeof_block_iq4_xs : Z := sizeof_ggml_half + 2 + QK_K / 64 + QK_K / 2.
Definition sizeof_block_mxfp4 : Z := 1 + QK_MXFP4 / 2.
Definition sizeof_block_iq4_ks : Z := QK_K / 32 + QK_K / 2.
Definition sizeof_block_iq5_ks : Z := QK_K / 32 + QK_K / 2 + QK_K / 8.
Definition sizeof_block_iq4_kss : Z := QK_K / 8 * 4.
Definition sizeof_block_q8_K : Z := 2 * 4 + QK_K + QK_K / 16 * 2.
Definition sizeof_block_q8_K64 : Z := 4 + 64.
Definition sizeof_block_q8_K128 : Z := 4 + 4 * 2 + 128.
Definition sizeof_block_iq2_k : Z := sizeof_ggml_half + 2 + QK_K / 32 + QK_K / 4.
Definition sizeof_block_iq2_ks : Z := 2 + QK_K / 64 + QK_K / 4.
Definition sizeof_block_iq1_kt : Z := QK_K / 8 + QK_K / 16 + QK_K / 32.
Definition sizeof_block_iq2_kt : Z := QK_K / 4 + QK_K / 64.
Definition sizeof_block_iq3_kt : Z := QK_K / 4 + QK_K / 8 + QK_K / 64.
Definition sizeof_block_iq4_kt : Z := QK_K / 2.
Definition sizeof_block_q1_0_g128 : Z := sizeof_ggml_half + QK1_0_G128 / 8.
Definition sizeof_block_iq3_k : Z := sizeof_ggml_half + 2 * 2 + QK_K / 32 + QK_K / 4 + QK_K / 8.
Definition sizeof_block_iq3_ks : Z := 2 + QK_K / 64 + QK_K / 4 + QK_K / 8.
Definition sizeof_block_iq2_kl : Z := 2 + QK_K / 64 + QK_K / 4 + QK_K / 16.
Definition sizeof_block_iq4_k : Z := sizeof_ggml_half + 2 + QK_K / 2 + 3 * QK_K / 64.
Definition sizeof_block_iq5_k : Z := sizeof_ggml_half + 2 + QK_K / 2 + QK_K / 8 + 3 * QK_K / 64.
Definition sizeof_block_iq6_k : Z := sizeof_ggml_half + 2 + QK_K / 2 + QK_K / 4 + QK_K / 16.

(** ** [enum ggml_type] *)

Definition GGML_TYPE_F32 : Z := 0.
Definition GGML_TYPE_F16 : Z := 1.
Definition GGML_TYPE_Q4_0 : Z := 2.
Definition GGML_TYPE_Q4_1 : Z := 3.
Definition GGML_TYPE_Q5_0 : Z := 6.
Definition GGML_TYPE_Q5_1 : Z := 7.
Definition GGML_TYPE_Q8_0 : Z := 8.
Definition GGML_TYPE_Q8_1 : Z := 9.
Definition GGML_TYPE_Q2_K : Z := 10.
Definition GGML_TYPE_Q3_K : Z := 11.
Definition GGML_TYPE_Q4_K : Z := 12.
Definition GGML_TYPE_Q5_K : Z := 13.
Definition GGML_TYPE_Q6_K : Z := 14.
Definition GGML_TYPE_Q8_K : Z := 15.
Definition GGML_TYPE_IQ2_XXS : Z := 16.
Definition GGML_TYPE_IQ2_XS : Z := 17.
Definition GGML_TYPE_IQ3_XXS : Z := 18.
Definition GGML_TYPE_IQ1_S : Z := 19.
Definition GGML_TYPE_IQ4_NL : Z := 20.
Definition GGML_TYPE_IQ3_S : Z := 21.
Definition GGML_TYPE_IQ2_S : Z := 22.
Definition GGML_TYPE_IQ4_XS : Z := 23.
Definition GGML_TYPE_I8 : Z := 24.
Definition GGML_TYPE_I16 : Z := 25.
Definition GGML_TYPE_I32 : Z := 26.
Definition GGML_TYPE_I64 : Z := 27.
Definition GGML_TYPE_F64 : Z := 28.
Definition GGML_TYPE_IQ1_M : Z := 29.
Definition GGML_TYPE_BF16 : Z := 30.
Definition GGML_TYPE_Q4_0_4_4 : Z := 31.
Definition GGML_TYPE_Q4_0_4_8 : Z := 32.
Definition GGML_TYPE_Q4_0_8_8 : Z := 33.
Definition GGML_TYPE_I2_S : Z := 36.
Definition GGML_TYPE_MXFP4 : Z := 39.
Definition GGML_TYPE_Q1_0_G128 : Z := 41.
Definition GGML_TYPE_Q8_0_X4 : Z := 97.
Definition GGML_TYPE_Q8_1_X4 : Z := 98.
Definition GGML_TYPE_Q8_2_X4 : Z := 99.
Definition GGML_TYPE_Q6_0 : Z := 133.
Definition GGML_TYPE_IQ1_BN : Z := 134.
Definition GGML_TYPE_IQ2_BN : Z := 135.
Definition GGML_TYPE_Q8_K64 : Z := 136.
Definition GGML_TYPE_IQ2_K : Z := 137.
Definition GGML_TYPE_IQ3_K : Z := 138.
Definition GGML_TYPE_IQ4_K : Z := 139.
Definition GGML_TYPE_IQ5_K : Z := 140.
Definition GGML_TYPE_IQ6_K : Z := 141.
Definition GGML_TYPE_IQ4_KS : Z := 144.
Definition GGML_TYPE_IQ2_KS : Z := 145.
Definition GGML_TYPE_IQ4_KSS : Z := 146.
Definition GGML_TYPE_Q8_K16 : Z := 147.
Definition GGML_TYPE_Q8_K32 : Z := 148.
Definition GGML_TYPE_Q8_KR8 : Z := 149.
Definition GGML_TYPE_Q8_K128 : Z := 150.
Definition GGML_TYPE_Q8_KV : Z := 151.
Definition GGML_TYPE_IQ5_KS : Z := 152.
Definition GGML_TYPE_IQ2_KT : Z := 153.
Definition GGML_TYPE_IQ3_KT : Z := 154.
Definition GGML_TYPE_IQ4_KT : Z := 155.
Definition GGML_TYPE_IQ3_KS : Z := 156.
Definition GGML_TYPE_IQ2_KL : Z := 157.
Definition GGML_TYPE_IQ1_KT : Z := 158.
Definition GGML_TYPE_Q4_0_R8 : Z := 202.
Definition GGML_TYPE_Q5_0_R4 : Z := 206.
Definition GGML_TYPE_Q8_0_R8 : Z := 208.
Definition GGML_TYPE_Q2_K_R4 : Z := 210.
Definition GGML_TYPE_Q3_K_R4 : Z := 211.
Definition GGML_TYPE_Q4_K_R4 : Z := 212.
Definition GGML_TYPE_Q5_K_R4 : Z := 213.
Definition GGML_TYPE_Q6_K_R4 : Z := 214.
Definition GGML_TYPE_IQ2_XXS_R4 : Z := 216.
Definition GGML_TYPE_IQ2_XS_R4 : Z := 217.
Definition GGML_TYPE_IQ3_XXS_R4 : Z := 218.
Definition GGML_TYPE_IQ1_S_R4 : Z := 219.
Definition GGML_TYPE_IQ4_NL_R4 : Z := 220.
Definition GGML_TYPE_IQ3_S_R4 : Z := 221.
Definition GGML_TYPE_IQ2_S_R4 : Z := 222.
Definition GGML_TYPE_IQ4_XS_R8 : Z := 223.
Definition GGML_TYPE_IQ1_M_R4 : Z := 229.
Definition GGML_TYPE_BF16_R16 : Z := 230.
Definition GGML_TYPE_Q6_0_R4 : Z := 233.
Definition GGML_TYPE_IQ2_BN_R4 : Z := 335.
Definition GGML_TYPE_IQ2_K_R4 : Z := 337.
Definition GGML_TYPE_IQ3_K_R4 : Z := 338.
Definition GGML_TYPE_IQ4_K_R4 : Z := 339.
Definition GGML_TYPE_IQ5_K_R4 : Z := 340.
Definition GGML_TYPE_IQ4_KS_R4 : Z := 344.
Definition GGML_TYPE_IQ5_KS_R4 : Z := 352.
Definition GGML_TYPE_MXFP4_R8 : Z := 353.
Definition GGML_TYPE_Q8_K_R16 : Z := 397.
Definition GGML_TYPE_Q8_KV_R8 : Z := 398.
Definition GGML_TYPE_Q8_K_R8 : Z := 399.
Definition GGML_TYPE_COUNT : Z := 400.

(** ** The table *)

(** [ggml_type_traits_t] *)
Record ggml_type_traits : Type := mk_traits {
  type_name            : string;
  blck_size            : Z;
  blck_size_interleave : Z;
  type_size            : Z;
  is_quantized         : bool;
  row_meta_size        : Z;
}.

(** An entry of the initialiser: [\[type\] = { ... }]. *)
Definition entry (type : Z) (name : string) (blck interleave size : Z) (quantized : bool) (meta : Z)
    : Z * ggml_type_traits := (type, mk_traits name blck interleave size quantized meta).

Definition type_traits_1 : list (Z * ggml_type_traits) :=
  [ entry GGML_TYPE_I8 "i8" 1 0 1 false 0;
    entry GGML_TYPE_I16 "i16" 1 0 2 false 0;
    entry GGML_TYPE_I32 "i32" 1 0 4 false 0;
    entry GGML_TYPE_I64 "i64" 1 0 8 false 0;
    entry GGML_TYPE_F64 "f64" 1 0 8 false 0;
    entry GGML_TYPE_F32 "f32" 1 0 4 false 0;
    entry GGML_TYPE_F16 "f16" 1 0 2 false 0;
    entry GGML_TYPE_Q4_0 "q4_0" QK4_0 0 sizeof_block_q4_0 true 0;
    entry GGML_TYPE_Q4_1 "q4_1" QK4_1 0 sizeof_block_q4_1 true 0;
    entry 4 "DEPRECATED" 0 0 0 false 0;
    entry 5 "DEPRECATED" 0 0 0 false 0 ].
Definition type_traits_2 : list (Z * ggml_type_traits) :=
  [ entry GGML_TYPE_Q5_0 "q5_0" QK5_0 0 sizeof_block_q5_0 true 0;
    entry GGML_TYPE_Q5_1 "q5_1" QK5_1 0 sizeof_block_q5_1 true 0;
    entry GGML_TYPE_Q6_0 "q6_0" QK6_0 0 sizeof_block_q6_0 true 0;
    entry GGML_TYPE_Q8_0 "q8_0" QK8_0 0 sizeof_block_q8_0 true 0;
    entry GGML_TYPE_Q8_1 "q8_1" QK8_1 0 sizeof_block_q8_1 true 0;
    entry GGML_TYPE_Q8_0_X4 "q8_0_x4" QK8_0 0 sizeof_block_q8_0 true 0;
    entry GGML_TYPE_Q8_1_X4 "q8_1_x4" QK8_1 0 sizeof_block_q8_1 true 0;
    entry GGML_TYPE_Q8_2_X4 "q8_2_x4" QK8_2 0 sizeof_block_q8_2 true 0;
    entry GGML_TYPE_Q2_K "q2_K" QK_K 0 sizeof_block_q2_K true 0 ].
Definition type_traits_3 : list (Z * ggml_type_traits) :=
  [ entry GGML_TYPE_Q2_K_R4 "q2_k_r4" QK_K 0 sizeof_block_q2_K true 0;
    entry GGML_TYPE_Q3_K "q3_K" QK_K 0 sizeof_block_q3_K true 0;
    entry GGML_TYPE_Q3_K_R4 "q3_k_r4" QK_K 0 sizeof_block_q3_K true 0;
    entry GGML_TYPE_Q4_K "q4_K" QK_K 0 sizeof_block_q4_K true 0;
    entry GGML_TYPE_Q4_K_R4 "q4_k_r4" QK_K 0 sizeof_block_q4_K true 0;
    entry GGML_TYPE_Q5_K "q5_K" QK_K 0 sizeof_block_q5_K true 0;
    entry GGML_TYPE_Q5_K_R4 "q5_k_r4" QK_K 0 sizeof_block_q5_K true 0;
    entry GGML_TYPE_Q6_K "q6_K" QK_K 0 sizeof_block_q6_K true 0;
    entry GGML_TYPE_Q6_K_R4 "q6_k_r4" QK_K 0 sizeof_block_q6_K true 0;
    entry GGML_TYPE_Q8_K_R8 "q8_k_r8" QK_K 0 (sizeof_block_q8_k_r8 / 8) true 0 ].
Definition type_traits_4 : list (Z * ggml_type_traits) :=
  [ entry GGML_TYPE_Q8_K_R16 "q8_k_r16" QK_K 0 (sizeof_block_q8_k_r16 / 16) true 0;
    entry GGML_TYPE_IQ2_XXS "iq2_xxs" QK_K 0 sizeof_block_iq2_xxs true 0;
    entry GGML_TYPE_IQ2_XXS_R4 "iq2_xxs_r4" QK_K 0 sizeof_block_iq2_xxs true 0;
    entry GGML_TYPE_IQ2_XS "iq2_xs" QK_K 0 sizeof_block_iq2_xs true 0;
    entry GGML_TYPE_IQ2_XS_R4 "iq2_xs_r4" QK_K 0 sizeof_block_iq2_xs true 0;
    entry GGML_TYPE_IQ3_XXS "iq3_xxs" QK_K 0 sizeof_block_iq3_xxs true 0;
    entry GGML_TYPE_IQ3_XXS_R4 "iq3_xxs_r4" QK_K 0 sizeof_block_iq3_xxs true 0;
    entry GGML_TYPE_IQ3_S "iq3_s" QK_K 0 sizeof_block_iq3_s true 0;
    entry GGML_TYPE_IQ3_S_R4 "iq3_s_r4" QK_K 0 sizeof_block_iq3_s true 0;
    entry GGML_TYPE_IQ2_S "iq2_s" QK_K 0 sizeof_block_iq2_s true 0;
    entry GGML_TYPE_IQ2_S_R4 "iq2_s_r4" QK_K 0 sizeof_block_iq2_s true 0 ].
Definition type_traits_5 : list (Z * ggml_type_traits) :=
  [ entry GGML_TYPE_IQ1_S "iq1_s" QK_K 0 sizeof_block_iq1_s true 0;
    entry GGML_TYPE_IQ1_S_R4 "iq1_s_r4" 32 0 (sizeof_block_iq1_s_r4 / 4) true 2;
    entry GGML_TYPE_IQ1_M "iq1_m" QK_K 0 sizeof_block_iq1_m true 0;
    entry GGML_TYPE_IQ1_M_R4 "iq1_m_r4" 32 0 (sizeof_block_iq1_m_r4 / 4) true 2;
    entry GGML_TYPE_IQ1_BN "iq1_bn" QK_IQ1BN 0 sizeof_block_iq1_bn true 2;
    entry GGML_TYPE_IQ2_BN "iq2_bn" QK_IQ1BN 0 sizeof_block_iq2_bn true 4;
    entry GGML_TYPE_IQ2_BN_R4 "iq2_bn_r4" QK_IQ1BN 0 sizeof_block_iq2_bn true 4;
    entry GGML_TYPE_IQ4_NL "iq4_nl" QK4_NL 0 sizeof_block_iq4_nl true 0;
    entry GGML_TYPE_IQ4_XS "iq4_xs" QK_K 0 sizeof_block_iq4_xs true 0;
    entry GGML_TYPE_MXFP4 "mxfp4" QK_MXFP4 0 sizeof_block_mxfp4 true 0 ].
Definition type_traits_6 : list (Z * ggml_type_traits) :=
  [ entry GGML_TYPE_MXFP4_R8 "mxfp4_r8" QK_MXFP4 0 sizeof_block_mxfp4 true 0;
    entry GGML_TYPE_IQ4_KS "iq4_ks" QK_K 0 sizeof_block_iq4_ks true 4;
    entry GGML_TYPE_IQ4_KS_R4 "iq4_ks_r4" QK_K 0 sizeof_block_iq4_ks true 4;
    entry GGML_TYPE_IQ5_KS_R4 "iq5_ks_r4" QK_K 0 sizeof_block_iq5_ks true 4;
    entry GGML_TYPE_IQ4_KSS "iq4_kss" QK_K 0 sizeof_block_iq4_kss true 4;
    entry GGML_TYPE_IQ5_KS "iq5_ks" QK_K 0 sizeof_block_iq5_ks true 4;
    entry GGML_TYPE_Q8_K "q8_K" QK_K 0 sizeof_block_q8_K true 0;
    entry GGML_TYPE_Q8_K64 "q8_K64" 64 0 sizeof_block_q8_K64 true 0;
    entry GGML_TYPE_Q8_K128 "q8_K128" 128 0 sizeof_block_q8_K128 true 0;
    entry GGML_TYPE_Q8_KV "q8_KV" 32 0 32 true 8;
    entry GGML_TYPE_Q8_KV_R8 "q8_KV_r8" 32 0 32 true 4;
    entry GGML_TYPE_Q8_K16 "q8_K16" 64 0 64 true 20 ].
Definition type_traits_7 : list (Z * ggml_type_traits) :=
  [ entry GGML_TYPE_Q8_K32 "q8_K32" QK_K 0 sizeof_block_q8_K true 0;
    entry GGML_TYPE_Q8_KR8 "q8_KR8" QK_K 0 sizeof_block_q8_K true 0;
    entry GGML_TYPE_BF16 "bf16" 1 0 2 false 0;
    entry GGML_TYPE_BF16_R16 "bf16_r16" 1 0 2 false 0;
    entry GGML_TYPE_Q4_0_4_4 "q4_0_4x4" QK4_0 4 sizeof_block_q4_0 true 0;
    entry GGML_TYPE_Q4_0_4_8 "q4_0_4x8" QK4_0 8 sizeof_block_q4_0 true 0;
    entry GGML_TYPE_Q4_0_8_8 "q4_0_8x8" QK4_0 8 sizeof_block_q4_0 true 0;
    entry GGML_TYPE_IQ2_K "iq2_k" QK_K 0 sizeof_block_iq2_k true 0;
    entry GGML_TYPE_IQ2_K_R4 "iq2_k_r4" QK_K 0 sizeof_block_iq2_k true 0;
    entry GGML_TYPE_IQ2_KS "iq2_ks" QK_K 0 sizeof_block_iq2_ks true 2;
    entry GGML_TYPE_IQ1_KT "iq1_kt" QK_K 0 sizeof_block_iq1_kt true 4 ].
Definition type_traits_8 : list (Z * ggml_type_traits) :=
  [ entry GGML_TYPE_IQ2_KT "iq2_kt" QK_K 0 sizeof_block_iq2_kt true 4;
    entry GGML_TYPE_IQ3_KT "iq3_kt" QK_K 0 sizeof_block_iq3_kt true 4;
    entry GGML_TYPE_IQ4_KT "iq4_kt" QK_K 0 sizeof_block_iq4_kt true 4;
    entry GGML_TYPE_Q1_0_G128 "q1_0_g128" QK1_0_G128 0 sizeof_block_q1_0_g128 true 0;
    entry GGML_TYPE_IQ3_K "iq3_k" QK_K 0 sizeof_block_iq3_k true 0;
    entry GGML_TYPE_IQ3_KS "iq3_ks" QK_K 0 sizeof_block_iq3_ks true 2;
    entry GGML_TYPE_IQ2_KL "iq2_kl" QK_K 0 sizeof_block_iq2_kl true 2;
    entry GGML_TYPE_IQ4_K "iq4_k" QK_K 0 sizeof_block_iq4_k true 0;
    entry GGML_TYPE_IQ4_K_R4 "iq4_k_r4" QK_K 0 sizeof_block_iq4_k true 0 ].
Definition type_traits_9 : list (Z * ggml_type_traits) :=
  [ entry GGML_TYPE_IQ3_K_R4 "iq3_k_r4" QK_K 0 sizeof_block_iq3_k true 0;
    entry GGML_TYPE_IQ5_K "iq5_k" QK_K 0 sizeof_block_iq5_k true 0;
    entry GGML_TYPE_IQ5_K_R4 "iq5_k_r4" QK_K 0 sizeof_block_iq5_k true 0;
    entry GGML_TYPE_IQ6_K "iq6_k" QK_K 0 sizeof_block_iq6_k true 0;
    entry GGML_TYPE_IQ4_NL_R4 "iq4_nl_r4" QK4_NL 0 sizeof_block_iq4_nl true 0;
    entry GGML_TYPE_IQ4_XS_R8 "iq4_xs_r8" QK_K 0 sizeof_block_iq4_xs true 0;
    entry GGML_TYPE_Q4_0_R8 "q4_0_r8" QK4_NL 0 sizeof_block_iq4_nl true 0;
    entry GGML_TYPE_Q8_0_R8 "q8_0_r8" QK8_0 0 sizeof_block_q8_0 true 0 ].
Definition type_traits_10 : list (Z * ggml_type_traits) :=
  [ entry GGML_TYPE_Q5_0_R4 "q5_0_r4" QK5_0 0 sizeof_block_q5_0 true 0;
    entry GGML_TYPE_Q6_0_R4 "q6_0_r4" QK6_0 0 sizeof_block_q6_0 true 0;
    entry GGML_TYPE_I2_S "i2_s" 1 0 1 true 0 ].

Definition type_traits_entries : list (Z * ggml_type_traits) :=
  type_traits_1 ++ type_traits_2 ++ type_traits_3 ++ type_traits_4 ++ type_traits_5 ++ type_traits_6 ++ type_traits_7 ++ type_traits_8 ++ type_traits_9 ++ type_traits_10.

(** [type_traits\[type\]]: an array of [GGML_TYPE_COUNT] entries; those without an
    initialiser are zero. *)
Definition type_traits (type : Z) : res ggml_type_traits :=
  if (0 <=? type) && (type <? GGML_TYPE_COUNT) then
    match list_find (λ e, bool_decide (e.1 = type)) type_traits_entries with
    | Some (_, e) => Ok e.2
    | None => Ok (mk_traits "" 0 0 0 false 0)
    end
  else Err Oob.

Definition ggml_blck_size (type : Z) : res Z := tr ← type_traits type; Ok (blck_size tr).
Definition ggml_type_size (type : Z) : res Z := tr ← type_traits type; Ok (type_size tr).
Definition ggml_is_quantized (type : Z) : res bool := tr ← type_traits type; Ok (is_quantized tr).

(** ** Types with elements *)

(** What the table says about a type that tensors can have. *)
Definition traits_ok (tr : ggml_type_traits) : bool :=
  (1 <=? blck_size tr) && (blck_size tr <=? 256) && (1 <=? type_size tr) && (type_size tr <=? 1024)
  && (0 <=? row_meta_size tr) && (row_meta_size tr <=? 64).

(** The types of the removed formats, and numbers without an entry, have no elements. *)
Definition has_elements (type : Z) : bool :=
  match type_traits type with Ok tr => negb (blck_size tr =? 0) | Err _ => false end.

Lemma entries_ok : forallb (λ e, (blck_size e.2 =? 0) || traits_ok e.2) type_traits_entries = true.
Proof. vm_compute. reflexivity. Qed.

Lemma has_elements_traits type : has_elements type = true →
  ∃ tr, type_traits type = Ok tr ∧ 1 ≤ blck_size tr ≤ 256 ∧ 1 ≤ type_size tr ≤ 1024 ∧ 0 ≤ row_meta_size tr ≤ 64.
Proof.
  unfold has_elements, type_traits. destruct (_ && _); [|done].
  destruct (list_find _ _) as [[i e]|] eqn:Hf; [|done]. intros Hb. exists e.2. split; [done|].
  apply list_find_Some in Hf as (Hi & _ & _). apply list_elem_of_lookup_2 in Hi.
  pose proof entries_ok as Hall. rewrite forallb_forall in Hall. specialize (Hall e). rewrite <- list_elem_of_In in Hall.
  specialize (Hall Hi). apply negb_true_iff in Hb. rewrite Hb in Hall. cbn [orb] in Hall.
  unfold traits_ok in Hall. rewrite !andb_true_iff, !Z.leb_le in Hall. lia.
Qed.
