(* ===== verification/TensorLayout.v ===== *)
(** * Layouts of tensors (ggml/src/ggml.c)

    A tensor has four dimensions: [ne] elements and a stride of [nb] bytes in each.
    This file models the queries on shapes and strides and shows what the test
    [ggml_is_contiguous] means for the places of the elements.  Sizes are [size_t]
    and numbers of elements are [int64_t]; the products are taken with their
    wrap-around (signed overflow, which is undefined, is wrapped too: no theorem
    uses it).  The debug-only [assert] on divisibility in [ggml_row_size] is left
    out, as in a release build. *)
From S2P Require Import Prelude DynAlloc HashSet Graph TensorTypes.

(** ** Sizes *)

Definition GGML_MAX_DIMS : nat := 4.
Definition GGML_MEM_ALIGN : Z := 16.

Abbreviation dims := [0; 1; 2; 3]%nat.

Definition ne (t : ggml_tensor) (i : nat) : Z := t_ne t !!! i.
Definition nb (t : ggml_tensor) (i : nat) : Z := t_nb t !!! i.

Definition ggml_nelements (t : ggml_tensor) : Z := i64 (i64 (i64 (ne t 0 * ne t 1) * ne t 2) * ne t 3).
Definition ggml_nrows (t : ggml_tensor) : Z := i64 (i64 (ne t 1 * ne t 2) * ne t 3).

(** A division by zero, for types without elements, is undefined. *)
Definition ggml_row_size (type n : Z) : res Z :=
  tr ← type_traits type;
  if blck_size tr =? 0 then Err Oob
  else Ok (u64 (row_meta_size tr + u64 (type_size tr * n) / blck_size tr)).

Definition ggml_element_size (t : ggml_tensor) : res Z := ggml_type_size (t_type t).

(** [(tensor->ne\[i\] - 1)*tensor->nb\[i\]] *)
Definition extent (t : ggml_tensor) (i : nat) : Z := u64 ((ne t i - 1) * nb t i).

Definition add_extents (t : ggml_tensor) (from : Z) (ds : list nat) : Z :=
  foldl (λ nbytes i, u64 (nbytes + extent t i)) from ds.

Definition ggml_nbytes (t : ggml_tensor) : res Z :=
  if existsb (λ i, ne t i <=? 0) dims then Ok 0
  else
    blck ← ggml_blck_size (t_type t);
    if blck =? 1 then
      size ← ggml_type_size (t_type t);
      let nbytes := add_extents t size dims in
      Ok (if t_type t =? GGML_TYPE_I2_S then u64 (nbytes / 4 + 32) else nbytes)
    else
      size ← ggml_row_size (t_type t) (ne t 0);
      Ok (add_extents t size [1; 2; 3]%nat).

Definition ggml_nbytes_pad (t : ggml_tensor) : res Z :=
  nbytes ← ggml_nbytes t; Ok (GGML_PAD nbytes GGML_MEM_ALIGN).

(** ** Shapes *)

Definition ggml_is_scalar (t : ggml_tensor) : bool :=
  (ne t 0 =? 1) && (ne t 1 =? 1) && (ne t 2 =? 1) && (ne t 3 =? 1).
Definition ggml_is_vector (t : ggml_tensor) : bool := (ne t 1 =? 1) && (ne t 2 =? 1) && (ne t 3 =? 1).
Definition ggml_is_matrix (t : ggml_tensor) : bool := (ne t 2 =? 1) && (ne t 3 =? 1).
Definition ggml_is_3d (t : ggml_tensor) : bool := ne t 3 =? 1.

(** [for (int i = GGML_MAX_DIMS - 1; i >= 1; --i)] *)
Fixpoint n_dims_loop (t : ggml_tensor) (i : nat) : Z :=
  match i with
  | O => 1
  | S j => if 1 <? ne t i then Z.of_nat i + 1 else n_dims_loop t j
  end.
Definition ggml_n_dims (t : ggml_tensor) : Z := n_dims_loop t (GGML_MAX_DIMS - 1).

Definition ggml_is_empty (t : ggml_tensor) : bool := existsb (λ i, ne t i =? 0) dims.

Definition is_noop_op (op : ggml_op) : bool :=
  match op with
  | GGML_OP_NONE | GGML_OP_RESHAPE | GGML_OP_VIEW | GGML_OP_PERMUTE | GGML_OP_TRANSPOSE => true
  | _ => false
  end.
Definition ggml_is_noop (t : ggml_tensor) : bool := is_noop_op (t_op t) || ggml_is_empty t.

Definition ggml_are_same_shape (t0 t1 : ggml_tensor) : bool := forallb (λ i, ne t0 i =? ne t1 i) dims.
Definition ggml_are_same_stride (t0 t1 : ggml_tensor) : bool := forallb (λ i, nb t0 i =? nb t1 i) dims.

(** [a % b == 0]; a remainder by zero is undefined. *)
Definition divides (b a : Z) : res bool := if b =? 0 then Err Oob else Ok (Z.rem a b =? 0).

(** [&&] between conditions that can be undefined. *)
Definition and_then (a : res bool) (b : res bool) : res bool := x ← a; if x : bool then b else Ok false.

Definition ggml_can_mul_mat (t0 t1 : ggml_tensor) : res bool :=
  and_then (Ok (ne t0 0 =? ne t1 0)) (and_then (divides (ne t0 2) (ne t1 2)) (divides (ne t0 3) (ne t1 3))).
Definition ggml_can_out_prod (t0 t1 : ggml_tensor) : res bool :=
  and_then (Ok (ne t0 1 =? ne t1 1)) (and_then (divides (ne t0 2) (ne t1 2)) (divides (ne t0 3) (ne t1 3))).
Definition ggml_can_repeat (t0 t1 : ggml_tensor) : res bool :=
  if ggml_is_empty t0 then Ok (ggml_is_empty t1)
  else and_then (divides (ne t0 0) (ne t1 0)) (and_then (divides (ne t0 1) (ne t1 1))
         (and_then (divides (ne t0 2) (ne t1 2)) (divides (ne t0 3) (ne t1 3)))).
Definition ggml_can_repeat_rows (t0 t1 : ggml_tensor) : res bool :=
  and_then (Ok (ne t0 0 =? ne t1 0)) (ggml_can_repeat t0 t1).

(** ** Strides *)

Definition ggml_is_transposed (t : ggml_tensor) : bool := nb t 1 <? nb t 0.
Definition ggml_is_permuted (t : ggml_tensor) : bool :=
  (nb t 1 <? nb t 0) || (nb t 2 <? nb t 1) || (nb t 3 <? nb t 2).

(** [for (int i = 1; i < GGML_MAX_DIMS; i++)] *)
Fixpoint contiguous_loop (t : ggml_tensor) (n : nat) (ds : list nat) (next_nb : Z) : bool :=
  match ds with
  | [] => true
  | i :: ds =>
      if ne t i =? 1 then contiguous_loop t n ds next_nb
      else if (n <? i)%nat then
        if nb t i =? next_nb then contiguous_loop t n ds (u64 (next_nb * ne t i)) else false
      else contiguous_loop t n ds (u64 (ne t i * nb t i))
  end.

Definition ggml_is_contiguous_n (t : ggml_tensor) (n : nat) : res bool :=
  size ← ggml_type_size (t_type t);
  blck ← ggml_blck_size (t_type t);
  if negb (ne t 0 =? blck) && negb (nb t 0 =? size) then Ok false
  else
    row ← ggml_row_size (t_type t) (ne t 0);
    Ok (contiguous_loop t n [1; 2; 3]%nat row).

Definition ggml_is_contiguous_0 (t : ggml_tensor) : res bool := ggml_is_contiguous_n t 0.
Definition ggml_is_contiguous_1 (t : ggml_tensor) : res bool := ggml_is_contiguous_n t 1.
Definition ggml_is_contiguous_2 (t : ggml_tensor) : res bool := ggml_is_contiguous_n t 2.
Definition ggml_is_contiguous (t : ggml_tensor) : res bool := ggml_is_contiguous_0 t.

Definition ggml_is_contiguously_allocated (t : ggml_tensor) : res bool :=
  nbytes ← ggml_nbytes t; row ← ggml_row_size (t_type t) (ne t 0); Ok (nbytes =? u64 (ggml_nrows t * row)).

Definition ggml_is_contiguous_channels (t : ggml_tensor) : res bool :=
  size ← ggml_type_size (t_type t);
  Ok ((nb t 2 <? nb t 0) && (nb t 0 <? nb t 1) && (nb t 2 =? size)).

Definition ggml_is_contiguous_rows (t : ggml_tensor) : res bool :=
  blck ← ggml_blck_size (t_type t); size ← ggml_type_size (t_type t);
  Ok ((ne t 0 =? blck) || (nb t 0 =? size)).

Definition ggml_is_padded_1d (t : ggml_tensor) : res bool :=
  size ← ggml_type_size (t_type t);
  Ok ((nb t 0 =? size) && (nb t 2 =? u64 (nb t 1 * ne t 1)) && (nb t 3 =? u64 (nb t 2 * ne t 2))).

(** ** Access to single elements *)

(** [int64_t] division, which truncates; by zero it is undefined. *)
Definition quot_ (a b : Z) : res Z := if b =? 0 then Err Oob else Ok (i64 (Z.quot a b)).

(** The indices [i0], [i1], [i2], [i3] of the element number [i]. *)
Definition ggml_unravel_index (t : ggml_tensor) (i : Z) : res (Z * Z * Z * Z) :=
  let ne0 := ne t 0 in let ne1 := ne t 1 in let ne2 := ne t 2 in
  i3 ← quot_ i (i64 (i64 (ne2 * ne1) * ne0));
  let r3 := i64 (i - i64 (i64 (i64 (i3 * ne2) * ne1) * ne0)) in
  i2 ← quot_ r3 (i64 (ne1 * ne0));
  let r2 := i64 (r3 - i64 (i64 (i2 * ne1) * ne0)) in
  i1 ← quot_ r2 ne0;
  Ok (i64 (r2 - i64 (i1 * ne0)), i1, i2, i3).

(** The address in [ggml_get_i32_nd]; the indices are [int]. *)
Definition nd_address (t : ggml_tensor) (i0 i1 i2 i3 : Z) : Z :=
  u64 (t_data t + u64 (i0 * nb t 0) + u64 (i1 * nb t 1) + u64 (i2 * nb t 2) + u64 (i3 * nb t 3)).

(** The size of the elements of the types that can be read one by one. *)
Definition scalar_size (type : Z) : res Z :=
  if type =? GGML_TYPE_I8 then Ok 1
  else if type =? GGML_TYPE_I16 then Ok 2
  else if type =? GGML_TYPE_I32 then Ok 4
  else if type =? GGML_TYPE_F16 then Ok 2
  else if type =? GGML_TYPE_BF16 then Ok 2
  else if type =? GGML_TYPE_F32 then Ok 4
  else Err Abort.

(** The address that [ggml_get_i32_nd], [ggml_set_i32_nd], [ggml_get_f32_nd] and
    [ggml_set_f32_nd] access. *)
Definition access_nd (t : ggml_tensor) (i0 i1 i2 i3 : Z) : res Z :=
  _ ← scalar_size (t_type t); Ok (nd_address t (i32 i0) (i32 i1) (i32 i2) (i32 i3)).

(** The address that the accessors by number reach; those of [int32_t] also test
    the first stride. *)
Definition access_1d (checked : bool) (t : ggml_tensor) (i : Z) : res Z :=
  contiguous ← ggml_is_contiguous t;
  if contiguous : bool then
    size ← scalar_size (t_type t);
    _ ← ggml_assert (negb checked || (nb t 0 =? size));
    Ok (u64 (t_data t + size * i))
  else
    '(i0, i1, i2, i3) ← ggml_unravel_index t i;
    access_nd t i0 i1 i2 i3.

(** [ggml_get_i32_1d], [ggml_set_i32_1d] *)
Definition access_i32_1d : ggml_tensor → Z → res Z := access_1d true.
(** [ggml_get_f32_1d], [ggml_set_f32_1d] *)
Definition access_f32_1d : ggml_tensor → Z → res Z := access_1d false.

(** ** Valid layouts

    [valid t tr]: the type of [t] has the traits [tr] and elements; no dimension is
    empty, rows consist of whole blocks, and the size of all elements is a
    [size_t]. *)

Definition row_bytes (tr : ggml_type_traits) (t : ggml_tensor) : Z :=
  row_meta_size tr + type_size tr * (ne t 0 / blck_size tr).

Record valid (t : ggml_tensor) (tr : ggml_type_traits) : Prop := {
  valid_traits : type_traits (t_type t) = Ok tr;
  valid_elements : has_elements (t_type t) = true;
  valid_dims : Forall (λ i, 1 ≤ ne t i) dims;
  valid_blocks : (blck_size tr | ne t 0);
  valid_row : type_size tr * ne t 0 < 2 ^ 64;
  valid_size : row_bytes tr t * (ne t 1 * ne t 2 * ne t 3) < 2 ^ 63;
}.

(** Where block [b] of row [(i1, i2, i3)] begins, from the beginning of the data. *)
Definition block_offset (t : ggml_tensor) (b i1 i2 i3 : Z) : Z :=
  b * nb t 0 + i1 * nb t 1 + i2 * nb t 2 + i3 * nb t 3.

(** Blocks [b] and rows [(i1, i2, i3)] of the tensor. *)
Definition in_shape (t : ggml_tensor) (blocks b i1 i2 i3 : Z) : Prop :=
  0 ≤ b < blocks ∧ 0 ≤ i1 < ne t 1 ∧ 0 ≤ i2 < ne t 2 ∧ 0 ≤ i3 < ne t 3.

(** The rows are the distance [stride] apart, one behind the other, and the blocks of a row
    follow each other. *)
Definition rows_at (t : ggml_tensor) (tr : ggml_type_traits) (stride : Z) : Prop :=
  ∀ b i1 i2 i3, in_shape t (ne t 0 / blck_size tr) b i1 i2 i3 →
    block_offset t b i1 i2 i3 = b * type_size tr + ((i3 * ne t 2 + i2) * ne t 1 + i1) * stride.

(** [rows_at] in terms of the strides. *)
Definition strides_at (t : ggml_tensor) (tr : ggml_type_traits) (stride : Z) : Prop :=
  (ne t 0 = blck_size tr ∨ nb t 0 = type_size tr) ∧ (ne t 1 = 1 ∨ nb t 1 = stride) ∧
  (ne t 2 = 1 ∨ nb t 2 = ne t 1 * stride) ∧ (ne t 3 = 1 ∨ nb t 3 = ne t 2 * ne t 1 * stride).

Section valid.
Context (t : ggml_tensor) (tr : ggml_type_traits) (V : valid t tr).

Lemma valid_pos : 1 ≤ ne t 0 ∧ 1 ≤ ne t 1 ∧ 1 ≤ ne t 2 ∧ 1 ≤ ne t 3.
Proof using V. pose proof (valid_dims _ _ V) as H. rewrite !Forall_cons in H. tauto. Qed.

Lemma valid_bounds : 1 ≤ blck_size tr ≤ 256 ∧ 1 ≤ type_size tr ≤ 1024 ∧ 0 ≤ row_meta_size tr ≤ 64.
Proof using V.
  destruct (has_elements_traits _ (valid_elements _ _ V)) as (tr' & Htr & H).
  rewrite (valid_traits _ _ V) in Htr. by injection Htr as <-.
Qed.

Lemma valid_nblocks : 1 ≤ ne t 0 / blck_size tr ∧ ne t 0 = blck_size tr * (ne t 0 / blck_size tr).
Proof using V.
  destruct (valid_blocks _ _ V) as [k Hk]. pose proof valid_pos. pose proof valid_bounds.
  rewrite Hk, Z.div_mul by lia. split; nia.
Qed.

Lemma row_bytes_pos : 1 ≤ row_bytes tr t.
Proof using V. unfold row_bytes. pose proof valid_nblocks. pose proof valid_bounds. nia. Qed.

Lemma valid_fits a b c : 0 ≤ a ≤ ne t 1 → 0 ≤ b ≤ ne t 2 → 0 ≤ c ≤ ne t 3 → 0 ≤ row_bytes tr t * (a * b * c) < 2 ^ 63.
Proof using V.
  intros. pose proof row_bytes_pos. pose proof (valid_size _ _ V). pose proof valid_pos.
  assert (a * b * c ≤ ne t 1 * ne t 2 * ne t 3) by (apply Z.mul_le_mono_nonneg; [nia|apply Z.mul_le_mono_nonneg; lia|lia..]).
  split; [|nia]. assert (0 ≤ a * b * c) by nia. nia.
Qed.

Lemma blck_size_ok : ggml_blck_size (t_type t) = Ok (blck_size tr).
Proof using V. unfold ggml_blck_size. by rewrite (valid_traits _ _ V). Qed.
Lemma type_size_ok : ggml_type_size (t_type t) = Ok (type_size tr).
Proof using V. unfold ggml_type_size. by rewrite (valid_traits _ _ V). Qed.

Lemma row_size_ok : ggml_row_size (t_type t) (ne t 0) = Ok (row_bytes tr t).
Proof using V.
  unfold ggml_row_size. rewrite (valid_traits _ _ V). cbn [mbind res_bind].
  pose proof valid_pos. pose proof valid_bounds. destruct valid_nblocks as [Hn Heq]. pose proof (valid_row _ _ V).
  destruct (Z.eqb_spec (blck_size tr) 0); [lia|]. do 2 f_equal. unfold row_bytes.
  rewrite (u64_small (_ * _)) by nia. rewrite Heq at 1. rewrite (Z.mul_comm (blck_size tr)), Z.mul_assoc, Z.div_mul by lia.
  apply u64_small. pose proof (valid_fits 1 1 1). unfold row_bytes in *. nia.
Qed.

Lemma rows_at_strides stride : rows_at t tr stride ↔ strides_at t tr stride.
Proof using V.
  pose proof valid_pos as Hp. pose proof valid_bounds as Hb. destruct valid_nblocks as [Hn Heq].
  assert (Hblk : ne t 0 = blck_size tr ↔ ne t 0 / blck_size tr = 1) by nia.
  unfold rows_at, strides_at, in_shape, block_offset. rewrite Hblk. split.
  - intros H. split_and!.
    + destruct (decide (ne t 0 / blck_size tr = 1)); [by left|]. right. specialize (H 1 0 0 0). lia.
    + destruct (decide (ne t 1 = 1)); [by left|]. right. specialize (H 0 1 0 0). lia.
    + destruct (decide (ne t 2 = 1)); [by left|]. right. specialize (H 0 0 1 0). lia.
    + destruct (decide (ne t 3 = 1)); [by left|]. right. specialize (H 0 0 0 1). lia.
  - intros (H0 & H1 & H2 & H3) b i1 i2 i3 (Hb0 & Hb1 & Hb2 & Hb3).
    assert (b * nb t 0 = b * type_size tr) as -> by (destruct H0 as [H0| ->]; [assert (b = 0) by lia; by subst|done]).
    assert (i1 * nb t 1 = i1 * stride) as -> by (destruct H1 as [H1| ->]; [assert (i1 = 0) by lia; by subst|done]).
    assert (i2 * nb t 2 = i2 * (ne t 1 * stride)) as -> by (destruct H2 as [H2| ->]; [assert (i2 = 0) by lia; by subst|done]).
    assert (i3 * nb t 3 = i3 * (ne t 2 * ne t 1 * stride)) as -> by (destruct H3 as [H3| ->]; [assert (i3 = 0) by lia; by subst|done]).
    ring.
Qed.
End valid.

(** The distance of the rows: fixed by the type, or free when the first dimension
    need not be contiguous. *)
Definition row_stride (n : nat) (t : ggml_tensor) (tr : ggml_type_traits) : Z :=
  if (n =? 0)%nat || (ne t 1 =? 1) then row_bytes tr t else nb t 1.

Lemma contiguous_loop_cons t n i ds next : (n < i)%nat → 0 ≤ next < 2 ^ 64 →
  contiguous_loop t n (i :: ds) next = ((ne t i =? 1) || (nb t i =? next)) && contiguous_loop t n ds (u64 (next * ne t i)).
Proof.
  intros Hn Hx. cbn [contiguous_loop]. rewrite (proj2 (Nat.ltb_lt n i)) by done.
  destruct (Z.eqb_spec (ne t i) 1) as [->|]; cbn [orb andb].
  - by rewrite Z.mul_1_r, u64_small.
  - by destruct (Z.eqb_spec (nb t i) next).
Qed.

Lemma prefix_products (s a b c M : Z) : 0 ≤ s → 1 ≤ a → 1 ≤ b → 1 ≤ c → s * (a * b * c) < M →
  0 ≤ a * s < M ∧ 0 ≤ a * s * b < M.
Proof.
  intros. assert (0 ≤ a * s) by nia. assert (0 ≤ a * s * b) by nia.
  assert (a * s ≤ a * s * b) by nia. assert (a * s * b ≤ a * s * b * c) by nia. lia.
Qed.

(** The dimensions behind the first one. *)
Lemma contiguous_loop_23 t n s : (n ≤ 1)%nat → 1 ≤ ne t 1 → 1 ≤ ne t 2 → 1 ≤ ne t 3 →
  0 ≤ s → s * (ne t 1 * ne t 2 * ne t 3) < 2 ^ 64 →
  contiguous_loop t n [2; 3]%nat (ne t 1 * s) = true ↔
  (ne t 2 = 1 ∨ nb t 2 = ne t 1 * s) ∧ (ne t 3 = 1 ∨ nb t 3 = ne t 2 * ne t 1 * s).
Proof.
  intros. destruct (prefix_products s (ne t 1) (ne t 2) (ne t 3) (2 ^ 64)); [done..|].
  rewrite contiguous_loop_cons by lia. rewrite (u64_small (_ * ne t 2)) by lia.
  rewrite contiguous_loop_cons by lia. cbn [contiguous_loop].
  rewrite andb_true_r, andb_true_iff, !orb_true_iff, !Z.eqb_eq.
  replace (ne t 2 * ne t 1 * s) with (ne t 1 * s * ne t 2) by ring. done.
Qed.

Lemma contiguous_loop_123 t n row s : (n ≤ 1)%nat → 1 ≤ ne t 1 → 1 ≤ ne t 2 → 1 ≤ ne t 3 →
  s = (if (n =? 0)%nat || (ne t 1 =? 1) then row else nb t 1) → 0 ≤ s → s * (ne t 1 * ne t 2 * ne t 3) < 2 ^ 64 →
  contiguous_loop t n [1; 2; 3]%nat row = true ↔
  (ne t 1 = 1 ∨ nb t 1 = s) ∧ (ne t 2 = 1 ∨ nb t 2 = ne t 1 * s) ∧ (ne t 3 = 1 ∨ nb t 3 = ne t 2 * ne t 1 * s).
Proof.
  intros Hn H1 H2 H3 Hs Hs0 Hfit. rewrite <- (contiguous_loop_23 t n s) by done.
  destruct (prefix_products s (ne t 1) (ne t 2) (ne t 3) (2 ^ 64)); [done..|].
  destruct n as [|[|?]]; [| |lia]; cbn [Nat.eqb orb] in Hs.
  - subst row. rewrite contiguous_loop_cons by nia. rewrite andb_true_iff, orb_true_iff, !Z.eqb_eq.
    by rewrite (Z.mul_comm s), u64_small by lia.
  - change (contiguous_loop t 1 [1; 2; 3]%nat row) with
      (if ne t 1 =? 1 then contiguous_loop t 1 [2; 3]%nat row else contiguous_loop t 1 [2; 3]%nat (u64 (ne t 1 * nb t 1))).
    destruct (Z.eqb_spec (ne t 1) 1) as [He|He]; subst s.
    + rewrite He, Z.mul_1_l. tauto.
    + rewrite u64_small by lia. tauto.
Qed.

Lemma contiguous_strides t tr n : valid t tr → (n ≤ 1)%nat →
  0 ≤ row_stride n t tr → row_stride n t tr * (ne t 1 * ne t 2 * ne t 3) < 2 ^ 64 →
  ∃ b, ggml_is_contiguous_n t n = Ok b ∧ (b = true ↔ strides_at t tr (row_stride n t tr)).
Proof.
  intros V Hn Hs0 Hs. unfold ggml_is_contiguous_n.
  rewrite (type_size_ok t tr V), (blck_size_ok t tr V), (row_size_ok t tr V). cbn [mbind res_bind].
  pose proof (valid_pos t tr V) as (?&?&?&?). unfold strides_at.
  pose proof (contiguous_loop_123 t n (row_bytes tr t) (row_stride n t tr)) as Hloop.
  do 7 (specialize (Hloop ltac:(done))).
  destruct (Z.eqb_spec (ne t 0) (blck_size tr)), (Z.eqb_spec (nb t 0) (type_size tr)); cbn [negb andb];
    eexists; (split; [reflexivity|]); intuition congruence.
Qed.

(** [ggml_is_contiguous] and [ggml_is_contiguous_1], on a tensor with a valid type
    and shape, answer, and answer true exactly when the blocks of every row follow
    each other and the rows follow each other in the order of their indices, at the
    distance of the size of a row (at any common distance, for
    [ggml_is_contiguous_1] and more than one row). *)
Theorem contiguous_exact (t : ggml_tensor) (tr : ggml_type_traits) (n : nat) :
  valid t tr → (n ≤ 1)%nat →
  0 ≤ row_stride n t tr → row_stride n t tr * (ne t 1 * ne t 2 * ne t 3) < 2 ^ 64 →
  ∃ b, ggml_is_contiguous_n t n = Ok b ∧ (b = true ↔ rows_at t tr (row_stride n t tr)).
Proof.
  intros V Hn ??. destruct (contiguous_strides t tr n) as (b & Hb & Hiff); [done..|].
  exists b. split; [done|]. by rewrite rows_at_strides.
Qed.

(** ** Sizes of contiguous tensors *)

Lemma single_blocks : forallb (λ e, negb (blck_size e.2 =? 1) || (row_meta_size e.2 =? 0)) type_traits_entries = true.
Proof. vm_compute. reflexivity. Qed.

Lemma single_block_meta type tr : type_traits type = Ok tr → blck_size tr = 1 → row_meta_size tr = 0.
Proof.
  unfold type_traits. destruct (_ && _); [|done]. destruct (list_find _ _) as [[i e]|] eqn:Hf.
  - intros [= <-] Hb. apply list_find_Some in Hf as (Hi & _ & _). apply list_elem_of_lookup_2 in Hi.
    pose proof single_blocks as Hall. rewrite forallb_forall in Hall. specialize (Hall e). rewrite <- list_elem_of_In in Hall.
    specialize (Hall Hi). rewrite Hb in Hall. cbn in Hall. by apply Z.eqb_eq.
  - intros [= <-]. done.
Qed.

Lemma extent_at t i x : 1 ≤ ne t i → (ne t i = 1 ∨ nb t i = x) → 0 ≤ (ne t i - 1) * x < 2 ^ 64 → extent t i = (ne t i - 1) * x.
Proof.
  intros Hp [Hn|Hn] Hx; unfold extent.
  - by rewrite Hn, Z.sub_diag, !Z.mul_0_l.
  - by rewrite Hn, u64_small.
Qed.

(** The size of a tensor whose rows of [row] bytes lie one behind the other; the
    row may end in the middle of a block. *)
Lemma nbytes_rows t tr row : type_traits (t_type t) = Ok tr → has_elements (t_type t) = true → t_type t ≠ GGML_TYPE_I2_S →
  Forall (λ i, 1 ≤ ne t i) dims → ggml_row_size (t_type t) (ne t 0) = Ok row → type_size tr * ne t 0 < 2 ^ 64 →
  0 ≤ row → row * (ne t 1 * ne t 2 * ne t 3) < 2 ^ 64 →
  (blck_size tr = 1 → ne t 0 = 1 ∨ nb t 0 = type_size tr) → (ne t 1 = 1 ∨ nb t 1 = row) →
  (ne t 2 = 1 ∨ nb t 2 = ne t 1 * row) → (ne t 3 = 1 ∨ nb t 3 = ne t 2 * ne t 1 * row) →
  ggml_nbytes t = Ok (row * (ne t 1 * ne t 2 * ne t 3)).
Proof.
  rewrite !Forall_cons. intros Htr Hel Htype (P0 & P1 & P2 & P3 & _) Hrow Hfit0 Hr Hfit S0 S1 S2 S3. unfold ggml_nbytes.
  destruct (prefix_products row (ne t 1) (ne t 2) (ne t 3) (2 ^ 64)) as [Hp1 Hp2]; [lia..|].
  assert (Hp3 : 0 ≤ ne t 2 * ne t 1 * row * ne t 3 < 2 ^ 64) by nia.
  replace (existsb _ _) with false; [|symmetry; cbn; rewrite !orb_false_iff, !Z.leb_gt; lia].
  unfold ggml_blck_size, ggml_type_size. rewrite Htr. cbn [mbind res_bind].
  assert (E1 : extent t 1 = (ne t 1 - 1) * row) by (apply extent_at; [done..|nia]).
  assert (E2 : extent t 2 = (ne t 2 - 1) * (ne t 1 * row)) by (apply extent_at; [done..|nia]).
  assert (E3 : extent t 3 = (ne t 3 - 1) * (ne t 2 * ne t 1 * row)) by (apply extent_at; [done..|nia]).
  destruct (Z.eqb_spec (blck_size tr) 1) as [Hb|Hb].
  - cbn [mbind res_bind]. rewrite (proj2 (Z.eqb_neq _ _) Htype). f_equal.
    destruct (has_elements_traits _ Hel) as (tr' & Htr' & Hbnd). rewrite Htr in Htr'. injection Htr' as <-.
    assert (Hr0 : row = type_size tr * ne t 0).
    { unfold ggml_row_size in Hrow. rewrite Htr in Hrow. cbn [mbind res_bind] in Hrow.
      rewrite Hb, (single_block_meta _ _ Htr Hb), Z.div_1_r in Hrow. cbn in Hrow. injection Hrow as <-.
      rewrite !(u64_small (type_size tr * _)) by nia. by rewrite u64_small by nia. }
    assert (E0 : extent t 0 = (ne t 0 - 1) * type_size tr) by (apply extent_at; [done|by apply S0|nia]).
    unfold add_extents. cbn [foldl]. rewrite E0, E1, E2, E3.
    rewrite (u64_small (type_size tr + _)) by nia. rewrite (u64_small (_ + (ne t 1 - 1) * _)) by nia.
    rewrite (u64_small (_ + (ne t 2 - 1) * _)) by nia. rewrite u64_small by nia. nia.
  - rewrite Hrow. cbn [mbind res_bind]. f_equal. unfold add_extents. cbn [foldl]. rewrite E1, E2, E3.
    rewrite (u64_small (row + _)) by nia. rewrite (u64_small (_ + (ne t 2 - 1) * _)) by nia.
    rewrite u64_small by nia. nia.
Qed.

Lemma nbytes_contiguous t tr : valid t tr → strides_at t tr (row_bytes tr t) → t_type t ≠ GGML_TYPE_I2_S →
  ggml_nbytes t = Ok (row_bytes tr t * (ne t 1 * ne t 2 * ne t 3)).
Proof.
  intros V (S0 & S1 & S2 & S3) Htype. pose proof (row_bytes_pos t tr V). pose proof (valid_size _ _ V).
  apply (nbytes_rows t tr); [apply V|apply V|done|apply V|by apply row_size_ok|apply V|lia|lia| |done..].
  intros Hb. by rewrite <- Hb.
Qed.

(** ** Elements by number *)

Lemma quot_small a b : 0 ≤ a < 2 ^ 63 → 0 < b → quot_ a b = Ok (a / b).
Proof.
  intros. unfold quot_. destruct (Z.eqb_spec b 0); [lia|]. rewrite Z.quot_div_nonneg by lia.
  rewrite i64_small; [done|]. pose proof (Z.div_pos a b). pose proof (Z.div_le_upper_bound a b a). nia.
Qed.

(** [i = i0 + ne0 * (i1 + ne1 * (i2 + ne2 * i3))] *)
Lemma unravel_ok t i : Forall (λ k, 1 ≤ ne t k) dims → ne t 0 * (ne t 1 * ne t 2 * ne t 3) < 2 ^ 63 →
  0 ≤ i < ne t 0 * (ne t 1 * ne t 2 * ne t 3) →
  ∃ i0 i1 i2 i3, ggml_unravel_index t i = Ok (i0, i1, i2, i3) ∧ in_shape t (ne t 0) i0 i1 i2 i3 ∧
    i = i0 + ne t 0 * (i1 + ne t 1 * (i2 + ne t 2 * i3)).
Proof.
  rewrite !Forall_cons. intros (P0 & P1 & P2 & P3 & _) Hfit Hi. unfold ggml_unravel_index.
  set (a := ne t 0) in *. set (b := ne t 1) in *. set (c := ne t 2) in *. set (d := ne t 3) in *.
  assert (Hab : 1 ≤ b * a) by nia. assert (Habc : 1 ≤ c * b * a) by nia.
  assert (Hle : c * b * a ≤ a * (b * c * d)) by nia. assert (Hle' : b * a ≤ c * b * a) by nia.
  assert (Hle'' : c * b ≤ c * b * a) by nia.
  rewrite (i64_small (c * b)), (i64_small (c * b * a)), (i64_small (b * a)) by lia.
  rewrite quot_small by lia. cbn [mbind res_bind].
  pose proof (Z.div_mod i (c * b * a) ltac:(lia)) as D3. pose proof (Z.mod_pos_bound i (c * b * a) ltac:(lia)) as M3.
  set (i3 := i / (c * b * a)) in *. set (r3 := i mod (c * b * a)) in *.
  assert (K3 : 0 ≤ i3 < d) by nia.
  assert (0 ≤ i3 * c * b * a ≤ i) by lia. assert (0 ≤ i3 * c ≤ i3 * c * b) by nia. assert (i3 * c * b ≤ i3 * c * b * a) by nia.
  rewrite (i64_small (i3 * c)), (i64_small (i3 * c * b)), (i64_small (i3 * c * b * a)) by lia.
  replace (i - i3 * c * b * a) with r3 by lia. rewrite (i64_small r3) by lia.
  rewrite quot_small by lia. cbn [mbind res_bind].
  pose proof (Z.div_mod r3 (b * a) ltac:(lia)) as D2. pose proof (Z.mod_pos_bound r3 (b * a) ltac:(lia)) as M2.
  set (i2 := r3 / (b * a)) in *. set (r2 := r3 mod (b * a)) in *.
  assert (K2 : 0 ≤ i2 < c) by nia.
  assert (0 ≤ i2 * b * a ≤ r3) by lia. assert (0 ≤ i2 * b ≤ i2 * b * a) by nia.
  rewrite (i64_small (i2 * b)), (i64_small (i2 * b * a)) by lia.
  replace (r3 - i2 * b * a) with r2 by lia. rewrite (i64_small r2) by lia.
  rewrite quot_small by lia. cbn [mbind res_bind].
  pose proof (Z.div_mod r2 a ltac:(lia)) as D1. pose proof (Z.mod_pos_bound r2 a ltac:(lia)) as M1.
  set (i1 := r2 / a) in *. set (i0 := r2 mod a) in *.
  assert (K1 : 0 ≤ i1 < b) by nia.
  rewrite (i64_small (i1 * a)) by nia. replace (r2 - i1 * a) with i0 by lia. rewrite (i64_small i0) by lia.
  exists i0, i1, i2, i3. split; [done|]. split; [unfold in_shape; subst a b c d; lia|].
  rewrite D3, D2, D1. ring.
Qed.

Lemma u64_add_r a b : u64 (a + u64 b) = u64 (a + b).
Proof. apply Zplus_mod_idemp_r. Qed.
Lemma u64_add_l a b : u64 (u64 a + b) = u64 (a + b).
Proof. apply Zplus_mod_idemp_l. Qed.

Lemma nd_address_offset t i0 i1 i2 i3 : nd_address t i0 i1 i2 i3 = u64 (t_data t + block_offset t i0 i1 i2 i3).
Proof.
  unfold nd_address, block_offset. rewrite u64_add_r.
  replace (t_data t + u64 (i0 * nb t 0) + u64 (i1 * nb t 1) + u64 (i2 * nb t 2) + i3 * nb t 3)
    with (t_data t + u64 (i0 * nb t 0) + u64 (i1 * nb t 1) + i3 * nb t 3 + u64 (i2 * nb t 2)) by ring.
  rewrite u64_add_r.
  replace (t_data t + u64 (i0 * nb t 0) + u64 (i1 * nb t 1) + i3 * nb t 3 + i2 * nb t 2)
    with (t_data t + u64 (i0 * nb t 0) + i3 * nb t 3 + i2 * nb t 2 + u64 (i1 * nb t 1)) by ring.
  rewrite u64_add_r.
  replace (t_data t + u64 (i0 * nb t 0) + i3 * nb t 3 + i2 * nb t 2 + i1 * nb t 1)
    with (t_data t + i3 * nb t 3 + i2 * nb t 2 + i1 * nb t 1 + u64 (i0 * nb t 0)) by ring.
  rewrite u64_add_r. f_equal. ring.
Qed.

Lemma scalar_traits type size : scalar_size type = Ok size →
  ∃ tr, type_traits type = Ok tr ∧ blck_size tr = 1 ∧ type_size tr = size ∧ row_meta_size tr = 0.
Proof.
  unfold scalar_size.
  repeat match goal with
  | |- context [type =? ?x] =>
      destruct (Z.eqb_spec type x) as [->|]; [intros [= <-]; eexists; split; [vm_compute; reflexivity|done]|]
  end.
  done.
Qed.

(** The accessors by number ([ggml_get_f32_1d] and its kin), on a tensor of a type
    they know, whatever its strides: element [i] is the one whose indices are the
    digits of [i], first dimension first, and the accessor reaches the address that
    the accessor by indices ([ggml_get_f32_nd]) reaches for them.  The accessors of
    [int32_t] do too, except that they stop when the rows are contiguous and have one
    element while the first stride is not the size of an element. *)
Theorem access_by_number (t : ggml_tensor) (tr : ggml_type_traits) (size i : Z) :
  valid t tr → scalar_size (t_type t) = Ok size →
  ne t 0 * (ne t 1 * ne t 2 * ne t 3) < 2 ^ 31 → 0 ≤ i < ne t 0 * (ne t 1 * ne t 2 * ne t 3) →
  ∃ i0 i1 i2 i3, in_shape t (ne t 0) i0 i1 i2 i3 ∧ i = i0 + ne t 0 * (i1 + ne t 1 * (i2 + ne t 2 * i3)) ∧
    access_f32_1d t i = access_nd t i0 i1 i2 i3 ∧
    access_nd t i0 i1 i2 i3 = Ok (u64 (t_data t + block_offset t i0 i1 i2 i3)) ∧
    access_i32_1d t i =
      (if bool_decide (ggml_is_contiguous t = Ok true) && negb (nb t 0 =? size) then Err Abort
       else access_nd t i0 i1 i2 i3) ∧
    (nb t 0 ≠ size → ggml_is_contiguous t = Ok true → ne t 0 = 1).
Proof.
  intros V Hsize Hfit Hi. pose proof (valid_pos t tr V) as (P0 & P1 & P2 & P3).
  destruct (unravel_ok t i (valid_dims _ _ V)) as (i0 & i1 & i2 & i3 & Hu & Hin & Heq); [lia|done|].
  destruct (scalar_traits _ _ Hsize) as (tr' & Htr & Hb & Hs & Hm).
  rewrite (valid_traits _ _ V) in Htr. injection Htr as <-.
  assert (Hrow : row_bytes tr t = size * ne t 0) by (unfold row_bytes; rewrite Hb, Hs, Hm, Z.div_1_r; lia).
  pose proof (valid_size _ _ V) as Hsz. pose proof (row_bytes_pos t tr V) as Hr.
  destruct (contiguous_exact t tr 0 V) as (c & Hc & Hrows); [lia|unfold row_stride; cbn; lia..|].
  change (ggml_is_contiguous_n t 0) with (ggml_is_contiguous t) in Hc. unfold row_stride in Hrows; cbn [Nat.eqb orb] in Hrows.
  destruct Hin as (I0 & I1 & I2 & I3).
  assert (Hsmall : i0 < 2 ^ 31 ∧ i1 < 2 ^ 31 ∧ i2 < 2 ^ 31 ∧ i3 < 2 ^ 31).
  { assert (0 ≤ ne t 2 * i3) by nia. assert (0 ≤ ne t 1 * (i2 + ne t 2 * i3)) by nia.
    assert (i2 + ne t 2 * i3 ≤ ne t 1 * (i2 + ne t 2 * i3)) by nia. nia. }
  assert (Hnd : access_nd t i0 i1 i2 i3 = Ok (u64 (t_data t + block_offset t i0 i1 i2 i3))).
  { unfold access_nd. rewrite Hsize. cbn [mbind res_bind]. rewrite !i32_small by lia. by rewrite nd_address_offset. }
  exists i0, i1, i2, i3. split; [by unfold in_shape|]. split; [done|].
  rewrite Hnd. unfold access_f32_1d, access_i32_1d, access_1d. rewrite Hc, Hsize, Hu. cbn [mbind res_bind negb orb].
  destruct c.
  - rewrite bool_decide_true by done. cbn [andb].
    assert (Hoff : size * i = block_offset t i0 i1 i2 i3).
    { rewrite (proj1 Hrows eq_refl i0 i1 i2 i3) by (unfold in_shape; rewrite Hb, Z.div_1_r; lia). rewrite Hrow, Hs, Heq. ring. }
    rewrite Hoff. split_and!; [done|done|by destruct (nb t 0 =? size)|].
    intros Hne _. destruct (proj1 (rows_at_strides t tr V _) (proj1 Hrows eq_refl)) as ([?|?] & _); congruence.
  - rewrite Hnd, bool_decide_false by congruence. cbn [andb]. split_and!; [done..|congruence].
Qed.

(** A tensor of [int32_t] with one element in each row, seen through a transposed
    stride: its rows are contiguous, and the checked accessor stops. *)
Definition column_tensor : ggml_tensor :=
  mk_tensor GGML_TYPE_I32 [1; 5; 1; 1] [20; 4; 20; 20] GGML_OP_TRANSPOSE 0 0 [] 0 0 4096 0.

Lemma checked_accessor_stops :
  ggml_is_contiguous column_tensor = Ok true ∧ access_f32_1d column_tensor 3 = Ok 4108 ∧
  access_i32_1d column_tensor 3 = Err Abort.
Proof. vm_compute. done. Qed.

(** A matrix of half-precision numbers read by columns. *)
Definition ex_transposed : ggml_tensor :=
  mk_tensor GGML_TYPE_F16 [3; 4; 1; 1] [8; 2; 24; 24] GGML_OP_TRANSPOSE 0 0 [] 0 0 4096 0.

Lemma ex_transposed_valid : valid ex_transposed (mk_traits "f16" 1 0 2 false 0).
Proof.
  split; [vm_compute; reflexivity|vm_compute; reflexivity| |exists 3; reflexivity|vm_compute; reflexivity|vm_compute; reflexivity].
  apply (bool_decide_unpack _). vm_compute. exact I.
Qed.

Lemma access_by_number_witness : ∃ i0 i1 i2 i3, 7 = i0 + 3 * (i1 + 4 * (i2 + 1 * i3)) ∧
  access_f32_1d ex_transposed 7 = access_nd ex_transposed i0 i1 i2 i3.
Proof.
  destruct (access_by_number ex_transposed (mk_traits "f16" 1 0 2 false 0) 2 7 ex_transposed_valid eq_refl)
    as (i0 & i1 & i2 & i3 & _ & Heq & Hacc & _); [vm_compute; reflexivity|by vm_compute|].
  exists i0, i1, i2, i3. split; [exact Heq|exact Hacc].
Defined.

Lemma contiguous_exact_witness : ∃ b, ggml_is_contiguous_n ex_transposed 0 = Ok b ∧
  (b = true ↔ rows_at ex_transposed (mk_traits "f16" 1 0 2 false 0) 6).
Proof.
  exact (contiguous_exact ex_transposed (mk_traits "f16" 1 0 2 false 0) 0 ex_transposed_valid ltac:(lia)
    ltac:(by vm_compute) ltac:(by vm_compute)).
Defined.
