(* ===== verification/TensorContext.v ===== *)
(** * Contexts: the memory pool of tensors (ggml/src/ggml.c)

    A context owns a memory pool.  Objects (tensors, graphs, work buffers) are put
    one behind the other into the pool, each behind a header that links to the next
    one; nothing is ever taken out of it.  A tensor is created with its data behind
    it, with its data in a scratch buffer, without data, or as a view of another
    tensor.  The list of objects is modelled as a list; the header of an object at
    offset [offs] is at offset [offs - GGML_OBJECT_SIZE].  Tensors are in a map by
    their address, as in [Graph].  The contents of tensors, names and the operation
    parameters are left out.

    When the pool is full [ggml_new_object] returns [NULL], which
    [ggml_new_tensor_impl] dereferences (in a debug build an [assert] stops before):
    here [Err Oob]. *)
From S2P Require Import Prelude DynAlloc HashSet Graph TensorTypes TensorLayout.

(** ** Objects and contexts *)

Inductive ggml_object_type : Type :=
  | GGML_OBJECT_TYPE_TENSOR | GGML_OBJECT_TYPE_GRAPH | GGML_OBJECT_TYPE_WORK_BUFFER.

#[global] Instance ggml_object_type_eq_dec : EqDecision ggml_object_type.
Proof. solve_decision. Defined.

(** [ggml_object]; [next] is the order of the list. *)
Record ggml_object : Type := mk_object { ob_offs : Z; ob_size : Z; ob_type : ggml_object_type }.

(** [sizeof(struct ggml_object)] and [sizeof(struct ggml_tensor)]. *)
Definition GGML_OBJECT_SIZE : Z := 32.
Definition GGML_TENSOR_SIZE : Z := 400.

Record ggml_scratch : Type := mk_scratch { sc_offs : Z; sc_size : Z; sc_data : ptr }.

Record ggml_context : Type := mk_context {
  cx_mem_size      : Z;
  cx_mem_buffer    : ptr;
  cx_mem_owned     : bool;
  cx_no_alloc      : bool;
  cx_no_alloc_save : bool;
  cx_n_objects     : Z;
  cx_objects       : list ggml_object;
  cx_scratch       : ggml_scratch;
  cx_scratch_save  : ggml_scratch;
}.

Definition no_scratch : ggml_scratch := mk_scratch 0 0 NULL.

Definition with_objects (c : ggml_context) (n : Z) (objects : list ggml_object) : ggml_context :=
  mk_context (cx_mem_size c) (cx_mem_buffer c) (cx_mem_owned c) (cx_no_alloc c) (cx_no_alloc_save c)
    n objects (cx_scratch c) (cx_scratch_save c).
Definition with_scratch (c : ggml_context) (s : ggml_scratch) : ggml_context :=
  mk_context (cx_mem_size c) (cx_mem_buffer c) (cx_mem_owned c) (cx_no_alloc c) (cx_no_alloc_save c)
    (cx_n_objects c) (cx_objects c) s (cx_scratch_save c).
Definition with_save (c : ggml_context) (no_alloc save : bool) (s ssave : ggml_scratch) : ggml_context :=
  mk_context (cx_mem_size c) (cx_mem_buffer c) (cx_mem_owned c) no_alloc save
    (cx_n_objects c) (cx_objects c) s ssave.

(** [GGML_ASSERT_ALIGNED] *)
Definition assert_aligned (p : Z) : res unit := ggml_assert (p mod GGML_MEM_ALIGN =? 0).

(** *** Opening and closing *)

Definition GGML_MAX_CONTEXTS : nat := 64.

(** [ggml_init_params] *)
Record ggml_init_params : Type := mk_init { ip_mem_size : Z; ip_mem_buffer : ptr; ip_no_alloc : bool }.

(** [g_state.contexts]: a slot that is not in use keeps its old context. *)
Record ggml_context_container : Type := mk_container { ct_used : bool; ct_context : ggml_context }.

(** The context that [ggml_init] writes; [malloc] is the result of the allocation
    when the caller brings no memory. *)
Definition new_context (params : ggml_init_params) (malloc : ptr) : res ggml_context :=
  let size := if ip_mem_size params =? 0 then GGML_MEM_ALIGN else ip_mem_size params in
  let own := is_null (ip_mem_buffer params) in
  let mem_size := if own then GGML_PAD size GGML_MEM_ALIGN else size in
  let mem_buffer := if own then malloc else ip_mem_buffer params in
  _ ← ggml_assert (negb (is_null mem_buffer));
  _ ← assert_aligned mem_buffer;
  Ok (mk_context mem_size mem_buffer own (ip_no_alloc params) (ip_no_alloc params) 0 [] no_scratch no_scratch).

(** The first slot that is not in use: the context is identified by its slot. *)
Definition ggml_init (g_contexts : list ggml_context_container) (params : ggml_init_params) (malloc : ptr)
    : res (list ggml_context_container * option nat) :=
  match list_find (λ c, negb (ct_used c)) g_contexts with
  | None => Ok (g_contexts, None)
  | Some (i, _) => c ← new_context params malloc; Ok (<[i := mk_container true c]> g_contexts, Some i)
  end.

Definition ggml_free (g_contexts : list ggml_context_container) (ctx : option nat) : list ggml_context_container :=
  match ctx with
  | None => g_contexts
  | Some i => alter (λ c, mk_container false (ct_context c)) i g_contexts
  end.

(** *** Queries and settings *)

Definition ggml_used_mem (c : ggml_context) : Z :=
  match last (cx_objects c) with None => 0 | Some o => u64 (ob_offs o + ob_size o) end.

Definition ggml_set_scratch (c : ggml_context) (s : ggml_scratch) : ggml_context * Z :=
  (with_scratch c s, if negb (is_null (sc_data (cx_scratch c))) then sc_offs (cx_scratch c) else 0).

Definition ggml_set_no_alloc (c : ggml_context) (no_alloc : bool) : ggml_context :=
  with_save c no_alloc (cx_no_alloc_save c) (cx_scratch c) (cx_scratch_save c).

Definition ggml_scratch_save (c : ggml_context) : ggml_context :=
  with_save c false (cx_no_alloc c)
    (mk_scratch (sc_offs (cx_scratch c)) (sc_size (cx_scratch c)) NULL) (cx_scratch c).
Definition ggml_scratch_load (c : ggml_context) : ggml_context :=
  with_save c (cx_no_alloc_save c) (cx_no_alloc_save c) (cx_scratch_save c) (cx_scratch_save c).

(** *** New objects *)

Definition cur_end (c : ggml_context) : Z :=
  match last (cx_objects c) with None => 0 | Some o => u64 (ob_offs o + ob_size o) end.

(** [None]: [NULL], the pool is full. *)
Definition ggml_new_object (c : ggml_context) (type : ggml_object_type) (size : Z)
    : res (ggml_context * option ggml_object) :=
  let cur := cur_end c in
  let size_needed := GGML_PAD size GGML_MEM_ALIGN in
  if cx_mem_size c <? u64 (cur + size_needed + GGML_OBJECT_SIZE) then Ok (c, None)
  else
    let obj_new := mk_object (u64 (cur + GGML_OBJECT_SIZE)) size_needed type in
    _ ← assert_aligned (cx_mem_buffer c + ob_offs obj_new);
    Ok (with_objects c (cx_n_objects c) (cx_objects c ++ [obj_new]), Some obj_new).

(** [obj->offs]: a null pointer is dereferenced when the pool is full. *)
Definition object_address (c : ggml_context) (o : option ggml_object) : res ptr :=
  match o with None => Err Oob | Some o => Ok (u64 (cx_mem_buffer c + ob_offs o)) end.

(** ** New tensors *)

(** A context and the tensors of the program. *)
Record store : Type := mk_store { st_ctx : ggml_context; st_tensors : tensors }.

Definition set_tensor (s : store) (p : ptr) (t : ggml_tensor) : store :=
  mk_store (st_ctx s) (<[p := t]> (st_tensors s)).

(** [data_size *= ne\[i\]] *)
Definition data_size (row : Z) (ne : list Z) : Z := foldl (λ d n, u64 (d * n)) row ne.

(** The strides of a new tensor. *)
Definition new_strides (size row : Z) (ne : list Z) : list Z :=
  let nb2 := u64 (row * ne !!! 1%nat) in [size; row; nb2; u64 (nb2 * ne !!! 2%nat)].

(** The base tensor and the absolute offset. *)
Definition view_base (T : tensors) (view_src : ptr) (view_offs : Z) : res (ptr * Z) :=
  if is_null view_src then Ok (view_src, view_offs)
  else
    v ← deref T view_src;
    if is_null (t_view_src v) then Ok (view_src, view_offs)
    else Ok (t_view_src v, u64 (view_offs + t_view_offs v)).

(** [view_src == NULL || data_size == 0 || data_size + view_offs <= ggml_nbytes(view_src)] *)
Definition view_fits (T : tensors) (size : Z) (view_src : ptr) (view_offs : Z) : res bool :=
  if is_null view_src || (size =? 0) then Ok true
  else v ← deref T view_src; nbytes ← ggml_nbytes v; Ok (u64 (size + view_offs) <=? nbytes).

Definition view_data (T : tensors) (view_src : ptr) (view_offs : Z) : res ptr :=
  if is_null view_src then Ok NULL
  else v ← deref T view_src; Ok (if is_null (t_data v) then NULL else u64 (t_data v + view_offs)).

(** The tensor at [p] with the first [n_dims] numbers of [ne]; it is the last step of
    [ggml_new_tensor_impl]. *)
Definition finish_tensor (c : ggml_context) (T : tensors) (p : ptr) (type : Z) (size row : Z) (ne : list Z)
    (view_src : ptr) (view_offs : Z) (data : ptr) : store :=
  let ne := ne ++ replicate (GGML_MAX_DIMS - length ne) 1 in
  mk_store (with_objects c (i32 (cx_n_objects c + 1)) (cx_objects c))
    (<[p := mk_tensor type ne (new_strides size row ne) GGML_OP_NONE 0 NULL (replicate GGML_MAX_SRC NULL)
              view_src view_offs data NULL]> T).

Definition ggml_new_tensor_impl (s : store) (type : Z) (n_dims : nat) (ne : list Z) (view_src : ptr) (view_offs : Z)
    : res (store * ptr) :=
  let c := st_ctx s in
  let T := st_tensors s in
  _ ← ggml_assert ((0 <=? type) && (type <? GGML_TYPE_COUNT));
  _ ← ggml_assert ((1 <=? n_dims)%nat && (n_dims <=? GGML_MAX_DIMS)%nat);
  let ne := take n_dims ne in
  '(view_src, view_offs) ← view_base T view_src view_offs;
  row ← ggml_row_size type (ne !!! 0%nat);
  let size := data_size row (drop 1 ne) in
  fits ← view_fits T size view_src view_offs;
  _ ← ggml_assert fits;
  data ← view_data T view_src view_offs;
  elem ← ggml_type_size type;
  let sc := cx_scratch c in
  if is_null view_src && negb (cx_no_alloc c) && negb (is_null (sc_data sc)) then
    if sc_size sc <? u64 (sc_offs sc + size) then Ok (s, NULL)
    else
      let data := u64 (sc_data sc + sc_offs sc) in
      let c := with_scratch c (mk_scratch (u64 (sc_offs sc + size)) (sc_size sc) (sc_data sc)) in
      '(c, obj_new) ← ggml_new_object c GGML_OBJECT_TYPE_TENSOR GGML_TENSOR_SIZE;
      result ← object_address c obj_new;
      Ok (finish_tensor c T result type elem row ne view_src view_offs data, result)
  else
    let obj_alloc_size := if is_null view_src && negb (cx_no_alloc c) then size else 0 in
    '(c, obj_new) ← ggml_new_object c GGML_OBJECT_TYPE_TENSOR (u64 (GGML_TENSOR_SIZE + obj_alloc_size));
    result ← object_address c obj_new;
    Ok (finish_tensor c T result type elem row ne view_src view_offs
          (if 0 <? obj_alloc_size then u64 (result + GGML_TENSOR_SIZE) else data), result).

Definition ggml_new_tensor (s : store) (type : Z) (n_dims : nat) (ne : list Z) : res (store * ptr) :=
  ggml_new_tensor_impl s type n_dims ne NULL 0.
Definition ggml_new_tensor_1d (s : store) (type ne0 : Z) : res (store * ptr) := ggml_new_tensor s type 1 [ne0].
Definition ggml_new_tensor_2d (s : store) (type ne0 ne1 : Z) : res (store * ptr) := ggml_new_tensor s type 2 [ne0; ne1].
Definition ggml_new_tensor_3d (s : store) (type ne0 ne1 ne2 : Z) : res (store * ptr) :=
  ggml_new_tensor s type 3 [ne0; ne1; ne2].
Definition ggml_new_tensor_4d (s : store) (type ne0 ne1 ne2 ne3 : Z) : res (store * ptr) :=
  ggml_new_tensor s type 4 [ne0; ne1; ne2; ne3].

Definition ggml_dup_tensor (s : store) (src : ptr) : res (store * ptr) :=
  a ← deref (st_tensors s) src; ggml_new_tensor s (t_type a) GGML_MAX_DIMS (t_ne a).

(** Changing the tensor at [p]; writing through [NULL] is an error. *)
Definition modify (s : store) (p : ptr) (f : ggml_tensor → ggml_tensor) : res store :=
  t ← deref (st_tensors s) p; Ok (set_tensor s p (f t)).

Definition with_layout (t : ggml_tensor) (ne nb : list Z) : ggml_tensor :=
  mk_tensor (t_type t) ne nb (t_op t) (t_flags t) (t_grad t) (t_src t) (t_view_src t) (t_view_offs t) (t_data t) (t_buffer t).
Definition with_op (t : ggml_tensor) (op : ggml_op) : ggml_tensor :=
  mk_tensor (t_type t) (t_ne t) (t_nb t) op (t_flags t) (t_grad t) (t_src t) (t_view_src t) (t_view_offs t) (t_data t) (t_buffer t).
Definition with_grad_src (t : ggml_tensor) (grad src0 : ptr) : ggml_tensor :=
  mk_tensor (t_type t) (t_ne t) (t_nb t) (t_op t) (t_flags t) grad (<[0%nat := src0]> (t_src t)) (t_view_src t) (t_view_offs t) (t_data t) (t_buffer t).

(** ** Views, reshapes and permutations *)

(** The end of every operator: [op], [grad] and [src\[0\]] of the result. *)
Definition finish_op (s : store) (result : ptr) (op : ggml_op) (is_node : bool) (a : ptr) : res (store * ptr) :=
  s ← modify s result (λ t, with_op t op);
  '(s, grad) ← (if is_node then ggml_dup_tensor s result else Ok (s, NULL));
  s ← modify s result (λ t, with_grad_src t grad a);
  Ok (s, result).

Definition has_grad (t : ggml_tensor) : bool := negb (is_null (t_grad t)).

Definition ggml_view_tensor (s : store) (src : ptr) : res (store * ptr) :=
  a ← deref (st_tensors s) src;
  '(s, result) ← ggml_new_tensor_impl s (t_type a) GGML_MAX_DIMS (t_ne a) src 0;
  s ← modify s result (λ t, with_layout t (t_ne t) (t_nb a));
  Ok (s, result).

Definition ggml_cont (s : store) (a : ptr) : res (store * ptr) :=
  ta ← deref (st_tensors s) a;
  '(s, result) ← ggml_dup_tensor s a;
  finish_op s result GGML_OP_CONT (has_grad ta) a.

Definition product (ne : list Z) : Z := foldl (λ x n, i64 (x * n)) 1 ne.

Definition ggml_cont_4d (s : store) (a : ptr) (ne0 ne1 ne2 ne3 : Z) : res (store * ptr) :=
  ta ← deref (st_tensors s) a;
  _ ← ggml_assert (ggml_nelements ta =? product [ne0; ne1; ne2; ne3]);
  '(s, result) ← ggml_new_tensor_4d s (t_type ta) ne0 ne1 ne2 ne3;
  finish_op s result GGML_OP_CONT false a.

(** [ggml_reshape_1d] to [ggml_reshape_4d]: [ne] has one to four numbers. *)
Definition ggml_reshape_nd (s : store) (a : ptr) (ne : list Z) : res (store * ptr) :=
  ta ← deref (st_tensors s) a;
  contiguous ← ggml_is_contiguous ta;
  _ ← ggml_assert contiguous;
  _ ← ggml_assert (ggml_nelements ta =? product ne);
  '(s, result) ← ggml_new_tensor_impl s (t_type ta) (length ne) ne a 0;
  finish_op s result GGML_OP_RESHAPE (has_grad ta) a.

Definition ggml_reshape (s : store) (a b : ptr) : res (store * ptr) :=
  ta ← deref (st_tensors s) a;
  tb ← deref (st_tensors s) b;
  contiguous ← ggml_is_contiguous ta;
  _ ← ggml_assert contiguous;
  _ ← ggml_assert (ggml_nelements ta =? ggml_nelements tb);
  '(s, result) ← ggml_new_tensor_impl s (t_type ta) GGML_MAX_DIMS (t_ne tb) a 0;
  finish_op s result GGML_OP_RESHAPE (has_grad ta) a.

Definition ggml_reshape_4d_ext (s : store) (a : ptr) (type ne0 ne1 ne2 ne3 : Z) : res (store * ptr) :=
  ta ← deref (st_tensors s) a;
  '(s, result) ← ggml_new_tensor_impl s type 4 [ne0; ne1; ne2; ne3] a 0;
  tr ← deref (st_tensors s) result;
  na ← ggml_nbytes ta;
  nr ← ggml_nbytes tr;
  _ ← ggml_assert (na =? nr);
  finish_op s result GGML_OP_RESHAPE (has_grad ta) a.

Definition ggml_view_impl (s : store) (a : ptr) (ne : list Z) (offset : Z) : res (store * ptr) :=
  ta ← deref (st_tensors s) a;
  '(s, result) ← ggml_new_tensor_impl s (t_type ta) (length ne) ne a offset;
  finish_op s result GGML_OP_VIEW (has_grad ta) a.

Definition ggml_view_1d (s : store) (a : ptr) (ne0 offset : Z) : res (store * ptr) := ggml_view_impl s a [ne0] offset.

(** The strides of a view are written behind the creation of the view. *)
Definition set_strides (s : store) (result : ptr) (nb1 nb2 nb3 : Z) : res (store * ptr) :=
  s ← modify s result (λ t, with_layout t (t_ne t) [nb t 0; nb1; nb2; nb3]);
  Ok (s, result).

Definition ggml_view_2d (s : store) (a : ptr) (ne0 ne1 nb1 offset : Z) : res (store * ptr) :=
  '(s, result) ← ggml_view_impl s a [ne0; ne1] offset;
  set_strides s result nb1 (u64 (nb1 * ne1)) (u64 (nb1 * ne1)).
Definition ggml_view_3d (s : store) (a : ptr) (ne0 ne1 ne2 nb1 nb2 offset : Z) : res (store * ptr) :=
  '(s, result) ← ggml_view_impl s a [ne0; ne1; ne2] offset;
  set_strides s result nb1 nb2 (u64 (nb2 * ne2)).
Definition ggml_view_4d (s : store) (a : ptr) (ne0 ne1 ne2 ne3 nb1 nb2 nb3 offset : Z) : res (store * ptr) :=
  '(s, result) ← ggml_view_impl s a [ne0; ne1; ne2; ne3] offset;
  set_strides s result nb1 nb2 nb3.

(** [x\[axis0\] = v0; ... x\[axis3\] = v3;] on an array of four. *)
Definition scatter (axes : list nat) (v : list Z) : list Z :=
  foldl (λ x av, <[av.1 := av.2]> x) [0; 0; 0; 0] (zip axes v).

(** The assertions of [ggml_permute] on its axes. *)
Definition axes_ok (axes : list Z) : bool :=
  forallb (λ a, (0 <=? a) && (a <? Z.of_nat GGML_MAX_DIMS)) axes && bool_decide (NoDup axes).

Definition ggml_permute (s : store) (a : ptr) (axis0 axis1 axis2 axis3 : Z) : res (store * ptr) :=
  _ ← ggml_assert (axes_ok [axis0; axis1; axis2; axis3]);
  ta ← deref (st_tensors s) a;
  '(s, result) ← ggml_view_tensor s a;
  let axes := Z.to_nat <$> [axis0; axis1; axis2; axis3] in
  s ← modify s result (λ t, with_layout t (scatter axes (t_ne ta)) (scatter axes (t_nb ta)));
  finish_op s result GGML_OP_PERMUTE (has_grad ta) a.

Definition ggml_transpose (s : store) (a : ptr) : res (store * ptr) :=
  ta ← deref (st_tensors s) a;
  '(s, result) ← ggml_view_tensor s a;
  s ← modify s result (λ t, with_layout t [ne ta 1; ne ta 0; ne t 2; ne t 3] [nb ta 1; nb ta 0; nb t 2; nb t 3]);
  finish_op s result GGML_OP_TRANSPOSE (has_grad ta) a.

(** ** Walking over the tensors of a context *)

(** The address of an object, and the first tensor in a list of objects. *)
Definition object_ptr (c : ggml_context) (o : ggml_object) : ptr := u64 (cx_mem_buffer c + ob_offs o).

Fixpoint first_tensor (c : ggml_context) (objects : list ggml_object) : ptr :=
  match objects with
  | [] => NULL
  | o :: objects =>
      if bool_decide (ob_type o = GGML_OBJECT_TYPE_TENSOR) then object_ptr c o else first_tensor c objects
  end.

Definition ggml_get_first_tensor (c : ggml_context) : ptr := first_tensor c (cx_objects c).

(** The object whose header is in front of [tensor]; reading a header where there is
    none is undefined. *)
Definition ggml_get_next_tensor (c : ggml_context) (tensor : ptr) : res ptr :=
  match list_find (λ o, object_ptr c o = tensor) (cx_objects c) with
  | None => Err Oob
  | Some (i, _) => Ok (first_tensor c (drop (S i) (cx_objects c)))
  end.

(** [for (t = ggml_get_first_tensor(ctx); t != NULL; t = ggml_get_next_tensor(ctx, t))] *)
Fixpoint walk_tensors (fuel : nat) (c : ggml_context) (t : ptr) : res (list ptr) :=
  match fuel with
  | O => Err NoFuel
  | S fuel =>
      if is_null t then Ok []
      else next ← ggml_get_next_tensor c t; rest ← walk_tensors fuel c next; Ok (t :: rest)
  end.

Fixpoint max_size_loop (T : tensors) (ts : list ptr) (max_size : Z) : res Z :=
  match ts with
  | [] => Ok max_size
  | p :: ts => t ← deref T p; bytes ← ggml_nbytes t; max_size_loop T ts (Z.max max_size bytes)
  end.

Definition ggml_get_max_tensor_size (s : store) : res Z :=
  ts ← walk_tensors (S (length (cx_objects (st_ctx s)))) (st_ctx s) (ggml_get_first_tensor (st_ctx s));
  max_size_loop (st_tensors s) ts 0.
