(* ===== verification/TensorPool.v ===== *)
(** * The memory pool of a context is safe

    Whatever is created in a context, objects never overlap: their headers and
    contents follow each other inside the pool, aligned, and the data of a tensor is
    inside the object of that tensor, inside a scratch buffer, or that of the tensor
    it is a view of.  The scratch buffer is divided the same way: the data of the
    tensors created since it was set are disjoint and lie in its used part.  The
    sizes the callers ask for are supposed not to overflow [size_t]: the code
    multiplies them without a test. *)
From S2P Require Import Prelude DynAlloc HashSet Graph TensorTypes TensorLayout TensorContext.

(** ** Padding *)

Lemma pad16 x : 0 ≤ x < 2 ^ 63 → GGML_PAD x GGML_MEM_ALIGN = (x + 15) / 16 * 16.
Proof.
  intros Hx. unfold GGML_PAD, GGML_MEM_ALIGN. rewrite (u64_small (x + 16 - 1)) by lia.
  replace (x + 16 - 1) with (x + 15) by lia. assert (Hb : 0 ≤ x + 15 < 2 ^ 64) by lia. revert Hb. generalize (x + 15). intros y Hb.
  assert (Hy : Z.land y (u64 (Z.lnot (16 - 1))) = Z.ldiff y (Z.ones 4)).
  { apply Z.bits_inj'. intros k Hk. rewrite Z.land_spec, Z.ldiff_spec.
    destruct (decide (k < 64)).
    - unfold u64. rewrite Z.mod_pow2_bits_low by lia. by rewrite Z.lnot_spec by lia.
    - rewrite <- (Z.mod_small y (2 ^ 64)) by lia. by rewrite Z.mod_pow2_bits_high by lia. }
  rewrite Hy, Z.ldiff_ones_r by lia. by rewrite Z.shiftr_div_pow2, Z.shiftl_mul_pow2 by lia.
Qed.

Lemma pad16_bounds x : 0 ≤ x < 2 ^ 63 →
  x ≤ GGML_PAD x GGML_MEM_ALIGN < x + 16 ∧ GGML_PAD x GGML_MEM_ALIGN mod 16 = 0.
Proof.
  intros Hx. rewrite pad16 by done. split; [|by rewrite Z.mod_mul].
  pose proof (Z.div_mod (x + 15) 16 ltac:(lia)). pose proof (Z.mod_pos_bound (x + 15) 16 ltac:(lia)). lia.
Qed.

(** ** Numbers of elements *)

(** The number of elements, with empty dimensions counted as one: it does not grow
    when dimensions are dropped or exchanged. *)
Definition weight (ne : list Z) : Z := foldr (λ n w, Z.max 1 n * w) 1 ne.

(** Shapes far below the limits of [size_t]. *)
Definition small (ne : list Z) : Prop := Forall (λ n, 0 ≤ n) ne ∧ weight ne ≤ 2 ^ 48.

Lemma weight_pos ne : 1 ≤ weight ne.
Proof. induction ne as [|n ne IH]; cbn [weight foldr]; [lia|]. fold (weight ne). nia. Qed.

Lemma weight_app l k : weight (l ++ k) = weight l * weight k.
Proof. induction l as [|n l IH]; cbn [weight foldr app]; [by rewrite Z.mul_1_l|]. fold (weight (l ++ k)) (weight l). rewrite IH. ring. Qed.

#[global] Instance weight_proper : Proper ((≡ₚ) ==> (=)) weight.
Proof. intros l k H. induction H; cbn [weight foldr]; unfold weight in *; [done|congruence|ring|congruence]. Qed.

#[global] Instance small_proper : Proper ((≡ₚ) ==> iff) small.
Proof. intros l k H. unfold small. by rewrite H. Qed.

Lemma small_take n ne : small ne → small (take n ne).
Proof.
  intros [H1 H2]. split; [by apply Forall_take|]. rewrite <- (take_drop n ne), weight_app in H2.
  pose proof (weight_pos (take n ne)). pose proof (weight_pos (drop n ne)). nia.
Qed.

Lemma small_ones ne k : small ne → small (ne ++ replicate k 1).
Proof.
  intros [H1 H2]. split; [apply Forall_app; split; [done|apply Forall_replicate; lia]|].
  rewrite weight_app. assert (weight (replicate k 1) = 1) as ->; [|lia].
  induction k as [|k IH]; [done|]. cbn [replicate weight foldr]. fold (weight (replicate k 1)). lia.
Qed.

Lemma data_size_exact ne : ∀ row, 0 ≤ row → Forall (λ n, 0 ≤ n) ne → row * weight ne < 2 ^ 64 →
  0 ≤ data_size row ne ≤ row * weight ne ∧ data_size row ne = row * foldr Z.mul 1 ne.
Proof.
  induction ne as [|n ne IH]; intros row Hr Hne Hw; cbn [data_size foldl foldr weight] in *; [lia|].
  fold (weight ne) in Hw |- *. apply Forall_cons in Hne as [Hn Hne]. pose proof (weight_pos ne).
  assert (row * n ≤ row * Z.max 1 n) by nia. assert (row * Z.max 1 n ≤ row * Z.max 1 n * weight ne) by nia.
  assert (row * n * weight ne ≤ row * Z.max 1 n * weight ne) by nia.
  rewrite u64_small by nia. fold (data_size (row * n) ne). destruct (IH (row * n)) as [Hb Heq]; [nia|done|nia|].
  rewrite Heq in *. split; [split; nia|ring].
Qed.

(** ** Rows of a type with elements *)

Lemma row_size_bounds type n row : 0 ≤ n ≤ 2 ^ 48 → ggml_row_size type n = Ok row →
  ∃ tr, type_traits type = Ok tr ∧ has_elements type = true ∧
    row = row_meta_size tr + type_size tr * n / blck_size tr ∧ 0 ≤ row ≤ 1088 * Z.max 1 n ∧ type_size tr * n < 2 ^ 64 ∧
    1 ≤ type_size tr ≤ 1024.
Proof.
  intros Hn Hrow. unfold ggml_row_size in Hrow. destruct (type_traits type) as [tr|] eqn:Htr; [|done].
  cbn [mbind res_bind] in Hrow. destruct (Z.eqb_spec (blck_size tr) 0) as [Hb|Hb]; [done|].
  assert (Hel : has_elements type = true) by (unfold has_elements; rewrite Htr; by apply negb_true_iff, Z.eqb_neq).
  exists tr. split; [done|]. split; [done|]. destruct (has_elements_traits _ Hel) as (tr' & Htr' & Hbnd).
  rewrite Htr in Htr'. injection Htr' as <-. injection Hrow as <-.
  assert (0 ≤ type_size tr * n ≤ 1024 * 2 ^ 48) by nia. rewrite (u64_small (type_size tr * n)) by lia.
  assert (Hq : 0 ≤ type_size tr * n / blck_size tr ≤ type_size tr * n).
  { split; [apply Z.div_pos; lia|]. apply Z.div_le_upper_bound; nia. }
  rewrite u64_small by lia. split; [done|]. split; [nia|lia].
Qed.

(** ** The invariant *)

(** The objects fill the pool from offset [from] on. *)
Fixpoint chain (mem_size from : Z) (objects : list ggml_object) : Prop :=
  match objects with
  | [] => True
  | o :: objects =>
      ob_offs o = from + GGML_OBJECT_SIZE ∧ 0 ≤ ob_size o ∧ ob_size o mod 16 = 0 ∧
      ob_offs o + ob_size o ≤ mem_size ∧ chain mem_size (ob_offs o + ob_size o) objects
  end.

(** The end of the objects that begin at [from]. *)
Definition chain_end (from : Z) (objects : list ggml_object) : Z :=
  match last objects with None => from | Some o => ob_offs o + ob_size o end.

(** The memory of the context does not wrap around. *)
Record buffer_ok (c : ggml_context) : Prop := {
  buffer_pos : 0 < cx_mem_buffer c;
  buffer_aligned : cx_mem_buffer c mod 16 = 0;
  buffer_size : 0 ≤ cx_mem_size c < 2 ^ 62;
  buffer_end : cx_mem_buffer c + cx_mem_size c ≤ 2 ^ 64;
}.

(** [\[p, p + n)] has no byte in the pool. *)
Definition outside (c : ggml_context) (p n : Z) : Prop :=
  p + n ≤ cx_mem_buffer c ∨ cx_mem_buffer c + cx_mem_size c ≤ p.

(** A scratch buffer: inside the address space and apart from the pool. *)
Definition scratch_ok (c : ggml_context) (s : ggml_scratch) : Prop :=
  sc_data s = NULL ∨
  0 < sc_data s ∧ 0 ≤ sc_offs s ≤ sc_size s ∧ sc_size s < 2 ^ 62 ∧ sc_data s + sc_size s < 2 ^ 64 ∧
  outside c (sc_data s) (sc_size s).

(** The data of the tensor [t] in the object [o]: it has none of its own, it lies behind the
    tensor and ends with the object, or it lies outside the pool. *)
Definition data_ok (c : ggml_context) (o : ggml_object) (t : ggml_tensor) : Prop :=
  t_view_src t ≠ NULL ∨ t_data t = NULL ∨
  (t_type t ≠ GGML_TYPE_I2_S → ∃ n, ggml_nbytes t = Ok n ∧
     (t_data t = object_ptr c o + GGML_TENSOR_SIZE ∧ 0 ≤ n ∧ GGML_TENSOR_SIZE + n ≤ ob_size o ∨ outside c (t_data t) n)).

Definition shape_ok (t : ggml_tensor) : Prop :=
  length (t_ne t) = 4%nat ∧ length (t_nb t) = 4%nat ∧ small (t_ne t).

Definition is_tensor (o : ggml_object) : Prop := ob_type o = GGML_OBJECT_TYPE_TENSOR.
#[global] Instance is_tensor_dec o : Decision (is_tensor o).
Proof. unfold is_tensor. apply _. Defined.

Definition object_ok (c : ggml_context) (T : tensors) (o : ggml_object) : Prop :=
  is_tensor o → GGML_TENSOR_SIZE ≤ ob_size o ∧ ∃ t, T !! object_ptr c o = Some t ∧ data_ok c o t.

(** The tensors of the program have small shapes; none is at [NULL]. *)
Definition tensors_ok (T : tensors) : Prop := T !! NULL = None ∧ map_Forall (λ _, shape_ok) T.

Record pool (s : store) : Prop := {
  pool_buffer : buffer_ok (st_ctx s);
  pool_chain : chain (cx_mem_size (st_ctx s)) 0 (cx_objects (st_ctx s));
  pool_objects : Forall (object_ok (st_ctx s) (st_tensors s)) (cx_objects (st_ctx s));
  pool_tensors : tensors_ok (st_tensors s);
  pool_scratch : scratch_ok (st_ctx s) (cx_scratch (st_ctx s));
  pool_count : cx_n_objects (st_ctx s) = i32 (Z.of_nat (length (filter is_tensor (cx_objects (st_ctx s)))));
}.

(** ** The chain of objects *)

Lemma chain_app size l : ∀ from k, chain size from (l ++ k) ↔ chain size from l ∧ chain size (chain_end from l) k.
Proof.
  induction l as [|o l IH]; intros from k; cbn [chain app].
  - unfold chain_end; cbn. tauto.
  - rewrite IH. assert (chain_end from (o :: l) = chain_end (ob_offs o + ob_size o) l) as ->; [|tauto].
    unfold chain_end. destruct l; [done|]. by rewrite last_cons_cons; destruct (last (g :: l)) eqn:E; [|by apply last_None in E].
Qed.

Lemma chain_lookup size l : ∀ from i o, chain size from l → l !! i = Some o → 0 ≤ from → from mod 16 = 0 →
  from + GGML_OBJECT_SIZE ≤ ob_offs o ∧ 0 ≤ ob_size o ∧ ob_offs o + ob_size o ≤ size ∧
  ob_offs o mod 16 = 0 ∧ ob_size o mod 16 = 0.
Proof.
  induction l as [|o' l IH]; intros from i o; [done|]. cbn [chain]. intros (H1 & H2 & H3 & H4 & Hc) Hi Hf Hm.
  unfold GGML_OBJECT_SIZE in *. assert (ob_offs o' mod 16 = 0) by (rewrite H1, Z.add_mod, Hm by lia; done).
  destruct i as [|i]; [by injection Hi as <-; split_and!; try lia|].
  destruct (IH (ob_offs o' + ob_size o') i o Hc Hi) as (? & ? & ? & ? & ?); [lia| |split_and!; try done; lia].
  rewrite Z.add_mod by lia. by replace (ob_offs o' mod 16) with 0; rewrite H3.
Qed.

(** An object ends before the header of a later one begins. *)
Lemma chain_ordered size l : ∀ from i j o o', chain size from l → (i < j)%nat → l !! i = Some o → l !! j = Some o' →
  ob_offs o + ob_size o ≤ ob_offs o' - GGML_OBJECT_SIZE.
Proof.
  induction l as [|x l IH]; intros from i j o o'; [done|]. cbn [chain]. intros (H1 & H2 & H3 & H4 & Hc) Hij Hi Hj.
  destruct j as [|j]; [lia|]. cbn in Hj. destruct i as [|i]; cbn in Hi.
  - injection Hi as ->. clear IH. revert j Hj Hij. generalize (ob_offs o + ob_size o) Hc. clear.
    induction l as [|y l IH]; intros from Hc j Hj Hij; [done|]. destruct Hc as (E & F & G & K & Hc).
    destruct j as [|j]; [by injection Hj as ->; lia|]. specialize (IH _ Hc j Hj ltac:(lia)). unfold GGML_OBJECT_SIZE in *. lia.
  - apply (IH _ i j o o' Hc); [lia|done|done].
Qed.

Lemma chain_end_bounds size l from : chain size from l → 0 ≤ from ≤ size → from mod 16 = 0 →
  from ≤ chain_end from l ≤ size ∧ chain_end from l mod 16 = 0.
Proof.
  intros Hc Hf Hm. unfold chain_end. destruct (last l) as [o|] eqn:Hl; [|lia].
  rewrite last_lookup in Hl. destruct (chain_lookup _ _ _ _ _ Hc Hl) as (? & ? & ? & Ha & Hb); [lia|done|].
  unfold GGML_OBJECT_SIZE in *. split; [lia|]. by rewrite Z.add_mod, Ha, Hb by lia.
Qed.

Lemma cur_end_chain c : buffer_ok c → chain (cx_mem_size c) 0 (cx_objects c) → cur_end c = chain_end 0 (cx_objects c).
Proof.
  intros HB Hc. pose proof (buffer_size _ HB). unfold cur_end, chain_end. destruct (last (cx_objects c)) as [o|] eqn:Hl; [|done].
  rewrite last_lookup in Hl. destruct (chain_lookup _ _ _ _ _ Hc Hl) as (? & ? & ? & ? & ?); [lia|done|].
  unfold GGML_OBJECT_SIZE in *. rewrite u64_small; lia.
Qed.

Lemma object_ptr_eq c o : buffer_ok c → 0 ≤ ob_offs o → ob_offs o + ob_size o ≤ cx_mem_size c → 0 < ob_size o →
  object_ptr c o = cx_mem_buffer c + ob_offs o.
Proof. intros [? ? ? ?] ???. unfold object_ptr. apply u64_small. lia. Qed.

(** ** New objects *)

Definition room (c : ggml_context) (size : Z) : Prop :=
  chain_end 0 (cx_objects c) + GGML_PAD size GGML_MEM_ALIGN + GGML_OBJECT_SIZE ≤ cx_mem_size c.
#[global] Instance room_dec c size : Decision (room c size).
Proof. unfold room. apply _. Defined.

Definition object_at (c : ggml_context) (type : ggml_object_type) (size : Z) : ggml_object :=
  mk_object (chain_end 0 (cx_objects c) + GGML_OBJECT_SIZE) (GGML_PAD size GGML_MEM_ALIGN) type.

Lemma new_object_spec c type size : buffer_ok c → chain (cx_mem_size c) 0 (cx_objects c) → 0 ≤ size < 2 ^ 62 →
  ggml_new_object c type size =
    if decide (room c size) then
      Ok (with_objects c (cx_n_objects c) (cx_objects c ++ [object_at c type size]), Some (object_at c type size))
    else Ok (c, None).
Proof.
  intros HB Hc Hsz. pose proof (buffer_size _ HB). pose proof (buffer_end _ HB). pose proof (buffer_pos _ HB).
  destruct (chain_end_bounds _ _ 0 Hc) as [He Hm]; [lia|done|]. destruct (pad16_bounds size) as [Hp Hpm]; [lia|].
  unfold ggml_new_object. rewrite cur_end_chain by done. unfold room, GGML_OBJECT_SIZE in *.
  rewrite (u64_small (_ + GGML_PAD size GGML_MEM_ALIGN + 32)) by lia. rewrite (u64_small (_ + 32)) by lia.
  case_decide as Hroom; [rewrite (proj2 (Z.ltb_ge _ _)) by lia|by rewrite (proj2 (Z.ltb_lt _ _)) by lia].
  unfold assert_aligned, GGML_MEM_ALIGN, ggml_assert. cbn [ob_offs].
  assert ((cx_mem_buffer c + (chain_end 0 (cx_objects c) + 32)) mod 16 = 0) as ->; [|done].
  rewrite Z.add_mod, (Z.add_mod (chain_end _ _)), Hm, (buffer_aligned _ HB) by lia. done.
Qed.

Lemma object_at_chain c type size : buffer_ok c → chain (cx_mem_size c) 0 (cx_objects c) → 0 ≤ size < 2 ^ 62 → room c size →
  chain (cx_mem_size c) 0 (cx_objects c ++ [object_at c type size]).
Proof.
  intros HB Hc Hsz Hroom. destruct (pad16_bounds size) as [Hp Hpm]; [lia|]. apply chain_app. split; [done|].
  unfold room in Hroom. cbn [chain object_at ob_offs ob_size]. split_and!; [done|lia|done|lia|done].
Qed.

(** A context with the same pool. *)
Definition same_pool (c c' : ggml_context) : Prop :=
  cx_mem_buffer c' = cx_mem_buffer c ∧ cx_mem_size c' = cx_mem_size c.

Lemma buffer_ok_same c c' : same_pool c c' → buffer_ok c → buffer_ok c'.
Proof. intros [E1 E2] []. split; rewrite ?E1, ?E2; done. Qed.

Lemma scratch_ok_same c c' s : same_pool c c' → scratch_ok c s → scratch_ok c' s.
Proof. intros [E1 E2]. unfold scratch_ok, outside. by rewrite E1, E2. Qed.

Lemma data_ok_same c c' o t : same_pool c c' → data_ok c o t → data_ok c' o t.
Proof. intros [E1 E2]. unfold data_ok, object_ptr, outside. by rewrite E1, E2. Qed.

Lemma object_ok_frame c c' T p t o : same_pool c c' → (is_tensor o → object_ptr c o ≠ p) →
  object_ok c T o → object_ok c' (<[p := t]> T) o.
Proof.
  intros Hs Hp Ho Ht. destruct (Ho Ht) as (Hsz & t' & Hl & Hd). split; [done|]. exists t'.
  assert (object_ptr c' o = object_ptr c o) as -> by (unfold object_ptr; by rewrite (proj1 Hs)).
  rewrite lookup_insert_ne by (by intros E; apply Hp). split; [done|]. by eapply data_ok_same.
Qed.

(** Tensors of a context have different addresses. *)
Lemma object_ptr_ne c i j o o' : buffer_ok c → chain (cx_mem_size c) 0 (cx_objects c) →
  cx_objects c !! i = Some o → cx_objects c !! j = Some o' → i ≠ j →
  GGML_TENSOR_SIZE ≤ ob_size o → GGML_TENSOR_SIZE ≤ ob_size o' → object_ptr c o ≠ object_ptr c o'.
Proof.
  intros HB Hc Hi Hj Hne H1 H2. unfold GGML_TENSOR_SIZE in *. pose proof (buffer_size _ HB).
  destruct (chain_lookup _ _ _ _ _ Hc Hi) as (? & ? & ? & _); [lia|done|].
  destruct (chain_lookup _ _ _ _ _ Hc Hj) as (? & ? & ? & _); [lia|done|]. unfold GGML_OBJECT_SIZE in *.
  rewrite !object_ptr_eq by (done || lia).
  destruct (Nat.lt_trichotomy i j) as [Hij|[?|Hij]]; [|done|].
  - pose proof (chain_ordered _ _ _ _ _ _ _ Hc Hij Hi Hj). unfold GGML_OBJECT_SIZE in *. lia.
  - pose proof (chain_ordered _ _ _ _ _ _ _ Hc Hij Hj Hi). unfold GGML_OBJECT_SIZE in *. lia.
Qed.

Lemma tensors_ok_insert T p t : tensors_ok T → p ≠ NULL → shape_ok t → tensors_ok (<[p := t]> T).
Proof.
  intros [H1 H2] Hp Ht. split; [by rewrite lookup_insert_ne|]. by apply map_Forall_insert_2.
Qed.

(** The state after a new tensor [t] at the object [o]. *)
Lemma pool_new_tensor s sc size t : let c := st_ctx s in let o := object_at c GGML_OBJECT_TYPE_TENSOR size in
  pool s → scratch_ok c sc → GGML_TENSOR_SIZE ≤ size < 2 ^ 62 → room c size → shape_ok t → data_ok c o t →
  pool (mk_store (with_objects (with_scratch c sc) (i32 (cx_n_objects c + 1)) (cx_objects c ++ [o]))
         (<[object_ptr c o := t]> (st_tensors s))).
Proof.
  intros c o P Hsc Hsz Hroom Ht Hd. pose proof (pool_buffer _ P) as HB. fold c in HB.
  assert (Hs : same_pool c (with_objects (with_scratch c sc) (i32 (cx_n_objects c + 1)) (cx_objects c ++ [o]))) by done.
  assert (Hsz' : 0 ≤ size < 2 ^ 62) by (unfold GGML_TENSOR_SIZE in Hsz; lia).
  assert (Hc : chain (cx_mem_size c) 0 (cx_objects c ++ [o])) by (by apply object_at_chain; [done|apply P|..]).
  destruct (pad16_bounds size) as [Hpad _]; [lia|].
  assert (Hlast : (cx_objects c ++ [o]) !! length (cx_objects c) = Some o) by (by rewrite lookup_app_r, Nat.sub_diag).
  assert (Hos : GGML_TENSOR_SIZE ≤ ob_size o) by (cbn; lia).
  destruct (chain_lookup _ _ _ _ _ Hc Hlast) as (? & ? & ? & _); [lia|done|].
  assert (Hptr : object_ptr c o = cx_mem_buffer c + ob_offs o).
  { unfold GGML_OBJECT_SIZE, GGML_TENSOR_SIZE in *. apply object_ptr_eq; [done|lia|lia|lia]. }
  assert (object_ptr c o ≠ NULL).
  { pose proof (buffer_pos _ HB). unfold NULL, GGML_OBJECT_SIZE in *. lia. }
  split; cbn [st_ctx st_tensors].
  - by apply (buffer_ok_same c).
  - done.
  - cbn [cx_objects with_objects]. apply Forall_app. split.
    + apply Forall_forall. intros o' [i Hi]%list_elem_of_lookup. pose proof (pool_objects _ P) as Hall. rewrite Forall_lookup in Hall.
      apply (object_ok_frame c); [done| |by apply (Hall i)]. intros Hto.
      pose proof (lookup_lt_Some _ _ _ Hi). destruct (Hall i o' Hi Hto) as [Hos' _].
      assert (Hi' : (cx_objects c ++ [o]) !! i = Some o') by (by rewrite lookup_app_l).
      set (c' := with_objects (with_scratch c sc) (cx_n_objects c) (cx_objects c ++ [o])).
      change (object_ptr c' o' ≠ object_ptr c' o).
      apply (object_ptr_ne c' i (length (cx_objects c))); [by apply (buffer_ok_same c)|done|done|done|lia|done|done].
    + apply Forall_singleton. intros _. split; [done|]. exists t. split; [by apply lookup_insert_eq|by apply (data_ok_same c)].
  - by apply tensors_ok_insert; [apply P|..].
  - by apply (scratch_ok_same c).
  - cbn [cx_n_objects with_objects cx_objects]. pose proof (pool_count _ P) as Hn. fold c in Hn. rewrite filter_app, length_app, Hn.
    rewrite filter_cons_True by done. cbn [length filter list_filter].
    unfold i32. rewrite Nat2Z.inj_add. set (n := Z.of_nat (length _)).
    replace ((n + 2 ^ 31) mod 2 ^ 32 - 2 ^ 31 + 1 + 2 ^ 31) with ((n + 2 ^ 31) mod 2 ^ 32 + 1) by lia.
    rewrite Zplus_mod_idemp_l. do 2 f_equal. lia.
Qed.

(** ** New tensors *)

(** The numbers of elements of a tensor made from the first [n] of [ne]. *)
Definition pad_ne (n : nat) (ne : list Z) : list Z := take n ne ++ replicate (GGML_MAX_DIMS - length (take n ne)) 1.

Lemma pad_ne_spec n ne : (1 ≤ n ≤ 4)%nat → (n ≤ length ne)%nat → small ne →
  ∃ n0 n1 n2 n3, pad_ne n ne = [n0; n1; n2; n3] ∧ small [n0; n1; n2; n3] ∧ take n ne !!! 0%nat = n0 ∧
    foldr Z.mul 1 (drop 1 (take n ne)) = n1 * n2 * n3 ∧ weight (drop 1 (take n ne)) = weight [n1; n2; n3].
Proof.
  intros Hn Hl Hs. assert (Hs' : small (pad_ne n ne)) by (by apply small_ones, small_take).
  destruct ne as [|a [|b [|c [|d ne]]]]; cbn [length] in Hl; try lia; destruct n as [|[|[|[|[|n]]]]]; try lia.
  all: eexists _, _, _, _; split; [reflexivity|split; [exact Hs'|]]; (split; [reflexivity|]); cbn; rewrite ?take_0; cbn; change (1 `max` 1) with 1; split; ring.
Qed.

(** The tensor that [ggml_new_tensor_impl] writes. *)
Definition new_tensor (type : Z) (n : nat) (ne : list Z) (elem row : Z) (base offs data : Z) : ggml_tensor :=
  mk_tensor type (pad_ne n ne) (new_strides elem row (pad_ne n ne)) GGML_OP_NONE 0 NULL (replicate GGML_MAX_SRC NULL)
    base offs data NULL.

(** The arithmetic of the sizes does not wrap around. *)
Lemma new_sizes type n ne row : (1 ≤ n ≤ 4)%nat → (n ≤ length ne)%nat → small ne →
  ggml_row_size type (take n ne !!! 0%nat) = Ok row →
  0 ≤ data_size row (drop 1 (take n ne)) < 2 ^ 60 ∧
  ∀ elem base offs data, ggml_type_size type = Ok elem →
    let t := new_tensor type n ne elem row base offs data in
    shape_ok t ∧
    (t_type t ≠ GGML_TYPE_I2_S → ggml_nbytes t =
       Ok (if existsb (λ i, TensorLayout.ne t i <=? 0) dims then 0 else data_size row (drop 1 (take n ne)))).
Proof.
  intros Hn Hl Hs Hrow. destruct (pad_ne_spec n ne Hn Hl Hs) as (n0 & n1 & n2 & n3 & Hpad & Hs4 & H0 & Hprod & Hw).
  rewrite H0 in Hrow. pose proof Hs4 as Hsm. destruct Hs4 as [Hpos Hw4]. pose proof Hpos as Hpos'. rewrite !Forall_cons in Hpos'.
  destruct Hpos' as (P0 & P1 & P2 & P3 & _).
  cbn [weight foldr] in Hw4. rewrite Z.mul_1_r in Hw4.
  assert (Hwr : 1 ≤ weight [n1; n2; n3]) by apply weight_pos. cbn [weight foldr] in Hwr. rewrite Z.mul_1_r in Hwr.
  destruct (row_size_bounds type n0 row) as (tr & Htr & Hel & Hreq & Hrb & Hfit & Hts); [nia|done|].
  destruct (data_size_exact (drop 1 (take n ne)) row) as [Hb Heq].
  { lia. } { apply Forall_drop, small_take, Hs. } { rewrite Hw. cbn [weight foldr]. nia. }
  assert (Hup : row * weight (drop 1 (take n ne)) < 2 ^ 60) by (rewrite Hw; cbn [weight foldr]; nia).
  split; [lia|]. intros elem base offs data Helem t.
  assert (Hne : t_ne t = [n0; n1; n2; n3]) by exact Hpad.
  split; [unfold shape_ok; rewrite Hne; split_and!; [done|done|exact Hsm]|]. intros Htype.
  unfold TensorLayout.ne. rewrite Hne.
  destruct (existsb _ dims) eqn:Hz; [unfold ggml_nbytes, TensorLayout.ne; by rewrite Hne, Hz|].
  cbn in Hz. rewrite !orb_false_iff, !Z.leb_gt in Hz. destruct Hz as (Z0 & Z1 & Z2 & Z3 & _).
  rewrite Heq, Hprod in *. unfold ggml_type_size in Helem. change (t_type t) with type in *. rewrite Htr in Helem. injection Helem as <-.
  assert (Hnb : t_nb t = [type_size tr; row; n1 * row; n2 * n1 * row]).
  { destruct (prefix_products row n1 n2 n3 (2 ^ 60)) as [E1 E2]; [lia..|].
    cbn [t_nb t new_tensor]. unfold new_strides. rewrite Hpad. cbn [lookup_total list_lookup_total].
    assert (u64 (row * n1) = n1 * row) as -> by (rewrite u64_small by lia; ring).
    assert (u64 (n1 * row * n2) = n2 * n1 * row) as -> by (rewrite u64_small by lia; ring). done. }
  replace (n1 * n2 * n3) with (TensorLayout.ne t 1 * TensorLayout.ne t 2 * TensorLayout.ne t 3) by (unfold TensorLayout.ne; by rewrite Hne).
  apply (nbytes_rows t tr row); unfold TensorLayout.ne, TensorLayout.nb; rewrite ?Hne, ?Hnb; cbn [lookup_total list_lookup_total]; try done.
  - repeat constructor; cbn; lia.
  - lia.
  - lia.
  - by right.
  - by right.
  - by right.
  - by right.
Qed.

(** What [view_base] returns. *)
Lemma view_base_spec T vs vo base offs : tensors_ok T → view_base T vs vo = Ok (base, offs) →
  (base = NULL ↔ vs = NULL) ∧ (vs = NULL → offs = vo).
Proof.
  intros [HT _]. unfold view_base, is_null, NULL in *. destruct (Z.eqb_spec vs 0) as [->|Hvs]; [intros [= <- <-]; done|].
  unfold deref. destruct (T !! vs) as [v|]; [|done]. cbn [mbind res_bind].
  destruct (Z.eqb_spec (t_view_src v) 0); intros [= <- <-]; split; done || (split; intros; done).
Qed.

Definition base_data_ok (c : ggml_context) (o : ggml_object) (data size : Z) : Prop :=
  data = NULL ∨ data = object_ptr c o + GGML_TENSOR_SIZE ∧ GGML_TENSOR_SIZE + size ≤ ob_size o ∨ outside c data size.

Lemma new_tensor_data_ok c o type n ne row elem base offs data :
  (1 ≤ n ≤ 4)%nat → (n ≤ length ne)%nat → small ne →
  ggml_row_size type (take n ne !!! 0%nat) = Ok row → ggml_type_size type = Ok elem → GGML_TENSOR_SIZE ≤ ob_size o →
  (base = NULL → base_data_ok c o data (data_size row (drop 1 (take n ne)))) →
  data_ok c o (new_tensor type n ne elem row base offs data).
Proof.
  intros Hn Hl Hs Hrow Helem Ho Hd. destruct (new_sizes type n ne row Hn Hl Hs Hrow) as [Hsz Hnew].
  destruct (Hnew elem base offs data Helem) as [Hshape Hbytes]. unfold data_ok.
  destruct (decide (base = NULL)) as [Hb|Hb]; [|by left]. right.
  destruct (Hd Hb) as [?|Hcase]; [by left|]. right. intros Htype. eexists. split; [by apply Hbytes|].
  change (t_data _) with data. destruct (existsb _ _); [|destruct Hcase as [[? ?]|?]; [left|by right]; split_and!; [done|lia|done]].
  destruct Hcase as [[? ?]|[?|?]]; [left; split_and!; [done|lia|lia]|right; left; lia|right; by right].
Qed.

(** ** The scratch buffer

    Tensors get consecutive pieces of the scratch buffer that is set.  [k] is the
    number of objects there were at some time since when no other one was set. *)
Definition in_memory (c : ggml_context) (p : ptr) : Prop := cx_mem_buffer c ≤ p < cx_mem_buffer c + cx_mem_size c.

(** The [i]-th object, not older than [k], is a tensor with data outside the pool. *)
Record scratch_tensor (k : nat) (s : store) (i : nat) (t : ggml_tensor) : Prop := {
  sk_new : (k ≤ i)%nat;
  sk_obj : ∃ o, cx_objects (st_ctx s) !! i = Some o ∧ is_tensor o ∧ st_tensors s !! object_ptr (st_ctx s) o = Some t;
  sk_own : t_view_src t = NULL;
  sk_type : t_type t ≠ GGML_TYPE_I2_S;
  sk_data : t_data t ≠ NULL;
  sk_out : ¬ in_memory (st_ctx s) (t_data t);
}.

(** These data are in the used part of the scratch buffer and do not overlap. *)
Record scratch_owned (k : nat) (s : store) : Prop := {
  so_inside : ∀ i t n, scratch_tensor k s i t → ggml_nbytes t = Ok n →
    sc_data (cx_scratch (st_ctx s)) ≤ t_data t ∧
    t_data t + n ≤ sc_data (cx_scratch (st_ctx s)) + sc_offs (cx_scratch (st_ctx s));
  so_apart : ∀ i j t t' n, (i < j)%nat → scratch_tensor k s i t → scratch_tensor k s j t' → ggml_nbytes t = Ok n →
    t_data t + n ≤ t_data t';
}.

(** Where a new tensor [t] has its data, and the scratch buffer [sc] afterwards. *)
Definition placed (c : ggml_context) (sc : ggml_scratch) (t : ggml_tensor) : Prop :=
  sc = cx_scratch c ∧ (t_view_src t ≠ NULL ∨ t_data t = NULL ∨ in_memory c (t_data t)) ∨
  ∃ n, 0 ≤ n ∧ sc_data (cx_scratch c) ≠ NULL ∧ t_data t = sc_data (cx_scratch c) + sc_offs (cx_scratch c) ∧
    sc = mk_scratch (sc_offs (cx_scratch c) + n) (sc_size (cx_scratch c)) (sc_data (cx_scratch c)) ∧
    (t_type t ≠ GGML_TYPE_I2_S → ∃ m, ggml_nbytes t = Ok m ∧ 0 ≤ m ≤ n).

Definition base_placed (base : ptr) (c : ggml_context) (sc : ggml_scratch) (data size : Z) : Prop :=
  sc = cx_scratch c ∧ (base ≠ NULL ∨ data = NULL ∨ in_memory c data) ∨
  0 ≤ size ∧ sc_data (cx_scratch c) ≠ NULL ∧ data = sc_data (cx_scratch c) + sc_offs (cx_scratch c) ∧
  sc = mk_scratch (sc_offs (cx_scratch c) + size) (sc_size (cx_scratch c)) (sc_data (cx_scratch c)).

Lemma new_tensor_placed c sc type n ne row elem base offs data :
  (1 ≤ n ≤ 4)%nat → (n ≤ length ne)%nat → small ne →
  ggml_row_size type (take n ne !!! 0%nat) = Ok row → ggml_type_size type = Ok elem →
  base_placed base c sc data (data_size row (drop 1 (take n ne))) → placed c sc (new_tensor type n ne elem row base offs data).
Proof.
  intros Hn Hl Hs Hrow Helem [H|(H1 & H2 & H3 & H4)]; [by left|right]. eexists. split; [exact H1|]. split_and!; [done..|].
  intros Htype. destruct (new_sizes type n ne row Hn Hl Hs Hrow) as [Hsz Hnew]. destruct (Hnew elem base offs data Helem) as [_ Hbytes].
  eexists. split; [by apply Hbytes|]. destruct (existsb _ _); lia.
Qed.

(** The outcome of a successful [ggml_new_tensor_impl]: the scratch buffer [sc]
    afterwards and the new tensor [t], in an object of [size] bytes. *)
Definition created (s : store) (sc : ggml_scratch) (size : Z) (t : ggml_tensor) (s' : store) (p : ptr) : Prop :=
  let c := st_ctx s in
  let o := object_at c GGML_OBJECT_TYPE_TENSOR size in
  p = object_ptr c o ∧ p ≠ NULL ∧ scratch_ok c sc ∧ GGML_TENSOR_SIZE ≤ size < 2 ^ 62 ∧ room c size ∧
  shape_ok t ∧ data_ok c o t ∧ placed c sc t ∧
  s' = mk_store (with_objects (with_scratch c sc) (i32 (cx_n_objects c + 1)) (cx_objects c ++ [o])) (<[p := t]> (st_tensors s)).

Section create.
Context (s : store) (P : pool s) (type : Z) (n : nat) (ne : list Z) (row elem base offs : Z).
Context (Hn : (1 ≤ n ≤ 4)%nat) (Hl : (n ≤ length ne)%nat) (Hs : small ne).
Context (Hrow : ggml_row_size type (take n ne !!! 0%nat) = Ok row) (Helem : ggml_type_size type = Ok elem).
Local Abbreviation c := (st_ctx s).

(** The last steps, for a context [c'] that differs in the scratch buffer. *)
Lemma create_object c' sc a data : 0 ≤ a < 2 ^ 60 → scratch_ok c sc →
  c' = c ∧ sc = cx_scratch c ∨ c' = with_scratch c sc →
  ('(c', obj_new) ← ggml_new_object c' GGML_OBJECT_TYPE_TENSOR (u64 (GGML_TENSOR_SIZE + a));
   result ← object_address c' obj_new;
   Ok (finish_tensor c' (st_tensors s) result type elem row (take n ne) base offs (data result), result)) =
  if decide (room c (GGML_TENSOR_SIZE + a)) then
    let o := object_at c GGML_OBJECT_TYPE_TENSOR (GGML_TENSOR_SIZE + a) in
    Ok (mk_store (with_objects (with_scratch c sc) (i32 (cx_n_objects c + 1)) (cx_objects c ++ [o]))
          (<[object_ptr c o := new_tensor type n ne elem row base offs (data (object_ptr c o))]> (st_tensors s)), object_ptr c o)
  else Err Oob.
Proof using P Hn Hl.
  intros Ha Hsc Hc'. pose proof (pool_buffer _ P) as HB. pose proof (pool_chain _ P) as Hc.
  assert (Hu : u64 (GGML_TENSOR_SIZE + a) = GGML_TENSOR_SIZE + a) by (unfold GGML_TENSOR_SIZE; apply u64_small; lia).
  assert (Hr : 0 ≤ GGML_TENSOR_SIZE + a < 2 ^ 62) by (unfold GGML_TENSOR_SIZE; lia).
  assert (HB' : buffer_ok c') by (apply (buffer_ok_same c); [by destruct Hc' as [[-> _]| ->]|done]).
  assert (Hch : chain (cx_mem_size c') 0 (cx_objects c')) by (by destruct Hc' as [[-> _]| ->]).
  rewrite Hu, new_object_spec by done.
  destruct Hc' as [[-> ->]| ->].
  - case_decide as Hroom; [|done]. cbn [mbind res_bind object_address]. done.
  - destruct (decide (room (with_scratch c sc) _)) as [Hroom|Hroom]; destruct (decide (room c _)); reflexivity || contradiction.
Qed.

Lemma create_created c' sc a data s' p : 0 ≤ a < 2 ^ 60 → scratch_ok c sc →
  c' = c ∧ sc = cx_scratch c ∨ c' = with_scratch c sc →
  let o := object_at c GGML_OBJECT_TYPE_TENSOR (GGML_TENSOR_SIZE + a) in
  (room c (GGML_TENSOR_SIZE + a) → base = NULL → base_data_ok c o (data (object_ptr c o)) (data_size row (drop 1 (take n ne)))) →
  (room c (GGML_TENSOR_SIZE + a) → base_placed base c sc (data (object_ptr c o)) (data_size row (drop 1 (take n ne)))) →
  ('(c', obj_new) ← ggml_new_object c' GGML_OBJECT_TYPE_TENSOR (u64 (GGML_TENSOR_SIZE + a));
   result ← object_address c' obj_new;
   Ok (finish_tensor c' (st_tensors s) result type elem row (take n ne) base offs (data result), result)) = Ok (s', p) →
  created s sc (GGML_TENSOR_SIZE + a) (new_tensor type n ne elem row base offs (data (object_ptr c o))) s' p.
Proof using P Hn Hl Hs Hrow Helem.
  intros Ha Hsc Hc' o Hd Hplaced. rewrite (create_object c' sc a data) by done. case_decide as Hroom; [|done]. intros [= <- <-].
  pose proof (pool_buffer _ P) as HB. pose proof (pool_chain _ P) as Hc.
  assert (Hr : 0 ≤ GGML_TENSOR_SIZE + a < 2 ^ 62 ∧ 0 < GGML_TENSOR_SIZE) by (unfold GGML_TENSOR_SIZE; lia).
  destruct (chain_end_bounds _ _ 0 Hc) as [He _]; [pose proof (buffer_size _ HB); lia|done|].
  destruct (pad16_bounds (GGML_TENSOR_SIZE + a)) as [Hpad _]; [lia|].
  assert (Hptr : object_ptr c (object_at c GGML_OBJECT_TYPE_TENSOR (GGML_TENSOR_SIZE + a)) ≠ NULL).
  { unfold room in Hroom. rewrite object_ptr_eq; cbn [ob_offs ob_size object_at]; [|done|unfold GGML_OBJECT_SIZE in *; lia..].
    pose proof (buffer_pos _ HB). unfold NULL, GGML_OBJECT_SIZE. lia. }
  destruct (new_sizes type n ne row Hn Hl Hs Hrow) as [Hsz Hnew].
  unfold created. cbn zeta. split_and!; try done; try lia; [by apply Hnew| |].
  - apply new_tensor_data_ok; try done; [cbn; lia|]. intros Hb. by apply Hd.
  - apply (new_tensor_placed _ _ type n ne row); try done. by apply Hplaced.
Qed.
End create.

Lemma created_pool s sc size t s' p : pool s → created s sc size t s' p → pool s'.
Proof. intros P (-> & _ & Hsc & Hsz & Hroom & Hsh & Hd & _ & ->). by apply pool_new_tensor. Qed.

(** A scratch buffer behind an allocation of [n] bytes. *)
Lemma scratch_alloc c sc n : buffer_ok c → scratch_ok c sc → sc_data sc ≠ NULL → 0 ≤ n < 2 ^ 60 →
  (sc_size sc <? u64 (sc_offs sc + n)) = false →
  scratch_ok c (mk_scratch (u64 (sc_offs sc + n)) (sc_size sc) (sc_data sc)) ∧
  outside c (u64 (sc_data sc + sc_offs sc)) n.
Proof.
  intros HB [?|(Hp & Ho & Hsz & Hend & Hout)] Hne Hn; [done|]. rewrite u64_small by lia. rewrite Z.ltb_ge. intros Hle.
  rewrite u64_small by lia. split; [right; cbn; split_and!; done || lia|]. unfold outside in *. lia.
Qed.

(** Data behind a tensor ends with its object. *)
Lemma own_data s (P : pool s) size : let c := st_ctx s in let o := object_at c GGML_OBJECT_TYPE_TENSOR (GGML_TENSOR_SIZE + size) in
  0 < size < 2 ^ 60 → room c (GGML_TENSOR_SIZE + size) →
  u64 (object_ptr c o + GGML_TENSOR_SIZE) = object_ptr c o + GGML_TENSOR_SIZE ∧ GGML_TENSOR_SIZE + size ≤ ob_size o.
Proof.
  intros c o Hsz Hroom. pose proof (pool_buffer _ P) as HB. destruct (chain_end_bounds _ _ 0 (pool_chain _ P)) as [He _];
    [pose proof (buffer_size _ HB); lia|done|]. fold c in HB, He.
  assert (Hr : 0 ≤ GGML_TENSOR_SIZE + size < 2 ^ 62) by (unfold GGML_TENSOR_SIZE; lia).
  destruct (pad16_bounds (GGML_TENSOR_SIZE + size)) as [Hpad _]; [lia|]. unfold room in Hroom.
  pose proof (buffer_end _ HB). pose proof (buffer_pos _ HB). unfold GGML_OBJECT_SIZE in *.
  split; [|cbn; lia]. rewrite object_ptr_eq; cbn [ob_offs ob_size object_at o]; unfold GGML_OBJECT_SIZE, GGML_TENSOR_SIZE in *; try lia; [|done].
  apply u64_small. lia.
Qed.

Lemma own_in_memory s (P : pool s) size : let c := st_ctx s in let o := object_at c GGML_OBJECT_TYPE_TENSOR (GGML_TENSOR_SIZE + size) in
  0 < size < 2 ^ 60 → room c (GGML_TENSOR_SIZE + size) → in_memory c (object_ptr c o + GGML_TENSOR_SIZE).
Proof.
  intros c o Hsz Hroom. pose proof (pool_buffer _ P) as HB. destruct (chain_end_bounds _ _ 0 (pool_chain _ P)) as [He _];
    [pose proof (buffer_size _ HB); lia|done|]. fold c in HB, He.
  assert (Hr : 0 ≤ GGML_TENSOR_SIZE + size < 2 ^ 62) by (unfold GGML_TENSOR_SIZE; lia).
  destruct (pad16_bounds (GGML_TENSOR_SIZE + size)) as [Hpad _]; [lia|]. unfold room in Hroom. unfold in_memory.
  rewrite object_ptr_eq; cbn [ob_offs ob_size object_at o]; unfold GGML_OBJECT_SIZE, GGML_TENSOR_SIZE in *; (done || lia).
Qed.

(** What a successful call leaves: nothing and [NULL] when the scratch buffer is full,
    and otherwise the tensor it was asked for. *)
Definition new_outcome (s : store) (type : Z) (n : nat) (ne : list Z) (vs vo : Z) (s' : store) (p : ptr) : Prop :=
  ∃ sc size row elem base offs data, created s sc size (new_tensor type n ne elem row base offs data) s' p ∧
    (1 ≤ n ≤ 4)%nat ∧ view_base (st_tensors s) vs vo = Ok (base, offs) ∧
    ggml_row_size type (take n ne !!! 0%nat) = Ok row ∧ ggml_type_size type = Ok elem ∧
    (vs ≠ NULL → view_data (st_tensors s) base offs = Ok data).

Lemma new_tensor_impl_created s type n ne vs vo s' p : pool s → (n ≤ length ne)%nat → small ne →
  ggml_new_tensor_impl s type n ne vs vo = Ok (s', p) → p = NULL ∧ s' = s ∨ new_outcome s type n ne vs vo s' p.
Proof.
  intros P Hl Hs. unfold ggml_new_tensor_impl. pose proof (pool_buffer _ P) as HB.
  destruct (ggml_assert ((0 <=? type) && _)); [|done]. cbn [mbind res_bind].
  destruct (ggml_assert ((1 <=? n)%nat && _)) as [u|] eqn:Hn; [|done]. cbn [mbind res_bind].
  apply ggml_assert_Ok in Hn. rewrite andb_true_iff, !Nat.leb_le in Hn. unfold GGML_MAX_DIMS in Hn.
  destruct (view_base _ vs vo) as [[base offs]|] eqn:Hbase; [|done]. cbn [mbind res_bind].
  destruct (view_base_spec _ _ _ _ _ (pool_tensors _ P) Hbase) as [Hnull _].
  destruct (ggml_row_size type _) as [row|] eqn:Hrow; [|done]. cbn [mbind res_bind].
  destruct (view_fits _ _ base offs) as [fits|]; [|done]. cbn [mbind res_bind].
  destruct (ggml_assert fits); [|done]. cbn [mbind res_bind].
  destruct (view_data _ base offs) as [data|] eqn:Hdata; [|done]. cbn [mbind res_bind].
  destruct (ggml_type_size type) as [elem|] eqn:Helem; [|done]. cbn [mbind res_bind].
  destruct (new_sizes type n ne row Hn Hl Hs Hrow) as [Hsz _].
  set (size := data_size row (drop 1 (take n ne))) in *.
  assert (Hdone : ∀ c' sc al data', 0 ≤ al < 2 ^ 60 → scratch_ok (st_ctx s) sc →
    c' = st_ctx s ∧ sc = cx_scratch (st_ctx s) ∨ c' = with_scratch (st_ctx s) sc →
    let o := object_at (st_ctx s) GGML_OBJECT_TYPE_TENSOR (GGML_TENSOR_SIZE + al) in
    (room (st_ctx s) (GGML_TENSOR_SIZE + al) → base = NULL → base_data_ok (st_ctx s) o (data' (object_ptr (st_ctx s) o)) size) →
    (room (st_ctx s) (GGML_TENSOR_SIZE + al) → base_placed base (st_ctx s) sc (data' (object_ptr (st_ctx s) o)) size) →
    (base ≠ NULL → data' = λ _, data) →
    ('(c', obj_new) ← ggml_new_object c' GGML_OBJECT_TYPE_TENSOR (u64 (GGML_TENSOR_SIZE + al));
     result ← object_address c' obj_new;
     Ok (finish_tensor c' (st_tensors s) result type elem row (take n ne) base offs (data' result), result)) = Ok (s', p) →
    new_outcome s type n ne vs vo s' p).
  { intros c' sc al data' Ha Hsc Hc' o Hd Hpl Hv Heq.
    exists sc, (GGML_TENSOR_SIZE + al), row, elem, base, offs, (data' (object_ptr (st_ctx s) o)).
    split; [by apply (create_created s P type n ne row elem base offs Hn Hl Hs Hrow Helem c')|].
    split_and!; try done; try lia. intros Hvs. rewrite Hv by (by rewrite Hnull). done. }
  pose proof (pool_scratch _ P) as Hsc.
  assert (Hdata0 : base = NULL → data = NULL) by (unfold view_data in Hdata; intros ->; cbn in Hdata; congruence).
  destruct (is_null base && negb (cx_no_alloc (st_ctx s))) eqn:Hown; cbn [andb].
  - apply andb_true_iff in Hown as [Hb _]. unfold is_null in Hb. apply Z.eqb_eq in Hb.
    unfold is_null. destruct (Z.eqb_spec (sc_data (cx_scratch (st_ctx s))) NULL) as [Hsd|Hsd]; cbn [negb].
    + intros Heq. right. revert Heq.
      apply (Hdone _ (cx_scratch (st_ctx s)) size (λ result, if 0 <? size then u64 (result + GGML_TENSOR_SIZE) else data));
        [lia|done|by left| | |done]; intros Hroom.
      * intros _. unfold base_data_ok. destruct (Z.ltb_spec 0 size); [|left; auto]. right; left. apply (own_data s P); [lia|done].
      * left. split; [done|]. right. destruct (Z.ltb_spec 0 size); [right|left; by apply Hdata0].
        rewrite (proj1 (own_data s P size ltac:(lia) Hroom)). apply (own_in_memory s P); [lia|done].
    + destruct (sc_size _ <? _) eqn:Hfull; [intros [= <- <-]; by left|]. intros Heq. right. revert Heq.
      destruct (scratch_alloc _ _ size HB Hsc Hsd) as [Hsc' Hout]; [lia|done|].
      change GGML_TENSOR_SIZE with (u64 (GGML_TENSOR_SIZE + 0)).
      set (sc := mk_scratch _ _ _) in *. apply (Hdone _ sc 0 (λ _, u64 (sc_data (cx_scratch (st_ctx s)) + sc_offs (cx_scratch (st_ctx s)))));
        [lia|exact Hsc'|by right| | |done]; intros _.
      * intros _. by right; right.
      * right. destruct Hsc as [?|(S1 & S2 & S3 & S4 & S5)]; [done|].
        split_and!; [lia|done|by apply u64_small; lia|]. unfold sc. by rewrite (u64_small (_ + size)) by lia.
  - intros Heq. right. revert Heq. apply (Hdone _ (cx_scratch (st_ctx s)) 0 (λ _, data)); [lia|done|by left| | |done].
    + intros _ Hb. by left; apply Hdata0.
    + intros _. left. split; [done|]. destruct (decide (base = NULL)) as [Hb|Hb]; [right; left; by apply Hdata0|by left].
Qed.

(** ** Operators keep the invariant *)

Lemma pool_shape s p t : pool s → deref (st_tensors s) p = Ok t → p ≠ NULL ∧ shape_ok t.
Proof.
  intros P Ht. destruct (pool_tensors _ P) as [Hn Hall]. unfold deref in Ht. destruct (st_tensors s !! p) as [t'|] eqn:Hp; [|done].
  injection Ht as ->. split; [congruence|]. by apply (Hall p).
Qed.

Lemma modify_pool s p f s' : pool s → modify s p f = Ok s' →
  (∀ t, st_tensors s !! p = Some t → shape_ok t → shape_ok (f t)) →
  (∀ o t, st_tensors s !! p = Some t → data_ok (st_ctx s) o t → data_ok (st_ctx s) o (f t)) → pool s'.
Proof.
  intros P Hm Hshape Hdata. unfold modify in Hm. apply bind_Ok in Hm as (t & Ht & Hm). injection Hm as <-.
  destruct (pool_shape s p t P Ht) as [Hp Hsh]. unfold deref in Ht. destruct (st_tensors s !! p) eqn:Hl; [|done]. injection Ht as ->.
  split; cbn [set_tensor st_ctx st_tensors]; [apply P|apply P| |by apply tensors_ok_insert; [apply P|done|auto]|apply P|apply P].
  eapply Forall_impl; [apply P|]. intros o Ho Ht. destruct (Ho Ht) as (Hsz & t' & Hl' & Hd). split; [done|].
  destruct (decide (object_ptr (st_ctx s) o = p)) as [<-|Hne].
  - exists (f t). rewrite lookup_insert_eq. split; [done|]. apply Hdata; [done|]. congruence.
  - exists t'. by rewrite lookup_insert_ne.
Qed.

Lemma new_impl_pool s type n ne vs vo s' p : pool s → (n ≤ length ne)%nat → small ne →
  ggml_new_tensor_impl s type n ne vs vo = Ok (s', p) →
  pool s' ∧ (vs ≠ NULL → ∀ t, st_tensors s' !! p = Some t → t_view_src t ≠ NULL).
Proof.
  intros P Hl Hs Hi. destruct (new_tensor_impl_created _ _ _ _ _ _ _ _ P Hl Hs Hi) as [[-> ->]|Hout].
  - split; [done|]. intros _ t Ht. destruct (pool_tensors _ P) as [Hn _]. congruence.
  - destruct Hout as (sc & size & row & elem & base & offs & data & Hcr & _ & Hbase & _).
    split; [by eapply created_pool|]. intros Hvs t. destruct Hcr as (-> & _ & _ & _ & _ & _ & _ & _ & ->). cbn [st_tensors].
    rewrite lookup_insert_eq. intros [= <-]. cbn [t_view_src new_tensor].
    destruct (view_base_spec _ _ _ _ _ (pool_tensors _ P) Hbase) as [Hnull _]. by rewrite Hnull.
Qed.

Lemma dup_pool s src s' p : pool s → ggml_dup_tensor s src = Ok (s', p) → pool s'.
Proof.
  intros P Hd. unfold ggml_dup_tensor in Hd. apply bind_Ok in Hd as (a & Ha & Hd).
  destruct (pool_shape _ _ _ P Ha) as [_ (Hl & _ & Hs)]. eapply (new_impl_pool s); [done| |exact Hs|exact Hd]. rewrite Hl; done.
Qed.

Lemma nbytes_same t t' : t_type t' = t_type t → t_ne t' = t_ne t → t_nb t' = t_nb t → ggml_nbytes t' = ggml_nbytes t.
Proof.
  intros E1 E2 E3. unfold ggml_nbytes, add_extents, extent, TensorLayout.ne, TensorLayout.nb. by rewrite E1, E2, E3.
Qed.

(** Changes of the fields that describe the operation. *)
Lemma modify_op_pool s p f s' : pool s → modify s p f = Ok s' →
  (∀ t, t_type (f t) = t_type t ∧ t_ne (f t) = t_ne t ∧ t_nb (f t) = t_nb t ∧ t_view_src (f t) = t_view_src t ∧ t_data (f t) = t_data t) →
  pool s'.
Proof.
  intros P Hm Hf. apply (modify_pool s p f s' P Hm).
  - intros t _ (? & ? & ?). destruct (Hf t) as (E1 & E2 & E3 & E4 & E5). unfold shape_ok. by rewrite E2, E3.
  - intros o t _. destruct (Hf t) as (E1 & E2 & E3 & E4 & E5). unfold data_ok. by rewrite E1, E4, E5, (nbytes_same t (f t)).
Qed.

(** Changes of the layout of a view. *)
Lemma modify_view_pool s p f s' : pool s → modify s p f = Ok s' →
  (∀ t, st_tensors s !! p = Some t → t_view_src t ≠ NULL) →
  (∀ t, t_view_src (f t) = t_view_src t ∧ (shape_ok t → shape_ok (f t))) → pool s'.
Proof.
  intros P Hm Hv Hf. apply (modify_pool s p f s' P Hm).
  - intros t _. apply Hf.
  - intros o t Ht _. left. rewrite (proj1 (Hf t)). by apply Hv.
Qed.

Lemma finish_op_pool s r op is_node a s' p : pool s → finish_op s r op is_node a = Ok (s', p) → pool s'.
Proof.
  intros P Hf. unfold finish_op in Hf. apply bind_Ok in Hf as (s1 & H1 & Hf).
  assert (P1 : pool s1) by (by apply (modify_op_pool s r _ s1 P H1)).
  apply bind_Ok in Hf as ([s2 grad] & H2 & Hf). apply bind_Ok in Hf as (s3 & H3 & Hf). injection Hf as <- <-.
  assert (P2 : pool s2) by (destruct is_node; [by apply (dup_pool s1 r s2 grad)|by injection H2 as <- _]).
  by apply (modify_op_pool s2 r _ s3 P2 H3).
Qed.

(** ** Tensors of the pool *)

(** A tensor of the context, of whatever kind. *)
Definition in_pool (c : ggml_context) (p : ptr) : Prop := ∃ o, o ∈ cx_objects c ∧ is_tensor o ∧ object_ptr c o = p.

Lemma created_fresh s sc size t s' p q : pool s → created s sc size t s' p → in_pool (st_ctx s) q → q ≠ p.
Proof.
  intros P Hcr (o & Ho & Hto & <-). pose proof (created_pool _ _ _ _ _ _ P Hcr) as P'.
  destruct Hcr as (-> & _ & _ & Hsz & _ & _ & _ & _ & ->). apply list_elem_of_lookup in Ho as [i Hi].
  pose proof (pool_objects _ P) as Hall. rewrite Forall_lookup in Hall. destruct (Hall i o Hi Hto) as [Hos _].
  pose proof (lookup_lt_Some _ _ _ Hi). set (s' := mk_store _ _) in *.
  change (object_ptr (st_ctx s') o ≠ object_ptr (st_ctx s') (object_at (st_ctx s) GGML_OBJECT_TYPE_TENSOR size)).
  apply (object_ptr_ne _ i (length (cx_objects (st_ctx s)))); [apply P'|apply P'| | |lia|done|].
  - cbn. by rewrite lookup_app_l.
  - cbn. by rewrite lookup_app_r, Nat.sub_diag.
  - cbn. destruct (pad16_bounds size) as [? _]; [unfold GGML_TENSOR_SIZE in *; lia|]. lia.
Qed.

Lemma created_in_pool s sc size t s' p : created s sc size t s' p →
  in_pool (st_ctx s') p ∧ st_tensors s' !! p = Some t ∧ (∀ q, in_pool (st_ctx s) q → in_pool (st_ctx s') q).
Proof.
  intros (-> & _ & _ & _ & _ & _ & _ & _ & ->). split_and!.
  - eexists. split; [|split; [|reflexivity]]; [cbn; set_solver|done].
  - apply lookup_insert_eq.
  - intros q (o & Ho & Ht & Hq). exists o. split; [cbn; set_solver|done].
Qed.

(** Creating a tensor leaves those of the pool as they are. *)
Lemma dup_frame s src s' p q : pool s → ggml_dup_tensor s src = Ok (s', p) → in_pool (st_ctx s) q →
  st_tensors s' !! q = st_tensors s !! q ∧ in_pool (st_ctx s') q.
Proof.
  intros P Hd Hq. unfold ggml_dup_tensor in Hd. apply bind_Ok in Hd as (a & Ha & Hd).
  destruct (pool_shape _ _ _ P Ha) as [_ (Hl & _ & Hs)].
  destruct (new_tensor_impl_created s _ GGML_MAX_DIMS _ NULL 0 s' p P ltac:(rewrite Hl; done) Hs Hd) as [[-> ->]|Hout]; [done|].
  destruct Hout as (sc & size & row & elem & base & offs & data & Hcr & _).
  pose proof (created_fresh _ _ _ _ _ _ q P Hcr Hq). destruct (created_in_pool _ _ _ _ _ _ Hcr) as (_ & _ & Hin).
  split; [|by apply Hin]. destruct Hcr as (-> & _ & _ & _ & _ & _ & _ & _ & ->). cbn [st_tensors]. by apply lookup_insert_ne.
Qed.

(** The result of an operator: the tensor [t] that was created, with its operation. *)
Lemma finish_op_spec s r op is_node a s' p t : pool s → in_pool (st_ctx s) r → st_tensors s !! r = Some t →
  finish_op s r op is_node a = Ok (s', p) →
  p = r ∧ in_pool (st_ctx s') r ∧ ∃ grad, st_tensors s' !! r = Some (with_grad_src (with_op t op) grad a) ∧
    (is_node = false → s' = set_tensor s r (with_grad_src (with_op t op) NULL a)).
Proof.
  intros P Hr Ht Hf. unfold finish_op in Hf. apply bind_Ok in Hf as (s1 & H1 & Hf).
  assert (P1 : pool s1) by (by apply (modify_op_pool s r _ s1 P H1)).
  unfold modify, deref in H1. rewrite Ht in H1. injection H1 as <-.
  apply bind_Ok in Hf as ([s2 grad] & H2 & Hf). apply bind_Ok in Hf as (s3 & H3 & Hf). injection Hf as <- <-.
  assert (H2' : st_tensors s2 !! r = Some (with_op t op) ∧ in_pool (st_ctx s2) r ∧
    (is_node = false → s2 = set_tensor s r (with_op t op) ∧ grad = NULL)).
  { destruct is_node.
    - destruct (dup_frame _ _ _ _ r P1 H2 Hr) as [E Hin]. rewrite E. split_and!; [apply lookup_insert_eq|done|done].
    - injection H2 as <- <-. split_and!; [apply lookup_insert_eq|done|done]. }
  destruct H2' as (Hl & Hin & Hno). unfold modify, deref in H3. rewrite Hl in H3. injection H3 as <-.
  split; [done|]. split; [exact Hin|]. exists grad. split; [apply lookup_insert_eq|].
  intros Hn. destruct (Hno Hn) as [-> ->]. unfold set_tensor. cbn [st_ctx st_tensors]. by rewrite insert_insert_eq.
Qed.

(** ** Calls *)

Inductive tensor_call : Type :=
  | NewTensor (type : Z) (n_dims : nat) (ne : list Z)
  | DupTensor (src : ptr)
  | ViewTensor (src : ptr)
  | Cont (a : ptr)
  | Cont4d (a : ptr) (ne0 ne1 ne2 ne3 : Z)
  | Reshape (a b : ptr)
  | ReshapeNd (a : ptr) (ne : list Z)
  | Reshape4dExt (a : ptr) (type ne0 ne1 ne2 ne3 : Z)
  | View1d (a : ptr) (ne0 offset : Z)
  | View2d (a : ptr) (ne0 ne1 nb1 offset : Z)
  | View3d (a : ptr) (ne0 ne1 ne2 nb1 nb2 offset : Z)
  | View4d (a : ptr) (ne0 ne1 ne2 ne3 nb1 nb2 nb3 offset : Z)
  | Permute (a : ptr) (axis0 axis1 axis2 axis3 : Z)
  | Transpose (a : ptr)
  | NewObject (type : ggml_object_type) (size : Z)   (** a graph or a work buffer *)
  | SetScratch (scratch : ggml_scratch)
  | SetNoAlloc (no_alloc : bool).

Definition run_call (s : store) (call : tensor_call) : res (store * ptr) :=
  match call with
  | NewTensor type n_dims ne => ggml_new_tensor s type n_dims ne
  | DupTensor src => ggml_dup_tensor s src
  | ViewTensor src => ggml_view_tensor s src
  | Cont a => ggml_cont s a
  | Cont4d a ne0 ne1 ne2 ne3 => ggml_cont_4d s a ne0 ne1 ne2 ne3
  | Reshape a b => ggml_reshape s a b
  | ReshapeNd a ne => ggml_reshape_nd s a ne
  | Reshape4dExt a type ne0 ne1 ne2 ne3 => ggml_reshape_4d_ext s a type ne0 ne1 ne2 ne3
  | View1d a ne0 offset => ggml_view_1d s a ne0 offset
  | View2d a ne0 ne1 nb1 offset => ggml_view_2d s a ne0 ne1 nb1 offset
  | View3d a ne0 ne1 ne2 nb1 nb2 offset => ggml_view_3d s a ne0 ne1 ne2 nb1 nb2 offset
  | View4d a ne0 ne1 ne2 ne3 nb1 nb2 nb3 offset => ggml_view_4d s a ne0 ne1 ne2 ne3 nb1 nb2 nb3 offset
  | Permute a axis0 axis1 axis2 axis3 => ggml_permute s a axis0 axis1 axis2 axis3
  | Transpose a => ggml_transpose s a
  | NewObject type size =>
      '(c, o) ← ggml_new_object (st_ctx s) type size; p ← object_address c o; Ok (mk_store c (st_tensors s), p)
  | SetScratch scratch => Ok (mk_store (ggml_set_scratch (st_ctx s) scratch).1 (st_tensors s), NULL)
  | SetNoAlloc no_alloc => Ok (mk_store (ggml_set_no_alloc (st_ctx s) no_alloc) (st_tensors s), NULL)
  end.

Fixpoint run_calls (s : store) (calls : list tensor_call) : res store :=
  match calls with
  | [] => Ok s
  | call :: calls => '(s, _) ← run_call s call; run_calls s calls
  end.

(** The sizes a call asks for do not overflow, and a scratch buffer is apart from
    the pool [c]. *)
Definition call_ok (c : ggml_context) (call : tensor_call) : Prop :=
  match call with
  | NewTensor _ n ne => (n ≤ length ne)%nat ∧ small ne
  | Cont4d _ ne0 ne1 ne2 ne3 | Reshape4dExt _ _ ne0 ne1 ne2 ne3 | View4d _ ne0 ne1 ne2 ne3 _ _ _ _ =>
      small [ne0; ne1; ne2; ne3]
  | ReshapeNd _ ne => small ne
  | View1d _ ne0 _ => small [ne0]
  | View2d _ ne0 ne1 _ _ => small [ne0; ne1]
  | View3d _ ne0 ne1 ne2 _ _ _ => small [ne0; ne1; ne2]
  | NewObject type size => type ≠ GGML_OBJECT_TYPE_TENSOR ∧ 0 ≤ size < 2 ^ 62
  | SetScratch scratch => scratch_ok c scratch
  | _ => True
  end.

(** An operator that creates a tensor and finishes it. *)
Lemma impl_finish s type n ne vs vo op is_node a s1 r s' p : pool s → (n ≤ length ne)%nat → small ne →
  ggml_new_tensor_impl s type n ne vs vo = Ok (s1, r) → finish_op s1 r op is_node a = Ok (s', p) →
  pool s' ∧ p = r ∧ ∃ sc size t grad, created s sc size t s1 r ∧ new_outcome s type n ne vs vo s1 r ∧
    st_tensors s1 !! r = Some t ∧ st_tensors s' !! r = Some (with_grad_src (with_op t op) grad a) ∧
    (is_node = false → s' = set_tensor s1 r (with_grad_src (with_op t op) NULL a)) ∧ in_pool (st_ctx s') r.
Proof.
  intros P Hl Hs Hi Hf. destruct (new_impl_pool _ _ _ _ _ _ _ _ P Hl Hs Hi) as [P1 _].
  split; [by apply (finish_op_pool s1 r op is_node a s' p)|].
  destruct (new_tensor_impl_created _ _ _ _ _ _ _ _ P Hl Hs Hi) as [[-> ->]|Hout].
  { unfold finish_op, modify, deref in Hf. by rewrite (proj1 (pool_tensors _ P)) in Hf. }
  pose proof Hout as (sc & size & row & elem & base & offs & data & Hcr & _).
  destruct (created_in_pool _ _ _ _ _ _ Hcr) as (Hin & Ht & _).
  destruct (finish_op_spec _ _ _ _ _ _ _ _ P1 Hin Ht Hf) as (-> & Hin' & grad & Ht' & Hno).
  split; [done|]. exists sc, size, (new_tensor type n ne elem row base offs data), grad. done.
Qed.

(** The base of a view is never [NULL]. *)
Lemma outcome_view s type n ne vs vo s1 r t : pool s → vs ≠ NULL → new_outcome s type n ne vs vo s1 r →
  st_tensors s1 !! r = Some t → t_view_src t ≠ NULL.
Proof.
  intros P Hvs (sc & size & row & elem & base & offs & data & Hcr & _ & Hbase & _) Ht.
  destruct (created_in_pool _ _ _ _ _ _ Hcr) as (_ & Ht' & _). rewrite Ht' in Ht. injection Ht as <-.
  destruct (view_base_spec _ _ _ _ _ (pool_tensors _ P) Hbase) as [Hnull _]. cbn. by rewrite Hnull.
Qed.

Lemma impl_same s type n ne vs vo s' p : pool s → (n ≤ length ne)%nat → small ne →
  ggml_new_tensor_impl s type n ne vs vo = Ok (s', p) → same_pool (st_ctx s) (st_ctx s').
Proof.
  intros P Hl Hs Hi. destruct (new_tensor_impl_created _ _ _ _ _ _ _ _ P Hl Hs Hi) as [[-> ->]|Hout]; [done|].
  destruct Hout as (sc & size & row & elem & base & offs & data & (_ & _ & _ & _ & _ & _ & _ & _ & ->) & _). done.
Qed.

Lemma dup_same s src s' p : pool s → ggml_dup_tensor s src = Ok (s', p) → same_pool (st_ctx s) (st_ctx s').
Proof.
  intros P Hd. unfold ggml_dup_tensor in Hd. apply bind_Ok in Hd as (a & Ha & Hd).
  destruct (pool_shape _ _ _ P Ha) as [_ (Hl & _ & Hs)]. apply (impl_same s _ _ _ _ _ s' p P ltac:(rewrite Hl; done) Hs Hd).
Qed.

Lemma modify_ctx s p f s' : modify s p f = Ok s' → st_ctx s' = st_ctx s.
Proof. unfold modify. intros Hm. apply bind_Ok in Hm as (t & _ & Hm). by injection Hm as <-. Qed.

Lemma finish_op_same s r op is_node a s' p : pool s → finish_op s r op is_node a = Ok (s', p) → same_pool (st_ctx s) (st_ctx s').
Proof.
  intros P Hf. unfold finish_op in Hf. apply bind_Ok in Hf as (s1 & H1 & Hf).
  apply bind_Ok in Hf as ([s2 grad] & H2 & Hf). apply bind_Ok in Hf as (s3 & H3 & Hf). injection Hf as <- <-.
  assert (P1 : pool s1) by (by apply (modify_op_pool s r _ s1 P H1)).
  rewrite (modify_ctx _ _ _ _ H3), <- (modify_ctx _ _ _ _ H1). destruct is_node; [by apply (dup_same s1 r s2 grad)|by injection H2 as <- _].
Qed.

(** *** The pieces of the scratch buffer *)

Definition owned (s s' : store) : Prop := ∀ k, scratch_owned k s → scratch_owned k s'.

(** No tensor gets other data. *)
Lemma owned_same s s' : cx_scratch (st_ctx s') = cx_scratch (st_ctx s) →
  (∀ k i t', scratch_tensor k s' i t' → ∃ t, scratch_tensor k s i t ∧ t_data t' = t_data t ∧ ggml_nbytes t' = ggml_nbytes t) →
  owned s s'.
Proof.
  intros Hsc Hold k [H1 H2]. split; rewrite ?Hsc.
  - intros i t' n (t & Ht & -> & ->)%Hold Hn. by apply (H1 i).
  - intros i j t t' n Hij (t0 & Ht & -> & ->)%Hold (t1 & Ht' & -> & _)%Hold Hn. by apply (H2 i j).
Qed.

Lemma modify_owned s p f s' : modify s p f = Ok s' →
  (∀ t, st_tensors s !! p = Some t → t_view_src (f t) ≠ NULL ∨
     t_type (f t) = t_type t ∧ t_ne (f t) = t_ne t ∧ t_nb (f t) = t_nb t ∧ t_view_src (f t) = t_view_src t ∧ t_data (f t) = t_data t) →
  owned s s'.
Proof.
  unfold modify, deref. destruct (st_tensors s !! p) as [t0|] eqn:Hp; [|done]. intros [= <-] Hf. apply owned_same; [done|].
  intros k i t' [K1 (o & K2 & K3 & K4) K5 K6 K7 K8]. cbn [set_tensor st_ctx st_tensors] in *.
  destruct (decide (object_ptr (st_ctx s) o = p)) as [<-|Hne].
  - rewrite lookup_insert_eq in K4. injection K4 as <-. destruct (Hf t0 eq_refl) as [?|(E1 & E2 & E3 & E4 & E5)]; [done|].
    exists t0. rewrite E5 in *. rewrite E1 in *. rewrite E4 in *. split; [split; try done; by exists o|]. by rewrite (nbytes_same t0).
  - rewrite lookup_insert_ne in K4 by done. exists t'. split; [split; try done; by exists o|done].
Qed.

(** A new tensor gets the next piece. *)
Lemma created_scratch k s sc size t s' p i t' : pool s → created s sc size t s' p → scratch_tensor k s' i t' →
  scratch_tensor k s i t' ∧ (i < length (cx_objects (st_ctx s)))%nat ∨
  i = length (cx_objects (st_ctx s)) ∧ t' = t ∧ t_view_src t = NULL ∧ t_type t ≠ GGML_TYPE_I2_S ∧ t_data t ≠ NULL ∧ ¬ in_memory (st_ctx s) (t_data t).
Proof.
  intros P Hcr [K1 (o & K2 & K3 & K4) K5 K6 K7 K8]. pose proof (created_fresh _ _ _ _ _ _ (object_ptr (st_ctx s) o) P Hcr) as Hfresh.
  destruct Hcr as (-> & _ & _ & _ & _ & _ & _ & _ & ->). cbn [st_ctx st_tensors cx_objects with_objects] in *.
  change (object_ptr (with_objects _ _ _) o) with (object_ptr (st_ctx s) o) in K4.
  apply lookup_app_Some in K2 as [Hi|[Hi Ho]].
  - left. pose proof (lookup_lt_Some _ _ _ Hi). rewrite lookup_insert_ne in K4.
    + split; [split; try done; by exists o|done].
    + intros E. apply Hfresh; [|done]. exists o. split; [by eapply list_elem_of_lookup_2|done].
  - right. apply list_lookup_singleton_Some in Ho as [Hi0 <-]. rewrite lookup_insert_eq in K4. injection K4 as <-. split; [lia|done].
Qed.

Lemma created_owned s sc size t s' p : pool s → created s sc size t s' p → owned s s'.
Proof.
  intros P Hcr k [H1 H2]. pose proof (λ i t', created_scratch k _ _ _ _ _ _ i t' P Hcr) as Hold.
  pose proof Hcr as (_ & _ & Hok & _ & _ & _ & _ & Hpl & ->). cbn [st_ctx cx_scratch with_objects with_scratch] in *.
  assert (sc_data sc = sc_data (cx_scratch (st_ctx s)) ∧ sc_offs (cx_scratch (st_ctx s)) ≤ sc_offs sc ∧
    (t_view_src t = NULL → t_type t ≠ GGML_TYPE_I2_S → t_data t ≠ NULL → ¬ in_memory (st_ctx s) (t_data t) →
     t_data t = sc_data sc + sc_offs (cx_scratch (st_ctx s)) ∧ 0 ≤ sc_offs (cx_scratch (st_ctx s)) ∧
     ∃ m, ggml_nbytes t = Ok m ∧ t_data t + m ≤ sc_data sc + sc_offs sc)) as (Hd & Ho & Hnew).
  { destruct Hpl as [[-> Hpl]|(n & Hn & Hne & Hdata & -> & Hb)]; [split_and!; [done..|tauto]|]. cbn [sc_data sc_offs]. split_and!; [done|lia|].
    intros _ Htype _ _. rewrite Hdata. split; [done|]. destruct (pool_scratch _ P) as [?|(? & ? & _)]; [done|]. split; [lia|].
    destruct (Hb Htype) as (m & -> & ?). exists m. split; [done|lia]. }
  split; cbn [st_ctx cx_scratch with_objects with_scratch].
  - intros i t' n [[Ht' _]|(_ & -> & Hv & Hty & Hda & Hin)]%Hold Hn.
    + specialize (H1 i t' n Ht' Hn). lia.
    + destruct (Hnew Hv Hty Hda Hin) as (E & ? & m & Em & ?). rewrite Em in Hn. injection Hn as <-. lia.
  - intros i j t1 t2 n Hij [[Ht1 Hi]|(-> & _)]%Hold [[Ht2 Hj]|(-> & -> & Hv & Hty & Hda & Hin)]%Hold Hn; [by apply (H2 i j)| |lia|lia].
    specialize (H1 i t1 n Ht1 Hn). destruct (Hnew Hv Hty Hda Hin) as (E & _). lia.
Qed.

Lemma owned_refl s : owned s s.
Proof. by intros k. Qed.

Lemma owned_trans s1 s2 s3 : owned s1 s2 → owned s2 s3 → owned s1 s3.
Proof. intros H1 H2 k Hk. by apply H2, H1. Qed.

Lemma impl_owned s type n ne vs vo s' p : pool s → (n ≤ length ne)%nat → small ne →
  ggml_new_tensor_impl s type n ne vs vo = Ok (s', p) → owned s s'.
Proof.
  intros P Hl Hs Hi. destruct (new_tensor_impl_created _ _ _ _ _ _ _ _ P Hl Hs Hi) as [[-> ->]|Hout]; [apply owned_refl|].
  destruct Hout as (sc & size & row & elem & base & offs & data & Hcr & _). by eapply created_owned.
Qed.

Lemma dup_owned s src s' p : pool s → ggml_dup_tensor s src = Ok (s', p) → owned s s'.
Proof.
  intros P Hd. unfold ggml_dup_tensor in Hd. apply bind_Ok in Hd as (a & Ha & Hd).
  destruct (pool_shape _ _ _ P Ha) as [_ (Hl & _ & Hs)]. apply (impl_owned s _ _ _ _ _ s' p P ltac:(rewrite Hl; done) Hs Hd).
Qed.

Lemma finish_op_owned s r op is_node a s' p : pool s → finish_op s r op is_node a = Ok (s', p) → owned s s'.
Proof.
  intros P Hf. unfold finish_op in Hf. apply bind_Ok in Hf as (s1 & H1 & Hf).
  apply bind_Ok in Hf as ([s2 grad] & H2 & Hf). apply bind_Ok in Hf as (s3 & H3 & Hf). injection Hf as <- <-.
  assert (P1 : pool s1) by (by apply (modify_op_pool s r _ s1 P H1)).
  apply (owned_trans _ s1); [apply (modify_owned _ _ _ _ H1); intros; by right|].
  apply (owned_trans _ s2); [|apply (modify_owned _ _ _ _ H3); intros; by right].
  destruct is_node; [by apply (dup_owned s1 r s2 grad)|injection H2 as <- _; apply owned_refl].
Qed.

Definition keeps (s s' : store) : Prop := pool s' ∧ same_pool (st_ctx s) (st_ctx s') ∧ owned s s'.

Lemma keeps_trans s1 s2 s3 : keeps s1 s2 → keeps s2 s3 → keeps s1 s3.
Proof. intros (_ & [A B] & O1) (P & [C D] & O2). split_and!; [done|split; congruence|by apply (owned_trans _ s2)]. Qed.

Lemma impl_keeps s type n ne vs vo s' p : pool s → (n ≤ length ne)%nat → small ne →
  ggml_new_tensor_impl s type n ne vs vo = Ok (s', p) → keeps s s'.
Proof. intros. split_and!; [by eapply new_impl_pool|by eapply impl_same|by eapply impl_owned]. Qed.

Lemma dup_keeps s src s' p : pool s → ggml_dup_tensor s src = Ok (s', p) → keeps s s'.
Proof. intros. split_and!; [by eapply dup_pool|by eapply dup_same|by eapply dup_owned]. Qed.

Lemma finish_keeps s r op is_node a s' p : pool s → finish_op s r op is_node a = Ok (s', p) → keeps s s'.
Proof. intros. split_and!; [by eapply finish_op_pool|by eapply finish_op_same|by eapply finish_op_owned]. Qed.

Lemma pool_dims s p t : pool s → deref (st_tensors s) p = Ok t → p ≠ NULL ∧ (GGML_MAX_DIMS ≤ length (t_ne t))%nat ∧ small (t_ne t).
Proof. intros P Ht. destruct (pool_shape _ _ _ P Ht) as (Hp & Hl & _ & Hs). rewrite Hl. done. Qed.

(** *** Views *)

Lemma set_strides_keeps s r nb1 nb2 nb3 s' p : pool s → (∀ t, st_tensors s !! r = Some t → t_view_src t ≠ NULL) →
  set_strides s r nb1 nb2 nb3 = Ok (s', p) → keeps s s'.
Proof.
  intros P Hv Hs. unfold set_strides in Hs. apply bind_Ok in Hs as (s1 & H1 & Hs). injection Hs as <- <-.
  split_and!; [|by rewrite (modify_ctx _ _ _ _ H1)|apply (modify_owned _ _ _ _ H1); intros t Ht; left; exact (Hv t Ht)].
  apply (modify_view_pool s r _ s1 P H1 Hv). intros t. split; [done|]. intros (? & ? & ?). done.
Qed.

Lemma view_impl_keeps s a ne offset s' p : pool s → small ne → ggml_view_impl s a ne offset = Ok (s', p) →
  keeps s s' ∧ ∀ t, st_tensors s' !! p = Some t → t_view_src t ≠ NULL.
Proof.
  intros P Hs Hv. unfold ggml_view_impl in Hv. apply bind_Ok in Hv as (ta & Ha & Hv).
  destruct (pool_dims _ _ _ P Ha) as (Hap & _). apply bind_Ok in Hv as ([s1 r] & Hi & Hf).
  destruct (impl_finish _ _ _ _ _ _ _ _ _ _ _ _ _ P (le_n _) Hs Hi Hf) as (P' & -> & sc & size & t & grad & Hcr & Hout & Ht & Ht' & _).
  pose proof (impl_keeps _ _ _ _ _ _ _ _ P (le_n _) Hs Hi) as K1. split.
  - apply (keeps_trans _ s1); [done|]. by eapply finish_keeps; [apply K1|].
  - rewrite Ht'. intros t' [= <-]. cbn. exact (outcome_view _ _ _ _ _ _ _ _ t P Hap Hout Ht).
Qed.

Lemma view_tensor_keeps s src s' p : pool s → ggml_view_tensor s src = Ok (s', p) →
  keeps s s' ∧ in_pool (st_ctx s') p ∧ ∃ a t, deref (st_tensors s) src = Ok a ∧ st_tensors s' !! p = Some t ∧ t_view_src t ≠ NULL ∧
    t_ne t = t_ne a ∧ t_nb t = t_nb a ∧ t_type t = t_type a.
Proof.
  intros P Hv. unfold ggml_view_tensor in Hv. apply bind_Ok in Hv as (a & Ha & Hv).
  destruct (pool_shape _ _ _ P Ha) as (Hap & Hl & Hlnb & Hs). apply bind_Ok in Hv as ([s1 r] & Hi & Hv).
  apply bind_Ok in Hv as (s2 & Hm & Hv). injection Hv as <- <-.
  assert (Hlen : (GGML_MAX_DIMS ≤ length (t_ne a))%nat) by (by rewrite Hl).
  destruct (new_impl_pool _ _ _ _ _ _ _ _ P Hlen Hs Hi) as [P1 Hview].
  pose proof (impl_same _ _ _ _ _ _ _ _ P Hlen Hs Hi) as Hsame. pose proof (modify_ctx _ _ _ _ Hm) as Hctx.
  destruct (new_tensor_impl_created _ _ _ _ _ _ _ _ P Hlen Hs Hi) as [[-> ->]|Hout].
  { unfold modify, deref in Hm. by rewrite (proj1 (pool_tensors _ P)) in Hm. }
  pose proof Hout as (sc & size & row & elem & base & offs & data & Hcr & _).
  destruct (created_in_pool _ _ _ _ _ _ Hcr) as (Hin & Ht & _).
  split; [split_and!; [|by rewrite Hctx|]|split; [by rewrite Hctx|]].
  - apply (modify_view_pool s1 r _ s2 P1 Hm); [intros t Ht'; by apply (Hview Hap t)|].
    intros t. split; [done|]. by intros (? & ? & ?).
  - apply (owned_trans _ s1); [by apply (impl_owned _ _ _ _ _ _ _ _ P Hlen Hs Hi)|]. apply (modify_owned _ _ _ _ Hm). intros t Ht'.
    left. exact (Hview Hap t Ht').
  - eexists a, _. split; [done|]. unfold modify, deref in Hm. rewrite Ht in Hm. injection Hm as <-.
    split; [apply lookup_insert_eq|]. split; [exact (Hview Hap _ Ht)|]. cbn. split; [|done].
    unfold pad_ne, GGML_MAX_DIMS. rewrite !firstn_all2 by lia. by rewrite Hl, app_nil_r.
Qed.

(** *** Permutations *)

(** The numbers of a permuted array are those of the array. *)
Lemma scatter_perm (axes v : list Z) : axes_ok axes = true → length axes = 4%nat → length v = 4%nat →
  scatter (Z.to_nat <$> axes) v ≡ₚ v ∧ ∀ k a x, axes !! k = Some a → v !! k = Some x →
    scatter (Z.to_nat <$> axes) v !! Z.to_nat a = Some x.
Proof.
  unfold axes_ok. rewrite andb_true_iff, forallb_forall, bool_decide_eq_true. intros [Hr Hnd] Hla Hlv.
  destruct axes as [|a0 [|a1 [|a2 [|a3 [|]]]]]; try done. destruct v as [|v0 [|v1 [|v2 [|v3 [|]]]]]; try done.
  assert (Hb : ∀ x, In x [a0; a1; a2; a3] → x = 0 ∨ x = 1 ∨ x = 2 ∨ x = 3).
  { intros x Hx. specialize (Hr x Hx). rewrite andb_true_iff, Z.leb_le, Z.ltb_lt in Hr. unfold GGML_MAX_DIMS in Hr. lia. }
  rewrite !NoDup_cons in Hnd. rewrite !list_elem_of_In in Hnd. cbn in Hnd.
  pose proof (Hb a0 ltac:(cbn; tauto)) as B0. pose proof (Hb a1 ltac:(cbn; tauto)) as B1.
  pose proof (Hb a2 ltac:(cbn; tauto)) as B2. pose proof (Hb a3 ltac:(cbn; tauto)) as B3. clear Hb Hr.
  destruct B0 as [->|[->|[->| ->]]]; destruct B1 as [->|[->|[->| ->]]]; try tauto;
    destruct B2 as [->|[->|[->| ->]]]; try tauto; destruct B3 as [->|[->|[->| ->]]]; try tauto; clear Hnd.
  all: split; [vm_compute; solve_Permutation|].
  all: intros [|[|[|[|k]]]] a x Ha Hx; cbn in Ha, Hx; simplify_eq; reflexivity.
Qed.

Lemma permute_keeps s a axis0 axis1 axis2 axis3 s' p : pool s → ggml_permute s a axis0 axis1 axis2 axis3 = Ok (s', p) → keeps s s'.
Proof.
  intros P Hp. unfold ggml_permute in Hp. apply bind_Ok in Hp as ([] & Hax & Hp). apply ggml_assert_Ok in Hax.
  apply bind_Ok in Hp as (ta & Ha & Hp). destruct (pool_shape _ _ _ P Ha) as (Hap & Hl & Hlnb & Hs).
  apply bind_Ok in Hp as ([s1 r] & Hv & Hp). apply bind_Ok in Hp as (s2 & Hm & Hf).
  destruct (view_tensor_keeps _ _ _ _ P Hv) as (K1 & _ & _ & t & _ & Ht & Hview & _).
  assert (P2 : pool s2).
  { apply (modify_view_pool s1 r _ s2 (proj1 K1) Hm); [intros t' Ht'; by simplify_eq|].
    intros t'. split; [done|]. intros _. destruct (scatter_perm [axis0; axis1; axis2; axis3] (t_ne ta) Hax eq_refl Hl) as [Hp1 _].
    destruct (scatter_perm [axis0; axis1; axis2; axis3] (t_nb ta) Hax eq_refl Hlnb) as [Hp2 _].
    split_and!; cbn [t_ne t_nb with_layout]; [by rewrite Hp1|by rewrite Hp2|by rewrite Hp1]. }
  apply (keeps_trans _ s1); [done|]. apply (keeps_trans _ s2); [split_and!; [done|by rewrite (modify_ctx _ _ _ _ Hm)|apply (modify_owned _ _ _ _ Hm); intros t' Ht'; left; by simplify_eq]|].
  by eapply finish_keeps.
Qed.

Lemma transpose_keeps s a s' p : pool s → ggml_transpose s a = Ok (s', p) → keeps s s'.
Proof.
  intros P Hp. unfold ggml_transpose in Hp. apply bind_Ok in Hp as (ta & Ha & Hp).
  apply bind_Ok in Hp as ([s1 r] & Hv & Hp). apply bind_Ok in Hp as (s2 & Hm & Hf).
  destruct (view_tensor_keeps _ _ _ _ P Hv) as (K1 & _ & a' & t & Ha' & Ht & Hview & Hne & Hnb & _).
  rewrite Ha in Ha'. injection Ha' as <-. destruct (pool_shape _ _ _ P Ha) as (_ & Hl & Hlnb & Hs).
  assert (P2 : pool s2).
  { apply (modify_pool s1 r _ s2 (proj1 K1) Hm).
    - intros t' Ht' _. simplify_eq. unfold shape_ok, TensorLayout.ne. cbn. split_and!; [done|done|]. rewrite Hne.
      destruct (t_ne ta) as [|n0 [|n1 [|n2 [|n3 [|]]]]]; try done. cbn.
      apply (small_proper _ [n0; n1; n2; n3]); [constructor|done].
    - intros o t' Ht' _. left. by simplify_eq. }
  apply (keeps_trans _ s1); [done|]. apply (keeps_trans _ s2); [split_and!; [done|by rewrite (modify_ctx _ _ _ _ Hm)|apply (modify_owned _ _ _ _ Hm); intros t' Ht'; left; by simplify_eq]|].
  by eapply finish_keeps.
Qed.

(** *** All calls *)

Lemma object_keeps s type size c o : pool s → type ≠ GGML_OBJECT_TYPE_TENSOR → 0 ≤ size < 2 ^ 62 →
  ggml_new_object (st_ctx s) type size = Ok (c, o) → keeps s (mk_store c (st_tensors s)).
Proof.
  intros P Htype Hsz Ho. rewrite (new_object_spec _ _ _ (pool_buffer _ P) (pool_chain _ P) Hsz) in Ho.
  case_decide as Hroom; injection Ho as <- <-; [|destruct s; split_and!; [done..|apply owned_refl]].
  split; [|split; [done|]].
  2: { apply owned_same; [done|]. intros k i t [K1 (o & K2 & K3 & K4) K5 K6 K7 K8]. exists t. split; [|done].
       cbn [st_ctx st_tensors cx_objects with_objects] in *. split; try done. exists o. split; [|done].
       apply lookup_app_Some in K2 as [?|[_ Ho]]; [done|]. apply list_lookup_singleton_Some in Ho as [_ <-]. done. }
  split; cbn [st_ctx st_tensors]; [apply (buffer_ok_same (st_ctx s)); [done|apply P]| | |apply P|apply P|].
  - exact (object_at_chain _ type size (pool_buffer _ P) (pool_chain _ P) Hsz Hroom).
  - cbn [cx_objects with_objects]. apply Forall_app. split; [|by apply Forall_singleton].
    eapply Forall_impl; [apply (pool_objects _ P)|]. intros o Ho. exact Ho.
  - cbn [cx_n_objects with_objects cx_objects]. rewrite filter_app, filter_cons_False by done. by rewrite app_nil_r, (pool_count _ P).
Qed.

(** Settings that leave the pool alone. *)
Lemma pool_settings s c : pool s → same_pool (st_ctx s) c ∧ cx_objects c = cx_objects (st_ctx s) ∧ cx_n_objects c = cx_n_objects (st_ctx s) →
  scratch_ok (st_ctx s) (cx_scratch c) → pool (mk_store c (st_tensors s)).
Proof.
  intros P (Hs & E1 & E2) Hsc. destruct Hs as [Eb Es]. split; cbn [st_ctx st_tensors].
  - by apply (buffer_ok_same (st_ctx s)); [|apply P].
  - rewrite Es, E1. apply P.
  - rewrite E1. eapply Forall_impl; [apply (pool_objects _ P)|]. intros o Ho Ht. destruct (Ho Ht) as (Hsz & t & Hl & Hd).
    split; [done|]. exists t. unfold object_ptr. rewrite Eb. split; [done|]. by apply (data_ok_same (st_ctx s)).
  - apply P.
  - by apply (scratch_ok_same (st_ctx s)).
  - rewrite E1, E2. apply P.
Qed.

(** Another scratch buffer begins new pieces. *)
Definition sets_scratch (call : tensor_call) : bool := match call with SetScratch _ => true | _ => false end.

Lemma set_scratch_keeps s sc : pool s → scratch_ok (st_ctx s) sc →
  let s' := mk_store (ggml_set_scratch (st_ctx s) sc).1 (st_tensors s) in pool s' ∧ same_pool (st_ctx s) (st_ctx s').
Proof. intros P Hok. split; [|done]. by apply pool_settings. Qed.

Lemma run_call_keeps s call s' p : pool s → call_ok (st_ctx s) call → sets_scratch call = false →
  run_call s call = Ok (s', p) → keeps s s'.
Proof.
  intros P Hok Hset Hr. destruct call; cbn [run_call call_ok] in *.
  - destruct Hok. by eapply impl_keeps.
  - by eapply dup_keeps.
  - by eapply view_tensor_keeps.
  - unfold ggml_cont in Hr. apply bind_Ok in Hr as (ta & _ & Hr). apply bind_Ok in Hr as ([s1 r] & Hd & Hf).
    pose proof (dup_keeps _ _ _ _ P Hd) as K. apply (keeps_trans _ s1); [done|]. by eapply finish_keeps; [apply K|].
  - unfold ggml_cont_4d in Hr. apply bind_Ok in Hr as (ta & _ & Hr). apply bind_Ok in Hr as (_ & _ & Hr).
    apply bind_Ok in Hr as ([s1 r] & Hd & Hf). assert (K : keeps s s1) by (eapply impl_keeps; [done| |exact Hok|exact Hd]; done).
    apply (keeps_trans _ s1); [done|]. by eapply finish_keeps; [apply K|].
  - unfold ggml_reshape in Hr. apply bind_Ok in Hr as (ta & _ & Hr). apply bind_Ok in Hr as (tb & Hb & Hr).
    destruct (pool_dims _ _ _ P Hb) as (_ & Hl & Hs). apply bind_Ok in Hr as (? & _ & Hr). apply bind_Ok in Hr as (? & _ & Hr).
    apply bind_Ok in Hr as (? & _ & Hr). apply bind_Ok in Hr as ([s1 r] & Hi & Hf).
    pose proof (impl_keeps _ _ _ _ _ _ _ _ P Hl Hs Hi) as K. apply (keeps_trans _ s1); [done|]. by eapply finish_keeps; [apply K|].
  - unfold ggml_reshape_nd in Hr. apply bind_Ok in Hr as (ta & _ & Hr). do 3 apply bind_Ok in Hr as (? & _ & Hr).
    apply bind_Ok in Hr as ([s1 r] & Hi & Hf).
    pose proof (impl_keeps _ _ _ _ _ _ _ _ P (le_n _) Hok Hi) as K. apply (keeps_trans _ s1); [done|]. by eapply finish_keeps; [apply K|].
  - unfold ggml_reshape_4d_ext in Hr. apply bind_Ok in Hr as (ta & _ & Hr). apply bind_Ok in Hr as ([s1 r] & Hi & Hf).
    do 4 apply bind_Ok in Hf as (? & _ & Hf). assert (K : keeps s s1) by (eapply impl_keeps; [done| |exact Hok|exact Hi]; done).
    apply (keeps_trans _ s1); [done|]. by eapply finish_keeps; [apply K|].
  - by eapply view_impl_keeps.
  - unfold ggml_view_2d in Hr. apply bind_Ok in Hr as ([s1 r] & Hi & Hf). destruct (view_impl_keeps _ _ _ _ _ _ P Hok Hi) as [K Hv].
    apply (keeps_trans _ s1); [done|]. by eapply set_strides_keeps; [apply K|..].
  - unfold ggml_view_3d in Hr. apply bind_Ok in Hr as ([s1 r] & Hi & Hf). destruct (view_impl_keeps _ _ _ _ _ _ P Hok Hi) as [K Hv].
    apply (keeps_trans _ s1); [done|]. by eapply set_strides_keeps; [apply K|..].
  - unfold ggml_view_4d in Hr. apply bind_Ok in Hr as ([s1 r] & Hi & Hf). destruct (view_impl_keeps _ _ _ _ _ _ P Hok Hi) as [K Hv].
    apply (keeps_trans _ s1); [done|]. by eapply set_strides_keeps; [apply K|..].
  - by eapply permute_keeps.
  - by eapply transpose_keeps.
  - destruct Hok. apply bind_Ok in Hr as ([c o] & Ho & Hr). apply bind_Ok in Hr as (q & _ & Hr). injection Hr as <- <-. by eapply object_keeps.
  - done.
  - injection Hr as <- <-. split_and!; [|done|].
    + apply pool_settings; [done|done|apply P].
    + apply owned_same; [done|]. intros k i t [K1 K2 K3 K4 K5 K6]. by exists t.
Qed.

Lemma run_calls_keeps calls : ∀ s s', pool s → Forall (call_ok (st_ctx s)) calls → run_calls s calls = Ok s' →
  pool s' ∧ same_pool (st_ctx s) (st_ctx s') ∧ (forallb (λ c, negb (sets_scratch c)) calls = true → owned s s').
Proof.
  induction calls as [|call calls IH]; intros s s' P Hok Hr; cbn [run_calls forallb] in *; [injection Hr as <-; split_and!; [done..|intros _; apply owned_refl]|].
  apply Forall_cons in Hok as [H1 Hok]. apply bind_Ok in Hr as ([s1 p] & Hc & Hr).
  assert (pool s1 ∧ same_pool (st_ctx s) (st_ctx s1) ∧ (sets_scratch call = false → owned s s1)) as (P1 & K & O1).
  { destruct (sets_scratch call) eqn:Hset; [|destruct (run_call_keeps _ _ _ _ P H1 Hset Hc) as (? & ? & ?); by split_and!].
    destruct call; try done. injection Hc as <- <-. destruct (set_scratch_keeps s scratch P H1). by split_and!. }
  destruct (IH s1 s' P1) as (P2 & K2 & O2); [|done|].
  { eapply Forall_impl; [exact Hok|]. intros c Hc'. destruct c; try exact Hc'. cbn in *. by apply (scratch_ok_same (st_ctx s)). }
  split_and!; [done|destruct K as [A B], K2 as [C D]; split; congruence|].
  intros [?%negb_true_iff ?]%andb_true_iff. apply (owned_trans _ s1); [by apply O1|by apply O2].
Qed.

(** Nothing is in the scratch buffer yet. *)
Lemma scratch_owned_new s : scratch_owned (length (cx_objects (st_ctx s))) s.
Proof.
  assert (∀ i t, ¬ scratch_tensor (length (cx_objects (st_ctx s))) s i t) as Hno.
  { intros i t [K1 (o & K2 & _) _ _ _ _]. apply lookup_lt_Some in K2. lia. }
  split; intros; by edestruct Hno.
Qed.

Lemma run_calls_app calls1 calls2 : ∀ s s', run_calls s (calls1 ++ calls2) = Ok s' →
  ∃ s1, run_calls s calls1 = Ok s1 ∧ run_calls s1 calls2 = Ok s'.
Proof.
  induction calls1 as [|call calls1 IH]; intros s s' Hr; [by exists s|]. cbn [app run_calls] in Hr.
  apply bind_Ok in Hr as ([s0 p] & Hc & Hr). destruct (IH _ _ Hr) as (s1 & H1 & H2). exists s1. split; [|done]. cbn [run_calls]. by rewrite Hc.
Qed.

(** After the last change of the scratch buffer. *)
Lemma run_calls_owned calls1 calls2 s s1 s' : pool s → Forall (call_ok (st_ctx s)) (calls1 ++ calls2) →
  forallb (λ c, negb (sets_scratch c)) calls2 = true → run_calls s calls1 = Ok s1 → run_calls s1 calls2 = Ok s' →
  scratch_owned (length (cx_objects (st_ctx s1))) s'.
Proof.
  intros P [H1 H2]%Forall_app Hset Hr1 Hr2. destruct (run_calls_keeps _ _ _ P H1 Hr1) as (P1 & K1 & _).
  destruct (run_calls_keeps calls2 s1 s' P1) as (_ & _ & O); [|done|by apply O, scratch_owned_new].
  eapply Forall_impl; [exact H2|]. intros c Hc. destruct c; try exact Hc. cbn in *. by apply (scratch_ok_same (st_ctx s)).
Qed.
