(* ===== verification/TensorOps.v ===== *)
(** * What the operations on tensors promise

    The memory pool of a context under every sequence of calls, when a new tensor can
    be created and what it looks like, and where the elements of reshaped and
    permuted tensors are. *)
From S2P Require Import Prelude DynAlloc HashSet Graph TensorTypes TensorLayout TensorContext TensorPool.

(** ** Walking over the tensors *)

Lemma first_tensor_filter c l : first_tensor c l = match filter is_tensor l with [] => NULL | o :: _ => object_ptr c o end.
Proof.
  induction l as [|o l IH]; cbn [first_tensor]; [done|]. destruct (decide (is_tensor o)) as [Ho|Ho].
  - by rewrite filter_cons_True, bool_decide_true.
  - by rewrite filter_cons_False, bool_decide_false.
Qed.

Section walk.
Context (s : store) (P : pool s).
Local Abbreviation c := (st_ctx s).

Lemma tensor_ptr i o : cx_objects c !! i = Some o → is_tensor o → object_ptr c o ≠ NULL ∧
  ∀ j o', cx_objects c !! j = Some o' → object_ptr c o' = object_ptr c o → (j < i)%nat → False.
Proof using P.
  intros Hi Ho. pose proof (pool_objects _ P) as Hall. rewrite Forall_lookup in Hall. destruct (Hall i o Hi Ho) as [Hsz _].
  pose proof (pool_buffer _ P) as HB. pose proof (pool_chain _ P) as Hc. unfold GGML_TENSOR_SIZE in Hsz.
  pose proof (buffer_size _ HB). pose proof (buffer_pos _ HB). pose proof (buffer_end _ HB).
  destruct (chain_lookup _ _ _ _ _ Hc Hi) as (F1 & F2 & F3 & _); [lia|done|]. unfold GGML_OBJECT_SIZE in *.
  assert (E : object_ptr c o = cx_mem_buffer c + ob_offs o) by (apply object_ptr_eq; done || lia).
  rewrite E. split; [unfold NULL; lia|]. intros j o' Hj Heq Hlt.
  destruct (chain_lookup _ _ _ _ _ Hc Hj) as (G1 & G2 & G3 & _); [lia|done|].
  pose proof (chain_ordered _ _ _ _ _ _ _ Hc Hlt Hj Hi). unfold GGML_OBJECT_SIZE in *.
  unfold object_ptr in Heq. rewrite u64_small in Heq by lia. lia.
Qed.

Lemma next_tensor_spec i o : cx_objects c !! i = Some o → is_tensor o →
  ggml_get_next_tensor c (object_ptr c o) = Ok (first_tensor c (drop (S i) (cx_objects c))).
Proof using P.
  intros Hi Ho. unfold ggml_get_next_tensor.
  assert (list_find (λ o', object_ptr c o' = object_ptr c o) (cx_objects c) = Some (i, o)) as ->; [|done].
  apply list_find_Some. split_and!; [done|done|]. intros j o' Hj Hlt Heq.
  by destruct (tensor_ptr i o Hi Ho) as [_ Hu]; apply (Hu j o').
Qed.

Lemma walk_from k : ∀ fuel, (k ≤ length (cx_objects c))%nat → (length (cx_objects c) - k < fuel)%nat →
  walk_tensors fuel c (first_tensor c (drop k (cx_objects c))) = Ok (object_ptr c <$> filter is_tensor (drop k (cx_objects c))).
Proof using P.
  remember (length (cx_objects c) - k)%nat as m eqn:Hm. revert k Hm.
  induction m as [m IH] using lt_wf_ind. intros k Hm fuel Hk Hf.
  destruct fuel as [|fuel]; [lia|]. cbn [walk_tensors].
  destruct (drop k (cx_objects c)) as [|o l] eqn:Hd; [done|].
  assert (Ho : cx_objects c !! k = Some o) by (rewrite <- (Nat.add_0_r k), <- lookup_drop, Hd; done).
  assert (Hl : l = drop (S k) (cx_objects c)) by (rewrite <- Nat.add_1_r, <- drop_drop, Hd; done).
  pose proof (lookup_lt_Some _ _ _ Ho). cbn [first_tensor]. destruct (decide (is_tensor o)) as [Hto|Hto].
  - rewrite bool_decide_true by done. destruct (tensor_ptr k o Ho Hto) as [Hn _].
    unfold is_null. rewrite (proj2 (Z.eqb_neq _ _) Hn), (next_tensor_spec k o Ho Hto). cbn [mbind res_bind].
    rewrite (IH (length (cx_objects c) - S k)%nat ltac:(lia) (S k) eq_refl fuel ltac:(lia) ltac:(lia)). cbn [mbind res_bind].
    by rewrite filter_cons_True, fmap_cons, Hl.
  - rewrite bool_decide_false by done. rewrite filter_cons_False by done. rewrite Hl.
    apply (IH (length (cx_objects c) - S k)%nat ltac:(lia) (S k) eq_refl (S fuel) ltac:(lia) ltac:(lia)).
Qed.

Lemma walk_all : walk_tensors (S (length (cx_objects c))) c (ggml_get_first_tensor c) = Ok (object_ptr c <$> filter is_tensor (cx_objects c)).
Proof using P. apply (walk_from 0); lia. Qed.
End walk.

(** ** The pool is safe *)

Lemma new_context_pool params malloc c T : new_context params malloc = Ok c → 0 < cx_mem_buffer c →
  0 ≤ cx_mem_size c < 2 ^ 62 → cx_mem_buffer c + cx_mem_size c ≤ 2 ^ 64 → tensors_ok T → pool (mk_store c T).
Proof.
  unfold new_context. destruct (ggml_assert _); [|done]. cbn [mbind res_bind]. destruct (assert_aligned _) eqn:Ha; [|done]. cbn [mbind res_bind].
  unfold assert_aligned in Ha. apply ggml_assert_Ok, Z.eqb_eq in Ha. unfold GGML_MEM_ALIGN in Ha at 1.
  intros [= <-] Hp Hs He HT. cbn [cx_mem_buffer cx_mem_size] in *. split; [by split|done|by constructor|done|by left|done].
Qed.

(** C39. In a context opened by [ggml_init], under every sequence of calls that create
    tensors, views, graphs and buffers (of sizes far below the limits of [size_t]),
    change the scratch buffer or the setting [no_alloc]: objects do not overlap, nor do
    their headers; they lie inside the pool, at multiples of 16; every tensor is in its
    object.  A tensor that is not a view and has data (I2_S tensors apart) has them to
    itself: they end with its object, or they are in a scratch buffer outside the pool,
    and those of the tensors created since the scratch buffer was set (or since any
    later time) lie in the used part of that buffer and do not overlap.  The walk over
    the tensors visits exactly those of the context, in the order of their creation. *)
Theorem pool_safe (params : ggml_init_params) (malloc : ptr) (c : ggml_context) (T : tensors) (calls : list tensor_call) (s : store) :
  new_context params malloc = Ok c → 0 < cx_mem_buffer c → 0 ≤ cx_mem_size c < 2 ^ 62 →
  cx_mem_buffer c + cx_mem_size c ≤ 2 ^ 64 → tensors_ok T → Forall (call_ok c) calls →
  run_calls (mk_store c T) calls = Ok s →
  let c' := st_ctx s in
  cx_mem_buffer c' = cx_mem_buffer c ∧ cx_mem_size c' = cx_mem_size c ∧
  (∀ i j o o', (i < j)%nat → cx_objects c' !! i = Some o → cx_objects c' !! j = Some o' →
     ob_offs o + ob_size o ≤ ob_offs o' - GGML_OBJECT_SIZE) ∧
  (∀ o, o ∈ cx_objects c' → GGML_OBJECT_SIZE ≤ ob_offs o ∧ ob_offs o + ob_size o ≤ cx_mem_size c ∧
     (cx_mem_buffer c + ob_offs o) mod GGML_MEM_ALIGN = 0) ∧
  (∀ o, o ∈ cx_objects c' → is_tensor o → GGML_TENSOR_SIZE ≤ ob_size o ∧ object_ptr c' o = cx_mem_buffer c + ob_offs o ∧
     ∃ t, st_tensors s !! object_ptr c' o = Some t ∧ data_ok c' o t) ∧
  walk_tensors (S (length (cx_objects c'))) c' (ggml_get_first_tensor c') = Ok (object_ptr c' <$> filter is_tensor (cx_objects c')) ∧
  cx_n_objects c' = i32 (Z.of_nat (length (filter is_tensor (cx_objects c')))) ∧
  (∀ calls1 calls2 s1, calls = calls1 ++ calls2 → forallb (λ call, negb (sets_scratch call)) calls2 = true →
     run_calls (mk_store c T) calls1 = Ok s1 → scratch_owned (length (cx_objects (st_ctx s1))) s).
Proof.
  intros Hnew Hp Hs He HT Hcalls Hrun c'. pose proof (new_context_pool _ _ _ T Hnew Hp Hs He HT) as P0.
  destruct (run_calls_keeps calls _ _ P0 Hcalls Hrun) as (P & [Eb Es] & _). cbn [st_ctx] in Eb, Es. fold c' in Eb, Es.
  pose proof (pool_chain _ P) as Hc. pose proof (pool_buffer _ P) as HB. fold c' in Hc, HB.
  split_and!; [done|done| | | |by apply walk_all|apply P|].
  - intros i j o o' Hij Hi Hj. by apply (chain_ordered _ _ _ _ _ _ _ Hc Hij).
  - intros o [i Hi]%list_elem_of_lookup. destruct (chain_lookup _ _ _ _ _ Hc Hi) as (? & ? & ? & Hm & _); [lia|done|].
    rewrite <- Es, <- Eb. split_and!; [lia|done|]. unfold GGML_MEM_ALIGN. by rewrite Z.add_mod, (buffer_aligned _ HB), Hm by lia.
  - intros o [i Hi]%list_elem_of_lookup Ho. pose proof (pool_objects _ P) as Hall. rewrite Forall_lookup in Hall.
    destruct (Hall i o Hi Ho) as (Hsz & t & Ht & Hd). fold c' in Ht, Hd.
    destruct (chain_lookup _ _ _ _ _ Hc Hi) as (? & ? & ? & _ & _); [lia|done|]. unfold GGML_OBJECT_SIZE, GGML_TENSOR_SIZE in *.
    split; [done|]. split; [rewrite <- Eb; apply object_ptr_eq; done || lia|]. by exists t.
  - intros calls1 calls2 s1 -> Hset Hrun1. destruct (run_calls_app _ _ _ _ Hrun) as (s1' & Hrun1' & Hrun2). rewrite Hrun1 in Hrun1'.
    injection Hrun1' as <-. by apply (run_calls_owned calls1 calls2 (mk_store c T)).
Qed.

(** ** New tensors *)

Lemma type_range type tr : type_traits type = Ok tr → (0 <=? type) && (type <? GGML_TYPE_COUNT) = true.
Proof. unfold type_traits. by destruct (_ && _). Qed.

Lemma row_size_exists type tr n : type_traits type = Ok tr → has_elements type = true → ∃ row, ggml_row_size type n = Ok row.
Proof.
  intros Htr Hel. unfold has_elements in Hel. rewrite Htr in Hel. apply negb_true_iff in Hel.
  unfold ggml_row_size. rewrite Htr. cbn [mbind res_bind]. rewrite Hel. by eexists.
Qed.

(** A new tensor with elements is contiguous. *)
Lemma new_contiguous type n ne elem row base offs data : (1 ≤ n ≤ 4)%nat → (n ≤ length ne)%nat → small ne →
  ggml_row_size type (take n ne !!! 0%nat) = Ok row → ggml_type_size type = Ok elem →
  Forall (λ x, 1 ≤ x) (pad_ne n ne) →
  ggml_is_contiguous (new_tensor type n ne elem row base offs data) = Ok true.
Proof.
  intros Hn Hl Hs Hrow Helem Hpos. destruct (pad_ne_spec n ne Hn Hl Hs) as (n0 & n1 & n2 & n3 & Hpad & [Hp4 Hw4] & H0 & _).
  rewrite Hpad, !Forall_cons in Hpos. destruct Hpos as (P0 & P1 & P2 & P3 & _). rewrite H0 in Hrow.
  cbn [weight foldr] in Hw4. rewrite Z.mul_1_r, !Z.max_r in Hw4 by lia.
  assert (1 ≤ n2 * n3) by nia. assert (1 ≤ n1 * (n2 * n3)) by nia.
  destruct (row_size_bounds type n0 row) as (tr & Htr & Hel & _ & Hrb & _); [nia|done|]. rewrite Z.max_r in Hrb by lia.
  assert (Hfit : row * (n1 * n2 * n3) < 2 ^ 64) by nia.
  unfold ggml_is_contiguous, ggml_is_contiguous_0, ggml_is_contiguous_n. change (t_type _) with type. rewrite Helem.
  unfold ggml_blck_size. rewrite Htr. cbn [mbind res_bind].
  set (t := new_tensor type n ne elem row base offs data).
  assert (Hne : t_ne t = [n0; n1; n2; n3]) by exact Hpad.
  assert (Hnb : t_nb t = [elem; row; n1 * row; n2 * n1 * row]).
  { destruct (prefix_products row n1 n2 n3 (2 ^ 64)) as [E1 E2]; [lia..|].
    cbn [t_nb t new_tensor]. unfold new_strides. rewrite Hpad. cbn [lookup_total list_lookup_total].
    assert (u64 (row * n1) = n1 * row) as -> by (rewrite u64_small by lia; ring).
    assert (u64 (n1 * row * n2) = n2 * n1 * row) as -> by (rewrite u64_small by lia; ring). done. }
  assert (nb t 0 = elem) as -> by (unfold nb; by rewrite Hnb). rewrite Z.eqb_refl, andb_false_r.
  assert (TensorLayout.ne t 0 = n0) as -> by (unfold TensorLayout.ne; by rewrite Hne). rewrite Hrow. cbn [mbind res_bind]. f_equal.
  apply (contiguous_loop_123 t 0 row row); unfold TensorLayout.ne, nb; rewrite ?Hne, ?Hnb; cbn [lookup_total list_lookup_total]; try done; try lia.
Qed.

(** The data go into the scratch buffer. *)
Definition in_scratch (c : ggml_context) : bool := negb (cx_no_alloc c) && negb (is_null (sc_data (cx_scratch c))).

(** The bytes of the data in the object of the tensor. *)
Definition own_bytes (c : ggml_context) (size : Z) : Z := if cx_no_alloc c || in_scratch c then 0 else size.

(** A call that has created, in the object [o], the tensor [t] it was asked for. *)
Definition made (s : store) (type : Z) (n : nat) (ne : list Z) (size : Z) (r : res (store * ptr)) (o : ggml_object) (t : ggml_tensor) : Prop :=
  let c := st_ctx s in
  ∃ s', r = Ok (s', object_ptr c o) ∧ pool s' ∧
    cx_objects (st_ctx s') = cx_objects c ++ [o] ∧ st_tensors s' = <[object_ptr c o := t]> (st_tensors s) ∧
    t_type t = type ∧ t_ne t = pad_ne n ne ∧ t_view_src t = NULL ∧
    t_data t = (if in_scratch c then sc_data (cx_scratch c) + sc_offs (cx_scratch c)
                else if 0 <? own_bytes c size then object_ptr c o + GGML_TENSOR_SIZE else NULL) ∧
    (Forall (λ x, 1 ≤ x) (pad_ne n ne) →
       ggml_is_contiguous t = Ok true ∧ (type ≠ GGML_TYPE_I2_S → ggml_nbytes t = Ok size)).

Section new_tensor.
Context (s : store) (P : pool s) (type : Z) (n : nat) (ne : list Z) (tr : ggml_type_traits) (row : Z).
Context (Hn : (1 ≤ n ≤ 4)%nat) (Hl : (n ≤ length ne)%nat) (Hs : small ne) (Htr : type_traits type = Ok tr).
Context (Hrow : ggml_row_size type (take n ne !!! 0%nat) = Ok row).
Local Abbreviation c := (st_ctx s).
Local Abbreviation sc := (cx_scratch c).
Local Abbreviation size := (row * foldr Z.mul 1 (drop 1 (take n ne))).

Lemma new_data_size : data_size row (drop 1 (take n ne)) = size ∧ 0 ≤ size < 2 ^ 60.
Proof using Hn Hl Hs Hrow.
  destruct (new_sizes type n ne row Hn Hl Hs Hrow) as [Hsz _].
  assert (E : data_size row (drop 1 (take n ne)) = size); [|by rewrite <- E].
  destruct (pad_ne_spec n ne Hn Hl Hs) as (n0 & n1 & n2 & n3 & _ & [Hpos Hw4] & H0 & _ & Hw). rewrite H0 in Hrow.
  rewrite !Forall_cons in Hpos. destruct Hpos as (P0 & P1 & P2 & P3 & _). cbn [weight foldr] in Hw4.
  assert (1 ≤ weight [n1; n2; n3]) by apply weight_pos. cbn [weight foldr] in *.
  destruct (row_size_bounds type n0 row) as (? & _ & _ & _ & Hrb & _); [nia|done|].
  apply (data_size_exact (drop 1 (take n ne)) row); [lia|apply Forall_drop, small_take, Hs|rewrite Hw; cbn [weight foldr]; nia].
Qed.

Lemma elem_ok : ggml_type_size type = Ok (type_size tr).
Proof using Htr. unfold ggml_type_size. by rewrite Htr. Qed.

(** The last steps, with [a] bytes in the object. *)
Lemma new_tensor_made c' sc' a (data : ptr → ptr) : 0 ≤ a < 2 ^ 60 → scratch_ok c sc' →
  c' = c ∧ sc' = sc ∨ c' = with_scratch c sc' →
  (∀ x, data x = if in_scratch c then sc_data sc + sc_offs sc else if 0 <? own_bytes c size then u64 (x + GGML_TENSOR_SIZE) else NULL) →
  own_bytes c size = a →
  ggml_new_tensor s type n ne =
    ('(c', obj_new) ← ggml_new_object c' GGML_OBJECT_TYPE_TENSOR (u64 (GGML_TENSOR_SIZE + a));
     result ← object_address c' obj_new;
     Ok (finish_tensor c' (st_tensors s) result type (type_size tr) row (take n ne) NULL 0 (data result), result)) →
  if decide (room c (GGML_TENSOR_SIZE + own_bytes c size)) then ∃ o t, made s type n ne size (ggml_new_tensor s type n ne) o t
  else ggml_new_tensor s type n ne = Err Oob.
Proof using P Hn Hl Hs Htr Hrow.
  intros Ha Hsc' Hc' Hdata Hown Hrun. destruct (new_sizes type n ne row Hn Hl Hs Hrow) as [_ Hnew].
  rewrite (create_object s P type n ne row (type_size tr) NULL 0 Hn Hl c' sc' a data Ha Hsc' Hc') in Hrun. rewrite Hown.
  case_decide as Hroom; [|done]. set (o := object_at c GGML_OBJECT_TYPE_TENSOR (GGML_TENSOR_SIZE + a)) in *.
  exists o, (new_tensor type n ne (type_size tr) row NULL 0 (data (object_ptr c o))).
  eexists. split; [exact Hrun|]. split; [by eapply (new_impl_pool s type n ne NULL 0)|].
  split; [done|]. split; [done|]. split; [done|]. split; [done|]. split; [done|]. split.
  - change (t_data _) with (data (object_ptr c o)). rewrite Hdata, Hown.
    destruct (in_scratch c); [done|]. destruct (Z.ltb_spec 0 a); [|done]. apply (own_data s P a); [lia|done].
  - intros Hpos. destruct (Hnew (type_size tr) NULL 0 (data (object_ptr c o)) elem_ok) as [_ Hb].
    split; [apply new_contiguous; done || apply elem_ok|]. intros Htype. rewrite (Hb Htype), (proj1 new_data_size). f_equal.
    destruct (existsb _ dims) eqn:Hz; [|done]. exfalso. apply existsb_exists in Hz as (i & Hi & Hz). apply Z.leb_le in Hz.
    destruct (pad_ne_spec n ne Hn Hl Hs) as (n0 & n1 & n2 & n3 & Hpad & _). unfold TensorLayout.ne in Hz. cbn [t_ne new_tensor] in Hz.
    rewrite Hpad in Hz, Hpos. rewrite !Forall_cons in Hpos. cbn in Hi. destruct Hi as [<-|[<-|[<-|[<-|[]]]]]; cbn in Hz; lia.
Qed.

(** The first steps: the tests and the choice of the memory. *)
Lemma new_tensor_unfold : ggml_new_tensor s type n ne =
  if in_scratch c then
    if sc_size sc <? u64 (sc_offs sc + size) then Ok (s, NULL)
    else
      '(c', obj_new) ← ggml_new_object (with_scratch c (mk_scratch (u64 (sc_offs sc + size)) (sc_size sc) (sc_data sc)))
                         GGML_OBJECT_TYPE_TENSOR (u64 (GGML_TENSOR_SIZE + 0));
      result ← object_address c' obj_new;
      Ok (finish_tensor c' (st_tensors s) result type (type_size tr) row (take n ne) NULL 0 (u64 (sc_data sc + sc_offs sc)), result)
  else
    '(c', obj_new) ← ggml_new_object c GGML_OBJECT_TYPE_TENSOR (u64 (GGML_TENSOR_SIZE + own_bytes c size));
    result ← object_address c' obj_new;
    Ok (finish_tensor c' (st_tensors s) result type (type_size tr) row (take n ne) NULL 0
          (if 0 <? own_bytes c size then u64 (result + GGML_TENSOR_SIZE) else NULL), result).
Proof using Hn Hl Hs Htr Hrow.
  unfold ggml_new_tensor, ggml_new_tensor_impl. rewrite (type_range type tr Htr). cbn [ggml_assert mbind res_bind].
  rewrite (proj2 (Nat.leb_le 1 n)), (proj2 (Nat.leb_le n GGML_MAX_DIMS)) by (unfold GGML_MAX_DIMS; lia).
  unfold view_base, view_fits, view_data. cbn [andb ggml_assert mbind res_bind is_null NULL Z.eqb orb].
  rewrite Hrow. cbn [mbind res_bind ggml_assert]. rewrite elem_ok, (proj1 new_data_size). cbn [mbind res_bind].
  unfold own_bytes, in_scratch. by destruct (cx_no_alloc c), (is_null (sc_data sc)).
Qed.
End new_tensor.

(** Creating a tensor, in a context reached by calls: it fails exactly when its data does not
    fit the scratch buffer in use ([NULL] is returned) or the pool has no room for
    the tensor (and for its data, unless they go elsewhere).  Otherwise a new object
    holds a tensor of the shape asked for, whose data are at the end of the object,
    at the next free place of the scratch buffer, or absent; when no dimension is
    empty it is contiguous, and its size is the product of its dimensions and the
    size of its rows. *)
Theorem new_tensor_exact (s : store) (type : Z) (n : nat) (ne : list Z) (tr : ggml_type_traits) :
  pool s → (1 ≤ n ≤ 4)%nat → (n ≤ length ne)%nat → small ne → type_traits type = Ok tr → has_elements type = true →
  let c := st_ctx s in
  let sc := cx_scratch c in
  ∃ row, ggml_row_size type (take n ne !!! 0%nat) = Ok row ∧
  let size := row * foldr Z.mul 1 (drop 1 (take n ne)) in
  if in_scratch c && (sc_size sc <? sc_offs sc + size) then ggml_new_tensor s type n ne = Ok (s, NULL)
  else if decide (room c (GGML_TENSOR_SIZE + own_bytes c size)) then
    ∃ o t, made s type n ne size (ggml_new_tensor s type n ne) o t
  else ggml_new_tensor s type n ne = Err Oob.
Proof.
  intros P Hn Hl Hs Htr Hel c sc. destruct (row_size_exists type tr (take n ne !!! 0%nat) Htr Hel) as [row Hrow].
  exists row. split; [done|]. intros size. destruct (new_data_size type n ne row Hn Hl Hs Hrow) as [_ Hsz]. fold size in Hsz.
  pose proof (pool_scratch _ P) as Hsc. pose proof (new_tensor_unfold s type n ne tr row Hn Hl Hs Htr Hrow) as Hrun.
  fold c sc size in Hsc, Hrun. destruct (in_scratch c) eqn:Hin; cbn [andb].
  - pose proof Hin as [Hal Hsd]%andb_true_iff. apply negb_true_iff, Z.eqb_neq in Hsd.
    destruct Hsc as [?|(H1 & H2 & H3 & H4 & H5)]; [done|]. fold sc in Hsd. rewrite (u64_small (sc_offs sc + size)) in Hrun by lia.
    destruct (sc_size sc <? sc_offs sc + size) eqn:Hfull; [done|]. apply Z.ltb_ge in Hfull.
    set (sc' := mk_scratch (sc_offs sc + size) (sc_size sc) (sc_data sc)) in Hrun.
    apply (new_tensor_made s P type n ne tr row Hn Hl Hs Htr Hrow (with_scratch c sc') sc' 0 (λ _, u64 (sc_data sc + sc_offs sc)));
      [lia|right; unfold sc'; cbn; split_and!; done || lia|by right| | |exact Hrun].
    + intros x. fold c sc. rewrite Hin. apply u64_small. lia.
    + unfold own_bytes. fold c. by rewrite Hin, orb_true_r.
  - apply (new_tensor_made s P type n ne tr row Hn Hl Hs Htr Hrow c sc (own_bytes c size)
      (λ x, if 0 <? own_bytes c size then u64 (x + GGML_TENSOR_SIZE) else NULL)); [|done|by left| |done|exact Hrun].
    + unfold own_bytes. destruct (_ || _); lia.
    + intros x. fold c. by rewrite Hin.
Qed.

(** ** Views *)

(** The tensor whose memory [t], at [p], shows, and from which byte on. *)
Definition origin (t : ggml_tensor) (p : ptr) : ptr * Z :=
  if is_null (t_view_src t) then (p, 0) else (t_view_src t, t_view_offs t).

(** The contiguous size of the shape [ne], behind the offset, fits the memory of the
    origin of [a]; this is what [ggml_new_tensor_impl] tests. *)
Definition fits_origin (s : store) (a : ptr) (ta : ggml_tensor) (type : Z) (ne : list Z) (offset : Z) : Prop :=
  ∃ v row nbytes, st_tensors s !! (origin ta a).1 = Some v ∧ ggml_nbytes v = Ok nbytes ∧
    ggml_row_size type (ne !!! 0%nat) = Ok row ∧
    u64 (row * foldr Z.mul 1 (drop 1 ne) + u64 (offset + (origin ta a).2)) ≤ nbytes.

Lemma view_impl_ok s a ta type ne offset : pool s → st_tensors s !! a = Some ta → (1 ≤ length ne ≤ 4)%nat → small ne →
  0 ≤ offset < 2 ^ 64 → fits_origin s a ta type ne offset → room (st_ctx s) GGML_TENSOR_SIZE →
  ∃ s' p sc size elem row data, ggml_new_tensor_impl s type (length ne) ne a offset = Ok (s', p) ∧ pool s' ∧
    created s sc size (new_tensor type (length ne) ne elem row (origin ta a).1 (u64 (offset + (origin ta a).2)) data) s' p ∧
    ggml_row_size type (ne !!! 0%nat) = Ok row ∧ ggml_type_size type = Ok elem.
Proof.
  intros P Ha Hlen Hs Hoff (v & row & nbytes & Hv & Hnb & Hrow & Hfit) Hroom.
  assert (Hap : a ≠ NULL) by (intros ->; by rewrite (proj1 (pool_tensors _ P)) in Ha).
  assert (Hbase : view_base (st_tensors s) a offset = Ok ((origin ta a).1, u64 (offset + (origin ta a).2))).
  { unfold view_base, deref, origin. rewrite Ha. unfold is_null at 1. rewrite (proj2 (Z.eqb_neq _ _) Hap). cbn [mbind res_bind].
    destruct (is_null (t_view_src ta)); [by rewrite Z.add_0_r, u64_small|done]. }
  set (base := (origin ta a).1) in *. set (offs := u64 (offset + (origin ta a).2)) in *.
  assert (Hbn : is_null base = false).
  { unfold is_null. apply Z.eqb_neq. intros E. rewrite E, (proj1 (pool_tensors _ P)) in Hv. done. }
  assert (Htr : ∃ tr, type_traits type = Ok tr ∧ ggml_type_size type = Ok (type_size tr)).
  { unfold ggml_row_size in Hrow. destruct (type_traits type) as [tr|] eqn:E; [|done]. exists tr. unfold ggml_type_size. by rewrite E. }
  destruct Htr as (tr & Htr & Helem).
  assert (Htake : take (length ne) ne = ne) by (by apply firstn_all2).
  pose proof Hrow as Hrow'. rewrite <- Htake in Hrow' at 1.
  assert (Hds : data_size row (drop 1 ne) = row * foldr Z.mul 1 (drop 1 ne)).
  { destruct (pad_ne_spec (length ne) ne Hlen (le_n _) Hs) as (n0 & n1 & n2 & n3 & _ & [Hpos Hw4] & H0 & _ & Hw). rewrite H0 in Hrow'.
    rewrite Htake in *. rewrite !Forall_cons in Hpos. destruct Hpos as (P0 & P1 & P2 & P3 & _). cbn [weight foldr] in Hw4.
    assert (1 ≤ weight [n1; n2; n3]) by apply weight_pos. cbn [weight foldr] in *.
    destruct (row_size_bounds type n0 row) as (? & _ & _ & _ & Hrb & _); [nia|done|].
    apply (data_size_exact (drop 1 ne) row); [lia|apply Forall_drop, Hs|rewrite Hw; cbn [weight foldr]; nia]. }
  assert (Hrun : ∃ s' p, ggml_new_tensor_impl s type (length ne) ne a offset = Ok (s', p) ∧
    length (cx_objects (st_ctx s')) ≠ length (cx_objects (st_ctx s))).
  { unfold ggml_new_tensor_impl. rewrite (type_range type tr Htr). cbn [ggml_assert mbind res_bind].
    rewrite (proj2 (Nat.leb_le 1 _)), (proj2 (Nat.leb_le _ GGML_MAX_DIMS)) by (unfold GGML_MAX_DIMS; lia).
    cbn [andb ggml_assert mbind res_bind]. rewrite Hbase. cbn [mbind res_bind]. rewrite Htake, Hrow. cbn [mbind res_bind].
    unfold view_fits, view_data, deref. rewrite Hbn, Hv. cbn [orb mbind res_bind]. rewrite Hnb. cbn [mbind res_bind]. rewrite Hds.
    assert ((if row * foldr Z.mul 1 (drop 1 ne) =? 0 then Ok true
             else Ok (u64 (row * foldr Z.mul 1 (drop 1 ne) + offs) <=? nbytes)) = Ok (A := bool) true) as ->.
    { destruct (_ =? 0); [done|]. by rewrite (proj2 (Z.leb_le _ _) Hfit). }
    cbn [ggml_assert mbind res_bind]. rewrite Helem. cbn [mbind res_bind andb].
    assert (Hob := new_object_spec (st_ctx s) GGML_OBJECT_TYPE_TENSOR GGML_TENSOR_SIZE (pool_buffer _ P) (pool_chain _ P)).
    change (u64 (GGML_TENSOR_SIZE + 0)) with GGML_TENSOR_SIZE. rewrite Hob by (unfold GGML_TENSOR_SIZE; lia).
    rewrite decide_True by done. cbn [mbind res_bind object_address]. eexists _, _. split; [reflexivity|]. cbn. rewrite length_app. cbn. lia. }
  destruct Hrun as (s' & p & Hrun & Hlonger). exists s', p.
  destruct (new_tensor_impl_created _ _ _ _ _ _ _ _ P (le_n _) Hs Hrun) as [[-> ->]|Hout].
  { by destruct Hlonger. }
  destruct Hout as (sc & size & row' & elem & base' & offs' & data & Hcr & _ & Hbase' & Hr' & He' & _).
  rewrite Hbase in Hbase'. injection Hbase' as <- <-. rewrite Hrow' in Hr'. injection Hr' as <-.
  exists sc, size, elem, row, data. split_and!; [done|by eapply created_pool|done|done|done].
Qed.

(** The end of an operator on a tensor without gradient always succeeds. *)
Lemma finish_op_ok s r op a t : st_tensors s !! r = Some t →
  finish_op s r op false a = Ok (set_tensor s r (with_grad_src (with_op t op) NULL a), r).
Proof.
  intros Ht. unfold finish_op, modify, deref. rewrite Ht. cbn [mbind res_bind set_tensor st_tensors].
  rewrite lookup_insert_eq. cbn [mbind res_bind]. unfold set_tensor. cbn [st_tensors st_ctx]. by rewrite insert_insert_eq.
Qed.

(** *** Permutations *)

Lemma four (l : list Z) : length l = 4%nat → l = [l !!! 0%nat; l !!! 1%nat; l !!! 2%nat; l !!! 3%nat].
Proof. by destruct l as [|? [|? [|? [|? [|]]]]]. Qed.

(** A sum over the dimensions does not depend on their order. *)
Lemma scatter_sum axes (i nbs : list Z) : axes_ok axes = true → length axes = 4%nat → length i = 4%nat → length nbs = 4%nat →
  let j := scatter (Z.to_nat <$> axes) i in
  let mbs := scatter (Z.to_nat <$> axes) nbs in
  j !!! 0%nat * mbs !!! 0%nat + j !!! 1%nat * mbs !!! 1%nat + j !!! 2%nat * mbs !!! 2%nat + j !!! 3%nat * mbs !!! 3%nat =
  i !!! 0%nat * nbs !!! 0%nat + i !!! 1%nat * nbs !!! 1%nat + i !!! 2%nat * nbs !!! 2%nat + i !!! 3%nat * nbs !!! 3%nat.
Proof.
  intros Hax Hla Hi Hn j mbs.
  destruct (scatter_perm axes i Hax Hla Hi) as [_ Hj]. destruct (scatter_perm axes nbs Hax Hla Hn) as [_ Hm].
  unfold axes_ok in Hax. rewrite andb_true_iff, forallb_forall, bool_decide_eq_true in Hax. destruct Hax as [Hr Hnd].
  destruct axes as [|a0 [|a1 [|a2 [|a3 [|]]]]]; try done. destruct i as [|i0 [|i1 [|i2 [|i3 [|]]]]]; try done.
  destruct nbs as [|b0 [|b1 [|b2 [|b3 [|]]]]]; try done.
  assert (Hb : ∀ x, In x [a0; a1; a2; a3] → x = 0 ∨ x = 1 ∨ x = 2 ∨ x = 3).
  { intros x Hx. specialize (Hr x Hx). rewrite andb_true_iff, Z.leb_le, Z.ltb_lt in Hr. unfold GGML_MAX_DIMS in Hr. lia. }
  rewrite !NoDup_cons in Hnd. rewrite !list_elem_of_In in Hnd. cbn in Hnd.
  pose proof (Hb a0 ltac:(cbn; tauto)) as B0. pose proof (Hb a1 ltac:(cbn; tauto)) as B1.
  pose proof (Hb a2 ltac:(cbn; tauto)) as B2. pose proof (Hb a3 ltac:(cbn; tauto)) as B3. clear Hb Hr Hj Hm. subst j mbs.
  destruct B0 as [->|[->|[->| ->]]]; destruct B1 as [->|[->|[->| ->]]]; try tauto;
    destruct B2 as [->|[->|[->| ->]]]; try tauto; destruct B3 as [->|[->|[->| ->]]]; try tauto; clear.
  all: repeat match goal with
    | |- context [scatter ?x ?l] => let r := eval vm_compute in (scatter x l) in change (scatter x l) with r
    end; cbn [lookup_total list_lookup_total]; ring.
Qed.

(** [ggml_permute] stops when the axes are not a permutation.  Otherwise, when the
    pool has room for a tensor and the shape fits the memory of the origin of [a] (and
    [a] has no gradient), the result shows the same memory, and the element of [a] at the
    indices [i] is the element of the result at the permuted indices: dimension
    [k] of [a] is dimension [axis k] of the result. *)
Theorem permute_elements (s : store) (a : ptr) (ta : ggml_tensor) (axis0 axis1 axis2 axis3 : Z) :
  pool s → st_tensors s !! a = Some ta → t_grad ta = NULL →
  fits_origin s a ta (t_type ta) (t_ne ta) 0 → room (st_ctx s) GGML_TENSOR_SIZE →
  if axes_ok [axis0; axis1; axis2; axis3] then
    let permuted := scatter (Z.to_nat <$> [axis0; axis1; axis2; axis3]) in
    ∃ s' r t, ggml_permute s a axis0 axis1 axis2 axis3 = Ok (s', r) ∧ pool s' ∧ st_tensors s' !! r = Some t ∧
      t_type t = t_type ta ∧ t_op t = GGML_OP_PERMUTE ∧ t_src t !! 0%nat = Some a ∧
      origin t r = ((origin ta a).1, u64 (origin ta a).2) ∧ t_ne t = permuted (t_ne ta) ∧
      (∀ i0 i1 i2 i3, let j := permuted [i0; i1; i2; i3] in
         block_offset t (j !!! 0%nat) (j !!! 1%nat) (j !!! 2%nat) (j !!! 3%nat) = block_offset ta i0 i1 i2 i3)
  else ggml_permute s a axis0 axis1 axis2 axis3 = Err Abort.
Proof.
  intros P Ha Hgrad Hfit Hroom. destruct (axes_ok _) eqn:Hax; [|by unfold ggml_permute; rewrite Hax].
  set (axes := Z.to_nat <$> [axis0; axis1; axis2; axis3]). intros permuted.
  assert (Hda : deref (st_tensors s) a = Ok ta) by (unfold deref; by rewrite Ha).
  destruct (pool_shape _ _ _ P Hda) as (Hap & Hl & Hlnb & Hs).
  destruct (view_impl_ok s a ta (t_type ta) (t_ne ta) 0 P Ha) as (s1 & r & sc & size & elem & row & data & Hi & P1 & Hcr & _);
    [lia|done|lia|done|done|].
  set (t0 := new_tensor _ _ _ _ _ _ _ _) in Hcr. rewrite Hl in Hi. destruct (created_in_pool _ _ _ _ _ _ Hcr) as (Hin & Ht0 & _).
  assert (Hbn : (origin ta a).1 ≠ NULL).
  { unfold origin. unfold is_null. destruct (Z.eqb_spec (t_view_src ta) NULL); done. }
  set (t1 := with_layout t0 (t_ne t0) (t_nb ta)).
  set (t2 := with_layout t1 (permuted (t_ne ta)) (permuted (t_nb ta))).
  assert (Hrun : ggml_permute s a axis0 axis1 axis2 axis3 =
    Ok (set_tensor s1 r (with_grad_src (with_op t2 GGML_OP_PERMUTE) NULL a), r)).
  { unfold ggml_permute. rewrite Hax. cbn [ggml_assert mbind res_bind]. rewrite Hda. cbn [mbind res_bind].
    unfold ggml_view_tensor. rewrite Hda. cbn [mbind res_bind]. unfold GGML_MAX_DIMS. rewrite Hi. cbn [mbind res_bind].
    unfold modify, deref. rewrite Ht0. cbn [mbind res_bind set_tensor st_tensors st_ctx]. rewrite lookup_insert_eq. cbn [mbind res_bind].
    unfold has_grad. rewrite Hgrad. cbn [is_null NULL Z.eqb negb].
    fold axes. change (scatter axes) with permuted. fold t1. fold t2.
    rewrite (finish_op_ok _ r _ a t2) by (cbn [st_tensors set_tensor]; by rewrite lookup_insert_eq).
    unfold set_tensor. cbn [st_tensors st_ctx]. by rewrite !insert_insert_eq. }
  eexists _, r, _. split; [exact Hrun|]. split.
  { destruct (run_call_keeps s (Permute a axis0 axis1 axis2 axis3) _ _ P I eq_refl Hrun) as [P' _]. exact P'. }
  split; [apply lookup_insert_eq|]. split; [done|]. split; [done|]. split; [done|].
  split. { unfold origin at 1. cbn [t_view_src t_view_offs with_grad_src with_op t2 t1 t0 with_layout new_tensor].
    unfold is_null. by rewrite (proj2 (Z.eqb_neq _ _) Hbn). }
  split; [done|]. intros i0 i1 i2 i3 j. unfold block_offset, nb. cbn [t_nb with_grad_src with_op t2 t1 with_layout].
  exact (scatter_sum [axis0; axis1; axis2; axis3] [i0; i1; i2; i3] (t_nb ta) Hax eq_refl eq_refl Hlnb).
Qed.

(** *** Reshaped tensors *)

Lemma contiguous_same t t' n : t_type t' = t_type t → t_ne t' = t_ne t → t_nb t' = t_nb t →
  ggml_is_contiguous_n t' n = ggml_is_contiguous_n t n.
Proof. intros E1 E2 E3. unfold ggml_is_contiguous_n, TensorLayout.ne, TensorLayout.nb. rewrite E1, E2, E3. cbn [contiguous_loop]. unfold TensorLayout.ne, TensorLayout.nb. by rewrite E2, E3. Qed.

(** A tensor of a small shape has a valid layout. *)
Lemma small_valid t tr : type_traits (t_type t) = Ok tr → has_elements (t_type t) = true → length (t_ne t) = 4%nat →
  small (t_ne t) → Forall (λ x, 1 ≤ x) (t_ne t) → (blck_size tr | ne t 0) → valid t tr.
Proof.
  intros Htr Hel Hl [_ Hw] Hpos Hblk. unfold ne in *. rewrite (four _ Hl) in Hw, Hpos. rewrite !Forall_cons in Hpos. destruct Hpos as (P0 & P1 & P2 & P3 & _).
  set (n0 := t_ne t !!! 0%nat) in *. set (n1 := t_ne t !!! 1%nat) in *. set (n2 := t_ne t !!! 2%nat) in *. set (n3 := t_ne t !!! 3%nat) in *.
  cbn [weight foldr] in Hw. rewrite Z.mul_1_r, !Z.max_r in Hw by lia.
  destruct (has_elements_traits _ Hel) as (tr' & Htr' & Hb). rewrite Htr in Htr'. injection Htr' as <-.
  assert (1 ≤ n2 * n3) by nia. assert (1 ≤ n1 * (n2 * n3)) by nia.
  assert (Hq : 0 ≤ n0 / blck_size tr ≤ n0) by (split; [apply Z.div_pos; lia|apply Z.div_le_upper_bound; nia]).
  split; [done|done| |done| |].
  - repeat constructor; done.
  - unfold ne. fold n0. assert (n0 ≤ 2 ^ 48) by nia. nia.
  - unfold row_bytes, ne. fold n0 n1 n2 n3. replace (n1 * n2 * n3) with (n1 * (n2 * n3)) by ring.
    set (q := n0 / blck_size tr) in *. set (k := n1 * (n2 * n3)) in *. clearbody q k.
    assert (row_meta_size tr + type_size tr * q ≤ 1088 * n0) by nia.
    assert ((row_meta_size tr + type_size tr * q) * k ≤ 1088 * n0 * k) by nia. nia.
Qed.

(** The number of a block, row by row. *)
Definition block_number (t : ggml_tensor) (tr : ggml_type_traits) (b i1 i2 i3 : Z) : Z :=
  b + ne t 0 / blck_size tr * (i1 + ne t 1 * (i2 + ne t 2 * i3)).

Lemma contiguous_offset t tr b i1 i2 i3 : valid t tr → ggml_is_contiguous t = Ok true →
  in_shape t (ne t 0 / blck_size tr) b i1 i2 i3 →
  block_offset t b i1 i2 i3 = type_size tr * block_number t tr b i1 i2 i3 + row_meta_size tr * ((i3 * ne t 2 + i2) * ne t 1 + i1).
Proof.
  intros V Hc Hin. pose proof (valid_size _ _ V). pose proof (row_bytes_pos t tr V).
  destruct (contiguous_exact t tr 0 V) as (c & Hc' & Hrows); [lia|unfold row_stride; cbn; lia..|].
  change (ggml_is_contiguous_n t 0) with (ggml_is_contiguous t) in Hc'. rewrite Hc in Hc'. injection Hc' as <-.
  rewrite (proj1 Hrows eq_refl b i1 i2 i3 Hin). unfold row_stride; cbn [Nat.eqb orb]. unfold row_bytes, block_number. ring.
Qed.

(** Blocks of the same number are in the same row when the rows are as long. *)
Lemma block_number_row nb n b r c r' : 0 ≤ b < nb → 0 ≤ c < nb → nb = n → b + nb * r = c + n * r' → r = r'.
Proof. intros Hb Hc <- E. destruct (Z.lt_trichotomy r r') as [|[|]]; [nia|done|nia]. Qed.

(** C40. [ggml_reshape_1d] to [ggml_reshape_4d], for a tensor of whole blocks, a shape
    of whole blocks that fits the memory of the tensor, and room in the pool, when the
    rows of the type have no bytes in front or keep their length: they stop when [a] is
    not contiguous or the number of elements changes, and otherwise the result is a
    contiguous view of the same memory, in the new shape, and block number [l] of the
    result, counted row by row, is block number [l] of [a].  (For other reshapes see
    [reshape_shifts_blocks] and [reshape_splits_blocks].) *)
Theorem reshape_keeps_order (s : store) (a : ptr) (ta : ggml_tensor) (tr : ggml_type_traits) (ne : list Z) :
  pool s → st_tensors s !! a = Some ta → t_grad ta = NULL → valid ta tr →
  row_meta_size tr = 0 ∨ ne !!! 0%nat = TensorLayout.ne ta 0 →
  (1 ≤ length ne ≤ 4)%nat → small ne → Forall (λ x, 1 ≤ x) ne → (blck_size tr | ne !!! 0%nat) →
  fits_origin s a ta (t_type ta) ne 0 → room (st_ctx s) GGML_TENSOR_SIZE →
  if bool_decide (ggml_is_contiguous ta = Ok true) && (ggml_nelements ta =? product ne) then
    ∃ s' r t, ggml_reshape_nd s a ne = Ok (s', r) ∧ pool s' ∧ st_tensors s' !! r = Some t ∧
      t_type t = t_type ta ∧ t_op t = GGML_OP_RESHAPE ∧ t_src t !! 0%nat = Some a ∧
      origin t r = ((origin ta a).1, u64 (origin ta a).2) ∧ t_ne t = ne ++ replicate (4 - length ne) 1 ∧
      ggml_is_contiguous t = Ok true ∧
      ∀ b i1 i2 i3 c j1 j2 j3,
        in_shape t (TensorLayout.ne t 0 / blck_size tr) b i1 i2 i3 → in_shape ta (TensorLayout.ne ta 0 / blck_size tr) c j1 j2 j3 →
        block_number t tr b i1 i2 i3 = block_number ta tr c j1 j2 j3 →
        block_offset t b i1 i2 i3 = block_offset ta c j1 j2 j3
  else ggml_reshape_nd s a ne = Err Abort.
Proof.
  intros P Ha Hgrad V Hm Hlen Hs Hpos Hblk Hfit Hroom.
  assert (Hda : deref (st_tensors s) a = Ok ta) by (unfold deref; by rewrite Ha).
  pose proof (valid_size _ _ V). pose proof (row_bytes_pos ta tr V).
  destruct (contiguous_exact ta tr 0 V) as (c & Hc & _); [lia|unfold row_stride; cbn; lia..|].
  change (ggml_is_contiguous_n ta 0) with (ggml_is_contiguous ta) in Hc.
  destruct c; [rewrite bool_decide_true by done|rewrite bool_decide_false by congruence; cbn [andb]].
  2: { unfold ggml_reshape_nd. rewrite Hda. cbn [mbind res_bind]. rewrite Hc. done. }
  cbn [andb]. destruct (ggml_nelements ta =? product ne) eqn:Hprod.
  2: { unfold ggml_reshape_nd. rewrite Hda. cbn [mbind res_bind]. rewrite Hc. cbn [ggml_assert mbind res_bind]. by rewrite Hprod. }
  destruct (view_impl_ok s a ta (t_type ta) ne 0 P Ha) as (s1 & r & sc & size & elem & row & data & Hi & P1 & Hcr & Hrow & Helem);
    [done|done|lia|done|done|].
  set (t0 := new_tensor _ _ _ _ _ _ _ _) in Hcr. destruct (created_in_pool _ _ _ _ _ _ Hcr) as (Hin & Ht0 & _).
  assert (Hbn : (origin ta a).1 ≠ NULL).
  { unfold origin. unfold is_null. destruct (Z.eqb_spec (t_view_src ta) NULL); [|done].
    cbn. intros ->. by rewrite (proj1 (pool_tensors _ P)) in Ha. }
  assert (Hrun : ggml_reshape_nd s a ne = Ok (set_tensor s1 r (with_grad_src (with_op t0 GGML_OP_RESHAPE) NULL a), r)).
  { unfold ggml_reshape_nd. rewrite Hda. cbn [mbind res_bind]. rewrite Hc. cbn [ggml_assert mbind res_bind]. rewrite Hprod.
    cbn [ggml_assert mbind res_bind]. rewrite Hi. cbn [mbind res_bind]. unfold has_grad. rewrite Hgrad. cbn [is_null NULL Z.eqb negb].
    by apply finish_op_ok. }
  assert (Htake : take (length ne) ne = ne) by (by apply firstn_all2).
  assert (Hpad : t_ne t0 = ne ++ replicate (4 - length ne) 1) by (cbn [t_ne t0 new_tensor]; unfold pad_ne, GGML_MAX_DIMS; by rewrite !Htake).
  assert (Hpos4 : Forall (λ x, 1 ≤ x) (ne ++ replicate (4 - length ne) 1)) by (apply Forall_app; split; [done|by apply Forall_replicate]).
  eexists _, r, _. split; [exact Hrun|]. split.
  { destruct (run_call_keeps s (ReshapeNd a ne) _ _ P Hs eq_refl Hrun) as [P' _]. exact P'. }
  split; [apply lookup_insert_eq|]. split; [done|]. split; [done|]. split; [done|].
  split. { unfold origin at 1. cbn [t_view_src t_view_offs with_grad_src with_op t0 new_tensor].
    unfold is_null. by rewrite (proj2 (Z.eqb_neq _ _) Hbn). }
  split; [exact Hpad|]. set (t := with_grad_src _ _ _).
  assert (Hct : ggml_is_contiguous t = Ok true).
  { unfold ggml_is_contiguous, ggml_is_contiguous_0. rewrite (contiguous_same t0 t 0 eq_refl eq_refl eq_refl).
    apply new_contiguous; [done|lia|done|by rewrite Htake|done|]. cbn [t_ne t0 new_tensor] in Hpad. by rewrite Hpad. }
  split; [exact Hct|]. intros b i1 i2 i3 c j1 j2 j3 Hit Hjt Hnum.
  assert (Vt : valid t tr).
  { assert (Hne : t_ne t = ne ++ replicate (4 - length ne) 1) by exact Hpad.
    apply small_valid; [apply V|apply V|rewrite Hne, length_app, length_replicate; lia|rewrite Hne; by apply small_ones|by rewrite Hne|].
    unfold TensorLayout.ne. rewrite Hne. rewrite lookup_total_app_l by lia. done. }
  rewrite (contiguous_offset t tr), (contiguous_offset ta tr), Hnum by done. f_equal. destruct Hm as [->|Hsame]; [done|]. f_equal.
  assert (TensorLayout.ne t 0 = TensorLayout.ne ta 0) as Hrow0.
  { rewrite <- Hsame. unfold TensorLayout.ne at 1. change (t_ne t) with (t_ne t0). rewrite Hpad, lookup_total_app_l by lia. done. }
  unfold block_number in Hnum. destruct Hit as (Hb & _), Hjt as (Hb' & _). rewrite Hrow0 in Hb, Hnum.
  apply block_number_row in Hnum; [|done..]. etrans; [|etrans; [exact Hnum|]]; ring.
Qed.

(** ** Concrete contexts *)

Definition ex_params : ggml_init_params := mk_init 4096 65536 false.
Definition ex_context : ggml_context := mk_context 4096 65536 false false false 0 [] no_scratch no_scratch.

(** A 3 x 4 matrix, its transpose, a graph, two tensors in a scratch buffer, a view. *)
Definition ex_calls : list tensor_call :=
  [NewTensor GGML_TYPE_F32 2 [3; 4]; Permute 65568 1 0 2 3; NewObject GGML_OBJECT_TYPE_GRAPH 100;
   SetScratch (mk_scratch 0 1024 131072); NewTensor GGML_TYPE_Q8_0 2 [32; 5]; NewTensor GGML_TYPE_F32 1 [3];
   View2d 65568 2 2 12 4].

Lemma no_tensors_ok : tensors_ok ∅.
Proof. split; [done|]. apply map_Forall_empty. Qed.

Lemma ex_calls_ok : Forall (call_ok ex_context) ex_calls.
Proof.
  assert (Hsc : scratch_ok ex_context (mk_scratch 0 1024 131072)) by (right; unfold outside; cbn; lia).
  assert (Hs : ∀ l, forallb (Z.leb 0) l && (weight l <=? 2 ^ 48) = true → small l).
  { intros l. rewrite andb_true_iff, Z.leb_le, forallb_forall. intros [H1 H2]. split; [|done].
    apply Forall_forall. intros x Hx%list_elem_of_In. by apply Z.leb_le, H1. }
  repeat constructor; try exact Hsc; try (apply Hs; vm_compute; reflexivity); try lia; done.
Qed.

Lemma ex_opened : new_context ex_params 0 = Ok ex_context.
Proof. vm_compute. reflexivity. Qed.

Lemma ex_range : 0 < cx_mem_buffer ex_context ∧ 0 ≤ cx_mem_size ex_context < 2 ^ 62 ∧ cx_mem_buffer ex_context + cx_mem_size ex_context ≤ 2 ^ 64.
Proof. cbn. lia. Qed.

Lemma pool_safe_witness : ∃ s, run_calls (mk_store ex_context ∅) ex_calls = Ok s ∧
  walk_tensors 7 (st_ctx s) (ggml_get_first_tensor (st_ctx s)) = Ok [65568; 66048; 66624; 67056; 67488] ∧
  object_ptr (st_ctx s) <$> filter is_tensor (cx_objects (st_ctx s)) = [65568; 66048; 66624; 67056; 67488] ∧
  scratch_owned 3 s.
Proof.
  destruct (run_calls (mk_store ex_context ∅) ex_calls) as [s|] eqn:Hrun; [|by vm_compute in Hrun].
  destruct (run_calls (mk_store ex_context ∅) (take 4 ex_calls)) as [s1|] eqn:Hrun1; [|by vm_compute in Hrun1].
  destruct (pool_safe ex_params 0 ex_context ∅ ex_calls s ex_opened (proj1 ex_range) (proj1 (proj2 ex_range)) (proj2 (proj2 ex_range))
    no_tensors_ok ex_calls_ok Hrun) as (_ & _ & _ & _ & _ & Hwalk & _ & Hscratch).
  exists s. split; [done|]. specialize (Hscratch (take 4 ex_calls) (drop 4 ex_calls) s1 eq_refl eq_refl Hrun1).
  vm_compute in Hrun, Hrun1. injection Hrun as <-. injection Hrun1 as <-. split; [exact Hwalk|]. split; [by vm_compute|exact Hscratch].
Defined.

(** The state after the first call. *)
Definition ex_object : ggml_object := mk_object 32 448 GGML_OBJECT_TYPE_TENSOR.
Definition ex_matrix : ggml_tensor :=
  mk_tensor GGML_TYPE_F32 [3; 4; 1; 1] [4; 12; 48; 48] GGML_OP_NONE 0 0 (replicate 16 0) 0 0 65968 0.
Definition ex_store : store :=
  mk_store (with_objects ex_context 1 [ex_object]) {[ 65568 := ex_matrix ]}.

Lemma ex_run : run_calls (mk_store ex_context ∅) [NewTensor GGML_TYPE_F32 2 [3; 4]] = Ok ex_store.
Proof. vm_compute. reflexivity. Qed.

Lemma ex_pool : pool ex_store.
Proof.
  assert (P0 : pool (mk_store ex_context ∅)).
  { apply (new_context_pool ex_params 0); [exact ex_opened|apply ex_range|apply ex_range|apply ex_range|apply no_tensors_ok]. }
  pose proof ex_calls_ok as Hok. unfold ex_calls in Hok. apply Forall_cons in Hok as [H _].
  by apply (run_calls_keeps [NewTensor GGML_TYPE_F32 2 [3; 4]] _ ex_store P0 ltac:(by repeat constructor) ex_run).
Qed.

Lemma ex_small : small [3; 4].
Proof. split; [repeat constructor; lia|vm_compute; discriminate]. Qed.

Lemma new_tensor_exact_witness : ∃ s' o t, ggml_new_tensor ex_store GGML_TYPE_F32 2 [3; 4] = Ok (s', object_ptr (st_ctx ex_store) o) ∧
  cx_objects (st_ctx s') = [ex_object; o] ∧ ggml_nbytes t = Ok 48.
Proof.
  destruct (new_tensor_exact ex_store GGML_TYPE_F32 2 [3; 4] (mk_traits "f32" 1 0 4 false 0) ex_pool ltac:(lia) ltac:(cbn; lia) ex_small eq_refl eq_refl)
    as (row & Hrow & H). vm_compute in Hrow. injection Hrow as <-.
  cbn in H. destruct (decide _) as [_|Hno] in H; [|by exfalso; apply Hno; vm_compute].
  destruct H as (o & t & s' & Hrun & _ & Hobj & _ & _ & _ & _ & _ & Hfit). exists s', o, t. split; [exact Hrun|]. split; [exact Hobj|].
  apply Hfit; [by repeat constructor; lia|done].
Defined.

Lemma ex_fits : fits_origin ex_store 65568 ex_matrix GGML_TYPE_F32 [3; 4; 1; 1] 0.
Proof. exists ex_matrix, 12, 48. vm_compute. split_and!; done. Qed.

Lemma ex_fits_line : fits_origin ex_store 65568 ex_matrix GGML_TYPE_F32 [6; 2] 0.
Proof. exists ex_matrix, 24, 48. vm_compute. split_and!; done. Qed.

Lemma permute_elements_witness : ∃ s' r t, ggml_permute ex_store 65568 1 0 2 3 = Ok (s', r) ∧ st_tensors s' !! r = Some t ∧
  t_ne t = [4; 3; 1; 1] ∧ block_offset t 2 1 0 0 = block_offset ex_matrix 1 2 0 0.
Proof.
  destruct (permute_elements ex_store 65568 ex_matrix 1 0 2 3 ex_pool eq_refl eq_refl ex_fits ltac:(by vm_compute))
    as (s' & r & t & Hrun & _ & Ht & _ & _ & _ & _ & Hne & Hel).
  exists s', r, t. split; [exact Hrun|]. split; [exact Ht|]. split; [exact Hne|]. exact (Hel 1 2 0 0).
Defined.

Lemma ex_matrix_valid : valid ex_matrix (mk_traits "f32" 1 0 4 false 0).
Proof.
  split; [vm_compute; reflexivity|vm_compute; reflexivity| |exists 3; reflexivity|vm_compute; reflexivity|vm_compute; reflexivity].
  apply (bool_decide_unpack _). vm_compute. exact I.
Qed.

Lemma reshape_keeps_order_witness : ∃ s' r t, ggml_reshape_nd ex_store 65568 [6; 2] = Ok (s', r) ∧ st_tensors s' !! r = Some t ∧
  block_offset t 1 1 0 0 = block_offset ex_matrix 1 2 0 0.
Proof.
  destruct (reshape_keeps_order ex_store 65568 ex_matrix (mk_traits "f32" 1 0 4 false 0) [6; 2] ex_pool eq_refl eq_refl ex_matrix_valid
    (or_introl eq_refl) ltac:(cbn; lia) ltac:(split; [repeat constructor; lia|vm_compute; discriminate]) ltac:(repeat constructor; lia) ltac:(exists 6; reflexivity)
    ex_fits_line ltac:(by vm_compute)) as (s' & r & t & Hrun & _ & Ht & _ & _ & _ & _ & Hne & _ & Hel).
  exists s', r, t. split; [exact Hrun|]. split; [exact Ht|].
  apply Hel; unfold in_shape, block_number, TensorLayout.ne; rewrite ?Hne; vm_compute; repeat split; discriminate.
Defined.

(** ** What the sizes do not exclude *)

(** A tensor of four I2_S elements gets four bytes, and [ggml_nbytes] says 33. *)
Lemma i2s_larger_than_allocated :
  ('(s, p) ← ggml_new_tensor (mk_store ex_context ∅) GGML_TYPE_I2_S 1 [4];
   t ← deref (st_tensors s) p; nbytes ← ggml_nbytes t;
   Ok (ob_size <$> cx_objects (st_ctx s), nbytes)) = Ok ([416], 33).
Proof. vm_compute. reflexivity. Qed.

(** A tensor of 2^62 numbers of four bytes is created in a pool of 4096 bytes: its
    size is multiplied without a test, and 2^64 is 0. *)
Lemma huge_tensor_created :
  ('(s, p) ← ggml_new_tensor (mk_store ex_context ∅) GGML_TYPE_F32 1 [2 ^ 62];
   t ← deref (st_tensors s) p; Ok (ob_size <$> cx_objects (st_ctx s), ggml_nelements t)) = Ok ([400], 2 ^ 62).
Proof. vm_compute. reflexivity. Qed.

(** The test that a view is inside its origin uses the strides of a contiguous
    tensor; those of the view are written afterwards: an element of this view is far
    behind the 48 bytes of the matrix. *)
Lemma view_strides_unchecked :
  ('(s, r) ← ggml_view_2d ex_store 65568 2 2 100000 0;
   t ← deref (st_tensors s) r; nbytes ← ggml_nbytes ex_matrix; Ok (block_offset t 0 1 0 0, nbytes)) = Ok (100000, 48).
Proof. vm_compute. reflexivity. Qed.

(** The rows of IQ4_KS have four bytes in front.  Joining two rows makes one row of two
    blocks with one such head, so that the second block, at byte 140, is looked for at
    byte 136. *)
Lemma reshape_shifts_blocks :
  ('(s, a) ← ggml_new_tensor (mk_store ex_context ∅) GGML_TYPE_IQ4_KS 2 [256; 2];
   '(s, r) ← ggml_reshape_nd s a [512];
   ta ← deref (st_tensors s) a; t ← deref (st_tensors s) r;
   Ok (block_offset ta 0 1 0 0, block_offset t 1 0 0 0)) = Ok (140, 136).
Proof. vm_compute. reflexivity. Qed.

(** A row of 32 elements is one block of 34 bytes; it is cut into two rows of 17 bytes. *)
Lemma reshape_splits_blocks :
  ('(s, a) ← ggml_new_tensor (mk_store ex_context ∅) GGML_TYPE_Q8_0 2 [32; 2];
   '(s, r) ← ggml_reshape_nd s a [16; 4];
   ta ← deref (st_tensors s) a; t ← deref (st_tensors s) r;
   Ok (t_ne t, nb ta 1, nb t 1)) = Ok ([16; 4; 1; 1], 34, 17).
Proof. vm_compute. reflexivity. Qed.
