(* ===== verification/GraphObject.v ===== *)
(** * Graphs in the pool of a context (ggml/src/ggml.c)

    A graph and its arrays (nodes, leafs, hash keys, gradients, used bits) are one
    object of the pool: [ggml_graph_nbytes] computes its size and
    [ggml_new_graph_custom] the places of the arrays, by the same steps from another
    address.  The graph itself is in [Graph]. *)
From S2P Require Import Prelude DynAlloc HashSet Graph TensorTypes TensorLayout TensorContext TensorPool.

(** [sizeof(struct ggml_cgraph)], of a pointer, and of [ggml_bitset_t]. *)
Definition sizeof_ggml_cgraph : Z := 80.
Definition sizeof_ptr : Z := 8.
Definition sizeof_bitset : Z := 4.

(** Returns the aligned pointer and the place behind [size] bytes from there. *)
Definition incr_ptr_aligned (p size align : Z) : Z * Z := let q := GGML_PAD p align in (q, u64 (q + size)).

Definition ggml_graph_nbytes (size : Z) (grads : bool) : res Z :=
  hash_size ← ggml_hash_size (u64 (size * 2));
  let p := 0 in
  let p := (incr_ptr_aligned p sizeof_ggml_cgraph 1).2 in
  let p := (incr_ptr_aligned p (u64 (size * sizeof_ptr)) sizeof_ptr).2 in
  let p := (incr_ptr_aligned p (u64 (size * sizeof_ptr)) sizeof_ptr).2 in
  let p := (incr_ptr_aligned p (u64 (hash_size * sizeof_ptr)) sizeof_ptr).2 in
  let p := if grads then (incr_ptr_aligned p (u64 (size * sizeof_ptr)) sizeof_ptr).2 else p in
  let p := (incr_ptr_aligned p (u64 (ggml_bitset_size hash_size * sizeof_bitset)) sizeof_bitset).2 in
  Ok p.

Definition ggml_graph_overhead_custom (size : Z) (grads : bool) : res Z :=
  nbytes ← ggml_graph_nbytes size grads; Ok (u64 (GGML_OBJECT_SIZE + GGML_PAD nbytes GGML_MEM_ALIGN)).

(** The pointers of [ggml_new_graph_custom]; [ga_end] is [p] at the end. *)
Record graph_arrays : Type := mk_arrays {
  ga_nodes : ptr; ga_leafs : ptr; ga_hash_keys : ptr; ga_grads : ptr; ga_hash_used : ptr; ga_end : ptr;
}.

Definition graph_pointers (cgraph size hash_size : Z) (grads : bool) : graph_arrays :=
  let p := u64 (cgraph + sizeof_ggml_cgraph) in
  let '(nodes_ptr, p) := incr_ptr_aligned p (u64 (size * sizeof_ptr)) sizeof_ptr in
  let '(leafs_ptr, p) := incr_ptr_aligned p (u64 (size * sizeof_ptr)) sizeof_ptr in
  let '(hash_keys_ptr, p) := incr_ptr_aligned p (u64 (hash_size * sizeof_ptr)) sizeof_ptr in
  let '(grads_ptr, p) := if grads then incr_ptr_aligned p (u64 (size * sizeof_ptr)) sizeof_ptr else (NULL, p) in
  let '(hash_used, p) := incr_ptr_aligned p (u64 (ggml_bitset_size hash_size * sizeof_bitset)) sizeof_bitset in
  mk_arrays nodes_ptr leafs_ptr hash_keys_ptr grads_ptr hash_used p.

(** The memory of [ggml_new_graph_custom]. *)
Definition new_graph_object (s : store) (size : Z) (grads : bool) : res (store * ptr * graph_arrays) :=
  obj_size ← ggml_graph_nbytes size grads;
  '(c, obj) ← ggml_new_object (st_ctx s) GGML_OBJECT_TYPE_GRAPH obj_size;
  cgraph ← object_address c obj;
  hash_size ← ggml_hash_size (u64 (size * 2));
  Ok (mk_store c (st_tensors s), cgraph, graph_pointers cgraph size hash_size grads).

(** ** The arrays are inside the object *)

(** Padding to a power of two. *)
Lemma pad_pow2 x k : 0 ≤ k ≤ 16 → 0 ≤ x < 2 ^ 63 → GGML_PAD x (2 ^ k) = (x + 2 ^ k - 1) / 2 ^ k * 2 ^ k.
Proof.
  intros Hk Hx. assert (0 < 2 ^ k ≤ 2 ^ 16) by (split; [lia|apply Z.pow_le_mono_r; lia]).
  unfold GGML_PAD. rewrite (u64_small (x + 2 ^ k - 1)) by lia.
  assert (Hb : 0 ≤ x + 2 ^ k - 1 < 2 ^ 64) by lia. revert Hb. generalize (x + 2 ^ k - 1). intros y Hb.
  assert (Hy : Z.land y (u64 (Z.lnot (2 ^ k - 1))) = Z.ldiff y (Z.ones k)).
  { apply Z.bits_inj'. intros i Hi. rewrite Z.land_spec, Z.ldiff_spec, Z.ones_equiv. replace (Z.pred (2 ^ k)) with (2 ^ k - 1) by lia.
    destruct (decide (i < 64)).
    - unfold u64. rewrite Z.mod_pow2_bits_low by lia. by rewrite Z.lnot_spec by lia.
    - rewrite <- (Z.mod_small y (2 ^ 64)) by lia. by rewrite Z.mod_pow2_bits_high by lia. }
  rewrite Hy, Z.ldiff_ones_r by lia. by rewrite Z.shiftr_div_pow2, Z.shiftl_mul_pow2 by lia.
Qed.

Lemma incr_aligned p size k : 0 ≤ k ≤ 16 → 0 ≤ p → 0 ≤ size → p + size < 2 ^ 63 → p mod 2 ^ k = 0 →
  incr_ptr_aligned p size (2 ^ k) = (p, p + size).
Proof.
  intros Hk Hp Hs Hf Hm. assert (0 < 2 ^ k) by lia. unfold incr_ptr_aligned. rewrite pad_pow2 by lia.
  assert ((p + 2 ^ k - 1) / 2 ^ k * 2 ^ k = p) as ->.
  { apply Z_div_exact_full_2 in Hm; [|lia]. replace (p + 2 ^ k - 1) with (2 ^ k - 1 + p / 2 ^ k * 2 ^ k) by lia.
    rewrite Z.div_add by lia. rewrite Z.div_small by lia. lia. }
  by rewrite u64_small by lia.
Qed.

(** Where the arrays are, relative to the graph. *)
Definition graph_size (size hash_size : Z) (grads : bool) : Z :=
  80 + 8 * size + 8 * size + 8 * hash_size + (if grads then 8 * size else 0) + 4 * ggml_bitset_size hash_size.

Lemma bitset_size_bounds n : 0 ≤ n < 2 ^ 40 → 0 ≤ ggml_bitset_size n ≤ n + 1.
Proof.
  intros Hn. unfold ggml_bitset_size, BITSET_MASK, BITSET_SHR. rewrite u64_small by lia. rewrite Z.shiftr_div_pow2 by lia.
  change (2 ^ 5) with 32. split; [apply Z.div_pos; lia|]. apply Z.div_le_upper_bound; lia.
Qed.

Lemma incr_words p n : 0 ≤ p → 0 ≤ n → p + 8 * n < 2 ^ 63 → p mod 8 = 0 →
  incr_ptr_aligned p (u64 (n * 8)) 8 = (p, p + 8 * n) ∧ (p + 8 * n) mod 8 = 0.
Proof.
  intros Hp Hn Hf Hm. rewrite u64_small by lia. rewrite (Z.mul_comm n). split; [by apply (incr_aligned p (8 * n) 3); try lia|].
  rewrite Z.add_mod, Hm, (Z.mul_comm 8), Z.mod_mul by lia. done.
Qed.

Lemma incr_bits p n : 0 ≤ p → 0 ≤ n → p + 4 * n < 2 ^ 63 → p mod 8 = 0 → incr_ptr_aligned p (u64 (n * 4)) 4 = (p, p + 4 * n).
Proof.
  intros Hp Hn Hf Hm. rewrite u64_small by lia. rewrite (Z.mul_comm n). apply (incr_aligned p (4 * n) 2); try lia.
  apply Z.mod_divide; [lia|]. apply Z.mod_divide in Hm as [k Hk]; [|lia]. exists (2 * k). lia.
Qed.

Section graph_sizes.
Context (size hash_size : Z) (grads : bool) (Hsize : 0 ≤ size < 2 ^ 31) (Hhash : 0 ≤ hash_size < 2 ^ 34).

Local Ltac fits := pose proof (bitset_size_bounds hash_size ltac:(lia)); unfold graph_size in *; destruct grads; lia.

(** The steps from an aligned address. *)
Lemma graph_steps p : 0 ≤ p → p mod 8 = 0 → p + graph_size size hash_size grads < 2 ^ 63 →
  let q := p + 80 in
  graph_pointers p size hash_size grads =
    mk_arrays q (q + 8 * size) (q + 8 * size + 8 * size)
      (if grads then q + 8 * size + 8 * size + 8 * hash_size else NULL)
      (q + 8 * size + 8 * size + 8 * hash_size + (if grads then 8 * size else 0))
      (p + graph_size size hash_size grads).
Proof using Hsize Hhash.
  intros Hp Hm Hf q. unfold graph_pointers, sizeof_ggml_cgraph, sizeof_ptr, sizeof_bitset.
  rewrite (u64_small (p + 80)) by fits. fold q.
  assert (Hq : q mod 8 = 0) by (unfold q; rewrite Z.add_mod, Hm by lia; done).
  destruct (incr_words q size) as [E1 M1]; [unfold q; fits..|done|]. rewrite E1.
  destruct (incr_words (q + 8 * size) size) as [E2 M2]; [unfold q; fits..|done|]. rewrite E2.
  destruct (incr_words (q + 8 * size + 8 * size) hash_size) as [E3 M3]; [unfold q; fits..|done|]. rewrite E3.
  destruct grads.
  - destruct (incr_words (q + 8 * size + 8 * size + 8 * hash_size) size) as [E4 M4]; [unfold q; fits..|done|]. rewrite E4.
    rewrite incr_bits; [f_equal; unfold q, graph_size; lia|unfold q; fits..|done].
  - rewrite incr_bits; [f_equal; unfold q, graph_size; lia|unfold q; fits..|done].
Qed.

Lemma graph_nbytes_exact : ggml_hash_size (u64 (size * 2)) = Ok hash_size →
  ggml_graph_nbytes size grads = Ok (graph_size size hash_size grads).
Proof using Hsize Hhash.
  intros Hh. unfold ggml_graph_nbytes. rewrite Hh. cbn [mbind res_bind]. f_equal.
  change (incr_ptr_aligned 0 sizeof_ggml_cgraph 1).2 with 80. unfold sizeof_ptr, sizeof_bitset.
  destruct (incr_words 80 size) as [E1 M1]; [fits..|done|]. rewrite E1. cbn [snd].
  destruct (incr_words (80 + 8 * size) size) as [E2 M2]; [fits..|done|]. rewrite E2. cbn [snd].
  destruct (incr_words (80 + 8 * size + 8 * size) hash_size) as [E3 M3]; [fits..|done|]. rewrite E3. cbn [snd].
  destruct grads.
  - destruct (incr_words (80 + 8 * size + 8 * size + 8 * hash_size) size) as [E4 M4]; [fits..|done|]. rewrite E4. cbn [snd].
    rewrite incr_bits; [cbn [snd]; unfold graph_size; lia|fits..|done].
  - rewrite incr_bits; [cbn [snd]; unfold graph_size; lia|fits..|done].
Qed.
End graph_sizes.

(** Creating the memory of a graph: when the pool has room for what
    [ggml_graph_nbytes] computes, the graph and its arrays fill exactly that many
    bytes of a new object: each array begins at a multiple of its elements, behind the one
    before, and the last one ends where the [assert] of [ggml_new_graph_custom]
    expects it.  Otherwise the null pointer of the full pool is dereferenced. *)
Theorem graph_object_exact (s : store) (size hash_size : Z) (grads : bool) :
  pool s → 0 ≤ size < 2 ^ 31 → cx_mem_buffer (st_ctx s) + cx_mem_size (st_ctx s) < 2 ^ 63 →
  ggml_hash_size (u64 (size * 2)) = Ok hash_size →
  ∃ nbytes, ggml_graph_nbytes size grads = Ok nbytes ∧
    if decide (room (st_ctx s) nbytes) then
      ∃ s' g A, new_graph_object s size grads = Ok (s', g, A) ∧ pool s' ∧ st_tensors s' = st_tensors s ∧
        (∃ o, cx_objects (st_ctx s') = cx_objects (st_ctx s) ++ [o] ∧ g = object_ptr (st_ctx s) o ∧ nbytes ≤ ob_size o) ∧
        ga_nodes A = g + sizeof_ggml_cgraph ∧ ga_leafs A = ga_nodes A + size * sizeof_ptr ∧
        ga_hash_keys A = ga_leafs A + size * sizeof_ptr ∧
        (if grads then ga_grads A = ga_hash_keys A + hash_size * sizeof_ptr ∧ ga_hash_used A = ga_grads A + size * sizeof_ptr
         else ga_grads A = NULL ∧ ga_hash_used A = ga_hash_keys A + hash_size * sizeof_ptr) ∧
        ga_end A = ga_hash_used A + ggml_bitset_size hash_size * sizeof_bitset ∧ ga_end A = g + nbytes ∧
        ga_nodes A mod sizeof_ptr = 0
    else new_graph_object s size grads = Err Oob.
Proof.
  intros P Hsize Hmem Hh. destruct (ggml_hash_size_spec (u64 (size * 2)) ltac:(apply u64_range)) as (sz & Hsz & Hb & _).
  rewrite Hh in Hsz. injection Hsz as <-. rewrite u64_small in Hb by lia.
  assert (Hhash : 0 ≤ hash_size < 2 ^ 34) by lia.
  pose proof (graph_nbytes_exact size hash_size grads Hsize Hhash Hh) as Hn. remember (graph_size size hash_size grads) as nbytes eqn:Hnbytes.
  assert (Hnb : 80 ≤ nbytes < 2 ^ 40).
  { pose proof (bitset_size_bounds hash_size ltac:(lia)). rewrite Hnbytes. unfold graph_size. destruct grads; lia. }
  exists nbytes. split; [done|]. pose proof (pool_buffer _ P) as HB. pose proof (pool_chain _ P) as Hc.
  assert (Hob := new_object_spec (st_ctx s) GGML_OBJECT_TYPE_GRAPH nbytes HB Hc ltac:(lia)).
  unfold new_graph_object. rewrite Hn, Hh. cbn [mbind res_bind]. rewrite Hob.
  case_decide as Hroom; [|done]. cbn [mbind res_bind].
  set (o := object_at (st_ctx s) GGML_OBJECT_TYPE_GRAPH nbytes) in *. set (c' := with_objects _ _ _) in *.
  assert (Haddr : object_address c' (Some o) = Ok (object_ptr (st_ctx s) o)) by reflexivity.
  rewrite Haddr. cbn [mbind res_bind].
  destruct (pad16_bounds nbytes) as [Hpad _]; [lia|]. pose proof (buffer_size _ HB). pose proof (buffer_pos _ HB).
  destruct (chain_end_bounds _ _ 0 Hc) as [He Hem]; [lia|done|]. unfold room, GGML_OBJECT_SIZE in Hroom.
  assert (Hg : object_ptr (st_ctx s) o = cx_mem_buffer (st_ctx s) + ob_offs o).
  { apply object_ptr_eq; cbn [ob_offs ob_size object_at o]; unfold GGML_OBJECT_SIZE; done || lia. }
  set (g := object_ptr (st_ctx s) o) in *.
  assert (Hgm : g mod 8 = 0).
  { assert (g mod 16 = 0) as [k Hk]%Z.mod_divide by (rewrite Hg; cbn [ob_offs object_at o]; unfold GGML_OBJECT_SIZE;
      rewrite Z.add_mod, (Z.add_mod (chain_end _ _)), Hem, (buffer_aligned _ HB) by lia; done); [|lia].
    apply Z.mod_divide; [lia|]. exists (2 * k). lia. }
  assert (Hgr : 0 ≤ g ∧ g + nbytes < 2 ^ 63) by (rewrite Hg; cbn [ob_offs object_at o]; unfold GGML_OBJECT_SIZE; lia).
  eexists _, g, (graph_pointers g size hash_size grads). split; [reflexivity|].
  rewrite (graph_steps size hash_size grads Hsize Hhash g) by (rewrite <- ?Hnbytes; done || lia). rewrite <- Hnbytes. cbn [ga_nodes ga_leafs ga_hash_keys ga_grads ga_hash_used ga_end].
  unfold sizeof_ggml_cgraph, sizeof_ptr, sizeof_bitset. split.
  { apply (object_keeps s GGML_OBJECT_TYPE_GRAPH nbytes _ (Some o) P); [done|lia|]. exact Hob. }
  split; [done|]. split; [exists o; split_and!; [done|done|cbn; lia]|].
  assert (Hgm' : (g + 80) mod 8 = 0) by (rewrite Z.add_mod, Hgm by lia; done).
  rewrite Hnbytes. unfold graph_size. destruct grads; split_and!; done || lia.
Qed.

(** A graph of 8 tensors with gradients in an empty pool. *)
Definition ex_graph_store : store :=
  mk_store (mk_context 4096 65536 true false false 0 [] no_scratch no_scratch) ∅.

Lemma ex_graph_pool : pool ex_graph_store.
Proof.
  split; cbn; [split; cbn; try done; lia|done|done|split; [done|apply map_Forall_empty]|by left|done].
Qed.

Lemma graph_object_exact_witness : ∃ s' g A, new_graph_object ex_graph_store 8 true = Ok (s', g, A) ∧ ga_end A = g + 412.
Proof.
  destruct (graph_object_exact ex_graph_store 8 17 true ex_graph_pool ltac:(lia) ltac:(cbn; lia) ltac:(vm_compute; reflexivity))
    as (nbytes & Hn & H). vm_compute in Hn. injection Hn as <-.
  destruct (decide _) as [_|Hno] in H; [|by exfalso; apply Hno; vm_compute].
  destruct H as (s' & g & A & Hrun & _ & _ & _ & _ & _ & _ & _ & _ & Hend & _). exists s', g, A. by split.
Defined.
